(* ===== verification/_CoqProject ===== *)
-Q . S2P
Prelude.v
Intset.v
Util.v
Sds.v
SdsProofs.v
SdsHistory.v
SdsText.v
Networking.v
NetworkingProofs.v
RequestStream.v
Lzf.v
LzfProofs.v
Rdb.v
RdbProofs.v
Glob.v
Listpack.v
ListpackRepr.v
ListpackElem.v
ListpackEdit.v
Dict.v
DictProofs.v
DictMap.v
DictIter.v
DictScan.v
DictExamples.v
Kvstore.v
KvstoreProofs.v
KvstoreMap.v
Skiplist.v
SkiplistOrder.v
SkiplistRepr.v
SkiplistLinks.v
SkiplistProofs.v
SkiplistInsert.v
SkiplistDelete.v
SkiplistUpdate.v
SkiplistRank.v
SkiplistRange.v
SkiplistNth.v
SkiplistDeleteRange.v
Zset.v
ZsetProofs.v
ZsetHistory.v
ZsetExamples.v
DictSet.v
ListpackValues.v
SetType.v
SetTypeRepr.v
SetTypeProofs.v
SetCommands.v
SetCommandsProofs.v
SetAlgebra.v
SetHistory.v
Linked.v
Adlist.v
AdlistProofs.v
AdlistHistory.v
Post.v
Quicklist.v
QuicklistRepr.v
QuicklistNodes.v
QuicklistCompress.v
QuicklistEdit.v
QuicklistPush.v
QuicklistPop.v
QuicklistIter.v
QuicklistSeek.v
QuicklistSplit.v
QuicklistMerge.v
QuicklistInsert.v
QuicklistReplace.v
QuicklistRange.v
QuicklistDup.v
QuicklistHistory.v
QuicklistExamples.v
ListType.v
ListRepr.v
ListSpec.v
ListPerform.v
ListHistory.v
