(* ===== verification/Prelude.v ===== *)
(** * Redis core data structures: a verification development

    This library models the data structures and codecs at the core of the Redis
    server kept under [src/redis-stable/src], and proves them correct.  The rest
    of the repository (a TypeScript bridge, vendored libraries) is glue around
    that server and is not modelled.

    ** Conventions

    A definition has the name of the C function it translates and its guards in
    the order of the code.  C integers are [Z] with their wrap-around written out
    ([uwrap], [swrap]); a buffer is a [list Z] of bytes of known length, and every
    read and write of it is bounds-checked ([rd], [wr], [byte_at], [memmove]): an
    access outside gives [None].  So a theorem that says that an operation
    returns [Some] says that the C code stays inside its memory and that none of
    its assertions fails.  The bytes an allocation leaves uninitialised are an
    argument.  Random numbers, hash functions, addresses returned by the allocator
    and the answers of the allocator are arguments too.  Loops that are not
    structural take fuel; the theorems are total: they say that the fuel the
    definition itself computes from its input is enough.

    ** Parts

    - [Prelude] (this file): machine integers, buffers, little-endian integers,
      decimal strings, tactics ([zb], [dlia], [case_if]), a hint database and list lemmas.
    - [Intset] (intset.c): the packed integer sets, byte by byte: encodings,
      binary search, in-place upgrade, insertion, removal, validation of
      untrusted blobs.  They refine finite sets of 64-bit integers.
    - [Util] (util.c): [ll2string], [string2ll]: print and parse are inverse.
    - [Sds], [SdsProofs], [SdsHistory] (sds.c, sds.h): the five header layouts,
      growth, resizing, appending, trimming, as bytes in memory; any history of
      operations is a history of byte strings.  [SdsText]: splitting, joining,
      quoting and unquoting, comparison.
    - [Networking], [NetworkingProofs], [RequestStream] (networking.c): the
      multibulk and inline parsers, [processInputBuffer] and
      [readQueryFromClient]; the commands executed do not depend on how the
      bytes were cut into reads.
    - [Lzf], [LzfProofs] (lzf_c.c, lzf_d.c): compression and decompression;
      decompression undoes compression, and is safe on any input.
    - [Rdb], [RdbProofs] (rdb.c, rio.c, object.c): lengths, integers, compressed
      and plain strings through an in-memory rio: round trips, safety of loading
      arbitrary bytes, rejection of truncated files.
    - [Glob] (util.c): [stringmatchlen] against a reference semantics of patterns.
    - [Listpack], [ListpackRepr], [ListpackElem], [ListpackEdit] (listpack.c):
      entry encodings, traversal, insertion, deletion, batches, merging, search
      and validation at byte level, refining lists of values.
    - [Dict] (dict.c): tables, chains, incremental rehashing, automatic
      resizing, two-phase deletion, cursors.  [DictProofs] has the invariant and
      the effect of each operation, [DictMap] the interface for clients (classes
      [DictApi] and [DictLaws]), its instance and the refinement of histories,
      [DictScan] the guarantee of a scan across resizes, [DictExamples] runs.
    - [Kvstore], [KvstoreProofs], [KvstoreMap] (kvstore.c): the array of dicts with
      its counters and binary indexed tree, proved over the interface of the dict: a
      refinement of an array of finite maps; Module [KvstoreExamples]: a store of dicts.
    - [Skiplist] (t_zset.c): skip lists as nodes in a heap (a [gmap] from
      addresses), with the loops of the code on levels, spans and back pointers;
      scores are a class, of which doubles ([SpecFloat]) are an instance
      ([SkiplistOrder]).  [SkiplistRepr]: heaps pointwise and what a search finds;
      [SkiplistLinks]: the cells after linking or unlinking a node;
      [SkiplistProofs]: the invariant [repr]; [SkiplistInsert], [SkiplistDelete],
      [SkiplistUpdate], [SkiplistRank], [SkiplistRange], [SkiplistNth],
      [SkiplistDeleteRange]: one group of operations each.
    - [Zset], [ZsetProofs] (t_zset.c): sorted sets over a dict, known by its
      interface, and a skip list that shares its nodes with the dict.
      [ZsetHistory]: histories against finite maps, and the theorems of the skip
      list on its own; [ZsetExamples] applies them to a concrete list and set.
    - [DictIter] (dict.c): safe and unsafe iterators with their fingerprint.
      [DictSet]: the dict as a set of strings (classes [SetApi] and [SetLaws]).
    - [SetType], [SetTypeRepr], [SetTypeProofs] (t_set.c, object.c): sets as
      intsets, listpacks or dicts with the conversions between them; iteration.
      [SetCommands], [SetCommandsProofs], [SetAlgebra] (t_set.c): the commands on a
      data base of sets, with intersections, unions and differences.
      [SetHistory]: histories against finite maps of finite sets, and the encodings
      they leave; its Module [SetExamples]: a history through the three encodings.
    - [Linked]: heaps of doubly linked nodes in general, with the segments between
      two pointers.  [Adlist], [AdlistProofs] (adlist.c): the generic list over them;
      [AdlistHistory]: histories against lists of values, copies, and a run
      (Module [AdlistExamples]).
    - [Post]: postconditions of fallible computations and the rule for sequences.
    - [Quicklist] (quicklist.c, quicklist.h): lists of nodes in a heap, each with one
      large element or a listpack, raw or compressed with [Lzf].  [QuicklistRepr]: the
      nodes as a sequence, linking and unlinking; [QuicklistNodes]: listpacks within
      the limits of a node; [QuicklistCompress]: what compression keeps and which
      nodes it leaves alone; [QuicklistEdit]: the invariant [qinv], insertion and
      deletion of nodes; [QuicklistPush], [QuicklistPop], [QuicklistIter],
      [QuicklistSeek], [QuicklistSplit], [QuicklistMerge], [QuicklistInsert],
      [QuicklistReplace], [QuicklistRange], [QuicklistDup]: one group of operations
      each.  [QuicklistHistory]: histories against lists of strings, bounds of the
      nodes, which nodes are compressed, copies; [QuicklistExamples].
    - [ListType] (t_list.c, object.c): lists as listpacks or quicklists, their
      conversions, ends and iterators; its Module [ListCommands]: the commands on a
      data base of lists, with all quicklists in one heap.  [ListRepr]: what an object
      stands for, conversions, with [ListEnds] (ends, ranges, copies) and [ListIter]
      (iterators over either encoding).  [ListSpec]: the commands on a map of lists,
      with [ListLoops] (the loops of the commands) and [ListDb] (the data base and its
      heap).  [ListPerform]: every command performs its step.  [ListHistory]:
      histories against finite maps of lists, with [ListExamples] (a history, and two
      findings).

    ** What the theorems show

    Refinements of abstract types (sets, lists, maps, byte strings) for the
    mutating operations, one operation at a time and over whole histories;
    round trips of the encodings; safety on untrusted input (intset, listpack,
    LZF and RDB loaders, request parser); termination and bounds where loops are
    not obviously finite (rehashing, scan, parsing).  The examples and witnesses
    apply the theorems to concrete inputs by evaluation.

    ** Not modelled, and why

    - Within the modelled parts: printf-style formatting, random sampling,
      defragmentation, statistics, and functions
      that only free memory.
    - Values made of doubles beyond their order, reference counting, the
      command table, replies, the key space with expiry and eviction,
      persistence of whole files, replication, cluster, sentinel, event loop,
      threads, scripting and modules: state spread over the whole server or
      system calls.
    - Third-party libraries under [deps] and the bridge application.

    ** Next

    The listpack encoding of sorted sets, lexicographic searches, the
    blocking list commands, the radix tree, the bit field commands, transactions, expiry over
    the key-value store. *)

From Stdlib Require Import ZArith Lia.
From Stdlib Require Ascii String.
From stdpp Require Export base tactics option list numbers.

#[global] Set Default Goal Selector "1".
#[global] Open Scope Z_scope.
#[export] Set Warnings "-clear-no-such-hyp".

(** ** Machine integers *)

Definition UINT8_MAX : Z := 255.
Definition UINT16_MAX : Z := 65535.
Definition UINT32_MAX : Z := 4294967295.
Definition UINT64_MAX : Z := 18446744073709551615.
Definition INT16_MIN : Z := -32768.
Definition INT16_MAX : Z := 32767.
Definition INT32_MIN : Z := -2147483648.
Definition INT32_MAX : Z := 2147483647.
Definition INT64_MIN : Z := -9223372036854775808.
Definition INT64_MAX : Z := 9223372036854775807.

Definition is_int64 (v : Z) : Prop := INT64_MIN <= v <= INT64_MAX.

(** Reduction to an unsigned / two's complement signed integer of [w] bits. *)
Definition uwrap (w v : Z) : Z := v mod 2 ^ w.
Definition swrap (w v : Z) : Z := (v + 2 ^ (w - 1)) mod 2 ^ w - 2 ^ (w - 1).

(** ** Bytes and buffers *)

Definition zlen {A} (l : list A) : Z := Z.of_nat (length l).

Definition is_byte (b : Z) : Prop := 0 <= b < 256.
Definition wf_bytes (l : list Z) : Prop := Forall is_byte l.

(** [sub off n b]: the [n] bytes of [b] at offset [off]. *)
Definition sub {A} (off n : Z) (b : list A) : list A :=
  take (Z.to_nat n) (drop (Z.to_nat off) b).

(** A C read of [n] bytes at [off]; [None] when it leaves the buffer. *)
Definition rd {A} (off n : Z) (b : list A) : option (list A) :=
  if (0 <=? off) && (0 <=? n) && (off + n <=? zlen b)
  then Some (sub off n b) else None.

(** A C write of [bs] at [off] ([memcpy], or a store of a wide integer). *)
Definition wr {A} (off : Z) (bs b : list A) : option (list A) :=
  if (0 <=? off) && (off + zlen bs <=? zlen b)
  then Some (take (Z.to_nat off) b ++ bs ++ drop (Z.to_nat (off + zlen bs)) b)
  else None.

(** [memmove(b+dst, b+src, n)]: the source is read before the write. *)
Definition memmove {A} (dst src n : Z) (b : list A) : option (list A) :=
  s ← rd src n b; wr dst s b.

(** [b[i]]. *)
Definition byte_at {A} (i : Z) (b : list A) : option A :=
  if 0 <=? i then b !! Z.to_nat i else None.

(** [zrealloc(b, n)]: the common prefix is kept, new bytes hold whatever the
    allocator left there, here the byte [junk]. *)
Definition zrealloc {A} (junk : A) (n : Z) (b : list A) : list A :=
  take (Z.to_nat n) b ++ replicate (Z.to_nat (n - zlen b)) junk.

(** Little-endian integers of [n] bytes. *)
Fixpoint le_bytes (n : nat) (v : Z) : list Z :=
  match n with
  | O => []
  | S n => v mod 256 :: le_bytes n (v / 256)
  end.

Fixpoint le_val (bs : list Z) : Z :=
  match bs with
  | [] => 0
  | b :: bs => b + 256 * le_val bs
  end.

(** ** Strings as bytes *)

Fixpoint bytes_of_string (s : String.string) : list Z :=
  match s with
  | String.EmptyString => []
  | String.String a s => Z.of_N (Ascii.N_of_ascii a) :: bytes_of_string s
  end.
Arguments bytes_of_string _%_string_scope.

(** ** Automation *)

Create HintDb redis discriminated.

Ltac zb := rewrite ?Z.leb_le, ?Z.ltb_lt, ?Z.eqb_eq, ?Z.leb_gt, ?Z.ltb_ge,
  ?Z.eqb_neq, ?andb_true_iff, ?andb_false_iff, ?orb_true_iff, ?orb_false_iff,
  ?negb_true_iff, ?negb_false_iff in *.

(** [lia] with the defining inequalities of [/] and [mod]. *)
Ltac dlia := Z.div_mod_to_equations; lia.

(** Case analysis on the first boolean comparison tested by an [if]. *)
Ltac case_if :=
  match goal with
  | |- context [if ?b then _ else _] =>
      match type of b with bool => destruct b eqn:?; zb end
  | H : context [if ?b then _ else _] |- _ =>
      match type of b with bool => destruct b eqn:?; zb end
  end.

(** ** Generic lemmas *)

Section Lists.
Context {A : Type}.
Implicit Types l b s : list A.

Lemma zlen_nil : zlen (@nil A) = 0.
Proof. done. Qed.
Lemma zlen_cons (x : A) l : zlen (x :: l) = 1 + zlen l.
Proof. unfold zlen. simpl. lia. Qed.
Lemma zlen_app l k : zlen (l ++ k) = zlen l + zlen k.
Proof. unfold zlen. rewrite length_app. lia. Qed.
Lemma zlen_nonneg l : 0 <= zlen l.
Proof. unfold zlen. lia. Qed.
Lemma zlen_0_nil l : zlen l = 0 → l = [].
Proof. destruct l; [done|]. rewrite zlen_cons. pose proof (zlen_nonneg l). lia. Qed.
Lemma zlen_replicate n (x : A) : zlen (replicate n x) = Z.of_nat n.
Proof. unfold zlen. by rewrite length_replicate. Qed.
Lemma zlen_take n l : zlen (take n l) = Z.min (Z.of_nat n) (zlen l).
Proof. unfold zlen. rewrite length_take. lia. Qed.
Lemma zlen_drop n l : zlen (drop n l) = Z.max 0 (zlen l - Z.of_nat n).
Proof. unfold zlen. rewrite length_drop. lia. Qed.
Lemma zlen_fmap {B} (f : A → B) l : zlen (f <$> l) = zlen l.
Proof. unfold zlen. by rewrite length_fmap. Qed.

Lemma zlen_sub off n b :
  0 <= off → 0 <= n → off + n <= zlen b → zlen (sub off n b) = n.
Proof. intros. unfold sub. rewrite zlen_take, zlen_drop. lia. Qed.

Lemma rd_Some off n b s :
  rd off n b = Some s ↔
  0 <= off ∧ 0 <= n ∧ off + n <= zlen b ∧ s = sub off n b.
Proof.
  unfold rd. case_if; split.
  - intros [= <-]. intuition lia.
  - intros (_ & _ & _ & ->). done.
  - done.
  - intros. exfalso. intuition lia.
Qed.

Lemma rd_in off n b :
  0 <= off → 0 <= n → off + n <= zlen b → rd off n b = Some (sub off n b).
Proof. intros. by apply rd_Some. Qed.

Lemma rd_len off n b s : rd off n b = Some s → zlen s = n.
Proof. intros (? & ? & ? & ->)%rd_Some. by apply zlen_sub. Qed.

Lemma rd_0 off b : 0 <= off <= zlen b → rd off 0 b = Some [].
Proof. intros. apply rd_Some. split_and!; try lia; done. Qed.

Lemma rd_all b : rd 0 (zlen b) b = Some b.
Proof.
  apply rd_Some. pose proof (zlen_nonneg b). split_and!; try lia.
  unfold sub, zlen. rewrite Nat2Z.id, drop_0. by rewrite firstn_all.
Qed.

Lemma rd_app o n m b s1 s2 :
  rd o n b = Some s1 → rd (o + n) m b = Some s2 →
  rd o (n + m) b = Some (s1 ++ s2).
Proof.
  intros (? & ? & ? & ->)%rd_Some (? & ? & ? & ->)%rd_Some.
  apply rd_Some. split_and!; try lia. unfold sub.
  rewrite (Z2Nat.inj_add o n), (Z2Nat.inj_add n m) by lia.
  by rewrite <- drop_drop, take_take_drop.
Qed.

Lemma rd_split o n m b s :
  0 <= n → 0 <= m → rd o (n + m) b = Some s →
  rd o n b = Some (take (Z.to_nat n) s) ∧
  rd (o + n) m b = Some (drop (Z.to_nat n) s).
Proof.
  intros ?? (? & ? & ? & ->)%rd_Some. split; apply rd_Some; split_and!; try lia.
  - unfold sub. rewrite take_take. f_equal. lia.
  - unfold sub. rewrite (Z2Nat.inj_add o n), <- drop_drop, skipn_firstn_comm by lia.
    f_equal. lia.
Qed.

(** A read inside a buffer given as a concatenation. *)
Lemma rd_mid p s q : rd (zlen p) (zlen s) (p ++ s ++ q) = Some s.
Proof.
  pose proof (zlen_nonneg p). pose proof (zlen_nonneg s). pose proof (zlen_nonneg q).
  apply rd_Some. rewrite !zlen_app. split_and!; try lia.
  unfold sub, zlen. rewrite !Nat2Z.id, drop_app_length, take_app_length. done.
Qed.

Lemma wr_Some off bs b b' :
  wr off bs b = Some b' ↔
  0 <= off ∧ off + zlen bs <= zlen b ∧
  b' = take (Z.to_nat off) b ++ bs ++ drop (Z.to_nat (off + zlen bs)) b.
Proof.
  unfold wr. case_if; split.
  - intros [= <-]. intuition lia.
  - intros (_ & _ & ->). done.
  - done.
  - intros. exfalso. intuition lia.
Qed.

Lemma wr_in off bs b :
  0 <= off → off + zlen bs <= zlen b → is_Some (wr off bs b).
Proof. intros. eexists. by apply wr_Some. Qed.

Lemma wr_len off bs b b' : wr off bs b = Some b' → zlen b' = zlen b.
Proof.
  intros (? & ? & ->)%wr_Some. pose proof (zlen_nonneg bs).
  rewrite !zlen_app, zlen_take, zlen_drop. lia.
Qed.

(** A write replaces exactly the bytes it covers. *)
Lemma wr_mid p s q t :
  zlen s = zlen t → wr (zlen p) t (p ++ s ++ q) = Some (p ++ t ++ q).
Proof.
  intros E. pose proof (zlen_nonneg p). pose proof (zlen_nonneg q).
  apply wr_Some. rewrite !zlen_app. split_and!; try lia.
  rewrite <- E. rewrite <- zlen_app. unfold zlen. rewrite !Nat2Z.id.
  rewrite take_app_length, (app_assoc p s q), drop_app_length. done.
Qed.

Lemma rd_wr_same off bs b b' :
  wr off bs b = Some b' → rd off (zlen bs) b' = Some bs.
Proof.
  intros (? & ? & ->)%wr_Some. pose proof (zlen_nonneg bs).
  assert (E : off = zlen (take (Z.to_nat off) b)) by (rewrite zlen_take; lia).
  rewrite E at 1. apply rd_mid.
Qed.

Lemma rd_wr_disj off bs b b' o n :
  wr off bs b = Some b' → o + n <= off ∨ off + zlen bs <= o →
  rd o n b' = rd o n b.
Proof.
  intros Hw Ho. pose proof (wr_len _ _ _ _ Hw) as Hl.
  apply wr_Some in Hw as (? & ? & ->). pose proof (zlen_nonneg bs).
  unfold rd. rewrite Hl. case_if; [|done]. f_equal. unfold sub.
  assert (0 <= o ∧ 0 <= n ∧ o + n <= zlen b) as (?&?&?) by intuition lia.
  unfold zlen in *. destruct Ho.
  - rewrite drop_app_le by (rewrite length_take; lia).
    rewrite take_app_le by (rewrite length_drop, length_take; lia).
    rewrite skipn_firstn_comm, take_take. f_equal. lia.
  - rewrite app_assoc, drop_app_ge by (rewrite length_app, length_take; lia).
    rewrite length_app, length_take, drop_drop. do 2 f_equal. lia.
Qed.

Lemma byte_at_rd i b : byte_at i b = (s ← rd i 1 b; head s).
Proof.
  unfold byte_at, rd, sub. case_if; simpl; [|done].
  change (Z.to_nat 1) with 1%nat. case_if; simpl.
  - rewrite <- (Nat.add_0_r (Z.to_nat i)) at 1. rewrite <- lookup_drop.
    by destruct (drop (Z.to_nat i) b).
  - apply lookup_ge_None. unfold zlen in *. lia.
Qed.

(** Reads of a part of a buffer given as a concatenation. *)
Lemma rd_inside (p s q : list A) i n :
  0 <= i → 0 <= n → i + n <= zlen s → rd (zlen p + i) n (p ++ s ++ q) = rd i n s.
Proof.
  intros. pose proof (zlen_nonneg p). pose proof (zlen_nonneg q).
  rewrite !rd_in by (rewrite ?zlen_app; lia). f_equal. unfold sub.
  replace (Z.to_nat (zlen p + i)) with (length p + Z.to_nat i)%nat by (unfold zlen; lia).
  rewrite <- drop_drop, drop_app_length. unfold zlen in *.
  rewrite drop_app_le by lia. rewrite take_app_le; [done|]. rewrite length_drop. lia.
Qed.

Lemma byte_at_inside (p s q : list A) i :
  0 <= i < zlen s → byte_at (zlen p + i) (p ++ s ++ q) = byte_at i s.
Proof. intros. rewrite !byte_at_rd, rd_inside by lia. done. Qed.

Lemma byte_at_lt i b x : byte_at i b = Some x → 0 <= i < zlen b.
Proof.
  unfold byte_at. case_if; [|done]. intros Hl%lookup_lt_Some. unfold zlen. lia.
Qed.

Lemma byte_at_in i b : 0 <= i < zlen b → is_Some (byte_at i b).
Proof.
  intros. unfold byte_at. case_if; [|lia]. apply lookup_lt_is_Some. unfold zlen in *. lia.
Qed.

Lemma zrealloc_len junk n b : 0 <= n → zlen (zrealloc junk n b) = n.
Proof.
  intros. unfold zrealloc. rewrite zlen_app, zlen_take, zlen_replicate.
  pose proof (zlen_nonneg b). lia.
Qed.

Lemma zrealloc_grow junk n b :
  zlen b <= n → zrealloc junk n b = b ++ replicate (Z.to_nat (n - zlen b)) junk.
Proof. intros. unfold zrealloc. rewrite take_ge by (unfold zlen in *; lia). done. Qed.

Lemma zrealloc_shrink junk n b :
  n <= zlen b → zrealloc junk n b = take (Z.to_nat n) b.
Proof.
  intros. unfold zrealloc. rewrite (Z2Nat.nonpos (n - zlen b)) by lia.
  by rewrite app_nil_r.
Qed.

Implicit Types p q r t : list A.

(** [memmove] opening a gap of [zlen r] bytes after [p]... *)
Lemma memmove_insert p q r :
  memmove (zlen p + zlen r) (zlen p) (zlen q) (p ++ q ++ r)
  = Some (p ++ take (length r) (q ++ r) ++ q).
Proof.
  unfold memmove. rewrite rd_mid. simpl.
  replace (p ++ q ++ r) with
    ((p ++ take (length r) (q ++ r)) ++ drop (length r) (q ++ r) ++ [])
    by (rewrite app_nil_r, <- app_assoc, take_drop; done).
  replace (zlen p + zlen r) with (zlen (p ++ take (length r) (q ++ r))).
  - rewrite wr_mid; [by rewrite app_nil_r, <- app_assoc|].
    rewrite zlen_drop, zlen_app. unfold zlen. lia.
  - rewrite zlen_app, zlen_take, zlen_app. unfold zlen. lia.
Qed.

(** ... and closing the gap [s] between [p] and [q]. *)
Lemma memmove_delete p s q :
  memmove (zlen p) (zlen p + zlen s) (zlen q) (p ++ s ++ q)
  = Some (p ++ q ++ drop (length q) (s ++ q)).
Proof.
  unfold memmove.
  assert (rd (zlen p + zlen s) (zlen q) (p ++ s ++ q) = Some q) as ->.
  { pose proof (rd_mid (p ++ s) q []) as E.
    by rewrite app_nil_r, zlen_app, <- app_assoc in E. }
  simpl. rewrite <- (take_drop (length q) (s ++ q)) at 1. apply wr_mid.
  rewrite zlen_take, zlen_app. unfold zlen. lia.
Qed.

(** The same with the offsets as side conditions. *)
Lemma rd_at p s q o n : o = zlen p → n = zlen s → rd o n (p ++ s ++ q) = Some s.
Proof. intros -> ->. apply rd_mid. Qed.

Lemma wr_at p s q t o :
  o = zlen p → zlen s = zlen t → wr o t (p ++ s ++ q) = Some (p ++ t ++ q).
Proof. intros ->. apply wr_mid. Qed.

(** [memmove] of [q] to offset [k] of the part [X] of the buffer. *)
Lemma memmove_into p X q src k :
  0 <= k → k + zlen q <= zlen X → rd src (zlen q) (p ++ X) = Some q →
  memmove (zlen p + k) src (zlen q) (p ++ X)
  = Some (p ++ take (Z.to_nat k) X ++ q ++ drop (Z.to_nat (k + zlen q)) X).
Proof.
  intros Hk Hl Hr. unfold memmove. rewrite Hr. cbn [mbind option_bind].
  pose proof (zlen_nonneg q).
  rewrite <- (take_drop (Z.to_nat k) X) at 1.
  rewrite <- (take_drop (Z.to_nat (zlen q)) (drop (Z.to_nat k) X)), drop_drop.
  rewrite <- Z2Nat.inj_add by done. rewrite app_assoc.
  rewrite (wr_at (p ++ take (Z.to_nat k) X)).
  - by rewrite <- app_assoc.
  - rewrite zlen_app, zlen_take. lia.
  - rewrite zlen_take, zlen_drop. lia.
Qed.

(** Reallocation to at least the size of a prefix keeps it. *)
Lemma zrealloc_prefix junk n p s :
  zlen p <= n → ∃ s', zrealloc junk n (p ++ s) = p ++ s' ∧ zlen s' = n - zlen p.
Proof.
  intros Hl. pose proof (zlen_nonneg p). pose proof (zlen_nonneg s).
  destruct (Z.le_ge_cases (zlen (p ++ s)) n) as [Hn|Hn].
  - rewrite zrealloc_grow by done. rewrite <- app_assoc. eexists. split; [done|].
    rewrite !zlen_app in *. rewrite zlen_replicate. lia.
  - rewrite zrealloc_shrink, take_app_ge by (done || (unfold zlen in *; lia)).
    eexists. split; [done|]. rewrite zlen_app in Hn. rewrite zlen_take. unfold zlen in *. lia.
Qed.

Lemma rd_head s q n : n = zlen s → rd 0 n (s ++ q) = Some s.
Proof. intros ->. exact (rd_mid [] s q). Qed.

Lemma wr_head s q t : zlen s = zlen t → wr 0 t (s ++ q) = Some (t ++ q).
Proof. exact (wr_mid [] s q t). Qed.

Lemma byte_at_mid p x q o : o = zlen p → byte_at o (p ++ x :: q) = Some x.
Proof. intros ->. by rewrite byte_at_rd, (rd_at p [x] q). Qed.

Lemma byte_at_head b : byte_at 0 b = head b.
Proof. by destruct b. Qed.

Lemma take_app_zlen p q : take (Z.to_nat (zlen p)) (p ++ q) = p.
Proof. unfold zlen. by rewrite Nat2Z.id, take_app_length. Qed.
Lemma drop_app_zlen p q : drop (Z.to_nat (zlen p)) (p ++ q) = q.
Proof. unfold zlen. by rewrite Nat2Z.id, drop_app_length. Qed.
End Lists.

Lemma Forall_sub {A} (P : A → Prop) off n b : Forall P b → Forall P (sub off n b).
Proof. intros. unfold sub. by apply Forall_take, Forall_drop. Qed.

(** A decision procedure for [wf_bytes], to evaluate on concrete buffers. *)
Definition wf_bytesb (l : list Z) : bool := forallb (λ b, (0 <=? b) && (b <? 256)) l.

Lemma wf_bytesb_spec l : wf_bytesb l = true → wf_bytes l.
Proof.
  unfold wf_bytesb. rewrite forallb_forall. intros H. apply Forall_forall.
  intros x Hx. specialize (H x Hx). unfold is_byte. lia.
Qed.

(** ** Integers *)

Lemma pow256 n : 0 <= n → 256 ^ (n + 1) = 256 * 256 ^ n.
Proof. intros. rewrite Z.pow_add_r by lia. lia. Qed.

Lemma le_bytes_length n v : length (le_bytes n v) = n.
Proof. revert v. induction n; intros; simpl; auto. Qed.
Lemma le_bytes_zlen n v : zlen (le_bytes n v) = Z.of_nat n.
Proof. unfold zlen. by rewrite le_bytes_length. Qed.

Lemma le_bytes_wf n v : wf_bytes (le_bytes n v).
Proof.
  revert v. induction n; intros; constructor; [|apply IHn].
  unfold is_byte. apply Z.mod_pos_bound. lia.
Qed.

Lemma le_val_bytes n v : le_val (le_bytes n v) = v mod 256 ^ Z.of_nat n.
Proof.
  revert v. induction n as [|n IH]; intros v; simpl le_bytes; simpl le_val.
  - by rewrite Z.mod_1_r.
  - rewrite IH, Nat2Z.inj_succ. unfold Z.succ. rewrite pow256 by lia.
    rewrite Z.rem_mul_r by lia. lia.
Qed.

Lemma le_val_range bs : wf_bytes bs → 0 <= le_val bs < 256 ^ zlen bs.
Proof.
  induction 1 as [|b bs Hb _ IH]; simpl le_val; [unfold zlen; simpl; lia|].
  rewrite zlen_cons, (Z.add_comm 1), pow256 by apply zlen_nonneg.
  unfold is_byte in Hb. lia.
Qed.

Lemma le_bytes_val bs : wf_bytes bs → le_bytes (length bs) (le_val bs) = bs.
Proof.
  induction 1 as [|b bs Hb Hbs IH]; simpl; [done|].
  unfold is_byte in Hb. f_equal.
  - rewrite Z.mul_comm, Z.mod_add by lia. apply Z.mod_small. lia.
  - rewrite (Z.mul_comm 256), Z.div_add by lia.
    rewrite Z.div_small by lia. rewrite Z.add_0_l. exact IH.
Qed.

(** Only the value modulo [256 ^ n] matters for the encoding. *)
Lemma le_bytes_mod n v : le_bytes n v = le_bytes n (v mod 256 ^ Z.of_nat n).
Proof.
  rewrite <- le_val_bytes. pose proof (le_bytes_val (le_bytes n v) (le_bytes_wf n v)) as E.
  by rewrite le_bytes_length in E.
Qed.

(** ** Bit operations as arithmetic *)

Lemma lor_shiftl x y n :
  0 <= n → 0 <= x < 2 ^ n → Z.lor x (Z.shiftl y n) = x + y * 2 ^ n.
Proof.
  intros Hn Hx. rewrite <- Z.shiftl_mul_pow2 by done.
  rewrite <- Z.lxor_lor, Z.add_nocarry_lxor; [done|..];
    apply Z.bits_inj'; intros i Hi; rewrite Z.land_spec, Z.bits_0, Z.shiftl_spec by done;
    (destruct (Z.lt_ge_cases i n);
      [rewrite (Z.testbit_neg_r y) by lia; apply andb_false_r|]);
    rewrite <- (Z.mod_small x (2 ^ n)) by done;
    rewrite Z.mod_pow2_bits_high by lia; done.
Qed.

Lemma land_mask v k n : 0 <= n → k = 2 ^ n - 1 → Z.land v k = v mod 2 ^ n.
Proof.
  intros ? ->. replace (2 ^ n - 1) with (Z.ones n) by (rewrite Z.ones_equiv; lia).
  by apply Z.land_ones.
Qed.

Lemma land_255 v : Z.land v 255 = v mod 256.
Proof. by apply (land_mask v 255 8). Qed.
Lemma land_127 v : Z.land v 127 = v mod 128.
Proof. by apply (land_mask v 127 7). Qed.

Lemma shiftr_div v n : 0 <= n → Z.shiftr v n = v / 2 ^ n.
Proof. apply Z.shiftr_div_pow2. Qed.

(** Statements about all bytes, by enumeration. *)
Lemma byte_enum (P : Z → bool) :
  forallb (λ n : nat, P (Z.of_nat n)) (seq 0 256) = true → ∀ b, is_byte b → P b = true.
Proof.
  rewrite forallb_forall. intros H b [Hb1 Hb2]. specialize (H (Z.to_nat b)).
  rewrite Z2Nat.id in H by done. apply H, in_seq. lia.
Qed.

Lemma swrap_id w v : 0 < w → - 2 ^ (w - 1) <= v < 2 ^ (w - 1) → swrap w v = v.
Proof.
  intros Hw Hv. unfold swrap.
  assert (2 ^ w = 2 * 2 ^ (w - 1)).
  { rewrite <- Z.pow_succ_r by lia. f_equal. lia. }
  rewrite Z.mod_small; lia.
Qed.

Lemma swrap_mod w v : swrap w (v mod 2 ^ w) = swrap w v.
Proof. unfold swrap. by rewrite Zplus_mod_idemp_l. Qed.

Lemma uwrap_id w v : 0 <= v < 2 ^ w → uwrap w v = v.
Proof. intros. unfold uwrap. by apply Z.mod_small. Qed.

Lemma swrap64_id v : INT64_MIN <= v <= INT64_MAX → swrap 64 v = v.
Proof. intros. apply swrap_id; [lia|]. exact (conj (proj1 H) (Zle_lt_succ _ _ (proj2 H))). Qed.

Lemma uwrap64_id v : 0 <= v <= UINT64_MAX → uwrap 64 v = v.
Proof. unfold UINT64_MAX. intros. apply uwrap_id. lia. Qed.

#[export] Hint Resolve zlen_nonneg le_bytes_wf : redis.
#[global] Arguments le_bytes : simpl never.
