(* ===== verification/Intset.v ===== *)
(** * Integer sets ([src/redis-stable/src/intset.c])

    An intset is a header (encoding, length) followed by a packed array of
    little-endian signed integers of 2, 4 or 8 bytes, kept sorted and without
    duplicates.  The contents are modelled as the byte buffer the C code
    manipulates; every access is bounds checked and a [None] stands for an
    access outside the allocation (or a failed [assert]), so that a theorem
    whose conclusion is [Some _] includes memory safety. *)

From stdpp Require Import gmap sorting.
From S2P Require Import Prelude.

Module Intset.

Definition INTSET_ENC_INT16 : Z := 2.
Definition INTSET_ENC_INT32 : Z := 4.
Definition INTSET_ENC_INT64 : Z := 8.

Record intset := mkIntset {
  encoding : Z;
  len : Z;
  contents : list Z;
}.

(** [sizeof(intset)]: two [uint32_t] header fields. *)
Definition sizeof_intset : Z := 8.
Definition SIZE_MAX : Z := UINT64_MAX.

Section Ops.
(** The byte found in memory the allocator did not initialise. *)
Variable junk : Z.

Definition _intsetValueEncoding (v : Z) : Z :=
  if (v <? INT32_MIN) || (INT32_MAX <? v) then INTSET_ENC_INT64
  else if (v <? INT16_MIN) || (INT16_MAX <? v) then INTSET_ENC_INT32
  else INTSET_ENC_INT16.

Definition _intsetGetEncoded (st : intset) (pos enc : Z) : option Z :=
  if enc =? INTSET_ENC_INT64 then
    bs ← rd (pos * 8) 8 (contents st); Some (swrap 64 (le_val bs))
  else if enc =? INTSET_ENC_INT32 then
    bs ← rd (pos * 4) 4 (contents st); Some (swrap 32 (le_val bs))
  else
    bs ← rd (pos * 2) 2 (contents st); Some (swrap 16 (le_val bs)).

Definition _intsetGet (st : intset) (pos : Z) : option Z :=
  _intsetGetEncoded st pos (encoding st).

Definition set_contents (st : intset) (c : list Z) : intset :=
  mkIntset (encoding st) (len st) c.

Definition _intsetSet (st : intset) (pos value : Z) : option intset :=
  if encoding st =? INTSET_ENC_INT64 then
    c ← wr (pos * 8) (le_bytes 8 value) (contents st); Some (set_contents st c)
  else if encoding st =? INTSET_ENC_INT32 then
    c ← wr (pos * 4) (le_bytes 4 value) (contents st); Some (set_contents st c)
  else
    c ← wr (pos * 2) (le_bytes 2 value) (contents st); Some (set_contents st c).

Definition intsetNew : intset := mkIntset INTSET_ENC_INT16 0 [].

(** [n] is the new number of elements, a [uint32_t]. *)
Definition intsetResize (st : intset) (n : Z) : option intset :=
  let size := uwrap 64 (n * encoding st) in
  if size <=? SIZE_MAX - sizeof_intset
  then Some (set_contents st (zrealloc junk size (contents st)))
  else None.

(** The binary search loop of [intsetSearch]; [cur] and [mid] carry the last
    probe.  The result is the final [(min, mid, cur)]. *)
Fixpoint search_loop (fuel : nat) (st : intset) (value min max mid cur : Z)
  : option (Z * Z * Z) :=
  match fuel with
  | O => None
  | S fuel =>
      if min <=? max then
        let mid := Z.shiftr (uwrap 32 (uwrap 32 min + uwrap 32 max)) 1 in
        cur ← _intsetGet st mid;
        if cur <? value then search_loop fuel st value (mid + 1) max mid cur
        else if value <? cur then search_loop fuel st value min (mid - 1) mid cur
        else Some (min, mid, cur)
      else Some (min, mid, cur)
  end.

(** Returns the found flag and the position stored through [pos]. *)
Definition intsetSearch (st : intset) (value : Z) : option (bool * Z) :=
  let min := 0 in
  let max := swrap 32 (uwrap 32 (len st - 1)) in
  if len st =? 0 then Some (false, 0)
  else
    last ← _intsetGet st max;
    if last <? value then Some (false, len st)
    else
      first ← _intsetGet st 0;
      if value <? first then Some (false, 0)
      else
        '(min, mid, cur) ← search_loop (S (Z.to_nat (len st))) st value min max (-1) (-1);
        if value =? cur then Some (true, mid) else Some (false, min).

(** [while(length--) _intsetSet(is,length+prepend,_intsetGetEncoded(is,length,curenc))] *)
Fixpoint upgrade_loop (length : nat) (st : intset) (prepend curenc : Z)
  : option intset :=
  match length with
  | O => Some st
  | S length =>
      v ← _intsetGetEncoded st (Z.of_nat length) curenc;
      st ← _intsetSet st (Z.of_nat length + prepend) v;
      upgrade_loop length st prepend curenc
  end.

Definition intsetUpgradeAndAdd (st : intset) (value : Z) : option intset :=
  let curenc := encoding st in
  let newenc := _intsetValueEncoding value in
  let length := swrap 32 (len st) in
  let prepend := if value <? 0 then 1 else 0 in
  let st := mkIntset newenc (len st) (contents st) in
  st ← intsetResize st (uwrap 32 (len st + 1));
  st ← upgrade_loop (Z.to_nat length) st prepend curenc;
  st ← (if prepend =? 1 then _intsetSet st 0 value
        else _intsetSet st (swrap 32 (len st)) value);
  Some (mkIntset (encoding st) (uwrap 32 (len st + 1)) (contents st)).

Definition intsetMoveTail (st : intset) (from to : Z) : option intset :=
  let bytes := uwrap 32 (len st - from) in
  if encoding st =? INTSET_ENC_INT64 then
    c ← memmove (to * 8) (from * 8) (uwrap 32 (bytes * 8)) (contents st);
    Some (set_contents st c)
  else if encoding st =? INTSET_ENC_INT32 then
    c ← memmove (to * 4) (from * 4) (uwrap 32 (bytes * 4)) (contents st);
    Some (set_contents st c)
  else
    c ← memmove (to * 2) (from * 2) (uwrap 32 (bytes * 2)) (contents st);
    Some (set_contents st c).

(** Returns the set and the flag stored through [success]. *)
Definition intsetAdd (st : intset) (value : Z) : option (intset * bool) :=
  let valenc := _intsetValueEncoding value in
  if encoding st <? valenc then
    st ← intsetUpgradeAndAdd st value; Some (st, true)
  else
    '(found, pos) ← intsetSearch st value;
    if (found : bool) then Some (st, false)
    else
      st ← intsetResize st (uwrap 32 (len st + 1));
      st ← (if pos <? len st then intsetMoveTail st pos (uwrap 32 (pos + 1))
            else Some st);
      st ← _intsetSet st (swrap 32 pos) value;
      Some (mkIntset (encoding st) (uwrap 32 (len st + 1)) (contents st), true).

Definition intsetRemove (st : intset) (value : Z) : option (intset * bool) :=
  let valenc := _intsetValueEncoding value in
  if valenc <=? encoding st then
    '(found, pos) ← intsetSearch st value;
    if (found : bool) then
      let l := len st in
      st ← (if pos <? uwrap 32 (l - 1) then intsetMoveTail st (uwrap 32 (pos + 1)) pos
            else Some st);
      st ← intsetResize st (uwrap 32 (l - 1));
      Some (mkIntset (encoding st) (uwrap 32 (l - 1)) (contents st), true)
    else Some (st, false)
  else Some (st, false).

Definition intsetFind (st : intset) (value : Z) : option bool :=
  let valenc := _intsetValueEncoding value in
  if valenc <=? encoding st then
    '(found, _) ← intsetSearch st value; Some found
  else Some false.

(** [r] is the value drawn from [rand()]. *)
Definition intsetRandom (r : Z) (st : intset) : option Z :=
  if len st =? 0 then None
  else _intsetGet st (swrap 32 (r mod len st)).

Definition intsetMax (st : intset) : option Z :=
  _intsetGet st (swrap 32 (uwrap 32 (len st - 1))).

Definition intsetMin (st : intset) : option Z := _intsetGet st 0.

(** [Some None] when [pos] is out of range (the C function returns 0). *)
Definition intsetGet (st : intset) (pos : Z) : option (option Z) :=
  if pos <? len st then v ← _intsetGet st (swrap 32 pos); Some (Some v)
  else Some None.

Definition intsetLen (st : intset) : Z := len st.

Definition intsetBlobLen (st : intset) : Z :=
  uwrap 64 (sizeof_intset + uwrap 64 (len st * encoding st)).

(** The header is read from the blob [p] of [size] bytes. *)
Definition intset_of_blob (p : list Z) : option intset :=
  e ← rd 0 4 p; l ← rd 4 4 p;
  Some (mkIntset (le_val e) (le_val l) (drop 8 p)).

Definition blob_of_intset (st : intset) : list Z :=
  le_bytes 4 (encoding st) ++ le_bytes 4 (len st) ++ contents st.

Fixpoint validate_loop (n : nat) (st : intset) (i prev : Z) : option bool :=
  match n with
  | O => Some true
  | S n =>
      cur ← _intsetGet st (swrap 32 i);
      if cur <=? prev then Some false else validate_loop n st (uwrap 32 (i + 1)) cur
  end.

Definition intsetValidateIntegrity (p : list Z) (size : Z) (deep : bool)
  : option bool :=
  if size <? sizeof_intset then Some false
  else
    st ← intset_of_blob p;
    let enc := encoding st in
    if negb ((enc =? INTSET_ENC_INT64) || (enc =? INTSET_ENC_INT32)
             || (enc =? INTSET_ENC_INT16)) then Some false
    else
      let record_size := enc in
      let count := len st in
      if negb (uwrap 64 (sizeof_intset + uwrap 64 (count * record_size)) =? size)
      then Some false
      else if count =? 0 then Some false
      else if negb deep then Some true
      else
        prev ← _intsetGet st 0;
        validate_loop (Z.to_nat (count - 1)) st 1 prev.

End Ops.

(** ** Representation *)

Definition enc_ok (e : Z) : Prop := e = 2 ∨ e = 4 ∨ e = 8.
Definition fits (e v : Z) : Prop := - 2 ^ (8 * e - 1) <= v < 2 ^ (8 * e - 1).

(** The packed array of the integers [l] with [e] bytes each. *)
Fixpoint flat (e : Z) (l : list Z) : list Z :=
  match l with
  | [] => []
  | v :: l => le_bytes (Z.to_nat e) v ++ flat e l
  end.

(** Below this number of elements the [uint32_t] byte count of
    [intsetMoveTail] cannot wrap, whatever the encoding. *)
Definition safe_entries : Z := 536870912.

(** The contents of [st] are the packed sequence [l]... *)
Record array_of (st : intset) (l : list Z) : Prop := {
  array_enc : enc_ok (encoding st);
  array_len : len st = zlen l;
  array_max : zlen l < safe_entries;
  array_contents : contents st = flat (encoding st) l;
  array_fits : Forall (fits (encoding st)) l;
}.

(** ... and [l] is sorted without duplicates: the representation invariant. *)
Record repr (st : intset) (l : list Z) : Prop := {
  repr_array : array_of st l;
  repr_sorted : StronglySorted Z.lt l;
}.

Ltac enc_cases H :=
  let E := fresh in destruct H as [E|[E|E]]; rewrite ?E in *.

Lemma flat_app e l k : flat e (l ++ k) = flat e l ++ flat e k.
Proof. induction l; simpl; [done|]. by rewrite IHl, app_assoc. Qed.

Lemma flat_len e l : 0 <= e → zlen (flat e l) = zlen l * e.
Proof.
  intros He. induction l as [|v l IH]; [done|]. simpl.
  rewrite zlen_app, le_bytes_zlen, IH, zlen_cons. lia.
Qed.

Lemma fits_mono e e' v : enc_ok e → enc_ok e' → e <= e' → fits e v → fits e' v.
Proof. unfold fits. intros [->|[->| ->]] [->|[->| ->]] ?; simpl; lia. Qed.

Lemma valenc_ok v : enc_ok (_intsetValueEncoding v).
Proof. unfold _intsetValueEncoding, enc_ok. repeat case_if; auto. Qed.

Lemma valenc_fits v e :
  is_int64 v → enc_ok e → fits e v ↔ _intsetValueEncoding v <= e.
Proof.
  unfold is_int64, fits, INT64_MIN, INT64_MAX, _intsetValueEncoding,
    INT32_MIN, INT32_MAX, INT16_MIN, INT16_MAX.
  unfold INTSET_ENC_INT16, INTSET_ENC_INT32, INTSET_ENC_INT64.
  intros ? [->|[->| ->]]; simpl; repeat case_if; lia.
Qed.

Lemma decode_encode e v :
  enc_ok e → fits e v → swrap (8 * e) (le_val (le_bytes (Z.to_nat e) v)) = v.
Proof.
  intros He Hf. rewrite le_val_bytes.
  replace (256 ^ Z.of_nat (Z.to_nat e)) with (2 ^ (8 * e))
    by (enc_cases He; reflexivity).
  rewrite swrap_mod, swrap_id; [done|enc_cases He; lia|exact Hf].
Qed.

(** The three branches of the accessors, uniformly. *)
Lemma get_encoded_eq st pos e :
  enc_ok e → _intsetGetEncoded st pos e =
  (bs ← rd (pos * e) e (contents st); Some (swrap (8 * e) (le_val bs))).
Proof. intros H. enc_cases H; reflexivity. Qed.

Lemma set_eq st pos v :
  enc_ok (encoding st) → _intsetSet st pos v =
  (c ← wr (pos * encoding st) (le_bytes (Z.to_nat (encoding st)) v) (contents st);
   Some (set_contents st c)).
Proof. destruct st as [e n c]. simpl. intros H. enc_cases H; reflexivity. Qed.

Lemma move_eq st from to :
  enc_ok (encoding st) → intsetMoveTail st from to =
  (c ← memmove (to * encoding st) (from * encoding st)
         (uwrap 32 (uwrap 32 (len st - from) * encoding st)) (contents st);
   Some (set_contents st c)).
Proof. destruct st as [e n c]. simpl. intros H. enc_cases H; reflexivity. Qed.

Lemma get_encoded_rd st pos e v :
  enc_ok e → fits e v →
  rd (pos * e) e (contents st) = Some (le_bytes (Z.to_nat e) v) →
  _intsetGetEncoded st pos e = Some v.
Proof. intros He Hf Hr. rewrite get_encoded_eq, Hr by done. simpl. by rewrite decode_encode. Qed.

Lemma rd_flat e l i v q :
  0 <= e → 0 <= i → l !! Z.to_nat i = Some v →
  rd (i * e) e (flat e l ++ q) = Some (le_bytes (Z.to_nat e) v).
Proof.
  intros He Hi Hl. rewrite <- (take_drop_middle l _ v Hl), flat_app. simpl.
  rewrite <- !app_assoc.
  replace (i * e) with (zlen (flat e (take (Z.to_nat i) l))).
  - replace e with (zlen (le_bytes (Z.to_nat e) v)) at 2 by (rewrite le_bytes_zlen; lia).
    apply rd_mid.
  - apply lookup_lt_Some in Hl. rewrite flat_len, zlen_take by done. unfold zlen. lia.
Qed.

Lemma get_array st l i v :
  array_of st l → 0 <= i → l !! Z.to_nat i = Some v → _intsetGet st i = Some v.
Proof.
  intros [He _ _ Hc Hf] Hi Hl. apply get_encoded_rd; [done|by eapply Forall_lookup_1|].
  rewrite Hc, <- (app_nil_r (flat _ l)).
  apply rd_flat; [enc_cases He|..]; done || lia.
Qed.

Lemma get_repr st l i v :
  repr st l → 0 <= i → l !! Z.to_nat i = Some v → _intsetGet st i = Some v.
Proof. intros []. by apply get_array. Qed.

(** ** Searching *)

(** What a position returned for [value] means in the sorted sequence [l]. *)
Definition position_of (l : list Z) (value : Z) (found : bool) (pos : Z) : Prop :=
  0 <= pos <= zlen l ∧
  Forall (λ x, x < value) (take (Z.to_nat pos) l) ∧
  if found then l !! Z.to_nat pos = Some value
  else Forall (λ x, value < x) (drop (Z.to_nat pos) l).

Lemma sorted_lookup_lt (l : list Z) (i j : nat) x y :
  StronglySorted Z.lt l → (i < j)%nat → l !! i = Some x → l !! j = Some y → x < y.
Proof.
  intros Hs. revert i j. induction Hs as [|a l Hs IH Ha]; intros i j Hij Hi Hj; [done|].
  destruct j as [|j]; [lia|]. destruct i as [|i]; simpl in *.
  - injection Hi as ->. eapply (Forall_lookup_1 _ _ _ _ Ha Hj).
  - eapply (IH i j); [lia|done..].
Qed.

Lemma zlookup (l : list Z) i : 0 <= i < zlen l → ∃ x, l !! Z.to_nat i = Some x.
Proof. intros. apply lookup_lt_is_Some_2. unfold zlen in *. lia. Qed.

(** Values left of a smaller one are smaller, right of a larger one larger. *)
Lemma sorted_take_lt l i x value :
  StronglySorted Z.lt l → 0 <= i → l !! Z.to_nat i = Some x → x < value →
  Forall (λ y, y < value) (take (Z.to_nat (i + 1)) l).
Proof.
  intros Hs Hi Hx Hv. apply Forall_lookup. intros j y [Hy Hj]%lookup_take_Some.
  destruct (decide (j = Z.to_nat i)) as [->|]; [by simplify_eq|].
  enough (y < x) by lia. eapply (sorted_lookup_lt l j (Z.to_nat i)); eauto. lia.
Qed.

Lemma sorted_drop_gt l i x value :
  StronglySorted Z.lt l → 0 <= i → l !! Z.to_nat i = Some x → value < x →
  Forall (λ y, value < y) (drop (Z.to_nat i) l).
Proof.
  intros Hs Hi Hx Hv. apply Forall_lookup. intros j y Hy. rewrite lookup_drop in Hy.
  destruct j; [rewrite Nat.add_0_r in Hy; by simplify_eq|].
  enough (x < y) by lia. eapply (sorted_lookup_lt l (Z.to_nat i) (Z.to_nat i + S j)); eauto. lia.
Qed.

Lemma sorted_take_found l i value :
  StronglySorted Z.lt l → 0 <= i → l !! Z.to_nat i = Some value →
  Forall (λ y, y < value) (take (Z.to_nat i) l).
Proof.
  intros Hs Hi Hx. apply Forall_lookup. intros j y [Hy Hj]%lookup_take_Some.
  eapply (sorted_lookup_lt l j (Z.to_nat i)); eauto.
Qed.

(** The loop returns the probe that hit [value], or the insertion point;
    [max - min + 2] units of fuel are enough. *)
Lemma search_loop_spec st l value fuel min max mid cur :
  repr st l → 0 <= min → min <= max + 1 → max < zlen l →
  Forall (λ x, x < value) (take (Z.to_nat min) l) →
  Forall (λ x, value < x) (drop (Z.to_nat (max + 1)) l) →
  min <= max ∨ cur ≠ value →
  max - min + 2 <= Z.of_nat fuel →
  ∃ min' mid' cur', search_loop fuel st value min max mid cur = Some (min', mid', cur') ∧
    position_of l value (value =? cur') (if value =? cur' then mid' else min').
Proof.
  intros Hr. pose proof Hr as [[_ _ Hmax _ _] Hs]. unfold safe_entries in Hmax.
  revert min max mid cur. induction fuel as [|fuel IH]; intros min max mid cur ???? Hd Hc Hf; [lia|].
  cbn [search_loop]. case_if.
  - rewrite !uwrap_id by (rewrite ?uwrap_id; lia).
    rewrite Z.shiftr_div_pow2 by lia. change (2 ^ 1) with 2.
    set (m := (min + max) / 2). assert (min <= m <= max) by (subst m; dlia).
    destruct (zlookup l m) as [x Hx]; [lia|].
    rewrite (get_repr st l m x) by (done || lia). cbn [mbind option_bind].
    repeat case_if.
    + apply IH; try lia; eauto. eapply sorted_take_lt; eauto. lia.
    + replace (m - 1 + 1) with m in * by lia. apply IH; try lia; eauto.
      replace (m - 1 + 1) with m by lia. eapply sorted_drop_gt; eauto. lia.
    + assert (x = value) as -> by lia. do 3 eexists; split; [done|].
      rewrite Z.eqb_refl. split; [lia|]. split; [|done].
      eapply sorted_take_found; eauto. lia.
  - destruct Hc; [lia|]. do 3 eexists; split; [done|].
    replace (value =? cur) with false by (symmetry; apply Z.eqb_neq; done).
    replace min with (max + 1) in * by lia. split_and!; try lia; done.
Qed.

Lemma search_spec st l value :
  repr st l →
  ∃ found pos, intsetSearch st value = Some (found, pos) ∧ position_of l value found pos.
Proof.
  intros Hr. pose proof Hr as [[_ Hl Hmax _ _] Hs]. unfold safe_entries in Hmax.
  pose proof (zlen_nonneg l). unfold intsetSearch. rewrite Hl. case_if.
  { rewrite (zlen_0_nil l) by done. do 2 eexists; split; [done|]. repeat constructor; done. }
  rewrite uwrap_id by lia. rewrite swrap_id by (change (2 ^ (32 - 1)) with 2147483648; lia).
  destruct (zlookup l (zlen l - 1)) as [y Hy]; [lia|].
  destruct (zlookup l 0) as [x Hx]; [lia|].
  rewrite (get_repr st l (zlen l - 1) y), (get_repr st l 0 x) by (done || lia).
  cbn [mbind option_bind]. case_if.
  { do 2 eexists; split; [done|]. split; [lia|]. split.
    - replace (zlen l) with (zlen l - 1 + 1) by lia. eapply sorted_take_lt; eauto. lia.
    - rewrite drop_ge by (unfold zlen; lia). constructor. }
  case_if.
  { do 2 eexists; split; [done|]. split; [lia|]. split; [constructor|].
    eapply sorted_drop_gt; eauto. lia. }
  edestruct (search_loop_spec st l value (S (Z.to_nat (zlen l))) 0 (zlen l - 1) (-1) (-1))
    as (min' & mid' & cur' & E & Hp); try lia; eauto.
  { rewrite drop_ge by (unfold zlen; lia). constructor. }
  rewrite E. cbn [mbind option_bind]. case_if; eauto.
Qed.

(** The position determines membership. *)
Lemma position_found l value found pos :
  position_of l value found pos → (found = true ↔ value ∈ l).
Proof.
  intros (? & Ht & Hp). destruct found.
  - split; [intros _|done]. by eapply list_elem_of_lookup_2.
  - split; [done|]. rewrite <- (take_drop (Z.to_nat pos) l), elem_of_app.
    rewrite list.Forall_forall in Ht, Hp.
    intros [Hi|Hi]; [specialize (Ht _ Hi)|specialize (Hp _ Hi)]; lia.
Qed.

(** ** Updates *)

Lemma resize_eq junk st n :
  enc_ok (encoding st) → 0 <= n <= INT32_MAX →
  intsetResize junk st n
  = Some (set_contents st (zrealloc junk (n * encoding st) (contents st))).
Proof.
  unfold intsetResize, SIZE_MAX, UINT64_MAX, sizeof_intset, INT32_MAX.
  intros He Hn. rewrite uwrap_id by (enc_cases He; lia). case_if; [done|].
  enc_cases He; lia.
Qed.

(** The sequence with [value] inserted at [pos]. *)
Definition inserted (l : list Z) (pos value : Z) : list Z :=
  take (Z.to_nat pos) l ++ value :: drop (Z.to_nat pos) l.

Lemma inserted_sorted l pos value :
  StronglySorted Z.lt l → position_of l value false pos →
  StronglySorted Z.lt (inserted l pos value).
Proof.
  intros Hs (? & Ht & Hd). unfold inserted.
  rewrite <- (take_drop (Z.to_nat pos) l) in Hs.
  apply StronglySorted_app in Hs as (Hs1 & Hs2 & Hs3).
  apply StronglySorted_app. split_and!; [|done|by constructor].
  intros x y Hx Hy%elem_of_cons. rewrite list.Forall_forall in Ht, Hd.
  destruct Hy as [->|Hy]; auto.
Qed.

Lemma inserted_elem l pos value x : x ∈ inserted l pos value ↔ x = value ∨ x ∈ l.
Proof.
  unfold inserted. rewrite <- (take_drop (Z.to_nat pos) l) at 3.
  rewrite !elem_of_app, elem_of_cons. tauto.
Qed.

Lemma inserted_len l pos value : zlen (inserted l pos value) = zlen l + 1.
Proof.
  unfold inserted. rewrite <- (take_drop (Z.to_nat pos) l) at 3.
  rewrite !zlen_app, zlen_cons. lia.
Qed.

Lemma flat_take_drop e l pos :
  flat e l = flat e (take (Z.to_nat pos) l) ++ flat e (drop (Z.to_nat pos) l).
Proof. by rewrite <- flat_app, take_drop. Qed.

Lemma flat_take_len e l pos :
  0 <= e → 0 <= pos <= zlen l → zlen (flat e (take (Z.to_nat pos) l)) = pos * e.
Proof. intros. rewrite flat_len, zlen_take by done. f_equal. lia. Qed.

Lemma flat_drop_len e l pos :
  0 <= e → 0 <= pos <= zlen l →
  zlen (flat e (drop (Z.to_nat pos) l)) = (zlen l - pos) * e.
Proof. intros. rewrite flat_len, zlen_drop by done. f_equal. lia. Qed.

(** Opening a slot at [pos] of a grown array and storing [value] there. *)
Lemma shift_and_set st l pos value gap :
  enc_ok (encoding st) → len st = zlen l → zlen l < safe_entries →
  0 <= pos <= zlen l → zlen gap = encoding st →
  contents st = flat (encoding st) l ++ gap →
  (st ← (if pos <? len st then intsetMoveTail st pos (uwrap 32 (pos + 1)) else Some st);
   _intsetSet st (swrap 32 pos) value)
  = Some (set_contents st (flat (encoding st) (inserted l pos value))).
Proof.
  intros He Hlen Hmax Hpos Hg Hc. unfold safe_entries in *.
  assert (0 <= encoding st <= 8) by (enc_cases He; lia).
  rewrite swrap_id by (simpl; lia). rewrite uwrap_id by lia.
  set (e := encoding st) in *. set (p := flat e (take (Z.to_nat pos) l)).
  set (q := flat e (drop (Z.to_nat pos) l)).
  assert (Hp : zlen p = pos * e) by (apply flat_take_len; lia).
  assert (Hq : zlen q = (zlen l - pos) * e) by (apply flat_drop_len; lia).
  assert (Hpq : flat e l = p ++ q) by apply flat_take_drop.
  assert (Hend : ∀ c g, zlen g = e → c = p ++ g ++ q →
     _intsetSet (set_contents st c) pos value
     = Some (set_contents st (flat e (inserted l pos value)))).
  { intros c g Hge ->. rewrite set_eq by done. simpl. fold e. rewrite <- Hp.
    rewrite wr_mid by (rewrite le_bytes_zlen; lia). simpl.
    unfold inserted. by rewrite flat_app. }
  case_if.
  - rewrite move_eq by done. rewrite Hlen, Hc, Hpq, <- app_assoc.
    rewrite (uwrap_id 32 (zlen l - pos)) by lia. fold e.
    rewrite (uwrap_id 32 ((zlen l - pos) * e)) by nia.
    replace ((pos + 1) * e) with (zlen p + zlen gap) by lia. rewrite <- Hp, <- Hq.
    rewrite memmove_insert. simpl. eapply (Hend _ (take (length gap) (q ++ gap))); [|done].
    rewrite zlen_take, zlen_app. unfold zlen in *. lia.
  - assert (pos = zlen l) as Epos by lia. simpl.
    replace st with (set_contents st (contents st)) at 1 by by destruct st.
    apply (Hend _ gap); [done|]. rewrite Hc, Hpq.
    rewrite (zlen_0_nil q) by (rewrite Hq; lia). by rewrite !app_nil_r.
Qed.

(** In-place widening: the [n] lowest elements still have the old width [c],
    the others are already moved to their new place. *)
Definition widening (c e p : Z) (l : list Z) (n : nat) (buf : list Z) : Prop :=
  zlen buf = (zlen l + 1) * e ∧
  rd 0 (Z.of_nat n * c) buf = Some (flat c (take n l)) ∧
  rd ((Z.of_nat n + p) * e) ((zlen l - Z.of_nat n) * e) buf = Some (flat e (drop n l)).

Lemma widening_step c e p l n buf v :
  0 < c <= e → 0 <= p <= 1 → (n < length l)%nat → l !! n = Some v →
  widening c e p l (S n) buf →
  rd (Z.of_nat n * c) c buf = Some (le_bytes (Z.to_nat c) v) ∧
  ∃ buf', wr ((Z.of_nat n + p) * e) (le_bytes (Z.to_nat e) v) buf = Some buf' ∧
    widening c e p l n buf'.
Proof.
  intros Hce Hp Hn Hv (Hlen & Hlo & Hhi).
  assert (Hbe : zlen (le_bytes (Z.to_nat e) v) = e) by (rewrite le_bytes_zlen; lia).
  assert (zlen (le_bytes (Z.to_nat c) v) = c) as Hbc by (rewrite le_bytes_zlen; lia).
  assert (Hln : zlen (flat c (take n l)) = Z.of_nat n * c).
  { rewrite flat_len, zlen_take by lia. unfold zlen. lia. }
  rewrite (take_S_r _ _ _ Hv), flat_app in Hlo. simpl in Hlo. rewrite app_nil_r in Hlo.
  replace (Z.of_nat (S n) * c) with (Z.of_nat n * c + c) in Hlo by lia.
  apply rd_split in Hlo as [Hlo1 Hlo2]; [|lia..].
  rewrite <- Hln, take_app_zlen in Hlo1. rewrite <- Hln, drop_app_zlen in Hlo2.
  rewrite Z.add_0_l, Hln in Hlo2. split; [done|].
  assert (Z.of_nat n < zlen l) by (unfold zlen; lia).
  destruct (wr_in ((Z.of_nat n + p) * e) (le_bytes (Z.to_nat e) v) buf) as [buf' Hw];
    [nia|rewrite Hlen, Hbe; nia|].
  exists buf'. split; [done|]. split_and!.
  - by rewrite (wr_len _ _ _ _ Hw).
  - rewrite (rd_wr_disj _ _ _ _ 0 (Z.of_nat n * c) Hw) by (left; nia).
    by rewrite <- Hln.
  - rewrite (drop_S _ _ _ Hv). simpl.
    replace ((zlen l - Z.of_nat n) * e) with (e + (zlen l - Z.of_nat (S n)) * e) by lia.
    apply rd_app.
    + rewrite <- Hbe at 2. by eapply rd_wr_same.
    + replace ((Z.of_nat n + p) * e + e) with ((Z.of_nat (S n) + p) * e) by lia.
      rewrite (rd_wr_disj _ _ _ _ _ _ Hw); [done|]. right. rewrite Hbe. lia.
Qed.

Lemma upgrade_loop_spec l c p n st :
  enc_ok c → enc_ok (encoding st) → c <= encoding st → 0 <= p <= 1 →
  Forall (fits c) l → (n <= length l)%nat →
  widening c (encoding st) p l n (contents st) →
  ∃ buf, upgrade_loop n st p c = Some (set_contents st buf) ∧
    widening c (encoding st) p l 0 buf.
Proof.
  intros Hc He Hce Hp Hf. assert (0 < c) by (enc_cases Hc; lia).
  revert st He Hce. induction n as [|n IH]; intros st He Hce Hn Hw.
  { exists (contents st). split; [by destruct st|done]. }
  destruct (lookup_lt_is_Some_2 l n) as [v Hv]; [lia|].
  destruct (widening_step c (encoding st) p l n (contents st) v) as (Hrd & buf & Hwr & Hw');
    [lia..|done|done|].
  cbn [upgrade_loop]. rewrite (get_encoded_rd st _ c v); [|done| |done].
  2:{ by eapply Forall_lookup_1. }
  cbn [mbind option_bind]. rewrite set_eq, Hwr by done. cbn [mbind option_bind].
  destruct (IH (set_contents st buf)) as (buf' & -> & ?); eauto. lia.
Qed.

(** The new value lies outside the range of the present encoding, so it goes
    to one of the ends. *)
Lemma upgrade_position st l value :
  repr st l → is_int64 value → encoding st < _intsetValueEncoding value →
  position_of l value false (if value <? 0 then 0 else zlen l).
Proof.
  intros [[He _ _ _ Hf] _] Hv Henc. pose proof (zlen_nonneg l).
  assert (¬ fits (encoding st) value) as Hnf.
  { rewrite valenc_fits by done. lia. }
  assert (Hb : ∀ x, x ∈ l → fits (encoding st) x) by by rewrite <- list.Forall_forall.
  unfold fits in *. case_if; (split; [lia|split]).
  - constructor.
  - rewrite drop_0. apply list.Forall_forall. intros x Hx%Hb. lia.
  - apply Forall_take, list.Forall_forall. intros x Hx%Hb. lia.
  - rewrite drop_ge by (unfold zlen; lia). constructor.
Qed.

Lemma upgrade_start junk c e p l :
  0 < c <= e → 0 <= p <= 1 →
  widening c e p l (length l) (zrealloc junk ((zlen l + 1) * e) (flat c l)).
Proof.
  intros Hce Hp. pose proof (zlen_nonneg l) as Hl0.
  assert (Hl : zlen (flat c l) = zlen l * c) by (apply flat_len; lia).
  assert (Hr : zlen (zrealloc junk ((zlen l + 1) * e) (flat c l)) = (zlen l + 1) * e)
    by (apply zrealloc_len; nia).
  split_and!; [done| |].
  - rewrite firstn_all. change (Z.of_nat (length l)) with (zlen l). rewrite <- Hl.
    rewrite zrealloc_grow by (rewrite Hl; nia).
    apply (rd_mid [] (flat c l)).
  - rewrite drop_all. change (Z.of_nat (length l)) with (zlen l).
    rewrite Z.sub_diag, Z.mul_0_l. simpl. apply rd_0. nia.
Qed.

(** At the end of the widening one free slot is left, at either end. *)
Lemma widening_end c e p l buf :
  0 <= e → p = 0 ∨ p = 1 → widening c e p l 0 buf →
  ∃ gap, zlen gap = e ∧
    buf = if p =? 1 then gap ++ flat e l else flat e l ++ gap.
Proof.
  intros He Hp (Hlen & _ & Hhi). rewrite drop_0 in Hhi.
  replace (zlen l - Z.of_nat 0) with (zlen l) in Hhi by lia.
  pose proof (rd_all buf) as Ha. rewrite Hlen in Ha.
  assert (0 <= zlen l * e) by (pose proof (zlen_nonneg l); nia).
  destruct Hp as [-> | ->].
  - replace ((Z.of_nat 0 + 0) * e) with 0 in Hhi by lia.
    replace ((zlen l + 1) * e) with (zlen l * e + e) in Ha by ring.
    apply rd_split in Ha as [H1 H2]; [|done..].
    rewrite Hhi in H1. injection H1 as H1.
    exists (drop (Z.to_nat (zlen l * e)) buf). split; [by apply rd_len in H2|].
    simpl. by rewrite H1, take_drop.
  - replace ((Z.of_nat 0 + 1) * e) with (0 + e) in Hhi by lia.
    replace ((zlen l + 1) * e) with (e + zlen l * e) in Ha by ring.
    apply rd_split in Ha as [H1 H2]; [|done..].
    rewrite Hhi in H2. injection H2 as H2.
    exists (take (Z.to_nat e) buf). split; [by apply rd_len in H1|].
    simpl. by rewrite H2, take_drop.
Qed.

Lemma upgrade_and_add_spec junk st l value :
  repr st l → is_int64 value → zlen l + 1 < safe_entries →
  encoding st < _intsetValueEncoding value →
  intsetUpgradeAndAdd junk st value =
  Some (mkIntset (_intsetValueEncoding value) (zlen l + 1)
          (flat (_intsetValueEncoding value)
             (inserted l (if value <? 0 then 0 else zlen l) value))).
Proof.
  intros Hr Hv Hmax Henc. pose proof Hr as [[He Hl _ Hc Hf] _]. pose proof (zlen_nonneg l).
  unfold safe_entries in Hmax. pose proof (valenc_ok value) as Hne.
  unfold intsetUpgradeAndAdd. set (e := _intsetValueEncoding value) in *.
  assert (0 < encoding st) by (enc_cases He; lia).
  set (p := if value <? 0 then 1 else 0).
  assert (Hp : p = 0 ∨ p = 1) by (subst p; case_if; auto).
  simpl len. rewrite Hl. rewrite uwrap_id by lia.
  rewrite resize_eq by (simpl; unfold INT32_MAX; done || lia). simpl.
  rewrite swrap_id by (simpl; lia).
  destruct (upgrade_loop_spec l (encoding st) p (length l)
    (mkIntset e (zlen l) (zrealloc junk ((zlen l + 1) * e) (flat (encoding st) l))))
    as (buf & Hloop & Hw); simpl; try done; try lia.
  { apply upgrade_start; lia. }
  replace (Z.to_nat (zlen l)) with (length l) by (unfold zlen; lia).
  unfold set_contents in *. simpl in *. rewrite Hc, Hloop. simpl.
  apply widening_end in Hw as (gap & Hg & ->); [|lia|done].
  rewrite !set_eq by done. simpl. subst p. unfold inserted. destruct (value <? 0); simpl.
  - pose proof (wr_mid [] gap (flat e l) (le_bytes (Z.to_nat e) value)) as E.
    change (zlen []) with 0 in E. simpl in E. rewrite Z.mul_0_l, E by (rewrite le_bytes_zlen; lia).
    simpl. rewrite uwrap_id by lia. by rewrite drop_0.
  - rewrite swrap_id by (simpl; lia).
    rewrite <- flat_len, <- (app_nil_r gap) by lia.
    rewrite wr_mid by (rewrite le_bytes_zlen; lia). simpl.
    rewrite uwrap_id by lia. do 3 f_equal.
    replace (Z.to_nat (zlen l)) with (length l) by (unfold zlen; lia).
    by rewrite firstn_all, drop_all, flat_app.
Qed.

(** ** The intset as a finite set of integers *)

(** [st] is a well-formed intset whose members are [X]. *)
Definition models (st : intset) (X : gset Z) : Prop :=
  ∃ l, repr st l ∧ X = list_to_set l.

Lemma sorted_NoDup (l : list Z) : StronglySorted Z.lt l → NoDup l.
Proof.
  induction 1 as [|x l _ IH Hx]; constructor; [|done].
  intros Hin. rewrite list.Forall_forall in Hx. specialize (Hx _ Hin). lia.
Qed.

Lemma repr_size st l : repr st l → Z.of_nat (size (list_to_set l : gset Z)) = zlen l.
Proof. intros [_ Hs]. by rewrite size_list_to_set by by apply sorted_NoDup. Qed.

Lemma intsetNew_models : models intsetNew ∅.
Proof. exists []. split; [|done]. split; [split|]; try done; (by left) || constructor. Qed.

Lemma add_inserted_repr st l pos value st' :
  repr st l → is_int64 value → zlen l + 1 < safe_entries →
  position_of l value false pos → encoding st <= encoding st' →
  enc_ok (encoding st') → fits (encoding st') value →
  st' = mkIntset (encoding st') (zlen l + 1) (flat (encoding st') (inserted l pos value)) →
  repr st' (inserted l pos value).
Proof.
  intros [[He0 _ _ _ Hf0] Hs0] Hv Hm Hp Hle He Hf E. split; [split|].
  - done.
  - rewrite E. simpl. by rewrite inserted_len.
  - by rewrite inserted_len.
  - by rewrite E at 1.
  - apply list.Forall_forall. intros x [->|Hx]%inserted_elem; [done|].
    apply (fits_mono (encoding st)); try done. rewrite list.Forall_forall in Hf0. auto.
  - by apply inserted_sorted.
Qed.

Lemma add_spec junk st l value :
  repr st l → is_int64 value → zlen l + 1 < safe_entries →
  ∃ st' l', intsetAdd junk st value = Some (st', bool_decide (value ∉ l)) ∧ repr st' l' ∧
    encoding st' = Z.max (encoding st) (_intsetValueEncoding value) ∧
    ∀ x, x ∈ l' ↔ x = value ∨ x ∈ l.
Proof.
  intros Hr Hv Hm. pose proof Hr as [[He Hl Hmax Hc Hf] Hs]. unfold safe_entries in Hm, Hmax.
  pose proof (zlen_nonneg l). unfold intsetAdd. case_if.
  - pose proof (upgrade_position st l value Hr Hv ltac:(done)) as Hp.
    pose proof (position_found _ _ _ _ Hp) as Hin.
    rewrite (upgrade_and_add_spec junk st l) by done. cbn [mbind option_bind].
    do 2 eexists. rewrite bool_decide_true by (by intros ?%Hin). split; [done|].
    split; [eapply add_inserted_repr; eauto; simpl; try lia; auto using valenc_ok|].
    { apply valenc_fits; [done|apply valenc_ok|lia]. }
    split; [simpl; lia|]. intros. apply inserted_elem.
  - destruct (search_spec st l value Hr) as (found & pos & -> & Hp).
    pose proof (position_found _ _ _ _ Hp) as Hin. cbn [mbind option_bind].
    destruct found.
    { exists st, l. rewrite bool_decide_false by (intros Hn; by apply Hn, Hin).
      split_and!; [done|done|lia|]. intros x. split; [auto|].
      intros [->|?]; [by apply Hin|done]. }
    pose proof Hp as (Hpos & _). rewrite Hl, (uwrap_id 32 (zlen l + 1)) by lia.
    rewrite resize_eq by (done || (unfold INT32_MAX; lia)). cbn [mbind option_bind].
    set (st1 := set_contents st _).
    pose proof (shift_and_set st1 l pos value (replicate (Z.to_nat (encoding st)) junk)) as E.
    simpl in E. rewrite zlen_replicate in E. unfold safe_entries in E.
    assert (0 <= encoding st) by (enc_cases He; lia).
    specialize (E He Hl ltac:(lia) Hpos ltac:(lia)).
    rewrite zrealloc_grow, Hc, flat_len in E by (rewrite ?Hc, ?flat_len; lia).
    replace ((zlen l + 1) * encoding st - zlen l * encoding st) with (encoding st) in E by lia.
    specialize (E eq_refl). unfold st1 in *. simpl in E |- *. rewrite Hl in *.
    destruct (if pos <? zlen l then _ else _) as [st2|]; [|done]. simpl in E |- *.
    rewrite E. simpl. rewrite Hl, uwrap_id by lia. do 2 eexists.
    rewrite bool_decide_true by (by intros ?%Hin). split; [done|].
    split; [eapply (add_inserted_repr st l pos value); simpl; eauto; try lia; try done|].
    { by apply valenc_fits. }
    split; [simpl; lia|]. intros. apply inserted_elem.
Qed.

(** The sequence without the element at [pos]. *)
Definition removed (l : list Z) (pos : Z) : list Z :=
  take (Z.to_nat pos) l ++ drop (S (Z.to_nat pos)) l.

Lemma removed_elem l pos value x :
  StronglySorted Z.lt l → l !! Z.to_nat pos = Some value →
  x ∈ removed l pos ↔ x ∈ l ∧ x ≠ value.
Proof.
  intros Hs Hv. unfold removed. pose proof (sorted_NoDup l Hs) as Hn.
  rewrite <- (take_drop_middle l _ _ Hv) in Hn |- * at 3.
  apply list.NoDup_app in Hn as (_ & Hd & [Hn _]%list.NoDup_cons).
  rewrite !elem_of_app, elem_of_cons. split; [|naive_solver].
  intros [Hx|Hx]; split; auto; intros ->; [|done].
  apply (Hd value Hx). by left.
Qed.

Lemma removed_repr st l pos value :
  repr st l → l !! Z.to_nat pos = Some value →
  repr (mkIntset (encoding st) (zlen l - 1) (flat (encoding st) (removed l pos)))
    (removed l pos).
Proof.
  intros [[He _ Hm _ Hf] Hs] Hv. assert (Hlen : zlen (removed l pos) = zlen l - 1).
  { unfold removed. rewrite zlen_app, zlen_take, zlen_drop.
    apply lookup_lt_Some in Hv. unfold zlen. lia. }
  rewrite <- (take_drop_middle l _ _ Hv) in Hf, Hs.
  apply StronglySorted_app in Hs as (H1 & H2 & H3%StronglySorted_inv).
  apply Forall_app in Hf as [H4 H5%list.Forall_cons].
  split; [split|]; simpl; try done; try lia.
  - apply Forall_app; naive_solver.
  - apply StronglySorted_app. split_and!; [|done|naive_solver].
    intros x y Hx Hy. apply H1; [done|]. by right.
Qed.

(** The array around the slot [pos]. *)
Lemma contents_around st l pos value :
  repr st l → 0 <= pos → l !! Z.to_nat pos = Some value →
  ∃ pre slot post, contents st = pre ++ slot ++ post ∧
    flat (encoding st) (removed l pos) = pre ++ post ∧
    zlen pre = pos * encoding st ∧ zlen slot = encoding st ∧
    zlen post = (zlen l - pos - 1) * encoding st.
Proof.
  intros [[He _ _ Hc _] _] Hpos Hv. assert (0 <= encoding st) by (enc_cases He; lia).
  assert (pos < zlen l) by (apply lookup_lt_Some in Hv; unfold zlen in *; lia).
  exists (flat (encoding st) (take (Z.to_nat pos) l)), (le_bytes (Z.to_nat (encoding st)) value),
    (flat (encoding st) (drop (S (Z.to_nat pos)) l)).
  split_and!.
  - rewrite Hc. rewrite <- (take_drop_middle l _ _ Hv) at 1. by rewrite flat_app.
  - unfold removed. by rewrite flat_app.
  - apply flat_take_len; lia.
  - rewrite le_bytes_zlen. lia.
  - rewrite flat_len, zlen_drop by done. f_equal. lia.
Qed.

(** Closing the slot [pos] and shrinking the array. *)
Lemma shift_and_shrink junk st l pos value :
  repr st l → 0 <= pos → l !! Z.to_nat pos = Some value →
  (st ← (if pos <? zlen l - 1 then intsetMoveTail st (pos + 1) pos else Some st);
   intsetResize junk st (zlen l - 1))
  = Some (set_contents st (flat (encoding st) (removed l pos))).
Proof.
  intros Hr Hpos Hv. pose proof Hr as [[He Hl Hmax _ _] _]. unfold safe_entries in Hmax.
  assert (pos < zlen l) by (apply lookup_lt_Some in Hv; unfold zlen in *; lia).
  destruct (contents_around st l pos value) as (pre & slot & post & E1 & -> & E2 & E3 & E4);
    [done..|].
  assert (Hfin : ∀ c rest, c = pre ++ post ++ rest →
    intsetResize junk (set_contents st c) (zlen l - 1) = Some (set_contents st (pre ++ post))).
  { intros c rest ->. rewrite resize_eq by (done || (unfold INT32_MAX; lia)).
    unfold set_contents. simpl. do 2 f_equal. rewrite app_assoc.
    replace ((zlen l - 1) * encoding st) with (zlen (pre ++ post)) by (rewrite zlen_app; lia).
    rewrite zrealloc_shrink by (rewrite !zlen_app; pose proof (zlen_nonneg rest); lia).
    apply take_app_zlen. }
  case_if.
  - rewrite move_eq, Hl by done. rewrite (uwrap_id 32 (zlen l - (pos + 1))) by lia.
    rewrite uwrap_id by (enc_cases He; lia).
    replace ((pos + 1) * encoding st) with (zlen pre + zlen slot) by lia.
    replace ((zlen l - (pos + 1)) * encoding st) with (zlen post) by lia.
    rewrite <- E2, E1, memmove_delete. cbn [mbind option_bind]. by eapply Hfin.
  - assert (post = []) as ->.
    { apply zlen_0_nil. rewrite E4. replace (zlen l - pos - 1) with 0 by lia. lia. }
    cbn [mbind option_bind]. replace st with (set_contents st (contents st)) at 1 by by destruct st.
    apply (Hfin _ slot). by rewrite E1, app_nil_r.
Qed.

Lemma remove_spec junk st l value :
  repr st l → is_int64 value →
  ∃ st' l', intsetRemove junk st value = Some (st', bool_decide (value ∈ l)) ∧ repr st' l' ∧
    ∀ x, x ∈ l' ↔ x ∈ l ∧ x ≠ value.
Proof.
  intros Hr Hv. pose proof Hr as [[He Hl Hmax Hc Hf] Hs]. unfold safe_entries in Hmax.
  assert (Hsame : value ∉ l → ∃ st' l', Some (st, false) = Some (st', bool_decide (value ∈ l)) ∧
    repr st' l' ∧ ∀ x, x ∈ l' ↔ x ∈ l ∧ x ≠ value).
  { intros Hni. exists st, l. rewrite bool_decide_false by done. split_and!; [done..|].
    intros x. split; [|tauto]. intros Hx. split; [done|]. by intros ->. }
  unfold intsetRemove. case_if.
  2:{ apply Hsame. intros Hi. rewrite list.Forall_forall in Hf. apply Hf in Hi.
      apply valenc_fits in Hi; [lia|done..]. }
  destruct (search_spec st l value Hr) as (found & pos & -> & Hp).
  pose proof (position_found _ _ _ _ Hp) as Hin. cbn [mbind option_bind]. destruct found.
  2:{ apply Hsame. by intros ?%Hin. }
  destruct Hp as (Hpos & _ & Hv'). rewrite bool_decide_true by (by apply Hin).
  exists (mkIntset (encoding st) (zlen l - 1) (flat (encoding st) (removed l pos))), (removed l pos).
  split; [|split; [by eapply removed_repr|intros; by apply removed_elem]].
  assert (pos < zlen l) by (apply lookup_lt_Some in Hv'; unfold zlen in *; lia).
  rewrite Hl, !(uwrap_id 32 (zlen l - 1)), (uwrap_id 32 (pos + 1)) by lia.
  pose proof (shift_and_shrink junk st l pos value Hr ltac:(lia) Hv') as E.
  destruct (if pos <? zlen l - 1 then _ else _) as [st1|]; [|done]. simpl in E |- *.
  by rewrite E.
Qed.

(** ** Main theorems *)

Lemma models_elem st X :
  models st X → ∃ l, repr st l ∧ Z.of_nat (size X) = zlen l ∧ ∀ x, x ∈ X ↔ x ∈ l.
Proof.
  intros (l & Hr & ->). exists l. split_and!; [done|by apply repr_size with st|].
  intros x. by rewrite elem_of_list_to_set.
Qed.

(** (C28) [intsetAdd] implements insertion into a finite set: on a well-formed
    intset with members [X] it succeeds without leaving its buffer, upgrading
    the encoding exactly when the value needs it, the result is well-formed
    with members [X] plus the value, and [success] says whether it was new.  There
    are fewer than 2^29 entries: beyond, [intsetMoveTail] wraps. *)
Theorem intsetAdd_correct junk st X value :
  models st X → is_int64 value → Z.of_nat (size X) + 1 < safe_entries →
  ∃ st', intsetAdd junk st value = Some (st', bool_decide (value ∉ X)) ∧
    models st' ({[value]} ∪ X) ∧
    encoding st' = Z.max (encoding st) (_intsetValueEncoding value).
Proof.
  intros Hm Hv Hs. destruct (models_elem st X Hm) as (l & Hr & E & Hx).
  destruct (add_spec junk st l value Hr Hv) as (st' & l' & Ha & Hr' & He & Hx'); [lia|].
  exists st'. split_and!; [|exists l'; split; [done|set_solver]|done].
  rewrite Ha. do 2 f_equal. apply bool_decide_ext. by rewrite Hx.
Qed.

(** (C31) [intsetRemove] implements deletion from a finite set. *)
Theorem intsetRemove_correct junk st X value :
  models st X → is_int64 value →
  ∃ st', intsetRemove junk st value = Some (st', bool_decide (value ∈ X)) ∧
    models st' (X ∖ {[value]}).
Proof.
  intros Hm Hv. destruct (models_elem st X Hm) as (l & Hr & E & Hx).
  destruct (remove_spec junk st l value Hr Hv) as (st' & l' & Ha & Hr' & Hx').
  exists st'. split; [|exists l'; split; [done|set_solver]].
  rewrite Ha. do 2 f_equal. apply bool_decide_ext. by rewrite Hx.
Qed.

(** [intsetFind] decides membership. *)
Theorem intsetFind_correct st X value :
  models st X → is_int64 value → intsetFind st value = Some (bool_decide (value ∈ X)).
Proof.
  intros Hm Hv. destruct (models_elem st X Hm) as (l & Hr & E & Hx).
  pose proof Hr as [[He _ _ _ Hf] _]. unfold intsetFind. case_if.
  - destruct (search_spec st l value Hr) as (found & pos & -> & Hp). simpl. f_equal.
    apply position_found in Hp. symmetry. destruct found.
    + apply bool_decide_true. rewrite Hx. by apply Hp.
    + apply bool_decide_false. rewrite Hx. by intros ?%Hp.
  - rewrite bool_decide_false; [done|]. rewrite Hx. intros Hi.
    rewrite list.Forall_forall in Hf. apply Hf in Hi. apply valenc_fits in Hi; [lia|done..].
Qed.

(** ** Integrity validation *)

Lemma le_bytes_swrap n v :
  le_bytes n (swrap (8 * Z.of_nat n) v) = le_bytes n v.
Proof.
  assert (Hpow : 256 ^ Z.of_nat n = 2 ^ (8 * Z.of_nat n)).
  { rewrite Z.pow_mul_r by lia. done. }
  rewrite (le_bytes_mod n (swrap _ v)), (le_bytes_mod n v). f_equal. rewrite Hpow.
  unfold swrap. rewrite Zminus_mod_idemp_l. f_equal. lia.
Qed.

(** Every buffer of the right size is the packed form of some sequence. *)
Lemma unflat e n c :
  enc_ok e → wf_bytes c → zlen c = Z.of_nat n * e →
  ∃ l, length l = n ∧ Forall (fits e) l ∧ c = flat e l.
Proof.
  intros He. revert c. induction n as [|n IH]; intros c Hc Hlen.
  { exists []. split_and!; [done|done|]. by apply zlen_0_nil. }
  assert (0 < e) by (enc_cases He; lia).
  destruct (IH (drop (Z.to_nat e) c)) as (l & Hl & Hf & E).
  { by apply Forall_drop. }
  { rewrite zlen_drop. nia. }
  assert (length (take (Z.to_nat e) c) = Z.to_nat e) as Ht.
  { rewrite length_take. unfold zlen in *. nia. }
  exists (swrap (8 * e) (le_val (take (Z.to_nat e) c)) :: l). split_and!.
  - simpl. by rewrite Hl.
  - constructor; [|done]. unfold fits, swrap.
    assert (2 ^ (8 * e) = 2 * 2 ^ (8 * e - 1)).
    { rewrite <- Z.pow_succ_r by lia. f_equal. lia. }
    pose proof (Z.mod_pos_bound (le_val (take (Z.to_nat e) c) + 2 ^ (8 * e - 1)) (2 ^ (8 * e))
      ltac:(lia)). lia.
  - simpl. rewrite <- E. rewrite <- (take_drop (Z.to_nat e) c) at 1. f_equal.
    replace (8 * e) with (8 * Z.of_nat (Z.to_nat e)) by lia.
    rewrite le_bytes_swrap. pose proof (le_bytes_val (take (Z.to_nat e) c)) as V.
    rewrite Ht in V. by rewrite V by by apply Forall_take.
Qed.

Lemma validate_loop_spec st l t i prev :
  array_of st l → 0 <= i → drop (Z.to_nat i) l = t →
  ∃ b, validate_loop (length t) st i prev = Some b ∧
    (b = true ↔ Sorted Z.lt (prev :: t)).
Proof.
  intros Ha. pose proof (array_max _ _ Ha) as Hm. unfold safe_entries in Hm.
  revert i prev. induction t as [|cur t IH]; intros i prev Hi Ht.
  { exists true. split; [done|]. split; [|done]. by repeat constructor. }
  assert (Hcur : l !! Z.to_nat i = Some cur).
  { rewrite <- (Nat.add_0_r (Z.to_nat i)), <- lookup_drop, Ht. done. }
  assert (i < zlen l) by (apply lookup_lt_Some in Hcur; unfold zlen; lia).
  cbn [validate_loop length]. rewrite swrap_id by (simpl; lia).
  rewrite (get_array st l i cur) by done. cbn [mbind option_bind]. case_if.
  - exists false. split; [done|]. split; [done|].
    intros [_ Hhd%HdRel_inv]%Sorted_inv. lia.
  - rewrite uwrap_id by lia. destruct (IH (i + 1) cur) as (b & -> & Hb); [lia| |].
    { rewrite Z2Nat.inj_add, <- drop_drop, Ht by lia. done. }
    exists b. split; [done|]. rewrite Hb. split.
    + intros ?. constructor; [done|]. constructor. lia.
    + by intros [? _]%Sorted_inv.
Qed.

Lemma validate_header p st :
  intset_of_blob p = Some st → wf_bytes p →
  p = blob_of_intset st ∧ wf_bytes (contents st) ∧
  0 <= encoding st < 2 ^ 32 ∧ 0 <= len st < 2 ^ 32.
Proof.
  unfold intset_of_blob, blob_of_intset. intros H Hp.
  destruct (rd 0 4 p) as [e|] eqn:E1; [|done]. destruct (rd 4 4 p) as [n|] eqn:E2; [|done].
  injection H as <-. cbn [encoding len contents].
  apply rd_Some in E1 as (_ & _ & _ & ->). apply rd_Some in E2 as (_ & _ & Hlen & ->).
  assert (∀ o, 0 <= o → o + 4 <= zlen p → length (sub o 4 p) = 4%nat) as Hl.
  { intros o ??. pose proof (zlen_sub o 4 p). unfold zlen in *. lia. }
  assert (∀ o, wf_bytes (sub o 4 p)) as Hw by (intros; by apply Forall_sub).
  pose proof (le_val_range _ (Hw 0)) as R0. pose proof (le_val_range _ (Hw 4)) as R4.
  rewrite zlen_sub in R0, R4 by lia. change (256 ^ 4) with (2 ^ 32) in *.
  split; [|split; [by apply Forall_drop|split; assumption]].
  pose proof (le_bytes_val _ (Hw 0)) as V0. pose proof (le_bytes_val _ (Hw 4)) as V4.
  rewrite Hl in V0, V4 by lia. rewrite V0, V4.
  unfold sub. rewrite drop_0. change (Z.to_nat 4) with 4%nat.
  rewrite <- (take_drop 4 p) at 1. f_equal.
  rewrite <- (take_drop 4 (drop 4 p)) at 1. f_equal. by rewrite drop_drop.
Qed.

(** The packed form determines the sequence. *)
Lemma flat_inj st l l' : array_of st l → array_of st l' → l = l'.
Proof.
  intros Ha Ha'. apply list_eq. intros i.
  assert (length l = length l') as El.
  { destruct Ha, Ha'. unfold zlen in *. lia. }
  destruct (l !! i) as [x|] eqn:E.
  - destruct (lookup_lt_is_Some_2 l' i) as [y E'].
    { rewrite <- El. by eapply lookup_lt_Some. }
    pose proof (get_array st l (Z.of_nat i) x Ha ltac:(lia)) as G.
    pose proof (get_array st l' (Z.of_nat i) y Ha' ltac:(lia)) as G'.
    rewrite Nat2Z.id in G, G'. rewrite G in G' by done. rewrite E'. by apply G'.
  - symmetry. apply lookup_ge_None. rewrite <- El. by apply lookup_ge_None.
Qed.

(** The blob of a packed sequence, read back. *)
Lemma blob_roundtrip st l :
  array_of st l → intset_of_blob (blob_of_intset st) = Some st.
Proof.
  intros [He Hl Hm _ _]. unfold safe_entries in Hm. pose proof (zlen_nonneg l).
  unfold intset_of_blob, blob_of_intset.
  pose proof (rd_mid [] (le_bytes 4 (encoding st)) (le_bytes 4 (len st) ++ contents st)) as E1.
  pose proof (rd_mid (le_bytes 4 (encoding st)) (le_bytes 4 (len st)) (contents st)) as E2.
  rewrite le_bytes_zlen in E1. rewrite (le_bytes_zlen 4 (encoding st)), (le_bytes_zlen 4 (len st)) in E2.
  change (zlen []) with 0 in E1.
  change (Z.of_nat 4) with 4 in *. rewrite app_nil_l in E1. rewrite E1, E2. cbn [mbind option_bind].
  rewrite !le_val_bytes, !Z.mod_small by (enc_cases He; simpl; lia).
  rewrite app_assoc, drop_app_length' by (rewrite length_app, !le_bytes_length; lia).
  by destruct st.
Qed.

Lemma blob_len st l : array_of st l → zlen (blob_of_intset st) = 8 + zlen l * encoding st.
Proof.
  intros [He _ _ Hc _]. unfold blob_of_intset.
  rewrite !zlen_app, !le_bytes_zlen, Hc, flat_len by (enc_cases He; lia). lia.
Qed.

(** Validation of the image of a packed sequence decides its order. *)
Lemma validate_array st l :
  array_of st l → l ≠ [] →
  ∃ b, intsetValidateIntegrity (blob_of_intset st) (zlen (blob_of_intset st)) true = Some b ∧
    (b = true ↔ StronglySorted Z.lt l).
Proof.
  intros Ha Hne. pose proof Ha as [He Hl Hm Hc Hf]. unfold safe_entries in Hm.
  destruct l as [|v l]; [done|]. pose proof (zlen_nonneg l). rewrite zlen_cons in Hl, Hm.
  unfold intsetValidateIntegrity. rewrite (blob_roundtrip st (v :: l)) by done.
  rewrite (blob_len st (v :: l)), zlen_cons by done. unfold sizeof_intset.
  assert (0 < encoding st <= 8) by (enc_cases He; lia).
  case_if; [nia|]. cbn [mbind option_bind]. case_if; [enc_cases He; done|].
  rewrite Hl, (uwrap_id 64 ((1 + zlen l) * _)), uwrap_id by nia.
  rewrite Z.eqb_refl. simpl negb. cbv iota. case_if; [lia|].
  rewrite (get_array st (v :: l) 0 v) by done. cbn [mbind option_bind].
  replace (Z.to_nat (1 + zlen l - 1)) with (length l) by (unfold zlen; lia).
  destruct (validate_loop_spec st (v :: l) l 1 v) as (b & -> & Hb); [done|lia|done|].
  exists b. split; [done|]. rewrite Hb. split.
  - apply Sorted_StronglySorted. intros x y z. lia.
  - apply StronglySorted_Sorted.
Qed.

Lemma validate_sound p :
  wf_bytes p → zlen p < sizeof_intset + 2 * safe_entries →
  (∃ st l, array_of st l ∧ l ≠ [] ∧ p = blob_of_intset st) ∨
  (∀ st l, array_of st l → l ≠ [] → p ≠ blob_of_intset st) ∧
  intsetValidateIntegrity p (zlen p) true = Some false.
Proof.
  intros Hp Hlen. unfold sizeof_intset, safe_entries in Hlen.
  destruct (intset_of_blob p) as [st|] eqn:Hb.
  2:{ right. split; [intros st l Ha _ ->; by rewrite (blob_roundtrip st l) in Hb|].
      unfold intsetValidateIntegrity. case_if; [done|]. unfold intset_of_blob, sizeof_intset in *.
      rewrite !rd_in in Hb by lia. done. }
  pose proof (validate_header p st Hb Hp) as (Ep & Hwf & Henc & Hn).
  assert (Hblob : zlen p = 8 + zlen (contents st)).
  { rewrite Ep. unfold blob_of_intset. rewrite !zlen_app, !le_bytes_zlen. lia. }
  pose proof (zlen_nonneg (contents st)).
  destruct (decide (enc_ok (encoding st) ∧ len st * encoding st = zlen (contents st) ∧ len st ≠ 0))
    as [(He & Hsz & Hnz)|Hbad].
  - left. destruct (unflat (encoding st) (Z.to_nat (len st)) (contents st)) as (l & Hll & Hf & Hc);
      [done|done|lia|].
    exists st, l. split_and!; [split; try done|by intros ->; simpl in *; lia|done].
    + unfold zlen. lia.
    + unfold safe_entries, zlen in *. enc_cases He; lia.
  - right. split.
    { intros st' l Ha Hl ->. rewrite (blob_roundtrip st' l) in Hb by done. injection Hb as ->.
      destruct Ha as [He Hll _ Hc _]. apply Hbad. split_and!; [done| |].
      - rewrite Hc, flat_len by (enc_cases He; lia). by rewrite Hll.
      - rewrite Hll. by intros ?%zlen_0_nil. }
    unfold intsetValidateIntegrity, sizeof_intset. rewrite Hb. case_if; [done|]. simpl.
    case_if; [done|]. assert (enc_ok (encoding st)) as He.
    { unfold enc_ok, INTSET_ENC_INT16, INTSET_ENC_INT32, INTSET_ENC_INT64 in *. lia. }
    rewrite (uwrap_id 64 (len st * _)), uwrap_id by (enc_cases He; lia).
    case_if; [done|]. case_if; [done|]. destruct Hbad. split_and!; [done| |done]. lia.
Qed.

(** (C32) Deep validation accepts a blob exactly when it is the image of a
    non-empty well-formed intset; it never reads outside the blob, which is too small
    for 2^29 entries of two bytes. *)
Theorem intsetValidateIntegrity_correct p :
  wf_bytes p → zlen p < sizeof_intset + 2 * safe_entries →
  ∃ b, intsetValidateIntegrity p (zlen p) true = Some b ∧
    (b = true ↔ ∃ st X, X ≠ ∅ ∧ models st X ∧ p = blob_of_intset st).
Proof.
  intros Hp Hlen. destruct (validate_sound p Hp Hlen) as [(st & l & Ha & Hl & ->)|[Hno ->]].
  - destruct (validate_array st l Ha Hl) as (b & -> & Hb). exists b. split; [done|].
    rewrite Hb. split.
    + intros Hs. exists st, (list_to_set l). split_and!; [|by exists l|done].
      destruct l; [done|]. set_solver.
    + intros (st' & X & HX & (l' & Hr & ->) & E).
      pose proof (blob_roundtrip st l Ha) as R. pose proof Hr as [Ha' Hs'].
      rewrite E, (blob_roundtrip st' l') in R by done. injection R as ->.
      enough (l = l') as -> by done. eapply flat_inj; eauto.
  - exists false. split; [done|]. split; [done|].
    intros (st & X & HX & (l & [Ha _] & ->) & ->). exfalso. eapply Hno; eauto.
    by intros ->.
Qed.

(** ** Ordered access *)

(** Reading by position enumerates the members in increasing order, and
    [intsetMin], [intsetMax] and [intsetRandom] return the least member, the
    greatest one and a member, whatever [rand()] returned. *)
Theorem intset_ordered_access st X r :
  models st X → X ≠ ∅ → 0 <= r →
  ∃ l lo hi, StronglySorted Z.lt l ∧ X = list_to_set l ∧ intsetLen st = zlen l ∧
    (∀ pos, 0 <= pos → intsetGet st pos = Some (l !! Z.to_nat pos)) ∧
    intsetMin st = Some lo ∧ intsetMax st = Some hi ∧
    lo ∈ X ∧ hi ∈ X ∧ (∀ x, x ∈ X → lo <= x <= hi) ∧
    ∃ v, intsetRandom r st = Some v ∧ v ∈ X.
Proof.
  intros (l & Hr & ->) Hne Hr0. pose proof Hr as [[He Hl Hm Hc Hf] Hs].
  unfold safe_entries in Hm. pose proof (zlen_nonneg l).
  assert (zlen l ≠ 0) by (intros ->%zlen_0_nil; done).
  destruct (zlookup l 0) as [lo Hlo]; [lia|].
  destruct (zlookup l (zlen l - 1)) as [hi Hhi]; [lia|].
  pose proof (Z.mod_pos_bound r (zlen l) ltac:(lia)).
  destruct (zlookup l (r mod zlen l)) as [v Hv]; [lia|].
  exists l, lo, hi. rewrite !elem_of_list_to_set. split_and!; try done.
  - intros pos Hpos. unfold intsetGet. rewrite Hl. case_if.
    + rewrite swrap_id by (simpl; lia). destruct (zlookup l pos) as [x Hx]; [lia|].
      by rewrite (get_repr st l pos x), Hx.
    + rewrite lookup_ge_None_2; [done|]. unfold zlen in *. lia.
  - by apply (get_repr st l).
  - unfold intsetMax. rewrite Hl, uwrap_id, swrap_id by (simpl; lia).
    apply (get_repr st l); [done|lia|done].
  - by eapply list_elem_of_lookup_2.
  - by eapply list_elem_of_lookup_2.
  - intros x [i Hi]%elem_of_list_to_set%list_elem_of_lookup.
    pose proof (lookup_lt_Some _ _ _ Hi). change (Z.to_nat 0) with 0%nat in Hlo. split.
    + destruct (decide (i = 0%nat)) as [->|]; [simplify_eq; lia|].
      enough (lo < x) by lia. apply (sorted_lookup_lt l 0 i); done || lia.
    + destruct (decide (i = Z.to_nat (zlen l - 1))) as [->|]; [simplify_eq; lia|].
      enough (x < hi) by lia.
      apply (sorted_lookup_lt l i (Z.to_nat (zlen l - 1))); try done. unfold zlen in *. lia.
  - exists v. split; [|apply elem_of_list_to_set; by eapply list_elem_of_lookup_2].
    unfold intsetRandom. rewrite Hl. case_if; [lia|]. rewrite swrap_id by (simpl; lia).
    apply (get_repr st l); [done|lia|done].
Qed.

(** The byte count of [intsetMoveTail] is a [uint32_t]: with 64-bit elements
    and a tail of 2^29 elements it wraps to 0 and nothing is moved, so that
    the insertion that follows overwrites an element. *)
Theorem intsetMoveTail_wraps st :
  encoding st = INTSET_ENC_INT64 → len st = safe_entries →
  zlen (contents st) = (safe_entries + 1) * 8 →
  intsetMoveTail st 0 1 = Some st.
Proof.
  unfold safe_entries. intros He Hl Hc. unfold intsetMoveTail. rewrite He, Hl. simpl.
  replace (uwrap 32 _) with 0 by reflexivity. unfold memmove.
  rewrite rd_0 by lia. simpl.
  change (1 * 8) with 8. rewrite (proj2 (wr_Some 8 [] (contents st) (contents st))); [by destruct st|].
  split_and!; [lia|change (zlen []) with 0; lia|].
  change (8 + zlen []) with 8. by rewrite app_nil_l, take_drop.
Qed.

(** ** Witnesses *)

Definition sample : intset := mkIntset 2 2 [1; 0; 5; 0].

Lemma sample_models : models sample {[1; 5]}.
Proof.
  exists [1; 5]. split; [|set_solver]. split; [split|]; try done.
  - by left.
  - repeat constructor; lia.
  - repeat constructor; lia.
Qed.

Lemma intsetAdd_correct_witness :
  ∃ st', intsetAdd 0 sample (-70000) = Some (st', bool_decide (-70000 ∉ ({[1; 5]} : gset Z))) ∧
    models st' ({[-70000]} ∪ {[1; 5]}) ∧ encoding st' = Z.max 2 4.
Proof.
  apply (intsetAdd_correct 0 sample {[1; 5]} (-70000) sample_models).
  - unfold is_int64, INT64_MIN, INT64_MAX. lia.
  - vm_compute. reflexivity.
Defined.

Lemma intsetRemove_correct_witness :
  ∃ st', intsetRemove 0 sample 1 = Some (st', bool_decide (1 ∈ ({[1; 5]} : gset Z))) ∧
    models st' ({[1; 5]} ∖ {[1]}).
Proof.
  apply (intsetRemove_correct 0 sample {[1; 5]} 1 sample_models).
  unfold is_int64, INT64_MIN, INT64_MAX. lia.
Defined.

Lemma intsetFind_correct_witness :
  intsetFind sample 5 = Some (bool_decide (5 ∈ ({[1; 5]} : gset Z))).
Proof.
  apply (intsetFind_correct sample {[1; 5]} 5 sample_models).
  unfold is_int64, INT64_MIN, INT64_MAX. lia.
Defined.

Lemma intsetValidateIntegrity_correct_witness :
  ∃ b, intsetValidateIntegrity (blob_of_intset sample) 12 true = Some b ∧
    (b = true ↔ ∃ st X, X ≠ ∅ ∧ models st X ∧ blob_of_intset sample = blob_of_intset st).
Proof.
  apply (intsetValidateIntegrity_correct (blob_of_intset sample)).
  - apply wf_bytesb_spec. reflexivity.
  - vm_compute. reflexivity.
Defined.

Lemma intset_ordered_access_witness :
  ∃ l lo hi, StronglySorted Z.lt l ∧ ({[1; 5]} : gset Z) = list_to_set l ∧
    intsetLen sample = zlen l ∧
    (∀ pos, 0 <= pos → intsetGet sample pos = Some (l !! Z.to_nat pos)) ∧
    intsetMin sample = Some lo ∧ intsetMax sample = Some hi ∧
    lo ∈ ({[1; 5]} : gset Z) ∧ hi ∈ ({[1; 5]} : gset Z) ∧
    (∀ x, x ∈ ({[1; 5]} : gset Z) → lo <= x <= hi) ∧
    ∃ v, intsetRandom 7 sample = Some v ∧ v ∈ ({[1; 5]} : gset Z).
Proof.
  apply (intset_ordered_access sample {[1; 5]} 7 sample_models); [set_solver|lia].
Defined.

Lemma intsetMoveTail_wraps_witness :
  let st := mkIntset 8 safe_entries (replicate (Z.to_nat ((safe_entries + 1) * 8)) 7) in
  intsetMoveTail st 0 1 = Some st.
Proof.
  intros st. apply (intsetMoveTail_wraps st); [reflexivity|reflexivity|].
  unfold st. cbn [contents]. rewrite zlen_replicate. unfold safe_entries. lia.
Defined.

End Intset.
