(* ===== verification/Util.v ===== *)
(** * Number conversion ([src/redis-stable/src/util.c])

    Decimal printing ([ull2string], [ll2string]) into a caller-supplied buffer
    and strict decimal parsing ([string2ll], [string2l]), with the reference
    decimal expansion they are compared to. *)

From Stdlib Require Import String.
From S2P Require Import Prelude.

Module Util.

Definition ch0 : Z := 48.
Definition chminus : Z := 45.
Definition LONG_STR_SIZE : Z := 21.

(** ** Operations *)

(** [digits10] calls itself on [v / 10^12]; for a [uint64_t] two levels are
    enough, which is the fuel used. *)
Fixpoint digits10_rec (fuel : nat) (v : Z) : Z :=
  match fuel with
  | O => 0
  | S fuel =>
      if v <? 10 then 1
      else if v <? 100 then 2
      else if v <? 1000 then 3
      else if v <? 1000000000000 then
        if v <? 100000000 then
          if v <? 1000000 then
            if v <? 10000 then 4 else 5 + Z.b2z (100000 <=? v)
          else 7 + Z.b2z (10000000 <=? v)
        else if v <? 10000000000 then 9 + Z.b2z (1000000000 <=? v)
        else 11 + Z.b2z (100000000000 <=? v)
      else 12 + digits10_rec fuel (v / 1000000000000)
  end.
Definition digits10 (v : Z) : Z := digits10_rec 2 v.

Definition sdigits10 (v : Z) : Z :=
  if v <? 0 then
    let uv := if negb (v =? INT64_MIN) then uwrap 64 (- v) else uwrap 64 (INT64_MAX + 1) in
    digits10 uv + 1
  else digits10 v.

(** The table [static const char digits[201]]. *)
Definition digits : list Z := bytes_of_string
  ("0001020304050607080910111213141516171819" ++
   "2021222324252627282930313233343536373839" ++
   "4041424344454647484950515253545556575859" ++
   "6061626364656667686970717273747576777879" ++
   "8081828384858687888990919293949596979899")%string.

(** [while (value >= 100) { ... }]; [dst] is the buffer and [off] the offset
    of the pointer [dst] of the C code in it. *)
Fixpoint ull_loop (fuel : nat) (dst : list Z) (off next value : Z)
  : option (list Z * Z * Z) :=
  match fuel with
  | O => None
  | S fuel =>
      if 100 <=? value then
        let i := (value mod 100) * 2 in
        let value := value / 100 in
        d1 ← byte_at (i + 1) digits; d0 ← byte_at i digits;
        dst ← wr (off + next) [d1] dst;
        dst ← wr (off + (next - 1)) [d0] dst;
        ull_loop fuel dst off (next - 2) value
      else Some (dst, next, value)
  end.

(** The [err:] label: force a null termination when there is room. *)
Definition null_term (dst : list Z) (off dstlen : Z) : option (list Z * Z) :=
  if 0 <? dstlen then dst ← wr off [0] dst; Some (dst, 0) else Some (dst, 0).

Definition ull2string (dst : list Z) (off dstlen value : Z) : option (list Z * Z) :=
  let length := digits10 value in
  if dstlen <=? length then null_term dst off dstlen
  else
    let next := length - 1 in
    dst ← wr (off + (next + 1)) [0] dst;
    '(dst, next, value) ← ull_loop 11 dst off next value;
    if value <? 10 then
      dst ← wr (off + next) [ch0 + value] dst; Some (dst, length)
    else
      let i := value * 2 in
      d1 ← byte_at (i + 1) digits; d0 ← byte_at i digits;
      dst ← wr (off + next) [d1] dst;
      dst ← wr (off + (next - 1)) [d0] dst;
      Some (dst, length).

Definition ll2string (dst : list Z) (off dstlen svalue : Z) : option (list Z * Z) :=
  if svalue <? 0 then
    let value := if negb (svalue =? INT64_MIN) then - svalue
                 else uwrap 64 (INT64_MAX + 1) in
    if dstlen <? 2 then null_term dst off dstlen
    else
      dst ← wr off [chminus] dst;
      '(dst, length) ← ull2string dst (off + 1) (dstlen - 1) value;
      if length =? 0 then Some (dst, 0) else Some (dst, length + 1)
  else
    '(dst, length) ← ull2string dst off dstlen svalue;
    if length =? 0 then Some (dst, 0) else Some (dst, length + 0).

Definition isdigit (c : Z) : bool := (ch0 <=? c) && (c <=? ch0 + 9).

(** [while (plen < slen && p[0] >= '0' && p[0] <= '9')]: the digits left in
    [p] are folded into [v]; the rest of the string is returned. *)
Fixpoint string2ll_loop (p : list Z) (v : Z) : option (Z * list Z) :=
  match p with
  | [] => Some (v, [])
  | c :: p' =>
      if isdigit c then
        if UINT64_MAX / 10 <? v then None
        else
          let v := v * 10 in
          if UINT64_MAX - (c - ch0) <? v then None
          else string2ll_loop p' (v + (c - ch0))
      else Some (v, p)
  end.

(** [None]: the C function returns 0. *)
Definition string2ll (s : list Z) : option Z :=
  if (zlen s =? 0) || (LONG_STR_SIZE <=? zlen s) then None
  else if bool_decide (s = [ch0]) then Some 0
  else
    let negative := bool_decide (head s = Some chminus) in
    let p := if negative then tail s else s in
    match p with
    | [] => None
    | c :: p' =>
        if (ch0 + 1 <=? c) && (c <=? ch0 + 9) then
          '(v, rest) ← string2ll_loop p' (c - ch0);
          match rest with
          | _ :: _ => None
          | [] =>
              if negative then
                if - (INT64_MIN + 1) + 1 <? v then None else Some (swrap 64 (- v))
              else if INT64_MAX <? v then None else Some v
          end
        else None
    end.

Definition LONG_MIN : Z := INT64_MIN.
Definition LONG_MAX : Z := INT64_MAX.

Definition string2l (s : list Z) : option Z :=
  llval ← string2ll s;
  if (llval <? LONG_MIN) || (LONG_MAX <? llval) then None else Some llval.

(** ** Reference decimal expansion *)

Fixpoint dec_rec (fuel : nat) (v : Z) : list Z :=
  match fuel with
  | O => []
  | S fuel => if v <? 10 then [ch0 + v] else dec_rec fuel (v / 10) ++ [ch0 + v mod 10]
  end.

(** The decimal digits of a natural number below 10^20. *)
Definition dec (v : Z) : list Z := dec_rec 20 v.

(** The decimal representation of a signed integer. *)
Definition sdec (v : Z) : list Z := if v <? 0 then chminus :: dec (- v) else dec v.

(** ** Facts about the reference *)

Definition eval (acc : Z) (p : list Z) : Z := foldl (λ a c, a * 10 + (c - ch0)) acc p.

Lemma eval_app acc p q : eval acc (p ++ q) = eval (eval acc p) q.
Proof. apply foldl_app. Qed.

Lemma pow10_S n : 10 ^ Z.of_nat (S n) = 10 * 10 ^ Z.of_nat n.
Proof. rewrite Nat2Z.inj_succ, Z.pow_succ_r by lia. done. Qed.

Lemma div10_bound v n : 0 <= v < 10 ^ Z.of_nat (S n) → 0 <= v / 10 < 10 ^ Z.of_nat n.
Proof. rewrite pow10_S. intros. split; [dlia|]. apply Z.div_lt_upper_bound; lia. Qed.

Lemma dec_rec_fuel n k v :
  0 <= v < 10 ^ Z.of_nat n → (0 < n)%nat → dec_rec (n + k) v = dec_rec n v.
Proof.
  revert v. induction n as [|n IH]; intros v Hv Hn; [lia|]. simpl. case_if; [done|].
  pose proof (div10_bound v n Hv). destruct n as [|n].
  { change (10 ^ Z.of_nat 1) with 10 in Hv. lia. }
  f_equal. apply IH; [done|lia].
Qed.

Lemma dec_small v : v < 10 → dec v = [ch0 + v].
Proof. intros. unfold dec. cbn [dec_rec]. case_if; [done|lia]. Qed.

Lemma dec_step v : 10 <= v < 10 ^ 20 → dec v = dec (v / 10) ++ [ch0 + v mod 10].
Proof.
  intros Hv. unfold dec at 1. change (dec_rec 20 v) with
    (if v <? 10 then [ch0 + v] else dec_rec 19 (v / 10) ++ [ch0 + v mod 10]).
  case_if; [lia|]. pose proof (dec_rec_fuel 19 1 (v / 10)) as E.
  change (19 + 1)%nat with 20%nat in E. fold (dec (v / 10)) in E. rewrite E; [done| |lia].
  apply div10_bound. change (10 ^ Z.of_nat 20) with (10 ^ 20). lia.
Qed.

Lemma dec_step2 v :
  100 <= v < 10 ^ 20 →
  dec v = dec (v / 100) ++ [ch0 + v mod 100 / 10; ch0 + v mod 100 mod 10].
Proof.
  intros Hv. rewrite dec_step by lia. rewrite dec_step by dlia.
  rewrite Z.div_div, <- app_assoc by lia. simpl.
  replace ((v / 10) mod 10) with (v mod 100 / 10) by dlia.
  replace (v mod 10) with (v mod 100 mod 10) by dlia. done.
Qed.

(** The number of digits is determined by the surrounding powers of ten. *)
Lemma dec_length v d :
  0 <= v → (d = 0%nat ∨ 10 ^ Z.of_nat d <= v) → v < 10 ^ Z.of_nat (S d) → (d < 20)%nat →
  zlen (dec v) = Z.of_nat (S d).
Proof.
  revert v. induction d as [|d IH]; intros v Hv Hlo Hhi Hd.
  { rewrite dec_small by (simpl in Hhi; lia). done. }
  destruct Hlo as [|Hlo]; [done|].
  assert (1 <= 10 ^ Z.of_nat d) by (assert (0 < 10 ^ Z.of_nat d) by (apply Z.pow_pos_nonneg; lia); lia).
  assert (v < 10 ^ 20).
  { eapply Z.lt_le_trans; [exact Hhi|]. apply Z.pow_le_mono_r; lia. }
  rewrite pow10_S in Hlo. rewrite dec_step by lia.
  rewrite zlen_app, IH; [rewrite zlen_cons, zlen_nil; lia|dlia| | |lia].
  - right. apply Z.div_le_lower_bound; lia.
  - apply div10_bound. lia.
Qed.

Lemma dec_head v :
  0 < v < 10 ^ 20 → ∃ c p, dec v = c :: p ∧ ch0 + 1 <= c <= ch0 + 9 ∧
    Forall (λ c, isdigit c = true) p ∧ eval (c - ch0) p = v.
Proof.
  unfold dec. change (10 ^ 20) with (10 ^ Z.of_nat 20). revert v.
  induction (20%nat) as [|n IH]; intros v Hv; [simpl in Hv; lia|].
  cbn [dec_rec]. case_if.
  - exists (ch0 + v), []. split_and!; [done|lia|lia|constructor|unfold eval, ch0; simpl; lia].
  - destruct (IH (v / 10)) as (c & p & -> & Hc & Hp & He).
    { pose proof (div10_bound v n). dlia. }
    exists c, (p ++ [ch0 + v mod 10]). split_and!; [done|lia|lia| |].
    + apply Forall_app. split; [done|]. constructor; [|constructor].
      unfold isdigit, ch0. dlia.
    + rewrite eval_app, He. unfold eval, ch0. simpl. dlia.
Qed.

(** Conversely a digit string without leading zero is the expansion of its value. *)
Lemma eval_nonneg acc p :
  0 <= acc → Forall (λ c, isdigit c = true) p → acc <= eval acc p.
Proof.
  intros Ha Hp. revert acc Ha. induction Hp as [|c p Hc _ IH]; intros acc Ha; [done|].
  unfold isdigit in Hc. zb. specialize (IH (acc * 10 + (c - ch0))). unfold eval in *. simpl. lia.
Qed.

Lemma dec_eval c p :
  ch0 + 1 <= c <= ch0 + 9 → Forall (λ c, isdigit c = true) p →
  eval (c - ch0) p < 10 ^ 20 → dec (eval (c - ch0) p) = c :: p.
Proof.
  intros Hc. induction p as [|d p IH] using rev_ind; intros Hp He.
  - unfold eval. simpl. rewrite dec_small by (unfold ch0 in *; lia). f_equal. lia.
  - apply Forall_app in Hp as [Hp Hd%Forall_inv]. rewrite eval_app in He |- *.
    pose proof (eval_nonneg (c - ch0) p ltac:(lia) Hp). unfold isdigit in Hd. zb.
    set (e := eval (c - ch0) p) in *. unfold eval in He |- *. simpl in He |- *.
    rewrite dec_step by (unfold ch0 in *; lia).
    replace ((e * 10 + (d - ch0)) / 10) with e by (unfold ch0 in *; dlia).
    replace ((e * 10 + (d - ch0)) mod 10) with (d - ch0) by (unfold ch0 in *; dlia).
    rewrite IH by (done || (unfold ch0 in *; lia)). simpl. do 2 f_equal. f_equal. lia.
Qed.

(** ** Digit counting *)

Ltac eval_pow10 :=
  repeat match goal with
  | |- context [10 ^ ?n] => let x := eval vm_compute in (10 ^ n) in change (10 ^ n) with x
  end.


(** [v] has [d] decimal digits. *)
Definition ndigits (v d : Z) : Prop :=
  1 <= d ∧ (d = 1 ∨ 10 ^ (d - 1) <= v) ∧ v < 10 ^ d.

Lemma digits10_rec_small n v :
  0 <= v < 1000000000000 → ndigits v (digits10_rec (S n) v) ∧ digits10_rec (S n) v <= 12.
Proof.
  intros Hv. cbn [digits10_rec]. unfold Z.b2z.
  repeat case_if; unfold ndigits; try (exfalso; lia);
    (split; [split_and!|]); eval_pow10; lia.
Qed.

Lemma digits10_rec_big n v :
  1000000000000 <= v → digits10_rec (S n) v = 12 + digits10_rec n (v / 1000000000000).
Proof. intros. cbn [digits10_rec]. by do 4 (case_if; [lia|]). Qed.

Lemma digits10_spec v :
  0 <= v <= UINT64_MAX → ndigits v (digits10 v) ∧ digits10 v <= 20.
Proof.
  unfold UINT64_MAX, digits10. intros Hv.
  destruct (Z.lt_ge_cases v 1000000000000) as [Hlt|Hge].
  { destruct (digits10_rec_small 1 v); [lia|]. split; [done|lia]. }
  rewrite digits10_rec_big by done. set (w := v / 1000000000000).
  assert (0 <= w < 100000000) by (subst w; dlia).
  assert (w * 1000000000000 <= v < (w + 1) * 1000000000000) by (subst w; dlia).
  destruct (digits10_rec_small 0 w) as [(H1 & H2 & H3) H4]; [lia|].
  set (d := digits10_rec 1 w) in *.
  assert (d <= 8).
  { destruct (Z.le_gt_cases d 8); [done|]. destruct H2; [lia|].
    assert (10 ^ 8 <= 10 ^ (d - 1)) by (apply Z.pow_le_mono_r; lia). lia. }
  split; [|lia]. split_and!; [lia| |].
  - right. replace (12 + d - 1) with (12 + (d - 1)) by lia. rewrite Z.pow_add_r by lia.
    change (10 ^ 12) with 1000000000000. destruct H2 as [->|]; [|lia].
    change (10 ^ (1 - 1)) with 1. lia.
  - rewrite Z.pow_add_r by lia. change (10 ^ 12) with 1000000000000. lia.
Qed.

Lemma digits10_dec v : 0 <= v <= UINT64_MAX → digits10 v = zlen (dec v).
Proof.
  intros Hv. destruct (digits10_spec v Hv) as [(H1 & H2 & H3) H4].
  rewrite (dec_length v (Z.to_nat (digits10 v - 1))); [lia|lia| | |lia].
  - rewrite Z2Nat.id by lia. destruct H2; [left; lia|by right].
  - by replace (Z.of_nat (S (Z.to_nat (digits10 v - 1)))) with (digits10 v) by lia.
Qed.

(** ** Printing *)

(** The table holds the two digits of every number below 100. *)
Lemma digits_table n :
  0 <= n < 100 →
  byte_at (n * 2) digits = Some (ch0 + n / 10) ∧
  byte_at (n * 2 + 1) digits = Some (ch0 + n mod 10).
Proof.
  intros Hn. assert (Hall : forallb (λ n : nat,
    let n := Z.of_nat n in
    bool_decide (byte_at (n * 2) digits = Some (ch0 + n / 10)) &&
    bool_decide (byte_at (n * 2 + 1) digits = Some (ch0 + n mod 10))) (seq 0 100) = true)
    by (vm_compute; reflexivity).
  rewrite forallb_forall in Hall. specialize (Hall (Z.to_nat n)).
  rewrite in_seq in Hall. specialize (Hall ltac:(lia)). simpl in Hall.
  rewrite Z2Nat.id in Hall by lia. apply andb_true_iff in Hall as [H1 H2].
  apply bool_decide_eq_true in H1, H2. done.
Qed.

(** Storing two consecutive bytes, the second one first. *)
Lemma wr_pair (pre : list Z) x y a b post :
  (dst ← wr (zlen pre + 1) [b] (pre ++ [x; y] ++ post); wr (zlen pre) [a] dst)
  = Some (pre ++ [a; b] ++ post).
Proof.
  pose proof (wr_mid (pre ++ [x]) [y] post [b] eq_refl) as E1.
  rewrite zlen_app, <- !app_assoc in E1. change (zlen [x]) with 1 in E1. simpl in E1 |- *.
  rewrite E1. simpl. apply (wr_mid pre [x] (b :: post) [a]). done.
Qed.

Lemma ull_loop_spec fuel pre hole post value :
  (0 < fuel)%nat → 0 <= value < 100 ^ Z.of_nat fuel → value < 10 ^ 20 → zlen hole = zlen (dec value) →
  ∃ hole' value' post',
    ull_loop fuel (pre ++ hole ++ post) (zlen pre) (zlen hole - 1) value
    = Some (pre ++ hole' ++ post', zlen hole' - 1, value') ∧
    0 <= value' < 100 ∧ zlen hole' = zlen (dec value') ∧
    dec value ++ post = dec value' ++ post'.
Proof.
  revert hole post value. induction fuel as [|fuel IH]; intros hole post value Hf0 Hf Hv Hl; [lia|].
  cbn [ull_loop]. case_if; [|exists hole, value, post; split_and!; done || lia].
  rewrite dec_step2 in Hl |- * by lia. rewrite zlen_app in Hl. simpl in Hl.
  change (zlen [_; _]) with 2 in Hl.
  assert (Hh : ∃ hole1 x y, hole = hole1 ++ [x; y] ∧ zlen hole1 = zlen (dec (value / 100))).
  { exists (take (length hole - 2) hole).
    assert (length (drop (length hole - 2) hole) = 2%nat) as Hd.
    { rewrite length_drop. unfold zlen in Hl. lia. }
    destruct (drop (length hole - 2) hole) as [|x [|y []]] eqn:E; try done.
    exists x, y. rewrite <- E, take_drop. split; [done|].
    rewrite zlen_take. unfold zlen in *. lia. }
  destruct Hh as (hole1 & x & y & -> & Hh1).
  destruct (digits_table (value mod 100)) as [-> ->]; [dlia|]. cbn [mbind option_bind].
  pose proof (wr_pair (pre ++ hole1) x y (ch0 + value mod 100 / 10)
    (ch0 + value mod 100 mod 10) post) as Ew.
  rewrite <- !app_assoc, zlen_app in Ew.
  rewrite zlen_app. change (zlen [x; y]) with 2.
  replace (zlen pre + (zlen hole1 + 2 - 1)) with (zlen pre + zlen hole1 + 1) by lia.
  replace (zlen pre + (zlen hole1 + 2 - 1 - 1)) with (zlen pre + zlen hole1) by lia.
  rewrite <- !app_assoc.
  destruct (wr (zlen pre + zlen hole1 + 1) _ _) as [dst|]; [|done]. cbn [mbind option_bind] in Ew |- *.
  rewrite Ew. cbn [mbind option_bind].
  replace (zlen hole1 + 2 - 1 - 2) with (zlen hole1 - 1) by lia.
  destruct (IH hole1 ([ch0 + value mod 100 / 10; ch0 + value mod 100 mod 10] ++ post) (value / 100))
    as (hole' & value' & post' & E & Hv' & Hl' & Ed).
  - destruct fuel; [|lia]. change (100 ^ Z.of_nat 1) with 100 in Hf. lia.
  - rewrite Nat2Z.inj_succ, Z.pow_succ_r in Hf by lia. split; [dlia|].
    apply Z.div_lt_upper_bound; lia.
  - dlia.
  - done.
  - exists hole', value', post'. split_and!; try done; lia.
Qed.

Lemma ull2string_spec pre hole post value dstlen :
  0 <= value <= UINT64_MAX → zlen hole = zlen (dec value) + 1 → zlen (dec value) < dstlen →
  ull2string (pre ++ hole ++ post) (zlen pre) dstlen value
  = Some (pre ++ dec value ++ [0] ++ post, zlen (dec value)).
Proof.
  intros Hv Hl Hd. unfold ull2string. rewrite digits10_dec by done. case_if; [lia|].
  assert (Hb : 0 <= value < 10 ^ 20) by (unfold UINT64_MAX in Hv; lia).
  assert (Hh : ∃ h x, hole = h ++ [x] ∧ zlen h = zlen (dec value)).
  { destruct (exists_last (l := hole)) as (h & x & ->).
    - intros ->. change (zlen []) with 0 in Hl. pose proof (zlen_nonneg (dec value)). lia.
    - exists h, x. rewrite zlen_app in Hl. change (zlen [x]) with 1 in Hl. split; [done|lia]. }
  destruct Hh as (h & x & -> & Hh).
  pose proof (wr_mid (pre ++ h) [x] post [0] eq_refl) as Ew.
  rewrite zlen_app, <- !app_assoc in Ew. rewrite <- !app_assoc.
  replace (zlen (dec value) - 1 + 1) with (zlen h) by lia. rewrite Ew. cbn [mbind option_bind].
  rewrite <- Hh.
  destruct (ull_loop_spec 11 pre h ([0] ++ post) value)
    as (hole' & value' & post' & -> & Hv' & Hl' & Ed); [lia| |lia|done|].
  { change (100 ^ Z.of_nat 11) with 10000000000000000000000. lia. }
  rewrite Ed. cbn [mbind option_bind]. case_if.
  - rewrite dec_small in Hl' |- * by done. change (zlen [_]) with 1 in Hl'.
    replace (zlen pre + (zlen hole' - 1)) with (zlen pre) by lia.
    by rewrite wr_mid.
  - destruct (digits_table value') as [-> ->]; [lia|]. cbn [mbind option_bind].
    rewrite (dec_step value'), (dec_small (value' / 10)) in Hl' |- * by dlia.
    change (zlen ([_] ++ [_])) with 2 in Hl'.
    destruct hole' as [|a [|b [|]]]; rewrite ?zlen_cons in Hl';
      try (pose proof (zlen_nonneg hole')); try (change (zlen []) with 0 in Hl'; lia).
    2:{ pose proof (zlen_nonneg l). lia. }
    change (zlen [a; b]) with 2. replace (zlen pre + (2 - 1)) with (zlen pre + 1) by lia.
    replace (zlen pre + (2 - 1 - 1)) with (zlen pre) by lia.
    pose proof (wr_pair pre a b (ch0 + value' / 10) (ch0 + value' mod 10) post') as Ew2.
    destruct (wr (zlen pre + 1) _ _) as [dst|]; [|done]. cbn [mbind option_bind] in Ew2 |- *.
    rewrite Ew2. done.
Qed.

Lemma sdec_neg v : v < 0 → sdec v = chminus :: dec (- v).
Proof. intros. unfold sdec. case_if; [done|lia]. Qed.
Lemma sdec_pos v : 0 <= v → sdec v = dec v.
Proof. intros. unfold sdec. case_if; [lia|done]. Qed.

Lemma dec_len_pos v : 0 <= v <= UINT64_MAX → 0 < zlen (dec v).
Proof. intros Hv. rewrite <- digits10_dec by done. destruct (digits10_spec v Hv) as [[? _] _]. lia. Qed.

(** The unsigned value the code computes for a negative number. *)
Lemma abs_value v :
  is_int64 v → v < 0 →
  (if negb (v =? INT64_MIN) then - v else uwrap 64 (INT64_MAX + 1)) = - v.
Proof.
  unfold is_int64, INT64_MIN, INT64_MAX. intros. case_if; [done|].
  assert (v = -9223372036854775808) as -> by lia. reflexivity.
Qed.

Lemma ll2string_spec pre hole post v dstlen :
  is_int64 v → zlen hole = zlen (sdec v) + 1 → zlen (sdec v) < dstlen →
  ll2string (pre ++ hole ++ post) (zlen pre) dstlen v
  = Some (pre ++ sdec v ++ [0] ++ post, zlen (sdec v)).
Proof.
  intros Hv Hl Hd. pose proof Hv as Hv'. unfold is_int64, INT64_MIN, INT64_MAX in Hv'.
  assert (Hu : ∀ w, 0 <= w <= 9223372036854775808 → 0 <= w <= UINT64_MAX)
    by (unfold UINT64_MAX; lia).
  unfold ll2string. case_if.
  - rewrite sdec_neg in * by done. rewrite abs_value by done.
    pose proof (dec_len_pos (- v) (Hu (- v) ltac:(lia))). rewrite zlen_cons in *.
    case_if; [lia|]. destruct hole as [|x hole]; [change (zlen []) with 0 in Hl; lia|].
    pose proof (wr_mid pre [x] (hole ++ post) [chminus] eq_refl) as Ew. simpl in Ew |- *.
    rewrite Ew. cbn [mbind option_bind].
    pose proof (ull2string_spec (pre ++ [chminus]) hole post (- v) (dstlen - 1)) as E.
    rewrite zlen_app, <- !app_assoc in E. change (zlen [chminus]) with 1 in E.
    rewrite zlen_cons in Hl. simpl in E. rewrite E; [|by apply Hu; lia|lia|lia].
    cbn [mbind option_bind]. case_if; [lia|]. do 2 f_equal. lia.
  - rewrite sdec_pos in * by done. pose proof (dec_len_pos v (Hu v ltac:(lia))).
    rewrite ull2string_spec by (done || (apply Hu; lia)). cbn [mbind option_bind].
    case_if; [lia|]. do 2 f_equal. lia.
Qed.

(** Given room for the digits and the terminator, [ll2string] stores the
    decimal representation followed by a null byte, touches nothing else, and
    returns the number of characters. *)
Theorem ll2string_correct pre hole post v dstlen :
  is_int64 v → zlen hole = zlen (sdec v) + 1 → zlen (sdec v) < dstlen →
  ll2string (pre ++ hole ++ post) (zlen pre) dstlen v
  = Some (pre ++ sdec v ++ [0] ++ post, zlen (sdec v)).
Proof. apply ll2string_spec. Qed.

(** What the [err:] path guarantees for a buffer [hole] that is too small. *)
Lemma null_term_spec pre hole post dstlen :
  zlen hole = dstlen →
  ∃ hole', null_term (pre ++ hole ++ post) (zlen pre) dstlen = Some (pre ++ hole' ++ post, 0) ∧
    zlen hole' = zlen hole ∧ (hole ≠ [] → 0 ∈ hole').
Proof.
  intros Hl. unfold null_term. case_if.
  - destruct hole as [|x hole]; [change (zlen []) with 0 in Hl; lia|].
    pose proof (wr_mid pre [x] (hole ++ post) [0] eq_refl) as Ew. simpl in Ew |- *. rewrite Ew.
    exists (0 :: hole). split_and!; [done|by rewrite !zlen_cons|by left].
  - exists hole. split_and!; [done..|]. intros Hne. destruct hole; [done|].
    rewrite zlen_cons in Hl. pose proof (zlen_nonneg hole). lia.
Qed.

Lemma ull2string_short pre hole post value :
  0 <= value <= UINT64_MAX → zlen hole <= zlen (dec value) →
  ∃ hole', ull2string (pre ++ hole ++ post) (zlen pre) (zlen hole) value
           = Some (pre ++ hole' ++ post, 0) ∧
    zlen hole' = zlen hole ∧ (hole ≠ [] → 0 ∈ hole').
Proof.
  intros Hv Hl. unfold ull2string. rewrite digits10_dec by done. case_if; [|lia].
  by apply null_term_spec.
Qed.

(** When the buffer [hole] cannot hold the representation and its
    terminator, [ll2string] returns 0, stays inside the buffer and leaves a
    null byte in it. *)
Theorem ll2string_too_small pre hole post v :
  is_int64 v → zlen hole <= zlen (sdec v) →
  ∃ hole', ll2string (pre ++ hole ++ post) (zlen pre) (zlen hole) v
           = Some (pre ++ hole' ++ post, 0) ∧
    zlen hole' = zlen hole ∧ (hole ≠ [] → 0 ∈ hole').
Proof.
  intros Hv Hl. pose proof Hv as Hv'. unfold is_int64, INT64_MIN, INT64_MAX in Hv'.
  unfold ll2string. case_if.
  - rewrite sdec_neg, zlen_cons in Hl by done. rewrite abs_value by done.
    case_if; [by apply null_term_spec|].
    destruct hole as [|x hole]; [change (zlen []) with 0 in *; lia|]. rewrite zlen_cons in *.
    pose proof (wr_mid pre [x] (hole ++ post) [chminus] eq_refl) as Ew. simpl in Ew |- *.
    rewrite Ew. cbn [mbind option_bind].
    destruct (ull2string_short (pre ++ [chminus]) hole post (- v)) as (h & E & Hh & Hz);
      [unfold UINT64_MAX; lia|lia|].
    rewrite zlen_app, <- !app_assoc in E. change (zlen [chminus]) with 1 in E. simpl in E.
    replace (1 + zlen hole - 1) with (zlen hole) by lia. rewrite E. cbn [mbind option_bind].
    exists (chminus :: h). rewrite zlen_cons. split_and!; [done|lia|]. intros _. right.
    apply Hz. intros ->. change (zlen []) with 0 in *. lia.
  - rewrite sdec_pos in Hl by done.
    destruct (ull2string_short pre hole post v) as (h & -> & ?);
      [unfold UINT64_MAX; lia|done|]. cbn [mbind option_bind]. by exists h.
Qed.

(** ** Parsing *)

Lemma string2ll_loop_digits p v :
  0 <= v → Forall (λ c, isdigit c = true) p → eval v p <= UINT64_MAX →
  string2ll_loop p v = Some (eval v p, []).
Proof.
  intros Hv Hp. revert v Hv. induction Hp as [|c p Hc Hp IH]; intros v Hv He; [done|].
  cbn [string2ll_loop]. rewrite Hc.
  change (eval v (c :: p)) with (eval (v * 10 + (c - ch0)) p) in *.
  unfold isdigit in Hc. zb. pose proof (eval_nonneg (v * 10 + (c - ch0)) p ltac:(lia) Hp).
  case_if; [unfold UINT64_MAX in *; dlia|]. case_if; [lia|]. apply IH; lia.
Qed.

Lemma string2ll_loop_inv p v w :
  0 <= v → string2ll_loop p v = Some (w, []) →
  Forall (λ c, isdigit c = true) p ∧ w = eval v p.
Proof.
  revert v. induction p as [|c p IH]; intros v Hv H; simpl in H.
  { injection H as <-. done. }
  destruct (isdigit c) eqn:Hc; [|done]. repeat case_if; try done.
  apply IH in H as [Hp ->]; [by split; [constructor|]|]. unfold isdigit in Hc. zb. lia.
Qed.

Lemma minus_not_digit v : 0 < v < 10 ^ 20 → head (dec v) ≠ Some chminus.
Proof.
  intros Hv. destruct (dec_head v Hv) as (c & p & -> & Hc & _). simpl.
  intros [= ->]. unfold chminus, ch0 in Hc. lia.
Qed.

Lemma sdec_len v : is_int64 v → 0 < zlen (sdec v) < LONG_STR_SIZE.
Proof.
  unfold is_int64, INT64_MIN, INT64_MAX, LONG_STR_SIZE. intros Hv.
  assert (Hd : ∀ w, 0 <= w <= 9223372036854775808 → 0 < zlen (dec w) <= 19).
  { intros w Hw. assert (0 <= w <= UINT64_MAX) as Hu by (unfold UINT64_MAX; lia).
    rewrite <- digits10_dec by done. destruct (digits10_spec w Hu) as [(H1 & H2 & _) H3].
    split; [lia|]. destruct (Z.le_gt_cases (digits10 w) 19); [done|].
    assert (digits10 w = 20) as E by lia. rewrite E in H2. destruct H2 as [|H2]; [done|].
    change (10 ^ (20 - 1)) with 10000000000000000000 in H2. lia. }
  unfold sdec. case_if; rewrite ?zlen_cons; [specialize (Hd (- v))|specialize (Hd v)]; lia.
Qed.

Lemma string2ll_spec s v :
  string2ll s = Some v ↔ is_int64 v ∧ s = sdec v.
Proof.
  unfold string2ll. split.
  - intros H. case_if; [done|]. case_bool_decide as E0.
    { injection H as <-. split; [done|]. rewrite E0. reflexivity. }
    set (neg := bool_decide (head s = Some chminus)) in H.
    destruct (if neg then tail s else s) as [|c p] eqn:Ep; [done|].
    case_if; [|done]. destruct (string2ll_loop p (c - ch0)) as [[w [|]]|] eqn:El; [|done..].
    cbn [mbind option_bind] in H. apply string2ll_loop_inv in El as [Hp ->]; [|lia].
    pose proof (eval_nonneg (c - ch0) p ltac:(lia) Hp) as Hge.
    assert (Hd : eval (c - ch0) p < 10 ^ 20 → dec (eval (c - ch0) p) = c :: p)
      by (intros; apply dec_eval; done || lia).
    set (w := eval (c - ch0) p) in *. unfold is_int64, INT64_MIN, INT64_MAX in *.
    destruct neg eqn:En; case_if; try done; injection H as <-.
    + rewrite swrap_id by (simpl; lia). split; [lia|]. rewrite sdec_neg by (unfold ch0 in *; lia).
      rewrite Z.opp_involutive, Hd by lia. subst neg. apply bool_decide_eq_true in En.
      destruct s; [done|]. simpl in *. by simplify_eq.
    + split; [unfold ch0 in *; lia|]. rewrite sdec_pos, Hd by (unfold ch0 in *; lia). done.
  - intros [Hv ->]. pose proof (sdec_len v Hv) as Hl. case_if; [lia|].
    destruct (decide (v = 0)) as [->|Hv0]; [reflexivity|].
    unfold is_int64, INT64_MIN, INT64_MAX in *.
    destruct (dec_head (Z.abs v)) as (c & p & Hd & Hc & Hp & He); [lia|].
    rewrite bool_decide_false.
    2:{ unfold sdec. case_if; [done|]. replace v with (Z.abs v) by lia. rewrite Hd.
        intros [= -> ->]. unfold ch0 in *. lia. }
    assert (Hloop : string2ll_loop p (c - ch0) = Some (Z.abs v, [])).
    { rewrite string2ll_loop_digits, He; [done|lia|done|]. rewrite He. unfold UINT64_MAX. lia. }
    destruct (Z.lt_ge_cases v 0); [rewrite sdec_neg by done|rewrite sdec_pos by done].
    + rewrite bool_decide_true by done. simpl tail. replace (- v) with (Z.abs v) by lia.
      rewrite Hd. case_if; [|lia]. rewrite Hloop. cbn [mbind option_bind]. case_if; [lia|].
      rewrite swrap_id by (simpl; lia). f_equal. lia.
    + replace v with (Z.abs v) by lia. rewrite bool_decide_false by (apply minus_not_digit; lia).
      rewrite Hd. case_if; [|lia]. rewrite Hloop. cbn [mbind option_bind]. case_if; [lia|]. done.
Qed.

(** (C30) [string2ll] accepts exactly the decimal representations of 64-bit
    integers, and returns the integer represented: it is the inverse of
    printing, with no loss in either direction. *)
Theorem string2ll_correct s v :
  string2ll s = Some v ↔ is_int64 v ∧ s = sdec v.
Proof. apply string2ll_spec. Qed.

Lemma ll2string_correct_witness :
  ll2string ([7] ++ [9; 9; 9; 9; 9] ++ [8]) 1 5 (-123) = Some ([7] ++ [45; 49; 50; 51; 0] ++ [8], 4).
Proof.
  apply (ll2string_correct [7] [9; 9; 9; 9; 9] [8] (-123) 5).
  - unfold is_int64, INT64_MIN, INT64_MAX. lia.
  - vm_compute. reflexivity.
  - vm_compute. reflexivity.
Defined.

Lemma ll2string_too_small_witness :
  ∃ hole', ll2string ([7] ++ [9; 9; 9] ++ [8]) 1 3 (-123) = Some ([7] ++ hole' ++ [8], 0) ∧
    zlen hole' = 3 ∧ ([9; 9; 9] ≠ [] → 0 ∈ hole').
Proof.
  apply (ll2string_too_small [7] [9; 9; 9] [8] (-123)).
  - unfold is_int64, INT64_MIN, INT64_MAX. lia.
  - vm_compute. discriminate.
Defined.

End Util.
