(* ===== verification/Sds.v ===== *)
(** * Dynamic strings: memory layout ([src/redis-stable/src/sds.c], [sds.h])

    An [sds] is a pointer into a heap block: a packed header (length,
    allocation and a flags byte whose low bits select one of five header
    types) precedes the bytes of the string, which are followed by a null byte
    and by free space.  The block is modelled byte by byte and the pointer as an offset in
    it, so the type switches, the truncation of the header fields and every
    access are those of the C code.  The allocator is a parameter. *)

From S2P Require Import Prelude Util.

Module Sds.
Import Util.

(** ** Outcomes

    [Null n]: NULL is returned because a request of [n] bytes failed; [Abort n]:
    it made the out of memory handler of zmalloc stop the process; [Fault]: a
    failed [assert] or an access outside a block. *)
Inductive outcome (A : Type) : Type :=
  | Ret (a : A)
  | Null (n : Z)
  | Abort (n : Z)
  | Fault.
Arguments Ret {A} a.
Arguments Null {A} n.
Arguments Abort {A} n.
Arguments Fault {A}.

#[export] Instance outcome_ret : MRet outcome := λ A a, Ret a.
#[export] Instance outcome_bind : MBind outcome := λ A B f m,
  match m with Ret a => f a | Null n => Null n | Abort n => Abort n | Fault => Fault end.

Definition lift {A} (x : option A) : outcome A :=
  match x with Some a => Ret a | None => Fault end.
Definition assert (b : bool) : outcome unit := if b then Ret tt else Fault.

Record sds := mkSds {
  block : list Z;
  ptr : Z;
}.

Definition SDS_TYPE_5 : Z := 0.
Definition SDS_TYPE_8 : Z := 1.
Definition SDS_TYPE_16 : Z := 2.
Definition SDS_TYPE_32 : Z := 3.
Definition SDS_TYPE_64 : Z := 4.
Definition SDS_TYPE_MASK : Z := 7.
Definition SDS_TYPE_BITS : Z := 3.
Definition SDS_MAX_PREALLOC : Z := 1024 * 1024.

(** The switch on the header type: [c5] is the case of type 5, [c w] the case
    of a type whose [len] and [alloc] have [w] bytes. *)
Definition type_switch {A} (type : Z) (c5 : A) (c : nat → A) (default : A) : A :=
  let t := Z.land type SDS_TYPE_MASK in
  if t =? SDS_TYPE_5 then c5
  else if t =? SDS_TYPE_8 then c 1%nat
  else if t =? SDS_TYPE_16 then c 2%nat
  else if t =? SDS_TYPE_32 then c 4%nat
  else if t =? SDS_TYPE_64 then c 8%nat
  else default.

(** [sizeof(struct sdshdrN)]: packed [len], [alloc] and [flags]. *)
Definition sdsHdrSize (type : Z) : Z :=
  type_switch type 1 (λ w, 2 * Z.of_nat w + 1) 0.

Definition sdsReqType (string_size : Z) : Z :=
  if string_size <? 2 ^ 5 then SDS_TYPE_5
  else if string_size <? 2 ^ 8 then SDS_TYPE_8
  else if string_size <? 2 ^ 16 then SDS_TYPE_16
  else if string_size <? 2 ^ 32 then SDS_TYPE_32
  else SDS_TYPE_64.

Definition sdsTypeMaxSize (type : Z) : Z :=
  if type =? SDS_TYPE_5 then 2 ^ 5 - 1
  else if type =? SDS_TYPE_8 then 2 ^ 8 - 1
  else if type =? SDS_TYPE_16 then 2 ^ 16 - 1
  else if type =? SDS_TYPE_32 then 2 ^ 32 - 1
  else UINT64_MAX.

(** ** Accesses through the pointer *)

(** [s[i]], [s[i] = v], [memcpy(s+i, bs, n)] and reads of [n] bytes at [s+i]. *)
Definition get (s : sds) (i : Z) : outcome Z := lift (byte_at (ptr s + i) (block s)).
Definition put (s : sds) (i : Z) (bs : list Z) : outcome sds :=
  b ← lift (wr (ptr s + i) bs (block s)); Ret (mkSds b (ptr s)).
Definition load (s : sds) (i n : Z) : outcome (list Z) := lift (rd (ptr s + i) n (block s)).
(** The memory from [s] on, for the functions that read it as a C string. *)
Definition data (s : sds) : list Z := drop (Z.to_nat (ptr s)) (block s).

(** [SDS_HDR(T,s)->len] and [->alloc] for fields of [w] bytes. *)
Definition hdr_len (s : sds) (w : nat) : outcome Z :=
  bs ← load s (- (2 * Z.of_nat w + 1)) (Z.of_nat w); Ret (le_val bs).
Definition hdr_alloc (s : sds) (w : nat) : outcome Z :=
  bs ← load s (- (Z.of_nat w + 1)) (Z.of_nat w); Ret (le_val bs).
Definition set_hdr_len (s : sds) (w : nat) (v : Z) : outcome sds :=
  put s (- (2 * Z.of_nat w + 1)) (le_bytes w v).
Definition set_hdr_alloc (s : sds) (w : nat) (v : Z) : outcome sds :=
  put s (- (Z.of_nat w + 1)) (le_bytes w v).

Definition SDS_TYPE_5_LEN (f : Z) : Z := Z.shiftr f SDS_TYPE_BITS.

Definition sdslen (s : sds) : outcome Z :=
  flags ← get s (-1);
  type_switch flags (Ret (SDS_TYPE_5_LEN flags)) (hdr_len s) (Ret 0).

(** [sh->alloc - sh->len]: 32-bit unsigned arithmetic for [uint32_t] fields;
    smaller fields are promoted to [int] and the result converted to [size_t]. *)
Definition free_space (w : nat) (alloc len : Z) : Z :=
  uwrap (if (w =? 4)%nat then 32 else 64) (alloc - len).

Definition sdsavail (s : sds) : outcome Z :=
  flags ← get s (-1);
  type_switch flags (Ret 0)
    (λ w, alloc ← hdr_alloc s w; len ← hdr_len s w; Ret (free_space w alloc len))
    (Ret 0).

Definition sdssetlen (s : sds) (newlen : Z) : outcome sds :=
  flags ← get s (-1);
  type_switch flags
    (put s (-1) [uwrap 8 (Z.lor SDS_TYPE_5 (Z.shiftl newlen SDS_TYPE_BITS))])
    (λ w, set_hdr_len s w newlen)
    (Ret s).

Definition sdsalloc (s : sds) : outcome Z :=
  flags ← get s (-1);
  type_switch flags (Ret (SDS_TYPE_5_LEN flags)) (hdr_alloc s) (Ret 0).

Definition sdssetalloc (s : sds) (newlen : Z) : outcome sds :=
  flags ← get s (-1);
  type_switch flags (Ret s) (λ w, set_hdr_alloc s w newlen) (Ret s).

(** [strlen]: the number of bytes before the first null byte; it reads out of
    bounds when there is none. *)
Fixpoint strlen (t : list Z) : option Z :=
  match t with
  | [] => None
  | c :: t => if c =? 0 then Some 0 else n ← strlen t; Some (1 + n)
  end.

Section Ops.
(** [malloc n]: the usable size of the block returned for a request of [n]
    bytes, [None] when the request fails; [junk]: the byte left in memory by
    the allocator. *)
Variable malloc : Z → option Z.
Variable junk : Z.

Definition zmalloc_usable (n : Z) : outcome Z :=
  match malloc n with Some u => Ret u | None => Abort n end.
Definition ztrymalloc_usable (n : Z) : outcome Z :=
  match malloc n with Some u => Ret u | None => Null n end.

(** What [init] points to; [NULL] asks for zeros. *)
Inductive init_data := INIT_NULL | SDS_NOINIT | INIT (t : list Z).

Definition _sdsnewlen (init : init_data) (initlen : Z) (trymalloc : bool) : outcome sds :=
  let type := sdsReqType initlen in
  let type := if (type =? SDS_TYPE_5) && (initlen =? 0) then SDS_TYPE_8 else type in
  let hdrlen := sdsHdrSize type in
  _ ← assert (initlen <? uwrap 64 (initlen + hdrlen + 1));
  u ← (if trymalloc then ztrymalloc_usable else zmalloc_usable) (uwrap 64 (hdrlen + initlen + 1));
  sh ← (match init with
        | INIT_NULL => lift (wr 0 (replicate (Z.to_nat (hdrlen + initlen + 1)) 0)
                                (replicate (Z.to_nat u) junk))
        | _ => Ret (replicate (Z.to_nat u) junk)
        end);
  let s := mkSds sh hdrlen in
  let usable := uwrap 64 (u - hdrlen - 1) in
  let usable := if sdsTypeMaxSize type <? usable then sdsTypeMaxSize type else usable in
  s ← type_switch type
        (put s (-1) [uwrap 8 (Z.lor type (Z.shiftl initlen SDS_TYPE_BITS))])
        (λ w, s ← set_hdr_len s w initlen; s ← set_hdr_alloc s w usable; put s (-1) [type])
        (Ret s);
  s ← (match init with
       | INIT t =>
           if negb (initlen =? 0) then t ← lift (rd 0 initlen t); put s 0 t else Ret s
       | _ => Ret s
       end);
  put s initlen [0].

Definition sdsnewlen (init : init_data) (initlen : Z) : outcome sds := _sdsnewlen init initlen false.
Definition sdstrynewlen (init : init_data) (initlen : Z) : outcome sds := _sdsnewlen init initlen true.
Definition sdsempty : outcome sds := sdsnewlen (INIT [0]) 0.

(** [init] is NULL or a C string. *)
Definition sdsnew (init : option (list Z)) : outcome sds :=
  match init with
  | None => sdsnewlen INIT_NULL 0
  | Some t => initlen ← lift (strlen t); sdsnewlen (INIT t) initlen
  end.

Definition sdsdup (s : sds) : outcome sds := len ← sdslen s; sdsnewlen (INIT (data s)) len.

Definition sdsupdatelen (s : sds) : outcome sds :=
  reallen ← lift (strlen (data s)); sdssetlen s reallen.

Definition sdsclear (s : sds) : outcome sds := s ← sdssetlen s 0; put s 0 [0].

Definition _sdsMakeRoomFor (s : sds) (addlen : Z) (greedy : bool) : outcome sds :=
  avail ← sdsavail s;
  flags ← get s (-1);
  let oldtype := Z.land flags SDS_TYPE_MASK in
  if addlen <=? avail then Ret s
  else
    len ← sdslen s;
    let reqlen := uwrap 64 (len + addlen) in
    _ ← assert (len <? reqlen);
    let newlen :=
      if greedy then
        if reqlen <? SDS_MAX_PREALLOC then reqlen * 2 else uwrap 64 (reqlen + SDS_MAX_PREALLOC)
      else reqlen in
    let type := sdsReqType newlen in
    let type := if type =? SDS_TYPE_5 then SDS_TYPE_8 else type in
    let hdrlen := sdsHdrSize type in
    _ ← assert (reqlen <? uwrap 64 (hdrlen + newlen + 1));
    '(s, usable) ←
      (if oldtype =? type then
         u ← zmalloc_usable (uwrap 64 (hdrlen + newlen + 1));
         Ret (mkSds (zrealloc junk u (block s)) hdrlen, u)
       else
         u ← zmalloc_usable (uwrap 64 (hdrlen + newlen + 1));
         t ← load s 0 (len + 1);
         s ← put (mkSds (replicate (Z.to_nat u) junk) hdrlen) 0 t;
         s ← put s (-1) [type];
         s ← sdssetlen s len;
         Ret (s, u));
    let usable := uwrap 64 (usable - hdrlen - 1) in
    let usable := if sdsTypeMaxSize type <? usable then sdsTypeMaxSize type else usable in
    sdssetalloc s usable.

Definition sdsMakeRoomFor (s : sds) (addlen : Z) : outcome sds := _sdsMakeRoomFor s addlen true.
Definition sdsMakeRoomForNonGreedy (s : sds) (addlen : Z) : outcome sds :=
  _sdsMakeRoomFor s addlen false.

Definition sdsResize (s : sds) (size : Z) (would_regrow : bool) : outcome sds :=
  flags ← get s (-1);
  let oldtype := Z.land flags SDS_TYPE_MASK in
  let oldhdrlen := sdsHdrSize oldtype in
  len ← sdslen s;
  alloc ← sdsalloc s;
  if alloc =? size then Ret s
  else
    let len := if size <? len then size else len in
    let type := sdsReqType size in
    let type := if would_regrow && (type =? SDS_TYPE_5) then SDS_TYPE_8 else type in
    let hdrlen := sdsHdrSize type in
    let use_realloc := (oldtype =? type) || ((type <? oldtype) && (SDS_TYPE_8 <? type)) in
    let newlen := uwrap 64 (if use_realloc then oldhdrlen + size + 1 else hdrlen + size + 1) in
    s ← (if use_realloc then
           (* [je_nallocx(newlen, 0) == zmalloc_size(sh)] *)
           let alloc_already_optimal := bool_decide (malloc newlen = Some (zlen (block s))) in
           if alloc_already_optimal then Ret s
           else u ← zmalloc_usable newlen; Ret (mkSds (zrealloc junk u (block s)) oldhdrlen)
         else
           u ← zmalloc_usable newlen;
           t ← load s 0 len;
           s ← put (mkSds (replicate (Z.to_nat u) junk) hdrlen) 0 t;
           put s (-1) [type]);
    s ← put s len [0];
    s ← sdssetlen s len;
    sdssetalloc s size.

Definition sdsRemoveFreeSpace (s : sds) (would_regrow : bool) : outcome sds :=
  len ← sdslen s; sdsResize s len would_regrow.

Definition sdsAllocSize (s : sds) : outcome Z :=
  alloc ← sdsalloc s; flags ← get s (-1); Ret (uwrap 64 (sdsHdrSize flags + alloc + 1)).

(** The assertion of [sdsIncrLen] for fields of [w] bytes, with the integer
    conversions of its comparisons. *)
Definition incr_ok (w : nat) (alloc len incr : Z) : bool :=
  let ucast := uwrap (if (w =? 8)%nat then 64 else 32) in
  ((0 <=? incr) &&
     (if (w <=? 2)%nat then incr <=? alloc - len else ucast incr <=? free_space w alloc len))
  || ((incr <? 0) && (ucast (- incr) <=? len)).

Definition sdsIncrLen (s : sds) (incr : Z) : outcome sds :=
  flags ← get s (-1);
  '(s, len) ← type_switch flags
    (let oldlen := SDS_TYPE_5_LEN flags in
     _ ← assert (((0 <? incr) && (oldlen + incr <? 32))
                 || ((incr <? 0) && (uwrap 32 (- incr) <=? oldlen)));
     s ← put s (-1) [uwrap 8 (Z.lor SDS_TYPE_5 (Z.shiftl (oldlen + incr) SDS_TYPE_BITS))];
     Ret (s, oldlen + incr))
    (λ w,
     alloc ← hdr_alloc s w;
     len ← hdr_len s w;
     _ ← assert (incr_ok w alloc len incr);
     let len := uwrap (8 * Z.of_nat w) (len + incr) in
     s ← set_hdr_len s w len;
     Ret (s, len))
    (Ret (s, 0));
  put s len [0].

Definition sdsgrowzero (s : sds) (len : Z) : outcome sds :=
  curlen ← sdslen s;
  if len <=? curlen then Ret s
  else
    s ← sdsMakeRoomFor s (len - curlen);
    s ← put s curlen (replicate (Z.to_nat (len - curlen + 1)) 0);
    sdssetlen s len.

Definition sdscatlen (s : sds) (t : list Z) (len : Z) : outcome sds :=
  curlen ← sdslen s;
  s ← sdsMakeRoomFor s len;
  t ← lift (rd 0 len t);
  s ← put s curlen t;
  s ← sdssetlen s (curlen + len);
  put s (curlen + len) [0].

Definition sdscat (s : sds) (t : list Z) : outcome sds :=
  n ← lift (strlen t); sdscatlen s t n.

Definition sdscatsds (s t : sds) : outcome sds := n ← sdslen t; sdscatlen s (data t) n.

Definition sdscpylen (s : sds) (t : list Z) (len : Z) : outcome sds :=
  alloc ← sdsalloc s;
  s ← (if alloc <? len then curlen ← sdslen s; sdsMakeRoomFor s (uwrap 64 (len - curlen)) else Ret s);
  t ← lift (rd 0 len t);
  s ← put s 0 t;
  s ← put s len [0];
  sdssetlen s len.

Definition sdscpy (s : sds) (t : list Z) : outcome sds :=
  n ← lift (strlen t); sdscpylen s t n.

Definition sdsfromlonglong (value : Z) : outcome sds :=
  '(buf, len) ← lift (ll2string (replicate 21 junk) 0 LONG_STR_SIZE value);
  sdsnewlen (INIT buf) len.

Definition sdssubstr (s : sds) (start len : Z) : outcome sds :=
  oldlen ← sdslen s;
  let '(start, len) := if oldlen <=? start then (0, 0) else (start, len) in
  let len := if oldlen - start <? len then oldlen - start else len in
  s ← (if negb (len =? 0) then t ← load s start len; put s 0 t else Ret s);
  s ← put s len [0];
  sdssetlen s len.

(** [start] and [end_] are [ssize_t]; sums with the [size_t] length wrap. *)
Definition sdsrange (s : sds) (start end_ : Z) : outcome sds :=
  len ← sdslen s;
  if len =? 0 then Ret s
  else
    let start := if start <? 0 then swrap 64 (len + start) else start in
    let end_ := if end_ <? 0 then swrap 64 (len + end_) else end_ in
    let newlen := if end_ <? start then 0 else uwrap 64 (end_ - start + 1) in
    sdssubstr s (uwrap 64 start) newlen.

(** [strchr(cset, c)]: [cset] is null terminated and the terminator counts. *)
Definition strchr (cset : list Z) (c : Z) : bool := existsb (Z.eqb c) cset || (c =? 0).

(** [while(sp <= end && strchr(cset, *sp)) sp++] *)
Fixpoint trim_left (fuel : nat) (s : sds) (cset : list Z) (sp end_ : Z) : outcome Z :=
  match fuel with
  | O => Fault
  | S fuel =>
      if sp <=? end_ then
        c ← get s sp;
        if strchr cset c then trim_left fuel s cset (sp + 1) end_ else Ret sp
      else Ret sp
  end.

(** [while(ep > sp && strchr(cset, *ep)) ep--] *)
Fixpoint trim_right (fuel : nat) (s : sds) (cset : list Z) (sp ep : Z) : outcome Z :=
  match fuel with
  | O => Fault
  | S fuel =>
      if sp <? ep then
        c ← get s ep;
        if strchr cset c then trim_right fuel s cset sp (ep - 1) else Ret ep
      else Ret ep
  end.

(** [cset] without its terminator. *)
Definition sdstrim (s : sds) (cset : list Z) : outcome sds :=
  n ← sdslen s;
  let end_ := n - 1 in
  sp ← trim_left (S (Z.to_nat n)) s cset 0 end_;
  ep ← trim_right (S (Z.to_nat n)) s cset sp end_;
  let len := (ep - sp) + 1 in
  s ← (if negb (sp =? 0) then t ← load s sp len; put s 0 t else Ret s);
  s ← put s len [0];
  sdssetlen s len.

End Ops.

(** ** Layout *)

Definition hdr (L A : list Z) (f : Z) (body : list Z) : sds :=
  mkSds (L ++ A ++ f :: body) (zlen L + zlen A + 1).

Section Layout.
Context (L A : list Z) (f : Z) (body : list Z) (w : nat).
Hypothesis (HL : zlen L = Z.of_nat w) (HA : zlen A = Z.of_nat w).

Lemma hdr_app : block (hdr L A f body) = (L ++ A ++ [f]) ++ body.
Proof. simpl. by rewrite <- !app_assoc. Qed.
Lemma hdr_ptr : ptr (hdr L A f body) = zlen (L ++ A ++ [f]).
Proof. simpl. rewrite !zlen_app. change (zlen [f]) with 1. lia. Qed.

Lemma hdr_len_hdr : hdr_len (hdr L A f body) w = Ret (le_val L).
Proof.
  unfold hdr_len, load. simpl ptr. simpl block.
  rewrite (rd_at [] L (A ++ f :: body)) by (rewrite ?zlen_nil; lia). done.
Qed.
Lemma hdr_alloc_hdr : hdr_alloc (hdr L A f body) w = Ret (le_val A).
Proof.
  unfold hdr_alloc, load. simpl ptr. simpl block. rewrite (rd_at L A (f :: body)) by lia. done.
Qed.
Lemma set_hdr_len_hdr v :
  set_hdr_len (hdr L A f body) w v = Ret (hdr (le_bytes w v) A f body).
Proof.
  unfold set_hdr_len, put. simpl ptr. simpl block.
  rewrite (wr_at [] L (A ++ f :: body)) by (rewrite ?zlen_nil, ?le_bytes_zlen; lia). simpl.
  unfold hdr. by rewrite le_bytes_zlen, <- HL.
Qed.
Lemma set_hdr_alloc_hdr v :
  set_hdr_alloc (hdr L A f body) w v = Ret (hdr L (le_bytes w v) f body).
Proof.
  unfold set_hdr_alloc, put. simpl ptr. simpl block.
  rewrite (wr_at L A (f :: body)) by (rewrite ?le_bytes_zlen; lia). simpl.
  unfold hdr. by rewrite le_bytes_zlen, <- HA.
Qed.
Lemma get_flags : get (hdr L A f body) (-1) = Ret f.
Proof.
  unfold get. simpl ptr. simpl block. rewrite app_assoc, byte_at_mid; [done|].
  rewrite zlen_app. lia.
Qed.
Lemma put_flags f' : put (hdr L A f body) (-1) [f'] = Ret (hdr L A f' body).
Proof.
  unfold put. simpl ptr. simpl block. rewrite app_assoc.
  change (f :: body) with ([f] ++ body). rewrite wr_at; [|rewrite zlen_app; lia|done].
  simpl. by rewrite <- app_assoc.
Qed.
Lemma load_hdr i n : 0 <= i → load (hdr L A f body) i n = lift (rd i n body).
Proof.
  intros. unfold load. rewrite hdr_app, hdr_ptr. f_equal.
  destruct (decide (0 <= n ∧ i + n <= zlen body)) as [[? ?]|].
  - pose proof (rd_inside (L ++ A ++ [f]) body [] i n) as E. rewrite !app_nil_r in E. by apply E.
  - unfold rd. rewrite (zlen_app (L ++ A ++ [f]) body).
    pose proof (zlen_nonneg (L ++ A ++ [f])). repeat case_if; auto; lia.
Qed.
Lemma get_hdr i : 0 <= i < zlen body → get (hdr L A f body) i = lift (byte_at i body).
Proof.
  intros. unfold get. rewrite hdr_app, hdr_ptr.
  pose proof (byte_at_inside (L ++ A ++ [f]) body [] i) as E. rewrite !app_nil_r in E. by rewrite E.
Qed.
Lemma put_hdr p s q t i :
  body = p ++ s ++ q → i = zlen p → zlen s = zlen t →
  put (hdr L A f body) i t = Ret (hdr L A f (p ++ t ++ q)).
Proof.
  intros Eb -> E. unfold put. rewrite hdr_app, hdr_ptr, Eb.
  rewrite (app_assoc (L ++ A ++ [f]) p), (wr_at ((L ++ A ++ [f]) ++ p) s q t) by (rewrite ?zlen_app; lia).
  simpl. unfold hdr. rewrite <- !app_assoc. simpl. do 2 f_equal.
  rewrite !zlen_app. change (zlen [f]) with 1. lia.
Qed.
Lemma data_hdr : data (hdr L A f body) = body.
Proof. unfold data. by rewrite hdr_app, hdr_ptr, drop_app_zlen. Qed.
End Layout.

(** The width of the header fields of a type (0 for type 5). *)
Definition width (ty : Z) : nat :=
  if ty =? 1 then 1%nat else if ty =? 2 then 2%nat else if ty =? 3 then 4%nat
  else if ty =? 4 then 8%nat else 0%nat.

Definition is_type (ty : Z) : Prop := 0 <= ty <= 4.

(** A string of type [ty] whose header records [len] and [alloc]. *)
Definition raw (ty len alloc : Z) (body : list Z) : sds :=
  if ty =? 0 then hdr [] [] (len * 8) body
  else hdr (le_bytes (width ty) len) (le_bytes (width ty) alloc) ty body.

Ltac each_type ty H :=
  let E := fresh in
  assert (ty = 0 ∨ ty = 1 ∨ ty = 2 ∨ ty = 3 ∨ ty = 4) as E by (unfold is_type in H; lia);
  destruct E as [->|[->|[->|[->| ->]]]].

Lemma type_switch_flags {A} ty len (a : A) b c :
  is_type ty → 0 <= len <= sdsTypeMaxSize ty →
  type_switch (if ty =? 0 then len * 8 else ty) a b c = if ty =? 0 then a else b (width ty).
Proof.
  intros Ht Hl. each_type ty Ht; try reflexivity.
  unfold type_switch. change (0 =? 0) with true. cbv iota.
  replace (Z.land (len * 8) SDS_TYPE_MASK) with 0; [done|].
  unfold SDS_TYPE_MASK. rewrite (land_mask _ 7 3) by lia. symmetry. apply Z.mod_mul. lia.
Qed.

Lemma type_switch_type {A} ty (a : A) b c :
  is_type ty → type_switch ty a b c = if ty =? 0 then a else b (width ty).
Proof. intros Ht. each_type ty Ht; reflexivity. Qed.

Lemma le_val_max ty v :
  is_type ty → ty ≠ 0 → 0 <= v <= sdsTypeMaxSize ty → le_val (le_bytes (width ty) v) = v.
Proof.
  intros Ht H0 Hv. rewrite le_val_bytes. apply Z.mod_small.
  assert (256 ^ Z.of_nat (width ty) = sdsTypeMaxSize ty + 1) as ->; [|lia].
  each_type ty Ht; [done|reflexivity..].
Qed.

Lemma land_flags ty len :
  is_type ty → 0 <= len → Z.land (if ty =? 0 then len * 8 else ty) SDS_TYPE_MASK = ty.
Proof.
  intros Ht Hl. each_type ty Ht; try reflexivity. change (0 =? 0) with true. cbv iota.
  unfold SDS_TYPE_MASK. rewrite (land_mask _ 7 3) by lia. apply Z.mod_mul. lia.
Qed.

Lemma HdrSize_pos ty : is_type ty → 1 <= sdsHdrSize ty <= 17.
Proof. intros Ht. each_type ty Ht; by split. Qed.

Lemma HdrSize_width ty : is_type ty → sdsHdrSize ty = 2 * Z.of_nat (width ty) + 1.
Proof. intros Ht. each_type ty Ht; reflexivity. Qed.

Lemma MaxSize_pos ty : is_type ty → 31 <= sdsTypeMaxSize ty < 2 ^ 64.
Proof. intros Ht. each_type ty Ht; by split. Qed.

Section Raw.
Context (ty len alloc : Z) (body : list Z).
Hypothesis (Ht : is_type ty) (Hl : 0 <= len <= sdsTypeMaxSize ty).

Lemma raw_hdr :
  ∃ L A, raw ty len alloc body = hdr L A (if ty =? 0 then len * 8 else ty) body ∧
    zlen L = Z.of_nat (width ty) ∧ zlen A = Z.of_nat (width ty).
Proof.
  unfold raw. case_if.
  - subst. by exists [], [].
  - do 2 eexists. split; [done|]. by rewrite !le_bytes_zlen.
Qed.

Lemma raw_ptr : ptr (raw ty len alloc body) = sdsHdrSize ty.
Proof.
  destruct raw_hdr as (L & A & -> & HL & HA). simpl. rewrite HdrSize_width by done. lia.
Qed.

Lemma raw_block_zlen : zlen (block (raw ty len alloc body)) = sdsHdrSize ty + zlen body.
Proof.
  destruct raw_hdr as (L & A & -> & HL & HA). rewrite hdr_app, HdrSize_width by done.
  rewrite !zlen_app. change (zlen [if ty =? 0 then len * 8 else ty]) with 1. lia.
Qed.

Lemma raw_flags : get (raw ty len alloc body) (-1) = Ret (if ty =? 0 then len * 8 else ty).
Proof. destruct raw_hdr as (L & A & -> & HL & HA). by apply (get_flags _ _ _ _ (width ty)). Qed.

Lemma sdslen_raw : sdslen (raw ty len alloc body) = Ret len.
Proof.
  unfold sdslen. rewrite raw_flags. cbn [mbind outcome_bind].
  rewrite type_switch_flags by done. unfold raw. case_if; simpl.
  - unfold SDS_TYPE_5_LEN, SDS_TYPE_BITS. rewrite shiftr_div by lia.
    f_equal. by apply (Z.div_mul len 8).
  - rewrite hdr_len_hdr by (by rewrite ?le_bytes_zlen). f_equal. by apply le_val_max.
Qed.

Lemma sdsalloc_raw :
  0 <= alloc <= sdsTypeMaxSize ty → sdsalloc (raw ty len alloc body) = Ret (if ty =? 0 then len else alloc).
Proof.
  intros Ha. unfold sdsalloc. rewrite raw_flags. cbn [mbind outcome_bind].
  rewrite type_switch_flags by done. unfold raw. case_if; simpl.
  - unfold SDS_TYPE_5_LEN, SDS_TYPE_BITS. rewrite shiftr_div by lia.
    f_equal. by apply (Z.div_mul len 8).
  - rewrite hdr_alloc_hdr by (by rewrite ?le_bytes_zlen). f_equal. by apply le_val_max.
Qed.

Lemma sdsavail_raw :
  len <= alloc <= sdsTypeMaxSize ty → sdsavail (raw ty len alloc body) = Ret (if ty =? 0 then 0 else alloc - len).
Proof.
  intros Ha. unfold sdsavail. rewrite raw_flags. cbn [mbind outcome_bind].
  rewrite type_switch_flags by done. unfold raw. case_if; simpl; [done|].
  rewrite hdr_alloc_hdr, hdr_len_hdr by (by rewrite ?le_bytes_zlen). simpl.
  rewrite !le_val_max by (done || lia). f_equal. unfold free_space. apply uwrap_id.
  pose proof (MaxSize_pos ty Ht). each_type ty Ht; [done|cbn in *; lia..].
Qed.

Lemma sdssetlen_raw n :
  0 <= n <= sdsTypeMaxSize ty → sdssetlen (raw ty len alloc body) n = Ret (raw ty n alloc body).
Proof.
  intros Hn. unfold sdssetlen. rewrite raw_flags. cbn [mbind outcome_bind].
  rewrite type_switch_flags by done. unfold raw. case_if; simpl.
  - subst. rewrite (put_flags [] [] _ _ 0) by done. do 2 f_equal. unfold SDS_TYPE_5, SDS_TYPE_BITS.
    rewrite Z.lor_0_l, Z.shiftl_mul_pow2 by lia. apply uwrap_id. cbn in *. lia.
  - apply set_hdr_len_hdr; by rewrite ?le_bytes_zlen.
Qed.

Lemma sdssetalloc_raw n :
  sdssetalloc (raw ty len alloc body) n = Ret (raw ty len n body).
Proof.
  unfold sdssetalloc. rewrite raw_flags. cbn [mbind outcome_bind].
  rewrite type_switch_flags by done. unfold raw. case_if; simpl; [done|].
  apply set_hdr_alloc_hdr; by rewrite ?le_bytes_zlen.
Qed.

Lemma load_raw i n : 0 <= i → load (raw ty len alloc body) i n = lift (rd i n body).
Proof. intros. destruct raw_hdr as (L & A & -> & HL & HA). by apply (load_hdr _ _ _ _ (width ty)). Qed.

Lemma get_raw i : 0 <= i < zlen body → get (raw ty len alloc body) i = lift (byte_at i body).
Proof. intros. destruct raw_hdr as (L & A & -> & HL & HA). by apply (get_hdr _ _ _ _ (width ty)). Qed.

Lemma put_raw p s q t i :
  body = p ++ s ++ q → i = zlen p → zlen s = zlen t →
  put (raw ty len alloc body) i t = Ret (raw ty len alloc (p ++ t ++ q)).
Proof.
  intros E1 E2 E3. unfold raw. case_if.
  - by apply (put_hdr _ _ _ _ 0 p s q).
  - by apply (put_hdr _ _ _ _ 0 p s q).
Qed.

Lemma data_raw : data (raw ty len alloc body) = body.
Proof. destruct raw_hdr as (L & A & -> & HL & HA). by apply (data_hdr _ _ _ _ (width ty)). Qed.
End Raw.

End Sds.
