(* ===== verification/SdsProofs.v ===== *)
(** * Dynamic strings: every operation of sds.c refines an operation on byte
    strings, stays inside its block and keeps the string null terminated. *)

From S2P Require Import Prelude Util Sds.

Module SdsProofs.
Import Util Sds.

Section Proofs.
Variable malloc : Z → option Z.
Variable junk : Z.
(** The allocator returns at least what it is asked for, in a [size_t]. *)
Hypothesis malloc_size : ∀ n u, malloc n = Some u → n <= u < 2 ^ 64.

(** ** Weakest preconditions: no fault, and failure only when a request made to
    the allocator fails *)

Definition wp {A} (r : outcome A) (P : A → Prop) : Prop :=
  match r with Ret a => P a | Null n | Abort n => malloc n = None | Fault => False end.

Lemma wp_bind {A B} (m : outcome A) (f : A → outcome B) P :
  wp m (λ a, wp (f a) P) → wp (m ≫= f) P.
Proof. by destruct m. Qed.

Lemma wp_mono {A} (m : outcome A) (P Q : A → Prop) : wp m P → (∀ a, P a → Q a) → wp m Q.
Proof. destruct m; simpl; auto. Qed.

Lemma wp_ret {A} (m : outcome A) a (P : A → Prop) : m = Ret a → P a → wp m P.
Proof. by intros ->. Qed.

Lemma wp_ret_bind {A B} (m : outcome A) a (f : A → outcome B) P :
  m = Ret a → wp (f a) P → wp (m ≫= f) P.
Proof. by intros ->. Qed.

(** The next operation returns the value that lemma [H] gives. *)
Ltac step H := eapply wp_ret_bind; [eapply H; eauto with lia|].

Lemma wp_assert {B} b (f : unit → outcome B) P : b = true → wp (f tt) P → wp (assert b ≫= f) P.
Proof. by intros ->. Qed.

Lemma wp_malloc {B} try n (f : Z → outcome B) P :
  (∀ u, n <= u < 2 ^ 64 → wp (f u) P) →
  wp ((if try : bool then ztrymalloc_usable malloc else zmalloc_usable malloc) n ≫= f) P.
Proof.
  intros H. destruct try; simpl.
  all: unfold ztrymalloc_usable, zmalloc_usable; destruct (malloc n) as [u|] eqn:E; simpl;
    [apply H; by apply malloc_size | done].
Qed.

(** ** The representation *)

(** [s] holds the string [c] and has room for [n] more bytes. *)
Definition room (s : sds) (c : list Z) (n : Z) : Prop :=
  ∃ ty alloc slack,
    is_type ty ∧ s = raw ty (zlen c) alloc (c ++ 0 :: slack) ∧
    zlen c + n <= alloc <= sdsTypeMaxSize ty ∧ alloc <= zlen c + zlen slack ∧
    (ty = 0 → alloc = zlen c).

Definition sds_ok (s : sds) (c : list Z) : Prop := room s c 0.

Lemma room_ok s c n : 0 <= n → room s c n → sds_ok s c.
Proof.
  intros ? (ty & alloc & slack & ? & ? & ? & ? & ?). exists ty, alloc, slack. intuition lia.
Qed.

Lemma sdslen_ok s c : sds_ok s c → sdslen s = Ret (zlen c).
Proof.
  intros (ty & alloc & slack & Ht & -> & Ha & _). apply sdslen_raw; auto.
  pose proof (zlen_nonneg c). lia.
Qed.

Lemma data_ok s c : sds_ok s c → ∃ slack, data s = c ++ 0 :: slack.
Proof.
  intros (ty & alloc & slack & Ht & -> & Ha & _). exists slack. apply data_raw; auto.
  pose proof (zlen_nonneg c). lia.
Qed.

Lemma zlen_split {A} (l : list A) n :
  0 <= n <= zlen l → ∃ a b, l = a ++ b ∧ zlen a = n ∧ zlen b = zlen l - n.
Proof.
  intros. exists (take (Z.to_nat n) l), (drop (Z.to_nat n) l).
  rewrite take_drop, zlen_take, zlen_drop. split_and!; [done|lia..].
Qed.

Lemma zlen_pos_cons {A} (l : list A) : 0 < zlen l → ∃ x r, l = x :: r ∧ zlen r = zlen l - 1.
Proof. destruct l as [|x r]; [by intros|]. intros _. exists x, r. rewrite zlen_cons. split; [done|lia]. Qed.

Lemma ok_intro ty alloc c slack :
  is_type ty → zlen c <= alloc <= sdsTypeMaxSize ty → alloc <= zlen c + zlen slack →
  (ty = 0 → alloc = zlen c) → sds_ok (raw ty (zlen c) alloc (c ++ 0 :: slack)) c.
Proof. intros. exists ty, alloc, slack. intuition lia. Qed.

(** Storing the terminator. *)
Lemma put_nul ty l alloc c x slack n :
  n = zlen c →
  put (raw ty l alloc (c ++ x :: slack)) n [0] = Ret (raw ty l alloc (c ++ 0 :: slack)).
Proof. intros ->. by apply (put_raw _ _ _ _ c [x] slack [0]). Qed.

(** A block seen as a header and a body. *)
Lemma block_hdr ty sh :
  is_type ty → sdsHdrSize ty <= zlen sh →
  ∃ L A f body, mkSds sh (sdsHdrSize ty) = hdr L A f body ∧
    zlen L = Z.of_nat (width ty) ∧ zlen A = Z.of_nat (width ty) ∧
    zlen body = zlen sh - sdsHdrSize ty ∧ body = drop (Z.to_nat (sdsHdrSize ty)) sh.
Proof.
  intros Ht Hl. rewrite HdrSize_width in * by done. set (w := Z.of_nat (width ty)) in *.
  assert (0 <= w) by lia.
  destruct (zlen_split sh w) as (L & r & -> & HL & Hr); [lia|].
  destruct (zlen_split r w) as (A & r' & -> & HA & Hr'); [rewrite zlen_app in *; lia|].
  rewrite !zlen_app in *.
  destruct (zlen_pos_cons r') as (f & body & -> & Hb); [lia|].
  exists L, A, f, body. unfold hdr. rewrite HL, HA.
  split_and!; [f_equal; lia|done|done|lia|].
  change (L ++ A ++ f :: body) with (L ++ A ++ ([f] ++ body)). rewrite !app_assoc.
  replace (2 * w + 1) with (zlen ((L ++ A) ++ [f])); [by rewrite drop_app_zlen|].
  rewrite !zlen_app. change (zlen [f]) with 1. lia.
Qed.

(** ** Creation *)

Definition alloc_of (ty u : Z) : Z :=
  let usable := uwrap 64 (u - sdsHdrSize ty - 1) in
  if sdsTypeMaxSize ty <? usable then sdsTypeMaxSize ty else usable.

Lemma alloc_of_bounds ty u n :
  is_type ty → 0 <= n <= sdsTypeMaxSize ty → sdsHdrSize ty + n + 1 <= u < 2 ^ 64 →
  n <= alloc_of ty u <= sdsTypeMaxSize ty ∧ alloc_of ty u <= u - sdsHdrSize ty - 1.
Proof.
  intros Ht Hn Hu. pose proof (HdrSize_pos ty Ht). unfold alloc_of. rewrite uwrap_id by lia.
  case_if; lia.
Qed.

Lemma ReqType_ok n :
  0 <= n < 2 ^ 64 → is_type (sdsReqType n) ∧ n <= sdsTypeMaxSize (sdsReqType n).
Proof.
  intros Hn. unfold sdsReqType.
  repeat case_if; (split; [by split|]);
    match goal with |- _ <= ?m => let v := eval vm_compute in m in change m with v end; lia.
Qed.

(** Writing the header of a fresh block. *)
Lemma init_header ty sh n u :
  is_type ty → 0 <= n <= sdsTypeMaxSize ty → sdsHdrSize ty <= zlen sh →
  ∃ alloc, (type_switch ty
     (put (mkSds sh (sdsHdrSize ty)) (-1) [uwrap 8 (Z.lor ty (Z.shiftl n SDS_TYPE_BITS))])
     (λ w, s ← set_hdr_len (mkSds sh (sdsHdrSize ty)) w n; s ← set_hdr_alloc s w u; put s (-1) [ty])
     (Ret (mkSds sh (sdsHdrSize ty))))
   = Ret (raw ty n alloc (drop (Z.to_nat (sdsHdrSize ty)) sh)) ∧
   alloc = if ty =? 0 then n else u.
Proof.
  intros Ht Hn Hs. destruct (block_hdr ty sh Ht Hs) as (L & A & f & body & -> & HL & HA & _ & <-).
  exists (if ty =? 0 then n else u). split; [|done].
  rewrite type_switch_type by done. unfold raw. case_if.
  - subst. rewrite (put_flags L A f body 0) by done.
    rewrite (zlen_0_nil L), (zlen_0_nil A) by done. do 2 f_equal.
    unfold SDS_TYPE_BITS. rewrite Z.lor_0_l, Z.shiftl_mul_pow2 by lia. apply uwrap_id. cbn in *. lia.
  - rewrite set_hdr_len_hdr by done. cbn [mbind outcome_bind].
    rewrite set_hdr_alloc_hdr by (by rewrite ?le_bytes_zlen). cbn [mbind outcome_bind].
    by rewrite (put_flags _ _ _ _ (width ty)) by (by rewrite ?le_bytes_zlen).
Qed.

(** What a new string of length [n] holds. *)
Definition initial (init : init_data) (n : Z) (c : list Z) : Prop :=
  match init with
  | INIT t => rd 0 n t = Some c
  | SDS_NOINIT => c = replicate (Z.to_nat n) junk
  | INIT_NULL => c = replicate (Z.to_nat n) 0
  end.

Lemma zlen_replicate' {A} n (x : A) : 0 <= n → zlen (replicate (Z.to_nat n) x) = n.
Proof. intros. rewrite zlen_replicate. lia. Qed.

Lemma initial_len init n c : 0 <= n → initial init n c → zlen c = n.
Proof.
  destruct init; simpl; intros ?; [intros ->..|intros Hr; by apply rd_len in Hr];
    by rewrite zlen_replicate'.
Qed.

Lemma replicate_split {A} (x : A) n m :
  0 <= n <= m → replicate (Z.to_nat m) x = replicate (Z.to_nat n) x ++ replicate (Z.to_nat (m - n)) x.
Proof. intros. rewrite <- replicate_add. f_equal. lia. Qed.

(** The block of [_sdsnewlen] before the copy of the contents. *)
Lemma fresh_block init ty n u c :
  is_type ty → 0 <= n → sdsHdrSize ty + n + 1 <= u → initial init n c →
  ∃ sh pre,
    (match init with
     | INIT_NULL => lift (wr 0 (replicate (Z.to_nat (sdsHdrSize ty + n + 1)) 0)
                             (replicate (Z.to_nat u) junk))
     | _ => Ret (replicate (Z.to_nat u) junk)
     end) = Ret sh ∧ zlen sh = u ∧
    (∃ x slack, drop (Z.to_nat (sdsHdrSize ty)) sh = pre ++ x :: slack ∧
       zlen slack = u - sdsHdrSize ty - n - 1) ∧
    zlen pre = n ∧ (match init with INIT _ => True | _ => pre = c end).
Proof.
  intros Ht Hn Hu Hi. pose proof (HdrSize_pos ty Ht). set (h := sdsHdrSize ty) in *.
  assert (Hsplit : ∀ (y : Z) (r : list Z), drop (Z.to_nat h) (replicate (Z.to_nat (h + n + 1)) y ++ r)
     = replicate (Z.to_nat n) y ++ y :: r).
  { intros y r. rewrite (replicate_split y h), <- app_assoc by lia.
    rewrite <- (zlen_replicate' h y) at 1 by lia. rewrite drop_app_zlen.
    rewrite (replicate_split y n), <- app_assoc by lia.
    replace (h + n + 1 - h - n) with 1 by lia. done. }
  destruct init as [| |t]; simpl in Hi.
  - exists (replicate (Z.to_nat (h + n + 1)) 0 ++ replicate (Z.to_nat (u - (h + n + 1))) junk), c.
    subst c. rewrite (replicate_split junk (h + n + 1) u) by lia.
    rewrite wr_head by (rewrite !zlen_replicate'; lia).
    split_and!; [done|rewrite zlen_app, !zlen_replicate'; lia| |by apply zlen_replicate'|done].
    do 2 eexists. split; [apply Hsplit|]. rewrite zlen_replicate'; lia.
  - exists (replicate (Z.to_nat u) junk), c. subst c.
    split_and!; [done|by rewrite zlen_replicate' by lia| |by apply zlen_replicate'|done].
    rewrite (replicate_split junk (h + n + 1) u) by lia.
    do 2 eexists. split; [apply Hsplit|]. rewrite zlen_replicate'; lia.
  - exists (replicate (Z.to_nat u) junk), (replicate (Z.to_nat n) junk).
    split_and!; [done|by rewrite zlen_replicate' by lia| |by apply zlen_replicate'|done].
    rewrite (replicate_split junk (h + n + 1) u) by lia.
    do 2 eexists. split; [apply Hsplit|]. rewrite zlen_replicate'; lia.
Qed.

Lemma _sdsnewlen_spec init n try c :
  0 <= n < 2 ^ 63 → initial init n c → wp (_sdsnewlen malloc junk init n try) (λ s, sds_ok s c).
Proof.
  intros Hn Hi. unfold _sdsnewlen.
  destruct (ReqType_ok n) as [Ht0 Hmax0]; [lia|].
  set (ty := if (sdsReqType n =? SDS_TYPE_5) && (n =? 0) then SDS_TYPE_8 else sdsReqType n).
  assert (is_type ty ∧ n <= sdsTypeMaxSize ty) as [Ht Hmax].
  { subst ty. case_if; [|done]. split; [done|]. vm_compute sdsTypeMaxSize. lia. }
  pose proof (HdrSize_pos ty Ht) as Hh. pose proof (MaxSize_pos ty Ht).
  apply wp_assert; [rewrite uwrap_id by lia; lia|].
  clearbody ty. rewrite (uwrap_id 64 (sdsHdrSize ty + n + 1)) by lia. apply wp_malloc. intros u Hu.
  destruct (fresh_block init ty n u c) as (sh & pre & -> & Hsh & (x & slack & Hd & Hsl) & Hp & Hpre); auto; [lia..|].
  cbn [mbind outcome_bind]. fold (alloc_of ty u).
  destruct (init_header ty sh n (alloc_of ty u)) as (alloc & -> & Hal); auto; [lia..|].
  cbn [mbind outcome_bind]. rewrite Hd.
  destruct (alloc_of_bounds ty u n) as [??]; auto; [lia..|].
  assert (zlen c = n) as Hc by (apply (initial_len init); [lia|done]).
  apply wp_bind. apply wp_ret with (raw ty n alloc (c ++ x :: slack)).
  - destruct init as [| |t]; [by subst pre..|]. case_if; simpl in Hi.
    + rewrite Hi. cbn [lift mbind outcome_bind].
      rewrite (put_raw _ _ _ _ [] pre (x :: slack) c) by (done || lia). done.
    + rewrite (zlen_0_nil pre), (zlen_0_nil c) by lia. done.
  - rewrite put_nul by lia. simpl. rewrite <- Hc. apply ok_intro; auto; rewrite ?Hc; case_if; lia.
Qed.

(** ** Reallocation *)

Definition size_ok (n : Z) : Prop := 0 <= n < 2 ^ 62.

(** The facts about a represented string that every proof starts from. *)
Lemma room_inv s c n :
  0 <= n → room s c n →
  ∃ ty alloc slack,
    s = raw ty (zlen c) alloc (c ++ 0 :: slack) ∧ is_type ty ∧
    0 <= zlen c <= sdsTypeMaxSize ty ∧ zlen c + n <= alloc <= sdsTypeMaxSize ty ∧
    alloc <= zlen c + zlen slack ∧ (ty = 0 → alloc = zlen c) ∧ 1 <= sdsHdrSize ty <= 17 ∧
    sdsTypeMaxSize ty < 2 ^ 64.
Proof.
  intros Hn (ty & alloc & slack & Ht & -> & Ha & Hs & H5). exists ty, alloc, slack.
  pose proof (zlen_nonneg c). pose proof (HdrSize_pos ty Ht). pose proof (MaxSize_pos ty Ht).
  intuition lia.
Qed.

(** Moving the string to a fresh block with another header. *)
Lemma copy_block ty sh t :
  is_type ty → sdsHdrSize ty + zlen t <= zlen sh →
  ∃ L A f rest,
    put (mkSds sh (sdsHdrSize ty)) 0 t = Ret (hdr L A f (t ++ rest)) ∧
    zlen L = Z.of_nat (width ty) ∧ zlen A = Z.of_nat (width ty) ∧
    zlen rest = zlen sh - sdsHdrSize ty - zlen t.
Proof.
  intros Ht Hl. pose proof (zlen_nonneg t).
  destruct (block_hdr ty sh Ht) as (L & A & f & body & -> & HL & HA & Hb & _); [lia|].
  destruct (zlen_split body (zlen t)) as (a & b & -> & Ha & Hb'); [lia|].
  exists L, A, f, b. split_and!; auto; [|rewrite zlen_app in Hb; lia].
  by apply (put_hdr _ _ _ _ 0 [] a b t).
Qed.

Section Headers.
Context (L A : list Z) (ty : Z) (body : list Z).
Hypothesis (Ht : is_type ty) (H0 : ty ≠ 0).
Hypothesis (HL : zlen L = Z.of_nat (width ty)) (HA : zlen A = Z.of_nat (width ty)).

Lemma sdssetlen_hdr n :
  sdssetlen (hdr L A ty body) n = Ret (hdr (le_bytes (width ty) n) A ty body).
Proof.
  unfold sdssetlen. rewrite (get_flags _ _ _ _ (width ty)) by done. cbn [mbind outcome_bind].
  rewrite type_switch_type by done. case_if; [done|]. by apply set_hdr_len_hdr.
Qed.

Lemma sdssetalloc_hdr n :
  sdssetalloc (hdr L A ty body) n = Ret (hdr L (le_bytes (width ty) n) ty body).
Proof.
  unfold sdssetalloc. rewrite (get_flags _ _ _ _ (width ty)) by done. cbn [mbind outcome_bind].
  rewrite type_switch_type by done. case_if; [done|]. by apply set_hdr_alloc_hdr.
Qed.

Lemma raw_nz n a : hdr (le_bytes (width ty) n) (le_bytes (width ty) a) ty body = raw ty n a body.
Proof. unfold raw. by case_if. Qed.
End Headers.

(** [realloc] keeps what fits of the block. *)
Lemma realloc_raw ty l alloc p s u :
  is_type ty → 0 <= l <= sdsTypeMaxSize ty → sdsHdrSize ty + zlen p <= u →
  ∃ s', mkSds (zrealloc junk u (block (raw ty l alloc (p ++ s)))) (sdsHdrSize ty)
    = raw ty l alloc (p ++ s') ∧ zlen s' = u - sdsHdrSize ty - zlen p.
Proof.
  intros Ht Hl Hu.
  assert (∃ h, (∀ b, block (raw ty l alloc b) = h ++ b ∧ ptr (raw ty l alloc b) = zlen h)
    ∧ zlen h = sdsHdrSize ty) as (h & Hh & Hz).
  { exists (block (raw ty l alloc [])). rewrite raw_block_zlen by done. split; [|by rewrite zlen_nil; lia].
    intros b. rewrite (raw_ptr ty l alloc b), zlen_nil by done. split; [|lia]. unfold raw. case_if; simpl; by rewrite <- ?app_assoc. }
  destruct (Hh (p ++ s)) as [-> _]. rewrite app_assoc.
  destruct (zrealloc_prefix junk u (h ++ p) s) as (s' & -> & Hs'); [rewrite zlen_app; lia|].
  exists s'. rewrite zlen_app in Hs'. split; [|lia].
  destruct (Hh (p ++ s')) as [E1 E2]. rewrite <- app_assoc, <- E1, <- Hz, <- E2.
  by destruct (raw ty l alloc (p ++ s')).
Qed.

Lemma mkroom ty alloc c t slack n :
  is_type ty → ty ≠ 0 → zlen c + n <= alloc <= sdsTypeMaxSize ty → alloc <= zlen c + zlen slack →
  t = c ++ [0] → room (raw ty (zlen c) alloc (t ++ slack)) c n.
Proof.
  intros ????->. exists ty, alloc, slack. rewrite <- app_assoc. intuition lia.
Qed.

(** Reading the string with its terminator, for the copy. *)
Lemma rd_terminated c slack : rd 0 (zlen c + 1) (c ++ 0 :: slack) = Some (c ++ [0]).
Proof.
  change (c ++ 0 :: slack) with (c ++ [0] ++ slack). rewrite app_assoc.
  apply rd_head. by rewrite zlen_app.
Qed.

(** The new size chosen by [_sdsMakeRoomFor] and its header type. *)
Definition grown (req : Z) (greedy : bool) : Z :=
  if greedy then
    if req <? SDS_MAX_PREALLOC then req * 2 else uwrap 64 (req + SDS_MAX_PREALLOC)
  else req.

Lemma grown_type req greedy :
  0 < req < 2 ^ 63 →
  let newlen := grown req greedy in
  let ty := if sdsReqType newlen =? SDS_TYPE_5 then SDS_TYPE_8 else sdsReqType newlen in
  is_type ty ∧ ty ≠ 0 ∧ req <= newlen < 2 ^ 63 + 2 ^ 20 ∧ newlen <= sdsTypeMaxSize ty.
Proof.
  intros Hr newlen ty.
  assert (req <= newlen < 2 ^ 63 + 2 ^ 20) as Hn.
  { subst newlen. unfold grown, SDS_MAX_PREALLOC. destruct greedy; [|lia]. case_if; [lia|].
    rewrite uwrap_id; lia. }
  destruct (ReqType_ok newlen) as [Ht Hm]; [lia|].
  subst ty. case_if; [|by split_and!; try done; lia].
  rewrite Heqb in Hm. split_and!; try done; try lia. change (sdsTypeMaxSize SDS_TYPE_8) with 255.
  change (sdsTypeMaxSize SDS_TYPE_5) with 31 in Hm. lia.
Qed.

(** Growing keeps the contents; when the free space [a] is too small, the new
    allocation has the size chosen by [grown]. *)
Lemma _sdsMakeRoomFor_grow s c n greedy a :
  sds_ok s c → size_ok n → size_ok (zlen c) → sdsavail s = Ret a →
  wp (_sdsMakeRoomFor malloc junk s n greedy)
     (λ s', room s' c (if n <=? a then n else grown (zlen c + n) greedy - zlen c)).
Proof.
  intros Hs Hn Hc Hav. unfold size_ok in *.
  destruct (room_inv s c 0) as (ty & alloc & slack & -> & Ht & Hl & Ha & Hsl & H5 & Hh & Hmax); [done..|].
  unfold _sdsMakeRoomFor. rewrite sdsavail_raw in Hav |- * by (done || lia).
  injection Hav as <-. cbn [mbind outcome_bind]. rewrite raw_flags by done. cbn [mbind outcome_bind]. rewrite land_flags by (done || lia).
  case_if.
  { exists ty, alloc, slack. split_and!; auto; repeat case_if; lia. }
  rewrite sdslen_raw by done. cbn [mbind outcome_bind].
  rewrite (uwrap_id 64 (zlen c + n)) by lia.
  assert (0 < n) by (case_if; lia).
  destruct (grown_type (zlen c + n) greedy) as (Ht' & H0' & Hnew & Hm); [lia|].
  revert Ht' H0' Hnew Hm. cbv zeta.
  fold (grown (zlen c + n) greedy). set (newlen := grown (zlen c + n) greedy). clearbody newlen.
  set (ty' := if _ =? SDS_TYPE_5 then _ else _). clearbody ty'. intros Ht' H0' Hnew Hm.
  pose proof (HdrSize_pos ty' Ht').
  apply wp_assert; [lia|]. rewrite (uwrap_id 64 (sdsHdrSize ty' + newlen + 1)) by lia.
  apply wp_assert; [lia|]. apply wp_bind.
  apply wp_mono with (λ su, ∃ l a rest,
    su.1 = hdr l a ty' ((c ++ [0]) ++ rest) ∧
    l = le_bytes (width ty') (zlen c) ∧ zlen a = Z.of_nat (width ty') ∧
    sdsHdrSize ty' + newlen + 1 <= su.2 < 2 ^ 64 ∧
    zlen rest = su.2 - sdsHdrSize ty' - zlen c - 1).
  - assert (Hz : zlen (c ++ [0]) = zlen c + 1) by (by rewrite zlen_app).
    case_if.
    + subst ty'. apply (wp_malloc false). intros u Hu.
      change (c ++ 0 :: slack) with (c ++ [0] ++ slack). rewrite app_assoc.
      destruct (realloc_raw ty (zlen c) alloc (c ++ [0]) slack u) as (s' & -> & Hs'); auto; [lia|].
      simpl. do 3 eexists. rewrite <- raw_nz by done.
      split_and!; try done; [by rewrite le_bytes_zlen|lia..].
    + apply (wp_malloc false). intros u Hu.
      rewrite load_raw, rd_terminated by (done || lia). cbn [lift mbind outcome_bind].
      destruct (copy_block ty' (replicate (Z.to_nat u) junk) (c ++ [0]))
        as (L & A & f & rest & -> & HL & HA & Hr); auto; [rewrite zlen_replicate'; lia|].
      rewrite zlen_replicate' in Hr by lia. cbn [mbind outcome_bind].
      rewrite (put_flags _ _ _ _ (width ty')) by done. cbn [mbind outcome_bind].
      rewrite sdssetlen_hdr by done. simpl. do 3 eexists. split_and!; try done; lia.
  - intros [s' u] (l & a & rest & E & -> & Hal & Hu & Hr). simpl in E, Hu, Hr |- *. subst s'.
    rewrite sdssetalloc_hdr by (done || by rewrite le_bytes_zlen). simpl.
    rewrite raw_nz by done. fold (alloc_of ty' u).
    destruct (alloc_of_bounds ty' u newlen) as [??]; auto; [lia..|].
    apply mkroom; auto; lia.
Qed.

Lemma room_mono s c n m : n <= m → room s c m → room s c n.
Proof. intros ? (ty & alloc & slack & ? & ? & ? & ? & ?). exists ty, alloc, slack. intuition lia. Qed.

Lemma room_avail s c n :
  0 <= n → room s c n → ∃ a, sdsavail s = Ret a ∧ n <= a.
Proof.
  intros Hn Hs.
  destruct (room_inv s c n) as (ty & alloc & slack & -> & Ht & Hl & Ha & Hsl & H5 & Hh & Hmax); [done..|].
  eexists. split; [apply sdsavail_raw; auto; lia|]. case_if; lia.
Qed.

(** Growing adds room and keeps the contents. *)
Lemma _sdsMakeRoomFor_spec s c n greedy :
  sds_ok s c → size_ok n → size_ok (zlen c) →
  wp (_sdsMakeRoomFor malloc junk s n greedy) (λ s', room s' c n).
Proof.
  intros Hs Hn Hc. destruct (room_avail s c 0) as (a & Ha & Ha0); [done..|].
  eapply wp_mono; [by apply _sdsMakeRoomFor_grow|]. intros s'. simpl. apply room_mono.
  unfold size_ok in *. case_if; [lia|].
  destruct (grown_type (zlen c + n) greedy) as (_ & _ & Hg & _); lia.
Qed.

Lemma MaxSize_mono a b :
  is_type a → is_type b → a <= b → sdsTypeMaxSize a <= sdsTypeMaxSize b.
Proof.
  intros Ha Hb Hab. each_type a Ha; each_type b Hb; try (exfalso; lia); vm_compute; discriminate.
Qed.

(** The last three steps of [sdsResize], on either kind of block. *)
Lemma finish_raw ty l a p x r size :
  is_type ty → 0 <= l <= sdsTypeMaxSize ty → zlen p <= sdsTypeMaxSize ty →
  (s ← put (raw ty l a (p ++ x :: r)) (zlen p) [0]; s ← sdssetlen s (zlen p); sdssetalloc s size)
  = Ret (raw ty (zlen p) size (p ++ 0 :: r)).
Proof.
  intros Ht Hl Hp. pose proof (zlen_nonneg p). rewrite put_nul by done. cbn [mbind outcome_bind].
  rewrite sdssetlen_raw by done. cbn [mbind outcome_bind]. by rewrite sdssetalloc_raw by done.
Qed.

Lemma finish_hdr L A ty p x r size :
  is_type ty → zlen p <= sdsTypeMaxSize ty →
  zlen L = Z.of_nat (width ty) → zlen A = Z.of_nat (width ty) →
  (s ← put (hdr L A ty (p ++ x :: r)) (zlen p) [0]; s ← sdssetlen s (zlen p); sdssetalloc s size)
  = Ret (raw ty (zlen p) size (p ++ 0 :: r)).
Proof.
  intros Ht Hp HL HA. destruct (decide (ty = 0)) as [->|H0].
  - rewrite (zlen_0_nil L), (zlen_0_nil A) by done.
    apply (finish_raw 0 0 0 p x r size); auto.
  - rewrite (put_hdr _ _ _ _ (width ty) p [x] r [0]) by done. cbn [mbind outcome_bind].
    rewrite sdssetlen_hdr by done. cbn [mbind outcome_bind].
    rewrite sdssetalloc_hdr by (done || by rewrite le_bytes_zlen). by rewrite raw_nz.
Qed.

Lemma raw_ok ty p size r :
  is_type ty → zlen p <= size <= sdsTypeMaxSize ty → size <= zlen p + zlen r →
  sds_ok (raw ty (zlen p) size (p ++ 0 :: r)) p.
Proof.
  intros Ht Hp Hs. destruct (decide (ty = 0)) as [->|].
  - change (raw 0 (zlen p) size (p ++ 0 :: r)) with (raw 0 (zlen p) (zlen p) (p ++ 0 :: r)).
    pose proof (zlen_nonneg r). apply ok_intro; auto; lia.
  - apply ok_intro; auto; lia.
Qed.

(** Cutting a string: its first bytes, one more byte, the rest. *)
Lemma cut_body (c : list Z) slack n :
  0 <= n <= zlen c →
  ∃ x r, c ++ 0 :: slack = (take (Z.to_nat n) c ++ [x]) ++ r.
Proof.
  intros Hn. destruct (zlen_pos_cons (drop (Z.to_nat n) c ++ 0 :: slack)) as (x & r & E & _).
  { pose proof (zlen_nonneg (drop (Z.to_nat n) c)). pose proof (zlen_nonneg slack).
    rewrite zlen_app, zlen_cons. lia. }
  exists x, r. rewrite <- app_assoc. simpl. by rewrite <- E, app_assoc, take_drop.
Qed.

Lemma rd_prefix (p r : list Z) n : n = zlen p → rd 0 n (p ++ r) = Some p.
Proof. apply rd_head. Qed.

(** The type [sdsResize] picks can hold the size. *)
Lemma shrunk_type size (regrow : bool) :
  0 <= size < 2 ^ 63 →
  let ty := if regrow && (sdsReqType size =? SDS_TYPE_5) then SDS_TYPE_8 else sdsReqType size in
  is_type ty ∧ size <= sdsTypeMaxSize ty.
Proof.
  intros Hs ty. destruct (ReqType_ok size) as [Ht Hm]; [lia|]. subst ty. case_if; [|done].
  split; [done|]. destruct Heqb as [_ E]. zb. rewrite E in Hm.
  change (sdsTypeMaxSize SDS_TYPE_8) with 255.
  change (sdsTypeMaxSize SDS_TYPE_5) with 31 in Hm. lia.
Qed.

(** Resizing the allocation truncates the string when it no longer fits. *)
Lemma sdsResize_spec s c size regrow :
  sds_ok s c → size_ok size → size_ok (zlen c) →
  wp (sdsResize malloc junk s size regrow) (λ s', sds_ok s' (take (Z.to_nat size) c)).
Proof.
  intros Hs Hn Hc. unfold size_ok in *.
  destruct (room_inv s c 0) as (ty & alloc & slack & -> & Ht & Hl & Ha & Hsl & H5 & Hh & Hmax); [done..|].
  unfold sdsResize. rewrite raw_flags by done. cbn [mbind outcome_bind].
  rewrite land_flags by (done || lia). rewrite sdslen_raw by done. cbn [mbind outcome_bind].
  rewrite sdsalloc_raw by (done || lia). cbn [mbind outcome_bind].
  case_if.
  { rewrite take_ge; [done|]. revert Heqb. unfold zlen in *. case_if; lia. }
  destruct (shrunk_type size regrow) as [Ht' Hm']; [lia|]. revert Ht' Hm'. cbv zeta.
  set (ty' := if _ && _ then _ else _). clearbody ty'. intros Ht' Hm'.
  pose proof (HdrSize_pos ty' Ht').
  set (n := if size <? zlen c then size else zlen c).
  assert (0 <= n <= zlen c ∧ n <= size ∧ take (Z.to_nat size) c = take (Z.to_nat n) c) as (Hnc & Hns & ->).
  { subst n. case_if; [auto with lia|]. split_and!; try lia.
    rewrite !take_ge; [done|unfold zlen in *; lia..]. }
  clearbody n. destruct (cut_body c slack n) as (x & r & Hb); [done|].
  set (p := take (Z.to_nat n) c) in *.
  assert (zlen p = n) as Hp by (subst p; rewrite zlen_take; lia). clearbody p.
  destruct ((ty =? ty') || ((ty' <? ty) && (SDS_TYPE_8 <? ty'))) eqn:Hre.
  - assert (size <= sdsTypeMaxSize ty).
    { assert (ty' <= ty) as Hle by (apply orb_true_iff in Hre as [E|[E _]%andb_true_iff]; zb; lia).
      pose proof (MaxSize_mono ty' ty Ht' Ht Hle). lia. }
    rewrite uwrap_id by lia. apply wp_bind.
    apply wp_mono with (λ s, ∃ r' : list Z,
      s = raw ty (zlen c) alloc (p ++ x :: r') ∧ size <= zlen p + zlen r').
    + case_bool_decide as Hopt.
      * apply malloc_size in Hopt. rewrite raw_block_zlen, Hb, !zlen_app in Hopt by done.
        change (zlen [x]) with 1 in Hopt. simpl. exists r. rewrite Hb, <- app_assoc. split; [done|lia].
      * apply (wp_malloc false). intros u Hu. rewrite Hb.
        destruct (realloc_raw ty (zlen c) alloc (p ++ [x]) r u) as (s' & -> & Hs'); auto.
        { rewrite zlen_app. change (zlen [x]) with 1. lia. }
        rewrite zlen_app in Hs'. change (zlen [x]) with 1 in Hs'.
        simpl. exists s'. rewrite <- app_assoc. split; [done|lia].
    + intros s' (r' & -> & Hr'). rewrite <- Hp, finish_raw by (done || lia). simpl.
      apply raw_ok; auto; lia.
  - rewrite uwrap_id by lia. apply wp_bind.
    apply wp_mono with (λ s, ∃ L A y (r' : list Z),
      s = hdr L A ty' (p ++ y :: r') ∧ zlen L = Z.of_nat (width ty') ∧
      zlen A = Z.of_nat (width ty') ∧ size <= zlen p + zlen r').
    + apply (wp_malloc false). intros u Hu.
      rewrite load_raw, Hb, <- app_assoc, (rd_prefix p) by (done || lia). cbn [lift mbind outcome_bind].
      destruct (copy_block ty' (replicate (Z.to_nat u) junk) p)
        as (L & A & f & rest & -> & HL & HA & Hr); auto; [rewrite zlen_replicate'; lia|].
      rewrite zlen_replicate' in Hr by lia. cbn [mbind outcome_bind].
      rewrite (put_flags _ _ _ _ (width ty')) by done. simpl.
      destruct (zlen_pos_cons rest) as (y & r' & -> & Hr'); [lia|].
      (* the terminator replaces the byte [y] of the fresh block *)
      exists L, A, y, r'. split_and!; auto; lia.
    + intros s' (L & A & y & r' & -> & HL & HA & Hr').
      rewrite <- Hp, finish_hdr by (done || lia). simpl. apply raw_ok; auto; lia.
Qed.

(** ** Operations on the contents *)

(** Terminating the string [p] at the front of the body. *)
Lemma finish ty l alloc p x r :
  is_type ty → 0 <= l <= sdsTypeMaxSize ty →
  zlen p <= alloc <= sdsTypeMaxSize ty → alloc <= zlen p + zlen r →
  sds_ok (raw ty (zlen p) alloc (p ++ 0 :: r)) p ∧
  (s ← put (raw ty l alloc (p ++ x :: r)) (zlen p) [0]; sdssetlen s (zlen p))
    = Ret (raw ty (zlen p) alloc (p ++ 0 :: r)) ∧
  (s ← sdssetlen (raw ty l alloc (p ++ x :: r)) (zlen p); put s (zlen p) [0])
    = Ret (raw ty (zlen p) alloc (p ++ 0 :: r)).
Proof.
  intros Ht Hl Ha Hr. pose proof (zlen_nonneg p). split; [by apply raw_ok|]. split.
  - rewrite put_nul by done. cbn [mbind outcome_bind]. apply sdssetlen_raw; auto; lia.
  - rewrite sdssetlen_raw by (done || lia). cbn [mbind outcome_bind]. by apply put_nul.
Qed.

(** The body of a string, cut after its first [n] bytes. *)
Lemma body_split (b : list Z) n :
  0 <= n < zlen b → ∃ a x r, b = a ++ x :: r ∧ zlen a = n ∧ zlen r = zlen b - n - 1.
Proof.
  intros Hn. destruct (zlen_split b n) as (a & r & -> & Ha & Hr); [lia|].
  rewrite zlen_app in *. destruct (zlen_pos_cons r) as (x & r' & -> & Hr'); [lia|].
  exists a, x, r'. rewrite zlen_cons in *. split_and!; [done..|lia].
Qed.

Lemma sdsclear_spec s c : sds_ok s c → ∃ s', sdsclear s = Ret s' ∧ sds_ok s' [].
Proof.
  intros Hs.
  destruct (room_inv s c 0) as (ty & alloc & slack & -> & Ht & Hl & Ha & Hsl & H5 & Hh & Hmax); [done..|].
  destruct (body_split (c ++ 0 :: slack) 0) as (a & x & r & E & Hz & Hr).
  { rewrite zlen_app, zlen_cons. pose proof (zlen_nonneg slack). lia. }
  rewrite zlen_app, zlen_cons in Hr. apply zlen_0_nil in Hz as ->. rewrite E.
  destruct (finish ty (zlen c) alloc [] x r) as (Hok & _ & E'); rewrite ?zlen_nil; auto; [lia..|].
  eexists. split; [apply E'|done].
Qed.

(** Appending into the free space. *)
Lemma store_end s c d :
  room s c (zlen d) →
  ∃ s', sds_ok s' (c ++ d) ∧
    (s ← put s (zlen c) d; s ← sdssetlen s (zlen c + zlen d); put s (zlen c + zlen d) [0]) = Ret s'.
Proof.
  intros Hs. pose proof (zlen_nonneg d).
  destruct (room_inv s c (zlen d)) as (ty & alloc & slack & -> & Ht & Hl & Ha & Hsl & H5 & Hh & Hmax); [done..|].
  destruct (body_split (0 :: slack) (zlen d)) as (a & x & r & E & Hz & Hr); [rewrite zlen_cons; lia|].
  rewrite zlen_cons in Hr. rewrite E, (put_raw _ _ _ _ c a (x :: r) d) by done. cbn [mbind outcome_bind].
  rewrite app_assoc.
  destruct (finish ty (zlen c) alloc (c ++ d) x r) as (Hok & _ & E'); rewrite ?zlen_app; auto; [lia..|].
  rewrite <- zlen_app. eexists. split; [exact Hok|exact E'].
Qed.

Lemma sdscatlen_spec s c t d n :
  sds_ok s c → rd 0 n t = Some d → size_ok n → size_ok (zlen c) →
  wp (sdscatlen malloc junk s t n) (λ s', sds_ok s' (c ++ d)).
Proof.
  intros Hs Hd Hn Hc. unfold sdscatlen. rewrite (sdslen_ok s c) by done. cbn [mbind outcome_bind].
  apply wp_bind. eapply wp_mono; [by apply _sdsMakeRoomFor_spec|]. intros s1 H1. simpl in H1.
  rewrite Hd. cbn [lift mbind outcome_bind]. apply rd_len in Hd as <-.
  destruct (store_end s1 c d H1) as (s2 & Hok & E). by eapply wp_ret.
Qed.

Lemma sdscpylen_spec s c t d n :
  sds_ok s c → rd 0 n t = Some d → size_ok n → size_ok (zlen c) →
  wp (sdscpylen malloc junk s t n) (λ s', sds_ok s' d).
Proof.
  intros Hs Hd Hn Hc. unfold sdscpylen, size_ok in *.
  destruct (room_inv s c 0) as (ty & alloc & slack & -> & Ht & Hl & Ha & Hsl & H5 & Hh & Hmax); [done..|].
  rewrite sdsalloc_raw by (done || lia). cbn [mbind outcome_bind].
  apply wp_bind. apply wp_mono with (λ s1, ∃ ty alloc slack,
    s1 = raw ty (zlen c) alloc (c ++ 0 :: slack) ∧ is_type ty ∧
    0 <= zlen c <= sdsTypeMaxSize ty ∧ n <= alloc <= sdsTypeMaxSize ty ∧
    alloc <= zlen c + zlen slack).
  - case_if.
    + rewrite sdslen_raw by done. cbn [mbind outcome_bind].
      assert (zlen c < n) by (revert Heqb; case_if; lia).
      rewrite uwrap_id by lia. eapply wp_mono; [apply _sdsMakeRoomFor_spec; unfold size_ok; eauto; lia|].
      intros s1 H1. destruct (room_inv s1 c (n - zlen c)) as (ty1 & a1 & sl1 & ?); [lia|done|].
      exists ty1, a1, sl1. intuition lia.
    + simpl. exists ty, alloc, slack. revert Heqb. case_if; intuition lia.
  - intros s1 (ty1 & a1 & sl1 & -> & Ht1 & Hl1 & Ha1 & Hs1).
    rewrite Hd. cbn [lift mbind outcome_bind]. apply rd_len in Hd.
    destruct (body_split (c ++ 0 :: sl1) n) as (a & x & r & E & Hz & Hr).
    { rewrite zlen_app, zlen_cons. lia. }
    rewrite zlen_app, zlen_cons in Hr.
    rewrite E, (put_raw _ _ _ _ [] a (x :: r) d) by (done || lia). cbn [mbind outcome_bind app].
    subst n. destruct (finish ty1 (zlen c) a1 d x r) as (Hok & E' & _); auto; [lia..|].
    by eapply wp_ret.
Qed.

Lemma sdsgrowzero_spec s c n :
  sds_ok s c → size_ok n → size_ok (zlen c) →
  wp (sdsgrowzero malloc junk s n)
     (λ s', sds_ok s' (c ++ replicate (Z.to_nat (n - zlen c)) 0)).
Proof.
  intros Hs Hn Hc. unfold sdsgrowzero, size_ok in *. rewrite (sdslen_ok s c) by done.
  cbn [mbind outcome_bind]. case_if.
  { rewrite Z2Nat.nonpos by lia. by rewrite app_nil_r. }
  apply wp_bind. eapply wp_mono; [apply _sdsMakeRoomFor_spec; unfold size_ok; eauto; lia|].
  intros s1 H1. simpl in H1.
  destruct (room_inv s1 c (n - zlen c)) as (ty & alloc & slack & -> & Ht & Hl & Ha & Hsl & H5 & Hh & Hmax); [lia|done|].
  set (d := replicate (Z.to_nat (n - zlen c)) 0).
  assert (zlen d = n - zlen c) as Hd by (subst d; rewrite zlen_replicate'; lia).
  destruct (body_split (0 :: slack) (zlen d)) as (a & x & r & E & Hz & Hr); [rewrite zlen_cons; lia|].
  rewrite zlen_cons in Hr.
  assert (replicate (Z.to_nat (n - zlen c + 1)) 0 = d ++ [0]) as Hrep.
  { rewrite (replicate_split 0 (n - zlen c)) by lia. unfold d.
    by replace (n - zlen c + 1 - (n - zlen c)) with 1 by lia. }
  rewrite Hrep, E. change (a ++ x :: r) with (a ++ [x] ++ r). rewrite (app_assoc a).
  rewrite (put_raw _ _ _ _ c (a ++ [x]) r (d ++ [0])) by (done || by rewrite !zlen_app, Hz).
  cbn [mbind outcome_bind]. rewrite <- (app_assoc d). simpl. rewrite (app_assoc c).
  replace n with (zlen (c ++ d)) by (rewrite zlen_app; lia).
  destruct (finish ty (zlen c) alloc (c ++ d) 0 r) as (Hok & E' & _); rewrite ?zlen_app; auto; [lia..|].
  rewrite put_nul in E' by (by rewrite zlen_app). cbn [mbind outcome_bind] in E'.
  rewrite <- zlen_app. by eapply wp_ret.
Qed.

(** ** Substrings *)

(** What [sdssubstr] leaves. *)
Definition substr (c : list Z) (start n : Z) : list Z :=
  if zlen c <=? start then [] else take (Z.to_nat n) (drop (Z.to_nat start) c).

Lemma sub_app_l (c r : list Z) i n :
  0 <= i → 0 <= n → i + n <= zlen c → rd i n (c ++ r) = Some (sub i n c).
Proof.
  intros. rewrite <- (rd_in i n c) by lia. by apply (rd_inside [] c r i n).
Qed.

(** Moving [t], of [n] bytes, to the front of the body and closing it. *)
Lemma move_front ty alloc c slack t n :
  is_type ty → 0 <= zlen c <= sdsTypeMaxSize ty → zlen c <= alloc <= sdsTypeMaxSize ty →
  alloc <= zlen c + zlen slack → n = zlen t → n <= zlen c →
  ∃ s', sds_ok s' t ∧
    (s ← put (raw ty (zlen c) alloc (c ++ 0 :: slack)) 0 t;
     s ← put s n [0]; sdssetlen s n) = Ret s'.
Proof.
  intros Ht Hl Ha Hs -> Htc. pose proof (zlen_nonneg t). pose proof (zlen_nonneg slack).
  destruct (body_split (c ++ 0 :: slack) (zlen t)) as (a & x & r & E & Hz & Hr).
  { rewrite zlen_app, zlen_cons. lia. }
  rewrite zlen_app, zlen_cons in Hr.
  rewrite E, (put_raw _ _ _ _ [] a (x :: r) t) by (done || lia). cbn [mbind outcome_bind app].
  destruct (finish ty (zlen c) alloc t x r) as (Hok & E' & _); auto; [lia..|]. eauto.
Qed.

Lemma sdssubstr_spec s c start n :
  sds_ok s c → 0 <= start → 0 <= n →
  ∃ s', sdssubstr s start n = Ret s' ∧ sds_ok s' (substr c start n).
Proof.
  intros Hs Hst Hn.
  destruct (room_inv s c 0) as (ty & alloc & slack & -> & Ht & Hl & Ha & Hsl & H5 & Hh & Hmax); [done..|].
  unfold sdssubstr. rewrite sdslen_raw by done. cbn [mbind outcome_bind]. unfold substr.
  destruct (zlen c <=? start) eqn:E; zb.
  - change (_ <? 0) with (zlen c - 0 <? 0). case_if; [lia|]. simpl.
    destruct (move_front ty alloc c slack [] 0) as (s' & Hok & E'); auto; [lia..|].
    exists s'. split; [|done]. rewrite <- E'. rewrite (put_raw _ _ _ _ [] [] (c ++ 0 :: slack) []) by done.
    done.
  - set (k := if zlen c - start <? n then zlen c - start else n).
    assert (0 <= k <= zlen c - start ∧ take (Z.to_nat n) (drop (Z.to_nat start) c) = sub start k c) as [Hk ->].
    { subst k. unfold sub. case_if; [|done]. split; [lia|].
      rewrite !take_ge; [done|rewrite length_drop; unfold zlen in *; lia..]. }
    clearbody k.
    destruct (move_front ty alloc c slack (sub start k c) k) as (s' & Hok & E'); auto; try lia.
    { rewrite zlen_sub; lia. }
    exists s'. split; [|done]. case_if.
    + rewrite load_raw, sub_app_l by (done || lia). cbn [lift mbind outcome_bind].
      rewrite <- E'. done.
    + rewrite <- E'. assert (k = 0) as -> by (destruct (k =? 0) eqn:?; zb; done).
      replace (sub start 0 c) with (@nil Z) by done.
      by rewrite (put_raw _ _ _ _ [] [] (c ++ 0 :: slack) []) by done.
Qed.

(** The inclusive range of [sdsrange]: negative positions count from the end;
    a start still negative after that gives the empty string. *)
Definition range (c : list Z) (start end_ : Z) : list Z :=
  let start := if start <? 0 then zlen c + start else start in
  let end_ := if end_ <? 0 then zlen c + end_ else end_ in
  if (end_ <? start) || (start <? 0) then []
  else take (Z.to_nat (end_ - start + 1)) (drop (Z.to_nat start) c).

Definition ssize_ok (i : Z) : Prop := INT64_MIN <= i <= INT64_MAX.

Lemma sdsrange_spec s c start end_ :
  sds_ok s c → size_ok (zlen c) → ssize_ok start → ssize_ok end_ →
  ∃ s', sdsrange s start end_ = Ret s' ∧ sds_ok s' (range c start end_).
Proof.
  unfold size_ok, ssize_ok, INT64_MIN, INT64_MAX. intros Hs Hc Hst Hen. unfold sdsrange.
  rewrite (sdslen_ok s c) by done. cbn [mbind outcome_bind].
  case_if.
  { apply zlen_0_nil in Heqb as ->. exists s. split; [done|]. unfold range. rewrite !drop_nil, !take_nil.
    by case_if. }
  unfold range.
  assert (∀ i, - 9223372036854775808 <= i <= 9223372036854775807 →
    (if i <? 0 then swrap 64 (zlen c + i) else i) = (if i <? 0 then zlen c + i else i)) as Hw.
  { intros i Hi. case_if; [|done]. apply swrap64_id. unfold INT64_MIN, INT64_MAX. lia. }
  rewrite !Hw by done.
  set (a := if start <? 0 then _ else _). set (b := if end_ <? 0 then _ else _).
  assert (- 9223372036854775808 <= a <= 9223372036854775807) by (subst a; case_if; lia).
  assert (- 9223372036854775808 <= b <= 9223372036854775807) by (subst b; case_if; lia).
  clearbody a b.
  assert (∀ x, 0 <= x < 2 ^ 64 → 0 <= x) as Hpos by (intros; lia).
  destruct (sdssubstr_spec s c (uwrap 64 a) (if b <? a then 0 else uwrap 64 (b - a + 1)))
    as (s' & E & Hok); [done|apply Hpos, Z.mod_pos_bound; lia| |].
  { case_if; [done|]. apply Hpos, Z.mod_pos_bound. lia. }
  exists s'. split; [exact E|]. clear E.
  assert (substr c (uwrap 64 a) (if b <? a then 0 else uwrap 64 (b - a + 1)) =
    if (b <? a) || (a <? 0) then [] else take (Z.to_nat (b - a + 1)) (drop (Z.to_nat a) c)) as <-; [|done].
  unfold substr. destruct (b <? a) eqn:E1; simpl; [by case_if|].
  destruct (a <? 0) eqn:E2; zb.
  - assert (uwrap 64 a = a + 2 ^ 64) as -> by
      (unfold uwrap; rewrite <- (Z.mod_add a 1) by lia; apply Z.mod_small; lia).
    case_if; [done|lia].
  - rewrite (uwrap_id 64 a), (uwrap_id 64 (b - a + 1)) by lia. case_if; [|done].
    rewrite drop_ge by (unfold zlen in *; lia). by rewrite take_nil.
Qed.

(** ** Trimming *)

Fixpoint ltrim (p : Z → bool) (l : list Z) : list Z :=
  match l with x :: r => if p x then ltrim p r else l | [] => [] end.
Definition rtrim (p : Z → bool) (l : list Z) : list Z := reverse (ltrim p (reverse l)).
Definition trim (cset c : list Z) : list Z := rtrim (strchr cset) (ltrim (strchr cset) c).

Lemma ltrim_suffix p l : ∃ a, l = a ++ ltrim p l.
Proof.
  induction l as [|x l (a & IH)]; [by exists []|]. simpl. case_if; [|by exists []].
  exists (x :: a). simpl. by rewrite <- IH.
Qed.

Lemma ltrim_head p l x r : ltrim p l = x :: r → p x = false.
Proof. induction l as [|y l IH]; [done|]. simpl. case_if; [auto|]. by intros [= -> ->]. Qed.

Lemma rtrim_snoc p l x : rtrim p (l ++ [x]) = if p x then rtrim p l else l ++ [x].
Proof.
  unfold rtrim. rewrite reverse_snoc. simpl. case_if; [done|].
  by rewrite reverse_cons, reverse_involutive.
Qed.

Lemma get_ok s c i : sds_ok s c → 0 <= i < zlen c → get s i = lift (byte_at i c).
Proof.
  intros Hs Hi.
  destruct (room_inv s c 0) as (ty & alloc & slack & -> & Ht & Hl & Ha & Hsl & H5 & Hh & Hmax); [done..|].
  rewrite get_raw by (done || rewrite zlen_app; pose proof (zlen_nonneg (0 :: slack)); lia).
  f_equal. by apply (byte_at_inside [] c (0 :: slack)).
Qed.

Lemma drop_step (c : list Z) i :
  0 <= i < zlen c →
  ∃ x, byte_at i c = Some x ∧ drop (Z.to_nat i) c = x :: drop (Z.to_nat (i + 1)) c.
Proof.
  intros Hi. destruct (body_split c i) as (a & x & r & -> & Ha & _); [done|].
  exists x. rewrite byte_at_mid by done. split; [done|].
  subst i. rewrite drop_app_zlen. change (x :: r) with ([x] ++ r). rewrite app_assoc.
  replace (zlen a + 1) with (zlen (a ++ [x])) by (by rewrite zlen_app).
  by rewrite drop_app_zlen.
Qed.

Lemma trim_left_spec s c cset fuel i :
  sds_ok s c → 0 <= i <= zlen c → zlen c - i < Z.of_nat fuel →
  ∃ j, trim_left fuel s cset i (zlen c - 1) = Ret j ∧ i <= j <= zlen c ∧
    drop (Z.to_nat j) c = ltrim (strchr cset) (drop (Z.to_nat i) c).
Proof.
  intros Hs. revert i. induction fuel as [|fuel IH]; intros i Hi Hf; [lia|]. simpl.
  destruct (i <=? zlen c - 1) eqn:E; zb.
  - rewrite (get_ok s c) by (done || lia). destruct (drop_step c i) as (x & Hx & Hd); [lia|].
    rewrite Hx, Hd. cbn [lift mbind outcome_bind ltrim]. destruct (strchr cset x) eqn:Hc.
    + destruct (IH (i + 1)) as (j & E1 & Hj & E2); [lia..|]. exists j. split; [done|]. split; [lia|done].
    + exists i. split; [done|]. split; [lia|done].
  - exists i. split; [done|]. split; [lia|]. by rewrite drop_ge by (unfold zlen in *; lia).
Qed.

Lemma trim_right_spec s a b cset fuel n x r :
  sds_ok s (a ++ b) → b = x :: r → strchr cset x = false →
  1 <= n <= zlen b → n < Z.of_nat fuel →
  ∃ m, trim_right fuel s cset (zlen a) (zlen a + n - 1) = Ret (zlen a + m - 1) ∧ 1 <= m <= n ∧
    take (Z.to_nat m) b = rtrim (strchr cset) (take (Z.to_nat n) b).
Proof.
  intros Hs Hb Hx. revert n. induction fuel as [|fuel IH]; intros n Hn Hf; [lia|]. simpl.
  pose proof (zlen_nonneg a).
  destruct (zlen a <? zlen a + n - 1) eqn:E; zb.
  - rewrite (get_ok s (a ++ b)) by (done || rewrite zlen_app; lia).
    destruct (body_split b (n - 1)) as (p & y & q & Eb & Hp & _); [lia|].
    assert (byte_at (zlen a + n - 1) (a ++ b) = Some y) as ->.
    { rewrite Eb, app_assoc. apply byte_at_mid. rewrite zlen_app. lia. }
    cbn [lift mbind outcome_bind].
    assert (take (Z.to_nat n) b = p ++ [y]) as ->.
    { rewrite Eb. change (y :: q) with ([y] ++ q). rewrite app_assoc.
      replace n with (zlen (p ++ [y])) by (rewrite zlen_app; change (zlen [y]) with 1; lia).
      apply take_app_zlen. }
    rewrite rtrim_snoc. destruct (strchr cset y).
    + destruct (IH (n - 1)) as (m & E1 & Hm & E2); [lia..|].
      exists m. replace (zlen a + n - 1 - 1) with (zlen a + (n - 1) - 1) by lia.
      split; [done|]. split; [lia|]. rewrite E2. f_equal. rewrite Eb, <- Hp. apply take_app_zlen.
    + exists n. split; [done|]. split; [lia|]. rewrite Eb. change (y :: q) with ([y] ++ q).
      rewrite app_assoc. replace n with (zlen (p ++ [y])) by (rewrite zlen_app; change (zlen [y]) with 1; lia).
      apply take_app_zlen.
  - assert (n = 1) as -> by lia. exists 1. split; [done|]. split; [lia|]. subst b.
    change (take (Z.to_nat 1) (x :: r)) with (([] : list Z) ++ [x]). by rewrite rtrim_snoc, Hx.
Qed.

Lemma sdstrim_spec s c cset :
  sds_ok s c → ∃ s', sdstrim s cset = Ret s' ∧ sds_ok s' (trim cset c).
Proof.
  intros Hs. unfold sdstrim. rewrite (sdslen_ok s c) by done. cbn [mbind outcome_bind].
  pose proof (zlen_nonneg c).
  destruct (trim_left_spec s c cset (S (Z.to_nat (zlen c))) 0) as (sp & -> & Hsp & Hd); [done|lia..|].
  cbn [mbind outcome_bind]. change (drop (Z.to_nat 0) c) with c in Hd. unfold trim. rewrite <- Hd.
  destruct (zlen_split c sp) as (a & b & -> & Ha & Hb); [lia|]. rewrite zlen_app in *.
  rewrite <- Ha, drop_app_zlen in Hd |- *.
  assert (∃ m, trim_right (S (Z.to_nat (zlen a + zlen b))) s cset (zlen a) (zlen a + zlen b - 1)
      = Ret (zlen a + m - 1) ∧ 0 <= m <= zlen b ∧ take (Z.to_nat m) b = rtrim (strchr cset) b) as (m & -> & Hm & Hr).
  { destruct b as [|x r].
    - exists 0. rewrite zlen_nil. split; [|done]. simpl. case_if; [lia|]. f_equal.
    - destruct (trim_right_spec s a (x :: r) cset (S (Z.to_nat (zlen a + zlen (x :: r)))) (zlen (x :: r)) x r)
        as (m & E & Hm & Et); auto; [by eapply ltrim_head|rewrite zlen_cons; pose proof (zlen_nonneg r); lia|lia|].
      exists m. split; [done|]. split; [lia|]. rewrite Et. f_equal. apply take_ge. unfold zlen. lia. }
  cbn [mbind outcome_bind]. replace (zlen a + m - 1 - zlen a + 1) with m by lia. rewrite <- Hr.
  destruct (room_inv s (a ++ b) 0) as (ty & alloc & slack & -> & Ht & Hl & Hal & Hsl & H5 & Hh & Hmax); [done..|].
  destruct (move_front ty alloc (a ++ b) slack (take (Z.to_nat m) b) m) as (s' & Hok & E'); auto;
    rewrite ?zlen_app, ?zlen_take in *; try lia.
  exists s'. split; [|done]. rewrite <- E'.
  destruct (negb (zlen a =? 0)) eqn:E0.
  - rewrite load_raw by (done || rewrite ?zlen_app; lia).
    rewrite sub_app_l by (rewrite ?zlen_app; lia). cbn [lift mbind outcome_bind].
    unfold sub. by rewrite drop_app_zlen.
  - apply negb_false_iff, Z.eqb_eq, zlen_0_nil in E0 as ->. simpl.
    assert (b ++ 0 :: slack = take (Z.to_nat m) b ++ drop (Z.to_nat m) b ++ 0 :: slack) as Eb
      by (by rewrite app_assoc, take_drop).
    rewrite (put_raw _ _ _ _ [] _ (drop (Z.to_nat m) b ++ 0 :: slack) (take (Z.to_nat m) b) 0 Eb) by done.
    simpl. by rewrite <- Eb.
Qed.

(** ** Adjusting the length after a direct write *)

Lemma incr_ok_spec ty alloc len incr :
  is_type ty → ty ≠ 0 → 0 <= len <= alloc → alloc <= sdsTypeMaxSize ty →
  0 <= len + incr <= alloc →
  incr_ok (width ty) alloc len incr = true ∧
  uwrap (8 * Z.of_nat (width ty)) (len + incr) = len + incr.
Proof.
  intros Ht H0 Hl Ha Hi. unfold incr_ok, free_space.
  assert (alloc < 2 ^ (8 * Z.of_nat (width ty))) by
    (each_type ty Ht; [done|vm_compute sdsTypeMaxSize in Ha; cbn; lia..]).
  split; [|apply uwrap_id; lia].
  each_type ty Ht; [done|..]; cbn in *.
  all: destruct (0 <=? incr) eqn:E; simpl; [rewrite ?uwrap_id by lia|]; zb; try lia.
  all: rewrite ?uwrap_id by lia; lia.
Qed.

Lemma sdsIncrLen_raw ty len alloc body incr :
  is_type ty → (ty = 0 → incr < 0) → 0 <= len <= alloc → len <= sdsTypeMaxSize ty →
  alloc <= sdsTypeMaxSize ty → 0 <= len + incr <= alloc →
  sdsIncrLen (raw ty len alloc body) incr = put (raw ty (len + incr) alloc body) (len + incr) [0].
Proof.
  intros Ht H0 Hl Hm Ha Hi. unfold sdsIncrLen. rewrite raw_flags by (done || lia).
  cbn [mbind outcome_bind]. rewrite type_switch_flags by (done || lia).
  destruct (ty =? 0) eqn:E; zb.
  - subst. specialize (H0 eq_refl). change (sdsTypeMaxSize 0) with 31 in *.
    assert (SDS_TYPE_5_LEN (len * 8) = len) as ->.
    { unfold SDS_TYPE_5_LEN, SDS_TYPE_BITS. rewrite shiftr_div by lia. by apply (Z.div_mul len 8). }
    rewrite (uwrap_id 32 (- incr)) by lia.
    assert ((0 <? incr) && (len + incr <? 32) || (incr <? 0) && (- incr <=? len) = true) as ->.
    { apply orb_true_iff. right. apply andb_true_iff. split; zb; lia. }
    cbn [assert mbind outcome_bind]. unfold raw. change (0 =? 0) with true. cbv iota.
    rewrite (put_flags [] [] _ _ 0) by done. cbn [mbind outcome_bind].
    do 2 f_equal. unfold SDS_TYPE_5, SDS_TYPE_BITS. rewrite Z.lor_0_l, Z.shiftl_mul_pow2 by lia.
    apply uwrap_id. lia.
  - rewrite <- !raw_nz by done.
    rewrite hdr_alloc_hdr, hdr_len_hdr by (by rewrite ?le_bytes_zlen). cbn [mbind outcome_bind].
    rewrite !le_val_max by (done || lia).
    destruct (incr_ok_spec ty alloc len incr) as [-> ->]; auto; try lia.
    cbn [assert mbind outcome_bind].
    by rewrite set_hdr_len_hdr by (by rewrite ?le_bytes_zlen).
Qed.

(** The documented use of [sdsIncrLen]: make room for [n] bytes, let [read(2)]
    store [d] at the end of the string, then account for it. *)
Definition append_read (s : sds) (n : Z) (d : list Z) : outcome sds :=
  oldlen ← sdslen s;
  s ← sdsMakeRoomFor malloc junk s n;
  s ← put s oldlen d;
  sdsIncrLen s (zlen d).

Lemma append_read_spec s c n d :
  sds_ok s c → 0 < n < 2 ^ 62 → size_ok (zlen c) → zlen d <= n →
  wp (append_read s n d) (λ s', sds_ok s' (c ++ d)).
Proof.
  intros Hs Hn Hc Hd. pose proof (zlen_nonneg d). unfold append_read, size_ok in *.
  rewrite (sdslen_ok s c) by done. cbn [mbind outcome_bind]. apply wp_bind.
  eapply wp_mono; [apply _sdsMakeRoomFor_spec; unfold size_ok; eauto; lia|]. intros s1 H1. simpl in H1.
  destruct (room_inv s1 c n) as (ty & alloc & slack & -> & Ht & Hl & Ha & Hsl & H5 & Hh & Hmax); [lia|done|].
  destruct (body_split (0 :: slack) (zlen d)) as (a & x & r & E & Hz & Hr); [rewrite zlen_cons; lia|].
  rewrite zlen_cons in Hr. rewrite E, (put_raw _ _ _ _ c a (x :: r) d) by done. cbn [mbind outcome_bind].
  rewrite sdsIncrLen_raw by (auto; try lia). rewrite <- zlen_app, app_assoc.
  rewrite put_nul by done. simpl. apply raw_ok; rewrite ?zlen_app; auto; lia.
Qed.

(** A negative increment truncates the string. *)
Lemma sdsIncrLen_neg s c k :
  sds_ok s c → 0 < k <= zlen c →
  ∃ s', sdsIncrLen s (- k) = Ret s' ∧ sds_ok s' (take (Z.to_nat (zlen c - k)) c).
Proof.
  intros Hs Hk.
  destruct (room_inv s c 0) as (ty & alloc & slack & -> & Ht & Hl & Ha & Hsl & H5 & Hh & Hmax); [done..|].
  rewrite sdsIncrLen_raw by (auto; try lia).
  destruct (zlen_split c (zlen c - k)) as (p & q & Ec & Hp & Hq); [lia|].
  replace (zlen c + - k) with (zlen p) by lia.
  assert (take (Z.to_nat (zlen c - k)) c = p) as -> by (rewrite <- Hp, Ec; apply take_app_zlen).
  destruct (body_split (q ++ 0 :: slack) 0) as (e & x & r & E & Hz & Hr).
  { rewrite zlen_app, zlen_cons. pose proof (zlen_nonneg slack). pose proof (zlen_nonneg q). lia. }
  apply zlen_0_nil in Hz as ->. rewrite zlen_app, zlen_cons in Hr.
  assert (c ++ 0 :: slack = p ++ x :: r) as -> by (rewrite Ec, <- app_assoc, E; done).
  rewrite put_nul by done. eexists. split; [done|]. apply raw_ok; auto; lia.
Qed.

(** ** C strings, copies and numbers *)

Lemma strlen_spec (c t : list Z) : 0 ∉ c → strlen (c ++ 0 :: t) = Some (zlen c).
Proof.
  induction c as [|x c IH]; [done|]. intros [Hx Hc]%not_elem_of_cons. simpl.
  case_if; [done|]. rewrite IH by done. simpl. by rewrite zlen_cons.
Qed.

Lemma sdsnew_spec c t :
  0 ∉ c → zlen c < 2 ^ 63 → wp (sdsnew malloc junk (Some (c ++ 0 :: t))) (λ s, sds_ok s c).
Proof.
  intros Hc Hl. pose proof (zlen_nonneg c). unfold sdsnew. rewrite strlen_spec by done.
  cbn [lift mbind outcome_bind]. apply _sdsnewlen_spec; [lia|]. by apply rd_head.
Qed.

Lemma sdsdup_spec s c :
  sds_ok s c → zlen c < 2 ^ 63 → wp (sdsdup malloc junk s) (λ s', sds_ok s' c).
Proof.
  intros Hs Hl. pose proof (zlen_nonneg c). unfold sdsdup.
  rewrite (sdslen_ok s c) by done. cbn [mbind outcome_bind].
  destruct (data_ok s c Hs) as (slack & ->). apply _sdsnewlen_spec; [lia|]. by apply rd_head.
Qed.

Lemma sdscatsds_spec s c t d :
  sds_ok s c → sds_ok t d → size_ok (zlen c) → size_ok (zlen d) →
  wp (sdscatsds malloc junk s t) (λ s', sds_ok s' (c ++ d)).
Proof.
  intros Hs Ht Hc Hd. unfold sdscatsds. rewrite (sdslen_ok t d) by done. cbn [mbind outcome_bind].
  destruct (data_ok t d Ht) as (slack & ->). apply sdscatlen_spec; auto. by apply rd_head.
Qed.

Lemma sdscat_spec s c t r :
  sds_ok s c → 0 ∉ t → size_ok (zlen c) → size_ok (zlen t) →
  wp (sdscat malloc junk s (t ++ 0 :: r)) (λ s', sds_ok s' (c ++ t)).
Proof.
  intros Hs Ht Hc Hd. unfold sdscat. rewrite strlen_spec by done. cbn [lift mbind outcome_bind].
  apply sdscatlen_spec; auto. by apply rd_head.
Qed.

(** [sdsupdatelen] cuts the string at its first null byte. *)
Fixpoint before_nul (c : list Z) : list Z :=
  match c with [] => [] | x :: r => if x =? 0 then [] else x :: before_nul r end.

Lemma before_nul_split c : ∃ r, (c = before_nul c ++ r) ∧ (0 ∉ before_nul c) ∧ (r = [] ∨ (∃ r', r = 0 :: r')).
Proof.
  induction c as [|x c (r & E & Hn & Hr)]; simpl.
  - exists []. split_and!; [done|by apply not_elem_of_nil|by left].
  - case_if.
    + subst. exists (0 :: c). split_and!; [done|by apply not_elem_of_nil|eauto].
    + exists r. simpl. rewrite <- E. split_and!; [done| |done]. rewrite not_elem_of_cons. auto.
Qed.

Lemma sdsupdatelen_spec s c :
  sds_ok s c → ∃ s', sdsupdatelen s = Ret s' ∧ sds_ok s' (before_nul c).
Proof.
  intros Hs.
  destruct (room_inv s c 0) as (ty & alloc & slack & -> & Ht & Hl & Ha & Hsl & H5 & Hh & Hmax); [done..|].
  unfold sdsupdatelen. rewrite data_raw by done.
  destruct (before_nul_split c) as (r & E & Hn & Hr). set (p := before_nul c) in *. clearbody p.
  assert (∃ r', (c ++ 0 :: slack = p ++ 0 :: r') ∧ zlen r' = zlen c + zlen slack - zlen p) as (r' & Er & Hz).
  { destruct Hr as [->|[r' ->]]; rewrite E.
    - exists slack. rewrite app_nil_r. split; [done|lia].
    - exists (r' ++ 0 :: slack). rewrite <- app_assoc. split; [done|].
      rewrite !zlen_app, !zlen_cons. lia. }
  pose proof (zlen_nonneg p). pose proof (zlen_nonneg slack).
  assert (zlen p <= zlen c) by (rewrite E, zlen_app; pose proof (zlen_nonneg r); lia).
  rewrite Er, strlen_spec by done. cbn [lift mbind outcome_bind].
  rewrite sdssetlen_raw by (done || lia). eexists. split; [done|]. apply raw_ok; auto; lia.
Qed.

(** The decimal representation of a number. *)
Lemma sdsfromlonglong_spec v :
  is_int64 v → wp (sdsfromlonglong malloc junk v) (λ s, sds_ok s (sdec v)).
Proof.
  intros Hv. unfold sdsfromlonglong. pose proof (sdec_len v Hv) as Hl. unfold LONG_STR_SIZE in Hl.
  destruct (zlen_split (replicate 21 junk) (zlen (sdec v) + 1)) as (a & b & -> & Ha & _).
  { rewrite zlen_replicate. lia. }
  pose proof (ll2string_spec [] a b v LONG_STR_SIZE) as E. rewrite zlen_nil in E. simpl in E.
  rewrite E by (unfold LONG_STR_SIZE; lia || done). cbn [lift mbind outcome_bind].
  apply _sdsnewlen_spec; [lia|]. simpl. by apply rd_head.
Qed.

End Proofs.
End SdsProofs.
