(* ===== verification/SdsHistory.v ===== *)
(** * Dynamic strings: histories

    Any sequence of operations of sds.c on a string is, as far as its contents
    go, the same sequence of operations on a list of bytes. *)

From Stdlib Require Import String.
From S2P Require Import Prelude Util Sds SdsProofs.

Module SdsHistory.
Import Util Sds SdsProofs.

Inductive sds_op :=
  | OpCat (t : list Z)
  | OpCatString (t : list Z)
  | OpCpy (t : list Z)
  | OpGrowZero (n : Z)
  | OpRange (start end_ : Z)
  | OpSubstr (start n : Z)
  | OpTrim (cset : list Z)
  | OpClear
  | OpUpdateLen
  | OpMakeRoom (n : Z) (greedy : bool)
  | OpResize (n : Z) (regrow : bool)
  | OpRemoveFreeSpace (regrow : bool)
  | OpRead (n : Z) (d : list Z)
  | OpTruncate (k : Z)
  | OpDup.

(** The effect on the contents. *)
Definition op_spec (c : list Z) (op : sds_op) : list Z :=
  match op with
  | OpCat t | OpCatString t => c ++ t
  | OpCpy t => t
  | OpGrowZero n => c ++ replicate (Z.to_nat (n - zlen c)) 0
  | OpRange a b => range c a b
  | OpSubstr a n => substr c a n
  | OpTrim cset => trim cset c
  | OpClear => []
  | OpUpdateLen => before_nul c
  | OpMakeRoom _ _ | OpRemoveFreeSpace _ | OpDup => c
  | OpResize n _ => take (Z.to_nat n) c
  | OpRead _ d => c ++ d
  | OpTruncate k => take (Z.to_nat (zlen c - k)) c
  end.

(** The arguments the functions are meant for: sizes far from overflow, C
    strings without null bytes, reads and truncations within their bounds. *)
Definition op_pre (c : list Z) (op : sds_op) : Prop :=
  size_ok (zlen c) ∧
  match op with
  | OpCat t | OpCpy t => size_ok (zlen t)
  | OpCatString t => (0 ∉ t) ∧ size_ok (zlen t)
  | OpGrowZero n | OpMakeRoom n _ | OpResize n _ => size_ok n
  | OpRange a b => ssize_ok a ∧ ssize_ok b
  | OpSubstr a n => 0 <= a ∧ 0 <= n
  | OpRead n d => 0 < n < 2 ^ 62 ∧ zlen d <= n
  | OpTruncate k => 0 < k <= zlen c
  | OpTrim _ | OpClear | OpUpdateLen | OpRemoveFreeSpace _ | OpDup => True
  end.

#[export] Instance size_ok_dec n : Decision (size_ok n) := and_dec _ _.
#[export] Instance ssize_ok_dec n : Decision (ssize_ok n) := and_dec _ _.
#[export] Instance op_pre_dec c op : Decision (op_pre c op).
Proof. destruct op; apply and_dec; apply _. Defined.

Fixpoint hist_ok (c : list Z) (ops : list sds_op) : Prop :=
  match ops with
  | [] => True
  | op :: ops => op_pre c op ∧ hist_ok (op_spec c op) ops
  end.

#[export] Instance hist_ok_dec c ops : Decision (hist_ok c ops).
Proof. revert c. induction ops; intros c; apply _. Defined.

Section History.
Variable malloc : Z → option Z.
Variable junk : Z.
Hypothesis malloc_size : ∀ n u, malloc n = Some u → n <= u < 2 ^ 64.

(** C strings are passed with their terminator, byte arrays with their length. *)
Definition op_step (s : sds) (op : sds_op) : outcome sds :=
  match op with
  | OpCat t => sdscatlen malloc junk s t (zlen t)
  | OpCatString t => sdscat malloc junk s (t ++ [0])
  | OpCpy t => sdscpylen malloc junk s t (zlen t)
  | OpGrowZero n => sdsgrowzero malloc junk s n
  | OpRange a b => sdsrange s a b
  | OpSubstr a n => sdssubstr s a n
  | OpTrim cset => sdstrim s cset
  | OpClear => sdsclear s
  | OpUpdateLen => sdsupdatelen s
  | OpMakeRoom n greedy => _sdsMakeRoomFor malloc junk s n greedy
  | OpResize n regrow => sdsResize malloc junk s n regrow
  | OpRemoveFreeSpace regrow => sdsRemoveFreeSpace malloc junk s regrow
  | OpRead n d => append_read malloc junk s n d
  | OpTruncate k => sdsIncrLen s (- k)
  | OpDup => sdsdup malloc junk s
  end.

Fixpoint run (s : sds) (ops : list sds_op) : outcome sds :=
  match ops with [] => Ret s | op :: ops => s ← op_step s op; run s ops end.

Lemma wp_of_ex {A} (m : outcome A) (P : A → Prop) :
  (∃ a, m = Ret a ∧ P a) → wp malloc m P.
Proof. by intros (a & -> & ?). Qed.

Lemma op_step_spec s c op :
  sds_ok s c → op_pre c op → wp malloc (op_step s op) (λ s', sds_ok s' (op_spec c op)).
Proof.
  intros Hs [Hc Hop].
  assert (∀ t : list Z, rd 0 (zlen t) t = Some t) as Hrd by apply rd_all.
  assert (zlen c < 2 ^ 63) by (unfold size_ok in Hc; lia).
  destruct op; simpl in *.
  - by apply sdscatlen_spec.
  - destruct Hop. by apply sdscat_spec.
  - by eapply sdscpylen_spec.
  - by apply sdsgrowzero_spec.
  - destruct Hop. apply wp_of_ex. by apply sdsrange_spec.
  - destruct Hop. apply wp_of_ex. by apply sdssubstr_spec.
  - apply wp_of_ex. by apply sdstrim_spec.
  - apply wp_of_ex. by eapply sdsclear_spec.
  - apply wp_of_ex. by apply sdsupdatelen_spec.
  - eapply wp_mono; [by apply _sdsMakeRoomFor_spec|]. intros s'. apply room_ok.
    unfold size_ok in Hop. lia.
  - by apply sdsResize_spec.
  - unfold sdsRemoveFreeSpace. rewrite (sdslen_ok s c) by done. cbn [mbind outcome_bind].
    eapply wp_mono; [by apply sdsResize_spec|]. intros s'. simpl.
    by rewrite take_ge by (unfold zlen; lia).
  - destruct Hop. by apply append_read_spec.
  - apply wp_of_ex. by apply sdsIncrLen_neg.
  - by apply sdsdup_spec.
Qed.

Lemma run_spec s c ops :
  sds_ok s c → hist_ok c ops → wp malloc (run s ops) (λ s', sds_ok s' (foldl op_spec c ops)).
Proof.
  revert s c. induction ops as [|op ops IH]; intros s c Hs Hh; [done|]. destruct Hh as [Hop Hh].
  simpl. apply wp_bind. eapply wp_mono; [by apply op_step_spec|]. intros s' Hs'. by apply IH.
Qed.

(** What a caller can observe of a string: its length, and the bytes at the
    pointer, which are the contents followed by a null byte. *)
Definition observed (s : sds) (c : list Z) : Prop :=
  sdslen s = Ret (zlen c) ∧ load s 0 (zlen c + 1) = Ret (c ++ [0]).

Lemma ok_observed s c : sds_ok s c → observed s c.
Proof.
  intros Hs. split; [by apply sdslen_ok|].
  destruct (room_inv s c 0) as (ty & alloc & slack & -> & Ht & Hl & Ha & Hsl & H5 & Hh & Hmax); [done..|].
  by rewrite load_raw, rd_terminated by (done || lia).
Qed.

(** (C7) From [sdsnewlen], any sequence of operations, each with arguments in range, never
    fails an assertion and never leaves the block; unless a request to
    the allocator fails, it ends with a string whose length, bytes and terminator are those
    that the same operations give on lists of bytes, whatever the header types
    and reallocations in between. *)
Theorem sds_refines_bytes init n c ops :
  0 <= n < 2 ^ 62 → initial junk init n c → hist_ok c ops →
  wp malloc (s ← sdsnewlen malloc junk init n; run s ops)
    (λ s, observed s (foldl op_spec c ops)).
Proof.
  intros Hn Hi Hh. apply wp_bind. eapply wp_mono.
  - apply _sdsnewlen_spec; [done|lia|exact Hi].
  - intros s Hs. simpl in Hs. eapply wp_mono; [by apply run_spec|]. intros s'. apply ok_observed.
Qed.

(** [sdsMakeRoomFor] keeps the contents and leaves room for the [n] bytes
    asked for; when the free space [a] was too small and the new size is below 1 MB, the
    allocation is at least doubled, which bounds the number of reallocations
    of a growing string. *)
Theorem sdsMakeRoomFor_correct s c n a :
  sds_ok s c → size_ok n → size_ok (zlen c) → sdsavail s = Ret a →
  wp malloc (sdsMakeRoomFor malloc junk s n)
    (λ s', observed s' c ∧ ∃ a', sdsavail s' = Ret a' ∧ n <= a' ∧
       (a < n → zlen c + n < SDS_MAX_PREALLOC → 2 * (zlen c + n) <= zlen c + a')).
Proof.
  intros Hs Hn Hc Ha. pose proof (zlen_nonneg c). unfold sdsMakeRoomFor.
  eapply wp_mono; [by apply _sdsMakeRoomFor_grow|]. intros s' Hr. cbv beta in Hr.
  unfold size_ok in *.
  assert (0 <= n <= (if n <=? a then n else grown (zlen c + n) true - zlen c)) as [Hg Hg'].
  { case_if; [lia|]. destruct (room_avail s c 0) as (a0 & Ha0 & Hp); [done..|].
    rewrite Ha in Ha0. injection Ha0 as <-.
    destruct (grown_type (zlen c + n) true) as (_ & _ & ? & _); lia. }
  set (k := if n <=? a then _ else _) in Hr, Hg'.
  assert (0 <= k) as Hk by lia.
  split; [by apply ok_observed, (room_ok s' c k)|].
  destruct (room_avail s' c k Hk Hr) as (a' & Ha' & Hle).
  exists a'. split; [done|]. split; [lia|]. intros Hlt Hpre. revert Hle. subst k. unfold grown.
  case_if; [lia|]. case_if; lia.
Qed.
End History.

(** ** A concrete run *)

(** An allocator that rounds requests up to 16 bytes. *)
Definition test_malloc (n : Z) : option Z :=
  let u := (n + 15) / 16 * 16 in if u <? 2 ^ 64 then Some u else None.

Lemma test_malloc_size n u : test_malloc n = Some u → n <= u < 2 ^ 64.
Proof. unfold test_malloc. case_if; [|done]. intros [= <-]. dlia. Qed.

Definition str (s : String.string) : list Z := bytes_of_string s.
Arguments str _%_string_scope.

Definition test_ops : list sds_op :=
  [OpCat (str "  hello world, this is a long string  "); OpTrim (str " ");
   OpRange 6 (-1); OpRead 300 (str "!!"); OpTruncate 1; OpResize 25 false; OpGrowZero 26;
   OpDup; OpUpdateLen; OpCatString (str "?")].

Lemma sds_refines_bytes_witness :
  0 <= 1 < 2 ^ 62 ∧ initial 170 (INIT (str "x")) 1 (str "x") ∧ hist_ok (str "x") test_ops ∧
  foldl op_spec (str "x") test_ops = str "lo world, this is a long ?" ∧
  (∃ s, (s ← sdsnewlen test_malloc 170 (INIT (str "x")) 1; run test_malloc 170 s test_ops) = Ret s) ∧
  wp test_malloc (s ← sdsnewlen test_malloc 170 (INIT (str "x")) 1; run test_malloc 170 s test_ops)
    (λ s, observed s (foldl op_spec (str "x") test_ops)).
Proof.
  assert (0 <= 1 < 2 ^ 62) as H1 by lia.
  assert (initial 170 (INIT (str "x")) 1 (str "x")) as H2 by reflexivity.
  assert (hist_ok (str "x") test_ops) as H3 by (apply (bool_decide_unpack _); vm_compute; exact I).
  split; [exact H1|]. split; [exact H2|]. split; [exact H3|]. split; [vm_compute; reflexivity|].
  split; [eexists; vm_compute; reflexivity|].
  pose proof (sds_refines_bytes test_malloc 170 test_malloc_size (INIT (str "x")) 1 (str "x") test_ops H1 H2 H3) as Hx.
  exact Hx.
Defined.

(** "abc" with an 8-bit header and two free bytes. *)
Definition abc : sds := raw 1 3 5 (str "abc" ++ [0; 170; 170]).

Lemma abc_ok : sds_ok abc (str "abc").
Proof.
  exists 1, 5, [170; 170].
  split; [unfold is_type; lia|]. split; [vm_compute; reflexivity|].
  split; [|split; [|intros H; discriminate H]]; vm_compute; [split|]; discriminate.
Defined.

Lemma sdsMakeRoomFor_witness :
  size_ok 20 ∧ sdsavail abc = Ret 2 ∧
  wp test_malloc (sdsMakeRoomFor test_malloc 170 abc 20)
    (λ s', observed s' (str "abc") ∧ ∃ a', sdsavail s' = Ret a' ∧ 20 <= a' ∧
       (2 < 20 → zlen (str "abc") + 20 < SDS_MAX_PREALLOC → 2 * (zlen (str "abc") + 20) <= zlen (str "abc") + a')).
Proof.
  assert (size_ok 20) as H1 by (unfold size_ok; lia).
  assert (size_ok (zlen (str "abc"))) as H2 by (vm_compute; split; [discriminate|reflexivity]).
  assert (sdsavail abc = Ret 2) as H3 by (vm_compute; reflexivity).
  split; [exact H1|]. split; [exact H3|].
  exact (sdsMakeRoomFor_correct test_malloc 170 test_malloc_size abc (str "abc") 20 2 abc_ok H1 H2 H3).
Defined.

End SdsHistory.
