(* ===== verification/SdsText.v ===== *)
(** * Dynamic strings as text ([src/redis-stable/src/sds.c])

    Splitting, joining, quoting and unquoting.  The functions of this file work on
    the contents of strings; appending to an [sds] is appending to a list
    ([SdsProofs.sdscatlen_spec]).  Characters are unsigned bytes and the character classes are
    those of the C locale. *)

From stdpp Require Import list.
From Stdlib Require Import String.
From S2P Require Import Prelude.

Module SdsText.

Definition BSLASH : Z := 92.
Definition DQUOTE : Z := 34.
Definition SQUOTE : Z := 39.
Definition SPACE : Z := 32.
Definition LF : Z := 10.
Definition CR : Z := 13.
Definition TAB : Z := 9.
Definition BELL : Z := 7.
Definition BS : Z := 8.

(** The C locale's [isprint] and [isspace]. *)
Definition isprint (c : Z) : bool := (32 <=? c) && (c <=? 126).
Definition isspace (c : Z) : bool := ((9 <=? c) && (c <=? 13)) || (c =? 32).

(** ** Comparison, case and character maps *)

(** The sign of [memcmp] on two arrays of the same length. *)
Fixpoint memcmp (a b : list Z) : Z :=
  match a, b with
  | x :: a, y :: b => if x =? y then memcmp a b else if x <? y then -1 else 1
  | _, _ => 0
  end.

Definition sdscmp (s1 s2 : list Z) : Z :=
  let l1 := zlen s1 in
  let l2 := zlen s2 in
  let minlen := if l1 <? l2 then l1 else l2 in
  let cmp := memcmp (take (Z.to_nat minlen) s1) (take (Z.to_nat minlen) s2) in
  if cmp =? 0 then (if l2 <? l1 then 1 else if l1 <? l2 then -1 else 0) else cmp.

Definition tolower (c : Z) : Z := if (65 <=? c) && (c <=? 90) then c + 32 else c.
Definition toupper (c : Z) : Z := if (97 <=? c) && (c <=? 122) then c - 32 else c.
Definition sdstolower (s : list Z) : list Z := tolower <$> s.
Definition sdstoupper (s : list Z) : list Z := toupper <$> s.

(** The inner loop of [sdsmapchars] for one character. *)
Fixpoint mapchar (c : Z) (from to : list Z) : Z :=
  match from, to with
  | f :: from, t :: to => if c =? f then t else mapchar c from to
  | _, _ => c
  end.
Definition sdsmapchars (s from to : list Z) : list Z := (λ c, mapchar c from to) <$> s.

(** ** Splitting and joining *)

(** [memcmp(s+j, sep, seplen) == 0] at the start of [s]. *)
Fixpoint starts_with (sep s : list Z) : bool :=
  match sep, s with
  | [], _ => true
  | x :: sep, y :: s => (x =? y) && starts_with sep s
  | _, [] => false
  end.

(** The scan of [sdssplitlen]: [s] is the rest of the input from [j] on and
    [cur] the bytes between [start] and [j]; the loop stops when fewer than
    [seplen] bytes are left. *)
Fixpoint split_loop (fuel : nat) (sep cur s : list Z) : list (list Z) :=
  match fuel with
  | O => []
  | S fuel =>
      if zlen s <? zlen sep then [cur ++ s]
      else if starts_with sep s then
        cur :: split_loop fuel sep [] (drop (length sep) s)
      else
        match s with
        | [] => [cur]
        | c :: s => split_loop fuel sep (cur ++ [c]) s
        end
  end.

(** [None] stands for the NULL result with a count of 0. *)
Definition sdssplitlen (s sep : list Z) : option (list (list Z)) :=
  if (zlen sep <? 1) || (zlen s <=? 0) then None
  else Some (split_loop (S (length s)) sep [] s).

Fixpoint sdsjoinsds (argv : list (list Z)) (sep : list Z) : list Z :=
  match argv with
  | [] => []
  | [a] => a
  | a :: argv => a ++ sep ++ sdsjoinsds argv sep
  end.

(** ** Quoting *)

Definition hexdigits : list Z := bytes_of_string "0123456789abcdef".
Definition hexdigit (n : Z) : Z := nth (Z.to_nat n) hexdigits 0.

(** One iteration of [sdscatrepr]; two hexadecimal digits for the default case. *)
Definition repr_char (c : Z) : list Z :=
  if (c =? BSLASH) || (c =? DQUOTE) then [BSLASH; c]
  else if c =? LF then [BSLASH; 110]
  else if c =? CR then [BSLASH; 114]
  else if c =? TAB then [BSLASH; 116]
  else if c =? BELL then [BSLASH; 97]
  else if c =? BS then [BSLASH; 98]
  else if isprint c then [c]
  else [BSLASH; 120; hexdigit (c / 16); hexdigit (c mod 16)].

Fixpoint repr_loop (p : list Z) : list Z :=
  match p with [] => [] | c :: p => repr_char c ++ repr_loop p end.

Definition sdscatrepr (s p : list Z) : list Z := s ++ [DQUOTE] ++ repr_loop p ++ [DQUOTE].

Fixpoint sdsneedsrepr (s : list Z) : bool :=
  match s with
  | [] => false
  | c :: p =>
      if (c =? BSLASH) || (c =? DQUOTE) || (c =? LF) || (c =? CR) || (c =? TAB) || (c =? BELL)
         || (c =? BS) || negb (isprint c) || isspace c
      then true else sdsneedsrepr p
  end.

(** ** Unquoting *)

Definition is_hex_digit (c : Z) : bool :=
  ((48 <=? c) && (c <=? 57)) || ((97 <=? c) && (c <=? 102)) || ((65 <=? c) && (c <=? 70)).

Definition hex_digit_to_int (c : Z) : Z :=
  if (48 <=? c) && (c <=? 57) then c - 48
  else if (97 <=? c) && (c <=? 102) then c - 87
  else if (65 <=? c) && (c <=? 70) then c - 55
  else 0.

(** The character an escape stands for. *)
Definition unescape (c : Z) : Z :=
  if c =? 110 then LF else if c =? 114 then CR else if c =? 116 then TAB
  else if c =? 98 then BS else if c =? 97 then BELL else c.

(** The C string at the front of a buffer: the bytes before the first null. *)
Fixpoint c_string (s : list Z) : list Z :=
  match s with [] => [] | c :: s => if c =? 0 then [] else c :: c_string s end.

(** The loop that skips blanks. *)
Fixpoint skip_blanks (p : list Z) : list Z :=
  match p with c :: p' => if isspace c then skip_blanks p' else p | [] => [] end.

(** The test after a closing quote, [p] being what follows it: the next
    character exists and is not a space. *)
Definition glued (p : list Z) : bool :=
  match p with c :: _ => negb (isspace c) | [] => false end.

(** [while(!done)]: the token under construction and the rest of the line. [p]
    holds no null byte, its end is the terminator of the C string.  [None]: the error exit. *)
Fixpoint get_token (p : list Z) (inq insq : bool) (current : list Z) : option (list Z * list Z) :=
  match p with
  | [] => if inq || insq then None else Some (current, [])
  | c :: p1 =>
      if inq then
        let other :=
          match p1 with
          | e :: p2 =>
              if c =? BSLASH then get_token p2 inq insq (current ++ [unescape e])
              else if c =? DQUOTE then if glued p1 then None else Some (current, p1)
              else get_token p1 inq insq (current ++ [c])
          | [] =>
              if c =? DQUOTE then Some (current, p1)
              else get_token p1 inq insq (current ++ [c])
          end in
        match p1 with
        | x :: a :: b :: p4 =>
            if (c =? BSLASH) && (x =? 120) && is_hex_digit a && is_hex_digit b then
              get_token p4 inq insq (current ++ [uwrap 8 (hex_digit_to_int a * 16 + hex_digit_to_int b)])
            else other
        | _ => other
        end
      else if insq then
        match p1 with
        | e :: p2 =>
            if (c =? BSLASH) && (e =? SQUOTE) then get_token p2 inq insq (current ++ [SQUOTE])
            else if c =? SQUOTE then if glued p1 then None else Some (current, p1)
            else get_token p1 inq insq (current ++ [c])
        | [] =>
            if c =? SQUOTE then Some (current, p1) else get_token p1 inq insq (current ++ [c])
        end
      else if (c =? SPACE) || (c =? LF) || (c =? CR) || (c =? TAB) then Some (current, p1)
      else if c =? DQUOTE then get_token p1 true insq current
      else if c =? SQUOTE then get_token p1 inq true current
      else get_token p1 inq insq (current ++ [c])
  end.

Fixpoint splitargs_loop (fuel : nat) (p : list Z) (vector : list (list Z)) : option (list (list Z)) :=
  match fuel with
  | O => None
  | S fuel =>
      match skip_blanks p with
      | [] => Some vector
      | p => '(current, p) ← get_token p false false []; splitargs_loop fuel p (vector ++ [current])
      end
  end.

(** [None]: NULL, for unbalanced quotes or text glued to a closing quote. *)
Definition sdssplitargs (line : list Z) : option (list (list Z)) :=
  let p := c_string line in splitargs_loop (S (length p)) p [].

(** ** Quoting and unquoting are inverse *)

Lemma unescape_plain c : c ≠ 110 → c ≠ 114 → c ≠ 116 → c ≠ 98 → c ≠ 97 → unescape c = c.
Proof. intros. unfold unescape. repeat case_if; done. Qed.

(** The hexadecimal escape of a byte. *)
Lemma hex_roundtrip c :
  is_byte c →
  is_hex_digit (hexdigit (c / 16)) && is_hex_digit (hexdigit (c mod 16)) &&
  (uwrap 8 (hex_digit_to_int (hexdigit (c / 16)) * 16 + hex_digit_to_int (hexdigit (c mod 16))) =? c) = true.
Proof. revert c. apply byte_enum. vm_compute. reflexivity. Qed.

(** Inside double quotes, an ordinary character and an escape. *)
Lemma token_plain c p cur :
  c ≠ BSLASH → c ≠ DQUOTE → get_token (c :: p) true false cur = get_token p true false (cur ++ [c]).
Proof.
  intros Hb Hq. apply Z.eqb_neq in Hb, Hq. destruct p as [|x [|a [|b p]]]; simpl; by rewrite ?Hb, ?Hq.
Qed.

Lemma token_escape e p cur :
  e ≠ 120 → get_token (BSLASH :: e :: p) true false cur = get_token p true false (cur ++ [unescape e]).
Proof. intros He. apply Z.eqb_neq in He. destruct p as [|a [|b p]]; simpl; by rewrite ?He. Qed.

Lemma token_hex a b p cur :
  is_hex_digit a = true → is_hex_digit b = true →
  get_token (BSLASH :: 120 :: a :: b :: p) true false cur
  = get_token p true false (cur ++ [uwrap 8 (hex_digit_to_int a * 16 + hex_digit_to_int b)]).
Proof. intros Ha Hb. simpl. by rewrite Ha, Hb. Qed.

Lemma token_close p cur : glued p = false → get_token (DQUOTE :: p) true false cur = Some (cur, p).
Proof. intros Hg. destruct p as [|x [|a [|b p]]]; [done|..]; simpl in *; by rewrite Hg. Qed.

Lemma token_repr_char c p cur :
  is_byte c → get_token (repr_char c ++ p) true false cur = get_token p true false (cur ++ [c]).
Proof.
  intros Hc. unfold repr_char.
  destruct ((c =? BSLASH) || (c =? DQUOTE)) eqn:E1.
  { assert (c = BSLASH ∨ c = DQUOTE) as [-> | ->] by (zb; lia); by apply token_escape. }
  assert (c ≠ BSLASH ∧ c ≠ DQUOTE) as [Hb Hq] by (zb; lia).
  repeat (case_if; [subst; by apply token_escape|]).
  case_if; [by apply token_plain|].
  pose proof (hex_roundtrip c Hc) as H. rewrite !andb_true_iff in H. destruct H as [[Ha Hd] H%Z.eqb_eq].
  simpl app. rewrite token_hex by done. by rewrite H.
Qed.

Lemma token_repr_loop a p cur :
  wf_bytes a → get_token (repr_loop a ++ p) true false cur = get_token p true false (cur ++ a).
Proof.
  intros Ha. revert cur. induction Ha as [|c a Hc Ha IH]; intros cur; simpl; [by rewrite app_nil_r|].
  by rewrite <- app_assoc, token_repr_char, IH, <- app_assoc by done.
Qed.

Lemma token_quoted a p :
  wf_bytes a → glued p = false →
  get_token (sdscatrepr [] a ++ p) false false [] = Some (a, p).
Proof.
  intros Ha Hp. unfold sdscatrepr. simpl. rewrite <- app_assoc, token_repr_loop by done.
  by apply token_close.
Qed.

Lemma repr_no_nul a : wf_bytes a → 0 ∉ sdscatrepr [] a.
Proof.
  intros Ha. unfold sdscatrepr. simpl. rewrite not_elem_of_cons, not_elem_of_app. split; [done|].
  split; [|by rewrite not_elem_of_cons; split; [|apply not_elem_of_nil]].
  induction Ha as [|c a Hc Ha IH]; simpl; [apply not_elem_of_nil|]. rewrite not_elem_of_app. split; [|done].
  assert (forallb (λ x, negb (x =? 0)) (repr_char c) = true) as H.
  { revert c Hc. apply byte_enum. vm_compute. reflexivity. }
  intros Hin. rewrite forallb_forall in H. apply list_elem_of_In in Hin. by apply H in Hin.
Qed.

Lemma c_string_id l : 0 ∉ l → c_string l = l.
Proof.
  induction l as [|c l IH]; [done|]. intros [Hc Hl]%not_elem_of_cons. simpl.
  case_if; [done|]. by rewrite IH.
Qed.

Lemma join_cons a args sep :
  sdsjoinsds (a :: args) sep = a ++ (if args is [] then [] else sep ++ sdsjoinsds args sep).
Proof. destruct args; simpl; [by rewrite app_nil_r|done]. Qed.

Lemma splitargs_S fuel p v :
  splitargs_loop (S fuel) p v =
  match skip_blanks p with
  | [] => Some v
  | p => '(current, p) ← get_token p false false []; splitargs_loop fuel p (v ++ [current])
  end.
Proof. done. Qed.

Lemma splitargs_token fuel p v :
  skip_blanks p = p → p ≠ [] →
  splitargs_loop (S fuel) p v
  = '(current, p) ← get_token p false false []; splitargs_loop fuel p (v ++ [current]).
Proof. intros Hp Hn. simpl. rewrite Hp. by destruct p. Qed.

Lemma splitargs_quoted args v fuel :
  Forall wf_bytes args → (length args < fuel)%nat →
  splitargs_loop fuel (sdsjoinsds (sdscatrepr [] <$> args) [SPACE]) v = Some (v ++ args).
Proof.
  intros Ha. revert v fuel. induction Ha as [|a args Ha Hs IH]; intros v fuel Hf.
  - destruct fuel; [lia|]. simpl. by rewrite app_nil_r.
  - destruct fuel as [|fuel]; [simpl in Hf; lia|]. rewrite fmap_cons, join_cons.
    set (rest := if _ is [] then _ else _).
    assert (glued rest = false) as Hg by (subst rest; by destruct args).
    rewrite splitargs_token by done. rewrite token_quoted by done. cbn [mbind option_bind].
    assert (splitargs_loop fuel rest (v ++ [a])
      = splitargs_loop fuel (sdsjoinsds (sdscatrepr [] <$> args) [SPACE]) (v ++ [a])) as ->.
    { subst rest. destruct args; [done|]. by destruct fuel. }
    rewrite IH by (simpl in Hf; lia). by rewrite <- app_assoc.
Qed.

Lemma join_length args sep :
  sep ≠ [] → Forall (λ a, a ≠ []) args → (length args <= length (sdsjoinsds args sep))%nat.
Proof.
  intros Hs. induction 1 as [|a args Ha _ IH]; [done|]. rewrite join_cons, length_app.
  destruct a; [done|]. destruct args; simpl in *; [lia|]. rewrite length_app. lia.
Qed.

Lemma sdssplitargs_joined args : Forall wf_bytes args →
  sdssplitargs (sdsjoinsds (sdscatrepr [] <$> args) [SPACE]) = Some args.
Proof.
  intros Ha. unfold sdssplitargs. rewrite c_string_id.
  - apply splitargs_quoted; [done|].
    assert (length (sdscatrepr [] <$> args) <= length (sdsjoinsds (sdscatrepr [] <$> args) [SPACE]))%nat.
    { apply join_length; [done|]. apply list.Forall_forall. intros x (a & -> & _)%list_elem_of_fmap. done. }
    rewrite length_fmap in *. lia.
  - induction Ha as [|a args Ha Hs IH]; [apply not_elem_of_nil|].
    rewrite fmap_cons, join_cons, not_elem_of_app. split; [by apply repr_no_nul|].
    destruct args; [apply not_elem_of_nil|]. simpl fmap. rewrite not_elem_of_app. split; [|done].
    rewrite not_elem_of_cons. split; [done|apply not_elem_of_nil].
Qed.

(** (C27) Quoting a list of arbitrary byte strings with [sdscatrepr], joining
    them with spaces and splitting the line with [sdssplitargs] gives the list back: every byte, null
    bytes and quotes included, survives. *)
Theorem sdssplitargs_sdscatrepr args :
  Forall wf_bytes args →
  sdssplitargs (sdsjoinsds (sdscatrepr [] <$> args) [SPACE]) = Some args.
Proof. apply sdssplitargs_joined. Qed.

(** ** Strings that need no quoting *)

(** [sdsneedsrepr] returns 0 on a non-empty string without single quotes
    only when [sdssplitargs] reads the string back as one argument. *)
Theorem sdsneedsrepr_correct s :
  s ≠ [] → 0 ∉ s → SQUOTE ∉ s → sdsneedsrepr s = false → sdssplitargs s = Some [s].
Proof.
  intros Hne H0 Hq Hr. unfold sdssplitargs. rewrite c_string_id by done.
  assert (∀ l cur, SQUOTE ∉ l → sdsneedsrepr l = false →
    get_token l false false cur = Some (cur ++ l, [])) as Htok.
  { induction l as [|c l IH]; intros cur Hl Hn; [by rewrite app_nil_r|].
    apply not_elem_of_cons in Hl as [Hc Hl]. simpl in Hn |- *.
    destruct (_ || isspace c) eqn:E in Hn; [done|]. rewrite !orb_false_iff in E.
    destruct E as [[[[[[[[E1 E2] E3] E4] E5] E6] E7] E8] E9].
    assert ((c =? SPACE) = false) as ->.
    { unfold isspace in E9. apply orb_false_iff in E9 as [_ E9]. exact E9. }
    rewrite E3, E4, E5, E2. simpl. destruct (c =? SQUOTE) eqn:Es; [zb; by subst|].
    rewrite IH by done. by rewrite <- app_assoc. }
  rewrite splitargs_token; [|..|done].
  - rewrite Htok by done. by destruct s.
  - destruct s as [|c s]; [done|]. simpl in Hr |- *.
    destruct (isspace c) eqn:E; [|done]. by rewrite orb_true_r in Hr.
Qed.

(** A single quote is not reported although the reader treats it as the start of a quoted argument. *)
Lemma sdsneedsrepr_squote : sdsneedsrepr [SQUOTE] = false ∧ sdssplitargs [SQUOTE] = None.
Proof. by vm_compute. Qed.

(** ** Termination of the reader *)

Lemma get_token_shorter p inq insq cur cur' p' :
  get_token p inq insq cur = Some (cur', p') →
  (length p' <= length p)%nat ∧ (p ≠ [] → length p' < length p)%nat.
Proof.
  remember (length p) as n eqn:Hn. revert p Hn inq insq cur.
  induction (lt_wf n) as [n _ IH]. intros p Hn inq insq cur.
  assert (∀ (q : list Z) inq insq cur, (length q < n)%nat →
    get_token q inq insq cur = Some (cur', p') → (length p' < n)%nat) as Hrec.
  { intros q i1 i2 c1 Hl Hg. destruct (IH (length q) Hl q eq_refl i1 i2 c1 Hg). lia. }
  destruct p as [|c p1]; simpl in Hn |- *.
  - case_if; [done|]. intros [= <- <-]. subst. split; [simpl; lia|done].
  - subst n. intros Hg. assert (length p' < S (length p1))%nat; [|lia].
    revert Hg. destruct p1 as [|x [|a [|b p4]]]; cbv match beta zeta.
    all: repeat match goal with |- (if ?b then _ else _) = Some _ → _ => destruct b end.
    all: first [done | intros [= <- <-]; simpl; lia | intros Hg; eapply Hrec; [|exact Hg]; simpl; lia].
Qed.

Lemma skip_blanks_length p : (length (skip_blanks p) <= length p)%nat.
Proof. induction p as [|c p IH]; simpl; [done|]. case_if; simpl; lia. Qed.

(** The loop of [sdssplitargs] ends: any fuel above the length of the line gives
    the same result. *)
Lemma splitargs_loop_fuel f1 f2 p v :
  (length p < f1)%nat → (length p < f2)%nat → splitargs_loop f1 p v = splitargs_loop f2 p v.
Proof.
  revert f2 p v. induction f1 as [|f1 IH]; intros f2 p v H1 H2; [lia|]. destruct f2 as [|f2]; [lia|].
  rewrite !splitargs_S. pose proof (skip_blanks_length p) as Hs.
  destruct (skip_blanks p) as [|c q] eqn:E; [done|]. cbv match.
  destruct (get_token (c :: q) false false []) as [[cur p']|] eqn:Eg; [|done].
  apply get_token_shorter in Eg as [_ Hlt]. specialize (Hlt ltac:(done)).
  apply IH; simpl in *; lia.
Qed.

(** ** Splitting and joining are inverse *)

Lemma starts_with_app sep s : starts_with sep s = true ↔ ∃ r, s = sep ++ r.
Proof.
  revert s. induction sep as [|x sep IH]; intros s; simpl; [split; eauto|].
  destruct s as [|y s]; [split; [done|by intros (r & ?)]|].
  rewrite andb_true_iff, Z.eqb_eq, IH. split.
  - intros [-> (r & ->)]. by exists r.
  - intros (r & [= -> ->]). eauto.
Qed.

(** The separator occurs in [l] nowhere. *)
Definition free (sep l : list Z) : Prop := ∀ a r, l ≠ a ++ sep ++ r.

(** The tokens of a split: [sep] does not occur in the last one, and in the
    others followed by [sep] it occurs at the end only. *)
Fixpoint tokens_ok (sep : list Z) (toks : list (list Z)) : Prop :=
  match toks with
  | [] => False
  | [t] => free sep t
  | t :: toks => (∀ a r, t ++ sep = a ++ sep ++ r → r = []) ∧ tokens_ok sep toks
  end.

Lemma starts_with_prefix sep s r :
  (length sep <= length s)%nat → starts_with sep (s ++ r) = starts_with sep s.
Proof.
  revert s. induction sep as [|x sep IH]; intros [|y s]; simpl; try done; [lia|].
  intros. rewrite IH by lia. done.
Qed.

(** What the scan knows of the token [t] it is in and the tokens after it. *)
Definition scan_ok (sep t : list Z) (toks : list (list Z)) : Prop :=
  match toks with
  | [] => free sep t
  | _ => (∀ a r, t ++ sep = a ++ sep ++ r → r = []) ∧ tokens_ok sep toks
  end.

Definition after (sep : list Z) (toks : list (list Z)) : list Z :=
  if toks is [] then [] else sep ++ sdsjoinsds toks sep.

Lemma scan_no_match sep toks cur c rest :
  scan_ok sep (cur ++ c :: rest) toks → starts_with sep (c :: rest ++ after sep toks) = false.
Proof.
  intros Hok. apply not_true_is_false. intros Hs. change (c :: rest ++ after sep toks) with
    ((c :: rest) ++ after sep toks) in Hs. destruct toks as [|t toks]; simpl in Hok.
  - rewrite app_nil_r in Hs. apply starts_with_app in Hs as (r & E).
    apply (Hok cur r). by rewrite E.
  - destruct Hok as [Hok _]. unfold after in Hs. rewrite app_assoc, starts_with_prefix in Hs.
    2: { rewrite length_app. lia. }
    apply starts_with_app in Hs as (r & E). rewrite <- app_assoc in Hok.
    assert (r = []) as -> by (apply (Hok cur); by rewrite E).
    apply (f_equal length) in E. rewrite !length_app in E. simpl in E. lia.
Qed.

Lemma split_loop_complete sep fuel toks cur rest :
  sep ≠ [] → scan_ok sep (cur ++ rest) toks → (length (rest ++ after sep toks) < fuel)%nat →
  split_loop fuel sep cur (rest ++ after sep toks) = (cur ++ rest) :: toks.
Proof.
  intros Hsep. revert toks cur rest. induction fuel as [|fuel IH]; intros toks cur rest Hok Hf; [lia|].
  cbn [split_loop]. destruct rest as [|c rest].
  - destruct toks as [|t toks].
    + simpl. rewrite app_nil_r. case_if; [done|]. rewrite zlen_nil in *.
      assert (zlen sep = 0) as ->%zlen_0_nil by (pose proof (zlen_nonneg sep); lia). done.
    + rewrite app_nil_l, app_nil_r in *. destruct Hok as [_ Htok]. unfold after in *.
      set (j := sdsjoinsds (t :: toks) sep) in *.
      assert ((zlen (sep ++ j) <? zlen sep) = false) as ->.
      { zb. rewrite zlen_app. pose proof (zlen_nonneg j). lia. }
      assert (starts_with sep (sep ++ j) = true) as -> by (apply starts_with_app; eauto).
      rewrite drop_app_length. f_equal.
      assert (length j < fuel)%nat.
      { rewrite length_app in Hf. destruct sep; [done|]. simpl in Hf. lia. }
      assert (j = t ++ after sep toks) as Ej by (subst j; apply join_cons).
      rewrite Ej in *. apply (IH toks [] t); [|done]. by destruct toks.
  - destruct (zlen ((c :: rest) ++ after sep toks) <? zlen sep) eqn:E; zb.
    + destruct toks as [|t toks].
      * simpl. by rewrite app_nil_r.
      * exfalso. unfold after in E. rewrite !zlen_app in E.
        pose proof (zlen_nonneg (c :: rest)). pose proof (zlen_nonneg (sdsjoinsds (t :: toks) sep)). lia.
    + simpl app. rewrite (scan_no_match sep toks cur) by done.
      rewrite IH; [by rewrite <- app_assoc|by rewrite <- app_assoc|simpl in Hf; lia].
Qed.

(** No occurrence of [sep] starts in [cur]. *)
Definition passed (sep cur s : list Z) : Prop :=
  ∀ a r, cur ++ s = a ++ sep ++ r → (length cur <= length a)%nat.

Lemma split_loop_sound sep fuel cur s :
  sep ≠ [] → (length s < fuel)%nat → passed sep cur s →
  ∃ t toks, split_loop fuel sep cur s = t :: toks ∧ cur ++ s = t ++ after sep toks ∧ scan_ok sep t toks.
Proof.
  intros Hsep. revert cur s. induction fuel as [|fuel IH]; intros cur s Hf Hc; [lia|].
  cbn [split_loop]. destruct (zlen s <? zlen sep) eqn:E; zb.
  { exists (cur ++ s), []. split; [done|]. split; [by rewrite app_nil_r|]. intros a r Ea.
    pose proof (Hc a r Ea). apply (f_equal zlen) in Ea. rewrite !zlen_app in Ea.
    pose proof (zlen_nonneg r). unfold zlen in *. lia. }
  destruct (starts_with sep s) eqn:Hs.
  - apply starts_with_app in Hs as (r & ->). rewrite drop_app_length.
    destruct (IH [] r) as (t & toks & -> & Ej & Hok).
    { rewrite length_app in Hf. destruct sep; [done|]. simpl in Hf. lia. }
    { intros a r' _. simpl. lia. }
    exists cur, (t :: toks). split; [done|]. split.
    { unfold after. rewrite join_cons. simpl in Ej. rewrite Ej. by destruct toks. }
    split; [|by destruct toks]. intros a r' Ea.
    assert (length cur <= length a)%nat as Hl.
    { apply (Hc a (r' ++ r)). by rewrite app_assoc, Ea, <- !app_assoc. }
    apply (f_equal length) in Ea. rewrite !length_app in Ea. apply nil_length_inv. lia.
  - destruct s as [|c s].
    { exfalso. rewrite zlen_nil in E. apply Hsep, zlen_0_nil. pose proof (zlen_nonneg sep). lia. }
    destruct (IH (cur ++ [c]) s) as (t & toks & -> & Ej & Hok); [simpl in Hf; lia| |].
    { intros a r Ea. rewrite <- app_assoc in Ea. pose proof (Hc a r Ea) as Hl.
      rewrite length_app. simpl. assert (length cur ≠ length a) as Hne; [|lia].
      intros Hl'. apply app_inj_1 in Ea as [-> Er]; [|done].
      assert (starts_with sep ([c] ++ s) = true) as Ht by (apply starts_with_app; eauto).
      simpl app in Ht. congruence. }
    exists t, toks. split; [done|]. split; [by rewrite <- app_assoc in Ej|done].
Qed.

(** [sdssplitlen] returns the one list of tokens that joins back to the input
    and whose separators are found leftmost first; it fails exactly on an
    empty input or separator. *)
Theorem sdssplitlen_correct s sep toks :
  sdssplitlen s sep = Some toks ↔
  s ≠ [] ∧ sep ≠ [] ∧ tokens_ok sep toks ∧ sdsjoinsds toks sep = s.
Proof.
  unfold sdssplitlen. assert (∀ l : list Z, (zlen l < 1 ↔ l = []) ∧ (zlen l <= 0 ↔ l = [])) as Hz.
  { intros l. pose proof (zlen_nonneg l). split; (split; [intros; apply zlen_0_nil; lia|by intros ->]). }
  assert (∀ t toks, scan_ok sep t toks = tokens_ok sep (t :: toks)) as Hk by (by intros t []).
  assert (∀ t toks, sdsjoinsds (t :: toks) sep = t ++ after sep toks) as Hj
    by (intros; unfold after; by rewrite join_cons).
  destruct (_ || _) eqn:Hb.
  - split; [done|]. intros (Hs & Hp & _).
    apply orb_true_iff in Hb as [Hb|Hb]; zb; apply Hz in Hb; done.
  - apply orb_false_iff in Hb as [H1 H2]. zb.
    assert (sep ≠ []) by (intros ?%Hz; lia). assert (s ≠ []) by (intros ?%Hz; lia).
    split.
    + intros Ht. apply (inj Some) in Ht as <-.
      destruct (split_loop_sound sep (S (length s)) [] s) as (t & ts & Et & E & Hok);
        [done|lia|intros ???; simpl; lia|].
      rewrite Et, Hj. rewrite Hk in Hok. done.
    + intros (_ & _ & Hok & <-). destruct toks as [|t toks]; [done|]. rewrite <- Hk in Hok. f_equal.
      rewrite Hj. by apply (split_loop_complete sep _ toks [] t); [|..|lia].
Qed.

(** ** Comparison *)

(** Lexicographic order on byte strings. *)
Fixpoint lex (a b : list Z) : Z :=
  match a, b with
  | [], [] => 0
  | [], _ => -1
  | _, [] => 1
  | x :: a, y :: b => if x <? y then -1 else if y <? x then 1 else lex a b
  end.

Lemma sdscmp_cons x y a b :
  sdscmp (x :: a) (y :: b) = if x =? y then sdscmp a b else if x <? y then -1 else 1.
Proof.
  unfold sdscmp. rewrite !zlen_cons. pose proof (zlen_nonneg a). pose proof (zlen_nonneg b).
  assert ((if 1 + zlen a <? 1 + zlen b then 1 + zlen a else 1 + zlen b)
    = 1 + (if zlen a <? zlen b then zlen a else zlen b)) as -> by (repeat case_if; lia).
  set (m := if zlen a <? zlen b then zlen a else zlen b).
  assert (0 <= m) by (subst m; case_if; lia).
  rewrite (Z2Nat.inj_add 1 m) by lia. change (Z.to_nat 1 + Z.to_nat m)%nat with (S (Z.to_nat m)).
  simpl take. simpl memcmp. destruct (x =? y) eqn:E; [|by repeat case_if].
  case_if; [|done]. repeat case_if; lia.
Qed.

(** [sdscmp] is the lexicographic order; in particular it is 0 for equal strings only. *)
Theorem sdscmp_correct a b : sdscmp a b = lex a b ∧ (sdscmp a b = 0 ↔ a = b).
Proof.
  assert (sdscmp a b = lex a b) as E.
  { revert b. induction a as [|x a IH]; intros [|y b]; [done|..].
    - unfold sdscmp. rewrite zlen_cons, zlen_nil. pose proof (zlen_nonneg b).
      rewrite (proj2 (Z.ltb_lt 0 (1 + zlen b))), (proj2 (Z.ltb_ge (1 + zlen b) 0)) by lia. done.
    - unfold sdscmp. rewrite zlen_cons, zlen_nil. pose proof (zlen_nonneg a).
      rewrite (proj2 (Z.ltb_lt 0 (1 + zlen a))), (proj2 (Z.ltb_ge (1 + zlen a) 0)) by lia. done.
    - rewrite sdscmp_cons, IH. simpl. repeat case_if; lia || done. }
  split; [done|]. rewrite E. clear E. revert b. induction a as [|x a IH]; intros [|y b]; simpl; try (split; congruence).
  destruct (x <? y) eqn:E1; zb; [split; [done|intros [= ->]; lia]|].
  destruct (y <? x) eqn:E2; zb; [split; [done|intros [= ->]; lia]|].
  assert (x = y) as -> by lia. rewrite IH. split; [by intros ->|by intros [= ->]].
Qed.

(** ** Concrete instances *)

Lemma sdssplitlen_witness :
  sdssplitlen (bytes_of_string "foo_-_bar") (bytes_of_string "_-_")
  = Some [bytes_of_string "foo"; bytes_of_string "bar"].
Proof. vm_compute. reflexivity. Qed.

Lemma sdssplitargs_sdscatrepr_witness :
  Forall wf_bytes [[0; 34; 39]; []; [92; 255; 10]] ∧
  sdssplitargs (sdsjoinsds (sdscatrepr [] <$> [[0; 34; 39]; []; [92; 255; 10]]) [SPACE])
  = Some [[0; 34; 39]; []; [92; 255; 10]].
Proof.
  assert (Forall wf_bytes [[0; 34; 39]; []; [92; 255; 10]]) as H.
  { repeat (apply list.Forall_cons; split; [apply wf_bytesb_spec; vm_compute; reflexivity|]). apply list.Forall_nil_2. }
  split; [exact H|]. exact (sdssplitargs_sdscatrepr _ H).
Defined.

Lemma sdsneedsrepr_witness :
  sdsneedsrepr (bytes_of_string "user:1") = false ∧
  sdssplitargs (bytes_of_string "user:1") = Some [bytes_of_string "user:1"].
Proof.
  split; [vm_compute; reflexivity|].
  assert (bytes_of_string "user:1" ≠ []) as H1 by (vm_compute; discriminate).
  assert (0 ∉ bytes_of_string "user:1") as H2 by (apply (bool_decide_unpack _); vm_compute; exact I).
  assert (SQUOTE ∉ bytes_of_string "user:1") as H3 by (apply (bool_decide_unpack _); vm_compute; exact I).
  exact (sdsneedsrepr_correct _ H1 H2 H3 eq_refl).
Defined.

End SdsText.
