(* ===== verification/Networking.v ===== *)
(** * The request parser ([src/redis-stable/src/networking.c])

    A client accumulates bytes in its query buffer; [processInputBuffer]
    turns them into commands.  A request is an array of length-prefixed
    strings ([processMultibulkBuffer]) or a line ([processInlineBuffer]).  The multibulk parser is
    incremental: the number of arguments left and the length of the current
    one are kept in the client, so that a call can stop wherever the buffer
    ends and the next call goes on from there.

    [None] stands for a failed [serverAssert], a read outside the query buffer
    or a store outside the [argv] array. *)

From Stdlib Require Import String.
From S2P Require Import Prelude Util SdsProofs SdsText.

Module Networking.
Import Util SdsProofs SdsText.

Definition PROTO_INLINE_MAX_SIZE : Z := 1024 * 64.
Definition PROTO_MBULK_BIG_ARG : Z := 1024 * 32.
Definition INT_MAX : Z := INT32_MAX.

Definition STAR : Z := 42.
Definition DOLLAR : Z := 36.

Inductive read_error_code :=
  | CLIENT_READ_TOO_BIG_INLINE_REQUEST
  | CLIENT_READ_UNBALANCED_QUOTES
  | CLIENT_READ_MASTER_USING_INLINE_PROTOCAL
  | CLIENT_READ_TOO_BIG_MBULK_COUNT_STRING
  | CLIENT_READ_TOO_BIG_BUCK_COUNT_STRING
  | CLIENT_READ_EXPECTED_DOLLAR
  | CLIENT_READ_INVALID_BUCK_LENGTH
  | CLIENT_READ_UNAUTH_BUCK_LENGTH
  | CLIENT_READ_INVALID_MULTIBUCK_LENGTH
  | CLIENT_READ_UNAUTH_MBUCK_COUNT
  | CLIENT_READ_CONN_CLOSED
  | CLIENT_READ_REACHED_MAX_QUERYBUF.

Inductive req_type := REQ_UNKNOWN | PROTO_REQ_INLINE | PROTO_REQ_MULTIBULK.

(** The fields of [struct client] the parser uses.  [argv] lists the [argc]
    arguments stored so far in an array of [argv_len] entries; [is_master] is
    the flag CLIENT_MASTER and [auth_required] the value of
    [authRequired(c)].  A query buffer is the contents of an sds, followed by
    a null byte the list does not show. *)
Record client := mkClient {
  querybuf : list Z;
  qb_pos : Z;
  querybuf_peak : Z;
  argv : list (list Z);
  argv_len : Z;
  argv_len_sum : Z;
  multibulklen : Z;
  bulklen : Z;
  reqtype : req_type;
  read_error : option read_error_code;
  is_master : bool;
  auth_required : bool;
}.

Definition argc (c : client) : Z := zlen (argv c).

Definition set_querybuf (c : client) (b : list Z) (pos : Z) : client :=
  mkClient b pos (querybuf_peak c) (argv c) (argv_len c) (argv_len_sum c) (multibulklen c)
    (bulklen c) (reqtype c) (read_error c) (is_master c) (auth_required c).
Definition set_qb_pos (c : client) (pos : Z) : client := set_querybuf c (querybuf c) pos.
Definition set_peak (c : client) (v : Z) : client :=
  mkClient (querybuf c) (qb_pos c) v (argv c) (argv_len c) (argv_len_sum c) (multibulklen c)
    (bulklen c) (reqtype c) (read_error c) (is_master c) (auth_required c).
Definition set_argv (c : client) (v : list (list Z)) (len sum : Z) : client :=
  mkClient (querybuf c) (qb_pos c) (querybuf_peak c) v len sum (multibulklen c)
    (bulklen c) (reqtype c) (read_error c) (is_master c) (auth_required c).
Definition set_lens (c : client) (mbl bl : Z) : client :=
  mkClient (querybuf c) (qb_pos c) (querybuf_peak c) (argv c) (argv_len c) (argv_len_sum c) mbl
    bl (reqtype c) (read_error c) (is_master c) (auth_required c).
Definition set_reqtype (c : client) (t : req_type) : client :=
  mkClient (querybuf c) (qb_pos c) (querybuf_peak c) (argv c) (argv_len c) (argv_len_sum c)
    (multibulklen c) (bulklen c) t (read_error c) (is_master c) (auth_required c).
Definition set_error (c : client) (e : read_error_code) : client :=
  mkClient (querybuf c) (qb_pos c) (querybuf_peak c) (argv c) (argv_len c) (argv_len_sum c)
    (multibulklen c) (bulklen c) (reqtype c) (Some e) (is_master c) (auth_required c).

Inductive retval := C_OK | C_ERR.

(** [strchr(p, ch) - p] for a string [p] and [ch] not null. *)
Fixpoint strchr_off (p : list Z) (ch : Z) : option Z :=
  match p with
  | [] => None
  | x :: p => if x =? ch then Some 0 else if x =? 0 then None else k ← strchr_off p ch; Some (1 + k)
  end.

(** The bytes from [qb_pos] on; the position must not be past the terminator. *)
Definition unread (c : client) : option (list Z) :=
  if (0 <=? qb_pos c) && (qb_pos c <=? zlen (querybuf c))
  then Some (drop (Z.to_nat (qb_pos c)) (querybuf c)) else None.

(** [c->querybuf[c->qb_pos]]: the terminator when the buffer is exhausted. *)
Definition current_byte (c : client) : option Z := p ← unread c; Some (default 0 (head p)).

Definition guard (b : bool) : option unit := if b then Some tt else None.

Section Parser.
(** [server.proto_max_bulk_len] *)
Variable proto_max_bulk_len : Z.

(** [newline-(c->querybuf+c->qb_pos) > (ssize_t)(querybuf_len-c->qb_pos-2)] *)
Definition no_linefeed (k querybuf_len qb_pos : Z) : bool :=
  swrap 64 (uwrap 64 (querybuf_len - qb_pos - 2)) <? k.

(** One half of an iteration of the bulk loop: leave it, return an error, or go
    on with the client and the cached length of its buffer. *)
Inductive step := Break (c : client) | Error (c : client) | Next (c : client) (querybuf_len : Z).

(** A big argument is moved to the start of the buffer ([sdsrange]), which is
    then enlarged for it ([sdsMakeRoomForNonGreedy], which keeps the contents). *)
Definition trim_big_arg (c : client) (querybuf_len ll : Z) : client * Z :=
  if negb (is_master c) && (PROTO_MBULK_BIG_ARG <=? ll) then
    if uwrap 64 (querybuf_len - qb_pos c) <=? ll + 2 then
      let c := set_querybuf c (range (querybuf c) (qb_pos c) (-1)) 0 in
      let c := if querybuf_peak c <? ll + 2 then set_peak c (ll + 2) else c in
      (c, zlen (querybuf c))
    else (c, querybuf_len)
  else (c, querybuf_len).

(** [if (c->bulklen == -1) { ... }] *)
Definition find_bulklen (c : client) (querybuf_len : Z) : option step :=
  p ← unread c;
  match strchr_off p CR with
  | None =>
      if PROTO_INLINE_MAX_SIZE <? querybuf_len - qb_pos c
      then Some (Error (set_error c CLIENT_READ_TOO_BIG_BUCK_COUNT_STRING))
      else Some (Break c)
  | Some k =>
      if no_linefeed k querybuf_len (qb_pos c) then Some (Break c)
      else
        ch ← current_byte c;
        if negb (ch =? DOLLAR) then Some (Error (set_error c CLIENT_READ_EXPECTED_DOLLAR))
        else
          s ← rd (qb_pos c + 1) (k - 1) (querybuf c);
          match string2ll s with
          | None => Some (Error (set_error c CLIENT_READ_INVALID_BUCK_LENGTH))
          | Some ll =>
              if (ll <? 0) || (negb (is_master c) && (proto_max_bulk_len <? ll))
              then Some (Error (set_error c CLIENT_READ_INVALID_BUCK_LENGTH))
              else if (16384 <? ll) && auth_required c
              then Some (Error (set_error c CLIENT_READ_UNAUTH_BUCK_LENGTH))
              else
                let c := set_qb_pos c (qb_pos c + k + 2) in
                let '(c, querybuf_len) := trim_big_arg c querybuf_len ll in
                Some (Next (set_lens c (multibulklen c) ll) querybuf_len)
          end
  end.

(** [c->argv[c->argc++] = v; c->argv_len_sum += c->bulklen] *)
Definition push_arg (c : client) (v : list Z) : option client :=
  _ ← guard (argc c <? argv_len c);
  Some (set_argv c (argv c ++ [v]) (argv_len c) (argv_len_sum c + bulklen c)).

(** [/* Read bulk argument */] *)
Definition read_bulk (c : client) (querybuf_len : Z) : option step :=
  if uwrap 64 (querybuf_len - qb_pos c) <? uwrap 64 (bulklen c + 2) then Some (Break c)
  else
    c ← (if argv_len c <=? argc c then
           _ ← guard (negb (argv_len c =? 0));
           let doubled := if argv_len c <? INT_MAX / 2 then argv_len c * 2 else INT_MAX in
           Some (set_argv c (argv c) (Z.min doubled (argc c + multibulklen c)) (argv_len_sum c))
         else Some c);
    '(c, querybuf_len) ←
      (if negb (is_master c) && (qb_pos c =? 0) && (PROTO_MBULK_BIG_ARG <=? bulklen c)
          && (querybuf_len =? bulklen c + 2) then
         (* the buffer itself becomes the argument, less its last two bytes *)
         c ← push_arg c (take (length (querybuf c) - 2) (querybuf c));
         let c := set_querybuf c [] (qb_pos c) in
         Some (c, 0)
       else
         v ← rd (qb_pos c) (bulklen c) (querybuf c);
         c ← push_arg c v;
         Some (set_qb_pos c (qb_pos c + bulklen c + 2), querybuf_len));
    Some (Next (set_lens c (multibulklen c - 1) (-1)) querybuf_len).

(** [while(c->multibulklen) { ... }] and the return after it; [fuel] bounds
    the number of iterations by [multibulklen]. *)
Fixpoint bulk_loop (fuel : nat) (c : client) (querybuf_len : Z) : option (client * retval) :=
  if multibulklen c =? 0 then Some (c, C_OK)
  else
    match fuel with
    | O => None
    | S fuel =>
        st ← (if bulklen c =? -1 then find_bulklen c querybuf_len else Some (Next c querybuf_len));
        match st with
        | Break c => Some (c, if multibulklen c =? 0 then C_OK else C_ERR)
        | Error c => Some (c, C_ERR)
        | Next c querybuf_len =>
            st ← read_bulk c querybuf_len;
            match st with
            | Break c => Some (c, if multibulklen c =? 0 then C_OK else C_ERR)
            | Error c => Some (c, C_ERR)
            | Next c querybuf_len => bulk_loop fuel c querybuf_len
            end
        end
    end.

(** [if (c->multibulklen == 0) { ... }]: the array header.  [inl]: the function
    returns; [inr]: it goes on to the arguments. *)
Definition read_multibulklen (c : client) (querybuf_len : Z) : option (client * retval + client) :=
  _ ← guard (argc c =? 0);
  p ← unread c;
  match strchr_off p CR with
  | None =>
      if PROTO_INLINE_MAX_SIZE <? querybuf_len - qb_pos c
      then Some (inl (set_error c CLIENT_READ_TOO_BIG_MBULK_COUNT_STRING, C_ERR))
      else Some (inl (c, C_ERR))
  | Some k =>
      if no_linefeed k querybuf_len (qb_pos c) then Some (inl (c, C_ERR))
      else
        ch ← current_byte c;
        _ ← guard (ch =? STAR);
        s ← rd (1 + qb_pos c) (k - 1) (querybuf c);
        match string2ll s with
        | None => Some (inl (set_error c CLIENT_READ_INVALID_MULTIBUCK_LENGTH, C_ERR))
        | Some ll =>
            if INT_MAX <? ll
            then Some (inl (set_error c CLIENT_READ_INVALID_MULTIBUCK_LENGTH, C_ERR))
            else if (10 <? ll) && auth_required c
            then Some (inl (set_error c CLIENT_READ_UNAUTH_MBUCK_COUNT, C_ERR))
            else
              let c := set_qb_pos c (qb_pos c + k + 2) in
              if ll <=? 0 then Some (inl (c, C_OK))
              else
                let c := set_lens c ll (bulklen c) in
                let len :=
                  if (argv_len c <? multibulklen c) || (1024 <? argv_len c)
                  then Z.min (multibulklen c) 1024 else argv_len c in
                Some (inr (set_argv c (argv c) len 0))
        end
  end.

Definition processMultibulkBuffer (c : client) : option (client * retval) :=
  let querybuf_len := zlen (querybuf c) in
  r ← (if multibulklen c =? 0 then read_multibulklen c querybuf_len else Some (inr c));
  match r with
  | inl res => Some res
  | inr c =>
      _ ← guard (0 <? multibulklen c);
      bulk_loop (Z.to_nat (multibulklen c)) c querybuf_len
  end.

(** The copy of [argv] into the client, an entry at a time. *)
Fixpoint store_args (c : client) (args : list (list Z)) : option client :=
  match args with
  | [] => Some c
  | a :: args =>
      _ ← guard (argc c <? argv_len c);
      store_args (set_argv c (argv c ++ [a]) (argv_len c) (argv_len_sum c + zlen a)) args
  end.

(** The acknowledgement time of a replica that sends an empty line is not
    part of the state. *)
Definition processInlineBuffer (c : client) : option (client * retval) :=
  p ← unread c;
  match strchr_off p LF with
  | None =>
      if PROTO_INLINE_MAX_SIZE <? zlen (querybuf c) - qb_pos c
      then Some (set_error c CLIENT_READ_TOO_BIG_INLINE_REQUEST, C_ERR)
      else Some (c, C_ERR)
  | Some k =>
      before ← (if negb (k =? 0) then byte_at (qb_pos c + k - 1) (querybuf c) else Some 0);
      let '(querylen, linefeed_chars) :=
        if negb (k =? 0) && (before =? CR) then (k - 1, 2) else (k, 1) in
      aux ← rd (qb_pos c) querylen (querybuf c);
      match sdssplitargs aux with
      | None => Some (set_error c CLIENT_READ_UNBALANCED_QUOTES, C_ERR)
      | Some args =>
          if negb (querylen =? 0) && is_master c
          then Some (set_error c CLIENT_READ_MASTER_USING_INLINE_PROTOCAL, C_ERR)
          else
            let c := set_qb_pos c (qb_pos c + querylen + linefeed_chars) in
            let n := zlen args in
            let c :=
              if negb (n =? 0) then
                set_argv c (argv c) (if argv_len c <? n then n else argv_len c) 0
              else c in
            c ← store_args (set_argv c [] (argv_len c) (argv_len_sum c)) args;
            Some (c, C_OK)
      end
  end.

Definition freeClientArgvInternal (c : client) (free_argv : bool) : client :=
  set_argv c [] (if free_argv then 0 else argv_len c) 0.

(** The part of [resetClientInternal] that concerns parsing. *)
Definition resetClientInternal (c : client) (free_argv : bool) : client :=
  set_lens (set_reqtype (freeClientArgvInternal c free_argv) REQ_UNKNOWN) 0 (-1).

(** [while(c->qb_pos < sdslen(c->querybuf)) { ... }], for a client that is not blocked, not being closed
    and served by the main thread.  A command is executed by adding
    its arguments to [executed]; [commandProcessed] then resets the client. *)
Fixpoint input_loop (fuel : nat) (c : client) (executed : list (list (list Z)))
    : option (client * list (list (list Z))) :=
  if negb (qb_pos c <? zlen (querybuf c)) then Some (c, executed)
  else
    match fuel with
    | O => None
    | S fuel =>
        c ← (match reqtype c with
             | REQ_UNKNOWN =>
                 ch ← current_byte c;
                 Some (set_reqtype c (if ch =? STAR then PROTO_REQ_MULTIBULK else PROTO_REQ_INLINE))
             | _ => Some c
             end);
        '(c, r) ← (match reqtype c with
                   | PROTO_REQ_INLINE => processInlineBuffer c
                   | PROTO_REQ_MULTIBULK => processMultibulkBuffer c
                   | REQ_UNKNOWN => None
                   end);
        match r with
        | C_ERR => Some (c, executed)
        | C_OK =>
            if argc c =? 0 then input_loop fuel (resetClientInternal c false) executed
            else input_loop fuel (resetClientInternal c false) (executed ++ [argv c])
        end
    end.

(** For clients other than masters, which trim their buffer with the
    replication offset instead. *)
Definition processInputBuffer (c : client) : option (client * list (list (list Z))) :=
  _ ← guard (negb (is_master c));
  '(c, executed) ← input_loop (length (querybuf c)) c [];
  let c := if negb (qb_pos c =? 0) then set_querybuf c (range (querybuf c) (qb_pos c) (-1)) 0 else c in
  Some (c, executed).

(** [sdsIncrLen(c->querybuf,nread)] after [connRead] has put the [nread] bytes
    [d] behind the contents, and the update of the peak. *)
Definition feed (c : client) (d : list Z) : client :=
  let c := set_querybuf c (querybuf c ++ d) (qb_pos c) in
  if querybuf_peak c <? zlen (querybuf c) then set_peak c (zlen (querybuf c)) else c.

(** [server.client_max_querybuf_len] *)
Variable client_max_querybuf_len : Z.

Definition over_querybuf_limit (c : client) : bool :=
  negb (is_master c) &&
  ((client_max_querybuf_len <? zlen (querybuf c)) ||
   ((1024 * 1024 <? zlen (querybuf c)) && auth_required c)).

(** [readQueryFromClient] from [connRead] on, for a read that returns the
    bytes [d] ([nread] of them) and a client that is not queueing commands for a
    transaction ([mstate.argv_len_sums] is 0).  An error closes the
    client. *)
Definition readQueryFromClient (c : client) (d : list Z) : option (client * list (list (list Z))) :=
  if zlen d =? 0 then Some (set_error c CLIENT_READ_CONN_CLOSED, [])
  else
    let c := feed c d in
    if over_querybuf_limit c then Some (set_error c CLIENT_READ_REACHED_MAX_QUERYBUF, [])
    else processInputBuffer c.

End Parser.

End Networking.
