(* ===== verification/NetworkingProofs.v ===== *)
(** * The request parser: refinement of a parser of byte sequences

    The abstract parser works on the unread bytes alone.  The parser of
    networking.c, with its buffer positions, trimming, big arguments and growing [argv], refines
    it; incrementality and the protocol's round trip are proved on the
    abstract parser. *)

From Stdlib Require Import String.
From S2P Require Import Prelude Util SdsProofs SdsText Networking.

Module NetworkingProofs.
Import Util SdsProofs SdsText Networking.

(** ** The abstract parser *)

Record view := mkView {
  rest : list Z;
  todo : Z;
  blen : Z;
  args : list (list Z);
}.

Definition view_of (c : client) : view :=
  mkView (drop (Z.to_nat (qb_pos c)) (querybuf c)) (multibulklen c) (bulklen c) (argv c).

Definition extend (v : view) (d : list Z) : view := mkView (rest v ++ d) (todo v) (blen v) (args v).

Inductive verdict := Done | More | Bad (e : read_error_code).

Section Abstract.
(** The limits: the length of an argument (none for a master) and whether
    the client still has to authenticate. *)
Variable max_bulk : option Z.
Variable auth : bool.

Inductive astep := ABreak | ABad (e : read_error_code) | ANext (v : view).

(** A line [ch<number>\r\n] at the front of the unread bytes. *)
Inductive line := LNone | LIncomplete | LBad | LNum (ch : Z) (n : option Z) (tl : list Z).

Definition read_line (p : list Z) : line :=
  match strchr_off p CR with
  | None => if PROTO_INLINE_MAX_SIZE <? zlen p then LBad else LNone
  | Some k =>
      if zlen p - 2 <? k then LIncomplete
      else LNum (default 0 (head p)) (string2ll (sub 1 (k - 1) p)) (drop (Z.to_nat (k + 2)) p)
  end.

Definition too_long (ll : Z) : bool := match max_bulk with Some m => m <? ll | None => false end.

Definition a_find (v : view) : astep :=
  match read_line (rest v) with
  | LBad => ABad CLIENT_READ_TOO_BIG_BUCK_COUNT_STRING
  | LNone | LIncomplete => ABreak
  | LNum ch n tl =>
      if negb (ch =? DOLLAR) then ABad CLIENT_READ_EXPECTED_DOLLAR
      else
        match n with
        | None => ABad CLIENT_READ_INVALID_BUCK_LENGTH
        | Some ll =>
            if (ll <? 0) || too_long ll then ABad CLIENT_READ_INVALID_BUCK_LENGTH
            else if (16384 <? ll) && auth then ABad CLIENT_READ_UNAUTH_BUCK_LENGTH
            else ANext (mkView tl (todo v) ll (args v))
        end
  end.

Definition a_read (v : view) : astep :=
  if zlen (rest v) <? blen v + 2 then ABreak
  else ANext (mkView (drop (Z.to_nat (blen v + 2)) (rest v)) (todo v - 1) (-1)
                     (args v ++ [take (Z.to_nat (blen v)) (rest v)])).

Fixpoint a_loop (fuel : nat) (v : view) : option (view * verdict) :=
  if todo v =? 0 then Some (v, Done)
  else
    match fuel with
    | O => None
    | S fuel =>
        match (if blen v =? -1 then a_find v else ANext v) with
        | ABreak => Some (v, More)
        | ABad e => Some (v, Bad e)
        | ANext v =>
            match a_read v with
            | ABreak => Some (v, More)
            | ABad e => Some (v, Bad e)
            | ANext v => a_loop fuel v
            end
        end
    end.

Definition a_parse (v : view) : option (view * verdict) :=
  if todo v =? 0 then
    match read_line (rest v) with
    | LBad => Some (v, Bad CLIENT_READ_TOO_BIG_MBULK_COUNT_STRING)
    | LNone | LIncomplete => Some (v, More)
    | LNum ch n tl =>
        match n with
        | None => Some (v, Bad CLIENT_READ_INVALID_MULTIBUCK_LENGTH)
        | Some ll =>
            if INT_MAX <? ll then Some (v, Bad CLIENT_READ_INVALID_MULTIBUCK_LENGTH)
            else if (10 <? ll) && auth then Some (v, Bad CLIENT_READ_UNAUTH_MBUCK_COUNT)
            else if ll <=? 0 then Some (mkView tl (todo v) (blen v) (args v), Done)
            else a_loop (Z.to_nat ll) (mkView tl ll (blen v) (args v))
        end
    end
  else a_loop (Z.to_nat (todo v)) v.

(** ** More input *)

Lemma strchr_off_app p ch d k : strchr_off p ch = Some k → strchr_off (p ++ d) ch = Some k.
Proof.
  revert k. induction p as [|x p IH]; intros k; [done|]. simpl. case_if; [done|]. case_if; [done|].
  destruct (strchr_off p ch) as [j|]; [|done]. simpl. intros [= <-]. by rewrite (IH j).
Qed.

Lemma strchr_off_bounds p ch k : strchr_off p ch = Some k → 0 <= k < zlen p.
Proof.
  revert k. induction p as [|x p IH]; intros k; [done|]. simpl. rewrite zlen_cons.
  pose proof (zlen_nonneg p). case_if; [intros [= <-]; lia|]. case_if; [done|].
  destruct (strchr_off p ch) as [j|]; [|done]. simpl. intros [= <-]. specialize (IH j eq_refl). lia.
Qed.

(** Without the character in [p], it is found later or hidden by a null byte. *)
Lemma strchr_off_none_app p ch d :
  strchr_off p ch = None → strchr_off (p ++ d) ch = None ∨ ∃ k, strchr_off (p ++ d) ch = Some k ∧ zlen p <= k.
Proof.
  induction p as [|x p IH]; intros H; simpl in *.
  - destruct (strchr_off d ch) as [k|] eqn:E; [|by left]. right. exists k. apply strchr_off_bounds in E.
    split; [done|]. rewrite zlen_nil. lia.
  - revert H. case_if; [done|]. case_if; [by left|]. destruct (strchr_off p ch) as [j|]; [done|].
    intros _. destruct (IH eq_refl) as [-> | (k & -> & Hk)]; [by left|]. right. exists (1 + k).
    rewrite zlen_cons. split; [done|lia].
Qed.

Lemma read_line_app p d ch n tl :
  read_line p = LNum ch n tl → read_line (p ++ d) = LNum ch n (tl ++ d).
Proof.
  unfold read_line. destruct (strchr_off p CR) as [k|] eqn:E; [|by case_if].
  rewrite (strchr_off_app _ _ d k) by done. apply strchr_off_bounds in E.
  case_if; [done|]. intros [= <- <- <-]. rewrite zlen_app. pose proof (zlen_nonneg d). case_if; [lia|].
  assert (default 0 (head (p ++ d)) = default 0 (head p)) as ->.
  { destruct p; [by rewrite zlen_nil in *; lia|done]. }
  f_equal.
  - f_equal. unfold sub. destruct p as [|x p]; [by rewrite zlen_nil in *; lia|].
    change (Z.to_nat 1) with 1%nat. simpl drop. rewrite !drop_0. rewrite zlen_cons in *.
    rewrite take_app_le by (unfold zlen in *; lia). done.
  - rewrite drop_app_le; [done|unfold zlen in *; lia].
Qed.

(** A line that is too long can still be completed, but its number cannot be valid. *)
Lemma read_line_bad p d :
  read_line p = LBad →
  match read_line (p ++ d) with LNum _ n _ => n = None | LNone => False | _ => True end.
Proof.
  unfold read_line. destruct (strchr_off p CR) as [k|] eqn:E; [by case_if|]. case_if; [|done]. intros _.
  pose proof (zlen_nonneg d).
  destruct (strchr_off_none_app p CR d E) as [-> | (k & Ek & Hk)].
  - rewrite zlen_app. case_if; [done|]. lia.
  - rewrite Ek. case_if; [done|]. unfold PROTO_INLINE_MAX_SIZE in *. unfold string2ll.
    rewrite zlen_sub by lia. unfold LONG_STR_SIZE. rewrite orb_true_intro; [done|].
    right. zb. lia.
Qed.

(** One step with more input: a step that was possible stays the same, one
    that failed does not succeed. *)
Definition stable (st st' : astep) (d : list Z) : Prop :=
  match st with
  | ANext v => st' = ANext (extend v d)
  | ABad _ => match st' with ANext _ => False | _ => True end
  | ABreak => True
  end.

Lemma a_find_app v d : stable (a_find v) (a_find (extend v d)) d.
Proof.
  unfold a_find. simpl rest. destruct (read_line (rest v)) as [| | |ch n tl] eqn:E; try done.
  - simpl. pose proof (read_line_bad _ d E) as Hb.
    destruct (read_line (rest v ++ d)) as [| | |ch n tl]; try done. subst n. by case_if.
  - rewrite (read_line_app _ d _ _ _ E). case_if; [done|]. destruct n as [ll|]; [|done].
    case_if; [done|]. by case_if.
Qed.

Lemma a_read_app v d : -1 <= blen v → stable (a_read v) (a_read (extend v d)) d.
Proof.
  intros Hb. unfold a_read. simpl. case_if; [done|]. rewrite zlen_app. pose proof (zlen_nonneg d).
  case_if; [lia|]. simpl. unfold extend. simpl. f_equal. f_equal.
  - rewrite drop_app_le; [done|unfold zlen in *; lia].
  - rewrite take_app_le; [done|unfold zlen in *; lia].
Qed.

(** The result with more input, from the result without it. *)
Definition continues (r r' : option (view * verdict)) (d : list Z) (again : view → option (view * verdict)) : Prop :=
  match r with
  | Some (v, Done) => r' = Some (extend v d, Done)
  | Some (v, More) => r' = again (extend v d)
  | Some (v, Bad _) => match r' with Some (_, Done) => False | _ => True end
  | None => True
  end.

Definition again (v : view) : option (view * verdict) := a_loop (Z.to_nat (todo v)) v.

Lemma a_find_blen v v' : a_find v = ANext v' → 0 <= blen v' ∧ todo v' = todo v.
Proof.
  unfold a_find. destruct (read_line (rest v)) as [| | |ch n tl]; try done. case_if; [done|].
  destruct n as [ll|]; [|done]. destruct ((ll <? 0) || too_long ll) eqn:E; [done|].
  apply orb_false_iff in E as [E _]. zb. case_if; [done|]. intros [= <-]. simpl. lia.
Qed.

Lemma a_loop_app fuel v d :
  -1 <= blen v → todo v = Z.of_nat fuel →
  continues (a_loop fuel v) (a_loop fuel (extend v d)) d again.
Proof.
  revert v. induction fuel as [|fuel IH]; intros v Hb Ht.
  { simpl. case_if; [done|lia]. }
  cbn [a_loop]. simpl todo. case_if; [done|]. simpl blen.
  set (st := if blen v =? -1 then a_find v else ANext v).
  set (st' := if blen v =? -1 then a_find (extend v d) else ANext (extend v d)).
  assert (stable st st' d ∧ match st with ANext w => 0 <= blen w ∧ todo w = todo v | _ => True end) as [Hst Hw].
  { subst st st'. case_if; [|split; [done|lia]]. split; [apply a_find_app|].
    destruct (a_find v) eqn:E; try done. apply a_find_blen in E. intuition lia. }
  destruct st as [|e|w] eqn:Est.
  - simpl. unfold again. simpl todo. rewrite Ht, Nat2Z.id. cbn [a_loop]. simpl todo. simpl blen.
    case_if; [lia|]. done.
  - simpl in Hst |- *. by destruct st'.
  - simpl in Hst. rewrite Hst. destruct Hw as [Hw Htw].
    pose proof (a_read_app w d ltac:(lia)) as Hr. destruct (a_read w) as [|e|w'] eqn:Er.
    + simpl. unfold again. simpl todo. rewrite Htw, Ht, Nat2Z.id. cbn [a_loop]. simpl todo. simpl blen.
      case_if; [lia|]. rewrite (proj2 (Z.eqb_neq (blen w) (-1))) by lia. done.
    + simpl in Hr |- *. by destruct (a_read (extend w d)).
    + simpl in Hr. rewrite Hr. unfold a_read in Er. case_if; [done|]. injection Er as <-.
      apply IH; simpl; lia.
Qed.

(** The states between calls. *)
Definition v_ok (v : view) : Prop := -1 <= blen v ∧ 0 <= todo v ∧ (todo v = 0 → blen v = -1).

Lemma a_loop_result fuel v :
  v_ok v → todo v = Z.of_nat fuel →
  ∃ v' r, a_loop fuel v = Some (v', r) ∧ v_ok v' ∧ todo v' <= todo v ∧
    (r = Done → todo v' = 0) ∧ (r = More → 0 < todo v').
Proof.
  revert v. induction fuel as [|fuel IH]; intros v Hv Hf; cbn [a_loop];
    pose proof Hv as (Hb & Ht & H0).
  { case_if; [|lia]. exists v, Done. split; [done|]. split; [done|]. split; [lia|]. split; [done|discriminate]. }
  case_if; [lia|].
  assert (match (if blen v =? -1 then a_find v else ANext v) with
          | ANext w => 0 <= blen w ∧ todo w = todo v | _ => True end) as Hw.
  { case_if; [|split; [lia|done]]. destruct (a_find v) eqn:E; try done. by apply a_find_blen in E. }
  destruct (if blen v =? -1 then a_find v else ANext v) as [|e|w].
  - exists v, More. split_and!; first [done|lia|discriminate|split_and!; lia].
  - exists v, (Bad e). split_and!; first [done|lia|discriminate|split_and!; lia].
  - destruct Hw as [Hbw Htw]. unfold a_read. case_if.
    + exists w, More. split_and!; first [done|lia|discriminate|split_and!; lia].
    + destruct (IH (mkView (drop (Z.to_nat (blen w + 2)) (rest w)) (todo w - 1) (-1)
        (args w ++ [take (Z.to_nat (blen w)) (rest w)]))) as (v' & r & E & Hok & Hle & Hd & Hm).
      * split_and!; simpl; lia.
      * simpl. lia.
      * exists v', r. simpl in Hle. split; [done|]. split; [done|]. split; [lia|done].
Qed.

Lemma a_parse_result v :
  v_ok v →
  ∃ v' r, a_parse v = Some (v', r) ∧ v_ok v' ∧ (r = Done → todo v' = 0) ∧
    (r = More → v' = v ∨ 0 < todo v').
Proof.
  intros Hv. pose proof Hv as (Hb & Ht & H0). unfold a_parse. case_if.
  - assert (∀ e, ∃ v' r, Some (v, Bad e) = Some (v', r) ∧ v_ok v' ∧ (r = Done → todo v' = 0) ∧
      (r = More → v' = v ∨ 0 < todo v')) as Hbad.
    { intros e. exists v, (Bad e). split; [done|]. split; [done|]. split; discriminate. }
    assert (∃ v' r, Some (v, More) = Some (v', r) ∧ v_ok v' ∧ (r = Done → todo v' = 0) ∧
      (r = More → v' = v ∨ 0 < todo v')) as Hmore.
    { exists v, More. split; [done|]. split; [done|]. split; [discriminate|by left]. }
    destruct (read_line (rest v)) as [| | |ch n tl]; auto. destruct n as [ll|]; auto.
    repeat (case_if; [by auto|]). case_if.
    + eexists _, Done. split; [done|]. split; [exact Hv|]. split; [done|discriminate].
    + destruct (a_loop_result (Z.to_nat ll) (mkView tl ll (blen v) (args v)))
        as (v' & r & E & Hok & Hle & Hd & Hm); [split_and!; simpl; lia|simpl; lia|].
      exists v', r. split; [done|]. split; [done|]. auto.
  - destruct (a_loop_result (Z.to_nat (todo v)) v) as (v' & r & E & Hok & Hle & Hd & Hm); [done|lia|].
    exists v', r. split; [done|]. split; [done|]. auto.
Qed.

(** [a_parse] on more input resumes from where it stopped. *)
Lemma a_parse_app v d :
  v_ok v → continues (a_parse v) (a_parse (extend v d)) d a_parse.
Proof.
  intros (Hb & Ht & H0).
  assert (∀ w, v_ok w → 0 < todo w →
    continues (a_loop (Z.to_nat (todo w)) w) (a_loop (Z.to_nat (todo w)) (extend w d)) d a_parse) as Hloop.
  { intros w Hw Hp. pose proof (a_loop_app (Z.to_nat (todo w)) w d) as Hc.
    destruct (a_loop_result (Z.to_nat (todo w)) w) as (v' & r & E & Hok & Hle & Hd & Hm); [done|lia|].
    rewrite E in *. destruct Hw as [Hbw _]. specialize (Hc Hbw ltac:(lia)).
    destruct r; simpl in *; auto. rewrite Hc. unfold again, a_parse. simpl todo.
    specialize (Hm eq_refl). by rewrite (proj2 (Z.eqb_neq (todo v') 0)) by lia. }
  unfold a_parse at 1 2. simpl todo. destruct (todo v =? 0) eqn:Et; zb.
  - simpl rest. destruct (read_line (rest v)) as [| | |ch n tl] eqn:E.
    + simpl. unfold a_parse. simpl todo. by rewrite (proj2 (Z.eqb_eq (todo v) 0)).
    + simpl. unfold a_parse. simpl todo. by rewrite (proj2 (Z.eqb_eq (todo v) 0)).
    + simpl. pose proof (read_line_bad _ d E) as Hbad.
      destruct (read_line (rest v ++ d)) as [| | |ch n tl]; try done. by subst n.
    + rewrite (read_line_app _ d _ _ _ E). destruct n as [ll|]; [|done].
      repeat (case_if; [done|]). apply (Hloop (mkView tl ll (blen v) (args v))); [split_and!|]; simpl; lia.
  - apply Hloop; [done|lia].
Qed.

Lemma extend_nil v : extend v [] = v.
Proof. destruct v. unfold extend. simpl. by rewrite app_nil_r. Qed.
Lemma extend_app v d e : extend (extend v d) e = extend v (d ++ e).
Proof. unfold extend. simpl. by rewrite app_assoc. Qed.

(** Calls after each of a series of reads, until a request is complete or wrong. *)
Fixpoint a_chunks (v : view) (ds : list (list Z)) : option (view * verdict) :=
  match ds with
  | [] => Some (v, More)
  | d :: ds =>
      '(v, r) ← a_parse (extend v d);
      match r with
      | Done => Some (extend v (concat ds), Done)
      | More => a_chunks v ds
      | Bad e => Some (v, Bad e)
      end
  end.

Lemma a_chunks_done v v0 ds w :
  v_ok v → a_parse v = Some (v0, More) →
  (a_chunks v ds = Some (w, Done) ↔ a_parse (extend v (concat ds)) = Some (w, Done)).
Proof.
  revert v v0. induction ds as [|d ds IH]; intros v v0 Hv Hp; simpl.
  { rewrite extend_nil, Hp. split; discriminate. }
  assert (v_ok (extend v d)) as Hvd by done.
  pose proof (a_parse_app (extend v d) (concat ds) Hvd) as Hc. rewrite extend_app in Hc.
  pose proof (a_parse_app (extend v d) [] Hvd) as Hi. rewrite extend_nil in Hi.
  destruct (a_parse_result (extend v d) Hvd) as (v1 & r & E & Hok & _). rewrite E in Hi, Hc |- *.
  destruct r; simpl in *.
  - rewrite Hc. done.
  - rewrite extend_nil in Hi. rewrite Hc. by apply (IH v1 v1).
  - split; [discriminate|]. intros E'. by rewrite E' in Hc.
Qed.

(** ** The round trip *)

Definition crlf : list Z := [CR; LF].
Definition enc_bulk (a : list Z) : list Z := [DOLLAR] ++ sdec (zlen a) ++ crlf ++ a ++ crlf.
Definition enc_request (l : list (list Z)) : list Z :=
  [STAR] ++ sdec (zlen l) ++ crlf ++ concat (enc_bulk <$> l).

(** What the parser accepts as an argument and as a request. *)
Definition arg_ok (a : list Z) : Prop :=
  zlen a < 2 ^ 62 ∧ too_long (zlen a) = false ∧ (auth = true → zlen a <= 16384).
Definition request_ok (l : list (list Z)) : Prop :=
  0 < zlen l <= INT_MAX ∧ (auth = true → zlen l <= 10) ∧ Forall arg_ok l.

Lemma dec_digits v : 0 <= v < 10 ^ 20 → Forall (λ c, isdigit c = true) (dec v).
Proof.
  intros Hv. destruct (decide (v = 0)) as [->|]; [by repeat constructor|].
  destruct (dec_head v) as (c & p & -> & Hc & Hp & _); [lia|]. constructor; [|done].
  unfold isdigit. zb. unfold ch0 in *. lia.
Qed.

Lemma strchr_off_skip p q ch :
  Forall (λ c, c ≠ ch ∧ c ≠ 0) p → strchr_off (p ++ ch :: q) ch = Some (zlen p).
Proof.
  induction 1 as [|c p [Hc H0] Hp IH]; simpl; [by rewrite Z.eqb_refl|].
  case_if; [done|]. case_if; [done|]. rewrite IH. simpl. by rewrite zlen_cons.
Qed.

Lemma read_line_any ch s tl :
  ch ≠ CR → ch ≠ 0 → Forall (λ c, c ≠ CR ∧ c ≠ 0) s →
  read_line ([ch] ++ s ++ crlf ++ tl) = LNum ch (string2ll s) tl.
Proof.
  intros Hch H0 Hs. unfold read_line.
  assert (strchr_off ([ch] ++ s ++ crlf ++ tl) CR = Some (1 + zlen s)) as ->.
  { rewrite app_assoc. change (crlf ++ tl) with (CR :: LF :: tl). rewrite strchr_off_skip.
    - by rewrite zlen_app.
    - apply Forall_app. split; [by repeat constructor|done]. }
  pose proof (zlen_nonneg s). pose proof (zlen_nonneg tl).
  rewrite !zlen_app. change (zlen [ch]) with 1. change (zlen crlf) with 2. case_if; [lia|].
  assert (sub 1 (1 + zlen s - 1) ([ch] ++ s ++ crlf ++ tl) = s) as ->.
  { replace (1 + zlen s - 1) with (zlen s) by lia.
    pose proof (rd_mid [ch] s (crlf ++ tl)) as E. apply rd_Some in E as (_ & _ & _ & E). done. }
  f_equal. rewrite !app_assoc. replace (1 + zlen s + 2) with (zlen (([ch] ++ s) ++ crlf)).
  - apply drop_app_zlen.
  - rewrite !zlen_app. change (zlen [ch]) with 1. change (zlen crlf) with 2. lia.
Qed.

Lemma read_line_number ch n tl :
  ch ≠ CR → ch ≠ 0 → 0 <= n < 2 ^ 62 →
  read_line ([ch] ++ sdec n ++ crlf ++ tl) = LNum ch (Some n) tl.
Proof.
  intros Hch H0 Hn.
  assert (is_int64 n) as Hi by (unfold is_int64, INT64_MIN, INT64_MAX; lia).
  rewrite read_line_any; [by rewrite (proj2 (string2ll_spec (sdec n) n))|done|done|].
  assert (sdec n = dec n) as -> by (unfold sdec; case_if; [lia|done]).
  eapply Forall_impl; [|apply dec_digits; lia]. intros c Hc. unfold isdigit, ch0, CR in *. zb. lia.
Qed.

(** The loop goes through correctly encoded arguments. *)
Lemma a_loop_prefix l acc tl k :
  Forall arg_ok l →
  a_loop (length l + k) (mkView (concat (enc_bulk <$> l) ++ tl) (zlen l + Z.of_nat k) (-1) acc)
  = a_loop k (mkView tl (Z.of_nat k) (-1) (acc ++ l)).
Proof.
  intros Hl. revert acc. induction Hl as [|a l (Ha & Hlong & Hau) Hl IH]; intros acc.
  { by rewrite app_nil_r. }
  cbn [length Nat.add a_loop todo]. rewrite zlen_cons.
  pose proof (zlen_nonneg l). pose proof (zlen_nonneg a).
  rewrite (proj2 (Z.eqb_neq _ _)) by lia. cbn [blen]. change (-1 =? -1) with true. cbv iota.
  set (tail := concat (enc_bulk <$> l) ++ tl).
  assert (concat (enc_bulk <$> a :: l) ++ tl = [DOLLAR] ++ sdec (zlen a) ++ crlf ++ (a ++ crlf ++ tail)) as ->.
  { subst tail. rewrite fmap_cons. cbn [concat]. unfold enc_bulk at 1. by rewrite <- !app_assoc. }
  unfold a_find. cbn [rest]. rewrite read_line_number by (done || lia).
  rewrite Z.eqb_refl, Hlong. cbn [negb].
  rewrite (proj2 (Z.ltb_ge (zlen a) 0)) by lia. cbn [orb].
  assert (((16384 <? zlen a) && auth) = false) as ->.
  { destruct auth; [|by rewrite andb_false_r]. specialize (Hau eq_refl). zb. left. lia. }
  unfold a_read. cbn [rest blen todo args]. rewrite (zlen_app a), (zlen_app crlf). change (zlen crlf) with 2.
  pose proof (zlen_nonneg tail). case_if; [lia|].
  rewrite take_app_zlen.
  assert (drop (Z.to_nat (zlen a + 2)) (a ++ crlf ++ tail) = tail) as ->.
  { rewrite app_assoc. replace (zlen a + 2) with (zlen (a ++ crlf)) by (by rewrite zlen_app).
    apply drop_app_zlen. }
  replace (1 + zlen l + Z.of_nat k - 1) with (zlen l + Z.of_nat k) by lia. subst tail.
  rewrite IH. by rewrite <- app_assoc.
Qed.

Lemma a_header l n tl :
  0 < n <= INT_MAX → (auth = true → n <= 10) →
  a_parse (mkView ([STAR] ++ sdec n ++ crlf ++ tl) 0 (-1) l) = a_loop (Z.to_nat n) (mkView tl n (-1) l).
Proof.
  intros [H0 Hmax] Hau. unfold INT_MAX, INT32_MAX in *. unfold a_parse. cbn [todo rest].
  rewrite read_line_number by (done || lia).
  change (0 =? 0) with true. cbv iota. unfold INT_MAX, INT32_MAX. case_if; [lia|].
  assert (((10 <? n) && auth) = false) as ->.
  { destruct auth; [|by rewrite andb_false_r]. specialize (Hau eq_refl). zb. left. lia. }
  case_if; [lia|done].
Qed.

Lemma a_parse_request l tl :
  request_ok l →
  a_parse (mkView (enc_request l ++ tl) 0 (-1) []) = Some (mkView tl 0 (-1) l, Done).
Proof.
  intros (Hn & Hau & Hl). unfold enc_request. rewrite <- !app_assoc, a_header by done.
  pose proof (a_loop_prefix l [] tl 0 Hl) as E. rewrite Nat.add_0_r, Z.add_0_r in E.
  unfold zlen at 1. rewrite Nat2Z.id, E. done.
Qed.

(** The error for a line [ch s\r\n] in the place of an argument length. *)
Definition bulk_error (ch : Z) (s : list Z) : option read_error_code :=
  if negb (ch =? DOLLAR) then Some CLIENT_READ_EXPECTED_DOLLAR
  else
    match string2ll s with
    | None => Some CLIENT_READ_INVALID_BUCK_LENGTH
    | Some n =>
        if (n <? 0) || too_long n then Some CLIENT_READ_INVALID_BUCK_LENGTH
        else if (16384 <? n) && auth then Some CLIENT_READ_UNAUTH_BUCK_LENGTH
        else None
    end.

Lemma a_parse_bad l n ch s tl e :
  zlen l < n <= INT_MAX → (auth = true → n <= 10) → Forall arg_ok l →
  ch ≠ CR → ch ≠ 0 → Forall (λ c, c ≠ CR ∧ c ≠ 0) s → bulk_error ch s = Some e →
  ∃ v, a_parse (mkView ([STAR] ++ sdec n ++ crlf ++ concat (enc_bulk <$> l) ++ [ch] ++ s ++ crlf ++ tl) 0 (-1) [])
    = Some (v, Bad e) ∧ args v = l.
Proof.
  intros Hn Hau Hl Hc H0 Hs He. pose proof (zlen_nonneg l). rewrite a_header by (done || lia).
  remember (Z.to_nat (n - zlen l)) as k eqn:Ek.
  pose proof (a_loop_prefix l [] ([ch] ++ s ++ crlf ++ tl) k Hl) as E.
  replace (zlen l + Z.of_nat k) with n in E by lia.
  replace (Z.to_nat n) with (length l + k)%nat by (unfold zlen in *; lia). rewrite E. clear E.
  destruct k as [|k]; [lia|]. cbn [a_loop todo]. rewrite (proj2 (Z.eqb_neq _ _)) by lia.
  cbn [blen]. change (-1 =? -1) with true. cbv iota. unfold a_find. cbn [rest].
  rewrite read_line_any by done. unfold bulk_error in He.
  destruct (negb (ch =? DOLLAR)); [injection He as <-; eauto|].
  destruct (string2ll s) as [ll|]; [|injection He as <-; eauto].
  destruct (_ || _); [injection He as <-; eauto|]. destruct (_ && _); [injection He as <-; eauto|done].
Qed.

End Abstract.

(** ** Refinement *)

Section Refine.
Variable proto_max_bulk_len : Z.

Definition limit (c : client) : option Z :=
  if is_master c then None else Some proto_max_bulk_len.

(** The invariant of a client: the position is in the buffer, the arguments
    stored fit their array, which can still hold the rest of the request, and
    their total length is recorded. *)
Definition total (l : list (list Z)) : Z := foldr (λ a s, zlen a + s) 0 l.

Record inv (c : client) : Prop := {
  inv_pos : 0 <= qb_pos c <= zlen (querybuf c);
  inv_size : zlen (querybuf c) < 2 ^ 62;
  inv_view : v_ok (view_of c);
  inv_blen : bulklen c <= INT64_MAX;
  inv_argc : argc c <= argv_len c;
  inv_argv : 0 < multibulklen c → 0 < argv_len c;
  inv_count : argc c + multibulklen c <= INT_MAX ∨ multibulklen c = 0;
  inv_total : argv_len_sum c = total (argv c);
}.

(** The fields a parsing step leaves alone. *)
Definition same (c c' : client) : Prop :=
  is_master c' = is_master c ∧ auth_required c' = auth_required c ∧
  read_error c' = read_error c ∧ reqtype c' = reqtype c.

Lemma unread_inv c : inv c → unread c = Some (rest (view_of c)).
Proof.
  intros [[H1 H2] _ _ _ _ _ _ _]. unfold unread. rewrite (proj2 (Z.leb_le _ _) H1), (proj2 (Z.leb_le _ _) H2).
  done.
Qed.

Lemma rest_zlen c : inv c → zlen (rest (view_of c)) = zlen (querybuf c) - qb_pos c.
Proof. intros [H1 _ _ _ _ _ _ _]. simpl. rewrite zlen_drop. lia. Qed.

Lemma no_linefeed_spec k q p :
  0 <= p <= q → q < 2 ^ 62 → no_linefeed k q p = (q - p - 2 <? k).
Proof.
  intros Hp Hq. unfold no_linefeed.
  replace (swrap 64 (uwrap 64 (q - p - 2))) with (q - p - 2); [done|].
  unfold uwrap. rewrite swrap_mod. symmetry. apply swrap64_id. unfold INT64_MIN, INT64_MAX. lia.
Qed.

(** Reading in the buffer from the position on. *)
Lemma rd_unread c i n :
  inv c → 0 <= i → 0 <= n → i + n <= zlen (rest (view_of c)) →
  rd (qb_pos c + i) n (querybuf c) = Some (sub i n (rest (view_of c))).
Proof.
  intros Hc Hi Hn Hl. pose proof (rest_zlen c Hc) as Hz. destruct Hc as [H1 _ _ _ _ _ _ _].
  rewrite rd_in by lia. f_equal. unfold sub. simpl. rewrite drop_drop. f_equal. f_equal. lia.
Qed.

Lemma range_tail (b : list Z) i : 0 <= i <= zlen b → range b i (-1) = drop (Z.to_nat i) b.
Proof.
  intros Hi. unfold range. change (-1 <? 0) with true. cbv iota zeta.
  assert ((i <? 0) = false) as E by (zb; lia). rewrite !E, orb_false_r. case_if.
  - rewrite drop_ge; [done|unfold zlen in *; lia].
  - apply take_ge. rewrite length_drop. unfold zlen in *. lia.
Qed.

Lemma trim_big_arg_spec c ll :
  0 <= qb_pos c <= zlen (querybuf c) → zlen (querybuf c) < 2 ^ 62 →
  ∃ b pos peak,
    trim_big_arg c (zlen (querybuf c)) ll = (set_peak (set_querybuf c b pos) peak, zlen b) ∧
    drop (Z.to_nat pos) b = drop (Z.to_nat (qb_pos c)) (querybuf c) ∧
    0 <= pos <= zlen b ∧ zlen b <= zlen (querybuf c).
Proof.
  intros Hp Hs. unfold trim_big_arg.
  assert (∃ b pos peak, (c, zlen (querybuf c)) = (set_peak (set_querybuf c b pos) peak, zlen b) ∧
    drop (Z.to_nat pos) b = drop (Z.to_nat (qb_pos c)) (querybuf c) ∧
    0 <= pos <= zlen b ∧ zlen b <= zlen (querybuf c)) as Hid.
  { exists (querybuf c), (qb_pos c), (querybuf_peak c). split_and!; try done; try lia. by destruct c. }
  destruct (_ && _); [|done]. case_if; [|done].
  set (b := range (querybuf c) (qb_pos c) (-1)).
  assert (b = drop (Z.to_nat (qb_pos c)) (querybuf c)) as Hb by (by apply range_tail).
  assert (zlen b <= zlen (querybuf c)) by (rewrite Hb, zlen_drop; lia).
  exists b, 0, (if querybuf_peak c <? ll + 2 then ll + 2 else querybuf_peak c).
  pose proof (zlen_nonneg b). split_and!; try done; try lia.
  simpl querybuf_peak. by case_if.
Qed.

(** The line at the front of the buffer, as the code and the model read it. *)
Lemma find_refines c :
  inv c → bulklen c = -1 → 0 < multibulklen c →
  match a_find (limit c) (auth_required c) (view_of c) with
  | ABreak => find_bulklen proto_max_bulk_len c (zlen (querybuf c)) = Some (Break c)
  | ABad e => find_bulklen proto_max_bulk_len c (zlen (querybuf c)) = Some (Error (set_error c e))
  | ANext v => ∃ c', find_bulklen proto_max_bulk_len c (zlen (querybuf c))
      = Some (Next c' (zlen (querybuf c'))) ∧ view_of c' = v ∧ inv c' ∧ same c c'
  end.
Proof.
  intros Hc Hb Hm. pose proof (rest_zlen c Hc) as Hz. pose proof Hc as [Hpos Hsize Hv Hbl Hac Hav Hcnt Htot].
  unfold find_bulklen, a_find, read_line. rewrite (unread_inv c) by done. cbn [mbind option_bind].
  destruct (strchr_off (rest (view_of c)) CR) as [k|] eqn:Ek.
  2: { rewrite Hz. by case_if. }
  rewrite no_linefeed_spec, <- Hz by lia. case_if; [done|].
  pose proof (strchr_off_bounds _ _ _ Ek) as Hk.
  unfold current_byte. rewrite (unread_inv c) by done. cbn [mbind option_bind].
  destruct (negb (default 0 (head (rest (view_of c))) =? DOLLAR)) eqn:Ed; [done|].
  assert (k ≠ 0) as Hk0.
  { intros ->. destruct (rest (view_of c)) as [|x p]; [done|]. simpl in Ek, Ed. revert Ek.
    destruct (x =? CR) eqn:Ex; [apply Z.eqb_eq in Ex; subst; by vm_compute in Ed|].
    case_if; [done|]. destruct (strchr_off p CR) as [j|] eqn:Ej; [|done]. simpl. intros [= Hj].
    apply strchr_off_bounds in Ej. lia. }
  rewrite rd_unread by (done || lia). cbn [mbind option_bind].
  destruct (string2ll (sub 1 (k - 1) (rest (view_of c)))) as [ll|] eqn:Es; [|done].
  assert ((ll <? 0) || (negb (is_master c) && (proto_max_bulk_len <? ll))
    = (ll <? 0) || too_long (limit c) ll) as -> by (unfold limit; by destruct (is_master c)).
  destruct (_ || _) eqn:El; [done|]. apply orb_false_iff in El as [El _]. case_if; [done|].
  assert (is_int64 ll) as [_ Hll] by (by apply string2ll_spec in Es as [? _]).
  destruct (trim_big_arg_spec (set_qb_pos c (qb_pos c + k + 2)) ll) as (b & pos & peak & E & Hd & Hpb & Hbz);
    [simpl; lia..|].
  change (querybuf (set_qb_pos c (qb_pos c + k + 2))) with (querybuf c) in E, Hd, Hbz.
  simpl in Hd. rewrite E.
  exists (set_lens (set_peak (set_querybuf (set_qb_pos c (qb_pos c + k + 2)) b pos) peak) (multibulklen c) ll).
  split; [done|].
  assert (drop (Z.to_nat pos) b = drop (Z.to_nat (k + 2)) (rest (view_of c))) as Hrest.
  { rewrite Hd. simpl. rewrite drop_drop. f_equal. lia. }
  zb. split; [|split; [|done]].
  - unfold view_of at 1. simpl. by rewrite Hrest.
  - split; simpl; try done; try lia. split_and!; simpl; lia.
Qed.

Lemma total_len_app l a : total (l ++ [a]) = total l + zlen a.
Proof. induction l as [|b l IH]; simpl; [lia|]. rewrite IH. lia. Qed.

(** The array of arguments after room was made for one more. *)
Lemma grow_argv c :
  inv c → 0 < multibulklen c →
  ∃ n, (if argv_len c <=? argc c then
           _ ← guard (negb (argv_len c =? 0));
           Some (set_argv c (argv c)
             (Z.min (if argv_len c <? INT_MAX / 2 then argv_len c * 2 else INT_MAX)
                (argc c + multibulklen c)) (argv_len_sum c))
         else Some c) = Some (set_argv c (argv c) n (argv_len_sum c)) ∧ argc c < n.
Proof.
  intros Hc Hm. pose proof Hc as [Hpos Hsize Hv Hbl Hac Hav Hcnt Htot]. specialize (Hav Hm).
  case_if.
  - rewrite (proj2 (Z.eqb_neq (argv_len c) 0)) by lia. cbn [negb guard mbind option_bind].
    eexists. split; [done|]. assert (INT_MAX / 2 = 1073741823) as -> by done.
    unfold INT_MAX, INT32_MAX in *. case_if; lia.
  - exists (argv_len c). split; [by destruct c|lia].
Qed.

Lemma read_refines c :
  inv c → 0 <= bulklen c → 0 < multibulklen c →
  match a_read (view_of c) with
  | ABreak => read_bulk c (zlen (querybuf c)) = Some (Break c)
  | ABad e => False
  | ANext v => ∃ c', read_bulk c (zlen (querybuf c))
      = Some (Next c' (zlen (querybuf c'))) ∧ view_of c' = v ∧ inv c' ∧ same c c'
  end.
Proof.
  intros Hc Hb Hm. pose proof (rest_zlen c Hc) as Hz. pose proof Hc as [Hpos Hsize Hv Hbl Hac Hav Hcnt Htot].
  unfold INT64_MAX in Hbl. unfold read_bulk, a_read. rewrite Hz.
  change (blen (view_of c)) with (bulklen c).
  rewrite !uwrap_id by lia. case_if; [done|].
  destruct (grow_argv c Hc Hm) as (n & -> & Hn). cbn [mbind option_bind].
  set (c1 := set_argv c (argv c) n (argv_len_sum c)).
  assert (∀ v, push_arg c1 v = Some (set_argv c1 (argv c ++ [v]) n (argv_len_sum c + bulklen c))) as Hpush.
  { intros v. unfold push_arg. rewrite (proj2 (Z.ltb_lt _ _)) by exact Hn. done. }
  remember (take (Z.to_nat (bulklen c)) (rest (view_of c))) as a eqn:Ea.
  assert (zlen a = bulklen c) as Hsl by (rewrite Ea, zlen_take; lia).
  set (fin b pos := set_lens (set_querybuf (set_argv c1 (argv c ++ [a]) n
      (argv_len_sum c + bulklen c)) b pos) (multibulklen c - 1) (-1)).
  assert (∀ b pos, 0 <= pos <= zlen b → zlen b <= zlen (querybuf c) →
    drop (Z.to_nat pos) b = drop (Z.to_nat (bulklen c + 2)) (rest (view_of c)) →
    let c' := fin b pos in
    view_of c' = mkView (drop (Z.to_nat (bulklen c + 2)) (rest (view_of c))) (todo (view_of c) - 1) (-1)
       (args (view_of c) ++ [a]) ∧ inv c' ∧ same c c') as Hfin.
  { intros b pos Hp1 Hp2 Hd c'. split; [|split; [|done]].
    - unfold view_of at 1. simpl. by rewrite Hd.
    - unfold argc in *. pose proof (zlen_app (argv c) [a]) as Hza. change (zlen [a]) with 1 in Hza.
      split; unfold argc; simpl; rewrite ?total_len_app; try lia.
      + split_and!; simpl; lia.
      + unfold INT64_MAX. lia.
      + pose proof (zlen_nonneg (argv c)). lia. }
  change (qb_pos c1) with (qb_pos c). change (is_master c1) with (is_master c).
  change (bulklen c1) with (bulklen c). change (querybuf c1) with (querybuf c).
  destruct (_ && _) eqn:Ebig.
  - rewrite !andb_true_iff in Ebig. destruct Ebig as [[[_ Ep] _] El]. zb.
    assert (take (length (querybuf c) - 2) (querybuf c) = a) as ->.
    { rewrite Ea. simpl. rewrite Ep. change (Z.to_nat 0) with 0%nat. rewrite drop_0. f_equal. unfold zlen in *. lia. }
    rewrite Hpush. cbn [mbind option_bind].
    exists (fin [] (qb_pos c)). split; [done|]. apply (Hfin [] (qb_pos c)).
    + change (zlen (@nil Z)) with 0. lia.
    + change (zlen (@nil Z)) with 0. lia.
    + rewrite drop_nil, drop_ge; [done|]. unfold zlen in *. lia.
  - pose proof (rd_unread c 0 (bulklen c) Hc) as Hrd. rewrite Z.add_0_r in Hrd.
    change (sub 0 (bulklen c) (rest (view_of c))) with (take (Z.to_nat (bulklen c)) (rest (view_of c))) in Hrd.
    rewrite Hrd, <- Ea by lia.
    cbn [mbind option_bind]. rewrite Hpush. cbn [mbind option_bind].
    exists (fin (querybuf c) (qb_pos c + bulklen c + 2)). split; [done|].
    apply (Hfin (querybuf c) (qb_pos c + bulklen c + 2)).
    + lia.
    + lia.
    + simpl. rewrite drop_drop. f_equal. lia.
Qed.

Definition ret_of (r : verdict) : retval := match r with Done => C_OK | _ => C_ERR end.

(** What a call leaves alone, and the error it records. *)
Definition outcome_of (c c' : client) (r : verdict) : Prop :=
  is_master c' = is_master c ∧ auth_required c' = auth_required c ∧ reqtype c' = reqtype c ∧
  read_error c' = match r with Bad e => Some e | _ => read_error c end.

Lemma inv_set_error c e : inv c → inv (set_error c e).
Proof. intros [H1 H2 H3 H4 H5 H6 H7 H8]. by split. Qed.

Lemma limit_same c c' : same c c' → limit c' = limit c ∧ auth_required c' = auth_required c.
Proof. intros (H1 & H2 & _). unfold limit. by rewrite H1. Qed.

Lemma outcome_same c c1 c' r : same c c1 → outcome_of c1 c' r → outcome_of c c' r.
Proof.
  intros (H1 & H2 & H3 & H4) (G1 & G2 & G3 & G4). split_and!; try congruence.
  rewrite G4. by destruct r.
Qed.

Lemma bulk_loop_refines fuel c :
  inv c → multibulklen c = Z.of_nat fuel →
  ∃ c' r, bulk_loop proto_max_bulk_len fuel c (zlen (querybuf c)) = Some (c', ret_of r) ∧
    a_loop (limit c) (auth_required c) fuel (view_of c) = Some (view_of c', r) ∧
    inv c' ∧ outcome_of c c' r.
Proof.
  revert c. induction fuel as [|fuel IH]; intros c Hc Hf; cbn [bulk_loop a_loop];
    change (todo (view_of c)) with (multibulklen c).
  { case_if; [|lia]. exists c, Done. done. }
  case_if; [lia|]. change (blen (view_of c)) with (bulklen c).
  assert (0 < multibulklen c) as Hm by lia.
  assert (match (if bulklen c =? -1 then a_find (limit c) (auth_required c) (view_of c) else ANext (view_of c)) with
    | ABreak => (if bulklen c =? -1 then find_bulklen proto_max_bulk_len c (zlen (querybuf c))
                 else Some (Next c (zlen (querybuf c)))) = Some (Break c)
    | ABad e => (if bulklen c =? -1 then find_bulklen proto_max_bulk_len c (zlen (querybuf c))
                 else Some (Next c (zlen (querybuf c)))) = Some (Error (set_error c e))
    | ANext v => ∃ c', (if bulklen c =? -1 then find_bulklen proto_max_bulk_len c (zlen (querybuf c))
                 else Some (Next c (zlen (querybuf c)))) = Some (Next c' (zlen (querybuf c'))) ∧
                 view_of c' = v ∧ inv c' ∧ same c c' ∧ 0 <= blen v ∧ todo v = multibulklen c
    end) as Hfind.
  { destruct (bulklen c =? -1) eqn:Eb; zb.
    - pose proof (find_refines c Hc Eb Hm) as Hr.
      destruct (a_find _ _ _) as [|e|v] eqn:Ea; [done..|]. apply a_find_blen in Ea.
      destruct Hr as (c' & E & Hv & Hi & Hs). exists c'. simpl in Ea. done.
    - exists c. pose proof (inv_view _ Hc) as (Hb & _). simpl in Hb |- *.
      split; [done|]. split; [done|]. split; [done|]. split; [done|]. lia. }
  destruct (if bulklen c =? -1 then a_find _ _ _ else _) as [|e|v].
  - rewrite Hfind. cbn [mbind option_bind]. case_if; [lia|]. exists c, More. done.
  - rewrite Hfind. cbn [mbind option_bind]. exists (set_error c e), (Bad e).
    split; [done|]. split; [done|]. split; [by apply inv_set_error|done].
  - destruct Hfind as (c1 & -> & <- & Hc1 & Hs1 & Hb1 & Ht1). cbn [mbind option_bind]. simpl in Hb1, Ht1.
    pose proof (read_refines c1 Hc1 Hb1 ltac:(lia)) as Hr. unfold a_read in Hr |- *. case_if.
    + rewrite Hr. cbn [mbind option_bind]. case_if; [lia|]. exists c1, More.
      split; [done|]. split; [done|]. split; [done|]. by eapply outcome_same.
    + destruct Hr as (c2 & -> & Hv2 & Hc2 & Hs2). cbn [mbind option_bind].
      destruct (IH c2 Hc2) as (c' & r & E & Ea & Hc' & Ho).
      { apply (f_equal todo) in Hv2. simpl in Hv2. lia. }
      exists c', r. split; [done|]. rewrite <- Hv2.
      destruct (limit_same _ _ Hs1) as [L1 A1]. destruct (limit_same _ _ Hs2) as [L2 A2].
      rewrite L2, A2, L1, A1 in Ea. split; [done|]. split; [done|].
      by eapply outcome_same, outcome_same.
Qed.

(** A request starts at the position, or is being read. *)
Definition starts (c : client) : Prop :=
  multibulklen c = 0 → argv c = [] ∧ head (rest (view_of c)) = Some STAR.

(** [processMultibulkBuffer] runs without faults and computes what the
    abstract parser does. *)
Lemma process_refines c :
  inv c → starts c →
  ∃ c' r, processMultibulkBuffer proto_max_bulk_len c = Some (c', ret_of r) ∧
    a_parse (limit c) (auth_required c) (view_of c) = Some (view_of c', r) ∧
    inv c' ∧ outcome_of c c' r.
Proof.
  intros Hc Hst. pose proof (rest_zlen c Hc) as Hz. pose proof Hc as [Hpos Hsize Hv Hbl Hac Hav Hcnt Htot].
  unfold processMultibulkBuffer, a_parse. change (todo (view_of c)) with (multibulklen c).
  destruct (multibulklen c =? 0) eqn:Em; zb.
  2: { assert (0 < multibulklen c) as Hm by (destruct Hv as (_ & ? & _); simpl in *; lia).
       cbn [mbind option_bind]. rewrite (proj2 (Z.ltb_lt 0 _) Hm). cbn [guard mbind option_bind].
       apply bulk_loop_refines; [done|lia]. }
  destruct (Hst Em) as [Hargv Hstar]. unfold read_multibulklen.
  assert ((argc c =? 0) = true) as -> by (unfold argc; by rewrite Hargv). cbn [guard mbind option_bind].
  rewrite (unread_inv c) by done. cbn [mbind option_bind]. unfold read_line.
  assert (∀ e, ∃ c' r, Some (set_error c e, C_ERR) = Some (c', ret_of r) ∧
    Some (view_of c, Bad e) = Some (view_of c', r) ∧ inv c' ∧ outcome_of c c' r) as Hbad.
  { intros e. exists (set_error c e), (Bad e).
    split; [done|]. split; [done|]. split; [by apply inv_set_error|done]. }
  assert (∃ c' r, Some (c, C_ERR) = Some (c', ret_of r) ∧
    Some (view_of c, More) = Some (view_of c', r) ∧ inv c' ∧ outcome_of c c' r) as Hmore.
  { by exists c, More. }
  destruct (strchr_off (rest (view_of c)) CR) as [k|] eqn:Ek.
  2: { rewrite Hz. case_if; apply Hbad || apply Hmore. }
  rewrite no_linefeed_spec, <- Hz by lia. case_if; [apply Hmore|].
  pose proof (strchr_off_bounds _ _ _ Ek) as Hk.
  unfold current_byte. rewrite (unread_inv c) by done. cbn [mbind option_bind]. rewrite Hstar.
  simpl default. rewrite Z.eqb_refl. cbn [guard mbind option_bind].
  assert (k ≠ 0) as Hk0.
  { intros ->. destruct (rest (view_of c)) as [|x p]; [done|]. injection Hstar as ->. simpl in Ek.
    destruct (strchr_off p CR) as [j|] eqn:Ej; [|done]. injection Ek as Hj.
    apply strchr_off_bounds in Ej. lia. }
  rewrite (Z.add_comm 1), rd_unread by (done || lia). cbn [mbind option_bind].
  destruct (string2ll (sub 1 (k - 1) (rest (view_of c)))) as [ll|] eqn:Es; [|apply Hbad].
  case_if; [apply Hbad|]. case_if; [apply Hbad|].
  assert (drop (Z.to_nat (qb_pos c + k + 2)) (querybuf c) = drop (Z.to_nat (k + 2)) (rest (view_of c))) as Hd.
  { simpl. rewrite drop_drop. f_equal. lia. }
  case_if.
  - exists (set_qb_pos c (qb_pos c + k + 2)), Done. split; [done|]. split.
    { rewrite <- Hd. done. }
    split; [|done]. split; simpl; try done; lia.
  - cbn [mbind option_bind].
    set (n := if (argv_len (set_lens (set_qb_pos c (qb_pos c + k + 2)) ll (bulklen (set_qb_pos c (qb_pos c + k + 2)))) <? _) || _ then _ else _).
    set (c1 := set_argv (set_lens (set_qb_pos c (qb_pos c + k + 2)) ll (bulklen (set_qb_pos c (qb_pos c + k + 2)))) _ n 0).
    assert (inv c1) as Hc1.
    { unfold INT_MAX, INT32_MAX in *. destruct Hv as (Hvb & _ & Hv0). simpl in Hvb, Hv0.
      assert (0 < n) by (subst n; simpl; case_if; lia).
      split; unfold argc; simpl; rewrite ?Hargv; change (zlen (@nil (list Z))) with 0; try done; try lia.
      - split_and!; simpl; lia.
      - unfold INT_MAX, INT32_MAX. lia. }
    assert (view_of c1 = mkView (drop (Z.to_nat (k + 2)) (rest (view_of c))) ll (blen (view_of c)) (args (view_of c))) as Hv1.
    { rewrite <- Hd. done. }
    change (multibulklen c1) with ll. rewrite (proj2 (Z.ltb_lt 0 ll)) by lia. cbn [guard mbind option_bind].
    destruct (bulk_loop_refines (Z.to_nat ll) c1 Hc1) as (c' & r & E & Ea & Hc' & Ho).
    { change (multibulklen c1) with ll. lia. }
    exists c', r. rewrite <- Hv1. done.
Qed.

End Refine.

End NetworkingProofs.
