(* ===== verification/RequestStream.v ===== *)
(** * Requests: the theorems of the parser

    Safety for arbitrary input, the limits on what is accepted, and the
    correctness of a stream of requests, however it is cut into reads. *)

From Stdlib Require Import String.
From S2P Require Import Prelude Util SdsProofs SdsText Networking NetworkingProofs.

Module RequestStream.
Import Util SdsProofs SdsText Networking NetworkingProofs.

Section Limits.
Variable max_bulk : option Z.
Variable auth : bool.

(** The length of an argument is within the limits. *)
Definition len_ok (n : Z) : Prop := too_long max_bulk n = false ∧ (auth = true → n <= 16384).

Definition within (v : view) : Prop :=
  Forall (λ a, len_ok (zlen a)) (args v) ∧ (0 <= blen v → len_ok (blen v)) ∧
  (auth = true → zlen (args v) + todo v <= 10).

Lemma a_find_within v v' : within v → a_find max_bulk auth v = ANext v' → within v'.
Proof.
  intros (Ha & _ & Hn). unfold a_find. destruct (read_line (rest v)) as [| | |ch n tl]; try done.
  case_if; [done|]. destruct n as [ll|]; [|done].
  destruct (_ || _) eqn:E1; [done|]. apply orb_false_iff in E1 as [_ E1].
  destruct (_ && _) eqn:E2; [done|]. intros [= <-]. split; [done|]. split; [|done].
  intros _. split; [done|]. intros ->. rewrite andb_true_r in E2. simpl. zb. lia.
Qed.

Lemma a_read_within v v' :
  0 <= blen v → within v → a_read v = ANext v' → within v' ∧ zlen (rest v') < zlen (rest v).
Proof.
  intros Hb (Ha & Hl & Hn). unfold a_read. case_if; [done|]. intros [= <-]. split.
  - split; [|split; simpl; [lia|]].
    + apply Forall_app. split; [done|]. apply list.Forall_cons. split; [|done].
      rewrite zlen_take. rewrite Z.min_l by lia. rewrite Z2Nat.id by lia. by apply Hl.
    + intros Hau. specialize (Hn Hau). rewrite zlen_app. change (zlen [_]) with 1. lia.
  - simpl. rewrite zlen_drop. lia.
Qed.

Lemma read_line_shorter p ch n tl : read_line p = LNum ch n tl → zlen tl < zlen p.
Proof.
  unfold read_line. destruct (strchr_off p CR) as [k|] eqn:E; [|by case_if].
  apply strchr_off_bounds in E. case_if; [done|]. intros [= _ _ <-]. rewrite zlen_drop. lia.
Qed.

Lemma a_find_shorter v v' : a_find max_bulk auth v = ANext v' → zlen (rest v') < zlen (rest v).
Proof.
  unfold a_find. destruct (read_line (rest v)) as [| | |ch n tl] eqn:E; try done.
  apply read_line_shorter in E. case_if; [done|]. destruct n; [|done]. case_if; [done|].
  case_if; [done|]. by intros [= <-].
Qed.

(** The limits hold all along, and a finished request consumed some input. *)
Lemma a_loop_within fuel v v' r :
  v_ok v → within v → todo v = Z.of_nat fuel → a_loop max_bulk auth fuel v = Some (v', r) →
  within v' ∧ zlen (rest v') <= zlen (rest v) ∧ (r = Done → 0 < todo v → zlen (rest v') < zlen (rest v)).
Proof.
  revert v. induction fuel as [|fuel IH]; intros v Hv Hw Hf; cbn [a_loop].
  { case_if; [|lia]. intros [= <- <-]. split; [done|]. split; [lia|lia]. }
  case_if; [lia|]. pose proof Hv as (Hb & Ht & _).
  assert (match (if blen v =? -1 then a_find max_bulk auth v else ANext v) with
    | ANext w => within w ∧ 0 <= blen w ∧ todo w = todo v ∧ zlen (rest w) <= zlen (rest v) | _ => True end) as Hs.
  { case_if; [|split; [done|]; lia]. destruct (a_find max_bulk auth v) eqn:E; try done.
    pose proof (a_find_within _ _ Hw E). pose proof (a_find_shorter _ _ E).
    apply a_find_blen in E. intuition lia. }
  destruct (if blen v =? -1 then a_find max_bulk auth v else ANext v) as [|e|w].
  - intros [= <- <-]. split; [done|]. split; [lia|discriminate].
  - intros [= <- <-]. split; [done|]. split; [lia|discriminate].
  - destruct Hs as (Hww & Hbw & Htw & Hlw). destruct (a_read w) as [|e|w'] eqn:Er.
    + intros [= <- <-]. split; [done|]. split; [lia|discriminate].
    + unfold a_read in Er. by case_if.
    + destruct (a_read_within _ _ Hbw Hww Er) as [Hw' Hlt].
      assert (todo w' = todo w - 1 ∧ blen w' = -1) as [Ht' Hb']
        by (unfold a_read in Er; case_if; [done|]; by injection Er as <-).
      intros E. destruct (IH w') as (H1 & H2 & _); [split_and!; lia|done|lia|done|].
      split; [done|]. split; lia.
Qed.

Lemma a_parse_within v v' r :
  v_ok v → within v → (todo v = 0 → args v = []) → a_parse max_bulk auth v = Some (v', r) →
  within v' ∧ zlen (rest v') <= zlen (rest v) ∧ (r = Done → zlen (rest v') < zlen (rest v)).
Proof.
  intros Hv Hw Hn. pose proof Hv as (Hb & Ht & H0). unfold a_parse. case_if.
  - assert (∀ q, Some (v, q) = Some (v', r) → q ≠ Done →
      within v' ∧ zlen (rest v') <= zlen (rest v) ∧ (r = Done → zlen (rest v') < zlen (rest v))) as Hsame
      by (by intros q [= <- <-]).
    destruct (read_line (rest v)) as [| | |ch n tl] eqn:E; try (intros E'; by eapply Hsame).
    apply read_line_shorter in E.
    destruct n as [ll|]; [|intros E'; by eapply Hsame].
    case_if; [intros E'; by eapply Hsame|].
    destruct ((10 <? ll) && auth) eqn:Ea; [intros E'; by eapply Hsame|].
    destruct Hw as (Hw1 & Hw2 & _).
    assert (within (mkView tl ll (blen v) (args v))) as Hw'.
    { split; [done|]. split; [done|]. intros ->. rewrite andb_true_r in Ea. simpl. rewrite Hn by done.
      change (zlen (@nil (list Z))) with 0. zb. lia. }
    case_if.
    + intros [= <- <-]. split; [|simpl; split; lia]. split; [done|]. split; [done|].
      intros _. simpl. rewrite Hn by done. change (zlen (@nil (list Z))) with 0. lia.
    + intros El. assert (v_ok (mkView tl ll (blen v) (args v))) as Hv' by (split_and!; simpl; lia).
      destruct (a_loop_within (Z.to_nat ll) _ _ _ Hv' Hw' ltac:(simpl; lia) El) as (H1 & H2 & _).
      simpl in H2. split; [done|]. split; intros; lia.
  - intros El. destruct (a_loop_within (Z.to_nat (todo v)) _ _ _ Hv Hw ltac:(lia) El) as (H1 & H2 & H3).
    split; [done|]. split; [done|]. intros ->. apply H3; [done|lia].
Qed.

(** *** How much of the input a call that stops has left *)

Lemma a_loop_shorter fuel v v' r :
  v_ok v → todo v = Z.of_nat fuel → a_loop max_bulk auth fuel v = Some (v', r) →
  zlen (rest v') <= zlen (rest v).
Proof.
  revert v. induction fuel as [|fuel IH]; intros v Hv Hf; cbn [a_loop]; [case_if; [intros [= <- _]; lia|lia]|].
  case_if; [lia|]. pose proof Hv as (Hb & Ht & _).
  assert (match (if blen v =? -1 then a_find max_bulk auth v else ANext v) with
    | ANext w => 0 <= blen w ∧ todo w = todo v ∧ zlen (rest w) <= zlen (rest v) | _ => True end) as Hs.
  { case_if; [|lia]. destruct (a_find max_bulk auth v) eqn:E; try done.
    pose proof (a_find_shorter _ _ E). apply a_find_blen in E. lia. }
  destruct (if blen v =? -1 then a_find max_bulk auth v else ANext v) as [|e|w]; [intros [= <- _]; lia..|].
  unfold a_read. case_if; [intros [= <- _]; lia|]. intros E. destruct Hs as (Hbw & Htw & Hlw).
  apply IH in E; simpl in *; [rewrite zlen_drop in E; lia|split_and!; simpl; lia|lia].
Qed.

(** A line that [d] completes ends in [d]. *)
Lemma read_line_more p d ch n tl :
  read_line (p ++ d) = LNum ch n tl → (∀ ch n tl, read_line p ≠ LNum ch n tl) → zlen tl <= zlen d.
Proof.
  unfold read_line. intros E Hp.
  destruct (strchr_off (p ++ d) CR) as [k|] eqn:Ek; [|by destruct (_ <? zlen (p ++ d))].
  revert E. case_if; [done|]. intros [= _ _ <-]. rewrite zlen_drop, zlen_app in *.
  pose proof (strchr_off_bounds _ _ _ Ek). pose proof (zlen_nonneg d).
  destruct (strchr_off p CR) as [j|] eqn:Ej.
  - rewrite (strchr_off_app _ _ d j Ej) in Ek. injection Ek as ->.
    destruct (zlen p - 2 <? k) eqn:E; [zb; lia|by edestruct Hp].
  - destruct (strchr_off_none_app p CR d Ej) as [E|(k' & E & Hk)]; rewrite Ek in E; [done|].
    injection E as <-. lia.
Qed.

Lemma a_read_loop fuel u x r :
  0 <= blen u → todo u = Z.of_nat (S fuel) →
  match a_read u with
  | ABreak => Some (u, More) | ABad e => Some (u, Bad e) | ANext u' => a_loop max_bulk auth fuel u'
  end = Some (x, r) →
  (x = u ∧ r = More ∧ zlen (rest u) < blen u + 2) ∨ zlen (rest x) + blen u + 2 <= zlen (rest u).
Proof.
  intros Hb Ht. unfold a_read. case_if; [intros [= <- <-]; left; split_and!; (done || lia)|].
  intros E. right. apply a_loop_shorter in E; simpl in *; [rewrite zlen_drop in E; lia|split_and!; simpl; lia|lia].
Qed.

Lemma a_parse_more_tail v w d :
  v_ok v → a_parse max_bulk auth v = Some (v, More) →
  a_parse max_bulk auth (extend v d) = Some (w, Done) → zlen (rest w) <= zlen d.
Proof.
  intros Hv Hp. pose proof Hv as (Hb & Ht & H0). unfold a_parse in *. simpl todo. simpl rest. revert Hp.
  case_if.
  - intros Hp. destruct (read_line (rest v ++ d)) as [| | |ch n tl] eqn:E; try discriminate.
    assert (zlen tl <= zlen d) as Htl.
    { apply (read_line_more _ _ _ _ _ E). intros ch' n' tl' E'. rewrite E' in Hp. revert Hp.
      destruct n' as [ll|]; [|discriminate]. repeat (case_if; [discriminate|]). intros Hl.
      apply read_line_shorter in E'. apply a_loop_shorter in Hl; simpl in *; [lia|split_and!; simpl; lia|lia]. }
    destruct n as [ll|]; [|discriminate]. repeat (case_if; [discriminate|]).
    case_if; [intros [= <-]; exact Htl|]. intros Hl.
    apply a_loop_shorter in Hl; simpl in *; [lia|split_and!; simpl; lia|lia].
  - destruct (Z.to_nat (todo v)) as [|f] eqn:Ef; [lia|]. cbn [a_loop]. simpl todo. simpl blen.
    case_if; [lia|]. case_if; zb.
    + destruct (a_find max_bulk auth v) as [|e|u] eqn:Ev; [|discriminate|].
      * intros _. destruct (a_find max_bulk auth (extend v d)) as [|e|u] eqn:Eu; [discriminate..|].
        assert (zlen (rest u) <= zlen d) as Hu.
        { revert Ev Eu. unfold a_find. simpl rest. intros Ev Eu.
          destruct (read_line (rest v ++ d)) as [| | |ch n tl] eqn:E; try discriminate.
          assert (zlen tl <= zlen d) as Htl.
          { apply (read_line_more _ _ _ _ _ E). intros ch' n' tl' E'. rewrite E' in Ev. revert Ev.
            case_if; [discriminate|]. destruct n'; [|discriminate]. by repeat (case_if; [discriminate|]). }
          revert Eu. case_if; [discriminate|]. destruct n; [|discriminate].
          repeat (case_if; [discriminate|]). by intros [= <-]. }
        apply a_find_blen in Eu as [Hbu Htu]. simpl in Htu. intros E.
        apply a_read_loop in E; [|lia..]. destruct E as [(_ & ? & _)|E]; [discriminate|lia].
      * pose proof (a_find_shorter _ _ Ev). apply a_find_blen in Ev as [Hbu Htu]. intros E.
        apply a_read_loop in E; [|lia..]. destruct E as [(<- & _)|E]; lia.
    + intros E1 E2. apply a_read_loop in E1; [|lia..]. apply a_read_loop in E2; [|simpl; lia..].
      simpl in E2. rewrite zlen_app in E2.
      destruct E1 as [(_ & _ & E1)|E1]; [|lia]. destruct E2 as [(_ & ? & _)|E2]; [discriminate|lia].
Qed.
End Limits.

Section Stream.
Variable proto_max_bulk_len : Z.

Definition client_within (c : client) : Prop :=
  within (limit proto_max_bulk_len c) (auth_required c) (view_of c).

(** (C11) For any bytes in the query buffer, [processMultibulkBuffer] fails no
    assertion, reads inside the buffer and stores inside [argv]; it keeps the invariant.  A
    command it returns is complete, records the total length of its arguments, and respects the limits: no argument longer
    than [proto_max_bulk_len] unless the client is a master, and at most 10 arguments of at most
    16384 bytes from a client that has not authenticated. *)
Theorem processMultibulkBuffer_safe c :
  inv c → starts c → client_within c →
  ∃ c' r, processMultibulkBuffer proto_max_bulk_len c = Some (c', r) ∧ inv c' ∧ client_within c' ∧
    (r = C_OK →
       multibulklen c' = 0 ∧ read_error c' = read_error c ∧ argv_len_sum c' = total (argv c') ∧
       Forall (λ a, is_master c = false → zlen a <= proto_max_bulk_len) (argv c') ∧
       (auth_required c = true → zlen (argv c') <= 10 ∧ Forall (λ a, zlen a <= 16384) (argv c'))).
Proof.
  intros Hc Hs Hw.
  destruct (process_refines proto_max_bulk_len c Hc Hs) as (c' & r & -> & E & Hc' & Ho).
  destruct (a_parse_result (limit proto_max_bulk_len c) (auth_required c) _ (inv_view c Hc)) as (v' & r' & E' & _ & Hd & _).
  rewrite E in E'. injection E' as <- <-.
  destruct (a_parse_within _ _ _ _ _ (inv_view c Hc) Hw (λ H, proj1 (Hs H)) E) as [Hw' _].
  destruct Ho as (Hm & Ha & _ & He).
  exists c', (ret_of r). split; [done|]. split; [done|].
  assert (client_within c') as Hcw by (unfold client_within, limit; by rewrite Hm, Ha).
  split; [done|]. intros Hr. destruct r; try discriminate. specialize (Hd eq_refl). simpl in Hd.
  split; [done|]. split; [done|]. split; [by apply inv_total|].
  destruct Hw' as (Hargs & _ & Hcount). simpl in Hargs, Hcount. split.
  - eapply list.Forall_impl; [exact Hargs|]. intros a [Hl _] Hnm. unfold too_long, limit in Hl.
    rewrite Hnm in Hl. zb. lia.
  - intros Hau. specialize (Hcount Hau). split; [lia|].
    eapply list.Forall_impl; [exact Hargs|]. intros a [_ Hl]. auto.
Qed.

(** An encoded request at the position is parsed into its arguments and
    nothing more is consumed. *)
Theorem processMultibulkBuffer_roundtrip c l tl :
  inv c → multibulklen c = 0 → argv c = [] →
  unread c = Some (enc_request l ++ tl) →
  request_ok (limit proto_max_bulk_len c) (auth_required c) l →
  ∃ c', processMultibulkBuffer proto_max_bulk_len c = Some (c', C_OK) ∧
    argv c' = l ∧ unread c' = Some tl ∧ read_error c' = read_error c.
Proof.
  intros Hc Hm Ha Hu Hl. rewrite (unread_inv c Hc) in Hu. injection Hu as Hu.
  pose proof (inv_view c Hc) as (_ & _ & Hb). simpl in Hb. specialize (Hb Hm).
  assert (view_of c = mkView (enc_request l ++ tl) 0 (-1) []) as Hv.
  { unfold view_of. rewrite Hm, Hb, Ha. f_equal. exact Hu. }
  destruct (process_refines proto_max_bulk_len c Hc) as (c' & r & Hp & E & Hc' & Ho).
  { intros _. split; [done|]. by rewrite Hv. }
  rewrite Hv, a_parse_request in E by done. clear Hv. apply (inj Some), pair_equal_spec in E as [Hv' <-].
  exists c'. split; [done|]. split; [by apply (f_equal args) in Hv'|].
  split; [|by destruct Ho as (_ & _ & _ & ->)].
  rewrite (unread_inv c' Hc'). f_equal. by apply (f_equal rest) in Hv'.
Qed.

(** [l] as arrives on the wire, followed by a length line that starts with [ch]
    and goes on with [s], and by anything else; the header announces [n]
    arguments. *)
Definition enc_broken (n : Z) (l : list (list Z)) (ch : Z) (s tl : list Z) : list Z :=
  [STAR] ++ sdec n ++ crlf ++ concat (enc_bulk <$> l) ++ [ch] ++ s ++ crlf ++ tl.

(** (C39) A request whose first arguments are fine and whose next argument length
    is not is rejected with the error for that line: a wrong first character, a
    length that is no number, negative or above the limit, or one above what a
    client may send before authentication. *)
Theorem processMultibulkBuffer_error c n l ch s tl e :
  inv c → multibulklen c = 0 → argv c = [] →
  unread c = Some (enc_broken n l ch s tl) →
  zlen l < n <= INT_MAX → (auth_required c = true → n <= 10) →
  Forall (arg_ok (limit proto_max_bulk_len c) (auth_required c)) l →
  ch ≠ CR → ch ≠ 0 → Forall (λ x, x ≠ CR ∧ x ≠ 0) s →
  bulk_error (limit proto_max_bulk_len c) (auth_required c) ch s = Some e →
  ∃ c', processMultibulkBuffer proto_max_bulk_len c = Some (c', C_ERR) ∧
    read_error c' = Some e ∧ argv c' = l.
Proof.
  intros Hc Hm Ha Hu Hn Hau Hl Hch H0 Hs He. unfold enc_broken in Hu.
  rewrite (unread_inv c Hc) in Hu. apply (inj Some) in Hu.
  pose proof (inv_view c Hc) as (_ & _ & Hb). simpl in Hb. specialize (Hb Hm).
  destruct (a_parse_bad _ _ l n ch s tl e Hn Hau Hl Hch H0 Hs He) as (v & E & Hv).
  rewrite <- Hu in E.
  assert (view_of c = mkView (rest (view_of c)) 0 (-1) []) as Hview.
  { unfold view_of at 1. by rewrite Hm, Hb, Ha. }
  rewrite <- Hview in E.
  destruct (process_refines proto_max_bulk_len c Hc) as (c' & r & Hp & E' & Hc' & Ho).
  { intros _. split; [done|]. by rewrite Hu. }
  rewrite E in E'. apply (inj Some), pair_equal_spec in E' as [-> <-].
  exists c'. split; [done|]. split; [by destruct Ho as (_ & _ & _ & ->)|done].
Qed.

(** ** Streams of requests *)

(** Between two requests. *)
Definition idle (c : client) : Prop :=
  reqtype c = REQ_UNKNOWN ∧ multibulklen c = 0 ∧ bulklen c = -1 ∧ argv c = [].

Variable auth : bool.
Abbreviation lim := (Some proto_max_bulk_len).
Abbreviation parse := (a_parse lim auth).

Definition encode (cmds : list (list (list Z))) : list Z := concat (enc_request <$> cmds).

(** A client, not a master, that is served normally. *)
Record client_ok (c : client) : Prop := {
  ok_inv : inv c;
  ok_master : is_master c = false;
  ok_auth : auth_required c = auth;
  ok_error : read_error c = None;
  ok_within : client_within c;
}.

(** The bytes [Q] still to be read complete the commands [cmds]. *)
Definition in_request (c : client) (Q : list Z) (cmds : list (list (list Z))) : Prop :=
  reqtype c = PROTO_REQ_MULTIBULK ∧ starts c ∧
  ∃ l cmds', cmds = l :: cmds' ∧ parse (extend (view_of c) Q) = Some (mkView (encode cmds') 0 (-1) l, Done) ∧
    zlen (rest (view_of c)) + zlen Q <= zlen (encode cmds).

Definition waiting (c : client) (Q : list Z) (cmds : list (list (list Z))) : Prop :=
  client_ok c ∧
  ((idle c ∧ rest (view_of c) = [] ∧ Q = encode cmds) ∨
   (in_request c Q cmds ∧ parse (view_of c) = Some (view_of c, More))).

Lemma head_request l tl : head (enc_request l ++ tl) = Some STAR.
Proof. done. Qed.

Lemma enc_request_pos l : 0 < zlen (enc_request l).
Proof. unfold enc_request. rewrite zlen_app. change (zlen [STAR]) with 1. pose proof (zlen_nonneg (sdec (zlen l) ++ crlf ++ concat (enc_bulk <$> l))). lia. Qed.

Lemma loop_enter c : inv c → (qb_pos c <? zlen (querybuf c)) = bool_decide (rest (view_of c) ≠ []).
Proof.
  intros Hc. pose proof (rest_zlen c Hc) as Hz. case_bool_decide as H.
  - assert (zlen (rest (view_of c)) ≠ 0) by (intros E; by apply zlen_0_nil in E).
    pose proof (zlen_nonneg (rest (view_of c))). zb. lia.
  - rewrite H in Hz. zb. change (zlen (@nil Z)) with 0 in Hz. lia.
Qed.

Lemma client_ok_reset c : client_ok c → client_ok (resetClientInternal c false) ∧ idle (resetClientInternal c false).
Proof.
  intros [Hi Hm Ha He Hw]. split; [|done]. destruct Hi as [H1 H2 H3 H4 H5 H6 H7 H8].
  assert (0 <= argv_len c) by (pose proof (zlen_nonneg (argv c)); unfold argc in *; lia).
  split; try done.
  - split; unfold argc; simpl; change (zlen (@nil (list Z))) with 0; try done; try lia.
Qed.

(** One call of the parser inside a request. *)
Lemma in_request_step c Q l cmds' :
  client_ok c → reqtype c = PROTO_REQ_MULTIBULK → starts c →
  parse (extend (view_of c) Q) = Some (mkView (encode cmds') 0 (-1) l, Done) →
  zlen (rest (view_of c)) + zlen Q <= zlen (encode (l :: cmds')) →
  ∃ c' r, processMultibulkBuffer proto_max_bulk_len c = Some (c', ret_of r) ∧ client_ok c' ∧
    match r with
    | Done => rest (view_of c') ++ Q = encode cmds' ∧ argv c' = l ∧
              zlen (rest (view_of c')) < zlen (rest (view_of c))
    | More => waiting c' Q (l :: cmds') ∧ zlen (rest (view_of c')) <= zlen (rest (view_of c))
    | Bad _ => False
    end.
Proof.
  intros [Hi Hm Ha He Hw] Hrt Hs HQ HlQ.
  destruct (process_refines proto_max_bulk_len c Hi Hs) as (c' & r & E & Ep & Hi' & Ho).
  assert (limit proto_max_bulk_len c = lim) as Hlim by (unfold limit; by rewrite Hm).
  unfold client_within in Hw. rewrite Hlim, Ha in Ep, Hw.
  pose proof (a_parse_app lim auth (view_of c) Q (inv_view c Hi)) as Hc.
  pose proof (a_parse_app lim auth (view_of c) [] (inv_view c Hi)) as Hn.
  destruct (a_parse_result lim auth _ (inv_view c Hi)) as (v & r0 & E0 & _ & _ & Hmore).
  rewrite Ep in E0, Hc, Hn. apply (inj Some), pair_equal_spec in E0 as [<- <-].
  destruct (a_parse_within _ _ _ _ _ (inv_view c Hi) Hw (λ H, proj1 (Hs H)) Ep) as (Hw' & Hle & Hlt).
  destruct Ho as (Gm & Ga & Gr & Ge).
  exists c', r. split; [done|].
  assert (match r with Bad _ => False | _ => True end) as Hbad.
  { destruct r; [done|done|]. simpl in Hc. by rewrite HQ in Hc. }
  assert (client_ok c') as Hok'.
  { split; try congruence; try done.
    - rewrite Ge. by destruct r.
    - unfold client_within, limit. by rewrite Gm, Hm, Ga, Ha. }
  split; [done|]. destruct r; [| |done]; simpl in Hc, Hn; rewrite HQ in Hc.
  - apply (inj Some), pair_equal_spec in Hc as [Hc _].
    split; [by apply (f_equal rest) in Hc|]. split; [by apply (f_equal args) in Hc|]. by apply Hlt.
  - split; [|done]. split; [done|]. right. rewrite !extend_nil, Ep in Hn. split.
    + split; [congruence|]. split; [|exists l, cmds'; split_and!; [done|done|lia]].
      destruct (Hmore eq_refl) as [Hv|Hv].
      * intros H0. pose proof (f_equal todo Hv) as Ht. pose proof (f_equal args Hv) as Hga. simpl in Ht, Hga.
        destruct (Hs ltac:(lia)) as [A1 A2]. split; [congruence|by rewrite Hv].
      * intros H0. simpl in Hv. lia.
    + done.
Qed.

(** The loop of [processInputBuffer]: the requests completed by the buffer are
    executed in order, and the rest of the stream completes the others. *)
Lemma input_loop_stream fuel c Q cmds executed :
  client_ok c → Forall (request_ok lim auth) cmds →
  (idle c ∧ rest (view_of c) ++ Q = encode cmds) ∨ (in_request c Q cmds ∧ rest (view_of c) ≠ []) →
  (length (rest (view_of c)) <= fuel)%nat →
  ∃ c' done todo, input_loop proto_max_bulk_len fuel c executed = Some (c', executed ++ done) ∧
    cmds = done ++ todo ∧ waiting c' Q todo ∧ zlen (rest (view_of c')) <= zlen (rest (view_of c)).
Proof.
  assert (∀ c cmds executed, client_ok c → idle c → rest (view_of c) = [] → Q = encode cmds →
    ∃ c' done todo, Some (c, executed) = Some (c', executed ++ done) ∧
      cmds = done ++ todo ∧ waiting c' Q todo ∧ zlen (rest (view_of c')) <= zlen (rest (view_of c))) as Hexit.
  { intros c1 cmds1 ex1 ????. exists c1, [], cmds1. rewrite app_nil_r.
    split; [done|]. split; [done|]. split; [|lia]. split; [done|by left]. }
  revert c cmds executed. induction fuel as [|fuel IH]; intros c cmds executed Hok Hcmds Hst Hf;
    cbn [input_loop]; rewrite (loop_enter c (ok_inv c Hok));
    destruct (decide (rest (view_of c) = [])) as [Hnil|Hne].
  1, 3: destruct Hst as [[Hid HQ]|[_ Hne]]; [|done]; rewrite Hnil in HQ;
    rewrite bool_decide_false by (intros H; done); by apply Hexit.
  { destruct (rest (view_of c)); [done|simpl in Hf; lia]. }
  rewrite bool_decide_true by done. cbn [negb].
  set (c0 := set_reqtype c PROTO_REQ_MULTIBULK).
  assert (client_ok c0) as Hok0.
  { destruct Hok as [[H1 H2 H3 H4 H5 H6 H7 H8] G1 G2 G3 G4]. split; try done. }
  assert (∃ l cmds', cmds = l :: cmds' ∧ starts c0 ∧
    (match reqtype c with
     | REQ_UNKNOWN => ch ← current_byte c;
         Some (set_reqtype c (if ch =? STAR then PROTO_REQ_MULTIBULK else PROTO_REQ_INLINE))
     | _ => Some c
     end) = Some c0 ∧
    parse (extend (view_of c0) Q) = Some (mkView (encode cmds') 0 (-1) l, Done) ∧
    zlen (rest (view_of c0)) + zlen Q <= zlen (encode cmds)) as (l & cmds' & -> & Hs0 & -> & HQ & HlQ).
  { destruct Hst as [[(Hr & Hm & Hb & Ha) HQ]|[(Hr & Hs & l & cmds' & -> & HQ & HlQ) _]].
    - destruct cmds as [|l cmds']; [by destruct (rest (view_of c))|].
      assert (zlen (rest (view_of c)) + zlen Q <= zlen (encode (l :: cmds'))) as HlQ by (rewrite <- HQ, zlen_app; lia).
      unfold encode in HQ. rewrite fmap_cons in HQ. cbn [concat] in HQ.
      assert (head (rest (view_of c)) = Some STAR) as Hstar by (by destruct (rest (view_of c)); [|injection HQ as -> _]).
      exists l, cmds'. split; [done|]. split; [done|]. split.
      + rewrite Hr. unfold current_byte. rewrite (unread_inv c (ok_inv c Hok)). cbn [mbind option_bind].
        by rewrite Hstar.
      + split; [|exact HlQ]. apply list.Forall_cons in Hcmds as [Hl _].
        assert (extend (view_of c0) Q = mkView (enc_request l ++ encode cmds') 0 (-1) []) as ->; [|by apply a_parse_request].
        unfold extend. change (rest (view_of c0)) with (rest (view_of c)). rewrite HQ.
        change (todo (view_of c0)) with (multibulklen c). change (blen (view_of c0)) with (bulklen c).
        change (args (view_of c0)) with (argv c). by rewrite Hm, Hb, Ha.
    - exists l, cmds'. split; [done|]. split; [done|]. rewrite Hr. subst c0.
      split; [f_equal; destruct c; simpl in Hr; by subst|done]. }
  cbn [mbind option_bind]. change (reqtype c0) with PROTO_REQ_MULTIBULK. cbv iota.
  destruct (in_request_step c0 Q l cmds' Hok0 eq_refl Hs0 HQ HlQ) as (c1 & r & -> & Hok1 & Hr).
  change (rest (view_of c0)) with (rest (view_of c)) in Hr. cbn [mbind option_bind].
  destruct r; simpl ret_of; cbv iota; [| |done].
  - destruct Hr as (HQ1 & Hargs & Hlt). apply list.Forall_cons in Hcmds as [Hl Hcmds'].
    destruct (client_ok_reset c1 Hok1) as [Hok2 Hid2].
    destruct (IH (resetClientInternal c1 false) cmds' (executed ++ [argv c1]) Hok2 Hcmds') as (c' & dn & td & E & Ec & Hw & Hle).
    { left. done. }
    { change (rest (view_of (resetClientInternal c1 false))) with (rest (view_of c1)). unfold zlen in *. lia. }
    assert ((argc c1 =? 0) = false) as ->.
    { unfold argc. rewrite Hargs. destruct Hl as [Hl _]. zb. lia. }
    change (rest (view_of (resetClientInternal c1 false))) with (rest (view_of c1)) in Hle.
    exists c', (l :: dn), td. rewrite E, Hargs, <- app_assoc.
    split; [done|]. split; [by rewrite Ec|]. split; [done|]. lia.
  - destruct Hr as [Hw Hle]. exists c1, [], (l :: cmds'). by rewrite app_nil_r.
Qed.

(** *** Reads *)

Variable client_max_querybuf_len : Z.

(** The longest contents of a query buffer. *)
Definition buf_limit : Z :=
  if auth then Z.min client_max_querybuf_len (1024 * 1024) else client_max_querybuf_len.

Abbreviation read_query := (readQueryFromClient proto_max_bulk_len client_max_querybuf_len).

(** A series of reads; a client with an error is being closed and gets no more. *)
Fixpoint on_reads (c : client) (ds : list (list Z)) : option (client * list (list (list Z))) :=
  match ds, read_error c with
  | d :: ds, None => '(c, e1) ← read_query c d; '(c, e2) ← on_reads c ds; Some (c, e1 ++ e2)
  | _, _ => Some (c, [])
  end.

Lemma feed_same c d (P : client → Prop) :
  (∀ v, P (set_peak (set_querybuf c (querybuf c ++ d) (qb_pos c)) v)) → P (feed c d).
Proof.
  intros H. unfold feed. case_if; [apply H|]. specialize (H (querybuf_peak c)). by destruct c.
Qed.

Lemma feed_view c d : inv c → view_of (feed c d) = extend (view_of c) d.
Proof.
  intros [H1 _ _ _ _ _ _ _]. apply feed_same. intros v. unfold view_of, extend. simpl. f_equal.
  rewrite drop_app_le; [done|]. unfold zlen in *. lia.
Qed.

Lemma feed_querybuf c d : querybuf (feed c d) = querybuf c ++ d ∧ qb_pos (feed c d) = qb_pos c.
Proof. by apply feed_same. Qed.

Lemma client_ok_feed c d :
  client_ok c → zlen (querybuf c) + zlen d < 2 ^ 62 → client_ok (feed c d) ∧ (idle c → idle (feed c d)).
Proof.
  intros [Hi Hm Ha He Hw] Hl. pose proof (zlen_nonneg d). apply feed_same. intros v. split; [|done].
  split; try done. destruct Hi as [H1 H2 H3 H4 H5 H6 H7 H8]. split; simpl; rewrite ?zlen_app; try done; lia.
Qed.

Lemma under_limit c :
  client_ok c → zlen (querybuf c) <= buf_limit → over_querybuf_limit client_max_querybuf_len c = false.
Proof.
  intros [Hi Hm Ha He Hw] Hl. unfold over_querybuf_limit, buf_limit in *. rewrite Hm, Ha. cbn [negb andb].
  apply orb_false_iff. destruct auth; rewrite ?andb_true_r, ?andb_false_r; split; try done; zb; lia.
Qed.

(** Trimming the buffer to its unread part changes nothing else. *)
Lemma waiting_trim c Q cmds :
  waiting c Q cmds →
  let c' := if negb (qb_pos c =? 0) then set_querybuf c (range (querybuf c) (qb_pos c) (-1)) 0 else c in
  waiting c' Q cmds ∧ qb_pos c' = 0.
Proof.
  intros [Hok Hw] c'. pose proof (ok_inv c Hok) as Hi. pose proof (inv_pos c Hi) as Hp.
  assert (∀ b, b = drop (Z.to_nat (qb_pos c)) (querybuf c) →
    waiting (set_querybuf c b 0) Q cmds ∧ qb_pos (set_querybuf c b 0) = 0) as Hset.
  { intros b ->. split; [|done]. split.
    - destruct Hok as [[H1 H2 H3 H4 H5 H6 H7 H8] G1 G2 G3 G4]. split; try done.
      split; simpl; rewrite ?zlen_drop; try done; lia.
    - exact Hw. }
  subst c'. destruct (qb_pos c =? 0) eqn:E; simpl negb; cbv iota.
  - by zb.
  - apply Hset. by apply range_tail.
Qed.

(** What a waiting client keeps is part of the next request. *)
Lemma waiting_rest c Q cmds :
  waiting c Q cmds → Q ≠ [] →
  ∃ l cmds', cmds = l :: cmds' ∧ zlen (rest (view_of c)) <= zlen (enc_request l).
Proof.
  intros [Hok Hw] HQ. destruct Hw as [(Hid & Hr & ->)|[(Hr & Hs & l & cmds' & -> & Hp & Hz) Hm]].
  - destruct cmds as [|l cmds']; [done|]. exists l, cmds'. split; [done|]. rewrite Hr.
    pose proof (enc_request_pos l). change (zlen (@nil Z)) with 0. lia.
  - exists l, cmds'. split; [done|].
    pose proof (a_parse_more_tail _ _ _ _ _ (inv_view c (ok_inv c Hok)) Hm Hp) as Ht. simpl in Ht.
    revert Hz. unfold encode. rewrite fmap_cons. cbn [concat]. rewrite zlen_app.
    fold (encode cmds'). lia.
Qed.

Lemma read_stream c d Q cmds :
  waiting c (d ++ Q) cmds → Forall (request_ok lim auth) cmds → d ≠ [] → qb_pos c = 0 →
  Forall (λ l, zlen (enc_request l) + zlen d <= buf_limit) cmds → buf_limit < 2 ^ 62 →
  ∃ c' done todo, read_query c d = Some (c', done) ∧ cmds = done ++ todo ∧ waiting c' Q todo ∧ qb_pos c' = 0.
Proof.
  intros Hwt Hcmds Hd Hpos Hbig Hlim. pose proof Hwt as [Hok Hw]. pose proof (ok_inv c Hok) as Hi.
  assert (zlen (querybuf c) + zlen d <= buf_limit) as Hl.
  { destruct (waiting_rest _ _ _ Hwt) as (l & cmds' & -> & Hz); [by intros [? _]%app_eq_nil|].
    apply list.Forall_cons in Hbig as [Hbig _]. rewrite (rest_zlen c Hi) in Hz. lia. }
  destruct (client_ok_feed c d) as [Hok' Hid']; [done|lia|]. destruct (feed_querybuf c d) as [Hq Hqp].
  unfold readQueryFromClient. rewrite (proj2 (Z.eqb_neq (zlen d) 0)) by (intros ?%zlen_0_nil; done).
  rewrite under_limit by (done || rewrite Hq, zlen_app; done).
  unfold processInputBuffer. rewrite (ok_master _ Hok'). cbn [negb guard mbind option_bind].
  destruct (input_loop_stream (length (querybuf (feed c d))) (feed c d) Q cmds []) as (c1 & dn & td & -> & -> & Hw1 & Hle);
    [done|done| |simpl; rewrite length_drop; lia|].
  - rewrite !feed_view by done. destruct Hw as [(Hid & Hr & HQ)|[(Hr & Hs & l & cmds' & -> & HQ & Hz) Hm]].
    + left. split; [by apply Hid'|]. simpl. rewrite <- HQ. simpl in Hr. by rewrite Hr.
    + right. split; [|by intros [_ ?]%app_eq_nil]. split; [by apply feed_same|]. split.
      * assert (multibulklen (feed c d) = multibulklen c ∧ argv (feed c d) = argv c) as [Ef1 Ef2] by (by apply feed_same).
        unfold starts. rewrite Ef1, Ef2, feed_view by done. intros H0. destruct (Hs H0) as [A1 A2]. split; [done|].
        simpl. simpl in A2. by destruct (drop (Z.to_nat (qb_pos c)) (querybuf c)).
      * exists l, cmds'. split; [done|]. rewrite feed_view, extend_app by done. split; [done|].
        revert Hz. simpl. rewrite !zlen_app. lia.
  - cbn [mbind option_bind]. destruct (waiting_trim c1 Q td Hw1) as [Hw2 Hz2]. by eexists _, dn, td.
Qed.

(** (C8) A stream of requests, cut into reads in any way, is executed exactly: every
    command once, in order, and at the end the buffer is empty and the client
    between requests.  A request and a read together must fit the limit on
    query buffers. *)
Theorem request_stream_correct c cmds chunks :
  client_ok c → idle c → querybuf c = [] →
  Forall (request_ok lim auth) cmds → concat chunks = encode cmds → Forall (λ d, d ≠ []) chunks →
  Forall (λ l, Forall (λ d, zlen (enc_request l) + zlen d <= buf_limit) chunks) cmds → buf_limit < 2 ^ 62 →
  ∃ c', on_reads c chunks = Some (c', cmds) ∧ client_ok c' ∧ idle c' ∧ querybuf c' = [].
Proof.
  intros Hok Hid Hq Hcmds Hcat Hne Hbig Hlim.
  assert (waiting c (concat chunks) cmds) as Hw.
  { split; [done|]. left. split; [done|]. split; [|done]. simpl. rewrite Hq. apply drop_nil. }
  assert (qb_pos c = 0) as Hp.
  { pose proof (inv_pos c (ok_inv c Hok)) as Hp. rewrite Hq in Hp. change (zlen (@nil Z)) with 0 in Hp. lia. }
  clear Hid Hq Hok Hcat. revert c cmds Hcmds Hbig Hp Hw.
  induction Hne as [|d ds Hd Hds IH]; intros c cmds Hcmds Hbig Hp Hw; cbn [on_reads].
  - destruct Hw as [Hok [(Hid & Hr & HQ)|[(Hr & Hs & l & cmds' & -> & HQ & _) Hm]]].
    + exists c. simpl in Hr. rewrite Hp in Hr.
      destruct cmds as [|l cmds]; [done|]. unfold encode in HQ. rewrite fmap_cons in HQ. cbn [concat] in HQ.
      pose proof (enc_request_pos l). symmetry in HQ. apply app_eq_nil in HQ as [HQ _]. by rewrite HQ in *.
    + simpl in HQ. rewrite extend_nil, Hm in HQ. discriminate.
  - rewrite (ok_error c (proj1 Hw)).
    destruct (read_stream c d (concat ds) cmds) as (c1 & dn & td & -> & -> & Hw1 & Hp1); [done..| |done|].
    { eapply list.Forall_impl; [exact Hbig|]. intros l Hl. by apply list.Forall_cons in Hl as [Hl _]. }
    cbn [mbind option_bind]. apply Forall_app in Hcmds as [_ Htd]. apply Forall_app in Hbig as [_ Hbig].
    destruct (IH c1 td Htd) as (c' & -> & H'); [|done|done|].
    { eapply list.Forall_impl; [exact Hbig|]. intros l Hl. by apply list.Forall_cons in Hl as [_ Hl]. }
    cbn [mbind option_bind]. by exists c'.
Qed.

End Stream.

(** ** Inline requests *)

Lemma store_args_spec c l :
  argc c + zlen l <= argv_len c →
  store_args c l = Some (set_argv c (argv c ++ l) (argv_len c) (argv_len_sum c + total l)).
Proof.
  revert c. induction l as [|a l IH]; intros c Hl.
  - simpl. rewrite app_nil_r, Z.add_0_r. by destruct c.
  - rewrite zlen_cons in Hl. pose proof (zlen_nonneg l). cbn [store_args].
    rewrite (proj2 (Z.ltb_lt _ _)) by lia. cbn [guard mbind option_bind]. rewrite IH.
    + simpl. rewrite <- app_assoc. simpl. unfold set_argv. simpl. do 2 f_equal. lia.
    + unfold argc in *. simpl. rewrite zlen_app. change (zlen [a]) with 1. lia.
Qed.

Lemma quoted_line_clean l :
  Forall wf_bytes l → Forall (λ c, c ≠ LF ∧ c ≠ 0) (sdsjoinsds (sdscatrepr [] <$> l) [SPACE]).
Proof.
  intros Hl. induction Hl as [|a l Ha Hl IH]; [apply list.Forall_nil_2|]. rewrite fmap_cons, join_cons.
  apply Forall_app. split.
  - unfold sdscatrepr. simpl. apply list.Forall_cons. split; [done|]. apply Forall_app. split; [|by repeat constructor].
    induction Ha as [|c a Hc Ha IHa]; [apply list.Forall_nil_2|]. simpl. apply Forall_app. split; [|done].
    assert (forallb (λ x, negb (x =? LF) && negb (x =? 0)) (repr_char c) = true) as H.
    { revert c Hc. apply byte_enum. vm_compute. reflexivity. }
    rewrite forallb_forall in H. apply list.Forall_forall. intros x Hx%list_elem_of_In. specialize (H x Hx).
    zb. destruct H as [H1 H2]. zb. done.
  - destruct l; [apply list.Forall_nil_2|]. apply Forall_app. split; [by repeat constructor|exact IH].
Qed.

(** A line of quoted words. *)
Definition enc_inline (l : list (list Z)) : list Z :=
  sdsjoinsds (sdscatrepr [] <$> l) [SPACE] ++ crlf.

(** (C40) From a client that is not a master, a line of quoted arguments, ended by
    CRLF, becomes the command with those arguments, whatever bytes they contain, and nothing after the line is consumed. *)
Theorem processInlineBuffer_roundtrip c l tl :
  inv c → is_master c = false → Forall wf_bytes l →
  unread c = Some (enc_inline l ++ tl) →
  ∃ c', processInlineBuffer c = Some (c', C_OK) ∧
    argv c' = l ∧ unread c' = Some tl ∧ read_error c' = read_error c.
Proof.
  intros Hc Hm Hl Hu. unfold enc_inline in Hu. rewrite <- app_assoc in Hu.
  unfold processInlineBuffer. rewrite Hu. cbn [mbind option_bind].
  rewrite (unread_inv c Hc) in Hu. apply (inj Some) in Hu. pose proof (rest_zlen c Hc) as Hz.
  pose proof (inv_pos c Hc) as Hp.
  set (line := sdsjoinsds (sdscatrepr [] <$> l) [SPACE]) in *.
  pose proof (quoted_line_clean l Hl) as Hclean. fold line in Hclean.
  pose proof (sdssplitargs_joined l Hl) as Hsplit. fold line in Hsplit. clearbody line.
  assert (strchr_off (line ++ crlf ++ tl) LF = Some (zlen line + 1)) as ->.
  { change (crlf ++ tl) with ([CR] ++ LF :: tl). rewrite app_assoc, strchr_off_skip; [by rewrite zlen_app|].
    apply Forall_app. split; [done|by repeat constructor]. }
  pose proof (zlen_nonneg line). pose proof (zlen_nonneg tl).
  assert (zlen (rest (view_of c)) = zlen line + 2 + zlen tl) as Hzr by (rewrite Hu, !zlen_app; change (zlen crlf) with 2; lia).
  rewrite (proj2 (Z.eqb_neq (zlen line + 1) 0)) by lia. cbn [negb].
  assert (byte_at (qb_pos c + (zlen line + 1) - 1) (querybuf c) = Some CR) as Hb.
  { rewrite byte_at_rd. replace (qb_pos c + (zlen line + 1) - 1) with (qb_pos c + zlen line) by lia.
    rewrite rd_unread by (done || lia). rewrite Hu. unfold sub. by rewrite drop_app_zlen. }
  rewrite Hb. cbn [mbind option_bind andb]. rewrite Z.eqb_refl. cbn [andb].
  assert (rd (qb_pos c) (zlen line + 1 - 1) (querybuf c) = Some line) as ->.
  { pose proof (rd_unread c 0 (zlen line + 1 - 1) Hc) as E. rewrite Z.add_0_r in E. rewrite E by lia.
    rewrite Hu. unfold sub. replace (zlen line + 1 - 1) with (zlen line) by lia. f_equal. apply take_app_zlen. }
  cbn [mbind option_bind]. rewrite Hsplit, Hm, andb_false_r.
  set (c0 := if negb (zlen l =? 0) then _ else _).
  assert (zlen l <= argv_len c0 ∧ querybuf c0 = querybuf c ∧ qb_pos c0 = qb_pos c + zlen line + 2 ∧ read_error c0 = read_error c)
    as (Hn & Hq & Hpos & He).
  { pose proof (zlen_nonneg (argv c)). pose proof (inv_argc c Hc). unfold argc in *.
    subst c0. destruct (negb _) eqn:E; simpl.
    - split_and!; [case_if; lia|done|lia|done].
    - apply negb_false_iff, Z.eqb_eq in E. split_and!; [lia|done|lia|done]. }
  rewrite store_args_spec by (simpl; unfold argc; simpl; change (zlen (@nil (list Z))) with 0; lia).
  cbn [mbind option_bind]. eexists. split; [done|]. split; [done|]. split; [|exact He].
  unfold unread. simpl. rewrite Hq, Hpos.
  rewrite (proj2 (Z.leb_le 0 _)) by lia. rewrite (proj2 (Z.leb_le _ (zlen (querybuf c)))) by lia. simpl. f_equal.
  assert (drop (Z.to_nat (zlen line + 2)) (rest (view_of c)) = tl) as <-.
  { rewrite Hu, app_assoc. replace (zlen line + 2) with (zlen (line ++ crlf)) by (by rewrite zlen_app).
    apply drop_app_zlen. }
  simpl. rewrite drop_drop. f_equal. lia.
Qed.

(** ** A concrete client *)

#[export] Instance arg_ok_dec max auth a : Decision (arg_ok max auth a).
Proof. unfold arg_ok. apply _. Defined.
#[export] Instance request_ok_dec max auth l : Decision (request_ok max auth l).
Proof. unfold request_ok. apply _. Defined.

Definition new_client (auth : bool) : client := mkClient [] 0 0 [] 0 0 0 (-1) REQ_UNKNOWN None false auth.

Lemma new_client_ok m auth : client_ok m auth (new_client auth).
Proof.
  split; try done. split; try done. by right.
Defined.

Definition ping : list (list Z) := [bytes_of_string "PING"].
Definition set_cmd : list (list Z) := [bytes_of_string "SET"; bytes_of_string "k"; [0; 13; 10; 255]].

Definition test_stream : list Z := encode [ping; set_cmd].
(** Cut after 3 and after 20 bytes: inside a line and inside an argument. *)
Definition test_chunks : list (list Z) :=
  [take 3 test_stream; take 17 (drop 3 test_stream); drop 20 test_stream].

Lemma request_stream_witness :
  Forall (request_ok (Some 1000) false) [ping; set_cmd] ∧
  ∃ c', on_reads 1000 80 (new_client false) test_chunks = Some (c', [ping; set_cmd]) ∧
    client_ok 1000 false c' ∧ idle c' ∧ querybuf c' = [].
Proof.
  assert (Forall (request_ok (Some 1000) false) [ping; set_cmd]) as H by (apply (bool_decide_unpack _); vm_compute; exact I).
  split; [exact H|].
  pose proof (request_stream_correct 1000 false 80 (new_client false) [ping; set_cmd] test_chunks
    (new_client_ok 1000 false)) as Hx.
  assert (idle (new_client false)) as H1 by (vm_compute; auto).
  assert (concat test_chunks = encode [ping; set_cmd]) as H3 by (vm_compute; reflexivity).
  assert (Forall (λ d, d ≠ []) test_chunks) as H4.
  { repeat (apply list.Forall_cons; split; [vm_compute; discriminate|]). apply list.Forall_nil_2. }
  assert (Forall (λ l, Forall (λ d, zlen (enc_request l) + zlen d <= buf_limit false 80) test_chunks) [ping; set_cmd]) as H5
    by (apply (bool_decide_unpack _); vm_compute; exact I).
  assert (buf_limit false 80 < 2 ^ 62) as H6 by (vm_compute; reflexivity).
  exact (Hx H1 eq_refl H H3 H4 H5 H6).
Defined.

(** A client in the middle of a buffer, with a request to read. *)
Definition reading (b : list Z) : client :=
  set_querybuf (new_client true) b 0.

Lemma reading_inv b : zlen b < 2 ^ 62 → inv (reading b).
Proof.
  intros Hb. pose proof (zlen_nonneg b). split; try done; simpl; try lia.
Defined.

Lemma processMultibulkBuffer_roundtrip_witness :
  request_ok (Some 1000) true ping ∧
  ∃ c', processMultibulkBuffer 1000 (reading (enc_request ping ++ [42])) = Some (c', C_OK) ∧
    argv c' = ping ∧ unread c' = Some [42] ∧ read_error c' = None.
Proof.
  assert (request_ok (Some 1000) true ping) as H by (apply (bool_decide_unpack _); vm_compute; exact I).
  split; [exact H|].
  assert (inv (reading (enc_request ping ++ [42]))) as Hi by (apply reading_inv; vm_compute; reflexivity).
  assert (unread (reading (enc_request ping ++ [42])) = Some (enc_request ping ++ [42])) as Hu by (vm_compute; reflexivity).
  exact (processMultibulkBuffer_roundtrip 1000 (reading (enc_request ping ++ [42])) ping [42] Hi eq_refl eq_refl Hu H).
Defined.

Lemma processMultibulkBuffer_safe_witness :
  ∃ c' r, processMultibulkBuffer 1000 (reading [42; 57; 57; 13; 10]) = Some (c', r) ∧ inv c' ∧
    client_within 1000 c' ∧
    (r = C_OK →
       multibulklen c' = 0 ∧ read_error c' = None ∧ argv_len_sum c' = total (argv c') ∧
       Forall (λ a, is_master (reading [42; 57; 57; 13; 10]) = false → zlen a <= 1000) (argv c') ∧
       (true = true → zlen (argv c') <= 10 ∧ Forall (λ a, zlen a <= 16384) (argv c'))).
Proof.
  assert (inv (reading [42; 57; 57; 13; 10])) as H1 by (apply reading_inv; vm_compute; reflexivity).
  assert (starts (reading [42; 57; 57; 13; 10])) as H2 by (intros _; split; reflexivity).
  assert (client_within 1000 (reading [42; 57; 57; 13; 10])) as H3.
  { split; [apply list.Forall_nil_2|]. split; simpl; [lia|]. intros _. vm_compute. discriminate. }
  exact (processMultibulkBuffer_safe 1000 (reading [42; 57; 57; 13; 10]) H1 H2 H3).
Defined.

(** "*2 PING -1": a negative length. *)
Definition bad_request : list Z :=
  [STAR] ++ sdec 2 ++ crlf ++ concat (enc_bulk <$> ping) ++ [DOLLAR] ++ [45; 49] ++ crlf ++ [].

Lemma processMultibulkBuffer_error_witness :
  ∃ c', processMultibulkBuffer 1000 (reading bad_request) = Some (c', C_ERR) ∧
    read_error c' = Some CLIENT_READ_INVALID_BUCK_LENGTH ∧ argv c' = ping.
Proof.
  assert (inv (reading bad_request)) as H1 by (apply reading_inv; vm_compute; reflexivity).
  assert (unread (reading bad_request) = Some bad_request) as H2 by (vm_compute; reflexivity).
  assert (zlen ping < 2 <= INT_MAX) as H3 by (vm_compute; split; [reflexivity|discriminate]).
  assert (auth_required (reading bad_request) = true → 2 <= 10) as H4 by (intros _; lia).
  assert (Forall (arg_ok (Some 1000) true) ping) as H5 by (apply (bool_decide_unpack _); vm_compute; exact I).
  assert (DOLLAR ≠ CR) as H6 by discriminate. assert (DOLLAR ≠ 0) as H7 by discriminate.
  assert (Forall (λ x, x ≠ CR ∧ x ≠ 0) [45; 49]) as H8 by (apply (bool_decide_unpack _); vm_compute; exact I).
  exact (processMultibulkBuffer_error 1000 (reading bad_request) 2 ping DOLLAR [45; 49] []
    CLIENT_READ_INVALID_BUCK_LENGTH H1 eq_refl eq_refl H2 H3 H4 H5 H6 H7 H8 eq_refl).
Defined.

Lemma processInlineBuffer_roundtrip_witness :
  ∃ c', processInlineBuffer (reading ([34; 83; 69; 84; 34; 32; 34; 97; 32; 98; 34] ++ [13; 10; 42])) = Some (c', C_OK) ∧
    argv c' = [bytes_of_string "SET"; bytes_of_string "a b"] ∧ unread c' = Some [42] ∧ read_error c' = None.
Proof.
  set (b := [34; 83; 69; 84; 34; 32; 34; 97; 32; 98; 34] ++ [13; 10; 42]).
  assert (inv (reading b)) as H1 by (apply reading_inv; vm_compute; reflexivity).
  assert (Forall wf_bytes [bytes_of_string "SET"; bytes_of_string "a b"]) as H2.
  { repeat (apply list.Forall_cons; split; [apply wf_bytesb_spec; vm_compute; reflexivity|]). apply list.Forall_nil_2. }
  assert (unread (reading b) = Some (enc_inline [bytes_of_string "SET"; bytes_of_string "a b"] ++ [42])) as H3 by (vm_compute; reflexivity).
  exact (processInlineBuffer_roundtrip (reading b) _ [42] H1 eq_refl H2 H3).
Defined.

End RequestStream.
