(* ===== verification/Lzf.v ===== *)
(** * LZF compression ([src/redis-stable/src/lzf_c.c], [lzf_d.c])

    The compressor finds earlier occurrences of the next three bytes through a
    hash table of pointers into its input, which it does not initialise; the
    decompressor copies literal runs and parts of its own output.  Pointers
    into the input and output buffers are offsets; the hash table holds addresses.
    [None] is an access outside a buffer. *)

From S2P Require Import Prelude.

Module Lzf.

(** ** Decompression *)

Inductive errno := E2BIG | EINVAL.

(** [*op++ = *ip++], [n] times, from the input... *)
Fixpoint copy_literal (n : nat) (inp : list Z) (ip : Z) (out : list Z) (op : Z) : option (list Z) :=
  match n with
  | O => Some out
  | S n => x ← byte_at ip inp; out ← wr op [x] out; copy_literal n inp (ip + 1) out (op + 1)
  end.

(** ... and [*op++ = *ref++], from the output itself. *)
Fixpoint copy_octets (n : nat) (out : list Z) (ref op : Z) : option (list Z) :=
  match n with
  | O => Some out
  | S n => x ← byte_at ref out; out ← wr op [x] out; copy_octets n out (ref + 1) (op + 1)
  end.

(** [switch (len)] *)
Definition copy_reference (out : list Z) (ref op len : Z) : option (list Z) :=
  if len <=? 9 then copy_octets (Z.to_nat (len + 2)) out ref op
  else
    let len := len + 2 in
    if ref + len <=? op then s ← rd ref len out; wr op s out
    else copy_octets (Z.to_nat len) out ref op.

(** The result: the value returned, [errno] if it is set, and the output
    buffer.  Each iteration reads an input byte: [zlen inp] iterations are enough. *)
Fixpoint decompress_loop (fuel : nat) (inp : list Z) (ip : Z) (out : list Z) (op : Z)
    : option (Z * option errno * list Z) :=
  if negb (ip <? zlen inp) then Some (op, None, out)
  else
    match fuel with
    | O => None
    | S fuel =>
        ctrl ← byte_at ip inp;
        let ip := ip + 1 in
        if ctrl <? 32 then
          let ctrl := ctrl + 1 in
          if zlen out <? op + ctrl then Some (0, Some E2BIG, out)
          else if zlen inp <? ip + ctrl then Some (0, Some EINVAL, out)
          else
            out ← copy_literal (Z.to_nat ctrl) inp ip out op;
            decompress_loop fuel inp (ip + ctrl) out (op + ctrl)
        else
          let len := Z.shiftr ctrl 5 in
          let ref := op - Z.shiftl (Z.land ctrl 31) 8 - 1 in
          if zlen inp <=? ip then Some (0, Some EINVAL, out)
          else
            long ← (if len =? 7
                    then x ← byte_at ip inp;
                         Some (if zlen inp <=? ip + 1 then None else Some (len + x, ip + 1))
                    else Some (Some (len, ip)));
            match long with
            | None => Some (0, Some EINVAL, out)
            | Some (len, ip) =>
                x ← byte_at ip inp;
                let ref := ref - x in
                let ip := ip + 1 in
                if zlen out <? op + len + 2 then Some (0, Some E2BIG, out)
                else if ref <? 0 then Some (0, Some EINVAL, out)
                else
                  out ← copy_reference out ref op len;
                  decompress_loop fuel inp ip out (op + (len + 2))
            end
    end.

Definition lzf_decompress (inp out : list Z) : option (Z * option errno * list Z) :=
  decompress_loop (length inp) inp 0 out 0.

(** ** Compression *)

Definition HLOG : Z := 16.
Definition HSIZE : Z := Z.shiftl 1 HLOG.
Definition MAX_LIT : Z := Z.shiftl 1 5.
Definition MAX_OFF : Z := Z.shiftl 1 13.
Definition MAX_REF : Z := Z.shiftl 1 8 + Z.shiftl 1 3.

Definition u8 (x : Z) : Z := uwrap 8 x.
Definition u32 (x : Z) : Z := uwrap 32 x.
Definition size_t (x : Z) : Z := uwrap 64 x.

Section Compress.
(** The address and the contents of the input buffer. *)
Variable in_data : Z.
Variable inp : list Z.

Definition FRST (p : Z) : option Z :=
  a ← byte_at p inp; b ← byte_at (p + 1) inp; Some (Z.lor (Z.shiftl a 8) b).
Definition NEXT (v p : Z) : option Z :=
  c ← byte_at (p + 2) inp; Some (Z.lor (u32 (Z.shiftl v 8)) c).
Definition IDX (h : Z) : Z :=
  Z.land (u32 (Z.shiftr h (3 * 8 - HLOG) - u32 (h * 5))) (HSIZE - 1).

(** The hash table: an address per slot. *)
Definition htab_set (htab : Z → Z) (i a : Z) : Z → Z := λ j, if j =? i then a else htab j.

Record state := mkState {
  ip : Z;
  op : Z;
  lit : Z;
  hval : Z;
  htab : Z → Z;
  out : list Z;
}.

(** [op [- lit - 1] = lit - 1] *)
Definition stop_run (st : state) : option state :=
  out ← wr (op st - lit st - 1) [u8 (lit st - 1)] (out st);
  Some (mkState (ip st) (op st) (lit st) (hval st) (htab st) out).

(** [lit = 0; op++] *)
Definition start_run (st : state) : state :=
  mkState (ip st) (op st + 1) 0 (hval st) (htab st) (out st).

(** [*op++ = x] *)
Definition emit (st : state) (x : Z) : option state :=
  out ← wr (op st) [u8 x] (out st);
  Some (mkState (ip st) (op st + 1) (lit st) (hval st) (htab st) out).

(** [lit++; *op++ = *ip++] and the end of a full run. *)
Definition copy_byte (st : state) : option state :=
  x ← byte_at (ip st) inp;
  st ← emit (mkState (ip st + 1) (op st) (lit st + 1) (hval st) (htab st) (out st)) x;
  if lit st =? MAX_LIT then st ← stop_run st; Some (start_run st) else Some st.

(** [len++; if (ref [len] != ip [len]) break;], [n] times; the flag tells whether
    the loop was left. *)
Fixpoint unrolled (n : nat) (ref ip len : Z) : option (Z * bool) :=
  match n with
  | O => Some (len, false)
  | S n =>
      let len := len + 1 in
      a ← byte_at (ref + len) inp; b ← byte_at (ip + len) inp;
      if negb (a =? b) then Some (len, true) else unrolled n ref ip len
  end.

(** [do len++; while (len < maxlen && ref[len] == ip[len]);] *)
Fixpoint extend_match (fuel : nat) (ref ip len maxlen : Z) : option Z :=
  match fuel with
  | O => None
  | S fuel =>
      let len := len + 1 in
      if len <? maxlen then
        a ← byte_at (ref + len) inp; b ← byte_at (ip + len) inp;
        if a =? b then extend_match fuel ref ip len maxlen else Some len
      else Some len
  end.

(** [for (;;) { ... break; }]: the length of the match, at most [MAX_REF]. *)
Definition match_length (ref ip maxlen : Z) : option Z :=
  '(len, found) ← (if 16 <? maxlen then unrolled 16 ref ip 2 else Some (2, false));
  if (found : bool) then Some len
  else extend_match (Z.to_nat MAX_REF) ref ip len maxlen.

(** The test on a candidate [ref], an address: it is not too far behind [ip], it
    is behind the start of the input, and three bytes agree. *)
Definition is_match (ref ip off : Z) : option bool :=
  if (off <? MAX_OFF) && (in_data <? ref) then
    let r := ref - in_data in
    a ← byte_at (r + 2) inp; b ← byte_at (ip + 2) inp;
    if a =? b then s ← rd r 2 inp; t ← rd ip 2 inp; Some (bool_decide (s = t)) else Some false
  else Some false.

(** [hval = NEXT (hval, ip); htab[IDX (hval)] = ip; ip++;] *)
Definition rehash (st : state) : option state :=
  h ← NEXT (hval st) (ip st);
  Some (mkState (ip st + 1) (op st) (lit st) h (htab_set (htab st) (IDX h) (in_data + ip st)) (out st)).

(** [return 0] leaves what was written so far in the buffer. *)
Inductive outcome := Return0 (out : list Z) | Break (st : state) | Continue (st : state).

(** [/* match found at *ref++ */] *)
Definition emit_match (st : state) (ref off : Z) : option outcome :=
  let in_len := zlen inp in
  let no_lit := if lit st =? 0 then 1 else 0 in
  let maxlen := size_t (in_len - ip st - 2) in
  let maxlen := if MAX_REF <? maxlen then MAX_REF else maxlen in
  if (zlen (out st) <=? op st + 3 + 1) && (zlen (out st) <=? op st - no_lit + 3 + 1) then Some (Return0 (out st))
  else
    st ← stop_run st;
    let st := mkState (ip st) (op st - no_lit) (lit st) (hval st) (htab st) (out st) in
    len ← match_length ref (ip st) maxlen;
    let len := len - 2 in
    let st := mkState (ip st + 1) (op st) (lit st) (hval st) (htab st) (out st) in
    st ← (if len <? 7 then emit st (Z.shiftr off 8 + Z.shiftl len 5)
          else st ← emit st (Z.shiftr off 8 + Z.shiftl 7 5); emit st (len - 7));
    st ← emit st off;
    let st := start_run st in
    let st := mkState (ip st + (len + 1)) (op st) (lit st) (hval st) (htab st) (out st) in
    if in_len - 2 <=? ip st then Some (Break st)
    else
      let st := mkState (ip st - 2) (op st) (lit st) (hval st) (htab st) (out st) in
      h ← FRST (ip st);
      st ← rehash (mkState (ip st) (op st) (lit st) h (htab st) (out st));
      st ← rehash st;
      Some (Continue st).

(** The body of [while (ip < in_end - 2)]. *)
Definition compress_step (st : state) : option outcome :=
  h ← NEXT (hval st) (ip st);
  let ref := htab st (IDX h) in
  let st := mkState (ip st) (op st) (lit st) h (htab_set (htab st) (IDX h) (in_data + ip st)) (out st) in
  let off := size_t (in_data + ip st - ref - 1) in
  found ← is_match ref (ip st) off;
  if (found : bool) then emit_match st (ref - in_data) off
  else if zlen (out st) <=? op st then Some (Return0 (out st))
  else st ← copy_byte st; Some (Continue st).

(** The loop, which moves [ip] forward: [zlen inp] iterations are enough.
    [inl] is a return of 0. *)
Fixpoint compress_loop (fuel : nat) (st : state) : option (list Z + state) :=
  if negb (ip st <? zlen inp - 2) then Some (inr st)
  else
    match fuel with
    | O => None
    | S fuel =>
        o ← compress_step st;
        match o with
        | Return0 out => Some (inl out)
        | Break st => Some (inr st)
        | Continue st => compress_loop fuel st
        end
    end.

(** [while (ip < in_end)]: at most two bytes are left. *)
Fixpoint tail_loop (fuel : nat) (st : state) : option state :=
  if negb (ip st <? zlen inp) then Some st
  else
    match fuel with
    | O => None
    | S fuel => st ← copy_byte st; tail_loop fuel st
    end.

(** The value returned and the output buffer; [htab0] is what the
    uninitialised hash table happens to hold. *)
Definition lzf_compress (htab0 : Z → Z) (out0 : list Z) : option (Z * list Z) :=
  if (zlen inp =? 0) || (zlen out0 =? 0) then Some (0, out0)
  else
    h ← FRST 0;
    r ← compress_loop (length inp) (mkState 0 1 0 h htab0 out0);
    match r with
    | inl out => Some (0, out)
    | inr st =>
        if zlen (out st) <? op st + 3 then Some (0, out st)
        else
          st ← tail_loop 2 st;
          st ← stop_run st;
          Some (op st - (if lit st =? 0 then 1 else 0), out st)
    end.

End Compress.

Arguments lzf_compress : simpl never.

End Lzf.
