(* ===== verification/LzfProofs.v ===== *)
(** * LZF: the compressed format and the round trip

    Compressed data is a sequence of tokens: literal runs and references to
    what was already produced.  The decompressor is shown to accept exactly the
    encodings of such sequences and to produce what they stand for, and the compressor to
    write an encoding of its input, whatever its hash table holds. *)

From Stdlib Require Import String.
From S2P Require Import Prelude Lzf.

Module LzfProofs.
Import Lzf.

(** ** Tokens *)

Inductive token := Literal (s : list Z) | Backref (dist len : Z).

(** Append [n] bytes, each the one [d] bytes before it. *)
Fixpoint self_copy (n : nat) (d : Z) (l : list Z) : list Z :=
  match n with
  | O => l
  | S n => self_copy n d (l ++ [default 0 (byte_at (zlen l - d) l)])
  end.

Definition expand1 (l : list Z) (t : token) : list Z :=
  match t with
  | Literal s => l ++ s
  | Backref d n => self_copy (Z.to_nat n) d l
  end.
Definition expand (l : list Z) (ts : list token) : list Z := fold_left expand1 ts l.

Definition token_len (t : token) : Z := match t with Literal s => zlen s | Backref _ n => n end.

(** What the format can express. *)
Definition token_ok (t : token) : Prop :=
  match t with
  | Literal s => 1 <= zlen s <= 32
  | Backref d n => 1 <= d <= 8192 ∧ 3 <= n <= 264
  end.
(** A reference does not reach before the start of the output [l]. *)
Definition fits (l : list Z) (t : token) : bool :=
  match t with Literal _ => true | Backref d _ => d <=? zlen l end.

Fixpoint tokens_ok (l : list Z) (ts : list token) : Prop :=
  match ts with
  | [] => True
  | t :: ts => token_ok t ∧ fits l t = true ∧ tokens_ok (expand1 l t) ts
  end.

Definition enc_token (t : token) : list Z :=
  match t with
  | Literal s => (zlen s - 1) :: s
  | Backref d n =>
      if n - 2 <? 7 then [(d - 1) / 256 + 32 * (n - 2); (d - 1) mod 256]
      else [(d - 1) / 256 + 224; n - 9; (d - 1) mod 256]
  end.
Definition enc_tokens (ts : list token) : list Z := concat (enc_token <$> ts).

Lemma zlen_self_copy n d l : zlen (self_copy n d l) = zlen l + Z.of_nat n.
Proof.
  revert l. induction n as [|n IH]; intros l; cbn [self_copy]; [lia|].
  rewrite IH, zlen_app. change (zlen [_]) with 1. lia.
Qed.

Lemma zlen_expand1 l t : token_ok t → zlen (expand1 l t) = zlen l + token_len t.
Proof.
  destruct t as [s|d n]; simpl; intros H; [by rewrite zlen_app|]. rewrite zlen_self_copy. lia.
Qed.

Lemma expand_app l ts us : expand l (ts ++ us) = expand (expand l ts) us.
Proof. apply fold_left_app. Qed.

Lemma tokens_ok_app l ts us : tokens_ok l (ts ++ us) ↔ tokens_ok l ts ∧ tokens_ok (expand l ts) us.
Proof.
  revert l. induction ts as [|t ts IH]; intros l; simpl; [tauto|]. rewrite IH. tauto.
Qed.

Lemma enc_tokens_app ts us : enc_tokens (ts ++ us) = enc_tokens ts ++ enc_tokens us.
Proof. unfold enc_tokens. by rewrite fmap_app, concat_app. Qed.

Lemma enc_tokens_one t : enc_tokens [t] = enc_token t.
Proof. unfold enc_tokens. simpl. apply app_nil_r. Qed.

Lemma enc_token_pos t : token_ok t → 0 < zlen (enc_token t).
Proof. destruct t as [s|d n]; simpl; [|case_if; done]. rewrite zlen_cons. lia. Qed.

Lemma expand_len l ts : tokens_ok l ts → zlen l <= zlen (expand l ts).
Proof.
  revert l. induction ts as [|t ts IH]; intros l; simpl; [lia|]. intros (Ht & _ & Hts).
  specialize (IH _ Hts). rewrite zlen_expand1 in IH by done.
  assert (0 <= token_len t) by (destruct t; simpl in *; [apply zlen_nonneg|lia]). unfold expand in *. lia.
Qed.

(** Appending bytes that repeat with distance [d]. *)
Lemma self_copy_spec s d l :
  1 <= d <= zlen l →
  (∀ k, 0 <= k < zlen s → byte_at (zlen l + k) (l ++ s) = byte_at (zlen l + k - d) (l ++ s)) →
  self_copy (length s) d l = l ++ s.
Proof.
  revert l. induction s as [|x s IH]; intros l Hd H; simpl; [by rewrite app_nil_r|].
  assert (byte_at (zlen l - d) l = Some x) as ->.
  { pose proof (H 0) as H0. rewrite zlen_cons in H0. pose proof (zlen_nonneg s).
    rewrite byte_at_mid in H0 by lia. rewrite H0 by lia.
    pose proof (byte_at_inside [] l (x :: s) (zlen l - d)) as E. simpl in E.
    rewrite <- E by lia. f_equal. change (zlen (@nil Z)) with 0. lia. }
  simpl default. rewrite IH.
  - by rewrite <- app_assoc.
  - rewrite zlen_app. change (zlen [x]) with 1. lia.
  - intros k Hk. rewrite <- app_assoc. simpl. rewrite zlen_app. change (zlen [x]) with 1.
    specialize (H (k + 1)). rewrite zlen_cons in H. replace (zlen l + 1 + k) with (zlen l + (k + 1)) by lia.
    apply H. lia.
Qed.

(** ** Copies *)

Lemma copy_literal_spec p s q o x j :
  zlen x = zlen s →
  copy_literal (length s) (p ++ s ++ q) (zlen p) (o ++ x ++ j) (zlen o) = Some (o ++ s ++ j).
Proof.
  revert p o x. induction s as [|c s IH]; intros p o x Hx; simpl.
  { rewrite zlen_nil in Hx. by apply zlen_0_nil in Hx as ->. }
  destruct x as [|y x]; [rewrite zlen_cons, zlen_nil in Hx; pose proof (zlen_nonneg s); lia|].
  rewrite !zlen_cons in Hx. rewrite byte_at_mid by done. cbn [mbind option_bind].
  rewrite (wr_at o [y] (x ++ j) [c]) by done. cbn [mbind option_bind].
  specialize (IH (p ++ [c]) (o ++ [c]) x ltac:(lia)).
  rewrite !zlen_app, <- !app_assoc in IH. exact IH.
Qed.

Lemma copy_octets_spec n d o x j :
  zlen x = Z.of_nat n → 1 <= d <= zlen o →
  copy_octets n (o ++ x ++ j) (zlen o - d) (zlen o) = Some (self_copy n d o ++ j).
Proof.
  revert o x. induction n as [|n IH]; intros o x Hx Hd; simpl.
  { by apply zlen_0_nil in Hx as ->. }
  destruct x as [|y x]; [rewrite zlen_nil in Hx; lia|]. rewrite zlen_cons in Hx.
  assert (byte_at (zlen o - d) (o ++ (y :: x) ++ j) = byte_at (zlen o - d) o) as ->.
  { apply (byte_at_inside [] o ((y :: x) ++ j)). lia. }
  destruct (byte_at_in (zlen o - d) o) as [c Hc]; [lia|]. rewrite Hc. cbn [mbind option_bind].
  change ((y :: x) ++ j) with ([y] ++ (x ++ j)). rewrite (wr_at o [y] (x ++ j) [c]) by done. cbn [mbind option_bind].
  specialize (IH (o ++ [c]) x ltac:(lia)). rewrite zlen_app in IH. change (zlen [c]) with 1 in IH.
  rewrite <- app_assoc in IH. simpl in IH. simpl.
  replace (zlen o - d + 1) with (zlen o + 1 - d) by lia. apply IH. lia.
Qed.

Lemma copy_reference_spec d n o x j :
  zlen x = n → 2 <= n → 1 <= d <= zlen o →
  copy_reference (o ++ x ++ j) (zlen o - d) (zlen o) (n - 2) = Some (self_copy (Z.to_nat n) d o ++ j).
Proof.
  intros Hx Hn Hd. unfold copy_reference. replace (n - 2 + 2) with n by lia.
  assert (copy_octets (Z.to_nat n) (o ++ x ++ j) (zlen o - d) (zlen o) = Some (self_copy (Z.to_nat n) d o ++ j)) as E
    by (apply copy_octets_spec; lia).
  case_if; [done|]. case_if; [|done].
  set (s := sub (zlen o - d) n o).
  assert (zlen s = n) as Hs by (apply zlen_sub; lia).
  assert (rd (zlen o - d) n (o ++ x ++ j) = Some s) as ->.
  { pose proof (rd_inside [] o (x ++ j) (zlen o - d) n) as Er. simpl in Er. change (zlen (@nil Z)) with 0 in Er.
    rewrite Z.add_0_l in Er. rewrite Er by lia. apply rd_in; lia. }
  cbn [mbind option_bind]. rewrite (wr_at o x j s) by lia.
  replace (Z.to_nat n) with (length s) by (unfold zlen in Hs; lia).
  rewrite self_copy_spec; [by rewrite <- app_assoc|done|].
  intros k Hk. rewrite Hs in Hk.
  assert (byte_at (zlen o + k) (o ++ s) = byte_at k s) as ->.
  { pose proof (byte_at_inside o s [] k) as Eb. rewrite app_nil_r in Eb. apply Eb. lia. }
  pose proof (byte_at_inside [] o s (zlen o + k - d)) as Eb. simpl in Eb. change (zlen (@nil Z)) with 0 in Eb.
  rewrite Z.add_0_l in Eb. rewrite Eb by lia.
  unfold s, sub, byte_at. do 2 (case_if; [|lia]). rewrite lookup_take_lt by lia. rewrite lookup_drop. f_equal. lia.
Qed.

(** ** Decompression *)

(** One token read from the front of the input; [None] if it is cut short. *)
Definition parse_token (l : list Z) : option (token * list Z) :=
  match l with
  | [] => None
  | c :: l =>
      if c <? 32 then
        if zlen l <? c + 1 then None
        else Some (Literal (take (Z.to_nat (c + 1)) l), drop (Z.to_nat (c + 1)) l)
      else
        match (if c / 32 =? 7 then match l with x :: l => Some (7 + x, l) | [] => None end else Some (c / 32, l)) with
        | Some (len, x :: l) => Some (Backref (c mod 32 * 256 + x + 1) (len + 2), l)
        | _ => None
        end
  end.

Lemma parse_enc t l : token_ok t → parse_token (enc_token t ++ l) = Some (t, l).
Proof.
  destruct t as [s|d n]; simpl; intros Ht.
  - case_if; [|lia]. rewrite zlen_app. pose proof (zlen_nonneg l). case_if; [lia|].
    replace (zlen s - 1 + 1) with (zlen s) by lia. by rewrite take_app_zlen, drop_app_zlen.
  - assert (0 <= (d - 1) / 256 < 32 ∧ d - 1 = 256 * ((d - 1) / 256) + (d - 1) mod 256) as [Hq Hd]
      by (split; [|apply Z.div_mod; lia]; split; [apply Z.div_pos; lia|apply Z.div_lt_upper_bound; lia]).
    case_if; cbn [app parse_token].
    + assert (((d - 1) / 256 + 32 * (n - 2)) / 32 = n - 2 ∧ ((d - 1) / 256 + 32 * (n - 2)) mod 32 = (d - 1) / 256)
        as [-> ->].
      { rewrite Z.mul_comm, Z.div_add, Z.mod_add, Z.div_small, Z.mod_small by lia. lia. }
      case_if; [lia|]. case_if; [lia|]. do 3 f_equal; lia.
    + assert (((d - 1) / 256 + 224) / 32 = 7 ∧ ((d - 1) / 256 + 224) mod 32 = (d - 1) / 256) as [-> ->].
      { change 224 with (7 * 32). rewrite Z.div_add, Z.mod_add, Z.div_small, Z.mod_small by lia. lia. }
      case_if; [lia|]. rewrite Z.eqb_refl. do 3 f_equal; lia.
Qed.

Lemma parse_token_inv l t l' :
  wf_bytes l → parse_token l = Some (t, l') → token_ok t ∧ l = enc_token t ++ l' ∧ wf_bytes l'.
Proof.
  destruct l as [|c l]; [done|]. intros [Hc Hl]%list.Forall_cons. unfold is_byte in Hc. cbn [parse_token]. case_if.
  - case_if; [done|]. intros [= <- <-]. simpl. rewrite zlen_take. split; [lia|]. split; [|by apply Forall_drop].
    rewrite take_drop. f_equal. lia.
  - assert (c = 32 * (c / 32) + c mod 32 ∧ 0 <= c mod 32 < 32) as [Hdm Hm]
      by (split; [apply Z.div_mod; lia|apply Z.mod_pos_bound; lia]).
    assert (1 <= c / 32 <= 7) as Hq by lia. set (q := c / 32) in *. set (r := c mod 32) in *. clearbody q r.
    assert (∀ n x tl, is_byte x → wf_bytes tl → 1 <= n <= 262 →
      token_ok (Backref (r * 256 + x + 1) (n + 2)) ∧ (r * 256 + x + 1 - 1) / 256 = r ∧ (r * 256 + x + 1 - 1) mod 256 = x) as H3.
    { intros n x tl Hx Htl Hn. unfold is_byte in Hx. replace (r * 256 + x + 1 - 1) with (x + r * 256) by lia.
      rewrite Z.div_add, Z.mod_add, Z.div_small, Z.mod_small by lia. simpl. lia. }
    case_if.
    + destruct l as [|y [|x l]]; [done..|]. apply list.Forall_cons in Hl as [Hy [Hx Hl]%list.Forall_cons].
      intros [= <- <-]. unfold is_byte in Hy. destruct (H3 (7 + y) x l) as (Hok & E1 & E2); [done|done|lia|].
      split; [done|]. split; [|done]. simpl. case_if; [lia|]. rewrite E1, E2. simpl. repeat f_equal; lia.
    + destruct l as [|x l]; [done|]. apply list.Forall_cons in Hl as [Hx Hl].
      intros [= <- <-]. destruct (H3 q x l) as (Hok & E1 & E2); [done|done|lia|].
      split; [done|]. split; [|done]. simpl. case_if; [|lia]. rewrite E1, E2. simpl. repeat f_equal; lia.
Qed.

Lemma copy_literal_take n p l o x :
  0 <= n <= zlen l → n <= zlen x →
  copy_literal (Z.to_nat n) (p ++ l) (zlen p) (o ++ x) (zlen o)
  = Some ((o ++ take (Z.to_nat n) l) ++ drop (Z.to_nat n) x).
Proof.
  intros Hl Hx. rewrite <- (take_drop (Z.to_nat n) l) at 1. rewrite <- (take_drop (Z.to_nat n) x) at 1.
  replace (Z.to_nat n) with (length (take (Z.to_nat n) l)) at 1 by (rewrite length_take; unfold zlen in *; lia).
  rewrite copy_literal_spec by (rewrite !zlen_take; lia). by rewrite app_assoc.
Qed.

Lemma copy_reference_take d n o x :
  2 <= n <= zlen x → 1 <= d <= zlen o →
  copy_reference (o ++ x) (zlen o - d) (zlen o) (n - 2)
  = Some (self_copy (Z.to_nat n) d o ++ drop (Z.to_nat n) x).
Proof.
  intros Hx Hd. rewrite <- (take_drop (Z.to_nat n) x) at 1.
  apply copy_reference_spec; [rewrite zlen_take|..]; lia.
Qed.

(** The end of a back reference, once its length is known. *)
Lemma backref_step fuel p b l o x r len res :
  is_byte b → 0 <= r → 0 <= len →
  (b' ← byte_at (zlen p) (p ++ b :: l);
   if zlen o + zlen x <? zlen o + len + 2 then Some (0, Some E2BIG, o ++ x)
   else if zlen o - r * 2 ^ 8 - 1 - b' <? 0 then Some (0, Some EINVAL, o ++ x)
   else
     out ← copy_reference (o ++ x) (zlen o - r * 2 ^ 8 - 1 - b') (zlen o) len;
     decompress_loop fuel (p ++ b :: l) (zlen p + 1) out (zlen o + (len + 2))) = res →
  let t := Backref (r * 256 + b + 1) (len + 2) in
  if (token_len t <=? zlen x) && fits o t then
    ∃ p', p ++ b :: l = p' ++ l ∧
      res = decompress_loop fuel (p' ++ l) (zlen p')
        (expand1 o t ++ drop (Z.to_nat (token_len t)) x) (zlen (expand1 o t))
  else ∃ e, res = Some (0, Some e, o ++ x).
Proof.
  unfold is_byte. intros Hb Hr Hlen. rewrite (byte_at_mid p b l (zlen p) eq_refl). cbn [mbind option_bind].
  pose proof (zlen_nonneg o). pose proof (zlen_nonneg x). cbn zeta. cbn [token_len fits].
  destruct (zlen o + zlen x <? zlen o + len + 2) eqn:E1; zb.
  { intros <-. rewrite (proj2 (Z.leb_gt _ _)) by lia. by eexists. }
  rewrite (proj2 (Z.leb_le (len + 2) _)) by lia. cbn [andb].
  destruct (zlen o - r * 2 ^ 8 - 1 - b <? 0) eqn:E2; zb.
  { intros <-. rewrite (proj2 (Z.leb_gt _ _)) by lia. by eexists. }
  rewrite (proj2 (Z.leb_le (r * 256 + b + 1) _)) by lia. intros <-. exists (p ++ [b]).
  replace (zlen o - r * 2 ^ 8 - 1 - b) with (zlen o - (r * 256 + b + 1)) by lia.
  replace len with (len + 2 - 2) at 1 by lia.
  rewrite copy_reference_take by lia. cbn [mbind option_bind expand1].
  rewrite <- app_assoc, zlen_app, zlen_self_copy, Z2Nat.id by lia. done.
Qed.

(** One iteration of the decompressor, on the bytes [l] left to read after [p],
    with [o] produced and [x] left of the output buffer. *)
Lemma decompress_step fuel p l o x res :
  wf_bytes l → l ≠ [] →
  decompress_loop (S fuel) (p ++ l) (zlen p) (o ++ x) (zlen o) = res →
  match parse_token l with
  | None => ∃ e, res = Some (0, Some e, o ++ x)
  | Some (t, l') =>
      if (token_len t <=? zlen x) && fits o t then
        ∃ p', p ++ l = p' ++ l' ∧
          res = decompress_loop fuel (p' ++ l') (zlen p')
            (expand1 o t ++ drop (Z.to_nat (token_len t)) x) (zlen (expand1 o t))
      else ∃ e, res = Some (0, Some e, o ++ x)
  end.
Proof.
  intros Hl Hne. destruct l as [|c l]; [done|]. apply list.Forall_cons in Hl as [Hc Hl]. clear Hne.
  unfold is_byte in Hc. cbn [decompress_loop].
  pose proof (zlen_nonneg p). pose proof (zlen_nonneg l). pose proof (zlen_nonneg o). pose proof (zlen_nonneg x).
  rewrite (proj2 (Z.ltb_lt (zlen p) (zlen (p ++ c :: l)))) by (rewrite zlen_app, zlen_cons; lia).
  cbn [negb]. rewrite (byte_at_mid p c l (zlen p) eq_refl). cbn [mbind option_bind parse_token].
  replace (p ++ c :: l) with ((p ++ [c]) ++ l) by (by rewrite <- app_assoc).
  replace (zlen p + 1) with (zlen (p ++ [c])) by (by rewrite zlen_app).
  generalize (p ++ [c]). clear p H. intros p. pose proof (zlen_nonneg p).
  rewrite !(zlen_app p l), !(zlen_app o x).
  destruct (c <? 32) eqn:E; zb.
  - destruct (zlen l <? c + 1) eqn:El; zb.
    + case_if; [intros <-; by eexists|]. case_if; [intros <-; by eexists|lia].
    + cbn [token_len fits]. rewrite zlen_take, andb_true_r.
      destruct (zlen o + zlen x <? zlen o + (c + 1)) eqn:E1; zb;
        [intros <-; rewrite (proj2 (Z.leb_gt _ _)) by lia; by eexists|].
      rewrite (proj2 (Z.leb_le (Z.min _ _) _)) by lia.
      rewrite (proj2 (Z.ltb_ge (zlen p + zlen l) _)) by lia. intros <-.
      exists (p ++ take (Z.to_nat (c + 1)) l). rewrite <- !app_assoc, take_drop. split; [done|].
      rewrite copy_literal_take by lia. cbn [mbind option_bind expand1].
      rewrite !zlen_app, zlen_take. replace (Z.to_nat (Z.of_nat (Z.to_nat (c + 1)) `min` zlen l)) with (Z.to_nat (c + 1)) by lia.
      f_equal; lia.
  - rewrite Z.shiftr_div_pow2, Z.shiftl_mul_pow2, (land_mask c 31 5) by lia. change (2 ^ 5) with 32.
    pose proof (Z.mod_pos_bound c 32). pose proof (Z.div_le_lower_bound c 32 1).
    destruct l as [|y l].
    { rewrite (proj2 (Z.leb_le (zlen p + zlen (@nil Z)) _)) by (change (zlen (@nil Z)) with 0; lia).
      intros <-. case_if; by eexists. }
    apply list.Forall_cons in Hl as [Hy Hl]. pose proof (zlen_nonneg l). rewrite zlen_cons.
    rewrite (proj2 (Z.leb_gt _ (zlen p))) by lia.
    destruct (c / 32 =? 7) eqn:E7; zb.
    + rewrite (byte_at_mid p y l (zlen p) eq_refl). cbn [mbind option_bind]. destruct l as [|z l].
      { rewrite (proj2 (Z.leb_le (zlen p + (1 + zlen (@nil Z))) _)) by (change (zlen (@nil Z)) with 0; lia).
        intros <-. by eexists. }
      pose proof (zlen_nonneg l). apply list.Forall_cons in Hl as [Hz Hl]. rewrite zlen_cons.
      rewrite (proj2 (Z.leb_gt _ (zlen p + 1))) by lia. rewrite E7.
      replace (p ++ y :: z :: l) with ((p ++ [y]) ++ z :: l) by (by rewrite <- app_assoc).
      replace (zlen p + 1) with (zlen (p ++ [y])) by (by rewrite zlen_app).
      unfold is_byte in Hy. apply backref_step; [done|lia..].
    + apply backref_step; [done|lia..].
Qed.

Lemma enc_tokens_cons t ts : enc_tokens (t :: ts) = enc_token t ++ enc_tokens ts.
Proof. done. Qed.

(** What a run of the decompressor from [o] on leaves: [None] means success. *)
Definition decompressed (l o x : list Z) (res : option (Z * option errno * list Z)) : Prop :=
  ∃ r e out', res = Some (r, e, out') ∧ zlen out' = zlen o + zlen x ∧
    match e with
    | None => ∃ ts, l = enc_tokens ts ∧ tokens_ok o ts ∧ r = zlen (expand o ts) ∧ zlen o <= r <= zlen o + zlen x ∧
                out' = expand o ts ++ drop (Z.to_nat (r - zlen o)) x
    | Some _ => r = 0 ∧
                ∀ ts, l = enc_tokens ts → tokens_ok o ts → zlen o + zlen x < zlen (expand o ts)
    end.

Lemma decompress_error l o x e :
  (∀ ts, l = enc_tokens ts → tokens_ok o ts → zlen o + zlen x < zlen (expand o ts)) →
  decompressed l o x (Some (0, Some e, o ++ x)).
Proof. intros H. exists 0, (Some e), (o ++ x). by rewrite zlen_app. Qed.

Lemma decompress_loop_correct fuel p l o x :
  wf_bytes l → (length l <= fuel)%nat →
  decompressed l o x (decompress_loop fuel (p ++ l) (zlen p) (o ++ x) (zlen o)).
Proof.
  revert p l o x. induction fuel as [|fuel IH]; intros p l o x Hl Hf;
    (destruct (decide (l = [])) as [->|Hne];
     [cbn [decompress_loop]; rewrite zlen_app, (proj2 (Z.ltb_ge _ _)) by (change (zlen (@nil Z)) with 0; lia);
      exists (zlen o), None, (o ++ x); rewrite zlen_app; pose proof (zlen_nonneg x); split_and!; [done|lia|];
      exists []; rewrite Z.sub_diag; split_and!; done || lia|]).
  { destruct l; simpl in Hf; [done|lia]. }
  remember (decompress_loop (S fuel) (p ++ l) (zlen p) (o ++ x) (zlen o)) as res eqn:E.
  pose proof (decompress_step fuel p l o x _ Hl Hne (eq_sym E)) as Hs. clear E.
  assert (∀ ts, l = enc_tokens ts → tokens_ok o ts → ∃ t ts' l', ts = t :: ts' ∧
    parse_token l = Some (t, l') ∧ token_ok t ∧ fits o t = true ∧ l' = enc_tokens ts' ∧ tokens_ok (expand1 o t) ts') as Hts.
  { intros [|t ts] -> Hok; [done|]. destruct Hok as (Ht & Hfit & Hok). exists t, ts, (enc_tokens ts).
    rewrite enc_tokens_cons, parse_enc by done. done. }
  destruct (parse_token l) as [[t l']|] eqn:Et.
  2: { destruct Hs as [e ->]. apply decompress_error. intros ts E Hok.
       by destruct (Hts ts E Hok) as (? & ? & ? & _ & ? & _). }
  apply parse_token_inv in Et as (Ht & Hll & Hl'); [|done]. pose proof (enc_token_pos t Ht).
  pose proof (zlen_expand1 o t Ht) as Hz.
  assert (0 <= token_len t) as Htl by (destruct t; simpl in *; lia).
  destruct ((token_len t <=? zlen x) && fits o t) eqn:Eb.
  2: { destruct Hs as [e ->]. apply decompress_error. intros ts E Hok.
       destruct (Hts ts E Hok) as (t0 & ts' & l0 & -> & [= <- <-] & _ & Hfit & _ & Hok').
       rewrite Hfit, andb_true_r in Eb. zb. simpl. pose proof (expand_len _ _ Hok'). unfold expand in *. lia. }
  apply andb_prop in Eb as [Eb Hfit]. zb. destruct Hs as (p' & _ & ->).
  destruct (IH p' l' (expand1 o t) (drop (Z.to_nat (token_len t)) x)) as (r & e & out' & -> & Hzo & He); [done| |].
  { apply (f_equal zlen) in Hll. rewrite zlen_app in Hll. unfold zlen in *. lia. }
  rewrite Hz, zlen_drop in *. exists r, e, out'. split; [done|]. split; [lia|].
  destruct e as [e|].
  - destruct He as [-> He]. split; [done|]. intros ts E Hok.
    destruct (Hts ts E Hok) as (t0 & ts' & l0 & -> & [= <- <-] & _ & _ & El & Hok').
    specialize (He ts' El Hok'). simpl. unfold expand in *. lia.
  - destruct He as (ts & -> & Hok & Hr & Hr' & ->). exists (t :: ts).
    split; [done|]. split; [done|]. split; [done|]. split; [lia|].
    rewrite drop_drop. do 2 f_equal. lia.
Qed.

(** (C12) For any input bytes, the decompressor reads and writes inside its buffers and
    stops.  It succeeds exactly on the encodings of the token sequences whose
    references stay inside the output and whose expansion fits the buffer, and
    then it has written that expansion and nothing else. *)
Theorem lzf_decompress_correct inp out :
  wf_bytes inp → decompressed inp [] out (lzf_decompress inp out).
Proof. intros Hw. by apply (decompress_loop_correct (length inp) [] inp [] out). Qed.

(** ** Compression *)

Section Compress.
Variable in_data : Z.
Variable inp : list Z.
Hypothesis inp_wf : wf_bytes inp.
(** The input is not in the first pages of memory and ends inside the address space. *)
Hypothesis in_data_low : MAX_OFF <= in_data.
Hypothesis in_data_high : in_data + zlen inp < 2 ^ 64.

(** *** Matches *)

Definition agree (ref ip n : Z) : Prop :=
  ∀ k, 0 <= k < n → byte_at (ref + k) inp = byte_at (ip + k) inp.

Lemma agree_next ref ip n :
  agree ref ip n → byte_at (ref + n) inp = byte_at (ip + n) inp → agree ref ip (n + 1).
Proof.
  intros H Hn k Hk. destruct (decide (k = n)) as [->|]; [done|]. apply H. lia.
Qed.

Lemma unrolled_spec n ref ip len :
  0 <= ref < ip → 0 <= len → ip + len + Z.of_nat n < zlen inp → agree ref ip (len + 1) →
  ∃ len' found, unrolled inp n ref ip len = Some (len', found) ∧ agree ref ip len' ∧
    len <= len' <= len + Z.of_nat n ∧ (found = true → len < len') ∧
    (found = false → len' = len + Z.of_nat n ∧ agree ref ip (len' + 1)).
Proof.
  intros Hr. revert len. induction n as [|n IH]; intros len Hlen Hb Ha; cbn [unrolled].
  - exists len, false. split; [done|]. split; [intros k Hk; apply Ha; lia|]. split; [lia|]. split; [done|].
    intros _. split; [lia|done].
  - destruct (byte_at_in (ref + (len + 1)) inp) as [a Ea]; [lia|].
    destruct (byte_at_in (ip + (len + 1)) inp) as [b Eb]; [lia|].
    rewrite Ea, Eb. cbn [mbind option_bind]. case_if.
    + exists (len + 1), true. split; [done|]. split; [done|]. split; [lia|]. split; [lia|done].
    + destruct (IH (len + 1)) as (len' & f & -> & H1 & H2 & H3 & H4); [lia|lia| |].
      { apply agree_next; [done|]. zb. congruence. }
      exists len', f. split; [done|]. split; [done|]. split; [lia|]. split; [lia|].
      intros Hf. destruct (H4 Hf). split; [lia|done].
Qed.

Lemma extend_match_spec fuel ref ip len maxlen :
  0 <= ref < ip → 0 <= len → ip + maxlen < zlen inp → maxlen - len <= Z.of_nat fuel → (0 < fuel)%nat →
  agree ref ip (len + 1) →
  ∃ len', extend_match inp fuel ref ip len maxlen = Some len' ∧ agree ref ip len' ∧
    len < len' ∧ (len' = len + 1 ∨ len' <= maxlen).
Proof.
  intros Hr. revert len. induction fuel as [|fuel IH]; intros len Hlen Hb Hf Hpos Ha; [lia|].
  cbn [extend_match]. case_if; [|exists (len + 1); split; [done|]; split; [done|lia]].
  destruct (byte_at_in (ref + (len + 1)) inp) as [a Ea]; [lia|].
  destruct (byte_at_in (ip + (len + 1)) inp) as [b Eb]; [lia|].
  rewrite Ea, Eb. cbn [mbind option_bind]. case_if; [|exists (len + 1); split; [done|]; split; [done|lia]].
  destruct (IH (len + 1)) as (len' & -> & H1 & H2 & H3); [lia..| |].
  { apply agree_next; [done|]. congruence. }
  exists len'. split; [done|]. split; [done|]. lia.
Qed.

Lemma match_length_spec ref ip :
  0 <= ref < ip → ip + 2 < zlen inp → agree ref ip 3 →
  let maxlen := if MAX_REF <? zlen inp - ip - 2 then MAX_REF else zlen inp - ip - 2 in
  ∃ len, match_length inp ref ip maxlen = Some len ∧ agree ref ip len ∧
    3 <= len <= 264 ∧ ip + len <= zlen inp.
Proof.
  intros Hr Hb Ha maxlen. change MAX_REF with 264 in *.
  assert (1 <= maxlen <= 264 ∧ ip + maxlen + 2 <= zlen inp) as [Hm Hm'] by (unfold maxlen; case_if; lia).
  clearbody maxlen. unfold match_length. change (Z.to_nat MAX_REF) with 264%nat.
  destruct (16 <? maxlen) eqn:E; zb.
  - destruct (unrolled_spec 16 ref ip 2) as (len & f & -> & H1 & H2 & H3 & H4); [done|lia|lia|done|].
    cbn [mbind option_bind]. destruct f.
    + exists len. split; [done|]. split; [done|]. specialize (H3 eq_refl). lia.
    + destruct (H4 eq_refl) as [-> Ha'].
      destruct (extend_match_spec 264 ref ip (2 + Z.of_nat 16) maxlen) as (len' & -> & H5 & H6 & H7);
        [done|lia|lia|lia|lia|done|].
      exists len'. split; [done|]. split; [done|]. lia.
  - cbn [mbind option_bind].
    destruct (extend_match_spec 264 ref ip 2 maxlen) as (len' & -> & H5 & H6 & H7); [done|lia|lia|lia|lia|done|].
    exists len'. split; [done|]. split; [done|]. lia.
Qed.

(** The test accepts only places behind [ip] in the input, whatever the address read in
    the hash table. *)
Lemma is_match_spec ref ip :
  0 <= ref < 2 ^ 64 → 0 <= ip → ip + 2 < zlen inp →
  let off := size_t (in_data + ip - ref - 1) in
  ∃ b, is_match in_data inp ref ip off = Some b ∧
    (b = true → 0 <= ref - in_data < ip ∧ off = ip - (ref - in_data) - 1 ∧ off < MAX_OFF ∧
      agree (ref - in_data) ip 3).
Proof.
  intros Hr Hip Hb off. unfold is_match. change MAX_OFF with 8192 in *.
  destruct ((off <? 8192) && (in_data <? ref)) eqn:E; [|by exists false].
  apply andb_prop in E as [E1 E2]. zb.
  assert (0 <= ref - in_data < ip ∧ off = ip - (ref - in_data) - 1) as [Hri Hoff].
  { unfold off, size_t, uwrap in *. dlia. }
  destruct (byte_at_in (ref - in_data + 2) inp) as [a Ea]; [lia|].
  destruct (byte_at_in (ip + 2) inp) as [b Eb]; [lia|].
  rewrite Ea, Eb. cbn [mbind option_bind]. case_if; [|by exists false].
  destruct (rd (ref - in_data) 2 inp) as [s|] eqn:Es; [|rewrite rd_in in Es by lia; done].
  destruct (rd ip 2 inp) as [t|] eqn:Et; [|rewrite rd_in in Et by lia; done].
  cbn [mbind option_bind]. eexists. split; [done|]. intros Hst%bool_decide_eq_true. subst t.
  split; [done|]. split; [done|]. split; [done|]. intros k Hk.
  destruct (decide (k = 2)) as [->|]; [congruence|]. rewrite !byte_at_rd.
  change 2 with (1 + 1) in Es, Et.
  destruct (rd_split _ 1 1 _ _ ltac:(lia) ltac:(lia) Es) as [E1a E1b].
  destruct (rd_split _ 1 1 _ _ ltac:(lia) ltac:(lia) Et) as [E2a E2b].
  assert (k = 0 ∨ k = 1) as [->| ->] by lia; [rewrite !Z.add_0_r|]; congruence.
Qed.

(** *** The output *)

(** The output holds [op] bytes that stand for the first [n] bytes of the input,
    and is longer by at most one byte in 32, and [slack]... *)
Definition flushed (slack n op : Z) (out : list Z) : Prop :=
  ∃ ts J, out = enc_tokens ts ++ J ∧ op = zlen (enc_tokens ts) ∧ tokens_ok [] ts ∧
    take (Z.to_nat n) inp = expand [] ts ∧ 32 * op <= 33 * n + 32 * slack.

(** ... or it also has a run of [lit] bytes whose length is not yet written; the
    byte for it may still be outside the buffer when the run is empty. *)
Definition emitted (n op lit : Z) (out : list Z) : Prop :=
  ∃ ts lits X, out = enc_tokens ts ++ X ∧ op = zlen (enc_tokens ts) + 1 + lit ∧ tokens_ok [] ts ∧
    take (Z.to_nat n) inp = expand [] ts ++ lits ∧ lit = zlen lits ∧
    32 * zlen (enc_tokens ts) <= 33 * (n - lit) ∧ (X = [] ∧ lits = [] ∨ ∃ h j, X = h :: lits ++ j).

Definition inv (st : state) : Prop :=
  0 <= ip st <= zlen inp ∧ 0 <= lit st < 32 ∧ (∀ i, 0 <= htab st i < 2 ^ 64) ∧
  emitted (ip st) (op st) (lit st) (out st).

Lemma byte_id x : is_byte x → u8 x = x.
Proof. intros H. by apply uwrap_id. Qed.

Lemma take_S n x : byte_at n inp = Some x → take (Z.to_nat (n + 1)) inp = take (Z.to_nat n) inp ++ [x].
Proof.
  intros Hx. pose proof (byte_at_lt _ _ _ Hx). unfold byte_at in Hx. case_if; [|done].
  replace (Z.to_nat (n + 1)) with (S (Z.to_nat n)) by lia. by apply take_S_r.
Qed.

Lemma byte_is_byte i x : byte_at i inp = Some x → is_byte x.
Proof.
  unfold byte_at. case_if; [|done]. intros H. by apply (Forall_lookup_1 _ _ _ _ inp_wf H).
Qed.

(** Where the run starts, and what stopping it leaves. *)
Lemma emitted_stop n op lit out :
  emitted n op lit out → 0 <= lit <= 32 → op - lit <= zlen out →
  ∃ out', wr (op - lit - 1) [u8 (lit - 1)] out = Some out' ∧ zlen out' = zlen out ∧
    flushed (if lit =? 32 then 0 else if lit =? 0 then 0 else 1) n (op - if lit =? 0 then 1 else 0) out'.
Proof.
  intros (ts & lits & X & -> & -> & Hok & Ht & Hlit & Hsz & HX) Hb Hop. rewrite zlen_app in Hop.
  destruct HX as [[-> ->]|(h & j & ->)]; [change (zlen (@nil Z)) with 0 in *; lia|].
  set (E := enc_tokens ts) in *. replace (zlen E + 1 + lit - lit - 1) with (zlen E) by lia.
  assert (wr (zlen E) [u8 (lit - 1)] (E ++ h :: lits ++ j) = Some (E ++ u8 (lit - 1) :: lits ++ j)) as ->
    by exact (wr_mid E [h] (lits ++ j) [u8 (lit - 1)] eq_refl).
  eexists. split; [done|]. split; [rewrite !zlen_app, !zlen_cons; done|].
  destruct (lit =? 0) eqn:E0; zb.
  - rewrite E0 in Hlit. symmetry in Hlit. apply zlen_0_nil in Hlit as ->. rewrite app_nil_r in Ht.
    exists ts, (u8 (lit - 1) :: j). split; [done|]. split; [fold E; lia|]. split; [done|]. split; [done|].
    case_if; lia.
  - exists (ts ++ [Literal lits]), j. rewrite enc_tokens_app, expand_app, tokens_ok_app, enc_tokens_one. fold E.
    rewrite <- app_assoc. simpl. rewrite <- Hlit.
    rewrite byte_id by (unfold is_byte; lia). split; [done|]. split; [rewrite zlen_app, zlen_cons; lia|].
    split; [split; [done|]; split; [lia|done]|]. split; [done|]. case_if; lia.
Qed.

Lemma emitted_size n op lit out :
  emitted n op lit out → 0 <= lit → 32 * op <= 32 + 33 * n.
Proof. intros (ts & lits & X & -> & -> & _ & _ & _ & Hsz & _). lia. Qed.

(** [start_run] after a flush. *)
Lemma flushed_start n op out : flushed 0 n op out → emitted n (op + 1) 0 out.
Proof.
  intros (ts & J & -> & -> & Hok & Ht & Hsz). exists ts, [], J. rewrite app_nil_r.
  split; [done|]. split; [lia|]. split; [done|]. split; [done|]. split; [done|]. split; [lia|].
  destruct J as [|h j]; [by left|]. right. by exists h, j.
Qed.

(** One more byte of the run. *)
Lemma emitted_byte n op lit out x :
  emitted n op lit out → byte_at n inp = Some x → op < zlen out →
  ∃ out', wr op [u8 x] out = Some out' ∧ zlen out' = zlen out ∧ emitted (n + 1) (op + 1) (lit + 1) out'.
Proof.
  intros (ts & lits & X & -> & -> & Hok & Ht & -> & Hsz & HX) Hx Hop. rewrite zlen_app in Hop.
  pose proof (zlen_nonneg lits).
  destruct HX as [[-> ->]|(h & j & ->)]; [change (zlen (@nil Z)) with 0 in *; lia|].
  rewrite zlen_cons, zlen_app in Hop. destruct j as [|y j]; [change (zlen (@nil Z)) with 0 in *; lia|].
  rewrite byte_id by (by apply (byte_is_byte n)). set (E := enc_tokens ts) in *.
  assert (wr (zlen E + 1 + zlen lits) [x] (E ++ h :: lits ++ y :: j) = Some (E ++ h :: (lits ++ [x]) ++ j)) as ->.
  { pose proof (wr_mid (E ++ h :: lits) [y] j [x] eq_refl) as Hw. rewrite zlen_app, zlen_cons in Hw.
    rewrite <- !app_assoc in Hw. simpl in Hw. rewrite <- app_assoc.
    replace (zlen E + 1 + zlen lits) with (zlen E + (1 + zlen lits)) by lia. exact Hw. }
  eexists. split; [done|]. split; [rewrite !zlen_app, !zlen_cons, !zlen_app, !zlen_cons; change (zlen (@nil Z)) with 0; lia|].
  exists ts, (lits ++ [x]), (h :: (lits ++ [x]) ++ j). rewrite zlen_app. change (zlen [x]) with 1. fold E.
  split; [done|]. split; [lia|]. split; [done|]. split; [by rewrite (take_S n x Hx), Ht, app_assoc|].
  split; [done|]. split; [fold E in Hsz; lia|]. right. by exists h, j.
Qed.

(** A back reference after a flush. *)
Lemma flushed_match slack n op out d len :
  flushed slack n op out → slack <= 1 → 0 <= n → 1 <= d <= 8192 → d <= n → 3 <= len <= 264 → n + len <= zlen inp →
  agree (n - d) n len → op + 3 <= zlen out →
  ∃ out', wr op (enc_token (Backref d len)) out = Some out' ∧ zlen out' = zlen out ∧
    flushed 0 (n + len) (op + zlen (enc_token (Backref d len))) out'.
Proof.
  intros (ts & J & -> & -> & Hok & Ht & Hsz) Hsl Hn Hd Hdn Hlen Hb Ha Hop. rewrite zlen_app in Hop.
  set (e := enc_token (Backref d len)). set (E := enc_tokens ts) in *.
  assert (zlen e <= 3 ∧ 32 + 32 * zlen e <= 33 * len) as [He He'] by (unfold e; simpl; case_if; unfold zlen; simpl; lia).
  rewrite <- (take_drop (length e) J).
  rewrite wr_mid by (rewrite zlen_take; unfold zlen in *; lia).
  eexists. split; [done|]. split; [rewrite !zlen_app, zlen_drop, zlen_take; unfold zlen in *; lia|].
  exists (ts ++ [Backref d len]), (drop (length e) J).
  rewrite enc_tokens_app, expand_app, tokens_ok_app, enc_tokens_one. fold e E.
  rewrite <- app_assoc. split; [done|]. split; [by rewrite zlen_app|].
  assert (zlen (expand [] ts) = n) as Hz by (rewrite <- Ht, zlen_take; lia).
  split.
  { split; [done|]. split; [simpl; lia|]. split; [|done]. simpl. zb. lia. }
  split; [|lia]. cbn [expand fold_left expand1]. rewrite <- Ht.
  set (p := take (Z.to_nat n) inp) in *. set (s := sub n len inp).
  assert (zlen s = len) as Hs by (apply zlen_sub; lia).
  assert (take (Z.to_nat (n + len)) inp = p ++ s) as Hps.
  { unfold p, s, sub. rewrite (Z2Nat.inj_add n len) by lia. by rewrite take_take_drop. }
  rewrite Hps. replace (Z.to_nat len) with (length s) by (unfold zlen in Hs; lia). symmetry.
  assert (zlen p = n) as Hp by congruence.
  apply self_copy_spec; [lia|]. intros k Hk. rewrite <- Hps, Hp.
  assert (∀ i, 0 <= i < n + len → byte_at i (take (Z.to_nat (n + len)) inp) = byte_at i inp) as Htake.
  { intros i Hi. unfold byte_at. case_if; [|done]. apply lookup_take_lt. lia. }
  rewrite !Htake by lia. replace (n + k - d) with (n - d + k) by lia. symmetry. apply Ha. lia.
Qed.

(** *** Steps *)

Lemma copy_byte_spec st :
  inv st → ip st < zlen inp → op st < zlen (out st) →
  ∃ st', copy_byte inp st = Some st' ∧ inv st' ∧ zlen (out st') = zlen (out st) ∧ ip st' = ip st + 1 ∧
    (lit st' = lit st + 1 ∧ op st' = op st + 1 ∨ lit st = 31 ∧ lit st' = 0 ∧ op st' = op st + 2).
Proof.
  intros (Hip & Hlit & Hh & He) Hn Hop. unfold copy_byte, emit. change MAX_LIT with 32.
  destruct (byte_at_in (ip st) inp) as [x Ex]; [lia|]. rewrite Ex. cbn [mbind option_bind ip op lit hval htab out].
  destruct (emitted_byte _ _ _ _ x He Ex Hop) as (o & -> & Ho & He'). cbn [mbind option_bind ip op lit hval htab out].
  case_if.
  - unfold stop_run. cbn [ip op lit hval htab out].
    destruct (emitted_stop _ _ _ _ He') as (o' & -> & Ho' & Hf); [lia|lia|].
    cbn [mbind option_bind]. eexists. split; [done|]. unfold start_run. cbn [ip op lit hval htab out].
    rewrite Heqb in Hf. change (32 =? 0) with false in Hf. rewrite Z.eqb_refl in Hf. cbv iota in Hf. rewrite Z.sub_0_r in Hf.
    split; [|split; [congruence|]; split; [lia|right; lia]].
    split; [cbn [ip]; lia|]. split; [cbn [lit]; lia|]. split; [done|]. cbn [ip op lit out].
    apply flushed_start in Hf. exact Hf.
  - eexists. split; [done|]. split; [|split; [done|]; split; [done|left; done]].
    split; [cbn [ip]; lia|]. split; [cbn [lit]; lia|]. done.
Qed.

Lemma htab_set_ok (h : Z → Z) i p :
  (∀ i, 0 <= h i < 2 ^ 64) → 0 <= p <= zlen inp → ∀ j, 0 <= htab_set h i (in_data + p) j < 2 ^ 64.
Proof. intros Hh Hp j. unfold htab_set. change MAX_OFF with 8192 in *. case_if; [lia|apply Hh]. Qed.

Lemma NEXT_in v p : 0 <= p → p + 2 < zlen inp → is_Some (NEXT inp v p).
Proof.
  intros. unfold NEXT. destruct (byte_at_in (p + 2) inp) as [c ->]; [lia|]. by eexists.
Qed.

Lemma rehash_spec st :
  (∀ i, 0 <= htab st i < 2 ^ 64) → 0 <= ip st → ip st + 2 < zlen inp →
  ∃ h t, rehash in_data inp st = Some (mkState (ip st + 1) (op st) (lit st) h t (out st)) ∧
    ∀ i, 0 <= t i < 2 ^ 64.
Proof.
  intros Hh Hp Hb. unfold rehash. destruct (NEXT_in (hval st) (ip st) Hp Hb) as [h ->].
  cbn [mbind option_bind]. eexists _, _. split; [done|]. apply htab_set_ok; [done|lia].
Qed.

(** Consecutive writes are one write. *)
Lemma wr_seq i s t (l l' : list Z) :
  wr i (s ++ t) l = Some l' → (l1 ← wr i s l; wr (i + zlen s) t l1) = Some l'.
Proof.
  intros (H1 & H2 & ->)%wr_Some. rewrite zlen_app in *. pose proof (zlen_nonneg s). pose proof (zlen_nonneg t).
  rewrite <- (take_drop (Z.to_nat i) l) at 1.
  rewrite <- (take_drop (Z.to_nat (zlen s)) (drop (Z.to_nat i) l)), drop_drop.
  set (p := take (Z.to_nat i) l). set (q := drop (Z.to_nat i + Z.to_nat (zlen s)) l).
  assert (zlen p = i) as Hp by (unfold p; rewrite zlen_take; lia).
  rewrite wr_at by (rewrite ?zlen_take, ?zlen_drop; lia). cbn [mbind option_bind].
  rewrite <- (take_drop (Z.to_nat (zlen t)) q), app_assoc. unfold q at 2. rewrite drop_drop.
  rewrite wr_at.
  - rewrite <- !app_assoc. do 5 f_equal. lia.
  - rewrite zlen_app. lia.
  - unfold q. rewrite zlen_take, zlen_drop. lia.
Qed.

(** The bytes of a back reference, as they are written. *)
Lemma emit_backref st off len o :
  0 <= off < MAX_OFF → 3 <= len <= 264 →
  wr (op st) (enc_token (Backref (off + 1) len)) (out st) = Some o →
  (st ← (if len - 2 <? 7 then emit st (Z.shiftr off 8 + Z.shiftl (len - 2) 5)
         else st ← emit st (Z.shiftr off 8 + Z.shiftl 7 5); emit st (len - 2 - 7));
   emit st off)
  = Some (mkState (ip st) (op st + zlen (enc_token (Backref (off + 1) len))) (lit st) (hval st) (htab st) o).
Proof.
  change MAX_OFF with 8192. intros Hoff Hlen. rewrite Z.shiftr_div_pow2, !Z.shiftl_mul_pow2 by lia.
  change (2 ^ 8) with 256. change (2 ^ 5) with 32. cbn [enc_token].
  replace (off + 1 - 1) with off by lia.
  assert (0 <= off / 256 < 32) as Hq by (split; [apply Z.div_pos; lia|apply Z.div_lt_upper_bound; lia]).
  assert (∀ st x, emit st x = (o ← wr (op st) [u8 x] (out st);
    Some (mkState (ip st) (op st + 1) (lit st) (hval st) (htab st) o))) as Eemit by done.
  assert (u8 off = off mod 256) as Eoff by done.
  case_if; intros Hw.
  - apply (wr_seq _ [_] [_]) in Hw. rewrite !Eemit, byte_id by (unfold is_byte; lia).
    replace (off / 256 + (len - 2) * 32) with (off / 256 + 32 * (len - 2)) by lia.
    destruct (wr (op st) _ _) as [o1|]; [|done]. cbn [mbind option_bind] in *. rewrite Eemit, Eoff.
    cbn [ip op lit hval htab out]. change (zlen [_]) with 1 in Hw. rewrite Hw. cbn [mbind option_bind].
    do 2 f_equal. unfold zlen. simpl. lia.
  - apply (wr_seq _ [_] [_; _]) in Hw. rewrite !Eemit, byte_id by (unfold is_byte; lia).
    change (7 * 32) with 224.
    destruct (wr (op st) _ _) as [o1|]; [|done]. cbn [mbind option_bind] in *. change (zlen [_]) with 1 in Hw.
    apply (wr_seq _ [_] [_]) in Hw. rewrite Eemit. cbn [ip op lit hval htab out].
    replace (len - 2 - 7) with (len - 9) by lia. rewrite byte_id by (unfold is_byte; lia).
    destruct (wr (op st + 1) _ _) as [o2|]; [|done]. cbn [mbind option_bind] in *. change (zlen [_]) with 1 in Hw.
    rewrite Eemit, Eoff. cbn [ip op lit hval htab out]. rewrite Hw. cbn [mbind option_bind].
    do 2 f_equal. unfold zlen. simpl. lia.
Qed.

Lemma bind_assoc {A B C} (m : option A) (f : A → option B) (g : B → option C) :
  (x ← m; y ← f x; g y) = (y ← (x ← m; f x); g y).
Proof. by destruct m. Qed.

(** What an iteration may lead to: it moves forward and leaves the loop only near the end. *)
Definition step_ok (st : state) (o : outcome) : Prop :=
  match o with
  | Return0 b => zlen b = zlen (out st) ∧ 32 * zlen (out st) < 33 * zlen inp + 160
  | Break st' => inv st' ∧ zlen (out st') = zlen (out st) ∧ zlen inp - 2 <= ip st'
  | Continue st' => inv st' ∧ zlen (out st') = zlen (out st) ∧ ip st < ip st'
  end.

Lemma emit_match_spec st ref off :
  inv st → ip st + 2 < zlen inp → 0 <= ref < ip st → off = ip st - ref - 1 → off < MAX_OFF →
  agree ref (ip st) 3 →
  ∃ o, emit_match in_data inp st ref off = Some o ∧ step_ok st o.
Proof.
  intros (Hip & Hlit & Hh & He) Hb Hr Hoff Hmax Ha. unfold emit_match.
  destruct (match_length_spec ref (ip st) Hr Hb Ha) as (len & Hml & Hag & Hlen & Hend).
  assert (size_t (zlen inp - ip st - 2) = zlen inp - ip st - 2) as ->.
  { apply uwrap_id. change MAX_OFF with 8192 in *. lia. }
  set (no_lit := if lit st =? 0 then 1 else 0).
  assert (0 <= no_lit <= 1) as Hnl by (unfold no_lit; case_if; lia).
  pose proof (emitted_size _ _ _ _ He ltac:(lia)) as Hsize.
  destruct (_ && _) eqn:Efull; [zb; eexists; split; [done|]; split; [done|lia]|].
  assert (op st - no_lit + 4 < zlen (out st)) as Hroom by (zb; lia). clear Efull.
  unfold stop_run at 1. destruct (emitted_stop _ _ _ _ He) as (o1 & -> & Ho1 & Hf); [lia|unfold no_lit in *; case_if; lia|].
  cbn [mbind option_bind ip op lit hval htab out]. rewrite Hml. cbn [mbind option_bind]. fold no_lit in Hf.
  destruct (flushed_match _ _ _ _ (off + 1) len Hf) as (o2 & Hw & Ho2 & Hf2);
    [case_if; [lia|case_if; lia]|lia|change MAX_OFF with 8192 in *; lia|lia|lia|lia| |rewrite Ho1; lia|].
  { replace (ip st - (off + 1)) with ref by lia. done. }
  set (st2 := mkState (ip st + 1) (op st - no_lit) (lit st) (hval st) (htab st) o1).
  pose proof (emit_backref st2 off len o2 ltac:(lia) Hlen Hw) as Eb.
  rewrite (bind_assoc _ (λ st, emit st off)), Eb. cbn [mbind option_bind]. clear Eb.
  unfold start_run. cbn [ip op lit hval htab out st2]. clear st2 Hw.
  replace (ip st + 1 + (len - 2 + 1)) with (ip st + len) by lia.
  apply flushed_start in Hf2.
  assert (∀ h t, (∀ i, 0 <= t i < 2 ^ 64) →
    inv (mkState (ip st + len) (op st - no_lit + zlen (enc_token (Backref (off + 1) len)) + 1) 0 h t o2)) as Hinv.
  { intros h t Ht. split; [cbn [ip]; lia|]. split; [cbn [lit]; lia|]. done. }
  assert (zlen o2 = zlen (out st)) as Hz by congruence.
  case_if; [eexists; split; [done|]; split; [by apply Hinv|done]|].
  unfold FRST. destruct (byte_at_in (ip st + len - 2) inp) as [a ->]; [lia|].
  destruct (byte_at_in (ip st + len - 2 + 1) inp) as [b ->]; [lia|]. cbn [mbind option_bind].
  match goal with |- context [rehash _ _ ?s0] => destruct (rehash_spec s0) as (h1 & t1 & -> & Ht1);
    cbn [ip op lit hval htab out]; [done|lia..|] end.
  cbn [mbind option_bind ip op lit hval htab out].
  match goal with |- context [rehash _ _ ?s0] => destruct (rehash_spec s0) as (h2 & t2 & -> & Ht2);
    cbn [ip op lit hval htab out]; [done|lia..|] end.
  cbn [mbind option_bind ip op lit hval htab out].
  replace (ip st + len - 2 + 1 + 1) with (ip st + len) by lia.
  eexists. split; [done|]. split; [by apply Hinv|]. cbn [out ip]. split; [done|lia].
Qed.

Lemma compress_step_spec st :
  inv st → ip st + 2 < zlen inp → ∃ o, compress_step in_data inp st = Some o ∧ step_ok st o.
Proof.
  intros Hi Hb. pose proof Hi as (Hip & Hlit & Hh & He). unfold compress_step.
  destruct (NEXT_in (hval st) (ip st)) as [h ->]; [lia|done|]. cbn [mbind option_bind ip op lit hval htab out].
  destruct (is_match_spec (htab st (IDX h)) (ip st) (Hh _) ltac:(lia) Hb) as (found & -> & Hf).
  cbn [mbind option_bind]. set (st1 := mkState _ _ _ _ _ _).
  assert (inv st1) as Hi1.
  { split; [done|]. split; [done|]. split; [|done]. apply htab_set_ok; [done|lia]. }
  assert (∀ o, step_ok st1 o → step_ok st o) as Hsame by done.
  destruct found.
  - destruct (Hf eq_refl) as (Hr & Hoff & Hmax & Hag).
    destruct (emit_match_spec st1 _ _ Hi1 Hb Hr Hoff Hmax Hag) as (o & -> & Ho). exists o. split; [done|]. by apply Hsame.
  - pose proof (emitted_size _ _ _ _ He ltac:(lia)) as Hsize. destruct (zlen (out st) <=? op st) eqn:Eop; zb.
    { eexists. split; [done|]. split; [done|]. lia. }
    destruct (copy_byte_spec st1 Hi1) as (st' & -> & Hi' & Hz & Hp & _); [cbn [ip st1]; lia|done|].
    cbn [mbind option_bind]. eexists. split; [done|]. split; [done|]. split; [done|]. rewrite Hp. cbn [ip st1]. lia.
Qed.

Lemma compress_loop_spec fuel st :
  inv st → zlen inp - 2 - ip st <= Z.of_nat fuel →
  ∃ r, compress_loop in_data inp fuel st = Some r ∧
    match r with
    | inl b => zlen b = zlen (out st) ∧ 32 * zlen (out st) < 33 * zlen inp + 160
    | inr st' => inv st' ∧ zlen (out st') = zlen (out st) ∧ zlen inp - 2 <= ip st'
    end.
Proof.
  revert st. induction fuel as [|fuel IH]; intros st Hi Hf; cbn [compress_loop];
    (destruct (ip st <? zlen inp - 2) eqn:E; zb; cbn [negb]; [|exists (inr st); split; [done|]; split; [done|]; done]).
  { lia. }
  destruct (compress_step_spec st Hi) as (o & -> & Ho); [lia|]. cbn [mbind option_bind].
  destruct o as [b|st'|st']; [by exists (inl b)|by exists (inr st')|].
  destruct Ho as (Hi' & Hz & Hp). destruct (IH st' Hi') as (r & -> & Hr); [lia|].
  exists r. split; [done|]. rewrite <- Hz. done.
Qed.

Lemma tail_loop_spec st :
  inv st → zlen inp - 2 <= ip st → op st + 3 <= zlen (out st) →
  ∃ st', tail_loop inp 2 st = Some st' ∧ inv st' ∧ zlen (out st') = zlen (out st) ∧ ip st' = zlen inp ∧
    op st' - lit st' <= zlen (out st).
Proof.
  intros Hi Hp Hop. cbn [tail_loop].
  destruct (ip st <? zlen inp) eqn:E1; zb; cbn [negb];
    [|exists st; split; [done|]; split; [done|]; destruct Hi as (? & ? & _); split; [done|]; lia].
  destruct (copy_byte_spec st Hi) as (st1 & -> & Hi1 & Hz1 & Hp1 & Ho1); [lia|lia|]. cbn [mbind option_bind].
  destruct (ip st1 <? zlen inp) eqn:E2; zb; cbn [negb];
    [|exists st1; split; [done|]; split; [done|]; destruct Hi as (? & ? & _); split; [done|]; lia].
  destruct (copy_byte_spec st1 Hi1) as (st2 & -> & Hi2 & Hz2 & Hp2 & Ho2); [lia|lia|]. cbn [mbind option_bind].
  rewrite (proj2 (Z.ltb_ge (ip st2) (zlen inp))) by lia. cbn [negb].
  exists st2. split; [done|]. split; [done|]. destruct Hi as (? & ? & _). split; [lia|]. lia.
Qed.


(** [lzf_compress] stays inside its buffers.  If it returns a length, that many bytes of
    the output encode the input; it does return one when the output buffer has
    one byte in 32 to spare, and five. *)
Lemma lzf_compress_spec htab0 out0 :
  1 < zlen inp → (∀ i, 0 <= htab0 i < 2 ^ 64) →
  ∃ n out', lzf_compress in_data inp htab0 out0 = Some (n, out') ∧ zlen out' = zlen out0 ∧
    0 <= n <= zlen out0 ∧
    (33 * zlen inp + 160 <= 32 * zlen out0 → n ≠ 0) ∧
    (n ≠ 0 → ∃ ts, take (Z.to_nat n) out' = enc_tokens ts ∧ tokens_ok [] ts ∧ expand [] ts = inp).
Proof.
  intros Hlen Hh. unfold lzf_compress. rewrite (proj2 (Z.eqb_neq (zlen inp) 0)) by lia. cbn [orb].
  pose proof (zlen_nonneg out0). case_if.
  { exists 0, out0. split_and!; try done; lia. }
  unfold FRST. destruct (byte_at_in 0 inp) as [a ->]; [lia|]. destruct (byte_at_in (0 + 1) inp) as [b ->]; [lia|].
  cbn [mbind option_bind]. set (st0 := mkState 0 1 0 _ htab0 out0).
  assert (inv st0) as Hi.
  { split; [cbn; lia|]. split; [cbn; lia|]. split; [done|]. exists [], [], out0.
    split; [done|]. split; [done|]. split; [done|]. split; [done|]. split; [done|]. split; [vm_compute; discriminate|].
    right. destruct out0 as [|h j]; [done|]. by exists h, j. }
  destruct (compress_loop_spec (length inp) st0 Hi) as (r & -> & Hr); [cbn [ip st0]; unfold zlen; lia|].
  cbn [mbind option_bind]. destruct r as [o|st].
  { destruct Hr as [Ho Hfull]. exists 0, o. cbn [out st0] in *. split_and!; try done; lia. }
  destruct Hr as (Hi1 & Hz1 & Hp1). cbn [out st0] in Hz1. pose proof Hi1 as (_ & Hl1 & _ & He1).
  pose proof (emitted_size _ _ _ _ He1 ltac:(lia)) as Hsize. case_if.
  { exists 0, (out st). destruct Hi1 as (? & _). split_and!; try done; lia. }
  destruct (tail_loop_spec st Hi1 Hp1) as (st2 & -> & (Hip2 & Hl2 & _ & He2) & Hz2 & Hp2 & Hop2); [lia|].
  cbn [mbind option_bind]. unfold stop_run.
  destruct (emitted_stop _ _ _ _ He2) as (o & -> & Ho & (ts & J & -> & Hop & Hok & Ht & _)); [lia|lia|].
  cbn [mbind option_bind op lit out]. rewrite Hop. set (E := enc_tokens ts) in *.
  eexists _, _. split; [done|]. rewrite zlen_app in *. pose proof (zlen_nonneg E). pose proof (zlen_nonneg J).
  assert (expand [] ts = inp) as Hexp.
  { rewrite <- Ht, Hp2. unfold zlen. by rewrite Nat2Z.id, firstn_all. }
  split; [lia|]. split; [lia|]. split.
  - intros _ HE. apply zlen_0_nil in HE. destruct ts as [|t ts]; [rewrite <- Hexp in Hlen; done|].
    unfold E in HE. rewrite enc_tokens_cons in HE. destruct Hok as (Hok & _). apply enc_token_pos in Hok.
    apply app_eq_nil in HE as [HE _]. by rewrite HE in Hok.
  - intros _. exists ts. by rewrite take_app_zlen.
Qed.

End Compress.

(** ** The round trip *)

Lemma self_copy_prefix n d l : ∃ s, self_copy n d l = l ++ s.
Proof.
  revert l. induction n as [|n IH]; intros l; cbn [self_copy]; [exists []; by rewrite app_nil_r|].
  destruct (IH (l ++ [default 0 (byte_at (zlen l - d) l)])) as [s ->]. rewrite <- app_assoc. by eexists.
Qed.

Lemma expand_prefix l ts : ∃ s, expand l ts = l ++ s.
Proof.
  revert l. induction ts as [|t ts IH]; intros l; [exists []; by rewrite app_nil_r|].
  change (expand l (t :: ts)) with (expand (expand1 l t) ts). destruct (IH (expand1 l t)) as [s ->].
  destruct t as [r|d n]; simpl; [rewrite <- app_assoc; by eexists|].
  destruct (self_copy_prefix (Z.to_nat n) d l) as [r ->]. rewrite <- app_assoc. by eexists.
Qed.

(** The encoding of a sequence of bytes consists of bytes. *)
Lemma enc_tokens_wf l ts : tokens_ok l ts → wf_bytes (expand l ts) → wf_bytes (enc_tokens ts).
Proof.
  revert l. induction ts as [|t ts IH]; intros l; [intros; apply list.Forall_nil_2|]. cbn [tokens_ok]. intros (Ht & _ & Hok) Hw.
  rewrite enc_tokens_cons. apply Forall_app. split; [|by apply (IH (expand1 l t))].
  destruct t as [s|d n]; simpl in Ht.
  - change (expand l (Literal s :: ts)) with (expand (l ++ s) ts) in Hw.
    destruct (expand_prefix (l ++ s) ts) as [r E]. rewrite E in Hw. apply Forall_app in Hw as [Hw _]. apply Forall_app in Hw as [_ Hw].
    simpl. apply list.Forall_cons. split; [unfold is_byte; lia|done].
  - assert (0 <= (d - 1) / 256 < 32) by (split; [apply Z.div_pos; lia|apply Z.div_lt_upper_bound; lia]).
    pose proof (Z.mod_pos_bound (d - 1) 256).
    simpl. case_if; repeat (apply list.Forall_cons; split; [unfold is_byte; lia|]); apply list.Forall_nil_2.
Qed.

(** A byte sequence encodes at most one sequence of tokens. *)
Lemma enc_tokens_inj l ts us :
  tokens_ok l ts → tokens_ok l us → enc_tokens ts = enc_tokens us → ts = us.
Proof.
  revert l us. induction ts as [|t ts IH]; intros l [|u us] Ht Hu; rewrite ?enc_tokens_cons; [done|..].
  - destruct Hu as (Hu & _). apply enc_token_pos in Hu. intros E. symmetry in E. apply app_eq_nil in E as [E _].
    by rewrite E in Hu.
  - destruct Ht as (Ht & _). apply enc_token_pos in Ht. intros E. apply app_eq_nil in E as [E _]. by rewrite E in Ht.
  - destruct Ht as (Ht & _ & Hts), Hu as (Hu & _ & Hus). intros E.
    pose proof (parse_enc t (enc_tokens ts) Ht) as E1. rewrite E, parse_enc in E1 by done.
    injection E1 as -> E1. f_equal. by apply (IH (expand1 l t)).
Qed.

(** [c] decompresses to [s] in every buffer that is large enough, and the rest of
    the buffer is left alone. *)
Definition restores (c s : list Z) : Prop :=
  ∀ buf, zlen s <= zlen buf →
    lzf_decompress c buf = Some (zlen s, None, s ++ drop (Z.to_nat (zlen s)) buf).

(** Decompressing the encoding of a sequence of tokens. *)
Lemma lzf_decompress_tokens ts :
  tokens_ok [] ts → wf_bytes (expand [] ts) → restores (enc_tokens ts) (expand [] ts).
Proof.
  intros Hok Hw buf Hbuf. pose proof (enc_tokens_wf [] ts Hok Hw) as Hwe.
  destruct (decompress_loop_correct (length (enc_tokens ts)) [] _ [] buf Hwe (le_n _)) as (r & e & out' & E' & _ & He).
  unfold lzf_decompress. change (zlen (@nil Z)) with 0 in *. simpl app in E'. rewrite E'. destruct e as [e|].
  - destruct He as [_ He]. specialize (He ts eq_refl Hok). lia.
  - destruct He as (us & Eu & Hoku & Hr & _ & ->). apply (enc_tokens_inj []) in Eu as <-; [|done..].
    by rewrite Hr, Z.sub_0_r.
Qed.

(** (C9) Compression is reversible and safe: for any input of at least two bytes, any
    output buffer and any contents of the uninitialised hash table,
    [lzf_compress] reads and writes inside its buffers; when it returns a length,
    [lzf_decompress] restores exactly the input from that many bytes, into any
    buffer that is large enough; and it does return one when the output
    buffer has one byte in 32 to spare, and five. *)
Theorem lzf_compress_roundtrip in_data inp htab0 out0 :
  wf_bytes inp → 1 < zlen inp → MAX_OFF <= in_data → in_data + zlen inp < 2 ^ 64 →
  (∀ i, 0 <= htab0 i < 2 ^ 64) →
  ∃ n out, lzf_compress in_data inp htab0 out0 = Some (n, out) ∧ zlen out = zlen out0 ∧ 0 <= n <= zlen out0 ∧
    (33 * zlen inp + 160 <= 32 * zlen out0 → n ≠ 0) ∧
    (n ≠ 0 → restores (take (Z.to_nat n) out) inp).
Proof.
  intros Hw Hlen Hlow Hhigh Hh.
  destruct (lzf_compress_spec in_data inp Hw Hlow Hhigh htab0 out0 Hlen Hh) as (n & out & E & Hz & Hn & Hroom & Hts).
  exists n, out. split; [done|]. split; [done|]. split; [done|]. split; [done|].
  intros Hn0. destruct (Hts Hn0) as (ts & -> & Hok & Hexp).
  rewrite <- Hexp in *. by apply lzf_decompress_tokens.
Qed.

(** An input of a single byte is read past its end. *)
Lemma lzf_compress_one_byte in_data x htab0 out0 :
  out0 ≠ [] → lzf_compress in_data [x] htab0 out0 = None.
Proof.
  intros Hne. unfold lzf_compress. change (zlen [x]) with 1. cbn [Z.eqb orb].
  rewrite (proj2 (Z.eqb_neq _ _)) by (intros E; by apply zlen_0_nil in E). done.
Qed.

(** ** A concrete input *)

Definition sample : list Z :=
  bytes_of_string "abcabcabcabcabcxyzabcabcabcabcabcabcabcabczzzzzzzzzzzzzzzz".

Lemma lzf_compress_roundtrip_witness :
  ∃ n out, lzf_compress 65536 sample (λ _, 77) (replicate 70 0) = Some (n, out) ∧ n ≠ 0 ∧
    lzf_decompress (take (Z.to_nat n) out) (replicate 80 1)
    = Some (zlen sample, None, sample ++ drop (Z.to_nat (zlen sample)) (replicate 80 1)).
Proof.
  assert (wf_bytes sample) as H1 by (apply wf_bytesb_spec; vm_compute; reflexivity).
  assert (1 < zlen sample) as H2 by reflexivity.
  assert (MAX_OFF <= 65536) as H3 by (vm_compute; discriminate).
  assert (65536 + zlen sample < 2 ^ 64) as H4 by (vm_compute; reflexivity).
  assert (∀ i : Z, 0 <= (λ _, 77) i < 2 ^ 64) as H5 by (intros i; lia).
  assert (33 * zlen sample + 160 <= 32 * zlen (replicate 70 0)) as H6 by (vm_compute; discriminate).
  assert (zlen sample <= zlen (replicate 80 1)) as H7 by (vm_compute; discriminate).
  destruct (lzf_compress_roundtrip 65536 sample (λ _, 77) (replicate 70 0) H1 H2 H3 H4 H5)
    as (n & out & E & _ & _ & Hn & Hd).
  exists n, out. split; [exact E|]. split; [exact (Hn H6)|]. exact (Hd (Hn H6) _ H7).
Defined.

(** A literal run, then a reference that overlaps what it produces. *)
Definition packed : list Z := [1; 97; 98; 64; 1].

Lemma lzf_decompress_correct_witness :
  decompressed packed [] [0; 0; 0; 0; 0; 0; 9] (lzf_decompress packed [0; 0; 0; 0; 0; 0; 9]) ∧
  lzf_decompress packed [0; 0; 0; 0; 0; 0; 9] = Some (6, None, [97; 98; 97; 98; 97; 98; 9]).
Proof.
  assert (wf_bytes packed) as H by (apply wf_bytesb_spec; vm_compute; reflexivity).
  split; [exact (lzf_decompress_correct packed [0; 0; 0; 0; 0; 0; 9] H)|vm_compute; reflexivity].
Defined.

End LzfProofs.
