(* ===== verification/Rdb.v ===== *)
(** * Strings in RDB files ([src/redis-stable/src/rdb.c], [rio.h], [rio.c])

    Lengths, integers, compressed and plain strings as they are written to and
    read from a [rio], here the in-memory one that DUMP and RESTORE use.  A null [rio]
    is written to in order to compute sizes only.  [None] is an access outside a buffer;
    errors of the format are values of the results. *)

From S2P Require Import Prelude Util Lzf.

Module Rdb.
Import Util.

(** ** The in-memory stream *)

Definition RIO_FLAG_READ_ERROR : Z := Z.shiftl 1 0.
Definition RIO_FLAG_WRITE_ERROR : Z := Z.shiftl 1 1.

(** [update_cksum] is null for a buffer. *)
Record rio := mkRio {
  ptr : list Z;
  pos : Z;
  flags : Z;
  processed_bytes : Z;
  max_processing_chunk : Z;
}.

Definition rioInitWithBuffer (s : list Z) : rio := mkRio s 0 0 0 0.

Definition rioBufferWrite (r : rio) (buf : list Z) : rio * bool :=
  (mkRio (ptr r ++ buf) (pos r + zlen buf) (flags r) (processed_bytes r) (max_processing_chunk r), true).

(** [None]: not enough bytes. *)
Definition rioBufferRead (r : rio) (len : Z) : rio * option (list Z) :=
  if uwrap 64 (zlen (ptr r) - pos r) <? len then (r, None)
  else
    (mkRio (ptr r) (pos r + len) (flags r) (processed_bytes r) (max_processing_chunk r),
     Some (sub (pos r) len (ptr r))).

Definition set_flag (r : rio) (f : Z) : rio :=
  mkRio (ptr r) (pos r) (Z.lor (flags r) f) (processed_bytes r) (max_processing_chunk r).
Definition count_bytes (r : rio) (n : Z) : rio :=
  mkRio (ptr r) (pos r) (flags r) (uwrap 64 (processed_bytes r + n)) (max_processing_chunk r).

Definition chunk (r : rio) (len : Z) : Z :=
  if negb (max_processing_chunk r =? 0) && (max_processing_chunk r <? len)
  then max_processing_chunk r else len.

(** [while (len)]; a chunk is not empty. *)
Fixpoint write_loop (fuel : nat) (r : rio) (buf : list Z) : option (rio * bool) :=
  if zlen buf =? 0 then Some (r, true)
  else
    match fuel with
    | O => None
    | S fuel =>
        let n := chunk r (zlen buf) in
        let '(r, ok) := rioBufferWrite r (take (Z.to_nat n) buf) in
        if (ok : bool) then write_loop fuel (count_bytes r n) (drop (Z.to_nat n) buf)
        else Some (set_flag r RIO_FLAG_WRITE_ERROR, false)
    end.

Definition rioWrite (r : rio) (buf : list Z) : option (rio * bool) :=
  if negb (Z.land (flags r) RIO_FLAG_WRITE_ERROR =? 0) then Some (r, false)
  else write_loop (length buf) r buf.

(** [acc]: the bytes read by the chunks before. *)
Fixpoint read_loop (fuel : nat) (r : rio) (len : Z) (acc : list Z) : option (rio * option (list Z)) :=
  if len =? 0 then Some (r, Some acc)
  else
    match fuel with
    | O => None
    | S fuel =>
        let n := chunk r len in
        let '(r, s) := rioBufferRead r n in
        match s with
        | Some s => read_loop fuel (count_bytes r n) (len - n) (acc ++ s)
        | None => Some (set_flag r RIO_FLAG_READ_ERROR, None)
        end
    end.

Definition rioRead (r : rio) (len : Z) : option (rio * option (list Z)) :=
  if negb (Z.land (flags r) RIO_FLAG_READ_ERROR =? 0) then Some (r, None)
  else read_loop (Z.to_nat len) r len [].

(** ** Writing *)

Definition RDB_6BITLEN : Z := 0.
Definition RDB_14BITLEN : Z := 1.
Definition RDB_32BITLEN : Z := 128.
Definition RDB_64BITLEN : Z := 129.
Definition RDB_ENCVAL : Z := 3.
Definition RDB_LENERR : Z := UINT64_MAX.

Definition RDB_ENC_INT8 : Z := 0.
Definition RDB_ENC_INT16 : Z := 1.
Definition RDB_ENC_INT32 : Z := 2.
Definition RDB_ENC_LZF : Z := 3.

(** A [rio] pointer, the stream after a call and the value returned. *)
Definition written : Type := option (option rio * Z).

Definition rdbWriteRaw (rdb : option rio) (p : list Z) : written :=
  match rdb with
  | None => Some (None, zlen p)
  | Some r => '(r, ok) ← rioWrite r p; Some (Some r, if (ok : bool) then zlen p else -1)
  end.

(** [if ((n = call) == -1) return -1;] and what follows. *)
Definition and_then (w : written) (k : option rio → Z → written) : written :=
  '(rdb, n) ← w; if n =? -1 then Some (rdb, -1) else k rdb n.

Definition rdbSaveType (rdb : option rio) (type : Z) : written := rdbWriteRaw rdb [type].

(** [htonl] and [htonu64] on a little-endian machine. *)
Definition be_bytes (n : nat) (v : Z) : list Z := rev (le_bytes n v).

Definition rdbSaveLen (rdb : option rio) (len : Z) : written :=
  if len <? Z.shiftl 1 6 then
    and_then (rdbWriteRaw rdb [Z.lor (Z.land len 255) (Z.shiftl RDB_6BITLEN 6)]) (λ rdb _, Some (rdb, 1))
  else if len <? Z.shiftl 1 14 then
    and_then (rdbWriteRaw rdb [Z.lor (Z.land (Z.shiftr len 8) 255) (Z.shiftl RDB_14BITLEN 6); Z.land len 255])
      (λ rdb _, Some (rdb, 2))
  else if len <=? UINT32_MAX then
    and_then (rdbWriteRaw rdb [RDB_32BITLEN])
      (λ rdb _, and_then (rdbWriteRaw rdb (be_bytes 4 len)) (λ rdb _, Some (rdb, 1 + 4)))
  else
    and_then (rdbWriteRaw rdb [RDB_64BITLEN])
      (λ rdb _, and_then (rdbWriteRaw rdb (be_bytes 8 len)) (λ rdb _, Some (rdb, 1 + 8))).

(** The bytes put in [enc]; none when 0 is returned. *)
Definition rdbEncodeInteger (value : Z) : list Z :=
  let b k := Z.land (Z.shiftr value k) 255 in
  if (- Z.shiftl 1 7 <=? value) && (value <=? Z.shiftl 1 7 - 1) then
    [Z.lor (Z.shiftl RDB_ENCVAL 6) RDB_ENC_INT8; b 0]
  else if (- Z.shiftl 1 15 <=? value) && (value <=? Z.shiftl 1 15 - 1) then
    [Z.lor (Z.shiftl RDB_ENCVAL 6) RDB_ENC_INT16; b 0; b 8]
  else if (- Z.shiftl 1 31 <=? value) && (value <=? Z.shiftl 1 31 - 1) then
    [Z.lor (Z.shiftl RDB_ENCVAL 6) RDB_ENC_INT32; b 0; b 8; b 16; b 24]
  else [].

Definition rdbTryIntegerEncoding (s : list Z) : list Z :=
  match string2ll s with
  | Some value => rdbEncodeInteger value
  | None => []
  end.

Definition rdbSaveLzfBlob (rdb : option rio) (data : list Z) (original_len : Z) : written :=
  and_then (rdbWriteRaw rdb [Z.lor (Z.shiftl RDB_ENCVAL 6) RDB_ENC_LZF]) (λ rdb n1,
  and_then (rdbSaveLen rdb (zlen data)) (λ rdb n2,
  and_then (rdbSaveLen rdb original_len) (λ rdb n3,
  and_then (rdbWriteRaw rdb data) (λ rdb n4, Some (rdb, n1 + n2 + n3 + n4))))).

Section Strings.
(** Memory: the address of the string that is compressed, what fresh memory
    holds, and which allocations succeed when they may fail; what the hash table of
    the compressor holds; [server.rdb_compression]. *)
Variable in_data : Z.
Variable junk : Z.
Variable try_alloc : Z → bool.
Variable htab0 : Z → Z.
Variable rdb_compression : bool.

(** [zmalloc] aborts the process when it fails. *)
Definition rdbSaveLzfStringObject (rdb : option rio) (s : list Z) : written :=
  if zlen s <=? 4 then Some (rdb, 0)
  else
    let outlen := zlen s - 4 in
    '(comprlen, out) ← Lzf.lzf_compress in_data s htab0 (replicate (Z.to_nat outlen) junk);
    if comprlen =? 0 then Some (rdb, 0)
    else rdbSaveLzfBlob rdb (take (Z.to_nat comprlen) out) (zlen s).

Definition save_verbatim (rdb : option rio) (s : list Z) : written :=
  and_then (rdbSaveLen rdb (zlen s)) (λ rdb n,
    if 0 <? zlen s then and_then (rdbWriteRaw rdb s) (λ rdb _, Some (rdb, n + zlen s))
    else Some (rdb, n)).

Definition save_long (rdb : option rio) (s : list Z) : written :=
  if rdb_compression && (20 <? zlen s) then
    and_then (rdbSaveLzfStringObject rdb s) (λ rdb n,
      if 0 <? n then Some (rdb, n) else save_verbatim rdb s)
  else save_verbatim rdb s.

Definition rdbSaveRawString (rdb : option rio) (s : list Z) : written :=
  if zlen s <=? 11 then
    let enc := rdbTryIntegerEncoding s in
    if 0 <? zlen enc then and_then (rdbWriteRaw rdb enc) (λ rdb _, Some (rdb, zlen enc))
    else save_long rdb s
  else save_long rdb s.

Definition rdbSaveLongLongAsStringObject (rdb : option rio) (value : Z) : written :=
  let enc := rdbEncodeInteger value in
  if 0 <? zlen enc then rdbWriteRaw rdb enc
  else
    '(buf, enclen) ← ll2string (replicate 32 junk) 0 32 value;
    if enclen <? 32 then
      and_then (rdbSaveLen rdb enclen) (λ rdb n1,
      and_then (rdbWriteRaw rdb (take (Z.to_nat enclen) buf)) (λ rdb n2, Some (rdb, n1 + n2)))
    else None.

(** String objects; the raw and the embedded encoding differ only in where
    the bytes are. *)
Inductive robj := ObjString (s : list Z) | ObjInt (v : Z).

Definition rdbSaveStringObject (rdb : option rio) (o : robj) : written :=
  match o with
  | ObjInt v => rdbSaveLongLongAsStringObject rdb v
  | ObjString s => rdbSaveRawString rdb s
  end.

(** ** Reading *)

(** [*isencoded] and [*lenptr]; [None] for -1. *)
Definition rdbLoadLenByRef (r : rio) : option (rio * option (bool * Z)) :=
  '(r, b) ← rioRead r 1;
  match b with
  | Some [b0] =>
      let type := Z.shiftr (Z.land b0 192) 6 in
      if type =? RDB_ENCVAL then Some (r, Some (true, Z.land b0 63))
      else if type =? RDB_6BITLEN then Some (r, Some (false, Z.land b0 63))
      else if type =? RDB_14BITLEN then
        '(r, b) ← rioRead r 1;
        Some (r, match b with Some [b1] => Some (false, Z.lor (Z.shiftl (Z.land b0 63) 8) b1) | _ => None end)
      else if b0 =? RDB_32BITLEN then
        '(r, b) ← rioRead r 4; Some (r, b ← b; Some (false, le_val (rev b)))
      else if b0 =? RDB_64BITLEN then
        '(r, b) ← rioRead r 8; Some (r, b ← b; Some (false, le_val (rev b)))
      else Some (r, None)
  | _ => Some (r, None)
  end.

(** [*isencoded], when it is wanted, and the length returned. *)
Definition rdbLoadLen (r : rio) : option (rio * (bool * Z)) :=
  '(r, l) ← rdbLoadLenByRef r;
  Some (r, match l with Some l => l | None => (false, RDB_LENERR) end).

(** The kind of result the flags ask for; [RDB_LOAD_NONE] and
    [RDB_LOAD_ENC] ask for an object. *)
Inductive load_flags := RDB_LOAD_NONE | RDB_LOAD_ENC | RDB_LOAD_PLAIN | RDB_LOAD_SDS | RDB_LOAD_HFLD.

Inductive loaded := Plain (s : list Z) | SdsString (s : list Z) | Hfield (s : list Z) | Robj (o : robj).

Inductive ll2strobj := LL2STROBJ_AUTO | LL2STROBJ_NO_SHARED | LL2STROBJ_NO_INT_ENC.
Definition OBJ_SHARED_INTEGERS : Z := 10000.

(** The bytes [ll2string] leaves in a local buffer. *)
Definition printed (value : Z) : option (list Z) :=
  '(buf, len) ← ll2string (replicate (Z.to_nat LONG_STR_SIZE) junk) 0 LONG_STR_SIZE value;
  rd 0 len buf.

(** [shared.integers[value]] is an integer object. *)
Definition createStringObjectFromLongLongWithOptions (value : Z) (flag : ll2strobj) : option robj :=
  let auto := match flag with LL2STROBJ_AUTO => true | _ => false end in
  let int_enc := match flag with LL2STROBJ_NO_INT_ENC => false | _ => true end in
  if (0 <=? value) && (value <? OBJ_SHARED_INTEGERS) && auto then Some (ObjInt value)
  else if (LONG_MIN <=? value) && (value <=? LONG_MAX) && int_enc then Some (ObjInt value)
  else s ← printed value; Some (ObjString s).

(** [no_shared]: the memory policy forbids sharing. *)
Variable no_shared : bool.
Definition createStringObjectFromLongLongForValue (value : Z) : option robj :=
  if negb no_shared then createStringObjectFromLongLongWithOptions value LL2STROBJ_AUTO
  else createStringObjectFromLongLongWithOptions value LL2STROBJ_NO_SHARED.
Definition createStringObjectFromLongLongWithSds (value : Z) : option robj :=
  createStringObjectFromLongLongWithOptions value LL2STROBJ_NO_INT_ENC.

Definition load_integer (r : rio) (n : Z) (f : list Z → Z) : option (rio * option Z) :=
  '(r, b) ← rioRead r n; Some (r, b ← b; Some (f b)).

Definition rdbLoadIntegerObject (r : rio) (enctype : Z) (fl : load_flags) : option (rio * option loaded) :=
  '(r, val) ←
    (if enctype =? RDB_ENC_INT8 then load_integer r 1 (λ b, swrap 8 (le_val b))
     else if enctype =? RDB_ENC_INT16 then load_integer r 2 (λ b, swrap 16 (le_val b))
     else if enctype =? RDB_ENC_INT32 then load_integer r 4 (λ b, swrap 32 (le_val b))
     else Some (r, None));
  match val with
  | None => Some (r, None)
  | Some val =>
      v ← match fl with
          | RDB_LOAD_PLAIN => s ← printed val; Some (Plain s)
          | RDB_LOAD_SDS => s ← printed val; Some (SdsString s)
          | RDB_LOAD_HFLD => s ← printed val; Some (Hfield s)
          | RDB_LOAD_ENC => o ← createStringObjectFromLongLongForValue val; Some (Robj o)
          | RDB_LOAD_NONE => o ← createStringObjectFromLongLongWithSds val; Some (Robj o)
          end;
      Some (r, Some v)
  end.

Definition make_loaded (fl : load_flags) (s : list Z) : loaded :=
  match fl with
  | RDB_LOAD_PLAIN => Plain s
  | RDB_LOAD_SDS => SdsString s
  | RDB_LOAD_HFLD => Hfield s
  | RDB_LOAD_NONE | RDB_LOAD_ENC => Robj (ObjString s)
  end.

Definition rdbLoadLzfStringObject (r : rio) (fl : load_flags) : option (rio * option loaded) :=
  '(r, (_, clen)) ← rdbLoadLen r;
  if clen =? RDB_LENERR then Some (r, None)
  else
    '(r, (_, len)) ← rdbLoadLen r;
    if len =? RDB_LENERR then Some (r, None)
    else if negb (try_alloc clen) then Some (r, None)
    else if negb (try_alloc len) then Some (r, None)
    else
      '(r, c) ← rioRead r clen;
      match c with
      | None => Some (r, None)
      | Some c =>
          '(n, _, val) ← Lzf.lzf_decompress c (replicate (Z.to_nat len) junk);
          if negb (n =? len) then Some (r, None) else Some (r, Some (make_loaded fl val))
      end.

Definition rdbGenericLoadStringObject (r : rio) (fl : load_flags) : option (rio * option loaded) :=
  '(r, (isencoded, len)) ← rdbLoadLen r;
  if len =? RDB_LENERR then Some (r, None)
  else if (isencoded : bool) then
    if (len =? RDB_ENC_INT8) || (len =? RDB_ENC_INT16) || (len =? RDB_ENC_INT32)
    then rdbLoadIntegerObject r len fl
    else if len =? RDB_ENC_LZF then rdbLoadLzfStringObject r fl
    else Some (r, None)
  else if negb (try_alloc len) then Some (r, None)
  else if negb (len =? 0) then
    '(r, s) ← rioRead r len; Some (r, s ← s; Some (make_loaded fl s))
  else Some (r, Some (make_loaded fl [])).

Definition rdbLoadStringObject (r : rio) := rdbGenericLoadStringObject r RDB_LOAD_NONE.
Definition rdbLoadEncodedStringObject (r : rio) := rdbGenericLoadStringObject r RDB_LOAD_ENC.

End Strings.

(** The bytes of what was loaded. *)
Definition object_bytes (o : robj) : list Z := match o with ObjString s => s | ObjInt v => sdec v end.
Definition content (l : loaded) : list Z :=
  match l with Plain s | SdsString s | Hfield s => s | Robj o => object_bytes o end.

(** ** Times *)

Definition rdbSaveMillisecondTime (rdb : option rio) (t : Z) : written :=
  rdbWriteRaw rdb (le_bytes 8 (uwrap 64 t)).

(** [rdbver] only matters on a big-endian machine. *)
Definition rdbLoadMillisecondTime (r : rio) : option (rio * Z) :=
  '(r, b) ← rioRead r 8;
  Some (r, match b with Some b => swrap 64 (le_val b) | None => INT64_MAX end).

Definition rdbLoadType (r : rio) : option (rio * Z) :=
  '(r, b) ← rioRead r 1; Some (r, match b with Some [t] => t | _ => -1 end).

End Rdb.
