(* ===== verification/RdbProofs.v ===== *)
(** * Strings in RDB files: what is written is read back

    What each function writes, as bytes; that reading undoes it; and what the
    readers do with arbitrary and with truncated input. *)

From Stdlib Require Import String.
From S2P Require Import Prelude Util Lzf LzfProofs Rdb.

Module RdbProofs.
Import Util Rdb.

(** ** The stream *)

Definition writable (rdb : option rio) : Prop :=
  match rdb with
  | None => True
  | Some r => Z.land (flags r) RIO_FLAG_WRITE_ERROR = 0 ∧ 0 <= max_processing_chunk r
  end.

Definition wrote (bs : list Z) (rdb rdb' : option rio) : Prop :=
  match rdb, rdb' with
  | None, None => True
  | Some r, Some r' => ptr r' = ptr r ++ bs ∧ pos r' = pos r + zlen bs ∧ flags r' = flags r
  | _, _ => False
  end.

(** [f] writes [bs] and returns [n]; to a null stream it only returns [n]. *)
Definition emits (f : option rio → written) (bs : list Z) (n : Z) : Prop :=
  ∀ rdb, writable rdb → ∃ rdb', f rdb = Some (rdb', n) ∧ wrote bs rdb rdb' ∧ writable rdb'.

Lemma chunk_bounds r n : 0 <= max_processing_chunk r → 0 < n → 0 < chunk r n <= n.
Proof. intros Hc Hn. unfold chunk. case_if; [|lia]. destruct Heqb as [H1 H2]. zb. lia. Qed.

Lemma write_loop_spec fuel r buf :
  (length buf <= fuel)%nat → 0 <= max_processing_chunk r →
  ∃ r', write_loop fuel r buf = Some (r', true) ∧ ptr r' = ptr r ++ buf ∧ pos r' = pos r + zlen buf ∧
    flags r' = flags r ∧ max_processing_chunk r' = max_processing_chunk r.
Proof.
  revert r buf. induction fuel as [|fuel IH]; intros r buf Hf Hc; cbn [write_loop]; case_if.
  1, 3: apply zlen_0_nil in Heqb as ->; exists r; rewrite app_nil_r, zlen_nil; split_and!; done || lia.
  { destruct buf; [done|simpl in Hf; lia]. }
  pose proof (zlen_nonneg buf). pose proof (chunk_bounds r (zlen buf) Hc ltac:(lia)) as Hn.
  set (n := chunk r (zlen buf)) in *. clearbody n. unfold rioBufferWrite.
  set (r1 := count_bytes _ n).
  destruct (IH r1 (drop (Z.to_nat n) buf)) as (r' & -> & E1 & E2 & E3 & E4); [rewrite length_drop; unfold zlen in *; lia|done|].
  exists r'. split; [done|]. rewrite E1, E2, E3, E4. unfold r1, count_bytes. cbn [ptr pos flags max_processing_chunk].
  rewrite <- app_assoc, take_drop, <- Z.add_assoc, <- zlen_app, take_drop. done.
Qed.

Lemma rdbWriteRaw_emits p : emits (λ rdb, rdbWriteRaw rdb p) p (zlen p).
Proof.
  intros [r|] Hw; [|by exists None]. destruct Hw as [Hf Hc]. unfold rdbWriteRaw, rioWrite.
  rewrite Hf. cbn [Z.eqb negb].
  destruct (write_loop_spec (length p) r p) as (r' & -> & E1 & E2 & E3 & E4); [done|done|].
  cbn [mbind option_bind]. exists (Some r'). split; [done|]. split; [done|]. split; congruence.
Qed.

Lemma emits_return n : emits (λ rdb, Some (rdb, n)) [] n.
Proof.
  intros [r|] Hw; [|by exists None]. exists (Some r). split; [done|]. split; [|done].
  split; [by rewrite app_nil_r|]. split; [rewrite zlen_nil; lia|done].
Qed.

Lemma wrote_trans b1 b2 x y z : wrote b1 x y → wrote b2 y z → wrote (b1 ++ b2) x z.
Proof.
  destruct x, y, z; simpl; try done. intros (-> & -> & ->) (-> & -> & ->).
  rewrite app_assoc, zlen_app. split_and!; done || lia.
Qed.

Lemma emits_then f k b1 b2 n1 n2 :
  emits f b1 n1 → n1 ≠ -1 → emits (λ rdb, k rdb n1) b2 n2 →
  emits (λ rdb, and_then (f rdb) k) (b1 ++ b2) n2.
Proof.
  intros Hf Hn Hk rdb Hw. unfold and_then. destruct (Hf rdb Hw) as (rdb1 & -> & H1 & Hw1).
  cbn [mbind option_bind]. rewrite (proj2 (Z.eqb_neq n1 (-1)) Hn).
  destruct (Hk rdb1 Hw1) as (rdb2 & -> & H2 & Hw2). exists rdb2. split; [done|]. split; [|done].
  by eapply wrote_trans.
Qed.

(** The common shape: one write, then the rest. *)
Lemma emits_raw_then p k bs n :
  emits (λ rdb, k rdb (zlen p)) bs n → emits (λ rdb, and_then (rdbWriteRaw rdb p) k) (p ++ bs) n.
Proof.
  intros Hk. eapply emits_then; [apply rdbWriteRaw_emits| |done]. pose proof (zlen_nonneg p). lia.
Qed.

Lemma emits_raw_last p n : emits (λ rdb, and_then (rdbWriteRaw rdb p) (λ rdb _, Some (rdb, n))) p n.
Proof.
  pose proof (emits_raw_then p (λ rdb _, Some (rdb, n)) [] n (emits_return n)) as H.
  by rewrite app_nil_r in H.
Qed.

Lemma emits_raw_sum p n0 :
  emits (λ rdb, and_then (rdbWriteRaw rdb p) (λ rdb n, Some (rdb, n0 + n))) p (n0 + zlen p).
Proof.
  pose proof (emits_raw_then p (λ rdb n, Some (rdb, n0 + n)) [] _ (emits_return (n0 + zlen p))) as H.
  by rewrite app_nil_r in H.
Qed.

(** Reading position: [p] was read, [q] follows. *)
Definition at_ (r : rio) (p q : list Z) : Prop :=
  ptr r = p ++ q ∧ pos r = zlen p ∧ zlen (ptr r) < 2 ^ 64 ∧
  Z.land (flags r) RIO_FLAG_READ_ERROR = 0 ∧ 0 <= max_processing_chunk r.

Lemma read_chunks_spec fuel r p s q acc :
  (length s <= fuel)%nat → at_ r p (s ++ q) →
  ∃ r', read_loop fuel r (zlen s) acc = Some (r', Some (acc ++ s)) ∧ at_ r' (p ++ s) q.
Proof.
  revert r p s acc. induction fuel as [|fuel IH]; intros r p s acc Hf Hat; cbn [read_loop]; case_if.
  1, 3: apply zlen_0_nil in Heqb as ->; exists r; rewrite !app_nil_r; done.
  { destruct s; [done|simpl in Hf; lia]. }
  destruct Hat as (Hp & Hpos & Hlim & Hfl & Hc).
  pose proof (zlen_nonneg s). pose proof (chunk_bounds r (zlen s) Hc ltac:(lia)) as Hn.
  set (n := chunk r (zlen s)) in *. clearbody n. unfold rioBufferRead.
  pose proof (zlen_nonneg p). pose proof (zlen_nonneg q).
  rewrite uwrap64_id by (unfold UINT64_MAX; rewrite Hp, !zlen_app in *; lia).
  rewrite (proj2 (Z.ltb_ge _ _)) by (rewrite Hp, Hpos, !zlen_app; lia).
  assert (sub (pos r) n (ptr r) = take (Z.to_nat n) s) as ->.
  { rewrite Hp, Hpos. unfold sub. rewrite drop_app_zlen. apply take_app_le. unfold zlen in *. lia. }
  set (r1 := count_bytes _ n).
  destruct (IH r1 (p ++ take (Z.to_nat n) s) (drop (Z.to_nat n) s) (acc ++ take (Z.to_nat n) s)) as (r' & E & Hat').
  - rewrite length_drop. unfold zlen in *. lia.
  - split; [unfold r1, count_bytes; cbn [ptr]; by rewrite Hp, <- app_assoc, (app_assoc (take _ s)), take_drop|].
    split; [unfold r1, count_bytes; cbn [pos]; rewrite Hpos, zlen_app, zlen_take; lia|]. done.
  - rewrite zlen_drop in E. replace (Z.max 0 (zlen s - Z.of_nat (Z.to_nat n))) with (zlen s - n) in E by lia.
    exists r'. rewrite E, <- app_assoc, take_drop. split; [done|].
    by rewrite <- app_assoc, take_drop in Hat'.
Qed.

Lemma rioRead_at r p s q n :
  at_ r p (s ++ q) → n = zlen s → ∃ r', rioRead r n = Some (r', Some s) ∧ at_ r' (p ++ s) q.
Proof.
  intros Hat ->. unfold rioRead. pose proof Hat as (_ & _ & _ & Hfl & _). rewrite Hfl. cbn [Z.eqb negb].
  apply (read_chunks_spec (Z.to_nat (zlen s)) r p s q []); [unfold zlen; lia|done].
Qed.

(** ** Lengths *)

Definition enc_len (len : Z) : list Z :=
  if len <? 64 then [len]
  else if len <? 16384 then [64 + len / 256; len mod 256]
  else if len <=? UINT32_MAX then RDB_32BITLEN :: be_bytes 4 len
  else RDB_64BITLEN :: be_bytes 8 len.

Lemma zlen_be n v : zlen (be_bytes n v) = Z.of_nat n.
Proof. unfold be_bytes, zlen. by rewrite length_rev, le_bytes_length. Qed.

Lemma be_val n v : 0 <= v < 256 ^ Z.of_nat n → le_val (rev (be_bytes n v)) = v.
Proof. intros Hv. unfold be_bytes. rewrite rev_involutive, le_val_bytes. by apply Z.mod_small. Qed.

Lemma enc_len_pos len : 0 < zlen (enc_len len) <= 9.
Proof.
  unfold enc_len. repeat case_if; [done|done|..]; rewrite zlen_cons, zlen_be; lia.
Qed.

Lemma rdbSaveLen_emits len :
  0 <= len <= UINT64_MAX → emits (λ rdb, rdbSaveLen rdb len) (enc_len len) (zlen (enc_len len)).
Proof.
  intros Hlen. unfold rdbSaveLen, enc_len. change (Z.shiftl 1 6) with 64. change (Z.shiftl 1 14) with 16384.
  change (Z.shiftl RDB_6BITLEN 6) with 0. change (Z.shiftl RDB_14BITLEN 6) with 64.
  case_if; [|case_if; [|case_if]].
  - rewrite Z.lor_0_r, land_255, Z.mod_small by lia. apply (emits_raw_last [len]).
  - rewrite Z.shiftr_div_pow2, !land_255 by lia. change (2 ^ 8) with 256.
    assert (0 <= len / 256 < 64) by (split; [apply Z.div_pos; lia|apply Z.div_lt_upper_bound; lia]).
    rewrite (Z.mod_small (len / 256)) by lia.
    assert (Z.lor (len / 256) 64 = 64 + len / 256) as ->.
    { change 64 with (Z.shiftl 1 6) at 1. rewrite lor_shiftl by lia. lia. }
    apply (emits_raw_last [_; _]).
  - rewrite zlen_cons, zlen_be. change (RDB_32BITLEN :: be_bytes 4 len) with ([RDB_32BITLEN] ++ be_bytes 4 len).
    apply emits_raw_then, emits_raw_last.
  - rewrite zlen_cons, zlen_be. change (RDB_64BITLEN :: be_bytes 8 len) with ([RDB_64BITLEN] ++ be_bytes 8 len).
    apply emits_raw_then, emits_raw_last.
Qed.

Lemma rdbLoadLenByRef_enc len r p q :
  0 <= len <= UINT64_MAX → at_ r p (enc_len len ++ q) →
  ∃ r', rdbLoadLenByRef r = Some (r', Some (false, len)) ∧ at_ r' (p ++ enc_len len) q.
Proof.
  intros Hlen. unfold rdbLoadLenByRef, enc_len. unfold UINT32_MAX, UINT64_MAX in *.
  case_if; [|case_if; [|case_if]]; intros Hat.
  - destruct (rioRead_at r p [len] q 1 Hat eq_refl) as (r' & -> & Hat'). cbn [mbind option_bind].
    rewrite (land_mask len 63 6), Z.mod_small by lia.
    assert (Z.shiftr (Z.land len 192) 6 = 0) as ->.
    { rewrite Z.shiftr_land, Z.shiftr_div_pow2, Z.div_small by lia. done. }
    by exists r'.
  - assert (0 <= len / 256 < 64) by (split; [apply Z.div_pos; lia|apply Z.div_lt_upper_bound; lia]).
    destruct (rioRead_at r p [64 + len / 256] (len mod 256 :: q) 1 Hat eq_refl) as (r1 & -> & Hat1). cbn [mbind option_bind].
    assert (Z.shiftr (Z.land (64 + len / 256) 192) 6 = 1) as ->.
    { rewrite Z.shiftr_land, Z.shiftr_div_pow2 by lia. change (2 ^ 6) with 64.
      replace (64 + len / 256) with (len / 256 + 1 * 64) by lia. rewrite Z.div_add, Z.div_small by lia. done. }
    cbn [Z.eqb RDB_ENCVAL RDB_6BITLEN RDB_14BITLEN].
    destruct (rioRead_at r1 _ [len mod 256] q 1 Hat1 eq_refl) as (r2 & E & Hat2). cbn [Z.eqb Pos.eqb]. rewrite E. cbn [mbind option_bind].
    exists r2. rewrite <- app_assoc in Hat2. split; [|done]. do 4 f_equal.
    rewrite (land_mask _ 63 6) by lia. replace (64 + len / 256) with (len / 256 + 1 * 2 ^ 6) by lia.
    rewrite Z.mod_add, Z.mod_small by lia. rewrite Z.lor_comm, lor_shiftl by (pose proof (Z.mod_pos_bound len 256); lia).
    change (2 ^ 8) with 256. pose proof (Z.div_mod len 256). lia.
  - change (RDB_32BITLEN :: be_bytes 4 len) with ([RDB_32BITLEN] ++ be_bytes 4 len) in *. rewrite <- app_assoc in Hat.
    destruct (rioRead_at r p _ _ 1 Hat eq_refl) as (r1 & -> & Hat1). cbn [mbind option_bind].
    destruct (rioRead_at r1 _ _ q 4 Hat1) as (r2 & E & Hat2); [by rewrite zlen_be|].
    change (Z.shiftr (Z.land RDB_32BITLEN 192) 6) with 2. cbn [Z.eqb Pos.eqb RDB_ENCVAL RDB_6BITLEN RDB_14BITLEN RDB_32BITLEN].
    rewrite E. cbn [mbind option_bind]. exists r2. rewrite be_val by lia. by rewrite <- app_assoc in Hat2.
  - change (RDB_64BITLEN :: be_bytes 8 len) with ([RDB_64BITLEN] ++ be_bytes 8 len) in *. rewrite <- app_assoc in Hat.
    destruct (rioRead_at r p _ _ 1 Hat eq_refl) as (r1 & -> & Hat1). cbn [mbind option_bind].
    destruct (rioRead_at r1 _ _ q 8 Hat1) as (r2 & E & Hat2); [by rewrite zlen_be|].
    change (Z.shiftr (Z.land RDB_64BITLEN 192) 6) with 2. cbn [Z.eqb Pos.eqb RDB_ENCVAL RDB_6BITLEN RDB_14BITLEN RDB_32BITLEN RDB_64BITLEN].
    rewrite E. cbn [mbind option_bind]. exists r2. rewrite be_val by lia. by rewrite <- app_assoc in Hat2.
Qed.

Lemma rdbLoadLen_enc len r p q :
  0 <= len <= UINT64_MAX → at_ r p (enc_len len ++ q) →
  ∃ r', rdbLoadLen r = Some (r', (false, len)) ∧ at_ r' (p ++ enc_len len) q.
Proof.
  intros Hlen Hat. unfold rdbLoadLen. destruct (rdbLoadLenByRef_enc len r p q Hlen Hat) as (r' & -> & H).
  cbn [mbind option_bind]. by exists r'.
Qed.

(** ** Arbitrary input *)

Definition readable (r : rio) : Prop :=
  0 <= pos r <= zlen (ptr r) ∧ zlen (ptr r) < 2 ^ 64 ∧ wf_bytes (ptr r) ∧ 0 <= max_processing_chunk r.

(** The same stream with more bytes at its end. *)
Definition extend (r : rio) (y : list Z) : rio :=
  mkRio (ptr r ++ y) (pos r) (flags r) (processed_bytes r) (max_processing_chunk r).

(** A function that reads: it never fails to return, and what it returns when it succeeds
    satisfies [P] and does not depend on the bytes after those it read. *)
Definition reader {A} (F : rio → option (rio * option A)) (P : A → Prop) : Prop :=
  ∀ r, readable r → ∃ r' v, F r = Some (r', v) ∧ readable r' ∧ ptr r' = ptr r ∧
    (∀ a, v = Some a → P a ∧ ∀ y, zlen (ptr r ++ y) < 2 ^ 64 → F (extend r y) = Some (extend r' y, Some a)).

Lemma reader_return {A} (a : A) (P : A → Prop) : P a → reader (λ r, Some (r, Some a)) P.
Proof. intros Ha r Hr. eexists _, _. split_and!; try done. by intros b [= <-]. Qed.

Lemma reader_fail {A} (P : A → Prop) : reader (λ r, Some (r, None)) P.
Proof. intros r Hr. eexists _, _. by split_and!. Qed.

Lemma reader_bind {A B} (F : rio → option (rio * option A)) (G : A → rio → option (rio * option B)) P Q :
  reader F P → (∀ a, P a → reader (G a) Q) →
  reader (λ r, '(r, a) ← F r; match a with Some a => G a r | None => Some (r, None) end) Q.
Proof.
  intros HF HG r Hr. destruct (HF r Hr) as (r1 & v & -> & Hr1 & Hp & Hv). cbn [mbind option_bind].
  destruct v as [a|]; [|eexists _, _; by split_and!]. destruct (Hv a eq_refl) as [Ha Hext].
  destruct (HG a Ha r1 Hr1) as (r2 & w & -> & Hr2 & Hp2 & Hw). exists r2, w.
  split; [done|]. split; [done|]. split; [congruence|]. intros b Hb. destruct (Hw b Hb) as [HQ Hext2].
  split; [done|]. intros y Hy. rewrite Hext by done. cbn [mbind option_bind]. apply Hext2. by rewrite Hp.
Qed.

Lemma reader_ext {A} (F G : rio → option (rio * option A)) P :
  (∀ r, F r = G r) → reader G P → reader F P.
Proof.
  intros HFG HG r Hr. rewrite HFG. destruct (HG r Hr) as (r' & v & H1 & H2 & H3 & H4). exists r', v.
  split_and!; try done. intros a Ha. destruct (H4 a Ha) as [HP He]. split; [done|].
  intros y Hy. rewrite HFG. by apply He.
Qed.

Lemma reader_weaken {A} (F : rio → option (rio * option A)) (P Q : A → Prop) :
  (∀ a, P a → Q a) → reader F P → reader F Q.
Proof.
  intros HPQ HF r Hr. destruct (HF r Hr) as (r' & v & H1 & H2 & H3 & H4). exists r', v.
  split_and!; try done. intros a Ha. destruct (H4 a Ha). split; [by apply HPQ|done].
Qed.

Lemma read_loop_reader fuel n acc :
  0 <= n <= Z.of_nat fuel → wf_bytes acc →
  reader (λ r, read_loop fuel r n acc) (λ s, wf_bytes s ∧ zlen s = zlen acc + n).
Proof.
  revert n acc. induction fuel as [|fuel IH]; intros n acc Hn Hacc r Hr; cbn [read_loop]; case_if.
  1, 3: eexists r, (Some acc); split_and!; try done; intros s [= <-]; split; [split; [done|lia]|done].
  { lia. }
  pose proof Hr as (Hpos & Hlim & Hwf & Hc). pose proof (chunk_bounds r n Hc ltac:(lia)) as Hk.
  change (chunk (extend r _)) with (chunk r). set (k := chunk r n) in *. clearbody k. unfold rioBufferRead.
  rewrite uwrap64_id by (unfold UINT64_MAX; lia). case_if.
  { eexists _, None. by split_and!. }
  set (r1 := count_bytes _ k). set (s1 := sub (pos r) k (ptr r)).
  assert (readable r1) as Hr1 by (split_and!; try done; cbn; lia).
  assert (zlen s1 = k) as Hs1 by (apply zlen_sub; lia).
  destruct (IH (n - k) (acc ++ s1) ltac:(lia)) with (r := r1) as (r' & v & -> & Hr' & Hp' & Hv);
    [by apply Forall_app; split; [|apply Forall_sub]|done|].
  exists r', v. split; [done|]. split; [done|]. split; [done|]. intros s Hs. destruct (Hv s Hs) as [[Hws Hzs] He].
  split; [split; [done|rewrite zlen_app in Hzs; lia]|]. intros y Hy. cbn [extend ptr pos].
  rewrite zlen_app in *. pose proof (zlen_nonneg y).
  change (chunk (extend r y) n) with (chunk r n). rewrite uwrap64_id by (unfold UINT64_MAX; lia).
  rewrite (proj2 (Z.ltb_ge _ _)) by lia.
  assert (sub (pos r) k (ptr r ++ y) = s1) as ->.
  { unfold s1, sub. rewrite drop_app_le by (unfold zlen in *; lia).
    apply take_app_le. rewrite length_drop. unfold zlen in *. lia. }
  apply He. change (ptr r1) with (ptr r). rewrite zlen_app. lia.
Qed.

Lemma rioRead_reader n : 0 <= n → reader (λ r, rioRead r n) (λ s, wf_bytes s ∧ zlen s = n).
Proof.
  intros Hn r Hr. unfold rioRead. change (flags (extend r _)) with (flags r). case_if.
  { eexists _, None. by split_and!. }
  apply (read_loop_reader (Z.to_nat n) n []); [lia|apply list.Forall_nil_2|done].
Qed.

Lemma wf_le_val s n : wf_bytes s → zlen s = n → 0 <= le_val (rev s) < 256 ^ n.
Proof.
  intros Hw Hs. pose proof (le_val_range (rev s)) as H. unfold zlen in *. rewrite length_rev, Hs in H.
  apply H. by apply Forall_rev.
Qed.

Lemma rdbLoadLenByRef_reader : reader rdbLoadLenByRef (λ l, 0 <= snd l <= UINT64_MAX).
Proof.
  assert (∀ n b, 0 <= n <= 8 → reader (λ r, '(r, s) ← rioRead r n; Some (r, s ← s; Some (b, le_val (rev s))))
    (λ l : bool * Z, 0 <= snd l <= UINT64_MAX)) as Hbe.
  { intros n b Hn. eapply reader_ext;
      [|eapply (reader_bind _ (λ s r, Some (r, Some (b, le_val (rev s))))); [apply (rioRead_reader n); lia|]].
    - intros r. cbv beta. destruct (rioRead r n) as [[r' [s|]]|]; done.
    - intros s [Hw Hs]. apply reader_return. simpl. pose proof (wf_le_val s n Hw Hs).
      pose proof (Z.pow_le_mono_r 256 n 8). unfold UINT64_MAX. lia. }
  eapply reader_ext; [|eapply (reader_bind _ (λ s r,
    match s with
    | [b0] => let type := Z.shiftr (Z.land b0 192) 6 in
      if type =? RDB_ENCVAL then Some (r, Some (true, Z.land b0 63))
      else if type =? RDB_6BITLEN then Some (r, Some (false, Z.land b0 63))
      else if type =? RDB_14BITLEN then
        '(r, b) ← rioRead r 1;
        Some (r, match b with Some [b1] => Some (false, Z.lor (Z.shiftl (Z.land b0 63) 8) b1) | _ => None end)
      else if b0 =? RDB_32BITLEN then
        '(r, b) ← rioRead r 4; Some (r, b ← b; Some (false, le_val (rev b)))
      else if b0 =? RDB_64BITLEN then
        '(r, b) ← rioRead r 8; Some (r, b ← b; Some (false, le_val (rev b)))
      else Some (r, None)
    | _ => Some (r, None)
    end)); [apply (rioRead_reader 1); lia|]].
  { intros r. unfold rdbLoadLenByRef. cbv beta. destruct (rioRead r 1) as [[r' [[|b0 [|? ?]]|]]|]; done. }
  intros s [Hw Hs]. destruct s as [|b0 [|? ?]]; try apply reader_fail. cbn zeta.
  assert (0 <= Z.land b0 63 < 64) as Hb by (rewrite (land_mask b0 63 6) by lia; apply Z.mod_pos_bound; lia).
  assert (∀ b v, 0 <= v < 65536 → reader (λ r, Some (r, Some (b, v))) (λ l : bool * Z, 0 <= snd l <= UINT64_MAX)) as Hret.
  { intros b v Hv. apply reader_return. simpl. unfold UINT64_MAX. lia. }
  case_if; [apply Hret; lia|]. case_if; [apply Hret; lia|]. case_if.
  { eapply reader_ext; [|eapply (reader_bind _ (λ s r,
      match s with [b1] => Some (r, Some (false, Z.lor (Z.shiftl (Z.land b0 63) 8) b1)) | _ => Some (r, None) end));
      [apply (rioRead_reader 1); lia|]].
    - intros r. cbv beta. destruct (rioRead r 1) as [[r' [[|b1 [|? ?]]|]]|]; done.
    - intros s [Hw1 Hs1]. destruct s as [|b1 [|? ?]]; try apply reader_fail. apply Hret.
      apply list.Forall_cons in Hw1 as [Hb1 _]. unfold is_byte in Hb1.
      rewrite Z.lor_comm, lor_shiftl by lia. lia. }
  case_if; [apply Hbe; lia|]. case_if; [apply Hbe; lia|]. apply reader_fail.
Qed.

(** What follows a length, in all the functions that read one. *)
Lemma reader_after_len {A} (G : bool → Z → rio → option (rio * option A)) (P : A → Prop) :
  (∀ b len, 0 <= len < RDB_LENERR → reader (G b len) P) →
  reader (λ r, '(r, (b, len)) ← rdbLoadLen r; if len =? RDB_LENERR then Some (r, None) else G b len r) P.
Proof.
  intros HG. eapply reader_ext; [|eapply (reader_bind _ (λ l r, if snd l =? RDB_LENERR then Some (r, None) else G (fst l) (snd l) r));
    [apply rdbLoadLenByRef_reader|]].
  - intros r. unfold rdbLoadLen. by destruct (rdbLoadLenByRef r) as [[r' [[b len]|]]|].
  - intros [b len] Hl. simpl in *. case_if; [apply reader_fail|apply HG]. unfold RDB_LENERR in *. lia.
Qed.

(** ** Integers *)

(** The width in bytes of an integer encoding. *)
Definition int_width (enctype : Z) : nat :=
  if enctype =? RDB_ENC_INT8 then 1 else if enctype =? RDB_ENC_INT16 then 2 else 4.

Lemma rdbEncodeInteger_shape v :
  is_int64 v →
  rdbEncodeInteger v = [] ∨
  ∃ e, 0 <= e <= 2 ∧ rdbEncodeInteger v = (192 + e) :: le_bytes (int_width e) v ∧
    - 2 ^ (8 * Z.of_nat (int_width e) - 1) <= v < 2 ^ (8 * Z.of_nat (int_width e) - 1).
Proof.
  intros Hv. unfold rdbEncodeInteger.
  change (Z.shiftl 1 7) with 128. change (Z.shiftl 1 15) with 32768. change (Z.shiftl 1 31) with 2147483648.
  assert (∀ k, Z.land (Z.shiftr v (8 * Z.of_nat k)) 255 = v / 256 ^ Z.of_nat k mod 256) as Hb.
  { intros k. rewrite land_255, Z.shiftr_div_pow2 by lia. rewrite Z.pow_mul_r by lia. done. }
  pose proof (Hb 0%nat) as H0. pose proof (Hb 1%nat) as H1. pose proof (Hb 2%nat) as H2. pose proof (Hb 3%nat) as H3.
  change (8 * Z.of_nat 0) with 0 in H0. change (8 * Z.of_nat 1) with 8 in H1.
  change (8 * Z.of_nat 2) with 16 in H2. change (8 * Z.of_nat 3) with 24 in H3.
  rewrite H0, H1, H2, H3. change (256 ^ Z.of_nat 0) with 1. change (256 ^ Z.of_nat 1) with 256.
  change (256 ^ Z.of_nat 2) with (256 * 256). change (256 ^ Z.of_nat 3) with (256 * 256 * 256).
  rewrite Z.div_1_r, <- !Z.div_div by lia. clear Hb H0 H1 H2 H3.
  case_if; [right; exists 0|case_if; [right; exists 1|case_if; [right; exists 2|by left]]];
    (split; [lia|]; split; [done|]; cbv [int_width Z.eqb Pos.eqb RDB_ENC_INT8 RDB_ENC_INT16]; lia).
Qed.

Lemma rdbLoadLen_special e r p q :
  0 <= e <= 2 ∨ e = RDB_ENC_LZF → at_ r p ((192 + e) :: q) →
  ∃ r', rdbLoadLen r = Some (r', (true, e)) ∧ at_ r' (p ++ [192 + e]) q.
Proof.
  intros He Hat. destruct (rioRead_at r p [192 + e] q 1 Hat eq_refl) as (r' & E & Hat').
  unfold rdbLoadLen, rdbLoadLenByRef. rewrite E. cbn [mbind option_bind]. exists r'.
  unfold RDB_ENC_LZF in He. assert (e = 0 ∨ e = 1 ∨ e = 2 ∨ e = 3) as [-> |[-> |[-> | ->]]] by lia; done.
Qed.

Section Strings.
Variable in_data : Z.
Variable junk : Z.
Variable try_alloc : Z → bool.
Variable htab0 : Z → Z.
Variable rdb_compression : bool.
Variable no_shared : bool.

Abbreviation load_string := (rdbGenericLoadStringObject junk try_alloc no_shared).
Abbreviation save_raw := (rdbSaveRawString in_data junk htab0 rdb_compression).
Abbreviation save_object := (rdbSaveStringObject in_data junk htab0 rdb_compression).

Lemma printed_spec v : is_int64 v → printed junk v = Some (sdec v).
Proof.
  intros Hv. unfold printed. pose proof (sdec_len v Hv) as Hl.
  assert (replicate (Z.to_nat LONG_STR_SIZE) junk
    = [] ++ replicate (Z.to_nat (zlen (sdec v) + 1)) junk ++ replicate (Z.to_nat (LONG_STR_SIZE - zlen (sdec v) - 1)) junk) as ->.
  { rewrite app_nil_l, <- replicate_add. f_equal. unfold LONG_STR_SIZE in *. lia. }
  change 0 with (zlen (@nil Z)) at 1. rewrite ll2string_spec by (rewrite ?zlen_replicate; (done || lia)).
  cbn [mbind option_bind app]. by apply rd_head.
Qed.

(** An integer, as any of the kinds of result. *)
Lemma load_integer_value fl v :
  is_int64 v →
  ∃ l, (match fl with
        | RDB_LOAD_PLAIN => s ← printed junk v; Some (Plain s)
        | RDB_LOAD_SDS => s ← printed junk v; Some (SdsString s)
        | RDB_LOAD_HFLD => s ← printed junk v; Some (Hfield s)
        | RDB_LOAD_ENC => o ← createStringObjectFromLongLongForValue junk no_shared v; Some (Robj o)
        | RDB_LOAD_NONE => o ← createStringObjectFromLongLongWithSds junk v; Some (Robj o)
        end) = Some l ∧ content l = sdec v.
Proof.
  intros Hv. pose proof (printed_spec v Hv) as Hp.
  assert (∀ flag, ∃ o, createStringObjectFromLongLongWithOptions junk v flag = Some o ∧ object_bytes o = sdec v) as Ho.
  { intros flag. unfold createStringObjectFromLongLongWithOptions. rewrite Hp.
    repeat case_if; eexists; (split; [done|done]). }
  unfold createStringObjectFromLongLongForValue, createStringObjectFromLongLongWithSds.
  destruct fl; rewrite ?Hp; [| |eexists; (split; done)..].
  - destruct (Ho LL2STROBJ_NO_INT_ENC) as (o & -> & Hb). by exists (Robj o).
  - destruct no_shared; cbn [negb]; [destruct (Ho LL2STROBJ_NO_SHARED) as (o & -> & Hb)|destruct (Ho LL2STROBJ_AUTO) as (o & -> & Hb)];
      by exists (Robj o).
Qed.

Lemma rdbLoadIntegerObject_spec e v r p q fl :
  0 <= e <= 2 → - 2 ^ (8 * Z.of_nat (int_width e) - 1) <= v < 2 ^ (8 * Z.of_nat (int_width e) - 1) →
  at_ r p (le_bytes (int_width e) v ++ q) →
  ∃ r' l, rdbLoadIntegerObject junk no_shared r e fl = Some (r', Some l) ∧ content l = sdec v ∧
    at_ r' (p ++ le_bytes (int_width e) v) q.
Proof.
  intros He Hv Hat. unfold rdbLoadIntegerObject.
  assert (∀ w f, w = Z.of_nat (int_width e) → (∀ b, f b = swrap (8 * w) (le_val b)) →
    ∃ r', load_integer r w f = Some (r', Some v) ∧ at_ r' (p ++ le_bytes (int_width e) v) q) as Hload.
  { intros w f -> Hf. unfold load_integer.
    destruct (rioRead_at r p _ q (Z.of_nat (int_width e)) Hat) as (r' & -> & Hat'); [by rewrite le_bytes_zlen|].
    cbn [mbind option_bind]. exists r'. split; [|done]. rewrite Hf, le_val_bytes.
    replace (256 ^ Z.of_nat (int_width e)) with (2 ^ (8 * Z.of_nat (int_width e))) by (rewrite Z.pow_mul_r by lia; done).
    rewrite swrap_mod, swrap_id; [done| |done]. unfold int_width. repeat case_if; lia. }
  assert (is_int64 v) as Hi.
  { unfold is_int64, INT64_MIN, INT64_MAX. unfold int_width in Hv. revert Hv. repeat case_if; simpl; lia. }
  destruct (load_integer_value fl v Hi) as (l & El & Hl).
  assert (e = 0 ∨ e = 1 ∨ e = 2) as [-> |[-> | ->]] by lia.
  - destruct (Hload 1 (λ b, swrap 8 (le_val b)) eq_refl (λ _, eq_refl)) as (r' & E & Hat').
    cbn [Z.eqb RDB_ENC_INT8]. rewrite E. cbn [mbind option_bind]. rewrite El. by exists r', l.
  - destruct (Hload 2 (λ b, swrap 16 (le_val b)) eq_refl (λ _, eq_refl)) as (r' & E & Hat').
    cbn [Z.eqb Pos.eqb RDB_ENC_INT8 RDB_ENC_INT16]. rewrite E. cbn [mbind option_bind]. rewrite El. by exists r', l.
  - destruct (Hload 4 (λ b, swrap 32 (le_val b)) eq_refl (λ _, eq_refl)) as (r' & E & Hat').
    cbn [Z.eqb Pos.eqb RDB_ENC_INT8 RDB_ENC_INT16 RDB_ENC_INT32]. rewrite E. cbn [mbind option_bind]. rewrite El. by exists r', l.
Qed.

(** ** Strings *)

(** The ways the bytes [bs] may represent the string [s]. *)
Inductive saved (s bs : list Z) : Prop :=
  | saved_int v : is_int64 v → s = sdec v → bs = rdbEncodeInteger v → bs ≠ [] → saved s bs
  | saved_lzf c :
      bs = [195] ++ enc_len (zlen c) ++ enc_len (zlen s) ++ c → zlen c <= zlen s →
      LzfProofs.restores c s → saved s bs
  | saved_plain : bs = enc_len (zlen s) ++ s → saved s bs.

Lemma rdbSaveLzfBlob_emits c n :
  zlen c <= UINT64_MAX → 0 <= n <= UINT64_MAX →
  let bs := [195] ++ enc_len (zlen c) ++ enc_len n ++ c in
  emits (λ rdb, rdbSaveLzfBlob rdb c n) bs (zlen bs).
Proof.
  intros Hc Hn. cbn zeta. unfold rdbSaveLzfBlob. pose proof (zlen_nonneg c).
  pose proof (enc_len_pos (zlen c)). pose proof (enc_len_pos n).
  rewrite !zlen_app. apply (emits_raw_then [195]).
  eapply emits_then; [apply rdbSaveLen_emits; lia|lia|].
  eapply emits_then; [apply rdbSaveLen_emits; lia|lia|].
  replace (zlen [195] + (zlen (enc_len (zlen c)) + (zlen (enc_len n) + zlen c)))
    with (zlen [195] + zlen (enc_len (zlen c)) + zlen (enc_len n) + zlen c) by lia.
  apply emits_raw_sum.
Qed.

Lemma save_verbatim_emits s :
  zlen s <= UINT64_MAX → emits (λ rdb, save_verbatim rdb s) (enc_len (zlen s) ++ s) (zlen (enc_len (zlen s) ++ s)).
Proof.
  intros Hs. pose proof (zlen_nonneg s). pose proof (enc_len_pos (zlen s)). rewrite zlen_app.
  eapply emits_then; [apply rdbSaveLen_emits; lia|lia|]. case_if; [apply emits_raw_last|].
  assert (s = []) as -> by (apply zlen_0_nil; lia). rewrite Z.add_0_r. apply emits_return.
Qed.

Hypothesis in_data_low : Lzf.MAX_OFF <= in_data.
Hypothesis htab0_words : ∀ i, 0 <= htab0 i < 2 ^ 64.

Lemma rdbSaveLzfStringObject_emits s :
  wf_bytes s → in_data + zlen s < 2 ^ 64 →
  emits (λ rdb, rdbSaveLzfStringObject in_data junk htab0 rdb s) [] 0 ∨
  ∃ bs, saved s bs ∧ 0 < zlen bs ∧ emits (λ rdb, rdbSaveLzfStringObject in_data junk htab0 rdb s) bs (zlen bs).
Proof.
  intros Hw Hhigh. unfold rdbSaveLzfStringObject. case_if; [left; apply emits_return|].
  destruct (LzfProofs.lzf_compress_spec in_data s Hw in_data_low Hhigh htab0
    (replicate (Z.to_nat (zlen s - 4)) junk)) as (n & out & -> & Hz & Hn & _ & Hts); [lia|done|].
  cbn [mbind option_bind]. rewrite zlen_replicate in *. case_if; [left; apply emits_return|right].
  set (c := take (Z.to_nat n) out) in *. destruct (Hts Heqb0) as (ts & Hc & Hok & Hexp).
  assert (zlen c = n) as Hcn by (unfold c; rewrite zlen_take; lia).
  pose proof (zlen_nonneg s). change Lzf.MAX_OFF with 8192 in *.
  eexists. split; [eapply (saved_lzf s _ c); [done|lia|]|split].
  - rewrite Hc, <- Hexp. by apply LzfProofs.lzf_decompress_tokens; rewrite ?Hexp.
  - rewrite zlen_app. pose proof (zlen_nonneg (enc_len (zlen c) ++ enc_len (zlen s) ++ c)). change (zlen [195]) with 1. lia.
  - apply rdbSaveLzfBlob_emits; unfold UINT64_MAX; lia.
Qed.

Lemma rdbEncodeInteger_ne v : rdbEncodeInteger v ≠ [] ↔ 0 < zlen (rdbEncodeInteger v).
Proof.
  destruct (rdbEncodeInteger v) as [|x l]; [by split|]. rewrite zlen_cons. pose proof (zlen_nonneg l).
  split; [lia|done].
Qed.

Lemma save_raw_emits s :
  wf_bytes s → in_data + zlen s < 2 ^ 64 → ∃ bs, saved s bs ∧ emits (λ rdb, save_raw rdb s) bs (zlen bs).
Proof.
  intros Hw Hhigh. change Lzf.MAX_OFF with 8192 in *.
  assert (zlen s <= UINT64_MAX) as Hs by (unfold UINT64_MAX; lia). pose proof (zlen_nonneg s).
  assert (∃ bs, saved s bs ∧ emits (λ rdb, save_long in_data junk htab0 rdb_compression rdb s) bs (zlen bs)) as Hlong.
  { assert (∃ bs, saved s bs ∧ emits (λ rdb, save_verbatim rdb s) bs (zlen bs)) as Hv
      by (eexists; split; [by apply saved_plain|by apply save_verbatim_emits]).
    unfold save_long. case_if; [|done].
    destruct (rdbSaveLzfStringObject_emits s Hw Hhigh) as [He|(bs & Hbs & Hpos & He)].
    - destruct Hv as (bs & Hbs & Hv). exists bs. split; [done|].
      apply (emits_then _ _ [] bs 0 (zlen bs) He); [lia|done].
    - exists bs. split; [done|]. rewrite <- (app_nil_r bs) at 1. eapply emits_then; [exact He|lia|].
      rewrite (proj2 (Z.ltb_lt 0 (zlen bs))) by done. apply emits_return. }
  unfold rdbSaveRawString. case_if; [|done]. case_if; [|done].
  unfold rdbTryIntegerEncoding in *. destruct (string2ll s) as [v|] eqn:E; [|done].
  apply string2ll_spec in E as [Hv ->].
  exists (rdbEncodeInteger v). split; [|apply emits_raw_last].
  eapply saved_int; [done|done|done|]. by apply rdbEncodeInteger_ne.
Qed.

Lemma content_make_loaded fl s : content (make_loaded fl s) = s.
Proof. by destruct fl. Qed.

(** What reading [bs], followed by [q], gives. *)
Definition loads (r : rio) (p bs q s : list Z) (res : option (rio * option loaded)) : Prop :=
  ∃ r' l, res = Some (r', Some l) ∧ content l = s ∧ at_ r' (p ++ bs) q.

Lemma rdbLoadLzfStringObject_spec c s r p q fl :
  LzfProofs.restores c s →
  zlen c <= zlen s → zlen s < UINT64_MAX → (∀ n, 0 <= n <= zlen s → try_alloc n = true) →
  at_ r p ((enc_len (zlen c) ++ enc_len (zlen s) ++ c) ++ q) →
  loads r p (enc_len (zlen c) ++ enc_len (zlen s) ++ c) q s (rdbLoadLzfStringObject junk try_alloc r fl).
Proof.
  intros Hd Hc Hs Ha Hat. pose proof (zlen_nonneg c). pose proof (zlen_nonneg s). rewrite <- !app_assoc in Hat.
  unfold rdbLoadLzfStringObject, loads.
  destruct (rdbLoadLen_enc (zlen c) r p _ ltac:(lia) Hat) as (r1 & -> & Hat1). cbn [mbind option_bind].
  rewrite (proj2 (Z.eqb_neq (zlen c) RDB_LENERR)) by (unfold RDB_LENERR; lia).
  destruct (rdbLoadLen_enc (zlen s) r1 _ _ ltac:(lia) Hat1) as (r2 & -> & Hat2). cbn [mbind option_bind].
  rewrite (proj2 (Z.eqb_neq (zlen s) RDB_LENERR)) by (unfold RDB_LENERR; lia).
  rewrite !Ha by lia. cbn [negb].
  destruct (rioRead_at r2 _ c q (zlen c) Hat2 eq_refl) as (r3 & -> & Hat3). cbn [mbind option_bind].
  rewrite Hd by (rewrite zlen_replicate; lia). cbn [mbind option_bind]. rewrite Z.eqb_refl. cbn [negb].
  eexists r3, _. split; [done|]. split; [|by rewrite <- !app_assoc in Hat3].
  rewrite content_make_loaded, drop_ge by (rewrite length_replicate; done). apply app_nil_r.
Qed.

Lemma load_saved s bs r p q fl :
  saved s bs → zlen s < UINT64_MAX → (∀ n, 0 <= n <= zlen s → try_alloc n = true) →
  at_ r p (bs ++ q) → loads r p bs q s (load_string r fl).
Proof.
  intros Hsv Hs Ha Hat. pose proof (zlen_nonneg s). unfold rdbGenericLoadStringObject.
  destruct Hsv as [v Hv -> -> Hne|c -> Hc Hd| ->].
  - destruct (rdbEncodeInteger_shape v Hv) as [E0|(e & He & E & Hr)]; [by rewrite E0 in Hne|]. rewrite E in *.
    destruct (rdbLoadLen_special e r p _ (or_introl He) Hat) as (r1 & -> & Hat1). cbn [mbind option_bind].
    rewrite (proj2 (Z.eqb_neq e RDB_LENERR)) by (unfold RDB_LENERR, UINT64_MAX; lia).
    assert ((e =? RDB_ENC_INT8) || (e =? RDB_ENC_INT16) || (e =? RDB_ENC_INT32) = true) as ->.
    { assert (e = 0 ∨ e = 1 ∨ e = 2) as [-> |[-> | ->]] by lia; done. }
    destruct (rdbLoadIntegerObject_spec e v r1 _ q fl He Hr Hat1) as (r2 & l & -> & Hl & Hat2).
    exists r2, l. split; [done|]. split; [done|]. by rewrite <- app_assoc in Hat2.
  - rewrite <- app_assoc in Hat.
    destruct (rdbLoadLen_special RDB_ENC_LZF r p _ (or_intror eq_refl) Hat) as (r1 & -> & Hat1). cbn [mbind option_bind].
    change (RDB_ENC_LZF =? RDB_LENERR) with false. cbv iota.
    change ((RDB_ENC_LZF =? RDB_ENC_INT8) || (RDB_ENC_LZF =? RDB_ENC_INT16) || (RDB_ENC_LZF =? RDB_ENC_INT32)) with false.
    change (RDB_ENC_LZF =? RDB_ENC_LZF) with true. cbv iota.
    destruct (rdbLoadLzfStringObject_spec c s r1 _ q fl Hd Hc Hs Ha Hat1) as (r2 & l & -> & Hl & Hat2).
    exists r2, l. split; [done|]. split; [done|]. by rewrite <- app_assoc in Hat2.
  - rewrite <- app_assoc in Hat.
    destruct (rdbLoadLen_enc (zlen s) r p _ ltac:(lia) Hat) as (r1 & -> & Hat1). cbn [mbind option_bind].
    rewrite (proj2 (Z.eqb_neq (zlen s) RDB_LENERR)) by (unfold RDB_LENERR; lia).
    rewrite Ha by lia. cbn [negb]. destruct (zlen s =? 0) eqn:E0; zb; cbn [negb].
    + apply zlen_0_nil in E0 as ->. eexists r1, _. split; [done|]. rewrite content_make_loaded, !app_nil_r.
      by rewrite app_nil_l in Hat1.
    + destruct (rioRead_at r1 _ s q (zlen s) Hat1 eq_refl) as (r2 & -> & Hat2). cbn [mbind option_bind].
      eexists r2, _. split; [done|]. rewrite content_make_loaded. split; [done|]. by rewrite <- app_assoc in Hat2.
Qed.

Lemma save_object_saved o :
  wf_bytes (object_bytes o) → in_data + zlen (object_bytes o) < 2 ^ 64 →
  match o with ObjInt v => is_int64 v | ObjString _ => True end →
  ∃ bs, saved (object_bytes o) bs ∧ emits (λ rdb, save_object rdb o) bs (zlen bs).
Proof.
  intros Hw Hhigh Hv. destruct o as [s|v]; [by apply save_raw_emits|]. cbn [object_bytes rdbSaveStringObject] in *.
  unfold rdbSaveLongLongAsStringObject. case_if.
  { exists (rdbEncodeInteger v). split; [|apply rdbWriteRaw_emits]. eapply saved_int; [done|done|done|].
    by apply rdbEncodeInteger_ne. }
  pose proof (sdec_len v Hv) as Hl. unfold LONG_STR_SIZE in Hl.
  assert (replicate 32 junk = [] ++ replicate (Z.to_nat (zlen (sdec v) + 1)) junk ++ replicate (Z.to_nat (31 - zlen (sdec v))) junk) as ->.
  { rewrite app_nil_l, <- replicate_add. f_equal. lia. }
  pose proof (ll2string_spec [] (replicate (Z.to_nat (zlen (sdec v) + 1)) junk)
    (replicate (Z.to_nat (31 - zlen (sdec v))) junk) v 32 Hv) as E.
  change (zlen (@nil Z)) with 0 in E. rewrite E by (rewrite ?zlen_replicate; lia). clear E. cbn [mbind option_bind].
  rewrite (proj2 (Z.ltb_lt (zlen (sdec v)) 32)) by lia. rewrite app_nil_l, take_app_zlen.
  eexists. split; [by apply saved_plain|]. rewrite zlen_app. pose proof (enc_len_pos (zlen (sdec v))).
  eapply emits_then; [apply rdbSaveLen_emits; unfold UINT64_MAX; lia|lia|apply emits_raw_sum].
Qed.

(** (C10) What [rdbSaveStringObject] writes is read back: for any string object, whatever
    its encoding and whether or not compression is on, the number of bytes it
    returns is the number it appends to the stream (or would append, when
    the stream is null); and any of the loading functions, started on
    those bytes inside any file, returns a string with the same contents and
    stops right after them. *)
Theorem rdb_string_roundtrip o rdb :
  wf_bytes (object_bytes o) → in_data + zlen (object_bytes o) < 2 ^ 64 →
  match o with ObjInt v => is_int64 v | ObjString _ => True end →
  (∀ n, 0 <= n <= zlen (object_bytes o) → try_alloc n = true) → writable rdb →
  ∃ rdb' bs, save_object rdb o = Some (rdb', zlen bs) ∧ wrote bs rdb rdb' ∧
    ∀ r p q fl, at_ r p (bs ++ q) → loads r p bs q (object_bytes o) (load_string r fl).
Proof.
  intros Hw Hhigh Hv Ha Hwr. destruct (save_object_saved o Hw Hhigh Hv) as (bs & Hsv & He).
  destruct (He rdb Hwr) as (rdb' & E & Hwrote & _). exists rdb', bs. split; [done|]. split; [done|].
  intros r p q fl Hat. apply load_saved; [done| |done|done].
  change Lzf.MAX_OFF with 8192 in *. unfold UINT64_MAX. lia.
Qed.

(** ** Reading arbitrary input *)

Lemma load_integer_reader n f :
  0 <= n → (∀ b, wf_bytes b → zlen b = n → is_int64 (f b)) → reader (λ r, load_integer r n f) is_int64.
Proof.
  intros Hn Hf. eapply reader_ext; [|eapply (reader_bind _ (λ b r, Some (r, Some (f b)))); [by apply (rioRead_reader n)|]].
  - intros r. unfold load_integer. cbv beta. by destruct (rioRead r n) as [[r' [b|]]|].
  - intros b [Hw Hb]. apply reader_return. by apply Hf.
Qed.

Lemma swrap_range w v : 0 < w <= 64 → is_int64 (swrap w v).
Proof.
  intros Hw. unfold swrap, is_int64, INT64_MIN, INT64_MAX.
  pose proof (Z.mod_pos_bound (v + 2 ^ (w - 1)) (2 ^ w) (Z.pow_pos_nonneg 2 w ltac:(lia) ltac:(lia))).
  pose proof (Z.pow_le_mono_r 2 (w - 1) 63 ltac:(lia) ltac:(lia)).
  replace (2 ^ w) with (2 * 2 ^ (w - 1)) in * by (rewrite <- Z.pow_succ_r by lia; f_equal; lia). lia.
Qed.

Lemma rdbLoadIntegerObject_reader e fl : reader (λ r, rdbLoadIntegerObject junk no_shared r e fl) (λ _, True).
Proof.
  unfold rdbLoadIntegerObject.
  eapply (reader_bind _ (λ val r, v ← _; Some (r, Some v))).
  - repeat case_if; try apply reader_fail; (apply load_integer_reader; [lia|]; intros b _ _; apply swrap_range; lia).
  - intros v Hv. destruct (load_integer_value fl v Hv) as (l & E & _). cbv beta. rewrite E. by apply reader_return.
Qed.

Lemma rdbLoadLzfStringObject_reader fl : reader (λ r, rdbLoadLzfStringObject junk try_alloc r fl) (λ _, True).
Proof.
  unfold rdbLoadLzfStringObject. apply (reader_after_len (λ _ clen r, _)). intros _ clen Hclen.
  apply (reader_after_len (λ _ len r, _)). intros _ len Hlen.
  case_if; [apply reader_fail|]. case_if; [apply reader_fail|].
  eapply (reader_bind _ (λ c r, '(n, _, val) ← _; if negb (n =? len) then Some (r, None) else Some (r, Some (make_loaded fl val))));
    [apply (rioRead_reader clen); lia|].
  intros c [Hw _]. destruct (LzfProofs.decompress_loop_correct (length c) [] c [] (replicate (Z.to_nat len) junk) Hw (le_n _))
    as (n & e & val & E & _). unfold Lzf.lzf_decompress. simpl app in E. change (zlen (@nil Z)) with 0 in E.
  cbv beta. rewrite E. cbn [mbind option_bind]. case_if; [apply reader_fail|by apply reader_return].
Qed.

Lemma load_string_reader fl : reader (λ r, load_string r fl) (λ _, True).
Proof.
  unfold rdbGenericLoadStringObject. apply (reader_after_len (λ isencoded len r, _)). intros b len Hlen.
  case_if; [|case_if; [apply reader_fail|]].
  - case_if; [apply rdbLoadIntegerObject_reader|]. case_if; [apply rdbLoadLzfStringObject_reader|apply reader_fail].
  - case_if; [|by apply reader_return].
    eapply reader_ext; [|eapply (reader_bind _ (λ s r, Some (r, Some (make_loaded fl s)))); [apply (rioRead_reader len); lia|]].
    + intros r. cbv beta. by destruct (rioRead r len) as [[r' [s|]]|].
    + intros s _. by apply reader_return.
Qed.

(** (C20) Loading a string from arbitrary bytes, with any allocation failing, stays
    inside the stream and the buffers and returns: a string, or nothing. *)
Theorem rdb_load_safe r fl :
  readable r → ∃ r' v, load_string r fl = Some (r', v) ∧ readable r' ∧ ptr r' = ptr r.
Proof.
  intros Hr. destruct (load_string_reader fl r Hr) as (r' & v & H1 & H2 & H3 & _). by exists r', v.
Qed.

(** (C19) A string that was cut short is not loaded: after any proper prefix of the
    bytes that [rdbSaveStringObject] wrote for an object, the loading functions report an error. *)
Theorem rdb_truncated_rejected o w w' n b1 b2 r p fl :
  wf_bytes (object_bytes o) → in_data + zlen (object_bytes o) < 2 ^ 64 →
  match o with ObjInt v => is_int64 v | ObjString _ => True end →
  (∀ n, 0 <= n <= zlen (object_bytes o) → try_alloc n = true) → writable (Some w) →
  save_object (Some w) o = Some (Some w', n) → ptr w' = ptr w ++ b1 ++ b2 → b2 ≠ [] →
  at_ r p b1 → readable r → zlen (p ++ b1 ++ b2) < 2 ^ 64 →
  ∃ r', load_string r fl = Some (r', None).
Proof.
  intros Hw Hhigh Hv Ha Hwr Hsave Hb Hne Hat Hr Hlim.
  destruct (save_object_saved o Hw Hhigh Hv) as (bs & Hsv & He).
  destruct (He _ Hwr) as (rdb' & E & Hwrote & _). rewrite Hsave in E. injection E as <- _.
  destruct Hwrote as (Hp & _). rewrite Hp in Hb. apply app_inv_head in Hb as ->.
  destruct (load_string_reader fl r Hr) as (r' & v & El & Hr' & Hpr & Hext). rewrite El.
  destruct v as [l|]; [exfalso|by exists r']. destruct (Hext l eq_refl) as [_ Hx].
  destruct Hat as (Hptr & Hpos & _ & Hfl & Hc). specialize (Hx b2). rewrite Hptr, <- app_assoc in Hx.
  specialize (Hx Hlim). destruct (load_saved _ _ (extend r b2) p [] fl Hsv) as (r2 & l2 & E2 & _ & Hat2).
  { change Lzf.MAX_OFF with 8192 in *. unfold UINT64_MAX. lia. }
  { done. }
  { rewrite app_nil_r. split; [cbn [ptr extend]; by rewrite Hptr, <- app_assoc|]. split; [done|].
    split; [cbn [ptr extend]; by rewrite Hptr, <- app_assoc|done]. }
  rewrite Hx in E2. injection E2 as <- _. destruct Hat2 as (_ & Hpos2 & _). cbn [pos extend] in Hpos2.
  destruct Hr' as (Hr' & _). rewrite Hpr, Hptr, !zlen_app in *.
  destruct b2 as [|x b2]; [done|]. rewrite zlen_cons in *. pose proof (zlen_nonneg b2). lia.
Qed.

End Strings.

(** ** Concrete objects *)

Definition text : robj := ObjString (bytes_of_string "aaaaaaaaaaaaaaaaaaaaaaaaaaaaaaaaaaaaaaaabbbbbbbbbb").
(** A stream of chunks of four bytes. *)
Definition out_stream : rio := mkRio [7; 7] 2 0 0 4.

Lemma zero_words : ∀ i : Z, 0 <= (λ _ : Z, 0) i < 2 ^ 64.
Proof. intros i. lia. Defined.

Lemma rdb_string_roundtrip_witness :
  ∃ rdb' bs, rdbSaveStringObject 65536 9 (λ _, 0) true (Some out_stream) text = Some (rdb', zlen bs) ∧
    wrote bs (Some out_stream) rdb' ∧
    ∀ r p q fl, at_ r p (bs ++ q) →
      loads r p bs q (object_bytes text) (rdbGenericLoadStringObject 9 (λ _, true) false r fl).
Proof.
  assert (Lzf.MAX_OFF <= 65536) as H1 by (vm_compute; discriminate).
  assert (wf_bytes (object_bytes text)) as H2 by (apply wf_bytesb_spec; vm_compute; reflexivity).
  assert (65536 + zlen (object_bytes text) < 2 ^ 64) as H3 by (vm_compute; reflexivity).
  assert (writable (Some out_stream)) as H4 by (split; [reflexivity|vm_compute; discriminate]).
  exact (rdb_string_roundtrip 65536 9 (λ _, true) (λ _, 0) true false H1 zero_words text (Some out_stream)
    H2 H3 I (λ _ _, eq_refl) H4).
Defined.

(** Twelve bytes announced by the length, nine there. *)
Definition short_dump : list Z := [12; 1; 2; 3; 4; 5; 6; 7; 8; 9].

Lemma rdb_load_safe_witness :
  ∃ r' v, rdbGenericLoadStringObject 9 (λ _, true) false (rioInitWithBuffer short_dump) RDB_LOAD_SDS = Some (r', v) ∧
    readable r' ∧ ptr r' = short_dump.
Proof.
  assert (readable (rioInitWithBuffer short_dump)) as H.
  { split; [split; vm_compute; discriminate|]. split; [vm_compute; reflexivity|].
    split; [apply wf_bytesb_spec; vm_compute; reflexivity|vm_compute; discriminate]. }
  exact (rdb_load_safe 9 (λ _, true) false (rioInitWithBuffer short_dump) RDB_LOAD_SDS H).
Defined.

Lemma rdb_truncated_rejected_witness :
  ∃ r', rdbGenericLoadStringObject 9 (λ _, true) false (rioInitWithBuffer [194; 64; 226]) RDB_LOAD_NONE = Some (r', None).
Proof.
  set (o := ObjString (bytes_of_string "123456")).
  set (w' := mkRio [7; 7; 194; 64; 226; 1; 0] 7 0 5 4).
  assert (Lzf.MAX_OFF <= 65536) as H1 by (vm_compute; discriminate).
  assert (wf_bytes (object_bytes o)) as H2 by (apply wf_bytesb_spec; vm_compute; reflexivity).
  assert (65536 + zlen (object_bytes o) < 2 ^ 64) as H3 by (vm_compute; reflexivity).
  assert (writable (Some out_stream)) as H4 by (split; [reflexivity|vm_compute; discriminate]).
  assert (rdbSaveStringObject 65536 9 (λ _, 0) true (Some out_stream) o = Some (Some w', 5)) as H5 by (vm_compute; reflexivity).
  assert (at_ (rioInitWithBuffer [194; 64; 226]) [] [194; 64; 226]) as H6.
  { split; [reflexivity|]. split; [reflexivity|]. split; [vm_compute; reflexivity|]. split; [reflexivity|vm_compute; discriminate]. }
  assert (readable (rioInitWithBuffer [194; 64; 226])) as H7.
  { split; [split; vm_compute; discriminate|]. split; [vm_compute; reflexivity|].
    split; [apply wf_bytesb_spec; vm_compute; reflexivity|vm_compute; discriminate]. }
  assert (zlen ([] ++ [194; 64; 226] ++ [1; 0]) < 2 ^ 64) as H8 by (vm_compute; reflexivity).
  assert ([1; 0] ≠ []) as H9 by discriminate.
  exact (rdb_truncated_rejected 65536 9 (λ _, true) (λ _, 0) true false H1 zero_words o out_stream w' 5 [194; 64; 226] [1; 0]
    (rioInitWithBuffer [194; 64; 226]) [] RDB_LOAD_NONE H2 H3 I (λ _ _, eq_refl) H4 H5 eq_refl H9 H6 H7 H8).
Defined.

End RdbProofs.
