(* ===== verification/Glob.v ===== *)
(** * Glob-style matching ([src/redis-stable/src/util.c], [stringmatchlen])

    The matcher used by KEYS, SCAN, PSUBSCRIBE, CONFIG GET and the ACL rules.
    It is compared with a reference: the pattern parsed into tokens and the
    usual backtracking semantics over the tokens. *)

From Stdlib Require Import String.
From S2P Require Import Prelude.

Module Glob.

(** ** The matcher *)

Definition STAR : Z := 42.
Definition QMARK : Z := 63.
Definition LBRACK : Z := 91.
Definition BSLASH : Z := 92.
Definition RBRACK : Z := 93.
Definition CARET : Z := 94.
Definition DASH : Z := 45.

(** A [char] is signed. *)
Definition chr (b : Z) : Z := swrap 8 b.

(** [tolower] in the C locale. *)
Definition tolower (c : Z) : Z := if (65 <=? c) && (c <=? 90) then c + 32 else c.

(** Equality of two characters as tested by the matcher. *)
Definition same_char (nocase : bool) (a b : Z) : bool :=
  if negb nocase then chr a =? chr b else tolower (chr a) =? tolower (chr b).

(** The range test of a character class. *)
Definition in_range (nocase : bool) (a b ch : Z) : bool :=
  let start := chr a in
  let fin := chr b in
  let c := chr ch in
  let '(start, fin) := if fin <? start then (fin, start) else (start, fin) in
  let '(start, fin, c) :=
    if nocase then (tolower start, tolower fin, tolower c) else (start, fin, c) in
  (start <=? c) && (c <=? fin).

(** The [while(1)] loop over a character class, from the byte after [[] or
    [[^].  Returns the [match] flag and the pattern after the class: after the
    closing bracket, or the empty pattern when there is none ([pattern--]
    followed by the [pattern++] at the end of the main loop). *)
Fixpoint class_loop (p : list Z) (ch : Z) (nocase m : bool) : bool * list Z :=
  match p with
  | [] => (m, [])
  | c0 :: p1 =>
      let literal := class_loop p1 ch nocase (m || same_char nocase c0 ch) in
      match p1 with
      | [] => if c0 =? RBRACK then (m, p1) else literal
      | c1 :: p2 =>
          if c0 =? BSLASH then class_loop p2 ch nocase (m || (chr c1 =? chr ch))
          else if c0 =? RBRACK then (m, p1)
          else
            match p2 with
            | c2 :: p3 =>
                if c1 =? DASH then class_loop p3 ch nocase (m || in_range nocase c0 c2 ch)
                else literal
            | [] => literal
            end
      end
  end.

(** [while (patternLen && pattern[1] == '*') { pattern++; patternLen--; }] on a
    pattern that starts with a star.  The byte after the pattern is the null
    terminator of the string that holds it. *)
Fixpoint skip_dup_stars (p : list Z) : list Z :=
  match p with
  | c :: (c1 :: _) as p1 => if c1 =? STAR then skip_dup_stars p1 else p
  | _ => p
  end.

(** [while(patternLen && *pattern == '*')] once the string is exhausted. *)
Fixpoint drop_stars (p : list Z) : list Z :=
  match p with
  | c :: p1 => if c =? STAR then drop_stars p1 else p
  | [] => []
  end.

(** One iteration of the main loop for a pattern that does not start with a
    star: the pattern and string that follow, or [None] on a mismatch. *)
Definition match_one (nocase : bool) (c : Z) (p1 : list Z) (ch : Z) : option (list Z) :=
  if c =? QMARK then Some p1
  else if c =? LBRACK then
    let neg := bool_decide (head p1 = Some CARET) in
    let p1 := if neg then tail p1 else p1 in
    let '(m, rest) := class_loop p1 ch nocase false in
    if (if neg then negb m else m) then Some rest else None
  else
    let '(c, p1) :=
      match p1 with
      | c1 :: p2 => if c =? BSLASH then (c1, p2) else (c, p1)
      | [] => (c, p1)
      end in
    if same_char nocase c ch then Some p1 else None.

(** The loop over the start positions tried for the pattern after a star.
    [try] is the recursive call; it takes and returns [*skipLongerMatches]. *)
Fixpoint star_loop (try : list Z → bool → bool * bool) (s : list Z) (skip : bool)
  : bool * bool :=
  match s with
  | [] => (false, true)
  | _ :: s1 =>
      let '(r, skip) := try s skip in
      if (r : bool) then (true, skip)
      else if (skip : bool) then (false, skip)
      else star_loop try s1 skip
  end.

(** The main loop of [stringmatchlen_impl].  Every iteration and every
    recursive call consumes a pattern byte, so [length p + 1] units of fuel
    are enough.  Returns the result and [*skipLongerMatches]. *)
Fixpoint match_loop (fuel : nat) (p s : list Z) (nocase skip : bool) (nesting : Z)
  : bool * bool :=
  match fuel with
  | O => (false, skip)
  | S fuel =>
      match p, s with
      | c :: p1, ch :: s1 =>
          if c =? STAR then
            let p := skip_dup_stars p in
            if zlen p =? 1 then (true, skip)
            else
              star_loop (λ s skip,
                if 1000 <? nesting + 1 then (false, skip)
                else match_loop fuel (tail p) s nocase skip (nesting + 1)) s skip
          else
            match match_one nocase c p1 ch with
            | None => (false, skip)
            | Some p =>
                match s1 with
                | [] => (bool_decide (drop_stars p = []), skip)
                | _ :: _ => match_loop fuel p s1 nocase skip nesting
                end
            end
      | _, _ => (bool_decide (p = []) && bool_decide (s = []), skip)
      end
  end.

Definition stringmatchlen_impl (p s : list Z) (nocase skip : bool) (nesting : Z)
  : bool * bool :=
  if 1000 <? nesting then (false, skip)
  else match_loop (S (length p)) p s nocase skip nesting.

Definition stringmatchlen (p s : list Z) (nocase : bool) : bool :=
  (stringmatchlen_impl p s nocase false 0).1.

(** The backslashes that precede the last byte, counted backwards. *)
Fixpoint leading_bslashes (p : list Z) : Z :=
  match p with
  | c :: p => if c =? BSLASH then 1 + leading_bslashes p else 0
  | [] => 0
  end.

Definition prefixmatch (p prefixStr : list Z) (nocase : bool) : bool :=
  if negb (stringmatchlen_impl p prefixStr nocase false 0).1 then false
  else
    match rev p with
    | c :: before =>
        if negb (c =? STAR) then false else leading_bslashes before mod 2 =? 0
    | [] => false
    end.

(** ** Reference semantics *)

Inductive citem :=
  | CEscaped (c : Z)
  | CRange (a b : Z)
  | CLiteral (c : Z).

Inductive tok :=
  | TStar
  | TAny
  | TClass (neg : bool) (items : list citem)
  | TChar (c : Z).

Fixpoint parse_class (p : list Z) : list citem * list Z :=
  match p with
  | [] => ([], [])
  | c0 :: p1 =>
      let literal := let '(its, r) := parse_class p1 in (CLiteral c0 :: its, r) in
      match p1 with
      | [] => if c0 =? RBRACK then ([], p1) else literal
      | c1 :: p2 =>
          if c0 =? BSLASH then let '(its, r) := parse_class p2 in (CEscaped c1 :: its, r)
          else if c0 =? RBRACK then ([], p1)
          else
            match p2 with
            | c2 :: p3 =>
                if c1 =? DASH then let '(its, r) := parse_class p3 in (CRange c0 c2 :: its, r)
                else literal
            | [] => literal
            end
      end
  end.

(** The first token of a pattern that starts with [c], and the rest. *)
Definition parse_one (c : Z) (p1 : list Z) : tok * list Z :=
  if c =? STAR then (TStar, p1)
  else if c =? QMARK then (TAny, p1)
  else if c =? LBRACK then
    let neg := bool_decide (head p1 = Some CARET) in
    let '(items, r) := parse_class (if neg then tail p1 else p1) in (TClass neg items, r)
  else
    match p1 with
    | c1 :: p2 => if c =? BSLASH then (TChar c1, p2) else (TChar c, p1)
    | [] => (TChar c, p1)
    end.

Fixpoint parse_rec (fuel : nat) (p : list Z) : list tok :=
  match fuel, p with
  | S fuel, c :: p1 => let '(t, r) := parse_one c p1 in t :: parse_rec fuel r
  | _, _ => []
  end.
Definition parse (p : list Z) : list tok := parse_rec (length p) p.

Definition item_match (nocase : bool) (ch : Z) (i : citem) : bool :=
  match i with
  | CEscaped c => chr c =? chr ch
  | CRange a b => in_range nocase a b ch
  | CLiteral c => same_char nocase c ch
  end.

Definition tok_match (nocase : bool) (t : tok) (ch : Z) : bool :=
  match t with
  | TStar | TAny => true
  | TClass neg items => xorb neg (existsb (item_match nocase ch) items)
  | TChar c => same_char nocase c ch
  end.

(** [glob nocase ts s]: the string [s] matches the tokens [ts]. *)
Inductive glob (nocase : bool) : list tok → list Z → Prop :=
  | glob_end : glob nocase [] []
  | glob_star ts s1 s2 : glob nocase ts s2 → glob nocase (TStar :: ts) (s1 ++ s2)
  | glob_tok t ts ch s : t ≠ TStar → tok_match nocase t ch = true →
      glob nocase ts s → glob nocase (t :: ts) (ch :: s).

(** The number of stars, runs of stars counting once. *)
Definition is_star (t : tok) : bool := match t with TStar => true | _ => false end.
Fixpoint stars (ts : list tok) : Z :=
  match ts with
  | [] => 0
  | t :: ts => (if is_star t then 1 else 0) + stars ts
  end.

(** ** Parsing lemmas *)

Lemma stars_nonneg ts : 0 <= stars ts.
Proof. induction ts as [|[] ts IH]; simpl; lia. Qed.

Lemma class_loop_parse n p ch nocase m :
  (length p <= n)%nat →
  class_loop p ch nocase m =
    (m || existsb (item_match nocase ch) (parse_class p).1, (parse_class p).2) ∧
  (length (parse_class p).2 <= length p)%nat.
Proof.
  revert p m. induction n as [|n IH]; intros p m Hn.
  { destruct p; simpl in *; [|lia]. by rewrite orb_false_r. }
  assert (Hlit : ∀ c0 p1, (length (c0 :: p1) <= S n)%nat →
    class_loop p1 ch nocase (m || same_char nocase c0 ch)
    = (m || existsb (item_match nocase ch) (CLiteral c0 :: (parse_class p1).1), (parse_class p1).2)
    ∧ (length (parse_class p1).2 <= length (c0 :: p1))%nat).
  { intros c0 p1 Hl. destruct (IH p1 (m || same_char nocase c0 ch)) as [-> ?].
    - simpl in Hl. lia.
    - split; [|simpl; lia]. simpl. by rewrite orb_assoc. }
  destruct p as [|c0 p1]; [simpl; rewrite orb_false_r; split; [done|lia]|].
  specialize (Hlit c0 p1 Hn).
  assert (Hpl : (let '(its, r) := parse_class p1 in (CLiteral c0 :: its, r))
    = (CLiteral c0 :: (parse_class p1).1, (parse_class p1).2)) by by destruct (parse_class p1).
  cbn [class_loop parse_class]. rewrite Hpl. destruct p1 as [|c1 p2].
  { case_if; [simpl; rewrite orb_false_r; split; [done|lia]|done]. }
  assert (Hne : ∀ p', (length p' <= length p2)%nat → ∀ m' it,
    item_match nocase ch it = m' →
    class_loop p' ch nocase (m || m')
    = (m || existsb (item_match nocase ch) (it :: (parse_class p').1), (parse_class p').2)
    ∧ (length (parse_class p').2 <= length (c0 :: c1 :: p2))%nat).
  { intros p' Hp' m' it Hit. destruct (IH p' (m || m')) as [-> ?]; [simpl in Hn; lia|].
    split; [|simpl; lia]. simpl. by rewrite Hit, orb_assoc. }
  case_if.
  { specialize (Hne p2 ltac:(lia) _ (CEscaped c1) eq_refl).
    by destruct (parse_class p2). }
  case_if; [simpl; rewrite orb_false_r; split; [done|lia]|].
  destruct p2 as [|c2 p3]; [done|]. case_if; [|done].
  specialize (Hne p3 ltac:(simpl; lia) _ (CRange c0 c2) eq_refl).
  by destruct (parse_class p3).
Qed.

Lemma parse_one_len c p1 : (length (parse_one c p1).2 <= length p1)%nat.
Proof.
  unfold parse_one. case_if; [done|]. case_if; [done|]. case_if.
  - set (q := if bool_decide (head p1 = Some CARET) then tail p1 else p1).
    assert (length q <= length p1)%nat.
    { subst q. case_bool_decide; [|lia]. destruct p1; simpl; lia. }
    destruct (class_loop_parse (length q) q 0 false false) as [_ ?]; [lia|].
    destruct (parse_class q). simpl in *. lia.
  - destruct p1; [simpl; lia|]. case_if; simpl; lia.
Qed.

Lemma parse_rec_fuel n m p :
  (length p <= n)%nat → (length p <= m)%nat → parse_rec n p = parse_rec m p.
Proof.
  revert m p. induction n as [|n IH]; intros m p Hn Hm.
  { destruct p; [|simpl in Hn; lia]. by destruct m. }
  destruct m as [|m]; [destruct p; [done|simpl in Hm; lia]|].
  destruct p as [|c p1]; [done|]. simpl in *.
  pose proof (parse_one_len c p1). destruct (parse_one c p1) as [t r]. simpl in *.
  f_equal. apply IH; lia.
Qed.

Lemma parse_cons c p1 :
  parse (c :: p1) = (parse_one c p1).1 :: parse (parse_one c p1).2.
Proof.
  unfold parse. simpl. pose proof (parse_one_len c p1).
  destruct (parse_one c p1) as [t r]. simpl in *. f_equal. apply parse_rec_fuel; lia.
Qed.

Lemma parse_star p1 : parse (STAR :: p1) = TStar :: parse p1.
Proof. by rewrite parse_cons. Qed.

Lemma match_one_parse nocase c p1 ch :
  c ≠ STAR →
  (parse_one c p1).1 ≠ TStar ∧
  match_one nocase c p1 ch =
    if tok_match nocase (parse_one c p1).1 ch then Some (parse_one c p1).2 else None.
Proof.
  intros Hc. unfold match_one, parse_one. case_if; [done|]. case_if; [done|]. case_if.
  - set (q := if bool_decide (head p1 = Some CARET) then tail p1 else p1).
    destruct (class_loop_parse (length q) q ch nocase false) as [-> _]; [lia|].
    destruct (parse_class q) as [its r]. simpl. split; [done|].
    by destruct (bool_decide _), (existsb _ its).
  - destruct p1 as [|c1 p2]; [done|]. by case_if.
Qed.

(** ** Reference lemmas *)

Section Spec.
Context (nocase : bool).

Lemma glob_nil_l s : glob nocase [] s ↔ s = [].
Proof. split; [by inversion 1|intros ->; constructor]. Qed.

Lemma glob_star_iff ts s :
  glob nocase (TStar :: ts) s ↔ ∃ s', s' `suffix_of` s ∧ glob nocase ts s'.
Proof.
  split.
  - inversion 1; subst; [|done]. eexists; split; [|done]. by eexists.
  - intros (s' & [k ->] & H). by constructor.
Qed.

Lemma glob_tok_iff t ts s :
  t ≠ TStar → glob nocase (t :: ts) s ↔
  ∃ ch s', s = ch :: s' ∧ tok_match nocase t ch = true ∧ glob nocase ts s'.
Proof.
  intros Ht. split.
  - inversion 1; subst; [done|]. eauto.
  - intros (ch & s' & -> & ? & ?). by constructor.
Qed.

Lemma glob_star_cons ts ch s :
  glob nocase (TStar :: ts) (ch :: s) ↔ glob nocase ts (ch :: s) ∨ glob nocase (TStar :: ts) s.
Proof.
  rewrite !glob_star_iff. split.
  - intros (s' & [k Hk] & H). destruct k as [|c k]; simpl in Hk.
    + left. by rewrite Hk.
    + right. injection Hk as -> ->. exists s'. split; [by exists k|done].
  - intros [H|(s' & Hs & H)].
    + by exists (ch :: s).
    + exists s'. split; [by apply suffix_cons_r|done].
Qed.

Lemma glob_star_star ts s :
  glob nocase (TStar :: TStar :: ts) s ↔ glob nocase (TStar :: ts) s.
Proof.
  rewrite glob_star_iff. split.
  - intros (s' & Hs & (s'' & Hs' & H)%glob_star_iff). apply glob_star_iff.
    exists s''. split; [by etrans|done].
  - intros H. by exists s.
Qed.

Lemma glob_star_suffix ts s s' :
  s' `suffix_of` s → glob nocase (TStar :: ts) s' → glob nocase (TStar :: ts) s.
Proof.
  rewrite !glob_star_iff. intros Hs (s'' & Hs' & H). exists s''. split; [by etrans|done].
Qed.

(** Once the string is exhausted only stars may be left. *)
Lemma glob_empty p : glob nocase (parse p) [] ↔ drop_stars p = [].
Proof.
  induction p as [|c p IH]; [split; [done|constructor]|]. cbn [drop_stars].
  destruct (decide (c = STAR)) as [->|Hc].
  - rewrite parse_star, Z.eqb_refl, <- IH, glob_star_iff. split.
    + intros (s' & ->%suffix_nil_inv & H). done.
    + intros H. by exists [].
  - rewrite (proj2 (Z.eqb_neq c STAR) Hc), parse_cons.
    destruct (match_one_parse nocase c p 0 Hc) as [Ht _].
    rewrite glob_tok_iff by done. naive_solver.
Qed.

(** Runs of stars are equivalent to one star. *)
Lemma skip_dup_stars_spec p1 :
  ∃ p', skip_dup_stars (STAR :: p1) = STAR :: p' ∧ head p' ≠ Some STAR ∧
    (length p' <= length p1)%nat ∧ stars (parse p') <= stars (parse p1) ∧
    ∀ s, glob nocase (parse (STAR :: p1)) s ↔ glob nocase (TStar :: parse p') s.
Proof.
  induction p1 as [|c1 p2 IH].
  { exists []. by split_and!. }
  change (skip_dup_stars (STAR :: c1 :: p2)) with
    (if c1 =? STAR then skip_dup_stars (c1 :: p2) else STAR :: c1 :: p2).
  destruct (decide (c1 = STAR)) as [->|Hc].
  - rewrite Z.eqb_refl. destruct IH as (p' & -> & Hh & Hl & Hs & Hg). exists p'.
    split_and!; [done|done|simpl; lia|rewrite parse_star; simpl; lia|].
    intros s. rewrite <- Hg, !parse_star. apply glob_star_star.
  - rewrite (proj2 (Z.eqb_neq c1 STAR) Hc). exists (c1 :: p2).
    split_and!; try done. simpl. congruence.
Qed.

(** What a call tells about the pattern [ts] at the string [s]: its result,
    and, when it raised the flag, that no suffix of [s] matches either. *)
Definition outcome (ts : list tok) (s : list Z) (res : bool * bool) : Prop :=
  (res.1 = true ↔ glob nocase ts s) ∧
  (res.2 = true → ∀ s', s' `suffix_of` s → ¬ glob nocase ts s').

Lemma star_loop_spec ts try s :
  ¬ glob nocase ts [] →
  (∀ s', s' ≠ [] → s' `suffix_of` s → outcome ts s' (try s' false)) →
  outcome (TStar :: ts) s (star_loop try s false).
Proof.
  intros Hnil. induction s as [|ch s IH]; intros Htry.
  { split; [split; [done|]|].
    - intros (s' & ->%suffix_nil_inv & H)%glob_star_iff. done.
    - intros _ s' ->%suffix_nil_inv (s'' & ->%suffix_nil_inv & H)%glob_star_iff. done. }
  cbn [star_loop]. pose proof (Htry (ch :: s) ltac:(done) ltac:(done)) as [Hr Hk].
  destruct (try (ch :: s) false) as [r k]. simpl in Hr, Hk. destruct r.
  { split; simpl.
    - split; [|done]. intros _. apply glob_star_cons. left. by apply Hr.
    - intros Hk'. exfalso. eapply (Hk Hk' (ch :: s)); [done|]. by apply Hr. }
  destruct k.
  { assert (Hno : ∀ s', s' `suffix_of` ch :: s → ¬ glob nocase (TStar :: ts) s').
    { intros s' Hs (s'' & Hs' & H)%glob_star_iff. apply (Hk eq_refl s''); [by etrans|done]. }
    split; simpl; [|by intros _]. split; [done|]. intros H. by apply (Hno (ch :: s)) in H. }
  destruct IH as [IHr IHk].
  { intros s' Hne Hs. apply Htry; [done|]. by apply suffix_cons_r. }
  assert (Hhere : ¬ glob nocase ts (ch :: s)) by (intros ?%Hr; done).
  split.
  - rewrite IHr, glob_star_cons. tauto.
  - intros Hk' s' Hs H. apply (IHk Hk' s); [done|].
    apply (glob_star_suffix _ (ch :: s)) in H; [|done].
    apply glob_star_cons in H as [H|H]; done.
Qed.

Lemma match_loop_spec fuel p s nesting :
  (length p < fuel)%nat → s ≠ [] → nesting + stars (parse p) <= 1000 →
  outcome (parse p) s (match_loop fuel p s nocase false nesting).
Proof.
  revert p s nesting. induction fuel as [|fuel IH]; intros p s nesting Hf Hs Hn; [lia|].
  destruct s as [|ch s1]; [done|]. destruct p as [|c p1].
  { split; [|done]. split; [done|]. by intros ?%glob_nil_l. }
  cbn [match_loop]. simpl in Hf. destruct (decide (c = STAR)) as [->|Hc].
  - rewrite Z.eqb_refl. destruct (skip_dup_stars_spec p1) as (p' & -> & Hh & Hl & Hst & Hg).
    rewrite parse_star in Hn. simpl in Hn.
    assert (Hout : ∀ res, outcome (TStar :: parse p') (ch :: s1) res →
      outcome (parse (STAR :: p1)) (ch :: s1) res).
    { intros res [H1 H2]. split; [by rewrite Hg|]. intros Hk s' Hs'. rewrite Hg. auto. }
    apply Hout. rewrite zlen_cons. pose proof (zlen_nonneg p'). case_if.
    { rewrite (zlen_0_nil p') by lia. split; [|done]. split; [|done]. intros _.
      apply glob_star_iff. exists []. split; [apply suffix_nil|constructor]. }
    apply star_loop_spec.
    { rewrite glob_empty. destruct p' as [|c' p']; [change (zlen []) with 0 in *; lia|].
      cbn [drop_stars]. case_if; [|done]. by simplify_eq/=. }
    intros s' Hne Hs'. pose proof (stars_nonneg (parse p')). case_if; [lia|].
    apply IH; [simpl; lia|done|simpl; lia].
  - rewrite (proj2 (Z.eqb_neq c STAR) Hc).
    destruct (match_one_parse nocase c p1 ch Hc) as [Ht ->].
    pose proof (parse_one_len c p1) as Hpl. rewrite parse_cons in Hn |- *.
    destruct (parse_one c p1) as [t r]. simpl in *.
    assert (is_star t = false) as Hst by by destruct t. rewrite Hst in Hn.
    destruct (tok_match nocase t ch) eqn:Htm.
    2:{ split; [|done]. split; [done|]. rewrite glob_tok_iff by done.
        intros (? & ? & [= <- <-] & ? & _). congruence. }
    assert (Hstep : ∀ s', glob nocase (t :: parse r) (ch :: s') ↔ glob nocase (parse r) s').
    { intros s'. rewrite glob_tok_iff by done. naive_solver. }
    destruct s1 as [|ch' s1].
    { split; [|done]. rewrite Hstep, glob_empty. apply bool_decide_eq_true. }
    destruct (IH r (ch' :: s1) nesting) as [Hr Hk]; [lia|done|lia|].
    split; [by rewrite Hr, Hstep|]. intros Hk' s' Hs' H.
    apply (glob_tok_iff _ _ _ Ht) in H as (c'' & s'' & -> & _ & H).
    apply (Hk Hk' s''); [|done]. destruct Hs' as [[|x k] E]; simplify_eq/=; [done|].
    exists (k ++ [c'']). by rewrite <- app_assoc.
Qed.

End Spec.

(** ** Main theorems *)

Lemma stringmatchlen_glob nocase p s : s ≠ [] → stars (parse p) <= 1000 →
  stringmatchlen p s nocase = true ↔ glob nocase (parse p) s.
Proof.
  intros Hs Hn. unfold stringmatchlen, stringmatchlen_impl. case_if; [lia|].
  apply match_loop_spec; [lia|done|lia].
Qed.

(** (C29) [stringmatchlen] decides the reference semantics on every non-empty
    string, for patterns with at most 1000 stars: the early termination by
    [skipLongerMatches] and the collapsing of stars never change the result. *)
Theorem stringmatchlen_correct nocase p s :
  s ≠ [] → stars (parse p) <= 1000 →
  stringmatchlen p s nocase = true ↔ glob nocase (parse p) s.
Proof. apply stringmatchlen_glob. Qed.

(** On the empty string only the empty pattern matches: unlike in the
    reference semantics, ["*"] does not. *)
Theorem stringmatchlen_empty nocase p : stringmatchlen p [] nocase = bool_decide (p = []).
Proof. destruct p as [|c p]; [done|]. unfold stringmatchlen, stringmatchlen_impl. done. Qed.

Lemma glob_extend nocase ts s x :
  glob nocase (ts ++ [TStar]) s → glob nocase (ts ++ [TStar]) (s ++ x).
Proof.
  remember (ts ++ [TStar]) as ts' eqn:E. intros H. revert ts E.
  induction H as [|ts' s1 s2 H IH|t ts' ch s Ht Hm H IH]; intros ts E.
  - by destruct ts.
  - rewrite <- app_assoc. destruct ts as [|t ts]; simplify_eq/=.
    + apply glob_nil_l in H as ->. apply glob_star_iff. exists []. split; [|constructor].
      apply suffix_nil.
    + constructor. by eapply IH.
  - destruct ts as [|t' ts]; simplify_eq/=. by constructor; [done..|eapply IH].
Qed.

(** When the last token of the pattern is a star, a successful
    [prefixmatch] means that every string with that prefix matches. *)
Theorem prefixmatch_extends nocase p pre x :
  list.last (parse p) = Some TStar → pre ≠ [] → stars (parse p) <= 1000 →
  prefixmatch p pre nocase = true → stringmatchlen p (pre ++ x) nocase = true.
Proof.
  intros [ts Hl]%last_Some Hne Hn Hp.
  assert (stringmatchlen p pre nocase = true) as Hm.
  { unfold prefixmatch in Hp. unfold stringmatchlen. case_if; [done|]. done. }
  apply stringmatchlen_glob in Hm; [|done..].
  apply stringmatchlen_glob; [by destruct pre|done|]. rewrite Hl in *.
  by apply glob_extend.
Qed.

(** The test for a final unescaped star looks at bytes, not at tokens:
    inside an unterminated character class the star is a member of the class,
    so ["[ab*"] is reported to cover the prefix ["a"] although it does not
    match ["ax"]. *)
Theorem prefixmatch_open_class :
  prefixmatch (bytes_of_string "[ab*") (bytes_of_string "a") false = true ∧
  stringmatchlen (bytes_of_string "[ab*") (bytes_of_string "ax") false = false.
Proof. split; reflexivity. Qed.

Lemma stringmatchlen_correct_witness :
  stringmatchlen (bytes_of_string "a*c") (bytes_of_string "abbc") false = true ↔
  glob false (parse (bytes_of_string "a*c")) (bytes_of_string "abbc").
Proof.
  apply (stringmatchlen_correct false (bytes_of_string "a*c") (bytes_of_string "abbc")).
  - discriminate.
  - vm_compute. discriminate.
Defined.

Lemma prefixmatch_extends_witness :
  stringmatchlen (bytes_of_string "user:*") (bytes_of_string "user:" ++ bytes_of_string "42") false
  = true.
Proof.
  apply (prefixmatch_extends false (bytes_of_string "user:*") (bytes_of_string "user:")
    (bytes_of_string "42")).
  - reflexivity.
  - discriminate.
  - vm_compute. discriminate.
  - reflexivity.
Defined.

End Glob.
