(* ===== verification/Listpack.v ===== *)
(** * Listpacks: the operations ([src/redis-stable/src/listpack.c])

    A listpack is one allocation: a six byte header (total bytes, number of
    elements), the entries, each followed by its length in a form readable
    backwards, and a terminator byte.  A pointer into the listpack is an
    offset; [None] inside a result is the C [NULL], an outer [None] is an
    access outside the allocation or a failed [assert]. *)

From S2P Require Import Prelude Util.

Module Listpack.

Definition LP_HDR_SIZE : Z := 6.
Definition LP_HDR_NUMELE_UNKNOWN : Z := UINT16_MAX.
Definition LP_EOF : Z := 255.
Definition LP_INTBUF_SIZE : Z := 21.

(** The tests on the encoding byte. *)
Definition LP_ENCODING_IS_7BIT_UINT (b : Z) : bool := Z.land b 128 =? 0.
Definition LP_ENCODING_IS_6BIT_STR (b : Z) : bool := Z.land b 192 =? 128.
Definition LP_ENCODING_IS_13BIT_INT (b : Z) : bool := Z.land b 224 =? 192.
Definition LP_ENCODING_IS_12BIT_STR (b : Z) : bool := Z.land b 240 =? 224.
Definition LP_ENCODING_IS_16BIT_INT (b : Z) : bool := Z.land b 255 =? 241.
Definition LP_ENCODING_IS_24BIT_INT (b : Z) : bool := Z.land b 255 =? 242.
Definition LP_ENCODING_IS_32BIT_INT (b : Z) : bool := Z.land b 255 =? 243.
Definition LP_ENCODING_IS_64BIT_INT (b : Z) : bool := Z.land b 255 =? 244.
Definition LP_ENCODING_IS_32BIT_STR (b : Z) : bool := Z.land b 255 =? 240.

(** A store into an [unsigned char]. *)
Definition u8 (v : Z) : Z := uwrap 8 v.

(** Little-endian composition of the bytes at [p] as the macros write it. *)
Fixpoint or_bytes (bs : list Z) (shift : Z) : Z :=
  match bs with
  | [] => 0
  | [b] => Z.shiftl b shift
  | b :: bs => Z.lor (Z.shiftl b shift) (or_bytes bs (shift + 8))
  end.

(** ** Header access *)

Definition lpGetTotalBytes (lp : list Z) : option Z :=
  bs ← rd 0 4 lp; Some (or_bytes bs 0).

Definition lpGetNumElements (lp : list Z) : option Z :=
  bs ← rd 4 2 lp; Some (or_bytes bs 0).

Definition lpSetTotalBytes (lp : list Z) (v : Z) : option (list Z) :=
  wr 0 [Z.land v 255; Z.land (Z.shiftr v 8) 255; Z.land (Z.shiftr v 16) 255;
        Z.land (Z.shiftr v 24) 255] lp.

Definition lpSetNumElements (lp : list Z) (v : Z) : option (list Z) :=
  wr 4 [Z.land v 255; Z.land (Z.shiftr v 8) 255] lp.

Definition lpBytes (lp : list Z) : option Z := lpGetTotalBytes lp.

Definition LISTPACK_MAX_SAFETY_SIZE : Z := Z.shiftl 1 30.

Definition lpSafeToAdd (lp : option (list Z)) (add : Z) : option bool :=
  len ← match lp with Some lp => lpGetTotalBytes lp | None => Some 0 end;
  Some (negb (LISTPACK_MAX_SAFETY_SIZE <? uwrap 64 (len + add))).

(** ** Integer and length encodings *)

(** [while (plen < slen && p[0] >= '0' && p[0] <= '9')] *)
Fixpoint lpStringToInt64_loop (p : list Z) (v : Z) : option (Z * list Z) :=
  match p with
  | [] => Some (v, [])
  | c :: p' =>
      if (48 <=? c) && (c <=? 57) then
        if UINT64_MAX / 10 <? v then None
        else
          let v := v * 10 in
          if UINT64_MAX - (c - 48) <? v then None
          else lpStringToInt64_loop p' (v + (c - 48))
      else Some (v, p)
  end.

Definition lpStringToInt64 (s : list Z) : option Z :=
  if (zlen s =? 0) || (Util.LONG_STR_SIZE <=? zlen s) then None
  else if bool_decide (s = [48]) then Some 0
  else
    let negative := bool_decide (head s = Some 45) in
    let p := if negative then tail s else s in
    match p with
    | [] => None
    | c :: p' =>
        if (49 <=? c) && (c <=? 57) then
          '(v, rest) ← lpStringToInt64_loop p' (c - 48);
          match rest with
          | _ :: _ => None
          | [] =>
              if negative then
                if - (INT64_MIN + 1) + 1 <? v then None else Some (swrap 64 (- v))
              else if INT64_MAX <? v then None else Some v
          end
        else None
    end.

(** The bytes stored in [intenc]; their number is [enclen]. *)
Definition lpEncodeIntegerGetType (v : Z) : list Z :=
  if (0 <=? v) && (v <=? 127) then [u8 v]
  else if (-4096 <=? v) && (v <=? 4095) then
    let v := if v <? 0 then Z.shiftl 1 13 + v else v in
    [u8 (Z.lor (Z.shiftr v 8) 192); Z.land v 255]
  else if (-32768 <=? v) && (v <=? 32767) then
    let v := if v <? 0 then Z.shiftl 1 16 + v else v in
    [241; Z.land v 255; u8 (Z.shiftr v 8)]
  else if (-8388608 <=? v) && (v <=? 8388607) then
    let v := if v <? 0 then Z.shiftl 1 24 + v else v in
    [242; Z.land v 255; Z.land (Z.shiftr v 8) 255; u8 (Z.shiftr v 16)]
  else if (-2147483648 <=? v) && (v <=? 2147483647) then
    let v := if v <? 0 then Z.shiftl 1 32 + v else v in
    [243; Z.land v 255; Z.land (Z.shiftr v 8) 255; Z.land (Z.shiftr v 16) 255;
     u8 (Z.shiftr v 24)]
  else
    let uv := uwrap 64 v in
    [244; Z.land uv 255; Z.land (Z.shiftr uv 8) 255; Z.land (Z.shiftr uv 16) 255;
     Z.land (Z.shiftr uv 24) 255; Z.land (Z.shiftr uv 32) 255; Z.land (Z.shiftr uv 40) 255;
     Z.land (Z.shiftr uv 48) 255; u8 (Z.shiftr uv 56)].

(** [inl intenc] for LP_ENCODING_INT, [inr enclen] for LP_ENCODING_STRING. *)
Definition lpEncodeGetType (ele : list Z) : list Z + Z :=
  match lpStringToInt64 ele with
  | Some v => inl (lpEncodeIntegerGetType v)
  | None =>
      let size := zlen ele in
      inr (if size <? 64 then 1 + size else if size <? 4096 then 2 + size else 5 + size)
  end.

Definition lpEncodeBacklen (l : Z) : list Z :=
  if l <=? 127 then [u8 l]
  else if l <? 16383 then
    [u8 (Z.shiftr l 7); u8 (Z.lor (Z.land l 127) 128)]
  else if l <? 2097151 then
    [u8 (Z.shiftr l 14); u8 (Z.lor (Z.land (Z.shiftr l 7) 127) 128);
     u8 (Z.lor (Z.land l 127) 128)]
  else if l <? 268435455 then
    [u8 (Z.shiftr l 21); u8 (Z.lor (Z.land (Z.shiftr l 14) 127) 128);
     u8 (Z.lor (Z.land (Z.shiftr l 7) 127) 128); u8 (Z.lor (Z.land l 127) 128)]
  else
    [u8 (Z.shiftr l 28); u8 (Z.lor (Z.land (Z.shiftr l 21) 127) 128);
     u8 (Z.lor (Z.land (Z.shiftr l 14) 127) 128);
     u8 (Z.lor (Z.land (Z.shiftr l 7) 127) 128); u8 (Z.lor (Z.land l 127) 128)].

Definition lpEncodeBacklenBytes (l : Z) : Z :=
  if l <=? 127 then 1
  else if l <? 16383 then 2
  else if l <? 2097151 then 3
  else if l <? 268435455 then 4
  else 5.

(** The [do ... while(1)] loop; it stops after five bytes. *)
Fixpoint decode_backlen_loop (fuel : nat) (lp : list Z) (p val shift : Z) : option Z :=
  match fuel with
  | O => None
  | S fuel =>
      b ← byte_at p lp;
      let val := Z.lor val (Z.shiftl (Z.land b 127) shift) in
      if Z.land b 128 =? 0 then Some val
      else
        let shift := shift + 7 in
        if 28 <? shift then Some UINT64_MAX
        else decode_backlen_loop fuel lp (p - 1) val shift
  end.
Definition lpDecodeBacklen (lp : list Z) (p : Z) : option Z :=
  decode_backlen_loop 5 lp p 0 0.

(** The bytes [lpEncodeString] stores at [buf]. *)
Definition lpEncodeString (s : list Z) : list Z :=
  let len := zlen s in
  if len <? 64 then [u8 (Z.lor len 128)] ++ s
  else if len <? 4096 then [u8 (Z.lor (Z.shiftr len 8) 224); Z.land len 255] ++ s
  else [240; Z.land len 255; Z.land (Z.shiftr len 8) 255; Z.land (Z.shiftr len 16) 255;
        Z.land (Z.shiftr len 24) 255] ++ s.

Definition LP_ENCODING_6BIT_STR_LEN (b : Z) : Z := Z.land b 63.
Definition LP_ENCODING_12BIT_STR_LEN (lp : list Z) (p : Z) : option Z :=
  b ← byte_at p lp; b1 ← byte_at (p + 1) lp; Some (Z.lor (Z.shiftl (Z.land b 15) 8) b1).
Definition LP_ENCODING_32BIT_STR_LEN (lp : list Z) (p : Z) : option Z :=
  bs ← rd (p + 1) 4 lp; Some (or_bytes bs 0).

(** The result is a [uint32_t]. *)
Definition lpCurrentEncodedSizeUnsafe (lp : list Z) (p : Z) : option Z :=
  b ← byte_at p lp;
  if LP_ENCODING_IS_7BIT_UINT b then Some 1
  else if LP_ENCODING_IS_6BIT_STR b then Some (1 + LP_ENCODING_6BIT_STR_LEN b)
  else if LP_ENCODING_IS_13BIT_INT b then Some 2
  else if LP_ENCODING_IS_16BIT_INT b then Some 3
  else if LP_ENCODING_IS_24BIT_INT b then Some 4
  else if LP_ENCODING_IS_32BIT_INT b then Some 5
  else if LP_ENCODING_IS_64BIT_INT b then Some 9
  else if LP_ENCODING_IS_12BIT_STR b then n ← LP_ENCODING_12BIT_STR_LEN lp p; Some (2 + n)
  else if LP_ENCODING_IS_32BIT_STR b then
    n ← LP_ENCODING_32BIT_STR_LEN lp p; Some (uwrap 32 (5 + n))
  else if b =? LP_EOF then Some 1
  else Some 0.

Definition lpCurrentEncodedSizeBytes (b : Z) : Z :=
  if LP_ENCODING_IS_7BIT_UINT b then 1
  else if LP_ENCODING_IS_6BIT_STR b then 1
  else if LP_ENCODING_IS_13BIT_INT b then 1
  else if LP_ENCODING_IS_16BIT_INT b then 1
  else if LP_ENCODING_IS_24BIT_INT b then 1
  else if LP_ENCODING_IS_32BIT_INT b then 1
  else if LP_ENCODING_IS_64BIT_INT b then 1
  else if LP_ENCODING_IS_12BIT_STR b then 2
  else if LP_ENCODING_IS_32BIT_STR b then 5
  else if b =? LP_EOF then 1
  else 0.

(** ** Validation and traversal *)

Definition out_of_range (p lpbytes : Z) : bool := (p <? LP_HDR_SIZE) || (lpbytes - 1 <? p).

(** [Some (Some pp)]: valid, with the new value of [*pp] ([None] at the
    terminator); [Some None]: the function returns 0. *)
Definition lpValidateNext (lp : list Z) (pp : option Z) (lpbytes : Z)
  : option (option (option Z)) :=
  match pp with
  | None => Some None
  | Some p =>
      if out_of_range p lpbytes then Some None
      else
        b ← byte_at p lp;
        if b =? LP_EOF then Some (Some None)
        else
          let lenbytes := lpCurrentEncodedSizeBytes b in
          if lenbytes =? 0 then Some None
          else if out_of_range (p + lenbytes) lpbytes then Some None
          else
            entrylen ← lpCurrentEncodedSizeUnsafe lp p;
            let encodedBacklen := lpEncodeBacklenBytes entrylen in
            let entrylen := entrylen + encodedBacklen in
            if out_of_range (p + entrylen) lpbytes then Some None
            else
              let p := p + entrylen in
              prevlen ← lpDecodeBacklen lp (p - 1);
              if negb (uwrap 64 (prevlen + encodedBacklen) =? entrylen) then Some None
              else Some (Some (Some p))
  end.

Definition lpAssertValidEntry (lp : list Z) (lpbytes p : Z) : option unit :=
  r ← lpValidateNext lp (Some p) lpbytes;
  match r with Some _ => Some tt | None => None end.

Definition lpSkip (lp : list Z) (p : Z) : option Z :=
  entrylen ← lpCurrentEncodedSizeUnsafe lp p;
  let entrylen := entrylen + lpEncodeBacklenBytes entrylen in
  Some (p + entrylen).

Definition lpNextWithBytes (lp : list Z) (p lpbytes : Z) : option (option Z) :=
  p ← lpSkip lp p;
  b ← byte_at p lp;
  if b =? LP_EOF then Some None
  else _ ← lpAssertValidEntry lp lpbytes p; Some (Some p).

Definition lpNext (lp : list Z) (p : Z) : option (option Z) :=
  p ← lpSkip lp p;
  b ← byte_at p lp;
  if b =? LP_EOF then Some None
  else n ← lpBytes lp; _ ← lpAssertValidEntry lp n p; Some (Some p).

Definition lpPrev (lp : list Z) (p : Z) : option (option Z) :=
  if p =? LP_HDR_SIZE then Some None
  else
    let p := p - 1 in
    prevlen ← lpDecodeBacklen lp p;
    let prevlen := uwrap 64 (prevlen + lpEncodeBacklenBytes prevlen) in
    let p := p - (prevlen - 1) in
    n ← lpBytes lp; _ ← lpAssertValidEntry lp n p; Some (Some p).

Definition lpFirst (lp : list Z) : option (option Z) :=
  let p := LP_HDR_SIZE in
  b ← byte_at p lp;
  if b =? LP_EOF then Some None
  else n ← lpBytes lp; _ ← lpAssertValidEntry lp n p; Some (Some p).

Definition lpLast (lp : list Z) : option (option Z) :=
  n ← lpGetTotalBytes lp;
  let p := n - 1 in
  lpPrev lp p.

(** [while(p) { count++; p = lpNext(lp,p); }] *)
Fixpoint length_loop (fuel : nat) (lp : list Z) (p : option Z) (count : Z) : option Z :=
  match fuel with
  | O => None
  | S fuel =>
      match p with
      | None => Some count
      | Some p => p ← lpNext lp p; length_loop fuel lp p (uwrap 32 (count + 1))
      end
  end.

(** Returns the count and the listpack, whose header may be updated. *)
Definition lpLength (lp : list Z) : option (Z * list Z) :=
  numele ← lpGetNumElements lp;
  if negb (numele =? LP_HDR_NUMELE_UNKNOWN) then Some (numele, lp)
  else
    p ← lpFirst lp;
    count ← length_loop (S (length lp)) lp p 0;
    if count <? LP_HDR_NUMELE_UNKNOWN then
      lp ← lpSetNumElements lp count; Some (count, lp)
    else Some (count, lp).

(** [while (index > 0 && ele) { ele = lpNext(lp,ele); index--; }] *)
Fixpoint seek_forward (index : nat) (lp : list Z) (ele : option Z) : option (option Z) :=
  match index, ele with
  | S index, Some p => ele ← lpNext lp p; seek_forward index lp ele
  | _, _ => Some ele
  end.

(** [while (index < -1 && ele) { ele = lpPrev(lp,ele); index++; }]; [index]
    counts the steps. *)
Fixpoint seek_backward (index : nat) (lp : list Z) (ele : option Z) : option (option Z) :=
  match index, ele with
  | S index, Some p => ele ← lpPrev lp p; seek_backward index lp ele
  | _, _ => Some ele
  end.

Definition lpSeek (lp : list Z) (index : Z) : option (option Z) :=
  numele ← lpGetNumElements lp;
  let scan (forward : bool) (index : Z) :=
    if forward then ele ← lpFirst lp; seek_forward (Z.to_nat index) lp ele
    else ele ← lpLast lp; seek_backward (Z.to_nat (- index - 1)) lp ele in
  if negb (numele =? LP_HDR_NUMELE_UNKNOWN) then
    let index := if index <? 0 then numele + index else index in
    if index <? 0 then Some None
    else if numele <=? index then Some None
    else if Z.quot numele 2 <? index then scan false (index - numele)
    else scan true index
  else scan (negb (index <? 0)) index.

Definition lpValidateFirst (lp : list Z) : option (option Z) :=
  let p := LP_HDR_SIZE in
  b ← byte_at p lp;
  Some (if b =? LP_EOF then None else Some p).

(** [while(p && p[0] != LP_EOF) { ... }]; the result is [None] inside when the
    function returns 0, else the final [p] and [count]. *)
Fixpoint validate_loop (fuel : nat) (entry_cb : option (Z → Z → bool)) (numele : Z)
    (lp : list Z) (p : option Z) (bytes count : Z) : option (option (option Z * Z)) :=
  match fuel with
  | O => None
  | S fuel =>
      match p with
      | None => Some (Some (None, count))
      | Some prev =>
          b ← byte_at prev lp;
          if b =? LP_EOF then Some (Some (Some prev, count))
          else
            r ← lpValidateNext lp (Some prev) bytes;
            match r with
            | None => Some None
            | Some p =>
                if match entry_cb with Some cb => negb (cb prev numele) | None => false end
                then Some None
                else validate_loop fuel entry_cb numele lp p bytes (uwrap 32 (count + 1))
            end
      end
  end.

Definition lpValidateIntegrity (entry_cb : option (Z → Z → bool)) (lp : list Z)
    (size : Z) (deep : bool) : option bool :=
  if size <? LP_HDR_SIZE + 1 then Some false
  else
    bytes ← lpGetTotalBytes lp;
    if negb (bytes =? size) then Some false
    else
      e ← byte_at (size - 1) lp;
      if negb (e =? LP_EOF) then Some false
      else if negb deep then Some true
      else
        numele ← lpGetNumElements lp;
        r ← validate_loop (S (length lp)) entry_cb numele lp (Some LP_HDR_SIZE) bytes 0;
        match r with
        | None => Some false
        | Some (p, count) =>
            if negb (bool_decide (p = Some (size - 1))) then Some false
            else if negb (numele =? LP_HDR_NUMELE_UNKNOWN) && negb (numele =? count)
            then Some false
            else Some true
        end.

End Listpack.
