(* ===== verification/ListpackRepr.v ===== *)
(** * Listpacks: representation and traversal

    The encoding lemmas, the representation predicate [repr] that relates an
    allocation to the sequence of its encoded entries, and the theorems about
    reading a listpack: header, traversal in both directions, seeking,
    counting and validation. *)

From S2P Require Import Prelude Util Listpack.

Module ListpackRepr.
Import Listpack.

(** ** Bytes *)

(** The encoding byte classified by value. *)
Lemma class_byte b :
  is_byte b →
  LP_ENCODING_IS_7BIT_UINT b = (b <? 128) ∧
  LP_ENCODING_IS_6BIT_STR b = (128 <=? b) && (b <? 192) ∧
  LP_ENCODING_IS_13BIT_INT b = (192 <=? b) && (b <? 224) ∧
  LP_ENCODING_IS_12BIT_STR b = (224 <=? b) && (b <? 240) ∧
  LP_ENCODING_IS_32BIT_STR b = (b =? 240) ∧
  LP_ENCODING_IS_16BIT_INT b = (b =? 241) ∧
  LP_ENCODING_IS_24BIT_INT b = (b =? 242) ∧
  LP_ENCODING_IS_32BIT_INT b = (b =? 243) ∧
  LP_ENCODING_IS_64BIT_INT b = (b =? 244).
Proof.
  intros Hb. pose proof (byte_enum (λ b,
    eqb (LP_ENCODING_IS_7BIT_UINT b) (b <? 128) &&
    eqb (LP_ENCODING_IS_6BIT_STR b) ((128 <=? b) && (b <? 192)) &&
    eqb (LP_ENCODING_IS_13BIT_INT b) ((192 <=? b) && (b <? 224)) &&
    eqb (LP_ENCODING_IS_12BIT_STR b) ((224 <=? b) && (b <? 240)) &&
    eqb (LP_ENCODING_IS_32BIT_STR b) (b =? 240) &&
    eqb (LP_ENCODING_IS_16BIT_INT b) (b =? 241) &&
    eqb (LP_ENCODING_IS_24BIT_INT b) (b =? 242) &&
    eqb (LP_ENCODING_IS_32BIT_INT b) (b =? 243) &&
    eqb (LP_ENCODING_IS_64BIT_INT b) (b =? 244)) ltac:(vm_compute; reflexivity) b Hb) as H.
  rewrite !andb_true_iff, !eqb_true_iff in H. tauto.
Qed.

Lemma low_bits b :
  is_byte b →
  (Z.land b 128 =? 0) = (b <? 128) ∧ Z.land b 63 = b mod 64 ∧ Z.land b 15 = b mod 16 ∧
  Z.land b 31 = b mod 32.
Proof.
  intros Hb. pose proof (byte_enum (λ b, eqb (Z.land b 128 =? 0) (b <? 128) &&
    (Z.land b 63 =? b mod 64) && (Z.land b 15 =? b mod 16) && (Z.land b 31 =? b mod 32))
    ltac:(vm_compute; reflexivity) b Hb) as H.
  rewrite !andb_true_iff, !eqb_true_iff, !Z.eqb_eq in H. tauto.
Qed.

(** Tagging small values. *)
Lemma lor_tags x :
  (0 <= x < 128 → Z.lor x 128 = x + 128) ∧ (0 <= x < 32 → Z.lor x 192 = x + 192) ∧
  (0 <= x < 16 → Z.lor x 224 = x + 224).
Proof.
  destruct (decide (0 <= x < 128)) as [Hx|]; [|split_and!; intros; lia].
  pose proof (byte_enum (λ x, implb (x <? 128) (Z.lor x 128 =? x + 128) &&
    implb (x <? 32) (Z.lor x 192 =? x + 192) && implb (x <? 16) (Z.lor x 224 =? x + 224))
    ltac:(vm_compute; reflexivity) x ltac:(unfold is_byte; lia)) as H.
  rewrite !andb_true_iff, !implb_true_iff, !Z.eqb_eq, !Z.ltb_lt in H.
  destruct H as [[? ?] ?]. split_and!; intros; [|auto with lia..]; lia.
Qed.

Lemma u8_id v : 0 <= v < 256 → u8 v = v.
Proof. intros. apply (uwrap_id 8). simpl. lia. Qed.

Lemma or_bytes_val bs s : 0 <= s → wf_bytes bs → or_bytes bs s = le_val bs * 2 ^ s.
Proof.
  intros Hs Hb. revert s Hs. induction Hb as [|b bs Hb Hbs IH]; intros s Hs; [done|].
  unfold is_byte in Hb. assert (0 < 2 ^ s) by (apply Z.pow_pos_nonneg; lia).
  destruct bs as [|b' bs].
  { simpl. rewrite Z.shiftl_mul_pow2 by done. f_equal. lia. }
  change (or_bytes (b :: b' :: bs) s) with
    (Z.lor (Z.shiftl b s) (or_bytes (b' :: bs) (s + 8))).
  rewrite IH by lia. set (v := le_val (b' :: bs)).
  change (le_val (b :: b' :: bs)) with (b + 256 * v).
  replace (v * 2 ^ (s + 8)) with (Z.shiftl (v * 256) s).
  - rewrite <- Z.shiftl_lor. rewrite Z.shiftl_mul_pow2 by done. f_equal.
    replace (v * 256) with (Z.shiftl v 8) by (rewrite Z.shiftl_mul_pow2; lia).
    rewrite lor_shiftl by lia. change (2 ^ 8) with 256. lia.
  - rewrite Z.shiftl_mul_pow2, Z.pow_add_r by lia. change (2 ^ 8) with 256. lia.
Qed.

(** The byte stores of the header macros are little-endian. *)
Lemma store32 v :
  [Z.land v 255; Z.land (Z.shiftr v 8) 255; Z.land (Z.shiftr v 16) 255;
   Z.land (Z.shiftr v 24) 255] = le_bytes 4 v.
Proof.
  rewrite !land_255, !shiftr_div by lia. cbv [le_bytes].
  rewrite !Z.div_div by lia. done.
Qed.

Lemma store16 v : [Z.land v 255; Z.land (Z.shiftr v 8) 255] = le_bytes 2 v.
Proof. rewrite !land_255, !shiftr_div by lia. done. Qed.

(** ** Backward lengths *)

Lemma backlen_len l : zlen (lpEncodeBacklen l) = lpEncodeBacklenBytes l.
Proof. unfold lpEncodeBacklen, lpEncodeBacklenBytes. by repeat case_if. Qed.

Lemma backlen_bytes_range l : 1 <= lpEncodeBacklenBytes l <= 5.
Proof. unfold lpEncodeBacklenBytes. repeat case_if; lia. Qed.

(** The bytes of a backward length: a first byte without flag, then groups of
    seven bits with the flag set. *)
Definition group (x : Z) : Z := x mod 128 + 128.

Lemma group_eq x : u8 (Z.lor (Z.land x 127) 128) = group x.
Proof.
  rewrite land_127. pose proof (Z.mod_pos_bound x 128 ltac:(lia)).
  rewrite (proj1 (lor_tags (x mod 128))) by lia. unfold group. rewrite u8_id; lia.
Qed.

Lemma decode_group lp p x val shift fuel :
  byte_at p lp = Some (group x) → 0 <= shift → 0 <= val < 2 ^ shift → shift + 7 <= 28 →
  decode_backlen_loop (S fuel) lp p val shift =
  decode_backlen_loop fuel lp (p - 1) (val + (x mod 128) * 2 ^ shift) (shift + 7).
Proof.
  intros Hb Hs Hv H28. cbn [decode_backlen_loop]. rewrite Hb. cbn [mbind option_bind].
  unfold group. pose proof (Z.mod_pos_bound x 128 ltac:(lia)).
  assert (is_byte (x mod 128 + 128)) as Hby by (unfold is_byte; lia).
  rewrite (proj1 (low_bits _ Hby)). rewrite land_127, Zplus_mod_idemp_l.
  replace ((x + 128) mod 128) with (x mod 128).
  2:{ rewrite <- (Z.mul_1_l 128) at 2. by rewrite Z.mod_add. }
  rewrite lor_shiftl by done. case_if; [lia|]. case_if; [lia|]. done.
Qed.

Lemma decode_last lp p x val shift fuel :
  byte_at p lp = Some x → 0 <= x < 128 → 0 <= shift → 0 <= val < 2 ^ shift →
  decode_backlen_loop (S fuel) lp p val shift = Some (val + x * 2 ^ shift).
Proof.
  intros Hb Hx Hs Hv. cbn [decode_backlen_loop]. rewrite Hb. cbn [mbind option_bind].
  assert (is_byte x) as Hby by (unfold is_byte; lia).
  rewrite (proj1 (low_bits _ Hby)), land_127, Z.mod_small, lor_shiftl by done.
  by case_if; [|lia].
Qed.

(** Reading byte [k] of the length stored after [pre]. *)
Lemma backlen_byte (pre bl post : list Z) p k b :
  p = zlen pre + Z.of_nat k → bl !! k = Some b → byte_at p (pre ++ bl ++ post) = Some b.
Proof.
  intros -> Hk. pose proof (lookup_lt_Some _ _ _ Hk). rewrite byte_at_inside.
  - unfold byte_at. case_if; [|lia]. by rewrite Nat2Z.id.
  - unfold zlen. lia.
Qed.

Ltac bl_byte := solve [apply (backlen_byte _ _ _ _ 0); [lia|done]
  | apply (backlen_byte _ _ _ _ 1); [lia|done] | apply (backlen_byte _ _ _ _ 2); [lia|done]
  | apply (backlen_byte _ _ _ _ 3); [lia|done] | apply (backlen_byte _ _ _ _ 4); [lia|done]].

(** The length in [lpEncodeBacklen] form is read back from its last byte. *)
Lemma decode_backlen pre l post :
  0 <= l <= UINT32_MAX →
  lpDecodeBacklen (pre ++ lpEncodeBacklen l ++ post)
    (zlen pre + zlen (lpEncodeBacklen l) - 1) = Some l.
Proof.
  unfold UINT32_MAX. intros Hl. unfold lpDecodeBacklen, lpEncodeBacklen.
  rewrite !group_eq, !shiftr_div by lia.
  repeat case_if; rewrite u8_id by dlia;
    (match goal with |- context [_ + zlen ?bl - 1] =>
       let n := eval cbv [length] in (length bl) in
       change (zlen bl) with (Z.of_nat n) end);
    [ rewrite (decode_last _ _ l)
    | rewrite (decode_group _ _ l), (decode_last _ _ (l / 2 ^ 7))
    | rewrite (decode_group _ _ l), (decode_group _ _ (l / 2 ^ 7)),
        (decode_last _ _ (l / 2 ^ 14))
    | rewrite (decode_group _ _ l), (decode_group _ _ (l / 2 ^ 7)),
        (decode_group _ _ (l / 2 ^ 14)), (decode_last _ _ (l / 2 ^ 21))
    | rewrite (decode_group _ _ l), (decode_group _ _ (l / 2 ^ 7)),
        (decode_group _ _ (l / 2 ^ 14)), (decode_group _ _ (l / 2 ^ 21)),
        (decode_last _ _ (l / 2 ^ 28)) ]; try bl_byte; try (f_equal; dlia); try dlia.
Qed.

(** ** The representation *)

(** An encoded element: its encoding byte announces exactly its length. *)
Definition valid_enc (e : list Z) : Prop :=
  wf_bytes e ∧ lpCurrentEncodedSizeUnsafe e 0 = Some (zlen e) ∧ head e ≠ Some LP_EOF.

Definition entry (e : list Z) : list Z := e ++ lpEncodeBacklen (zlen e).
Definition body (es : list (list Z)) : list Z := mjoin (entry <$> es).

(** The value of the total-bytes header field, and the offset of the entry
    that follows the entries [l]. *)
Definition total (es : list (list Z)) : Z := LP_HDR_SIZE + zlen (body es) + 1.
Definition pos (l : list (list Z)) : Z := LP_HDR_SIZE + zlen (body l).

Definition header (n num : Z) : list Z := le_bytes 4 n ++ le_bytes 2 num.
Definition image (num : Z) (es : list (list Z)) (slack : list Z) : list Z :=
  header (total es) num ++ body es ++ [LP_EOF] ++ slack.

Definition num_ok (num : Z) (es : list (list Z)) : Prop :=
  num = LP_HDR_NUMELE_UNKNOWN ∨ num = zlen es ∧ zlen es < LP_HDR_NUMELE_UNKNOWN.

(** [lp] holds the entries [es]; the allocation may be larger than needed. *)
Definition repr (lp : list Z) (es : list (list Z)) : Prop :=
  ∃ num slack, lp = image num es slack ∧ num_ok num es ∧ Forall valid_enc es ∧
    total es <= UINT32_MAX ∧ wf_bytes slack.

(** The pointer to entry [i], NULL past the end. *)
Definition ptr (es : list (list Z)) (i : nat) : option Z :=
  if decide (i < length es)%nat then Some (pos (take i es)) else None.

Lemma body_app l r : body (l ++ r) = body l ++ body r.
Proof. unfold body. by rewrite fmap_app, join_app. Qed.
Lemma body_cons e r : body (e :: r) = entry e ++ body r.
Proof. done. Qed.
Lemma zlen_entry e : zlen (entry e) = zlen e + lpEncodeBacklenBytes (zlen e).
Proof. unfold entry. by rewrite zlen_app, backlen_len. Qed.
Lemma header_len n num : zlen (header n num) = 6.
Proof. unfold header. by rewrite zlen_app, !le_bytes_zlen. Qed.
Lemma pos_snoc l e : pos (l ++ [e]) = pos l + zlen (entry e).
Proof. unfold pos. rewrite body_app, zlen_app, body_cons, app_nil_r. lia. Qed.
Lemma image_len num es slack : zlen (image num es slack) = total es + zlen slack.
Proof. unfold image, total, LP_HDR_SIZE. rewrite !zlen_app, header_len, zlen_cons, zlen_nil. lia. Qed.

Lemma valid_enc_pos e : valid_enc e → 1 <= zlen e.
Proof.
  intros (_ & H & _). destruct e; [done|]. rewrite zlen_cons.
  pose proof (zlen_nonneg e). lia.
Qed.

Lemma byte_at_app (p s q : list Z) i b :
  byte_at i s = Some b → byte_at (zlen p + i) (p ++ s ++ q) = Some b.
Proof. intros H. rewrite byte_at_inside; [done|]. by eapply byte_at_lt. Qed.

Lemma rd_app_in (p s q : list Z) i n r :
  rd i n s = Some r → rd (zlen p + i) n (p ++ s ++ q) = Some r.
Proof. intros H. pose proof H as (?&?&?&_)%rd_Some. by rewrite rd_inside. Qed.

(** The encoded size only depends on the bytes of the element. *)
Lemma size_local p s q n :
  lpCurrentEncodedSizeUnsafe s 0 = Some n →
  lpCurrentEncodedSizeUnsafe (p ++ s ++ q) (zlen p) = Some n.
Proof.
  unfold lpCurrentEncodedSizeUnsafe, LP_ENCODING_12BIT_STR_LEN, LP_ENCODING_32BIT_STR_LEN.
  destruct (byte_at 0 s) as [b|] eqn:Hb; [|done].
  pose proof (byte_at_app p s q 0 b Hb) as Hb'. rewrite Z.add_0_r in Hb'. rewrite Hb'.
  cbn [mbind option_bind]. repeat case_if; try done.
  - change (0 + 1) with 1. destruct (byte_at 1 s) as [b1|] eqn:H1; [|done].
    by rewrite (byte_at_app p s q 1 b1 H1).
  - change (0 + 1) with 1. destruct (rd 1 4 s) as [r|] eqn:H1; [|done].
    by rewrite (rd_app_in p s q 1 4 r H1).
Qed.

(** The bytes needed to know the size are bytes of the element. *)
Lemma lenbytes_le e b :
  valid_enc e → byte_at 0 e = Some b → 1 <= lpCurrentEncodedSizeBytes b <= zlen e.
Proof.
  intros (Hwf & Hs & Hne) Hb. pose proof (byte_at_lt _ _ _ Hb).
  revert Hs. unfold lpCurrentEncodedSizeUnsafe, lpCurrentEncodedSizeBytes.
  rewrite Hb. cbn [mbind option_bind]. repeat case_if; intros Hs; simplify_eq; try lia.
  - unfold LP_ENCODING_12BIT_STR_LEN in Hs. rewrite Hb in Hs. cbn [mbind option_bind] in Hs.
    destruct (byte_at (0 + 1) e) eqn:H1; [|done]. apply byte_at_lt in H1. lia.
  - unfold LP_ENCODING_32BIT_STR_LEN in Hs.
    destruct (rd (0 + 1) 4 e) eqn:H1; [|done]. apply rd_Some in H1. lia.
Qed.

Lemma valid_head e : valid_enc e → ∃ b, byte_at 0 e = Some b ∧ b ≠ LP_EOF.
Proof.
  intros He. pose proof (valid_enc_pos e He). destruct He as (_ & _ & Hh).
  destruct (byte_at_in 0 e) as [b Hb]; [lia|]. exists b. split; [done|].
  intros ->. apply Hh. by destruct e.
Qed.

(** ** Reading a represented listpack *)

(** Header fields of a buffer. *)
Lemma get_total_header n num rest :
  0 <= n <= UINT32_MAX → lpGetTotalBytes (header n num ++ rest) = Some n.
Proof.
  unfold UINT32_MAX. intros Hn. unfold lpGetTotalBytes, header. rewrite <- !app_assoc.
  rewrite (rd_head (le_bytes 4 _)) by (rewrite ?le_bytes_zlen; done). cbn [mbind option_bind].
  rewrite or_bytes_val, le_val_bytes by auto using le_bytes_wf with lia.
  f_equal. rewrite Z.mul_1_r. apply Z.mod_small. change (256 ^ Z.of_nat 4) with 4294967296. lia.
Qed.

Lemma get_num_header n num rest :
  0 <= num <= UINT16_MAX → lpGetNumElements (header n num ++ rest) = Some num.
Proof.
  unfold UINT16_MAX. intros Hn. unfold lpGetNumElements, header. rewrite <- !app_assoc.
  rewrite (rd_at (le_bytes 4 _) (le_bytes 2 _)) by (rewrite ?le_bytes_zlen; done).
  cbn [mbind option_bind].
  rewrite or_bytes_val, le_val_bytes by auto using le_bytes_wf with lia.
  f_equal. rewrite Z.mul_1_r. apply Z.mod_small. change (256 ^ Z.of_nat 2) with 65536. lia.
Qed.

Lemma set_num_header n num m rest :
  lpSetNumElements (header n num ++ rest) m = Some (header n m ++ rest).
Proof.
  unfold lpSetNumElements, header. rewrite store16, <- !app_assoc.
  rewrite (wr_at (le_bytes 4 _) (le_bytes 2 num)) by by rewrite !le_bytes_zlen. done.
Qed.

Lemma set_total_header n num m rest :
  lpSetTotalBytes (header n num ++ rest) m = Some (header m num ++ rest).
Proof.
  unfold lpSetTotalBytes, header. rewrite store32, <- !app_assoc.
  rewrite (wr_head (le_bytes 4 _)) by by rewrite !le_bytes_zlen. done.
Qed.

Lemma total_nonneg es : 7 <= total es.
Proof. unfold total, LP_HDR_SIZE. pose proof (zlen_nonneg (body es)). lia. Qed.

Lemma total_bytes_image num es slack :
  total es <= UINT32_MAX → lpGetTotalBytes (image num es slack) = Some (total es).
Proof. intros. pose proof (total_nonneg es). apply get_total_header. lia. Qed.

Lemma num_elements_image num es slack :
  0 <= num <= UINT16_MAX → lpGetNumElements (image num es slack) = Some num.
Proof. apply get_num_header. Qed.

Lemma image_split num l e r slack :
  image num (l ++ e :: r) slack =
  (header (total (l ++ e :: r)) num ++ body l) ++ e ++
  (lpEncodeBacklen (zlen e) ++ body r ++ [LP_EOF] ++ slack).
Proof. unfold image. rewrite body_app, body_cons. unfold entry. by rewrite <- !app_assoc. Qed.

Lemma pos_header n num l : zlen (header n num ++ body l) = pos l.
Proof. by rewrite zlen_app, header_len. Qed.

Lemma pos_range l : LP_HDR_SIZE <= pos l.
Proof. unfold pos. pose proof (zlen_nonneg (body l)). lia. Qed.

Lemma total_split l e r :
  total (l ++ e :: r) = pos l + zlen e + lpEncodeBacklenBytes (zlen e) + zlen (body r) + 1.
Proof. unfold total, pos. rewrite body_app, body_cons, !zlen_app, zlen_entry. lia. Qed.

Lemma pos_snoc' l e : pos (l ++ [e]) = pos l + zlen e + lpEncodeBacklenBytes (zlen e).
Proof. rewrite pos_snoc, zlen_entry. lia. Qed.

Section At.
Context (num : Z) (l : list (list Z)) (e : list Z) (r : list (list Z)) (slack : list Z).
Context (He : valid_enc e) (Ht : total (l ++ e :: r) <= UINT32_MAX).
Let lp := image num (l ++ e :: r) slack.

Lemma size_at : lpCurrentEncodedSizeUnsafe lp (pos l) = Some (zlen e).
Proof using He.
  unfold lp. rewrite image_split, <- (pos_header (total (l ++ e :: r)) num).
  apply size_local, He.
Qed.

Lemma head_at : ∃ b, byte_at (pos l) lp = Some b ∧ byte_at 0 e = Some b ∧ b ≠ LP_EOF.
Proof using He.
  destruct (valid_head e He) as (b & Hb & Hne). exists b. split; [|done].
  unfold lp. rewrite image_split, <- (pos_header (total (l ++ e :: r)) num).
  rewrite <- (Z.add_0_r (zlen _)). by apply byte_at_app.
Qed.

Lemma skip_at : lpSkip lp (pos l) = Some (pos (l ++ [e])).
Proof using He.
  unfold lpSkip. rewrite size_at. cbn [mbind option_bind]. rewrite pos_snoc'. f_equal. lia.
Qed.

Lemma entry_len_range : 1 <= zlen e <= UINT32_MAX.
Proof using He Ht.
  pose proof (valid_enc_pos e He). rewrite total_split in Ht.
  pose proof (pos_range l). pose proof (backlen_bytes_range (zlen e)).
  pose proof (zlen_nonneg (body r)). unfold LP_HDR_SIZE in *. lia.
Qed.

Lemma backlen_at : lpDecodeBacklen lp (pos (l ++ [e]) - 1) = Some (zlen e).
Proof using He Ht.
  unfold lp. rewrite image_split, (app_assoc (_ ++ _) e).
  pose proof (decode_backlen ((header (total (l ++ e :: r)) num ++ body l) ++ e) (zlen e)
    (body r ++ [LP_EOF] ++ slack)) as D.
  rewrite backlen_len, zlen_app, pos_header, <- pos_snoc' in D.
  apply D. pose proof entry_len_range. lia.
Qed.

Lemma validate_at :
  lpValidateNext lp (Some (pos l)) (total (l ++ e :: r)) = Some (Some (Some (pos (l ++ [e])))).
Proof using He Ht.
  destruct head_at as (b & Hb & Hb0 & Hne). pose proof (lenbytes_le e b He Hb0).
  pose proof entry_len_range. pose proof (backlen_bytes_range (zlen e)).
  pose proof (pos_range l). pose proof (zlen_nonneg (body r)).
  pose proof (total_split l e r). pose proof (pos_snoc' l e).
  unfold lpValidateNext, out_of_range. rewrite Hb. cbn [mbind option_bind].
  rewrite size_at. cbn [mbind option_bind].
  replace (pos l + (zlen e + lpEncodeBacklenBytes (zlen e))) with (pos (l ++ [e])) by lia.
  rewrite backlen_at. cbn [mbind option_bind].
  rewrite (uwrap_id 64) by (unfold UINT32_MAX in *; lia).
  repeat case_if; try lia; done.
Qed.

Lemma assert_valid_at : lpAssertValidEntry lp (total (l ++ e :: r)) (pos l) = Some tt.
Proof using He Ht. unfold lpAssertValidEntry. by rewrite validate_at. Qed.

Lemma prev_at : lpPrev lp (pos (l ++ [e])) = Some (Some (pos l)).
Proof using He Ht.
  pose proof entry_len_range. pose proof (backlen_bytes_range (zlen e)).
  pose proof (pos_range l). pose proof (pos_snoc' l e).
  unfold lpPrev. case_if; [lia|]. rewrite backlen_at. cbn [mbind option_bind].
  unfold lpBytes, lp. rewrite total_bytes_image by done. cbn [mbind option_bind].
  rewrite (uwrap_id 64) by (unfold UINT32_MAX in *; lia).
  replace (pos (l ++ [e]) - 1 - (zlen e + lpEncodeBacklenBytes (zlen e) - 1))
    with (pos l) by lia.
  fold lp. by rewrite assert_valid_at.
Qed.
End At.

Lemma eof_at num es slack : byte_at (pos es) (image num es slack) = Some LP_EOF.
Proof.
  unfold image. rewrite app_assoc. apply byte_at_mid. by rewrite pos_header.
Qed.

(** Entry pointers by split and by index. *)
Lemma split_at (es : list (list Z)) i :
  (i < length es)%nat → ∃ e r, es = take i es ++ e :: r ∧ length (take i es) = i ∧
    es !! i = Some e ∧ take (S i) es = take i es ++ [e].
Proof.
  intros Hi. destruct (lookup_lt_is_Some_2 es i Hi) as [e He].
  exists e, (drop (S i) es). split_and!.
  - symmetry. by apply take_drop_middle.
  - rewrite length_take. lia.
  - done.
  - by apply take_S_r.
Qed.

Lemma split_ex (es : list (list Z)) i :
  (i < length es)%nat → ∃ l e r, es = l ++ e :: r ∧ i = length l.
Proof.
  intros Hi. destruct (split_at es i Hi) as (e & r & Es & Hl & _ & _).
  exists (take i es), e, r. by split.
Qed.

(** Index notions at the split position. *)
Lemma take_split (l : list (list Z)) e r : take (length l) (l ++ e :: r) = l.
Proof. apply take_app_length. Qed.
Lemma take_S_split (l : list (list Z)) e r : take (S (length l)) (l ++ e :: r) = l ++ [e].
Proof.
  change (l ++ e :: r) with (l ++ [e] ++ r). rewrite app_assoc. rewrite take_app_le.
  - apply take_ge. rewrite length_app. simpl. lia.
  - rewrite length_app. simpl. lia.
Qed.
Lemma drop_S_split (l : list (list Z)) e r : drop (S (length l)) (l ++ e :: r) = r.
Proof. rewrite drop_app_ge by lia. by replace (S (length l) - length l)%nat with 1%nat by lia. Qed.

Lemma ptr_split l e r : ptr (l ++ e :: r) (length l) = Some (pos l).
Proof.
  unfold ptr. rewrite decide_True by (rewrite length_app; simpl; lia).
  by rewrite take_app_length.
Qed.

Lemma ptr_end es : ptr es (length es) = None.
Proof. unfold ptr. rewrite decide_False by lia. done. Qed.

Section Traversal.
Context (num : Z) (es : list (list Z)) (slack : list Z).
Context (Hes : Forall valid_enc es) (Ht : total es <= UINT32_MAX).
Let lp := image num es slack.

(** The common tail of lpNext and lpFirst: check for the terminator, then
    the sanity assertion. *)
Lemma checked_ptr l r :
  es = l ++ r →
  (b ← byte_at (pos l) lp;
   if b =? LP_EOF then Some None
   else n ← lpBytes lp; _ ← lpAssertValidEntry lp n (pos l); Some (Some (pos l)))
  = Some (ptr es (length l)).
Proof using Hes Ht.
  intros ->. unfold lpBytes, lp. rewrite total_bytes_image by done. destruct r as [|e r].
  - rewrite app_nil_r, eof_at, ptr_end. done.
  - apply Forall_app in Hes as [_ Hr]. apply list.Forall_cons in Hr as [He _].
    destruct (head_at num l e r slack He) as (b & Hb & _ & Hne). rewrite Hb.
    cbn [mbind option_bind]. case_if; [done|].
    rewrite assert_valid_at, ptr_split by done. done.
Qed.

Lemma lpFirst_image : lpFirst lp = Some (ptr es 0).
Proof using Hes Ht. apply (checked_ptr [] es). done. Qed.

Lemma lpNext_image i :
  (i < length es)%nat → lpNext lp (pos (take i es)) = Some (ptr es (S i)).
Proof using Hes Ht.
  intros Hi. destruct (split_at es i Hi) as (e & r & Es & Hl & _ & Hs).
  unfold lpNext. assert (Hsk : lpSkip lp (pos (take i es)) = Some (pos (take (S i) es))).
  { unfold lp. rewrite Hs. rewrite Es at 1. apply skip_at.
    rewrite Es in Hes. apply Forall_app in Hes as [_ Hr]. by apply list.Forall_cons in Hr as [? _]. }
  rewrite Hsk. cbn [mbind option_bind].
  rewrite (checked_ptr (take (S i) es) (drop (S i) es)) by by rewrite take_drop.
  f_equal. f_equal. rewrite length_take. lia.
Qed.

Lemma lpPrev_image i :
  (i < length es)%nat → lpPrev lp (pos (take (S i) es)) = Some (Some (pos (take i es))).
Proof using Hes Ht.
  intros Hi. destruct (split_at es i Hi) as (e & r & Es & Hl & _ & Hs).
  rewrite Hs. unfold lp. revert Hes Ht. rewrite Es at 1 2 3. intros Hes' Ht'.
  apply prev_at; [|done].
  apply Forall_app in Hes' as [_ Hr]. by apply list.Forall_cons in Hr as [? _].
Qed.

Lemma lpPrev_first : lpPrev lp (pos []) = Some None.
Proof. done. Qed.

Lemma lpLast_image : lpLast lp = Some (ptr es (pred (length es))).
Proof using Hes Ht.
  unfold lpLast, lp. rewrite total_bytes_image by done. cbn [mbind option_bind].
  replace (total es - 1) with (pos (take (length es) es))
    by (rewrite take_ge by lia; unfold total, pos; lia).
  destruct (decide (es = [])) as [->|Hne]; [done|].
  assert (0 < length es)%nat by (destruct es; simpl; [done|lia]).
  replace (length es) with (S (pred (length es))) at 1 by lia.
  fold lp. rewrite lpPrev_image by lia.
  unfold ptr. by rewrite decide_True by lia.
Qed.
End Traversal.

(** ** Counting and seeking *)

Lemma zlen_body_ge es : Forall valid_enc es → 2 * zlen es <= zlen (body es).
Proof.
  induction 1 as [|e es He _ IH]; [done|].
  rewrite body_cons, zlen_app, zlen_cons, zlen_entry.
  pose proof (valid_enc_pos e He). pose proof (backlen_bytes_range (zlen e)). lia.
Qed.

Lemma num_ok_range num es : num_ok num es → 0 <= num <= UINT16_MAX.
Proof.
  unfold num_ok, LP_HDR_NUMELE_UNKNOWN, UINT16_MAX. pose proof (zlen_nonneg es). lia.
Qed.

Lemma length_loop_image num es slack i fuel :
  Forall valid_enc es → total es <= UINT32_MAX → (i <= length es)%nat →
  (length es - i < fuel)%nat →
  length_loop fuel (image num es slack) (ptr es i) (Z.of_nat i) = Some (zlen es).
Proof.
  intros Hes Ht. revert i. induction fuel as [|fuel IH]; intros i Hi Hf; [lia|].
  pose proof (zlen_body_ge es Hes). unfold total, LP_HDR_SIZE in Ht.
  cbn [length_loop]. unfold ptr at 1. destruct (decide _) as [Hlt|Hge].
  - rewrite lpNext_image by done. cbn [mbind option_bind].
    rewrite (uwrap_id 32) by (unfold zlen, UINT32_MAX in *; lia).
    replace (Z.of_nat i + 1) with (Z.of_nat (S i)) by lia. apply IH; lia.
  - f_equal. unfold zlen. lia.
Qed.

Lemma set_num_image num n es slack :
  lpSetNumElements (image num es slack) n = Some (image n es slack).
Proof. apply set_num_header. Qed.

Lemma seek_forward_image num es slack i n :
  Forall valid_enc es → total es <= UINT32_MAX →
  seek_forward n (image num es slack) (ptr es i) = Some (ptr es (i + n)).
Proof.
  intros Hes Ht. revert i. induction n as [|n IH]; intros i.
  { rewrite Nat.add_0_r. by destruct (ptr es i). }
  unfold ptr at 1. destruct (decide _) as [Hlt|Hge].
  - cbn [seek_forward]. rewrite lpNext_image by done. cbn [mbind option_bind].
    rewrite IH. do 2 f_equal. lia.
  - cbn [seek_forward]. unfold ptr. by rewrite decide_False by lia.
Qed.

Lemma seek_backward_image num es slack i n :
  Forall valid_enc es → total es <= UINT32_MAX → (i < length es)%nat →
  seek_backward n (image num es slack) (ptr es i) =
  Some (if decide (n <= i)%nat then ptr es (i - n) else None).
Proof.
  intros Hes Ht. revert i. induction n as [|n IH]; intros i Hi.
  { rewrite Nat.sub_0_r. by destruct (ptr es i). }
  unfold ptr at 1. rewrite decide_True by done. cbn [seek_backward].
  destruct i as [|i].
  - rewrite decide_False by lia. rewrite take_0, lpPrev_first. by destruct n.
  - rewrite lpPrev_image by (done || lia). cbn [mbind option_bind].
    pose proof (IH i ltac:(lia)) as E. unfold ptr in E at 1.
    rewrite decide_True in E by lia. rewrite E. f_equal.
    destruct (decide (n <= i)%nat), (decide (S n <= S i)%nat); try lia; done.
Qed.

(** The entry with a possibly negative index. *)
Definition ptr_z (es : list (list Z)) (index : Z) : option Z :=
  let i := if index <? 0 then zlen es + index else index in
  if i <? 0 then None else ptr es (Z.to_nat i).

(** On every represented listpack the traversal primitives visit the
    entries in order, in both directions, and return NULL exactly at the ends;
    no read leaves the allocation and no sanity assertion fails. *)
Theorem lp_traversal_correct lp es :
  repr lp es →
  lpFirst lp = Some (ptr es 0) ∧
  lpLast lp = Some (ptr es (pred (length es))) ∧
  ∀ i, (i < length es)%nat →
    lpNext lp (pos (take i es)) = Some (ptr es (S i)) ∧
    lpPrev lp (pos (take i es)) =
      Some (match i with O => None | S i => ptr es i end).
Proof.
  intros (num & slack & -> & Hn & Hes & Ht & _). split_and!.
  - by apply lpFirst_image.
  - by apply lpLast_image.
  - intros i Hi. split; [by apply lpNext_image|]. destruct i as [|i]; [done|].
    rewrite lpPrev_image by (done || lia). unfold ptr. by rewrite decide_True by lia.
Qed.

Lemma lpSeek_image num es slack index :
  num_ok num es → Forall valid_enc es → total es <= UINT32_MAX →
  lpSeek (image num es slack) index = Some (ptr_z es index).
Proof.
  intros Hn Hes Ht. unfold lpSeek, ptr_z.
  rewrite num_elements_image by by eapply num_ok_range. cbn [mbind option_bind].
  assert (Hf : ∀ j, 0 <= j → (ele ← lpFirst (image num es slack);
    seek_forward (Z.to_nat j) (image num es slack) ele) = Some (ptr es (Z.to_nat j))).
  { intros j Hj. rewrite lpFirst_image by done. cbn [mbind option_bind].
    by rewrite seek_forward_image. }
  assert (Hb : ∀ j, j < 0 → (ele ← lpLast (image num es slack);
    seek_backward (Z.to_nat (- j - 1)) (image num es slack) ele) =
    Some (if zlen es + j <? 0 then None else ptr es (Z.to_nat (zlen es + j)))).
  { intros j Hj. rewrite lpLast_image by done. cbn [mbind option_bind]. unfold zlen.
    destruct (decide (es = [])) as [->|Hne].
    { destruct (Z.to_nat (- j - 1)); simpl; case_if; done || lia. }
    assert (0 < length es)%nat by (destruct es; simpl; [done|lia]).
    rewrite seek_backward_image by (done || lia). f_equal.
    destruct (decide _); case_if; try lia; [|done]. f_equal. lia. }
  pose proof (zlen_nonneg es). destruct Hn as [->|[-> Hlt]].
  - change (LP_HDR_NUMELE_UNKNOWN =? LP_HDR_NUMELE_UNKNOWN) with true. cbn [negb].
    destruct (index <? 0) eqn:?; zb; cbn [negb]; [by rewrite Hb|].
    rewrite Hf by done. case_if; [lia|done].
  - rewrite (proj2 (Z.eqb_neq _ _)) by lia. cbn [negb].
    set (i := if index <? 0 then zlen es + index else index).
    destruct (i <? 0) eqn:?; [done|]. zb. destruct (zlen es <=? i) eqn:?; zb.
    + unfold ptr. rewrite decide_False; [done|]. unfold zlen in *. lia.
    + destruct (_ <? i); [|by apply Hf]. rewrite Hb by lia. case_if; [lia|].
      do 2 f_equal. lia.
Qed.

(** lpSeek returns the entry with the given index, counted from the
    tail when negative, and NULL when out of range, whether or not the header
    holds the number of elements and whichever direction it scans. *)
Theorem lpSeek_correct lp es index : repr lp es → lpSeek lp index = Some (ptr_z es index).
Proof. intros (num & slack & -> & Hn & Hes & Ht & _). by apply lpSeek_image. Qed.

Lemma lpLength_image lp es :
  repr lp es → ∃ num slack, lpLength lp = Some (zlen es, image num es slack) ∧ num_ok num es ∧
    wf_bytes slack.
Proof.
  intros (num & slack & -> & Hn & Hes & Ht & Hsl). unfold lpLength.
  rewrite num_elements_image by by eapply num_ok_range. cbn [mbind option_bind].
  destruct Hn as [->|[-> Hlt]].
  - change (LP_HDR_NUMELE_UNKNOWN =? LP_HDR_NUMELE_UNKNOWN) with true. cbn [negb].
    rewrite lpFirst_image by done. cbn [mbind option_bind].
    assert (length es < S (length (image LP_HDR_NUMELE_UNKNOWN es slack)))%nat.
    { pose proof (image_len LP_HDR_NUMELE_UNKNOWN es slack).
      pose proof (zlen_body_ge es Hes). pose proof (zlen_nonneg slack).
      unfold total, LP_HDR_SIZE, zlen in *. lia. }
    rewrite (length_loop_image _ es slack 0) by (done || lia).
    cbn [mbind option_bind]. case_if.
    + rewrite set_num_image. eexists _, slack. split_and!; [done|by right|done].
    + eexists _, slack. split_and!; [done|by left|done].
  - rewrite (proj2 (Z.eqb_neq _ _)) by lia. cbn [negb]. eexists _, slack.
    split_and!; [done|by right|done].
Qed.

(** lpLength returns the number of entries. When the header does not
    know it, the entries are counted and the header updated if the count fits;
    the listpack still represents the same entries. *)
Theorem lpLength_correct lp es :
  repr lp es → ∃ lp', lpLength lp = Some (zlen es, lp') ∧ repr lp' es.
Proof.
  intros Hr. destruct (lpLength_image lp es Hr) as (num & slack & -> & ? & ?).
  destruct Hr as (_ & _ & _ & _ & Hes & Ht & _). eexists. split; [done|].
  by exists num, slack.
Qed.

(** ** Integrity validation of untrusted bytes *)

Lemma byte_at_wf i b x : wf_bytes b → byte_at i b = Some x → is_byte x.
Proof.
  unfold byte_at. intros Hb. case_if; [|done]. intros. by eapply Forall_lookup_1.
Qed.

Lemma decode_loop_total fuel lp p val shift :
  0 <= p - Z.of_nat (pred fuel) → p < zlen lp → (0 < fuel)%nat →
  Z.of_nat fuel = 5 - shift / 7 → shift mod 7 = 0 → 0 <= shift →
  is_Some (decode_backlen_loop fuel lp p val shift).
Proof.
  revert p val shift. induction fuel as [|fuel IH]; intros p val shift Hp Hl Hf Hs Hm H0; [lia|].
  cbn [decode_backlen_loop]. destruct (byte_at_in p lp) as [b ->]; [lia|].
  cbn [mbind option_bind]. case_if; [by eexists|]. case_if; [by eexists|].
  apply IH; dlia.
Qed.

Lemma decode_total lp p : 4 <= p < zlen lp → is_Some (lpDecodeBacklen lp p).
Proof. intros. apply decode_loop_total; simpl; done || lia. Qed.

(** Once the bytes announced by lpCurrentEncodedSizeBytes are there, the size
    can be read. *)
Lemma size_total lp p b :
  byte_at p lp = Some b → 0 < lpCurrentEncodedSizeBytes b →
  p + lpCurrentEncodedSizeBytes b <= zlen lp → wf_bytes lp →
  ∃ n, lpCurrentEncodedSizeUnsafe lp p = Some n ∧ 0 <= n.
Proof.
  intros Hb Hpos Hl Hwf. pose proof (byte_at_lt _ _ _ Hb).
  pose proof (byte_at_wf _ _ _ Hwf Hb) as Hby.
  destruct (class_byte b Hby) as (E1 & E2 & E3 & E4 & E5 & E6 & E7 & E8 & E9).
  destruct (low_bits b Hby) as (_ & L6 & L4 & _). unfold is_byte in Hby.
  revert Hpos Hl. unfold lpCurrentEncodedSizeUnsafe, lpCurrentEncodedSizeBytes.
  rewrite Hb. cbn [mbind option_bind]. rewrite E1, E2, E3, E4, E5, E6, E7, E8, E9.
  unfold LP_ENCODING_6BIT_STR_LEN, LP_ENCODING_12BIT_STR_LEN, LP_ENCODING_32BIT_STR_LEN.
  rewrite Hb, L6. cbn [mbind option_bind]. rewrite L4.
  destruct (b <? 128); [eauto with lia|].
  destruct ((128 <=? b) && (b <? 192)); [intros; eexists; split; [done|dlia]|].
  destruct ((192 <=? b) && (b <? 224)); [eauto with lia|].
  destruct (b =? 241); [eauto with lia|]. destruct (b =? 242); [eauto with lia|].
  destruct (b =? 243); [eauto with lia|]. destruct (b =? 244); [eauto with lia|].
  destruct ((224 <=? b) && (b <? 240)); intros.
  { destruct (byte_at_in (p + 1) lp) as [b1 Hb1]; [lia|]. rewrite Hb1.
    eexists. split; [done|]. apply byte_at_wf in Hb1; [|done]. unfold is_byte in Hb1.
    assert (0 <= Z.lor (Z.shiftl (b mod 16) 8) b1); [|lia].
    apply Z.lor_nonneg. split; [|lia]. apply Z.shiftl_nonneg. dlia. }
  destruct (b =? 240).
  { rewrite rd_in by lia. eexists. split; [done|]. apply Z.mod_pos_bound. lia. }
  destruct (b =? LP_EOF); [eauto with lia|lia].
Qed.

(** One validation step stays inside the [n] validated bytes and, when it
    succeeds, moves forward. *)
Lemma validate_next_total lp p :
  wf_bytes lp → zlen lp <= UINT32_MAX →
  ∃ r, lpValidateNext lp p (zlen lp) = Some r ∧
    ∀ q p', r = Some (Some q) → p = Some p' →
      p' < q <= zlen lp - 1 ∧ LP_HDR_SIZE <= p'.
Proof.
  intros Hwf Hmax. unfold lpValidateNext. destruct p as [p|]; [|by eexists].
  unfold out_of_range. case_if; [by eexists|].
  unfold LP_HDR_SIZE in *.
  destruct (byte_at_in p lp) as [b Hb]; [lia|]. rewrite Hb. cbn [mbind option_bind].
  case_if; [by eexists|]. case_if; [by eexists|]. case_if; [by eexists|].
  assert (0 < lpCurrentEncodedSizeBytes b).
  { unfold lpCurrentEncodedSizeBytes in *. by repeat case_if. }
  destruct (size_total lp p b) as (n & Hn & Hn0); [done|done|lia|done|].
  rewrite Hn. cbn [mbind option_bind]. pose proof (backlen_bytes_range n).
  case_if; [by eexists|].
  destruct (decode_total lp (p + (n + lpEncodeBacklenBytes n) - 1)) as [v Hv]; [lia|].
  rewrite Hv. cbn [mbind option_bind]. case_if; [by eexists|].
  eexists. split; [done|]. intros q p' [= <-] [= <-]. lia.
Qed.

(** The checks lpFirst and lpNext make on the pointer they return. *)
Definition checked (lp : list Z) (p : Z) : option (option Z) :=
  b ← byte_at p lp;
  if b =? LP_EOF then Some None
  else n ← lpBytes lp; _ ← lpAssertValidEntry lp n p; Some (Some p).

Lemma lpNext_checked lp p : lpNext lp p = (q ← lpSkip lp p; checked lp q).
Proof. done. Qed.

(** Following lpNext from [p] visits exactly [ps], with no failed assertion,
    and ends with NULL. *)
Fixpoint walk (lp : list Z) (p : option Z) (ps : list Z) : Prop :=
  match ps with
  | [] => p = None
  | q :: ps => p = Some q ∧ ∃ p', lpNext lp q = Some p' ∧ walk lp p' ps
  end.

Definition cb_ok (cb : option (Z → Z → bool)) (numele p : Z) : Prop :=
  match cb with Some cb => cb p numele = true | None => True end.

Section Validate.
Context (cb : option (Z → Z → bool)) (numele : Z) (lp : list Z).
Context (Hwf : wf_bytes lp) (Hmax : zlen lp <= UINT32_MAX).

Lemma validate_loop_total fuel p count :
  (∀ q, p = Some q → LP_HDR_SIZE <= q <= zlen lp - 1 ∧ zlen lp - q < Z.of_nat fuel) →
  (0 < fuel)%nat →
  is_Some (validate_loop fuel cb numele lp p (zlen lp) count).
Proof using Hwf Hmax.
  unfold LP_HDR_SIZE. revert p count.
  induction fuel as [|fuel IH]; intros p count Hp Hf; [lia|]. cbn [validate_loop].
  destruct p as [p|]; [|by eexists]. destruct (Hp p eq_refl) as [Hr Hfu].
  destruct (byte_at_in p lp) as [b Hb]; [lia|]. rewrite Hb. cbn [mbind option_bind].
  case_if; [by eexists|].
  destruct (validate_next_total lp (Some p) Hwf Hmax) as (r & Hv & Hq).
  rewrite Hv. cbn [mbind option_bind]. destruct r as [r|]; [|by eexists].
  match goal with |- context [if ?c then _ else _] => destruct c end; [by eexists|].
  apply IH.
  - intros q ->. destruct (Hq q p eq_refl eq_refl). lia.
  - lia.
Qed.

Lemma validate_next_skip p q :
  lpValidateNext lp (Some p) (zlen lp) = Some (Some (Some q)) → lpSkip lp p = Some q.
Proof.
  unfold lpValidateNext, lpSkip. case_if; [done|].
  destruct (byte_at p lp) as [b|] eqn:Hb; [|done]. cbn [mbind option_bind].
  case_if; [done|]. case_if; [done|]. case_if; [done|].
  destruct (lpCurrentEncodedSizeUnsafe lp p) as [n|]; [|done]. cbn [mbind option_bind].
  case_if; [done|]. destruct (lpDecodeBacklen lp _); [|done]. cbn [mbind option_bind].
  case_if; [done|]. by intros [= <-].
Qed.

Lemma validate_next_not_eof p b :
  byte_at p lp = Some b → b ≠ LP_EOF → lpValidateNext lp (Some p) (zlen lp) ≠ Some (Some None).
Proof.
  intros Hb Hne. unfold lpValidateNext. rewrite Hb. cbn [mbind option_bind].
  case_if; [done|]. case_if; [done|]. case_if; [done|]. case_if; [done|].
  destruct (lpCurrentEncodedSizeUnsafe lp p); [|done]. cbn [mbind option_bind].
  case_if; [done|]. destruct (lpDecodeBacklen lp _); [|done]. cbn [mbind option_bind].
  by case_if.
Qed.

Lemma validate_loop_sound fuel p count pf c :
  lpBytes lp = Some (zlen lp) → 0 <= count → count + zlen lp - p <= UINT32_MAX →
  p <= zlen lp →
  validate_loop fuel cb numele lp (Some p) (zlen lp) count = Some (Some (pf, c)) →
  ∃ p0 ps, checked lp p = Some p0 ∧ walk lp p0 ps ∧ c = count + zlen ps ∧
    Forall (cb_ok cb numele) ps.
Proof using Hwf Hmax.
  intros Hbytes. revert p count. induction fuel as [|fuel IH]; intros p count Hc Hcl Hpl; [done|].
  cbn [validate_loop]. destruct (byte_at p lp) as [b|] eqn:Hb; [|done].
  cbn [mbind option_bind]. unfold checked. rewrite Hb. cbn [mbind option_bind]. case_if.
  { intros [= <- <-]. eexists None, []. split_and!; [done|done| |done]. unfold zlen. simpl. lia. }
  destruct (validate_next_total lp (Some p) Hwf Hmax) as (r & Hv & Hq).
  rewrite Hv. cbn [mbind option_bind]. destruct r as [q|]; [|done].
  destruct q as [q|]; [|by apply (validate_next_not_eof p b) in Hv].
  destruct (Hq q p eq_refl eq_refl) as [Hpq ?].
  match goal with |- context [if ?c then _ else _] => destruct c eqn:Hcb end; [done|].
  rewrite (uwrap_id 32) by (unfold UINT32_MAX in *; lia).
  intros (p0 & ps & Hck & Hw & -> & Hcbs)%IH; [|lia..].
  rewrite Hbytes. cbn [mbind option_bind]. unfold lpAssertValidEntry. rewrite Hv.
  exists (Some p), (p :: ps). split_and!; [done| | |].
  - split; [done|]. exists p0. split; [|done].
    rewrite lpNext_checked. apply validate_next_skip in Hv. by rewrite Hv.
  - rewrite zlen_cons. lia.
  - constructor; [|done]. unfold cb_ok. destruct cb; [|done]. by destruct (b0 p numele).
Qed.
End Validate.

(** (C35) Validating untrusted bytes is memory safe: on every buffer of the
    announced size lpValidateIntegrity terminates without reading outside the
    buffer, whatever the bytes and the per-entry callback are. *)
Theorem lpValidateIntegrity_safe cb lp deep :
  wf_bytes lp → zlen lp <= UINT32_MAX →
  is_Some (lpValidateIntegrity cb lp (zlen lp) deep).
Proof.
  intros Hwf Hmax. unfold lpValidateIntegrity, LP_HDR_SIZE. case_if; [by eexists|].
  unfold lpGetTotalBytes, lpGetNumElements. rewrite !rd_in by lia. cbn [mbind option_bind].
  case_if; [by eexists|]. destruct (byte_at_in (zlen lp - 1) lp) as [b ->]; [lia|].
  cbn [mbind option_bind]. case_if; [by eexists|]. destruct deep; [|by eexists].
  cbn [negb]. rewrite Heqb0.
  edestruct (validate_loop_total cb (or_bytes (sub 4 2 lp) 0) lp Hwf Hmax
    (S (length lp)) (Some 6) 0) as [r Hr].
  - intros q [= <-]. unfold LP_HDR_SIZE, zlen in *. lia.
  - lia.
  - rewrite Hr. cbn [mbind option_bind]. destruct r as [[p c]|]; [|by eexists].
    repeat case_if; by eexists.
Qed.

(** (C36) What deep validation accepts can be used: the total length and the
    terminator are right, and iterating with lpFirst and lpNext visits a
    finite sequence of entries without ever failing a sanity assertion; the
    callback accepted each of them and a known element count is right. *)
Theorem lpValidateIntegrity_sound cb lp :
  wf_bytes lp → zlen lp <= UINT32_MAX →
  lpValidateIntegrity cb lp (zlen lp) true = Some true →
  ∃ num p ps, lpBytes lp = Some (zlen lp) ∧ byte_at (zlen lp - 1) lp = Some LP_EOF ∧
    lpGetNumElements lp = Some num ∧ lpFirst lp = Some p ∧ walk lp p ps ∧
    Forall (cb_ok cb num) ps ∧ (num ≠ LP_HDR_NUMELE_UNKNOWN → num = zlen ps).
Proof.
  intros Hwf Hmax. unfold lpValidateIntegrity. case_if; [done|].
  destruct (lpGetTotalBytes lp) as [n|] eqn:Hn; [|done]. cbn [mbind option_bind].
  case_if; [done|]. apply Z.eqb_eq in Heqb0 as ->.
  destruct (byte_at (zlen lp - 1) lp) as [b|]; [|done]. cbn [mbind option_bind].
  case_if; [done|]. apply Z.eqb_eq in Heqb0 as ->. cbn [negb].
  destruct (lpGetNumElements lp) as [num|]; [|done]. cbn [mbind option_bind].
  destruct (validate_loop _ _ _ _ _ _ _) as [[[p c]|]|] eqn:Hv; try done.
  cbn [mbind option_bind]. case_if; [done|]. case_if; [done|]. intros _.
  apply validate_loop_sound in Hv as (p0 & ps & Hck & Hw & -> & Hcbs);
    [|done..|lia|unfold LP_HDR_SIZE; lia|lia].
  exists num, p0, ps. split_and!; try done. intros Hne.
  lia.
Qed.

Lemma validate_loop_image cb num es slack fuel l r :
  Forall valid_enc es → total es <= UINT32_MAX → es = l ++ r →
  (∀ i, (i < length es)%nat → cb_ok cb num (pos (take i es))) →
  (length r < fuel)%nat →
  validate_loop fuel cb num (image num es slack) (Some (pos l)) (total es) (zlen l)
  = Some (Some (Some (pos es), zlen es)).
Proof.
  intros Hes Ht Es Hcb. revert l r Es. induction fuel as [|fuel IH]; intros l r Es Hf; [lia|].
  destruct r as [|e r]; cbn [validate_loop].
  { rewrite app_nil_r in Es. subst l. by rewrite eof_at. }
  assert (He : valid_enc e).
  { rewrite Es in Hes. apply Forall_app in Hes as [_ Hr]. by apply list.Forall_cons in Hr as [? _]. }
  rewrite Es at 1. destruct (head_at num l e r slack He) as (b & Hb & _ & Hne).
  rewrite Hb. cbn [mbind option_bind]. case_if; [done|].
  pose proof (validate_at num l e r slack He) as Hv. rewrite <- Es in Hv. rewrite Hv by done.
  cbn [mbind option_bind].
  assert (Hc : cb_ok cb num (pos l)).
  { specialize (Hcb (length l)). rewrite Es, take_app_length in Hcb. apply Hcb.
    rewrite length_app. simpl. lia. }
  assert (match cb with Some cb => negb (cb (pos l) num) | None => false end = false) as ->.
  { unfold cb_ok in Hc. destruct cb; [by rewrite Hc|done]. }
  assert (zlen l + 1 <= zlen es).
  { rewrite Es, zlen_app, zlen_cons. pose proof (zlen_nonneg r). lia. }
  pose proof (zlen_body_ge es Hes). pose proof (zlen_nonneg l).
  rewrite (uwrap_id 32) by (unfold total, LP_HDR_SIZE, UINT32_MAX in *; lia).
  replace (zlen l + 1) with (zlen (l ++ [e])) by (rewrite zlen_app, zlen_cons, zlen_nil; lia).
  apply (IH (l ++ [e]) r); [by rewrite <- app_assoc|simpl in Hf; lia].
Qed.

(** Every listpack the library builds passes the validation of its own
    bytes, provided the callback accepts the entries. *)
Theorem lpValidateIntegrity_complete cb lp es deep :
  repr lp es →
  (∀ num i, (i < length es)%nat → cb_ok cb num (pos (take i es))) →
  lpValidateIntegrity cb lp (total es) deep = Some true.
Proof.
  intros (num & slack & -> & Hn & Hes & Ht & _) Hcb. unfold lpValidateIntegrity.
  pose proof (pos_range es). assert (Htp : total es = pos es + 1) by (unfold total, pos; lia).
  case_if; [lia|]. rewrite total_bytes_image by done. cbn [mbind option_bind].
  rewrite Z.eqb_refl. cbn [negb]. replace (total es - 1) with (pos es) by lia.
  rewrite eof_at. cbn [mbind option_bind negb].
  change (negb (LP_EOF =? LP_EOF)) with false. destruct deep; [|done]. cbn [negb].
  rewrite num_elements_image by by eapply num_ok_range. cbn [mbind option_bind].
  pose proof (image_len num es slack). pose proof (zlen_nonneg slack).
  pose proof (zlen_body_ge es Hes).
  rewrite (validate_loop_image cb num es slack _ [] es); try done; [|by auto|].
  - cbn [mbind option_bind]. rewrite bool_decide_true by (f_equal; lia). cbn [negb].
    destruct Hn as [->|[-> _]]; [done|]. rewrite Z.eqb_refl, andb_false_r. done.
  - unfold total, LP_HDR_SIZE, zlen in *. lia.
Qed.

(** ** A concrete listpack: the integer 5 and the string [ab] *)

Definition ex_es : list (list Z) := [[5]; [130; 97; 98]].

Lemma valid_enc_intro e :
  wf_bytesb e = true → lpCurrentEncodedSizeUnsafe e 0 = Some (zlen e) →
  head e ≠ Some LP_EOF → valid_enc e.
Proof. intros. split; [by apply wf_bytesb_spec|done]. Qed.

Lemma ex_repr : repr (image 2 ex_es [7]) ex_es.
Proof.
  exists 2, [7]. split_and!; [done|by right| |vm_compute; done|].
  - apply Forall_cons_2; [by apply valid_enc_intro|].
    apply Forall_cons_2; [by apply valid_enc_intro|constructor].
  - by apply wf_bytesb_spec.
Qed.

Lemma lp_traversal_correct_witness :
  repr (image 2 ex_es [7]) ex_es ∧
  lpNext (image 2 ex_es [7]) (pos (take 0 ex_es)) = Some (Some 8) ∧
  lpFirst (image 2 ex_es [7]) = Some (Some 6).
Proof.
  split; [exact ex_repr|].
  destruct (lp_traversal_correct _ _ ex_repr) as (Hf & _ & Hn).
  split; [|exact Hf]. destruct (Hn 0%nat) as [Hx _]; [simpl; lia|]. rewrite Hx. reflexivity.
Defined.

Lemma lpSeek_correct_witness :
  repr (image 2 ex_es [7]) ex_es ∧ lpSeek (image 2 ex_es [7]) (-1) = Some (Some 8).
Proof.
  split; [exact ex_repr|]. rewrite (lpSeek_correct _ _ (-1) ex_repr). reflexivity.
Defined.

Lemma lpLength_correct_witness :
  repr (image 2 ex_es [7]) ex_es ∧
  ∃ lp', lpLength (image 2 ex_es [7]) = Some (2, lp') ∧ repr lp' ex_es.
Proof. split; [exact ex_repr|]. exact (lpLength_correct _ _ ex_repr). Defined.

Lemma lpValidateIntegrity_safe_witness :
  wf_bytes [9; 0; 0; 0; 1; 0; 225; 255; 255] ∧
  is_Some (lpValidateIntegrity None [9; 0; 0; 0; 1; 0; 225; 255; 255] 9 true).
Proof.
  assert (H : wf_bytes [9; 0; 0; 0; 1; 0; 225; 255; 255]) by (by apply wf_bytesb_spec).
  split; [exact H|].
  exact (lpValidateIntegrity_safe None [9; 0; 0; 0; 1; 0; 225; 255; 255] true H
    ltac:(vm_compute; discriminate)).
Defined.

Lemma lpValidateIntegrity_sound_witness :
  lpValidateIntegrity None (image 2 ex_es []) 13 true = Some true ∧
  ∃ num p ps, lpGetNumElements (image 2 ex_es []) = Some num ∧
    lpFirst (image 2 ex_es []) = Some p ∧ walk (image 2 ex_es []) p ps.
Proof.
  assert (H : lpValidateIntegrity None (image 2 ex_es []) 13 true = Some true)
    by reflexivity.
  split; [exact H|].
  destruct (lpValidateIntegrity_sound None (image 2 ex_es [])) as (num & p & ps & ?&?&?&?&?&?).
  - by apply wf_bytesb_spec.
  - vm_compute. discriminate.
  - exact H.
  - exists num, p, ps. done.
Defined.

Lemma lpValidateIntegrity_complete_witness :
  repr (image 2 ex_es [7]) ex_es ∧
  lpValidateIntegrity None (image 2 ex_es [7]) 13 true = Some true.
Proof.
  split; [exact ex_repr|].
  exact (lpValidateIntegrity_complete None _ ex_es true ex_repr (λ _ _ _, I)).
Defined.

End ListpackRepr.
