(* ===== verification/ListpackElem.v ===== *)
(** * Listpacks: the value of an entry

    Decoding of entries ([lpGet] and its variants), comparison and search
    (src/redis-stable/src/listpack.c), with the round trips of the integer
    and string encodings and the correctness of [lpFind]. *)

From Stdlib Require Import String.
From S2P Require Import Prelude Util Listpack ListpackRepr.

Module ListpackElem.
Import Listpack ListpackRepr.

(** What [lpGet] returns: a pointer into the listpack with a length, NULL with
    an integer in [*count], or the caller's buffer with a length. *)
Inductive lpret : Type :=
  | RStr (p count : Z)
  | RInt (val : Z)
  | RBuf (intbuf : list Z) (count : Z).

(** The conversion of [uval] to the signed [val]. *)
Definition to_signed (uval negstart negmax : Z) : Z :=
  if negstart <=? uval then
    let uval := uwrap 64 (negmax - uval) in
    let val := swrap 64 uval in
    swrap 64 (- val - 1)
  else swrap 64 uval.

(** The integer stored in the [n] bytes after the encoding byte. *)
Definition get_bytes (lp : list Z) (p n : Z) : option Z :=
  bs ← rd (p + 1) n lp; Some (or_bytes bs 0).

Definition int_result (intbuf : option (list Z)) (val : Z) : option lpret :=
  match intbuf with
  | Some buf => '(buf, count) ← Util.ll2string buf 0 LP_INTBUF_SIZE val; Some (RBuf buf count)
  | None => Some (RInt val)
  end.

(** Returns the result and [*entry_size], which keeps its value
    [entry_size] for an unknown encoding. *)
Definition lpGetWithSize (lp : list Z) (p : Z) (intbuf : option (list Z)) (entry_size : Z)
  : option (lpret * Z) :=
  b ← byte_at p lp;
  let int (uval negstart negmax entry_size : Z) :=
    r ← int_result intbuf (to_signed uval negstart negmax); Some (r, entry_size) in
  if LP_ENCODING_IS_7BIT_UINT b then int (Z.land b 127) UINT64_MAX 0 2
  else if LP_ENCODING_IS_6BIT_STR b then
    let count := LP_ENCODING_6BIT_STR_LEN b in
    Some (RStr (p + 1) count, 1 + count + lpEncodeBacklenBytes (count + 1))
  else if LP_ENCODING_IS_13BIT_INT b then
    b1 ← byte_at (p + 1) lp;
    int (Z.lor (Z.shiftl (Z.land b 31) 8) b1) (Z.shiftl 1 12) 8191 3
  else if LP_ENCODING_IS_16BIT_INT b then
    uval ← get_bytes lp p 2; int uval (Z.shiftl 1 15) UINT16_MAX 4
  else if LP_ENCODING_IS_24BIT_INT b then
    uval ← get_bytes lp p 3; int uval (Z.shiftl 1 23) (Z.shiftr UINT32_MAX 8) 5
  else if LP_ENCODING_IS_32BIT_INT b then
    uval ← get_bytes lp p 4; int uval (Z.shiftl 1 31) UINT32_MAX 6
  else if LP_ENCODING_IS_64BIT_INT b then
    uval ← get_bytes lp p 8; int uval (Z.shiftl 1 63) UINT64_MAX 10
  else if LP_ENCODING_IS_12BIT_STR b then
    count ← LP_ENCODING_12BIT_STR_LEN lp p;
    Some (RStr (p + 2) count, 2 + count + lpEncodeBacklenBytes (count + 2))
  else if LP_ENCODING_IS_32BIT_STR b then
    count ← LP_ENCODING_32BIT_STR_LEN lp p;
    Some (RStr (p + 5) count, 5 + count + lpEncodeBacklenBytes (count + 5))
  else int (12345678900000000 + b) UINT64_MAX 0 entry_size.

Definition lpGetWithBuf (lp : list Z) (p : Z) (intbuf : option (list Z)) : option lpret :=
  encoding ← byte_at p lp;
  let int (uval negstart negmax : Z) := int_result intbuf (to_signed uval negstart negmax) in
  if LP_ENCODING_IS_6BIT_STR encoding then
    Some (RStr (p + 1) (LP_ENCODING_6BIT_STR_LEN encoding))
  else if LP_ENCODING_IS_12BIT_STR encoding then
    count ← LP_ENCODING_12BIT_STR_LEN lp p; Some (RStr (p + 2) count)
  else if LP_ENCODING_IS_32BIT_STR encoding then
    count ← LP_ENCODING_32BIT_STR_LEN lp p; Some (RStr (p + 5) count)
  else if LP_ENCODING_IS_7BIT_UINT encoding then int (Z.land encoding 127) UINT64_MAX 0
  else if LP_ENCODING_IS_13BIT_INT encoding then
    b1 ← byte_at (p + 1) lp;
    int (Z.lor (Z.shiftl (Z.land encoding 31) 8) b1) (Z.shiftl 1 12) 8191
  else if LP_ENCODING_IS_16BIT_INT encoding then
    uval ← get_bytes lp p 2; int uval (Z.shiftl 1 15) UINT16_MAX
  else if LP_ENCODING_IS_24BIT_INT encoding then
    uval ← get_bytes lp p 3; int uval (Z.shiftl 1 23) (Z.shiftr UINT32_MAX 8)
  else if LP_ENCODING_IS_32BIT_INT encoding then
    uval ← get_bytes lp p 4; int uval (Z.shiftl 1 31) UINT32_MAX
  else if LP_ENCODING_IS_64BIT_INT encoding then
    uval ← get_bytes lp p 8; int uval (Z.shiftl 1 63) UINT64_MAX
  else int (12345678900000000 + encoding) UINT64_MAX 0.

Definition lpGet (lp : list Z) (p : Z) (intbuf : option (list Z)) : option lpret :=
  lpGetWithBuf lp p intbuf.

(** [inl (vstr, slen)], or [inr lval] when NULL is returned; [*slen] is an
    [unsigned int]. *)
Definition lpGetValue (lp : list Z) (p : Z) : option (Z * Z + Z) :=
  r ← lpGet lp p None;
  match r with
  | RStr vstr ele_len => Some (inl (vstr, uwrap 32 ele_len))
  | RInt ele_len => Some (inr ele_len)
  | RBuf _ _ => None
  end.

Definition lpGetIntegerValue (lp : list Z) (p : Z) : option (option Z) :=
  r ← lpGet lp p None;
  match r with RInt ele_len => Some (Some ele_len) | _ => Some None end.

Definition lpCompare (lp : list Z) (p : Z) (s : list Z) : option bool :=
  b ← byte_at p lp;
  if b =? LP_EOF then Some false
  else
    r ← lpGet lp p None;
    match r with
    | RStr value sz =>
        if zlen s =? sz then v ← rd value (zlen s) lp; Some (bool_decide (v = s))
        else Some false
    | RInt sz =>
        match lpStringToInt64 s with
        | Some sval => Some (sz =? sval)
        | None => Some false
        end
    | RBuf _ _ => None
    end.

(** ** Search *)

Section Find.
(** The comparator and its state [user]; it returns 0 on a match. *)
Context {U : Type} (cmp : list Z → Z → U → lpret → option (U * Z)).

Fixpoint find_loop (fuel : nat) (lp : list Z) (lp_bytes p : Z) (user : U)
    (skip skipcnt entry_size : Z) : option (option Z) :=
  match fuel with
  | O => None
  | S fuel =>
      let continue (p : Z) (user : U) (skipcnt entry_size : Z) :=
        _ ← (if lp_bytes <=? p + 8 then lpAssertValidEntry lp lp_bytes p
             else if (LP_HDR_SIZE <=? p) && (p <? lp_bytes) then Some tt else None);
        b ← byte_at p lp;
        if b =? LP_EOF then Some None
        else find_loop fuel lp lp_bytes p user skip skipcnt entry_size in
      if skipcnt =? 0 then
        '(value, entry_size) ← lpGetWithSize lp p None entry_size;
        _ ← match value with
            | RStr _ _ =>
                if (LP_HDR_SIZE <=? p) && (p + entry_size <? lp_bytes) then Some tt else None
            | _ => Some tt
            end;
        '(user, c) ← cmp lp p user value;
        if c =? 0 then Some (Some p) else continue (p + entry_size) user skip entry_size
      else
        q ← lpSkip lp p; continue q user (skipcnt - 1) entry_size
  end.

Definition lpFindCbInternal (lp : list Z) (p : option Z) (user : U) (skip : Z)
  : option (option Z) :=
  lp_bytes ← lpBytes lp;
  p ← match p with Some p => Some (Some p) | None => lpFirst lp end;
  match p with
  | None => Some None
  | Some p => find_loop (S (length lp)) lp lp_bytes p user skip 0 123456789
  end.
End Find.

Definition lpFindCb {U} (lp : list Z) (p : option Z) (user : U)
    (cmp : list Z → Z → U → lpret → option (U * Z)) (skip : Z) : option (option Z) :=
  lpFindCbInternal cmp lp p user skip.

Record lpFindArg := { arg_s : list Z; vencoding : Z; vll : Z }.

Definition UCHAR_MAX : Z := 255.

Definition lpFindCmp (lp : list Z) (p : Z) (arg : lpFindArg) (value : lpret)
  : option (lpFindArg * Z) :=
  match value with
  | RStr s slen =>
      if slen =? zlen (arg_s arg) then
        v ← rd s slen lp; Some (arg, if bool_decide (arg_s arg = v) then 0 else 1)
      else Some (arg, 1)
  | RInt slen =>
      let arg :=
        if vencoding arg =? 0 then
          let s := arg_s arg in
          if (32 <=? zlen s) || (zlen s =? 0) then
            {| arg_s := s; vencoding := UCHAR_MAX; vll := vll arg |}
          else match lpStringToInt64 s with
               | None => {| arg_s := s; vencoding := UCHAR_MAX; vll := vll arg |}
               | Some v => {| arg_s := s; vencoding := 1; vll := v |}
               end
        else arg in
      Some (arg, if negb (vencoding arg =? UCHAR_MAX) && (slen =? vll arg) then 0 else 1)
  | RBuf _ _ => None
  end.

Definition lpFind (lp : list Z) (p : option Z) (s : list Z) (skip : Z) : option (option Z) :=
  lpFindCbInternal lpFindCmp lp p {| arg_s := s; vencoding := 0; vll := 0 |} skip.

(** ** The value of an entry *)

Inductive elem : Type :=
  | EInt (v : Z)
  | EStr (s : list Z).

(** The string an element stands for. *)
Definition elem_bytes (x : elem) : list Z :=
  match x with EInt v => Util.sdec v | EStr s => s end.

(** The value of an encoded element. *)
Definition decode (e : list Z) : option elem :=
  r ← lpGet e 0 None;
  match r with
  | RStr p count => s ← rd p count e; Some (EStr s)
  | RInt v => Some (EInt v)
  | RBuf _ _ => None
  end.

(** The encoding chosen for a string and for an integer. *)
Definition encode_string (s : list Z) : list Z :=
  match lpStringToInt64 s with
  | Some v => lpEncodeIntegerGetType v
  | None => lpEncodeString s
  end.

Lemma lpStringToInt64_eq s : lpStringToInt64 s = Util.string2ll s.
Proof.
  unfold lpStringToInt64, Util.string2ll.
  assert (L : ∀ p v, lpStringToInt64_loop p v = Util.string2ll_loop p v).
  { induction p as [|c p IH]; intros v; [done|]. cbn [lpStringToInt64_loop Util.string2ll_loop].
    unfold Util.isdigit, Util.ch0. change (48 + 9) with 57. repeat case_if; try done. }
  change Util.ch0 with 48. change Util.chminus with 45.
  destruct (_ || _); [done|]. case_bool_decide; [done|].
  match goal with |- match ?q with _ => _ end = _ => destruct q as [|c p] end; [done|].
  rewrite L. reflexivity.
Qed.

Lemma to_signed_spec n v uval negstart negmax :
  0 < n <= 64 → - 2 ^ (n - 1) <= v < 2 ^ (n - 1) → uval = v mod 2 ^ n →
  negstart = 2 ^ (n - 1) → negmax = 2 ^ n - 1 → to_signed uval negstart negmax = v.
Proof.
  intros Hn Hv -> -> ->. assert (E : 2 ^ n = 2 * 2 ^ (n - 1)).
  { rewrite <- Z.pow_succ_r by lia. f_equal. lia. }
  assert (2 ^ (n - 1) <= 2 ^ 63) by (apply Z.pow_le_mono_r; lia).
  assert (0 < 2 ^ (n - 1)) by (apply Z.pow_pos_nonneg; lia).
  change (2 ^ 63) with 9223372036854775808 in *. unfold to_signed.
  destruct (Z.lt_ge_cases v 0).
  - replace (v mod 2 ^ n) with (v + 2 ^ n)
      by (rewrite <- (Z.mod_add v 1) by lia; rewrite Z.mod_small; lia).
    case_if; [|lia].
    replace (2 ^ n - 1 - (v + 2 ^ n)) with (- v - 1) by lia.
    rewrite uwrap64_id by (unfold UINT64_MAX; lia).
    rewrite (swrap64_id (- v - 1)) by (unfold INT64_MIN, INT64_MAX; lia).
    rewrite swrap64_id; unfold INT64_MIN, INT64_MAX; lia.
  - rewrite Z.mod_small by lia. case_if; [lia|].
    rewrite swrap64_id; unfold INT64_MIN, INT64_MAX; lia.
Qed.

(** A sign-extended store of [v] is the little-endian form of [v]. *)
Lemma mod_neg v n : 0 <= n → - 2 ^ n <= v < 2 ^ n →
  (if v <? 0 then Z.shiftl 1 n + v else v) = v mod 2 ^ n.
Proof.
  intros Hn Hv. rewrite Z.shiftl_1_l. case_if.
  - rewrite <- (Z.mod_add v 1) by lia. rewrite Z.mod_small; lia.
  - rewrite Z.mod_small; lia.
Qed.

Lemma encode_int_bytes v :
  is_int64 v →
  lpEncodeIntegerGetType v =
  if (0 <=? v) && (v <=? 127) then [v]
  else if (-4096 <=? v) && (v <=? 4095) then [(v mod 2 ^ 13) / 256 + 192; v mod 256]
  else if (-32768 <=? v) && (v <=? 32767) then 241 :: le_bytes 2 (v mod 2 ^ 16)
  else if (-8388608 <=? v) && (v <=? 8388607) then 242 :: le_bytes 3 (v mod 2 ^ 24)
  else if (-2147483648 <=? v) && (v <=? 2147483647) then 243 :: le_bytes 4 (v mod 2 ^ 32)
  else 244 :: le_bytes 8 (v mod 2 ^ 64).
Proof.
  unfold is_int64, INT64_MIN, INT64_MAX. intros Hv. unfold lpEncodeIntegerGetType.
  assert (Hu : ∀ x, u8 x = x mod 256) by done. repeat rewrite Hu.
  destruct ((0 <=? v) && (v <=? 127)) eqn:?; zb; [by rewrite Z.mod_small by lia|].
  destruct ((-4096 <=? v) && (v <=? 4095)) eqn:?; zb.
  { rewrite mod_neg by lia. rewrite land_255, shiftr_div by lia. change (2 ^ 8) with 256.
    rewrite (proj1 (proj2 (lor_tags _))) by dlia. f_equal; [|f_equal]; dlia. }
  destruct ((-32768 <=? v) && (v <=? 32767)) eqn:?; zb;
    [|destruct ((-8388608 <=? v) && (v <=? 8388607)) eqn:?; zb;
    [|destruct ((-2147483648 <=? v) && (v <=? 2147483647)) eqn:?; zb]].
  all: rewrite ?mod_neg by lia; unfold uwrap;
    rewrite !land_255, !shiftr_div by lia; f_equal; cbv [le_bytes];
    rewrite !Z.div_div by lia; reflexivity.
Qed.

Lemma le_val_mod n v k :
  k = 8 * Z.of_nat n → or_bytes (le_bytes n (v mod 2 ^ k)) 0 = v mod 2 ^ k.
Proof.
  intros ->. rewrite or_bytes_val by auto using le_bytes_wf with lia.
  rewrite le_val_bytes, Z.mul_1_r. change 256 with (2 ^ 8). rewrite <- Z.pow_mul_r by lia.
  apply Z.mod_mod. lia.
Qed.

(** Reading the bytes after the encoding byte. *)
Lemma get_bytes_cons b n v q :
  get_bytes (b :: le_bytes n v ++ q) 0 (Z.of_nat n) = Some (or_bytes (le_bytes n v) 0).
Proof.
  unfold get_bytes. change (b :: le_bytes n v ++ q) with ([b] ++ le_bytes n v ++ q).
  rewrite (rd_at [b]) by by rewrite ?le_bytes_zlen. done.
Qed.

Lemma get_bytes_all b n v :
  get_bytes (b :: le_bytes n v) 0 (Z.of_nat n) = Some (or_bytes (le_bytes n v) 0).
Proof. pose proof (get_bytes_cons b n v []) as E. by rewrite app_nil_r in E. Qed.

Lemma get_int_case b n k v negstart negmax :
  (∀ lp, byte_at 0 lp = Some b → lpGetWithBuf lp 0 None =
     (uval ← get_bytes lp 0 (Z.of_nat n); int_result None (to_signed uval negstart negmax))) →
  k = 8 * Z.of_nat n → 0 < k <= 64 → - 2 ^ (k - 1) <= v < 2 ^ (k - 1) →
  negstart = 2 ^ (k - 1) → negmax = 2 ^ k - 1 →
  lpGetWithBuf (b :: le_bytes n (v mod 2 ^ k)) 0 None = Some (RInt v).
Proof.
  intros H Hk Hk0 Hv Hs Hm. rewrite H by done. rewrite get_bytes_all.
  cbn [mbind option_bind]. rewrite le_val_mod by done. simpl. do 2 f_equal.
  by apply (to_signed_spec k).
Qed.

Lemma encode_int_valid v :
  is_int64 v → valid_enc (lpEncodeIntegerGetType v) ∧
    lpGetWithBuf (lpEncodeIntegerGetType v) 0 None = Some (RInt v).
Proof.
  intros Hv. rewrite encode_int_bytes by done. unfold is_int64, INT64_MIN, INT64_MAX in Hv.
  assert (Hw : ∀ b n w, is_byte b → wf_bytes (b :: le_bytes n w))
    by (intros; apply Forall_cons_2; [done|apply le_bytes_wf]).
  assert (Hl : ∀ b n w, zlen (b :: le_bytes n w) = 1 + Z.of_nat n)
    by (intros; by rewrite zlen_cons, le_bytes_zlen).
  destruct ((0 <=? v) && (v <=? 127)) eqn:?; zb.
  { assert (Hb : is_byte v) by (unfold is_byte; lia).
    destruct (class_byte v Hb) as (E1 & E2 & E3 & E4 & E5 & E6 & E7 & E8 & E9).
    split.
    - split_and!; [by constructor| |intros [= ->]; unfold LP_EOF in *; lia].
      unfold lpCurrentEncodedSizeUnsafe. cbn [byte_at]. simpl. rewrite E1. case_if; [done|lia].
    - unfold lpGetWithBuf. simpl. rewrite E1, E2, E4, E5.
      repeat (case_if; try lia). simpl. rewrite land_127, Z.mod_small by lia.
      do 2 f_equal. unfold to_signed, UINT64_MAX. case_if; [lia|].
      rewrite swrap64_id; unfold INT64_MIN, INT64_MAX; lia. }
  destruct ((-4096 <=? v) && (v <=? 4095)) eqn:?; zb.
  { set (b := v mod 2 ^ 13 / 256 + 192).
    assert (Hb : is_byte b ∧ 192 <= b < 224) by (unfold is_byte, b; dlia).
    destruct Hb as [Hb Hr].
    destruct (class_byte b Hb) as (E1 & E2 & E3 & E4 & E5 & E6 & E7 & E8 & E9).
    split.
    - split_and!; [|  |intros [= E]; unfold LP_EOF in *; lia].
      + constructor; [done|]. constructor; [|constructor]. unfold is_byte. dlia.
      + unfold lpCurrentEncodedSizeUnsafe. simpl. rewrite E1, E2, E3.
        repeat (case_if; try lia). done.
    - unfold lpGetWithBuf. simpl. rewrite E1, E2, E3, E4, E5.
      repeat (case_if; try lia). simpl. f_equal. f_equal.
      apply (to_signed_spec 13); try done; try lia.
      rewrite (proj2 (proj2 (proj2 (low_bits b Hb)))), Z.lor_comm, lor_shiftl by dlia.
      unfold b. change (2 ^ 8) with 256. dlia. }
  destruct ((-32768 <=? v) && (v <=? 32767)) eqn:?; zb;
    [|destruct ((-8388608 <=? v) && (v <=? 8388607)) eqn:?; zb;
    [|destruct ((-2147483648 <=? v) && (v <=? 2147483647)) eqn:?; zb]].
  all: split; [split_and!; [apply Hw; unfold is_byte; lia|by rewrite Hl|done]|].
  - apply (get_int_case 241 2 16 v (Z.shiftl 1 15) UINT16_MAX);
      try done; try lia; intros lp Hb; unfold lpGetWithBuf; by rewrite Hb.
  - apply (get_int_case 242 3 24 v (Z.shiftl 1 23) (Z.shiftr UINT32_MAX 8));
      try done; try lia; intros lp Hb; unfold lpGetWithBuf; by rewrite Hb.
  - apply (get_int_case 243 4 32 v (Z.shiftl 1 31) UINT32_MAX);
      try done; try lia; intros lp Hb; unfold lpGetWithBuf; by rewrite Hb.
  - apply (get_int_case 244 8 64 v (Z.shiftl 1 63) UINT64_MAX);
      try done; try lia; intros lp Hb; unfold lpGetWithBuf; by rewrite Hb.
Qed.

(** The header bytes of a string encoding. *)
Definition str_header (len : Z) : list Z :=
  if len <? 64 then [len + 128]
  else if len <? 4096 then [len / 256 + 224; len mod 256]
  else 240 :: le_bytes 4 len.

Lemma encode_str_bytes s : lpEncodeString s = str_header (zlen s) ++ s.
Proof.
  unfold lpEncodeString, str_header. pose proof (zlen_nonneg s).
  destruct (zlen s <? 64) eqn:?; zb.
  { rewrite (proj1 (lor_tags _)), u8_id by lia. done. }
  destruct (zlen s <? 4096) eqn:?; zb.
  { rewrite land_255, shiftr_div by lia. change (2 ^ 8) with 256.
    rewrite (proj2 (proj2 (lor_tags _))), u8_id by dlia. done. }
  pose proof (store32 (zlen s)) as E. injection E as E1 E2 E3 E4.
  rewrite E1, E2, E3, E4. done.
Qed.

Lemma str_size s :
  wf_bytes s → 5 + zlen s <= UINT32_MAX →
  let e := str_header (zlen s) ++ s in
  lpCurrentEncodedSizeUnsafe e 0 = Some (zlen e) ∧
  lpGetWithBuf e 0 None = Some (RStr (zlen (str_header (zlen s))) (zlen s)) ∧
  wf_bytes (str_header (zlen s)) ∧ head e ≠ Some LP_EOF.
Proof.
  intros Hwf Hl e. subst e. unfold str_header. pose proof (zlen_nonneg s).
  unfold UINT32_MAX, LP_EOF in *.
  destruct (zlen s <? 64) eqn:?; zb.
  { set (b := zlen s + 128). assert (Hb : is_byte b) by (unfold is_byte, b; lia).
    destruct (class_byte b Hb) as (E1 & E2 & _).
    unfold lpCurrentEncodedSizeUnsafe, lpGetWithBuf, LP_ENCODING_6BIT_STR_LEN.
    rewrite zlen_app. change (zlen [b]) with 1. simpl. rewrite E1, E2.
    rewrite (proj1 (proj2 (low_bits b Hb))).
    replace (b mod 64) with (zlen s) by (unfold b; dlia). unfold b.
    repeat (case_if; try lia). split_and!; [done|done|by constructor|]. intros [= E]. lia. }
  destruct (zlen s <? 4096) eqn:?; zb.
  { set (b := zlen s / 256 + 224). assert (Hb : is_byte b) by (unfold is_byte, b; dlia).
    assert (224 <= b < 240) by (unfold b; dlia).
    destruct (class_byte b Hb) as (E1 & E2 & E3 & E4 & E5 & E6 & E7 & E8 & E9).
    unfold lpCurrentEncodedSizeUnsafe, lpGetWithBuf, LP_ENCODING_12BIT_STR_LEN.
    rewrite zlen_app. change (zlen [b; zlen s mod 256]) with 2. simpl. rewrite E1, E2, E3, E4, E5, E6, E7, E8, E9.
    rewrite (proj1 (proj2 (proj2 (low_bits b Hb)))), Z.lor_comm, lor_shiftl by dlia.
    change (2 ^ 8) with 256.
    replace (zlen s mod 256 + b mod 16 * 256) with (zlen s) by (unfold b; dlia).
    repeat (case_if; try lia). split_and!; [done|done| |].
    - repeat constructor; unfold is_byte in *; dlia.
    - intros [= E]. lia. }
  assert (Hn : LP_ENCODING_32BIT_STR_LEN ((240 :: le_bytes 4 (zlen s)) ++ s) 0 = Some (zlen s)).
  { unfold LP_ENCODING_32BIT_STR_LEN.
    change ((240 :: le_bytes 4 (zlen s)) ++ s) with ([240] ++ le_bytes 4 (zlen s) ++ s).
    rewrite (rd_at [240]) by by rewrite ?le_bytes_zlen. cbn [mbind option_bind].
    rewrite <- (Z.mod_small (zlen s) (2 ^ 32)) at 1 by lia.
    rewrite le_val_mod by done. rewrite Z.mod_small; [done|lia]. }
  set (e := (240 :: le_bytes 4 (zlen s)) ++ s) in *.
  assert (lpCurrentEncodedSizeUnsafe e 0 =
    (n ← LP_ENCODING_32BIT_STR_LEN e 0; Some (uwrap 32 (5 + n)))) as -> by reflexivity.
  assert (lpGetWithBuf e 0 None =
    (n ← LP_ENCODING_32BIT_STR_LEN e 0; Some (RStr (0 + 5) n))) as -> by reflexivity.
  rewrite Hn. cbn [mbind option_bind]. rewrite (uwrap_id 32) by lia.
  split_and!; [|done|apply Forall_cons_2; [unfold is_byte; lia|apply le_bytes_wf]|done].
  unfold e. rewrite zlen_app, zlen_cons, le_bytes_zlen. done.
Qed.

Lemma encode_str_valid s :
  wf_bytes s → 5 + zlen s <= UINT32_MAX → valid_enc (lpEncodeString s).
Proof.
  intros Hwf Hl. rewrite encode_str_bytes. destruct (str_size s Hwf Hl) as (Hs & _ & Hw & Hh).
  split; [by apply Forall_app|done].
Qed.

(** ** Round trips *)

Lemma decode_encode_int v : is_int64 v → decode (lpEncodeIntegerGetType v) = Some (EInt v).
Proof. intros Hv. unfold decode, lpGet. by rewrite (proj2 (encode_int_valid v Hv)). Qed.

Lemma decode_encode_str s :
  wf_bytes s → 5 + zlen s <= UINT32_MAX → decode (lpEncodeString s) = Some (EStr s).
Proof.
  intros Hwf Hl. unfold decode, lpGet. rewrite encode_str_bytes.
  destruct (str_size s Hwf Hl) as (_ & -> & _ & _). cbn [mbind option_bind].
  pose proof (rd_mid (str_header (zlen s)) s []) as E. rewrite app_nil_r in E. by rewrite E.
Qed.

Lemma encode_string_valid s :
  wf_bytes s → 5 + zlen s <= UINT32_MAX → valid_enc (encode_string s).
Proof.
  intros Hwf Hl. unfold encode_string. destruct (lpStringToInt64 s) as [v|] eqn:Hv.
  - rewrite lpStringToInt64_eq in Hv. apply Util.string2ll_spec in Hv as [Hv _].
    by apply encode_int_valid.
  - by apply encode_str_valid.
Qed.

(** ** Entries in their listpack *)

Definition shift_ret (o : Z) (r : lpret) : lpret :=
  match r with RStr p count => RStr (o + p) count | _ => r end.

Lemma get_size_local P e Q n0 r n :
  lpGetWithSize e 0 None n0 = Some (r, n) →
  lpGetWithSize (P ++ e ++ Q) (zlen P) None n0 = Some (shift_ret (zlen P) r, n).
Proof.
  unfold lpGetWithSize, LP_ENCODING_12BIT_STR_LEN, LP_ENCODING_32BIT_STR_LEN, get_bytes.
  destruct (byte_at 0 e) as [b|] eqn:Hb; [|done].
  pose proof (byte_at_app P e Q 0 b Hb) as Hb'. rewrite Z.add_0_r in Hb'. rewrite Hb'.
  cbn [mbind option_bind int_result]. change (0 + 1) with 1.
  assert (H1 : ∀ (f g : Z → option (lpret * Z)), (b1 ← byte_at 1 e; f b1) = Some (r, n) →
    (∀ x, f x = Some (r, n) → g x = Some (shift_ret (zlen P) r, n)) →
    (b1 ← byte_at (zlen P + 1) (P ++ e ++ Q); g b1) = Some (shift_ret (zlen P) r, n)).
  { intros f g. destruct (byte_at 1 e) as [x|] eqn:Hx; [|done].
    rewrite (byte_at_app P e Q 1 x Hx). simpl. eauto. }
  assert (Hr : ∀ k (f g : list Z → option (lpret * Z)), (bs ← rd 1 k e; f bs) = Some (r, n) →
    (∀ x, f x = Some (r, n) → g x = Some (shift_ret (zlen P) r, n)) →
    (bs ← rd (zlen P + 1) k (P ++ e ++ Q); g bs) = Some (shift_ret (zlen P) r, n)).
  { intros k f g. destruct (rd 1 k e) as [x|] eqn:Hx; [|done].
    rewrite (rd_app_in P e Q 1 k x Hx). simpl. eauto. }
  repeat case_if; rewrite ?option_bind_assoc; intros H;
    first [ injection H as <- <-; reflexivity
          | eapply H1; [exact H|]; simpl; intros x [= <- <-]; reflexivity
          | eapply Hr; [exact H|]; simpl; intros x [= <- <-]; reflexivity ].
Qed.

(** The optimised reader agrees with the general one. *)
Lemma get_with_size_buf lp p intbuf n :
  wf_bytes lp → fst <$> lpGetWithSize lp p intbuf n = lpGetWithBuf lp p intbuf.
Proof.
  intros Hwf. unfold lpGetWithSize, lpGetWithBuf.
  destruct (byte_at p lp) as [b|] eqn:Hb; [|done]. cbn [mbind option_bind].
  pose proof (byte_at_wf _ _ _ Hwf Hb) as Hby.
  destruct (class_byte b Hby) as (E1 & E2 & E3 & E4 & E5 & E6 & E7 & E8 & E9).
  unfold is_byte in Hby. rewrite E1, E2, E3, E4, E5, E6, E7, E8, E9.
  assert (Hint : ∀ v (n : Z), fst <$> (r ← int_result intbuf v; Some (r, n)) = int_result intbuf v)
    by (intros v n'; by destruct (int_result intbuf v)).
  assert (Hbind : ∀ A (x : option A) (f : A → option (lpret * Z)),
    fst <$> (y ← x; f y) = (y ← x; fst <$> f y)) by (intros A [y|] f; done).
  repeat (case_if; [rewrite ?Hbind; first [exfalso; lia | solve [repeat (case_if; try lia);
    try apply Hint; try done; match goal with |- (_ ← ?x; _) = _ => by destruct x; simpl; rewrite ?Hint end]]|]).
  repeat (case_if; try lia). apply Hint.
Qed.

(** What lpGetWithSize returns on a valid element: the string is the rest of
    the element, and the size is the one lpSkip would use. *)
Definition ret_ok (e : list Z) (r : lpret) : Prop :=
  match r with
  | RStr p count => 0 <= p ∧ 0 <= count ∧ p + count = zlen e
  | RInt _ => True
  | RBuf _ _ => False
  end.

Lemma str32_no_wrap e c :
  valid_enc e → byte_at 0 e = Some 240 → LP_ENCODING_32BIT_STR_LEN e 0 = Some c →
  zlen e = 5 + c ∧ 0 <= c.
Proof.
  intros (Hwf & Hs & _) Hb Hc. unfold lpCurrentEncodedSizeUnsafe in Hs. rewrite Hb in Hs.
  assert (Hs' : uwrap 32 (5 + c) = zlen e).
  { revert Hs. cbn [mbind option_bind]. change (LP_ENCODING_IS_7BIT_UINT 240) with false.
    change (LP_ENCODING_IS_6BIT_STR 240) with false.
    change (LP_ENCODING_IS_13BIT_INT 240) with false.
    change (LP_ENCODING_IS_16BIT_INT 240) with false.
    change (LP_ENCODING_IS_24BIT_INT 240) with false.
    change (LP_ENCODING_IS_32BIT_INT 240) with false.
    change (LP_ENCODING_IS_64BIT_INT 240) with false.
    change (LP_ENCODING_IS_12BIT_STR 240) with false.
    change (LP_ENCODING_IS_32BIT_STR 240) with true. rewrite Hc. simpl. by intros [= ->]. }
  unfold LP_ENCODING_32BIT_STR_LEN in Hc.
  destruct (rd (0 + 1) 4 e) as [bs|] eqn:Hr; [|done]. injection Hc as <-.
  pose proof Hr as (?&?&?&->)%rd_Some. apply rd_len in Hr.
  assert (Hw : wf_bytes (sub (0 + 1) 4 e)) by by apply Forall_sub.
  rewrite or_bytes_val in * by (done || lia).
  pose proof (le_val_range _ Hw) as Hv. rewrite Hr in Hv.
  change (256 ^ 4) with 4294967296 in Hv. unfold uwrap in Hs'.
  change (2 ^ 32) with 4294967296 in Hs'. rewrite Z.mul_1_r in *. dlia.
Qed.

Lemma get_with_size_valid e n :
  valid_enc e → ∃ r, lpGetWithSize e 0 None n = Some (r, zlen (entry e)) ∧ ret_ok e r.
Proof.
  intros He. destruct (valid_head e He) as (b & Hb & Hne).
  pose proof (lenbytes_le e b He Hb) as Hlb. pose proof (valid_enc_pos e He).
  pose proof (λ c, str32_no_wrap e c He) as H32. destruct He as (Hwf & Hs & Hh).
  pose proof (byte_at_wf _ _ _ Hwf Hb) as Hby.
  destruct (class_byte b Hby) as (E1 & E2 & E3 & E4 & E5 & E6 & E7 & E8 & E9).
  destruct (low_bits b Hby) as (_ & L6 & L4 & _).
  rewrite zlen_entry. revert Hs Hlb.
  unfold lpCurrentEncodedSizeUnsafe, lpCurrentEncodedSizeBytes, lpGetWithSize, get_bytes.
  rewrite Hb. cbn [mbind option_bind].
  destruct (LP_ENCODING_IS_7BIT_UINT b); [intros [= <-] _; simpl; eexists; split; [reflexivity|exact I]|].
  destruct (LP_ENCODING_IS_6BIT_STR b).
  { unfold LP_ENCODING_6BIT_STR_LEN. rewrite L6. intros [= Hl] _. exists (RStr (0 + 1) (b mod 64)).
    split; [|unfold ret_ok; dlia]. rewrite <- Hl. by rewrite (Z.add_comm (b mod 64) 1). }
  destruct (LP_ENCODING_IS_13BIT_INT b).
  { intros [= Hl] _. destruct (byte_at_in (0 + 1) e) as [x ->]; [lia|]. rewrite <- Hl.
    simpl. eexists. split; [reflexivity|exact I]. }
  destruct (LP_ENCODING_IS_16BIT_INT b); 
    [intros [= Hl] _; rewrite rd_in by lia; rewrite <- Hl; simpl; eexists; split; [reflexivity|exact I]|].
  destruct (LP_ENCODING_IS_24BIT_INT b); 
    [intros [= Hl] _; rewrite rd_in by lia; rewrite <- Hl; simpl; eexists; split; [reflexivity|exact I]|].
  destruct (LP_ENCODING_IS_32BIT_INT b); 
    [intros [= Hl] _; rewrite rd_in by lia; rewrite <- Hl; simpl; eexists; split; [reflexivity|exact I]|].
  destruct (LP_ENCODING_IS_64BIT_INT b); 
    [intros [= Hl] _; rewrite rd_in by lia; rewrite <- Hl; simpl; eexists; split; [reflexivity|exact I]|].
  destruct (LP_ENCODING_IS_12BIT_STR b).
  { intros Hs _. destruct (LP_ENCODING_12BIT_STR_LEN e 0) as [c|] eqn:Hc; [|done].
    cbn [mbind option_bind] in Hs. injection Hs as Hs. unfold LP_ENCODING_12BIT_STR_LEN in Hc. rewrite Hb in Hc.
    cbn [mbind option_bind] in Hc. destruct (byte_at (0 + 1) e) as [x|] eqn:Hx; [|done].
    injection Hc as Hc. apply byte_at_wf in Hx; [|done]. unfold is_byte in Hx.
    rewrite L4, Z.lor_comm, lor_shiftl in Hc by (simpl; lia).
    cbn [mbind option_bind]. exists (RStr (0 + 2) c). split; [|unfold ret_ok; dlia]. rewrite <- Hs.
    by rewrite (Z.add_comm c 2). }
  rewrite E5. destruct (b =? 240) eqn:E240; zb.
  { subst b. intros Hs _. destruct (LP_ENCODING_32BIT_STR_LEN e 0) as [c|] eqn:Hc; [|done].
    destruct (H32 c) as [Hl ?]; [done|done|].
    cbn [mbind option_bind]. exists (RStr (0 + 5) c). split; [|unfold ret_ok; lia].
    rewrite Hl. by rewrite (Z.add_comm c 5). }
  destruct (b =? LP_EOF) eqn:?; zb; [done|]. intros [= Hz]. lia.
Qed.

Lemma get_at P e Q :
  valid_enc e → wf_bytes (P ++ e ++ Q) →
  ∃ r, lpGetWithBuf e 0 None = Some r ∧ ret_ok e r ∧
    lpGetWithBuf (P ++ e ++ Q) (zlen P) None = Some (shift_ret (zlen P) r) ∧
    ∀ n, lpGetWithSize (P ++ e ++ Q) (zlen P) None n
         = Some (shift_ret (zlen P) r, zlen (entry e)).
Proof.
  intros He Hwf. destruct (get_with_size_valid e 0 He) as (r & Hr & Hok).
  exists r. pose proof He as (Hwe & _ & _). split_and!; [|done| |].
  - by rewrite <- (get_with_size_buf e 0 None 0), Hr.
  - rewrite <- (get_with_size_buf _ _ None 0) by done. by rewrite (get_size_local P e Q 0 r _ Hr).
  - intros n. destruct (get_with_size_valid e n He) as (r' & Hr' & _).
    pose proof (get_with_size_buf e 0 None 0 Hwe) as E. rewrite Hr in E.
    pose proof (get_with_size_buf e 0 None n Hwe) as E'. rewrite Hr', <- E in E'.
    injection E' as ->. by apply get_size_local.
Qed.

Lemma decode_valid e : valid_enc e → ∃ x, decode e = Some x.
Proof.
  intros He. pose proof He as (Hwf & _ & _).
  destruct (get_at [] e [] He) as (r & Hr & Hok & _); [by rewrite app_nil_r|].
  unfold decode, lpGet. rewrite Hr. cbn [mbind option_bind].
  destruct r; simpl in Hok; [|eauto|done]. rewrite rd_in by lia. simpl. eauto.
Qed.

(** ** Correctness of the search *)

Lemma swrap64_range v : is_int64 (swrap 64 v).
Proof.
  unfold is_int64, swrap, INT64_MIN, INT64_MAX. change (2 ^ (64 - 1)) with 9223372036854775808.
  pose proof (Z.mod_pos_bound (v + 9223372036854775808) (2 ^ 64) ltac:(lia)). lia.
Qed.

Lemma get_int_range lp p v : lpGetWithBuf lp p None = Some (RInt v) → is_int64 v.
Proof.
  assert (Hs : ∀ u a b, is_int64 (to_signed u a b)).
  { intros u a b. unfold to_signed. case_if; apply swrap64_range. }
  unfold lpGetWithBuf. destruct (byte_at p lp) as [b|]; [|done]. cbn [mbind option_bind].
  assert (Hb : ∀ A (x : option A) (f : A → option lpret),
    (y ← x; f y) = Some (RInt v) → (∀ y, f y = Some (RInt v) → is_int64 v) → is_int64 v).
  { intros A [y|] f; simpl; eauto; done. }
  repeat case_if; intros H; try done;
    first [ injection H as <-; apply Hs
          | eapply Hb; [exact H|]; intros y E; try done; injection E as <-; apply Hs ].
Qed.

(** Equality of the value of an entry with a string. *)
Definition elem_is (s : list Z) (e : list Z) : bool :=
  bool_decide (elem_bytes <$> decode e = Some s).

Definition arg_ok (s : list Z) (arg : lpFindArg) : Prop :=
  arg_s arg = s ∧
  (vencoding arg = 0 ∨ vencoding arg = UCHAR_MAX ∧ lpStringToInt64 s = None ∨
   vencoding arg = 1 ∧ lpStringToInt64 s = Some (vll arg)).

Lemma string_of_int s v : is_int64 v → lpStringToInt64 s = Some v ↔ Util.sdec v = s.
Proof.
  intros Hv. rewrite lpStringToInt64_eq, Util.string2ll_spec. split; [by intros [_ ->]|done].
Qed.

Lemma cmp_int lp p s arg v :
  arg_ok s arg → is_int64 v →
  ∃ arg', lpFindCmp lp p arg (RInt v)
          = Some (arg', if bool_decide (Util.sdec v = s) then 0 else 1) ∧ arg_ok s arg'.
Proof.
  intros [Hs Henc] Hv. pose proof (string_of_int s v Hv) as Hi. unfold lpFindCmp.
  set (arg' := if vencoding arg =? 0 then _ else _).
  assert (Hok : arg_s arg' = s ∧ (vencoding arg' = UCHAR_MAX ∧ lpStringToInt64 s = None ∨
    vencoding arg' = 1 ∧ lpStringToInt64 s = Some (vll arg'))).
  { subst arg'. rewrite Hs. destruct (vencoding arg =? 0) eqn:E0; zb.
    - destruct ((32 <=? zlen s) || (zlen s =? 0)) eqn:El; zb.
      + split; [done|]. left. split; [done|].
        unfold lpStringToInt64, Util.LONG_STR_SIZE. case_if; [done|]. exfalso. lia.
      + destruct (lpStringToInt64 s); simpl; auto.
    - destruct Henc as [?|?]; [done|]. auto. }
  clearbody arg'. destruct Hok as [Hs' Henc']. exists arg'.
  split; [|split; [done|by destruct Henc'; [right; left|right; right]]].
  do 2 f_equal. destruct Henc' as [[-> Hn]|[-> Hsome]].
  - rewrite Hn in Hi. case_bool_decide as E; [|done]. by apply Hi in E.
  - rewrite Hsome in Hi. change (negb (1 =? UCHAR_MAX)) with true. cbn [andb].
    destruct (v =? vll arg') eqn:E; zb; case_bool_decide as E'; try done.
    + subst v. exfalso. apply E'. by apply Hi.
    + apply Hi in E'. congruence.
Qed.

Lemma cmp_correct P e Q s arg p r :
  valid_enc e → arg_ok s arg → lpGetWithBuf e 0 None = Some r → ret_ok e r →
  ∃ arg', lpFindCmp (P ++ e ++ Q) p arg (shift_ret (zlen P) r)
          = Some (arg', if elem_is s e then 0 else 1) ∧ arg_ok s arg'.
Proof.
  intros He Ha Hr Hok. unfold elem_is, decode, lpGet. rewrite Hr. cbn [mbind option_bind].
  destruct r as [q c|v|]; simpl in Hok; [| |done].
  - rewrite rd_in by lia. cbn. pose proof Ha as [Hs _]. unfold lpFindCmp, shift_ret. rewrite Hs.
    exists arg. split; [|done]. destruct (c =? zlen s) eqn:Ec; zb.
    + rewrite rd_inside by lia. rewrite rd_in by lia. cbn. do 2 f_equal.
      repeat case_bool_decide; congruence.
    + do 2 f_equal. case_bool_decide as E; [|done]. injection E as E.
      apply (f_equal zlen) in E. rewrite zlen_sub in E by lia. done.
  - change (shift_ret (zlen P) (RInt v)) with (RInt v).
    change (elem_bytes <$> Some (EInt v)) with (Some (Util.sdec v)).
    pose proof (get_int_range _ _ _ Hr) as Hv.
    destruct (cmp_int (P ++ e ++ Q) p s arg v Ha Hv) as (arg' & -> & ?). exists arg'.
    split; [|done]. do 2 f_equal. repeat case_bool_decide; congruence.
Qed.

(** Searching with a stride: the first entry is compared, then [skip]
    entries are skipped between comparisons. *)
Fixpoint find_elem (s : list Z) (skip cnt : nat) (es : list (list Z)) : option nat :=
  match es with
  | [] => None
  | e :: es =>
      match cnt with
      | O => if elem_is s e then Some O else S <$> find_elem s skip skip es
      | S cnt => S <$> find_elem s skip cnt es
      end
  end.

Lemma assert_at_end num es slack :
  lpAssertValidEntry (image num es slack) (total es) (pos es) = Some tt.
Proof.
  unfold lpAssertValidEntry, lpValidateNext, out_of_range. pose proof (pos_range es).
  assert (total es = pos es + 1) by (unfold total, pos; lia).
  rewrite eof_at. case_if; [lia|]. done.
Qed.

Section FindLoop.
Context (num : Z) (es : list (list Z)) (slack : list Z).
Context (Hes : Forall valid_enc es) (Ht : total es <= UINT32_MAX).
Let lp := image num es slack.
Context (Hwf : wf_bytes lp).

Lemma find_continue l r :
  es = l ++ r →
  (if total es <=? pos l + 8 then lpAssertValidEntry lp (total es) (pos l)
   else if (LP_HDR_SIZE <=? pos l) && (pos l <? total es) then Some tt else None) = Some tt.
Proof using Hes Ht.
  intros Es. pose proof (pos_range l).
  assert (pos l < total es).
  { rewrite Es. unfold total, pos. rewrite body_app, zlen_app. pose proof (zlen_nonneg (body r)). lia. }
  repeat (case_if; try lia); [|done]. destruct r as [|e r].
  - unfold lp. rewrite Es, app_nil_r. apply assert_at_end.
  - unfold lp. revert Hes Ht. rewrite Es. intros [_ [He _]%list.Forall_cons]%Forall_app Ht'.
    by apply assert_valid_at.
Qed.

Lemma find_loop_image s skip fuel l e r arg cnt sz :
  es = l ++ e :: r → arg_ok s arg → (length r < fuel)%nat →
  find_loop lpFindCmp fuel lp (total es) (pos l) arg (Z.of_nat skip) (Z.of_nat cnt) sz
  = Some ((λ j, pos (take (length l + j) es)) <$> find_elem s skip cnt (e :: r)).
Proof using Hes Ht Hwf.
  revert l e r arg cnt sz. induction fuel as [|fuel IH]; intros l e r arg cnt sz Es Ha Hf; [lia|].
  assert (He : valid_enc e).
  { rewrite Es in Hes. apply Forall_app in Hes as [_ Hr]. by apply list.Forall_cons in Hr as [? _]. }
  assert (Hlp : lp = (header (total es) num ++ body l) ++ e ++
    (lpEncodeBacklen (zlen e) ++ body r ++ [LP_EOF] ++ slack))
    by (unfold lp; rewrite Es; apply image_split).
  assert (Hp : zlen (header (total es) num ++ body l) = pos l) by apply pos_header.
  assert (Hcont : ∀ arg cnt sz, arg_ok s arg →
    (_ ← (if total es <=? pos (l ++ [e]) + 8 then lpAssertValidEntry lp (total es) (pos (l ++ [e]))
          else if (LP_HDR_SIZE <=? pos (l ++ [e])) && (pos (l ++ [e]) <? total es)
               then Some tt else None);
     b ← byte_at (pos (l ++ [e])) lp;
     if b =? LP_EOF then Some None
     else find_loop lpFindCmp fuel lp (total es) (pos (l ++ [e])) arg (Z.of_nat skip)
            (Z.of_nat cnt) sz)
    = Some ((λ j, pos (take (length l + j) es)) <$> (S <$> find_elem s skip cnt r))).
  { intros arg' cnt' sz' Ha'.
    assert (Es' : es = (l ++ [e]) ++ r) by (by rewrite <- app_assoc).
    rewrite (find_continue _ r) by done. cbn [mbind option_bind].
    destruct r as [|e' r].
    { rewrite app_nil_r in Es'. rewrite <- Es'. unfold lp. rewrite eof_at. done. }
    assert (He' : valid_enc e').
    { rewrite Es' in Hes. apply Forall_app in Hes as [_ Hr]. by apply list.Forall_cons in Hr as [? _]. }
    destruct (head_at num (l ++ [e]) e' r slack He') as (b & Hb & _ & Hne).
    rewrite <- Es' in Hb. fold lp in Hb. rewrite Hb. cbn [mbind option_bind]. case_if; [done|].
    rewrite (IH (l ++ [e]) e' r) by (done || simpl in Hf; lia).
    f_equal. rewrite <- option_fmap_compose. apply option_fmap_ext. intros j. simpl.
    rewrite length_app. simpl. do 2 f_equal. lia. }
  cbn [find_loop find_elem]. destruct cnt as [|cnt].
  - cbn [Z.of_nat Z.eqb]. rewrite Hlp in Hwf.
    destruct (get_at _ e _ He Hwf) as (r0 & Hr0 & Hok & _ & Hget).
    rewrite <- Hlp, Hp in Hget. rewrite Hget. cbn [mbind option_bind].
    pose proof (pos_snoc l e) as Hps. pose proof (pos_range l).
    assert (pos (l ++ [e]) < total es).
    { rewrite Es. rewrite total_split, pos_snoc'. pose proof (zlen_nonneg (body r)). lia. }
    assert ((match shift_ret (pos l) r0 with RStr _ _ => if (LP_HDR_SIZE <=? pos l) &&
      (pos l + zlen (entry e) <? total es) then Some tt else None | _ => Some tt end)
      = Some tt) as ->.
    { destruct r0; simpl; try done. case_if; [done|lia]. }
    cbn [mbind option_bind].
    destruct (cmp_correct (header (total es) num ++ body l) e
      (lpEncodeBacklen (zlen e) ++ body r ++ [LP_EOF] ++ slack) s arg (pos l) r0)
      as (arg' & Hcmp & Ha'); [done..|].
    rewrite <- Hlp, Hp in Hcmp. rewrite Hcmp. cbn [mbind option_bind].
    destruct (elem_is s e); cbn [Z.eqb].
    { simpl. rewrite Nat.add_0_r, Es, take_app_length. done. }
    rewrite <- Hps. by apply Hcont.
  - rewrite (proj2 (Z.eqb_neq _ _)) by lia.
    assert (lpSkip lp (pos l) = Some (pos (l ++ [e]))) as ->.
    { unfold lp. rewrite Es. by apply skip_at. }
    cbn [mbind option_bind]. replace (Z.of_nat (S cnt) - 1) with (Z.of_nat cnt) by lia.
    by apply Hcont.
Qed.
End FindLoop.

Lemma u8_byte v : is_byte (u8 v).
Proof. unfold u8, uwrap, is_byte. apply Z.mod_pos_bound. lia. Qed.

Lemma backlen_wf l : wf_bytes (lpEncodeBacklen l).
Proof. unfold lpEncodeBacklen. repeat case_if; repeat constructor; apply u8_byte. Qed.

Lemma body_wf es : Forall valid_enc es → wf_bytes (body es).
Proof.
  induction 1 as [|e es (He & _) _ IH]; [constructor|]. rewrite body_cons.
  apply Forall_app. split; [|done]. apply Forall_app. split; [done|apply backlen_wf].
Qed.

Lemma image_wf num es slack :
  Forall valid_enc es → wf_bytes slack → wf_bytes (image num es slack).
Proof.
  intros He Hs. unfold image, header. repeat (apply Forall_app; split);
    try done; try apply le_bytes_wf; [by apply body_wf|].
    constructor; [unfold is_byte, LP_EOF; lia|constructor].
Qed.

Lemma repr_wf lp es : repr lp es → wf_bytes lp.
Proof. intros (num & slack & -> & _ & He & _ & Hs). by apply image_wf. Qed.

(** The bytes of a represented listpack around entry [i]. *)
Lemma repr_entry lp es i e :
  repr lp es → es !! i = Some e →
  valid_enc e ∧ ∃ P Q, lp = P ++ e ++ Q ∧ zlen P = pos (take i es).
Proof.
  intros (num & slack & -> & _ & He & _ & _) Hi.
  split; [by eapply Forall_lookup_1|]. 
  pose proof (image_split num (take i es) e (drop (S i) es) slack) as E.
  rewrite (take_drop_middle es i e Hi) in E. eexists _, _. split; [exact E|apply pos_header].
Qed.

(** With a buffer only the result for integers changes. *)
Lemma get_intbuf lp p r b :
  lpGetWithBuf lp p None = Some r →
  lpGetWithBuf lp p b = match r with RInt v => int_result b v | _ => Some r end.
Proof.
  unfold lpGetWithBuf. destruct (byte_at p lp) as [x|]; [|done]. cbn [mbind option_bind].
  assert (Hb : ∀ A (y : option A) (f g : A → option lpret), (z ← y; f z) = Some r →
    (∀ z, f z = Some r → g z = match r with RInt v => int_result b v | _ => Some r end) →
    (z ← y; g z) = match r with RInt v => int_result b v | _ => Some r end).
  { intros A [z|] f g; simpl; eauto; done. }
  repeat case_if; intros H;
    first [ injection H as <-; done
          | eapply Hb; [exact H|]; intros z E; injection E as <-; done ].
Qed.

(** A string handed to the listpack is stored as a valid element that
    stands for the same string, as an integer exactly when it is the canonical
    decimal form of a 64-bit integer. *)
Theorem encode_string_roundtrip s :
  wf_bytes s → 5 + zlen s <= UINT32_MAX →
  valid_enc (encode_string s) ∧
  decode (encode_string s) =
    Some (match Util.string2ll s with Some v => EInt v | None => EStr s end) ∧
  elem_bytes <$> decode (encode_string s) = Some s.
Proof.
  intros Hwf Hl. split; [by apply encode_string_valid|]. unfold encode_string.
  rewrite lpStringToInt64_eq. destruct (Util.string2ll s) as [v|] eqn:Hv.
  - apply Util.string2ll_spec in Hv as [Hv ->]. by rewrite decode_encode_int.
  - by rewrite decode_encode_str.
Qed.

(** A 64-bit integer is stored in the shortest of the six integer forms
    that holds it and is read back unchanged. *)
Theorem encode_integer_roundtrip v :
  is_int64 v →
  valid_enc (lpEncodeIntegerGetType v) ∧ decode (lpEncodeIntegerGetType v) = Some (EInt v) ∧
  zlen (lpEncodeIntegerGetType v) =
    (if (0 <=? v) && (v <? 2 ^ 7) then 1
     else if (- 2 ^ 12 <=? v) && (v <? 2 ^ 12) then 2
     else if (- 2 ^ 15 <=? v) && (v <? 2 ^ 15) then 3
     else if (- 2 ^ 23 <=? v) && (v <? 2 ^ 23) then 4
     else if (- 2 ^ 31 <=? v) && (v <? 2 ^ 31) then 5 else 9).
Proof.
  intros Hv. split; [by apply encode_int_valid|]. split; [by apply decode_encode_int|].
  rewrite encode_int_bytes by done. repeat case_if; try lia; done.
Qed.

(** lpGet and lpCompare on entry [i]: without a buffer lpGet yields the
    integer or the place of the string, with one the decimal form is written
    to it; lpCompare decides equality of the entry with a string. *)
Theorem lpGet_correct lp es i e :
  repr lp es → es !! i = Some e →
  ∃ x, decode e = Some x ∧
    (match x with
     | EInt v => lpGet lp (pos (take i es)) None = Some (RInt v) ∧
         ∀ buf, 21 <= zlen buf → ∃ buf', lpGet lp (pos (take i es)) (Some buf) =
           Some (RBuf (elem_bytes x ++ buf') (zlen (elem_bytes x)))
     | EStr s => ∀ b, ∃ p, lpGet lp (pos (take i es)) b = Some (RStr p (zlen s)) ∧
         rd p (zlen s) lp = Some s
     end) ∧
    ∀ s, lpCompare lp (pos (take i es)) s = Some (bool_decide (elem_bytes x = s)).
Proof.
  intros Hr Hi. pose proof (repr_wf _ _ Hr) as Hwf.
  destruct (repr_entry _ _ _ _ Hr Hi) as (He & P & Q & -> & <-).
  destruct (get_at P e Q He Hwf) as (r & Hr0 & Hok & Hg & _).
  unfold decode, lpGet, lpCompare. rewrite Hr0. cbn [mbind option_bind].
  destruct (valid_head e He) as (b & Hb & Hne).
  apply (byte_at_app P e Q) in Hb. rewrite Z.add_0_r in Hb. rewrite Hb.
  cbn [mbind option_bind]. rewrite (proj2 (Z.eqb_neq _ _) Hne).
  unfold lpGet. rewrite Hg. destruct r as [q c|v|]; simpl in Hok; [| |done].
  - rewrite rd_in by lia. exists (EStr (sub q c e)). split; [done|].
    assert (Hl : zlen (sub q c e) = c) by (apply zlen_sub; lia). split.
    + intros ib. exists (zlen P + q). rewrite (get_intbuf _ _ _ ib Hg), Hl. split; [done|].
      rewrite rd_inside by lia. by rewrite rd_in by lia.
    + intros s. cbn [mbind option_bind shift_ret elem_bytes].
      destruct (zlen s =? c) eqn:Ec; zb.
      * rewrite Ec, rd_inside, rd_in by lia. done.
      * rewrite bool_decide_false; [done|]. intros <-. done.
  - exists (EInt v). split; [done|]. pose proof (get_int_range _ _ _ Hr0) as Hv. split; [split|].
    + done.
    + intros buf Hb21. pose proof (Util.sdec_len v Hv) as Hsl. unfold Util.LONG_STR_SIZE in Hsl.
      set (n := Z.to_nat (zlen (Util.sdec v) + 1)).
      exists ([0] ++ drop n buf). rewrite (get_intbuf _ _ _ _ Hg). unfold int_result, shift_ret.
      rewrite <- (take_drop n buf) at 1.
      assert (E : Util.ll2string (take n buf ++ drop n buf) 0 LP_INTBUF_SIZE v =
        Some (Util.sdec v ++ [0] ++ drop n buf, zlen (Util.sdec v))).
      { apply (Util.ll2string_spec []); [done|rewrite zlen_take; lia|unfold LP_INTBUF_SIZE; lia]. }
      by rewrite E.
    + intros s. cbn [mbind option_bind shift_ret elem_bytes].
      pose proof (string_of_int s v Hv) as Hs. destruct (lpStringToInt64 s) as [w|] eqn:Hw.
      * destruct (v =? w) eqn:E; zb; case_bool_decide as E'; try done.
        -- subst w. exfalso. apply E'. by apply Hs.
        -- apply Hs in E'. congruence.
      * rewrite bool_decide_false; [done|]. intros E. by apply Hs in E.
Qed.

(** lpFind returns the first of the compared entries whose value is the
    string sought, starting at the first entry or at the given one, and NULL
    when there is none; integers stored in binary are compared by value. *)
Theorem lpFind_correct lp es i s skip :
  repr lp es → (i < length es)%nat ∨ i = O →
  let found := (λ j, pos (take (i + j) es)) <$> find_elem s skip 0 (drop i es) in
  lpFind lp (ptr es i) s (Z.of_nat skip) = Some found ∧
  (i = O → lpFind lp None s (Z.of_nat skip) = Some found).
Proof.
  intros Hr Hi found. pose proof (repr_wf _ _ Hr) as Hwf.
  destruct Hr as (num & slack & -> & _ & He & Ht & _).
  assert (Hall : ∀ e r, es = take i es ++ e :: r →
    find_loop lpFindCmp (S (length (image num es slack))) (image num es slack) (total es)
      (pos (take i es)) {| arg_s := s; vencoding := 0; vll := 0 |} (Z.of_nat skip) 0 123456789
    = Some found).
  { intros e r Es. pose proof (zlen_body_ge es He). pose proof (image_len num es slack).
    pose proof (zlen_nonneg slack). assert (Hl : length (take i es) = i).
    { rewrite length_take. apply (f_equal length) in Es. rewrite length_app in Es. simpl in Es.
      rewrite length_take in Es. lia. }
    assert (length r < S (length (image num es slack)))%nat.
    { apply (f_equal length) in Es. rewrite length_app in Es. simpl in Es.
      unfold total, LP_HDR_SIZE, zlen in *. lia. }
    etransitivity;
      [apply (find_loop_image num es slack He Ht Hwf s skip _ (take i es) e r _ 0);
       [done|split; [done|by left]|done]|].
    unfold found. assert (drop i es = e :: r) as ->; [|by rewrite Hl].
    rewrite Es at 1. rewrite drop_app_ge by lia. by rewrite Hl, Nat.sub_diag. }
  unfold lpFind, lpFindCbInternal, lpBytes. rewrite total_bytes_image by done.
  cbn [mbind option_bind]. rewrite lpFirst_image by done.
  destruct (decide (i < length es)%nat) as [Hlt|Hge].
  - destruct (split_at es i Hlt) as (e & r & Es & _ & _ & _).
    unfold ptr. rewrite decide_True by done. split; [by eapply Hall|].
    intros ->. cbn [mbind option_bind]. rewrite decide_True by done. by eapply Hall.
  - destruct Hi as [?| ->]; [lia|]. destruct es; [done|]. simpl in Hge. lia.
Qed.

(** ** Witnesses *)

Lemma encode_string_roundtrip_witness :
  wf_bytes (bytes_of_string "-123") ∧
  elem_bytes <$> decode (encode_string (bytes_of_string "-123")) = Some (bytes_of_string "-123").
Proof.
  assert (H : wf_bytes (bytes_of_string "-123")) by by apply wf_bytesb_spec.
  split; [exact H|]. apply (encode_string_roundtrip (bytes_of_string "-123") H).
  vm_compute. discriminate.
Defined.

Lemma encode_integer_roundtrip_witness :
  is_int64 (-4097) ∧ zlen (lpEncodeIntegerGetType (-4097)) = 3.
Proof.
  assert (H : is_int64 (-4097)) by (unfold is_int64, INT64_MIN, INT64_MAX; lia).
  split; [exact H|]. exact (proj2 (proj2 (encode_integer_roundtrip (-4097) H))).
Defined.

Lemma lpGet_correct_witness :
  repr (image 2 ex_es [7]) ex_es ∧
  lpCompare (image 2 ex_es [7]) (pos (take 1 ex_es)) (bytes_of_string "ab") = Some true.
Proof.
  split; [exact ex_repr|].
  destruct (lpGet_correct _ ex_es 1 [130; 97; 98] ex_repr eq_refl) as (x & Hx & _ & Hc).
  rewrite Hc. injection Hx as <-. reflexivity.
Defined.

Lemma lpFind_correct_witness :
  repr (image 2 ex_es [7]) ex_es ∧
  lpFind (image 2 ex_es [7]) None (bytes_of_string "ab") 0 = Some (Some 8).
Proof.
  split; [exact ex_repr|].
  exact (proj2 (lpFind_correct _ ex_es 0 (bytes_of_string "ab") 0 ex_repr (or_intror eq_refl)) eq_refl).
Defined.

End ListpackElem.
