(* ===== verification/ListpackEdit.v ===== *)
(** * Listpacks: modification

    Creation, insertion, replacement, deletion (single, ranges, batches) and
    merging of listpacks (src/redis-stable/src/listpack.c), with their
    refinement of the corresponding operations on the sequence of entries.

    Results: an outer [None] is an out-of-bounds access or a failed assertion,
    [Some None] the C [NULL] returned when the new size does not fit 32 bits.
    Allocation never fails (zmalloc aborts the process). [lp_malloc_size] is
    the length of the allocation. *)

From Stdlib Require Import String.
From S2P Require Import Prelude Util Listpack ListpackRepr ListpackElem.

Module ListpackEdit.
Import Listpack ListpackRepr ListpackElem.

Section Ops.
(** What the allocator leaves in fresh memory. *)
Context (junk : Z).

Definition lpNew (capacity : Z) : option (list Z) :=
  let lp := replicate (Z.to_nat (if LP_HDR_SIZE + 1 <? capacity then capacity
                                 else LP_HDR_SIZE + 1)) junk in
  lp ← lpSetTotalBytes lp (LP_HDR_SIZE + 1);
  lp ← lpSetNumElements lp 0;
  wr LP_HDR_SIZE [LP_EOF] lp.

Definition lpShrinkToFit (lp : list Z) : option (list Z) :=
  size ← lpGetTotalBytes lp;
  Some (if size <? zlen lp then zrealloc junk size lp else lp).

Inductive lpwhere := LP_BEFORE | LP_AFTER | LP_REPLACE.

#[global] Instance lpwhere_eq_dec : EqDecision lpwhere.
Proof. solve_decision. Defined.

Definition ASSERT_INTEGRITY (lp : list Z) (p : Z) : option unit :=
  n ← lpGetTotalBytes lp;
  if (LP_HDR_SIZE <=? p) && (p <? n) then Some tt else None.

Definition ASSERT_INTEGRITY_LEN (lp : list Z) (p len : Z) : option unit :=
  n ← lpGetTotalBytes lp;
  if (LP_HDR_SIZE <=? p) && (p + len <? n) then Some tt else None.

(** The part of lpInsert that follows the encoding of the element: [enc] are
    its [enclen] bytes, [where_] is LP_BEFORE or LP_REPLACE.  The second
    component of the result is [*newp]. *)
Definition insert_encoded (lp : list Z) (p : Z) (where_ : lpwhere) (delete : bool)
    (enclen : Z) (enc : list Z) : option (option (list Z * option Z)) :=
  let poff := p in
  let backlen := if delete then [] else lpEncodeBacklen enclen in
  let backlen_size := zlen backlen in
  old_listpack_bytes ← lpGetTotalBytes lp;
  replaced_len ← (if decide (where_ = LP_REPLACE)
                  then n ← lpCurrentEncodedSizeUnsafe lp p;
                       let n := uwrap 32 (n + lpEncodeBacklenBytes n) in
                       _ ← ASSERT_INTEGRITY_LEN lp p n; Some n
                  else Some 0);
  let new_listpack_bytes := uwrap 64 (old_listpack_bytes + enclen + backlen_size - replaced_len) in
  if UINT32_MAX <? new_listpack_bytes then Some None
  else
    let dst := poff in
    let lp := if (old_listpack_bytes <? new_listpack_bytes) && (zlen lp <? new_listpack_bytes)
              then zrealloc junk new_listpack_bytes lp else lp in
    lp ← (if decide (where_ = LP_BEFORE)
          then memmove (dst + enclen + backlen_size) dst (old_listpack_bytes - poff) lp
          else memmove (dst + enclen + backlen_size) (dst + replaced_len)
                 (old_listpack_bytes - poff - replaced_len) lp);
    let lp := if new_listpack_bytes <? old_listpack_bytes
              then zrealloc junk new_listpack_bytes lp else lp in
    newp ← (if delete then d0 ← byte_at dst lp; Some (if d0 =? LP_EOF then None else Some dst)
            else Some (Some dst));
    lp ← (if delete then Some lp
          else lp ← wr dst enc lp; wr (dst + enclen) backlen lp);
    lp ← (if negb (bool_decide (where_ = LP_REPLACE)) || delete then
            num_elements ← lpGetNumElements lp;
            if negb (num_elements =? LP_HDR_NUMELE_UNKNOWN) then
              lpSetNumElements lp (if delete then num_elements - 1 else num_elements + 1)
            else Some lp
          else Some lp);
    lp ← lpSetTotalBytes lp new_listpack_bytes;
    Some (Some (lp, newp)).

(** [enclen] and the bytes later stored for a string: the integer form in
    [intenc], or the string written by lpEncodeString. *)
Definition enc_str (s : list Z) : Z * list Z :=
  match lpEncodeGetType s with
  | inl intenc => (zlen intenc, intenc)
  | inr enclen => (enclen, lpEncodeString s)
  end.

(** [elestr] and [eleint] as in C ([size] is the length of the one given). *)
Definition lpInsert (lp : list Z) (elestr eleint : option (list Z)) (p : Z) (where_ : lpwhere)
  : option (option (list Z * option Z)) :=
  let delete := match elestr, eleint with None, None => true | _, _ => false end in
  let where_ := if delete then LP_REPLACE else where_ in
  '(p, where_) ← (if decide (where_ = LP_AFTER)
                  then p ← lpSkip lp p; _ ← ASSERT_INTEGRITY lp p; Some (p, LP_BEFORE)
                  else Some (p, where_));
  let '(enclen, enc) :=
    match elestr, eleint with
    | Some s, _ => enc_str s
    | None, Some eleint => (zlen eleint, eleint)
    | None, None => (0, [])
    end in
  insert_encoded lp p where_ delete enclen enc.

Definition lpInsertString (lp s : list Z) (p : Z) (where_ : lpwhere) :=
  lpInsert lp (Some s) None p where_.

Definition lpInsertInteger (lp : list Z) (lval p : Z) (where_ : lpwhere) :=
  lpInsert lp None (Some (lpEncodeIntegerGetType lval)) p where_.

Definition lpAppend (lp ele : list Z) : option (option (list Z * option Z)) :=
  listpack_bytes ← lpGetTotalBytes lp;
  let eofptr := listpack_bytes - 1 in
  lpInsert lp (Some ele) None eofptr LP_BEFORE.

Definition lpAppendInteger (lp : list Z) (lval : Z) : option (option (list Z * option Z)) :=
  listpack_bytes ← lpGetTotalBytes lp;
  let eofptr := listpack_bytes - 1 in
  lpInsertInteger lp lval eofptr LP_BEFORE.

Definition lpPrepend (lp s : list Z) : option (option (list Z * option Z)) :=
  p ← lpFirst lp;
  match p with
  | None => lpAppend lp s
  | Some p => lpInsert lp (Some s) None p LP_BEFORE
  end.

Definition lpPrependInteger (lp : list Z) (lval : Z) : option (option (list Z * option Z)) :=
  p ← lpFirst lp;
  match p with
  | None => lpAppendInteger lp lval
  | Some p => lpInsertInteger lp lval p LP_BEFORE
  end.

Definition lpReplace (lp : list Z) (p : Z) (s : list Z) := lpInsert lp (Some s) None p LP_REPLACE.
Definition lpReplaceInteger (lp : list Z) (p lval : Z) := lpInsertInteger lp lval p LP_REPLACE.
Definition lpDelete (lp : list Z) (p : Z) := lpInsert lp None None p LP_REPLACE.

(** ** Batches *)

(** A [listpackEntry]: a string, or an integer when [sval] is NULL. *)
Definition listpackEntry : Type := list Z + Z.

(** [enclen] and the bytes stored for one entry. *)
Definition batch_enc (e : listpackEntry) : Z * list Z :=
  match e with
  | inl s => enc_str s
  | inr lval => (zlen (lpEncodeIntegerGetType lval), lpEncodeIntegerGetType lval)
  end.

(** The second loop: store the entries one after the other. *)
Fixpoint store_loop (entries : list listpackEntry) (lp : list Z) (dst : Z) (newp : option Z)
  : option (list Z * option Z) :=
  match entries with
  | [] => Some (lp, newp)
  | e :: entries =>
      let '(enclen, enc) := batch_enc e in
      lp ← wr dst enc lp;
      let backlen := lpEncodeBacklen enclen in
      lp ← wr (dst + enclen) backlen lp;
      store_loop entries lp (dst + enclen + zlen backlen) (Some dst)
  end.

Definition lpBatchInsert (lp : list Z) (p : Z) (where_ : lpwhere) (entries : list listpackEntry)
  : option (option (list Z * option Z)) :=
  if bool_decide (where_ = LP_REPLACE) || bool_decide (entries = []) then None
  else
    p ← (if decide (where_ = LP_AFTER)
         then p ← lpSkip lp p; _ ← ASSERT_INTEGRITY lp p; Some p
         else Some p);
    let addedlen := foldl (λ a e, let '(enclen, _) := batch_enc e in
                             uwrap 64 (a + enclen + zlen (lpEncodeBacklen enclen))) 0 entries in
    old_listpack_bytes ← lpGetTotalBytes lp;
    let new_listpack_bytes := uwrap 64 (old_listpack_bytes + addedlen) in
    if UINT32_MAX <? new_listpack_bytes then Some None
    else
      let poff := p in
      let dst := poff in
      let lp := if (old_listpack_bytes <? new_listpack_bytes) && (zlen lp <? new_listpack_bytes)
                then zrealloc junk new_listpack_bytes lp else lp in
      lp ← memmove (dst + addedlen) dst (old_listpack_bytes - poff) lp;
      '(lp, newp) ← store_loop entries lp dst None;
      num_elements ← lpGetNumElements lp;
      lp ← (if negb (num_elements =? LP_HDR_NUMELE_UNKNOWN) then
              if LP_HDR_NUMELE_UNKNOWN - num_elements <? zlen entries
              then lpSetNumElements lp LP_HDR_NUMELE_UNKNOWN
              else lpSetNumElements lp (num_elements + zlen entries)
            else Some lp);
      lp ← lpSetTotalBytes lp new_listpack_bytes;
      Some (Some (lp, newp)).

Definition lpBatchAppend (lp : list Z) (entries : list listpackEntry)
  : option (option (list Z * option Z)) :=
  listpack_bytes ← lpGetTotalBytes lp;
  let eofptr := listpack_bytes - 1 in
  lpBatchInsert lp eofptr LP_BEFORE entries.

(** ** Ranges *)

(** [while (num--) { ... }]: the position after the last entry to delete and
    the number of entries passed. *)
Fixpoint range_loop (num : nat) (lp : list Z) (bytes tail deleted : Z) : option (Z * Z) :=
  match num with
  | O => Some (tail, deleted)
  | S num =>
      let deleted := deleted + 1 in
      tail ← lpSkip lp tail;
      b ← byte_at tail lp;
      if b =? LP_EOF then Some (tail, deleted)
      else _ ← lpAssertValidEntry lp bytes tail; range_loop num lp bytes tail deleted
  end.

(** Returns the listpack and the new value of [*p]. *)
Definition lpDeleteRangeWithEntry (lp : list Z) (p num : Z) : option (list Z * option Z) :=
  bytes ← lpBytes lp;
  let eofptr := bytes - 1 in
  let first := p in
  if num =? 0 then Some (lp, Some p)
  else
    '(tail, deleted) ← range_loop (Z.to_nat num) lp bytes first 0;
    let poff := first in
    lp ← memmove first tail (eofptr - tail + 1) lp;
    lp ← lpSetTotalBytes lp (bytes - (tail - first));
    numele ← lpGetNumElements lp;
    lp ← (if negb (numele =? LP_HDR_NUMELE_UNKNOWN)
          then lpSetNumElements lp (numele - deleted) else Some lp);
    lp ← lpShrinkToFit lp;
    b ← byte_at poff lp;
    Some (lp, if b =? LP_EOF then None else Some poff).

Definition lpDeleteRange (lp : list Z) (index num : Z) : option (list Z) :=
  numele ← lpGetNumElements lp;
  if num =? 0 then Some lp
  else
    p ← lpSeek lp index;
    match p with
    | None => Some lp
    | Some p =>
        let index := if negb (numele =? LP_HDR_NUMELE_UNKNOWN) && (index <? 0)
                     then numele + index else index in
        if negb (numele =? LP_HDR_NUMELE_UNKNOWN) && (uwrap 64 (numele - uwrap 64 index) <=? num)
        then
          lp ← wr p [LP_EOF] lp;
          lp ← lpSetTotalBytes lp (p + 1);
          lp ← lpSetNumElements lp index;
          lpShrinkToFit lp
        else
          '(lp, _) ← lpDeleteRangeWithEntry lp p num;
          Some lp
    end.

(** The loop of lpBatchDelete over [ps]; returns the final [dst]. *)
Fixpoint batch_delete_loop (ps : list Z) (lp : list Z) (lp_end dst : Z)
  : option (list Z * Z) :=
  match ps with
  | [] => Some (lp, dst)
  | skip :: ps =>
      b ← byte_at skip lp;
      if b =? LP_EOF then None
      else
        keep_start ← lpSkip lp skip;
        let keep_end := match ps with q :: _ => q | [] => lp_end end in
        if match ps with _ :: _ => keep_start =? keep_end | [] => false end
        then batch_delete_loop ps lp lp_end dst
        else if negb (keep_start <? keep_end) then None
        else
          let bytes_to_keep := keep_end - keep_start in
          lp ← memmove dst keep_start bytes_to_keep lp;
          batch_delete_loop ps lp lp_end (dst + bytes_to_keep)
  end.

Definition lpBatchDelete (lp : list Z) (ps : list Z) : option (list Z) :=
  match ps with
  | [] => Some lp
  | dst :: _ =>
      total_bytes ← lpGetTotalBytes lp;
      let lp_end := total_bytes in
      e ← byte_at (lp_end - 1) lp;
      if negb (e =? LP_EOF) then None
      else
        '(lp, dst) ← batch_delete_loop ps lp lp_end dst;
        let deleted_bytes := lp_end - dst in
        let total_bytes := total_bytes - deleted_bytes in
        e ← byte_at (total_bytes - 1) lp;
        if negb (e =? LP_EOF) then None
        else
          lp ← lpSetTotalBytes lp total_bytes;
          numele ← lpGetNumElements lp;
          lp ← (if negb (numele =? LP_HDR_NUMELE_UNKNOWN)
                then lpSetNumElements lp (numele - zlen ps) else Some lp);
          lpShrinkToFit lp
  end.

(** [lpMerge(&first, &second)] for two distinct listpacks: the merged
    listpack and whether it is the reallocated [first]. *)
Definition lpMerge (first second : list Z) : option (list Z * bool) :=
  first_bytes ← lpBytes first;
  '(first_len, first) ← lpLength first;
  second_bytes ← lpBytes second;
  '(second_len, second) ← lpLength second;
  let append := second_bytes <=? first_bytes in
  let '(target, target_bytes, source, source_bytes) :=
    if append then (first, first_bytes, second, second_bytes)
    else (second, second_bytes, first, first_bytes) in
  let lpbytes := first_bytes + second_bytes - LP_HDR_SIZE - 1 in
  if negb (lpbytes <? UINT32_MAX) then None
  else
    let lplength := first_len + second_len in
    let lplength := if lplength <? UINT16_MAX then lplength else UINT16_MAX in
    let target := zrealloc junk lpbytes target in
    target ← (if append then
                src ← rd LP_HDR_SIZE (source_bytes - LP_HDR_SIZE) source;
                wr (target_bytes - 1) src target
              else
                target ← memmove (source_bytes - 1) LP_HDR_SIZE (target_bytes - LP_HDR_SIZE) target;
                src ← rd 0 (source_bytes - 1) source;
                wr 0 src target);
    target ← lpSetNumElements target lplength;
    target ← lpSetTotalBytes target lpbytes;
    Some (target, append).

Definition lpDup (lp : list Z) : option (list Z) :=
  lpbytes ← lpBytes lp;
  src ← rd 0 lpbytes lp;
  wr 0 src (replicate (Z.to_nat lpbytes) junk).
End Ops.

Definition lpEntrySizeInteger (lval : Z) : Z :=
  let enclen := zlen (lpEncodeIntegerGetType lval) in
  let backlen := lpEncodeBacklenBytes enclen in
  enclen + backlen.

Definition lpEstimateBytesRepeatedInteger (lval rep : Z) : Z :=
  uwrap 64 (LP_HDR_SIZE + uwrap 64 (lpEntrySizeInteger lval * rep) + 1).

(** ** Making room: reallocation and memmove *)

(** The moves common to all modifications: replace the bytes [x] between [P]
    and the tail [q] by a hole of [k] bytes, reallocating when it does not fit
    the allocation, and giving memory back when the listpack shrinks. *)
Lemma splice junk P x q slack k new old :
  0 <= k → old = zlen (P ++ x ++ q) → new = old + k - zlen x → wf_bytes slack → wf_bytes q →
  wf_bytes x →
  let lp := P ++ x ++ q ++ slack in
  let lp1 := if (old <? new) && (zlen lp <? new) then zrealloc junk new lp else lp in
  ∃ lp2 hole slack',
    memmove (zlen P + k) (zlen P + zlen x) (zlen q) lp1 = Some lp2 ∧
    (if new <? old then zrealloc junk new lp2 else lp2) = P ++ hole ++ q ++ slack' ∧
    zlen hole = k ∧ wf_bytes slack'.
Proof.
  intros Hk Hold Hnew Hs Hq Hx lp lp1.
  pose proof (zlen_nonneg P). pose proof (zlen_nonneg x). pose proof (zlen_nonneg q).
  pose proof (zlen_nonneg slack). rewrite !zlen_app in Hold.
  assert (Hlp : zlen lp = zlen P + zlen x + zlen q + zlen slack)
    by (unfold lp; rewrite !zlen_app; lia).
  assert (HX : ∃ rest, lp1 = P ++ (x ++ q ++ rest) ∧ k + zlen q <= zlen (x ++ q ++ rest) ∧
    wf_bytes (drop (Z.to_nat (k + zlen q)) (x ++ q ++ rest))).
  { subst lp1. destruct ((old <? new) && (zlen lp <? new)) eqn:E; zb.
    - set (t := replicate (Z.to_nat (new - zlen lp)) junk).
      exists (slack ++ t).
      assert (Hl : zlen (x ++ q ++ slack ++ t) = k + zlen q)
        by (unfold t; rewrite !zlen_app, zlen_replicate; lia).
      split_and!; [|lia|].
      + rewrite zrealloc_grow by lia. unfold lp, t. by rewrite <- !app_assoc.
      + rewrite drop_ge; [constructor|]. unfold zlen in *. lia.
    - exists slack. split_and!; [done| |apply Forall_drop; by repeat apply Forall_app_2].
      rewrite !zlen_app. lia. }
  destruct HX as (rest & -> & HXl & HXw). set (X := x ++ q ++ rest) in *.
  assert (Hr : rd (zlen P + zlen x) (zlen q) (P ++ X) = Some q).
  { unfold X. rewrite app_assoc. apply rd_at; [by rewrite zlen_app|done]. }
  rewrite (memmove_into P X q _ k Hk HXl Hr).
  set (hole := take (Z.to_nat k) X) in *.
  assert (Hhl : zlen hole = k).
  { unfold hole. rewrite zlen_take. lia. }
  eexists _, hole, (if new <? old then [] else drop (Z.to_nat (k + zlen q)) X).
  split_and!; [done| |done|].
  - destruct (new <? old) eqn:E; zb; [|done].
    rewrite zrealloc_shrink.
    + rewrite !app_assoc.
      replace new with (zlen ((P ++ hole) ++ q)) by (rewrite !zlen_app; lia).
      rewrite take_app_zlen, app_nil_r. done.
    + rewrite !zlen_app, zlen_drop. lia.
  - destruct (new <? old); [constructor|done].
Qed.

Lemma enc_str_spec s : enc_str s = (zlen (encode_string s), encode_string s).
Proof.
  unfold enc_str, lpEncodeGetType, encode_string. destruct (lpStringToInt64 s); [done|].
  f_equal. unfold lpEncodeString. repeat case_if; rewrite zlen_app; done.
Qed.

(** The updates of the element count. *)
Lemma num_ok_insert num (l ys r : list (list Z)) :
  num_ok num (l ++ r) → zlen ys = 1 →
  num_ok (if num =? LP_HDR_NUMELE_UNKNOWN then num else num + 1) (l ++ ys ++ r).
Proof.
  unfold num_ok. rewrite !zlen_app. intros [->|[-> Hlt]] Hy; [by left|].
  rewrite (proj2 (Z.eqb_neq _ _)) by lia. lia.
Qed.

Lemma num_ok_delete num (l xs r : list (list Z)) :
  num_ok num (l ++ xs ++ r) →
  num_ok (if num =? LP_HDR_NUMELE_UNKNOWN then num else num - zlen xs) (l ++ r).
Proof.
  unfold num_ok. rewrite !zlen_app. intros [->|[-> Hlt]]; [by left|].
  pose proof (zlen_nonneg xs).
  rewrite (proj2 (Z.eqb_neq _ _)) by lia. lia.
Qed.

Lemma num_ok_same num (l xs ys r : list (list Z)) :
  num_ok num (l ++ xs ++ r) → zlen xs = zlen ys → num_ok num (l ++ ys ++ r).
Proof. unfold num_ok. rewrite !zlen_app. lia. Qed.

Lemma total_app l xs r : total (l ++ xs ++ r) = pos l + zlen (body xs) + zlen (body r) + 1.
Proof. unfold total, pos. rewrite !body_app, !zlen_app. lia. Qed.

Lemma body_single e : body [e] = entry e.
Proof. unfold body. simpl. apply app_nil_r. Qed.

(** What one insertion, replacement or deletion is about: the entries before
    and after, the entries [xs] replaced and the entries [ys] stored. *)
Inductive edit (where_ : lpwhere) : bool → list (list Z) → list (list Z) → Prop :=
  | edit_insert e : where_ = LP_BEFORE → edit where_ false [] [e]
  | edit_replace e0 e : where_ = LP_REPLACE → edit where_ false [e0] [e]
  | edit_delete e0 : where_ = LP_REPLACE → edit where_ true [e0] [].

Lemma wr_two (P hole q a b : list Z) :
  zlen hole = zlen a + zlen b →
  (lp ← wr (zlen P) a (P ++ hole ++ q); wr (zlen P + zlen a) b lp) = Some (P ++ a ++ b ++ q).
Proof.
  intros Hl. pose proof (zlen_nonneg a). pose proof (zlen_nonneg b).
  rewrite <- (take_drop (length a) hole), <- app_assoc.
  rewrite (wr_at P (take (length a) hole)) by (done || rewrite zlen_take; unfold zlen in *; lia).
  cbn [mbind option_bind]. rewrite app_assoc.
  rewrite (wr_at (P ++ a) (drop (length a) hole)).
  - by rewrite <- app_assoc.
  - by rewrite zlen_app.
  - rewrite zlen_drop. unfold zlen in *. lia.
Qed.

(** The element count after an edit. *)
Definition edit_num (where_ : lpwhere) (delete : bool) (num : Z) : Z :=
  if num =? LP_HDR_NUMELE_UNKNOWN then num
  else if delete then num - 1
  else if bool_decide (where_ = LP_REPLACE) then num else num + 1.

Lemma edit_num_ok where_ delete xs ys num l r :
  edit where_ delete xs ys → num_ok num (l ++ xs ++ r) →
  num_ok (edit_num where_ delete num) (l ++ ys ++ r).
Proof.
  unfold edit_num. intros [e ->|e0 e ->|e0 ->] H; cbn.
  - by apply (num_ok_insert num l [e] r).
  - destruct (num =? LP_HDR_NUMELE_UNKNOWN); by apply (num_ok_same num l [e0] [e] r).
  - by apply (num_ok_delete num l [e0] r).
Qed.

(** The header updates at the end of an edit. *)
Lemma edit_header where_ delete xs ys n num m rest :
  edit where_ delete xs ys → 0 <= num <= UINT16_MAX →
  (lp ← (if negb (bool_decide (where_ = LP_REPLACE)) || delete then
           num_elements ← lpGetNumElements (header n num ++ rest);
           if negb (num_elements =? LP_HDR_NUMELE_UNKNOWN) then
             lpSetNumElements (header n num ++ rest)
               (if delete then num_elements - 1 else num_elements + 1)
           else Some (header n num ++ rest)
         else Some (header n num ++ rest));
   lpSetTotalBytes lp m) = Some (header m (edit_num where_ delete num) ++ rest).
Proof.
  intros He Hn. rewrite get_num_header by done. unfold edit_num.
  destruct He as [e ->|e0 e ->|e0 ->]; case_bool_decide; try done; cbn [negb orb mbind option_bind];
    destruct (num =? LP_HDR_NUMELE_UNKNOWN); cbn [negb];
    rewrite ?set_num_header; cbn [mbind option_bind]; by rewrite set_total_header.
Qed.

(** The length of the entry that is replaced. *)
Lemma edit_replaced where_ delete xs ys num l r slack :
  edit where_ delete xs ys → Forall valid_enc xs → total (l ++ xs ++ r) <= UINT32_MAX →
  (if decide (where_ = LP_REPLACE)
   then n ← lpCurrentEncodedSizeUnsafe (image num (l ++ xs ++ r) slack) (pos l);
        let n := uwrap 32 (n + lpEncodeBacklenBytes n) in
        _ ← ASSERT_INTEGRITY_LEN (image num (l ++ xs ++ r) slack) (pos l) n; Some n
   else Some 0) = Some (zlen (body xs)).
Proof.
  intros He Hv Ht.
  assert (Hr : ∀ e0, xs = [e0] → (n ← lpCurrentEncodedSizeUnsafe (image num (l ++ xs ++ r) slack) (pos l);
        let n := uwrap 32 (n + lpEncodeBacklenBytes n) in
        _ ← ASSERT_INTEGRITY_LEN (image num (l ++ xs ++ r) slack) (pos l) n; Some n)
        = Some (zlen (body xs))).
  { intros e0 ->. apply Forall_inv in Hv. change ([e0] ++ r) with (e0 :: r) in *.
    rewrite size_at by done. cbn [mbind option_bind].
    pose proof (pos_range l). pose proof (zlen_nonneg (body r)). pose proof (zlen_nonneg (body [e0])).
    pose proof (total_app l [e0] r) as Hta. change ([e0] ++ r) with (e0 :: r) in Hta.
    rewrite body_single, zlen_entry in *. unfold LP_HDR_SIZE, UINT32_MAX in *.
    rewrite (uwrap_id 32) by lia. unfold ASSERT_INTEGRITY_LEN.
    rewrite total_bytes_image by done. cbn [mbind option_bind].
    unfold LP_HDR_SIZE. case_if; [done|lia]. }
  destruct He as [e ->|e0 e ->|e0 ->]; [done|by eapply Hr..].
Qed.

Lemma edit_before where_ delete xs ys :
  edit where_ delete xs ys → where_ = LP_BEFORE → zlen (body xs) = 0.
Proof. by intros [e ->|e0 e ->|e0 ->]. Qed.

(** [*newp] after an edit. *)
Lemma edit_newp where_ delete xs ys (P hole slack : list Z) l r :
  edit where_ delete xs ys → Forall valid_enc r → zlen P = pos l → zlen hole = zlen (body ys) →
  (if delete then d0 ← byte_at (zlen P) (P ++ hole ++ (body r ++ [LP_EOF]) ++ slack);
     Some (if d0 =? LP_EOF then None else Some (zlen P)) else Some (Some (zlen P)))
  = Some (ptr (l ++ ys ++ r) (length l)).
Proof.
  intros He Hr HP Hh. destruct He as [e _|e0 e _|e0 _].
  - change ([e] ++ r) with (e :: r). by rewrite ptr_split, HP.
  - change ([e] ++ r) with (e :: r). by rewrite ptr_split, HP.
  - change ([] ++ r) with r. apply zlen_0_nil in Hh as ->. rewrite app_nil_l.
    destruct r as [|e1 r].
    + rewrite app_nil_r, ptr_end.
      change ((body [] ++ [LP_EOF]) ++ slack) with (LP_EOF :: slack).
      by rewrite (byte_at_mid P LP_EOF).
    + apply Forall_inv in Hr. rewrite ptr_split. destruct (valid_head e1 Hr) as (b & Hb1 & Hne).
      rewrite body_cons. unfold entry. rewrite <- !app_assoc.
      pose proof (byte_at_app P e1 (lpEncodeBacklen (zlen e1) ++ body r ++ [LP_EOF] ++ slack) 0 b
        Hb1) as Hb. rewrite Z.add_0_r in Hb. rewrite Hb.
      cbn [mbind option_bind]. case_if; [done|]. by rewrite HP.
Qed.

Section Insert.
Context (junk num : Z) (l xs ys r : list (list Z)) (slack : list Z).
Context (where_ : lpwhere) (delete : bool) (enc : list Z).
Context (Hedit : edit where_ delete xs ys) (Henc : enc = default [] (head ys)).
Context (Hnum : num_ok num (l ++ xs ++ r)) (Hes : Forall valid_enc (l ++ xs ++ r)).
Context (Ht : total (l ++ xs ++ r) <= UINT32_MAX) (Hsl : wf_bytes slack).
Context (Hlen : zlen enc <= UINT32_MAX + 5).
Context (Hys : total (l ++ ys ++ r) <= UINT32_MAX → Forall valid_enc ys).

Let backlen := if delete then [] else lpEncodeBacklen (zlen enc).

Lemma edit_body : body ys = enc ++ backlen.
Proof using Hedit Henc.
  unfold backlen. rewrite Henc. clear -Hedit. by destruct Hedit; [apply body_single..|].
Qed.

Lemma insert_encoded_spec :
  insert_encoded junk (image num (l ++ xs ++ r) slack) (pos l) where_ delete (zlen enc) enc
  = Some None ∧ UINT32_MAX < total (l ++ ys ++ r) ∨
  total (l ++ ys ++ r) <= UINT32_MAX ∧ ∃ lp',
    insert_encoded junk (image num (l ++ xs ++ r) slack) (pos l) where_ delete (zlen enc) enc
    = Some (Some (lp', ptr (l ++ ys ++ r) (length l))) ∧ repr lp' (l ++ ys ++ r).
Proof using All.
  apply Forall_app in Hes as Hes'. destruct Hes' as [Hl Hxr].
  apply Forall_app in Hxr as [Hx Hr].
  unfold insert_encoded. fold backlen. rewrite total_bytes_image by done.
  cbn [mbind option_bind]. rewrite (edit_replaced _ _ _ _ _ _ _ _ Hedit Hx Ht).
  cbn [mbind option_bind].
  pose proof edit_body as Hb. pose proof (total_app l xs r) as Tx. pose proof (total_app l ys r) as Ty.
  assert (Hk : zlen (body ys) = zlen enc + zlen backlen) by (rewrite Hb, zlen_app; done).
  pose proof (zlen_nonneg (body xs)). pose proof (zlen_nonneg (body r)).
  pose proof (pos_range l). pose proof (zlen_nonneg enc). pose proof (zlen_nonneg backlen).
  assert (zlen backlen <= 5).
  { subst backlen. destruct delete; [vm_compute; discriminate|].
    rewrite backlen_len. apply backlen_bytes_range. }
  unfold LP_HDR_SIZE, UINT32_MAX in *.
  replace (uwrap 64 (total (l ++ xs ++ r) + zlen enc + zlen backlen - zlen (body xs)))
    with (total (l ++ ys ++ r)) by (rewrite (uwrap_id 64); lia).
  destruct (4294967295 <? total (l ++ ys ++ r)) eqn:Hmax; zb; [left; done|right].
  split; [done|]. specialize (Hys Hmax).
  (* the moves *)
  set (P := header (total (l ++ xs ++ r)) num ++ body l).
  set (q := body r ++ [LP_EOF]).
  assert (HP : zlen P = pos l) by apply pos_header.
  assert (Hq : zlen q = zlen (body r) + 1) by (unfold q; by rewrite zlen_app).
  assert (Hlp : image num (l ++ xs ++ r) slack = P ++ body xs ++ q ++ slack).
  { unfold image, P, q. rewrite !body_app, <- !app_assoc. done. }
  destruct (splice junk P (body xs) q slack (zlen (body ys)) (total (l ++ ys ++ r))
    (total (l ++ xs ++ r))) as (lp2 & hole & slack' & Hmm & Hlp2 & Hhole & Hsl');
    [lia|rewrite !zlen_app; lia|lia|done| |by apply body_wf|].
  { apply Forall_app. split; [by apply body_wf|]. constructor; [unfold is_byte, LP_EOF; lia|done]. }
  rewrite <- Hlp in Hmm.
  match type of Hmm with memmove _ _ _ ?t = _ => set (lp1 := t) in * end.
  assert ((if decide (where_ = LP_BEFORE)
    then memmove (pos l + zlen enc + zlen backlen) (pos l) (total (l ++ xs ++ r) - pos l) lp1
    else memmove (pos l + zlen enc + zlen backlen) (pos l + zlen (body xs))
      (total (l ++ xs ++ r) - pos l - zlen (body xs)) lp1) = Some lp2) as ->.
  { rewrite <- Hmm, HP. pose proof (edit_before _ _ _ _ Hedit) as Hbf.
    destruct (decide (where_ = LP_BEFORE)) as [Hw|_]; [specialize (Hbf Hw)|]; f_equal; lia. }
  cbn [mbind option_bind]. rewrite Hlp2.
  (* the stores *)
  assert (Hnewp : (if delete then d0 ← byte_at (pos l) (P ++ hole ++ q ++ slack');
      Some (if d0 =? LP_EOF then None else Some (pos l)) else Some (Some (pos l)))
    = Some (ptr (l ++ ys ++ r) (length l))).
  { rewrite <- HP. by apply (edit_newp where_ delete xs). }
  rewrite Hnewp. cbn [mbind option_bind].
  assert ((if delete then Some (P ++ hole ++ q ++ slack') else
      lp ← wr (pos l) enc (P ++ hole ++ q ++ slack'); wr (pos l + zlen enc) backlen lp)
    = Some (P ++ body ys ++ q ++ slack')) as ->.
  { rewrite <- HP, Hb, <- app_assoc. destruct delete eqn:Hd.
    - assert (enc = []) as -> by (by rewrite Henc; inversion Hedit). subst backlen.
      rewrite Hb in Hhole. by apply zlen_0_nil in Hhole as ->.
    - apply wr_two. by rewrite Hhole, Hk. }
  cbn [mbind option_bind].
  assert (P ++ body ys ++ q ++ slack' = header (total (l ++ xs ++ r)) num ++
    (body (l ++ ys ++ r) ++ [LP_EOF] ++ slack')) as ->.
  { unfold P, q. rewrite !body_app, <- !app_assoc. done. }
  pose proof (edit_header where_ delete xs ys (total (l ++ xs ++ r)) num (total (l ++ ys ++ r))
    (body (l ++ ys ++ r) ++ [LP_EOF] ++ slack') Hedit (num_ok_range _ _ Hnum)) as Hh.
  eexists. split.
  - match type of Hh with (mbind ?f ?x) = _ => destruct x as [lp4|] end; [|done].
    cbn [mbind option_bind] in *. rewrite Hh. cbn [mbind option_bind]. reflexivity.
  - eexists _, slack'. split_and!; [reflexivity|by eapply edit_num_ok| |done|done].
    repeat apply Forall_app_2; done.
Qed.
End Insert.

(** ** Insertion, replacement and deletion of one element *)

Definition encode_entry (x : listpackEntry) : list Z :=
  match x with inl s => encode_string s | inr v => lpEncodeIntegerGetType v end.

(** What the C types guarantee of an element: a byte string whose length is a
    [uint32_t], or a [long long]. *)
Definition entry_ok (x : listpackEntry) : Prop :=
  match x with inl s => wf_bytes s ∧ zlen s <= UINT32_MAX | inr v => is_int64 v end.

Lemma int_enc_len v : is_int64 v → zlen (lpEncodeIntegerGetType v) <= 9.
Proof. intros Hv. rewrite encode_int_bytes by done. repeat case_if; vm_compute; discriminate. Qed.

Lemma str_enc_len s : zlen (lpEncodeString s) =
  (if zlen s <? 64 then 1 else if zlen s <? 4096 then 2 else 5) + zlen s.
Proof. rewrite encode_str_bytes, zlen_app. unfold str_header. by repeat case_if. Qed.

Lemma encode_entry_len x : entry_ok x → zlen (encode_entry x) <= UINT32_MAX + 5.
Proof.
  destruct x as [s|v]; intros Hx; unfold encode_entry, encode_string, entry_ok, UINT32_MAX in *.
  - destruct Hx as [_ Hl]. destruct (lpStringToInt64 s) as [v|] eqn:Hv.
    + rewrite lpStringToInt64_eq in Hv. apply Util.string2ll_spec in Hv as [Hv _].
      pose proof (int_enc_len v Hv). lia.
    + rewrite str_enc_len. repeat case_if; lia.
  - pose proof (int_enc_len v Hx). lia.
Qed.

(** An element that fits is valid. *)
Lemma encode_entry_valid x :
  entry_ok x → zlen (encode_entry x) <= UINT32_MAX → valid_enc (encode_entry x).
Proof.
  destruct x as [s|v]; intros Hx Hl; [|by apply encode_int_valid].
  destruct Hx as [Hwf Hs]. apply encode_string_valid; [done|].
  unfold encode_entry, encode_string in Hl. destruct (lpStringToInt64 s) as [v|] eqn:Hv.
  - rewrite lpStringToInt64_eq in Hv. apply Util.string2ll_spec in Hv as [Hv ->].
    pose proof (Util.sdec_len v Hv). unfold Util.LONG_STR_SIZE, UINT32_MAX in *. lia.
  - rewrite str_enc_len in Hl. unfold UINT32_MAX in *. repeat case_if; lia.
Qed.

Lemma total_entry_fits l e r : total (l ++ e :: r) <= UINT32_MAX → zlen e <= UINT32_MAX.
Proof.
  rewrite total_split. pose proof (pos_range l). pose proof (backlen_bytes_range (zlen e)).
  pose proof (zlen_nonneg (body r)). unfold LP_HDR_SIZE in *. lia.
Qed.

(** The outcome of an operation that stores data: the new sequence of entries,
    or NULL exactly when it would need more than 2^32-1 bytes. *)
Definition stores (res : option (option (list Z * option Z))) (es : list (list Z))
    (newp : option Z) : Prop :=
  res = Some None ∧ UINT32_MAX < total es ∨
  total es <= UINT32_MAX ∧ ∃ lp, res = Some (Some (lp, newp)) ∧ repr lp es.

(** Inserting or replacing with a string or an integer, as the API does. *)
Definition insert_entry (junk : Z) (lp : list Z) (x : listpackEntry) (p : Z) (w : lpwhere) :=
  match x with
  | inl s => lpInsertString junk lp s p w
  | inr v => lpInsertInteger junk lp v p w
  end.

Lemma insert_entry_encoded junk lp x p w :
  w ≠ LP_AFTER →
  insert_entry junk lp x p w =
  insert_encoded junk lp p w false (zlen (encode_entry x)) (encode_entry x).
Proof.
  intros Hw. unfold insert_entry, lpInsertString, lpInsertInteger, lpInsert.
  destruct x as [s|v]; (rewrite decide_False by done); cbn [mbind option_bind].
  - by rewrite enc_str_spec.
  - done.
Qed.

(** LP_AFTER is LP_BEFORE at the next position. *)
Lemma insert_entry_after junk num l e r slack x :
  valid_enc e → total (l ++ e :: r) <= UINT32_MAX →
  insert_entry junk (image num (l ++ e :: r) slack) x (pos l) LP_AFTER =
  insert_entry junk (image num (l ++ e :: r) slack) x (pos (l ++ [e])) LP_BEFORE.
Proof.
  intros He Ht. unfold insert_entry, lpInsertString, lpInsertInteger, lpInsert.
  assert (Hi : ASSERT_INTEGRITY (image num (l ++ e :: r) slack) (pos (l ++ [e])) = Some tt).
  { unfold ASSERT_INTEGRITY. rewrite total_bytes_image by done. cbn [mbind option_bind].
    pose proof (pos_range (l ++ [e])). pose proof (total_app (l ++ [e]) [] r) as E.
    rewrite <- app_assoc in E. change ([e] ++ [] ++ r) with (e :: r) in E.
    change (zlen (body [])) with 0 in E. pose proof (zlen_nonneg (body r)).
    case_if; [done|lia]. }
  destruct x as [s|v].
  all: rewrite (decide_True (P := LP_AFTER = LP_AFTER)) by done;
    rewrite (decide_False (P := LP_BEFORE = LP_AFTER)) by done.
  all: rewrite skip_at by done; cbn [mbind option_bind]; by rewrite Hi.
Qed.

Lemma insert_entry_split junk num l xs r slack x w :
  (w = LP_BEFORE ∧ xs = [] ∨ w = LP_REPLACE ∧ ∃ e0, xs = [e0]) →
  num_ok num (l ++ xs ++ r) → Forall valid_enc (l ++ xs ++ r) →
  total (l ++ xs ++ r) <= UINT32_MAX → wf_bytes slack → entry_ok x →
  stores (insert_entry junk (image num (l ++ xs ++ r) slack) x (pos l) w)
    (l ++ [encode_entry x] ++ r) (Some (pos l)).
Proof.
  intros Hw Hn Hes Ht Hs Hx. rewrite insert_entry_encoded by (by destruct Hw as [[-> _]|[-> _]]).
  unfold stores. rewrite <- (ptr_split l (encode_entry x) r).
  apply insert_encoded_spec; try done.
  - destruct Hw as [[-> ->]|[-> [e0 ->]]]; by constructor.
  - by apply encode_entry_len.
  - intros Hf. constructor; [|constructor]. apply encode_entry_valid; [done|].
    by eapply (total_entry_fits l).
Qed.

Lemma delete_split junk num l e r slack :
  num_ok num (l ++ e :: r) → Forall valid_enc (l ++ e :: r) →
  total (l ++ e :: r) <= UINT32_MAX → wf_bytes slack →
  ∃ lp, lpDelete junk (image num (l ++ e :: r) slack) (pos l)
        = Some (Some (lp, ptr (l ++ r) (length l))) ∧ repr lp (l ++ r).
Proof.
  intros Hn Hes Ht Hs.
  destruct (insert_encoded_spec junk num l [e] [] r slack LP_REPLACE true [])
    as [[_ Hf]|(_ & lp & H1 & H2)]; try done.
  - by constructor.
  - exfalso. pose proof (total_app l [e] r) as T1. pose proof (total_app l [] r) as T2.
    change ([e] ++ r) with (e :: r) in T1. change (zlen (body [])) with 0 in T2.
    pose proof (zlen_nonneg (body [e])). lia.
  - exists lp. by split.
Qed.

(** Inserting a string or an integer before or after entry [i], or
    replacing it, updates the sequence of entries exactly so; *newp is the new
    element.  NULL is returned exactly when the listpack would exceed 2^32-1
    bytes.  Position [length es] is the terminator, before which one appends. *)
Theorem lpInsert_correct junk lp es i x :
  repr lp es → (i <= length es)%nat → entry_ok x →
  let new j := take j es ++ [encode_entry x] ++ drop j es in
  stores (insert_entry junk lp x (pos (take i es)) LP_BEFORE) (new i) (Some (pos (take i es))) ∧
  ((i < length es)%nat →
   stores (insert_entry junk lp x (pos (take i es)) LP_AFTER) (new (S i))
     (Some (pos (take (S i) es))) ∧
   stores (insert_entry junk lp x (pos (take i es)) LP_REPLACE) (<[i:=encode_entry x]> es)
     (Some (pos (take i es)))).
Proof.
  intros (num & slack & -> & Hn & Hes & Ht & Hs) Hi Hx new.
  assert (Hb : ∀ j, stores (insert_entry junk (image num es slack) x (pos (take j es)) LP_BEFORE)
    (new j) (Some (pos (take j es)))).
  { intros j. unfold new. rewrite <- (take_drop j es) at 1.
    apply (insert_entry_split junk num (take j es) [] (drop j es)); simpl app;
      rewrite ?take_drop; auto. }
  split; [apply Hb|]. intros Hlt.
  destruct (split_ex es i Hlt) as (l & e & r & -> & ->). split.
  - specialize (Hb (S (length l))). unfold new in *.
    rewrite take_split, take_S_split in *. rewrite insert_entry_after; [exact Hb| |done].
    apply Forall_app in Hes as [_ Hes]. by apply Forall_inv in Hes.
  - rewrite insert_take_drop by done. rewrite take_split, drop_S_split.
    apply (insert_entry_split junk num l [e] r); try done. right. eauto.
Qed.

(** lpDelete removes entry [i] and returns the pointer to the entry that
    followed it, NULL when it was the last. *)
Theorem lpDelete_correct junk lp es i :
  repr lp es → (i < length es)%nat →
  ∃ lp', lpDelete junk lp (pos (take i es)) = Some (Some (lp', ptr (delete i es) i)) ∧
    repr lp' (delete i es).
Proof.
  intros (num & slack & -> & Hn & Hes & Ht & Hs) Hi.
  destruct (split_ex es i Hi) as (l & e & r & -> & ->).
  rewrite delete_take_drop, take_split, drop_S_split. by apply delete_split.
Qed.

(** ** Creation, append and prepend *)

Lemma eof_pos es : total es - 1 = pos es.
Proof. unfold total, pos. lia. Qed.

(** A new listpack is empty whatever the capacity asked for; appending
    and prepending strings or integers add the element at that end. *)
Theorem lp_push_correct junk :
  (∀ capacity, wf_bytes [junk] → ∃ lp, lpNew junk capacity = Some lp ∧ repr lp []) ∧
  ∀ lp es x, repr lp es → entry_ok x →
    stores (match x with inl s => lpAppend junk lp s | inr v => lpAppendInteger junk lp v end)
      (es ++ [encode_entry x]) (Some (pos es)) ∧
    stores (match x with inl s => lpPrepend junk lp s | inr v => lpPrependInteger junk lp v end)
      (encode_entry x :: es) (Some (pos [])).
Proof.
  split.
  - intros cap Hj. unfold lpNew.
    set (n := Z.to_nat (if LP_HDR_SIZE + 1 <? cap then cap else LP_HDR_SIZE + 1)).
    assert (Hn : (7 <= n)%nat) by (unfold n, LP_HDR_SIZE; case_if; lia).
    replace n with (7 + (n - 7))%nat by lia. rewrite replicate_add.
    set (slack := replicate (n - 7) junk). cbn [replicate].
    assert (Hh : ∀ A B C : list Z, zlen A = 4 → zlen B = 4 → (wr 0 A (B ++ C)) = Some (A ++ C))
      by (intros; apply wr_head; lia).
    unfold lpSetTotalBytes. rewrite store32.
    change ([junk; junk; junk; junk; junk; junk; junk] ++ slack) with
      ([junk; junk; junk; junk] ++ [junk; junk; junk] ++ slack).
    rewrite Hh by by rewrite ?le_bytes_zlen. cbn [mbind option_bind].
    unfold lpSetNumElements. rewrite store16.
    change ([junk; junk; junk] ++ slack) with ([junk; junk] ++ [junk] ++ slack).
    rewrite (wr_at (le_bytes 4 _) [junk; junk]) by by rewrite ?le_bytes_zlen.
    cbn [mbind option_bind]. rewrite app_assoc.
    rewrite (wr_at (le_bytes 4 _ ++ le_bytes 2 _) [junk])
      by (rewrite ?zlen_app, ?le_bytes_zlen; done).
    eexists. split; [done|]. exists 0, slack. split_and!; [done|by right|done|done|].
    unfold slack. apply Forall_replicate. by apply Forall_inv in Hj.
  - intros lp es x (num & slack & -> & Hn & Hes & Ht & Hs) Hx.
    assert (Ha : stores (match x with inl s => lpAppend junk (image num es slack) s
        | inr v => lpAppendInteger junk (image num es slack) v end)
      (es ++ [encode_entry x]) (Some (pos es))).
    { pose proof (insert_entry_split junk num es [] [] slack x LP_BEFORE) as H.
      simpl app in H. rewrite !app_nil_r in H. unfold insert_entry, lpInsertString in H.
      unfold lpAppend, lpAppendInteger. rewrite total_bytes_image by done.
      cbn [mbind option_bind]. rewrite eof_pos. destruct x; apply H; auto. }
    split; [exact Ha|]. unfold lpPrepend, lpPrependInteger.
    rewrite lpFirst_image by done. cbn [mbind option_bind].
    destruct es as [|e es]; [exact Ha|]. change (ptr (e :: es) 0) with (Some (pos [])).
    pose proof (insert_entry_split junk num [] [] (e :: es) slack x LP_BEFORE) as H.
    unfold insert_entry, lpInsertString in H. destruct x; apply H; auto.
Qed.

(** ** Batches *)

(** The stores of a batch fill the hole with the encoded entries. *)
Lemma store_loop_spec entries P hole q newp :
  zlen hole = zlen (body (encode_entry <$> entries)) →
  store_loop entries (P ++ hole ++ q) (zlen P) newp =
  Some (P ++ body (encode_entry <$> entries) ++ q,
        match list.last entries with
        | None => newp
        | Some _ => Some (zlen P + zlen (body (encode_entry <$> removelast entries)))
        end).
Proof.
  revert P hole newp. induction entries as [|x entries IH]; intros P hole newp Hh.
  { apply zlen_0_nil in Hh as ->. done. }
  cbn [store_loop fmap list_fmap].
  assert (Hx : batch_enc x = (zlen (encode_entry x), encode_entry x)).
  { destruct x as [s|v]; [apply enc_str_spec|done]. }
  rewrite Hx. cbn [fmap list_fmap] in Hh. rewrite body_cons in *. set (e := encode_entry x) in *.
  rewrite zlen_app, zlen_entry in Hh.
  pose proof (zlen_nonneg e). pose proof (backlen_bytes_range (zlen e)).
  pose proof (zlen_nonneg (body (encode_entry <$> entries))).
  set (k := Z.to_nat (zlen e + lpEncodeBacklenBytes (zlen e))).
  rewrite <- (take_drop k hole), <- app_assoc.
  pose proof (wr_two P (take k hole) (drop k hole ++ q) e (lpEncodeBacklen (zlen e))) as Hw.
  rewrite backlen_len in *. rewrite zlen_take in Hw. unfold k in Hw at 1.
  specialize (Hw ltac:(lia)).
  destruct (wr (zlen P) e _) as [lp1|]; [|done]. cbn [mbind option_bind] in *.
  rewrite Hw. cbn [mbind option_bind].
  replace (P ++ e ++ lpEncodeBacklen (zlen e) ++ drop k hole ++ q)
    with ((P ++ entry e) ++ drop k hole ++ q)
    by (unfold entry; rewrite <- !app_assoc; done).
  replace (zlen P + zlen e + lpEncodeBacklenBytes (zlen e)) with (zlen (P ++ entry e))
    by (rewrite zlen_app, zlen_entry; lia).
  rewrite IH; [|rewrite zlen_drop; unfold k; lia].
  f_equal. f_equal; [by rewrite <- !app_assoc|].
  destruct entries as [|y entries]; [simpl; f_equal; unfold body; simpl; change (zlen []) with 0; lia|].
  change (list.last (x :: y :: entries)) with (list.last (y :: entries)).
  destruct (list.last (y :: entries)) eqn:E; [|by apply last_None in E].
  change (removelast (x :: y :: entries)) with (x :: removelast (y :: entries)).
  cbn [fmap list_fmap]. rewrite body_cons. fold e. f_equal. rewrite !zlen_app. lia.
Qed.

Lemma addedlen_eq entries a :
  0 <= a → a + zlen (body (encode_entry <$> entries)) <= UINT64_MAX →
  foldl (λ a e, let '(enclen, _) := batch_enc e in
                uwrap 64 (a + enclen + zlen (lpEncodeBacklen enclen))) a entries
  = a + zlen (body (encode_entry <$> entries)).
Proof.
  revert a. induction entries as [|x entries IH]; intros a Ha Hb.
  { unfold body. simpl. change (zlen []) with 0. lia. }
  cbn [foldl fmap list_fmap] in *.
  assert (batch_enc x = (zlen (encode_entry x), encode_entry x)) as ->
    by (destruct x as [s|v]; [apply enc_str_spec|done]).
  rewrite body_cons, zlen_app, zlen_entry in *. rewrite backlen_len.
  pose proof (zlen_nonneg (encode_entry x)).
  pose proof (backlen_bytes_range (zlen (encode_entry x))).
  pose proof (zlen_nonneg (body (encode_entry <$> entries))).
  rewrite uwrap64_id by (unfold UINT64_MAX in *; lia).
  rewrite IH by lia. lia.
Qed.

Lemma body_valid_fits xs l r :
  Forall entry_ok xs → total (l ++ (encode_entry <$> xs) ++ r) <= UINT32_MAX →
  Forall valid_enc (encode_entry <$> xs).
Proof.
  intros Hx Ht. apply Forall_fmap. revert l Ht.
  induction Hx as [|x xs Hx _ IH]; intros l Ht; constructor;
    change (total (l ++ encode_entry x :: (encode_entry <$> xs) ++ r) <= UINT32_MAX) in Ht.
  - apply encode_entry_valid; [done|]. by eapply (total_entry_fits l).
  - apply (IH (l ++ [encode_entry x])). rewrite <- app_assoc. exact Ht.
Qed.

Lemma num_ok_batch num (l ys r : list (list Z)) :
  num_ok num (l ++ r) →
  num_ok (if num =? LP_HDR_NUMELE_UNKNOWN then num
          else if LP_HDR_NUMELE_UNKNOWN - num <? zlen ys then LP_HDR_NUMELE_UNKNOWN
          else num + zlen ys) (l ++ ys ++ r).
Proof.
  unfold num_ok. rewrite !zlen_app. intros [->|[-> Hlt]]; [by left|].
  pose proof (zlen_nonneg ys). rewrite (proj2 (Z.eqb_neq _ _)) by lia. case_if; lia.
Qed.

Lemma batch_insert_split junk num l r slack xs :
  num_ok num (l ++ r) → Forall valid_enc (l ++ r) → total (l ++ r) <= UINT32_MAX →
  wf_bytes slack → xs ≠ [] → Forall entry_ok xs →
  zlen (body (encode_entry <$> xs)) <= INT64_MAX →
  stores (lpBatchInsert junk (image num (l ++ r) slack) (pos l) LP_BEFORE xs)
    (l ++ (encode_entry <$> xs) ++ r) (Some (pos (l ++ (encode_entry <$> removelast xs)))).
Proof.
  intros Hn Hes Ht Hs Hne Hx Hmem. pose proof Hes as [Hl Hr]%Forall_app.
  unfold lpBatchInsert. case_bool_decide; [done|]. case_bool_decide; [done|]. cbn [orb].
  rewrite decide_False by done. cbn [mbind option_bind].
  rewrite addedlen_eq by (unfold UINT64_MAX, INT64_MAX in *; lia).
  rewrite total_bytes_image by done. cbn [mbind option_bind].
  set (ys := encode_entry <$> xs) in *.
  pose proof (total_app l [] r) as Tx. pose proof (total_app l ys r) as Ty.
  change (zlen (body [])) with 0 in Tx. change ([] ++ r) with r in Tx.
  pose proof (zlen_nonneg (body r)). pose proof (pos_range l). pose proof (zlen_nonneg (body ys)).
  unfold LP_HDR_SIZE in *. rewrite Z.add_0_l.
  replace (uwrap 64 (total (l ++ r) + zlen (body ys))) with (total (l ++ ys ++ r))
    by (rewrite uwrap64_id; unfold UINT32_MAX, UINT64_MAX, INT64_MAX in *; lia).
  unfold stores. destruct (UINT32_MAX <? total (l ++ ys ++ r)) eqn:Hmax; zb; [by left|right].
  split; [done|].
  set (P := header (total (l ++ r)) num ++ body l). set (q := body r ++ [LP_EOF]).
  assert (HP : zlen P = pos l) by apply pos_header.
  assert (Hq : zlen q = zlen (body r) + 1) by (unfold q; by rewrite zlen_app).
  assert (Hlp : image num (l ++ r) slack = P ++ [] ++ q ++ slack).
  { unfold image, P, q. rewrite !body_app, <- !app_assoc. done. }
  destruct (splice junk P [] q slack (zlen (body ys)) (total (l ++ ys ++ r)) (total (l ++ r)))
    as (lp2 & hole & slack' & Hmm & Hlp2 & Hhole & Hsl');
    [lia|rewrite !zlen_app, zlen_nil; lia|rewrite zlen_nil; lia|done| |constructor|].
  { apply Forall_app. split; [by apply body_wf|]. constructor; [unfold is_byte, LP_EOF; lia|done]. }
  rewrite <- Hlp, HP, zlen_nil, Z.add_0_r in Hmm.
  replace (total (l ++ r) - pos l) with (zlen q) by lia. rewrite Hmm. cbn [mbind option_bind].
  rewrite (proj2 (Z.ltb_ge (total (l ++ ys ++ r)) (total (l ++ r)))) in Hlp2 by lia.
  rewrite Hlp2. pose proof (store_loop_spec xs P hole (q ++ slack') None Hhole) as Hst.
  rewrite HP in Hst. rewrite Hst. cbn [mbind option_bind]. fold ys.
  assert (P ++ body ys ++ q ++ slack' = header (total (l ++ r)) num ++
    (body (l ++ ys ++ r) ++ [LP_EOF] ++ slack')) as ->.
  { unfold P, q. rewrite !body_app, <- !app_assoc. done. }
  rewrite get_num_header by by eapply num_ok_range. cbn [mbind option_bind].
  pose proof (num_ok_batch num l ys r Hn) as Hok.
  assert (Hzl : zlen xs = zlen ys) by (unfold ys; by rewrite zlen_fmap).
  assert (E : ∃ lpx, (if negb (num =? LP_HDR_NUMELE_UNKNOWN) then
      if LP_HDR_NUMELE_UNKNOWN - num <? zlen xs
      then lpSetNumElements (header (total (l ++ r)) num ++ body (l ++ ys ++ r) ++ [LP_EOF] ++ slack') LP_HDR_NUMELE_UNKNOWN
      else lpSetNumElements (header (total (l ++ r)) num ++ body (l ++ ys ++ r) ++ [LP_EOF] ++ slack') (num + zlen xs)
    else Some (header (total (l ++ r)) num ++ body (l ++ ys ++ r) ++ [LP_EOF] ++ slack')) = Some lpx
    ∧ lpSetTotalBytes lpx (total (l ++ ys ++ r)) = Some (image (if num =? LP_HDR_NUMELE_UNKNOWN then num
          else if LP_HDR_NUMELE_UNKNOWN - num <? zlen ys then LP_HDR_NUMELE_UNKNOWN
          else num + zlen ys) (l ++ ys ++ r) slack')).
  { rewrite Hzl. destruct (num =? LP_HDR_NUMELE_UNKNOWN); cbn [negb];
      [|destruct (LP_HDR_NUMELE_UNKNOWN - num <? zlen ys)];
      rewrite ?set_num_header; eexists; (split; [reflexivity|]); by rewrite set_total_header. }
  destruct E as (lpx & -> & E2). cbn [mbind option_bind]. rewrite E2. cbn [mbind option_bind].
  eexists. split; [|eexists _, slack'; split_and!; [reflexivity|exact Hok| |done|done]].
  - destruct (list.last xs) eqn:E; [|by apply last_None in E].
    do 4 f_equal. unfold pos. rewrite body_app, zlen_app. lia.
  - repeat apply Forall_app_2; try done. by eapply (body_valid_fits xs l r).
Qed.

(** Inserting a batch stores all its elements at once, in order, with
    the same limits as single insertions; *newp is the last one stored. *)
Theorem lpBatchInsert_correct junk lp es i xs :
  repr lp es → (i <= length es)%nat → xs ≠ [] → Forall entry_ok xs →
  zlen (body (encode_entry <$> xs)) <= INT64_MAX →
  let new j := take j es ++ (encode_entry <$> xs) ++ drop j es in
  stores (lpBatchInsert junk lp (pos (take i es)) LP_BEFORE xs) (new i)
    (Some (pos (take i es ++ (encode_entry <$> removelast xs)))) ∧
  stores (lpBatchAppend junk lp xs) (es ++ (encode_entry <$> xs))
    (Some (pos (es ++ (encode_entry <$> removelast xs)))).
Proof.
  intros (num & slack & -> & Hn & Hes & Ht & Hs) Hi Hne Hx Hmem new. split.
  - unfold new. rewrite <- (take_drop i es) at 1. apply batch_insert_split; rewrite ?take_drop; done.
  - unfold lpBatchAppend. rewrite total_bytes_image by done. cbn [mbind option_bind].
    rewrite eof_pos. pose proof (batch_insert_split junk num es [] slack xs) as H.
    rewrite !app_nil_r in H. by apply H.
Qed.

(** ** Deleting ranges *)

Lemma shrink_image junk num es slack :
  total es <= UINT32_MAX → lpShrinkToFit junk (image num es slack) = Some (image num es []).
Proof.
  intros Ht. unfold lpShrinkToFit. rewrite total_bytes_image by done. cbn [mbind option_bind].
  f_equal. pose proof (image_len num es slack) as Hl. pose proof (zlen_nonneg slack).
  assert (E : image num es slack = image num es [] ++ slack)
    by (unfold image; rewrite <- !app_assoc; done).
  pose proof (image_len num es []) as Hl0. rewrite zlen_nil in Hl0. case_if.
  - rewrite zrealloc_shrink by lia. rewrite E.
    replace (total es) with (zlen (image num es [])) by lia. apply take_app_zlen.
  - rewrite E. rewrite (zlen_0_nil slack) by lia. apply app_nil_r.
Qed.

Lemma close_gap (P x q slack : list Z) :
  ∃ rest, memmove (zlen P) (zlen P + zlen x) (zlen q) (P ++ x ++ q ++ slack)
          = Some (P ++ q ++ rest).
Proof.
  pose proof (memmove_into P (x ++ q ++ slack) q (zlen P + zlen x) 0) as H.
  rewrite Z.add_0_r in H. eexists. rewrite H; [reflexivity|done| |].
  - rewrite !zlen_app. pose proof (zlen_nonneg x). pose proof (zlen_nonneg slack). lia.
  - rewrite app_assoc. apply rd_at; [by rewrite zlen_app|done].
Qed.

Lemma range_loop_image num es slack n l r d :
  es = l ++ r → Forall valid_enc es → total es <= UINT32_MAX → r ≠ [] →
  range_loop n (image num es slack) (total es) (pos l) d
  = Some (pos (l ++ take n r), d + Z.of_nat (min n (length r))).
Proof.
  intros Es Hes Ht. revert l r d Es. induction n as [|n IH]; intros l r d Es Hne.
  { simpl. rewrite app_nil_r. do 2 f_equal. lia. }
  destruct r as [|e r]; [done|]. cbn [range_loop].
  assert (Hr : Forall valid_enc (e :: r)) by (rewrite Es in Hes; by apply Forall_app in Hes as [_ ?]).
  pose proof (Forall_inv Hr) as He. apply Forall_inv_tail in Hr.
  rewrite Es at 1. rewrite skip_at by done. cbn [mbind option_bind]. destruct r as [|e' r].
  - rewrite Es at 1. rewrite eof_at. cbn [mbind option_bind]. rewrite Z.eqb_refl.
    do 3 f_equal; [|simpl; lia]. by destruct n.
  - assert (Es' : es = (l ++ [e]) ++ e' :: r) by by rewrite <- app_assoc.
    pose proof (Forall_inv Hr) as He'.
    destruct (head_at num (l ++ [e]) e' r slack He') as (b & Hb & _ & Hbe).
    rewrite <- Es' in Hb. rewrite Hb. cbn [mbind option_bind]. case_if; [done|].
    pose proof (assert_valid_at num (l ++ [e]) e' r slack He') as Ha. rewrite <- Es' in Ha.
    rewrite Ha by done. cbn [mbind option_bind]. rewrite (IH (l ++ [e]) (e' :: r)) by done.
    rewrite <- app_assoc. do 2 f_equal. simpl. lia.
Qed.

Lemma ptr_app_l l r : ptr (l ++ r) (length l) = match r with [] => None | _ => Some (pos l) end.
Proof. destruct r; [by rewrite app_nil_r, ptr_end|apply ptr_split]. Qed.

(** The first byte of the entries [r] after [l], or the terminator. *)
Lemma byte_after P l r slack :
  Forall valid_enc r → zlen P = pos l →
  (b ← byte_at (pos l) (P ++ (body r ++ [LP_EOF]) ++ slack);
   Some (if b =? LP_EOF then None else Some (pos l))) = Some (ptr (l ++ r) (length l)).
Proof.
  intros Hr HP. rewrite <- HP.
  exact (edit_newp LP_REPLACE true [[]] [] P [] slack l r (edit_delete _ _ eq_refl) Hr HP eq_refl).
Qed.

Lemma delete_range_split junk num l r slack n :
  num_ok num (l ++ r) → Forall valid_enc (l ++ r) → total (l ++ r) <= UINT32_MAX →
  r ≠ [] → 0 < n →
  ∃ num', lpDeleteRangeWithEntry junk (image num (l ++ r) slack) (pos l) n
    = Some (image num' (l ++ drop (Z.to_nat n) r) [],
            ptr (l ++ drop (Z.to_nat n) r) (length l)) ∧
    num_ok num' (l ++ drop (Z.to_nat n) r).
Proof.
  intros Hn Hes Ht Hne Hpos. set (k := Z.to_nat n).
  pose proof (take_drop k r) as Hr. set (x := take k r) in *. set (t := drop k r) in *.
  unfold lpDeleteRangeWithEntry, lpBytes. rewrite total_bytes_image by done.
  cbn [mbind option_bind]. rewrite (proj2 (Z.eqb_neq _ _)) by lia. fold k.
  rewrite (range_loop_image num (l ++ r) slack k l r 0) by done. cbn [mbind option_bind].
  fold x. set (P := header (total (l ++ r)) num ++ body l). set (q := body t ++ [LP_EOF]).
  assert (HP : zlen P = pos l) by apply pos_header.
  assert (Hlp : image num (l ++ r) slack = P ++ body x ++ q ++ slack).
  { unfold image, P, q. rewrite <- Hr at 2. rewrite !body_app, <- !app_assoc. done. }
  pose proof (total_app l x t) as T1. rewrite Hr in T1.
  pose proof (total_app l [] t) as T2. change ([] ++ t) with t in T2.
  change (zlen (body [])) with 0 in T2. pose proof (zlen_nonneg (body x)).
  assert (Hpx : pos (l ++ x) = pos l + zlen (body x))
    by (unfold pos; rewrite body_app, zlen_app; lia).
  assert (Hq : zlen q = zlen (body t) + 1) by (unfold q; by rewrite zlen_app).
  replace (total (l ++ r) - 1 - pos (l ++ x) + 1) with (zlen q) by lia.
  destruct (close_gap P (body x) q slack) as [rest Hmm].
  rewrite Hlp, Hpx, <- HP, Hmm. cbn [mbind option_bind].
  replace (total (l ++ r) - (zlen P + zlen (body x) - zlen P)) with (total (l ++ t)) by lia.
  assert (P ++ q ++ rest = header (total (l ++ r)) num ++ (body (l ++ t) ++ [LP_EOF] ++ rest)) as ->.
  { unfold P, q. rewrite !body_app, <- !app_assoc. done. }
  rewrite set_total_header. cbn [mbind option_bind].
  rewrite get_num_header by by eapply num_ok_range. cbn [mbind option_bind].
  pose proof (num_ok_delete num l x t) as Hok. rewrite Hr in Hok. specialize (Hok Hn).
  assert (Hmin : 0 + Z.of_nat (min k (length r)) = zlen x).
  { unfold x, zlen. rewrite length_take. lia. }
  rewrite Hmin. exists (if num =? LP_HDR_NUMELE_UNKNOWN then num else num - zlen x).
  split; [|exact Hok].
  assert (∃ m, m = (if num =? LP_HDR_NUMELE_UNKNOWN then num else num - zlen x) ∧
    (if negb (num =? LP_HDR_NUMELE_UNKNOWN)
     then lpSetNumElements (header (total (l ++ t)) num ++ body (l ++ t) ++ [LP_EOF] ++ rest) (num - zlen x)
     else Some (header (total (l ++ t)) num ++ body (l ++ t) ++ [LP_EOF] ++ rest))
    = Some (image m (l ++ t) rest)) as (m & <- & ->).
  { eexists. split; [reflexivity|].
    destruct (num =? LP_HDR_NUMELE_UNKNOWN); cbn [negb]; rewrite ?set_num_header; done. }
  cbn [mbind option_bind]. rewrite shrink_image by lia. cbn [mbind option_bind].
  assert (Himg : image m (l ++ t) [] = (header (total (l ++ t)) m ++ body l) ++ (body t ++ [LP_EOF]) ++ []).
  { unfold image. rewrite body_app, <- !app_assoc. done. }
  rewrite HP. rewrite Himg at 1. apply Forall_app in Hes as [_ Hvr]. rewrite <- Hr in Hvr.
  apply Forall_app in Hvr as [_ Hvt].
  pose proof (byte_after (header (total (l ++ t)) m ++ body l) l t [] Hvt (pos_header _ _ _)) as Hb.
  destruct (byte_at (pos l) _) as [b|]; [|done]. cbn [mbind option_bind] in *.
  injection Hb as Hb. by rewrite Hb.
Qed.

(** Cutting the list with the terminator at entry [l]. *)
Lemma cut_split junk num l e r slack :
  num_ok num (l ++ e :: r) → num ≠ LP_HDR_NUMELE_UNKNOWN → Forall valid_enc (l ++ e :: r) →
  total (l ++ e :: r) <= UINT32_MAX →
  ∃ lp', (lp ← wr (pos l) [LP_EOF] (image num (l ++ e :: r) slack);
          lp ← lpSetTotalBytes lp (pos l + 1); lp ← lpSetNumElements lp (zlen l);
          lpShrinkToFit junk lp) = Some lp' ∧ repr lp' l.
Proof.
  intros Hn Hne [Hl Her]%Forall_app Ht. pose proof (Forall_inv Her) as He.
  destruct (valid_head e He) as (b & Hb & _). destruct e as [|b' e]; [done|].
  rewrite image_split. set (rest := lpEncodeBacklen _ ++ _).
  change ((b' :: e) ++ rest) with ([b'] ++ (e ++ rest)).
  rewrite (wr_at (_ ++ body l) [b']) by (by rewrite ?pos_header). cbn [mbind option_bind].
  rewrite <- app_assoc, set_total_header. cbn [mbind option_bind].
  rewrite set_num_header. cbn [mbind option_bind].
  replace (pos l + 1) with (total l) by (unfold total, pos; lia).
  pose proof (total_app l [] ((b' :: e) :: r)) as T1.
  change (pos l + zlen (body []) + zlen (body ((b' :: e) :: r)) + 1) with
    (pos l + 0 + zlen (body ((b' :: e) :: r)) + 1) in T1.
  change ([] ++ (b' :: e) :: r) with ((b' :: e) :: r) in T1.
  pose proof (zlen_nonneg (body ((b' :: e) :: r))).
  assert (Htl : total l = pos l + 1) by (unfold total, pos; lia).
  pose proof (shrink_image junk (zlen l) l (e ++ rest)) as Hsh. unfold image in Hsh at 1.
  simpl app in Hsh |- *. rewrite Hsh by lia. eexists. split; [reflexivity|].
  eexists _, []. split_and!; [reflexivity| |done|lia|constructor].
  destruct Hn as [?|[-> Hlt]]; [done|]. right. split; [done|].
  rewrite zlen_app, zlen_cons in Hlt. pose proof (zlen_nonneg r). lia.
Qed.

(** lpDeleteRange removes the [num] entries starting at [index], counted
    from the tail when negative, or those that exist; an index out of range
    leaves the listpack as it is. *)
Theorem lpDeleteRange_correct junk lp es index num :
  repr lp es → INT64_MIN <= index <= INT64_MAX → 0 <= num <= UINT64_MAX →
  ∃ lp', lpDeleteRange junk lp index num = Some lp' ∧
    repr lp' (let i := if index <? 0 then zlen es + index else index in
              if (0 <=? i) && (i <? zlen es)
              then take (Z.to_nat i) es ++ drop (Z.to_nat (i + num)) es else es).
Proof.
  intros Hr Hidx Hnum. pose proof Hr as (n & slack & -> & Hn & Hes & Ht & Hs).
  pose proof (num_ok_range _ _ Hn) as Hnr. pose proof (zlen_nonneg es).
  pose proof (zlen_body_ge es Hes) as Hbg.
  unfold lpDeleteRange. rewrite num_elements_image by done. cbn [mbind option_bind].
  set (i := if index <? 0 then zlen es + index else index).
  destruct (num =? 0) eqn:E0; zb.
  { eexists. split; [done|]. cbv zeta. case_if; [|done]. by rewrite E0, Z.add_0_r, take_drop. }
  rewrite (lpSeek_image n es slack index) by done. cbn [mbind option_bind]. unfold ptr_z. fold i.
  cbv zeta. destruct (i <? 0) eqn:Ei; zb.
  { eexists. split; [done|]. rewrite (proj2 (Z.leb_gt 0 i)) by lia. done. }
  unfold ptr. destruct (decide _) as [Hlt|Hge].
  2:{ eexists. split; [done|]. rewrite (proj2 (Z.ltb_ge i _)) by (unfold zlen; lia).
      by rewrite andb_false_r. }
  rewrite (proj2 (Z.leb_le 0 i)), (proj2 (Z.ltb_lt i _)) by (unfold zlen; lia). cbn [andb].
  set (j := Z.to_nat i) in *. destruct (split_ex es j Hlt) as (l & e & r & -> & Hj).
  assert (Hil : i = zlen l) by (unfold zlen; lia). rewrite Hj, take_split.
  assert (Hdrop : drop (Z.to_nat (i + num)) (l ++ e :: r) = drop (Z.to_nat num) (e :: r)).
  { rewrite drop_app_ge by (unfold zlen in *; lia). f_equal. unfold zlen in *. lia. }
  rewrite Hdrop. unfold LP_HDR_NUMELE_UNKNOWN, UINT16_MAX in *.
  match goal with |- context [if ?c then wr _ _ _ ≫= _ else _] => destruct c eqn:Hc end.
  - apply andb_true_iff in Hc as [Hnu%negb_true_iff%Z.eqb_neq Hle%Z.leb_le].
    destruct Hn as [?|[Hnl Hlt']]; [done|].
    assert (Hi : (if negb (n =? 65535) && (index <? 0) then n + index else index) = zlen l).
    { rewrite (proj2 (Z.eqb_neq _ _)) by done. cbn [negb andb]. rewrite <- Hil. unfold i.
      by rewrite Hnl. }
    rewrite Hi in Hle |- *. rewrite zlen_app, zlen_cons in *. pose proof (zlen_nonneg r).
    pose proof (zlen_nonneg l). unfold UINT64_MAX, LP_HDR_NUMELE_UNKNOWN, UINT16_MAX in *.
    rewrite (uwrap64_id (zlen l)), uwrap64_id in Hle by (unfold UINT64_MAX; lia).
    destruct (cut_split junk n l e r slack) as (lp' & Hlp & Hrp);
      [right; rewrite zlen_app, zlen_cons; unfold LP_HDR_NUMELE_UNKNOWN, UINT16_MAX; lia
      |done|done|done|].
    exists lp'. split; [exact Hlp|]. rewrite drop_ge by (simpl; unfold zlen in *; lia).
    by rewrite app_nil_r.
  - destruct (delete_range_split junk n l (e :: r) slack num) as (num' & Hd & Hok);
      [done..|lia|]. rewrite Hd. cbn [mbind option_bind]. eexists. split; [reflexivity|].
    eexists num', []. split_and!; [reflexivity|exact Hok| | |constructor].
    + apply Forall_app in Hes as [? ?]. apply Forall_app_2; [done|by apply Forall_drop].
    + pose proof (total_app l [] (drop (Z.to_nat num) (e :: r))) as T1.
      pose proof (total_app l (take (Z.to_nat num) (e :: r)) (drop (Z.to_nat num) (e :: r))) as T2.
      rewrite take_drop in T2. change (zlen (body [])) with 0 in T1.
      pose proof (zlen_nonneg (body (take (Z.to_nat num) (e :: r)))).
      change ([] ++ drop (Z.to_nat num) (e :: r)) with (drop (Z.to_nat num) (e :: r)) in T1. lia.
Qed.

(** ** Deleting a batch of entries *)

(** A listpack cut at the entries to delete: each with the entries kept after
    it. *)
Definition segments : Type := list (list Z * list (list Z)).
Definition flatten (segs : segments) : list (list Z) := mjoin ((λ '(d, k), d :: k) <$> segs).
Definition kept (segs : segments) : list (list Z) := mjoin (snd <$> segs).
Fixpoint seg_pos (start : Z) (segs : segments) : list Z :=
  match segs with
  | [] => []
  | (d, k) :: segs => start :: seg_pos (start + zlen (body (d :: k))) segs
  end.

Lemma flatten_cons d k segs : flatten ((d, k) :: segs) = d :: k ++ flatten segs.
Proof. done. Qed.
Lemma kept_cons d k segs : kept ((d, k) :: segs) = k ++ kept segs.
Proof. done. Qed.

Lemma skip_local P e Q :
  valid_enc e → lpSkip (P ++ entry e ++ Q) (zlen P) = Some (zlen P + zlen (entry e)).
Proof.
  intros (_ & Hs & _). unfold lpSkip, entry. rewrite <- app_assoc.
  rewrite (size_local _ _ _ _ Hs). cbn [mbind option_bind]. f_equal.
  rewrite zlen_app, backlen_len. lia.
Qed.

Lemma head_local P e Q :
  valid_enc e → ∃ b, byte_at (zlen P) (P ++ entry e ++ Q) = Some b ∧ b ≠ LP_EOF.
Proof.
  intros He. destruct (valid_head e He) as (b & Hb & Hne). exists b. split; [|done].
  unfold entry. rewrite <- app_assoc, <- (Z.add_0_r (zlen P)). by apply byte_at_app.
Qed.

(** The loop moves the kept bytes down over the gap between the part already
    done, [P], and the next entry to delete. *)
Lemma batch_delete_loop_spec segs P gap slack lp_end :
  segs ≠ [] → Forall valid_enc (flatten segs) →
  lp_end = zlen (P ++ gap ++ body (flatten segs) ++ [LP_EOF]) →
  ∃ slack',
    batch_delete_loop (seg_pos (zlen (P ++ gap)) segs)
      (P ++ gap ++ body (flatten segs) ++ [LP_EOF] ++ slack) lp_end (zlen P)
    = Some (P ++ body (kept segs) ++ [LP_EOF] ++ slack', zlen (P ++ body (kept segs) ++ [LP_EOF])).
Proof.
  revert P gap slack. induction segs as [|[d k] segs IH]; intros P gap slack Hne Hv Hend; [done|].
  rewrite flatten_cons in *. apply Forall_cons_1 in Hv as [Hd Hv].
  apply Forall_app in Hv as [Hk Hv]. cbn [seg_pos batch_delete_loop].
  assert (Hlp : P ++ gap ++ body (d :: k ++ flatten segs) ++ [LP_EOF] ++ slack
    = (P ++ gap) ++ entry d ++ (body k ++ body (flatten segs) ++ [LP_EOF] ++ slack)).
  { rewrite body_cons, body_app, <- !app_assoc. done. }
  rewrite Hlp. destruct (head_local (P ++ gap) d (body k ++ body (flatten segs) ++ [LP_EOF] ++ slack) Hd)
    as (b & -> & Hbe).
  cbn [mbind option_bind]. case_if; [done|]. rewrite skip_local by done. cbn [mbind option_bind].
  pose proof (zlen_nonneg (body k)) as Hk0. rewrite body_cons, body_app in Hend.
  rewrite !zlen_app in Hend. change (zlen [LP_EOF]) with 1 in Hend.
  (* moving [q] down: [T] follows it *)
  assert (Hmove : ∀ q T, memmove (zlen P) (zlen (P ++ gap) + zlen (entry d)) (zlen q)
      ((P ++ gap) ++ entry d ++ q ++ T) = Some (P ++ q ++ drop (length q) (gap ++ entry d ++ q ++ T))).
  { intros q T. pose proof (memmove_into P (gap ++ entry d ++ q ++ T) q
      (zlen (P ++ gap) + zlen (entry d)) 0) as H.
    rewrite Z.add_0_r in H. replace (Z.to_nat (0 + zlen q)) with (length q) in H
      by (unfold zlen; lia). rewrite <- app_assoc, H; [done|done| |].
    - rewrite !zlen_app. pose proof (zlen_nonneg gap). pose proof (zlen_nonneg (entry d)).
      pose proof (zlen_nonneg T). lia.
    - rewrite (app_assoc gap), (app_assoc P). apply rd_at; [rewrite !zlen_app; lia|done]. }
  destruct segs as [|[d2 k2] segs].
  - (* the last deleted entry: the terminator moves too *)
    cbn [seg_pos]. change (flatten []) with (@nil (list Z)). change (body []) with (@nil Z).
    rewrite app_nil_l. change (zlen (body (flatten []))) with 0 in Hend.
    rewrite (proj2 (Z.ltb_lt _ _)) by (rewrite !zlen_app in *; lia). cbn [negb].
    replace (lp_end - (zlen (P ++ gap) + zlen (entry d))) with (zlen (body k ++ [LP_EOF]))
      by (rewrite !zlen_app in *; change (zlen [LP_EOF]) with 1; lia).
    rewrite (app_assoc (body k)), Hmove. cbn [mbind option_bind]. eexists.
    rewrite kept_cons. change (kept []) with (@nil (list Z)). rewrite app_nil_r, <- !app_assoc.
    by rewrite !zlen_app.
  - cbn [seg_pos].
    replace (zlen (P ++ gap) + zlen (body (d :: k)))
      with (zlen (P ++ gap) + zlen (entry d) + zlen (body k))
      by (rewrite (body_cons d k), (zlen_app (entry d)); lia).
    destruct (_ =? _) eqn:Ek; zb.
    + assert (Hkn : k = []).
      { destruct k as [|e k]; [done|]. rewrite body_cons, (zlen_app (entry e)) in Ek.
        pose proof (zlen_nonneg (body k)). apply Forall_inv in Hk.
        pose proof (valid_enc_pos e Hk). pose proof (zlen_entry e).
        pose proof (backlen_bytes_range (zlen e)). lia. }
      subst k. destruct (IH P (gap ++ entry d) slack) as [slack' IH'];
        [done|done|rewrite !zlen_app; change (zlen [LP_EOF]) with 1;
          change (zlen (body [])) with 0 in Hend; lia|].
      exists slack'. rewrite kept_cons. change ([] ++ kept ((d2, k2) :: segs)) with (kept ((d2, k2) :: segs)).
      rewrite <- IH'. f_equal.
      * cbn [seg_pos]. change (zlen (body [])) with 0. rewrite !zlen_app. f_equal; [lia|].
        f_equal. lia.
      * change (body []) with (@nil Z). rewrite app_nil_l, <- !app_assoc. done.
    + rewrite (proj2 (Z.ltb_lt _ _)) by lia. cbn [negb].
      replace (zlen (P ++ gap) + zlen (entry d) + zlen (body k) - (zlen (P ++ gap) + zlen (entry d)))
        with (zlen (body k)) by lia.
      rewrite Hmove. cbn [mbind option_bind].
      set (T := body (flatten ((d2, k2) :: segs)) ++ [LP_EOF] ++ slack).
      set (gap' := drop (length (body k)) (gap ++ entry d ++ body k)).
      assert (Hg : drop (length (body k)) (gap ++ entry d ++ body k ++ T) = gap' ++ T).
      { unfold gap'. rewrite !app_assoc. apply drop_app_le. rewrite !length_app. lia. }
      assert (Hgl : zlen gap' = zlen gap + zlen (entry d)).
      { unfold gap'. rewrite zlen_drop, !zlen_app. unfold zlen. lia. }
      rewrite Hg.
      destruct (IH (P ++ body k) gap' slack) as [slack' IH'];
        [done|done|rewrite !zlen_app; change (zlen [LP_EOF]) with 1; lia|].
      exists slack'. rewrite (kept_cons d k), body_app. rewrite <- (app_assoc P (body k)) in IH'.
      rewrite <- (app_assoc P (body k)) in IH'. rewrite <- !app_assoc in IH' |- *.
      rewrite <- IH'. f_equal.
      * cbn [seg_pos]. rewrite !zlen_app. f_equal; [lia|]. f_equal. lia.
      * rewrite zlen_app. lia.
Qed.

Lemma kept_facts segs :
  Forall valid_enc (flatten segs) →
  Forall valid_enc (kept segs) ∧ zlen (flatten segs) = zlen (kept segs) + zlen segs ∧
  zlen (body (kept segs)) <= zlen (body (flatten segs)).
Proof.
  induction segs as [|[d k] segs IH]; [done|]. rewrite flatten_cons, kept_cons.
  intros [Hd [Hk Hf]%Forall_app]%Forall_cons_1. destruct (IH Hf) as (H1 & H2 & H3).
  rewrite body_cons, !body_app, !zlen_cons, !zlen_app. split_and!; [by apply Forall_app_2|lia|].
  pose proof (zlen_nonneg (entry d)). lia.
Qed.

Lemma seg_pos_len start segs : zlen (seg_pos start segs) = zlen segs.
Proof.
  revert start. induction segs as [|[d k] segs IH]; intros start; [done|].
  cbn [seg_pos]. by rewrite !zlen_cons, IH.
Qed.

(** lpBatchDelete removes exactly the entries whose positions it is
    given, in one pass over the bytes. *)
Theorem lpBatchDelete_correct junk lp k0 segs :
  repr lp (k0 ++ flatten segs) →
  ∃ lp', lpBatchDelete junk lp (seg_pos (pos k0) segs) = Some lp' ∧ repr lp' (k0 ++ kept segs).
Proof.
  intros Hr. pose proof Hr as (num & slack & -> & Hn & Hes & Ht & Hs).
  destruct segs as [|[d k] segs0]; [by eexists|]. set (segs := (d, k) :: segs0) in *.
  assert (Hsp : ∃ ps, seg_pos (pos k0) segs = pos k0 :: ps) by (eexists; reflexivity).
  destruct Hsp as [ps Hps]. unfold lpBatchDelete. rewrite Hps. cbv beta iota. rewrite <- Hps.
  rewrite total_bytes_image by done. cbn [mbind option_bind].
  rewrite eof_pos, eof_at. cbn [mbind option_bind]. rewrite Z.eqb_refl. cbn [negb].
  apply Forall_app in Hes as [Hk0 Hes].
  set (P := header (total (k0 ++ flatten segs)) num ++ body k0).
  assert (HP : zlen P = pos k0) by apply pos_header.
  assert (Hlp : image num (k0 ++ flatten segs) slack = P ++ [] ++ body (flatten segs) ++ [LP_EOF] ++ slack).
  { unfold image, P. rewrite body_app, <- !app_assoc. done. }
  destruct (batch_delete_loop_spec segs P [] slack (total (k0 ++ flatten segs)))
    as [slack' Hloop]; [done|done| |].
  { rewrite !zlen_app, HP. unfold total, pos. rewrite body_app, zlen_app.
    change (zlen [LP_EOF]) with 1. change (zlen (@nil Z)) with 0. lia. }
  rewrite app_nil_r, HP in Hloop. rewrite Hlp, Hloop. cbn [mbind option_bind].
  assert (Hkt : zlen (P ++ body (kept segs) ++ [LP_EOF]) = total (k0 ++ kept segs)).
  { rewrite !zlen_app, HP. unfold total, pos. rewrite body_app, zlen_app.
    change (zlen [LP_EOF]) with 1. lia. }
  rewrite Hkt.
  replace (total (k0 ++ flatten segs) - (total (k0 ++ flatten segs) - total (k0 ++ kept segs)))
    with (total (k0 ++ kept segs)) by lia.
  assert (P ++ body (kept segs) ++ [LP_EOF] ++ slack' =
    header (total (k0 ++ flatten segs)) num ++ (body (k0 ++ kept segs) ++ [LP_EOF] ++ slack')) as ->.
  { unfold P. rewrite body_app, <- !app_assoc. done. }
  rewrite eof_pos. rewrite (app_assoc (header _ _)). change ([LP_EOF] ++ slack') with (LP_EOF :: slack').
  rewrite (byte_at_mid (_ ++ body (k0 ++ kept segs)) LP_EOF) by by rewrite pos_header.
  cbn [mbind option_bind]. rewrite Z.eqb_refl. cbn [negb]. rewrite <- app_assoc.
  rewrite set_total_header. cbn [mbind option_bind].
  rewrite get_num_header by by eapply num_ok_range. cbn [mbind option_bind].
  destruct (kept_facts segs Hes) as (Hkv & Hkl & Hkb). rewrite seg_pos_len.
  set (num' := if num =? LP_HDR_NUMELE_UNKNOWN then num else num - zlen segs).
  assert ((if negb (num =? LP_HDR_NUMELE_UNKNOWN) then
      lpSetNumElements (header (total (k0 ++ kept segs)) num ++ body (k0 ++ kept segs) ++ LP_EOF :: slack') (num - zlen segs)
    else Some (header (total (k0 ++ kept segs)) num ++ body (k0 ++ kept segs) ++ LP_EOF :: slack'))
    = Some (image num' (k0 ++ kept segs) slack')) as ->.
  { unfold num'. destruct (num =? LP_HDR_NUMELE_UNKNOWN); cbn [negb]; rewrite ?set_num_header; done. }
  cbn [mbind option_bind].
  assert (total (k0 ++ kept segs) <= UINT32_MAX).
  { unfold total in *. rewrite body_app, zlen_app in *. lia. }
  rewrite shrink_image by done. eexists. split; [reflexivity|].
  eexists _, []. split_and!; [reflexivity| |by apply Forall_app_2|done|constructor].
  unfold num', num_ok in *. rewrite !zlen_app in *. destruct Hn as [->|[-> Hlt]]; [by left|].
  rewrite (proj2 (Z.eqb_neq _ _)) by lia. pose proof (zlen_nonneg segs). lia.
Qed.

(** ** Merging *)

Lemma total_merge es1 es2 : total (es1 ++ es2) = total es1 + total es2 - LP_HDR_SIZE - 1.
Proof. unfold total. rewrite body_app, zlen_app. lia. Qed.

Lemma num_ok_merge (es1 es2 : list (list Z)) :
  num_ok (if zlen es1 + zlen es2 <? UINT16_MAX then zlen es1 + zlen es2 else UINT16_MAX)
    (es1 ++ es2).
Proof.
  unfold num_ok, LP_HDR_NUMELE_UNKNOWN. rewrite zlen_app. case_if; [right|left]; done.
Qed.

(** Appending: the source follows the entries of the target. *)
Lemma merge_append junk n1 es1 s1 n2 es2 s2 :
  ∃ num, (src ← rd LP_HDR_SIZE (total es2 - LP_HDR_SIZE) (image n2 es2 s2);
   wr (total es1 - 1) src (zrealloc junk (total (es1 ++ es2)) (image n1 es1 s1)))
  = Some (header (total es1) num ++ body (es1 ++ es2) ++ [LP_EOF]).
Proof.
  exists n1. assert (Hs : rd LP_HDR_SIZE (total es2 - LP_HDR_SIZE) (image n2 es2 s2)
    = Some (body es2 ++ [LP_EOF])).
  { unfold image. rewrite (app_assoc (body es2)). apply rd_at; [by rewrite header_len|].
    unfold total. rewrite zlen_app. change (zlen [LP_EOF]) with 1. lia. }
  rewrite Hs. cbn [mbind option_bind]. unfold image.
  pose proof (zlen_nonneg (body es2)) as H2.
  destruct (zrealloc_prefix junk (total (es1 ++ es2)) (header (total es1) n1 ++ body es1)
    ([LP_EOF] ++ s1)) as (s' & Hz & Hl).
  { rewrite pos_header, total_merge. unfold total, pos, LP_HDR_SIZE in *. lia. }
  rewrite <- app_assoc in Hz. rewrite Hz.
  rewrite pos_header, total_merge in Hl.
  pose proof (wr_at (header (total es1) n1 ++ body es1) s' [] (body es2 ++ [LP_EOF]) (total es1 - 1)) as W.
  rewrite !app_nil_r in W. rewrite W.
  - f_equal. rewrite body_app, <- !app_assoc. done.
  - rewrite pos_header. unfold total, pos. lia.
  - rewrite zlen_app. change (zlen [LP_EOF]) with 1. unfold total, pos in *. lia.
Qed.

(** Prepending: the entries of the target move up and the source is copied
    before them. *)
Lemma merge_prepend junk n1 es1 s1 n2 es2 s2 :
  ∃ num, (target ← memmove (total es1 - 1) LP_HDR_SIZE (total es2 - LP_HDR_SIZE)
      (zrealloc junk (total (es1 ++ es2)) (image n2 es2 s2));
   src ← rd 0 (total es1 - 1) (image n1 es1 s1); wr 0 src target)
  = Some (header (total es1) num ++ body (es1 ++ es2) ++ [LP_EOF]).
Proof.
  exists n1. pose proof (zlen_nonneg (body es1)) as H1. pose proof (zlen_nonneg (body es2)) as H2.
  set (H := header (total es2) n2). assert (HH : zlen H = 6) by apply header_len.
  set (q := body es2 ++ [LP_EOF]).
  assert (Hq : zlen q = zlen (body es2) + 1) by (unfold q; by rewrite zlen_app).
  assert (Hi : image n2 es2 s2 = (H ++ q) ++ s2) by (unfold image, q; rewrite <- !app_assoc; done).
  destruct (zrealloc_prefix junk (total (es1 ++ es2)) (H ++ q) s2) as (s' & Hz & Hl).
  { rewrite zlen_app, total_merge, Hq, HH. unfold total, LP_HDR_SIZE in *. lia. }
  rewrite Hi, Hz, <- app_assoc. rewrite zlen_app, total_merge, Hq, HH in Hl.
  assert (Hs : rd 0 (total es1 - 1) (image n1 es1 s1) = Some (header (total es1) n1 ++ body es1)).
  { unfold image. rewrite app_assoc. apply rd_head. rewrite pos_header. unfold total, pos. lia. }
  pose proof (memmove_into H (q ++ s') q LP_HDR_SIZE (zlen (body es1))) as M.
  replace (total es1 - 1) with (zlen H + zlen (body es1)) at 1
    by (unfold total, LP_HDR_SIZE; lia).
  replace (total es2 - LP_HDR_SIZE) with (zlen q) by (unfold total; lia).
  rewrite M; [|done| |].
  2:{ rewrite zlen_app. unfold total, LP_HDR_SIZE in *. lia. }
  2:{ apply rd_at; [by rewrite HH|done]. }
  cbn [mbind option_bind]. rewrite Hs. cbn [mbind option_bind].
  assert (Hd : drop (Z.to_nat (zlen (body es1) + zlen q)) (q ++ s') = []).
  { apply drop_ge. rewrite length_app. unfold total, LP_HDR_SIZE, zlen in *. lia. }
  rewrite Hd, app_nil_r.
  set (gap := take (Z.to_nat (zlen (body es1))) (q ++ s')).
  assert (Hg : zlen gap = zlen (body es1)).
  { unfold gap. rewrite zlen_take, zlen_app. unfold total, LP_HDR_SIZE in *. lia. }
  rewrite (app_assoc H). rewrite wr_head.
  - unfold q. rewrite body_app, <- !app_assoc. done.
  - rewrite pos_header, zlen_app, HH, Hg. unfold pos. done.
Qed.

(** Merging two listpacks yields one with the entries of the first
    followed by those of the second, whichever of the two allocations is
    reused; a result of 2^32-1 bytes or more fails the assertion. *)
Theorem lpMerge_correct junk first second es1 es2 :
  repr first es1 → repr second es2 →
  if total (es1 ++ es2) <? UINT32_MAX
  then ∃ lp, lpMerge junk first second = Some (lp, total es2 <=? total es1) ∧ repr lp (es1 ++ es2)
  else lpMerge junk first second = None.
Proof.
  intros Hr1 Hr2.
  destruct (lpLength_image first es1 Hr1) as (n1 & s1 & L1 & Hn1 & Hs1).
  destruct (lpLength_image second es2 Hr2) as (n2 & s2 & L2 & Hn2 & Hs2).
  assert (HB1 : lpBytes first = Some (total es1)).
  { destruct Hr1 as (? & ? & -> & _ & _ & Ht & _). by apply total_bytes_image. }
  assert (HB2 : lpBytes second = Some (total es2)).
  { destruct Hr2 as (? & ? & -> & _ & _ & Ht & _). by apply total_bytes_image. }
  unfold lpMerge. rewrite HB1, HB2, L1, L2. cbn [mbind option_bind].
  destruct Hr1 as (_ & _ & _ & _ & Hv1 & Ht1 & _). destruct Hr2 as (_ & _ & _ & _ & Hv2 & Ht2 & _).
  rewrite <- total_merge.
  assert (Hfin : ∀ n num lp,
    lp = header n num ++ body (es1 ++ es2) ++ [LP_EOF] → total (es1 ++ es2) < UINT32_MAX →
    ∀ b : bool, ∃ lp', (target ← lpSetNumElements lp (if zlen es1 + zlen es2 <? UINT16_MAX
       then zlen es1 + zlen es2 else UINT16_MAX);
     target ← lpSetTotalBytes target (total (es1 ++ es2)); Some (target, b)) = Some (lp', b)
    ∧ repr lp' (es1 ++ es2)).
  { intros n num lp -> Hlt b. rewrite set_num_header. cbn [mbind option_bind].
    rewrite set_total_header. cbn [mbind option_bind]. eexists. split; [reflexivity|].
    eexists _, []. split_and!; [reflexivity|apply num_ok_merge|by apply Forall_app_2|lia|constructor]. }
  destruct (total (es1 ++ es2) <? UINT32_MAX) eqn:Hlt; zb; cbn [negb];
    destruct (total es2 <=? total es1); cbv beta iota zeta; cbn [negb].
  - destruct (merge_append junk n1 es1 s1 n2 es2 s2) as [num Hm].
    destruct (rd LP_HDR_SIZE _ _) as [src|]; [|done]. cbn [mbind option_bind] in *.
    rewrite Hm. cbn [mbind option_bind]. by eapply Hfin.
  - destruct (merge_prepend junk n1 es1 s1 n2 es2 s2) as [num Hm].
    destruct (memmove _ _ _ _) as [t|]; [|done]. cbn [mbind option_bind] in *.
    destruct (rd 0 _ _) as [src|]; [|done]. cbn [mbind option_bind] in *.
    rewrite Hm. cbn [mbind option_bind]. by eapply Hfin.
  - done.
  - done.
Qed.

(** A duplicate has the same entries and no slack. *)
Lemma lpDup_correct junk lp es : repr lp es → ∃ lp', lpDup junk lp = Some lp' ∧ repr lp' es.
Proof.
  intros (num & slack & -> & Hn & Hes & Ht & Hs). unfold lpDup, lpBytes.
  rewrite total_bytes_image by done. cbn [mbind option_bind].
  pose proof (image_len num es []) as Hl. change (zlen []) with 0 in Hl. rewrite Z.add_0_r in Hl.
  assert (E : image num es slack = image num es [] ++ slack)
    by (unfold image; rewrite <- !app_assoc; done).
  rewrite E, rd_head by done. cbn [mbind option_bind].
  pose proof (wr_head (replicate (Z.to_nat (total es)) junk) [] (image num es [])) as W.
  rewrite !app_nil_r in W. rewrite W.
  - eexists. split; [reflexivity|]. exists num, []. split_and!; try done. constructor.
  - rewrite zlen_replicate, Hl. pose proof (total_nonneg es). lia.
Qed.

(** ** Witnesses *)

Lemma ex_entry_ok : entry_ok (inl (bytes_of_string "xyz")) ∧ entry_ok (inr 300).
Proof.
  split; [split; [by apply wf_bytesb_spec|vm_compute; discriminate]|].
  unfold entry_ok, is_int64, INT64_MIN, INT64_MAX. lia.
Qed.

Lemma lpInsert_correct_witness :
  repr (image 2 ex_es [7]) ex_es ∧
  stores (insert_entry 170 (image 2 ex_es [7]) (inl (bytes_of_string "xyz")) 6 LP_AFTER)
    [[5]; 131 :: bytes_of_string "xyz"; [130; 97; 98]] (Some 8).
Proof.
  split; [exact ex_repr|].
  destruct (lpInsert_correct 170 _ ex_es 0 (inl (bytes_of_string "xyz")) ex_repr) as [_ H].
  - simpl. lia.
  - exact (proj1 ex_entry_ok).
  - destruct H as [H _]; [simpl; lia|]. exact H.
Defined.

Lemma lpDelete_correct_witness :
  repr (image 2 ex_es [7]) ex_es ∧
  ∃ lp', lpDelete 170 (image 2 ex_es [7]) 6 = Some (Some (lp', Some 6)) ∧ repr lp' [[130; 97; 98]].
Proof.
  split; [exact ex_repr|].
  destruct (lpDelete_correct 170 _ ex_es 0 ex_repr) as (lp' & H1 & H2); [simpl; lia|].
  exists lp'. split; [exact H1|exact H2].
Defined.

Lemma lp_push_correct_witness :
  repr (image 2 ex_es [7]) ex_es ∧
  stores (lpAppendInteger 170 (image 2 ex_es [7]) 300) [[5]; [130; 97; 98]; [193; 44]] (Some 12).
Proof.
  split; [exact ex_repr|].
  exact (proj1 (proj2 (lp_push_correct 170) _ ex_es (inr 300) ex_repr (proj2 ex_entry_ok))).
Defined.

Lemma lpBatchInsert_correct_witness :
  repr (image 2 ex_es [7]) ex_es ∧
  stores (lpBatchInsert 170 (image 2 ex_es [7]) 6 LP_BEFORE [inr 300; inl (bytes_of_string "xyz")])
    [[193; 44]; 131 :: bytes_of_string "xyz"; [5]; [130; 97; 98]] (Some 9).
Proof.
  split; [exact ex_repr|].
  destruct (lpBatchInsert_correct 170 _ ex_es 0 [inr 300; inl (bytes_of_string "xyz")] ex_repr)
    as [H _]; [simpl; lia|done| |vm_compute; discriminate|exact H].
  constructor; [exact (proj2 ex_entry_ok)|]. constructor; [exact (proj1 ex_entry_ok)|constructor].
Defined.

Lemma lpDeleteRange_correct_witness :
  repr (image 2 ex_es [7]) ex_es ∧
  ∃ lp', lpDeleteRange 170 (image 2 ex_es [7]) (-1) 5 = Some lp' ∧ repr lp' [[5]].
Proof.
  split; [exact ex_repr|].
  apply (lpDeleteRange_correct 170 _ ex_es (-1) 5 ex_repr);
    unfold INT64_MIN, INT64_MAX, UINT64_MAX; lia.
Defined.

Lemma lpBatchDelete_correct_witness :
  repr (image 2 ex_es [7]) ex_es ∧
  ∃ lp', lpBatchDelete 170 (image 2 ex_es [7]) [8] = Some lp' ∧ repr lp' [[5]].
Proof.
  split; [exact ex_repr|].
  exact (lpBatchDelete_correct 170 _ [[5]] [([130; 97; 98], [])] ex_repr).
Defined.

Lemma lpMerge_correct_witness :
  repr (image 2 ex_es [7]) ex_es ∧
  ∃ lp, lpMerge 170 (image 2 ex_es [7]) (image 2 ex_es [7]) = Some (lp, true) ∧
    repr lp (ex_es ++ ex_es).
Proof. split; [exact ex_repr|]. exact (lpMerge_correct 170 _ _ ex_es ex_es ex_repr ex_repr). Defined.

End ListpackEdit.
