(* ===== verification/Dict.v ===== *)
(** * Hash tables with incremental rehashing (src/redis-stable/src/dict.c)

    A dict owns two tables of chained buckets; while it is being resized,
    buckets migrate one at a time from table 0 to table 1 during ordinary
    operations.  A chain is the list of its entries; a pointer to an entry is
    the table, bucket and place in the chain where it lives.  Results: [None] is
    an access outside a table or a failed assertion.

    The callbacks of the [dictType] are parameters of the model; those that
    only release memory or observe rehashing have no effect on the state and
    are left out, as is the allocation of memory, which never fails except in
    [dictTryExpand]. *)

From S2P Require Import Prelude.

Module Dict.

Definition DICT_OK : Z := 0.
Definition DICT_ERR : Z := 1.
Definition HASHTABLE_MIN_FILL : Z := 8.
Definition DICT_HT_INITIAL_EXP : Z := 2.
Definition DICT_HT_INITIAL_SIZE : Z := Z.shiftl 1 DICT_HT_INITIAL_EXP.
Definition dict_force_resize_ratio : Z := 4.
Definition LONG_MAX : Z := INT64_MAX.

Inductive dictResizeEnable := DICT_RESIZE_ENABLE | DICT_RESIZE_AVOID | DICT_RESIZE_FORBID.
#[global] Instance dictResizeEnable_eq_dec : EqDecision dictResizeEnable.
Proof. solve_decision. Defined.

Definition DICTHT_SIZE (exp : Z) : Z := if exp =? -1 then 0 else Z.shiftl 1 exp.
Definition DICTHT_SIZE_MASK (exp : Z) : Z := if exp =? -1 then 0 else DICTHT_SIZE exp - 1.

Section Dict.
Context {K V : Type} `{EqDecision K}.

(** The three kinds of entry pointers: an allocated entry with a value, a bare
    key stored in place of an entry, an allocated entry without value. *)
Inductive entry_kind := ENTRY_NORMAL | ENTRY_KEY | ENTRY_NO_VALUE.

Record dictEntry := { kind : entry_kind; de_key : K; de_val : option V }.

Definition entryIsKey (de : dictEntry) : bool :=
  match kind de with ENTRY_KEY => true | _ => false end.
Definition entryIsNoValue (de : dictEntry) : bool :=
  match kind de with ENTRY_NO_VALUE => true | _ => false end.
Definition entryHasValue (de : dictEntry) : bool :=
  match kind de with ENTRY_NORMAL => true | _ => false end.
Definition dictGetKey (de : dictEntry) : K := de_key de.

(** The fields of a [dictType] that the operations consult. *)
Record dictType := {
  hashFunction : K → Z;
  keyDup : option (K → K);
  valDup : option (V → V);
  storedHashFunction : option (K → Z);
  keyCompare : option (K → K → bool);
  storedKeyCompare : option (K → K → bool);
  keyLen : option (K → Z);
  keyCompareWithLen : option (K → Z → K → Z → bool);
  resizeAllowed : option (Z → Z → Z → bool);
  no_value : bool;
  force_full_rehash : bool
}.

Record ht := { ht_table : list (list dictEntry); ht_used : Z; ht_size_exp : Z }.

Record dict := {
  ht0 : ht;
  ht1 : ht;
  rehashidx : Z;
  pauserehash : Z;
  useStoredKeyApi : bool;
  pauseAutoResize : Z
}.

Definition set_tables (d : dict) (t0 t1 : ht) (idx : Z) : dict :=
  {| ht0 := t0; ht1 := t1; rehashidx := idx; pauserehash := pauserehash d;
     useStoredKeyApi := useStoredKeyApi d; pauseAutoResize := pauseAutoResize d |}.

Definition ht_at (d : dict) (table : bool) : ht := if table then ht1 d else ht0 d.
Definition set_ht (d : dict) (table : bool) (t : ht) : dict :=
  if table then set_tables d (ht0 d) t (rehashidx d)
  else set_tables d t (ht1 d) (rehashidx d).

(** [d->ht_table[table][idx]], read and written. *)
Definition get_bucket (t : ht) (idx : Z) : option (list dictEntry) := byte_at idx (ht_table t).
Definition set_bucket (t : ht) (idx : Z) (c : list dictEntry) (used : Z) : option ht :=
  _ ← get_bucket t idx;
  Some {| ht_table := <[Z.to_nat idx := c]> (ht_table t); ht_used := used;
          ht_size_exp := ht_size_exp t |}.

Definition dictSize (d : dict) : Z := ht_used (ht0 d) + ht_used (ht1 d).
Definition dictIsRehashing (d : dict) : bool := negb (rehashidx d =? -1).
Definition dictBuckets (d : dict) : Z :=
  DICTHT_SIZE (ht_size_exp (ht0 d)) + DICTHT_SIZE (ht_size_exp (ht1 d)).

(** [pauserehash] is a field of 15 bits. *)
Definition dictPauseRehashing (d : dict) : dict :=
  {| ht0 := ht0 d; ht1 := ht1 d; rehashidx := rehashidx d; pauserehash := uwrap 15 (pauserehash d + 1);
     useStoredKeyApi := useStoredKeyApi d; pauseAutoResize := pauseAutoResize d |}.
Definition dictResumeRehashing (d : dict) : dict :=
  {| ht0 := ht0 d; ht1 := ht1 d; rehashidx := rehashidx d; pauserehash := uwrap 15 (pauserehash d - 1);
     useStoredKeyApi := useStoredKeyApi d; pauseAutoResize := pauseAutoResize d |}.

Definition _dictReset : ht := {| ht_table := []; ht_used := 0; ht_size_exp := -1 |}.

Definition _dictInit : dict :=
  {| ht0 := _dictReset; ht1 := _dictReset; rehashidx := -1; pauserehash := 0;
     useStoredKeyApi := false; pauseAutoResize := 0 |}.
Definition dictCreate : dict := _dictInit.

Definition dictDefaultCompare (key1 key2 : K) : bool := bool_decide (key1 = key2).

(** [64 - __builtin_clzl(size-1)] is the bit length of [size-1]. *)
Definition _dictNextExp (size : Z) : Z :=
  if size <=? DICT_HT_INITIAL_SIZE then DICT_HT_INITIAL_EXP
  else if LONG_MAX <=? size then 63
  else Z.log2 (size - 1) + 1.

(** ** Operations *)

Section Ops.
(** The [dictType] of the dict and the global [dict_can_resize]. *)
Context (type : dictType) (dict_can_resize : dictResizeEnable).

Definition dictHashKey (key : K) (isStoredKey : bool) : Z :=
  match isStoredKey, storedHashFunction type with
  | true, Some f => f key
  | _, _ => hashFunction type key
  end.

Definition dictGetKeyCmpFunc (d : dict) : K → K → bool :=
  match useStoredKeyApi d, storedKeyCompare type with
  | true, Some f => f
  | _, _ => match keyCompare type with Some f => f | None => dictDefaultCompare end
  end.

(** *** Rehashing *)

(** The loop of rehashEntriesInBucketAtIndex over the chain of bucket [idx]:
    each entry is pushed on its bucket of table 1. *)
Fixpoint rehash_chain (idx exp0 : Z) (chain : list dictEntry) (t1 : ht) : option ht :=
  match chain with
  | [] => Some t1
  | de :: nextde =>
      let key := dictGetKey de in
      let h := if exp0 <? ht_size_exp t1
               then Z.land (dictHashKey key true) (DICTHT_SIZE_MASK (ht_size_exp t1))
               else Z.land idx (DICTHT_SIZE_MASK (ht_size_exp t1)) in
      b ← get_bucket t1 h;
      de ← (if no_value type then
              match b with
              | [] => Some {| kind := ENTRY_KEY; de_key := key; de_val := None |}
              | _ => if entryIsKey de
                     then Some {| kind := ENTRY_NO_VALUE; de_key := key; de_val := None |}
                     else if entryIsNoValue de then Some de else None
              end
            else if entryIsKey de then None else Some de);
      t1 ← set_bucket t1 h (de :: b) (ht_used t1 + 1);
      rehash_chain idx exp0 nextde t1
  end.

Definition rehashEntriesInBucketAtIndex (d : dict) (idx : Z) : option dict :=
  chain ← get_bucket (ht0 d) idx;
  t1 ← rehash_chain idx (ht_size_exp (ht0 d)) chain (ht1 d);
  t0 ← set_bucket (ht0 d) idx [] (ht_used (ht0 d) - zlen chain);
  Some (set_tables d t0 t1 (rehashidx d)).

Definition dictCheckRehashingCompleted (d : dict) : dict * bool :=
  if negb (ht_used (ht0 d) =? 0) then (d, false)
  else (set_tables d (ht1 d) _dictReset (-1), true).

(** [while(d->ht_table[0][d->rehashidx] == NULL)]: the result says whether the
    limit of empty visits was reached. *)
Fixpoint skip_empty (empty_visits : nat) (d : dict) : option (dict * nat * bool) :=
  match empty_visits with
  | O => None
  | S empty =>
      c ← get_bucket (ht0 d) (rehashidx d);
      match c with
      | _ :: _ => Some (d, S empty, false)
      | [] =>
          let d := set_tables d (ht0 d) (ht1 d) (rehashidx d + 1) in
          match empty with O => Some (d, O, true) | _ => skip_empty empty d end
      end
  end.

(** [while(n-- && d->ht_used[0] != 0)] *)
Fixpoint rehash_loop (n empty_visits : nat) (d : dict) : option (dict * bool) :=
  match n with
  | O => Some (d, false)
  | S n =>
      if ht_used (ht0 d) =? 0 then Some (d, false)
      else if negb (rehashidx d <? DICTHT_SIZE (ht_size_exp (ht0 d))) then None
      else
        '(d, empty_visits, stop) ← skip_empty empty_visits d;
        if (stop : bool) then Some (d, true)
        else
          d ← rehashEntriesInBucketAtIndex d (rehashidx d);
          rehash_loop n empty_visits (set_tables d (ht0 d) (ht1 d) (rehashidx d + 1))
  end.

(** The guard shared by dictRehash and _dictBucketRehash. *)
Definition rehash_forbidden (d : dict) : bool :=
  let s0 := DICTHT_SIZE (ht_size_exp (ht0 d)) in
  let s1 := DICTHT_SIZE (ht_size_exp (ht1 d)) in
  (bool_decide (dict_can_resize = DICT_RESIZE_FORBID) || negb (dictIsRehashing d)) ||
  (bool_decide (dict_can_resize = DICT_RESIZE_AVOID) &&
   (((s0 <? s1) && (s1 <? uwrap 64 (dict_force_resize_ratio * s0))) ||
    ((s1 <? s0) && (s0 <? uwrap 64 (HASHTABLE_MIN_FILL * dict_force_resize_ratio * s1))))).

(** Returns true while there are keys to move. *)
Definition dictRehash (d : dict) (n : nat) : option (dict * bool) :=
  if rehash_forbidden d then Some (d, false)
  else
    '(d, more) ← rehash_loop n (n * 10) d;
    if (more : bool) then Some (d, true)
    else let '(d, completed) := dictCheckRehashingCompleted d in Some (d, negb completed).

Definition _dictRehashStep (d : dict) : option dict :=
  if pauserehash d =? 0 then '(d, _) ← dictRehash d 1; Some d else Some d.

Definition _dictBucketRehash (d : dict) (idx : Z) : option (dict * bool) :=
  if negb (pauserehash d =? 0) then Some (d, false)
  else if rehash_forbidden d then Some (d, false)
  else
    d ← rehashEntriesInBucketAtIndex d idx;
    Some (fst (dictCheckRehashingCompleted d), true).

Definition _dictRehashStepIfNeeded (d : dict) (visitedIdx : Z) : option dict :=
  if negb (dictIsRehashing d) || negb (pauserehash d =? 0) then Some d
  else
    c ← (if rehashidx d <=? visitedIdx then get_bucket (ht0 d) visitedIdx else Some []);
    match c with
    | _ :: _ => '(d, _) ← _dictBucketRehash d visitedIdx; Some d
    | [] => '(d, _) ← dictRehash d 1; Some d
    end.

(** *** Resizing *)

(** [while (dictRehash(d, 1000)) {}]; [fuel] bounds the number of calls. *)
Fixpoint full_rehash (fuel : nat) (d : dict) : option dict :=
  match fuel with
  | O => None
  | S fuel =>
      '(d, more) ← dictRehash d 1000;
      if (more : bool) then full_rehash fuel d else Some d
  end.

(** [malloc_ok] is the outcome of ztrycalloc when [malloc_failed] is given,
    [None] when it is NULL.  Returns the status and [*malloc_failed]. *)
Definition _dictResize (d : dict) (size : Z) (malloc_ok : option bool) : option (dict * Z * bool) :=
  if dictIsRehashing d then None
  else
    let new_ht_size_exp := _dictNextExp size in
    let newsize := DICTHT_SIZE new_ht_size_exp in
    if (newsize <? size) || (uwrap 64 (newsize * 8) <? newsize) then Some (d, DICT_ERR, false)
    else if new_ht_size_exp =? ht_size_exp (ht0 d) then Some (d, DICT_ERR, false)
    else if bool_decide (malloc_ok = Some false) then Some (d, DICT_ERR, true)
    else
      let new_ht := {| ht_table := replicate (Z.to_nat newsize) []; ht_used := 0;
                       ht_size_exp := new_ht_size_exp |} in
      let d := set_tables d (ht0 d) new_ht 0 in
      if bool_decide (ht_table (ht0 d) = []) || (ht_used (ht0 d) =? 0)
      then Some (set_tables d new_ht _dictReset (-1), DICT_OK, false)
      else if force_full_rehash type then
        d ← full_rehash (S (length (ht_table (ht0 d)))) d;
        Some (d, DICT_OK, false)
      else Some (d, DICT_OK, false).

Definition _dictExpand (d : dict) (size : Z) (malloc_ok : option bool) : option (dict * Z * bool) :=
  if dictIsRehashing d || (size <? ht_used (ht0 d)) ||
     (size <=? DICTHT_SIZE (ht_size_exp (ht0 d)))
  then Some (d, DICT_ERR, false)
  else _dictResize d size malloc_ok.

Definition dictExpand (d : dict) (size : Z) : option (dict * Z) :=
  '(d, r, _) ← _dictExpand d size None; Some (d, r).

Definition dictTryExpand (d : dict) (size : Z) (malloc_ok : bool) : option (dict * Z) :=
  '(d, _, malloc_failed) ← _dictExpand d size (Some malloc_ok);
  Some (d, if (malloc_failed : bool) then DICT_ERR else DICT_OK).

Definition dictShrink (d : dict) (size : Z) : option (dict * Z) :=
  if dictIsRehashing d || (size <? ht_used (ht0 d)) ||
     (DICTHT_SIZE (ht_size_exp (ht0 d)) <=? size)
  then Some (d, DICT_ERR)
  else '(d, r, _) ← _dictResize d size None; Some (d, r).

(** The callback receives the bytes needed and the fill ratio, given by its
    numerator and denominator. *)
Definition dictTypeResizeAllowed (d : dict) (size : Z) : bool :=
  match resizeAllowed type with
  | None => true
  | Some f => f (uwrap 64 (DICTHT_SIZE (_dictNextExp size) * 8)) (ht_used (ht0 d))
                (DICTHT_SIZE (ht_size_exp (ht0 d)))
  end.

Definition dictExpandIfNeeded (d : dict) : option (dict * Z) :=
  if dictIsRehashing d then Some (d, DICT_OK)
  else if DICTHT_SIZE (ht_size_exp (ht0 d)) =? 0 then
    '(d, _) ← dictExpand d DICT_HT_INITIAL_SIZE; Some (d, DICT_OK)
  else
    let used := ht_used (ht0 d) in
    let size := DICTHT_SIZE (ht_size_exp (ht0 d)) in
    if (bool_decide (dict_can_resize = DICT_RESIZE_ENABLE) && (size <=? used)) ||
       (negb (bool_decide (dict_can_resize = DICT_RESIZE_FORBID)) &&
        (uwrap 64 (dict_force_resize_ratio * size) <=? used))
    then
      d ← (if dictTypeResizeAllowed d (uwrap 64 (used + 1))
           then '(d, _) ← dictExpand d (uwrap 64 (used + 1)); Some d else Some d);
      Some (d, DICT_OK)
    else Some (d, DICT_ERR).

Definition _dictExpandIfNeeded (d : dict) : option dict :=
  if 0 <? pauseAutoResize d then Some d
  else '(d, _) ← dictExpandIfNeeded d; Some d.

Definition dictShrinkIfNeeded (d : dict) : option (dict * Z) :=
  if dictIsRehashing d then Some (d, DICT_OK)
  else if DICTHT_SIZE (ht_size_exp (ht0 d)) <=? DICT_HT_INITIAL_SIZE then Some (d, DICT_OK)
  else
    let used := ht_used (ht0 d) in
    let size := DICTHT_SIZE (ht_size_exp (ht0 d)) in
    if (bool_decide (dict_can_resize = DICT_RESIZE_ENABLE) && (uwrap 64 (used * HASHTABLE_MIN_FILL) <=? size)) ||
       (negb (bool_decide (dict_can_resize = DICT_RESIZE_FORBID)) &&
        (uwrap 64 (used * HASHTABLE_MIN_FILL * dict_force_resize_ratio) <=? size))
    then
      d ← (if dictTypeResizeAllowed d used
           then '(d, _) ← dictShrink d used; Some d else Some d);
      Some (d, DICT_OK)
    else Some (d, DICT_ERR).

Definition _dictShrinkIfNeeded (d : dict) : option dict :=
  if 0 <? pauseAutoResize d then Some d
  else '(d, _) ← dictShrinkIfNeeded d; Some d.

(** *** Lookup *)

(** A pointer to an entry: table, bucket, place in the chain. *)
Definition eptr : Type := bool * Z * nat.

Definition deref (d : dict) (p : eptr) : option dictEntry :=
  let '(table, idx, i) := p in
  c ← get_bucket (ht_at d table) idx; c !! i.

(** Place of the first entry of a chain whose key matches. *)
Fixpoint chain_find (match_ : K → bool) (c : list dictEntry) : option nat :=
  match c with
  | [] => None
  | he :: c => if match_ (dictGetKey he) then Some O else S <$> chain_find match_ c
  end.

(** The search in one table: the match, if any, and the bucket index. *)
Definition search_table (d : dict) (hash : Z) (match_ : K → bool) (table : bool)
  : option (option eptr * Z) :=
  let idx := Z.land hash (DICTHT_SIZE_MASK (ht_size_exp (ht_at d table))) in
  c ← get_bucket (ht_at d table) idx;
  Some ((λ i, (table, idx, i)) <$> chain_find match_ c, idx).

(** The loop over the two tables common to all lookups: [idx] is the bucket
    in table 0.  Returns the match, if any, and the last bucket index
    computed. *)
Definition search_tables (d : dict) (hash idx : Z) (match_ : K → bool)
  : option (option eptr * Z) :=
  if idx <? rehashidx d then search_table d hash match_ true
  else
    '(r, idx) ← search_table d hash match_ false;
    match r with
    | Some p => Some (Some p, idx)
    | None => if negb (dictIsRehashing d) then Some (None, idx)
              else search_table d hash match_ true
    end.

Definition key_match (d : dict) (key : K) (he_key : K) : bool :=
  bool_decide (key = he_key) || dictGetKeyCmpFunc d key he_key.

(** Lookups compare lengths first when the type knows them. *)
Definition find_match (d : dict) (key : K) (he_key : K) : bool :=
  bool_decide (key = he_key) ||
  match keyLen type, keyCompareWithLen type with
  | Some keyLenFunc, Some cmpFuncWithLen =>
      cmpFuncWithLen key (keyLenFunc key) he_key (keyLenFunc he_key)
  | _, _ => dictGetKeyCmpFunc d key he_key
  end.

Definition dictFindByHash (d : dict) (key : K) (hash : Z) : option (dict * option eptr) :=
  if dictSize d =? 0 then Some (d, None)
  else
    let idx := Z.land hash (DICTHT_SIZE_MASK (ht_size_exp (ht0 d))) in
    d ← _dictRehashStepIfNeeded d idx;
    '(r, _) ← search_tables d hash idx (find_match d key);
    Some (d, r).

Definition dictFind (d : dict) (key : K) : option (dict * option eptr) :=
  if dictSize d =? 0 then Some (d, None)
  else dictFindByHash d key (dictHashKey key (useStoredKeyApi d)).

Definition dictGetVal (d : dict) (p : eptr) : option (option V) :=
  e ← deref d p; if entryHasValue e then Some (de_val e) else None.

Definition dictFetchValue (d : dict) (key : K) : option (dict * option (option V)) :=
  '(d, he) ← dictFind d key;
  match he with
  | None => Some (d, None)
  | Some p => v ← dictGetVal d p; Some (d, Some v)
  end.

(** Search by the identity of the key. *)
Definition dictFindByHashAndPtr (d : dict) (oldptr : K) (hash : Z) : option (option eptr) :=
  if dictSize d =? 0 then Some None
  else
    let idx := Z.land hash (DICTHT_SIZE_MASK (ht_size_exp (ht0 d))) in
    '(r, _) ← search_tables d hash idx (λ he_key, bool_decide (oldptr = he_key));
    Some r.

(** *** Insertion *)

(** The bucket where to insert, or [inr] of the existing entry. *)
Definition dictFindPositionForInsert (d : dict) (key : K) : option (dict * (bool * Z + eptr)) :=
  let hash := dictHashKey key (useStoredKeyApi d) in
  let idx := Z.land hash (DICTHT_SIZE_MASK (ht_size_exp (ht0 d))) in
  d ← _dictRehashStepIfNeeded d idx;
  d ← _dictExpandIfNeeded d;
  '(r, idx) ← search_tables d hash idx (key_match d key);
  match r with
  | Some existing => Some (d, inr existing)
  | None => Some (d, inl (dictIsRehashing d, idx))
  end.

Definition dictInsertAtPosition (d : dict) (key : K) (position : bool * Z)
  : option (dict * eptr) :=
  let '(table, idx) := position in
  let htidx := dictIsRehashing d in
  if negb (eqb table htidx && (0 <=? idx) &&
           (idx <=? DICTHT_SIZE_MASK (ht_size_exp (ht_at d htidx)))) then None
  else
    bucket ← get_bucket (ht_at d htidx) idx;
    let entry :=
      if no_value type then
        match bucket with
        | [] => {| kind := ENTRY_KEY; de_key := key; de_val := None |}
        | _ => {| kind := ENTRY_NO_VALUE; de_key := key; de_val := None |}
        end
      else {| kind := ENTRY_NORMAL; de_key := key; de_val := None |} in
    t ← set_bucket (ht_at d htidx) idx (entry :: bucket) (ht_used (ht_at d htidx) + 1);
    Some (set_ht d htidx t, (htidx, idx, O)).

Definition dup_key (key : K) : K := match keyDup type with Some f => f key | None => key end.
Definition dup_val (val : V) : V := match valDup type with Some f => f val | None => val end.

Definition dictAddRaw (d : dict) (key : K) : option (dict * (eptr + eptr)) :=
  '(d, position) ← dictFindPositionForInsert d key;
  match position with
  | inr existing => Some (d, inr existing)
  | inl position => let key := dup_key key in '(d, entry) ← dictInsertAtPosition d key position; Some (d, inl entry)
  end.

Definition dictSetVal (d : dict) (p : eptr) (val : V) : option dict :=
  let '(table, idx, i) := p in
  c ← get_bucket (ht_at d table) idx;
  e ← c !! i;
  if entryHasValue e then
    t ← set_bucket (ht_at d table) idx
          (<[i := {| kind := kind e; de_key := de_key e; de_val := Some (dup_val val) |}]> c)
          (ht_used (ht_at d table));
    Some (set_ht d table t)
  else None.

Definition dictSetKey (d : dict) (p : eptr) (key : K) : option dict :=
  let '(table, idx, i) := p in
  c ← get_bucket (ht_at d table) idx;
  e ← c !! i;
  if no_value type then None
  else
    t ← set_bucket (ht_at d table) idx
          (<[i := {| kind := kind e; de_key := dup_key key; de_val := de_val e |}]> c)
          (ht_used (ht_at d table));
    Some (set_ht d table t).

Definition dictAdd (d : dict) (key : K) (val : V) : option (dict * Z) :=
  '(d, entry) ← dictAddRaw d key;
  match entry with
  | inr _ => Some (d, DICT_ERR)
  | inl entry =>
      d ← (if negb (no_value type) then dictSetVal d entry val else Some d);
      Some (d, DICT_OK)
  end.

(** The entry added or found. *)
Definition dictAddOrFind (d : dict) (key : K) : option (dict * eptr) :=
  '(d, entry) ← dictAddRaw d key;
  Some (d, match entry with inl p => p | inr existing => existing end).

Definition dictReplace (d : dict) (key : K) (val : V) : option (dict * Z) :=
  '(d, entry) ← dictAddRaw d key;
  match entry with
  | inl entry => d ← dictSetVal d entry val; Some (d, 1)
  | inr existing =>
      _ ← dictGetVal d existing;
      d ← dictSetVal d existing val;
      Some (d, 0)
  end.

Definition dictAddNonExistsByHash (d : dict) (key : K) (hash : Z) : option (dict * eptr) :=
  let idx := Z.land hash (DICTHT_SIZE_MASK (ht_size_exp (ht0 d))) in
  d ← _dictRehashStepIfNeeded d idx;
  d ← _dictExpandIfNeeded d;
  let table := dictIsRehashing d in
  let idx := Z.land hash (DICTHT_SIZE_MASK (ht_size_exp (ht_at d table))) in
  dictInsertAtPosition d (dup_key key) (table, idx).

(** *** Deletion *)

(** Unlinking the entry at [p] from its chain. *)
Definition unlink (d : dict) (p : eptr) : option (dict * dictEntry) :=
  let '(table, idx, i) := p in
  c ← get_bucket (ht_at d table) idx;
  he ← c !! i;
  t ← set_bucket (ht_at d table) idx (delete i c) (ht_used (ht_at d table) - 1);
  Some (set_ht d table t, he).

Definition dictGenericDelete (d : dict) (key : K) : option (dict * option dictEntry) :=
  if dictSize d =? 0 then Some (d, None)
  else
    let h := dictHashKey key (useStoredKeyApi d) in
    let idx := Z.land h (DICTHT_SIZE_MASK (ht_size_exp (ht0 d))) in
    d ← _dictRehashStepIfNeeded d idx;
    '(r, _) ← search_tables d h idx (key_match d key);
    match r with
    | None => Some (d, None)
    | Some p =>
        '(d, he) ← unlink d p;
        d ← _dictShrinkIfNeeded d;
        Some (d, Some he)
    end.

Definition dictDelete (d : dict) (key : K) : option (dict * Z) :=
  '(d, he) ← dictGenericDelete d key;
  Some (d, match he with Some _ => DICT_OK | None => DICT_ERR end).

Definition dictUnlink (d : dict) (key : K) : option (dict * option dictEntry) :=
  dictGenericDelete d key.

Definition dictTwoPhaseUnlinkFind (d : dict) (key : K) : option (dict * option eptr) :=
  if dictSize d =? 0 then Some (d, None)
  else
    d ← (if dictIsRehashing d then _dictRehashStep d else Some d);
    let h := dictHashKey key (useStoredKeyApi d) in
    let idx := Z.land h (DICTHT_SIZE_MASK (ht_size_exp (ht0 d))) in
    '(r, _) ← search_tables d h idx (key_match d key);
    match r with
    | Some p => Some (dictPauseRehashing d, Some p)
    | None => Some (d, None)
    end.

Definition dictTwoPhaseUnlinkFree (d : dict) (he : option eptr) : option dict :=
  match he with
  | None => Some d
  | Some p =>
      '(d, _) ← unlink d p;
      d ← _dictShrinkIfNeeded d;
      Some (dictResumeRehashing d)
  end.

(** *** Clearing *)

Definition _dictClear (d : dict) (table : bool) : dict := set_ht d table _dictReset.

Definition dictEmpty (d : dict) : dict :=
  let d := _dictClear d false in
  let d := _dictClear d true in
  {| ht0 := ht0 d; ht1 := ht1 d; rehashidx := -1; pauserehash := 0;
     useStoredKeyApi := useStoredKeyApi d; pauseAutoResize := 0 |}.
End Ops.
End Dict.

Arguments dictEntry : clear implicits.
Arguments dictType : clear implicits.
Arguments ht : clear implicits.
Arguments dict : clear implicits.
End Dict.
