(* ===== verification/DictProofs.v ===== *)
(** * Hash tables: correctness

    The invariant of a dict, including the middle of an incremental rehash,
    its contents as a finite map from key contents to values, and the theorems
    that every operation keeps the invariant and acts on the contents as the
    corresponding map operation, however far the rehash has gone. *)

From stdpp Require Import gmap.
From S2P Require Import Prelude Dict.

Module DictProofs.
Import Dict.

(** ** Table sizes *)

Lemma ht_size_pow e : 0 <= e → DICTHT_SIZE e = 2 ^ e.
Proof. intros. unfold DICTHT_SIZE. case_if; [lia|]. by rewrite Z.shiftl_1_l. Qed.

Lemma land_size_mask h e : 0 <= e → Z.land h (DICTHT_SIZE_MASK e) = h mod 2 ^ e.
Proof.
  intros. unfold DICTHT_SIZE_MASK. case_if; [lia|]. rewrite ht_size_pow by done.
  by apply land_mask.
Qed.

Lemma bucket_range h e : 0 <= e → 0 <= Z.land h (DICTHT_SIZE_MASK e) < 2 ^ e.
Proof. intros. rewrite land_size_mask by done. apply Z.mod_pos_bound. by apply Z.pow_pos_nonneg. Qed.

Lemma land_mask_mask h e0 e1 :
  0 <= e1 <= e0 →
  Z.land (Z.land h (DICTHT_SIZE_MASK e0)) (DICTHT_SIZE_MASK e1) = Z.land h (DICTHT_SIZE_MASK e1).
Proof.
  intros. rewrite !land_size_mask by lia. replace e0 with (e1 + (e0 - e1)) by lia.
  rewrite Z.pow_add_r by lia. apply Z.mod_mod_divide. apply Z.divide_factor_l.
Qed.

Lemma next_exp_range size : 0 <= size → 2 <= _dictNextExp size <= 63.
Proof.
  intros. unfold _dictNextExp, DICT_HT_INITIAL_SIZE, DICT_HT_INITIAL_EXP, LONG_MAX, INT64_MAX.
  change (Z.shiftl 1 2) with 4. repeat case_if; try lia.
  pose proof (Z.log2_le_mono 4 (size - 1) ltac:(lia)).
  pose proof (Z.log2_lt_pow2 (size - 1) 63 ltac:(lia)) as [Hx _].
  change (Z.log2 4) with 2 in *. specialize (Hx ltac:(lia)). lia.
Qed.

Lemma uwrap_nonneg v : 0 <= uwrap 64 v.
Proof. by apply Z.mod_pos_bound. Qed.

Section Proofs.
Context {K V C : Type} `{EqDecision K} `{Countable C}.

Abbreviation dictEntry := (dictEntry K V).
Abbreviation dict := (dict K V).
Abbreviation ht := (ht K V).

(** ** What the dictType must guarantee

    Keys are pointers to objects whose contents matter: hashing and comparison
    depend on the contents only, also for the stored-key variants. *)
Context (type : dictType K V) (rs : dictResizeEnable).
Context (content : K → C) (hash_of : C → Z).
Context (Hhash : ∀ k b, dictHashKey type k b = hash_of (content k)).
Context (Hcmp : ∀ (d : dict) k1 k2, dictGetKeyCmpFunc type d k1 k2 = bool_decide (content k1 = content k2)).
Context (Hcmplen : ∀ len cmp, keyLen type = Some len → keyCompareWithLen type = Some cmp →
  ∀ k1 k2, cmp k1 (len k1) k2 (len k2) = bool_decide (content k1 = content k2)).
Context (Hdup : ∀ k, content (dup_key type k) = content k).

Definition ck (e : dictEntry) : C := content (de_key e).
Definition kv (e : dictEntry) : C * option V := (ck e, de_val e).

(** The shape of a chain: with [no_value] a bare key can only be the last. *)
Fixpoint chain_ok (c : list dictEntry) : Prop :=
  match c with
  | [] => True
  | e :: c' =>
      (if no_value type
       then entryHasValue e = false ∧ de_val e = None ∧ (entryIsKey e = true → c' = [])
       else entryHasValue e = true) ∧ chain_ok c'
  end.

Definition home (t : ht) (e : dictEntry) : Z :=
  Z.land (hash_of (ck e)) (DICTHT_SIZE_MASK (ht_size_exp t)).

Definition entries (t : ht) : list dictEntry := mjoin (ht_table t).

Record wf_ht (t : ht) : Prop := {
  wf_size : ht_size_exp t = -1 ∧ ht_table t = [] ∨
            0 <= ht_size_exp t <= 63 ∧ zlen (ht_table t) = 2 ^ ht_size_exp t;
  wf_used : ht_used t = zlen (entries t);
  wf_home : ∀ idx c, get_bucket t idx = Some c → Forall (λ e, home t e = idx) c;
  wf_chain : ∀ idx c, get_bucket t idx = Some c → chain_ok c
}.

Definition contents (d : dict) : list (C * option V) := kv <$> (entries (ht0 d) ++ entries (ht1 d)).

(** Before [rehashidx] the buckets of table 0 have all been moved. *)
Record wf (d : dict) : Prop := {
  wf_0 : wf_ht (ht0 d);
  wf_1 : wf_ht (ht1 d);
  wf_nodup : NoDup (contents d).*1;
  wf_rehash : if dictIsRehashing d
    then 0 <= rehashidx d <= zlen (ht_table (ht0 d)) ∧ 0 <= ht_size_exp (ht0 d) ∧
         0 <= ht_size_exp (ht1 d) ∧
         ∀ idx, 0 <= idx < rehashidx d → get_bucket (ht0 d) idx = Some []
    else ht1 d = _dictReset
}.

(** ** Buckets *)

Lemma get_bucket_in t idx : 0 <= idx < zlen (ht_table t) → ∃ c : list dictEntry, get_bucket t idx = Some c.
Proof. intros Hi. destruct (byte_at_in idx (ht_table t) Hi) as [c Hc]. by exists c. Qed.

Lemma get_bucket_lt (t : ht) idx c : get_bucket t idx = Some c → 0 <= idx < zlen (ht_table t).
Proof. apply byte_at_lt. Qed.

Lemma home_bucket t e :
  wf_ht t → 0 <= ht_size_exp t → ∃ c, get_bucket t (home t e) = Some c.
Proof.
  intros Ht He. apply get_bucket_in. unfold home. pose proof (bucket_range (hash_of (ck e)) _ He).
  destruct (wf_size _ Ht) as [[? _]|[_ ->]]; lia.
Qed.

Lemma set_bucket_in (t : ht) idx b c u :
  get_bucket t idx = Some b → set_bucket t idx c u = Some
    {| ht_table := <[Z.to_nat idx := c]> (ht_table t); ht_used := u; ht_size_exp := ht_size_exp t |}.
Proof. intros Hb. unfold set_bucket. by rewrite Hb. Qed.

Lemma get_set_bucket (t : ht) idx b c u t' j :
  get_bucket t idx = Some b → set_bucket t idx c u = Some t' →
  get_bucket t' j = if j =? idx then Some c else get_bucket t j.
Proof.
  intros Hb Hs. pose proof (get_bucket_lt _ _ _ Hb) as Hr.
  rewrite (set_bucket_in _ _ _ _ _ Hb) in Hs. injection Hs as <-.
  unfold get_bucket, byte_at. simpl. destruct (j =? idx) eqn:E; zb.
  - subst j. case_if; [|lia]. apply list_lookup_insert_eq. unfold zlen in Hr. lia.
  - case_if; [|done]. apply list_lookup_insert_ne. lia.
Qed.

(** The entries of a table split at one bucket. *)
Lemma entries_bucket (t : ht) idx b :
  get_bucket t idx = Some b →
  ∃ rest, entries t ≡ₚ b ++ rest ∧
    ∀ c u t', set_bucket t idx c u = Some t' → entries t' ≡ₚ c ++ rest.
Proof.
  intros Hb. unfold get_bucket, byte_at in Hb. case_if; [|done].
  pose proof (take_drop_middle _ _ _ Hb) as Hm. set (i := Z.to_nat idx) in *.
  exists (mjoin (take i (ht_table t)) ++ mjoin (drop (S i) (ht_table t))). split.
  - unfold entries. rewrite <- Hm at 1. rewrite join_app. simpl. solve_Permutation.
  - intros c u t' Hs. rewrite (set_bucket_in t idx b) in Hs
      by (unfold get_bucket, byte_at; case_if; [done|lia]).
    injection Hs as <-. unfold entries. simpl. fold i.
    rewrite insert_take_drop by (by eapply lookup_lt_Some). rewrite join_app. simpl.
    solve_Permutation.
Qed.

(** Replacing the chain of one bucket keeps a table well formed. *)
Lemma wf_set_bucket t idx b c t' :
  wf_ht t → get_bucket t idx = Some b →
  set_bucket t idx c (ht_used t + zlen c - zlen b) = Some t' →
  Forall (λ e, home t e = idx) c → chain_ok c → wf_ht t'.
Proof.
  intros Ht Hb Hs Hh Hc.
  assert (Hg : ∀ j, get_bucket t' j = if j =? idx then Some c else get_bucket t j)
    by (intros j; by eapply get_set_bucket).
  assert (He : ht_size_exp t' = ht_size_exp t).
  { rewrite (set_bucket_in _ _ _ _ _ Hb) in Hs. by injection Hs as <-. }
  destruct (entries_bucket t idx b Hb) as (rest & P1 & P2). specialize (P2 _ _ _ Hs).
  split.
  - rewrite He. rewrite (set_bucket_in _ _ _ _ _ Hb) in Hs. injection Hs as <-. simpl.
    destruct (wf_size _ Ht) as [[? Hn]|[? Hl]].
    + unfold get_bucket, byte_at in Hb. rewrite Hn in Hb. case_if; [|done]. done.
    + right. split; [done|]. unfold zlen in *. by rewrite length_insert.
  - apply Permutation_length in P1, P2. rewrite length_app in P1, P2.
    pose proof (wf_used _ Ht) as Hu. rewrite (set_bucket_in _ _ _ _ _ Hb) in Hs.
    injection Hs as <-. simpl in *. unfold zlen in *. lia.
  - intros j c' Hj. rewrite Hg in Hj. unfold home. rewrite He. destruct (j =? idx) eqn:E; zb.
    + injection Hj as <-. by subst j.
    + by eapply (wf_home _ Ht).
  - intros j c' Hj. rewrite Hg in Hj. destruct (j =? idx); [by injection Hj as <-|].
    by eapply (wf_chain _ Ht).
Qed.

(** ** Moving a bucket *)

Lemma set_bucket_exp (t : ht) idx c u t' : set_bucket t idx c u = Some t' → ht_size_exp t' = ht_size_exp t.
Proof. unfold set_bucket. destruct (get_bucket t idx); [|done]. by intros [= <-]. Qed.

Lemma set_bucket_used (t : ht) idx c u t' : set_bucket t idx c u = Some t' → ht_used t' = u.
Proof. unfold set_bucket. destruct (get_bucket t idx); [|done]. by intros [= <-]. Qed.

Lemma set_bucket_len (t : ht) idx c u t' :
  set_bucket t idx c u = Some t' → zlen (ht_table t') = zlen (ht_table t).
Proof.
  unfold set_bucket. destruct (get_bucket t idx); [|done]. intros [= <-]. simpl.
  unfold zlen. by rewrite length_insert.
Qed.

Lemma chain_ok_tail e c : chain_ok (e :: c) → chain_ok c.
Proof. by intros [_ ?]. Qed.

(** The entry pushed on the new bucket. *)
Lemma push_ok e c b :
  chain_ok (e :: c) → chain_ok b →
  ∃ e', (if no_value type then
           match b with
           | [] => Some {| kind := ENTRY_KEY; de_key := dictGetKey e; de_val := None |}
           | _ => if entryIsKey e
                  then Some {| kind := ENTRY_NO_VALUE; de_key := dictGetKey e; de_val := None |}
                  else if entryIsNoValue e then Some e else None
           end
         else if entryIsKey e then None else Some e) = Some e' ∧
    chain_ok (e' :: b) ∧ kv e' = kv e.
Proof.
  intros [He _] Hb. unfold chain_ok; fold chain_ok.
  destruct e as [k key val]. unfold kv, ck. simpl in *. destruct (no_value type).
  - destruct He as (Hv & -> & Hk). destruct b as [|e0 b].
    + eexists. split; [reflexivity|]. done.
    + destruct k; simpl in *; [done|..]; eexists; (split; [reflexivity|]); done.
  - destruct k; try done. eexists. split; [reflexivity|]. done.
Qed.

Lemma rehash_chain_spec idx e0 c t1 :
  wf_ht t1 → 0 <= ht_size_exp t1 → 0 <= e0 → chain_ok c →
  Forall (λ e, Z.land (hash_of (ck e)) (DICTHT_SIZE_MASK e0) = idx) c →
  ∃ t1', rehash_chain type idx e0 c t1 = Some t1' ∧ wf_ht t1' ∧
    ht_size_exp t1' = ht_size_exp t1 ∧ kv <$> entries t1' ≡ₚ (kv <$> c) ++ (kv <$> entries t1).
Proof.
  intros Ht Hes He0 Hc Hh. revert t1 Ht Hes. induction Hh as [|e c Hidx Hh IH]; intros t1 Ht Hes.
  { by exists t1. }
  cbn [rehash_chain].
  assert (Hhome : (if e0 <? ht_size_exp t1
      then Z.land (dictHashKey type (dictGetKey e) true) (DICTHT_SIZE_MASK (ht_size_exp t1))
      else Z.land idx (DICTHT_SIZE_MASK (ht_size_exp t1))) = home t1 e).
  { unfold home, dictGetKey. case_if; [by rewrite Hhash|].
    rewrite <- Hidx. apply land_mask_mask. lia. }
  rewrite Hhome. destruct (home_bucket t1 e Ht Hes) as [b Hb]. rewrite Hb. cbn [mbind option_bind].
  destruct (push_ok e c b Hc (wf_chain _ Ht _ _ Hb)) as (e' & -> & Hok & Hkv).
  cbn [mbind option_bind].
  assert (Hck : ck e' = ck e) by by (injection Hkv).
  pose proof (set_bucket_in _ _ _ (e' :: b) (ht_used t1 + 1) Hb) as Hs. rewrite Hs.
  cbn [mbind option_bind].
  match type of Hs with _ = Some ?t => set (t2 := t) in * end.
  assert (Hwf : wf_ht t2).
  { eapply (wf_set_bucket t1 (home t1 e) b (e' :: b)); [done|done| | |done].
    - rewrite <- Hs. f_equal. rewrite zlen_cons. lia.
    - constructor; [unfold home; by rewrite Hck|by apply (wf_home _ Ht)]. }
  destruct (IH (chain_ok_tail _ _ Hc) t2 Hwf Hes) as (t1' & -> & Hwf' & Hexp & Hperm).
  exists t1'. split_and!; [done|done|by rewrite Hexp|]. rewrite Hperm.
  destruct (entries_bucket t1 _ b Hb) as (rest & P1 & P2). specialize (P2 _ _ _ Hs).
  rewrite P2, P1. rewrite !fmap_app. simpl. rewrite Hkv. solve_Permutation.
Qed.

(** What rehashing and resizing keep. *)
Record same (d d' : dict) : Prop := {
  same_wf : wf d';
  same_contents : contents d' ≡ₚ contents d;
  same_pause : pauserehash d' = pauserehash d;
  same_api : useStoredKeyApi d' = useStoredKeyApi d;
  same_auto : pauseAutoResize d' = pauseAutoResize d
}.

(** The settings no operation on entries changes. *)
Definition kept (d d' : dict) : Prop :=
  pauserehash d' = pauserehash d ∧ useStoredKeyApi d' = useStoredKeyApi d ∧
  pauseAutoResize d' = pauseAutoResize d.

Lemma kept_refl d : kept d d.
Proof. done. Qed.

Lemma kept_trans d1 d2 d3 : kept d1 d2 → kept d2 d3 → kept d1 d3.
Proof. unfold kept. intuition congruence. Qed.

Lemma same_kept d d' : same d d' → kept d d'.
Proof. intros []. done. Qed.

Lemma same_refl d : wf d → same d d.
Proof. by constructor. Qed.

Lemma same_trans d1 d2 d3 : same d1 d2 → same d2 d3 → same d1 d3.
Proof. intros [] []. constructor; congruence || (by etrans). Qed.

Lemma contents_size d : wf d → dictSize d = zlen (contents d).
Proof.
  intros Hd. unfold dictSize, contents. rewrite (wf_used _ (wf_0 _ Hd)), (wf_used _ (wf_1 _ Hd)).
  by rewrite zlen_fmap, zlen_app.
Qed.

(** Moving bucket [idx] of table 0. *)
Lemma rehash_bucket_spec d idx :
  wf d → dictIsRehashing d = true → 0 <= idx < zlen (ht_table (ht0 d)) →
  ∃ d', rehashEntriesInBucketAtIndex type d idx = Some d' ∧ same d d' ∧
    rehashidx d' = rehashidx d ∧ ht_size_exp (ht0 d') = ht_size_exp (ht0 d) ∧
    ht_size_exp (ht1 d') = ht_size_exp (ht1 d) ∧
    zlen (ht_table (ht0 d')) = zlen (ht_table (ht0 d)) ∧
    get_bucket (ht0 d') idx = Some [].
Proof.
  intros Hd Hre Hidx. pose proof (wf_rehash _ Hd) as Hr. rewrite Hre in Hr.
  destruct Hr as (Hri & He0 & He1 & Hempty).
  destruct (get_bucket_in (ht0 d) idx Hidx) as [c Hc].
  unfold rehashEntriesInBucketAtIndex. rewrite Hc. cbn [mbind option_bind].
  destruct (rehash_chain_spec idx (ht_size_exp (ht0 d)) c (ht1 d) (wf_1 _ Hd) He1 He0
    (wf_chain _ (wf_0 _ Hd) _ _ Hc) (wf_home _ (wf_0 _ Hd) _ _ Hc)) as (t1 & -> & Hwf1 & Hx1 & Hp).
  cbn [mbind option_bind].
  pose proof (set_bucket_in _ _ _ [] (ht_used (ht0 d) - zlen c) Hc) as Hs. rewrite Hs.
  cbn [mbind option_bind]. match type of Hs with _ = Some ?t => set (t0 := t) in * end.
  assert (Hwf0 : wf_ht t0).
  { eapply (wf_set_bucket (ht0 d) idx c []); [apply Hd|done| |constructor|done].
    rewrite <- Hs. f_equal. rewrite zlen_nil. lia. }
  pose proof (entries_bucket _ _ _ Hc) as (rest & P1 & P2). specialize (P2 _ _ _ Hs).
  assert (Hperm : contents (set_tables d t0 t1 (rehashidx d)) ≡ₚ contents d).
  { unfold contents. simpl. rewrite !fmap_app, Hp, P2, P1, !fmap_app. simpl. solve_Permutation. }
  assert (Hlen : zlen (ht_table t0) = zlen (ht_table (ht0 d))) by by eapply set_bucket_len.
  eexists. split; [reflexivity|]. split_and!; try done.
  - constructor; try done. constructor; try done.
    + simpl. rewrite Hperm. apply Hd.
    + unfold dictIsRehashing in *. simpl in *. rewrite Hre.
      split_and!; [lia|lia|done|lia|].
      intros j Hj. rewrite (get_set_bucket _ _ _ _ _ _ _ Hc Hs).
      case_if; [done|]. by apply Hempty.
  - simpl. by rewrite (get_set_bucket _ _ _ _ _ _ _ Hc Hs), Z.eqb_refl.
Qed.

(** ** Steps of rehashing *)

(** A rehash that goes on between the same two table sizes. *)
Record moving (d d' : dict) : Prop := {
  mv_same : same d d';
  mv_re : dictIsRehashing d' = true;
  mv_e0 : ht_size_exp (ht0 d') = ht_size_exp (ht0 d);
  mv_e1 : ht_size_exp (ht1 d') = ht_size_exp (ht1 d);
  mv_len : zlen (ht_table (ht0 d')) = zlen (ht_table (ht0 d))
}.

Lemma moving_trans d1 d2 d3 : moving d1 d2 → moving d2 d3 → moving d1 d3.
Proof. intros [] []. constructor; [by eapply same_trans|congruence..]. Qed.

Lemma all_empty (t : ht) :
  (∀ idx, 0 <= idx < zlen (ht_table t) → get_bucket t idx = Some []) → entries t = [].
Proof.
  intros He. assert (Hf : Forall (λ c, c = []) (ht_table t)).
  { apply Forall_lookup. intros i c Hi. specialize (He (Z.of_nat i)).
    pose proof (lookup_lt_Some _ _ _ Hi). unfold zlen in He. specialize (He ltac:(lia)).
    unfold get_bucket, byte_at in He. case_if; [|lia]. rewrite Nat2Z.id in He. congruence. }
  unfold entries. clear He. by induction Hf as [|c T -> _ IH].
Qed.

Lemma used_pending d :
  wf d → dictIsRehashing d = true → ht_used (ht0 d) ≠ 0 →
  rehashidx d < zlen (ht_table (ht0 d)).
Proof.
  intros Hd Hre Hu. pose proof (wf_rehash _ Hd) as Hr. rewrite Hre in Hr.
  destruct Hr as (Hri & _ & _ & Hempty).
  destruct (Z.lt_ge_cases (rehashidx d) (zlen (ht_table (ht0 d)))) as [|Hge]; [done|].
  exfalso. apply Hu. rewrite (wf_used _ (wf_0 _ Hd)). rewrite all_empty; [done|].
  intros idx Hidx. apply Hempty. lia.
Qed.

Lemma bump d :
  wf d → dictIsRehashing d = true → get_bucket (ht0 d) (rehashidx d) = Some [] →
  moving d (set_tables d (ht0 d) (ht1 d) (rehashidx d + 1)).
Proof.
  intros Hd Hre Hb. pose proof (wf_rehash _ Hd) as Hr. rewrite Hre in Hr.
  destruct Hr as (Hri & He0 & He1 & Hempty). pose proof (get_bucket_lt _ _ _ Hb).
  assert (Hre' : negb (rehashidx d + 1 =? -1) = true) by (rewrite negb_true_iff, Z.eqb_neq; lia).
  constructor; try done. constructor; try done. constructor; try apply Hd.
  unfold dictIsRehashing. simpl. rewrite Hre'. split_and!; [lia|lia|done|done|].
  intros idx Hidx. destruct (Z.eq_dec idx (rehashidx d)) as [->|]; [done|]. apply Hempty. lia.
Qed.

Lemma skip_empty_spec n d :
  wf d → dictIsRehashing d = true → ht_used (ht0 d) ≠ 0 → (0 < n)%nat →
  ∃ d' m stop, skip_empty n d = Some (d', m, stop) ∧ (d' = d ∨ moving d d') ∧
    ht0 d' = ht0 d ∧
    rehashidx d' = rehashidx d + Z.of_nat n - Z.of_nat m ∧ (m <= n)%nat ∧
    if (stop : bool) then m = O
    else (0 < m)%nat ∧ rehashidx d' < zlen (ht_table (ht0 d)).
Proof.
  revert d. induction n as [|n IH]; intros d Hd Hre Hu Hn; [lia|]. cbn [skip_empty].
  pose proof (used_pending d Hd Hre Hu) as Hlt.
  pose proof (wf_rehash _ Hd) as Hr. rewrite Hre in Hr. destruct Hr as (Hri & _).
  destruct (get_bucket_in (ht0 d) (rehashidx d)) as [c Hc]; [lia|]. rewrite Hc.
  cbn [mbind option_bind]. destruct c as [|e c].
  - pose proof (bump d Hd Hre Hc) as Hb. set (d1 := set_tables d _ _ _) in *.
    destruct n as [|n].
    + exists d1, O, true. split_and!; [done|by right|done|simpl; lia|lia|done].
    + destruct (IH d1) as (d' & m & stop & -> & Hm & H0 & Hidx & Hle & Hs);
        [apply Hb|apply Hb|done|lia|].
      exists d', m, stop. split_and!; [done| |done|simpl in *; lia|lia|].
      * right. destruct Hm as [->|Hm]; [done|]. by eapply moving_trans.
      * destruct stop; [done|]. exact Hs.
  - exists d, (S n), false. split_and!; [done|by left|done|lia|lia|lia|done].
Qed.

Lemma rehash_loop_spec n m d :
  wf d → dictIsRehashing d = true → n = O ∨ (0 < m)%nat →
  ∃ d' more, rehash_loop type n m d = Some (d', more) ∧ (d' = d ∨ moving d d') ∧
    rehashidx d <= rehashidx d' ∧
    if (more : bool) then rehashidx d + Z.of_nat m <= rehashidx d'
    else ht_used (ht0 d') = 0 ∨ rehashidx d + Z.of_nat n <= rehashidx d'.
Proof.
  revert m d. induction n as [|n IH]; intros m d Hd Hre Hm; cbn [rehash_loop].
  { exists d, false. split_and!; [done|by left|lia|right; lia]. }
  destruct (ht_used (ht0 d) =? 0) eqn:Hu; zb.
  { exists d, false. split_and!; [done|by left|lia|by left]. }
  pose proof (used_pending d Hd Hre Hu) as Hlt.
  pose proof (wf_rehash _ Hd) as Hr. rewrite Hre in Hr. destruct Hr as (Hri & He0 & _).
  assert (Hsz : DICTHT_SIZE (ht_size_exp (ht0 d)) = zlen (ht_table (ht0 d))).
  { rewrite ht_size_pow by done. destruct (wf_size _ (wf_0 _ Hd)) as [[? _]|[_ ->]]; [lia|done]. }
  rewrite Hsz, (proj2 (Z.ltb_lt _ _)) by done. cbn [negb].
  destruct (skip_empty_spec m d Hd Hre Hu) as (d1 & m1 & stop & -> & Hm1 & H0 & Hidx & Hle & Hs);
    [lia|]. cbn [mbind option_bind].
  assert (Hd1 : wf d1 ∧ dictIsRehashing d1 = true) by (destruct Hm1 as [->|Hm1]; [done|split; apply Hm1]).
  destruct Hd1 as [Hd1 Hre1]. destruct stop.
  { subst m1. exists d1, true. split_and!; [done|done|lia|lia]. }
  destruct Hs as [Hmp Hlt1].
  destruct (rehash_bucket_spec d1 (rehashidx d1) Hd1 Hre1) as (d2 & -> & Hsame & Hi2 & Hx0 & Hx1 & Hl2 & Hb2).
  { pose proof (wf_rehash _ Hd1) as Hr1. rewrite Hre1 in Hr1. rewrite H0 in *. lia. }
  cbn [mbind option_bind].
  assert (Hre2 : dictIsRehashing d2 = true) by (unfold dictIsRehashing in *; by rewrite Hi2).
  assert (Hmv2 : moving d1 d2) by by constructor.
  rewrite <- Hi2 in Hb2.
  pose proof (bump d2 (same_wf _ _ Hsame) Hre2 Hb2) as Hmv3.
  set (d3 := set_tables d2 _ _ _) in *.
  destruct (IH m1 d3) as (d' & more & -> & Hmv & Hge & Hpost); [apply Hmv3|apply Hmv3|by right|].
  assert (Hi3 : rehashidx d3 = rehashidx d2 + 1) by done.
  exists d', more. split_and!; [done| |lia|].
  - right. assert (Hd3 : moving d d3).
    { pose proof (moving_trans _ _ _ Hmv2 Hmv3). destruct Hm1 as [->|Hm1]; [done|].
      by eapply moving_trans. }
    destruct Hmv as [->|Hmv]; [done|]. by eapply moving_trans.
  - destruct more; [lia|]. destruct Hpost; [by left|right; lia].
Qed.

(** Completion: table 1 takes the place of table 0. *)
Lemma check_completed_spec d :
  wf d → dictIsRehashing d = true →
  let '(d', b) := dictCheckRehashingCompleted d in
  same d d' ∧ b = negb (dictIsRehashing d') ∧ b = (ht_used (ht0 d) =? 0) ∧
  (if (b : bool) then 0 <= ht_size_exp (ht0 d') else d' = d).
Proof.
  intros Hd Hre. pose proof (wf_rehash _ Hd) as Hr. rewrite Hre in Hr.
  destruct Hr as (_ & _ & He1 & _). unfold dictCheckRehashingCompleted.
  destruct (ht_used (ht0 d) =? 0) eqn:Hu; cbn [negb].
  - zb. split_and!; try done. constructor; try done.
    + rewrite (wf_used _ (wf_0 _ Hd)) in Hu. apply zlen_0_nil in Hu.
      constructor; simpl.
      * apply Hd.
      * constructor; simpl; [by left|done|..]; intros idx c Hc;
          apply get_bucket_lt in Hc; unfold zlen in Hc; simpl in Hc; lia.
      * pose proof (wf_nodup _ Hd) as Hn. unfold contents in *. simpl. rewrite Hu in Hn.
        by rewrite app_nil_r.
      * done.
    + rewrite (wf_used _ (wf_0 _ Hd)) in Hu. apply zlen_0_nil in Hu.
      unfold contents. simpl. by rewrite Hu, app_nil_r.
  - split_and!; [by apply same_refl|by rewrite Hre|done|done].
Qed.

(** The effect of any rehashing work on the state: the contents are kept, and
    either the rehash goes on between the same tables or there is none. *)
Definition worked (d d' : dict) : Prop :=
  same d d' ∧ (dictIsRehashing d' = true → dictIsRehashing d = true ∧
                 ht_size_exp (ht0 d') = ht_size_exp (ht0 d)) ∧
  (0 <= ht_size_exp (ht0 d) → 0 <= ht_size_exp (ht0 d')).

Lemma worked_refl d : wf d → worked d d.
Proof. intros Hd. split; [by apply same_refl|done]. Qed.

Lemma moving_worked d d' : wf d → dictIsRehashing d = true → d' = d ∨ moving d d' → worked d d'.
Proof.
  intros Hd Hre [->|[]]; [by apply worked_refl|]. split; [done|]. split; [done|lia].
Qed.

Lemma dictRehash_spec d n :
  wf d → ∃ d' more, dictRehash type rs d n = Some (d', more) ∧ worked d d' ∧
    (more = true → dictIsRehashing d' = true) ∧
    (rehash_forbidden rs d = true → d' = d ∧ more = false) ∧
    (rehash_forbidden rs d = false →
       more = dictIsRehashing d' ∧ (more = true → moving d d' ∨ d' = d) ∧
       (more = true → rehashidx d + Z.of_nat n <= rehashidx d')).
Proof.
  intros Hd. unfold dictRehash. destruct (rehash_forbidden rs d) eqn:Hf.
  { exists d, false. split_and!; [done|by apply worked_refl|done|done|done]. }
  assert (Hre : dictIsRehashing d = true).
  { unfold rehash_forbidden in Hf. apply orb_false_iff in Hf as [Hf _].
    apply orb_false_iff in Hf as [_ Hf]. by apply negb_false_iff in Hf. }
  destruct (rehash_loop_spec n (n * 10) d Hd Hre) as (d1 & more & -> & Hmv & Hge & Hp); [lia|].
  cbn [mbind option_bind]. pose proof (moving_worked d d1 Hd Hre Hmv) as Hw.
  assert (Hd1 : wf d1 ∧ dictIsRehashing d1 = true) by (destruct Hmv as [->|Hmv]; [done|split; apply Hmv]).
  destruct Hd1 as [Hd1 Hre1]. destruct more.
  { exists d1, true. split_and!; try done. intros _. split_and!; [done| |lia].
    intros _. destruct Hmv; [by right|by left]. }
  pose proof (check_completed_spec d1 Hd1 Hre1) as Hc.
  destruct (dictCheckRehashingCompleted d1) as [d2 b]. destruct Hc as (Hs2 & -> & Hb & Hpost).
  exists d2, (negb (negb (dictIsRehashing d2))). rewrite negb_involutive in *.
  destruct Hw as (Hs1 & Hr1 & Hx1).
  split_and!; try done.
  - split_and!; [by eapply same_trans| |].
    + intros Hre2. rewrite Hre2 in Hpost. simpl in Hpost. subst d2. by apply Hr1.
    + intros He. destruct (dictIsRehashing d2); simpl in Hpost; [subst d2; auto|done].
  - intros _. split_and!; [done| |].
    + intros Hre2. rewrite Hre2 in Hpost. simpl in Hpost. subst d2. destruct Hmv; [by right|by left].
    + intros Hre2. rewrite Hre2 in Hpost, Hb. simpl in Hpost, Hb. subst d2.
      symmetry in Hb. zb. destruct Hp; [done|lia].
Qed.

Lemma step_if_needed_spec d idx :
  wf d → (dictIsRehashing d = true → 0 <= idx < zlen (ht_table (ht0 d))) →
  ∃ d', _dictRehashStepIfNeeded type rs d idx = Some d' ∧ worked d d'.
Proof.
  intros Hd Hidx. unfold _dictRehashStepIfNeeded.
  destruct (dictIsRehashing d) eqn:Hre; [|exists d; split; [done|by apply worked_refl]].
  destruct (pauserehash d =? 0) eqn:Hp; [|exists d; split; [done|by apply worked_refl]].
  cbn [negb orb].
  assert (Hone : ∃ d', ('(d, _) ← dictRehash type rs d 1; Some d) = Some d' ∧ worked d d').
  { destruct (dictRehash_spec d 1 Hd) as (d' & more & -> & Hw & _). by exists d'. }
  destruct (rehashidx d <=? idx) eqn:Hi; [|exact Hone].
  destruct (get_bucket_in (ht0 d) idx (Hidx eq_refl)) as [c Hc]. rewrite Hc.
  cbn [mbind option_bind]. destruct c as [|e c]; [exact Hone|].
  unfold _dictBucketRehash. rewrite Hp. cbn [negb].
  destruct (rehash_forbidden rs d); [exists d; split; [done|by apply worked_refl]|].
  destruct (rehash_bucket_spec d idx Hd Hre (Hidx eq_refl)) as (d1 & -> & Hs1 & Hi1 & Hx0 & Hx1 & Hl & _).
  cbn [mbind option_bind].
  assert (Hre1 : dictIsRehashing d1 = true) by (unfold dictIsRehashing in *; by rewrite Hi1).
  pose proof (check_completed_spec d1 (same_wf _ _ Hs1) Hre1) as Hc1.
  destruct (dictCheckRehashingCompleted d1) as [d2 b]. destruct Hc1 as (Hs2 & -> & Hb & Hpost).
  exists d2. split; [done|]. split_and!; [by eapply same_trans| |].
  - intros Hre2. rewrite Hre2 in Hpost. simpl in Hpost. by subst d2.
  - intros He. destruct (dictIsRehashing d2); simpl in Hpost; [subst d2; lia|done].
Qed.

(** ** Resizing *)

Lemma forbidden_moving d d' :
  dictIsRehashing d = true → moving d d' → rehash_forbidden rs d' = rehash_forbidden rs d.
Proof. intros Hre []. unfold rehash_forbidden. rewrite mv_re0, mv_e2, mv_e3, Hre. done. Qed.

Lemma full_rehash_spec fuel d :
  wf d → dictIsRehashing d = true →
  zlen (ht_table (ht0 d)) - rehashidx d < Z.of_nat fuel →
  ∃ d', full_rehash type rs fuel d = Some d' ∧ worked d d' ∧
    (rehash_forbidden rs d = true ∧ d' = d ∨ dictIsRehashing d' = false).
Proof.
  revert d. induction fuel as [|fuel IH]; intros d Hd Hre Hf.
  { pose proof (wf_rehash _ Hd) as Hr. rewrite Hre in Hr. lia. }
  cbn [full_rehash].
  destruct (dictRehash_spec d 1000 Hd) as (d1 & more & -> & Hw & Hmr & Hfo & Hnf).
  cbn [mbind option_bind]. destruct (rehash_forbidden rs d) eqn:Hfb.
  { destruct Hfo as [-> ->]; [done|]. exists d. split_and!; [done|done|by left]. }
  destruct Hnf as (Hm & Hmv & Hprog); [done|]. destruct more.
  - destruct (Hmv eq_refl) as [Hmv1|Hmv1].
    + assert (Hd1 : wf d1) by apply Hmv1.
      destruct (IH d1) as (d' & -> & Hw' & Hend); [done|by apply Hmv1| |].
      { rewrite (mv_len _ _ Hmv1). specialize (Hprog eq_refl). lia. }
      exists d'. split; [done|]. split.
      * destruct Hw as (Hs1 & Hr1 & Hx1), Hw' as (Hs2 & Hr2 & Hx2).
        split; [by eapply same_trans|]. split; [|auto].
        intros Hre'. destruct (Hr2 Hre') as [_ ->]. split; [done|]. apply Hmv1.
      * destruct Hend as [[Hfb1 _]|]; [|by right].
        rewrite (forbidden_moving d d1 Hre Hmv1) in Hfb1. congruence.
    + subst d1. specialize (Hprog eq_refl). lia.
  - exists d1. split_and!; [done|done|by right].
Qed.

Lemma wf_new_table e : 0 <= e <= 63 →
  wf_ht {| ht_table := replicate (Z.to_nat (2 ^ e)) []; ht_used := 0; ht_size_exp := e |}.
Proof.
  intros He. assert (0 < 2 ^ e) by (apply Z.pow_pos_nonneg; lia).
  assert (Hb : ∀ idx c, get_bucket {| ht_table := replicate (Z.to_nat (2 ^ e)) [];
    ht_used := 0; ht_size_exp := e |} idx = Some c → c = (@nil dictEntry)).
  { intros idx c. unfold get_bucket, byte_at. simpl. case_if; [|done].
    intros [? _]%lookup_replicate. done. }
  constructor; simpl.
  - right. split; [done|]. rewrite zlen_replicate. lia.
  - rewrite all_empty; [done|]. simpl. intros idx Hidx.
    unfold get_bucket, byte_at. simpl. case_if; [|lia]. rewrite zlen_replicate in Hidx.
    apply lookup_replicate. split; [done|lia].
  - intros idx c ->%Hb. constructor.
  - intros idx c ->%Hb. done.
Qed.

Lemma entries_new n : entries {| ht_table := replicate n []; ht_used := 0; ht_size_exp := 0 |} = [].
Proof. unfold entries. simpl. by induction n. Qed.

(** Resizing keeps the contents; afterwards either nothing has been moved yet
    or there is no rehash. *)
Definition resized (d d' : dict) : Prop :=
  same d d' ∧ rehashidx d' <= 0 ∧ (0 <= ht_size_exp (ht0 d) → 0 <= ht_size_exp (ht0 d')).

Lemma resized_refl d : wf d → dictIsRehashing d = false → resized d d.
Proof.
  intros Hd Hre. split; [by apply same_refl|]. split; [|done].
  unfold dictIsRehashing in Hre. apply negb_false_iff, Z.eqb_eq in Hre. lia.
Qed.

Lemma resize_spec d size ok :
  wf d → dictIsRehashing d = false → 0 <= size →
  ∃ d' r f, _dictResize type rs d size ok = Some (d', r, f) ∧ resized d d' ∧
    (r = DICT_OK → 0 <= ht_size_exp (ht0 d')).
Proof.
  intros Hd Hre Hsz. pose proof (resized_refl d Hd Hre) as Hrefl.
  unfold _dictResize. rewrite Hre. pose proof (next_exp_range size Hsz) as He.
  set (e := _dictNextExp size) in *. rewrite ht_size_pow by lia.
  destruct (_ || _); [by exists d, DICT_ERR, false|].
  destruct (_ =? _) eqn:Hne; [by exists d, DICT_ERR, false|]. zb.
  destruct (bool_decide (ok = Some false)); [by exists d, DICT_ERR, true|].
  pose proof (wf_new_table e ltac:(lia)) as Hnew. set (t := {| ht_table := _; ht_used := 0; ht_size_exp := e |}) in *.
  assert (Het : entries t = []) by apply (entries_new (Z.to_nat (2 ^ e))).
  pose proof (wf_rehash _ Hd) as Hr1. rewrite Hre in Hr1.
  assert (Hre1 : entries (ht1 d) = []) by by rewrite Hr1.
  change (ht_table (ht0 (set_tables d (ht0 d) t 0))) with (ht_table (ht0 d)).
  change (ht_used (ht0 (set_tables d (ht0 d) t 0))) with (ht_used (ht0 d)).
  destruct (bool_decide (ht_table (ht0 d) = []) || (ht_used (ht0 d) =? 0)) eqn:Hemp.
  - exists (set_tables (set_tables d (ht0 d) t 0) t _dictReset (-1)), DICT_OK, false.
    assert (He0 : entries (ht0 d) = []).
    { apply orb_true_iff in Hemp as [Hb|Hb].
      - apply bool_decide_eq_true in Hb. unfold entries. by rewrite Hb.
      - apply Z.eqb_eq in Hb. rewrite (wf_used _ (wf_0 _ Hd)) in Hb. by apply zlen_0_nil. }
    split_and!; [done| |simpl; lia]. split; [|split; [simpl; lia|simpl; lia]].
    constructor; try done.
    + constructor; simpl; try done.
      * rewrite <- Hr1. apply Hd.
      * unfold contents. simpl. rewrite Het. constructor.
    + unfold contents. simpl. by rewrite Het, He0, Hre1.
  - apply orb_false_iff in Hemp as [Hb Hu]. apply bool_decide_eq_false in Hb.
    assert (He0 : 0 <= ht_size_exp (ht0 d)).
    { destruct (wf_size _ (wf_0 _ Hd)) as [[_ ?]|[? _]]; [done|lia]. }
    set (d1 := set_tables d (ht0 d) t 0).
    assert (Hs1 : same d d1).
    { constructor; try done.
      - constructor; simpl; try done; [apply Hd| |].
        + pose proof (wf_nodup _ Hd) as Hn. unfold contents in *. simpl. by rewrite Het, Hre1 in *.
        + split_and!; [lia|apply zlen_nonneg|done|lia|intros; lia].
      - unfold contents. simpl. by rewrite Het, Hre1. }
    destruct (force_full_rehash type).
    + destruct (full_rehash_spec (S (length (ht_table (ht0 d)))) d1) as (d' & -> & (Hs2 & Hr2 & Hx2) & Hend);
        [apply Hs1|done|simpl; unfold zlen; lia|].
      exists d', DICT_OK, false. split_and!; [done| |intros _; by apply Hx2].
      split; [by eapply same_trans|]. split; [|auto].
      destruct Hend as [[_ ->]|Hend]; [simpl; lia|].
      unfold dictIsRehashing in Hend. apply negb_false_iff, Z.eqb_eq in Hend. lia.
    + exists d1, DICT_OK, false. split_and!; [done| |simpl; lia].
      split; [done|]. split; [simpl; lia|done].
Qed.

Lemma expand_spec d size :
  wf d → 0 <= size → dictIsRehashing d = false →
  ∃ d' r, dictExpand type rs d size = Some (d', r) ∧ resized d d' ∧
    (r = DICT_OK → 0 <= ht_size_exp (ht0 d')).
Proof.
  intros Hd Hs Hre. unfold dictExpand, _dictExpand. rewrite Hre. cbn [orb].
  destruct (_ || _).
  - exists d, DICT_ERR. split_and!; [done|by apply resized_refl|done].
  - destruct (resize_spec d size None Hd Hre Hs) as (d' & r & f & -> & ? & ?). by exists d', r.
Qed.

Lemma shrink_spec d size :
  wf d → 0 <= size → dictIsRehashing d = false →
  ∃ d' r, dictShrink type rs d size = Some (d', r) ∧ resized d d'.
Proof.
  intros Hd Hs Hre. unfold dictShrink. rewrite Hre. cbn [orb].
  destruct (_ || _).
  - exists d, DICT_ERR. split_and!; [done|by apply resized_refl].
  - destruct (resize_spec d size None Hd Hre Hs) as (d' & r & f & -> & ? & ?). by exists d', r.
Qed.

(** The automatic resizing after a rehashing step. *)
Definition maintained (d d' : dict) : Prop :=
  same d d' ∧ (rehashidx d' <= 0 ∨ d' = d) ∧
  (0 <= ht_size_exp (ht0 d) → 0 <= ht_size_exp (ht0 d')).

Lemma resized_maintained d d' : resized d d' → maintained d d'.
Proof. intros (? & ? & ?). split; [done|]. split; [by left|done]. Qed.

Lemma maintained_refl d : wf d → maintained d d.
Proof. intros Hd. split; [by apply same_refl|]. split; [by right|done]. Qed.

Lemma used_nonneg d : wf d → 0 <= ht_used (ht0 d).
Proof. intros Hd. rewrite (wf_used _ (wf_0 _ Hd)). apply zlen_nonneg. Qed.

Lemma expand_if_needed_spec d :
  wf d → ∃ d', _dictExpandIfNeeded type rs d = Some d' ∧ maintained d d' ∧
    (pauseAutoResize d <= 0 → 0 <= ht_size_exp (ht0 d')).
Proof.
  intros Hd. unfold _dictExpandIfNeeded, dictExpandIfNeeded. pose proof (used_nonneg d Hd).
  destruct (0 <? pauseAutoResize d) eqn:Hp; zb.
  { exists d. split_and!; [done|by apply maintained_refl|lia]. }
  destruct (dictIsRehashing d) eqn:Hre.
  { exists d. split_and!; [done|by apply maintained_refl|]. intros _.
    pose proof (wf_rehash _ Hd) as Hr. rewrite Hre in Hr. apply Hr. }
  destruct (DICTHT_SIZE (ht_size_exp (ht0 d)) =? 0) eqn:Hz; zb.
  - destruct (expand_spec d DICT_HT_INITIAL_SIZE Hd ltac:(vm_compute; discriminate) Hre)
      as (d' & r & Hx & Hrs & Hok). rewrite Hx. cbn [mbind option_bind].
    exists d'. split_and!; [done|by apply resized_maintained|]. intros _.
    destruct (wf_size _ (wf_0 _ Hd)) as [[Hm Ht0]|[He _]].
    + apply Hok. revert Hx. unfold dictExpand, _dictExpand, _dictResize. rewrite Hre, Hm.
      change (DICTHT_SIZE (-1)) with 0. change (DICT_HT_INITIAL_SIZE <=? 0) with false.
      change (_dictNextExp DICT_HT_INITIAL_SIZE) with 2.
      assert (ht_used (ht0 d) = 0) as ->.
      { rewrite (wf_used _ (wf_0 _ Hd)). unfold entries. by rewrite Ht0. }
      change (DICT_HT_INITIAL_SIZE <? 0) with false. cbn [orb].
      change (DICTHT_SIZE 2) with 4. change ((4 <? DICT_HT_INITIAL_SIZE) || (uwrap 64 (4 * 8) <? 4)) with false.
      cbn [Z.eqb]. rewrite bool_decide_false by done.
      change (ht_used (ht0 (set_tables d (ht0 d) _ 0))) with (ht_used (ht0 d)).
      change (ht_table (ht0 (set_tables d (ht0 d) _ 0))) with (ht_table (ht0 d)).
      rewrite Ht0. rewrite bool_decide_true by done. cbn [orb mbind option_bind]. by intros [= _ <-].
    + rewrite ht_size_pow in Hz by lia. pose proof (Z.pow_pos_nonneg 2 (ht_size_exp (ht0 d))). lia.
  - assert (He0 : 0 <= ht_size_exp (ht0 d)).
    { destruct (wf_size _ (wf_0 _ Hd)) as [[Hm _]|[? _]]; [|lia]. by rewrite Hm in Hz. }
    destruct (_ || _); [|exists d; split_and!; [done|by apply maintained_refl|done]].
    destruct (dictTypeResizeAllowed type d (uwrap 64 (ht_used (ht0 d) + 1)));
      [|exists d; split_and!; [done|by apply maintained_refl|done]].
    destruct (expand_spec d (uwrap 64 (ht_used (ht0 d) + 1)) Hd (uwrap_nonneg _) Hre) as (d' & r & -> & Hrs & _).
    exists d'. split_and!; [done|by apply resized_maintained|]. intros _. by apply Hrs.
Qed.

Lemma shrink_if_needed_spec d :
  wf d → ∃ d', _dictShrinkIfNeeded type rs d = Some d' ∧ same d d'.
Proof.
  intros Hd. unfold _dictShrinkIfNeeded, dictShrinkIfNeeded. pose proof (used_nonneg d Hd).
  assert (Hrefl : same d d) by by apply same_refl.
  destruct (0 <? pauseAutoResize d); [by exists d|].
  destruct (dictIsRehashing d) eqn:Hre; [by exists d|].
  destruct (DICTHT_SIZE _ <=? DICT_HT_INITIAL_SIZE); [by exists d|].
  destruct (_ || _); [|by exists d].
  destruct (dictTypeResizeAllowed type d (ht_used (ht0 d))); [|by exists d].
  destruct (shrink_spec d (ht_used (ht0 d)) Hd ltac:(lia) Hre) as (d' & r & -> & [Hs _]).
  by exists d'.
Qed.

(** ** Searching *)

Lemma chain_find_spec (m : K → bool) c :
  match chain_find m c with
  | Some i => ∃ e, c !! i = Some e ∧ m (de_key e) = true
  | None => Forall (λ e : dictEntry, m (de_key e) = false) c
  end.
Proof.
  induction c as [|e c IH]; simpl; [constructor|]. unfold dictGetKey.
  destruct (m (de_key e)) eqn:Hm; [by exists e|].
  destruct (chain_find m c) as [i|]; simpl; [exact IH|]. by constructor.
Qed.

(** An entry lives in its home bucket. *)
Lemma entry_in_bucket t e :
  wf_ht t → e ∈ entries t → ∃ c, get_bucket t (home t e) = Some c ∧ e ∈ c.
Proof.
  intros Ht He. unfold entries in He. apply list_elem_of_join in He as (c & Hec & Hc).
  apply list_elem_of_lookup_1 in Hc as [i Hi].
  assert (Hb : get_bucket t (Z.of_nat i) = Some c).
  { unfold get_bucket, byte_at. case_if; [|lia]. by rewrite Nat2Z.id. }
  pose proof (wf_home _ Ht _ _ Hb) as Hh. rewrite list.Forall_forall in Hh.
  rewrite (Hh e Hec). by exists c.
Qed.

Lemma bucket_entry (t : ht) idx c e : get_bucket t idx = Some c → e ∈ c → e ∈ entries t.
Proof.
  intros Hb He. destruct (entries_bucket t idx c Hb) as (rest & -> & _).
  apply elem_of_app. by left.
Qed.

Definition keys (d : dict) : list C := (contents d).*1.

Lemma keys_elem d c :
  c ∈ keys d ↔ ∃ e, (e ∈ entries (ht0 d) ∨ e ∈ entries (ht1 d)) ∧ ck e = c.
Proof.
  unfold keys, contents. rewrite <- list_fmap_compose. rewrite list_elem_of_fmap. split.
  - intros (e & -> & He). exists e. split; [by apply elem_of_app|done].
  - intros (e & He & <-). exists e. split; [done|by apply elem_of_app].
Qed.

Definition hash_idx (c : C) (t : ht) : Z := Z.land (hash_of c) (DICTHT_SIZE_MASK (ht_size_exp t)).

Lemma hash_bucket c t :
  wf_ht t → 0 <= ht_size_exp t → ∃ b, get_bucket t (hash_idx c t) = Some b.
Proof.
  intros Ht He. apply get_bucket_in. unfold hash_idx. pose proof (bucket_range (hash_of c) _ He).
  destruct (wf_size _ Ht) as [[? _]|[_ ->]]; lia.
Qed.

(** Nothing with contents [c] in the bucket means nothing in the table. *)
Lemma bucket_absent c t b :
  wf_ht t → get_bucket t (hash_idx c t) = Some b → Forall (λ e, ck e ≠ c) b →
  ∀ e, e ∈ entries t → ck e ≠ c.
Proof.
  intros Ht Hb Hf e He <-. destruct (entry_in_bucket t e Ht He) as (b' & Hb' & Hin).
  unfold hash_idx, home in *. rewrite Hb in Hb'. injection Hb' as <-.
  rewrite list.Forall_forall in Hf. by apply (Hf e Hin).
Qed.

Lemma search_table_spec d c (m : K → bool) :
  wf d → (∀ k, m k = bool_decide (content k = c)) →
  ∀ table, 0 <= ht_size_exp (ht_at d table) →
  ∃ r i, search_table d (hash_of c) m table = Some (r, i) ∧
    i = hash_idx c (ht_at d table) ∧
    match r with
    | Some p => ∃ e, deref d p = Some e ∧ ck e = c
    | None => ∀ e, e ∈ entries (ht_at d table) → ck e ≠ c
    end.
Proof.
  intros Hd Hm table He. assert (Ht : wf_ht (ht_at d table)) by (destruct table; apply Hd).
  unfold search_table. cbv zeta.
  change (Z.land (hash_of c) (DICTHT_SIZE_MASK (ht_size_exp (ht_at d table))))
    with (hash_idx c (ht_at d table)).
  destruct (hash_bucket c _ Ht He) as [b Hb]. rewrite Hb. cbn [mbind option_bind].
  eexists _, _. split; [reflexivity|]. split; [done|].
  pose proof (chain_find_spec m b) as Hf. destruct (chain_find m b) as [i|]; simpl.
  - destruct Hf as (e & Hl & Hme). exists e. rewrite Hb. split; [done|].
    rewrite Hm in Hme. by apply bool_decide_eq_true in Hme.
  - eapply bucket_absent; [done|exact Hb|]. rewrite list.Forall_forall in Hf |- *.
    intros e Hin. specialize (Hf e Hin). rewrite Hm in Hf. by apply bool_decide_eq_false in Hf.
Qed.

Lemma tables_search_spec d c idx (m : K → bool) :
  wf d → 0 <= ht_size_exp (ht0 d) → 0 <= idx →
  rehashidx d <= 0 ∨ idx = hash_idx c (ht0 d) →
  (∀ k, m k = bool_decide (content k = c)) →
  ∃ r i, search_tables d (hash_of c) idx m = Some (r, i) ∧
    match r with
    | Some p => ∃ e, deref d p = Some e ∧ ck e = c
    | None => (c ∉ keys d) ∧ i = hash_idx c (ht_at d (dictIsRehashing d))
    end.
Proof.
  intros Hd He0 Hi0 Hidx Hm.
  pose proof (search_table_spec d c m Hd Hm) as Htab.
  unfold search_tables.
  pose proof (wf_rehash _ Hd) as Hr.
  destruct (idx <? rehashidx d) eqn:Hlt; zb.
  - destruct Hidx as [?|Hidx]; [lia|].
    assert (Hre : dictIsRehashing d = true).
    { unfold dictIsRehashing. apply negb_true_iff, Z.eqb_neq. lia. }
    rewrite Hre in Hr. destruct Hr as (_ & _ & He1 & Hempty).
    destruct (Htab true He1) as (r & i & -> & -> & Hpost). eexists _, _. split; [reflexivity|].
    destruct r; [done|]. split; [|by rewrite Hre]. rewrite keys_elem.
    intros (e & [He|He] & Hc); [|by apply (Hpost e He)].
    destruct (entry_in_bucket _ e (wf_0 _ Hd) He) as (b & Hb & Hin).
    unfold home in Hb. rewrite Hc in Hb. fold (hash_idx c (ht0 d)) in Hb. rewrite <- Hidx in Hb.
    rewrite Hempty in Hb by lia. injection Hb as <-. by apply elem_of_nil in Hin.
  - destruct (Htab false He0) as (r & i & -> & -> & Hpost). cbn [mbind option_bind].
    destruct r as [p|]; [by eexists _, _|]. destruct (dictIsRehashing d) eqn:Hre; cbn [negb].
    + destruct Hr as (_ & _ & He1 & _). destruct (Htab true He1) as (r & i & -> & -> & Hpost1).
      eexists _, _. split; [reflexivity|]. destruct r; [done|]. split; [|done].
      rewrite keys_elem. intros (e & [He|He] & Hc); [by apply (Hpost e He)|by apply (Hpost1 e He)].
    + eexists _, _. split; [reflexivity|]. split; [|done]. rewrite keys_elem, Hr.
      intros (e & [He|He] & Hc); [by apply (Hpost e He)|]. by apply elem_of_nil in He.
Qed.

(** An entry pointer splits the contents at its entry. *)
Lemma deref_elem d p e : deref d p = Some e → kv e ∈ contents d.
Proof.
  destruct p as [[table idx] i]. simpl. destruct (get_bucket _ idx) as [c|] eqn:Hb; [|done].
  simpl. intros Hi%list_elem_of_lookup_2. unfold contents. apply list_elem_of_fmap_2.
  apply elem_of_app. destruct table; [right|left]; by eapply bucket_entry.
Qed.

Lemma key_match_spec d k : ∀ k', key_match type d k k' = bool_decide (content k' = content k).
Proof.
  intros k'. unfold key_match. rewrite Hcmp. repeat case_bool_decide; naive_solver congruence.
Qed.

Lemma find_match_spec d k : ∀ k', find_match type d k k' = bool_decide (content k' = content k).
Proof.
  intros k'. pose proof (key_match_spec d k k') as Hm. unfold find_match, key_match in *.
  destruct (keyLen type) as [len|] eqn:E1; [|done].
  destruct (keyCompareWithLen type) as [cmp|] eqn:E2; [|done].
  rewrite (Hcmplen len cmp eq_refl eq_refl). repeat case_bool_decide; naive_solver congruence.
Qed.

(** ** Changing one chain *)

Lemma contents_bucket d table idx c :
  get_bucket (ht_at d table) idx = Some c →
  ∃ rest, contents d ≡ₚ (kv <$> c) ++ rest ∧
    ∀ c' u t', set_bucket (ht_at d table) idx c' u = Some t' →
      contents (set_ht d table t') ≡ₚ (kv <$> c') ++ rest.
Proof.
  intros Hb. destruct (entries_bucket _ _ _ Hb) as (rest & P1 & P2).
  exists ((kv <$> rest) ++ (kv <$> entries (ht_at d (negb table)))). split.
  - unfold contents. destruct table; simpl in *; rewrite fmap_app, P1, fmap_app; solve_Permutation.
  - intros c' u t' Hs. specialize (P2 _ _ _ Hs). unfold contents.
    destruct table; simpl in *; rewrite fmap_app, P2, fmap_app; solve_Permutation.
Qed.

Lemma update_wf d table idx c c' t' :
  wf d → get_bucket (ht_at d table) idx = Some c →
  set_bucket (ht_at d table) idx c' (ht_used (ht_at d table) + zlen c' - zlen c) = Some t' →
  Forall (λ e, home (ht_at d table) e = idx) c' → chain_ok c' →
  NoDup (contents (set_ht d table t')).*1 →
  dictIsRehashing d = table ∨ c ≠ [] →
  wf (set_ht d table t').
Proof.
  intros Hd Hb Hs Hh Hc Hn Hor.
  assert (Ht : wf_ht (ht_at d table)) by (destruct table; apply Hd).
  assert (Ht' : wf_ht t') by by eapply wf_set_bucket.
  pose proof (set_bucket_exp _ _ _ _ _ Hs) as Hexp. pose proof (set_bucket_len _ _ _ _ _ Hs) as Hlen.
  pose proof (wf_rehash _ Hd) as Hr. destruct table; simpl in *.
  - constructor; try done; [apply Hd|]. unfold dictIsRehashing in *. simpl.
    destruct (negb (rehashidx d =? -1)); [by rewrite Hexp|].
    rewrite Hr in Hb. apply get_bucket_lt in Hb. unfold zlen in Hb. simpl in Hb. lia.
  - constructor; try done; [apply Hd|]. unfold dictIsRehashing in *. simpl.
    destruct (negb (rehashidx d =? -1)) eqn:Hre; [|done].
    destruct Hr as (Hri & He0 & He1 & Hempty). rewrite Hexp, Hlen. split_and!; try done; try lia.
    intros j Hj. rewrite (get_set_bucket _ _ _ _ _ _ _ Hb Hs). case_if; [|by apply Hempty].
    subst j. rewrite Hempty in Hb by done. injection Hb as <-. destruct Hor as [?|?]; done.
Qed.

(** The fields an update of the tables leaves alone. *)
Lemma set_ht_fields (d : dict) table (t : ht) :
  rehashidx (set_ht d table t) = rehashidx d ∧ pauserehash (set_ht d table t) = pauserehash d ∧
  useStoredKeyApi (set_ht d table t) = useStoredKeyApi d ∧
  pauseAutoResize (set_ht d table t) = pauseAutoResize d.
Proof. by destruct table. Qed.

Lemma ht_at_set (d : dict) table (t : ht) : ht_at (set_ht d table t) table = t.
Proof. by destruct table. Qed.

Lemma insert_spec d k :
  wf d → (content k ∉ keys d) → 0 <= ht_size_exp (ht_at d (dictIsRehashing d)) →
  let pos := (dictIsRehashing d, hash_idx (content k) (ht_at d (dictIsRehashing d))) in
  ∃ d' p e, dictInsertAtPosition type d k pos = Some (d', p) ∧ wf d' ∧
    contents d' ≡ₚ (content k, None) :: contents d ∧ deref d' p = Some e ∧
    ck e = content k ∧ entryHasValue e = negb (no_value type) ∧ kept d d'.
Proof.
  intros Hd Hk He pos. unfold pos, dictInsertAtPosition.
  set (table := dictIsRehashing d) in *. set (idx := hash_idx _ _) in *.
  assert (Ht : wf_ht (ht_at d table)) by (destruct table; apply Hd).
  pose proof (bucket_range (hash_of (content k)) _ He) as Hrange.
  assert (Hmask : DICTHT_SIZE_MASK (ht_size_exp (ht_at d table)) = 2 ^ ht_size_exp (ht_at d table) - 1).
  { unfold DICTHT_SIZE_MASK. case_if; [lia|]. by rewrite ht_size_pow. }
  fold (hash_idx (content k) (ht_at d table)) in Hrange. fold idx in Hrange.
  rewrite eqb_reflx, (proj2 (Z.leb_le 0 idx)), (proj2 (Z.leb_le idx _)) by lia. cbn [andb negb].
  destruct (hash_bucket (content k) _ Ht He) as [b Hb]. fold idx in Hb. rewrite Hb.
  cbn [mbind option_bind].
  match goal with |- context [?e0 :: b] => set (e := e0) end.
  assert (Hck : ck e = content k) by (unfold e, ck; destruct (no_value type), b; done).
  assert (Hkv : kv e = (content k, None)) by (unfold e, kv, ck; destruct (no_value type), b; done).
  pose proof (set_bucket_in _ _ _ (e :: b) (ht_used (ht_at d table) + 1) Hb) as Hs. rewrite Hs.
  cbn [mbind option_bind]. match type of Hs with _ = Some ?t => set (t' := t) in * end.
  destruct (contents_bucket d table idx b Hb) as (rest & P1 & P2). specialize (P2 _ _ _ Hs).
  assert (Hp : contents (set_ht d table t') ≡ₚ (content k, None) :: contents d).
  { rewrite P2, P1. simpl. by rewrite Hkv. }
  eexists _, _, e. split; [reflexivity|].
  assert (Hkept : kept d (set_ht d table t')) by (by destruct (set_ht_fields d table t')).
  split_and!; [|done| |done| |done].
  - eapply (update_wf d table idx b (e :: b)); [done|done| | | | |by left].
    + rewrite <- Hs. f_equal. rewrite zlen_cons. lia.
    + constructor; [|by apply (wf_home _ Ht)]. unfold home. by rewrite Hck.
    + split; [|by apply (wf_chain _ Ht _ _ Hb)]. unfold e. destruct (no_value type), b; done.
    + rewrite Hp. simpl. constructor; [done|]. apply Hd.
  - unfold deref. rewrite ht_at_set, (get_set_bucket _ _ _ _ _ _ _ Hb Hs), Z.eqb_refl. done.
  - unfold e. destruct (no_value type), b; done.
Qed.

Lemma chain_ok_delete c i : chain_ok c → chain_ok (delete i c).
Proof.
  revert i. induction c as [|e c IH]; intros i; [done|].
  intros [He Hc]. destruct i as [|i]; [done|]. simpl. split; [|by apply IH].
  destruct (no_value type); [|done]. destruct He as (? & ? & Hk). split_and!; [done|done|].
  intros Hx. by rewrite (Hk Hx).
Qed.

Lemma unlink_spec d p e :
  wf d → deref d p = Some e →
  ∃ d', unlink d p = Some (d', e) ∧ wf d' ∧ contents d ≡ₚ kv e :: contents d' ∧
    kept d d'.
Proof.
  intros Hd. destruct p as [[table idx] i]. simpl.
  destruct (get_bucket (ht_at d table) idx) as [c|] eqn:Hb; [|done]. cbn [mbind option_bind].
  intros Hi. rewrite Hi. cbn [mbind option_bind].
  assert (Ht : wf_ht (ht_at d table)) by (destruct table; apply Hd).
  pose proof (set_bucket_in _ _ _ (delete i c) (ht_used (ht_at d table) - 1) Hb) as Hs. rewrite Hs.
  cbn [mbind option_bind]. match type of Hs with _ = Some ?t => set (t' := t) in * end.
  destruct (contents_bucket d table idx c Hb) as (rest & P1 & P2). specialize (P2 _ _ _ Hs).
  pose proof (delete_Permutation c i e Hi) as Hperm.
  assert (Hp : contents d ≡ₚ kv e :: contents (set_ht d table t')).
  { rewrite P1, P2, (fmap_Permutation kv _ _ Hperm). done. }
  assert (Hl : zlen c = 1 + zlen (delete i c)).
  { apply Permutation_length in Hperm. simpl in Hperm. unfold zlen. lia. }
  eexists. split; [reflexivity|]. assert (Hkept : kept d (set_ht d table t')) by (by destruct (set_ht_fields d table t')).
  split_and!; try done.
  eapply (update_wf d table idx c (delete i c)); [done|done| | | | |].
  - rewrite <- Hs. f_equal. lia.
  - by apply Forall_delete, (wf_home _ Ht _ _ Hb).
  - by apply chain_ok_delete, (wf_chain _ Ht _ _ Hb).
  - pose proof (wf_nodup _ Hd) as Hn. rewrite Hp in Hn. simpl in Hn.
    by apply list.NoDup_cons in Hn as [_ ?].
  - right. intros ->. done.
Qed.

Lemma set_val_spec d p e v :
  wf d → deref d p = Some e → entryHasValue e = true →
  ∃ d' rest, dictSetVal type d p v = Some d' ∧ wf d' ∧ contents d ≡ₚ kv e :: rest ∧
    contents d' ≡ₚ (ck e, Some (dup_val type v)) :: rest ∧
    kept d d'.
Proof.
  intros Hd. destruct p as [[table idx] i]. simpl.
  destruct (get_bucket (ht_at d table) idx) as [c|] eqn:Hb; [|done]. cbn [mbind option_bind].
  intros Hi Hv. rewrite Hi. cbn [mbind option_bind]. rewrite Hv.
  assert (Ht : wf_ht (ht_at d table)) by (destruct table; apply Hd).
  set (e' := {| kind := kind e; de_key := de_key e; de_val := Some (dup_val type v) |}).
  pose proof (set_bucket_in _ _ _ (<[i:=e']> c) (ht_used (ht_at d table)) Hb) as Hs. rewrite Hs.
  cbn [mbind option_bind]. match type of Hs with _ = Some ?t => set (t' := t) in * end.
  destruct (contents_bucket d table idx c Hb) as (rest & P1 & P2). specialize (P2 _ _ _ Hs).
  pose proof (delete_Permutation c i e Hi) as Hperm.
  assert (Hperm' : <[i:=e']> c ≡ₚ e' :: delete i c).
  { rewrite insert_take_drop by by eapply lookup_lt_Some. rewrite delete_take_drop. solve_Permutation. }
  exists (set_ht d table t'), ((kv <$> delete i c) ++ rest).
  assert (Q1 : contents d ≡ₚ kv e :: (kv <$> delete i c) ++ rest) by (rewrite P1, (fmap_Permutation kv _ _ Hperm); done).
  assert (Q2 : contents (set_ht d table t') ≡ₚ (ck e, Some (dup_val type v)) :: (kv <$> delete i c) ++ rest)
    by (rewrite P2, (fmap_Permutation kv _ _ Hperm'); done).
  assert (Hkept : kept d (set_ht d table t')) by (by destruct (set_ht_fields d table t')). split_and!; try done.
  eapply (update_wf d table idx c (<[i:=e']> c)); [done|done| | | | |].
  - rewrite <- Hs. f_equal. unfold zlen. rewrite length_insert. lia.
  - rewrite Hperm'. pose proof (wf_home _ Ht _ _ Hb) as Hh. rewrite Hperm in Hh.
    apply list.Forall_cons in Hh as [? ?]. by constructor.
  - pose proof (wf_chain _ Ht _ _ Hb) as Hc. clear - Hc Hi Hv. revert i Hi.
    induction c as [|e0 c IH]; intros i Hi; [done|]. destruct Hc as [He Hc].
    destruct i as [|i]; simpl in *.
    + injection Hi as ->. split; [|done]. destruct (no_value type); [|by destruct e].
      destruct He as [He _]. congruence.
    + split; [|by apply IH]. destruct (no_value type); [|done].
      destruct He as (? & ? & Hk). split_and!; [done|done|]. intros Hx. by rewrite (Hk Hx) in Hi.
  - rewrite Q2. pose proof (wf_nodup _ Hd) as Hn. rewrite Q1 in Hn. exact Hn.
  - right. intros ->. done.
Qed.

(** ** The dict as a finite map *)

Definition to_map (d : dict) : gmap C (option V) := list_to_map (contents d).

Lemma to_map_perm d d' : wf d → contents d' ≡ₚ contents d → to_map d' = to_map d.
Proof.
  intros Hd Hp. symmetry. apply list_to_map_proper; [apply Hd|by symmetry].
Qed.

Lemma to_map_same d d' : wf d → same d d' → to_map d' = to_map d.
Proof. intros Hd Hs. by apply to_map_perm, Hs. Qed.

Lemma to_map_deref d p e : wf d → deref d p = Some e → to_map d !! ck e = Some (de_val e).
Proof.
  intros Hd He. apply elem_of_list_to_map_1; [apply Hd|]. by apply (deref_elem d p e).
Qed.

Lemma to_map_absent d c : (c ∉ keys d) → to_map d !! c = None.
Proof. intros Hc. by apply not_elem_of_list_to_map_1. Qed.

Lemma to_map_cons d d' c v :
  wf d' → contents d' ≡ₚ (c, v) :: contents d → to_map d' = <[c:=v]> (to_map d).
Proof.
  intros Hd' Hp. unfold to_map. rewrite <- list_to_map_cons.
  apply list_to_map_proper; [apply Hd'|done].
Qed.

Lemma to_map_replace d d' c v v' rest :
  wf d → wf d' → contents d ≡ₚ (c, v) :: rest → contents d' ≡ₚ (c, v') :: rest →
  to_map d' = <[c:=v']> (to_map d).
Proof.
  intros Hd Hd' P1 P2. unfold to_map.
  rewrite (list_to_map_proper (contents d) _ (wf_nodup _ Hd) P1).
  rewrite (list_to_map_proper (contents d') _ (wf_nodup _ Hd') P2).
  rewrite !list_to_map_cons. by rewrite insert_insert_eq.
Qed.

Lemma deref_has_value d p e :
  wf d → deref d p = Some e → no_value type = false → entryHasValue e = true.
Proof.
  intros Hd. destruct p as [[table idx] i]. simpl.
  destruct (get_bucket (ht_at d table) idx) as [c|] eqn:Hb; [|done]. simpl. intros Hi Hnv.
  assert (Ht : wf_ht (ht_at d table)) by (destruct table; apply Hd).
  pose proof (wf_chain _ Ht _ _ Hb) as Hc. clear - Hc Hi Hnv. revert i Hi.
  induction c as [|e0 c IH]; intros i Hi; [done|]. destruct Hc as [He Hc]. rewrite Hnv in He.
  destruct i; simpl in Hi; [congruence|by eapply IH].
Qed.

(** The automatic rehash step in front of an operation on the key with
    contents [c], and the search that follows. *)
Lemma step_search d c :
  wf d → (dictIsRehashing d = true → 0 <= hash_idx c (ht0 d) < zlen (ht_table (ht0 d))) ∧
  (0 <= ht_size_exp (ht0 d) → 0 <= hash_idx c (ht0 d)).
Proof.
  intros Hd. split.
  - intros Hre. pose proof (wf_rehash _ Hd) as Hr. rewrite Hre in Hr. destruct Hr as (_ & He & _).
    destruct (hash_bucket c _ (wf_0 _ Hd) He) as [b Hb]. by eapply get_bucket_lt.
  - intros He. by apply bucket_range.
Qed.

Lemma size_nonzero d : wf d → dictSize d ≠ 0 → 0 <= ht_size_exp (ht0 d).
Proof.
  intros Hd Hs. destruct (wf_size _ (wf_0 _ Hd)) as [[He Ht]|[? _]]; [|lia].
  pose proof (wf_rehash _ Hd) as Hr. destruct (dictIsRehashing d); [lia|].
  exfalso. apply Hs. rewrite contents_size by done. unfold contents, entries.
  by rewrite Ht, Hr.
Qed.

Lemma size_zero d c : wf d → dictSize d = 0 → c ∉ keys d.
Proof.
  intros Hd Hs. rewrite contents_size in Hs by done. apply zlen_0_nil in Hs.
  unfold keys. rewrite Hs. apply not_elem_of_nil.
Qed.

(** Rehash step, then search: the outcome on any dict with a table. *)
Lemma lookup_spec d k (m : dict → K → bool) :
  (∀ d k', m d k' = bool_decide (content k' = content k)) →
  wf d → 0 <= ht_size_exp (ht0 d) →
  ∃ d' r i, _dictRehashStepIfNeeded type rs d (hash_idx (content k) (ht0 d)) = Some d' ∧
    search_tables d' (hash_of (content k)) (hash_idx (content k) (ht0 d)) (m d')
      = Some (r, i) ∧ worked d d' ∧
    match r with
    | Some p => ∃ e, deref d' p = Some e ∧ ck e = content k
    | None => content k ∉ keys d'
    end.
Proof.
  intros Hm Hd He. destruct (step_search d (content k) Hd) as [Hin Hnn].
  destruct (step_if_needed_spec d _ Hd Hin) as (d' & Hst & Hw).
  pose proof Hw as (Hs & Hre & Hx).
  destruct (tables_search_spec d' (content k) (hash_idx (content k) (ht0 d)) (m d'))
    as (r & i & Hsr & Hpost); [apply Hs|by apply Hx|by apply Hnn| |apply Hm|].
  { destruct (dictIsRehashing d') eqn:Hre'.
    - right. unfold hash_idx. by destruct (Hre eq_refl) as [_ ->].
    - left. unfold dictIsRehashing in Hre'. apply negb_false_iff, Z.eqb_eq in Hre'. lia. }
  exists d', r, i. split_and!; [done|done|done|]. destruct r; [done|]. apply Hpost.
Qed.

(** The entry of a key, found by dictFind. *)
Lemma find_spec d k :
  wf d →
  ∃ d' r, dictFind type rs d k = Some (d', r) ∧ wf d' ∧ to_map d' = to_map d ∧ kept d d' ∧
    match r with
    | Some p => ∃ e, deref d' p = Some e ∧ content (de_key e) = content k ∧
                     to_map d !! content k = Some (de_val e)
    | None => to_map d !! content k = None
    end.
Proof.
  intros Hd. unfold dictFind, dictFindByHash. destruct (dictSize d =? 0) eqn:Hz; zb.
  { exists d, None. split_and!; [done|done|done|done|]. by apply to_map_absent, size_zero. }
  rewrite Hhash. destruct (lookup_spec d k (λ d, find_match type d k) (λ d, find_match_spec d k) Hd
    (size_nonzero d Hd Hz)) as (d' & r & i & H1 & H2 & Hw & Hp). cbv beta in H2.
  unfold hash_idx in H1, H2. cbv zeta. rewrite H1. cbn [mbind option_bind]. rewrite H2.
  cbn [mbind option_bind]. destruct Hw as (Hs & _).
  pose proof (to_map_same d d' Hd Hs) as Hm. exists d', r. split_and!; [done|apply Hs|done|by apply same_kept|].
  destruct r as [p|].
  - destruct Hp as (e & He & Hc). exists e. split_and!; [done|done|]. rewrite <- Hm, <- Hc.
    apply (to_map_deref d' p); [apply Hs|done].
  - rewrite <- Hm. by apply to_map_absent.
Qed.

(** dictAddRaw: the existing entry, or a new entry without value. *)
(** The position found for a key is the bucket where it belongs. *)
Lemma find_position_spec d k :
  wf d → pauseAutoResize d <= 0 ∨ 0 <= ht_size_exp (ht0 d) →
  ∃ d' r, dictFindPositionForInsert type rs d k = Some (d', r) ∧ same d d' ∧
    match r with
    | inr p => ∃ e, deref d' p = Some e ∧ ck e = content k
    | inl pos => pos = (dictIsRehashing d', hash_idx (content k) (ht_at d' (dictIsRehashing d'))) ∧
        (content k ∉ keys d') ∧ 0 <= ht_size_exp (ht_at d' (dictIsRehashing d'))
    end.
Proof.
  intros Hd Hins. unfold dictFindPositionForInsert. rewrite Hhash. cbv zeta.
  change (Z.land (hash_of (content k)) (DICTHT_SIZE_MASK (ht_size_exp (ht0 d))))
    with (hash_idx (content k) (ht0 d)).
  destruct (step_search d (content k) Hd) as [Hin Hnn].
  destruct (step_if_needed_spec d _ Hd Hin) as (d1 & -> & Hw1). cbn [mbind option_bind].
  pose proof Hw1 as (Hs1 & Hre1 & Hx1).
  destruct (expand_if_needed_spec d1) as (d2 & -> & (Hs2 & Hi2 & Hx2) & Hp2); [apply Hs1|].
  cbn [mbind option_bind].
  assert (Hs : same d d2) by by eapply same_trans.
  assert (He2 : 0 <= ht_size_exp (ht0 d2)).
  { destruct Hins as [Hins|Hins]; [apply Hp2; by rewrite (same_auto _ _ Hs1)|auto]. }
  assert (H0 : 0 <= hash_idx (content k) (ht0 d)).
  { unfold hash_idx. destruct (Z.eq_dec (ht_size_exp (ht0 d)) (-1)) as [->|Hne].
    - unfold DICTHT_SIZE_MASK. simpl. by rewrite Z.land_0_r.
    - apply Hnn. destruct (wf_size _ (wf_0 _ Hd)) as [[? _]|[? _]]; lia. }
  destruct (tables_search_spec d2 (content k) (hash_idx (content k) (ht0 d)) (key_match type d2 k))
    as (r & i & -> & Hpost); [apply Hs|done|done| |apply key_match_spec|].
  { destruct Hi2 as [Hi2|Hi2]; [by left|]. subst d2. destruct (dictIsRehashing d1) eqn:Hre.
    - right. unfold hash_idx. by destruct (Hre1 eq_refl) as [_ ->].
    - left. unfold dictIsRehashing in Hre. apply negb_false_iff, Z.eqb_eq in Hre. lia. }
  cbn [mbind option_bind]. destruct r as [p|]; [by exists d2, (inr p)|].
  destruct Hpost as [Hk ->]. exists d2. eexists (inl _). split_and!; [done|done|done|done|].
  pose proof (wf_rehash _ (same_wf _ _ Hs)) as Hr. destruct (dictIsRehashing d2); [apply Hr|done].
Qed.

Lemma add_raw_spec d k :
  wf d → pauseAutoResize d <= 0 ∨ 0 <= ht_size_exp (ht0 d) →
  ∃ d' r, dictAddRaw type rs d k = Some (d', r) ∧ wf d' ∧ kept d d' ∧
    match r with
    | inr p => ∃ e, deref d' p = Some e ∧ ck e = content k ∧ contents d' ≡ₚ contents d
    | inl p => ∃ e, deref d' p = Some e ∧ ck e = content k ∧ de_val e = None ∧
        entryHasValue e = negb (no_value type) ∧ to_map d !! content k = None ∧
        contents d' ≡ₚ (content k, None) :: contents d
    end.
Proof.
  intros Hd Hins. unfold dictAddRaw.
  destruct (find_position_spec d k Hd Hins) as (d2 & r & -> & Hs & Hr). cbn [mbind option_bind].
  destruct r as [pos|p].
  2:{ destruct Hr as (e & ? & ?). exists d2, (inr p).
      split_and!; [done|apply Hs|by apply same_kept|]. exists e. split_and!; [done|done|apply Hs]. }
  destruct Hr as (-> & Hk & Het). pose proof (Hdup k) as Hdk.
  destruct (insert_spec d2 (dup_key type k)) as (d3 & p & e & Hi & Hd3 & Hp3 & He3 & Hc3 & Hv3 & Hkp);
    [apply Hs|by rewrite Hdk|done|].
  rewrite Hdk in Hi, Hp3, Hc3.
  cbn [mbind option_bind]. cbv zeta. rewrite Hi. cbn [mbind option_bind].
  exists d3, (inl p). split_and!; [done|done|eapply kept_trans; [by apply same_kept|done]|].
  exists e. split_and!; [done|done| |done| |].
  - pose proof (to_map_deref d3 p e Hd3 He3) as Hl. rewrite Hc3 in Hl.
    rewrite (to_map_cons d2 d3 _ _ Hd3 Hp3), lookup_insert_eq in Hl. by injection Hl.
  - rewrite <- (to_map_same d d2 Hd Hs). by apply to_map_absent.
  - rewrite Hp3. by rewrite (same_contents _ _ Hs).
Qed.

Lemma dict_add_spec d k v :
  wf d → pauseAutoResize d <= 0 ∨ 0 <= ht_size_exp (ht0 d) →
  ∃ d' r, dictAdd type rs d k v = Some (d', r) ∧ wf d' ∧ kept d d' ∧
    match to_map d !! content k with
    | Some _ => r = DICT_ERR ∧ to_map d' = to_map d
    | None => r = DICT_OK ∧
        to_map d' = <[content k := if no_value type then None else Some (dup_val type v)]> (to_map d)
    end.
Proof.
  intros Hd Hins. unfold dictAdd.
  destruct (add_raw_spec d k Hd Hins) as (d1 & r & -> & Hd1 & Hk1 & Hpost). cbn [mbind option_bind].
  destruct r as [p|p].
  - destruct Hpost as (e & He & Hc & Hv & Hhv & Hn & Hp). rewrite Hn.
    pose proof (to_map_cons d d1 _ _ Hd1 Hp) as Hm. destruct (no_value type); cbn [negb].
    + exists d1, DICT_OK. by split_and!.
    + destruct (set_val_spec d1 p e v Hd1 He Hhv) as (d2 & rest & -> & Hd2 & P1 & P2 & Hk2).
      cbn [mbind option_bind]. exists d2, DICT_OK. split_and!; [done|done|by eapply kept_trans|done|].
      pose proof (to_map_replace d1 d2 _ _ _ _ Hd1 Hd2 P1 P2) as Hm2. rewrite Hm2, Hm, Hc.
      apply insert_insert_eq.
  - destruct Hpost as (e & He & Hc & Hp). exists d1, DICT_ERR.
    pose proof (to_map_perm d d1 Hd Hp) as Hm. rewrite <- Hm, <- Hc.
    rewrite (to_map_deref d1 p e Hd1 He). by split_and!.
Qed.

Lemma replace_spec d k v :
  wf d → pauseAutoResize d <= 0 ∨ 0 <= ht_size_exp (ht0 d) → no_value type = false →
  ∃ d' r, dictReplace type rs d k v = Some (d', r) ∧ wf d' ∧ kept d d' ∧
    r = (if to_map d !! content k is Some _ then 0 else 1) ∧
    to_map d' = <[content k := Some (dup_val type v)]> (to_map d).
Proof.
  intros Hd Hins Hnv. unfold dictReplace.
  destruct (add_raw_spec d k Hd Hins) as (d1 & r & -> & Hd1 & Hk1 & Hpost). cbn [mbind option_bind].
  destruct r as [p|p].
  - destruct Hpost as (e & He & Hc & Hv & Hhv & Hn & Hp). rewrite Hn.
    pose proof (to_map_cons d d1 _ _ Hd1 Hp) as Hm. rewrite Hnv in Hhv.
    destruct (set_val_spec d1 p e v Hd1 He Hhv) as (d2 & rest & -> & Hd2 & P1 & P2 & Hk2).
    cbn [mbind option_bind]. exists d2, 1. split_and!; [done|done|by eapply kept_trans|done|].
    rewrite (to_map_replace d1 d2 _ _ _ _ Hd1 Hd2 P1 P2), Hm, Hc. apply insert_insert_eq.
  - destruct Hpost as (e & He & Hc & Hp).
    pose proof (to_map_perm d d1 Hd Hp) as Hm.
    assert (Hhv : entryHasValue e = true) by by eapply deref_has_value.
    unfold dictGetVal. rewrite He. cbn [mbind option_bind]. rewrite Hhv. cbn [mbind option_bind].
    destruct (set_val_spec d1 p e v Hd1 He Hhv) as (d2 & rest & -> & Hd2 & P1 & P2 & Hk2).
    cbn [mbind option_bind]. exists d2, 0. split_and!; [done|done|by eapply kept_trans| |].
    + rewrite <- Hm, <- Hc. by rewrite (to_map_deref d1 p e Hd1 He).
    + rewrite (to_map_replace d1 d2 _ _ _ _ Hd1 Hd2 P1 P2), Hm. by rewrite Hc.
Qed.

Lemma generic_delete_spec d k :
  wf d →
  ∃ d' r, dictGenericDelete type rs d k = Some (d', r) ∧ wf d' ∧ kept d d' ∧
    match r with
    | Some e => to_map d !! content k = Some (de_val e) ∧ (no_value type = false → entryHasValue e = true)
    | None => to_map d !! content k = None
    end ∧
    to_map d' = delete (content k) (to_map d).
Proof.
  intros Hd. unfold dictGenericDelete. destruct (dictSize d =? 0) eqn:Hz; zb.
  { pose proof (to_map_absent d _ (size_zero d (content k) Hd Hz)) as Hn.
    exists d, None. rewrite Hn. split_and!; [done|done|done|done|]. by rewrite delete_id. }
  rewrite Hhash. destruct (lookup_spec d k (λ d, key_match type d k) (λ d, key_match_spec d k) Hd
    (size_nonzero d Hd Hz)) as (d1 & r & i & H1 & H2 & Hw & Hp). cbv beta in H2.
  unfold hash_idx in H1, H2. cbv zeta. rewrite H1. cbn [mbind option_bind]. rewrite H2.
  cbn [mbind option_bind]. destruct Hw as (Hs & _). assert (Hd1 : wf d1) by apply Hs.
  pose proof (to_map_same d d1 Hd Hs) as Hm. destruct r as [p|].
  - destruct Hp as (e & He & Hc). destruct (unlink_spec d1 p e Hd1 He) as (d2 & -> & Hd2 & Hp2 & Hk2).
    cbn [mbind option_bind]. destruct (shrink_if_needed_spec d2 Hd2) as (d3 & -> & Hs3).
    cbn [mbind option_bind]. exists d3, (Some e).
    rewrite <- Hm, <- Hc, (to_map_deref d1 p e Hd1 He). split_and!;
      [done|apply Hs3| |done|by apply (deref_has_value d1 p)|].
    { eapply kept_trans; [by apply same_kept|]. eapply kept_trans; [done|]. by apply same_kept. }
    rewrite (to_map_same d2 d3 Hd2 Hs3). rewrite (to_map_cons d2 d1 _ _ Hd1 Hp2).
    rewrite delete_insert_id; [done|]. apply not_elem_of_list_to_map_1.
    pose proof (wf_nodup _ Hd1) as Hn. rewrite Hp2 in Hn. simpl in Hn.
    by apply list.NoDup_cons in Hn as [? _].
  - pose proof (to_map_absent d1 _ Hp) as Hn. exists d1, None. rewrite <- Hm, Hn.
    split_and!; [done|done|by apply same_kept|done|]. by rewrite delete_id.
Qed.

Lemma delete_spec d k :
  wf d →
  ∃ d' r, dictDelete type rs d k = Some (d', r) ∧ wf d' ∧ kept d d' ∧
    r = (if to_map d !! content k is Some _ then DICT_OK else DICT_ERR) ∧
    to_map d' = delete (content k) (to_map d).
Proof.
  intros Hd. destruct (generic_delete_spec d k Hd) as (d' & r & E & ? & ? & Hr & ?).
  unfold dictDelete. rewrite E. simpl. eexists d', _. split_and!; [done|done|done| |done].
  destruct r as [e|]; [by rewrite (proj1 Hr)|by rewrite Hr].
Qed.

(** dictFind, at any moment of an incremental rehash: it keeps the
    contents, and returns the entry of the key when the dict maps it, NULL
    otherwise. *)
Theorem dictFind_correct d k :
  wf d →
  ∃ d' r, dictFind type rs d k = Some (d', r) ∧ wf d' ∧ to_map d' = to_map d ∧
    match r with
    | Some p => ∃ e, deref d' p = Some e ∧ content (de_key e) = content k ∧
                     to_map d !! content k = Some (de_val e)
    | None => to_map d !! content k = None
    end.
Proof. intros Hd. destruct (find_spec d k Hd) as (d' & r & ? & ? & ? & _ & ?). by exists d', r. Qed.

(** dictAdd inserts the key with its value when the dict does not map
    it, and reports an error without changing the contents otherwise. *)
Theorem dictAdd_correct d k v :
  wf d → pauseAutoResize d <= 0 ∨ 0 <= ht_size_exp (ht0 d) →
  ∃ d' r, dictAdd type rs d k v = Some (d', r) ∧ wf d' ∧
    match to_map d !! content k with
    | Some _ => r = DICT_ERR ∧ to_map d' = to_map d
    | None => r = DICT_OK ∧
        to_map d' = <[content k := if no_value type then None else Some (dup_val type v)]> (to_map d)
    end.
Proof.
  intros Hd Hi. destruct (dict_add_spec d k v Hd Hi) as (d' & r & ? & ? & _ & ?). by exists d', r.
Qed.

(** dictReplace always leaves the key mapped to the new value, and
    returns 1 exactly when the key is new. *)
Theorem dictReplace_correct d k v :
  wf d → pauseAutoResize d <= 0 ∨ 0 <= ht_size_exp (ht0 d) → no_value type = false →
  ∃ d' r, dictReplace type rs d k v = Some (d', r) ∧ wf d' ∧
    r = (if to_map d !! content k is Some _ then 0 else 1) ∧
    to_map d' = <[content k := Some (dup_val type v)]> (to_map d).
Proof.
  intros Hd Hi Hv. destruct (replace_spec d k v Hd Hi Hv) as (d' & r & ? & ? & _ & ?).
  by exists d', r.
Qed.

(** dictDelete removes the key, and reports whether it was there;
    shrinking the table afterwards does not lose anything. *)
Theorem dictDelete_correct d k :
  wf d →
  ∃ d' r, dictDelete type rs d k = Some (d', r) ∧ wf d' ∧
    r = (if to_map d !! content k is Some _ then DICT_OK else DICT_ERR) ∧
    to_map d' = delete (content k) (to_map d).
Proof.
  intros Hd. destruct (delete_spec d k Hd) as (d' & r & ? & ? & _ & ?). by exists d', r.
Qed.

(** (C33) Incremental rehashing never changes the contents.  A call that
    reports remaining work has moved past at least [n] buckets; when rehashing
    is allowed, a call that reports none has completed the rehash. *)
Theorem dictRehash_correct d n :
  wf d →
  ∃ d' more, dictRehash type rs d n = Some (d', more) ∧ wf d' ∧ to_map d' = to_map d ∧
    (rehash_forbidden rs d = false →
       more = dictIsRehashing d' ∧
       (more = true → rehashidx d + Z.of_nat n <= rehashidx d' <= zlen (ht_table (ht0 d')))).
Proof.
  intros Hd. destruct (dictRehash_spec d n Hd) as (d' & more & Hr & (Hs & _) & Hmr & _ & Hnf).
  exists d', more. split_and!; [done|apply Hs|by apply to_map_same|].
  intros Hf. destruct (Hnf Hf) as (Hm & _ & Hprog). split; [done|]. intros Hmore.
  split; [auto|]. pose proof (wf_rehash _ (same_wf _ _ Hs)) as Hw. rewrite <- Hm, Hmore in Hw. lia.
Qed.

(** (C34) The loop that forces a full rehash terminates: as many calls as
    table 0 has buckets, plus one, are enough, and then either rehashing is
    not allowed at all or no rehash is left; the contents are unchanged. *)
Theorem full_rehash_terminates d :
  wf d → dictIsRehashing d = true →
  ∃ d', full_rehash type rs (S (length (ht_table (ht0 d)))) d = Some d' ∧ wf d' ∧
    to_map d' = to_map d ∧ (rehash_forbidden rs d = true ∨ dictIsRehashing d' = false).
Proof.
  intros Hd Hre. pose proof (wf_rehash _ Hd) as Hr. rewrite Hre in Hr.
  destruct (full_rehash_spec (S (length (ht_table (ht0 d)))) d Hd Hre) as (d' & Hf & (Hs & _) & Hend).
  { unfold zlen. lia. }
  exists d'. split_and!; [done|apply Hs|by apply to_map_same|].
  destruct Hend as [[? _]|?]; auto.
Qed.

(** ** The remaining operations *)

Lemma fetch_spec d k :
  wf d → no_value type = false →
  ∃ d', dictFetchValue type rs d k = Some (d', to_map d !! content k) ∧ wf d' ∧
    to_map d' = to_map d ∧ kept d d'.
Proof.
  intros Hd Hnv. unfold dictFetchValue.
  destruct (find_spec d k Hd) as (d' & r & -> & Hd' & Hm & Hk & Hr). cbn [mbind option_bind].
  exists d'. destruct r as [p|]; [|by rewrite Hr].
  destruct Hr as (e & He & Hc & ->). unfold dictGetVal. rewrite He. cbn [mbind option_bind].
  by rewrite (deref_has_value d' p e Hd' He Hnv).
Qed.

(** Expanding and shrinking on request, whatever the allocator answers. *)
Lemma try_expand_spec d size ok :
  wf d → 0 <= size →
  ∃ d' r, dictTryExpand type rs d size ok = Some (d', r) ∧ same d d' ∧
    (r = DICT_ERR → ok = false ∧ d' = d).
Proof.
  intros Hd Hs. unfold dictTryExpand, _dictExpand. pose proof (same_refl d Hd) as Hrefl.
  destruct (dictIsRehashing d) eqn:Hre; cbn [orb].
  { exists d, DICT_OK. by split_and!. }
  destruct (_ || _); [exists d, DICT_OK; by split_and!|].
  destruct (resize_spec d size (Some ok) Hd Hre Hs) as (d' & r & f & Hr & [Hsm _] & _).
  rewrite Hr. cbn [mbind option_bind]. exists d', (if f then DICT_ERR else DICT_OK).
  split_and!; [done|done|]. destruct f; [intros _|done]. revert Hr. unfold _dictResize.
  rewrite Hre. cbv zeta. do 2 (case_if; [done|]).
  destruct (bool_decide (Some ok = Some false)) eqn:Hb.
  - apply bool_decide_eq_true in Hb. injection Hb as ->. by intros [= <-].
  - case_if; [done|]. destruct (force_full_rehash type); [|done].
    destruct (full_rehash _ _ _ _); done.
Qed.

Lemma dict_expand_spec d size :
  wf d → 0 <= size → ∃ d' r, dictExpand type rs d size = Some (d', r) ∧ same d d'.
Proof.
  intros Hd Hs. destruct (dictIsRehashing d) eqn:Hre.
  - exists d, DICT_ERR. unfold dictExpand, _dictExpand. rewrite Hre. split; [done|by apply same_refl].
  - destruct (expand_spec d size Hd Hs Hre) as (d' & r & -> & [? _] & _). by exists d', r.
Qed.

Lemma auto_shrink_spec d :
  wf d → ∃ d' r, dictShrinkIfNeeded type rs d = Some (d', r) ∧ same d d'.
Proof.
  intros Hd. unfold dictShrinkIfNeeded. pose proof (used_nonneg d Hd). pose proof (same_refl d Hd).
  destruct (dictIsRehashing d) eqn:Hre; [by exists d, DICT_OK|].
  destruct (_ <=? _); [by exists d, DICT_OK|]. destruct (_ || _); [|by exists d, DICT_ERR].
  destruct (dictTypeResizeAllowed _ _ _); [|by exists d, DICT_OK].
  destruct (shrink_spec d (ht_used (ht0 d)) Hd ltac:(lia) Hre) as (d' & r & -> & [? _]).
  by exists d', DICT_OK.
Qed.

Lemma auto_expand_spec d :
  wf d → ∃ d' r, dictExpandIfNeeded type rs d = Some (d', r) ∧ same d d'.
Proof.
  intros Hd. unfold dictExpandIfNeeded. pose proof (used_nonneg d Hd). pose proof (same_refl d Hd).
  destruct (dictIsRehashing d) eqn:Hre; [by exists d, DICT_OK|].
  destruct (_ =? _).
  { destruct (dict_expand_spec d DICT_HT_INITIAL_SIZE Hd ltac:(vm_compute; discriminate))
      as (d' & r & -> & ?). by exists d', DICT_OK. }
  destruct (_ || _); [|by exists d, DICT_ERR].
  destruct (dictTypeResizeAllowed _ _ _); [|by exists d, DICT_OK].
  destruct (dict_expand_spec d (uwrap 64 (ht_used (ht0 d) + 1)) Hd (uwrap_nonneg _)) as (d' & r & -> & ?).
  by exists d', DICT_OK.
Qed.

Lemma rehash_step_spec d : wf d → ∃ d', _dictRehashStep type rs d = Some d' ∧ worked d d'.
Proof.
  intros Hd. unfold _dictRehashStep. destruct (_ =? _); [|exists d; split; [done|by apply worked_refl]].
  destruct (dictRehash_spec d 1 Hd) as (d' & m & -> & Hw & _). by exists d'.
Qed.

(** The settings of a dict do not matter for its invariant and contents. *)
Lemma pause_wf d : wf d → wf (dictPauseRehashing d).
Proof. by intros []. Qed.

Lemma resume_wf d : wf d → wf (dictResumeRehashing d).
Proof. by intros []. Qed.

Lemma wf_init : wf _dictInit.
Proof.
  assert (Hr : wf_ht _dictReset).
  { constructor; simpl; [by left|done| |]; intros idx c Hc; apply get_bucket_lt in Hc;
      unfold zlen in Hc; simpl in Hc; lia. }
  constructor; simpl; try done. constructor.
Qed.

Lemma unlink_find_spec d k :
  wf d →
  ∃ d' r, dictTwoPhaseUnlinkFind type rs d k = Some (d', r) ∧ wf d' ∧ to_map d' = to_map d ∧
    pauseAutoResize d' = pauseAutoResize d ∧
    match r with
    | Some p => (∃ e, deref d' p = Some e ∧ ck e = content k) ∧
                pauserehash d' = uwrap 15 (pauserehash d + 1)
    | None => to_map d !! content k = None ∧ pauserehash d' = pauserehash d
    end.
Proof.
  intros Hd. unfold dictTwoPhaseUnlinkFind. destruct (dictSize d =? 0) eqn:Hz; zb.
  { exists d, None. split_and!; try done. by apply to_map_absent, size_zero. }
  assert (∃ d1, (if dictIsRehashing d then _dictRehashStep type rs d else Some d) = Some d1 ∧ worked d d1)
    as (d1 & -> & Hs1 & _ & Hx1).
  { destruct (dictIsRehashing d); [by apply rehash_step_spec|exists d; split; [done|by apply worked_refl]]. }
  cbn [mbind option_bind]. cbv zeta. rewrite Hhash.
  change (Z.land (hash_of (content k)) (DICTHT_SIZE_MASK (ht_size_exp (ht0 d1))))
    with (hash_idx (content k) (ht0 d1)).
  pose proof (Hx1 (size_nonzero d Hd Hz)) as He1. pose proof (to_map_same d d1 Hd Hs1) as Hm.
  destruct (tables_search_spec d1 (content k) (hash_idx (content k) (ht0 d1)) (key_match type d1 k))
    as (r & i & -> & Hp); [apply Hs1|done|by apply bucket_range|by right|apply key_match_spec|].
  cbn [mbind option_bind]. destruct r as [p|].
  - exists (dictPauseRehashing d1), (Some p). split_and!; try done.
    + apply pause_wf, Hs1.
    + apply Hs1.
    + simpl. by rewrite (same_pause _ _ Hs1).
  - exists d1, None. split_and!; try done; try apply Hs1. rewrite <- Hm. by apply to_map_absent, Hp.
Qed.

Lemma unlink_free_spec d p e :
  wf d → deref d p = Some e →
  ∃ d', dictTwoPhaseUnlinkFree type rs d (Some p) = Some d' ∧ wf d' ∧
    to_map d' = delete (ck e) (to_map d) ∧ to_map d !! ck e = Some (de_val e) ∧
    pauseAutoResize d' = pauseAutoResize d ∧ pauserehash d' = uwrap 15 (pauserehash d - 1).
Proof.
  intros Hd He. unfold dictTwoPhaseUnlinkFree.
  destruct (unlink_spec d p e Hd He) as (d2 & -> & Hd2 & Hp2 & Hk2 & _ & Ha2). cbn [mbind option_bind].
  destruct (shrink_if_needed_spec d2 Hd2) as (d3 & -> & Hs3). cbn [mbind option_bind].
  exists (dictResumeRehashing d3). split_and!; [done|apply resume_wf, Hs3| |by eapply to_map_deref| |].
  - change (to_map (dictResumeRehashing d3)) with (to_map d3).
    rewrite (to_map_same d2 d3 Hd2 Hs3), (to_map_cons d2 d _ _ Hd Hp2), delete_insert_id; [done|].
    apply not_elem_of_list_to_map_1. pose proof (wf_nodup _ Hd) as Hn. rewrite Hp2 in Hn. simpl in Hn.
    by apply list.NoDup_cons in Hn as [? _].
  - simpl. by rewrite (same_auto _ _ Hs3).
  - simpl. by rewrite (same_pause _ _ Hs3), Hk2.
Qed.

Lemma to_map_size d : wf d → dictSize d = Z.of_nat (size (to_map d)).
Proof.
  intros Hd. rewrite contents_size by done. unfold zlen, to_map.
  rewrite map_size_list_to_map by apply Hd. done.
Qed.

(** Two-phase deletion: dictTwoPhaseUnlinkFind stops rehashing while the
    caller holds the entry it found, and dictTwoPhaseUnlinkFree removes exactly
    that entry and lets rehashing go on. *)
Theorem dictTwoPhaseUnlink_correct d k :
  wf d → 0 <= pauserehash d < 2 ^ 15 →
  ∃ d1 r, dictTwoPhaseUnlinkFind type rs d k = Some (d1, r) ∧ to_map d1 = to_map d ∧
    (r = None ↔ to_map d !! content k = None) ∧
    ∃ d2, dictTwoPhaseUnlinkFree type rs d1 r = Some d2 ∧ wf d2 ∧
      to_map d2 = delete (content k) (to_map d) ∧ pauserehash d2 = pauserehash d.
Proof.
  intros Hd Hpause. destruct (unlink_find_spec d k Hd) as (d1 & r & -> & Hd1 & Hm & _ & Hp).
  exists d1, r. destruct r as [p|].
  - destruct Hp as ((e & He & Hc) & Hpr).
    destruct (unlink_free_spec d1 p e Hd1 He) as (d2 & -> & Hd2 & Hm2 & Hl & _ & Hp2).
    split_and!; [done|done| |].
    + split; [done|]. rewrite <- Hm, <- Hc, Hl. done.
    + exists d2. split_and!; [done|done|by rewrite Hm2, Hm, Hc|]. rewrite Hp2, Hpr. unfold uwrap.
      rewrite Zminus_mod_idemp_l, Z.add_simpl_r. by apply Z.mod_small.
  - destruct Hp as [Hn Hp]. split_and!; [done|done|done|]. exists d1. split_and!; try done.
    by rewrite Hm, delete_id.
Qed.

End Proofs.
End DictProofs.
