(* ===== verification/DictMap.v ===== *)
(** * The dict as a map for its clients

    The interface between dict.c and the code that keeps its data in dicts: a
    class [DictApi] of the operations a client calls, and a class [DictLaws]
    that says how they act on the finite map a dict stands for.  The dict of
    dict.c is an instance of both; the key-value store is proved against the
    interface.  The second half is the refinement of whole histories: any
    sequence of operations from an empty dict, with any resize policy at each
    moment, is answered as a finite map would answer it. *)

From stdpp Require Import gmap.
From S2P Require Import Prelude Dict DictProofs.

Module DictMap.
Import Dict DictProofs.

(** ** The interface *)

Class DictApi (D K V P : Type) := {
  api_create : D;
  api_size : D → Z;
  api_paused : D → bool;
  api_find : D → K → option (D * option P);
  api_fetchValue : D → K → option (D * option (option V));
  api_getVal : D → P → option (option V);
  api_addRaw : D → K → option (D * (P + P));
  api_setVal : D → P → V → option D;
  api_delete : D → K → option (D * Z);
  api_unlink : D → K → option (D * option (option V));
  api_unlinkFind : D → K → option (D * option P);
  api_unlinkFree : D → option P → option D;
  api_expand : D → Z → option (D * Z);
  api_tryExpand : D → Z → bool → option (D * Z);
  api_shrinkIfNeeded : D → option (D * Z);
  api_expandIfNeeded : D → option (D * Z);
  api_empty : D → D
}.

(** [valid] is the invariant of a dict, [as_map] the map it stands for, and
    [points d p c] says that the pointer [p] is the entry of [c] in [d]. *)
Class DictLaws {D K V P C} `{Countable C} (api : DictApi D K V P) (content : K → C) (dup : V → V) := {
  valid : D → Prop;
  as_map : D → gmap C (option V);
  points : D → P → C → Prop;
  law_create : valid api_create ∧ as_map api_create = ∅;
  law_empty d : valid d → valid (api_empty d) ∧ as_map (api_empty d) = ∅;
  law_size d : valid d → api_size d = Z.of_nat (size (as_map d));
  law_points d p c : valid d → points d p c → is_Some (as_map d !! c);
  law_find d k : valid d →
    ∃ d' r, api_find d k = Some (d', r) ∧ valid d' ∧ as_map d' = as_map d ∧
      match r with Some p => points d' p (content k) | None => as_map d !! content k = None end;
  law_fetchValue d k : valid d →
    ∃ d', api_fetchValue d k = Some (d', as_map d !! content k) ∧ valid d' ∧ as_map d' = as_map d;
  law_getVal d p c : valid d → points d p c → api_getVal d p = as_map d !! c;
  law_addRaw d k : valid d →
    ∃ d' r, api_addRaw d k = Some (d', r) ∧ valid d' ∧
      match r with
      | inl p => points d' p (content k) ∧ as_map d !! content k = None ∧
                 as_map d' = <[content k := None]> (as_map d)
      | inr p => points d' p (content k) ∧ as_map d' = as_map d
      end;
  law_setVal d p c v : valid d → points d p c →
    ∃ d', api_setVal d p v = Some d' ∧ valid d' ∧ as_map d' = <[c := Some (dup v)]> (as_map d);
  law_delete d k : valid d →
    ∃ d', api_delete d k = Some (d', if as_map d !! content k is Some _ then DICT_OK else DICT_ERR) ∧
      valid d' ∧ as_map d' = delete (content k) (as_map d);
  law_unlink d k : valid d →
    ∃ d', api_unlink d k = Some (d', as_map d !! content k) ∧ valid d' ∧
      as_map d' = delete (content k) (as_map d);
  law_unlinkFind d k : valid d →
    ∃ d' r, api_unlinkFind d k = Some (d', r) ∧ valid d' ∧ as_map d' = as_map d ∧
      match r with Some p => points d' p (content k) | None => as_map d !! content k = None end;
  law_unlinkFree d p c : valid d → points d p c →
    ∃ d', api_unlinkFree d (Some p) = Some d' ∧ valid d' ∧ as_map d' = delete c (as_map d);
  law_expand d n : valid d → 0 <= n →
    ∃ d' r, api_expand d n = Some (d', r) ∧ valid d' ∧ as_map d' = as_map d;
  law_tryExpand d n ok : valid d → 0 <= n →
    ∃ d' r, api_tryExpand d n ok = Some (d', r) ∧ valid d' ∧ as_map d' = as_map d ∧
      (r = DICT_ERR → ok = false);
  law_shrinkIfNeeded d : valid d →
    ∃ d' r, api_shrinkIfNeeded d = Some (d', r) ∧ valid d' ∧ as_map d' = as_map d;
  law_expandIfNeeded d : valid d →
    ∃ d' r, api_expandIfNeeded d = Some (d', r) ∧ valid d' ∧ as_map d' = as_map d
}.

(** ** The instance *)

Definition dictIsRehashingPaused {K V} (d : dict K V) : bool := 0 <? pauserehash d.

(** The value of the entry that dictUnlink returns; its caller frees the entry. *)
Definition unlinked_val {K V} `{EqDecision K} (type : dictType K V) (rs : dictResizeEnable) (d : dict K V) (k : K)
    : option (dict K V * option (option V)) :=
  '(d, he) ← dictUnlink type rs d k;
  match he with
  | None => Some (d, None)
  | Some e => if entryHasValue e then Some (d, Some (de_val e)) else None
  end.

#[global] Instance dict_api {K V} `{EqDecision K} (type : dictType K V) (rs : dictResizeEnable)
  : DictApi (dict K V) K V eptr := {
  api_create := dictCreate;
  api_size := dictSize;
  api_paused := dictIsRehashingPaused;
  api_find := dictFind type rs;
  api_fetchValue := dictFetchValue type rs;
  api_getVal := dictGetVal;
  api_addRaw := dictAddRaw type rs;
  api_setVal := dictSetVal type;
  api_delete := dictDelete type rs;
  api_unlink := unlinked_val type rs;
  api_unlinkFind := dictTwoPhaseUnlinkFind type rs;
  api_unlinkFree := dictTwoPhaseUnlinkFree type rs;
  api_expand := dictExpand type rs;
  api_tryExpand := dictTryExpand type rs;
  api_shrinkIfNeeded := dictShrinkIfNeeded type rs;
  api_expandIfNeeded := dictExpandIfNeeded type rs;
  api_empty := dictEmpty
}.

(** What a dictType whose dicts hold values has to guarantee: hashing and
    comparison look at the contents of the keys, and so does duplication. *)
Record type_ok {K V C} `{EqDecision K} `{EqDecision C} (type : dictType K V) (content : K → C)
  (hash_of : C → Z) : Prop := {
  ok_hash : ∀ k b, dictHashKey type k b = hash_of (content k);
  ok_cmp : ∀ (d : dict K V) k1 k2,
    dictGetKeyCmpFunc type d k1 k2 = bool_decide (content k1 = content k2);
  ok_len : ∀ len cmp, keyLen type = Some len → keyCompareWithLen type = Some cmp →
    ∀ k1 k2, cmp k1 (len k1) k2 (len k2) = bool_decide (content k1 = content k2);
  ok_dup : ∀ k, content (dup_key type k) = content k;
  ok_value : no_value type = false
}.

Section Instance.
Context {K V C : Type} `{EqDecision K} `{Countable C}.
Context (type : dictType K V) (rs : dictResizeEnable) (content : K → C) (hash_of : C → Z).
Context (Hok : type_ok type content hash_of).

Definition dict_valid (d : dict K V) : Prop := wf type content hash_of d ∧ pauseAutoResize d <= 0.

Definition dict_points (d : dict K V) (p : eptr) (c : C) : Prop :=
  ∃ e, deref d p = Some e ∧ ck content e = c.

Lemma valid_same d d' :
  dict_valid d → same type content hash_of d d' → dict_valid d' ∧ to_map content d' = to_map content d.
Proof.
  intros [Hd Ha] Hs. split; [split; [apply Hs|]|by eapply to_map_same].
  by rewrite (same_auto _ _ _ _ _ Hs).
Qed.

Lemma valid_kept d d' : dict_valid d → wf type content hash_of d' → kept d d' → dict_valid d'.
Proof. intros [_ ?] ? (_ & _ & Hk). split; [done|]. by rewrite Hk. Qed.

Lemma valid_create : dict_valid dictCreate ∧ to_map content (dictCreate (K:=K) (V:=V)) = ∅.
Proof. split; [split; [apply wf_init|done]|done]. Qed.

Lemma valid_empty (d : dict K V) : dict_valid (dictEmpty d) ∧ to_map content (dictEmpty d) = ∅.
Proof.
  split; [|done]. split; [|done]. pose proof (wf_init type content hash_of) as [].
  by constructor.
Qed.
Lemma points_map d p c : dict_valid d → dict_points d p c → is_Some (to_map content d !! c).
Proof.
  intros [Hd _] (e & He & <-). rewrite (to_map_deref type content hash_of d p e Hd He). done.
Qed.

Lemma find_law d k : dict_valid d →
  ∃ d' r, dictFind type rs d k = Some (d', r) ∧ dict_valid d' ∧ to_map content d' = to_map content d ∧
    match r with Some p => dict_points d' p (content k) | None => to_map content d !! content k = None end.
Proof using Hok.
  intros Hv. destruct (find_spec type rs content hash_of (ok_hash _ _ _ Hok) (ok_cmp _ _ _ Hok)
    (ok_len _ _ _ Hok) d k)
    as (d' & r & ? & ? & ? & ? & Hr); [apply Hv|].
  exists d', r. split_and!; [done|by eapply valid_kept|done|].
  destruct r as [p|]; [|done]. destruct Hr as (e & ? & ? & _). by exists e.
Qed.

Lemma fetch_law d k : dict_valid d →
  ∃ d', dictFetchValue type rs d k = Some (d', to_map content d !! content k) ∧ dict_valid d' ∧
    to_map content d' = to_map content d.
Proof using Hok.
  intros Hv. destruct (fetch_spec type rs content hash_of (ok_hash _ _ _ Hok) (ok_cmp _ _ _ Hok)
    (ok_len _ _ _ Hok) d k)
    as (d' & ? & ? & ? & ?); [apply Hv|apply Hok|].
  exists d'. split_and!; [done|by eapply valid_kept|done].
Qed.

Lemma add_raw_law d k : dict_valid d →
  ∃ d' r, dictAddRaw type rs d k = Some (d', r) ∧ dict_valid d' ∧
    match r with
    | inl p => dict_points d' p (content k) ∧ to_map content d !! content k = None ∧
               to_map content d' = <[content k := None]> (to_map content d)
    | inr p => dict_points d' p (content k) ∧ to_map content d' = to_map content d
    end.
Proof using Hok.
  intros Hv. destruct (add_raw_spec type rs content hash_of (ok_hash _ _ _ Hok) (ok_cmp _ _ _ Hok)
    (ok_dup _ _ _ Hok) d k) as (d' & r & ? & Hw & ? & Hr); [apply Hv|left; apply Hv|].
  exists d', r. split_and!; [done|by eapply valid_kept|]. destruct r as [p|p].
  - destruct Hr as (e & ? & ? & _ & _ & ? & ?). split_and!; [by exists e|done|].
    by eapply to_map_cons.
  - destruct Hr as (e & ? & ? & ?). split; [by exists e|]. eapply to_map_perm; [apply Hv|done].
Qed.

Lemma set_val_law d p c v : dict_valid d → dict_points d p c →
  ∃ d', dictSetVal type d p v = Some d' ∧ dict_valid d' ∧
    to_map content d' = <[c := Some (dup_val type v)]> (to_map content d).
Proof using Hok.
  intros Hv (e & He & <-).
  destruct (set_val_spec type content hash_of d p e v)
    as (d' & rest & ? & ? & ? & ? & ?); [apply Hv|done| |].
  { eapply deref_has_value; [apply Hv|done|apply Hok]. }
  exists d'. split_and!; [done|by eapply valid_kept|].
  eapply to_map_replace; [apply Hv|done|done|done].
Qed.

Lemma delete_law d k : dict_valid d →
  ∃ d', dictDelete type rs d k =
      Some (d', if to_map content d !! content k is Some _ then DICT_OK else DICT_ERR) ∧
    dict_valid d' ∧ to_map content d' = delete (content k) (to_map content d).
Proof using Hok.
  intros Hv. destruct (delete_spec type rs content hash_of (ok_hash _ _ _ Hok) (ok_cmp _ _ _ Hok) d k)
    as (d' & r & Hr & ? & ? & -> & ?); [apply Hv|].
  exists d'. split_and!; [done|by eapply valid_kept|done].
Qed.

Lemma get_val_law d p c : dict_valid d → dict_points d p c → dictGetVal d p = to_map content d !! c.
Proof using Hok.
  intros [Hd _] (e & He & <-). rewrite (to_map_deref type content hash_of d p e Hd He).
  unfold dictGetVal. rewrite He. simpl. by rewrite (deref_has_value type content hash_of d p e Hd He (ok_value _ _ _ Hok)).
Qed.

Lemma unlink_law d k : dict_valid d →
  ∃ d', unlinked_val type rs d k = Some (d', to_map content d !! content k) ∧ dict_valid d' ∧
    to_map content d' = delete (content k) (to_map content d).
Proof using Hok.
  intros Hv. destruct (generic_delete_spec type rs content hash_of (ok_hash _ _ _ Hok) (ok_cmp _ _ _ Hok) d k)
    as (d' & r & Hr & ? & ? & Hm & ?); [apply Hv|].
  exists d'. split_and!; [|by eapply valid_kept|done]. unfold unlinked_val, dictUnlink. rewrite Hr. simpl.
  destruct r as [e|]; [|by rewrite Hm]. destruct Hm as [-> He]. by rewrite (He (ok_value _ _ _ Hok)).
Qed.

Lemma unlink_find_law d k : dict_valid d →
  ∃ d' r, dictTwoPhaseUnlinkFind type rs d k = Some (d', r) ∧ dict_valid d' ∧
    to_map content d' = to_map content d ∧
    match r with Some p => dict_points d' p (content k) | None => to_map content d !! content k = None end.
Proof using Hok.
  intros [Hd Ha]. destruct (unlink_find_spec type rs content hash_of (ok_hash _ _ _ Hok)
    (ok_cmp _ _ _ Hok) d k Hd) as (d' & r & ? & ? & ? & Ha' & Hr).
  exists d', r. split_and!; [done|split; [done|by rewrite Ha']|done|]. destruct r; apply Hr.
Qed.

Lemma unlink_free_law d p c : dict_valid d → dict_points d p c →
  ∃ d', dictTwoPhaseUnlinkFree type rs d (Some p) = Some d' ∧ dict_valid d' ∧
    to_map content d' = delete c (to_map content d).
Proof using Hok.
  intros [Hd Ha] (e & He & <-). destruct (unlink_free_spec type rs content hash_of (ok_hash _ _ _ Hok)
    d p e Hd He) as (d' & ? & ? & ? & _ & Ha' & _).
  exists d'. split_and!; [done|split; [done|by rewrite Ha']|done].
Qed.

#[global] Instance dict_laws : DictLaws (dict_api type rs) content (dup_val type).
Proof using Hok hash_of.
  refine {| valid := dict_valid; as_map := to_map content; points := dict_points |}; simpl.
  - apply valid_create.
  - intros d _. apply valid_empty.
  - intros d Hd. eapply to_map_size, Hd.
  - apply points_map.
  - apply find_law.
  - apply fetch_law.
  - apply get_val_law.
  - apply add_raw_law.
  - apply set_val_law.
  - apply delete_law.
  - apply unlink_law.
  - apply unlink_find_law.
  - apply unlink_free_law.
  - intros d n Hd Hn. destruct (dict_expand_spec type rs content hash_of (ok_hash _ _ _ Hok) d n)
      as (d' & r & ? & ?); [apply Hd|done|]. exists d', r. split; [done|]. by apply valid_same.
  - intros d n ok Hd Hn. destruct (try_expand_spec type rs content hash_of (ok_hash _ _ _ Hok) d n ok)
      as (d' & r & ? & Hs & Hr); [apply Hd|done|]. exists d', r. split; [done|].
    destruct (valid_same _ _ Hd Hs). split_and!; [done|done|]. intros Hx. by apply Hr.
  - intros d Hd. destruct (auto_shrink_spec type rs content hash_of (ok_hash _ _ _ Hok) d)
      as (d' & r & ? & ?); [apply Hd|]. exists d', r. split; [done|]. by apply valid_same.
  - intros d Hd. destruct (auto_expand_spec type rs content hash_of (ok_hash _ _ _ Hok) d)
      as (d' & r & ? & ?); [apply Hd|]. exists d', r. split; [done|]. by apply valid_same.
Defined.
End Instance.

(** ** Histories *)

Section Histories.
Context {K V : Type} `{EqDecision K}.

Inductive dict_op :=
  | OpFetch (k : K)
  | OpAdd (k : K) (v : V)
  | OpReplace (k : K) (v : V)
  | OpDelete (k : K)
  | OpTwoPhaseUnlink (k : K)
  | OpRehash (n : nat)
  | OpExpand (size : Z)
  | OpTryExpand (size : Z) (malloc_ok : bool)
  | OpShrinkIfNeeded
  | OpExpandIfNeeded
  | OpEmpty.

(** What a client learns from an operation about the contents. *)
Inductive op_answer := AnsValue (v : option (option V)) | AnsCode (c : Z) | AnsNone.

Definition exec (type : dictType K V) (rs : dictResizeEnable) (d : dict K V) (op : dict_op)
  : option (dict K V * op_answer) :=
  match op with
  | OpFetch k => '(d, v) ← dictFetchValue type rs d k; Some (d, AnsValue v)
  | OpAdd k v => '(d, r) ← dictAdd type rs d k v; Some (d, AnsCode r)
  | OpReplace k v => '(d, r) ← dictReplace type rs d k v; Some (d, AnsCode r)
  | OpDelete k => '(d, r) ← dictDelete type rs d k; Some (d, AnsCode r)
  | OpTwoPhaseUnlink k =>
      '(d, p) ← dictTwoPhaseUnlinkFind type rs d k;
      d ← dictTwoPhaseUnlinkFree type rs d p;
      Some (d, AnsCode (if p is Some _ then DICT_OK else DICT_ERR))
  | OpRehash n => '(d, _) ← dictRehash type rs d n; Some (d, AnsNone)
  | OpExpand size => '(d, _) ← dictExpand type rs d size; Some (d, AnsNone)
  | OpTryExpand size ok => '(d, _) ← dictTryExpand type rs d size ok; Some (d, AnsNone)
  | OpShrinkIfNeeded => '(d, _) ← dictShrinkIfNeeded type rs d; Some (d, AnsNone)
  | OpExpandIfNeeded => '(d, _) ← dictExpandIfNeeded type rs d; Some (d, AnsNone)
  | OpEmpty => Some (dictEmpty d, AnsNone)
  end.

(** Each operation runs under the resize policy in force at that moment. *)
Fixpoint run (type : dictType K V) (d : dict K V) (ops : list (dictResizeEnable * dict_op))
  : option (dict K V * list op_answer) :=
  match ops with
  | [] => Some (d, [])
  | (rs, op) :: ops =>
      '(d, a) ← exec type rs d op;
      '(d, l) ← run type d ops;
      Some (d, a :: l)
  end.

(** The same operations on a finite map. *)
Section Spec.
Context {C : Type} `{Countable C} (content : K → C) (dup : V → V).

Definition spec_exec (m : gmap C (option V)) (op : dict_op) : gmap C (option V) * op_answer :=
  match op with
  | OpFetch k => (m, AnsValue (m !! content k))
  | OpAdd k v =>
      match m !! content k with
      | Some _ => (m, AnsCode DICT_ERR)
      | None => (<[content k := Some (dup v)]> m, AnsCode DICT_OK)
      end
  | OpReplace k v =>
      (<[content k := Some (dup v)]> m, AnsCode (if m !! content k is Some _ then 0 else 1))
  | OpDelete k | OpTwoPhaseUnlink k =>
      (delete (content k) m, AnsCode (if m !! content k is Some _ then DICT_OK else DICT_ERR))
  | OpEmpty => (∅, AnsNone)
  | _ => (m, AnsNone)
  end.

Fixpoint spec_run (m : gmap C (option V)) (ops : list (dictResizeEnable * dict_op))
  : gmap C (option V) * list op_answer :=
  match ops with
  | [] => (m, [])
  | (_, op) :: ops =>
      let '(m, a) := spec_exec m op in let '(m, l) := spec_run m ops in (m, a :: l)
  end.
End Spec.

Definition op_size_ok (op : dict_op) : Prop :=
  match op with OpExpand n | OpTryExpand n _ => 0 <= n | _ => True end.

End Histories.
Arguments dict_op : clear implicits.

Section Refinement.
Context {K V C : Type} `{EqDecision K} `{Countable C}.
Context (type : dictType K V) (content : K → C) (hash_of : C → Z).
Context (Hok : type_ok type content hash_of).

Abbreviation valid := (dict_valid type content hash_of).

(** One operation simulates the map operation. *)
Lemma exec_refines rs d op :
  valid d → op_size_ok op →
  ∃ d', exec type rs d op = Some (d', snd (spec_exec content (dup_val type) (to_map content d) op)) ∧
    valid d' ∧ to_map content d' = fst (spec_exec content (dup_val type) (to_map content d) op).
Proof using Hok.
  intros Hv Hsz. pose proof (dict_laws type rs content hash_of Hok) as L.
  destruct Hok as [Hh Hc _ Hdk Hnv]. destruct op as [k|k v|k v|k|k|n|size|size ok| | |]; simpl.
  - destruct (fetch_law type rs content hash_of Hok d k Hv) as (d' & -> & ? & ?). by exists d'.
  - destruct (dict_add_spec type rs content hash_of Hh Hc Hdk d k v) as (d' & r & -> & ? & Hk & Hm);
      [apply Hv|left; apply Hv|]. rewrite Hnv in Hm. exists d'.
    destruct (to_map content d !! content k); destruct Hm as [-> ?];
      (split_and!; [done|by eapply valid_kept|done]).
  - destruct (replace_spec type rs content hash_of Hh Hc Hdk d k v)
      as (d' & r & -> & ? & ? & -> & ?); [apply Hv|left; apply Hv|done|].
    exists d'. split_and!; [done|by eapply valid_kept|done].
  - destruct (delete_law type rs content hash_of Hok d k Hv) as (d' & -> & ? & ?). by exists d'.
  - destruct (unlink_find_law type rs content hash_of Hok d k Hv) as (d1 & r & -> & Hv1 & Hm & Hr).
    cbn [mbind option_bind]. destruct r as [p|].
    + destruct (unlink_free_law type rs content hash_of Hok d1 p _ Hv1 Hr) as (d' & -> & ? & Hm').
      destruct (points_map type content hash_of d1 p _ Hv1 Hr) as [x Hx]. rewrite Hm in Hx, Hm'.
      exists d'. by rewrite Hx.
    + exists d1. rewrite Hr. split_and!; [done|done|]. by rewrite delete_id.
  - destruct (dictRehash_spec type rs content hash_of Hh d n) as (d' & m & -> & [Hs _] & _);
      [apply Hv|]. exists d'. split; [done|]. by apply valid_same.
  - destruct (dict_expand_spec type rs content hash_of Hh d size) as (d' & r & -> & Hs);
      [apply Hv|done|]. exists d'. split; [done|]. by apply valid_same.
  - destruct (try_expand_spec type rs content hash_of Hh d size ok) as (d' & r & -> & Hs & _);
      [apply Hv|done|]. exists d'. split; [done|]. by apply valid_same.
  - destruct (auto_shrink_spec type rs content hash_of Hh d) as (d' & r & -> & Hs);
      [apply Hv|]. exists d'. split; [done|]. by apply valid_same.
  - destruct (auto_expand_spec type rs content hash_of Hh d) as (d' & r & -> & Hs);
      [apply Hv|]. exists d'. split; [done|]. by apply valid_same.
  - exists (dictEmpty d). split; [done|]. apply valid_empty.
Qed.

Lemma run_refines ops d :
  valid d → Forall (λ x, op_size_ok x.2) ops →
  ∃ d', run type d ops = Some (d', snd (spec_run content (dup_val type) (to_map content d) ops)) ∧
    valid d' ∧ to_map content d' = fst (spec_run content (dup_val type) (to_map content d) ops).
Proof using Hok.
  revert d. induction ops as [|[rs op] ops IH]; intros d Hv Hf; [by exists d|].
  apply list.Forall_cons in Hf as [Ho Hf]. simpl.
  destruct (exec_refines rs d op Hv Ho) as (d1 & -> & Hv1 & Hm1).
  destruct (spec_exec _ _ _ op) as [m a]. simpl in *. cbn [mbind option_bind].
  destruct (IH d1 Hv1 Hf) as (d2 & -> & Hv2 & Hm2). rewrite Hm1 in *.
  destruct (spec_run _ _ m ops) as [m' l]. by exists d2.
Qed.

(** (C1) Whole histories: from dictCreate, any sequence of lookups,
    insertions, replacements, deletions, resizes and rehash steps, each under
    an arbitrary resize policy, runs without failing, gives the answers a finite
    map gives, and ends with a dict that stands for the map. *)
Theorem dict_refines_map ops :
  Forall (λ x, op_size_ok x.2) ops →
  ∃ d, run type dictCreate ops = Some (d, snd (spec_run content (dup_val type) ∅ ops)) ∧
    wf type content hash_of d ∧ to_map content d = fst (spec_run content (dup_val type) ∅ ops).
Proof using Hok.
  intros Hf. destruct (valid_create type content hash_of) as [Hv Hm].
  destruct (run_refines ops dictCreate Hv Hf) as (d & Hr & [? _] & ?). rewrite Hm in *. by exists d.
Qed.
End Refinement.
End DictMap.
