(* ===== verification/DictIter.v ===== *)
(** * Dict iterators ([src/redis-stable/src/dict.c])

    [dictNext] walks the buckets of both tables; the iterator keeps the chain
    suffix it is at, and the next one, which it read before giving the entry to the
    caller.  A safe iterator pauses rehashing; an unsafe one takes a fingerprint
    that is compared when it is released.  The addresses of the two bucket arrays,
    which the fingerprint hashes, are given by a parameter. *)

From stdpp Require Import gmap.
From S2P Require Import Prelude Dict DictProofs.

Module DictIter.
Import Dict DictProofs.

Section Iter.
Context {K V : Type} `{EqDecision K}.
Context (table_addr : ht K V → Z).
Abbreviation dict := (dict K V).
Abbreviation dictEntry := (dictEntry K V).

(** Thomas Wang's 64 bit integer hash. *)
Definition wang_step (hash integer : Z) : Z :=
  let u := uwrap 64 in
  let hash := u (hash + integer) in
  let hash := u (u (Z.lnot hash) + u (Z.shiftl hash 21)) in
  let hash := Z.lxor hash (Z.shiftr hash 24) in
  let hash := u (u (hash + u (Z.shiftl hash 3)) + u (Z.shiftl hash 8)) in
  let hash := Z.lxor hash (Z.shiftr hash 14) in
  let hash := u (u (hash + u (Z.shiftl hash 2)) + u (Z.shiftl hash 4)) in
  let hash := Z.lxor hash (Z.shiftr hash 28) in
  u (hash + u (Z.shiftl hash 31)).

Definition dictFingerprint (d : dict) : Z :=
  let integers := uwrap 64 <$>
    [table_addr (ht0 d); ht_size_exp (ht0 d); ht_used (ht0 d);
     table_addr (ht1 d); ht_size_exp (ht1 d); ht_used (ht1 d)] in
  foldl wang_step 0 integers.

(** An entry pointer is the suffix of the chain that starts there; [NULL] is the empty one. *)
Record dictIterator := mkIter {
  index : Z;
  table : bool;
  safe : bool;
  entry : list dictEntry;
  nextEntry : list dictEntry;
  fingerprint : Z
}.

Definition dictInitIterator : dictIterator := mkIter (-1) false false [] [] 0.
Definition dictInitSafeIterator : dictIterator := mkIter (-1) false true [] [] 0.
Definition dictGetIterator : dictIterator := dictInitIterator.
Definition dictGetSafeIterator : dictIterator := mkIter (-1) false true [] [] 0.

Definition at_start (it : dictIterator) : bool := (index it =? -1) && negb (table it).

(** [None]: the assertion that an unsafe iterator saw no modification fails. *)
Definition dictResetIterator (d : dict) (it : dictIterator) : option dict :=
  if negb (at_start it) then
    if safe it then Some (dictResumeRehashing d)
    else if fingerprint it =? dictFingerprint d then Some d else None
  else Some d.

Definition dictReleaseIterator (d : dict) (it : dictIterator) : option dict := dictResetIterator d it.

(** The block at the start of the iteration. *)
Definition iter_start (d : dict) (it : dictIterator) : dict * dictIterator :=
  let '(d, it) :=
    if safe it then (dictPauseRehashing d, it)
    else (d, mkIter (index it) (table it) (safe it) (entry it) (nextEntry it) (dictFingerprint d)) in
  if dictIsRehashing d then
    (d, mkIter (rehashidx d - 1) (table it) (safe it) (entry it) (nextEntry it) (fingerprint it))
  else (d, it).

(** [iter->entry = iter->d->ht_table[iter->table][iter->index]] *)
Definition iter_load (d : dict) (it : dictIterator) (table : bool) (index : Z) : option dictIterator :=
  c ← get_bucket (ht_at d table) index;
  Some (mkIter index table (safe it) c (nextEntry it) (fingerprint it)).

(** The body of the loop up to the test of [iter->entry]; [None] inside is the [break]. *)
Definition iter_advance (d : dict) (it : dictIterator) : option (dict * dictIterator * bool) :=
  match entry it with
  | [] =>
      let '(d, it) := if at_start it then iter_start d it else (d, it) in
      let it := mkIter (index it + 1) (table it) (safe it) (entry it) (nextEntry it) (fingerprint it) in
      if DICTHT_SIZE (ht_size_exp (ht_at d (table it))) <=? index it then
        if dictIsRehashing d && negb (table it) then it ← iter_load d it true 0; Some (d, it, true)
        else Some (d, it, false)
      else it ← iter_load d it (table it) (index it); Some (d, it, true)
  | _ => Some (d, mkIter (index it) (table it) (safe it) (nextEntry it) (nextEntry it) (fingerprint it), true)
  end.

(** [while (1)] *)
Fixpoint next_loop (fuel : nat) (d : dict) (it : dictIterator) : option (dict * dictIterator * option dictEntry) :=
  match fuel with
  | O => None
  | S fuel =>
      '(d, it, go) ← iter_advance d it;
      if negb go then Some (d, it, None)
      else
        match entry it with
        | e :: next => Some (d, mkIter (index it) (table it) (safe it) (entry it) next (fingerprint it), Some e)
        | [] => next_loop fuel d it
        end
  end.

(** One round per bucket, and one for each table. *)
Definition dictNext (d : dict) (it : dictIterator) : option (dict * dictIterator * option dictEntry) :=
  next_loop (3 + length (ht_table (ht0 d)) + length (ht_table (ht1 d))) d it.

(** The usual loop of a client that does not modify the dict:
    [while ((de = dictNext(iter)) != NULL)], collecting the entries. *)
Fixpoint iterate (fuel : nat) (d : dict) (it : dictIterator) : option (dict * dictIterator * list dictEntry) :=
  match fuel with
  | O => None
  | S fuel =>
      '(d, it, de) ← dictNext d it;
      match de with
      | None => Some (d, it, [])
      | Some de => '(d, it, l) ← iterate fuel d it; Some (d, it, de :: l)
      end
  end.
End Iter.

Arguments dictIterator : clear implicits.

(** ** What is left to visit *)

Section IterProofs.
Context {K V C : Type} `{EqDecision K} `{Countable C}.
Context (type : dictType K V) (content : K → C) (hash_of : C → Z).
Context (table_addr : ht K V → Z).
Implicit Types (d : dict K V) (it : dictIterator K V).

Abbreviation wf := (wf type content hash_of).
Abbreviation wf_ht := (wf_ht type content hash_of).

(** The entries of the buckets that follow bucket [i] of a table, and those of table 1. *)
Definition buckets_after d (t : bool) (i : Z) : list (dictEntry K V) :=
  mjoin (drop (Z.to_nat (i + 1)) (ht_table (ht_at d t))) ++
  if dictIsRehashing d && negb t then entries (ht1 d) else [].

Definition remaining d it : list (dictEntry K V) :=
  match entry it with [] => [] | _ => nextEntry it end ++ buckets_after d (table it) (index it).

Record it_ok d it : Prop := {
  ok_index : -1 <= index it;
  ok_next : entry it ≠ [] → nextEntry it = tail (entry it) ∧ 0 <= index it;
  ok_table : table it = true → dictIsRehashing d = true ∧ 0 <= index it;
  ok_print : at_start it = false → safe it = false → fingerprint it = dictFingerprint table_addr d
}.

(** Rounds left: one per bucket to come. *)
Definition rounds d it : Z :=
  Z.max 0 (zlen (ht_table (ht_at d (table it))) - index it) +
  (if negb (table it) then zlen (ht_table (ht1 d)) + 1 else 0) +
  match entry it with [] => 0 | _ => 1 end.

Lemma ht_size_len (t : ht K V) : wf_ht t → DICTHT_SIZE (ht_size_exp t) = zlen (ht_table t).
Proof.
  intros Ht. destruct (wf_size _ _ _ _ Ht) as [[-> ->]|[He ->]]; [done|].
  rewrite ht_size_pow; [done|lia].
Qed.

Lemma wf_at d t : wf d → wf_ht (ht_at d t).
Proof. intros Hd. destruct t; apply Hd. Qed.

Lemma drop_bucket d t i c : get_bucket (ht_at d t) i = Some c →
  mjoin (drop (Z.to_nat i) (ht_table (ht_at d t))) = c ++ mjoin (drop (Z.to_nat (i + 1)) (ht_table (ht_at d t))).
Proof.
  unfold get_bucket, byte_at. case_if; [|done]. intros Hc. replace (Z.to_nat (i + 1)) with (S (Z.to_nat i)) by lia.
  by rewrite (drop_S _ _ _ Hc).
Qed.

Lemma moved_prefix d : wf d → dictIsRehashing d = true →
  entries (ht0 d) = mjoin (drop (Z.to_nat (rehashidx d)) (ht_table (ht0 d))).
Proof.
  intros Hd Hre. pose proof (wf_rehash _ _ _ _ Hd) as Hr. rewrite Hre in Hr. destruct Hr as ([H0 Hle] & _ & _ & Hemp).
  unfold entries. rewrite <-(take_drop (Z.to_nat (rehashidx d)) (ht_table (ht0 d))) at 1. rewrite join_app.
  rewrite (join_nil_2 (take _ _)); [done|]. apply list.Forall_forall. intros c [i Hi]%list_elem_of_lookup.
  apply lookup_take_Some in Hi as [Hi Hlt]. assert (get_bucket (ht0 d) (Z.of_nat i) = Some c) as E.
  { unfold get_bucket, byte_at. case_if; [|lia]. by rewrite Nat2Z.id. }
  rewrite Hemp in E by lia. congruence.
Qed.

Lemma remaining_start d it : wf d → index it = -1 → table it = false → entry it = [] →
  remaining d it = entries (ht0 d) ++ entries (ht1 d).
Proof.
  intros Hd Hi Ht He. unfold remaining, buckets_after. rewrite He, Ht, Hi. cbn [negb app ht_at]. change (Z.to_nat (-1 + 1)) with 0%nat.
  rewrite drop_0. unfold entries at 2. f_equal. rewrite andb_true_r.
  pose proof (wf_rehash _ _ _ _ Hd) as Hr. destruct (dictIsRehashing d); [done|]. by rewrite Hr.
Qed.

(** The dict during the iteration: a safe iterator pauses it at the first call. *)
Definition iterated d it : dict K V := if at_start it && safe it then dictPauseRehashing d else d.

Lemma iterated_tables d it : ht0 (iterated d it) = ht0 d ∧ ht1 (iterated d it) = ht1 d ∧
  rehashidx (iterated d it) = rehashidx d.
Proof. unfold iterated. by case_if. Qed.

Lemma iterated_wf d it : wf d → wf (iterated d it).
Proof. unfold iterated. case_if; [apply pause_wf|done]. Qed.

Lemma buckets_after_same d d' t i : ht0 d' = ht0 d → ht1 d' = ht1 d → rehashidx d' = rehashidx d →
  buckets_after d' t i = buckets_after d t i.
Proof. intros H0 H1 Hx. unfold buckets_after, dictIsRehashing. rewrite Hx, H1. destruct t; simpl; by rewrite ?H0, ?H1. Qed.

(** The start changes neither what is to be visited nor the tables. *)
Lemma start_spec d it : wf d → it_ok d it → at_start it = true → entry it = [] →
  ∃ it', iter_start table_addr d it = (iterated d it, it') ∧ table it' = false ∧ safe it' = safe it ∧ entry it' = [] ∧
    -1 <= index it' ∧ (safe it' = false → fingerprint it' = dictFingerprint table_addr (iterated d it)) ∧
    buckets_after d false (index it') = buckets_after d (table it) (index it).
Proof.
  intros Hd Hok Hs He. unfold iterated, iter_start. rewrite Hs. simpl. unfold at_start in Hs. zb.
  destruct Hs as [Hi Ht]. zb.
  assert (buckets_after d false (rehashidx d - 1) = buckets_after d (table it) (index it) ∨ dictIsRehashing d = false) as Hba.
  { destruct (dictIsRehashing d) eqn:Hre; [left|by right]. rewrite Ht, Hi. unfold buckets_after. cbn [ht_at]. f_equal.
    change (Z.to_nat (-1 + 1)) with 0%nat. rewrite drop_0. change (mjoin (ht_table (ht0 d))) with (entries (ht0 d)).
    rewrite (moved_prefix d Hd Hre). do 2 f_equal. lia. }
  pose proof (wf_rehash _ _ _ _ Hd) as Hr.
  assert (dictIsRehashing (dictPauseRehashing d) = dictIsRehashing d) as Ep by done.
  destruct (safe it) eqn:Esafe; rewrite ?Ep; destruct (dictIsRehashing d) eqn:Hre; eexists; (split; [done|]); simpl.
  all: split_and!; try done; try lia; try congruence; first [by destruct Hba | by rewrite Ht].
Qed.

Lemma load_spec d it t i : 0 <= i < zlen (ht_table (ht_at d t)) →
  ∃ c, get_bucket (ht_at d t) i = Some c ∧
    iter_load d it t i = Some (mkIter i t (safe it) c (nextEntry it) (fingerprint it)).
Proof.
  intros Hi. destruct (get_bucket_in (ht_at d t) i Hi) as [c Hc]. exists c. split; [done|]. unfold iter_load. by rewrite Hc.
Qed.

Lemma at_start_pos it : 0 <= index it → at_start it = false.
Proof. intros H0. unfold at_start. rewrite (proj2 (Z.eqb_neq _ _)); [done|lia]. Qed.

(** One round moves to the next entry of the chain or to the next bucket. *)
Lemma advance_spec d it : wf d → it_ok d it →
  ∃ it' go, iter_advance table_addr d it = Some (iterated d it, it', go) ∧
    at_start it' = false ∧ safe it' = safe it ∧ 0 <= index it' ∧
    (table it' = true → dictIsRehashing d = true) ∧
    (safe it' = false → fingerprint it' = dictFingerprint table_addr (iterated d it)) ∧
    (if go then entry it' ++ buckets_after d (table it') (index it') = remaining d it ∧
       (entry it' = [] → rounds d it' < rounds d it)
     else remaining d it = [] ∧ remaining d it' = [] ∧ entry it' = []).
Proof.
  intros Hd Hok. pose proof Hok as [Hidx Hnx Htab Hfp]. unfold iter_advance.
  destruct (entry it) as [|e l] eqn:He.
  2:{ destruct Hnx as [Hn H0]; [done|]. pose proof (at_start_pos it H0) as Es.
      exists (mkIter (index it) (table it) (safe it) (nextEntry it) (nextEntry it) (fingerprint it)), true.
      unfold iterated. rewrite Es. simpl. split_and!; try done.
      - intros Ht. by apply Htab.
      - intros Hs. by apply Hfp.
      - unfold remaining. by rewrite He.
      - intros E. unfold rounds. simpl. rewrite E, He. lia. }
  set (it1 := if at_start it then _ else _).
  assert (∃ it', it1 = (iterated d it, it') ∧ table it' = table it ∧ safe it' = safe it ∧ entry it' = [] ∧
    -1 <= index it' ∧ index it <= index it' ∧ (safe it' = false → fingerprint it' = dictFingerprint table_addr (iterated d it)) ∧
    buckets_after d (table it) (index it') = remaining d it)
    as (it' & -> & Ht' & Hs' & He' & Hi' & Hle & Hf' & Hb').
  { unfold remaining. rewrite He. subst it1. destruct (at_start it) eqn:Es.
    - destruct (start_spec d it Hd Hok Es He) as (it' & -> & ? & ? & ? & ? & ? & Hb). unfold at_start in Es. zb. destruct Es as [Ei Et]. zb.
      exists it'. rewrite Et in *. split_and!; try done; lia.
    - exists it. unfold iterated. rewrite Es. simpl. split_and!; try done. by auto. }
  destruct (iterated_tables d it) as (E0 & E1 & Ex).
  assert (∀ t, ht_at (iterated d it) t = ht_at d t) as Eat by (intros []; done).
  assert (dictIsRehashing (iterated d it) = dictIsRehashing d) as Er by (unfold dictIsRehashing; by rewrite Ex).
  simpl. rewrite Ht', Eat, Er, (ht_size_len _ (wf_at d (table it) Hd)).
  set (n := zlen (ht_table (ht_at d (table it)))). assert (0 <= n) by apply zlen_nonneg.
  destruct (n <=? index it' + 1) eqn:En; zb.
  - assert (mjoin (drop (Z.to_nat (index it' + 1)) (ht_table (ht_at d (table it)))) = []) as Hdrop.
    { rewrite drop_ge; [done|]. unfold n, zlen in *. lia. }
    destruct (dictIsRehashing d && negb (table it)) eqn:Eg.
    + apply andb_true_iff in Eg as [Hre Ht]. apply negb_true_iff in Ht.
      pose proof (wf_rehash _ _ _ _ Hd) as Hr. rewrite Hre in Hr. destruct Hr as (_ & _ & He1 & _).
      assert (0 < zlen (ht_table (ht1 d))).
      { rewrite <-(ht_size_len (ht1 d)) by apply Hd. rewrite ht_size_pow by done. lia. }
      edestruct (load_spec (iterated d it) (mkIter (index it' + 1) (table it) (safe it') (entry it') (nextEntry it') (fingerprint it'))
        true 0) as (c & Hc & ->); [simpl; rewrite E1; lia|]. cbn [mbind option_bind].
      eexists _, true. split; [done|]. simpl. split_and!; try done.
      * rewrite <-Hb'. unfold buckets_after. rewrite Hdrop, Hre, Ht. cbn [negb andb]. rewrite app_nil_r. simpl ht_at.
        symmetry. apply (drop_bucket d true 0 c). by rewrite <-(Eat true).
      * intros ->. unfold rounds. simpl. rewrite Ht, He. cbn [negb ht_at].
        pose proof (zlen_nonneg (ht_table (ht1 d))). lia.
    + eexists _, false. split; [done|]. simpl. split_and!; try done; [apply at_start_pos; simpl; lia|lia|by apply Htab| |].
      * rewrite <-Hb'. unfold buckets_after. by rewrite Hdrop, Eg.
      * unfold remaining. rewrite He'. simpl. unfold buckets_after. rewrite Eg, drop_ge; [done|]. unfold n, zlen in *. lia.
  - edestruct (load_spec (iterated d it) (mkIter (index it' + 1) (table it) (safe it') (entry it') (nextEntry it') (fingerprint it'))
      (table it) (index it' + 1)) as (c & Hc & ->); [rewrite Eat; fold n; lia|]. cbn [mbind option_bind].
    eexists _, true. split; [done|]. simpl. split_and!; try done; [apply at_start_pos; simpl; lia|lia|by apply Htab| |].
    + rewrite <-Hb'. unfold buckets_after. rewrite app_assoc. f_equal. symmetry.
      apply drop_bucket. by rewrite <-Eat.
    + intros ->. unfold rounds. simpl. rewrite He. fold n. lia.
Qed.

Lemma loop_spec fuel d it : wf d → it_ok d it → rounds d it < Z.of_nat fuel →
  ∃ it', next_loop table_addr fuel d it = Some (iterated d it, it', head (remaining d it)) ∧
    it_ok (iterated d it) it' ∧ at_start it' = false ∧ safe it' = safe it ∧
    remaining (iterated d it) it' = tail (remaining d it).
Proof.
  revert d it. induction fuel as [|fuel IH]; intros d it Hd Hok Hf.
  { exfalso. unfold rounds in Hf. pose proof (zlen_nonneg (ht_table (ht1 d))).
    destruct (negb (table it)), (entry it); lia. }
  cbn [next_loop]. destruct (advance_spec d it Hd Hok) as (it' & go & -> & Hst & Hs & H0 & Ht & Hfp & Hgo).
  cbn [mbind option_bind]. destruct (iterated_tables d it) as (E0 & E1 & Ex).
  assert (dictIsRehashing (iterated d it) = dictIsRehashing d) as Er by (unfold dictIsRehashing; by rewrite Ex).
  assert (∀ i, remaining (iterated d it) i = remaining d i) as Erem.
  { intros i. unfold remaining. by rewrite (buckets_after_same d (iterated d it)). }
  destruct go; simpl.
  - destruct Hgo as [Hrem Hdec]. destruct (entry it') as [|e l] eqn:He.
    + assert (it_ok (iterated d it) it') as Hok'.
      { constructor; [lia|by rewrite He|rewrite Er; auto|auto]. }
      assert (iterated (iterated d it) it' = iterated d it) as Eii by (unfold iterated at 1; by rewrite Hst).
      destruct (IH (iterated d it) it') as (it2 & E & Hok2 & Hst2 & Hs2 & Hr2); [by apply iterated_wf|done| |].
      { unfold rounds in *. rewrite E1. replace (ht_at (iterated d it) (table it')) with (ht_at d (table it')) by (by destruct (table it')).
        specialize (Hdec eq_refl). lia. }
      rewrite Eii in *. assert (remaining (iterated d it) it' = remaining d it) as Erit.
      { rewrite Erem, <-Hrem. unfold remaining. by rewrite He. }
      exists it2. rewrite E, Hs2, Hr2, Erit. by split_and!.
    + exists (mkIter (index it') (table it') (safe it') (e :: l) l (fingerprint it')). rewrite <-Hrem. split; [done|].
      split_and!; [|done|done|].
      * constructor; simpl; [lia|done|rewrite Er; auto|auto].
      * rewrite Erem. done.
  - destruct Hgo as (Hrem & Hrem' & He). exists it'. rewrite Hrem, Erem, Hrem'. split_and!; try done.
    constructor; [lia|by rewrite He|rewrite Er; auto|auto].
Qed.

Lemma dictNext_spec d it : wf d → it_ok d it →
  ∃ it', dictNext table_addr d it = Some (iterated d it, it', head (remaining d it)) ∧
    it_ok (iterated d it) it' ∧ at_start it' = false ∧ safe it' = safe it ∧
    remaining (iterated d it) it' = tail (remaining d it).
Proof.
  intros Hd Hok. apply loop_spec; [done|done|]. pose proof Hok as [Hi Hn Ht _]. unfold rounds.
  assert (ht_at d (table it) = if table it then ht1 d else ht0 d) as -> by done. unfold zlen.
  destruct (entry it) eqn:He.
  - destruct (table it); cbn [negb]; lia.
  - destruct Hn as [_ Hn]; [done|]. destruct (table it); cbn [negb]; lia.
Qed.

Lemma iterated_later d it : at_start it = false → iterated d it = d.
Proof. intros Hs. unfold iterated. by rewrite Hs. Qed.

Lemma iterate_remaining fuel d it : wf d → it_ok d it → (length (remaining d it) < fuel)%nat →
  ∃ it', iterate table_addr fuel d it = Some (iterated d it, it', remaining d it) ∧
    it_ok (iterated d it) it' ∧ at_start it' = false ∧ safe it' = safe it.
Proof.
  revert d it. induction fuel as [|fuel IH]; intros d it Hd Hok Hf; [lia|]. cbn [iterate].
  destruct (dictNext_spec d it Hd Hok) as (it1 & -> & Hok1 & Hst1 & Hs1 & Hr1). cbn [mbind option_bind].
  destruct (remaining d it) as [|e l] eqn:Hrem; [by exists it1|]. simpl in *.
  destruct (IH (iterated d it) it1) as (it2 & -> & Hok2 & Hst2 & Hs2); [by apply iterated_wf|done|rewrite Hr1; lia|].
  rewrite (iterated_later _ _ Hst1), Hr1 in *. exists it2. split_and!; [done|done|done|congruence].
Qed.

Definition get_iterator (s : bool) : dictIterator K V := if s then dictGetSafeIterator else dictGetIterator.

Lemma get_iterator_ok d s : it_ok d (get_iterator s).
Proof. by destruct s; constructor. Qed.

Lemma get_iterator_remaining d s : wf d → remaining d (get_iterator s) = entries (ht0 d) ++ entries (ht1 d).
Proof. intros Hd. apply remaining_start; [done|by destruct s..]. Qed.

Lemma release_done d it d0 : it_ok d it → at_start it = false → 0 <= pauserehash d0 < 2 ^ 15 →
  d = (if safe it then dictPauseRehashing d0 else d0) → dictReleaseIterator table_addr d it = Some d0.
Proof.
  intros Hok Hst Hp ->. unfold dictReleaseIterator, dictResetIterator. rewrite Hst. simpl.
  destruct (safe it) eqn:Hs.
  - f_equal. destruct d0 as [? ? ? p ? ?]. unfold dictResumeRehashing, dictPauseRehashing. simpl in *. f_equal.
    unfold uwrap. rewrite Zminus_mod_idemp_l. replace (p + 1 - 1) with p by lia. by apply Z.mod_small.
  - rewrite (ok_print _ _ Hok Hst Hs). by rewrite Z.eqb_refl.
Qed.

(** (C26) An iterator gives every entry of the dict exactly once, also in the
    middle of a rehash, and then NULL; when the dict is left alone the assertion of
    an unsafe iterator holds at its release, and a safe one leaves the dict as it
    found it. *)
Theorem dictIterator_correct d s :
  wf d → 0 <= pauserehash d < 2 ^ 15 →
  ∃ d' it' l, iterate table_addr (S (Z.to_nat (dictSize d))) d (get_iterator s) = Some (d', it', l) ∧
    kv content <$> l = contents content d ∧ NoDup (ck content <$> l) ∧
    (∀ c, c ∈ (ck content <$> l) ↔ is_Some (to_map content d !! c)) ∧
    dictReleaseIterator table_addr d' it' = Some d.
Proof.
  intros Hd Hp. destruct (iterate_remaining (S (Z.to_nat (dictSize d))) d (get_iterator s) Hd (get_iterator_ok d s))
    as (it' & E & Hok & Hst & Hs).
  { rewrite get_iterator_remaining by done. rewrite (contents_size type content hash_of d Hd). unfold contents, zlen.
    rewrite length_fmap. lia. }
  rewrite get_iterator_remaining in E by done. eexists _, it', _. split; [exact E|].
  assert (ck content <$> entries (ht0 d) ++ entries (ht1 d) = (contents content d).*1) as Eck.
  { unfold contents. by rewrite <-list_fmap_compose. }
  rewrite Eck. split_and!; [done|apply Hd| |].
  - intros c. unfold to_map. split.
    + intros ([c' v] & -> & Hin)%list_elem_of_fmap. exists v. apply elem_of_list_to_map_1; [apply Hd|done].
    + intros [v Hv]. apply elem_of_list_to_map_2 in Hv. apply list_elem_of_fmap. by exists (c, v).
  - apply release_done; [done|done|done|]. rewrite Hs. unfold iterated. by destruct s.
Qed.
End IterProofs.
End DictIter.
