(* ===== verification/DictScan.v ===== *)
(** * Scanning a hash table (src/redis-stable/src/dict.c, dictScan)

    A scan is a sequence of calls, each of which emits the entries of a few
    buckets and returns a cursor for the next call; the table may be resized
    and rehashed between the calls.  The cursor counts in reversed bits.  The
    callback is modelled by the list of entries it is called on. *)

From stdpp Require Import gmap.
From S2P Require Import Prelude Dict DictProofs.

Module DictScan.
Import Dict DictProofs.

(** [while ((s >>= 1) > 0)] of rev *)
Fixpoint rev_loop (fuel : nat) (s mask v : Z) : Z :=
  match fuel with
  | O => v
  | S fuel =>
      let s := Z.shiftr s 1 in
      if 0 <? s then
        let mask := Z.lxor mask (uwrap 64 (Z.shiftl mask s)) in
        rev_loop fuel s mask
          (Z.lor (Z.land (Z.shiftr v s) mask)
                 (Z.land (uwrap 64 (Z.shiftl v s)) (uwrap 64 (Z.lnot mask))))
      else v
  end.

Definition rev (v : Z) : Z := rev_loop 7 64 (2 ^ 64 - 1) v.

(** [v |= ~m; v = rev(v); v++; v = rev(v);] *)
Definition next_cursor (v m : Z) : Z :=
  let v := Z.lor v (uwrap 64 (Z.lnot m)) in
  rev (uwrap 64 (rev v + 1)).

Section Scan.
Context {K V : Type} `{EqDecision K}.

(** The [do ... while (v & (m0 ^ m1))] over the larger table. *)
Fixpoint scan_loop (fuel : nat) (t1 : ht K V) (m0 m1 v : Z) : option (list (dictEntry K V) * Z) :=
  match fuel with
  | O => None
  | S fuel =>
      c ← get_bucket t1 (Z.land v m1);
      let v := next_cursor v m1 in
      if Z.land v (Z.lxor m0 m1) =? 0 then Some (c, v)
      else '(l, v) ← scan_loop fuel t1 m0 m1 v; Some (c ++ l, v)
  end.

Definition dictScanDefrag (d : dict K V) (v : Z) : option (dict K V * list (dictEntry K V) * Z) :=
  if dictSize d =? 0 then Some (d, [], 0)
  else
    let d := dictPauseRehashing d in
    '(l, v) ←
      (if negb (dictIsRehashing d) then
         let m0 := DICTHT_SIZE_MASK (ht_size_exp (ht0 d)) in
         c ← get_bucket (ht0 d) (Z.land v m0);
         Some (c, next_cursor v m0)
       else
         let swap := DICTHT_SIZE (ht_size_exp (ht1 d)) <? DICTHT_SIZE (ht_size_exp (ht0 d)) in
         let t0 := ht_at d swap in
         let t1 := ht_at d (negb swap) in
         let m0 := DICTHT_SIZE_MASK (ht_size_exp t0) in
         let m1 := DICTHT_SIZE_MASK (ht_size_exp t1) in
         c ← get_bucket t0 (Z.land v m0);
         '(l, v) ← scan_loop (S (length (ht_table t1))) t1 m0 m1 v;
         Some (c ++ l, v));
    Some (dictResumeRehashing d, l, v).

Definition dictScan (d : dict K V) (v : Z) : option (dict K V * list (dictEntry K V) * Z) :=
  dictScanDefrag d v.

End Scan.

(** ** Bit reversal *)

Definition swap_bits (s mask v : Z) : Z :=
  Z.lor (Z.land (Z.shiftr v s) mask) (Z.land (uwrap 64 (Z.shiftl v s)) (uwrap 64 (Z.lnot mask))).

Lemma uwrap_bit w v i : 0 <= w → Z.testbit (uwrap w v) i = (i <? w) && Z.testbit v i.
Proof.
  intros Hw. unfold uwrap. destruct (Z.ltb_spec i w); simpl.
  - destruct (Z.lt_ge_cases i 0); [by rewrite !Z.testbit_neg_r|]. by apply Z.mod_pow2_bits_low.
  - apply Z.mod_pow2_bits_high. lia.
Qed.

Lemma swap_bits_spec s mask v i :
  0 <= s → 0 <= i < 64 →
  Z.testbit (swap_bits s mask v) i =
    if Z.testbit mask i then Z.testbit v (i + s) else Z.testbit v (i - s).
Proof.
  intros Hs Hi. unfold swap_bits.
  rewrite Z.lor_spec, !Z.land_spec, Z.shiftr_spec, !uwrap_bit, Z.shiftl_spec, Z.lnot_spec by lia.
  rewrite (proj2 (Z.ltb_lt i 64)) by lia. simpl.
  destruct (Z.testbit mask i); simpl.
  - by rewrite andb_true_r, andb_false_r, orb_false_r.
  - by rewrite andb_false_r, andb_true_r.
Qed.

Lemma rev_swaps v :
  rev v = swap_bits 1 0x5555555555555555 (swap_bits 2 0x3333333333333333
    (swap_bits 4 0x0F0F0F0F0F0F0F0F (swap_bits 8 0x00FF00FF00FF00FF
    (swap_bits 16 0x0000FFFF0000FFFF (swap_bits 32 0x00000000FFFFFFFF v))))).
Proof. reflexivity. Qed.


(** Where each bit comes from, step by step. *)
Definition source_bit (s mask i : Z) : Z := if Z.testbit mask i then i + s else i - s.

Definition in_word (i : Z) : bool := (0 <=? i) && (i <? 64).

Fixpoint trace_bit (steps : list (Z * Z)) (i : Z) : option Z :=
  match steps with
  | [] => if in_word i then Some i else None
  | (s, mask) :: steps => if in_word i then trace_bit steps (source_bit s mask i) else None
  end.

Definition rev_steps : list (Z * Z) :=
  [(1, 0x5555555555555555); (2, 0x3333333333333333); (4, 0x0F0F0F0F0F0F0F0F);
   (8, 0x00FF00FF00FF00FF); (16, 0x0000FFFF0000FFFF); (32, 0x00000000FFFFFFFF)].

Lemma trace_bit_spec steps v i j :
  Forall (λ x, 0 <= x.1) steps → trace_bit steps i = Some j →
  Z.testbit (foldr (λ x w, swap_bits x.1 x.2 w) v steps) i = Z.testbit v j.
Proof.
  intros Hs. revert i. induction Hs as [|[s mask] steps H0 Hs IH]; intros i; simpl.
  - case_if; [|done]. by intros [= ->].
  - case_if; [|done]. intros Ht. unfold in_word in *. rewrite swap_bits_spec by (simpl in *; lia).
    rewrite <- (IH _ Ht). unfold source_bit. by destruct (Z.testbit mask i).
Qed.

Lemma rev_bit v i : 0 <= i < 64 → Z.testbit (rev v) i = Z.testbit v (63 - i).
Proof.
  intros Hi. rewrite rev_swaps. apply (trace_bit_spec rev_steps); [by repeat constructor|].
  assert (Hall : forallb (λ i, bool_decide (trace_bit rev_steps i = Some (63 - i))) (seqZ 0 64) = true)
    by by vm_compute.
  rewrite forallb_forall in Hall. specialize (Hall i).
  rewrite <- list_elem_of_In, elem_of_seqZ in Hall. specialize (Hall ltac:(lia)).
  by apply bool_decide_eq_true in Hall.
Qed.

(** ** Words as reversed positions *)

Definition word (v : Z) : Prop := 0 <= v < 2 ^ 64.

Lemma word_high v i : word v → 64 <= i → Z.testbit v i = false.
Proof.
  intros [H0 Hv] Hi. rewrite <- (Z.mod_small v (2 ^ 64)) by done. by apply Z.mod_pow2_bits_high.
Qed.

Lemma word_bits v : (∀ i, 64 <= i → Z.testbit v i = false) → 0 <= v → word v.
Proof.
  intros Hv H0. split; [done|]. assert (v = v mod 2 ^ 64) as ->; [|apply Z.mod_pos_bound; lia].
  apply Z.bits_inj'. intros n Hn. destruct (Z.lt_ge_cases n 64).
  - by rewrite Z.mod_pow2_bits_low.
  - rewrite Z.mod_pow2_bits_high by lia. by apply Hv.
Qed.

Lemma word_eq x y : word x → word y → (∀ i, 0 <= i < 64 → Z.testbit x i = Z.testbit y i) → x = y.
Proof.
  intros Hx Hy He. apply Z.bits_inj'. intros i Hi. destruct (Z.lt_ge_cases i 64); [by apply He|].
  by rewrite !word_high.
Qed.

Lemma uwrap_word v : word (uwrap 64 v).
Proof. by apply Z.mod_pos_bound. Qed.

Lemma rev_word v : word v → word (rev v).
Proof.
  intros Hv. assert (Hn : 0 <= rev v).
  { rewrite rev_swaps. unfold swap_bits at 1. apply Z.lor_nonneg. split; apply Z.land_nonneg.
    - by right.
    - right. apply uwrap_word. }
  apply word_bits; [|done]. intros i Hi. rewrite rev_swaps. unfold swap_bits at 1.
  rewrite Z.lor_spec, !Z.land_spec, !uwrap_bit, (proj2 (Z.ltb_ge i 64)) by lia. simpl.
  rewrite (word_high 0x5555555555555555 i); [by rewrite andb_false_r|by vm_compute|done].
Qed.

Lemma rev_rev v : word v → rev (rev v) = v.
Proof.
  intros Hv. apply word_eq; [by apply rev_word, rev_word|done|]. intros i Hi.
  rewrite !rev_bit by lia. f_equal. lia.
Qed.

Lemma rev_0 : rev 0 = 0.
Proof. by vm_compute. Qed.

Lemma rev_zero v : word v → rev v = 0 → v = 0.
Proof. intros Hv Hr. by rewrite <- (rev_rev v Hv), Hr, rev_0. Qed.

Lemma pow_split e : 0 <= e <= 63 → 2 ^ 64 = 2 ^ e * 2 ^ (64 - e) ∧ 0 < 2 ^ (64 - e).
Proof.
  intros He. split; [|apply Z.pow_pos_nonneg; lia]. rewrite <- Z.pow_add_r by lia. f_equal. lia.
Qed.

Lemma mask_ones e : 0 <= e → DICTHT_SIZE_MASK e = Z.ones e.
Proof.
  intros He. unfold DICTHT_SIZE_MASK. case_if; [lia|]. rewrite ht_size_pow by done.
  rewrite Z.ones_equiv. lia.
Qed.

(** The end of the interval of length [2 ^ (64 - e)] that holds [r]. *)
Definition interval_end (r e : Z) : Z := (r / 2 ^ (64 - e) + 1) * 2 ^ (64 - e).

Lemma interval_end_bounds r e :
  word r → 0 <= e <= 63 → r < interval_end r e <= 2 ^ 64.
Proof.
  intros [H0 Hr] He. destruct (pow_split e He) as [Hp Hw]. unfold interval_end.
  pose proof (Z.mul_succ_div_gt r _ Hw). split; [lia|].
  assert (r / 2 ^ (64 - e) < 2 ^ e) by (apply Z.div_lt_upper_bound; lia). rewrite Hp. nia.
Qed.

(** Advancing the cursor moves its position to the end of the interval. *)
Lemma next_cursor_spec v e :
  word v → 0 <= e <= 63 →
  word (next_cursor v (DICTHT_SIZE_MASK e)) ∧
  rev (next_cursor v (DICTHT_SIZE_MASK e)) = uwrap 64 (interval_end (rev v) e).
Proof.
  intros Hv He. unfold next_cursor. rewrite mask_ones by lia.
  split; [apply rev_word, uwrap_word|]. rewrite rev_rev by apply uwrap_word.
  set (v1 := Z.lor v (uwrap 64 (Z.lnot (Z.ones e)))).
  assert (Hv1 : word v1).
  { apply word_bits.
    - intros i Hi. unfold v1. rewrite Z.lor_spec, uwrap_bit, (proj2 (Z.ltb_ge i 64)) by lia.
      by rewrite word_high.
    - apply Z.lor_nonneg. split; [apply Hv|apply uwrap_word]. }
  destruct (pow_split e He) as [_ Hw].
  assert (rev v1 = rev v / 2 ^ (64 - e) * 2 ^ (64 - e) + (2 ^ (64 - e) - 1)) as ->.
  { rewrite (Z.add_comm (_ * _)).
    rewrite <- (lor_shiftl (2 ^ (64 - e) - 1) (rev v / 2 ^ (64 - e)) (64 - e)) by lia.
    replace (2 ^ (64 - e) - 1) with (Z.ones (64 - e)) by (rewrite Z.ones_equiv; lia).
    pose proof (rev_word v Hv) as Hrv.
    apply word_eq; [by apply rev_word| |].
    - apply word_bits.
      + intros i Hi. rewrite Z.lor_spec, Z.shiftl_spec, Z.testbit_ones by lia.
        rewrite Z.div_pow2_bits by lia. rewrite word_high by (done || lia).
        rewrite orb_false_r, andb_false_iff, Z.ltb_ge. lia.
      + apply Z.lor_nonneg. split; [rewrite Z.ones_equiv; lia|]. apply Z.shiftl_nonneg.
        apply Z.div_pos; [apply Hrv|lia].
    - intros i Hi. rewrite rev_bit by done. unfold v1.
      rewrite !Z.lor_spec, uwrap_bit, (proj2 (Z.ltb_lt (63 - i) 64)), Z.lnot_spec by lia.
      rewrite !Z.testbit_ones, Z.shiftl_spec by lia. simpl.
      rewrite (proj2 (Z.leb_le 0 (63 - i))), (proj2 (Z.leb_le 0 i)) by lia. simpl.
      destruct (Z.ltb_spec (63 - i) e), (Z.ltb_spec i (64 - e)); try lia; simpl.
      rewrite orb_false_r, Z.div_pow2_bits by lia. rewrite rev_bit by lia. f_equal. lia. }
  f_equal. unfold interval_end. lia.
Qed.

(** Positions in one interval are in one bucket. *)
Lemma same_bucket h v e :
  0 <= e <= 63 → rev h / 2 ^ (64 - e) = rev v / 2 ^ (64 - e) →
  Z.land h (DICTHT_SIZE_MASK e) = Z.land v (DICTHT_SIZE_MASK e).
Proof.
  intros He Hq. rewrite mask_ones by lia. apply Z.bits_inj'. intros i Hi.
  rewrite !Z.land_spec, Z.testbit_ones by lia. rewrite (proj2 (Z.leb_le 0 i)) by lia. simpl.
  destruct (Z.ltb_spec i e); [|by rewrite !andb_false_r]. rewrite !andb_true_r.
  replace i with (63 - (63 - i)) by lia. rewrite <- (rev_bit h), <- (rev_bit v) by lia.
  replace (63 - i) with (e - 1 - i + (64 - e)) by lia.
  rewrite <- !Z.div_pow2_bits by lia. by rewrite Hq.
Qed.

Lemma mod_pow_bits x k : 0 <= k → (x mod 2 ^ k = 0 ↔ ∀ i, 0 <= i < k → Z.testbit x i = false).
Proof.
  intros Hk. split.
  - intros Hx i Hi. rewrite <- (Z.mod_pow2_bits_low x k) by lia. by rewrite Hx, Z.testbit_0_l.
  - intros Hx. apply Z.bits_inj'. intros i Hi. rewrite Z.testbit_0_l.
    destruct (Z.lt_ge_cases i k); [|by apply Z.mod_pow2_bits_high].
    rewrite Z.mod_pow2_bits_low by done. by apply Hx.
Qed.

(** The test that ends the loop over the larger table. *)
Lemma loop_test v e0 e1 :
  0 <= e0 <= e1 → e1 <= 63 → rev v mod 2 ^ (64 - e1) = 0 →
  (Z.land v (Z.lxor (DICTHT_SIZE_MASK e0) (DICTHT_SIZE_MASK e1)) = 0 ↔ rev v mod 2 ^ (64 - e0) = 0).
Proof.
  intros He H1 Hm. rewrite !mask_ones by lia. rewrite mod_pow_bits in Hm by lia.
  rewrite mod_pow_bits by lia. split.
  - intros Hl i Hi. destruct (Z.lt_ge_cases i (64 - e1)); [apply Hm; lia|].
    assert (Hb : Z.testbit (Z.land v (Z.lxor (Z.ones e0) (Z.ones e1))) (63 - i) = false)
      by (by rewrite Hl, Z.testbit_0_l).
    rewrite Z.land_spec, Z.lxor_spec, !Z.testbit_ones in Hb by lia.
    rewrite (proj2 (Z.leb_le 0 (63 - i))), (proj2 (Z.ltb_ge (63 - i) e0)),
      (proj2 (Z.ltb_lt (63 - i) e1)) in Hb by lia.
    simpl in Hb. rewrite andb_true_r in Hb. by rewrite rev_bit by lia.
  - intros Hb. apply Z.bits_inj'. intros i Hi. rewrite Z.testbit_0_l.
    rewrite Z.land_spec, Z.lxor_spec, !Z.testbit_ones by lia. rewrite (proj2 (Z.leb_le 0 i)) by lia.
    destruct (Z.ltb_spec i e0), (Z.ltb_spec i e1); try lia; simpl; rewrite ?andb_false_r; try done.
    rewrite andb_true_r. replace i with (63 - (63 - i)) by lia. rewrite <- rev_bit by lia.
    apply Hb. lia.
Qed.

(** *** Intervals of the two tables *)

Section Intervals.
Context (r e0 e1 : Z) (Hr : word r) (He : 0 <= e0 <= e1) (He1 : e1 <= 63).

Lemma width_split : 2 ^ (64 - e0) = 2 ^ (e1 - e0) * 2 ^ (64 - e1) ∧ 0 < 2 ^ (e1 - e0) ∧ 0 < 2 ^ (64 - e1).
Proof using He He1.
  split_and!; [|apply Z.pow_pos_nonneg; lia|apply Z.pow_pos_nonneg; lia].
  rewrite <- Z.pow_add_r by lia. f_equal. lia.
Qed.

Lemma end_div : interval_end r e0 / 2 ^ (64 - e1) = (r / 2 ^ (64 - e0) + 1) * 2 ^ (e1 - e0).
Proof using He He1.
  destruct width_split as (Hw & _ & Hp). unfold interval_end. rewrite Hw at 2.
  by rewrite Z.mul_assoc, Z.div_mul by lia.
Qed.

Lemma end_mult : interval_end r e0 = interval_end r e0 / 2 ^ (64 - e1) * 2 ^ (64 - e1).
Proof using He He1.
  destruct width_split as (Hw & _ & Hp). rewrite end_div. unfold interval_end. rewrite Hw at 2. lia.
Qed.

Lemma steps_pos : r / 2 ^ (64 - e1) < interval_end r e0 / 2 ^ (64 - e1).
Proof using Hr He He1.
  pose proof (interval_end_bounds r e0 Hr ltac:(lia)) as [Hlt _]. rewrite end_mult in Hlt.
  destruct width_split as (_ & _ & Hp). apply Z.div_lt_upper_bound; lia.
Qed.

Lemma inner_le : interval_end r e1 <= interval_end r e0.
Proof using Hr He He1.
  rewrite end_mult. pose proof steps_pos. destruct width_split as (_ & _ & Hp).
  unfold interval_end at 1. nia.
Qed.

Lemma inner_div : interval_end r e1 / 2 ^ (64 - e1) = r / 2 ^ (64 - e1) + 1.
Proof using He He1.
  destruct width_split as (_ & _ & Hp). unfold interval_end. by rewrite Z.div_mul by lia.
Qed.

Lemma inner_mod : uwrap 64 (interval_end r e1) mod 2 ^ (64 - e1) = 0.
Proof using He He1.
  destruct (pow_split e1) as [Hp Hw]; [lia|]. unfold uwrap. rewrite Hp, (Z.mul_comm (2 ^ e1)).
  rewrite Z.rem_mul_r, (Z.mul_comm (2 ^ (64 - e1)) (_ mod _)), Z.mod_add, Z.mod_mod by lia.
  unfold interval_end. by rewrite Z.mod_mul by lia.
Qed.

Lemma outer_mod : uwrap 64 (interval_end r e1) mod 2 ^ (64 - e0) = 0 ↔ interval_end r e1 = interval_end r e0.
Proof using Hr He He1.
  destruct (pow_split e0) as [Hp Hw]; [lia|]. unfold uwrap. rewrite Hp, (Z.mul_comm (2 ^ e0)).
  rewrite Z.rem_mul_r, (Z.mul_comm (2 ^ (64 - e0)) (_ mod _)), Z.mod_add, Z.mod_mod by lia. split.
  - intros Hz. apply Z.div_exact in Hz; [|lia]. pose proof inner_le as Hle.
    pose proof (interval_end_bounds r e1 Hr ltac:(lia)) as [Hlt _].
    unfold interval_end at 2. unfold interval_end at 2 in Hle.
    set (q := interval_end r e1 / 2 ^ (64 - e0)) in *.
    assert (r / 2 ^ (64 - e0) < q); [apply Z.div_lt_upper_bound; lia|nia].
  - intros ->. unfold interval_end. by rewrite Z.mod_mul by lia.
Qed.

Lemma outer_same : interval_end r e1 ≠ interval_end r e0 →
  word (interval_end r e1) ∧ interval_end (interval_end r e1) e0 = interval_end r e0.
Proof using Hr He He1.
  intros Hne. pose proof inner_le as Hle. destruct (pow_split e0) as [Hp Hw]; [lia|].
  pose proof (interval_end_bounds r e1 Hr ltac:(lia)) as [Hlt _].
  pose proof (interval_end_bounds r e0 Hr ltac:(lia)) as [_ HE]. destruct Hr as [H0 _].
  split; [split; lia|]. set (N := interval_end r e1) in *. unfold interval_end. do 2 f_equal.
  unfold interval_end in Hle, Hne. pose proof (Z.mul_div_le r _ Hw).
  symmetry. eapply Z.div_unique_pos with (r := _ - _); [|symmetry; apply Zplus_minus]. lia.
Qed.

(** The table has as many buckets as a whole pass needs. *)
Lemma loop_fuel (n : nat) : Z.of_nat n = 2 ^ e1 →
  interval_end r e0 / 2 ^ (64 - e1) - r / 2 ^ (64 - e1) <= Z.of_nat (S n).
Proof using Hr He He1.
  intros Hn. destruct (pow_split e1) as [Hp Hw]; [lia|].
  pose proof (interval_end_bounds r e0 Hr ltac:(lia)) as [_ Hle].
  assert (interval_end r e0 / 2 ^ (64 - e1) <= 2 ^ e1).
  { apply Z.div_le_upper_bound; lia. }
  pose proof (Z.div_pos r (2 ^ (64 - e1)) ltac:(apply Hr) Hw). lia.
Qed.
End Intervals.

(** ** One call *)

Section ScanProofs.
Context {K V C : Type} `{EqDecision K} `{Countable C}.
Context (type : dictType K V) (content : K → C) (hash_of : C → Z).

Abbreviation wf := (wf type content hash_of).
Abbreviation wf_ht := (wf_ht type content hash_of).

(** The position of an entry in the order of the scan. *)
Definition position (x : dictEntry K V) : Z := rev (hash_of (ck content x)).

Definition ht_entries (d : dict K V) : list (dictEntry K V) := entries (ht0 d) ++ entries (ht1 d).

(** The entries of a table in the interval of the cursor are in its bucket. *)
Lemma bucket_entries t v c x :
  wf_ht t → 0 <= ht_size_exp t → get_bucket t (Z.land v (DICTHT_SIZE_MASK (ht_size_exp t))) = Some c →
  x ∈ entries t → rev v <= position x < interval_end (rev v) (ht_size_exp t) → x ∈ c.
Proof.
  intros Ht He Hc Hx [Hlo Hhi]. destruct (wf_size _ _ _ _ Ht) as [[? _]|[Hr _]]; [lia|].
  destruct (pow_split (ht_size_exp t)) as [_ Hw]; [lia|].
  destruct (entry_in_bucket type content hash_of t x Ht Hx) as (b & Hb & Hxb).
  assert (Hq : rev (hash_of (ck content x)) / 2 ^ (64 - ht_size_exp t) = rev v / 2 ^ (64 - ht_size_exp t)).
  { unfold position, interval_end in *. pose proof (Z.mul_div_le (rev v) _ Hw). symmetry.
    eapply Z.div_unique_pos with (r := _ - _); [|symmetry; apply Zplus_minus]. lia. }
  unfold home in Hb. rewrite (same_bucket _ v _ Hr Hq), Hc in Hb. by injection Hb as ->.
Qed.

Lemma bucket_cursor t v :
  wf_ht t → 0 <= ht_size_exp t →
  ∃ c, get_bucket t (Z.land v (DICTHT_SIZE_MASK (ht_size_exp t))) = Some c.
Proof.
  intros Ht He. apply get_bucket_in. pose proof (bucket_range v _ He).
  destruct (wf_size _ _ _ _ Ht) as [[? _]|[_ ->]]; lia.
Qed.

Lemma scan_loop_S fuel (t1 : ht K V) m0 m1 v c :
  get_bucket t1 (Z.land v m1) = Some c →
  scan_loop (S fuel) t1 m0 m1 v =
    if Z.land (next_cursor v m1) (Z.lxor m0 m1) =? 0 then Some (c, next_cursor v m1)
    else '(l, v) ← scan_loop fuel t1 m0 m1 (next_cursor v m1); Some (c ++ l, v).
Proof. intros Hc. cbn [scan_loop]. by rewrite Hc. Qed.

(** The loop over the larger table emits its entries from the cursor to the end
    of the interval of the smaller table. *)
Lemma scan_loop_spec fuel t1 e0 v :
  wf_ht t1 → 0 <= e0 <= ht_size_exp t1 → word v →
  interval_end (rev v) e0 / 2 ^ (64 - ht_size_exp t1) - rev v / 2 ^ (64 - ht_size_exp t1)
    <= Z.of_nat fuel →
  ∃ l v', scan_loop fuel t1 (DICTHT_SIZE_MASK e0) (DICTHT_SIZE_MASK (ht_size_exp t1)) v = Some (l, v') ∧
    word v' ∧ rev v' = uwrap 64 (interval_end (rev v) e0) ∧
    (∀ x, x ∈ entries t1 → rev v <= position x < interval_end (rev v) e0 → x ∈ l) ∧
    (∀ x, x ∈ l → x ∈ entries t1).
Proof.
  intros Ht He. revert v.
  assert (He1 : ht_size_exp t1 <= 63) by (destruct (wf_size _ _ _ _ Ht) as [[? _]|[? _]]; lia).
  induction fuel as [|fuel IH]; intros v Hv Hfu; pose proof (rev_word v Hv) as Hrv.
  { pose proof (steps_pos (rev v) e0 _ Hrv He He1). lia. }
  destruct (bucket_cursor t1 v Ht) as [c Hc]; [lia|]. rewrite (scan_loop_S _ _ _ _ _ _ Hc).
  destruct (next_cursor_spec v (ht_size_exp t1) Hv) as [Hv1 Hr1]; [lia|].
  generalize dependent (next_cursor v (DICTHT_SIZE_MASK (ht_size_exp t1))). intros v1 Hv1 Hr1.
  pose proof (inner_le (rev v) e0 _ Hrv He He1) as Hle.
  pose proof (inner_mod (rev v) e0 _ He He1) as Hm. rewrite <- Hr1 in Hm.
  pose proof (loop_test v1 e0 _ He He1 Hm) as Htest. rewrite Hr1, outer_mod in Htest by done.
  assert (Hbucket : ∀ x, x ∈ entries t1 → rev v <= position x < interval_end (rev v) (ht_size_exp t1) → x ∈ c).
  { intros x. apply bucket_entries; [done|lia|done]. }
  destruct (Z.land v1 _ =? 0) eqn:Hz; [apply Z.eqb_eq in Hz|apply Z.eqb_neq in Hz]; rewrite Htest in Hz.
  - exists c, v1. split_and!; [done|done|by rewrite Hr1, Hz| |].
    + intros x Hx Hp. apply Hbucket; [done|lia].
    + intros x Hx. by eapply bucket_entry.
  - destruct (outer_same (rev v) e0 _ Hrv He He1 Hz) as [HN HE].
    rewrite uwrap_id in Hr1 by apply HN.
    destruct (IH v1 Hv1) as (l & v' & -> & Hv' & Hr' & Hl & Hs).
    { rewrite Hr1, HE, inner_div with (e0 := e0) by done. lia. }
    cbn [mbind option_bind]. rewrite Hr1, HE in *. exists (c ++ l), v'. split_and!; [done|done|done| |].
    + intros x Hx Hp. apply elem_of_app.
      destruct (Z.lt_ge_cases (position x) (interval_end (rev v) (ht_size_exp t1)));
        [left; apply Hbucket; [done|lia]|right; apply Hl; [done|lia]].
    + intros x [Hx|Hx]%elem_of_app; [by eapply bucket_entry|by apply Hs].
Qed.

(** Hash functions return 64-bit words. *)
Context (Hword : ∀ c, word (hash_of c)).

Lemma position_word x : word (position x).
Proof using Hword. apply rev_word, Hword. Qed.

(** The size exponent of the table that sets the pace of the scan. *)
Definition scan_exp (d : dict K V) : Z :=
  if dictIsRehashing d then Z.min (ht_size_exp (ht0 d)) (ht_size_exp (ht1 d)) else ht_size_exp (ht0 d).

Lemma pause_resume (d : dict K V) :
  0 <= pauserehash d < 2 ^ 15 → dictResumeRehashing (dictPauseRehashing d) = d.
Proof using.
  intros Hp. destruct d as [t0 t1 idx p u a]. unfold dictResumeRehashing, dictPauseRehashing, uwrap.
  simpl in *. f_equal. rewrite Zminus_mod_idemp_l, Z.add_simpl_r. by apply Z.mod_small.
Qed.

Lemma size_lt e0 e1 : 0 <= e0 → 0 <= e1 → (DICTHT_SIZE e1 <? DICTHT_SIZE e0) = (e1 <? e0).
Proof using.
  intros H0 H1. rewrite !ht_size_pow by done. apply eq_true_iff_eq. rewrite !Z.ltb_lt.
  symmetry. apply Z.pow_lt_mono_r_iff; lia.
Qed.

(** What has to be shown once the end of the interval is known. *)
Lemma scan_end (all l : list (dictEntry K V)) v v' e :
  word v → 0 <= e <= 63 → word v' → rev v' = uwrap 64 (interval_end (rev v) e) →
  (∀ x, x ∈ all → rev v <= position x < interval_end (rev v) e → x ∈ l) →
  (∀ x, x ∈ all → rev v <= position x → v' = 0 ∨ position x < rev v' → x ∈ l) ∧
  (v' = 0 ∨ rev v' = interval_end (rev v) e).
Proof using Hword.
  intros Hv He Hv' Hr Hl. pose proof (interval_end_bounds (rev v) e (rev_word v Hv) He) as Hb.
  destruct (Z.eq_dec (interval_end (rev v) e) (2 ^ 64)) as [Heq|Hne].
  - rewrite Heq in Hr. assert (v' = 0) as -> by (apply rev_zero; [done|by rewrite Hr]).
    split; [|by left]. intros x Hx Hlo _. apply Hl; [done|]. rewrite Heq.
    split; [done|apply position_word].
  - rewrite uwrap_id in Hr by (pose proof (rev_word v Hv); unfold word in *; lia).
    split; [|by right]. intros x Hx Hlo Hhi. apply Hl; [done|]. split; [done|].
    destruct Hhi as [Hhi|]; [|by rewrite <- Hr]. rewrite Hhi, rev_0 in Hr.
    pose proof (rev_word v Hv). unfold word in *. lia.
Qed.

(** What a call emits, for a cursor [v] and the next cursor [v']. *)
Definition emitted (d : dict K V) v (l : list (dictEntry K V)) v' : Prop :=
  word v' ∧ (∀ x, x ∈ l → x ∈ ht_entries d) ∧
  (∀ x, x ∈ ht_entries d → rev v <= position x → v' = 0 ∨ position x < rev v' → x ∈ l) ∧
  (v' = 0 ∨ 0 <= scan_exp d <= 63 ∧ rev v' = interval_end (rev v) (scan_exp d)).

Lemma wf_exp t : wf_ht t → 0 <= ht_size_exp t → 0 <= ht_size_exp t <= 63.
Proof using. intros Ht H0. destruct (wf_size _ _ _ _ Ht) as [[? _]|[? _]]; lia. Qed.

(** A call outside a rehash. *)
Lemma emit_one d v c :
  wf d → dictIsRehashing d = false → 0 <= ht_size_exp (ht0 d) → word v →
  get_bucket (ht0 d) (Z.land v (DICTHT_SIZE_MASK (ht_size_exp (ht0 d)))) = Some c →
  emitted d v c (next_cursor v (DICTHT_SIZE_MASK (ht_size_exp (ht0 d)))).
Proof using Hword.
  intros Hd Hre He Hv Hc. pose proof (wf_0 _ _ _ _ Hd) as H0. pose proof (wf_exp _ H0 He) as He63.
  pose proof (wf_rehash _ _ _ _ Hd) as H1. rewrite Hre in H1.
  destruct (next_cursor_spec v _ Hv He63) as [Hv' Hr'].
  assert (Hall : ht_entries d = entries (ht0 d)).
  { unfold ht_entries. rewrite H1. apply app_nil_r. }
  destruct (scan_end (ht_entries d) c v _ _ Hv He63 Hv' Hr') as [Hl Hn].
  { rewrite Hall. intros x Hx Hp. by apply (bucket_entries (ht0 d) v c x). }
  unfold emitted, scan_exp. rewrite Hre. split_and!; [done| |done|].
  - rewrite Hall. intros x Hx. by eapply bucket_entry.
  - destruct Hn as [?|?]; [by left|by right].
Qed.

(** A call during a rehash: [t0] is the smaller table and [t1] the larger. *)
Lemma emit_two d v t0 t1 c :
  wf d → dictIsRehashing d = true → word v → wf_ht t0 → wf_ht t1 →
  0 <= ht_size_exp t0 <= ht_size_exp t1 → scan_exp d = ht_size_exp t0 →
  (∀ x, x ∈ ht_entries d ↔ x ∈ entries t0 ∨ x ∈ entries t1) →
  get_bucket t0 (Z.land v (DICTHT_SIZE_MASK (ht_size_exp t0))) = Some c →
  ∃ l v', scan_loop (S (length (ht_table t1))) t1 (DICTHT_SIZE_MASK (ht_size_exp t0))
      (DICTHT_SIZE_MASK (ht_size_exp t1)) v = Some (l, v') ∧ emitted d v (c ++ l) v'.
Proof using Hword.
  intros Hd Hre Hv H0 H1 He Hexp Hent Hc. pose proof (wf_exp _ H1 ltac:(lia)) as He63.
  destruct (scan_loop_spec (S (length (ht_table t1))) t1 (ht_size_exp t0) v H1 He Hv)
    as (l & v' & -> & Hv' & Hr' & Hl & Hsub).
  { apply loop_fuel; [by apply rev_word|lia|lia|].
    destruct (wf_size _ _ _ _ H1) as [[? _]|[_ ?]]; [lia|done]. }
  exists l, v'. split; [done|].
  destruct (scan_end (ht_entries d) (c ++ l) v v' (ht_size_exp t0) Hv) as [Hall Hn]; [lia|done|done| |].
  { intros x Hx Hp. apply elem_of_app. apply Hent in Hx as [Hx|Hx]; [left|right; by apply Hl].
    apply (bucket_entries t0 v c x); [done|lia|done|done|done]. }
  unfold emitted. rewrite Hexp. split_and!; [done| |done|].
  - intros x Hx. apply Hent. apply elem_of_app in Hx as [Hx|Hx]; [left; by eapply bucket_entry|right; by apply Hsub].
  - destruct Hn as [?|?]; [by left|right; split; [lia|done]].
Qed.

Lemma scan_spec d v :
  wf d → 0 <= pauserehash d < 2 ^ 15 → word v →
  ∃ l v', dictScan d v = Some (d, l, v') ∧ emitted d v l v'.
Proof using Hword.
  intros Hd Hp Hv. unfold dictScan, dictScanDefrag. destruct (dictSize d =? 0) eqn:Hz; zb.
  { exists [], 0. split; [done|]. split; [done|]. split; [by intros x ?%not_elem_of_nil|].
    split; [|by left]. intros x Hx. exfalso. rewrite (contents_size type content hash_of) in Hz by done.
    apply zlen_0_nil, fmap_nil_inv in Hz. unfold ht_entries in Hx.
    rewrite Hz in Hx. by apply not_elem_of_nil in Hx. }
  cbv zeta. rewrite pause_resume by done.
  change (dictIsRehashing (dictPauseRehashing d)) with (dictIsRehashing d).
  change (ht0 (dictPauseRehashing d)) with (ht0 d). change (ht1 (dictPauseRehashing d)) with (ht1 d).
  assert (He0 : 0 <= ht_size_exp (ht0 d)) by (by eapply size_nonzero).
  pose proof (wf_0 _ _ _ _ Hd) as H0. pose proof (wf_1 _ _ _ _ Hd) as H1.
  pose proof (wf_rehash _ _ _ _ Hd) as Hre. destruct (dictIsRehashing d) eqn:Hr; cbn [negb].
  - destruct Hre as (_ & _ & He1 & _). rewrite size_lt by done.
    assert (Hmin : scan_exp d = Z.min (ht_size_exp (ht0 d)) (ht_size_exp (ht1 d)))
      by (unfold scan_exp; by rewrite Hr).
    destruct (Z.ltb_spec (ht_size_exp (ht1 d)) (ht_size_exp (ht0 d))) as [Hlt|Hge]; cbn [ht_at negb].
    + change (ht1 (dictPauseRehashing d)) with (ht1 d). change (ht0 (dictPauseRehashing d)) with (ht0 d).
      destruct (bucket_cursor _ v H1 He1) as [c Hc]. rewrite Hc. cbn [mbind option_bind].
      destruct (emit_two d v (ht1 d) (ht0 d) c) as (l & v' & -> & He); try done; try lia.
      { intros x. unfold ht_entries. rewrite elem_of_app. tauto. }
      cbn [mbind option_bind]. by exists (c ++ l), v'.
    + change (ht1 (dictPauseRehashing d)) with (ht1 d). change (ht0 (dictPauseRehashing d)) with (ht0 d).
      destruct (bucket_cursor _ v H0 He0) as [c Hc]. rewrite Hc. cbn [mbind option_bind].
      destruct (emit_two d v (ht0 d) (ht1 d) c) as (l & v' & -> & He); try done; try lia.
      { intros x. unfold ht_entries. by rewrite elem_of_app. }
      cbn [mbind option_bind]. by exists (c ++ l), v'.
  - destruct (bucket_cursor _ v H0 He0) as [c Hc]. rewrite Hc. cbn [mbind option_bind].
    eexists c, _. split; [reflexivity|]. by apply emit_one.
Qed.

(** ** Whole scans *)

(** A scan over the successive states of a dict that its clients change between
    the calls: it stops when the cursor is 0 again. *)
Fixpoint scan_all (ds : list (dict K V)) (v : Z) : option (list (dictEntry K V) * Z) :=
  match ds with
  | [] => Some ([], v)
  | d :: ds =>
      '(_, l, v) ← dictScan d v;
      if v =? 0 then Some (l, v) else '(l', v) ← scan_all ds v; Some (l ++ l', v)
  end.

Definition scannable (E : Z) (d : dict K V) : Prop :=
  wf d ∧ 0 <= pauserehash d < 2 ^ 15 ∧ scan_exp d <= E.

(** The keys present in all the states. *)
Definition present (ds : list (dict K V)) (c : C) : Prop :=
  Forall (λ d, ∃ x, x ∈ ht_entries d ∧ ck content x = c) ds.

Lemma scan_all_spec E ds v :
  0 <= E <= 63 → Forall (scannable E) ds → word v → rev v mod 2 ^ (64 - E) = 0 → ds ≠ [] →
  ∃ l v', scan_all ds v = Some (l, v') ∧
    (∀ x, x ∈ l → Exists (λ d, x ∈ ht_entries d) ds) ∧
    (v' = 0 → ∀ c, present ds c → rev v <= rev (hash_of c) → ∃ x, x ∈ l ∧ ck content x = c) ∧
    (2 ^ E - rev v / 2 ^ (64 - E) <= zlen ds → v' = 0).
Proof using Hword.
  intros HE. destruct (pow_split E HE) as [Hp Hw]. revert v.
  induction ds as [|d ds IH]; intros v Hf Hv Hmod Hne; [done|].
  apply list.Forall_cons in Hf as [(Hd & Hpr & Hsc) Hf].
  destruct (scan_spec d v Hd Hpr Hv) as (l & v' & Hs & Hv' & Hsub & Hem & Hn). cbn [scan_all].
  rewrite Hs. cbn [mbind option_bind].
  assert (Hhere : ∀ c, present (d :: ds) c → rev v <= rev (hash_of c) →
    v' = 0 ∨ rev (hash_of c) < rev v' → ∃ x, x ∈ l ∧ ck content x = c).
  { intros c Hc Hlo Hhi. apply list.Forall_cons in Hc as [(x & Hx & <-) _]. exists x. split; [|done].
    by apply Hem. }
  destruct (v' =? 0) eqn:Hz; zb.
  { exists l, v'. split_and!; [done| | |done].
    - intros x Hx. left. by apply Hsub.
    - intros _ c Hc Hlo. apply Hhere; [done|done|by left]. }
  destruct Hn as [?|[Hsc0 Hr']]; [done|].
  pose proof (interval_end_bounds (rev v') E (rev_word v' Hv') HE) as HB'.
  pose proof (inner_le (rev v) (scan_exp d) E (rev_word v Hv) ltac:(lia) ltac:(lia)) as Hin.
  assert (Hmod' : rev v' mod 2 ^ (64 - E) = 0).
  { rewrite Hr', (end_mult (rev v) (scan_exp d) E) by lia. by rewrite Z.mod_mul by lia. }
  assert (Hstep : rev v / 2 ^ (64 - E) + 1 <= rev v' / 2 ^ (64 - E)).
  { apply Z.div_le_lower_bound; [done|]. rewrite Hr'. unfold interval_end at 1 in Hin. lia. }
  assert (Hlt : rev v < rev v').
  { rewrite Hr'. by apply interval_end_bounds; [apply rev_word|]. }
  destruct ds as [|d' ds'].
  { exists (l ++ []), v'. cbn [scan_all mbind option_bind]. split_and!; [done| |done|].
    - rewrite app_nil_r. intros x Hx. left. by apply Hsub.
    - intros Hlen. exfalso. pose proof (rev_word v' Hv') as [_ Hb].
      assert (rev v' / 2 ^ (64 - E) < 2 ^ E) by (apply Z.div_lt_upper_bound; lia).
      unfold zlen in Hlen. simpl in Hlen. lia. }
  destruct (IH v' Hf Hv' Hmod') as (l' & v'' & -> & Hsub' & Hc' & Hlen'); [done|].
  cbn [mbind option_bind]. exists (l ++ l'), v''. split_and!; [done| | |].
  - intros x [Hx|Hx]%elem_of_app; [left; by apply Hsub|right; by apply Hsub'].
  - intros H0 c Hc Hlo. destruct (Z.lt_ge_cases (rev (hash_of c)) (rev v')).
    + destruct (Hhere c Hc Hlo) as (x & ? & ?); [by right|]. exists x. rewrite elem_of_app. auto.
    + destruct (Hc' H0 c) as (x & ? & ?); [by apply list.Forall_cons in Hc as [_ ?]|done|].
      exists x. rewrite elem_of_app. auto.
  - intros Hlen. apply Hlen'. rewrite zlen_cons in Hlen. lia.
Qed.

(** (C13) A complete scan returns every key that is present from its start to
    its end, however the table grows, shrinks and rehashes between the calls;
    it returns nothing that was not in the dict; and it is over after at most
    as many calls as the largest table had buckets. *)
Theorem dictScan_complete E ds :
  0 <= E <= 63 → Forall (scannable E) ds → ds ≠ [] →
  ∃ l v, scan_all ds 0 = Some (l, v) ∧
    (∀ x, x ∈ l → Exists (λ d, x ∈ ht_entries d) ds) ∧
    (v = 0 → ∀ c, present ds c → ∃ x, x ∈ l ∧ ck content x = c) ∧
    (2 ^ E <= zlen ds → v = 0).
Proof using Hword.
  intros HE Hf Hne. destruct (scan_all_spec E ds 0 HE Hf) as (l & v & Hs & Hsub & Hc & Hlen);
    [done|by rewrite rev_0|done|].
  exists l, v. split_and!; [done|done| |].
  - intros H0 c Hp. apply Hc; [done|done|]. rewrite rev_0. by apply rev_word.
  - intros Hl. apply Hlen. rewrite rev_0. rewrite Z.div_0_l; [lia|]. apply Z.pow_nonzero; lia.
Qed.
End ScanProofs.
End DictScan.
