(* ===== verification/DictExamples.v ===== *)
(** * Hash tables: concrete dicts

    A dictType over integers and a dict of five keys in the middle of a rehash
    from four buckets to eight; the theorems on dicts applied to it. *)

From stdpp Require Import gmap.
From S2P Require Import Prelude Dict DictProofs DictMap DictIter DictScan.

Module DictExamples.
Import Dict DictProofs DictMap DictIter DictScan.

(** Keys and values are integers; a key is its own hash. *)
Definition int_type : dictType Z Z := {|
  hashFunction := λ k, uwrap 64 k;
  keyDup := None;
  valDup := None;
  storedHashFunction := None;
  keyCompare := None;
  storedKeyCompare := None;
  keyLen := None;
  keyCompareWithLen := None;
  resizeAllowed := None;
  no_value := false;
  force_full_rehash := false
|}.

Definition int_content (k : Z) : Z := k.

Lemma int_ok : type_ok int_type int_content (uwrap 64).
Proof.
  constructor; [by intros k []| |done|done|done]. intros d k1 k2. unfold dictGetKeyCmpFunc.
  by destruct (useStoredKeyApi d).
Qed.

Definition policy : dictResizeEnable := DICT_RESIZE_ENABLE.

(** Five insertions: the fifth one starts the rehash to eight buckets. *)
Definition five_ops : list (dictResizeEnable * dict_op Z Z) :=
  (λ k, (policy, OpAdd k (10 * k))) <$> [1; 2; 5; 7; 9].

Definition five : dict Z Z :=
  default dictCreate (fst <$> run int_type dictCreate five_ops).

Example five_rehashing : dictIsRehashing five = true ∧ dictSize five = 5.
Proof. by vm_compute. Qed.

Lemma five_valid : dict_valid int_type int_content (uwrap 64) five.
Proof.
  destruct (valid_create int_type int_content (uwrap 64)) as [Hv _].
  destruct (run_refines int_type int_content (uwrap 64) int_ok five_ops dictCreate Hv)
    as (d & Hr & Hd & _); [by repeat constructor|].
  unfold five. rewrite Hr. exact Hd.
Qed.

Lemma five_wf : wf int_type int_content (uwrap 64) five.
Proof. apply five_valid. Qed.

Lemma five_auto : pauseAutoResize five <= 0.
Proof. apply five_valid. Qed.

Lemma five_pause : 0 <= pauserehash five < 2 ^ 15.
Proof. by vm_compute. Qed.

Definition int_hash := ok_hash int_type int_content (uwrap 64) int_ok.
Definition int_cmp := ok_cmp int_type int_content (uwrap 64) int_ok.
Definition int_len := ok_len int_type int_content (uwrap 64) int_ok.
Definition int_dup := ok_dup int_type int_content (uwrap 64) int_ok.

Lemma dictFind_witness :
  ∃ d' r, dictFind int_type policy five 7 = Some (d', r) ∧ wf int_type int_content (uwrap 64) d' ∧
    to_map int_content d' = to_map int_content five ∧
    match r with
    | Some p => ∃ e, deref d' p = Some e ∧ int_content (de_key e) = int_content 7 ∧
                     to_map int_content five !! int_content 7 = Some (de_val e)
    | None => to_map int_content five !! int_content 7 = None
    end.
Proof. pose proof (dictFind_correct int_type policy int_content (uwrap 64) int_hash int_cmp int_len five 7 five_wf) as Hx. exact Hx. Defined.

Lemma dictAdd_witness :
  ∃ d' r, dictAdd int_type policy five 13 1 = Some (d', r) ∧
    wf int_type int_content (uwrap 64) d' ∧
    match to_map int_content five !! int_content 13 with
    | Some _ => r = DICT_ERR ∧ to_map int_content d' = to_map int_content five
    | None => r = DICT_OK ∧
        to_map int_content d' = <[int_content 13 := if no_value int_type then None else Some (dup_val int_type 1)]>
          (to_map int_content five)
    end.
Proof.
  pose proof (dictAdd_correct int_type policy int_content (uwrap 64) int_hash int_cmp int_dup five 13 1 five_wf (or_introl five_auto)) as Hx. exact Hx.
Defined.

Lemma dictReplace_witness :
  ∃ d' r, dictReplace int_type policy five 9 1 = Some (d', r) ∧
    wf int_type int_content (uwrap 64) d' ∧
    r = (if to_map int_content five !! int_content 9 is Some _ then 0 else 1) ∧
    to_map int_content d' = <[int_content 9 := Some (dup_val int_type 1)]> (to_map int_content five).
Proof.
  pose proof (dictReplace_correct int_type policy int_content (uwrap 64) int_hash int_cmp int_dup five 9 1 five_wf
    (or_introl five_auto) eq_refl) as Hx. exact Hx.
Defined.

Lemma dictDelete_witness :
  ∃ d' r, dictDelete int_type policy five 2 = Some (d', r) ∧
    wf int_type int_content (uwrap 64) d' ∧
    r = (if to_map int_content five !! int_content 2 is Some _ then DICT_OK else DICT_ERR) ∧
    to_map int_content d' = delete (int_content 2) (to_map int_content five).
Proof. pose proof (dictDelete_correct int_type policy int_content (uwrap 64) int_hash int_cmp five 2 five_wf) as Hx. exact Hx. Defined.

Lemma dictRehash_witness :
  ∃ d' more, dictRehash int_type policy five 1 = Some (d', more) ∧
    wf int_type int_content (uwrap 64) d' ∧ to_map int_content d' = to_map int_content five ∧
    (rehash_forbidden policy five = false →
       more = dictIsRehashing d' ∧
       (more = true → rehashidx five + Z.of_nat 1 <= rehashidx d' <= zlen (ht_table (ht0 d')))).
Proof. pose proof (dictRehash_correct int_type policy int_content (uwrap 64) int_hash five 1 five_wf) as Hx. exact Hx. Defined.

Lemma full_rehash_witness :
  ∃ d', full_rehash int_type policy (S (length (ht_table (ht0 five)))) five = Some d' ∧
    wf int_type int_content (uwrap 64) d' ∧ to_map int_content d' = to_map int_content five ∧
    (rehash_forbidden policy five = true ∨ dictIsRehashing d' = false).
Proof.
  pose proof (full_rehash_terminates int_type policy int_content (uwrap 64) int_hash five five_wf (proj1 five_rehashing)) as Hx. exact Hx.
Defined.

Lemma dictTwoPhaseUnlink_witness :
  ∃ d1 r, dictTwoPhaseUnlinkFind int_type policy five 5 = Some (d1, r) ∧
    to_map int_content d1 = to_map int_content five ∧
    (r = None ↔ to_map int_content five !! int_content 5 = None) ∧
    ∃ d2, dictTwoPhaseUnlinkFree int_type policy d1 r = Some d2 ∧
      wf int_type int_content (uwrap 64) d2 ∧
      to_map int_content d2 = delete (int_content 5) (to_map int_content five) ∧
      pauserehash d2 = pauserehash five.
Proof. pose proof (dictTwoPhaseUnlink_correct int_type policy int_content (uwrap 64) int_hash int_cmp five 5 five_wf five_pause) as Hx. exact Hx. Defined.

(** A history that grows, forbids resizing for a while, shrinks and empties. *)
Definition history : list (dictResizeEnable * dict_op Z Z) :=
  five_ops ++
  [(DICT_RESIZE_AVOID, OpReplace 1 100); (DICT_RESIZE_FORBID, OpAdd 17 3);
   (policy, OpTwoPhaseUnlink 5); (policy, OpRehash 3); (policy, OpExpand 64);
   (policy, OpDelete 7); (policy, OpShrinkIfNeeded); (policy, OpFetch 9); (policy, OpEmpty);
   (policy, OpTryExpand 16 false); (policy, OpFetch 9)].

Lemma dict_refines_map_witness :
  ∃ d, run int_type dictCreate history =
      Some (d, snd (spec_run int_content (dup_val int_type) ∅ history)) ∧
    wf int_type int_content (uwrap 64) d ∧
    to_map int_content d = fst (spec_run int_content (dup_val int_type) ∅ history).
Proof.
  apply (dict_refines_map int_type int_content (uwrap 64) int_ok history).
  by repeat constructor.
Defined.

(** A scan that starts on four keys and goes on after the fifth insertion, in
    the middle of the rehash. *)
Definition four : dict Z Z :=
  default dictCreate (fst <$> run int_type dictCreate (take 4 five_ops)).

Lemma four_wf : wf int_type int_content (uwrap 64) four.
Proof.
  destruct (valid_create int_type int_content (uwrap 64)) as [Hv _].
  destruct (run_refines int_type int_content (uwrap 64) int_ok (take 4 five_ops) dictCreate Hv)
    as (d & Hr & [Hd _] & _); [by repeat constructor|].
  unfold four. rewrite Hr. exact Hd.
Qed.

Definition scanned : list (dict Z Z) := [four; five; five; five].

Example scanned_keys :
  match scan_all scanned 0 with Some (l, v) => Some (map de_key l, v) | None => None end = Some ([2; 5; 1; 9; 7], 0).
Proof. by vm_compute. Qed.

Lemma scanned_ok : Forall (scannable int_type int_content (uwrap 64) 2) scanned.
Proof.
  assert (H4 : 0 <= pauserehash four < 2 ^ 15 ∧ scan_exp four <= 2) by (by vm_compute).
  assert (H5 : 0 <= pauserehash five < 2 ^ 15 ∧ scan_exp five <= 2) by (by vm_compute).
  pose proof (conj five_wf H5) as H5'. pose proof (conj four_wf H4) as H4'.
  exact (Forall_cons _ _ _ H4' (Forall_cons _ _ _ H5' (Forall_cons _ _ _ H5'
    (Forall_cons _ _ _ H5' (Forall_nil _))))).
Qed.

Lemma dictScan_complete_witness :
  ∃ l v, scan_all scanned 0 = Some (l, v) ∧
    (∀ x, x ∈ l → Exists (λ d, x ∈ ht_entries d) scanned) ∧
    (v = 0 → ∀ c, present int_content scanned c → ∃ x, x ∈ l ∧ ck int_content x = c) ∧
    (2 ^ 2 <= zlen scanned → v = 0).
Proof.
  assert (H2 : 0 <= 2 <= 63) by (by vm_compute). assert (Hne : scanned ≠ []) by done.
  pose proof (dictScan_complete int_type int_content (uwrap 64) uwrap_word 2 scanned H2 scanned_ok Hne) as Hx.
  exact Hx.
Defined.
(** The unsafe iterator over the same dict, in the middle of the rehash. *)
Lemma dictIterator_correct_witness :
  ∃ d' it' l, iterate (λ _, 0) (S (Z.to_nat (dictSize five))) five (get_iterator false) = Some (d', it', l) ∧
    kv int_content <$> l = contents int_content five ∧ NoDup (ck int_content <$> l) ∧
    (∀ c, c ∈ (ck int_content <$> l) ↔ is_Some (to_map int_content five !! c)) ∧
    dictReleaseIterator (λ _, 0) d' it' = Some five.
Proof.
  apply (dictIterator_correct int_type int_content (uwrap 64) (λ _, 0) five false five_wf).
  vm_compute. split; [discriminate|reflexivity].
Defined.
End DictExamples.
