(* ===== verification/Kvstore.v ===== *)
(** * The key-value store (src/redis-stable/src/kvstore.c)

    An array of [2^num_dicts_bits] dicts (one per cluster slot), with counters
    and a binary indexed tree of the number of keys, which finds the dict of the
    n-th key and the next non-empty dict in logarithmic time.  The dicts are
    used through the interface of DictMap.  Results: [None] is an access
    outside an array, a null dereference or a failed assertion.

    The rehashing callbacks of the store (the list of rehashing dicts and the
    bucket and overhead statistics) and the per-dict metadata are left out: no
    operation modelled here reads them. *)

From S2P Require Import Prelude Dict DictMap.

Module Kvstore.
Import Dict DictMap.

Definition KVSTORE_ALLOCATE_DICTS_ON_DEMAND : Z := Z.shiftl 1 0.
Definition KVSTORE_FREE_EMPTY_DICTS : Z := Z.shiftl 1 1.

Definition has_flag (flags f : Z) : bool := negb (Z.land flags f =? 0).

(** A NULL [dict_size_index] is the empty array. *)
Record kvstore {D : Type} := {
  flags : Z;
  dicts : list (option D);
  num_dicts : Z;
  num_dicts_bits : Z;
  resize_cursor : Z;
  allocated_dicts : Z;
  non_empty_dicts : Z;
  key_count : Z;
  dict_size_index : list Z
}.
Arguments kvstore : clear implicits.

(** [b[i] = x] *)
Definition store_at {A} (i : Z) (x : A) (b : list A) : option (list A) :=
  _ ← byte_at i b; Some (<[Z.to_nat i := x]> b).

(** ** The binary indexed tree *)

Definition lowbit (idx : Z) : Z := Z.land idx (- idx).

(** [while (idx > 0)] of cumulativeKeyCountRead *)
Fixpoint read_loop (fuel : nat) (index : list Z) (idx sum : Z) : option Z :=
  match fuel with
  | O => None
  | S fuel =>
      if 0 <? idx then
        x ← byte_at idx index;
        read_loop fuel index (idx - lowbit idx) (uwrap 64 (sum + x))
      else Some sum
  end.

(** [while (idx <= kvs->num_dicts)] of cumulativeKeyCountAdd *)
Fixpoint add_loop (fuel : nat) (n : Z) (index : list Z) (idx delta : Z) : option (list Z) :=
  match fuel with
  | O => None
  | S fuel =>
      if idx <=? n then
        x ← byte_at idx index;
        if (delta <? 0) && (x <? Z.abs delta) then None
        else
          index ← store_at idx (uwrap 64 (x + delta)) index;
          add_loop fuel n index (idx + lowbit idx) delta
      else Some index
  end.

(** [for (int i = bit_mask; i != 0; i >>= 1)] of kvstoreFindDictIndexByKeyIndex *)
Fixpoint find_loop (fuel : nat) (index : list Z) (i result target : Z) : option Z :=
  match fuel with
  | O => None
  | S fuel =>
      if i =? 0 then Some result
      else
        let current := result + i in
        x ← byte_at current index;
        if x <? target then find_loop fuel index (Z.shiftr i 1) current (target - x)
        else find_loop fuel index (Z.shiftr i 1) result target
  end.

Section Kvstore.
Context {D K V P : Type} {api : DictApi D K V P}.

Definition set_counts (kvs : kvstore D) (non_empty keys : Z) (index : list Z) : kvstore D :=
  {| flags := flags kvs; dicts := dicts kvs; num_dicts := num_dicts kvs;
     num_dicts_bits := num_dicts_bits kvs; resize_cursor := resize_cursor kvs;
     allocated_dicts := allocated_dicts kvs; non_empty_dicts := non_empty; key_count := keys;
     dict_size_index := index |}.

Definition set_dicts (kvs : kvstore D) (l : list (option D)) (allocated : Z) : kvstore D :=
  {| flags := flags kvs; dicts := l; num_dicts := num_dicts kvs;
     num_dicts_bits := num_dicts_bits kvs; resize_cursor := resize_cursor kvs;
     allocated_dicts := allocated; non_empty_dicts := non_empty_dicts kvs;
     key_count := key_count kvs; dict_size_index := dict_size_index kvs |}.

Definition set_resize_cursor (kvs : kvstore D) (c : Z) : kvstore D :=
  {| flags := flags kvs; dicts := dicts kvs; num_dicts := num_dicts kvs;
     num_dicts_bits := num_dicts_bits kvs; resize_cursor := c;
     allocated_dicts := allocated_dicts kvs; non_empty_dicts := non_empty_dicts kvs;
     key_count := key_count kvs; dict_size_index := dict_size_index kvs |}.

Definition kvstoreGetDict (kvs : kvstore D) (didx : Z) : option (option D) :=
  byte_at didx (dicts kvs).

(** The dict at [didx], which an operation has changed in place. *)
Definition put_dict (kvs : kvstore D) (didx : Z) (d : D) : option (kvstore D) :=
  l ← store_at didx (Some d) (dicts kvs);
  Some (set_dicts kvs l (allocated_dicts kvs)).

Definition kvstoreDictIsRehashingPaused (kvs : kvstore D) (didx : Z) : option bool :=
  d ← kvstoreGetDict kvs didx;
  Some (match d with Some d => api_paused d | None => false end).

Definition kvstoreDictSize (kvs : kvstore D) (didx : Z) : option Z :=
  d ← kvstoreGetDict kvs didx;
  Some (match d with Some d => api_size d | None => 0 end).

Definition kvstoreSize (kvs : kvstore D) : option Z :=
  if negb (num_dicts kvs =? 1) then Some (key_count kvs)
  else d ← kvstoreGetDict kvs 0; Some (match d with Some d => api_size d | None => 0 end).

Definition cumulativeKeyCountRead (kvs : kvstore D) (didx : Z) : option Z :=
  if num_dicts kvs =? 1 then if didx =? 0 then kvstoreSize kvs else None
  else read_loop (S (Z.to_nat (didx + 1))) (dict_size_index kvs) (didx + 1) 0.

(** The cursor of a scan: the dict index is in its low bits. *)
Definition addDictIndexToCursor (kvs : kvstore D) (didx cursor : Z) : Z :=
  if num_dicts kvs =? 1 then cursor
  else if didx <? 0 then cursor
  else Z.lor (uwrap 64 (Z.shiftl cursor (num_dicts_bits kvs))) didx.

Definition getAndClearDictIndexFromCursor (kvs : kvstore D) (cursor : Z) : Z * Z :=
  if num_dicts kvs =? 1 then (0, cursor)
  else (swrap 32 (Z.land cursor (num_dicts kvs - 1)), Z.shiftr cursor (num_dicts_bits kvs)).

Definition cumulativeKeyCountAdd (kvs : kvstore D) (didx delta : Z) : option (kvstore D) :=
  let keys := uwrap 64 (key_count kvs + delta) in
  d ← kvstoreGetDict kvs didx;
  d ← d;
  let dsize := api_size d in
  let non_empty_dicts_delta :=
    if (dsize =? 1) && (0 <? delta) then 1 else if dsize =? 0 then -1 else 0 in
  let non_empty := non_empty_dicts kvs + non_empty_dicts_delta in
  if num_dicts kvs =? 1 then Some (set_counts kvs non_empty keys (dict_size_index kvs))
  else
    index ← add_loop (S (Z.to_nat (num_dicts kvs))) (num_dicts kvs) (dict_size_index kvs)
              (didx + 1) delta;
    Some (set_counts kvs non_empty keys index).

Definition createDictIfNeeded (kvs : kvstore D) (didx : Z) : option (kvstore D * D) :=
  d ← kvstoreGetDict kvs didx;
  match d with
  | Some d => Some (kvs, d)
  | None =>
      l ← store_at didx (Some api_create) (dicts kvs);
      Some (set_dicts kvs l (allocated_dicts kvs + 1), api_create)
  end.

Definition freeDictIfNeeded (kvs : kvstore D) (didx : Z) : option (kvstore D) :=
  if negb (has_flag (flags kvs) KVSTORE_FREE_EMPTY_DICTS) then Some kvs
  else
    d ← kvstoreGetDict kvs didx;
    size ← kvstoreDictSize kvs didx;
    paused ← kvstoreDictIsRehashingPaused kvs didx;
    if negb (bool_decide (is_Some d)) || negb (size =? 0) || paused then Some kvs
    else
      l ← store_at didx None (dicts kvs);
      Some (set_dicts kvs l (allocated_dicts kvs - 1)).

(** ** Creating and emptying *)

(** [for (int i = 0; i < kvs->num_dicts; i++) createDictIfNeeded(kvs, i);] *)
Fixpoint create_loop (n : nat) (kvs : kvstore D) (i : Z) : option (kvstore D) :=
  match n with
  | O => Some kvs
  | S n => '(kvs, _) ← createDictIfNeeded kvs i; create_loop n kvs (i + 1)
  end.

Definition kvstoreCreate (bits flags : Z) : option (kvstore D) :=
  if 16 <? bits then None
  else
    let n := Z.shiftl 1 bits in
    let kvs := {| flags := flags; dicts := replicate (Z.to_nat n) None; num_dicts := n;
                  num_dicts_bits := bits; resize_cursor := 0; allocated_dicts := 0;
                  non_empty_dicts := 0; key_count := 0; dict_size_index := [] |} in
    kvs ← (if negb (has_flag flags KVSTORE_ALLOCATE_DICTS_ON_DEMAND)
           then create_loop (Z.to_nat n) kvs 0 else Some kvs);
    Some (set_counts kvs 0 0 (if 1 <? n then replicate (Z.to_nat (n + 1)) 0 else [])).

Fixpoint empty_loop (n : nat) (kvs : kvstore D) (didx : Z) : option (kvstore D) :=
  match n with
  | O => Some kvs
  | S n =>
      d ← kvstoreGetDict kvs didx;
      match d with
      | None => empty_loop n kvs (didx + 1)
      | Some d =>
          kvs ← put_dict kvs didx (api_empty d);
          kvs ← freeDictIfNeeded kvs didx;
          empty_loop n kvs (didx + 1)
      end
  end.

Definition kvstoreEmpty (kvs : kvstore D) : option (kvstore D) :=
  kvs ← empty_loop (Z.to_nat (num_dicts kvs)) kvs 0;
  let kvs := set_resize_cursor kvs 0 in
  Some (set_counts kvs 0 0
    (match dict_size_index kvs with
     | [] => []
     | _ => replicate (Z.to_nat (num_dicts kvs + 1)) 0
     end)).

(** ** Finding dicts by key index *)

Definition kvstoreFindDictIndexByKeyIndex (kvs : kvstore D) (target : Z) : option Z :=
  size ← kvstoreSize kvs;
  if (num_dicts kvs =? 1) || (size =? 0) then Some 0
  else if size <? target then None
  else
    let bit_mask := Z.shiftl 1 (num_dicts_bits kvs) in
    find_loop (S (S (Z.to_nat (num_dicts_bits kvs)))) (dict_size_index kvs) bit_mask 0 target.

(** [random] is the result of randomULong. *)
Definition kvstoreGetFairRandomDictIndex (kvs : kvstore D) (random : Z) : option Z :=
  size ← kvstoreSize kvs;
  let target := if negb (size =? 0) then random mod size + 1 else 0 in
  kvstoreFindDictIndexByKeyIndex kvs target.

Definition kvstoreGetFirstNonEmptyDictIndex (kvs : kvstore D) : option Z :=
  kvstoreFindDictIndexByKeyIndex kvs 1.

Definition kvstoreGetNextNonEmptyDictIndex (kvs : kvstore D) (didx : Z) : option Z :=
  if num_dicts kvs =? 1 then if didx =? 0 then Some (-1) else None
  else
    sum ← cumulativeKeyCountRead kvs didx;
    let next_key := uwrap 64 (sum + 1) in
    size ← kvstoreSize kvs;
    if next_key <=? size then kvstoreFindDictIndexByKeyIndex kvs next_key else Some (-1).

(** ** Iterating over the dicts

    The iterator as its users advance it from dict to dict; the position inside
    a dict (a safe dict iterator that has not started) is not modelled. *)

Record kvstoreIterator := { it_didx : Z; next_didx : Z }.

Definition kvstoreIteratorInit (kvs : kvstore D) : option kvstoreIterator :=
  next ← kvstoreGetFirstNonEmptyDictIndex kvs;
  Some {| it_didx := -1; next_didx := next |}.

Definition kvstoreIteratorNextDict (kvs : kvstore D) (it : kvstoreIterator)
  : option (kvstore D * kvstoreIterator * option D) :=
  if next_didx it =? -1 then Some (kvs, it, None)
  else
    kvs ← (if it_didx it =? -1 then Some kvs
           else
             d ← kvstoreGetDict kvs (it_didx it);
             match d with Some _ => freeDictIfNeeded kvs (it_didx it) | None => Some kvs end);
    let didx := next_didx it in
    next ← kvstoreGetNextNonEmptyDictIndex kvs didx;
    d ← kvstoreGetDict kvs didx;
    Some (kvs, {| it_didx := didx; next_didx := next |}, d).

Definition kvstoreIteratorRelease (kvs : kvstore D) (it : kvstoreIterator) : option (kvstore D) :=
  freeDictIfNeeded kvs (it_didx it).

(** ** Resizing *)

(** The outcomes of the allocations are [malloc_ok i] for dict [i]. *)
Fixpoint expand_loop (n : nat) (kvs : kvstore D) (i newsize : Z) (try_expand : bool)
  (skip_cb : Z → bool) (malloc_ok : Z → bool) : option (kvstore D * bool) :=
  match n with
  | O => Some (kvs, true)
  | S n =>
      d ← kvstoreGetDict kvs i;
      match d with
      | None => expand_loop n kvs (i + 1) newsize try_expand skip_cb malloc_ok
      | Some d =>
          if skip_cb i then expand_loop n kvs (i + 1) newsize try_expand skip_cb malloc_ok
          else
            '(d, result) ← (if try_expand then api_tryExpand d newsize (malloc_ok i)
                            else api_expand d newsize);
            kvs ← put_dict kvs i d;
            if try_expand && (result =? DICT_ERR) then Some (kvs, false)
            else expand_loop n kvs (i + 1) newsize try_expand skip_cb malloc_ok
      end
  end.

Definition kvstoreExpand (kvs : kvstore D) (newsize : Z) (try_expand : bool)
  (skip_cb malloc_ok : Z → bool) : option (kvstore D * bool) :=
  expand_loop (Z.to_nat (num_dicts kvs)) kvs 0 newsize try_expand skip_cb malloc_ok.

Fixpoint resize_loop (n : nat) (kvs : kvstore D) : option (kvstore D) :=
  match n with
  | O => Some kvs
  | S n =>
      let didx := resize_cursor kvs in
      d ← kvstoreGetDict kvs didx;
      kvs ← (match d with
             | None => Some kvs
             | Some d =>
                 '(d, r) ← api_shrinkIfNeeded d;
                 d ← (if r =? DICT_ERR then '(d, _) ← api_expandIfNeeded d; Some d else Some d);
                 put_dict kvs didx d
             end);
      resize_loop n (set_resize_cursor kvs ((didx + 1) mod num_dicts kvs))
  end.

Definition kvstoreTryResizeDicts (kvs : kvstore D) (limit : Z) : option (kvstore D) :=
  let limit := if num_dicts kvs <? limit then num_dicts kvs else limit in
  resize_loop (Z.to_nat limit) kvs.

(** ** Operations on one dict *)

Definition kvstoreDictExpand (kvs : kvstore D) (didx size : Z) : option (kvstore D * Z) :=
  d ← kvstoreGetDict kvs didx;
  match d with
  | None => Some (kvs, DICT_ERR)
  | Some d => '(d, r) ← api_expand d size; kvs ← put_dict kvs didx d; Some (kvs, r)
  end.

Definition kvstoreDictFetchValue (kvs : kvstore D) (didx : Z) (key : K)
  : option (kvstore D * option (option V)) :=
  d ← kvstoreGetDict kvs didx;
  match d with
  | None => Some (kvs, None)
  | Some d => '(d, v) ← api_fetchValue d key; kvs ← put_dict kvs didx d; Some (kvs, v)
  end.

Definition kvstoreDictFind (kvs : kvstore D) (didx : Z) (key : K) : option (kvstore D * option P) :=
  d ← kvstoreGetDict kvs didx;
  match d with
  | None => Some (kvs, None)
  | Some d => '(d, p) ← api_find d key; kvs ← put_dict kvs didx d; Some (kvs, p)
  end.

Definition kvstoreDictAddRaw (kvs : kvstore D) (didx : Z) (key : K) : option (kvstore D * (P + P)) :=
  '(kvs, d) ← createDictIfNeeded kvs didx;
  '(d, ret) ← api_addRaw d key;
  kvs ← put_dict kvs didx d;
  match ret with
  | inl _ => kvs ← cumulativeKeyCountAdd kvs didx 1; Some (kvs, ret)
  | inr _ => Some (kvs, ret)
  end.

Definition kvstoreDictSetVal (kvs : kvstore D) (didx : Z) (de : P) (val : V) : option (kvstore D) :=
  d ← kvstoreGetDict kvs didx;
  d ← d;
  d ← api_setVal d de val;
  put_dict kvs didx d.

Definition kvstoreDictTwoPhaseUnlinkFind (kvs : kvstore D) (didx : Z) (key : K)
  : option (kvstore D * option P) :=
  d ← kvstoreGetDict kvs didx;
  match d with
  | None => Some (kvs, None)
  | Some d => '(d, p) ← api_unlinkFind d key; kvs ← put_dict kvs didx d; Some (kvs, p)
  end.

Definition kvstoreDictTwoPhaseUnlinkFree (kvs : kvstore D) (didx : Z) (he : option P)
  : option (kvstore D) :=
  d ← kvstoreGetDict kvs didx;
  d ← d;
  d ← api_unlinkFree d he;
  kvs ← put_dict kvs didx d;
  kvs ← cumulativeKeyCountAdd kvs didx (-1);
  freeDictIfNeeded kvs didx.

Definition kvstoreDictDelete (kvs : kvstore D) (didx : Z) (key : K) : option (kvstore D * Z) :=
  d ← kvstoreGetDict kvs didx;
  match d with
  | None => Some (kvs, DICT_ERR)
  | Some d =>
      '(d, ret) ← api_delete d key;
      kvs ← put_dict kvs didx d;
      if ret =? DICT_OK then
        kvs ← cumulativeKeyCountAdd kvs didx (-1);
        kvs ← freeDictIfNeeded kvs didx;
        Some (kvs, ret)
      else Some (kvs, ret)
  end.
End Kvstore.
End Kvstore.
