(* ===== verification/KvstoreProofs.v ===== *)
(** * The key-value store: correctness

    The binary indexed tree holds the prefix sums of the dict sizes, so that
    reading it, updating it and descending it compute what they should; the
    counters of the store agree with its dicts after every operation, and each
    operation acts on the map of one dict only.  The dicts are known through
    the laws of their interface. *)

From stdpp Require Import gmap.
From S2P Require Import Prelude Dict DictProofs DictMap Kvstore.

Module KvstoreProofs.
Import Dict DictMap Kvstore.

(** ** Lowest set bits *)

Lemma lowbit_odd v q : 0 <= v → lowbit (2 ^ v * (2 * q + 1)) = 2 ^ v.
Proof.
  intros Hv. unfold lowbit. rewrite (Z.mul_comm (2 ^ v)), <- Z.mul_opp_l, <- !Z.shiftl_mul_pow2 by done.
  rewrite <- Z.shiftl_land.
  assert (Z.land (2 * q + 1) (- (2 * q + 1)) = 1) as ->; [|by rewrite Z.shiftl_1_l].
  replace (- (2 * q + 1)) with (2 * Z.lnot q + 1) by (unfold Z.lnot; lia).
  apply Z.bits_inj'. intros n Hn. rewrite Z.land_spec.
  destruct (Z.eq_dec n 0) as [->|Hne]; [by rewrite !Z.testbit_odd_0|].
  replace n with (Z.succ (n - 1)) by lia. rewrite !Z.testbit_odd_succ by lia.
  rewrite Z.lnot_spec by lia. rewrite andb_negb_r.
  change 1 with (2 * 0 + 1). by rewrite Z.testbit_odd_succ, Z.testbit_0_l by lia.
Qed.

Lemma odd_part x : 0 < x → ∃ v q, 0 <= v ∧ 0 <= q ∧ x = 2 ^ v * (2 * q + 1).
Proof.
  intros Hx. assert (Hp : 0 <= x) by lia. revert Hx. pattern x. apply Z_lt_induction; [|done].
  clear x Hp. intros x IH Hx. destruct (Z.Even_or_Odd x) as [[y ->]|[y ->]].
  - destruct (IH y) as (v & q & ? & ? & Hy); [lia|lia|]. exists (v + 1), q.
    split_and!; [lia|done|]. rewrite Z.pow_add_r by lia. lia.
  - exists 0, y. split_and!; lia.
Qed.

Lemma lowbit_pos x : 0 < x → 0 < lowbit x <= x.
Proof.
  intros (v & q & Hv & Hq & ->)%odd_part. rewrite lowbit_odd by done.
  pose proof (Z.pow_pos_nonneg 2 v ltac:(lia) Hv). nia.
Qed.

Lemma lowbit_between x m : 0 < x → 0 < m < lowbit x → lowbit (x + m) = lowbit m.
Proof.
  intros (v & q & Hv & Hq & ->)%odd_part. rewrite lowbit_odd by done. intros [Hm Hlt].
  destruct (odd_part m Hm) as (w & r & Hw & Hr & ->). rewrite lowbit_odd by done.
  assert (w < v).
  { destruct (Z.lt_ge_cases w v); [done|]. pose proof (Z.pow_le_mono_r 2 v w ltac:(lia) ltac:(lia)). nia. }
  replace (2 ^ v * (2 * q + 1) + 2 ^ w * (2 * r + 1))
    with (2 ^ w * (2 * (2 ^ (v - w - 1) * (2 * q + 1) + r) + 1)); [by apply lowbit_odd|].
  replace v with (w + (1 + (v - w - 1))) at 2 by lia. rewrite !Z.pow_add_r by lia.
  change (2 ^ 1) with 2. lia.
Qed.

Lemma lowbit_next x : 0 < x → 2 * lowbit x <= lowbit (x + lowbit x).
Proof.
  intros (v & q & Hv & Hq & ->)%odd_part. rewrite lowbit_odd by done.
  destruct (odd_part (q + 1)) as (w & r & Hw & Hr & Hqr); [lia|].
  replace (2 ^ v * (2 * q + 1) + 2 ^ v) with (2 ^ (v + 1 + w) * (2 * r + 1)).
  - rewrite lowbit_odd by lia. rewrite !Z.pow_add_r by lia.
    pose proof (Z.pow_pos_nonneg 2 w ltac:(lia) Hw). pose proof (Z.pow_pos_nonneg 2 v ltac:(lia) Hv). nia.
  - rewrite !Z.pow_add_r by lia. change (2 ^ 1) with 2. rewrite <- Z.mul_assoc, <- Hqr. lia.
Qed.

(** The node of the tree at [i] covers the positions [i - lowbit i + 1 .. i]. *)
Definition covers (i k : Z) : bool := (i - lowbit i <? k) && (k <=? i).

Lemma covers_self k : 0 < k → covers k k = true.
Proof. intros Hk. pose proof (lowbit_pos k Hk). unfold covers. rewrite ?andb_true_iff, ?Z.ltb_lt, ?Z.leb_le in *. lia. Qed.

Lemma covers_next x k : 0 < x → covers x k = true → covers (x + lowbit x) k = true.
Proof.
  unfold covers. intros Hx Hc. rewrite andb_true_iff, Z.ltb_lt, Z.leb_le in Hc.
  pose proof (lowbit_next x Hx). pose proof (lowbit_pos x Hx). rewrite ?andb_true_iff, ?Z.ltb_lt, ?Z.leb_le in *. lia.
Qed.

Lemma covers_gap x k i : 0 < x → covers x k = true → x < i < x + lowbit x → covers i k = false.
Proof.
  unfold covers. intros Hx Hc Hi. rewrite andb_true_iff, Z.ltb_lt, Z.leb_le in Hc.
  assert (lowbit i = lowbit (i - x)) as ->.
  { rewrite <- (lowbit_between x (i - x)) by lia. f_equal. lia. }
  pose proof (lowbit_pos (i - x) ltac:(lia)). rewrite andb_false_iff, Z.ltb_ge. lia.
Qed.

(** ** Prefix sums *)

Definition sumz (l : list Z) : Z := foldr Z.add 0 l.
Definition prefix (sizes : list Z) (i : Z) : Z := sumz (take (Z.to_nat i) sizes).

Lemma sumz_app l k : sumz (l ++ k) = sumz l + sumz k.
Proof. induction l; simpl; unfold sumz in *; simpl; lia. Qed.

Lemma sumz_nonneg l : Forall (λ x, 0 <= x) l → 0 <= sumz l.
Proof. unfold sumz. induction 1; simpl; lia. Qed.

Lemma prefix_0 l : prefix l 0 = 0.
Proof. done. Qed.

Lemma prefix_all l i : zlen l <= i → prefix l i = sumz l.
Proof. intros. unfold prefix. rewrite take_ge; [done|]. unfold zlen in *. lia. Qed.

Lemma prefix_mono l i j : Forall (λ x, 0 <= x) l → i <= j → prefix l i <= prefix l j.
Proof.
  intros Hl Hij. unfold prefix. replace (take (Z.to_nat i) l) with (take (Z.to_nat i) (take (Z.to_nat j) l)).
  2: { rewrite take_take. f_equal. lia. }
  rewrite <- (take_drop (Z.to_nat i) (take (Z.to_nat j) l)) at 2. rewrite sumz_app.
  pose proof (sumz_nonneg (drop (Z.to_nat i) (take (Z.to_nat j) l))) as Hs.
  specialize (Hs ltac:(by apply Forall_drop, Forall_take)). lia.
Qed.

Lemma prefix_bounds l i : Forall (λ x, 0 <= x) l → 0 <= prefix l i <= sumz l.
Proof.
  intros Hl. split; [apply sumz_nonneg; by apply Forall_take|].
  rewrite <- (prefix_all l (Z.max i (zlen l))) by lia. apply prefix_mono; [done|lia].
Qed.

Lemma prefix_succ l i s : byte_at i l = Some s → prefix l (i + 1) = prefix l i + s.
Proof.
  unfold byte_at. case_if; [|done]. intros Hs. unfold prefix.
  replace (Z.to_nat (i + 1)) with (S (Z.to_nat i)) by lia.
  rewrite (take_S_r _ _ _ Hs), sumz_app. unfold sumz. simpl. lia.
Qed.

Lemma sumz_insert l (i : nat) s x : l !! i = Some s → sumz (<[i:=x]> l) = sumz l + (x - s).
Proof.
  intros Hs. rewrite <- (take_drop_middle _ _ _ Hs) at 2.
  rewrite insert_take_drop by by eapply lookup_lt_Some.
  rewrite !sumz_app. unfold sumz. simpl. lia.
Qed.

Lemma prefix_insert l k s x i :
  byte_at k l = Some s →
  prefix (<[Z.to_nat k:=x]> l) i = prefix l i + (if k <? i then x - s else 0).
Proof.
  unfold byte_at. case_if; [|done]. intros Hs. unfold prefix. case_if.
  - rewrite take_insert_lt by lia. apply sumz_insert. by rewrite lookup_take_lt by lia.
  - rewrite take_insert_ge by lia. lia.
Qed.

(** ** The tree *)

Definition node (sizes : list Z) (i : Z) : Z := prefix sizes i - prefix sizes (i - lowbit i).

Record fenwick (sizes index : list Z) : Prop := {
  fw_len : zlen index = zlen sizes + 1;
  fw_node : ∀ i, 1 <= i <= zlen sizes → byte_at i index = Some (node sizes i)
}.

(** Dict sizes: not negative, and their sum is a 64-bit integer. *)
Definition sizes_ok (sizes : list Z) : Prop := Forall (λ x, 0 <= x) sizes ∧ sumz sizes < 2 ^ 64.

Lemma node_bounds sizes i : sizes_ok sizes → 0 < i → 0 <= node sizes i < 2 ^ 64.
Proof.
  intros [Hs Ht] Hi. pose proof (lowbit_pos i Hi). unfold node.
  pose proof (prefix_mono sizes (i - lowbit i) i Hs ltac:(lia)).
  pose proof (prefix_bounds sizes i Hs). pose proof (prefix_bounds sizes (i - lowbit i) Hs). lia.
Qed.

Lemma read_loop_spec fuel sizes index idx sum :
  fenwick sizes index → sizes_ok sizes → 0 <= idx <= zlen sizes → idx < Z.of_nat fuel →
  0 <= sum → sum + prefix sizes idx < 2 ^ 64 →
  read_loop fuel index idx sum = Some (sum + prefix sizes idx).
Proof.
  intros Hf Hs. revert idx sum. induction fuel as [|fuel IH]; intros idx sum Hi Hfu H0 Hb; [lia|]. simpl.
  case_if; [|replace idx with 0 by lia; rewrite prefix_0; f_equal; lia].
  rewrite (fw_node _ _ Hf) by lia. cbn [mbind option_bind].
  pose proof (lowbit_pos idx ltac:(done)). pose proof (node_bounds sizes idx Hs ltac:(done)) as Hn.
  destruct Hs as [Hs Ht]. pose proof (prefix_bounds sizes (idx - lowbit idx) Hs).
  rewrite uwrap_id by (unfold node in *; lia).
  rewrite IH; unfold node in *; try lia. f_equal. lia.
Qed.

Lemma byte_at_store {A} (b : list A) i x y :
  byte_at i b = Some y →
  ∃ b', store_at i x b = Some b' ∧ b' = <[Z.to_nat i := x]> b ∧ zlen b' = zlen b ∧
    ∀ j, byte_at j b' = if j =? i then Some x else byte_at j b.
Proof.
  intros Hb. unfold store_at. rewrite Hb. cbn [mbind option_bind]. eexists. split_and!; [done|done| |].
  - unfold zlen. by rewrite length_insert.
  - intros j. unfold byte_at in *. destruct (0 <=? i) eqn:Hi; [|done]. apply lookup_lt_Some in Hb.
    zb. destruct (j =? i) eqn:Hji; zb.
    + subst j. case_if; [|lia]. by rewrite list_lookup_insert_eq.
    + case_if; [|done]. apply list_lookup_insert_ne. lia.
Qed.

(** Where the update has got to: the covering nodes before [x] have been
    changed. *)
Definition updated (sizes index : list Z) (k x delta : Z) : Prop :=
  ∀ i, 1 <= i <= zlen sizes →
    byte_at i index = Some (node sizes i + if covers i k && (i <? x) then delta else 0).

Lemma updated_step sizes index index' k x delta :
  updated sizes index k x delta → 0 < x → covers x k = true →
  (∀ j, byte_at j index' = if j =? x then Some (node sizes x + delta) else byte_at j index) →
  updated sizes index' k (x + lowbit x) delta.
Proof.
  intros Hu Hx Hc Hj i Hi. rewrite Hj. pose proof (lowbit_pos x Hx).
  destruct (i =? x) eqn:Hix; zb.
  - subst i. rewrite Hc. replace (x <? x + lowbit x) with true; [done|]. symmetry. zb. lia.
  - rewrite Hu by done. destruct (covers i k) eqn:Hci; simpl; [|done].
    repeat case_if; try lia; try done. rewrite (covers_gap x k i) in Hci; [done|done|done|lia].
Qed.

Lemma add_loop_spec fuel sizes index k x delta :
  (∀ i, 1 <= i <= zlen sizes → covers i k = true → 0 <= node sizes i + delta < 2 ^ 64) →
  zlen index = zlen sizes + 1 → updated sizes index k x delta →
  0 < x → covers x k = true → zlen sizes + 1 - x < Z.of_nat fuel → (1 <= fuel)%nat →
  ∃ index', add_loop fuel (zlen sizes) index x delta = Some index' ∧
    zlen index' = zlen sizes + 1 ∧ updated sizes index' k (zlen sizes + 1) delta.
Proof.
  intros Hb. revert index x. induction fuel as [|fuel IH]; intros index x Hl Hu Hx Hc Hf H1; [lia|].
  simpl. case_if.
  - rewrite Hu by lia. rewrite Hc. rewrite Z.ltb_irrefl. cbn [mbind option_bind andb].
    rewrite Z.add_0_r. specialize (Hb x ltac:(lia) Hc).
    replace ((delta <? 0) && (node sizes x <? Z.abs delta)) with false.
    2: { symmetry. apply andb_false_iff. destruct (delta <? 0) eqn:Hd; [right|by left].
         zb. lia. }
    destruct (byte_at_store index x (node sizes x + delta) _ (Hu x ltac:(lia)))
      as (index' & Hst & _ & Hl' & Hj). rewrite uwrap_id by lia. rewrite Hst.
    cbn [mbind option_bind]. pose proof (lowbit_pos x Hx).
    apply IH; [lia|by eapply updated_step|lia|by apply covers_next|lia|lia].
  - exists index. split_and!; [done|done|]. intros i Hi. rewrite Hu by done.
    replace (i <? x) with true by (symmetry; apply Z.ltb_lt; lia).
    by replace (i <? zlen sizes + 1) with true by (symmetry; apply Z.ltb_lt; lia).
Qed.

(** The nodes of the changed sizes. *)
Lemma node_insert sizes k s delta i :
  byte_at k sizes = Some s → 0 < i →
  node (<[Z.to_nat k := s + delta]> sizes) i = node sizes i + if covers i (k + 1) then delta else 0.
Proof.
  intros Hs Hi. unfold node. rewrite !(prefix_insert _ _ _ _ _ Hs). unfold covers.
  pose proof (lowbit_pos i Hi).
  destruct (k <? i) eqn:H1, (k <? i - lowbit i) eqn:H2, (i - lowbit i <? k + 1) eqn:H3, (k + 1 <=? i) eqn:H4;
    zb; simpl; lia.
Qed.

(** Updating the tree keeps it the tree of the sizes. *)
Lemma add_fenwick sizes index k s delta :
  fenwick sizes index → byte_at k sizes = Some s → sizes_ok (<[Z.to_nat k := s + delta]> sizes) →
  ∃ index', add_loop (S (Z.to_nat (zlen sizes))) (zlen sizes) index (k + 1) delta = Some index' ∧
    fenwick (<[Z.to_nat k := s + delta]> sizes) index'.
Proof.
  intros Hf Hs Hok. pose proof (byte_at_lt _ _ _ Hs) as Hk. pose proof (zlen_nonneg sizes).
  assert (Hlen : zlen (<[Z.to_nat k := s + delta]> sizes) = zlen sizes)
    by (unfold zlen; by rewrite length_insert).
  destruct (add_loop_spec (S (Z.to_nat (zlen sizes))) sizes index (k + 1) (k + 1) delta)
    as (index' & Ha & Hl & Hu).
  - intros i Hi Hc. pose proof (node_bounds _ i Hok ltac:(lia)) as Hn.
    rewrite (node_insert _ _ _ _ _ Hs) in Hn by lia. by rewrite Hc in Hn.
  - apply Hf.
  - intros i Hi. rewrite (fw_node _ _ Hf) by done. f_equal.
    destruct (covers i (k + 1)) eqn:Hc; simpl; [|lia]. unfold covers in Hc.
    rewrite andb_true_iff, Z.ltb_lt, Z.leb_le in Hc. case_if; lia.
  - lia.
  - apply covers_self. lia.
  - lia.
  - lia.
  - exists index'. split; [done|]. constructor; [by rewrite Hlen|]. rewrite Hlen. intros i Hi.
    rewrite Hu by done. rewrite (node_insert _ _ _ _ _ Hs) by lia.
    replace (i <? zlen sizes + 1) with true by (symmetry; apply Z.ltb_lt; lia).
    by rewrite andb_true_r.
Qed.

Lemma find_loop_step fuel index i result target x :
  i ≠ 0 → byte_at (result + i) index = Some x →
  find_loop (S fuel) index i result target =
    if x <? target then find_loop fuel index (Z.shiftr i 1) (result + i) (target - x)
    else find_loop fuel index (Z.shiftr i 1) result target.
Proof. intros Hi Hx. simpl. apply Z.eqb_neq in Hi. by rewrite Hi, Hx. Qed.

(** The descent: inside the subtree of [result], which holds the target. *)
Lemma find_loop_spec (e : nat) fuel sizes index c target :
  fenwick sizes index → sizes_ok sizes →
  let result := 2 ^ Z.of_nat (S e) * c in
  0 <= c → result + 2 ^ Z.of_nat (S e) <= zlen sizes → 0 < target →
  prefix sizes result + target <= prefix sizes (result + 2 ^ Z.of_nat (S e)) →
  (e + 2 <= fuel)%nat →
  ∃ r, find_loop fuel index (2 ^ Z.of_nat e) result target = Some r ∧ 0 <= r < zlen sizes ∧
    prefix sizes r < prefix sizes result + target <= prefix sizes (r + 1).
Proof.
  intros Hf Hs. revert fuel c target. induction e as [|e IH]; intros fuel c target result Hc Hle Ht Hp Hfu.
  - destruct fuel as [|[|fuel]]; [lia|lia|].
    change (2 ^ Z.of_nat 1) with 2 in *.
    assert (Hres : result = 2 * c) by reflexivity. clearbody result.
    assert (Hn : node sizes (result + 1) = prefix sizes (result + 1) - prefix sizes result).
    { unfold node. replace (lowbit (result + 1)) with 1; [f_equal; f_equal; lia|].
      symmetry. replace (result + 1) with (2 ^ 0 * (2 * c + 1)) by lia. by apply lowbit_odd. }
    change (2 ^ Z.of_nat 0) with 1.
    erewrite find_loop_step by (lia || apply (fw_node _ _ Hf); lia). rewrite Hn.
    change (Z.shiftr 1 1) with 0. simpl.
    case_if; eexists; (split; [reflexivity|]); [|lia].
    replace (result + 1 + 1) with (result + 2) by lia. lia.
  - destruct fuel as [|fuel]; [lia|]. set (w := 2 ^ Z.of_nat (S e)) in *.
    assert (Hw : 0 < w) by (apply Z.pow_pos_nonneg; lia).
    assert (Hw2 : 2 ^ Z.of_nat (S (S e)) = 2 * w).
    { unfold w. rewrite (Nat2Z.inj_succ (S e)), Z.pow_succ_r by lia. done. }
    assert (Hres : result = w * (2 * c)) by (unfold result; rewrite Hw2; lia).
    rewrite Hw2 in Hle, Hp. clearbody result. assert (0 <= result) by nia.
    assert (Hn : node sizes (result + w) = prefix sizes (result + w) - prefix sizes result).
    { unfold node. replace (lowbit (result + w)) with w; [f_equal; f_equal; lia|].
      symmetry. replace (result + w) with (w * (2 * c + 1)) by lia. apply lowbit_odd. lia. }
    assert (Hsh : Z.shiftr w 1 = 2 ^ Z.of_nat e).
    { unfold w. rewrite Nat2Z.inj_succ, Z.pow_succ_r by lia. rewrite Z.shiftr_div_pow2 by lia.
      change (2 ^ 1) with 2. rewrite Z.mul_comm. by rewrite Z.div_mul. }
    erewrite find_loop_step by (lia || apply (fw_node _ _ Hf); lia). rewrite Hn, Hsh. fold w in IH. case_if.
    + destruct (IH fuel (2 * c + 1) (target - (prefix sizes (result + w) - prefix sizes result)))
        as (r & Hr & Hrn & Hrp); [lia|lia|lia| |lia|].
      * replace (w * (2 * c + 1)) with (result + w) by lia.
        replace (result + w + w) with (result + 2 * w) by lia. lia.
      * replace (w * (2 * c + 1)) with (result + w) in Hr, Hrp by lia.
        exists r. split_and!; [done|lia|lia|lia|lia].
    + destruct (IH fuel (2 * c) target) as (r & Hr & Hrn & Hrp); [lia|lia|lia| |lia|].
      * rewrite <- Hres. lia.
      * rewrite <- Hres in Hr, Hrp. by exists r.
Qed.

(** ** The invariant of the store *)

Section Store.
Context {D K V P C : Type} `{Countable C} {api : DictApi D K V P}.
Context (content : K → C) (dup : V → V) {laws : DictLaws api content dup}.

Definition dsize (o : option D) : Z := match o with Some d => api_size d | None => 0 end.
Definition slot_ok (o : option D) : Prop := match o with Some d => valid d | None => True end.
Definition allocated (o : option D) : Z := match o with Some _ => 1 | None => 0 end.
Definition non_empty (s : Z) : Z := if s =? 0 then 0 else 1.
Definition sizes (kvs : kvstore D) : list Z := dsize <$> dicts kvs.

Record wf_kvs (kvs : kvstore D) : Prop := {
  wk_bits : 0 <= num_dicts_bits kvs <= 16;
  wk_num : num_dicts kvs = 2 ^ num_dicts_bits kvs;
  wk_len : zlen (dicts kvs) = num_dicts kvs;
  wk_slots : Forall slot_ok (dicts kvs);
  wk_total : sumz (sizes kvs) < 2 ^ 64 - 1;
  wk_count : key_count kvs = sumz (sizes kvs);
  wk_non_empty : non_empty_dicts kvs = sumz (non_empty <$> sizes kvs);
  wk_allocated : allocated_dicts kvs = sumz (allocated <$> dicts kvs);
  wk_index : if num_dicts kvs =? 1 then dict_size_index kvs = [] else fenwick (sizes kvs) (dict_size_index kvs);
  wk_cursor : 0 <= resize_cursor kvs < num_dicts kvs
}.

(** The store as an array of maps. *)
Definition slot_map (o : option D) : gmap C (option V) :=
  match o with Some d => as_map d | None => ∅ end.
Definition maps (kvs : kvstore D) : list (gmap C (option V)) := slot_map <$> dicts kvs.

Lemma slot_size o : slot_ok o → dsize o = Z.of_nat (size (slot_map o)).
Proof using laws. destruct o; [apply law_size|done]. Qed.

Lemma dsize_nonneg o : slot_ok o → 0 <= dsize o.
Proof using laws. intros Ho. rewrite slot_size by done. lia. Qed.

Lemma sizes_nonneg kvs : wf_kvs kvs → Forall (λ x, 0 <= x) (sizes kvs).
Proof using laws.
  intros Hk. unfold sizes. apply Forall_fmap. eapply Forall_impl; [apply dsize_nonneg|apply Hk].
Qed.

Lemma wf_sizes_ok kvs : wf_kvs kvs → sizes_ok (sizes kvs).
Proof using laws. intros Hk. split; [by apply sizes_nonneg|]. pose proof (wk_total _ Hk). lia. Qed.

Lemma zlen_sizes kvs : wf_kvs kvs → zlen (sizes kvs) = num_dicts kvs.
Proof. intros Hk. unfold sizes. rewrite zlen_fmap. apply Hk. Qed.

Lemma num_pos kvs : wf_kvs kvs → 1 <= num_dicts kvs <= 2 ^ 16.
Proof.
  intros Hk. rewrite (wk_num _ Hk). pose proof (wk_bits _ Hk).
  pose proof (Z.pow_pos_nonneg 2 (num_dicts_bits kvs)). split; [lia|]. apply Z.pow_le_mono_r; lia.
Qed.

Lemma slot_lookup kvs didx :
  wf_kvs kvs → 0 <= didx < num_dicts kvs →
  ∃ o, byte_at didx (dicts kvs) = Some o ∧ slot_ok o ∧ byte_at didx (sizes kvs) = Some (dsize o) ∧
    maps kvs !! Z.to_nat didx = Some (slot_map o).
Proof.
  intros Hk Hd. rewrite <- (wk_len _ Hk) in Hd. destruct (byte_at_in didx (dicts kvs) Hd) as [o Ho].
  exists o. unfold byte_at in *. case_if; [|done]. split_and!; [done| | |].
  - pose proof (wk_slots _ Hk) as Hs. rewrite list.Forall_lookup in Hs. by eapply Hs.
  - unfold sizes. by rewrite list_lookup_fmap, Ho.
  - unfold maps. by rewrite list_lookup_fmap, Ho.
Qed.

Lemma size_spec kvs : wf_kvs kvs → kvstoreSize kvs = Some (sumz (sizes kvs)).
Proof.
  intros Hk. unfold kvstoreSize. destruct (num_dicts kvs =? 1) eqn:Hn; cbn [negb].
  - zb. pose proof (wk_len _ Hk) as Hl. unfold kvstoreGetDict, sizes. destruct (dicts kvs) as [|o [|? ?]].
    + unfold zlen in Hl. simpl in Hl. lia.
    + simpl. unfold sumz. simpl. f_equal. unfold dsize. destruct o; lia.
    + rewrite !zlen_cons in Hl. pose proof (zlen_nonneg l). lia.
  - by rewrite (wk_count _ Hk).
Qed.

(** *** Changing one dict *)

Lemma maps_insert kvs kvs' didx o :
  dicts kvs' = <[Z.to_nat didx := o]> (dicts kvs) →
  maps kvs' = <[Z.to_nat didx := slot_map o]> (maps kvs).
Proof. intros Hd. unfold maps. by rewrite Hd, list_fmap_insert. Qed.

Lemma wf_replace kvs didx o o' :
  wf_kvs kvs → byte_at didx (dicts kvs) = Some o → slot_ok o' → dsize o' = dsize o →
  wf_kvs (set_dicts kvs (<[Z.to_nat didx := o']> (dicts kvs))
            (allocated_dicts kvs + (allocated o' - allocated o))).
Proof.
  intros Hk Ho Hok Hsz. unfold byte_at in Ho. case_if; [|done].
  set (kvs' := set_dicts _ _ _).
  assert (Hs : sizes kvs' = sizes kvs).
  { unfold sizes, kvs'. simpl. rewrite list_fmap_insert, Hsz. apply list_insert_id.
    by rewrite list_lookup_fmap, Ho. }
  destruct Hk. constructor; rewrite ?Hs; try done; simpl.
  - unfold zlen. by rewrite length_insert.
  - by apply Forall_insert.
  - rewrite list_fmap_insert, (sumz_insert _ _ (allocated o)), <- wk_allocated0; [lia|].
    by rewrite list_lookup_fmap, Ho.
Qed.

Lemma put_same kvs didx d0 d :
  wf_kvs kvs → byte_at didx (dicts kvs) = Some (Some d0) → valid d → api_size d = api_size d0 →
  ∃ kvs', put_dict kvs didx d = Some kvs' ∧ wf_kvs kvs' ∧ flags kvs' = flags kvs ∧
    num_dicts kvs' = num_dicts kvs ∧ resize_cursor kvs' = resize_cursor kvs ∧
    dicts kvs' = <[Z.to_nat didx := Some d]> (dicts kvs).
Proof.
  intros Hk Hd Hv Hs. unfold put_dict, store_at. rewrite Hd. cbn [mbind option_bind].
  pose proof (wf_replace kvs didx (Some d0) (Some d) Hk Hd Hv Hs) as Hw. simpl in Hw.
  rewrite Z.add_0_r in Hw. eexists. by split_and!.
Qed.

Lemma create_spec kvs didx :
  wf_kvs kvs → 0 <= didx < num_dicts kvs →
  ∃ kvs' d, createDictIfNeeded kvs didx = Some (kvs', d) ∧ wf_kvs kvs' ∧ valid d ∧
    byte_at didx (dicts kvs') = Some (Some d) ∧ maps kvs' = maps kvs ∧ sizes kvs' = sizes kvs ∧
    num_dicts kvs' = num_dicts kvs.
Proof using laws.
  intros Hk Hd. destruct (slot_lookup kvs didx Hk Hd) as (o & Ho & Hok & Hsz & Hm).
  unfold createDictIfNeeded, kvstoreGetDict. rewrite Ho. cbn [mbind option_bind].
  destruct o as [d|]; [by exists kvs, d|].
  destruct (byte_at_store (dicts kvs) didx (Some api_create) _ Ho) as (l & Hl & -> & _ & Hj).
  rewrite Hl. cbn [mbind option_bind]. destruct law_create as [Hv He].
  assert (Hz : dsize (Some api_create) = dsize None).
  { rewrite !slot_size by done. simpl. by rewrite He. }
  pose proof (wf_replace kvs didx None (Some api_create) Hk Ho Hv Hz) as Hw.
  eexists _, _. split; [reflexivity|]. split_and!; [exact Hw|done| | | |done].
  - rewrite Hj. by rewrite Z.eqb_refl.
  - erewrite maps_insert by reflexivity. simpl. rewrite He. by apply list_insert_id.
  - unfold sizes in *. simpl. rewrite list_fmap_insert, Hz. apply list_insert_id.
    unfold byte_at in Hsz. by case_if.
Qed.

Lemma free_spec kvs didx :
  wf_kvs kvs → 0 <= didx < num_dicts kvs →
  ∃ kvs', freeDictIfNeeded kvs didx = Some kvs' ∧ wf_kvs kvs' ∧ maps kvs' = maps kvs ∧
    sizes kvs' = sizes kvs ∧ num_dicts kvs' = num_dicts kvs ∧
    resize_cursor kvs' = resize_cursor kvs ∧ dict_size_index kvs' = dict_size_index kvs.
Proof using laws.
  intros Hk Hd. unfold freeDictIfNeeded. destruct (has_flag _ _); [|by exists kvs].
  destruct (slot_lookup kvs didx Hk Hd) as (o & Ho & Hok & Hsz & Hm).
  unfold kvstoreDictSize, kvstoreDictIsRehashingPaused, kvstoreGetDict. rewrite Ho.
  cbn [mbind option_bind negb].
  destruct (_ || _) eqn:Hc; [by exists kvs|]. apply orb_false_iff in Hc as [Hc _].
  apply orb_false_iff in Hc as [Hi Hz]. destruct o as [d|]; [|by rewrite bool_decide_false in Hi by (by intros [])].
  apply negb_false_iff, Z.eqb_eq in Hz.
  assert (He : as_map d = ∅). { rewrite (law_size d Hok) in Hz. apply map_size_empty_inv. lia. }
  pose proof (wf_replace kvs didx (Some d) None Hk Ho I (eq_sym Hz)) as Hw.
  unfold store_at. rewrite Ho. cbn [mbind option_bind].
  eexists. split; [reflexivity|]. split_and!; [exact Hw| | |done|done|done].
  - erewrite maps_insert by reflexivity. apply list_insert_id. rewrite Hm. simpl. by rewrite He.
  - unfold sizes in *. simpl. rewrite list_fmap_insert. apply list_insert_id.
    unfold byte_at in Hsz. case_if; [|done]. rewrite Hsz. simpl. by rewrite Hz.
Qed.

(** Changing the number of keys of one dict by one, and the counters with it. *)
Lemma put_count kvs didx d0 d delta :
  wf_kvs kvs → byte_at didx (dicts kvs) = Some (Some d0) → valid d →
  api_size d = api_size d0 + delta → delta = 1 ∨ delta = -1 → sumz (sizes kvs) + delta < 2 ^ 64 - 1 →
  ∃ kvs1 kvs2, put_dict kvs didx d = Some kvs1 ∧ cumulativeKeyCountAdd kvs1 didx delta = Some kvs2 ∧
    wf_kvs kvs2 ∧ dicts kvs2 = <[Z.to_nat didx := Some d]> (dicts kvs) ∧
    num_dicts kvs2 = num_dicts kvs.
Proof using laws.
  intros Hk Hd Hv Hs Hdelta Htot.
  assert (Hr : 0 <= didx < num_dicts kvs) by (rewrite <- (wk_len _ Hk); by eapply byte_at_lt).
  destruct (byte_at_store (dicts kvs) didx (Some d) _ Hd) as (l & Hl & Hins & Hll & Hj).
  set (kvs1 := set_dicts kvs l (allocated_dicts kvs)).
  assert (Hsz : byte_at didx (sizes kvs) = Some (api_size d0)).
  { unfold byte_at in *. case_if; [|done]. unfold sizes. by rewrite list_lookup_fmap, Hd. }
  assert (Hs1 : sizes kvs1 = <[Z.to_nat didx := api_size d0 + delta]> (sizes kvs)).
  { unfold sizes, kvs1. simpl. by rewrite Hins, list_fmap_insert, <- Hs. }
  assert (Hl0 : sizes kvs !! Z.to_nat didx = Some (api_size d0)).
  { unfold byte_at in Hsz. by case_if. }
  assert (Hsum : sumz (sizes kvs1) = sumz (sizes kvs) + delta).
  { rewrite Hs1, (sumz_insert _ _ _ _ Hl0). lia. }
  assert (Hnn : 0 <= api_size d) by apply (dsize_nonneg (Some d) Hv).
  assert (Hn0 : 0 <= api_size d0).
  { pose proof (sizes_nonneg kvs Hk) as Hf. rewrite list.Forall_lookup in Hf. by eapply Hf. }
  assert (Hok : sizes_ok (sizes kvs1)).
  { split; [|lia]. rewrite Hs1. apply Forall_insert; [by apply sizes_nonneg|lia]. }
  assert (Hne : non_empty (api_size d) - non_empty (api_size d0) =
    if (api_size d =? 1) && (0 <? delta) then 1 else if api_size d =? 0 then -1 else 0).
  { unfold non_empty. destruct Hdelta as [-> | ->]; repeat case_if; zb; simpl in *; try lia. }
  assert (Hw : ∀ index, (if num_dicts kvs =? 1 then index = [] else fenwick (sizes kvs1) index) →
    wf_kvs (set_counts kvs1 (non_empty_dicts kvs + (non_empty (api_size d) - non_empty (api_size d0)))
              (uwrap 64 (key_count kvs + delta)) index)).
  { intros index Hix. destruct Hk. constructor; try done.
    - simpl. lia.
    - simpl. rewrite Hins. by apply Forall_insert.
    - change (sizes (set_counts _ _ _ _)) with (sizes kvs1). lia.
    - simpl. change (sizes (set_counts _ _ _ _)) with (sizes kvs1).
      pose proof (sumz_nonneg (sizes kvs1) (proj1 Hok)).
      rewrite uwrap_id; [lia|]. rewrite wk_count0, <- Hsum. split; [done|apply Hok].
    - simpl. change (sizes (set_counts _ _ _ _)) with (sizes kvs1).
      rewrite Hs1, list_fmap_insert, (sumz_insert _ _ (non_empty (api_size d0))).
      + rewrite wk_non_empty0, Hs. done.
      + by rewrite list_lookup_fmap, Hl0.
    - simpl. rewrite Hins, list_fmap_insert, (sumz_insert _ _ 1), wk_allocated0; [simpl; lia|].
      unfold byte_at in Hd. destruct (0 <=? didx); [|done]. by rewrite list_lookup_fmap, Hd. }
  unfold put_dict. rewrite Hl. exists kvs1. cbn [mbind option_bind].
  unfold cumulativeKeyCountAdd, kvstoreGetDict. simpl dicts. rewrite Hj, Z.eqb_refl.
  cbn [mbind option_bind]. rewrite <- Hne. simpl num_dicts. pose proof (wk_index _ Hk) as Hix.
  destruct (num_dicts kvs =? 1).
  - eexists. split_and!; [done|done|by apply Hw|exact Hins|done].
  - destruct (add_fenwick (sizes kvs) (dict_size_index kvs) didx _ delta Hix Hsz) as (index' & Ha & Hf);
      [by rewrite <- Hs1|].
    rewrite zlen_sizes in Ha by done. simpl dict_size_index. rewrite Ha. cbn [mbind option_bind].
    eexists. split_and!; [done|done| |exact Hins|done]. apply Hw. by rewrite Hs1.
Qed.

(** *** The operations on one dict *)

Lemma maps_slot kvs didx o :
  byte_at didx (dicts kvs) = Some o → maps kvs !! Z.to_nat didx = Some (slot_map o).
Proof. unfold byte_at. case_if; [|done]. intros Ho. unfold maps. by rewrite list_lookup_fmap, Ho. Qed.

(** The pointer [p] is the entry of [c] in dict [didx]. *)
Definition points_at (kvs : kvstore D) (didx : Z) (p : P) (c : C) : Prop :=
  ∃ d, byte_at didx (dicts kvs) = Some (Some d) ∧ points d p c.

Lemma insert_slot kvs kvs' didx d :
  wf_kvs kvs → 0 <= didx < num_dicts kvs →
  dicts kvs' = <[Z.to_nat didx := Some d]> (dicts kvs) →
  byte_at didx (dicts kvs') = Some (Some d).
Proof.
  intros Hk Hr ->. unfold byte_at. case_if; [|lia]. apply list_lookup_insert_eq.
  pose proof (wk_len _ Hk) as Hl. unfold zlen in Hl. lia.
Qed.

Lemma kv_add_raw kvs didx k m :
  wf_kvs kvs → 0 <= didx < num_dicts kvs → sumz (sizes kvs) + 1 < 2 ^ 64 - 1 →
  maps kvs !! Z.to_nat didx = Some m →
  ∃ kvs' r, kvstoreDictAddRaw kvs didx k = Some (kvs', r) ∧ wf_kvs kvs' ∧
    num_dicts kvs' = num_dicts kvs ∧
    match r with
    | inl p => m !! content k = None ∧ points_at kvs' didx p (content k) ∧
               maps kvs' = <[Z.to_nat didx := <[content k := None]> m]> (maps kvs)
    | inr p => is_Some (m !! content k) ∧ points_at kvs' didx p (content k) ∧ maps kvs' = maps kvs
    end.
Proof using laws.
  intros Hk Hr Ht Hm. unfold kvstoreDictAddRaw.
  destruct (create_spec kvs didx Hk Hr) as (kvs1 & d & -> & Hk1 & Hv & Hd & Hm1 & Hs1 & Hn1).
  cbn [mbind option_bind]. rewrite <- Hm1 in Hm. pose proof (maps_slot kvs1 didx _ Hd) as Hmd.
  rewrite Hm in Hmd. injection Hmd as ->. rewrite <- Hm1.
  destruct (law_addRaw d k Hv) as (d' & r & -> & Hv' & Hpost). cbn [mbind option_bind].
  destruct r as [p|p].
  - destruct Hpost as (Hp & Hn & Hins).
    destruct (put_count kvs1 didx d d' 1) as (kvs2 & kvs3 & -> & Hc & Hk3 & Hd3 & Hn3);
      [done|done|done| |by left|by rewrite Hs1|].
    { rewrite (law_size _ Hv), (law_size _ Hv'), Hins, map_size_insert_None by done. lia. }
    cbn [mbind option_bind]. rewrite Hc. cbn [mbind option_bind].
    exists kvs3, (inl p). split_and!; [done|done|congruence|done| |].
    + exists d'. split; [|done]. by eapply insert_slot; [exact Hk1|rewrite Hn1|].
    + rewrite (maps_insert _ _ _ _ Hd3). simpl. by rewrite Hins.
  - destruct Hpost as [Hp Hmp].
    destruct (put_same kvs1 didx d d') as (kvs2 & -> & Hk2 & _ & Hn2 & _ & Hd2); [done|done|done| |].
    { by rewrite (law_size _ Hv), (law_size _ Hv'), Hmp. }
    cbn [mbind option_bind]. exists kvs2, (inr p). split_and!; [done|done|congruence| | |].
    + simpl. rewrite <- Hmp. by eapply law_points.
    + exists d'. split; [|done]. by eapply insert_slot; [exact Hk1|rewrite Hn1|].
    + rewrite (maps_insert _ _ _ _ Hd2). apply list_insert_id. simpl. by rewrite Hmp.
Qed.

(** An operation that does not change the number of keys of a dict. *)
Lemma put_map kvs didx d0 d :
  wf_kvs kvs → byte_at didx (dicts kvs) = Some (Some d0) → valid d →
  size (as_map d) = size (as_map d0) →
  ∃ kvs', put_dict kvs didx d = Some kvs' ∧ wf_kvs kvs' ∧ num_dicts kvs' = num_dicts kvs ∧
    resize_cursor kvs' = resize_cursor kvs ∧ byte_at didx (dicts kvs') = Some (Some d) ∧
    maps kvs' = <[Z.to_nat didx := as_map d]> (maps kvs).
Proof using laws.
  intros Hk Hd Hv Hs.
  assert (Hr : 0 <= didx < num_dicts kvs) by (rewrite <- (wk_len _ Hk); by eapply byte_at_lt).
  assert (Hv0 : valid d0).
  { destruct (slot_lookup kvs didx Hk Hr) as (o & Ho & Hok & _). rewrite Hd in Ho. by injection Ho as <-. }
  destruct (put_same kvs didx d0 d) as (kvs' & ? & ? & _ & ? & ? & Hd'); [done|done|done| |].
  { by rewrite (law_size _ Hv0), (law_size _ Hv), Hs. }
  exists kvs'. split_and!; [done|done|done|done|by eapply (insert_slot kvs)|].
  by rewrite (maps_insert _ _ _ _ Hd').
Qed.

Lemma put_same_map kvs didx d0 d :
  wf_kvs kvs → byte_at didx (dicts kvs) = Some (Some d0) → valid d → as_map d = as_map d0 →
  ∃ kvs', put_dict kvs didx d = Some kvs' ∧ wf_kvs kvs' ∧ num_dicts kvs' = num_dicts kvs ∧
    resize_cursor kvs' = resize_cursor kvs ∧ byte_at didx (dicts kvs') = Some (Some d) ∧
    maps kvs' = maps kvs.
Proof using laws.
  intros Hk Hd Hv Hm. destruct (put_map kvs didx d0 d Hk Hd Hv) as (kvs' & ? & ? & ? & ? & ? & Hmp);
    [by rewrite Hm|]. exists kvs'. split_and!; try done. rewrite Hmp, Hm.
  apply list_insert_id. apply (maps_slot kvs didx _ Hd).
Qed.

Lemma kv_set_val kvs didx p c v m :
  wf_kvs kvs → points_at kvs didx p c → maps kvs !! Z.to_nat didx = Some m →
  ∃ kvs', kvstoreDictSetVal kvs didx p v = Some kvs' ∧ wf_kvs kvs' ∧
    num_dicts kvs' = num_dicts kvs ∧
    maps kvs' = <[Z.to_nat didx := <[c := Some (dup v)]> m]> (maps kvs).
Proof using laws.
  intros Hk (d & Hd & Hp) Hm. unfold kvstoreDictSetVal, kvstoreGetDict. rewrite Hd.
  cbn [mbind option_bind]. pose proof (maps_slot kvs didx _ Hd) as Hmd. rewrite Hm in Hmd.
  injection Hmd as ->.
  assert (Hr : 0 <= didx < num_dicts kvs) by (rewrite <- (wk_len _ Hk); by eapply byte_at_lt).
  assert (Hv : valid d).
  { destruct (slot_lookup kvs didx Hk Hr) as (o & Ho & Hok & _). rewrite Hd in Ho. by injection Ho as <-. }
  destruct (law_setVal d p c v Hv Hp) as (d' & -> & Hv' & Hins). cbn [mbind option_bind].
  destruct (law_points d p c Hv Hp) as [x Hx].
  destruct (put_map kvs didx d d' Hk Hd Hv') as (kvs' & ? & ? & ? & _ & _ & Hmp).
  { rewrite Hins. apply map_size_insert_Some. by exists x. }
  exists kvs'. split_and!; [done|done|done|]. by rewrite Hmp, Hins.
Qed.

Lemma maps_slot_inv kvs didx m :
  maps kvs !! Z.to_nat didx = Some m → 0 <= didx →
  ∃ o, byte_at didx (dicts kvs) = Some o ∧ m = slot_map o.
Proof.
  intros Hm H0. unfold maps in Hm. rewrite list_lookup_fmap in Hm. unfold byte_at. case_if; [|lia].
  destruct (dicts kvs !! Z.to_nat didx) as [o|]; [|done]. injection Hm as <-. by exists o.
Qed.

Lemma slot_valid kvs didx d :
  wf_kvs kvs → byte_at didx (dicts kvs) = Some (Some d) → valid d ∧ 0 <= didx < num_dicts kvs.
Proof.
  intros Hk Hd.
  assert (Hr : 0 <= didx < num_dicts kvs) by (rewrite <- (wk_len _ Hk); by eapply byte_at_lt).
  destruct (slot_lookup kvs didx Hk Hr) as (o & Ho & Hok & _). rewrite Hd in Ho.
  by injection Ho as <-.
Qed.

(** Removing a key: the dict, the counters, and the dict itself if it is empty. *)
Lemma drop_key kvs didx d0 d c :
  wf_kvs kvs → byte_at didx (dicts kvs) = Some (Some d0) → valid d → is_Some (as_map d0 !! c) →
  as_map d = delete c (as_map d0) →
  ∃ kvs1 kvs2 kvs3, put_dict kvs didx d = Some kvs1 ∧
    cumulativeKeyCountAdd kvs1 didx (-1) = Some kvs2 ∧ freeDictIfNeeded kvs2 didx = Some kvs3 ∧
    wf_kvs kvs3 ∧ num_dicts kvs3 = num_dicts kvs ∧
    maps kvs3 = <[Z.to_nat didx := delete c (as_map d0)]> (maps kvs).
Proof using laws.
  intros Hk Hd Hv [x Hx] Hm. destruct (slot_valid kvs didx d0 Hk Hd) as [Hv0 Hr].
  destruct (put_count kvs didx d0 d (-1)) as (kvs1 & kvs2 & H1 & H2 & Hk2 & Hd2 & Hn2);
    [done|done|done| |by right| |].
  { rewrite (law_size _ Hv), (law_size _ Hv0), Hm, (map_size_delete_Some c) by (by exists x).
    assert (size (as_map d0) ≠ 0%nat); [|lia]. intros Hz. apply map_size_empty_inv in Hz.
    by rewrite Hz, lookup_empty in Hx. }
  { pose proof (wk_total _ Hk). lia. }
  destruct (free_spec kvs2 didx Hk2) as (kvs3 & H3 & Hk3 & Hm3 & _ & Hn3 & _); [by rewrite Hn2|].
  exists kvs1, kvs2, kvs3. split_and!; [done|done|done|done|congruence|].
  rewrite Hm3, (maps_insert _ _ _ _ Hd2). simpl. by rewrite Hm.
Qed.

Lemma kv_delete kvs didx k m :
  wf_kvs kvs → maps kvs !! Z.to_nat didx = Some m → 0 <= didx →
  ∃ kvs', kvstoreDictDelete kvs didx k =
      Some (kvs', if m !! content k is Some _ then DICT_OK else DICT_ERR) ∧
    wf_kvs kvs' ∧ num_dicts kvs' = num_dicts kvs ∧
    maps kvs' = <[Z.to_nat didx := delete (content k) m]> (maps kvs).
Proof using laws.
  intros Hk Hm H0. unfold kvstoreDictDelete, kvstoreGetDict.
  destruct (maps_slot_inv kvs didx m Hm H0) as (o & Ho & ->). rewrite Ho.
  cbn [mbind option_bind]. destruct o as [d|]; simpl slot_map in *.
  2: { rewrite lookup_empty. exists kvs. split_and!; [done|done|done|].
       rewrite delete_empty. by rewrite list_insert_id. }
  destruct (slot_valid kvs didx d Hk Ho) as [Hv Hr].
  destruct (law_delete d k Hv) as (d' & -> & Hv' & Hmd). cbn [mbind option_bind].
  destruct (as_map d !! content k) as [x|] eqn:Hx.
  - destruct (drop_key kvs didx d d' (content k)) as (k1 & k2 & k3 & -> & H2 & H3 & ? & ? & ?);
      [done|done|done|by exists x|done|].
    cbn [mbind option_bind]. change (DICT_OK =? DICT_OK) with true. cbv iota.
    rewrite H2. cbn [mbind option_bind]. rewrite H3. cbn [mbind option_bind]. by exists k3.
  - rewrite delete_id in Hmd by done.
    destruct (put_same_map kvs didx d d' Hk Ho Hv' Hmd) as (k1 & -> & ? & ? & _ & _ & Hmk).
    cbn [mbind option_bind]. change (DICT_ERR =? DICT_OK) with false. cbv iota.
    exists k1. split_and!; [done|done|done|]. rewrite delete_id by done. by rewrite Hmk, list_insert_id.
Qed.

Lemma kv_unlink kvs didx k m :
  wf_kvs kvs → maps kvs !! Z.to_nat didx = Some m → 0 <= didx →
  ∃ kvs1 r, kvstoreDictTwoPhaseUnlinkFind kvs didx k = Some (kvs1, r) ∧ wf_kvs kvs1 ∧
    num_dicts kvs1 = num_dicts kvs ∧ maps kvs1 = maps kvs ∧
    match r with
    | None => m !! content k = None
    | Some p => is_Some (m !! content k) ∧
        ∃ kvs2, kvstoreDictTwoPhaseUnlinkFree kvs1 didx r = Some kvs2 ∧ wf_kvs kvs2 ∧
          num_dicts kvs2 = num_dicts kvs ∧
          maps kvs2 = <[Z.to_nat didx := delete (content k) m]> (maps kvs)
    end.
Proof using laws.
  intros Hk Hm H0. unfold kvstoreDictTwoPhaseUnlinkFind, kvstoreGetDict.
  destruct (maps_slot_inv kvs didx m Hm H0) as (o & Ho & ->). rewrite Ho.
  cbn [mbind option_bind]. destruct o as [d|]; simpl slot_map in *; [|by exists kvs, None].
  destruct (slot_valid kvs didx d Hk Ho) as [Hv Hr].
  destruct (law_unlinkFind d k Hv) as (d1 & r & -> & Hv1 & Hm1 & Hp). cbn [mbind option_bind].
  destruct (put_same_map kvs didx d d1 Hk Ho Hv1 Hm1) as (k1 & -> & Hk1 & Hn1 & _ & Ho1 & Hmk).
  cbn [mbind option_bind]. exists k1, r. split_and!; [done|done|done|done|].
  destruct r as [p|]; [|done]. destruct (law_points d1 p _ Hv1 Hp) as [x Hx].
  split; [rewrite <- Hm1; by exists x|].
  destruct (law_unlinkFree d1 p _ Hv1 Hp) as (d2 & Hf & Hv2 & Hm2).
  destruct (drop_key k1 didx d1 d2 (content k)) as (k2 & k3 & k4 & Hp2 & Hc2 & Hf2 & ? & ? & Hm4);
    [done|done|done|by exists x|done|].
  unfold kvstoreDictTwoPhaseUnlinkFree, kvstoreGetDict. rewrite Ho1. cbn [mbind option_bind].
  rewrite Hf. cbn [mbind option_bind]. rewrite Hp2. cbn [mbind option_bind]. rewrite Hc2.
  cbn [mbind option_bind]. exists k4. split_and!; [done|done|congruence|]. by rewrite Hm4, Hm1, Hmk.
Qed.

Lemma kv_fetch kvs didx k m :
  wf_kvs kvs → maps kvs !! Z.to_nat didx = Some m → 0 <= didx →
  ∃ kvs', kvstoreDictFetchValue kvs didx k = Some (kvs', m !! content k) ∧ wf_kvs kvs' ∧
    num_dicts kvs' = num_dicts kvs ∧ maps kvs' = maps kvs.
Proof using laws.
  intros Hk Hm H0. unfold kvstoreDictFetchValue, kvstoreGetDict.
  destruct (maps_slot_inv kvs didx m Hm H0) as (o & Ho & ->). rewrite Ho.
  cbn [mbind option_bind]. destruct o as [d|]; simpl slot_map in *.
  2: { exists kvs. by rewrite lookup_empty. }
  destruct (slot_valid kvs didx d Hk Ho) as [Hv Hr].
  destruct (law_fetchValue d k Hv) as (d1 & -> & Hv1 & Hm1). cbn [mbind option_bind].
  destruct (put_same_map kvs didx d d1 Hk Ho Hv1 Hm1) as (k1 & -> & ? & ? & _ & _ & ?).
  by exists k1.
Qed.

(** *** The operations on the whole store *)

(** What resizing keeps. *)
Definition same_store (kvs kvs' : kvstore D) : Prop :=
  wf_kvs kvs' ∧ num_dicts kvs' = num_dicts kvs ∧ maps kvs' = maps kvs.

Lemma same_store_refl kvs : wf_kvs kvs → same_store kvs kvs.
Proof. by intros. Qed.

Lemma same_store_trans k1 k2 k3 : same_store k1 k2 → same_store k2 k3 → same_store k1 k3.
Proof. intros (? & ? & ?) (? & ? & ?). split_and!; congruence. Qed.

Lemma expand_loop_spec n kvs i newsize try_expand skip_cb malloc_ok :
  wf_kvs kvs → 0 <= i → i + Z.of_nat n <= num_dicts kvs → 0 <= newsize →
  ∃ kvs' r, expand_loop n kvs i newsize try_expand skip_cb malloc_ok = Some (kvs', r) ∧
    same_store kvs kvs' ∧ (try_expand = false → r = true).
Proof using laws.
  intros Hk H0 Hn Hsz. revert kvs i Hk H0 Hn. induction n as [|n IH]; intros kvs i Hk H0 Hn; simpl.
  { exists kvs, true. split_and!; [done|by apply same_store_refl|done]. }
  destruct (slot_lookup kvs i Hk ltac:(lia)) as (o & Ho & Hok & _ & Hm).
  unfold kvstoreGetDict. rewrite Ho. cbn [mbind option_bind].
  destruct o as [d|]; [|apply IH; [done|lia|lia]].
  destruct (skip_cb i); [apply IH; [done|lia|lia]|].
  assert (∃ d' r, (if try_expand then api_tryExpand d newsize (malloc_ok i) else api_expand d newsize)
    = Some (d', r) ∧ valid d' ∧ as_map d' = as_map d) as (d' & r & -> & Hv' & Hm').
  { destruct try_expand.
    - destruct (law_tryExpand d newsize (malloc_ok i) Hok Hsz) as (d' & r & ? & ? & ? & _). by exists d', r.
    - by apply law_expand. }
  cbn [mbind option_bind].
  destruct (put_same_map kvs i d d' Hk Ho Hv' Hm') as (k1 & -> & Hk1 & Hn1 & _ & _ & Hmk).
  cbn [mbind option_bind]. destruct (try_expand && (r =? DICT_ERR)) eqn:Hstop.
  - exists k1, false. split_and!; [done|done|]. by destruct try_expand.
  - destruct (IH k1 (i + 1) Hk1) as (k2 & r2 & -> & Hs & Hr2); [lia|lia|].
    exists k2, r2. split_and!; [done|by apply (same_store_trans kvs k1)|done].
Qed.

Lemma set_cursor_wf kvs c : wf_kvs kvs → 0 <= c < num_dicts kvs → wf_kvs (set_resize_cursor kvs c).
Proof. intros [] Hc. by constructor. Qed.

Lemma resize_loop_spec n kvs :
  wf_kvs kvs → ∃ kvs', resize_loop n kvs = Some kvs' ∧ same_store kvs kvs' ∧
    resize_cursor kvs' = (resize_cursor kvs + Z.of_nat n) mod num_dicts kvs.
Proof using laws.
  revert kvs. induction n as [|n IH]; intros kvs Hk; simpl.
  { exists kvs. split_and!; try done. pose proof (wk_cursor _ Hk).
    rewrite Z.add_0_r. by rewrite Z.mod_small. }
  pose proof (wk_cursor _ Hk) as Hc. pose proof (num_pos _ Hk) as Hn.
  destruct (slot_lookup kvs _ Hk Hc) as (o & Ho & Hok & _ & _).
  unfold kvstoreGetDict. rewrite Ho. cbn [mbind option_bind].
  set (didx := resize_cursor kvs) in *.
  assert (∃ k1, match o with
      | None => Some kvs
      | Some d =>
          '(d, r) ← api_shrinkIfNeeded d;
          d ← (if r =? DICT_ERR then '(d, _) ← api_expandIfNeeded d; Some d else Some d);
          put_dict kvs didx d
      end = Some k1 ∧ same_store kvs k1) as (k1 & -> & Hs1).
  { destruct o as [d|]; [|by exists kvs].
    destruct (law_shrinkIfNeeded d Hok) as (d1 & r & -> & Hv1 & Hm1). cbn [mbind option_bind].
    assert (∃ d2, (if r =? DICT_ERR then '(d, _) ← api_expandIfNeeded d1; Some d else Some d1) = Some d2 ∧
      valid d2 ∧ as_map d2 = as_map d) as (d2 & -> & Hv2 & Hm2).
    { destruct (r =? DICT_ERR); [|by exists d1].
      destruct (law_expandIfNeeded d1 Hv1) as (d2 & r2 & -> & ? & Hm2). exists d2.
      split_and!; [done|done|congruence]. }
    cbn [mbind option_bind].
    destruct (put_same_map kvs didx d d2 Hk Ho Hv2 Hm2) as (k1 & -> & ? & ? & _ & _ & ?).
    by exists k1. }
  cbn [mbind option_bind]. destruct Hs1 as (Hk1 & Hn1 & Hm1). rewrite Hn1.
  destruct (IH (set_resize_cursor k1 ((didx + 1) mod num_dicts kvs))) as (k2 & -> & Hs2 & Hc2).
  { apply set_cursor_wf; [done|]. rewrite Hn1. apply Z.mod_pos_bound. lia. }
  exists k2. split_and!; [done| |].
  - apply (same_store_trans kvs k1); [done|exact Hs2].
  - rewrite Hc2. simpl. rewrite Hn1. rewrite Z.add_mod_idemp_l by lia. f_equal. lia.
Qed.

(** Emptying the dicts from [i] on. *)
Lemma empty_loop_spec n kvs i :
  (∀ j o, byte_at j (dicts kvs) = Some o → slot_ok o) →
  0 <= i → i + Z.of_nat n = zlen (dicts kvs) →
  (∀ j o, 0 <= j < i → byte_at j (dicts kvs) = Some o → slot_map o = ∅) →
  allocated_dicts kvs = sumz (allocated <$> dicts kvs) →
  ∃ kvs', empty_loop n kvs i = Some kvs' ∧
    (∀ j o, byte_at j (dicts kvs') = Some o → slot_ok o ∧ slot_map o = ∅) ∧
    zlen (dicts kvs') = zlen (dicts kvs) ∧ allocated_dicts kvs' = sumz (allocated <$> dicts kvs') ∧
    num_dicts kvs' = num_dicts kvs ∧ num_dicts_bits kvs' = num_dicts_bits kvs ∧
    dict_size_index kvs' = dict_size_index kvs.
Proof using laws.
  revert kvs i. induction n as [|n IH]; intros kvs i Hok H0 Hn He Ha; simpl.
  { exists kvs. split_and!; try done. intros j o Ho. split; [by eapply Hok|].
    pose proof (byte_at_lt _ _ _ Ho). apply (He j); [lia|done]. }
  destruct (byte_at_in i (dicts kvs) ltac:(lia)) as [o Ho]. unfold kvstoreGetDict at 1. rewrite Ho.
  cbn [mbind option_bind]. pose proof (Hok _ _ Ho) as Hv.
  assert (Hstep : ∀ kvs', zlen (dicts kvs') = zlen (dicts kvs) →
    (∀ j, byte_at j (dicts kvs') = if j =? i then byte_at i (dicts kvs') else byte_at j (dicts kvs)) →
    (∀ o, byte_at i (dicts kvs') = Some o → slot_ok o ∧ slot_map o = ∅) →
    allocated_dicts kvs' = sumz (allocated <$> dicts kvs') →
    num_dicts kvs' = num_dicts kvs → num_dicts_bits kvs' = num_dicts_bits kvs →
    dict_size_index kvs' = dict_size_index kvs →
    ∃ kvs2, empty_loop n kvs' (i + 1) = Some kvs2 ∧
      (∀ j o, byte_at j (dicts kvs2) = Some o → slot_ok o ∧ slot_map o = ∅) ∧
      zlen (dicts kvs2) = zlen (dicts kvs) ∧ allocated_dicts kvs2 = sumz (allocated <$> dicts kvs2) ∧
      num_dicts kvs2 = num_dicts kvs ∧ num_dicts_bits kvs2 = num_dicts_bits kvs ∧
      dict_size_index kvs2 = dict_size_index kvs).
  { intros kvs' Hl Hj Hi Ha' E1 E2 E3. rewrite <- Hl, <- E1, <- E2, <- E3.
    apply IH; [|lia|lia| |done].
    - intros j o' Ho'. rewrite Hj in Ho'. destruct (j =? i) eqn:Hji; zb; [by apply Hi|by eapply Hok].
    - intros j o' Hlt Ho'. rewrite Hj in Ho'. destruct (j =? i) eqn:Hji; zb; [by apply Hi|].
      apply (He j); [lia|done]. }
  destruct o as [d|].
  2: { apply Hstep; try done.
       - intros j. destruct (j =? i) eqn:Hji; zb; by subst.
       - intros o. rewrite Ho. by intros [= <-]. }
  destruct (law_empty d Hv) as [Hve Hme]. unfold put_dict.
  destruct (byte_at_store (dicts kvs) i (Some (api_empty d)) _ Ho) as (l & -> & Hins & Hll & Hj).
  cbn [mbind option_bind].
  assert (Hlk : dicts kvs !! Z.to_nat i = Some (Some d)).
  { unfold byte_at in Ho. by destruct (0 <=? i). }
  assert (Hal : ∀ o, sumz (allocated <$> <[Z.to_nat i := o]> (dicts kvs)) =
    allocated_dicts kvs + (allocated o - 1)).
  { intros o. rewrite list_fmap_insert, (sumz_insert _ _ 1), <- Ha; [done|].
    by rewrite list_lookup_fmap, Hlk. }
  unfold freeDictIfNeeded, kvstoreDictSize, kvstoreDictIsRehashingPaused, kvstoreGetDict.
  simpl dicts. simpl flags. rewrite (Hj i), Z.eqb_refl. cbn [mbind option_bind].
  assert (Hkeep : ∃ kvs2, empty_loop n (set_dicts kvs l (allocated_dicts kvs)) (i + 1) = Some kvs2 ∧
      (∀ j o, byte_at j (dicts kvs2) = Some o → slot_ok o ∧ slot_map o = ∅) ∧
      zlen (dicts kvs2) = zlen (dicts kvs) ∧ allocated_dicts kvs2 = sumz (allocated <$> dicts kvs2) ∧
      num_dicts kvs2 = num_dicts kvs ∧ num_dicts_bits kvs2 = num_dicts_bits kvs ∧
      dict_size_index kvs2 = dict_size_index kvs).
  { apply Hstep; simpl; try done.
    - intros j. rewrite !Hj, Z.eqb_refl. done.
    - rewrite Hj, Z.eqb_refl. by intros o [= <-].
    - rewrite Hins, Hal. simpl. lia. }
  destruct (has_flag _ _); [|exact Hkeep]. cbn [negb].
  destruct (_ || _); [exact Hkeep|].
  assert (Hi : byte_at i l = Some (Some (api_empty d))) by (by rewrite Hj, Z.eqb_refl).
  destruct (byte_at_store l i None _ Hi) as (l' & -> & Hins' & Hll' & Hj'). cbn [mbind option_bind].
  apply Hstep; simpl; try done.
  - congruence.
  - intros j. rewrite !Hj', Z.eqb_refl. destruct (j =? i) eqn:E; [done|]. by rewrite Hj, E.
  - rewrite Hj', Z.eqb_refl. by intros o [= <-].
  - rewrite Hins', Hins, list_insert_insert_eq, Hal. simpl. lia.
Qed.

Lemma node_zero n i : node (replicate n 0) i = 0.
Proof.
  assert (Hp : ∀ j, prefix (replicate n 0) j = 0).
  { intros j. unfold prefix. rewrite take_replicate. induction (Z.to_nat j `min` n)%nat; [done|].
    unfold sumz in *. simpl. lia. }
  unfold node. by rewrite !Hp.
Qed.

Lemma sumz_zero n : sumz (replicate n 0) = 0.
Proof. induction n; [done|]. unfold sumz in *. simpl. lia. Qed.

Lemma fenwick_zero n : fenwick (replicate n 0) (replicate (S n) 0).
Proof.
  constructor.
  - rewrite !zlen_replicate. lia.
  - intros i. rewrite zlen_replicate. intros Hi. rewrite node_zero. unfold byte_at.
    case_if; [|lia]. apply lookup_replicate_2. lia.
Qed.

(** A store of which all the dicts are empty, with its counters reset. *)
Lemma zero_counts_wf kvs :
  0 <= num_dicts_bits kvs <= 16 → num_dicts kvs = 2 ^ num_dicts_bits kvs →
  zlen (dicts kvs) = num_dicts kvs → allocated_dicts kvs = sumz (allocated <$> dicts kvs) →
  resize_cursor kvs = 0 →
  (∀ j o, byte_at j (dicts kvs) = Some o → slot_ok o ∧ slot_map o = ∅) →
  let kvs' := set_counts kvs 0 0 (if num_dicts kvs =? 1 then [] else replicate (Z.to_nat (num_dicts kvs + 1)) 0) in
  wf_kvs kvs' ∧ maps kvs' = replicate (Z.to_nat (num_dicts kvs)) ∅.
Proof using laws.
  intros Hb Hn Hl Ha Hc Hall kvs'. pose proof (Z.pow_pos_nonneg 2 (num_dicts_bits kvs)) as Hpos.
  assert (Hlen : length (dicts kvs) = Z.to_nat (num_dicts kvs)) by (unfold zlen in Hl; lia).
  assert (Hin : ∀ i o, dicts kvs !! i = Some o → slot_ok o ∧ slot_map o = ∅).
  { intros i o Ho. apply (Hall (Z.of_nat i)). unfold byte_at. case_if; [|lia]. by rewrite Nat2Z.id. }
  assert (Hs : sizes kvs' = replicate (Z.to_nat (num_dicts kvs)) 0).
  { apply list_eq. intros i. unfold sizes. rewrite list_lookup_fmap. simpl.
    destruct (dicts kvs !! i) as [o|] eqn:Ho; simpl.
    - destruct (Hin _ _ Ho) as [Hok He]. rewrite slot_size, He by done. symmetry.
      apply lookup_replicate_2. apply lookup_lt_Some in Ho. lia.
    - symmetry. apply lookup_replicate_None. apply lookup_ge_None in Ho. lia. }
  split.
  - constructor; simpl; rewrite ?Hs; try done.
    + apply list.Forall_lookup. intros i o Ho. by eapply Hin.
    + by rewrite sumz_zero.
    + by rewrite sumz_zero.
    + rewrite fmap_replicate. by rewrite sumz_zero.
    + case_if; [done|]. replace (Z.to_nat (num_dicts kvs + 1)) with (S (Z.to_nat (num_dicts kvs))) by lia.
      apply fenwick_zero.
    + lia.
  - apply list_eq. intros i. unfold maps. rewrite list_lookup_fmap. simpl.
    destruct (dicts kvs !! i) as [o|] eqn:Ho; simpl.
    + destruct (Hin _ _ Ho) as [_ ->]. symmetry. apply lookup_replicate_2. apply lookup_lt_Some in Ho. lia.
    + symmetry. apply lookup_replicate_None. apply lookup_ge_None in Ho. lia.
Qed.

Lemma create_loop_spec n kvs i :
  (∀ j o, byte_at j (dicts kvs) = Some o → slot_ok o ∧ slot_map o = ∅) →
  0 <= i → i + Z.of_nat n <= zlen (dicts kvs) →
  allocated_dicts kvs = sumz (allocated <$> dicts kvs) →
  ∃ kvs', create_loop n kvs i = Some kvs' ∧
    (∀ j o, byte_at j (dicts kvs') = Some o → slot_ok o ∧ slot_map o = ∅) ∧
    zlen (dicts kvs') = zlen (dicts kvs) ∧ allocated_dicts kvs' = sumz (allocated <$> dicts kvs') ∧
    num_dicts kvs' = num_dicts kvs ∧ num_dicts_bits kvs' = num_dicts_bits kvs ∧
    resize_cursor kvs' = resize_cursor kvs.
Proof using laws.
  revert kvs i. induction n as [|n IH]; intros kvs i Hok H0 Hn Ha; simpl; [by exists kvs|].
  destruct (byte_at_in i (dicts kvs) ltac:(lia)) as [o Ho].
  unfold createDictIfNeeded, kvstoreGetDict. rewrite Ho. cbn [mbind option_bind].
  destruct o as [d|]; [apply IH; [done|lia|lia|done]|].
  destruct law_create as [Hv He].
  destruct (byte_at_store (dicts kvs) i (Some api_create) _ Ho) as (l & -> & Hins & Hll & Hj).
  cbn [mbind option_bind]. rewrite <- Hll.
  destruct (IH (set_dicts kvs l (allocated_dicts kvs + 1)) (i + 1)) as (kvs' & ? & ? & ? & ? & ? & ? & ?);
    simpl; [|lia|lia| |by exists kvs'].
  - intros j o Hjo. rewrite Hj in Hjo. destruct (j =? i); [by injection Hjo as <-|by eapply Hok].
  - rewrite Hins, list_fmap_insert, (sumz_insert _ _ 0); [simpl; lia|].
    unfold byte_at in Ho. destruct (0 <=? i); [|done]. by rewrite list_lookup_fmap, Ho.
Qed.

Lemma kv_create bits fl :
  0 <= bits <= 16 →
  ∃ kvs, kvstoreCreate bits fl = Some kvs ∧ wf_kvs kvs ∧ num_dicts kvs = 2 ^ bits ∧
    maps kvs = replicate (Z.to_nat (2 ^ bits)) ∅.
Proof using laws.
  intros Hb. unfold kvstoreCreate. replace (16 <? bits) with false by (symmetry; apply Z.ltb_ge; lia).
  rewrite Z.shiftl_1_l. pose proof (Z.pow_pos_nonneg 2 bits ltac:(lia) ltac:(lia)) as Hp. cbv zeta.
  set (n := 2 ^ bits) in *.
  set (kvs0 := {| flags := fl; dicts := replicate (Z.to_nat n) None |}).
  assert (Hall : ∀ j o, byte_at j (dicts kvs0) = Some o → slot_ok o ∧ slot_map o = ∅).
  { intros j o. simpl. unfold byte_at. case_if; [|done]. intros Ho.
    apply lookup_replicate_1 in Ho as [-> _]. done. }
  assert (Hl : zlen (dicts kvs0) = n) by (simpl; rewrite zlen_replicate; lia).
  assert (Ha : allocated_dicts kvs0 = sumz (allocated <$> dicts kvs0)).
  { simpl. rewrite fmap_replicate. by rewrite sumz_zero. }
  assert (∃ kvs1, (if negb (has_flag fl KVSTORE_ALLOCATE_DICTS_ON_DEMAND)
      then create_loop (Z.to_nat n) kvs0 0 else Some kvs0) = Some kvs1 ∧
    (∀ j o, byte_at j (dicts kvs1) = Some o → slot_ok o ∧ slot_map o = ∅) ∧
    zlen (dicts kvs1) = n ∧ allocated_dicts kvs1 = sumz (allocated <$> dicts kvs1) ∧
    num_dicts kvs1 = n ∧ num_dicts_bits kvs1 = bits ∧ resize_cursor kvs1 = 0)
    as (kvs1 & -> & H1 & H2 & H3 & H4 & H5 & H6).
  { destruct (negb _); [|by exists kvs0].
    destruct (create_loop_spec (Z.to_nat n) kvs0 0 Hall) as (kvs1 & ? & ? & ? & ? & ? & ? & ?);
      [lia|lia|done|]. exists kvs1. split_and!; try done. lia. }
  cbn [mbind option_bind]. eexists. split; [reflexivity|].
  destruct (zero_counts_wf kvs1) as [Hw Hm]; rewrite ?H4, ?H5; try done; try lia.
  rewrite H4 in Hw, Hm.
  assert (Heq : (if 1 <? n then replicate (Z.to_nat (n + 1)) 0 else []) =
          (if n =? 1 then [] else replicate (Z.to_nat (n + 1)) 0)) by (repeat case_if; lia || done).
  rewrite Heq. by split_and!.
Qed.

Lemma kv_empty kvs :
  wf_kvs kvs →
  ∃ kvs', kvstoreEmpty kvs = Some kvs' ∧ wf_kvs kvs' ∧ num_dicts kvs' = num_dicts kvs ∧
    maps kvs' = replicate (Z.to_nat (num_dicts kvs)) ∅.
Proof using laws.
  intros Hk. unfold kvstoreEmpty. pose proof (num_pos kvs Hk) as Hn. pose proof (wk_len _ Hk) as Hl.
  destruct (empty_loop_spec (Z.to_nat (num_dicts kvs)) kvs 0) as (k1 & -> & H1 & H2 & H3 & H4 & H5 & H6).
  - intros j o Ho. pose proof (wk_slots _ Hk) as Hs. rewrite list.Forall_lookup in Hs.
    unfold byte_at in Ho. case_if; [|done]. by eapply Hs.
  - lia.
  - lia.
  - intros; lia.
  - apply Hk.
  - cbn [mbind option_bind]. eexists. split; [reflexivity|].
    destruct (zero_counts_wf (set_resize_cursor k1 0)) as [Hw Hm]; simpl; try done.
    + rewrite H5. apply Hk.
    + rewrite H4, H5. apply Hk.
    + congruence.
    + simpl in Hw, Hm. rewrite H6.
      assert (Heq : match dict_size_index kvs with
              | [] => []
              | _ => replicate (Z.to_nat (num_dicts k1 + 1)) 0
              end = (if num_dicts k1 =? 1 then [] else replicate (Z.to_nat (num_dicts k1 + 1)) 0)).
      { pose proof (wk_index _ Hk) as Hix. rewrite H4. destruct (num_dicts kvs =? 1); [by rewrite Hix|].
        pose proof (fw_len _ _ Hix) as Hf. rewrite zlen_sizes in Hf by done.
        destruct (dict_size_index kvs); [|done]. unfold zlen in Hf. simpl in Hf. lia. }
      rewrite Heq. split_and!; [done|done|]. by rewrite <- H4.
Qed.

(** ** Queries *)

(** The number of keys of each dict, from the maps. *)
Definition map_sizes (ms : list (gmap C (option V))) : list Z := (λ m, Z.of_nat (size m)) <$> ms.

Lemma sizes_maps kvs : wf_kvs kvs → sizes kvs = map_sizes (maps kvs).
Proof using laws.
  intros Hk. unfold sizes, map_sizes, maps. rewrite <- list_fmap_compose. apply list_fmap_ext.
  intros i o Ho. simpl. apply slot_size. pose proof (wk_slots _ Hk) as Hs.
  rewrite list.Forall_lookup in Hs. by eapply Hs.
Qed.

Lemma read_spec kvs didx :
  wf_kvs kvs → 0 <= didx < num_dicts kvs →
  cumulativeKeyCountRead kvs didx = Some (prefix (sizes kvs) (didx + 1)).
Proof using laws.
  intros Hk Hd. unfold cumulativeKeyCountRead. pose proof (wk_index _ Hk) as Hix.
  destruct (num_dicts kvs =? 1) eqn:Hn; zb.
  - replace didx with 0 by lia. simpl. rewrite size_spec by done. f_equal. symmetry.
    apply prefix_all. rewrite zlen_sizes by done. lia.
  - pose proof (wf_sizes_ok kvs Hk) as Hs. pose proof (prefix_bounds (sizes kvs) (didx + 1) (proj1 Hs)).
    destruct Hs as [Hs Ht].
    rewrite (read_loop_spec _ (sizes kvs)); [by rewrite Z.add_0_l|done|done| |lia|lia|lia].
    rewrite zlen_sizes by done. lia.
Qed.

Lemma find_index_spec kvs target :
  wf_kvs kvs → 1 <= target <= sumz (sizes kvs) →
  ∃ r, kvstoreFindDictIndexByKeyIndex kvs target = Some r ∧ 0 <= r < num_dicts kvs ∧
    prefix (sizes kvs) r < target <= prefix (sizes kvs) (r + 1).
Proof using laws.
  intros Hk Ht. unfold kvstoreFindDictIndexByKeyIndex. rewrite size_spec by done.
  cbn [mbind option_bind]. pose proof (wk_index _ Hk) as Hix. pose proof (zlen_sizes kvs Hk) as Hz.
  destruct (num_dicts kvs =? 1) eqn:Hn; zb; cbn [orb].
  { exists 0. rewrite prefix_0, prefix_all by lia. split_and!; try done; lia. }
  replace (sumz (sizes kvs) =? 0) with false by (symmetry; apply Z.eqb_neq; lia).
  replace (sumz (sizes kvs) <? target) with false by (symmetry; apply Z.ltb_ge; lia). cbv zeta.
  pose proof (wk_num _ Hk) as Hnum. pose proof (wk_bits _ Hk) as Hb. rewrite Z.shiftl_1_l, <- Hnum.
  pose proof (num_pos kvs Hk) as Hp.
  assert (Hbits : 1 <= num_dicts_bits kvs).
  { destruct (Z.eq_dec (num_dicts_bits kvs) 0) as [E|]; [|lia]. rewrite E in Hnum. simpl in Hnum. lia. }
  set (e := Z.to_nat (num_dicts_bits kvs - 1)).
  assert (He : num_dicts_bits kvs = Z.of_nat (S e)) by lia.
  assert (Hlow : node (sizes kvs) (num_dicts kvs) = sumz (sizes kvs)).
  { unfold node. replace (lowbit (num_dicts kvs)) with (num_dicts kvs).
    - rewrite Z.sub_diag, prefix_0, prefix_all by lia. lia.
    - rewrite Hnum. symmetry. replace (2 ^ num_dicts_bits kvs) with (2 ^ num_dicts_bits kvs * (2 * 0 + 1)) at 1 by lia.
      apply lowbit_odd; lia. }
  rewrite (find_loop_step _ _ _ _ _ (sumz (sizes kvs))); [|lia|].
  2: { rewrite Z.add_0_l, (fw_node _ _ Hix) by lia. by rewrite Hlow. }
  replace (sumz (sizes kvs) <? target) with false by (symmetry; apply Z.ltb_ge; lia).
  assert (Hsh : Z.shiftr (num_dicts kvs) 1 = 2 ^ Z.of_nat e).
  { rewrite Hnum, He, Nat2Z.inj_succ, Z.pow_succ_r by lia. rewrite Z.shiftr_div_pow2 by lia.
    change (2 ^ 1) with 2. rewrite Z.mul_comm. by rewrite Z.div_mul. }
  rewrite Hsh. pose proof (wf_sizes_ok kvs Hk) as Hs.
  destruct (find_loop_spec e (S (Z.to_nat (num_dicts_bits kvs))) (sizes kvs) (dict_size_index kvs) 0 target Hix Hs)
    as (r & Hr & Hrn & Hrp); rewrite ?Z.mul_0_r, ?Z.add_0_l, <- ?He, <- ?Hnum; try lia.
  - rewrite prefix_all by lia. lia.
  - rewrite Z.mul_0_r in Hr, Hrp. rewrite prefix_0 in Hrp. exists r. split_and!; try done; lia.
Qed.

Lemma prefix_flat l i j :
  Forall (λ x, 0 <= x) l → 0 <= i → prefix l i = prefix l j →
  ∀ n s, i <= n < j → byte_at n l = Some s → s = 0.
Proof.
  intros Hl Hi He n s Hn Hs. pose proof (prefix_succ l n s Hs).
  pose proof (prefix_mono l i n Hl ltac:(lia)). pose proof (prefix_mono l (n + 1) j Hl ltac:(lia)).
  unfold byte_at in Hs. case_if; [|done]. rewrite list.Forall_lookup in Hl.
  pose proof (Hl _ _ Hs). simpl in *. lia.
Qed.

(** [r] is the first non-empty dict from [i] on, or -1. *)
Definition first_from (l : list Z) (i r : Z) : Prop :=
  (r = -1 ∧ ∀ n s, i <= n → byte_at n l = Some s → s = 0) ∨
  (i <= r ∧ (∃ s, byte_at r l = Some s ∧ 0 < s) ∧ ∀ n s, i <= n < r → byte_at n l = Some s → s = 0).

Lemma next_spec kvs didx :
  wf_kvs kvs → 0 <= didx < num_dicts kvs →
  ∃ r, kvstoreGetNextNonEmptyDictIndex kvs didx = Some r ∧ first_from (sizes kvs) (didx + 1) r.
Proof using laws.
  intros Hk Hd. unfold kvstoreGetNextNonEmptyDictIndex. pose proof (zlen_sizes kvs Hk) as Hz.
  pose proof (sizes_nonneg kvs Hk) as Hs. pose proof (wk_total _ Hk) as Ht.
  destruct (num_dicts kvs =? 1) eqn:Hn; zb.
  { replace didx with 0 by lia. exists (-1). split; [done|]. left. split; [done|].
    intros n s Hns Hb. apply byte_at_lt in Hb. lia. }
  rewrite read_spec by done. cbn [mbind option_bind]. rewrite size_spec by done. cbn [mbind option_bind].
  pose proof (prefix_bounds (sizes kvs) (didx + 1) Hs) as Hpb.
  destruct (Z.eq_dec (prefix (sizes kvs) (didx + 1)) (sumz (sizes kvs))) as [Hall|Hne].
  - rewrite uwrap_id by lia. rewrite (proj2 (Z.leb_gt _ _)) by lia.
    exists (-1). split; [done|]. left. split; [done|]. intros n s Hns Hb.
    eapply (prefix_flat (sizes kvs) (didx + 1) (zlen (sizes kvs))); [done|lia| | |done].
    + rewrite Hall. by rewrite prefix_all by lia.
    + apply byte_at_lt in Hb. lia.
  - rewrite uwrap_id by lia. rewrite (proj2 (Z.leb_le _ _)) by lia.
    destruct (find_index_spec kvs (prefix (sizes kvs) (didx + 1) + 1) Hk ltac:(lia)) as (r & -> & Hr & Hp).
    exists r. split; [done|]. right.
    destruct (byte_at_in r (sizes kvs) ltac:(lia)) as [s Hbs]. pose proof (prefix_succ _ _ _ Hbs).
    assert (didx + 1 <= r).
    { destruct (Z.lt_ge_cases r (didx + 1)); [|lia].
      pose proof (prefix_mono (sizes kvs) (r + 1) (didx + 1) Hs ltac:(lia)). lia. }
    pose proof (prefix_mono (sizes kvs) (didx + 1) r Hs ltac:(lia)).
    split_and!; [lia|exists s; split; [done|lia]|].
    intros n x Hnx. eapply (prefix_flat (sizes kvs) (didx + 1) r); [done|lia|lia|lia].
Qed.
(** (C37) The tree search: for a key index between 1 and the number of keys,
    kvstoreFindDictIndexByKeyIndex returns the dict that holds that key when the
    keys are numbered through the dicts in order. *)
Theorem kvstoreFindDictIndexByKeyIndex_correct kvs target :
  wf_kvs kvs → 1 <= target <= sumz (map_sizes (maps kvs)) →
  ∃ r, kvstoreFindDictIndexByKeyIndex kvs target = Some r ∧ 0 <= r < num_dicts kvs ∧
    prefix (map_sizes (maps kvs)) r < target <= prefix (map_sizes (maps kvs)) (r + 1).
Proof using laws.
  intros Hk. rewrite <- (sizes_maps kvs Hk). by apply find_index_spec.
Qed.

(** cumulativeKeyCountRead gives the number of keys in the dicts up to an
    index, and kvstoreSize the number of all keys. *)
Theorem cumulativeKeyCountRead_correct kvs didx :
  wf_kvs kvs → 0 <= didx < num_dicts kvs →
  cumulativeKeyCountRead kvs didx = Some (prefix (map_sizes (maps kvs)) (didx + 1)) ∧
  kvstoreSize kvs = Some (sumz (map_sizes (maps kvs))).
Proof using laws.
  intros Hk Hd. rewrite <- (sizes_maps kvs Hk). split.
  - by apply read_spec.
  - by apply size_spec.
Qed.

(** The cursor of a scan over many dicts holds the dict index in its low
    bits and the cursor inside the dict above it: packing and unpacking are
    inverse as long as the inner cursor leaves room for the index. *)
Theorem scan_cursor_roundtrip kvs didx cursor :
  wf_kvs kvs → 0 <= didx < num_dicts kvs → 0 <= cursor < 2 ^ (64 - num_dicts_bits kvs) →
  getAndClearDictIndexFromCursor kvs (addDictIndexToCursor kvs didx cursor) = (didx, cursor).
Proof using.
  intros Hk Hd Hc. unfold getAndClearDictIndexFromCursor, addDictIndexToCursor.
  destruct (num_dicts kvs =? 1) eqn:Hn; zb; [by replace didx with 0 by lia|].
  pose proof (wk_bits _ Hk) as Hb. pose proof (wk_num _ Hk) as Hnum.
  replace (didx <? 0) with false by (symmetry; apply Z.ltb_ge; lia).
  set (b := num_dicts_bits kvs) in *. rewrite Hnum in *.
  pose proof (Z.pow_le_mono_r 2 b 16 ltac:(lia) ltac:(lia)) as H16. change (2 ^ 16) with 65536 in H16.
  rewrite Z.shiftl_mul_pow2 by lia. rewrite uwrap_id.
  2: { split; [nia|]. replace 64 with ((64 - b) + b) by lia. rewrite Z.pow_add_r by lia. nia. }
  assert (Hlor : Z.lor (cursor * 2 ^ b) didx = cursor * 2 ^ b + didx).
  { rewrite Z.lor_comm, <- Z.shiftl_mul_pow2 by lia. rewrite lor_shiftl, Z.shiftl_mul_pow2 by lia. lia. }
  rewrite Hlor, (Z.add_comm _ didx). rewrite (land_mask _ _ b) by lia. rewrite Z.shiftr_div_pow2 by lia.
  rewrite Z.mod_add, Z.div_add by lia. rewrite Z.mod_small, Z.div_small by lia.
  f_equal. unfold swrap. change (2 ^ 32) with 4294967296. change (2 ^ (32 - 1)) with 2147483648.
  rewrite Z.mod_small by lia. lia.
Qed.

End Store.
End KvstoreProofs.
