(* ===== verification/KvstoreMap.v ===== *)
(** * The key-value store: what it promises

    Histories of operations on the store against an array of finite maps, the
    queries on the number of keys, the iteration over the dicts and the cursors
    of a scan; and the same for the store over the dicts of dict.c. *)

From stdpp Require Import gmap.
From S2P Require Import Prelude Dict DictProofs DictMap DictExamples Kvstore KvstoreProofs.

Module KvstoreMap.
Import Dict DictMap Kvstore KvstoreProofs.

(** ** Iterating over the dicts *)

(** The non-empty positions of [l], counted from [i]. *)
Fixpoint nonempty_from (i : Z) (l : list Z) : list Z :=
  match l with
  | [] => []
  | s :: l => if s =? 0 then nonempty_from (i + 1) l else i :: nonempty_from (i + 1) l
  end.

Lemma nonempty_from_first l i r :
  0 <= i → first_from l i r →
  nonempty_from i (drop (Z.to_nat i) l) =
    if r =? -1 then [] else r :: nonempty_from (r + 1) (drop (Z.to_nat (r + 1)) l).
Proof.
  intros Hi Hf. remember (length l - Z.to_nat i)%nat as n eqn:Hn. revert i Hi Hf Hn.
  induction n as [|n IH]; intros i Hi Hf Hn.
  - rewrite drop_ge by lia. destruct Hf as [[-> _]|(Hir & (s & Hs & _) & _)]; [done|].
    apply byte_at_lt in Hs. unfold zlen in Hs. lia.
  - destruct (lookup_lt_is_Some_2 l (Z.to_nat i)) as [s Hs]; [lia|].
    rewrite (drop_S _ _ _ Hs). simpl.
    assert (Hb : byte_at i l = Some s) by (unfold byte_at; case_if; [done|lia]).
    replace (S (Z.to_nat i)) with (Z.to_nat (i + 1)) by lia. case_if.
    + subst s. apply IH; [lia| |lia].
      destruct Hf as [[-> Hz]|(Hir & (s & Hs' & Hp) & Hz)].
      * left. split; [done|]. intros m x Hm. apply Hz. lia.
      * right. assert (i ≠ r). { intros ->. rewrite Hb in Hs'. injection Hs' as <-. lia. }
        split_and!; [lia|by exists s|]. intros m x Hm. apply Hz. lia.
    + destruct Hf as [[-> Hz]|(Hir & (x & Hx & Hp) & Hz)].
      * exfalso. by apply (Hz i s) in Hb; [|lia].
      * assert (r = i) as ->.
        { destruct (Z.eq_dec r i); [done|]. exfalso. by apply (Hz i s) in Hb; [|lia]. }
        case_if; [lia|done].
Qed.

Section Store.
Context {D K V P C : Type} `{Countable C} {api : DictApi D K V P}.
Context (content : K → C) (dup : V → V) {laws : DictLaws api content dup}.

Abbreviation wf_kvs := (wf_kvs content dup).
Abbreviation maps := (maps content dup).

(** The dict indexes a client sees when it advances an iterator to its end. *)
Fixpoint iterate (fuel : nat) (kvs : kvstore D) (it : kvstoreIterator)
  : option (kvstore D * list Z) :=
  match fuel with
  | O => None
  | S fuel =>
      '(kvs, it, d) ← kvstoreIteratorNextDict kvs it;
      match d with
      | None => Some (kvs, [])
      | Some _ => '(kvs, l) ← iterate fuel kvs it; Some (kvs, it_didx it :: l)
      end
  end.

Lemma first_range l i r : first_from l i r → 0 <= i → r = -1 ∨ 0 <= r < zlen l.
Proof. intros [[-> _]|(? & (s & Hs & _) & _)] Hi; [by left|]. right. by eapply byte_at_lt. Qed.

Lemma next_dict_step kvs it :
  wf_kvs kvs → -1 <= it_didx it < num_dicts kvs → 0 <= next_didx it < num_dicts kvs →
  ∃ kvs' r d, kvstoreIteratorNextDict kvs it = Some (kvs', {| it_didx := next_didx it; next_didx := r |}, d) ∧
    wf_kvs kvs' ∧ maps kvs' = maps kvs ∧ sizes kvs' = sizes kvs ∧ num_dicts kvs' = num_dicts kvs ∧
    first_from (sizes kvs) (next_didx it + 1) r ∧ byte_at (next_didx it) (dicts kvs') = Some d ∧
    (it_didx it = -1 → kvs' = kvs).
Proof using laws.
  intros Hk Hi Hn. unfold kvstoreIteratorNextDict.
  replace (next_didx it =? -1) with false by (symmetry; apply Z.eqb_neq; lia).
  assert (∃ k1, (if it_didx it =? -1 then Some kvs
           else d ← kvstoreGetDict kvs (it_didx it);
             match d with Some _ => freeDictIfNeeded kvs (it_didx it) | None => Some kvs end) = Some k1 ∧
    wf_kvs k1 ∧ maps k1 = maps kvs ∧ sizes k1 = sizes kvs ∧ num_dicts k1 = num_dicts kvs ∧
    (it_didx it = -1 → k1 = kvs))
    as (k1 & -> & Hk1 & Hm1 & Hs1 & Hn1 & Hs0).
  { destruct (it_didx it =? -1) eqn:E; zb; [by exists kvs|].
    destruct (slot_lookup content dup kvs (it_didx it) Hk ltac:(lia)) as (o & Ho & _).
    unfold kvstoreGetDict. rewrite Ho. cbn [mbind option_bind]. destruct o; [|by exists kvs].
    destruct (free_spec content dup kvs (it_didx it) Hk ltac:(lia)) as (k1 & ? & ? & ? & ? & ? & _).
    by exists k1. }
  cbn [mbind option_bind].
  destruct (next_spec content dup k1 (next_didx it) Hk1) as (r & -> & Hf); [by rewrite Hn1|].
  cbn [mbind option_bind].
  destruct (slot_lookup content dup k1 (next_didx it) Hk1) as (o & Ho & _); [by rewrite Hn1|].
  unfold kvstoreGetDict. rewrite Ho. cbn [mbind option_bind]. rewrite Hs1 in Hf.
  exists k1, r, o. by split_and!.
Qed.

Lemma iterate_spec fuel kvs it :
  wf_kvs kvs → -1 <= it_didx it < num_dicts kvs →
  first_from (sizes kvs) (it_didx it + 1) (next_didx it) →
  num_dicts kvs - it_didx it <= Z.of_nat fuel →
  ∃ kvs', iterate fuel kvs it =
      Some (kvs', nonempty_from (it_didx it + 1) (drop (Z.to_nat (it_didx it + 1)) (sizes kvs))) ∧
    wf_kvs kvs' ∧ maps kvs' = maps kvs.
Proof using laws.
  revert kvs it. induction fuel as [|fuel IH]; intros kvs it Hk Hi Hf Hfu; [lia|].
  rewrite (nonempty_from_first _ _ _ (ltac:(lia) : 0 <= it_didx it + 1) Hf). simpl.
  pose proof (zlen_sizes content dup kvs Hk) as Hz.
  destruct (first_range _ _ _ Hf ltac:(lia)) as [Hr|Hr].
  { unfold kvstoreIteratorNextDict. rewrite Hr. simpl. by exists kvs. }
  replace (next_didx it =? -1) with false by (symmetry; apply Z.eqb_neq; lia).
  destruct (next_dict_step kvs it Hk Hi ltac:(lia))
    as (k1 & r & d & -> & Hk1 & Hm1 & Hs1 & Hn1 & Hf1 & Hd & _).
  cbn [mbind option_bind].
  assert (Hir : it_didx it + 1 <= next_didx it).
  { destruct Hf as [[? _]|[? _]]; lia. }
  destruct d as [d|].
  2: { exfalso. destruct Hf as [[? _]|(_ & (s & Hs & Hp) & _)]; [lia|].
       rewrite <- Hs1 in Hs. unfold sizes, byte_at in Hs, Hd. rewrite list_lookup_fmap in Hs.
       destruct (0 <=? next_didx it); [|done]. rewrite Hd in Hs. injection Hs as <-. simpl in Hp. lia. }
  destruct (IH k1 {| it_didx := next_didx it; next_didx := r |}) as (k2 & -> & Hk2 & Hm2); simpl; try done.
  - lia.
  - by rewrite Hs1.
  - lia.
  - cbn [mbind option_bind]. exists k2. rewrite Hs1. split_and!; [done|done|congruence].
Qed.

Lemma init_spec kvs :
  wf_kvs kvs → 0 < sumz (sizes kvs) →
  ∃ r, kvstoreGetFirstNonEmptyDictIndex kvs = Some r ∧ first_from (sizes kvs) 0 r.
Proof using laws.
  intros Hk Ht. unfold kvstoreGetFirstNonEmptyDictIndex.
  destruct (find_index_spec content dup kvs 1 Hk ltac:(lia)) as (r & -> & Hr & Hp).
  exists r. split; [done|]. right. pose proof (sizes_nonneg content dup kvs Hk) as Hs.
  destruct (byte_at_in r (sizes kvs)) as [s Hbs]; [rewrite (zlen_sizes content dup) by done; lia|].
  pose proof (prefix_succ _ _ _ Hbs). pose proof (prefix_bounds (sizes kvs) r Hs).
  split_and!; [lia|exists s; split; [done|lia]|].
  intros n x Hnx. eapply (prefix_flat (sizes kvs) 0 r); [done|lia|rewrite prefix_0; lia|lia].
Qed.

(** (C38) Advancing an iterator to its end terminates and keeps the contents.  In a
    store with keys it visits exactly the non-empty dicts, in increasing order; in an
    empty store it visits dict 0 if that is allocated, although it is empty, and
    nothing otherwise. *)
Theorem kvstore_iteration_correct kvs :
  wf_kvs kvs →
  ∃ it kvs', kvstoreIteratorInit kvs = Some it ∧ wf_kvs kvs' ∧ maps kvs' = maps kvs ∧
    iterate (S (S (Z.to_nat (num_dicts kvs)))) kvs it =
      Some (kvs', if 0 <? sumz (map_sizes (maps kvs)) then nonempty_from 0 (map_sizes (maps kvs))
                  else if byte_at 0 (dicts kvs) is Some (Some _) then [0] else []).
Proof using laws.
  intros Hk. rewrite <- (sizes_maps content dup kvs Hk). unfold kvstoreIteratorInit.
  pose proof (num_pos content dup kvs Hk) as Hn. destruct (0 <? sumz (sizes kvs)) eqn:Ht; zb.
  - destruct (init_spec kvs Hk Ht) as (r & -> & Hf). cbn [mbind option_bind].
    destruct (iterate_spec (S (S (Z.to_nat (num_dicts kvs)))) kvs {| it_didx := -1; next_didx := r |})
      as (kvs' & Hi & Hk' & Hm'); simpl it_didx; [done|lia|done|lia|].
    eexists _, kvs'. by split_and!.
  - pose proof (sizes_nonneg content dup kvs Hk) as Hs. pose proof (sumz_nonneg _ Hs).
    unfold kvstoreGetFirstNonEmptyDictIndex, kvstoreFindDictIndexByKeyIndex.
    rewrite (size_spec content dup) by done. cbn [mbind option_bind].
    replace (sumz (sizes kvs)) with 0 by lia. rewrite orb_true_r. cbn [mbind option_bind].
    eexists _, kvs. split; [reflexivity|]. split; [done|]. split; [done|].
    destruct (next_dict_step kvs {| it_didx := -1; next_didx := 0 |} Hk) as
      (k1 & r & d & Hx & Hk1 & Hm1 & Hs1 & Hn1 & Hf & Hd & Heq); simpl in *; [lia|lia|].
    rewrite Heq in * by done. rewrite Hx. cbn [mbind option_bind]. rewrite Hd.
    destruct d as [d|]; [|done].
    assert (r = -1) as ->.
    { destruct Hf as [[? _]|(Hr & (s & Hbs & Hp) & _)]; [done|]. exfalso.
      pose proof (prefix_succ _ _ _ Hbs). pose proof (prefix_bounds (sizes kvs) r Hs).
      pose proof (prefix_bounds (sizes kvs) (r + 1) Hs). lia. }
    done.
Qed.

(** ** Histories *)

Inductive kv_op :=
  | KvAdd (didx : Z) (k : K) (v : V)
  | KvFetch (didx : Z) (k : K)
  | KvDelete (didx : Z) (k : K)
  | KvTwoPhaseUnlink (didx : Z) (k : K)
  | KvExpand (newsize : Z) (try_expand : bool) (skip_cb malloc_ok : Z → bool)
  | KvTryResize (limit : Z)
  | KvSize
  | KvEmpty.

(** A key is added by reserving its entry and then setting the value. *)
Definition kv_exec (kvs : kvstore D) (op : kv_op) : option (kvstore D * op_answer (V:=V)) :=
  match op with
  | KvAdd didx k v =>
      '(kvs, r) ← kvstoreDictAddRaw kvs didx k;
      match r with
      | inl de => kvs ← kvstoreDictSetVal kvs didx de v; Some (kvs, AnsCode DICT_OK)
      | inr _ => Some (kvs, AnsCode DICT_ERR)
      end
  | KvFetch didx k => '(kvs, v) ← kvstoreDictFetchValue kvs didx k; Some (kvs, AnsValue v)
  | KvDelete didx k => '(kvs, r) ← kvstoreDictDelete kvs didx k; Some (kvs, AnsCode r)
  | KvTwoPhaseUnlink didx k =>
      '(kvs, p) ← kvstoreDictTwoPhaseUnlinkFind kvs didx k;
      match p with
      | None => Some (kvs, AnsCode DICT_ERR)
      | Some _ => kvs ← kvstoreDictTwoPhaseUnlinkFree kvs didx p; Some (kvs, AnsCode DICT_OK)
      end
  | KvExpand n t skip ok => '(kvs, _) ← kvstoreExpand kvs n t skip ok; Some (kvs, AnsNone)
  | KvTryResize limit => kvs ← kvstoreTryResizeDicts kvs limit; Some (kvs, AnsNone)
  | KvSize => n ← kvstoreSize kvs; Some (kvs, AnsCode n)
  | KvEmpty => kvs ← kvstoreEmpty kvs; Some (kvs, AnsNone)
  end.

Fixpoint kv_run (kvs : kvstore D) (ops : list kv_op) : option (kvstore D * list (op_answer (V:=V))) :=
  match ops with
  | [] => Some (kvs, [])
  | op :: ops =>
      '(kvs, a) ← kv_exec kvs op;
      '(kvs, l) ← kv_run kvs ops;
      Some (kvs, a :: l)
  end.

(** The same on an array of maps. *)
Definition kv_spec (ms : list (gmap C (option V))) (op : kv_op)
  : list (gmap C (option V)) * op_answer (V:=V) :=
  match op with
  | KvAdd didx k v =>
      let m := ms !!! Z.to_nat didx in
      match m !! content k with
      | Some _ => (ms, AnsCode DICT_ERR)
      | None => (<[Z.to_nat didx := <[content k := Some (dup v)]> m]> ms, AnsCode DICT_OK)
      end
  | KvFetch didx k => (ms, AnsValue ((ms !!! Z.to_nat didx) !! content k))
  | KvDelete didx k | KvTwoPhaseUnlink didx k =>
      let m := ms !!! Z.to_nat didx in
      (<[Z.to_nat didx := delete (content k) m]> ms,
       AnsCode (if m !! content k is Some _ then DICT_OK else DICT_ERR))
  | KvSize => (ms, AnsCode (sumz (map_sizes ms)))
  | KvEmpty => ((λ _, ∅) <$> ms, AnsNone)
  | KvExpand _ _ _ _ | KvTryResize _ => (ms, AnsNone)
  end.

Fixpoint kv_spec_run (ms : list (gmap C (option V))) (ops : list kv_op)
  : list (gmap C (option V)) * list (op_answer (V:=V)) :=
  match ops with
  | [] => (ms, [])
  | op :: ops =>
      let '(ms, a) := kv_spec ms op in let '(ms, l) := kv_spec_run ms ops in (ms, a :: l)
  end.

(** The dict indexes and sizes a caller may pass. *)
Definition kv_op_ok (n : Z) (op : kv_op) : Prop :=
  match op with
  | KvAdd didx _ _ | KvFetch didx _ | KvDelete didx _ | KvTwoPhaseUnlink didx _ => 0 <= didx < n
  | KvExpand newsize _ _ _ => 0 <= newsize
  | _ => True
  end.

Lemma maps_total kvs didx :
  wf_kvs kvs → 0 <= didx < num_dicts kvs →
  maps kvs !! Z.to_nat didx = Some (maps kvs !!! Z.to_nat didx).
Proof using.
  intros Hk Hd. destruct (slot_lookup content dup kvs didx Hk Hd) as (o & _ & _ & _ & Hm).
  by rewrite (list_lookup_total_correct _ _ _ Hm).
Qed.

Lemma sizes_insert kvs kvs' i m m' :
  wf_kvs kvs → wf_kvs kvs' → maps kvs !! i = Some m → maps kvs' = <[i := m']> (maps kvs) →
  sumz (sizes kvs') = sumz (sizes kvs) + (Z.of_nat (size m') - Z.of_nat (size m)).
Proof using laws.
  intros Hk Hk' Hm Hins. rewrite !(sizes_maps content dup) by done. rewrite Hins. unfold map_sizes.
  rewrite list_fmap_insert. apply sumz_insert. by rewrite list_lookup_fmap, Hm.
Qed.

Lemma kv_exec_refines kvs op :
  wf_kvs kvs → kv_op_ok (num_dicts kvs) op → sumz (sizes kvs) + 1 < 2 ^ 64 - 1 →
  ∃ kvs', kv_exec kvs op = Some (kvs', snd (kv_spec (maps kvs) op)) ∧ wf_kvs kvs' ∧
    num_dicts kvs' = num_dicts kvs ∧ maps kvs' = fst (kv_spec (maps kvs) op) ∧
    sumz (sizes kvs') <= sumz (sizes kvs) + 1.
Proof using laws.
  intros Hk Ho Ht.
  assert (Hsame : ∀ k', wf_kvs k' → maps k' = maps kvs → sumz (sizes k') <= sumz (sizes kvs) + 1).
  { intros k' Hk' Hm. rewrite !(sizes_maps content dup), Hm by done. lia. }
  assert (Hless : ∀ k' i m m', wf_kvs k' → maps kvs !! i = Some m → maps k' = <[i := m']> (maps kvs) →
    (size m' <= size m)%nat → sumz (sizes k') <= sumz (sizes kvs) + 1).
  { intros k' i m m' Hk' Hm Hins Hle. rewrite (sizes_insert kvs k' i m m' Hk Hk' Hm Hins). lia. }
  assert (Hdel : ∀ (m : gmap C (option V)) c, (size (delete c m) <= size m)%nat).
  { intros m c. destruct (m !! c) as [x|] eqn:Hc; [|by rewrite delete_id].
    rewrite map_size_delete_Some by done. lia. }
  destruct op as [didx k v|didx k|didx k|didx k|n t skip ok|limit| |]; simpl in *.
  - pose proof (maps_total kvs didx Hk Ho) as Hm. set (m := maps kvs !!! Z.to_nat didx) in *.
    destruct (kv_add_raw content dup kvs didx k m Hk Ho Ht Hm) as (k1 & r & -> & Hk1 & Hn1 & Hr).
    cbn [mbind option_bind]. destruct r as [p|p].
    + destruct Hr as (Hno & Hp & Hm1). rewrite Hno. simpl.
      assert (Hl1 : maps k1 !! Z.to_nat didx = Some (<[content k := None]> m)).
      { rewrite Hm1. apply list_lookup_insert_eq. by eapply lookup_lt_Some. }
      destruct (kv_set_val content dup k1 didx p (content k) v _ Hk1 Hp Hl1) as (k2 & -> & Hk2 & Hn2 & Hm2).
      cbn [mbind option_bind]. rewrite Hm1, list_insert_insert_eq, insert_insert_eq in Hm2.
      exists k2. split_and!; [done|done|congruence|done|].
      rewrite (sizes_insert kvs k2 _ m _ Hk Hk2 Hm Hm2). rewrite map_size_insert_None by done. lia.
    + destruct Hr as ([x Hx] & _ & Hm1). rewrite Hx. exists k1. split_and!; auto.
  - pose proof (maps_total kvs didx Hk Ho) as Hm.
    destruct (kv_fetch content dup kvs didx k _ Hk Hm ltac:(lia)) as (k1 & -> & ? & ? & ?).
    exists k1. split_and!; auto.
  - pose proof (maps_total kvs didx Hk Ho) as Hm.
    destruct (kv_delete content dup kvs didx k _ Hk Hm ltac:(lia)) as (k1 & -> & ? & ? & ?).
    exists k1. split_and!; eauto.
  - pose proof (maps_total kvs didx Hk Ho) as Hm. set (m := maps kvs !!! Z.to_nat didx) in *.
    destruct (kv_unlink content dup kvs didx k m Hk Hm ltac:(lia)) as (k1 & r & -> & ? & ? & ? & Hr).
    cbn [mbind option_bind]. destruct r as [p|].
    + destruct Hr as ([x ->] & k2 & -> & ? & ? & ?). exists k2. split_and!; eauto.
    + rewrite Hr. exists k1. split_and!; auto. by rewrite delete_id, list_insert_id.
  - unfold kvstoreExpand.
    destruct (expand_loop_spec content dup (Z.to_nat (num_dicts kvs)) kvs 0 n t skip ok)
      as (k1 & r & -> & (? & ? & ?) & _); [done|lia| |done|].
    { pose proof (num_pos content dup kvs Hk). lia. }
    exists k1. split_and!; auto.
  - unfold kvstoreTryResizeDicts. cbv zeta.
    match goal with |- context [resize_loop ?n kvs] =>
      destruct (resize_loop_spec content dup n kvs Hk) as (k1 & -> & (? & ? & ?) & _) end.
    exists k1. split_and!; auto.
  - rewrite (size_spec content dup) by done. exists kvs.
    rewrite (sizes_maps content dup) by done. split_and!; try done. lia.
  - destruct (kv_empty content dup kvs Hk) as (k1 & -> & Hk1 & ? & Hm1). exists k1.
    assert (Hl : length (maps kvs) = Z.to_nat (num_dicts kvs)).
    { unfold KvstoreProofs.maps. rewrite length_fmap. pose proof (wk_len _ _ _ Hk) as Hl. unfold zlen in Hl. lia. }
    split_and!; try done.
    + rewrite Hm1, <- Hl. generalize (maps kvs) as ms. clear.
      induction ms as [|m ms IH]; [done|]. cbn [fmap list_fmap length replicate]. by rewrite IH.
    + rewrite (sizes_maps content dup k1), Hm1 by done. unfold map_sizes. rewrite fmap_replicate.
      change (Z.of_nat (size (∅ : gmap C (option V)))) with 0. rewrite sumz_zero.
      pose proof (sumz_nonneg _ (sizes_nonneg content dup kvs Hk)). lia.
Qed.

Lemma kv_run_refines ops kvs :
  wf_kvs kvs → Forall (kv_op_ok (num_dicts kvs)) ops → sumz (sizes kvs) + zlen ops < 2 ^ 64 - 1 →
  ∃ kvs', kv_run kvs ops = Some (kvs', snd (kv_spec_run (maps kvs) ops)) ∧ wf_kvs kvs' ∧
    maps kvs' = fst (kv_spec_run (maps kvs) ops).
Proof using laws.
  revert kvs. induction ops as [|op ops IH]; intros kvs Hk Hf Ht; [by exists kvs|].
  apply list.Forall_cons in Hf as [Ho Hf]. rewrite zlen_cons in Ht. pose proof (zlen_nonneg ops). simpl.
  destruct (kv_exec_refines kvs op Hk Ho ltac:(lia)) as (k1 & -> & Hk1 & Hn1 & Hm1 & Hs1).
  destruct (kv_spec (maps kvs) op) as [ms a]. simpl in *. cbn [mbind option_bind].
  destruct (IH k1) as (k2 & -> & Hk2 & Hm2); [done|by rewrite Hn1|lia|]. rewrite Hm1 in *.
  destruct (kv_spec_run ms ops) as [ms' l]. by exists k2.
Qed.

(** (C2) Whole histories of the store: from kvstoreCreate, any sequence of
    insertions, lookups, deletions, size queries, resizes and resets runs without
    failing, gives the answers an array of finite maps gives, and keeps the
    invariant: the counters and the tree always agree with the dicts. *)
Theorem kvstore_refines_maps bits fl ops :
  0 <= bits <= 16 → Forall (kv_op_ok (2 ^ bits)) ops → zlen ops < 2 ^ 64 - 1 →
  ∃ kvs0 kvs, kvstoreCreate bits fl = Some kvs0 ∧
    let ms := replicate (Z.to_nat (2 ^ bits)) ∅ in
    kv_run kvs0 ops = Some (kvs, snd (kv_spec_run ms ops)) ∧ wf_kvs kvs ∧
    maps kvs = fst (kv_spec_run ms ops).
Proof using laws.
  intros Hb Hf Hl. destruct (kv_create content dup bits fl Hb) as (kvs0 & -> & Hk0 & Hn0 & Hm0).
  destruct (kv_run_refines ops kvs0) as (kvs & Hr & Hk & Hm); [done|by rewrite Hn0| |].
  { rewrite (sizes_maps content dup), Hm0 by done. unfold map_sizes. rewrite fmap_replicate.
    change (Z.of_nat (size (∅ : gmap C (option V)))) with 0. by rewrite sumz_zero. }
  rewrite Hm0 in *. by exists kvs0, kvs.
Qed.

(** An iterator released before it was ever advanced reads the array of dicts
    at index -1 when the store frees empty dicts. *)
Lemma release_fresh_iterator (kvs : kvstore D) it :
  kvstoreIteratorInit kvs = Some it → has_flag (flags kvs) KVSTORE_FREE_EMPTY_DICTS = true →
  kvstoreIteratorRelease kvs it = None.
Proof using.
  unfold kvstoreIteratorInit. destruct (kvstoreGetFirstNonEmptyDictIndex kvs); [|done].
  simpl. intros [= <-] Hf. unfold kvstoreIteratorRelease, freeDictIfNeeded. by rewrite Hf.
Qed.
End Store.
Arguments kv_op : clear implicits.
End KvstoreMap.

(** * The key-value store: a concrete store

    Four dicts of dict.c behind the interface, filled by a short history; the
    theorems on the store applied to it. *)

Module KvstoreExamples.
Import Dict DictMap DictExamples Kvstore KvstoreProofs KvstoreMap.

#[local] Instance int_api : DictApi (dict Z Z) Z Z eptr := dict_api int_type policy.
#[local] Instance int_laws : DictLaws int_api int_content (dup_val int_type) :=
  dict_laws int_type policy int_content (uwrap 64) int_ok.

Definition store_flags : Z := Z.lor KVSTORE_ALLOCATE_DICTS_ON_DEMAND KVSTORE_FREE_EMPTY_DICTS.

Definition store_ops : list (kv_op Z Z) :=
  [KvAdd 1 10 100; KvAdd 3 20 200; KvAdd 3 21 210; KvAdd 2 7 70; KvDelete 2 7;
   KvTwoPhaseUnlink 3 20; KvFetch 1 10; KvTryResize 4; KvAdd 3 22 220; KvSize].

Definition empty_store : kvstore (dict Z Z) :=
  {| flags := store_flags; dicts := replicate 4 None; num_dicts := 4; num_dicts_bits := 2;
     resize_cursor := 0; allocated_dicts := 0; non_empty_dicts := 0; key_count := 0;
     dict_size_index := replicate 5 0 |}.

Example empty_store_created : kvstoreCreate 2 store_flags = Some empty_store.
Proof. by vm_compute. Qed.

(** Dict 2 has been freed again. *)
Definition store : kvstore (dict Z Z) := default empty_store (fst <$> kv_run empty_store store_ops).

Example store_shape :
  (λ o, bool_decide (is_Some o)) <$> dicts store = [false; true; false; true] ∧
  key_count store = 3 ∧ non_empty_dicts store = 2 ∧ dict_size_index store = [0; 0; 1; 0; 3].
Proof. by vm_compute. Qed.

Lemma store_ops_ok : Forall (kv_op_ok (2 ^ 2)) store_ops.
Proof. repeat constructor; vm_compute; congruence. Qed.

Lemma store_wf : wf_kvs int_content (dup_val int_type) store.
Proof.
  destruct (kv_create int_content (dup_val int_type) 2 store_flags) as (kvs0 & Hc & Hk & Hn & Hm); [lia|].
  rewrite empty_store_created in Hc. injection Hc as <-.
  destruct (kv_run_refines int_content (dup_val int_type) store_ops empty_store Hk)
    as (kvs & Hr & Hk' & _); [exact store_ops_ok|by vm_compute|].
  unfold store. rewrite Hr. exact Hk'.
Qed.

Lemma kvstore_refines_maps_witness :
  ∃ kvs0 kvs, kvstoreCreate 2 store_flags = Some kvs0 ∧
    let ms := replicate (Z.to_nat (2 ^ 2)) ∅ in
    kv_run kvs0 store_ops =
      Some (kvs, snd (kv_spec_run int_content (dup_val int_type) ms store_ops)) ∧
    wf_kvs int_content (dup_val int_type) kvs ∧
    maps int_content (dup_val int_type) kvs =
      fst (kv_spec_run int_content (dup_val int_type) ms store_ops).
Proof.
  pose proof (kvstore_refines_maps int_content (dup_val int_type) 2 store_flags store_ops) as Hx.
  apply Hx; [lia|exact store_ops_ok|by vm_compute].
Defined.

Lemma find_index_witness :
  ∃ r, kvstoreFindDictIndexByKeyIndex store 2 = Some r ∧ 0 <= r < num_dicts store ∧
    prefix (map_sizes (maps int_content (dup_val int_type) store)) r < 2 <=
      prefix (map_sizes (maps int_content (dup_val int_type) store)) (r + 1).
Proof.
  pose proof (kvstoreFindDictIndexByKeyIndex_correct int_content (dup_val int_type) store 2 store_wf) as Hx.
  apply Hx. rewrite <- (sizes_maps int_content (dup_val int_type) store store_wf).
  by vm_compute.
Defined.

Lemma cumulative_read_witness :
  cumulativeKeyCountRead store 2 =
    Some (prefix (map_sizes (maps int_content (dup_val int_type) store)) (2 + 1)) ∧
  kvstoreSize store = Some (sumz (map_sizes (maps int_content (dup_val int_type) store))).
Proof.
  pose proof (cumulativeKeyCountRead_correct int_content (dup_val int_type) store 2 store_wf) as Hx.
  apply Hx. by vm_compute.
Defined.

Lemma iteration_witness :
  ∃ it kvs', kvstoreIteratorInit store = Some it ∧ wf_kvs int_content (dup_val int_type) kvs' ∧
    maps int_content (dup_val int_type) kvs' = maps int_content (dup_val int_type) store ∧
    iterate (S (S (Z.to_nat (num_dicts store)))) store it =
      Some (kvs', if 0 <? sumz (map_sizes (maps int_content (dup_val int_type) store))
                  then nonempty_from 0 (map_sizes (maps int_content (dup_val int_type) store))
                  else if byte_at 0 (dicts store) is Some (Some _) then [0] else []).
Proof.
  pose proof (kvstore_iteration_correct int_content (dup_val int_type) store store_wf) as Hx.
  exact Hx.
Defined.

Lemma cursor_witness :
  getAndClearDictIndexFromCursor store (addDictIndexToCursor store 3 12345) = (3, 12345).
Proof.
  assert (H1 : 0 <= 3 < num_dicts store) by (by vm_compute).
  assert (H2 : 0 <= 12345 < 2 ^ (64 - num_dicts_bits store)) by (by vm_compute).
  pose proof (scan_cursor_roundtrip int_content (dup_val int_type) store 3 12345 store_wf H1 H2) as Hx.
  exact Hx.
Defined.
End KvstoreExamples.
