(* ===== verification/Skiplist.v ===== *)
(** * Skip lists ([src/redis-stable/src/t_zset.c])

    The ordered index of a sorted set: nodes in the heap, each with a tower of
    forward pointers and the number of nodes each of them jumps over.  A pointer
    is an address in the heap; [None] inside a result is the C [NULL], an
    outer [None] is an access to an address or a level that does not exist, or a
    failed assertion.  The comparison of scores is an interface, of which the
    doubles of the code are an instance.

    Spans and ranks are unsigned longs bounded by the number of nodes, which
    memory bounds below [2 ^ 64]: they are kept in [Z]. *)

From Stdlib Require Import SpecFloat.
From stdpp Require Import gmap.
From S2P Require Import Prelude SdsText.

Module Skiplist.
Import SdsText.

Definition ZSKIPLIST_MAXLEVEL : nat := 32.
Definition ZSKIPLIST_MAX_SEARCH : Z := 10.

Abbreviation address := positive.

(** ** Scores *)

(** The comparisons of the code on scores. *)
Class Score (T : Type) := {
  slt : T → T → bool;
  seq_ : T → T → bool;
  isnan : T → bool;
  zero_score : T;
}.

(** Away from NaN they are those of a total order up to [seq_]. *)
Class ScoreLaws (T : Type) `{Score T} := {
  seq_refl (a : T) : isnan a = false → seq_ a a = true;
  seq_sym (a b : T) : seq_ a b = seq_ b a;
  slt_seq (a b : T) : slt a b = true → seq_ a b = false ∧ slt b a = false;
  slt_total (a b : T) : isnan a = false → isnan b = false → slt a b = false → seq_ a b = false → slt b a = true;
  slt_trans (a b c : T) : slt a b = true → slt b c = true → slt a c = true;
  slt_seq_l (a b c : T) : seq_ a b = true → slt a c = slt b c;
  slt_seq_r (a b c : T) : seq_ a b = true → slt c a = slt c b;
  seq_trans (a b c : T) : seq_ a b = true → seq_ b c = true → seq_ a c = true;
  zero_not_nan : isnan zero_score = false;
}.

#[export] Instance double_score : Score spec_float := {
  slt := SFltb;
  seq_ := SFeqb;
  isnan := λ f, match f with S754_nan => true | _ => false end;
  zero_score := S754_zero false;
}.

Section Skiplist.
Context {T : Type} `{Score T}.

(** ** Memory *)

Record zskiplistNode := mkNode {
  ele : option (list Z);
  score : T;
  backward : option address;
  level : list (option address * Z);
}.

Abbreviation heap := (gmap address zskiplistNode).

Record zskiplist := mkZsl {
  zsl_header : address;
  zsl_tail : option address;
  zsl_length : Z;
  zsl_level : nat;
}.

(** [x->level[i]] and an assignment to it. *)
Definition get_level (h : heap) (x : address) (i : nat) : option (option address * Z) :=
  n ← h !! x; level n !! i.

Definition set_level (h : heap) (x : address) (i : nat) (v : option address * Z) : option heap :=
  n ← h !! x;
  _ ← level n !! i;
  Some (<[x := mkNode (ele n) (score n) (backward n) (<[i := v]> (level n))]> h).

Definition set_forward (h : heap) (x : address) (i : nat) (p : option address) : option heap :=
  '(_, d) ← get_level h x i; set_level h x i (p, d).
Definition set_span (h : heap) (x : address) (i : nat) (d : Z) : option heap :=
  '(p, _) ← get_level h x i; set_level h x i (p, d).

Definition set_backward (h : heap) (x : address) (b : option address) : option heap :=
  n ← h !! x; Some (<[x := mkNode (ele n) (score n) b (level n)]> h).
Definition set_score (h : heap) (x : address) (s : T) : option heap :=
  n ← h !! x; Some (<[x := mkNode (ele n) s (backward n) (level n)]> h).

(** [a]: the address the allocator returns.  The tower of a new node holds what the
    memory held, here null pointers. *)
Definition zslCreateNode (h : heap) (a : address) (levels : nat) (s : T) (e : option (list Z)) : heap :=
  <[a := mkNode e s None (replicate levels (None, 0))]> h.

Definition zslCreate (h : heap) (a : address) : heap * zskiplist :=
  (zslCreateNode h a ZSKIPLIST_MAXLEVEL zero_score None, mkZsl a None 0 1).

Definition zslFreeNode (h : heap) (x : address) : heap := delete x h.

(** ** Search *)

(** [while (x->level[i].forward && test) { rank += x->level[i].span; x = x->level[i].forward; }],
    where the test looks at the node ahead or at the rank it would be reached with. *)
Fixpoint walk (fuel : nat) (h : heap) (test : zskiplistNode → Z → bool) (i : nat) (x : address) (rank : Z)
    : option (address * Z) :=
  '(fwd, span) ← get_level h x i;
  match fwd with
  | None => Some (x, rank)
  | Some y =>
      n ← h !! y;
      if test n (rank + span) then
        match fuel with
        | O => None
        | S fuel => walk fuel h test i y (rank + span)
        end
      else Some (x, rank)
  end.

(** The descent through levels [k-1] to 0: [update[i]] and [rank[i]] for each. *)
Fixpoint descend (fuel : nat) (h : heap) (test : zskiplistNode → Z → bool) (k : nat) (x : address) (rank : Z)
    : option (list (address * Z)) :=
  match k with
  | O => Some []
  | S i =>
      '(x, rank) ← walk fuel h test i x rank;
      l ← descend fuel h test i x rank;
      Some (l ++ [(x, rank)])
  end.

(** The node comes before [(s, e)]; the header is never tested. *)
Definition node_before (s : T) (e : list Z) (n : zskiplistNode) (_ : Z) : bool :=
  slt (score n) s || (seq_ (score n) s && (sdscmp (default [] (ele n)) e <? 0)).
(** The node does not come after [(s, e)]. *)
Definition node_until (s : T) (e : list Z) (n : zskiplistNode) (_ : Z) : bool :=
  slt (score n) s || (seq_ (score n) s && (sdscmp (default [] (ele n)) e <=? 0)).

Definition fuel_of (zsl : zskiplist) : nat := Z.to_nat (zsl_length zsl).

Definition search (h : heap) (zsl : zskiplist) (test : zskiplistNode → Z → bool)
    : option (list (address * Z)) :=
  descend (fuel_of zsl) h test (zsl_level zsl) (zsl_header zsl) 0.

(** ** Insertion *)

(** [ZSKIPLIST_P * RAND_MAX], converted to int. *)
Definition random_threshold : Z := 536870911.

(** [while (random() < threshold) level += 1], on the numbers [random] is going to
    return; [None] if they are too few. *)
Fixpoint zslRandomLevel (rs : list Z) (lvl : nat) : option (nat * list Z) :=
  match rs with
  | [] => None
  | r :: rs =>
      if r <? random_threshold then zslRandomLevel rs (lvl + 1)
      else Some (if (lvl <? ZSKIPLIST_MAXLEVEL)%nat then lvl else ZSKIPLIST_MAXLEVEL, rs)
  end.

(** [for (i = i0; i < i0 + n; i++) body(i)] on the heap. *)
Fixpoint for_levels (n : nat) (i : nat) (body : nat → heap → option heap) (h : heap) : option heap :=
  match n with
  | O => Some h
  | S n => h ← body i h; for_levels n (i + 1) body h
  end.

(** The new levels: [update[i] = zsl->header; update[i]->level[i].span = zsl->length]. *)
Definition raise_level (zsl : zskiplist) (i : nat) (h : heap) : option heap :=
  set_span h (zsl_header zsl) i (zsl_length zsl).

(** The new node [x] is linked at level [i]. *)
Definition link_level (x : address) (upd : list (address * Z)) (rank0 : Z) (i : nat) (h : heap) : option heap :=
  '(u, r) ← upd !! i;
  '(fwd, _) ← get_level h u i;
  h ← set_forward h x i fwd;
  h ← set_forward h u i (Some x);
  '(_, span) ← get_level h u i;
  h ← set_span h x i (span - (rank0 - r));
  set_span h u i (rank0 - r + 1).

(** [update[i]->level[i].span++] *)
Definition widen_level (upd : list (address * Z)) (i : nat) (h : heap) : option heap :=
  '(u, _) ← upd !! i;
  '(_, span) ← get_level h u i;
  set_span h u i (span + 1).

(** [lvl]: what [zslRandomLevel] returned. *)
Definition zslInsert (h : heap) (zsl : zskiplist) (s : T) (e : list Z) (lvl : nat) (a : address)
    : option (heap * zskiplist * address) :=
  if isnan s then None
  else
    upd ← search h zsl (node_before s e);
    h ← for_levels (lvl - zsl_level zsl) (zsl_level zsl) (raise_level zsl) h;
    let upd := upd ++ replicate (lvl - zsl_level zsl) (zsl_header zsl, 0) in
    let zsl := mkZsl (zsl_header zsl) (zsl_tail zsl) (zsl_length zsl) (Nat.max (zsl_level zsl) lvl) in
    let h := zslCreateNode h a lvl s (Some e) in
    '(u0, rank0) ← upd !! 0%nat;
    h ← for_levels lvl 0 (link_level a upd rank0) h;
    h ← for_levels (zsl_level zsl - lvl) lvl (widen_level upd) h;
    h ← set_backward h a (if decide (u0 = zsl_header zsl) then None else Some u0);
    '(fwd, _) ← get_level h a 0;
    '(h, tl) ← match fwd with
               | Some y => h ← set_backward h y (Some a); Some (h, zsl_tail zsl)
               | None => Some (h, Some a)
               end;
    Some (h, mkZsl (zsl_header zsl) tl (zsl_length zsl + 1) (zsl_level zsl), a).

(** ** Removal *)

Definition unlink_level (x : address) (upd : list (address * Z)) (i : nat) (h : heap) : option heap :=
  '(u, _) ← upd !! i;
  '(fwd, span) ← get_level h u i;
  if decide (fwd = Some x) then
    '(xfwd, xspan) ← get_level h x i;
    h ← set_span h u i (span + (xspan - 1));
    set_forward h u i xfwd
  else set_span h u i (span - 1).

(** [while (zsl->level > 1 && zsl->header->level[zsl->level-1].forward == NULL)] *)
Fixpoint lower_level (n : nat) (h : heap) (hd : address) : option nat :=
  match n with
  | O => Some O
  | S O => Some 1%nat
  | S (S _ as m) =>
      '(fwd, _) ← get_level h hd m;
      match fwd with
      | None => lower_level m h hd
      | Some _ => Some (S m)
      end
  end.

Definition zslDeleteNode (h : heap) (zsl : zskiplist) (x : address) (upd : list (address * Z))
    : option (heap * zskiplist) :=
  h ← for_levels (zsl_level zsl) 0 (unlink_level x upd) h;
  n ← h !! x;
  '(fwd, _) ← get_level h x 0;
  '(h, tl) ← match fwd with
             | Some y => h ← set_backward h y (backward n); Some (h, zsl_tail zsl)
             | None => Some (h, backward n)
             end;
  lvl ← lower_level (zsl_level zsl) h (zsl_header zsl);
  Some (h, mkZsl (zsl_header zsl) tl (zsl_length zsl - 1) lvl).

Definition same_entry (s : T) (e : list Z) (n : zskiplistNode) : bool :=
  seq_ s (score n) && (sdscmp (default [] (ele n)) e =? 0).

(** [keep]: the argument [node] is not NULL, so that the node is only unlinked.
    The result is the node that was found: the value returned is 1 when there is one. *)
Definition zslDelete (h : heap) (zsl : zskiplist) (s : T) (e : list Z) (keep : bool)
    : option (heap * zskiplist * option address) :=
  upd ← search h zsl (node_before s e);
  '(x, _) ← upd !! 0%nat;
  '(fwd, _) ← get_level h x 0;
  match fwd with
  | None => Some (h, zsl, None)
  | Some x =>
      n ← h !! x;
      if same_entry s e n then
        '(h, zsl) ← zslDeleteNode h zsl x upd;
        Some (if keep then h else zslFreeNode h x, zsl, Some x)
      else Some (h, zsl, None)
  end.

Definition zslUpdateScore (h : heap) (zsl : zskiplist) (curscore : T) (e : list Z) (newscore : T) (lvl : nat) (a : address)
    : option (heap * zskiplist * address) :=
  upd ← search h zsl (node_before curscore e);
  '(u, _) ← upd !! 0%nat;
  '(fwd, _) ← get_level h u 0;
  x ← fwd;
  n ← h !! x;
  if negb (same_entry curscore e n) then None
  else
    back_ok ← match backward n with None => Some true | Some b => m ← h !! b; Some (slt (score m) newscore) end;
    '(fwd, _) ← get_level h x 0;
    fwd_ok ← match fwd with None => Some true | Some f => m ← h !! f; Some (slt newscore (score m)) end;
    if (back_ok : bool) && (fwd_ok : bool) then h ← set_score h x newscore; Some (h, zsl, x)
    else
      '(h, zsl) ← zslDeleteNode h zsl x upd;
      '(h, zsl, y) ← zslInsert h zsl newscore (default [] (ele n)) lvl a;
      Some (zslFreeNode h x, zsl, y).

(** ** Ranks *)

(** [for (i = zsl->level-1; i >= 0; i--)] of zslGetRank; 0 when not found. *)
Fixpoint rank_loop (fuel : nat) (h : heap) (s : T) (e : list Z) (k : nat) (x : address) (rank : Z) : option Z :=
  match k with
  | O => Some 0
  | S i =>
      '(x, rank) ← walk fuel h (node_until s e) i x rank;
      n ← h !! x;
      if match ele n with Some el => seq_ (score n) s && (sdscmp el e =? 0) | None => false end
      then Some rank
      else rank_loop fuel h s e i x rank
  end.

Definition zslGetRank (h : heap) (zsl : zskiplist) (s : T) (e : list Z) : option Z :=
  rank_loop (fuel_of zsl) h s e (zsl_level zsl) (zsl_header zsl) 0.

(** The loop [for (i = start_level; i >= 0; i--)] of zslGetElementByRankFromNode. *)
Fixpoint by_rank_loop (fuel : nat) (h : heap) (rank : Z) (k : nat) (x : address) (traversed : Z) : option (option address) :=
  match k with
  | O => Some None
  | S i =>
      '(x, traversed) ← walk fuel h (λ _ t, t <=? rank) i x traversed;
      if traversed =? rank then Some (Some x) else by_rank_loop fuel h rank i x traversed
  end.

Definition zslGetElementByRankFromNode (fuel : nat) (h : heap) (start_node : address) (start_level : nat) (rank : Z)
    : option (option address) := by_rank_loop fuel h rank (start_level + 1) start_node 0.

Definition zslGetElementByRank (h : heap) (zsl : zskiplist) (rank : Z) : option (option address) :=
  zslGetElementByRankFromNode (fuel_of zsl) h (zsl_header zsl) (zsl_level zsl - 1) rank.

(** ** Ranges *)

Record zrangespec := mkRange { min : T; max : T; minex : bool; maxex : bool }.

Definition sle (a b : T) : bool := slt a b || seq_ a b.

Definition zslValueGteMin (value : T) (spec : zrangespec) : bool :=
  if minex spec then slt (min spec) value else sle (min spec) value.
Definition zslValueLteMax (value : T) (spec : zrangespec) : bool :=
  if maxex spec then slt value (max spec) else sle value (max spec).

Definition zslIsInRange (h : heap) (zsl : zskiplist) (range : zrangespec) : option bool :=
  if slt (max range) (min range) || (seq_ (min range) (max range) && (minex range || maxex range)) then Some false
  else
    match zsl_tail zsl with
    | None => Some false
    | Some x =>
        n ← h !! x;
        if negb (zslValueGteMin (score n) range) then Some false
        else
          '(fwd, _) ← get_level h (zsl_header zsl) 0;
          match fwd with
          | None => Some false
          | Some x => n ← h !! x; Some (zslValueLteMax (score n) range)
          end
    end.

(** [for (i = 0; i < n; i++) x = x->level[0].forward] and the same with [backward]. *)
Fixpoint steps_forward (n : nat) (h : heap) (x : option address) : option (option address) :=
  match n with
  | O => Some x
  | S n => y ← x; '(fwd, _) ← get_level h y 0; steps_forward n h fwd
  end.
Fixpoint steps_backward (n : nat) (h : heap) (x : option address) : option (option address) :=
  match n with
  | O => Some x
  | S n => y ← x; m ← h !! y; steps_backward n h (backward m)
  end.

(** [if (x && !test(x->score)) return NULL; return x]. *)
Definition checked (h : heap) (test : T → bool) (x : option address) : option (option address) :=
  match x with
  | None => Some None
  | Some y => n ← h !! y; Some (if test (score n) then Some y else None)
  end.

Definition zslNthInRange (h : heap) (zsl : zskiplist) (range : zrangespec) (n : Z) : option (option address) :=
  in_range ← zslIsInRange h zsl range;
  if negb in_range then Some None
  else
    let fuel := fuel_of zsl in
    let below := λ m _, negb (zslValueGteMin (score m) range) in
    let upto := λ m _, zslValueLteMax (score m) range in
    '(x, edge_rank) ← walk fuel h below (zsl_level zsl - 1) (zsl_header zsl) 0;
    let last_highest_level_node := x in
    let last_highest_level_rank := edge_rank in
    if 0 <=? n then
      upd ← descend fuel h below (zsl_level zsl - 1) x edge_rank;
      let '(x, edge_rank) := default (x, edge_rank) (upd !! 0%nat) in
      if zsl_length zsl <=? uwrap 64 (edge_rank + n) then Some None
      else
        x ← (if n <? ZSKIPLIST_MAX_SEARCH then steps_forward (Z.to_nat (n + 1)) h (Some x)
             else zslGetElementByRankFromNode fuel h last_highest_level_node (zsl_level zsl - 1)
                    (uwrap 64 (edge_rank + 1 + n - last_highest_level_rank)));
        checked h (λ s, zslValueLteMax s range) x
    else
      upd ← descend fuel h upto (zsl_level zsl) x edge_rank;
      let '(x, edge_rank) := default (x, edge_rank) (upd !! 0%nat) in
      if edge_rank <? - n then Some None
      else
        x ← (if - ZSKIPLIST_MAX_SEARCH <? n + 1 then steps_backward (Z.to_nat (- n - 1)) h (Some x)
             else zslGetElementByRankFromNode fuel h last_highest_level_node (zsl_level zsl - 1)
                    (uwrap 64 (edge_rank + 1 + n - last_highest_level_rank)));
        checked h (λ s, zslValueGteMin s range) x.

(** ** Lexicographic ranges *)

(** [shared.minstring], [shared.maxstring] or a string. *)
Inductive lexbound := minstring | maxstring | Str (s : list Z).

Record zlexrangespec := mkLexRange { lexmin : lexbound; lexmax : lexbound; lexminex : bool; lexmaxex : bool }.

Definition sdscmplex (a b : lexbound) : Z :=
  match a, b with
  | minstring, minstring | maxstring, maxstring => 0
  | minstring, _ | _, maxstring => -1
  | maxstring, _ | _, minstring => 1
  | Str a, Str b => sdscmp a b
  end.

Definition zslLexValueGteMin (value : list Z) (spec : zlexrangespec) : bool :=
  if lexminex spec then 0 <? sdscmplex (Str value) (lexmin spec) else 0 <=? sdscmplex (Str value) (lexmin spec).
Definition zslLexValueLteMax (value : list Z) (spec : zlexrangespec) : bool :=
  if lexmaxex spec then sdscmplex (Str value) (lexmax spec) <? 0 else sdscmplex (Str value) (lexmax spec) <=? 0.

(** ** Removal of ranges

    The dict that indexes the members is the client's: [dictDelete] is an argument. *)

Section Ranges.
Context {D : Type} (dictDelete : D → list Z → option D).

(** [while (x && test(x, traversed))]: the node is unlinked, its member leaves
    the dict, and it is freed. *)
Fixpoint delete_while (fuel : nat) (h : heap) (zsl : zskiplist) (d : D) (test : zskiplistNode → Z → bool)
    (upd : list (address * Z)) (x : option address) (removed traversed : Z) : option (heap * zskiplist * D * Z) :=
  match x with
  | None => Some (h, zsl, d, removed)
  | Some x =>
      n ← h !! x;
      if test n traversed then
        match fuel with
        | O => None
        | S fuel =>
            '(next, _) ← get_level h x 0;
            '(h, zsl) ← zslDeleteNode h zsl x upd;
            d ← dictDelete d (default [] (ele n));
            delete_while fuel (zslFreeNode h x) zsl d test upd next (removed + 1) (traversed + 1)
        end
      else Some (h, zsl, d, removed)
  end.

(** The search for the first node that does not satisfy [before], then the removal
    of those that satisfy [test]. *)
Definition delete_range (h : heap) (zsl : zskiplist) (d : D) (before test : zskiplistNode → Z → bool)
    : option (heap * zskiplist * D * Z) :=
  upd ← search h zsl before;
  '(x, traversed) ← upd !! 0%nat;
  '(x, _) ← get_level h x 0;
  delete_while (fuel_of zsl) h zsl d test upd x 0 (traversed + 1).

Definition zslDeleteRangeByScore (h : heap) (zsl : zskiplist) (range : zrangespec) (d : D) :=
  delete_range h zsl d (λ n _, negb (zslValueGteMin (score n) range)) (λ n _, zslValueLteMax (score n) range).

Definition zslDeleteRangeByLex (h : heap) (zsl : zskiplist) (range : zlexrangespec) (d : D) :=
  delete_range h zsl d (λ n _, negb (zslLexValueGteMin (default [] (ele n)) range))
    (λ n _, zslLexValueLteMax (default [] (ele n)) range).

(** [start] and [end] are inclusive and 1-based. *)
Definition zslDeleteRangeByRank (h : heap) (zsl : zskiplist) (start end_ : Z) (d : D) :=
  delete_range h zsl d (λ _ t, t <? start) (λ _ t, t <=? end_).

End Ranges.

End Skiplist.

End Skiplist.
