(* ===== verification/SkiplistOrder.v ===== *)
(** * The order of sorted sets ([src/redis-stable/src/t_zset.c])

    The order of the nodes of a skip list: by score, then by member.  It is a
    strict total order on entries whose score is not NaN; doubles are an
    instance of the interface of scores. *)

From Stdlib Require Import SpecFloat.
From S2P Require Import Prelude SdsText Skiplist.

Module SkiplistOrder.
Import SdsText Skiplist.

(** ** Members *)

Lemma lex_antisym a b : lex b a = - lex a b.
Proof.
  revert b. induction a as [|x a IH]; intros [|y b]; simpl; try done.
  repeat case_if; zb; try lia. apply IH.
Qed.

Lemma lex_range a b : -1 <= lex a b <= 1.
Proof. revert b. induction a as [|x a IH]; intros [|y b]; simpl; try lia. repeat case_if; try lia. apply IH. Qed.

Lemma lex_trans a b c : lex a b < 0 → lex b c < 0 → lex a c < 0.
Proof.
  revert b c. induction a as [|x a IH]; intros [|y b] [|z c]; simpl; try lia.
  repeat case_if; zb; try lia. apply IH.
Qed.

Lemma sdscmp_eq a b : sdscmp a b = 0 ↔ a = b.
Proof. apply sdscmp_correct. Qed.
Lemma sdscmp_antisym a b : sdscmp b a = - sdscmp a b.
Proof. rewrite !(proj1 (sdscmp_correct _ _)). apply lex_antisym. Qed.
Lemma sdscmp_trans a b c : sdscmp a b < 0 → sdscmp b c < 0 → sdscmp a c < 0.
Proof. rewrite !(proj1 (sdscmp_correct _ _)). apply lex_trans. Qed.

(** ** Entries *)

Section Order.
Context {T : Type} `{ScoreLaws T}.

Abbreviation key := (T * list Z)%type.

Definition real_key (a : key) : Prop := isnan a.1 = false.

Definition klt (a b : key) : bool := slt a.1 b.1 || (seq_ a.1 b.1 && (sdscmp a.2 b.2 <? 0)).
Definition kle (a b : key) : bool := slt a.1 b.1 || (seq_ a.1 b.1 && (sdscmp a.2 b.2 <=? 0)).
Definition keq (a b : key) : bool := seq_ a.1 b.1 && (sdscmp a.2 b.2 =? 0).

Lemma keq_spec a b : keq a b = true ↔ seq_ a.1 b.1 = true ∧ a.2 = b.2.
Proof. unfold keq. rewrite andb_true_iff, Z.eqb_eq, sdscmp_eq. done. Qed.

Lemma klt_spec a b :
  klt a b = true ↔ slt a.1 b.1 = true ∨ (seq_ a.1 b.1 = true ∧ sdscmp a.2 b.2 < 0).
Proof. unfold klt. rewrite orb_true_iff, andb_true_iff, Z.ltb_lt. done. Qed.

Lemma klt_trans a b c : klt a b = true → klt b c = true → klt a c = true.
Proof.
  rewrite !klt_spec. intros [H1|[E1 H1]] [H2|[E2 H2]].
  - left. by eapply slt_trans.
  - left. by rewrite <-(slt_seq_r _ _ _ E2).
  - left. by rewrite (slt_seq_l _ _ _ E1).
  - right. split; [by eapply seq_trans|by eapply sdscmp_trans].
Qed.

Lemma klt_asym a b : klt a b = true → klt b a = false.
Proof.
  intros Hab. apply not_true_is_false. intros Hba. apply klt_spec in Hab, Hba.
  destruct Hab as [H1|[E1 H1]], Hba as [H2|[E2 H2]].
  - by rewrite (proj2 (slt_seq _ _ H1)) in H2.
  - rewrite seq_sym, (proj1 (slt_seq _ _ H1)) in E2. done.
  - rewrite seq_sym, (proj1 (slt_seq _ _ H2)) in E1. done.
  - rewrite sdscmp_antisym in H2. lia.
Qed.

Lemma klt_irrefl a : klt a a = false.
Proof. destruct (klt a a) eqn:E; [|done]. by rewrite (klt_asym _ _ E) in E. Qed.

Lemma klt_total a b : real_key a → real_key b → klt a b = false → klt b a = true ∨ keq a b = true.
Proof.
  intros Ha Hb Hn. destruct (slt a.1 b.1) eqn:E1; [by unfold klt in Hn; rewrite E1 in Hn|].
  destruct (seq_ a.1 b.1) eqn:E2.
  - assert (0 <= sdscmp a.2 b.2).
    { destruct (decide (0 <= sdscmp a.2 b.2)); [done|]. exfalso. apply not_true_iff_false in Hn. apply Hn, klt_spec.
      right. split; [done|lia]. }
    destruct (decide (sdscmp a.2 b.2 = 0)) as [E|E].
    + right. apply keq_spec. split; [done|by apply sdscmp_eq].
    + left. apply klt_spec. right. rewrite seq_sym, sdscmp_antisym. split; [done|lia].
  - left. apply klt_spec. left. by apply slt_total.
Qed.

Lemma klt_keq a b : klt a b = true → keq a b = false.
Proof.
  intros H1. apply not_true_is_false. intros [E E2]%keq_spec.
  apply klt_spec in H1 as [H1|[_ H1]].
  - rewrite (proj1 (slt_seq _ _ H1)) in E. done.
  - rewrite (proj2 (sdscmp_eq _ _) E2) in H1. lia.
Qed.

Lemma keq_sym a b : keq a b = keq b a.
Proof.
  apply eq_true_iff_eq. rewrite !keq_spec, (seq_sym a.1 b.1). split; intros [??]; done.
Qed.

Lemma keq_refl a : real_key a → keq a a = true.
Proof. intros Ha. apply keq_spec. split; [by apply seq_refl|done]. Qed.

Lemma kle_spec a b : kle a b = klt a b || keq a b.
Proof.
  unfold kle, klt, keq. destruct (slt a.1 b.1); [done|]. simpl. destruct (seq_ a.1 b.1); [|done]. simpl.
  apply eq_true_iff_eq. rewrite orb_true_iff. zb. lia.
Qed.

Lemma kle_negb a b : real_key a → real_key b → kle a b = negb (klt b a).
Proof.
  intros Ha Hb. rewrite kle_spec. destruct (klt b a) eqn:E; simpl.
  - rewrite (klt_asym _ _ E), keq_sym. by apply klt_keq.
  - destruct (klt_total _ _ Hb Ha E) as [->|E']; [done|]. rewrite keq_sym, E'. apply orb_true_r.
Qed.

(** Equal keys compare alike. *)
Lemma klt_keq_l a b c : keq a b = true → klt a c = klt b c.
Proof.
  intros [E E2]%keq_spec. unfold klt. rewrite E2, (slt_seq_l _ _ _ E). f_equal. f_equal.
  apply eq_true_iff_eq. split; intros; eapply seq_trans; eauto. by rewrite seq_sym.
Qed.
Lemma klt_keq_r a b c : keq a b = true → klt c a = klt c b.
Proof.
  intros [E E2]%keq_spec. unfold klt. rewrite E2, (slt_seq_r _ _ _ E). f_equal. f_equal.
  apply eq_true_iff_eq. split; intros; eapply seq_trans; eauto. by rewrite seq_sym.
Qed.

End Order.

(** ** Doubles *)

(** The position of a double that is not NaN: sign and infinity, exponent, mantissa. *)
Definition double_key (f : spec_float) : Z * Z * Z :=
  match f with
  | S754_nan => (3, 0, 0)
  | S754_infinity true => (-2, 0, 0)
  | S754_infinity false => (2, 0, 0)
  | S754_zero _ => (0, 0, 0)
  | S754_finite true m e => (-1, - e, Z.neg m)
  | S754_finite false m e => (1, e, Z.pos m)
  end.

Definition lex3_lt (a b : Z * Z * Z) : Prop :=
  a.1.1 < b.1.1 ∨ (a.1.1 = b.1.1 ∧ (a.1.2 < b.1.2 ∨ (a.1.2 = b.1.2 ∧ a.2 < b.2))).

Lemma double_compare f g : isnan f = false → isnan g = false →
  (slt f g = true ↔ lex3_lt (double_key f) (double_key g)) ∧ (seq_ f g = true ↔ double_key f = double_key g).
Proof.
  intros Hf Hg. unfold slt, seq_, double_score, SFltb, SFeqb, lex3_lt.
  destruct f as [?|[]| |[] m1 e1], g as [?|[]| |[] m2 e2]; try discriminate; simpl;
    try (split; split; intros; try discriminate; try lia; simplify_eq; done).
  all: destruct (Z.compare_spec e1 e2); change (Pos.compare_cont Eq m1 m2) with (Pos.compare m1 m2);
    try destruct (Pos.compare_spec m1 m2); simpl;
    split; split; intros; try discriminate; try lia; simplify_eq; try done; try lia.
Qed.

Lemma double_nan f g : isnan f = true ∨ isnan g = true → slt f g = false ∧ seq_ f g = false.
Proof. destruct f, g; intros [?|?]; try discriminate; done. Qed.

Lemma double_real f g : slt f g = true ∨ seq_ f g = true → isnan f = false ∧ isnan g = false.
Proof.
  intros Hc. destruct (isnan f) eqn:Ef; [|destruct (isnan g) eqn:Eg; [|done]].
  - destruct (double_nan f g (or_introl Ef)) as [E1 E2]. rewrite E1, E2 in Hc. by destruct Hc.
  - destruct (double_nan f g (or_intror Eg)) as [E1 E2]. rewrite E1, E2 in Hc. by destruct Hc.
Qed.

(** A comparison of doubles as one of their positions. *)
Lemma double_slt f g : slt f g = true ↔ isnan f = false ∧ isnan g = false ∧ lex3_lt (double_key f) (double_key g).
Proof.
  split.
  - intros Hs. destruct (double_real f g (or_introl Hs)) as [Hf Hg]. split_and!; [done..|]. by apply double_compare.
  - intros (? & ? & ?). by apply double_compare.
Qed.
Lemma double_seq f g : seq_ f g = true ↔ isnan f = false ∧ isnan g = false ∧ double_key f = double_key g.
Proof.
  split.
  - intros Hs. destruct (double_real f g (or_intror Hs)) as [Hf Hg]. split_and!; [done..|]. by apply double_compare.
  - intros (? & ? & ?). by apply double_compare.
Qed.

#[export] Instance double_laws : ScoreLaws spec_float.
Proof.
  constructor.
  - intros a Ha. by apply double_seq.
  - intros a b. apply eq_true_iff_eq. rewrite !double_seq. naive_solver.
  - intros a b (Ha & Hb & Hl)%double_slt. split; apply not_true_is_false.
    + intros (_ & _ & E)%double_seq. rewrite E in Hl. unfold lex3_lt in Hl. lia.
    + intros (_ & _ & E)%double_slt. unfold lex3_lt in *. lia.
  - intros a b Ha Hb Hl He. apply double_slt. split_and!; [done..|].
    apply not_true_iff_false in Hl, He. rewrite double_slt in Hl. rewrite double_seq in He.
    assert (¬ lex3_lt (double_key a) (double_key b)) as Hl' by naive_solver.
    assert (double_key a ≠ double_key b) as He' by naive_solver.
    destruct (double_key a) as [[x1 x2] x3], (double_key b) as [[y1 y2] y3]. unfold lex3_lt in *. simpl in *.
    assert (¬ (x1 = y1 ∧ x2 = y2 ∧ x3 = y3)) by naive_solver. lia.
  - intros a b c (Ha & Hb & Hl)%double_slt (_ & Hc & Hm)%double_slt. apply double_slt. split_and!; [done..|].
    unfold lex3_lt in *. lia.
  - intros a b c (Ha & Hb & E)%double_seq. apply eq_true_iff_eq. rewrite !double_slt, E. naive_solver.
  - intros a b c (Ha & Hb & E)%double_seq. apply eq_true_iff_eq. rewrite !double_slt, E. naive_solver.
  - intros a b c (Ha & Hb & E1)%double_seq (_ & Hc & E2)%double_seq. apply double_seq. split_and!; [done..|congruence].
  - done.
Qed.

End SkiplistOrder.
