(* ===== verification/SkiplistRepr.v ===== *)
(** * Skip lists: heaps, levels and searches

    A heap seen pointwise (the cells of the levels and the other fields of the
    nodes), the loops over levels as pointwise updates, the list of entries a
    skip list stands for, and what the searches find in it. *)

From stdpp Require Import gmap.
From S2P Require Import Prelude SdsText Skiplist SkiplistOrder.

Module SkiplistRepr.
Import SdsText Skiplist SkiplistOrder.

Section Repr.
Context {T : Type} `{Score T}.
Implicit Types (h : gmap address (zskiplistNode (T := T))).

(** ** Heaps pointwise *)

Abbreviation cell := (option address * Z)%type.

(** What a node holds outside its levels. *)
Definition fields h (p : address) : option (option (list Z) * T * option address) :=
  (λ n, (ele n, score n, backward n)) <$> h !! p.

Lemma fields_lookup h p e s b : fields h p = Some (e, s, b) →
  ∃ lv, h !! p = Some (mkNode e s b lv).
Proof.
  unfold fields. destruct (h !! p) as [[]|]; simpl; [|done]. intros [= -> -> ->]. eauto.
Qed.

Lemma same_node h h' p : fields h' p = fields h p → (∀ j, get_level h' p j = get_level h p j) → h' !! p = h !! p.
Proof.
  unfold fields, get_level. intros Hf Hl. destruct (h !! p) as [[]|], (h' !! p) as [[]|]; simpl in *; try done.
  injection Hf as -> -> ->. do 2 f_equal. by apply list_eq.
Qed.

(** The heap changes at one level of one node. *)
Definition cell_changed h h' (x : address) (i : nat) (v : cell) : Prop :=
  (∀ p j, get_level h' p j = if decide (p = x ∧ j = i) then Some v else get_level h p j) ∧
  (∀ p, fields h' p = fields h p).

Lemma set_level_spec h x i v c : get_level h x i = Some c →
  ∃ h', set_level h x i v = Some h' ∧ cell_changed h h' x i v.
Proof.
  unfold cell_changed, get_level, set_level, fields. intros (n & Hn & Hc)%bind_Some.
  rewrite Hn. simpl. rewrite Hc. simpl. eexists. split; [done|]. split.
  - intros p j. destruct (decide (p = x)) as [->|Hp].
    + rewrite lookup_insert_eq, Hn. simpl. destruct (decide (j = i)) as [->|Hj].
      * rewrite decide_True by done. rewrite list_lookup_insert_eq; [done|]. by eapply lookup_lt_Some.
      * rewrite decide_False by naive_solver. by rewrite list_lookup_insert_ne.
    + rewrite lookup_insert_ne by done. rewrite decide_False by naive_solver. done.
  - intros p. destruct (decide (p = x)) as [->|Hp].
    + rewrite lookup_insert_eq, Hn. done.
    + by rewrite lookup_insert_ne by done.
Qed.

Lemma set_forward_spec h x i f p d : get_level h x i = Some (p, d) →
  ∃ h', set_forward h x i f = Some h' ∧ cell_changed h h' x i (f, d).
Proof. intros Hc. unfold set_forward. rewrite Hc. simpl. by eapply set_level_spec. Qed.
Lemma set_span_spec h x i p d d' : get_level h x i = Some (p, d) →
  ∃ h', set_span h x i d' = Some h' ∧ cell_changed h h' x i (p, d').
Proof. intros Hc. unfold set_span. rewrite Hc. simpl. by eapply set_level_spec. Qed.

(** A change of the other fields of a node. *)
Definition fields_changed h h' (x : address) (v : option (list Z) * T * option address) : Prop :=
  (∀ p j, get_level h' p j = get_level h p j) ∧
  (∀ p, fields h' p = if decide (p = x) then Some v else fields h p).

Lemma set_backward_spec h x e s b b' : fields h x = Some (e, s, b) →
  ∃ h', set_backward h x b' = Some h' ∧ fields_changed h h' x (e, s, b').
Proof.
  intros (lv & Hn)%fields_lookup. unfold set_backward. rewrite Hn. simpl. eexists. split; [done|].
  unfold fields_changed, get_level, fields.
  split; intros p; destruct (decide (p = x)) as [->|?]; rewrite ?lookup_insert_eq, ?Hn, ?lookup_insert_ne by done; done.
Qed.
Lemma set_score_spec h x e s b s' : fields h x = Some (e, s, b) →
  ∃ h', set_score h x s' = Some h' ∧ fields_changed h h' x (e, s', b).
Proof.
  intros (lv & Hn)%fields_lookup. unfold set_score. rewrite Hn. simpl. eexists. split; [done|].
  unfold fields_changed, get_level, fields.
  split; intros p; destruct (decide (p = x)) as [->|?]; rewrite ?lookup_insert_eq, ?Hn, ?lookup_insert_ne by done; done.
Qed.

Lemma create_node_cells h a k s e p j :
  get_level (zslCreateNode h a k s e) p j =
  if decide (p = a) then (if decide (j < k)%nat then Some (None, 0) else None) else get_level h p j.
Proof.
  unfold get_level, zslCreateNode. destruct (decide (p = a)) as [->|?].
  - rewrite lookup_insert_eq. simpl. case_decide.
    + by rewrite lookup_replicate_2.
    + apply lookup_ge_None. rewrite length_replicate. lia.
  - by rewrite lookup_insert_ne by done.
Qed.
Lemma create_node_fields h a k s e p :
  fields (zslCreateNode h a k s e) p = if decide (p = a) then Some (e, s, None) else fields h p.
Proof.
  unfold fields, zslCreateNode. case_decide; [subst; by rewrite lookup_insert_eq|by rewrite lookup_insert_ne by done].
Qed.

Lemma free_node_cells h a p j : p ≠ a → get_level (zslFreeNode h a) p j = get_level h p j.
Proof. intros Hp. unfold get_level, zslFreeNode. by rewrite lookup_delete_ne by done. Qed.
Lemma free_node_fields h a p : p ≠ a → fields (zslFreeNode h a) p = fields h p.
Proof. intros Hp. unfold fields, zslFreeNode. by rewrite lookup_delete_ne by done. Qed.

Lemma get_level_None h p j : fields h p = None → get_level h p j = None.
Proof. unfold fields, get_level. by destruct (h !! p). Qed.

(** ** Loops over levels

    A loop whose body changes the cells of its own level to the view [V]. *)
Lemma for_levels_spec (V : nat → address → option cell) body n i h0 h :
  (∀ j h, (i ≤ j < i + n)%nat → (∀ p, fields h p = fields h0 p) →
     (∀ p k, (j ≤ k)%nat → get_level h p k = get_level h0 p k) →
     ∃ h', body j h = Some h' ∧
       (∀ p k, get_level h' p k = if decide (k = j) then V j p else get_level h p k) ∧
       (∀ p, fields h' p = fields h p)) →
  (∀ p, fields h p = fields h0 p) → (∀ p k, (i ≤ k)%nat → get_level h p k = get_level h0 p k) →
  ∃ h', for_levels n i body h = Some h' ∧
    (∀ p k, get_level h' p k = if decide (i ≤ k < i + n)%nat then V k p else get_level h p k) ∧
    (∀ p, fields h' p = fields h p).
Proof.
  revert i h. induction n as [|n IH]; intros i h Hbody Hf Hl.
  - exists h. split_and!; [done| |done]. intros p k. rewrite decide_False by lia. done.
  - destruct (Hbody i h) as (h1 & E1 & Hl1 & Hf1); [lia|done..|]. simpl. rewrite E1. simpl.
    destruct (IH (i + 1)%nat h1) as (h' & E' & Hl' & Hf').
    + intros j h2 Hj. apply Hbody. lia.
    + intros p. by rewrite Hf1.
    + intros p k Hk. rewrite Hl1, decide_False by lia. apply Hl. lia.
    + exists h'. split_and!; [done| |intros p; by rewrite Hf'].
      intros p k. rewrite Hl', Hl1. repeat case_decide; subst; done || lia.
Qed.

(** ** Entries *)

Record entry := mkEntry { e_ptr : address; e_height : nat; e_score : T; e_ele : list Z }.

Definition e_key (e : entry) : T * list Z := (e_score e, e_ele e).

(** The cell of level [i] of a node that is followed by [B]: the first entry of [B]
    that reaches the level, or null, and how far it is. *)
Fixpoint nxt (i : nat) (B : list entry) : cell :=
  match B with
  | [] => (None, 0)
  | b :: B => if decide (i < e_height b)%nat then (Some (e_ptr b), 1) else ((nxt i B).1, (nxt i B).2 + 1)
  end.

Definition low (i : nat) (n : entry) : Prop := (e_height n ≤ i)%nat.
Definition high (i : nat) (n : entry) : Prop := (i < e_height n)%nat.

Lemma nxt_skip i Q B : Forall (low i) Q → nxt i (Q ++ B) = ((nxt i B).1, (nxt i B).2 + zlen Q).
Proof.
  induction 1 as [|q Q Hq _ IH]; simpl.
  - rewrite zlen_nil, Z.add_0_r. by destruct (nxt i B).
  - unfold low in Hq. rewrite decide_False by lia. rewrite IH, zlen_cons. simpl. f_equal. lia.
Qed.

Lemma nxt_found i Q b B : Forall (low i) Q → high i b → nxt i (Q ++ b :: B) = (Some (e_ptr b), zlen Q + 1).
Proof. intros HQ Hb. rewrite nxt_skip by done. simpl. rewrite decide_True by done. simpl. f_equal. lia. Qed.

Lemma nxt_low i B : Forall (low i) B → nxt i B = (None, zlen B).
Proof. intros HB. rewrite <-(app_nil_r B), nxt_skip by done. simpl. by rewrite app_nil_r. Qed.

(** The first entry that reaches a level, and the last one. *)
Lemma first_high i B : Forall (low i) B ∨ ∃ P b Q, B = P ++ b :: Q ∧ Forall (low i) P ∧ high i b.
Proof.
  induction B as [|b B IH]; [by left|]. destruct (decide (i < e_height b)%nat) as [Hb|Hb].
  - right. by exists [], b, B.
  - assert (low i b) by (unfold high, low in *; lia).
    destruct IH as [IH|(P & b' & Q & -> & HP & Hb')]; [left; by constructor|].
    right. exists (b :: P), b', Q. split_and!; [done|by constructor|done].
Qed.

Definition last_at (i : nat) (L P : list entry) (u : entry) (Q : list entry) : Prop :=
  L = P ++ u :: Q ∧ high i u ∧ Forall (low i) Q.

Lemma last_at_step i L P x Q P' u Q' :
  L = P ++ x :: Q → last_at i (x :: Q) P' u Q' → last_at i L (P ++ P') u Q'.
Proof. intros -> (E & Hu & HQ). split_and!; [by rewrite E, <-app_assoc|done..]. Qed.

(** A node that is followed by a list whose end changes. *)
Lemma nxt_stable i Q b B B' R : Q = R ++ b :: B → high i b → nxt i (Q ++ B') = nxt i Q.
Proof.
  intros -> Hb. destruct (first_high i R) as [HR|(R1 & r & R2 & -> & HR1 & Hr)].
  - rewrite <-app_assoc. simpl. by rewrite !nxt_found.
  - rewrite <-!app_assoc. simpl. by rewrite !nxt_found.
Qed.

(** The cells of the entries of [L] below level [lc]. *)
Definition links h (lc : nat) (L : list entry) : Prop :=
  ∀ P n Q j, L = P ++ n :: Q → high j n → (j < lc)%nat → get_level h (e_ptr n) j = Some (nxt j Q).

Lemma links_suffix h lc P L : links h lc (P ++ L) → links h lc L.
Proof. intros Hl P' n Q j -> Hn Hj. apply (Hl (P ++ P') n Q j); [by rewrite app_assoc|done..]. Qed.

(** ** Searches *)

Section Search.
Context (h : gmap address (zskiplistNode (T := T))) (lc : nat) (A B : list entry) (test : zskiplistNode (T := T) → Z → bool).
Context (Hlinks : links h lc (A ++ B)).
Context (HA : ∀ k e, A !! k = Some e → (0 < k)%nat → ∃ n, h !! e_ptr e = Some n ∧ test n (Z.of_nat k) = true).
Context (HB : ∀ k e, B !! k = Some e → ∃ n, h !! e_ptr e = Some n ∧ test n (zlen A + Z.of_nat k) = false).

Lemma walk_spec fuel i P x Q : A = P ++ x :: Q → high i x → (i < lc)%nat → (length Q ≤ fuel)%nat →
  ∃ P' u Q', last_at i (x :: Q) P' u Q' ∧ walk fuel h test i (e_ptr x) (zlen P) = Some (e_ptr u, zlen (P ++ P')).
Proof.
  revert P x Q. induction fuel as [|fuel IH]; intros P x Q HAs Hx Hi Hfuel.
  all: assert (get_level h (e_ptr x) i = Some (nxt i (Q ++ B))) as Hc
    by (apply (Hlinks P); [by rewrite HAs, <-app_assoc|done..]).
  all: simpl; rewrite Hc; simpl.
  all: destruct (first_high i Q) as [HQ|(P1 & b & Q1 & -> & HP1 & Hb)].
  all: try (rewrite (nxt_skip i Q B HQ); simpl;
    assert (last_at i (x :: Q) [] x Q) as Hlast by done;
    exists [], x, Q; split; [done|]; rewrite app_nil_r;
    destruct (first_high i B) as [HBl|(P2 & b & Q2 & EB & HP2 & Hb)];
      [by rewrite (nxt_low i B HBl)|];
    rewrite EB, (nxt_found i P2 b Q2) by done; simpl;
    destruct (HB (length P2) b) as (n & -> & Ht);
      [rewrite EB; by apply list_lookup_middle|]; simpl;
    replace (zlen P + (zlen P2 + 1 + zlen Q)) with (zlen A + Z.of_nat (length P2))
      by (rewrite HAs, zlen_app, zlen_cons; unfold zlen; lia);
    by rewrite Ht).
  { rewrite length_app in Hfuel. simpl in Hfuel. lia. }
  rewrite <-app_assoc. simpl. rewrite nxt_found by done.
  destruct (HA (length P + 1 + length P1) b) as (n & -> & Ht); [|lia|].
  { rewrite HAs, lookup_app_r by lia. replace (_ - _)%nat with (S (length P1)) by lia. simpl.
    by apply list_lookup_middle. }
  simpl. replace (zlen P + (zlen P1 + 1)) with (Z.of_nat (length P + 1 + length P1)) by (unfold zlen; lia).
  rewrite Ht. destruct (IH (P ++ x :: P1) b Q1) as (P' & u & Q' & Hlast & Hw); [|done..| |].
  { by rewrite HAs, <-app_assoc. }
  { rewrite length_app in Hfuel. simpl in Hfuel. lia. }
  exists (x :: P1 ++ P'), u, Q'. split.
  - apply (last_at_step i (x :: P1 ++ b :: Q1) (x :: P1) b Q1 P' u Q'); done.
  - replace (Z.of_nat _) with (zlen (P ++ x :: P1)) by (rewrite zlen_app, zlen_cons; unfold zlen; lia).
    rewrite Hw, <-app_assoc. done.
Qed.

(** What [update] and [rank] hold after a descent through [k] levels. *)
Definition preds (k : nat) (L : list entry) (upd : list (address * Z)) : Prop :=
  ∀ i, (i < k)%nat → ∃ P u Q, last_at i L P u Q ∧ upd !! i = Some (e_ptr u, zlen P).

Lemma descend_spec fuel k P x Q : A = P ++ x :: Q → (k ≤ e_height x)%nat → (k ≤ lc)%nat → (length Q ≤ fuel)%nat →
  ∃ upd, descend fuel h test k (e_ptr x) (zlen P) = Some upd ∧ length upd = k ∧ preds k A upd.
Proof.
  revert P x Q. induction k as [|i IH]; intros P x Q HAs Hx Hk Hfuel; simpl.
  { exists []. split_and!; [done..|]. intros i. lia. }
  destruct (walk_spec fuel i P x Q) as (P' & u & Q' & Hlast & ->); [done|unfold high; lia|lia|done|]. simpl.
  pose proof (last_at_step i A P x Q P' u Q' HAs Hlast) as HlastA.
  destruct HlastA as (EA & Hu & HQ').
  destruct (IH (P ++ P') u Q') as (l & -> & Hlen & Hl).
  { done. } { unfold high in Hu. lia. } { lia. }
  { destruct Hlast as (E & _ & _). assert (length (x :: Q) = length (P' ++ u :: Q')) as El by by rewrite E.
    rewrite length_app in El. simpl in El. lia. }
  simpl. exists (l ++ [(e_ptr u, zlen (P ++ P'))]). split; [done|]. split; [rewrite length_app; simpl; lia|].
  intros j Hj. destruct (decide (j = i)) as [->|Hne].
  - exists (P ++ P'), u, Q'. split; [done|]. rewrite lookup_app_r by lia. rewrite Hlen, Nat.sub_diag. done.
  - destruct (Hl j) as (P2 & u2 & Q2 & H2 & Hl2); [lia|]. exists P2, u2, Q2. split; [done|].
    rewrite lookup_app_l by lia. done.
Qed.

End Search.

End Repr.

Arguments entry : clear implicits.

End SkiplistRepr.
