(* ===== verification/SkiplistLinks.v ===== *)
(** * Skip lists: linking and unlinking a node

    What the loops over levels of [zslInsert] and [zslDeleteNode] do to the cells,
    and that they take the links of one list of entries to those of the list with
    an entry more, or less. *)

From stdpp Require Import gmap.
From S2P Require Import Prelude Skiplist SkiplistOrder SkiplistRepr.

Module SkiplistLinks.
Import Skiplist SkiplistRepr.

(** The ways to split a list with a distinguished element. *)
Lemma app_cons_cases {A} (L B P Q : list A) (n m : A) : L ++ n :: B = P ++ m :: Q →
  (∃ R, L = P ++ m :: R ∧ Q = R ++ n :: B) ∨ (P = L ∧ m = n ∧ Q = B) ∨ (∃ R, P = L ++ n :: R ∧ B = R ++ m :: Q).
Proof.
  revert P. induction L as [|x L IH]; intros [|p P]; simpl; intros [= -> E].
  - by right; left.
  - right; right. by exists P.
  - left. by exists L.
  - destruct (IH P E) as [(R & -> & ->)|[(-> & -> & ->)|(R & -> & ->)]]; [left|by right; left|right; right]; by exists R.
Qed.
Lemma app_split_cases {A} (L B P Q : list A) (m : A) : L ++ B = P ++ m :: Q →
  (∃ R, L = P ++ m :: R ∧ Q = R ++ B) ∨ (∃ R, P = L ++ R ∧ B = R ++ m :: Q).
Proof.
  revert P. induction L as [|x L IH]; intros [|p P]; simpl.
  - intros ->. right. by exists [].
  - intros ->. right. by exists (p :: P).
  - intros [= -> <-]. left. by exists L.
  - intros [= -> E]. destruct (IH P E) as [(R & -> & ->)|(R & -> & ->)]; [left|right]; by exists R.
Qed.

Section Links.
Context {T : Type} `{Score T}.
Implicit Types (h : gmap address (zskiplistNode (T := T))) (L P Q A B : list (entry T)).

Lemma last_at_inj i L P u Q P' u' Q' : last_at i L P u Q → last_at i L P' u' Q' → P = P' ∧ u = u' ∧ Q = Q'.
Proof.
  intros (E1 & Hu & HQ) (E2 & Hu' & HQ'). subst L.
  destruct (app_cons_cases _ _ _ _ _ _ E2) as [(R & -> & ->)|[(-> & -> & ->)|(R & -> & ->)]]; [|done|].
  - apply Forall_app in HQ' as [_ HQ']. apply Forall_inv in HQ'. unfold low, high in *. lia.
  - apply Forall_app in HQ as [_ HQ]. apply Forall_inv in HQ. unfold low, high in *. lia.
Qed.

Lemma last_high i L : Forall (low i) L ∨ ∃ P u Q, last_at i L P u Q.
Proof.
  induction L as [|x L [IH|(P & u & Q & -> & Hu & HQ)]]; [by left| |].
  - destruct (decide (i < e_height x)%nat) as [Hx|Hx].
    + right. by exists [], x, L.
    + left. constructor; [unfold low; lia|done].
  - right. by exists (x :: P), u, Q.
Qed.

(** A node of the part that was searched is the predecessor at a level it reaches, or
    a later node is. *)
Lemma preds_cases lc A upd P m Q j : preds lc A upd → (j < lc)%nat → A = P ++ m :: Q → high j m →
  (Forall (low j) Q ∧ upd !! j = Some (e_ptr m, zlen P)) ∨
  (∃ R b R' (v : address) (r : Z), Q = R ++ b :: R' ∧ high j b ∧ upd !! j = Some (v, r) ∧ v ∈ e_ptr <$> Q).
Proof.
  intros Hp Hj HA Hm. destruct (Hp j Hj) as (P1 & u & Q1 & Hlast & Hu).
  destruct (last_high j Q) as [HQ|(R & b & R' & HR)].
  - left. split; [done|]. destruct (last_at_inj j A P1 u Q1 P m Q) as (-> & -> & ->); done.
  - right. assert (last_at j A (P ++ m :: R) b R') as Hlast'.
    { destruct HR as (-> & Hb & HR). split_and!; [by rewrite HA, <-app_assoc|done..]. }
    destruct (last_at_inj _ _ _ _ _ _ _ _ Hlast Hlast') as (-> & -> & ->). destruct HR as (-> & Hb & _).
    exists R, b, R', (e_ptr b), (zlen (P ++ m :: R)). split_and!; [done..|].
    rewrite fmap_app. apply elem_of_app. right. apply elem_of_cons. by left.
Qed.

(** ** The new node *)

(** The cells of level [i] after [link_level x upd rank0 i]. *)
Definition link_view h (x : address) (upd : list (address * Z)) (rank0 : Z) (i : nat) (p : address)
    : option (option address * Z) :=
  '(u, r) ← upd !! i;
  '(f, d) ← get_level h u i;
  if decide (p = x) then Some (f, d - (rank0 - r))
  else if decide (p = u) then Some (Some x, rank0 - r + 1)
  else get_level h p i.

Lemma link_level_spec h x upd rank0 i u r f d c :
  upd !! i = Some (u, r) → get_level h u i = Some (f, d) → get_level h x i = Some c → u ≠ x →
  ∃ h', link_level x upd rank0 i h = Some h' ∧
    (∀ p k, get_level h' p k = if decide (k = i) then link_view h x upd rank0 i p else get_level h p k) ∧
    (∀ p, fields h' p = fields h p).
Proof.
  intros Hupd Hu Hx Hne. unfold link_level. rewrite Hupd. simpl. rewrite Hu. simpl. destruct c as [xf xd].
  destruct (set_forward_spec h x i f xf xd Hx) as (h1 & -> & Hl1 & Hf1). simpl.
  destruct (set_forward_spec h1 u i (Some x) f d) as (h2 & -> & Hl2 & Hf2).
  { rewrite Hl1, decide_False by naive_solver. done. } simpl.
  rewrite Hl2, decide_True by done. simpl.
  destruct (set_span_spec h2 x i f xd (d - (rank0 - r))) as (h3 & -> & Hl3 & Hf3).
  { rewrite Hl2, decide_False by naive_solver. rewrite Hl1, decide_True by done. done. } simpl.
  destruct (set_span_spec h3 u i (Some x) d (rank0 - r + 1)) as (h4 & -> & Hl4 & Hf4).
  { rewrite Hl3, decide_False by naive_solver. rewrite Hl2, decide_True by done. done. }
  exists h4. split_and!; [done| |intros p; by rewrite Hf4, Hf3, Hf2, Hf1].
  intros p k. rewrite Hl4, Hl3, Hl2, Hl1. unfold link_view. rewrite Hupd. simpl. rewrite Hu. simpl.
  repeat case_decide; naive_solver.
Qed.

(** The same for [widen_level]. *)
Definition widen_view h (upd : list (address * Z)) (i : nat) (p : address) : option (option address * Z) :=
  '(u, _) ← upd !! i;
  '(f, d) ← get_level h u i;
  if decide (p = u) then Some (f, d + 1) else get_level h p i.

Lemma widen_level_spec h upd i u r f d :
  upd !! i = Some (u, r) → get_level h u i = Some (f, d) →
  ∃ h', widen_level upd i h = Some h' ∧
    (∀ p k, get_level h' p k = if decide (k = i) then widen_view h upd i p else get_level h p k) ∧
    (∀ p, fields h' p = fields h p).
Proof.
  intros Hupd Hu. unfold widen_level. rewrite Hupd. simpl. rewrite Hu. simpl.
  destruct (set_span_spec h u i f d (d + 1) Hu) as (h1 & -> & Hl1 & Hf1).
  exists h1. split_and!; [done| |done].
  intros p k. rewrite Hl1. unfold widen_view. rewrite Hupd. simpl. rewrite Hu. simpl. repeat case_decide; naive_solver.
Qed.

(** The cell of a predecessor, before the node comes. *)
Lemma pred_cell h lc A B upd i : links h lc (A ++ B) → preds lc A upd → (i < lc)%nat →
  ∃ P u Q, last_at i A P u Q ∧ upd !! i = Some (e_ptr u, zlen P) ∧
    get_level h (e_ptr u) i = Some ((nxt i B).1, (nxt i B).2 + zlen Q).
Proof.
  intros Hl Hp Hi. destruct (Hp i Hi) as (P & u & Q & Hlast & Hu). exists P, u, Q. split_and!; [done..|].
  destruct Hlast as (-> & Hh & HQ). rewrite (Hl P u (Q ++ B) i); [by rewrite nxt_skip|by rewrite <-app_assoc|done..].
Qed.

Definition insert_view h (n : entry T) (upd : list (address * Z)) (rank0 : Z) (i : nat) (p : address) :=
  if decide (i < e_height n)%nat then link_view h (e_ptr n) upd rank0 i p else widen_view h upd i p.

Lemma ptr_notin A B (n : entry T) p :
  NoDup (e_ptr <$> A ++ n :: B) → p ∈ e_ptr <$> A ++ B → p ≠ e_ptr n.
Proof.
  rewrite !fmap_app, fmap_cons. intros Hnd Hp E. rewrite E in Hp.
  apply list.NoDup_app in Hnd as (_ & H1 & [H2 _]%list.NoDup_cons). apply elem_of_app in Hp as [Hp|Hp]; [|done].
  apply (H1 _ Hp). apply elem_of_cons. by left.
Qed.

Lemma ptr_after P (m : entry T) Q u : NoDup (e_ptr <$> P ++ m :: Q) → u ∈ e_ptr <$> Q → e_ptr m ≠ u.
Proof.
  rewrite fmap_app, fmap_cons. intros (_ & _ & [Hm _]%list.NoDup_cons)%list.NoDup_app Hu E. by rewrite E in Hm.
Qed.

Lemma links_insert h h' lc A B n upd :
  links h lc (A ++ B) → preds lc A upd → NoDup (e_ptr <$> A ++ n :: B) →
  (∀ p k, (k < lc)%nat → get_level h' p k = insert_view h n upd (zlen A - 1) k p) →
  links h' lc (A ++ n :: B).
Proof.
  intros Hl Hp Hnd Hv P m Q j E Hm Hj. rewrite Hv by done. unfold insert_view, link_view, widen_view.
  destruct (pred_cell h lc A B upd j Hl Hp Hj) as (P1 & u & Q1 & Hlast & Hu & Hc). rewrite Hu. simpl. rewrite Hc. simpl.
  destruct Hlast as (EA & Hhu & HQ1).
  assert (zlen A = zlen P1 + 1 + zlen Q1) as Hlen by (rewrite EA, zlen_app, zlen_cons; lia).
  destruct (app_cons_cases _ _ _ _ _ _ E) as [(R & HA & ->)|[(-> & -> & ->)|(R & -> & HB)]].
  - assert (e_ptr m ≠ e_ptr n) as Hmn.
    { apply (ptr_notin A B); [done|]. rewrite HA, !fmap_app, fmap_cons. set_solver. }
    rewrite (decide_False (P := e_ptr m = e_ptr n)) by done.
    destruct (preds_cases lc A upd P m R j Hp Hj HA Hm) as [[HR Hu']|(R1 & b & R2 & u' & r' & HR & Hb & Hu' & Hin)].
    + rewrite Hu in Hu'. injection Hu' as Hum Hr. rewrite !(decide_True (P := e_ptr m = e_ptr u)) by done.
      assert (zlen R = zlen Q1) as HRQ by (pose proof (f_equal zlen HA) as E1; rewrite EA, !zlen_app, !zlen_cons in E1; lia).
      rewrite nxt_skip by done. simpl. case_decide as Hn.
      * simpl. do 2 f_equal; lia.
      * simpl. do 2 f_equal; lia.
    + rewrite Hu in Hu'. injection Hu' as <- Hr.
      assert (e_ptr m ≠ e_ptr u) as Hne.
      { apply (ptr_after P m R); [|done]. rewrite <-HA. rewrite fmap_app in Hnd. by apply list.NoDup_app in Hnd as [? _]. }
      rewrite !(decide_False (P := e_ptr m = e_ptr u)) by done.
      assert (get_level h (e_ptr m) j = Some (nxt j (R ++ B))) as ->
        by (apply (Hl P); [by rewrite HA, <-app_assoc|done..]).
      rewrite !(nxt_stable j R b R2 _ R1) by done. by case_decide.
  - rewrite (decide_True (P := (j < e_height n)%nat)) by done. rewrite decide_True by done.
    rewrite (surjective_pairing (nxt j B)). simpl. do 2 f_equal; lia.
  - assert (e_ptr m ∈ e_ptr <$> B) as Hin by (rewrite HB, fmap_app, fmap_cons; set_solver).
    assert (e_ptr m ≠ e_ptr n) as Hmn.
    { apply (ptr_notin A B); [done|]. rewrite fmap_app. set_solver. }
    assert (e_ptr m ≠ e_ptr u) as Hmu.
    { intros Eu. rewrite fmap_app in Hnd. apply list.NoDup_app in Hnd as (_ & Hnd & _). apply (Hnd (e_ptr m)).
      - rewrite Eu, EA, fmap_app, fmap_cons. set_solver.
      - rewrite fmap_cons. set_solver. }
    rewrite !(decide_False (P := e_ptr m = e_ptr n)), !(decide_False (P := e_ptr m = e_ptr u)) by done.
    assert (get_level h (e_ptr m) j = Some (nxt j Q)) as ->
      by (apply (Hl (A ++ R)); [by rewrite HB, <-app_assoc|done..]).
    by case_decide.
Qed.

(** ** A node that leaves *)

Definition unlink_view h (x : address) (upd : list (address * Z)) (i : nat) (p : address) : option (option address * Z) :=
  '(u, _) ← upd !! i;
  '(f, d) ← get_level h u i;
  if decide (p = u) then
    if decide (f = Some x) then '(xf, xd) ← get_level h x i; Some (xf, d + (xd - 1)) else Some (f, d - 1)
  else get_level h p i.

Lemma unlink_level_spec h x upd i u r f d :
  upd !! i = Some (u, r) → get_level h u i = Some (f, d) → (f = Some x → is_Some (get_level h x i)) → u ≠ x →
  ∃ h', unlink_level x upd i h = Some h' ∧
    (∀ p k, get_level h' p k = if decide (k = i) then unlink_view h x upd i p else get_level h p k) ∧
    (∀ p, fields h' p = fields h p).
Proof.
  intros Hupd Hu Hx Hne. unfold unlink_level, unlink_view. rewrite Hupd. simpl. rewrite Hu. simpl.
  destruct (decide (f = Some x)) as [->|Hf].
  - destruct (Hx eq_refl) as ([xf xd] & ->). simpl.
    destruct (set_span_spec h u i (Some x) d (d + (xd - 1)) Hu) as (h1 & -> & Hl1 & Hf1). simpl.
    destruct (set_forward_spec h1 u i xf (Some x) (d + (xd - 1))) as (h2 & -> & Hl2 & Hf2).
    { by rewrite Hl1, decide_True. }
    exists h2. split_and!; [done| |intros p; by rewrite Hf2, Hf1].
    intros p k. rewrite Hl2, Hl1. repeat case_decide; naive_solver.
  - destruct (set_span_spec h u i f d (d - 1) Hu) as (h1 & -> & Hl1 & Hf1).
    exists h1. split_and!; [done| |done]. intros p k. rewrite Hl1. repeat case_decide; naive_solver.
Qed.

Lemma links_delete h h' lc A B n upd :
  links h lc (A ++ n :: B) → preds lc A upd → NoDup (e_ptr <$> A ++ n :: B) →
  (∀ p k, (k < lc)%nat → get_level h' p k = unlink_view h (e_ptr n) upd k p) →
  links h' lc (A ++ B).
Proof.
  intros Hl Hp Hnd Hv P m Q j E Hm Hj. rewrite Hv by done. unfold unlink_view.
  destruct (pred_cell h lc A (n :: B) upd j Hl Hp Hj) as (P1 & u & Q1 & Hlast & Hu & Hc). rewrite Hu. simpl. rewrite Hc. simpl.
  destruct Hlast as (EA & Hhu & HQ1).
  destruct (app_split_cases _ _ _ _ _ E) as [(R & HA & ->)|(R & -> & HB)].
  - destruct (preds_cases lc A upd P m R j Hp Hj HA Hm) as [[HR Hu']|(R1 & b & R2 & u' & r' & HR & Hb & Hu' & Hin)].
    + rewrite Hu in Hu'. injection Hu' as Hum Hr. rewrite (decide_True (P := e_ptr m = e_ptr u)) by done.
      assert (zlen R = zlen Q1) as HRQ.
      { pose proof (f_equal zlen HA) as E1. rewrite EA, !zlen_app, !zlen_cons in E1. lia. }
      rewrite nxt_skip by done. destruct (decide (j < e_height n)%nat) as [Hn|Hn]; simpl.
      * rewrite decide_True by done. rewrite (Hl A n B j) by done. rewrite (surjective_pairing (nxt j B)). simpl.
        do 2 f_equal; lia.
      * rewrite decide_False.
        { do 2 f_equal; lia. }
        intros En. destruct (first_high j B) as [HB|(P2 & b & Q2 & -> & HP2 & Hb)].
        -- by rewrite nxt_low in En.
        -- rewrite nxt_found in En by done. injection En as En. revert En.
           apply (ptr_notin A (P2 ++ b :: Q2)); [done|]. rewrite !fmap_app, fmap_cons. set_solver.
    + rewrite Hu in Hu'. injection Hu' as <- Hr.
      assert (e_ptr m ≠ e_ptr u) as Hne.
      { apply (ptr_after P m R); [|done]. rewrite <-HA. rewrite fmap_app in Hnd. by apply list.NoDup_app in Hnd as [? _]. }
      rewrite (decide_False (P := e_ptr m = e_ptr u)) by done.
      assert (get_level h (e_ptr m) j = Some (nxt j (R ++ n :: B))) as ->
        by (apply (Hl P); [by rewrite HA, <-app_assoc|done..]).
      by rewrite !(nxt_stable j R b R2 _ R1) by done.
  - assert (e_ptr m ≠ e_ptr u) as Hmu.
    { intros Eu. rewrite fmap_app in Hnd. apply list.NoDup_app in Hnd as (_ & Hnd & _). apply (Hnd (e_ptr m)).
      - rewrite Eu, EA, fmap_app, fmap_cons. set_solver.
      - rewrite HB, fmap_cons, fmap_app, fmap_cons. set_solver. }
    rewrite (decide_False (P := e_ptr m = e_ptr u)) by done.
    apply (Hl (A ++ n :: R)); [by rewrite HB, <-app_assoc|done..].
Qed.

End Links.

End SkiplistLinks.
