(* ===== verification/SkiplistProofs.v ===== *)
(** * Skip lists: the invariant and the updates

    [repr h zsl ns]: in the heap [h], [zsl] is a well-formed skip list of the
    entries [ns].  Creation, insertion, removal and change of score keep it and
    act on [ns] as on a sorted list; no operation touches an address that is not
    its own. *)

From stdpp Require Import sorting gmap.
From S2P Require Import Prelude Skiplist SkiplistOrder SkiplistRepr SkiplistLinks.

Module SkiplistProofs.
Import Skiplist SkiplistOrder SkiplistRepr SkiplistLinks.

Section Proofs.
Context {T : Type} `{ScoreLaws T}.
Implicit Types (h : gmap address (zskiplistNode (T := T))) (zsl : zskiplist) (A B P Q ns : list (entry T)) (n m : entry T).

(** ** The invariant *)

Definition hdr (zsl : zskiplist) : entry T := mkEntry (zsl_header zsl) ZSKIPLIST_MAXLEVEL zero_score [].

Definition max_height ns : nat := foldr (λ n k, Nat.max (e_height n) k) 1%nat ns.

Definition ordered ns : Prop := StronglySorted (λ a b, klt (e_key a) (e_key b) = true) ns.

(** The pointer of the last entry, [b] if there is none. *)
Fixpoint end_ptr (b : option address) ns : option address :=
  match ns with
  | [] => b
  | n :: ns => end_ptr (Some (e_ptr n)) ns
  end.

(** The fields of the nodes; the first one points back to [b]. *)
Fixpoint backs h (b : option address) ns : Prop :=
  match ns with
  | [] => True
  | n :: ns => fields h (e_ptr n) = Some (Some (e_ele n), e_score n, b) ∧ backs h (Some (e_ptr n)) ns
  end.

Record repr h (zsl : zskiplist) ns : Prop := {
  r_nodup : NoDup (e_ptr <$> hdr zsl :: ns);
  r_header : fields h (zsl_header zsl) = Some (None, zero_score, None);
  r_fields : backs h None ns;
  r_links : links h (zsl_level zsl) (hdr zsl :: ns);
  r_above : ∀ j, (zsl_level zsl ≤ j < ZSKIPLIST_MAXLEVEL)%nat → ∃ d, get_level h (zsl_header zsl) j = Some (None, d);
  r_heights : Forall (λ n, (1 ≤ e_height n ≤ ZSKIPLIST_MAXLEVEL)%nat) ns;
  r_level : zsl_level zsl = max_height ns;
  r_tail : zsl_tail zsl = end_ptr None ns;
  r_length : zsl_length zsl = zlen ns;
  r_sorted : ordered ns;
  r_real : Forall (λ n, isnan (e_score n) = false) ns
}.

Lemma end_ptr_app b A B : end_ptr b (A ++ B) = end_ptr (end_ptr b A) B.
Proof. revert b. induction A; simpl; [done|]. intros b. apply IHA. Qed.

Lemma end_ptr_elem b A p : end_ptr b A = Some p → b = Some p ∨ p ∈ e_ptr <$> A.
Proof.
  revert b. induction A as [|a A IH]; simpl; intros b E; [by left|].
  right. destruct (IH _ E) as [[= ->]|Hin]; apply elem_of_cons; [by left|by right].
Qed.

Lemma end_ptr_ne b b' n A : end_ptr b (n :: A) = end_ptr b' (n :: A).
Proof. done. Qed.

Lemma backs_app h b A B : backs h b (A ++ B) ↔ backs h b A ∧ backs h (end_ptr b A) B.
Proof.
  revert b. induction A as [|a A IH]; simpl; intros b; [naive_solver|]. rewrite IH. naive_solver.
Qed.

Lemma backs_frame h h' b A : (∀ p, p ∈ e_ptr <$> A → fields h' p = fields h p) → backs h b A → backs h' b A.
Proof.
  revert b. induction A as [|a A IH]; simpl; intros b Hf; [done|]. intros [H1 H2]. split.
  - rewrite Hf; [done|]. by left.
  - apply IH; [|done]. intros p Hp. apply Hf. by right.
Qed.

Lemma backs_lookup h b A k n : backs h b A → A !! k = Some n → ∃ b', fields h (e_ptr n) = Some (Some (e_ele n), e_score n, b').
Proof.
  revert b k. induction A as [|a A IH]; simpl; intros b [|k] Hb Hk; try done.
  - injection Hk as ->. eexists. apply Hb.
  - by eapply IH; [apply Hb|].
Qed.

(** Addresses that are not of the skip list. *)
Definition foreign (zsl : zskiplist) ns (p : address) : Prop := p ∉ e_ptr <$> hdr zsl :: ns.

Lemma max_height_app A B : max_height (A ++ B) = Nat.max (max_height A) (max_height B).
Proof. unfold max_height. induction A as [|a A IH]; simpl; [|lia]. induction B; simpl; lia. Qed.
Lemma max_height_cons n B : max_height (n :: B) = Nat.max (e_height n) (max_height B).
Proof. done. Qed.

Lemma max_height_range ns :
  Forall (λ n, (1 ≤ e_height n ≤ ZSKIPLIST_MAXLEVEL)%nat) ns → (1 ≤ max_height ns ≤ ZSKIPLIST_MAXLEVEL)%nat.
Proof. unfold ZSKIPLIST_MAXLEVEL. induction 1; unfold max_height in *; simpl; lia. Qed.

Lemma max_height_low i ns : (max_height ns ≤ i)%nat → Forall (low i) ns.
Proof.
  unfold max_height, low. induction ns as [|n ns IH]; simpl; [constructor|].
  intros Hi. constructor; [lia|apply IH; lia].
Qed.

Lemma level_range h zsl ns : repr h zsl ns → (1 ≤ zsl_level zsl ≤ ZSKIPLIST_MAXLEVEL)%nat.
Proof. intros Hr. rewrite (r_level _ _ _ Hr). apply max_height_range. by eapply r_heights. Qed.

(** ** Where a position in the order is *)

Lemma ordered_app A B : ordered (A ++ B) ↔
  ordered A ∧ ordered B ∧ ∀ a b, a ∈ A → b ∈ B → klt (e_key a) (e_key b) = true.
Proof. unfold ordered. rewrite StronglySorted_app. naive_solver. Qed.

(** A test that holds on a prefix splits a list. *)
Lemma split_by (f : entry T → bool) ns :
  ordered ns → (∀ a b, a ∈ ns → b ∈ ns → klt (e_key a) (e_key b) = true → f b = true → f a = true) →
  ∃ A B, ns = A ++ B ∧ Forall (λ n, f n = true) A ∧ Forall (λ n, f n = false) B.
Proof.
  induction ns as [|n ns IH]; intros Hs Hf; [by exists [], []|].
  apply StronglySorted_inv in Hs as [Hs Hn]. destruct (f n) eqn:E.
  - destruct IH as (A & B & -> & HA & HB); [done|intros a b Ha Hb; apply Hf; by right|].
    exists (n :: A), B. split_and!; [done|by constructor|done].
  - exists [], (n :: ns). split_and!; [done..|]. constructor; [done|].
    apply list.Forall_forall. intros b Hb. apply not_true_is_false. intros Et.
    rewrite list.Forall_forall in Hn. rewrite (Hf n b) in E; [done|by left|by right|by apply Hn|done].
Qed.

Lemma split_at_key (k : T * list Z) ns : ordered ns →
  ∃ A B, ns = A ++ B ∧ Forall (λ n, klt (e_key n) k = true) A ∧ Forall (λ n, klt (e_key n) k = false) B.
Proof. intros Hs. apply split_by; [done|]. intros a b _ _ Hab Hb. by eapply klt_trans. Qed.

(** ** Searches *)

(** The test of a search is [f] on the entries of the list at their ranks. *)
Definition tested (test : zskiplistNode (T := T) → Z → bool) (n : entry T) (r : Z) (b : bool) : Prop :=
  ∀ nd, ele nd = Some (e_ele n) → score nd = e_score n → test nd r = b.

Lemma node_at h zsl ns k n : repr h zsl ns → ns !! k = Some n →
  ∃ nd, h !! e_ptr n = Some nd ∧ ele nd = Some (e_ele n) ∧ score nd = e_score n.
Proof.
  intros Hr Hk. destruct (backs_lookup _ _ _ _ _ (r_fields _ _ _ Hr) Hk) as (b & Hf).
  destruct (fields_lookup _ _ _ _ _ Hf) as (lv & ->). by eexists.
Qed.

Section Searching.
Context h zsl A B (test : zskiplistNode (T := T) → Z → bool) (Hr : repr h zsl (A ++ B)).
Context (HA : ∀ k n, A !! k = Some n → tested test n (Z.of_nat k + 1) true).
Context (HB : ∀ k n, B !! k = Some n → tested test n (zlen A + 1 + Z.of_nat k) false).

Lemma search_A k n : (hdr zsl :: A) !! k = Some n → (0 < k)%nat →
  ∃ nd, h !! e_ptr n = Some nd ∧ test nd (Z.of_nat k) = true.
Proof.
  destruct k as [|k]; [lia|]. simpl. intros Hk _.
  destruct (node_at h zsl (A ++ B) k n Hr) as (nd & Hnd & He & Hs); [by apply lookup_app_l_Some|].
  exists nd. split; [done|]. rewrite <-(HA k n Hk nd He Hs). f_equal. lia.
Qed.
Lemma search_B k n : B !! k = Some n →
  ∃ nd, h !! e_ptr n = Some nd ∧ test nd (zlen (hdr zsl :: A) + Z.of_nat k) = false.
Proof.
  intros Hk. destruct (node_at h zsl (A ++ B) (length A + k) n Hr) as (nd & Hnd & He & Hs).
  { rewrite lookup_app_r by lia. by replace (length A + k - length A)%nat with k by lia. }
  exists nd. split; [done|]. rewrite <-(HB k n Hk nd He Hs). f_equal. rewrite zlen_cons. lia.
Qed.

Lemma zsl_search_spec : ∃ upd, search h zsl test = Some upd ∧ length upd = zsl_level zsl ∧ preds (zsl_level zsl) (hdr zsl :: A) upd.
Proof.
  apply (descend_spec h (zsl_level zsl) (hdr zsl :: A) B test) with (P := []) (Q := A) (x := hdr zsl).
  - apply (r_links _ _ _ Hr).
  - apply search_A.
  - apply search_B.
  - done.
  - apply (level_range _ _ _ Hr).
  - done.
  - unfold fuel_of. rewrite (r_length _ _ _ Hr), zlen_app. unfold zlen. lia.
Qed.

End Searching.

(** The search for a position by entry. *)
Lemma search_by (f : entry T → bool) h zsl A B test : repr h zsl (A ++ B) →
  (∀ n r, n ∈ A ++ B → tested test n r (f n)) → Forall (λ n, f n = true) A → Forall (λ n, f n = false) B →
  ∃ upd, search h zsl test = Some upd ∧ length upd = zsl_level zsl ∧ preds (zsl_level zsl) (hdr zsl :: A) upd.
Proof.
  intros Hr Ht HA HB. apply (zsl_search_spec h zsl A B); [done|..]; intros k n Hk.
  - rewrite <-(Forall_lookup_1 _ _ _ _ HA Hk). apply Ht, elem_of_app. left. by eapply list_elem_of_lookup_2.
  - rewrite <-(Forall_lookup_1 _ _ _ _ HB Hk). apply Ht, elem_of_app. right. by eapply list_elem_of_lookup_2.
Qed.

Lemma tested_before s e n r : tested (node_before s e) n r (klt (e_key n) (s, e)).
Proof. intros nd He Hs. unfold node_before. by rewrite He, Hs. Qed.

Lemma search_before h zsl A B s e : repr h zsl (A ++ B) →
  Forall (λ n, klt (e_key n) (s, e) = true) A → Forall (λ n, klt (e_key n) (s, e) = false) B →
  ∃ upd, search h zsl (node_before s e) = Some upd ∧ length upd = zsl_level zsl ∧ preds (zsl_level zsl) (hdr zsl :: A) upd.
Proof.
  intros Hr. apply (search_by (λ n, klt (e_key n) (s, e))); [done|]. intros. apply tested_before.
Qed.

(** At level 0 the predecessor is the last entry before the position, or the header. *)
Lemma preds_zero k zsl A upd : Forall (λ n, (1 ≤ e_height n ≤ ZSKIPLIST_MAXLEVEL)%nat) A →
  preds k (hdr zsl :: A) upd → (0 < k)%nat →
  upd !! 0%nat = Some (default (zsl_header zsl) (end_ptr None A), zlen A).
Proof.
  intros Hh Hp Hk. destruct (Hp 0%nat Hk) as (P & u & Q & (E & Hu & HQ) & Hupd).
  assert (Q = []) as ->.
  { destruct Q as [|q Q]; [done|]. apply Forall_inv in HQ. exfalso.
    assert (q ∈ A) as Hq.
    { destruct P as [|p P]; injection E as _ EA; rewrite EA; [by left|].
      apply elem_of_app. right. right. by left. }
    rewrite list.Forall_forall in Hh. specialize (Hh q Hq). unfold low in HQ. lia. }
  rewrite Hupd. destruct P as [|p P]; injection E as Eh EA.
  - by rewrite EA, <-Eh.
  - rewrite EA, end_ptr_app, zlen_app, !zlen_cons, zlen_nil. simpl. do 2 f_equal. lia.
Qed.

End Proofs.

End SkiplistProofs.
