(* ===== verification/SkiplistInsert.v ===== *)
(** * Skip lists: insertion ([zslCreate], [zslInsert]) *)

From stdpp Require Import sorting gmap.
From S2P Require Import Prelude Skiplist SkiplistOrder SkiplistRepr SkiplistLinks SkiplistProofs.

Module SkiplistInsert.
Import Skiplist SkiplistOrder SkiplistRepr SkiplistLinks SkiplistProofs.

Section Insert.
Context {T : Type} `{ScoreLaws T}.
Implicit Types (h : gmap address (zskiplistNode (T := T))) (zsl : zskiplist) (A B P Q ns : list (entry T)).

(** ** Frames *)

Lemma links_frame h h' lc L :
  (∀ p k, p ∈ e_ptr <$> L → get_level h' p k = get_level h p k) → links h lc L → links h' lc L.
Proof.
  intros Hf Hl P n Q j -> Hn Hj. rewrite Hf; [by apply (Hl P n Q j)|].
  rewrite fmap_app, fmap_cons. set_solver.
Qed.

Lemma ptr_allocated h zsl ns p : repr h zsl ns → p ∈ e_ptr <$> hdr zsl :: ns → is_Some (h !! p).
Proof.
  intros Hr Hp. rewrite fmap_cons in Hp. apply elem_of_cons in Hp as [->|Hp].
  - destruct (fields_lookup _ _ _ _ _ (r_header _ _ _ Hr)) as (lv & Hl). by eexists.
  - apply list_elem_of_fmap in Hp as (n & -> & [k Hk]%list_elem_of_lookup).
    destruct (node_at _ _ _ _ _ Hr Hk) as (nd & Hnd & _). by eexists.
Qed.

Lemma fresh_foreign h zsl ns a : repr h zsl ns → h !! a = None → foreign zsl ns a.
Proof. intros Hr Ha Hin. destruct (ptr_allocated _ _ _ _ Hr Hin) as [? E]. congruence. Qed.

(** ** Creation *)

Lemma zslCreate_repr h a h' zsl : zslCreate h a = (h', zsl) →
  repr h' zsl [] ∧ ∀ p, p ≠ a → h' !! p = h !! p.
Proof.
  unfold zslCreate. intros [= <- <-]. split.
  - split; simpl; try done; try constructor; try done.
    + by apply not_elem_of_nil.
    + constructor.
    + by rewrite create_node_fields, decide_True.
    + intros P n Q j E Hn Hj. destruct P as [|? P]; [injection E as <- <-; simpl|by destruct P].
      assert (j = 0)%nat as -> by lia. rewrite create_node_cells, decide_True by done. done.
    + intros j Hj. exists 0. rewrite create_node_cells, decide_True by done. by rewrite decide_True by lia.
  - intros p Hp. unfold zslCreateNode. by rewrite lookup_insert_ne.
Qed.

(** ** The new levels *)

Lemma raise_spec h zsl ns lvl : repr h zsl ns → (lvl ≤ ZSKIPLIST_MAXLEVEL)%nat →
  ∃ h', for_levels (lvl - zsl_level zsl) (zsl_level zsl) (raise_level zsl) h = Some h' ∧
    links h' (Nat.max (zsl_level zsl) lvl) (hdr zsl :: ns) ∧
    (∀ p, fields h' p = fields h p) ∧
    (∀ p k, p ≠ zsl_header zsl ∨ (Nat.max (zsl_level zsl) lvl ≤ k)%nat → get_level h' p k = get_level h p k).
Proof.
  intros Hr Hlvl. pose proof (level_range _ _ _ Hr) as Hlc.
  destruct (for_levels_spec (λ k p, if decide (p = zsl_header zsl) then Some (None, zsl_length zsl) else get_level h p k)
    (raise_level zsl) (lvl - zsl_level zsl) (zsl_level zsl) h h) as (h' & Eh & Hl & Hf); [|done|done|].
  - intros j h1 Hj Hf1 Hl1. unfold raise_level. destruct (r_above _ _ _ Hr j) as [d Hd]; [lia|].
    destruct (set_span_spec h1 (zsl_header zsl) j None d (zsl_length zsl)) as (h2 & E2 & Hl2 & Hf2).
    { by rewrite Hl1 by lia. }
    exists h2. split_and!; [done| |done]. intros p k. rewrite Hl2.
    repeat case_decide; naive_solver.
  - exists h'. split_and!; [done| |done|].
    + intros P n Q j E Hn Hj. rewrite Hl. case_decide as Hjj.
      * destruct P as [|p P]; injection E as <- E2.
        -- rewrite decide_True by done. rewrite <-E2, nxt_low, (r_length _ _ _ Hr); [done|].
           apply max_height_low. rewrite <-(r_level _ _ _ Hr). lia.
        -- exfalso. assert (Forall (low j) ns) as Hlow.
           { apply max_height_low. rewrite <-(r_level _ _ _ Hr). lia. }
           rewrite E2 in Hlow. apply Forall_app in Hlow as [_ Hlow]. apply Forall_inv in Hlow.
           unfold low, high in *. lia.
      * apply (r_links _ _ _ Hr P); [done..|lia].
    + intros p k Hp. rewrite Hl. repeat case_decide; try done. subst. destruct Hp; [done|lia].
Qed.

Lemma preds_raise zsl A B upd lvl : (1 ≤ lvl ≤ ZSKIPLIST_MAXLEVEL)%nat → zsl_level zsl = max_height (A ++ B) →
  length upd = zsl_level zsl → preds (zsl_level zsl) (hdr zsl :: A) upd →
  preds (Nat.max (zsl_level zsl) lvl) (hdr zsl :: A) (upd ++ replicate (lvl - zsl_level zsl) (zsl_header zsl, 0)).
Proof.
  intros Hlvl Hlc Hlen Hp i Hi. destruct (decide (i < zsl_level zsl)%nat) as [Hi'|Hi'].
  - destruct (Hp i Hi') as (P & u & Q & Hlast & Hu). exists P, u, Q. split; [done|]. by apply lookup_app_l_Some.
  - exists [], (hdr zsl), A. split.
    + split_and!; [done|unfold high; simpl; lia|]. apply max_height_low.
      rewrite max_height_app in Hlc. lia.
    + rewrite lookup_app_r by lia. rewrite lookup_replicate_2 by lia. done.
Qed.

(** ** The links of the new node *)

Lemma link_all h lc A B (n : entry T) upd :
  links h lc (A ++ B) → preds lc A upd → NoDup (e_ptr <$> A ++ n :: B) → (e_height n ≤ lc)%nat →
  (∀ j, (j < e_height n)%nat → is_Some (get_level h (e_ptr n) j)) →
  ∃ h1 h2, for_levels (e_height n) 0 (link_level (e_ptr n) upd (zlen A - 1)) h = Some h1 ∧
    for_levels (lc - e_height n) (e_height n) (widen_level upd) h1 = Some h2 ∧
    links h2 lc (A ++ n :: B) ∧ (∀ p, fields h2 p = fields h p) ∧
    (∀ p k, (p ∉ e_ptr <$> A ++ n :: B) ∨ (lc ≤ k)%nat → get_level h2 p k = get_level h p k).
Proof.
  intros Hl Hp Hnd Hn Hx.
  assert (∀ j, (j < lc)%nat → ∃ u r f d, (u ∈ e_ptr <$> A) ∧ upd !! j = Some (u, r) ∧ get_level h u j = Some (f, d)) as Hu.
  { intros j Hj. destruct (pred_cell h lc A B upd j Hl Hp Hj) as (P & u & Q & (-> & _) & Hupd & Hc).
    do 4 eexists. split_and!; [|done..]. rewrite fmap_app, fmap_cons. set_solver. }
  assert (∀ u, u ∈ e_ptr <$> A → u ≠ e_ptr n) as Hun.
  { intros u Hin. apply (ptr_notin A B); [done|]. rewrite fmap_app. set_solver. }
  destruct (for_levels_spec (λ k p, link_view h (e_ptr n) upd (zlen A - 1) k p)
    (link_level (e_ptr n) upd (zlen A - 1)) (e_height n) 0 h h) as (h1 & E1 & Hl1 & Hf1); [|done..|].
  { intros j h0 Hj Hf0 Hl0. destruct (Hu j) as (u & r & f & d & Hin & Hupd & Hc); [lia|].
    destruct (Hx j) as [c Hc']; [lia|].
    destruct (link_level_spec h0 (e_ptr n) upd (zlen A - 1) j u r f d c) as (h' & E' & Hl' & Hf').
    { done. } { by rewrite Hl0. } { by rewrite Hl0. } { by apply Hun. }
    exists h'. split_and!; [done| |done]. intros p k. rewrite Hl'. case_decide; [|done].
    unfold link_view. rewrite Hupd. simpl. by rewrite !Hl0. }
  destruct (for_levels_spec (λ k p, widen_view h upd k p)
    (widen_level upd) (lc - e_height n) (e_height n) h1 h1) as (h2 & E2 & Hl2 & Hf2); [|done..|].
  { intros j h0 Hj Hf0 Hl0. destruct (Hu j) as (u & r & f & d & Hin & Hupd & Hc); [lia|].
    assert (∀ p, get_level h0 p j = get_level h p j) as Hsame.
    { intros p. rewrite Hl0, Hl1 by lia. by rewrite decide_False by lia. }
    destruct (widen_level_spec h0 upd j u r f d) as (h' & E' & Hl' & Hf').
    { done. } { by rewrite Hsame. }
    exists h'. split_and!; [done| |done]. intros p k. rewrite Hl'. case_decide; [|done].
    unfold widen_view. rewrite Hupd. simpl. by rewrite !Hsame. }
  exists h1, h2. split_and!; [done..| |intros p; by rewrite Hf2, Hf1|].
  - apply (links_insert h h2 lc A B n upd); [done..|]. intros p k Hk. rewrite Hl2, Hl1. unfold insert_view.
    repeat case_decide; done || lia.
  - intros p k Hpk. rewrite Hl2, Hl1. destruct Hpk as [Hpk|Hpk]; [|by rewrite !decide_False by lia].
    assert ((p ∉ e_ptr <$> A) ∧ p ≠ e_ptr n) as [HpA Hpn].
    { rewrite fmap_app, fmap_cons in Hpk. set_solver. }
    destruct (decide (k < lc)%nat) as [Hk|Hk]; [|by rewrite !decide_False by lia].
    destruct (Hu k Hk) as (u & r & f & d & Hin & Hupd & Hc).
    assert (p ≠ u) as Hpu by congruence.
    unfold link_view, widen_view. rewrite Hupd. simpl. rewrite Hc. simpl.
    rewrite !(decide_False (P := p = e_ptr n)), !(decide_False (P := p = u)) by done. by repeat case_decide.
Qed.

(** ** Insertion *)

(** [x->backward = ...; if (x->level[0].forward) x->level[0].forward->backward = x]. *)
Lemma backs_insert h A B (n : entry T) : backs h None (A ++ B) → NoDup (e_ptr <$> A ++ n :: B) →
  fields h (e_ptr n) = Some (Some (e_ele n), e_score n, None) →
  ∃ h1 h2, set_backward h (e_ptr n) (end_ptr None A) = Some h1 ∧
    (match B with b :: _ => set_backward h1 (e_ptr b) (Some (e_ptr n)) | [] => Some h1 end) = Some h2 ∧
    backs h2 None (A ++ n :: B) ∧ (∀ p k, get_level h1 p k = get_level h p k) ∧ (∀ p k, get_level h2 p k = get_level h p k) ∧
    (∀ p, p ∉ e_ptr <$> n :: B → fields h2 p = fields h p).
Proof.
  intros [HbA HbB]%backs_app Hnd Hn.
  destruct (set_backward_spec h (e_ptr n) _ _ _ (end_ptr None A) Hn) as (h1 & E1 & Hl1 & Hf1).
  assert (∀ p, p ∈ e_ptr <$> A → (p ∉ e_ptr <$> n :: B)) as HdA.
  { intros p Hp Hp'. rewrite fmap_app in Hnd. apply list.NoDup_app in Hnd as (_ & Hnd & _). by apply (Hnd p). }
  assert (backs h1 None A) as HbA1.
  { apply (backs_frame h); [|done]. intros p Hp. rewrite Hf1, decide_False; [done|].
    intros ->. apply (HdA _ Hp). rewrite fmap_cons. by left. }
  destruct B as [|b B].
  - exists h1, h1. split_and!; [done|done| |done|done|].
    + apply backs_app. split; [done|]. simpl. split; [|done]. by rewrite Hf1, decide_True.
    + intros p Hp. rewrite Hf1, decide_False; [done|]. intros ->. apply Hp. rewrite fmap_cons. by left.
  - simpl in HbB. destruct HbB as [Hb HbB].
    assert (e_ptr b ≠ e_ptr n ∧ (e_ptr b ∉ e_ptr <$> B) ∧ (e_ptr n ∉ e_ptr <$> B)) as (Hbn & HbnB & HnB).
    { rewrite fmap_app, !fmap_cons in Hnd. apply list.NoDup_app in Hnd as (_ & _ & Hnd).
      apply list.NoDup_cons in Hnd as [H1 [H2 _]%list.NoDup_cons]. set_solver. }
    destruct (set_backward_spec h1 (e_ptr b) (Some (e_ele b)) (e_score b) (end_ptr None A) (Some (e_ptr n)))
      as (h2 & E2 & Hl2 & Hf2).
    { by rewrite Hf1, decide_False. }
    exists h1, h2. split_and!; [done..| |done|intros; by rewrite Hl2|].
    + apply backs_app. split; [|simpl; split_and!].
      * apply (backs_frame h1); [|done]. intros p Hp. rewrite Hf2, decide_False; [done|].
        intros ->. apply (HdA _ Hp). rewrite !fmap_cons. right. by left.
      * rewrite Hf2, decide_False by done. by rewrite Hf1, decide_True.
      * by rewrite Hf2, decide_True.
      * apply (backs_frame h); [|done]. intros p Hp. rewrite Hf2, decide_False by congruence.
        by rewrite Hf1, decide_False by congruence.
    + intros p Hp. rewrite !fmap_cons in Hp. rewrite Hf2, decide_False by set_solver.
      by rewrite Hf1, decide_False by set_solver.
Qed.

(** The forward pointer at level 0 is the next entry. *)
Lemma nxt_zero B : Forall (λ n, (1 ≤ e_height n ≤ ZSKIPLIST_MAXLEVEL)%nat) B →
  (nxt 0 B).1 = match B with b :: _ => Some (e_ptr b) | [] => None end.
Proof.
  destruct B as [|b B]; [done|]. intros Hb%Forall_inv. simpl. by rewrite decide_True by lia.
Qed.

(** Where an entry may be inserted: no entry has its key. *)
Lemma ordered_insert A B (n : entry T) : ordered (A ++ B) →
  Forall (λ m, isnan (e_score m) = false) (A ++ B) → isnan (e_score n) = false →
  (∀ m, m ∈ A ++ B → keq (e_key m) (e_key n) = false) →
  Forall (λ m, klt (e_key m) (e_key n) = true) A → Forall (λ m, klt (e_key m) (e_key n) = false) B →
  ordered (A ++ n :: B).
Proof.
  intros (HsA & HsB & HAB)%ordered_app Hreal Hn Hk HA HB.
  assert (∀ b, b ∈ B → klt (e_key n) (e_key b) = true) as HnB.
  { intros b Hb. assert (b ∈ A ++ B) as HbAB by (apply elem_of_app; by right).
    rewrite list.Forall_forall in HB, Hreal.
    destruct (klt_total (e_key b) (e_key n)) as [?|E]; [by apply Hreal|done|by apply HB|done|].
    by rewrite (Hk b HbAB) in E. }
  rewrite list.Forall_forall in HA.
  apply ordered_app. split_and!; [done| |].
  - constructor; [done|]. by apply list.Forall_forall.
  - intros a b Ha [->|Hb]%elem_of_cons; [by apply HA|by apply HAB].
Qed.

(** The whole operation: the entry takes its place in the order.  [zsl] was a list
    of [ns] without the entry, [a] is the address of the new node and [lvl] its
    level. *)
Lemma zslInsert_spec h zsl ns s e lvl a : repr h zsl ns → isnan s = false →
  (∀ n, n ∈ ns → keq (e_key n) (s, e) = false) → (1 ≤ lvl ≤ ZSKIPLIST_MAXLEVEL)%nat → h !! a = None →
  ∃ A B h' zsl', ns = A ++ B ∧ zslInsert h zsl s e lvl a = Some (h', zsl', a) ∧
    repr h' zsl' (A ++ mkEntry a lvl s e :: B) ∧ zsl_header zsl' = zsl_header zsl ∧
    Forall (λ m, klt (e_key m) (s, e) = true) A ∧ Forall (λ m, klt (e_key m) (s, e) = false) B ∧
    (∀ p, foreign zsl ns p → p ≠ a → h' !! p = h !! p).
Proof.
  intros Hr Hs Hk Hlvl Ha. pose proof (level_range _ _ _ Hr) as Hlc.
  pose proof (fresh_foreign _ _ _ _ Hr Ha) as Hfr.
  destruct (split_at_key (s, e) ns (r_sorted _ _ _ Hr)) as (A & B & -> & HA & HB).
  set (n := mkEntry a lvl s e). set (lc := Nat.max (zsl_level zsl) lvl).
  assert (NoDup (e_ptr <$> (hdr zsl :: A) ++ n :: B)) as Hnd.
  { rewrite <-Permutation_middle, fmap_cons. apply list.NoDup_cons. split; [done|]. apply (r_nodup _ _ _ Hr). }
  destruct (search_before h zsl A B s e Hr HA HB) as (upd & Eupd & Hlen & Hp).
  destruct (raise_spec h zsl (A ++ B) lvl Hr) as (h1 & E1 & Hl1 & Hf1 & Hk1); [lia|].
  apply (preds_raise zsl A B upd lvl Hlvl (r_level _ _ _ Hr) Hlen) in Hp. fold lc in Hp, Hl1, Hk1.
  set (upd' := upd ++ replicate (lvl - zsl_level zsl) (zsl_header zsl, 0)) in *.
  set (h2 := zslCreateNode h1 a lvl s (Some e)).
  destruct (link_all h2 lc (hdr zsl :: A) B n upd') as (h3 & h4 & E3 & E4 & Hl4 & Hf4 & Hk4).
  { apply (links_frame h1); [|done]. intros p k Hpp. unfold h2. rewrite create_node_cells, decide_False; [done|].
    intros ->. by apply Hfr. }
  { done. } { done. } { simpl. lia. }
  { intros j Hj. unfold h2. rewrite create_node_cells, decide_True by done. simpl in Hj. by rewrite decide_True. }
  pose proof (r_heights _ _ _ Hr) as Hh. apply Forall_app in Hh as [HhA HhB].
  assert (∀ p, p ≠ a → fields h4 p = fields h p) as Hf.
  { intros p Hpa. rewrite Hf4. unfold h2. rewrite create_node_fields, decide_False by done. apply Hf1. }
  destruct (backs_insert h4 A B n) as (h5 & h6 & E5 & E6 & Hb6 & Hl5 & Hl6 & Hf6).
  { apply (backs_frame h); [|apply (r_fields _ _ _ Hr)]. intros p Hpp. apply Hf. intros ->.
    apply Hfr. rewrite fmap_cons. by right. }
  { simpl in Hnd. by apply list.NoDup_cons in Hnd as [_ Hnd]. }
  { rewrite Hf4. unfold h2. by rewrite create_node_fields, decide_True. }
  exists A, B, h6, (mkZsl (zsl_header zsl) (end_ptr None (A ++ n :: B)) (zsl_length zsl + 1) lc).
  split; [done|]. split_and!; [| |done..|].
  - unfold zslInsert. rewrite Hs, Eupd. simpl. rewrite E1. simpl. fold upd' h2. fold lc.
    rewrite (preds_zero _ _ _ _ HhA Hp) by lia. simpl.
    replace (zlen (hdr zsl :: A) - 1) with (zlen A) in E3 by (rewrite zlen_cons; lia).
    change (e_height n) with lvl in E3, E4. change (e_ptr n) with a in E3.
    rewrite E3. simpl. rewrite E4. simpl.
    assert ((if decide (default (zsl_header zsl) (end_ptr None A) = zsl_header zsl) then None
             else Some (default (zsl_header zsl) (end_ptr None A))) = end_ptr None A) as ->.
    { destruct (end_ptr None A) as [p|] eqn:Ep; simpl; [|by rewrite decide_True].
      rewrite decide_False; [done|]. intros ->.
      apply end_ptr_elem in Ep as [[=]|Ep]. pose proof (r_nodup _ _ _ Hr) as Hnd'. rewrite fmap_cons, fmap_app in Hnd'.
      apply list.NoDup_cons in Hnd' as [Hnd' _]. set_solver. }
    change (e_ptr n) with a in E5. rewrite E5. simpl. rewrite Hl5. change (get_level h4 a 0) with (get_level h4 (e_ptr n) 0).
    rewrite (Hl4 (hdr zsl :: A) n B 0%nat); [|done|unfold high; simpl; lia|lia].
    rewrite (surjective_pairing (nxt 0 B)), nxt_zero by done. simpl.
    rewrite (r_tail _ _ _ Hr), !end_ptr_app. destruct B as [|b B]; simpl in *; [by simplify_eq|].
    change (e_ptr n) with a in E6. rewrite E6. done.
  - split; simpl.
    + done.
    + rewrite Hf6. { rewrite Hf; [apply (r_header _ _ _ Hr)|]. intros E. apply Hfr. rewrite <-E, fmap_cons. by left. }
      simpl in Hnd. rewrite fmap_app in Hnd. apply list.NoDup_cons in Hnd as [Hnd _]. set_solver.
    + done.
    + apply (links_frame h4); [|done]. intros p k _. apply Hl6.
    + intros j Hj. destruct (r_above _ _ _ Hr j) as [d Hd]; [lia|]. exists d.
      rewrite Hl6, Hk4 by (right; lia). unfold h2. rewrite create_node_cells, decide_False.
      { rewrite Hk1 by (right; lia). done. } intros E. apply Hfr. rewrite <-E, fmap_cons. by left.
    + apply Forall_app. split; [done|]. by constructor.
    + unfold lc. rewrite (r_level _ _ _ Hr), !max_height_app, max_height_cons. simpl. lia.
    + done.
    + rewrite (r_length _ _ _ Hr), !zlen_app, zlen_cons. lia.
    + pose proof (r_sorted _ _ _ Hr). pose proof (r_real _ _ _ Hr). by apply ordered_insert.
    + pose proof (r_real _ _ _ Hr) as Hreal. apply Forall_app in Hreal as [HrA HrB].
      apply Forall_app. split; [done|]. by constructor.
  - intros p Hp' Hpa.
    assert (p ∉ e_ptr <$> (hdr zsl :: A) ++ n :: B) as Hpn.
    { rewrite <-Permutation_middle, fmap_cons. unfold foreign in Hp'. simpl in *. set_solver. }
    apply same_node.
    + rewrite Hf6; [by apply Hf|]. rewrite fmap_app in Hpn. set_solver.
    + intros k. rewrite Hl6, Hk4 by by left. unfold h2. rewrite create_node_cells, decide_False by done.
      apply Hk1. left. intros ->. apply Hp'. rewrite fmap_cons. by left.
Qed.

End Insert.

End SkiplistInsert.
