(* ===== verification/SkiplistDelete.v ===== *)
(** * Skip lists: removal and change of score ([zslDelete], [zslUpdateScore]) *)

From stdpp Require Import sorting gmap.
From S2P Require Import Prelude Skiplist SkiplistOrder SkiplistRepr SkiplistLinks SkiplistProofs SkiplistInsert.

Module SkiplistDelete.
Import Skiplist SkiplistOrder SkiplistRepr SkiplistLinks SkiplistProofs SkiplistInsert.

Section Delete.
Context {T : Type} `{ScoreLaws T}.
Implicit Types (h : gmap address (zskiplistNode (T := T))) (zsl : zskiplist) (A B P Q ns : list (entry T)).

(** ** The loop over levels *)

Lemma unlink_all h lc A B (n : entry T) upd :
  links h lc (A ++ n :: B) → preds lc A upd → NoDup (e_ptr <$> A ++ n :: B) →
  ∃ h1, for_levels lc 0 (unlink_level (e_ptr n) upd) h = Some h1 ∧
    links h1 lc (A ++ B) ∧ (∀ p, fields h1 p = fields h p) ∧
    (∀ p k, (p ∉ e_ptr <$> A) ∨ (lc ≤ k)%nat → get_level h1 p k = get_level h p k).
Proof.
  intros Hl Hp Hnd.
  assert (∀ j, (j < lc)%nat → ∃ u r f d, (u ∈ e_ptr <$> A) ∧ upd !! j = Some (u, r) ∧ get_level h u j = Some (f, d) ∧
    (f = Some (e_ptr n) → is_Some (get_level h (e_ptr n) j))) as Hu.
  { intros j Hj. destruct (pred_cell h lc A (n :: B) upd j Hl Hp Hj) as (P & u & Q & (EA & _) & Hupd & Hc).
    do 4 eexists. split_and!; [|done..|]; [rewrite EA, fmap_app, fmap_cons; set_solver|].
    simpl. destruct (decide (j < e_height n)%nat) as [Hn|Hn]; intros En.
    - rewrite (Hl A n B j); [by eexists|done..].
    - exfalso. simpl in En. destruct (first_high j B) as [HB|(P2 & b & Q2 & -> & HP2 & Hb)].
      + by rewrite nxt_low in En.
      + rewrite nxt_found in En by done. injection En as En. revert En.
        apply (ptr_notin A (P2 ++ b :: Q2)); [done|]. rewrite !fmap_app, fmap_cons. set_solver. }
  assert (∀ u, u ∈ e_ptr <$> A → u ≠ e_ptr n) as Hun.
  { intros u Hin. apply (ptr_notin A B); [done|]. rewrite fmap_app. set_solver. }
  destruct (for_levels_spec (λ k p, unlink_view h (e_ptr n) upd k p)
    (unlink_level (e_ptr n) upd) lc 0 h h) as (h1 & E1 & Hl1 & Hf1); [|done|done|].
  { intros j h0 Hj Hf0 Hl0. destruct (Hu j) as (u & r & f & d & Hin & Hupd & Hc & Hx); [lia|].
    destruct (unlink_level_spec h0 (e_ptr n) upd j u r f d) as (h' & E' & Hl' & Hf').
    { done. } { by rewrite Hl0. } { by rewrite Hl0. } { by apply Hun. }
    exists h'. split_and!; [done| |done]. intros p k. rewrite Hl'. case_decide; [|done].
    unfold unlink_view. rewrite Hupd. simpl. by rewrite !Hl0. }
  exists h1. split_and!; [done| |done|].
  - apply (links_delete h h1 lc A B n upd); [done..|]. intros p k Hk. rewrite Hl1, decide_True by lia. done.
  - intros p k Hpk. rewrite Hl1. destruct (decide (k < lc)%nat) as [Hk|Hk]; [|by rewrite !decide_False by lia].
    rewrite decide_True by lia. destruct Hpk as [Hpk|Hpk]; [|lia].
    destruct (Hu k Hk) as (u & r & f & d & Hin & Hupd & Hc & Hx).
    unfold unlink_view. rewrite Hupd. simpl. rewrite Hc. simpl. by rewrite decide_False by congruence.
Qed.

(** ** The fields of the neighbours *)

Lemma backs_delete h A B (n : entry T) : backs h None (A ++ n :: B) → NoDup (e_ptr <$> A ++ n :: B) →
  ∃ h1, (match B with b :: _ => set_backward h (e_ptr b) (end_ptr None A) | [] => Some h end) = Some h1 ∧
    backs h1 None (A ++ B) ∧ (∀ p k, get_level h1 p k = get_level h p k) ∧
    (∀ p, p ∉ e_ptr <$> B → fields h1 p = fields h p).
Proof.
  intros [HbA [Hn HbB]]%backs_app Hnd.
  destruct B as [|b B].
  - exists h. rewrite app_nil_r. done.
  - simpl in HbB. destruct HbB as [Hb HbB].
    rewrite fmap_app, !fmap_cons in Hnd. apply list.NoDup_app in Hnd as (_ & HdA & Hnd).
    apply list.NoDup_cons in Hnd as [Hn1 [Hn2 _]%list.NoDup_cons].
    destruct (set_backward_spec h (e_ptr b) _ _ _ (end_ptr None A) Hb) as (h1 & E1 & Hl1 & Hf1).
    exists h1. split_and!; [done| |done|].
    + apply backs_app. split; [|simpl; split].
      * apply (backs_frame h); [|done]. intros p Hp. rewrite Hf1, decide_False; [done|].
        intros ->. apply (HdA _ Hp). right. by left.
      * by rewrite Hf1, decide_True.
      * apply (backs_frame h); [|done]. intros p Hp. rewrite Hf1, decide_False; [done|congruence].
    + intros p Hp. rewrite Hf1, decide_False; [done|]. intros ->. apply Hp. by left.
Qed.

(** ** The number of levels *)

Lemma max_height_high j ns n : n ∈ ns → high j n → (j < max_height ns)%nat.
Proof.
  unfold high. induction ns as [|m ns IH]; intros Hin Hj; [by apply not_elem_of_nil in Hin|].
  rewrite max_height_cons. apply elem_of_cons in Hin as [->|Hin]; [lia|]. specialize (IH Hin Hj). lia.
Qed.

Lemma max_height_low_inv j ns : (1 ≤ j)%nat → Forall (low j) ns → (max_height ns ≤ j)%nat.
Proof. unfold low. intros Hj. induction 1; [simpl; lia|]. rewrite max_height_cons. lia. Qed.

Lemma lower_level_spec h hd ns k : (1 ≤ k)%nat → (max_height ns ≤ k)%nat →
  (∀ j, (j < k)%nat → get_level h hd j = Some (nxt j ns)) → lower_level k h hd = Some (max_height ns).
Proof.
  induction k as [|k IH]; intros Hk Hmax Hl; [lia|].
  assert (1 ≤ max_height ns)%nat as Hpos by (clear; induction ns; [done|rewrite max_height_cons; lia]).
  destruct k as [|k]; [simpl; f_equal; lia|].
  change (lower_level (S (S k)) h hd) with
    ('(fwd, _) ← get_level h hd (S k); match fwd with None => lower_level (S k) h hd | Some _ => Some (S (S k)) end).
  rewrite (Hl (S k)) by lia. cbn [mbind option_bind]. destruct (first_high (S k) ns) as [Hlow|(P & b & Q & -> & HP & Hb)].
  - rewrite nxt_low by done. apply IH; [lia|apply max_height_low_inv; [lia|done]|intros j Hj; apply Hl; lia].
  - rewrite nxt_found by done. f_equal. assert (S k < max_height (P ++ b :: Q))%nat; [|lia].
    apply (max_height_high (S k) _ b); [|done]. apply elem_of_app. right. by left.
Qed.

(** ** A node leaves *)

Lemma preds_le k k' A upd : (k' ≤ k)%nat → preds (T := T) k A upd → preds k' A upd.
Proof. intros Hk Hp i Hi. apply Hp. lia. Qed.

Lemma zslDeleteNode_spec h zsl A (n : entry T) B upd :
  repr h zsl (A ++ n :: B) → preds (zsl_level zsl) (hdr zsl :: A) upd →
  ∃ h' zsl', zslDeleteNode h zsl (e_ptr n) upd = Some (h', zsl') ∧ repr h' zsl' (A ++ B) ∧
    zsl_header zsl' = zsl_header zsl ∧ (zsl_level zsl' ≤ zsl_level zsl)%nat ∧
    (∀ p, foreign zsl (A ++ B) p → h' !! p = h !! p).
Proof.
  intros Hr Hp. pose proof (r_nodup _ _ _ Hr) as Hnd. pose proof (level_range _ _ _ Hr) as Hlc.
  destruct (unlink_all h (zsl_level zsl) (hdr zsl :: A) B n upd) as (h1 & E1 & Hl1 & Hf1 & Hk1).
  { apply (r_links _ _ _ Hr). } { done. } { done. }
  assert (NoDup (e_ptr <$> A ++ n :: B)) as Hnd' by (by apply list.NoDup_cons in Hnd as [_ ?]).
  destruct (backs_delete h1 A B n) as (h2 & E2 & Hb2 & Hl2 & Hf2); [|done|].
  { apply (backs_frame h); [done|]. apply (r_fields _ _ _ Hr). }
  pose proof (r_heights _ _ _ Hr) as Hh. pose proof Hh as (HhA & HhnB)%Forall_app.
  inversion HhnB as [|? ? Hhn HhB]; subst.
  assert (max_height (A ++ B) ≤ zsl_level zsl)%nat as Hmax.
  { rewrite (r_level _ _ _ Hr), !max_height_app, max_height_cons. lia. }
  assert (∀ p, foreign zsl (A ++ B) p → (p ∉ e_ptr <$> hdr zsl :: A) ∧ (p ∉ e_ptr <$> B)) as Hfor.
  { intros p Hp'. unfold foreign in Hp'. rewrite fmap_cons, fmap_app in Hp'. rewrite fmap_cons. set_solver. }
  exists h2, (mkZsl (zsl_header zsl) (end_ptr None (A ++ B)) (zsl_length zsl - 1) (max_height (A ++ B))).
  split_and!; [| |done|done|].
  - assert (lower_level (zsl_level zsl) h2 (zsl_header zsl) = Some (max_height (A ++ B))) as Hlow.
    { apply lower_level_spec; [lia|done|]. intros j Hj. rewrite Hl2.
      apply (Hl1 [] (hdr zsl)); [done|unfold high; simpl; lia|done]. }
    unfold zslDeleteNode. rewrite E1. simpl.
    pose proof (r_fields _ _ _ Hr) as [_ [Hfn _]]%backs_app. rewrite <-Hf1 in Hfn.
    destruct (fields_lookup _ _ _ _ _ Hfn) as (lv & Hn). rewrite Hn. simpl.
    assert (get_level h1 (e_ptr n) 0 = Some (nxt 0 B)) as ->.
    { rewrite Hk1; [apply (r_links _ _ _ Hr (hdr zsl :: A) n B 0%nat); [done|unfold high; lia|lia]|].
      left. intros Hin. revert Hnd. change (hdr zsl :: A ++ n :: B) with ((hdr zsl :: A) ++ n :: B).
      rewrite fmap_app. intros (_ & Hd & _)%list.NoDup_app. apply (Hd _ Hin). by left. }
    rewrite (surjective_pairing (nxt 0 B)), nxt_zero by done. simpl.
    rewrite end_ptr_app, (r_tail _ _ _ Hr), end_ptr_app.
    destruct B as [|b B]; simpl in E2; simpl; [simplify_eq; simpl|rewrite E2; simpl].
    all: by rewrite Hlow.
  - split; simpl.
    + revert Hnd. rewrite fmap_cons, !fmap_app, fmap_cons, <-Permutation_middle. simpl.
      rewrite !list.NoDup_cons. set_solver.
    + rewrite Hf2, Hf1; [apply (r_header _ _ _ Hr)|]. simpl in Hnd. rewrite fmap_app in Hnd.
      apply list.NoDup_cons in Hnd as [Hnd _]. set_solver.
    + done.
    + intros P m Q j E Hm Hj. rewrite Hl2. apply (Hl1 P m Q j E Hm). lia.
    + intros j Hj. rewrite Hl2. destruct (decide (j < zsl_level zsl)%nat) as [Hj'|Hj'].
      * exists (nxt j (A ++ B)).2. rewrite (Hl1 [] (hdr zsl) (A ++ B)); [|done|unfold high; simpl; lia|done].
        rewrite nxt_low; [done|]. apply max_height_low. lia.
      * rewrite Hk1 by (right; lia). apply (r_above _ _ _ Hr). lia.
    + by apply Forall_app.
    + done.
    + done.
    + rewrite (r_length _ _ _ Hr), !zlen_app, zlen_cons. lia.
    + pose proof (r_sorted _ _ _ Hr) as Hs. apply ordered_app in Hs as (HsA & HsnB & HAB). apply ordered_app.
      split_and!; [done|by apply StronglySorted_inv in HsnB as [? _]|].
      intros a b Ha Hb. apply HAB; [done|by right].
    + pose proof (r_real _ _ _ Hr) as [HrA HrB%Forall_inv_tail]%Forall_app. by apply Forall_app.
  - intros p Hp'. destruct (Hfor p Hp') as [HpA HpB]. apply same_node; [by rewrite Hf2, Hf1|].
    intros j. rewrite Hl2, Hk1; [done|by left].
Qed.

(** ** The list of keys, as a sorted list *)

Definition zkeys ns : list (T * list Z) := e_key <$> ns.

Fixpoint zinsert (k : T * list Z) (l : list (T * list Z)) : list (T * list Z) :=
  match l with
  | [] => [k]
  | x :: l' => if klt x k then x :: zinsert k l' else k :: l
  end.

Definition zdelete (k : T * list Z) (l : list (T * list Z)) : list (T * list Z) := filter (λ x, keq x k = false) l.

Lemma zinsert_split k A B : Forall (λ n, klt (e_key n) k = true) A →
  match B with b :: _ => klt (e_key b) k = false | [] => True end →
  zinsert k (zkeys (A ++ B)) = zkeys A ++ k :: zkeys B.
Proof.
  intros HA HB. induction HA as [|x A Hx HA IH]; simpl.
  - destruct B as [|b B]; simpl; [done|]. by rewrite HB.
  - rewrite Hx. by rewrite IH.
Qed.

Lemma zdelete_none k ns : (∀ n, n ∈ ns → keq (e_key n) k = false) → zdelete k (zkeys ns) = zkeys ns.
Proof.
  unfold zdelete. induction ns as [|n ns IH]; intros Hk; [done|]. simpl.
  rewrite filter_cons_True by (apply Hk; by left). f_equal. apply IH. intros m Hm. apply Hk. by right.
Qed.

Lemma zdelete_split k A n B : keq (e_key n) k = true → (∀ m, m ∈ A ++ B → keq (e_key m) k = false) →
  zdelete k (zkeys (A ++ n :: B)) = zkeys (A ++ B).
Proof.
  intros Hn Hk. rewrite <-(zdelete_none k (A ++ B) Hk). unfold zdelete, zkeys.
  rewrite !fmap_app, !list.filter_app, fmap_cons, filter_cons_False; [done|]. by rewrite Hn.
Qed.

(** An entry is found at its place, or not at all. *)
Lemma key_unique A n B k : ordered (A ++ n :: B) → real_key k → Forall (λ m, isnan (e_score m) = false) (A ++ n :: B) →
  keq (e_key n) k = true → ∀ m, m ∈ A ++ B → keq (e_key m) k = false.
Proof.
  intros (HA & HnB & HAB)%ordered_app Hk Hreal Hn m Hm. apply elem_of_app in Hm as [Hm|Hm].
  - apply klt_keq. rewrite <-(klt_keq_r _ _ _ Hn). apply HAB; [done|by left].
  - rewrite keq_sym. apply klt_keq. rewrite <-(klt_keq_l _ _ _ Hn). apply StronglySorted_inv in HnB as [_ HnB].
    rewrite list.Forall_forall in HnB. by apply HnB.
Qed.

Lemma key_absent A n B k : ordered (A ++ n :: B) →
  Forall (λ m, klt (e_key m) k = true) A → klt (e_key n) k = false → keq (e_key n) k = false →
  ∀ m, m ∈ A ++ n :: B → keq (e_key m) k = false.
Proof.
  intros (HA & HnB & HAB)%ordered_app Hlt Hn Hne m. rewrite list.Forall_forall in Hlt.
  intros [Hm|[->|Hm]%elem_of_cons]%elem_of_app; [by apply klt_keq, Hlt|done|].
  apply not_true_is_false. intros E. apply StronglySorted_inv in HnB as [_ HnB].
  rewrite list.Forall_forall in HnB. specialize (HnB m Hm). rewrite (klt_keq_r _ _ _ E) in HnB. congruence.
Qed.

(** ** Frames of the whole invariant *)

Lemma repr_frame h h' zsl ns : (∀ p, p ∈ e_ptr <$> hdr zsl :: ns → h' !! p = h !! p) → repr h zsl ns → repr h' zsl ns.
Proof.
  intros Hf Hr.
  assert (∀ p, p ∈ e_ptr <$> hdr zsl :: ns → fields h' p = fields h p) as Hff
    by (intros p Hp; unfold fields; by rewrite Hf).
  assert (∀ p k, p ∈ e_ptr <$> hdr zsl :: ns → get_level h' p k = get_level h p k) as Hlf
    by (intros p k Hp; unfold get_level; by rewrite Hf).
  destruct Hr as [H1 H2 H3 H4 H5 H6 H7 H8 H9 H10 H11]. split; try done.
  - rewrite Hff; [done|by left].
  - apply (backs_frame h); [|done]. intros p Hp. apply Hff. by right.
  - by apply (links_frame h).
  - intros j Hj. rewrite Hlf; [by apply H5|by left].
Qed.

Lemma repr_free h zsl ns p : foreign zsl ns p → repr h zsl ns → repr (zslFreeNode h p) zsl ns.
Proof.
  intros Hp. apply repr_frame. intros q Hq. unfold zslFreeNode. rewrite lookup_delete_ne; [done|].
  intros ->. by apply Hp.
Qed.

(** The first node at or after a position: what follows the predecessor at level 0. *)
Lemma first_after h zsl A B : repr h zsl (A ++ B) →
  get_level h (default (zsl_header zsl) (end_ptr None A)) 0 = Some (match B with b :: _ => Some (e_ptr b) | [] => None end, (nxt 0 B).2).
Proof.
  intros Hr. pose proof (r_heights _ _ _ Hr) as [HhA HhB]%Forall_app. pose proof (level_range _ _ _ Hr) as Hlc.
  assert (∃ P u, hdr zsl :: A = P ++ [u] ∧ high 0 u ∧ e_ptr u = default (zsl_header zsl) (end_ptr None A)) as (P & u & E & Hu & <-).
  { destruct A as [|a A _] using rev_ind.
    - exists [], (hdr zsl). split_and!; [done|unfold high; simpl; lia|done].
    - exists (hdr zsl :: A), a. rewrite end_ptr_app. split_and!; [done| |done].
      apply Forall_app in HhA as [_ Ha%Forall_inv]. unfold high. lia. }
  rewrite (r_links _ _ _ Hr P u B 0%nat); [|by change (hdr zsl :: A ++ B) with ((hdr zsl :: A) ++ B); rewrite E, <-app_assoc|done|lia].
  by rewrite (surjective_pairing (nxt 0 B)), nxt_zero.
Qed.

Lemma same_entry_spec s e (n : entry T) nd : ele nd = Some (e_ele n) → score nd = e_score n →
  same_entry s e nd = keq (e_key n) (s, e).
Proof. intros He Hs. unfold same_entry, keq. rewrite He, Hs. simpl. by rewrite seq_sym. Qed.

(** ** [zslDelete] *)

Lemma node_here h zsl A n B : repr h zsl (A ++ n :: B) →
  ∃ nd, h !! e_ptr n = Some nd ∧ ele nd = Some (e_ele n) ∧ score nd = e_score n ∧ backward nd = end_ptr None A.
Proof.
  intros Hr. pose proof (r_fields _ _ _ Hr) as [_ [Hf _]]%backs_app.
  destruct (fields_lookup _ _ _ _ _ Hf) as (lv & ->). by eexists.
Qed.

Lemma zslDelete_spec h zsl ns s e keep : repr h zsl ns → isnan s = false →
  (∃ A n B h' zsl', ns = A ++ n :: B ∧ keq (e_key n) (s, e) = true ∧ (∀ m, m ∈ A ++ B → keq (e_key m) (s, e) = false) ∧
     zslDelete h zsl s e keep = Some (h', zsl', Some (e_ptr n)) ∧ repr h' zsl' (A ++ B) ∧
     zsl_header zsl' = zsl_header zsl ∧
     (∀ p, foreign zsl ns p → h' !! p = h !! p) ∧ h' !! e_ptr n = if keep then h !! e_ptr n else None) ∨
  ((∀ m, m ∈ ns → keq (e_key m) (s, e) = false) ∧ zslDelete h zsl s e keep = Some (h, zsl, None)).
Proof.
  intros Hr Hs. destruct (split_at_key (s, e) ns (r_sorted _ _ _ Hr)) as (A & B & -> & HA & HB).
  destruct (search_before h zsl A B s e Hr HA HB) as (upd & Eupd & _ & Hp).
  pose proof (level_range _ _ _ Hr) as Hlc. pose proof (r_heights _ _ _ Hr) as [HhA HhB]%Forall_app.
  unfold zslDelete. rewrite Eupd. simpl. rewrite (preds_zero _ _ _ _ HhA Hp) by lia. simpl.
  rewrite (first_after _ _ _ _ Hr). simpl. destruct B as [|n B].
  - right. rewrite app_nil_r. split; [|done]. intros m Hm. rewrite list.Forall_forall in HA. by apply klt_keq, HA.
  - destruct (node_here _ _ _ _ _ Hr) as (nd & Hnd & He & Hsc & Hb). rewrite Hnd. simpl.
    rewrite (same_entry_spec s e n) by done. pose proof (r_sorted _ _ _ Hr) as Hso. destruct (keq (e_key n) (s, e)) eqn:Ek.
    + left. destruct (zslDeleteNode_spec h zsl A n B upd Hr Hp) as (h' & zsl' & -> & Hr' & Hhd & _ & Hfr).
      assert (foreign zsl (A ++ B) (e_ptr n)) as Hn.
      { unfold foreign. pose proof (r_nodup _ _ _ Hr) as Hnd'.
        change (hdr zsl :: A ++ n :: B) with ((hdr zsl :: A) ++ n :: B) in Hnd'.
        rewrite <-Permutation_middle, fmap_cons in Hnd'. by apply list.NoDup_cons in Hnd' as [? _]. }
      assert (foreign zsl' (A ++ B) (e_ptr n)) as Hn' by (unfold foreign, hdr in *; by rewrite Hhd).
      exists A, n, B, (if keep then h' else zslFreeNode h' (e_ptr n)), zsl'. split_and!; [done..| |done| |done| |].
      * apply (key_unique A n B); [done..| |done]. apply (r_real _ _ _ Hr).
      * destruct keep; [done|]. by apply repr_free.
      * intros p Hpf. assert (foreign zsl (A ++ B) p ∧ p ≠ e_ptr n) as [Hpf' Hpn].
        { unfold foreign in *. rewrite fmap_cons, fmap_app in *. rewrite fmap_cons in Hpf. set_solver. }
        destruct keep; [by apply Hfr|]. unfold zslFreeNode. rewrite lookup_delete_ne by done. by apply Hfr.
      * destruct keep; [by apply Hfr|]. unfold zslFreeNode. apply lookup_delete_eq.
    + right. split; [|done]. apply Forall_inv in HB. by apply (key_absent A n B).
Qed.

End Delete.

End SkiplistDelete.
