(* ===== verification/SkiplistUpdate.v ===== *)
(** * Skip lists: change of score ([zslUpdateScore])

    The node stays where it is when its neighbours allow it, and is replaced
    otherwise: either way the entry moves to its new place in the order. *)

From stdpp Require Import sorting gmap.
From S2P Require Import Prelude Skiplist SkiplistOrder SkiplistRepr SkiplistLinks SkiplistProofs SkiplistInsert SkiplistDelete.

Module SkiplistUpdate.
Import Skiplist SkiplistOrder SkiplistRepr SkiplistLinks SkiplistProofs SkiplistInsert SkiplistDelete.

Section Update.
Context {T : Type} `{ScoreLaws T}.
Implicit Types (h : gmap address (zskiplistNode (T := T))) (zsl : zskiplist) (A B P Q ns : list (entry T)).

(** The entry with another score. *)
Definition rescored (n : entry T) (s : T) : entry T := mkEntry (e_ptr n) (e_height n) s (e_ele n).

Lemma nxt_rescored j R (n : entry T) s B : nxt j (R ++ rescored n s :: B) = nxt j (R ++ n :: B).
Proof. induction R as [|r R IH]; simpl; [done|]. by rewrite IH. Qed.

Lemma links_rescored h lc A (n : entry T) s B : links h lc (A ++ n :: B) → links h lc (A ++ rescored n s :: B).
Proof.
  intros Hl P m Q j E Hm Hj. destruct (app_cons_cases _ _ _ _ _ _ E) as [(R & -> & ->)|[(-> & -> & ->)|(R & -> & ->)]].
  - rewrite nxt_rescored. apply (Hl P); [by rewrite <-app_assoc|done..].
  - apply (Hl A n B j); done.
  - apply (Hl (A ++ n :: R)); [by rewrite <-app_assoc|done..].
Qed.

Lemma max_height_rescored A (n : entry T) s B : max_height (A ++ rescored n s :: B) = max_height (A ++ n :: B).
Proof. by rewrite !max_height_app, !max_height_cons. Qed.

Lemma ptr_middle h zsl A (n : entry T) B : repr h zsl (A ++ n :: B) →
  e_ptr n ≠ zsl_header zsl ∧ (e_ptr n ∉ e_ptr <$> A) ∧ (e_ptr n ∉ e_ptr <$> B).
Proof.
  intros Hr. pose proof (r_nodup _ _ _ Hr) as Hnd.
  change (hdr zsl :: A ++ n :: B) with ((hdr zsl :: A) ++ n :: B) in Hnd.
  rewrite <-Permutation_middle, fmap_cons in Hnd. apply list.NoDup_cons in Hnd as [Hnd _].
  change ((hdr zsl :: A) ++ B) with (hdr zsl :: (A ++ B)) in Hnd. rewrite fmap_cons, fmap_app in Hnd.
  change (e_ptr (hdr zsl)) with (zsl_header zsl) in Hnd. set_solver.
Qed.

Lemma repr_rescored h h' zsl A (n : entry T) s B : repr h zsl (A ++ n :: B) →
  fields_changed h h' (e_ptr n) (Some (e_ele n), s, end_ptr None A) → isnan s = false →
  ordered (A ++ rescored n s :: B) → repr h' zsl (A ++ rescored n s :: B).
Proof.
  intros Hr [Hl Hf] Hs Ho. destruct (ptr_middle _ _ _ _ _ Hr) as (Hh & HnA & HnB).
  pose proof (r_fields _ _ _ Hr) as (HbA & Hbn & HbB)%backs_app.
  pose proof (r_real _ _ _ Hr) as (HrA & HrnB)%Forall_app. pose proof (r_heights _ _ _ Hr) as (HhA & HhnB)%Forall_app.
  split.
  - pose proof (r_nodup _ _ _ Hr) as Hnd. rewrite !fmap_cons, !fmap_app, !fmap_cons in *. done.
  - rewrite Hf, decide_False by done. apply (r_header _ _ _ Hr).
  - apply backs_app. split; [|split].
    + apply (backs_frame h); [|done]. intros p Hp. rewrite Hf, decide_False; congruence.
    + simpl. by rewrite Hf, decide_True.
    + apply (backs_frame h); [|done]. intros p Hp. rewrite Hf, decide_False; congruence.
  - apply (links_frame h); [intros; apply Hl|]. apply (links_rescored h _ (hdr zsl :: A)). apply (r_links _ _ _ Hr).
  - intros j Hj. rewrite Hl. by apply (r_above _ _ _ Hr).
  - apply Forall_app. split; [done|]. by inversion HhnB; constructor.
  - rewrite max_height_rescored. apply (r_level _ _ _ Hr).
  - rewrite (r_tail _ _ _ Hr), !end_ptr_app. done.
  - rewrite (r_length _ _ _ Hr), !zlen_app, !zlen_cons. done.
  - done.
  - apply Forall_app. split; [done|]. constructor; [done|]. by apply Forall_inv_tail in HrnB.
Qed.

(** The guards: the neighbours are on the right sides of the new score. *)
Definition back_ok h (nd : zskiplistNode (T := T)) (newscore : T) : option bool :=
  match backward nd with None => Some true | Some b => m ← h !! b; Some (slt (score m) newscore) end.
Definition fwd_ok h (x : address) (newscore : T) : option bool :=
  '(fwd, _) ← get_level h x 0;
  match fwd with None => Some true | Some f => m ← h !! f; Some (slt newscore (score m)) end.

Lemma back_ok_spec h zsl A (n : entry T) B nd s : repr h zsl (A ++ n :: B) → backward nd = end_ptr None A →
  ∃ b, back_ok h nd s = Some b ∧ (b = true → Forall (λ m, klt (e_key m) (s, e_ele n) = true) A).
Proof.
  intros Hr Hb. unfold back_ok. rewrite Hb. destruct A as [|a A _] using rev_ind; [by exists true|].
  rewrite end_ptr_app. simpl. rewrite <-app_assoc in Hr. simpl in Hr.
  destruct (node_here _ _ _ _ _ Hr) as (m & -> & _ & Hs & _). simpl. rewrite Hs. eexists. split; [done|]. intros Hlt.
  assert (klt (e_key a) (s, e_ele n) = true) as Ha by (apply klt_spec; by left).
  apply Forall_app. split; [|by constructor]. pose proof (r_sorted _ _ _ Hr) as (_ & _ & Ho)%ordered_app.
  apply list.Forall_forall. intros m' Hm'. apply (klt_trans _ (e_key a)); [|done]. apply Ho; [done|by left].
Qed.

Lemma fwd_ok_spec h zsl A (n : entry T) B s : repr h zsl (A ++ n :: B) →
  ∃ b, fwd_ok h (e_ptr n) s = Some b ∧ (b = true → Forall (λ m, klt (s, e_ele n) (e_key m) = true) B).
Proof.
  intros Hr. unfold fwd_ok. assert (repr h zsl ((A ++ [n]) ++ B)) as Hr' by by rewrite <-app_assoc.
  pose proof (first_after _ _ _ _ Hr') as Hc. rewrite end_ptr_app in Hc. simpl in Hc. rewrite Hc. simpl.
  destruct B as [|b B]; [by exists true|].
  destruct (node_here _ _ _ _ _ Hr') as (m & -> & _ & Hs & _). simpl. rewrite Hs. eexists. split; [done|]. intros Hlt.
  assert (klt (s, e_ele n) (e_key b) = true) as Hb by (apply klt_spec; by left).
  constructor; [done|]. pose proof (r_sorted _ _ _ Hr') as (_ & Ho & _)%ordered_app.
  apply StronglySorted_inv in Ho as [_ Ho]. eapply list.Forall_impl; [done|]. intros m' Hm'. by apply (klt_trans _ (e_key b)).
Qed.

Lemma ordered_rescored A (n : entry T) s B : ordered (A ++ n :: B) →
  Forall (λ m, klt (e_key m) (s, e_ele n) = true) A → Forall (λ m, klt (s, e_ele n) (e_key m) = true) B →
  ordered (A ++ rescored n s :: B).
Proof.
  intros (HsA & HsB & HAB)%ordered_app HA HB. apply ordered_app. split_and!; [done| |].
  - apply StronglySorted_inv in HsB as [HsB _]. by constructor.
  - rewrite list.Forall_forall in HA. intros a b Ha [->|Hb]%elem_of_cons; [by apply HA|]. apply HAB; [done|by right].
Qed.

Lemma zkeys_rescored A (n : entry T) s B :
  Forall (λ m, klt (e_key m) (s, e_ele n) = true) A → Forall (λ m, klt (s, e_ele n) (e_key m) = true) B →
  zkeys (A ++ rescored n s :: B) = zinsert (s, e_ele n) (zkeys (A ++ B)).
Proof.
  intros HA HB. rewrite zinsert_split; [|done|].
  - unfold zkeys. by rewrite fmap_app.
  - destruct HB; [done|]. by apply klt_asym.
Qed.

Lemma foreign_delete zsl zsl' A (n : entry T) B p : zsl_header zsl' = zsl_header zsl →
  foreign zsl (A ++ n :: B) p → foreign zsl' (A ++ B) p.
Proof.
  intros E. unfold foreign, hdr. rewrite E, !fmap_cons, !fmap_app, fmap_cons. set_solver.
Qed.

(** The member is in the list with [curscore], and with no other score. *)
Lemma zslUpdateScore_spec h zsl A (n : entry T) B curscore e newscore lvl a :
  repr h zsl (A ++ n :: B) → isnan curscore = false → isnan newscore = false →
  keq (e_key n) (curscore, e) = true → (∀ m, m ∈ A ++ B → e_ele m ≠ e) →
  (1 ≤ lvl ≤ ZSKIPLIST_MAXLEVEL)%nat → h !! a = None →
  ∃ h' zsl' A' n' B', zslUpdateScore h zsl curscore e newscore lvl a = Some (h', zsl', e_ptr n') ∧
    A ++ B = A' ++ B' ∧ e_key n' = (newscore, e) ∧ repr h' zsl' (A' ++ n' :: B') ∧
    zkeys (A' ++ n' :: B') = zinsert (newscore, e) (zkeys (A ++ B)) ∧ zsl_header zsl' = zsl_header zsl ∧
    (∀ p, foreign zsl (A ++ n :: B) p → p ≠ a → h' !! p = h !! p).
Proof.
  intros Hr Hc Hn Hk Hele Hlvl Ha. pose proof (proj2 (proj1 (keq_spec _ _) Hk)) as He. simpl in He.
  pose proof (r_sorted _ _ _ Hr) as Ho. pose proof (level_range _ _ _ Hr) as Hlc.
  assert (∀ m, m ∈ A ++ B → keq (e_key m) (newscore, e) = false) as Hne.
  { intros m Hm. apply not_true_is_false. intros [_ E]%keq_spec. by apply (Hele m). }
  assert (Forall (λ m, klt (e_key m) (curscore, e) = true) A ∧
    Forall (λ m, klt (e_key m) (curscore, e) = false) (n :: B)) as [HA HB].
  { pose proof Ho as (_ & HsB & HAB)%ordered_app. split; apply list.Forall_forall.
    - intros m Hm. rewrite <-(klt_keq_r _ _ _ Hk). apply HAB; [done|by left].
    - intros m [->|Hm]%elem_of_cons; rewrite <-(klt_keq_r _ _ _ Hk); [apply klt_irrefl|].
      apply klt_asym. apply StronglySorted_inv in HsB as [_ HsB]. rewrite list.Forall_forall in HsB. by apply HsB. }
  destruct (search_before h zsl A (n :: B) curscore e Hr HA HB) as (upd & Eupd & _ & Hp).
  pose proof (r_heights _ _ _ Hr) as [HhA _]%Forall_app.
  unfold zslUpdateScore. rewrite Eupd. simpl. rewrite (preds_zero _ _ _ _ HhA Hp) by lia. simpl.
  rewrite (first_after _ _ _ _ Hr). simpl.
  destruct (node_here _ _ _ _ _ Hr) as (nd & Hnd & Hnde & Hnds & Hndb). rewrite Hnd. simpl.
  rewrite (same_entry_spec curscore e n) by done. rewrite Hk. simpl.
  destruct (back_ok_spec h zsl A n B nd newscore Hr Hndb) as (b1 & E1 & Hb1).
  destruct (fwd_ok_spec h zsl A n B newscore Hr) as (b2 & E2 & Hb2).
  unfold back_ok in E1. rewrite E1. unfold fwd_ok in E2. cbn [mbind option_bind].
  destruct (get_level h (e_ptr n) 0) as [[f d]|]; [|done]. simpl in E2 |- *. rewrite E2. simpl.
  destruct (b1 && b2) eqn:Eb.
  - apply andb_true_iff in Eb as [-> ->]. specialize (Hb1 eq_refl). specialize (Hb2 eq_refl).
    pose proof (r_fields _ _ _ Hr) as (_ & Hfn & _)%backs_app.
    destruct (set_score_spec h (e_ptr n) _ _ _ newscore Hfn) as (h' & -> & Hch). simpl.
    exists h', zsl, A, (rescored n newscore), B. split_and!; [done|done|by rewrite <-He| | |done|].
    + apply (repr_rescored h); [done..|]. by apply ordered_rescored.
    + rewrite <-He. by apply zkeys_rescored.
    + intros p Hpf Hpa. destruct Hch as [Hl Hf]. apply same_node; [|intros; apply Hl]. rewrite Hf, decide_False; [done|].
      intros ->. apply Hpf. rewrite fmap_cons, fmap_app, fmap_cons. set_solver.
  - clear Hb1 Hb2. destruct (zslDeleteNode_spec h zsl A n B upd Hr Hp) as (h1 & zsl1 & -> & Hr1 & Hhd1 & _ & Hfr1). simpl.
    rewrite Hnde, He. simpl.
    assert (foreign zsl (A ++ B) a) as Hfa.
    { apply (foreign_delete zsl zsl A n B); [done|]. by apply (fresh_foreign h). }
    destruct (zslInsert_spec h1 zsl1 (A ++ B) newscore e lvl a) as (A' & B' & h2 & zsl2 & EAB & -> & Hr2 & Hhd2 & HA' & HB' & Hfr2);
      [done|done|done|done| |].
    { by rewrite Hfr1. }
    simpl. destruct (ptr_middle _ _ _ _ _ Hr) as (Hnh & HnA & HnB).
    assert (e_ptr n ≠ a) as Hna by congruence.
    exists (zslFreeNode h2 (e_ptr n)), zsl2, A', (mkEntry a lvl newscore e), B'.
    split_and!; [done|done|done| | |congruence|].
    + apply repr_free; [|done]. unfold foreign. rewrite <-Permutation_middle, fmap_cons.
      assert (e_ptr n ∉ e_ptr <$> A' ++ B') by (rewrite <-EAB, fmap_app; set_solver).
      rewrite !fmap_cons. simpl. rewrite Hhd2, Hhd1. set_solver.
    + rewrite EAB, zinsert_split; [|done|by destruct HB']. unfold zkeys. by rewrite fmap_app.
    + intros p Hpf Hpa. unfold zslFreeNode. rewrite lookup_delete_ne.
      * rewrite Hfr2; [|by apply (foreign_delete zsl zsl1 A n B)|done]. apply Hfr1. by apply (foreign_delete zsl zsl A n B).
      * intros <-. apply Hpf. rewrite fmap_cons, fmap_app, fmap_cons. set_solver.
Qed.

End Update.

End SkiplistUpdate.
