(* ===== verification/SkiplistRank.v ===== *)
(** * Skip lists: ranks ([zslGetRank], [zslGetElementByRank])

    The spans make the rank of an entry, and the entry of a rank, available to
    searches that skip nodes: they are the positions in the list of entries. *)

From stdpp Require Import sorting gmap.
From S2P Require Import Prelude SdsText Skiplist SkiplistOrder SkiplistRepr SkiplistLinks SkiplistProofs SkiplistInsert SkiplistDelete.

Module SkiplistRank.
Import SdsText Skiplist SkiplistOrder SkiplistRepr SkiplistLinks SkiplistProofs SkiplistInsert SkiplistDelete.

Section Rank.
Context {T : Type} `{ScoreLaws T}.
Implicit Types (h : gmap address (zskiplistNode (T := T))) (zsl : zskiplist) (A B P Q L ns : list (entry T)).

(** The 1-based position of a key, 0 if it is not there. *)
Definition zrank (k : T * list Z) (l : list (T * list Z)) : Z :=
  match list_find (λ x, keq x k = true) l with Some (i, _) => Z.of_nat i + 1 | None => 0 end.

(** An entry reaches level 0, so nothing follows the last one that does. *)
Lemma low_zero Q : Forall (λ n, (1 ≤ e_height n ≤ ZSKIPLIST_MAXLEVEL)%nat) Q → Forall (low 0) Q → Q = [].
Proof. destruct Q as [|q Q]; [done|]. intros ?%Forall_inv Hq%Forall_inv. unfold low in Hq. lia. Qed.

Lemma heights_suffix zsl A P x Q : Forall (λ n, (1 ≤ e_height n ≤ ZSKIPLIST_MAXLEVEL)%nat) A →
  hdr zsl :: A = P ++ x :: Q → Forall (λ n, (1 ≤ e_height n ≤ ZSKIPLIST_MAXLEVEL)%nat) Q.
Proof.
  intros HA E. destruct P as [|p P]; injection E as _ EA; [by rewrite <-EA|].
  rewrite EA in HA. apply Forall_app in HA as [_ HA]. by apply Forall_inv_tail in HA.
Qed.

(** ** The rank of an entry *)

Lemma tested_until s e n r : tested (node_until s e) n r (kle (e_key n) (s, e)).
Proof. intros nd He Hs. unfold node_until. by rewrite He, Hs. Qed.

Definition hit (s : T) (e : list Z) (nd : zskiplistNode (T := T)) : bool :=
  match ele nd with Some el => seq_ (score nd) s && (sdscmp el e =? 0) | None => false end.

(** The only entry that can match among those the search passes is the last one. *)
Lemma rank_loop_spec h zsl A B s e (found : bool) fuel k P x Q : repr h zsl (A ++ B) →
  Forall (λ n, kle (e_key n) (s, e) = true) A → Forall (λ n, kle (e_key n) (s, e) = false) B →
  (∀ P' u Q', A = P' ++ u :: Q' → keq (e_key u) (s, e) = found && bool_decide (Q' = [])) → (found = true → A ≠ []) →
  hdr zsl :: A = P ++ x :: Q → (k ≤ e_height x)%nat → (k ≤ zsl_level zsl)%nat → (length Q ≤ fuel)%nat →
  rank_loop fuel h s e k (e_ptr x) (zlen P) = Some (if found && bool_decide (0 < k)%nat then zlen A else 0).
Proof.
  intros Hr HA HB Hu Hne. revert P x Q. induction k as [|i IH]; intros P x Q E Hx Hk Hfuel; simpl.
  { by rewrite andb_false_r. }
  pose proof (r_heights _ _ _ Hr) as [HhA _]%Forall_app.
  destruct (walk_spec h (zsl_level zsl) (hdr zsl :: A) B (node_until s e) (r_links _ _ _ Hr)) with
    (fuel := fuel) (i := i) (P := P) (x := x) (Q := Q) as (P' & u & Q' & Hlast & ->); [| |done|unfold high; lia|lia|done|].
  { apply (search_A h zsl A B); [done|]. intros j n Hj. rewrite <-(Forall_lookup_1 _ _ _ _ HA Hj). apply tested_until. }
  { apply (search_B h zsl A B); [done|]. intros j n Hj. rewrite <-(Forall_lookup_1 _ _ _ _ HB Hj). apply tested_until. }
  simpl. destruct (last_at_step _ _ _ _ _ _ _ _ E Hlast) as (E' & Hhu & HQ').
  assert (length Q' ≤ fuel)%nat as Hfuel'.
  { destruct Hlast as (EQ & _). apply (f_equal length) in EQ. rewrite length_app in EQ. simpl in EQ. lia. }
  pose proof (heights_suffix _ _ _ _ _ HhA E') as HhQ'.
  assert (∃ nd, h !! e_ptr u = Some nd ∧ hit s e nd = (match P ++ P' with [] => false | _ => true end)
    && found && bool_decide (Q' = [])) as (nd & -> & Hhit).
  { destruct (P ++ P') as [|p PP]; injection E' as Eh EA.
    - destruct (fields_lookup _ _ _ _ _ (r_header _ _ _ Hr)) as (lv & Hl). rewrite <-Eh. eexists. split; [apply Hl|done].
    - rewrite EA, <-app_assoc in Hr. destruct (node_here _ _ _ _ _ Hr) as (nd & ? & He & Hs & _). exists nd. split; [done|].
      unfold hit. rewrite He, Hs. simpl. by rewrite <-(Hu _ _ _ EA). }
  cbn [mbind option_bind]. unfold hit in Hhit. rewrite Hhit. clear Hhit.
  destruct (decide (i = 0)%nat) as [->|Hi].
  - apply low_zero in HQ'; [|done]. subst Q'. rewrite bool_decide_true by done. rewrite andb_true_r.
    destruct (P ++ P') as [|p PP] eqn:EP; simpl.
    + injection E' as _ EA. destruct found; [by apply Hne in EA|done].
    + injection E' as _ EA. destruct found; [|done]. rewrite EA, zlen_app, !zlen_cons, zlen_nil. simpl. f_equal. lia.
  - rewrite (IH (P ++ P') u Q' E'); [|unfold high in Hhu; lia|lia|done].
    assert (bool_decide (0 < i)%nat = true) as -> by (apply bool_decide_true; lia). rewrite ?(bool_decide_true (0 < S i)%nat), andb_true_r by lia.
    destruct (P ++ P') as [|p PP] eqn:EP; simpl; [done|]. destruct found; simpl; [|done].
    destruct (bool_decide (Q' = [])) eqn:HQ; [apply bool_decide_eq_true in HQ|done]. subst Q'. injection E' as _ EA.
    rewrite EA, zlen_app, !zlen_cons, zlen_nil. f_equal. lia.
Qed.

(** Where the key is, or that it is not there. *)
Lemma split_until k ns : real_key k → Forall (λ n, isnan (e_score n) = false) ns → ordered ns →
  ∃ A B (found : bool), ns = A ++ B ∧ Forall (λ n, kle (e_key n) k = true) A ∧ Forall (λ n, kle (e_key n) k = false) B ∧
    (∀ P u Q, A = P ++ u :: Q → keq (e_key u) k = found && bool_decide (Q = [])) ∧ (found = true → A ≠ []) ∧
    zrank k (zkeys ns) = if found then zlen A else 0.
Proof.
  intros Hk Hreal Ho.
  destruct (split_by (λ n, kle (e_key n) k) ns Ho) as (A & B & -> & HA & HB).
  { intros a b Ha Hb Hab. rewrite list.Forall_forall in Hreal.
    rewrite !kle_negb by (done || by apply Hreal). rewrite !negb_true_iff. intros Hkb.
    apply not_true_is_false. intros Hka. by rewrite (klt_trans _ _ _ Hka Hab) in Hkb. }
  pose proof Ho as (HoA & HoB & HAB)%ordered_app.
  assert (∀ b, b ∈ B → keq (e_key b) k = false) as HBne.
  { intros b Hb. rewrite list.Forall_forall in HB. specialize (HB b Hb). rewrite kle_spec in HB.
    by apply orb_false_iff in HB as [_ ?]. }
  assert (∀ P u Q, A = P ++ u :: Q → Q ≠ [] → keq (e_key u) k = false) as HAne.
  { intros P u Q -> HQ. apply not_true_is_false. intros Eu. destruct Q as [|q Q]; [done|].
    apply ordered_app in HoA as (_ & Ho' & _). apply StronglySorted_inv in Ho' as [_ Ho'%Forall_inv].
    apply Forall_app in HA as [_ HA]. apply Forall_inv_tail, Forall_inv in HA.
    rewrite (klt_keq_l _ _ _ Eu) in Ho'. rewrite kle_negb in HA; [|by apply Forall_app in Hreal as [[_ Hr%Forall_inv_tail%Forall_inv]%Forall_app _]|done].
    by rewrite Ho' in HA. }
  destruct A as [|u A' _] using rev_ind.
  - exists [], B, false. split_and!; [done|done|done| |done|].
    + intros P u Q E. by destruct P.
    + unfold zrank. simpl. rewrite (proj2 (list_find_None _ _)); [done|]. apply Forall_fmap. apply list.Forall_forall.
      intros b Hb. simpl. by rewrite HBne.
  - exists (A' ++ [u]), B, (keq (e_key u) k). split_and!; [done..| | |].
    + intros P v Q E. destruct Q as [|q Q].
      * apply app_inj_tail in E as [_ ->]. by rewrite bool_decide_true, andb_true_r.
      * rewrite (HAne P v (q :: Q) E) by discriminate. rewrite bool_decide_false by discriminate. by rewrite andb_false_r.
    + intros _ E. by destruct A'.
    + unfold zrank, zkeys. rewrite <-app_assoc. simpl. destruct (keq (e_key u) k) eqn:Eu.
      * rewrite fmap_app. simpl. rewrite (proj2 (list_find_Some _ _ (length A') (e_key u))).
        { rewrite zlen_app. unfold zlen. simpl. lia. }
        split_and!; [by rewrite lookup_app_r, length_fmap, Nat.sub_diag by by rewrite length_fmap|done|].
        intros j y Hj Hlt. rewrite lookup_app_l in Hj by by rewrite length_fmap.
        rewrite list_lookup_fmap in Hj. apply fmap_Some in Hj as (v & Hv & ->). apply list_elem_of_split_length in Hv as (P & Q & -> & _).
        rewrite (HAne P v (Q ++ [u])); [done|by rewrite <-app_assoc|by destruct Q].
      * rewrite (proj2 (list_find_None _ _)); [done|]. rewrite fmap_app. apply Forall_app. split.
        -- apply Forall_fmap, list.Forall_forall. intros v Hv. simpl.
           apply list_elem_of_split in Hv as (P & Q & ->). rewrite (HAne P v (Q ++ [u])); [done|by rewrite <-app_assoc|by destruct Q].
        -- simpl. constructor; [by rewrite Eu|]. apply Forall_fmap, list.Forall_forall. intros v Hv. simpl. by rewrite HBne.
Qed.

Lemma zslGetRank_spec h zsl ns s e : repr h zsl ns → isnan s = false →
  zslGetRank h zsl s e = Some (zrank (s, e) (zkeys ns)).
Proof.
  intros Hr Hs. destruct (split_until (s, e) ns Hs (r_real _ _ _ Hr) (r_sorted _ _ _ Hr))
    as (A & B & found & -> & HA & HB & Hu & Hne & ->).
  pose proof (level_range _ _ _ Hr) as Hlc. unfold zslGetRank.
  change (rank_loop (fuel_of zsl) h s e (zsl_level zsl) (e_ptr (hdr zsl)) (zlen (@nil (entry T))) =
    Some (if found then zlen A else 0)).
  rewrite (rank_loop_spec h zsl A B s e found) with (Q := A); try done.
  - rewrite bool_decide_true by lia. by rewrite andb_true_r.
  - apply Hlc.
  - unfold fuel_of. rewrite (r_length _ _ _ Hr), zlen_app. unfold zlen. lia.
Qed.

(** ** The entry of a rank *)

Lemma take_drop_at L i : (i < length L)%nat → ∃ u, L !! i = Some u ∧ take (S i) L = take i L ++ [u].
Proof. intros Hi. destruct (lookup_lt_is_Some_2 L i Hi) as [u Hu]. exists u. split; [done|]. by apply take_S_r. Qed.

Section ByRank.
Context h (lc : nat) L (rank : Z).
Context (Hlinks : links h lc L) (Hnodes : ∀ n, n ∈ L → is_Some (h !! e_ptr n)) (Hrank : 0 <= rank).
Context (Hheights : Forall (λ n, (1 ≤ e_height n ≤ ZSKIPLIST_MAXLEVEL)%nat) L).

Let A := take (S (Z.to_nat rank)) L.
Let B := drop (S (Z.to_nat rank)) L.

Lemma by_rank_loop_spec fuel k P x Q : A = P ++ x :: Q → (1 ≤ k)%nat → (k ≤ e_height x)%nat → (k ≤ lc)%nat →
  (length Q ≤ fuel)%nat →
  by_rank_loop fuel h rank k (e_ptr x) (zlen P) = Some (fmap (M := option) e_ptr (L !! Z.to_nat rank)).
Proof.
  revert P x Q. induction k as [|i IH]; intros P x Q E Hk1 Hx Hk Hfuel; [lia|]. simpl.
  destruct (walk_spec h lc A B (λ _ t, t <=? rank)) with (fuel := fuel) (i := i) (P := P) (x := x) (Q := Q)
    as (P' & u & Q' & Hlast & ->); [| | |done|unfold high; lia|lia|done|].
  { unfold A, B. by rewrite take_drop. }
  { intros j n Hj _. destruct (Hnodes n) as [nd Hnd].
    { apply (list_elem_of_lookup_2 _ j). unfold A in Hj. by apply lookup_take_Some in Hj as [? _]. }
    exists nd. split; [done|]. apply lookup_lt_Some in Hj. unfold A in Hj. rewrite length_take in Hj. apply Z.leb_le. lia. }
  { intros j n Hj. destruct (Hnodes n) as [nd Hnd].
    { unfold B in Hj. rewrite lookup_drop in Hj. by apply list_elem_of_lookup_2 in Hj. }
    exists nd. split; [done|]. apply Z.leb_gt. unfold B in Hj. rewrite lookup_drop in Hj. apply lookup_lt_Some in Hj.
    unfold A, zlen. rewrite length_take. lia. }
  simpl. destruct (last_at_step _ _ _ _ _ _ _ _ E Hlast) as (E' & Hhu & HQ').
  assert (L = (P ++ P') ++ u :: Q' ++ B) as EL.
  { rewrite <-(take_drop (S (Z.to_nat rank)) L). fold A B. by rewrite E', <-app_assoc. }
  destruct (zlen (P ++ P') =? rank) eqn:Er; zb.
  - rewrite EL. replace (Z.to_nat rank) with (length (P ++ P')) by (unfold zlen in Er; lia).
    by rewrite list_lookup_middle.
  - destruct (decide (i = 0)%nat) as [->|Hi].
    + apply low_zero in HQ'; [|rewrite EL in Hheights; apply Forall_app in Hheights as [_ Hheights];
        by apply Forall_inv_tail, Forall_app in Hheights as [? _]]. subst Q'. simpl.
      assert (length A = S (length (P ++ P'))) as El by (rewrite E', length_app; simpl; lia).
      unfold A in El. rewrite length_take in El. rewrite lookup_ge_None_2; [done|]. unfold zlen in Er. lia.
    + apply (IH (P ++ P') u Q'); [done|lia|unfold high in Hhu; lia|lia|].
      destruct Hlast as (EQ & _). apply (f_equal length) in EQ. rewrite length_app in EQ. simpl in EQ. lia.
Qed.

End ByRank.

Lemma node_allocated h zsl ns n : repr h zsl ns → n ∈ hdr zsl :: ns → is_Some (h !! e_ptr n).
Proof. intros Hr Hn. apply (ptr_allocated h zsl ns _ Hr). by apply list_elem_of_fmap_2. Qed.

(** From a node [x] of the list, with the header counted as position 0 when [x] is the header. *)
Lemma byRankFromNode_spec h zsl ns P x Q start_level rank fuel : repr h zsl ns →
  hdr zsl :: ns = P ++ x :: Q → (start_level < e_height x)%nat → (start_level < zsl_level zsl)%nat → 0 <= rank →
  (length Q ≤ fuel)%nat →
  zslGetElementByRankFromNode fuel h (e_ptr x) start_level rank =
    Some (fmap (M := option) e_ptr ((x :: Q) !! Z.to_nat rank)).
Proof.
  intros Hr E Hs Hlc Hrank Hfuel. unfold zslGetElementByRankFromNode.
  apply (by_rank_loop_spec h (zsl_level zsl) (x :: Q) rank) with (P := []) (Q := take (Z.to_nat rank) Q); try done; try lia.
  - apply (links_suffix _ _ P). rewrite <-E. apply (r_links _ _ _ Hr).
  - intros n Hn. apply (node_allocated h zsl ns n Hr). rewrite E. apply elem_of_app. by right.
  - destruct P as [|p P]; injection E as Ex EA.
    + rewrite <-Ex, <-EA. constructor; [simpl; unfold ZSKIPLIST_MAXLEVEL; lia|apply (r_heights _ _ _ Hr)].
    + pose proof (r_heights _ _ _ Hr) as Hh. rewrite EA in Hh. by apply Forall_app in Hh as [_ ?].
  - rewrite length_take. lia.
Qed.

Lemma zslGetElementByRank_spec h zsl ns rank : repr h zsl ns → 0 <= rank →
  zslGetElementByRank h zsl rank = Some (fmap (M := option) e_ptr ((hdr zsl :: ns) !! Z.to_nat rank)).
Proof.
  intros Hr Hrank. pose proof (level_range _ _ _ Hr) as Hlc. unfold zslGetElementByRank.
  apply (byRankFromNode_spec h zsl ns [] (hdr zsl) ns); [done..|simpl; lia|lia|done|].
  unfold fuel_of. rewrite (r_length _ _ _ Hr). unfold zlen. lia.
Qed.

End Rank.

End SkiplistRank.
