(* ===== verification/SkiplistRange.v ===== *)
(** * Skip lists: ranges of scores ([zslIsInRange], [zslNthInRange])

    The entries in a range are a segment of the list; the search for the n-th of
    them, from either end and by either of the two ways to get there, finds it. *)

From stdpp Require Import sorting gmap.
From S2P Require Import Prelude Skiplist SkiplistOrder SkiplistRepr SkiplistLinks SkiplistProofs SkiplistInsert SkiplistDelete SkiplistRank.

Module SkiplistRange.
Import Skiplist SkiplistOrder SkiplistRepr SkiplistLinks SkiplistProofs SkiplistInsert SkiplistDelete SkiplistRank.

Section Range.
Context {T : Type} `{ScoreLaws T}.
Implicit Types (h : gmap address (zskiplistNode (T := T))) (zsl : zskiplist) (A B P Q X Y ns : list (entry T)).
Implicit Types (range : zrangespec (T := T)).

Definition above_min range (n : entry T) : bool := zslValueGteMin (e_score n) range.
Definition upto_max range (n : entry T) : bool := zslValueLteMax (e_score n) range.
Definition in_range range (n : entry T) : bool := above_min range n && upto_max range n.

(** ** Bounds and the order *)

Lemma sle_spec (a b : T) : sle a b = true ↔ slt a b = true ∨ seq_ a b = true.
Proof. unfold sle. apply orb_true_iff. Qed.

Lemma sle_trans (a b c : T) : sle a b = true → sle b c = true → sle a c = true.
Proof.
  rewrite !sle_spec. intros [H1|H1] [H2|H2].
  - left. by eapply slt_trans.
  - left. by rewrite <-(slt_seq_r _ _ _ H2).
  - left. by rewrite (slt_seq_l _ _ _ H1).
  - right. by eapply seq_trans.
Qed.
Lemma slt_sle_trans (a b c : T) : slt a b = true → sle b c = true → slt a c = true.
Proof. rewrite sle_spec. intros H1 [H2|H2]; [by eapply slt_trans|by rewrite <-(slt_seq_r _ _ _ H2)]. Qed.
Lemma sle_slt_trans (a b c : T) : sle a b = true → slt b c = true → slt a c = true.
Proof. rewrite sle_spec. intros [H1|H1] H2; [by eapply slt_trans|by rewrite (slt_seq_l _ _ _ H1)]. Qed.
Lemma slt_sle_contra (a b : T) : slt a b = true → sle b a = true → False.
Proof.
  intros H1. rewrite sle_spec. destruct (slt_seq _ _ H1) as [E1 E2]. rewrite E2, seq_sym, E1. by intros [|].
Qed.
Lemma klt_sle (a b : entry T) : klt (e_key a) (e_key b) = true → sle (e_score a) (e_score b) = true.
Proof. rewrite klt_spec, sle_spec. naive_solver. Qed.

Lemma gte_min_mono range a b : sle a b = true → zslValueGteMin a range = true → zslValueGteMin b range = true.
Proof.
  unfold zslValueGteMin. intros Hab. destruct (minex range); intros Ha; [by eapply slt_sle_trans|by eapply sle_trans].
Qed.
Lemma lte_max_mono range a b : sle a b = true → zslValueLteMax b range = true → zslValueLteMax a range = true.
Proof.
  unfold zslValueLteMax. intros Hab. destruct (maxex range); intros Ha; [by eapply sle_slt_trans|by eapply sle_trans].
Qed.

(** The first test of [zslIsInRange]. *)
Definition void range : bool :=
  slt (max range) (min range) || (seq_ (min range) (max range) && (minex range || maxex range)).

Lemma void_empty range v : void range = true → zslValueGteMin v range && zslValueLteMax v range = false.
Proof.
  intros Hv. apply not_true_is_false. intros [H1 H2]%andb_true_iff.
  assert (sle (min range) v = true) as H1'.
  { unfold zslValueGteMin in H1. destruct (minex range); [rewrite sle_spec; by left|done]. }
  assert (sle v (max range) = true) as H2'.
  { unfold zslValueLteMax in H2. destruct (maxex range); [rewrite sle_spec; by left|done]. }
  apply orb_true_iff in Hv as [Hv|[He Hx]%andb_true_iff].
  - eapply slt_sle_contra; [apply Hv|]. by eapply sle_trans.
  - assert (slt (min range) (max range) = true) as Hlt.
    { apply orb_true_iff in Hx as [Hx|Hx].
      - unfold zslValueGteMin in H1. rewrite Hx in H1. by eapply slt_sle_trans.
      - unfold zslValueLteMax in H2. rewrite Hx in H2. by eapply sle_slt_trans. }
    by rewrite (proj1 (slt_seq _ _ Hlt)) in He.
Qed.

(** In a range that is not void, what is below the minimum is below the maximum. *)
Lemma below_upto range v : void range = false → isnan (min range) = false → isnan (max range) = false → isnan v = false →
  zslValueGteMin v range = false → zslValueLteMax v range = true.
Proof.
  unfold void, zslValueGteMin, zslValueLteMax. intros [Hv1 Hv2]%orb_false_iff Hm HM Hv Hg.
  assert (∀ a b : T, isnan a = false → isnan b = false → sle a b = false → slt b a = true) as Htot.
  { intros a b Ha Hb [E1 E2]%orb_false_iff. by apply slt_total. }
  assert (sle (min range) (max range) = true) as Hmm.
  { rewrite sle_spec. destruct (slt (min range) (max range)) eqn:E1; [by left|].
    destruct (seq_ (min range) (max range)) eqn:E2; [by right|]. rewrite (slt_total _ _ Hm HM E1 E2) in Hv1. done. }
  assert (sle v (min range) = true) as Hvm.
  { rewrite sle_spec. destruct (minex range).
    - destruct (slt v (min range)) eqn:E1; [by left|]. destruct (seq_ v (min range)) eqn:E2; [by right|].
      rewrite (slt_total _ _ Hv Hm E1 E2) in Hg. done.
    - left. by apply Htot. }
  destruct (maxex range); [|by eapply sle_trans].
  destruct (minex range).
  - destruct (slt v (max range)) eqn:E1; [done|]. rewrite orb_true_r, andb_true_r in Hv2.
    rewrite sle_spec, Hv2 in Hmm. destruct Hmm as [Hmm|?]; [|done]. by rewrite (sle_slt_trans _ _ _ Hvm Hmm) in E1.
  - eapply slt_sle_trans; [by apply (Htot (min range) v)|done].
Qed.

(** ** The segment of a range *)

Definition range_ok range : Prop := isnan (min range) = false ∧ isnan (max range) = false.

(** [X] is below the range, [Y] in it, and the rest above. *)
Definition segment range ns X Y Z : Prop :=
  ns = X ++ Y ++ Z ∧ Forall (λ n, above_min range n = false ∧ upto_max range n = true) X ∧
  Forall (λ n, in_range range n = true) Y ∧ Forall (λ n, above_min range n = true ∧ upto_max range n = false) Z.

Lemma segment_exists range ns : ordered ns → Forall (λ n, isnan (e_score n) = false) ns → range_ok range → void range = false →
  ∃ X Y Z, segment range ns X Y Z.
Proof.
  intros Ho Hreal [Hm HM] Hv.
  destruct (split_by (λ n, negb (above_min range n)) ns Ho) as (X & B & -> & HX & HB).
  { intros a b _ _ Hab. rewrite !negb_true_iff. intros Hb. apply not_true_is_false. intros Ha.
    unfold above_min in *. by rewrite (gte_min_mono range _ _ (klt_sle _ _ Hab) Ha) in Hb. }
  pose proof Ho as (_ & HoB & _)%ordered_app.
  destruct (split_by (upto_max range) B HoB) as (Y & Z & -> & HY & HZ).
  { intros a b _ _ Hab. apply (lte_max_mono range), klt_sle, Hab. }
  apply Forall_app in HB as [HBY HBZ]. apply Forall_app in Hreal as [HrX _].
  exists X, Y, Z. split_and!; [done|..].
  - apply list.Forall_forall. intros n Hn. rewrite list.Forall_forall in HX, HrX.
    specialize (HX n Hn). apply negb_true_iff in HX. split; [done|]. apply below_upto; [done..|by apply HrX|done].
  - apply list.Forall_forall. intros n Hn. rewrite list.Forall_forall in HBY, HY. unfold in_range.
    specialize (HBY n Hn). apply negb_false_iff in HBY. by rewrite HBY, (HY n Hn).
  - apply list.Forall_forall. intros n Hn. rewrite list.Forall_forall in HBZ, HZ.
    specialize (HBZ n Hn). apply negb_false_iff in HBZ. by rewrite HBZ, (HZ n Hn).
Qed.

Lemma filter_all_false (f : entry T → bool) L : Forall (λ n, f n = false) L → List.filter f L = [].
Proof. induction 1 as [|n L Hn _ IH]; simpl; [done|]. by rewrite Hn. Qed.
Lemma filter_all_true (f : entry T → bool) L : Forall (λ n, f n = true) L → List.filter f L = L.
Proof. induction 1 as [|n L Hn _ IH]; simpl; [done|]. by rewrite Hn, IH. Qed.

Lemma segment_filter range ns X Y Z : segment range ns X Y Z → List.filter (in_range range) ns = Y.
Proof.
  intros (-> & HX & HY & HZ). rewrite !List.filter_app.
  rewrite (filter_all_false _ X), (filter_all_true _ Y), (filter_all_false _ Z); [by rewrite app_nil_r|..]; [|done|].
  - eapply list.Forall_impl; [apply HZ|]. intros n [_ Hn]. unfold in_range. by rewrite Hn, andb_false_r.
  - eapply list.Forall_impl; [apply HX|]. intros n [Hn _]. unfold in_range. by rewrite Hn.
Qed.

Lemma void_filter range ns : void range = true → List.filter (in_range range) ns = [].
Proof. intros Hv. apply filter_all_false. apply list.Forall_forall. intros n _. by apply void_empty. Qed.

(** ** [zslIsInRange] *)

Lemma end_node h zsl ns x : repr h zsl ns → end_ptr None ns = Some x →
  ∃ A n, ns = A ++ [n] ∧ x = e_ptr n ∧ ∃ nd, h !! x = Some nd ∧ score nd = e_score n.
Proof.
  intros Hr E. destruct ns as [|n A _] using rev_ind; [done|]. rewrite end_ptr_app in E. injection E as <-.
  destruct (node_here _ _ _ _ _ Hr) as (nd & ? & _ & ? & _). eauto 10.
Qed.

(** It is false only when no entry is in the range; when it is true there is an entry
    at or above the minimum and one at or below the maximum. *)
Lemma zslIsInRange_spec h zsl ns range : repr h zsl ns → range_ok range →
  ∃ b, zslIsInRange h zsl range = Some b ∧
    (b = false → List.filter (in_range range) ns = []) ∧ (b = true → void range = false).
Proof.
  intros Hr Hok. unfold zslIsInRange. fold (void range). destruct (void range) eqn:Hv.
  { exists false. split_and!; [done| |done]. intros _. by apply void_filter. }
  destruct (segment_exists range ns (r_sorted _ _ _ Hr) (r_real _ _ _ Hr) Hok Hv) as (X & Y & Z & Hseg).
  rewrite (segment_filter _ _ _ _ _ Hseg). destruct Hseg as (Ens & HX & HY & HZ).
  rewrite (r_tail _ _ _ Hr). destruct (end_ptr None ns) as [x|] eqn:Et.
  - destruct (end_node _ _ _ _ Hr Et) as (A & n & EA & _ & nd & -> & Hs). simpl. rewrite Hs.
    destruct (zslValueGteMin (e_score n) range) eqn:Eg; simpl.
    + change (zsl_header zsl) with (default (zsl_header zsl) (end_ptr None (@nil (entry T)))).
      rewrite (first_after h zsl [] ns Hr). simpl. destruct ns as [|m ns]; [by destruct A|].
      destruct (node_here h zsl [] m ns Hr) as (nd' & -> & _ & Hs' & _). simpl. rewrite Hs'.
      eexists. split_and!; [done| |done]. intros El. destruct X as [|x' X]; simpl in Ens.
      * destruct Y as [|y Y]; [done|]. injection Ens as <- _. apply Forall_inv in HY.
        unfold in_range, upto_max in HY. by rewrite El, andb_false_r in HY.
      * injection Ens as <- _. apply Forall_inv in HX as [_ HX]. unfold upto_max in HX. by rewrite El in HX.
    + exists false. split_and!; [done| |done]. intros _. rewrite EA in Ens.
      destruct Z as [|z Z' _] using rev_ind.
      * destruct Y as [|y Y' _] using rev_ind; [done|]. rewrite app_nil_r, app_assoc in Ens.
        apply app_inj_tail in Ens as [_ <-]. apply Forall_app in HY as [_ HY%Forall_inv].
        unfold in_range, above_min in HY. by rewrite Eg in HY.
      * rewrite !app_assoc in Ens. apply app_inj_tail in Ens as [_ <-]. apply Forall_app in HZ as [_ [HZ _]%Forall_inv].
        unfold above_min in HZ. by rewrite Eg in HZ.
  - destruct ns as [|n A _] using rev_ind; [|by rewrite end_ptr_app in Et].
    exists false. split_and!; [done| |done]. intros _. by destruct X, Y.
Qed.

(** ** Steps *)

Lemma steps_forward_spec h zsl ns k P x Q : repr h zsl ns → hdr zsl :: ns = P ++ x :: Q → (k ≤ length Q)%nat →
  steps_forward k h (Some (e_ptr x)) = Some (fmap (M := option) e_ptr ((x :: Q) !! k)).
Proof.
  intros Hr. revert P x Q. induction k as [|k IH]; intros P x Q E Hk; [done|].
  destruct Q as [|y Q]; [simpl in Hk; lia|]. simpl.
  pose proof (r_heights _ _ _ Hr) as Hh. pose proof (heights_suffix _ _ _ _ _ Hh E) as HhQ.
  assert (high 0 x) as Hx.
  { unfold high. destruct P as [|p P]; injection E as Ex EA; [rewrite <-Ex; simpl; unfold ZSKIPLIST_MAXLEVEL; lia|].
    rewrite EA in Hh. apply Forall_app in Hh as [_ Hh%Forall_inv]. lia. }
  rewrite (r_links _ _ _ Hr P x (y :: Q) 0%nat E Hx) by (pose proof (level_range _ _ _ Hr); lia).
  rewrite (surjective_pairing (nxt 0 (y :: Q))), nxt_zero by done. cbn [mbind option_bind].
  rewrite (IH (P ++ [x]) y Q); [done|by rewrite E, <-app_assoc|simpl in Hk; lia].
Qed.

Lemma steps_backward_spec h zsl ns k P x Q : repr h zsl ns → ns = P ++ x :: Q → (k ≤ length P)%nat →
  steps_backward k h (Some (e_ptr x)) = Some (fmap (M := option) e_ptr (ns !! (length P - k)%nat)).
Proof.
  intros Hr. revert P x Q. induction k as [|k IH]; intros P x Q E Hk.
  - simpl. rewrite E, Nat.sub_0_r, list_lookup_middle by done. done.
  - simpl. rewrite E in Hr. destruct (node_here _ _ _ _ _ Hr) as (nd & Hnd & _ & _ & Hb). rewrite <-E in Hr.
    rewrite Hnd. simpl. rewrite Hb. destruct P as [|p P' _] using rev_ind; [simpl in Hk; lia|].
    rewrite end_ptr_app. simpl. rewrite length_app in *. simpl in *.
    rewrite (IH P' p (x :: Q)); [do 3 f_equal; lia|by rewrite E, <-app_assoc|lia].
Qed.

End Range.

End SkiplistRange.
