(* ===== verification/SkiplistNth.v ===== *)
(** * Skip lists: the n-th entry of a range ([zslNthInRange]) *)

From stdpp Require Import sorting gmap.
From S2P Require Import Prelude Skiplist SkiplistOrder SkiplistRepr SkiplistLinks SkiplistProofs SkiplistInsert SkiplistDelete SkiplistRank SkiplistRange.

Module SkiplistNth.
Import Skiplist SkiplistOrder SkiplistRepr SkiplistLinks SkiplistProofs SkiplistInsert SkiplistDelete SkiplistRank SkiplistRange.

Section Nth.
Context {T : Type} `{ScoreLaws T}.
Implicit Types (h : gmap address (zskiplistNode (T := T))) (zsl : zskiplist) (A B P Q ns : list (entry T)).
Implicit Types (range : zrangespec (T := T)).

Abbreviation ptr_of o := (fmap (M := option) e_ptr o).

(** The n-th entry of a list, counted from the front or, when [n] is negative, from the end. *)
Definition nth_entry (n : Z) (l : list (entry T)) : option (entry T) :=
  if 0 <=? n then l !! Z.to_nat n else reverse l !! Z.to_nat (- n - 1).

Lemma nth_entry_neg n l : n < 0 →
  nth_entry n l = if - n <=? zlen l then l !! Z.to_nat (zlen l + n) else None.
Proof.
  intros Hn. unfold nth_entry. rewrite (proj2 (Z.leb_gt _ _) Hn). case_if; zb.
  - unfold zlen in *. rewrite reverse_lookup by lia. f_equal. lia.
  - apply lookup_ge_None_2. rewrite length_reverse. unfold zlen in *. lia.
Qed.

Section Segment.
Context h zsl range (X Y W : list (entry T)).
Context (Hr : repr h zsl (X ++ Y ++ W)) (Hseg : segment range (X ++ Y ++ W) X Y W).
Context (Hlen : zlen (X ++ Y ++ W) < 2 ^ 63).

Let ns := X ++ Y ++ W.
Let below : zskiplistNode (T := T) → Z → bool := λ m _, negb (zslValueGteMin (score m) range).
Let upto : zskiplistNode (T := T) → Z → bool := λ m _, zslValueLteMax (score m) range.

Lemma below_X k n : X !! k = Some n → tested below n (Z.of_nat k + 1) true.
Proof.
  intros Hk nd _ Hs. destruct Hseg as (_ & HX & _). destruct (Forall_lookup_1 _ _ _ _ HX Hk) as [Hx _].
  unfold below. rewrite Hs. unfold above_min in Hx. by rewrite Hx.
Qed.
Lemma below_YZ k n : (Y ++ W) !! k = Some n → tested below n (zlen X + 1 + Z.of_nat k) false.
Proof.
  intros Hk nd _ Hs. destruct Hseg as (_ & _ & HY & HZ). unfold below. rewrite Hs. apply negb_false_iff.
  apply lookup_app_Some in Hk as [Hk|[_ Hk]].
  - apply (Forall_lookup_1 _ _ _ _ HY) in Hk. by apply andb_true_iff in Hk as [? _].
  - by destruct (Forall_lookup_1 _ _ _ _ HZ Hk) as [? _].
Qed.
Lemma upto_XY k n : (X ++ Y) !! k = Some n → tested upto n (Z.of_nat k + 1) true.
Proof.
  intros Hk nd _ Hs. destruct Hseg as (_ & HX & HY & _). unfold upto. rewrite Hs.
  apply lookup_app_Some in Hk as [Hk|[_ Hk]].
  - by destruct (Forall_lookup_1 _ _ _ _ HX Hk) as [_ ?].
  - apply (Forall_lookup_1 _ _ _ _ HY) in Hk. by apply andb_true_iff in Hk as [_ ?].
Qed.
Lemma upto_Z k n : W !! k = Some n → tested upto n (zlen (X ++ Y) + 1 + Z.of_nat k) false.
Proof.
  intros Hk nd _ Hs. destruct Hseg as (_ & _ & _ & HZ). unfold upto. rewrite Hs.
  by destruct (Forall_lookup_1 _ _ _ _ HZ Hk) as [_ ?].
Qed.

Lemma heights_XY : Forall (λ n, (1 ≤ e_height n ≤ ZSKIPLIST_MAXLEVEL)%nat) X ∧
  Forall (λ n, (1 ≤ e_height n ≤ ZSKIPLIST_MAXLEVEL)%nat) Y.
Proof. pose proof (r_heights _ _ _ Hr) as [? [? _]%Forall_app]%Forall_app. done. Qed.

Lemma links_split A B : ns = A ++ B → links h (zsl_level zsl) ((hdr zsl :: A) ++ B).
Proof. intros E. pose proof (r_links _ _ _ Hr) as Hl. change (X ++ Y ++ W) with ns in Hl. by rewrite E in Hl. Qed.

(** The walk at the highest level. *)
Lemma top_walk : ∃ P u Q, last_at (zsl_level zsl - 1) (hdr zsl :: X) P u Q ∧
  walk (fuel_of zsl) h below (zsl_level zsl - 1) (zsl_header zsl) 0 = Some (e_ptr u, zlen P).
Proof.
  pose proof (level_range _ _ _ Hr) as Hlc.
  destruct (walk_spec h (zsl_level zsl) (hdr zsl :: X) (Y ++ W) below) with
    (fuel := fuel_of zsl) (i := (zsl_level zsl - 1)%nat) (P := @nil (entry T)) (x := hdr zsl) (Q := X)
    as (P & u & Q & Hlast & Hw).
  - by apply links_split.
  - by apply (search_A h zsl X (Y ++ W) below Hr below_X).
  - apply (search_B h zsl X (Y ++ W) below Hr below_YZ).
  - done.
  - unfold high. simpl. lia.
  - lia.
  - unfold fuel_of. rewrite (r_length _ _ _ Hr), zlen_app. unfold zlen. lia.
  - by exists P, u, Q.
Qed.

(** A node of the list is tested by its entry. *)
Lemma checked_spec (f : T → bool) n : n ∈ ns → checked h f (Some (e_ptr n)) = Some (if f (e_score n) then Some (e_ptr n) else None).
Proof.
  intros [k Hk]%list_elem_of_lookup. destruct (node_at _ _ _ _ _ Hr Hk) as (nd & Hnd & _ & Hs).
  unfold checked. rewrite Hnd. simpl. by rewrite Hs.
Qed.

Lemma by_rank_top P u Q d : last_at (zsl_level zsl - 1) (hdr zsl :: X) P u Q → 0 <= d →
  zslGetElementByRankFromNode (fuel_of zsl) h (e_ptr u) (zsl_level zsl - 1) d =
  Some (ptr_of ((u :: Q ++ Y ++ W) !! Z.to_nat d)).
Proof.
  intros (E & Hu & _) Hd. pose proof (level_range _ _ _ Hr) as Hlc.
  assert (hdr zsl :: ns = P ++ u :: Q ++ Y ++ W) as E'.
  { unfold ns. change (hdr zsl :: X ++ Y ++ W) with ((hdr zsl :: X) ++ Y ++ W). by rewrite E, <-app_assoc. }
  apply (byRankFromNode_spec h zsl ns P); [done..|lia|done|].
  unfold fuel_of. rewrite (r_length _ _ _ Hr). fold ns. apply (f_equal zlen) in E'.
  rewrite zlen_cons, zlen_app, zlen_cons in E'. pose proof (zlen_nonneg P). unfold zlen in *. lia.
Qed.

(** ** From the front *)

(** Where the first search ends: the last entry below the range, or the header. *)
Lemma bottom P u Q upd k : last_at k (hdr zsl :: X) P u Q → preds k (hdr zsl :: X) upd → length upd = k →
  ∃ P0 u0, hdr zsl :: X = P0 ++ [u0] ∧ default (e_ptr u, zlen P) (upd !! 0%nat) = (e_ptr u0, zlen P0).
Proof.
  intros (E & Hu & HQ) Hp Hl. destruct heights_XY as [HhX _]. destruct k as [|k].
  - destruct upd; [|done]. apply low_zero in HQ; [|by eapply heights_suffix]. subst Q. by exists P, u.
  - destruct (Hp 0%nat) as (P0 & u0 & Q0 & (E0 & _ & HQ0) & Hupd); [lia|].
    apply low_zero in HQ0; [|by eapply heights_suffix]. subst Q0. exists P0, u0. by rewrite Hupd.
Qed.

Lemma nth_front n : 0 <= n <= INT64_MAX → zslIsInRange h zsl range = Some true →
  zslNthInRange h zsl range n = Some (ptr_of (Y !! Z.to_nat n)).
Proof.
  intros Hn Hin. unfold INT64_MAX in Hn. pose proof (level_range _ _ _ Hr) as Hlc. unfold zslNthInRange. rewrite Hin. simpl.
  fold below upto. destruct top_walk as (P & u & Q & Hlast & ->). simpl.
  rewrite (proj2 (Z.leb_le 0 n)) by lia.
  destruct (descend_spec h (zsl_level zsl) (hdr zsl :: X) (Y ++ W) below) with
    (fuel := fuel_of zsl) (k := (zsl_level zsl - 1)%nat) (P := P) (x := u) (Q := Q) as (upd & -> & Hlu & Hp).
  { by apply links_split. }
  { apply (search_A h zsl X (Y ++ W) below Hr below_X). }
  { apply (search_B h zsl X (Y ++ W) below Hr below_YZ). }
  { apply Hlast. } { destruct Hlast as (_ & Hu & _). unfold high in Hu. lia. } { lia. }
  { destruct Hlast as (E & _). apply (f_equal zlen) in E. rewrite zlen_cons, zlen_app, zlen_cons in E.
    unfold fuel_of. rewrite (r_length _ _ _ Hr), zlen_app. pose proof (zlen_nonneg (Y ++ W)). unfold zlen in *. lia. }
  cbn [mbind option_bind]. destruct (bottom P u Q upd (zsl_level zsl - 1) Hlast Hp Hlu) as (P0 & u0 & E0 & ->).
  assert (zlen P0 = zlen X) as HP0.
  { apply (f_equal zlen) in E0. rewrite zlen_cons, zlen_app, zlen_cons, zlen_nil in E0. lia. }
  pose proof (zlen_nonneg X) as HX0. pose proof (zlen_nonneg (Y ++ W)) as HYZ0. rewrite zlen_app in Hlen.
  change (2 ^ 63) with 9223372036854775808 in Hlen.
  unfold uwrap at 1. rewrite HP0, Z.mod_small by (change (2 ^ 64) with 18446744073709551616; lia).
  rewrite (r_length _ _ _ Hr), zlen_app.
  destruct (zlen X + zlen (Y ++ W) <=? zlen X + n) eqn:El; zb.
  { rewrite lookup_ge_None_2; [done|]. rewrite zlen_app in El. unfold zlen in El. lia. }
  destruct (lookup_lt_is_Some_2 (Y ++ W) (Z.to_nat n)) as [y Hy]; [unfold zlen in El; lia|].
  assert (∀ x, x = Some (Some (e_ptr y)) →
    x ≫= (λ x, checked h (λ s, zslValueLteMax s range) x) = Some (ptr_of (Y !! Z.to_nat n))) as Hfin.
  { intros x ->. simpl. change (checked h (λ s, zslValueLteMax s range) (Some (e_ptr y)) = Some (ptr_of (Y !! Z.to_nat n))).
    rewrite checked_spec by (unfold ns; apply elem_of_app; right; by eapply list_elem_of_lookup_2).
    destruct Hseg as (_ & _ & HY & HZ). apply lookup_app_Some in Hy as [Hy|[Hge Hy]].
    - rewrite Hy. apply (Forall_lookup_1 _ _ _ _ HY) in Hy. apply andb_true_iff in Hy as [_ Hy].
      unfold upto_max in Hy. by rewrite Hy.
    - rewrite (lookup_ge_None_2 Y) by done. destruct (Forall_lookup_1 _ _ _ _ HZ Hy) as [_ Hz].
      unfold upto_max in Hz. by rewrite Hz. }
  apply Hfin. case_if.
  - rewrite (steps_forward_spec h zsl ns (Z.to_nat (n + 1)) P0 u0 (Y ++ W) Hr).
    + replace (Z.to_nat (n + 1)) with (S (Z.to_nat n)) by lia. simpl. by rewrite Hy.
    + unfold ns. change (hdr zsl :: X ++ Y ++ W) with ((hdr zsl :: X) ++ Y ++ W). by rewrite E0, <-app_assoc.
    + unfold zlen in El. lia.
  - pose proof Hlast as (E & _). apply (f_equal zlen) in E. rewrite zlen_cons, zlen_app, zlen_cons in E.
    pose proof (zlen_nonneg P). pose proof (zlen_nonneg Q).
    unfold uwrap. rewrite Z.mod_small by (change (2 ^ 64) with 18446744073709551616; lia).
    rewrite (by_rank_top P u Q) by (done || lia).
    replace (Z.to_nat (zlen X + 1 + n - zlen P)) with (S (length Q + Z.to_nat n)) by (unfold zlen in *; lia).
    simpl. rewrite lookup_app_r by lia. replace (length Q + Z.to_nat n - length Q)%nat with (Z.to_nat n) by lia.
    by rewrite Hy.
Qed.

(** ** From the end *)

Lemma nth_back n : - INT64_MAX <= n < 0 → zslIsInRange h zsl range = Some true →
  zslNthInRange h zsl range n = Some (ptr_of (if - n <=? zlen Y then Y !! Z.to_nat (zlen Y + n) else None)).
Proof.
  intros Hn Hin. unfold INT64_MAX in Hn. pose proof (level_range _ _ _ Hr) as Hlc. unfold zslNthInRange. rewrite Hin. simpl.
  fold below upto. destruct top_walk as (P & u & Q & Hlast & ->). simpl.
  rewrite (proj2 (Z.leb_gt 0 n)) by lia. pose proof Hlast as (E & Hu & _).
  assert (hdr zsl :: X ++ Y = P ++ u :: Q ++ Y) as EXY.
  { change (hdr zsl :: X ++ Y) with ((hdr zsl :: X) ++ Y). by rewrite E, <-app_assoc. }
  assert (repr h zsl ((X ++ Y) ++ W)) as Hr' by by rewrite <-app_assoc.
  destruct (descend_spec h (zsl_level zsl) (hdr zsl :: X ++ Y) W upto) with
    (fuel := fuel_of zsl) (k := zsl_level zsl) (P := P) (x := u) (Q := Q ++ Y) as (upd & -> & Hlu & Hp).
  { apply links_split. unfold ns. by rewrite app_assoc. }
  { apply (search_A h zsl (X ++ Y) W upto Hr' upto_XY). }
  { apply (search_B h zsl (X ++ Y) W upto Hr' upto_Z). }
  { done. } { unfold high in Hu. lia. } { lia. }
  { apply (f_equal zlen) in EXY. rewrite zlen_cons, !zlen_app, zlen_cons, zlen_app in EXY.
    unfold fuel_of. rewrite (r_length _ _ _ Hr), !zlen_app. rewrite length_app.
    pose proof (zlen_nonneg W). unfold zlen in *. lia. }
  destruct heights_XY as [HhX HhY].
  cbn [mbind option_bind]. rewrite (preds_zero (zsl_level zsl) zsl (X ++ Y)) by (done || lia || by apply Forall_app). simpl.
  pose proof (zlen_nonneg X). pose proof (zlen_nonneg Y). pose proof (zlen_nonneg W). rewrite !zlen_app in *.
  change (2 ^ 63) with 9223372036854775808 in Hlen.
  destruct (zlen X + zlen Y <? - n) eqn:El; zb.
  { rewrite (proj2 (Z.leb_gt (- n) (zlen Y))) by lia. done. }
  destruct (lookup_lt_is_Some_2 (X ++ Y) (Z.to_nat (zlen X + zlen Y + n))) as [y Hy]; [rewrite length_app; unfold zlen in *; lia|].
  assert (ns !! Z.to_nat (zlen X + zlen Y + n) = Some y) as Hy'.
  { unfold ns. rewrite app_assoc. by apply lookup_app_l_Some. }
  assert (∀ x, x = Some (Some (e_ptr y)) ∨ (x = Some None ∧ zlen X + zlen Y + n < zlen X) →
    x ≫= (λ x, checked h (λ s, zslValueGteMin s range) x) =
    Some (ptr_of (if - n <=? zlen Y then Y !! Z.to_nat (zlen Y + n) else None))) as Hfin.
  { intros x [->|[-> Hlt]]; [|by rewrite (proj2 (Z.leb_gt _ _)) by lia].
    change (checked h (λ s, zslValueGteMin s range) (Some (e_ptr y)) =
      Some (ptr_of (if - n <=? zlen Y then Y !! Z.to_nat (zlen Y + n) else None))).
    rewrite checked_spec by by eapply list_elem_of_lookup_2.
    destruct Hseg as (_ & HX & HY & _). apply lookup_app_Some in Hy as [Hy|[Hge Hy]].
    - apply lookup_lt_Some in Hy as Hlt. rewrite (proj2 (Z.leb_gt _ _)) by (unfold zlen in *; lia).
      destruct (Forall_lookup_1 _ _ _ _ HX Hy) as [Hx _]. unfold above_min in Hx. by rewrite Hx.
    - rewrite (proj2 (Z.leb_le _ _)) by (unfold zlen in *; lia).
      replace (Z.to_nat (zlen Y + n)) with (Z.to_nat (zlen X + zlen Y + n) - length X)%nat by (unfold zlen in *; lia).
      rewrite Hy. apply (Forall_lookup_1 _ _ _ _ HY) in Hy. apply andb_true_iff in Hy as [Hy _].
      unfold above_min in Hy. by rewrite Hy. }
  apply Hfin. clear Hfin. case_if; zb.
  - left. assert (∃ P1 x1, X ++ Y = P1 ++ [x1] ∧ e_ptr x1 = default (zsl_header zsl) (end_ptr None (X ++ Y))) as (P1 & x1 & E1 & <-).
    { destruct (X ++ Y) as [|x1 P1 _] using rev_ind; [done|]. exists P1, x1. by rewrite end_ptr_app. }
    assert (zlen X + zlen Y = zlen P1 + 1) as El1.
    { apply (f_equal zlen) in E1. rewrite !zlen_app, zlen_cons, zlen_nil in E1. lia. }
    rewrite (steps_backward_spec h zsl ns (Z.to_nat (- n - 1)) P1 x1 W Hr); [|by unfold ns; rewrite app_assoc, E1, <-app_assoc|unfold zlen in *; lia].
    replace (length P1 - Z.to_nat (- n - 1))%nat with (Z.to_nat (zlen X + zlen Y + n)) by (unfold zlen in *; lia).
    by rewrite Hy'.
  - apply (f_equal zlen) in E. rewrite zlen_cons, zlen_app, zlen_cons in E.
    pose proof (zlen_nonneg P). pose proof (zlen_nonneg Q).
    remember (zlen X + zlen Y + 1 + n - zlen P) as d eqn:Ed.
    destruct (decide (0 <= d)) as [Hd|Hd].
    + left. unfold uwrap. rewrite Z.mod_small by (change (2 ^ 64) with 18446744073709551616; lia).
      rewrite (by_rank_top P u Q) by done.
      assert ((hdr zsl :: ns) !! (length P + Z.to_nat d)%nat = (u :: Q ++ Y ++ W) !! Z.to_nat d) as <-.
      { unfold ns. rewrite app_assoc. change (hdr zsl :: (X ++ Y) ++ W) with ((hdr zsl :: (X ++ Y)) ++ W).
        rewrite EXY, <-app_assoc. simpl. rewrite <-app_assoc, lookup_app_r by lia. f_equal. lia. }
      replace (length P + Z.to_nat d)%nat with (S (Z.to_nat (zlen X + zlen Y + n))) by (unfold zlen in *; lia).
      simpl. by rewrite Hy'.
    + assert (- 9223372036854775808 <= d) as Hd' by lia.
      right. assert (uwrap 64 d = d + 18446744073709551616) as ->.
      { unfold uwrap. change (2 ^ 64) with 18446744073709551616. rewrite <-(Z.mod_small (d + 18446744073709551616) 18446744073709551616) by lia.
        by rewrite <-(Z_mod_plus_full d 1 18446744073709551616), Z.mul_1_l. }
      split; [|lia]. rewrite (by_rank_top P u Q) by (done || lia). rewrite lookup_ge_None_2; [done|].
      simpl. rewrite !length_app. unfold zlen in *. lia.
Qed.

End Segment.

(** The whole operation. *)
Lemma zslNthInRange_spec h zsl ns range n : repr h zsl ns → range_ok range → zlen ns < 2 ^ 63 →
  - INT64_MAX <= n <= INT64_MAX →
  zslNthInRange h zsl range n = Some (ptr_of (nth_entry n (List.filter (in_range range) ns))).
Proof.
  intros Hr Hok Hlen Hn. destruct (zslIsInRange_spec h zsl ns range Hr Hok) as ([] & Hin & Hf & Ht).
  - destruct (segment_exists range ns (r_sorted _ _ _ Hr) (r_real _ _ _ Hr) Hok (Ht eq_refl)) as (X & Y & W & Hseg).
    rewrite (segment_filter _ _ _ _ _ Hseg). pose proof Hseg as (-> & _).
    destruct (decide (0 <= n)) as [Hn0|Hn0].
    + rewrite (nth_front h zsl range X Y W) by (done || lia). unfold nth_entry. by rewrite (proj2 (Z.leb_le 0 n)).
    + rewrite (nth_back h zsl range X Y W) by (done || lia). by rewrite nth_entry_neg by lia.
  - rewrite (Hf eq_refl). unfold zslNthInRange. rewrite Hin. unfold nth_entry. simpl. by case_if.
Qed.

End Nth.

End SkiplistNth.
