(* ===== verification/SkiplistDeleteRange.v ===== *)
(** * Skip lists: removal of ranges ([zslDeleteRangeByScore], [...ByLex], [...ByRank])

    The nodes of a segment leave the list, their members leave the dict in the
    order of the list, and the rest stays. *)

From stdpp Require Import sorting gmap.
From S2P Require Import Prelude SdsText Skiplist SkiplistOrder SkiplistRepr SkiplistLinks SkiplistProofs SkiplistInsert SkiplistDelete SkiplistUpdate SkiplistRange.

Module SkiplistDeleteRange.
Import SdsText Skiplist SkiplistOrder SkiplistRepr SkiplistLinks SkiplistProofs SkiplistInsert SkiplistDelete SkiplistUpdate
  SkiplistRange.

Section DeleteRange.
Context {T : Type} `{ScoreLaws T} {D : Type} (dictDelete : D → list Z → option D).
Implicit Types (h : gmap address (zskiplistNode (T := T))) (zsl : zskiplist) (A B Y ns : list (entry T)).
Implicit Types (range : zrangespec (T := T)).

(** The calls of dictDelete, in order. *)
Fixpoint delete_all (d : D) (es : list (list Z)) : option D :=
  match es with
  | [] => Some d
  | e :: es => d ← dictDelete d e; delete_all d es
  end.

Definition head_ptr B : option address := match B with b :: _ => Some (e_ptr b) | [] => None end.

(** Addresses that stay as they are: those outside the list. *)
Definition others_kept zsl ns h h' : Prop := ∀ p, foreign zsl ns p → h' !! p = h !! p.

Lemma delete_while_spec (test : zskiplistNode (T := T) → Z → bool) A Y B upd d d' removed traversed fuel h zsl :
  repr h zsl (A ++ Y ++ B) → preds (zsl_level zsl) (hdr zsl :: A) upd → (length Y ≤ fuel)%nat →
  (∀ k n, Y !! k = Some n → tested test n (traversed + Z.of_nat k) true) →
  (∀ b B', B = b :: B' → tested test b (traversed + zlen Y) false) →
  delete_all d (e_ele <$> Y) = Some d' →
  ∃ h' zsl', delete_while dictDelete fuel h zsl d test upd (head_ptr (Y ++ B)) removed traversed =
      Some (h', zsl', d', removed + zlen Y) ∧
    repr h' zsl' (A ++ B) ∧ zsl_header zsl' = zsl_header zsl ∧ others_kept zsl (A ++ Y ++ B) h h' ∧
    (∀ n, n ∈ Y → h' !! e_ptr n = None).
Proof.
  revert Y d removed traversed h zsl. induction fuel as [|fuel IH]; intros Y d removed traversed h zsl Hr Hp Hf HY HB Hd.
  all: destruct Y as [|y Y]; [simpl in Hd; injection Hd as ->; exists h, zsl; rewrite zlen_nil, Z.add_0_r|].
  - split_and!; [|done|done|done|intros n Hn; by apply not_elem_of_nil in Hn].
    destruct B as [|b B]; [done|]. simpl. destruct (node_here _ _ _ _ _ Hr) as (nd & -> & He & Hs & _). simpl.
    pose proof (HB b B eq_refl nd He Hs) as Ht. rewrite zlen_nil, Z.add_0_r in Ht. by rewrite Ht.
  - simpl in Hf. lia.
  - split_and!; [|done|done|done|intros n Hn; by apply not_elem_of_nil in Hn].
    destruct B as [|b B]; [done|]. simpl. destruct (node_here _ _ _ _ _ Hr) as (nd & -> & He & Hs & _). simpl.
    pose proof (HB b B eq_refl nd He Hs) as Ht. rewrite zlen_nil, Z.add_0_r in Ht. by rewrite Ht.
  - simpl app in *. destruct (node_here _ _ _ _ _ Hr) as (nd & Hnd & He & Hs & _).
    pose proof (HY 0%nat y eq_refl nd He Hs) as Ht. rewrite Z.add_0_r in Ht.
    simpl. rewrite Hnd. simpl. rewrite Ht.
    pose proof (first_after h zsl (A ++ [y]) (Y ++ B)) as Hc. rewrite <-app_assoc, end_ptr_app in Hc. simpl in Hc.
    rewrite (Hc Hr). simpl.
    destruct (zslDeleteNode_spec h zsl A y (Y ++ B) upd Hr Hp) as (h1 & zsl1 & -> & Hr1 & Hhd1 & Hle & Hfr1). simpl.
    rewrite He. simpl. simpl in Hd. destruct (dictDelete d (e_ele y)) as [d1|]; [|done]. simpl in Hd |- *.
    destruct (ptr_middle _ _ _ _ _ Hr) as (Hyh & HyA & HyYB).
    assert (foreign zsl1 (A ++ Y ++ B) (e_ptr y)) as Hfy.
    { unfold foreign. rewrite fmap_cons, fmap_app. simpl. rewrite Hhd1. set_solver. }
    assert (hdr zsl1 = hdr zsl) as Eh by (unfold hdr; by rewrite Hhd1).
    destruct (IH Y d1 (removed + 1) (traversed + 1) (zslFreeNode h1 (e_ptr y)) zsl1) as (h2 & zsl2 & E2 & Hr2 & Hhd2 & Hk2 & HN2).
    { by apply repr_free. } { rewrite Eh. by apply (preds_le (zsl_level zsl)). } { simpl in Hf. lia. }
    { intros k n Hk. replace (traversed + 1 + Z.of_nat k) with (traversed + Z.of_nat (S k)) by lia. by apply HY. }
    { intros b B' EB. replace (traversed + 1 + zlen Y) with (traversed + zlen (y :: Y)) by (rewrite zlen_cons; lia). by apply (HB b B'). }
    { done. }
    exists h2, zsl2. split_and!; [|done|congruence| |].
    + fold (head_ptr (Y ++ B)). rewrite E2. do 2 f_equal. rewrite zlen_cons. lia.
    + intros p Hpf. rewrite Hk2; [|by apply (foreign_delete zsl zsl1 A y)].
      unfold zslFreeNode. rewrite lookup_delete_ne; [apply Hfr1; by apply (foreign_delete zsl zsl A y)|].
      intros <-. apply Hpf. rewrite fmap_cons, fmap_app, fmap_cons. set_solver.
    + intros n [->|Hn]%elem_of_cons; [|by apply HN2]. rewrite Hk2 by done. unfold zslFreeNode. apply lookup_delete_eq.
Qed.

(** A removal: [A] comes before the range, [Y] is in it and [B] after it. *)
Lemma delete_range_spec h zsl A Y B (before test : zskiplistNode (T := T) → Z → bool) d d' :
  repr h zsl (A ++ Y ++ B) →
  (∀ k n, A !! k = Some n → tested before n (Z.of_nat k + 1) true) →
  (∀ k n, (Y ++ B) !! k = Some n → tested before n (zlen A + 1 + Z.of_nat k) false) →
  (∀ k n, Y !! k = Some n → tested test n (zlen A + 1 + Z.of_nat k) true) →
  (∀ b B', B = b :: B' → tested test b (zlen A + 1 + zlen Y) false) →
  delete_all d (e_ele <$> Y) = Some d' →
  ∃ h' zsl', delete_range dictDelete h zsl d before test = Some (h', zsl', d', zlen Y) ∧
    repr h' zsl' (A ++ B) ∧ zsl_header zsl' = zsl_header zsl ∧ others_kept zsl (A ++ Y ++ B) h h' ∧
    (∀ n, n ∈ Y → h' !! e_ptr n = None).
Proof.
  intros Hr HA HYB HY HB Hd. pose proof (level_range _ _ _ Hr) as Hlc.
  destruct (zsl_search_spec h zsl A (Y ++ B) before Hr HA HYB) as (upd & Eupd & _ & Hp).
  pose proof (r_heights _ _ _ Hr) as [HhA _]%Forall_app.
  unfold delete_range. rewrite Eupd. simpl. rewrite (preds_zero _ _ _ _ HhA Hp) by lia. simpl.
  rewrite (first_after _ _ _ _ Hr). simpl.
  destruct (delete_while_spec test A Y B upd d d' 0 (zlen A + 1) (fuel_of zsl) h zsl) as (h' & zsl' & E & ?); try done.
  - unfold fuel_of. rewrite (r_length _ _ _ Hr), !zlen_app. unfold zlen. lia.
  - exists h', zsl'. split; [|done]. fold (head_ptr (Y ++ B)). by rewrite E.
Qed.

(** ** By score *)

Lemma filter_split (f : entry T → bool) A Y B : Forall (λ n, f n = false) A → Forall (λ n, f n = true) Y →
  Forall (λ n, f n = false) B →
  List.filter f (A ++ Y ++ B) = Y ∧ List.filter (λ n, negb (f n)) (A ++ Y ++ B) = A ++ B.
Proof.
  intros HA HY HB. rewrite !List.filter_app. split.
  - rewrite (filter_all_false _ A), (filter_all_true _ Y), (filter_all_false _ B) by done. by rewrite app_nil_r.
  - rewrite (filter_all_true _ A), (filter_all_false _ Y), (filter_all_true _ B); [done|..];
      (eapply list.Forall_impl; [done|]; intros n Hn; simpl; by rewrite Hn).
Qed.

(** Two tests on entries, one that holds from some place on and one that holds up to some place. *)
Lemma delete_by (lo hi : entry T → bool) h zsl ns (before test : zskiplistNode (T := T) → Z → bool) d d' :
  repr h zsl ns → (∀ n r, tested before n r (negb (lo n))) → (∀ n r, tested test n r (hi n)) →
  (∀ a b, a ∈ ns → b ∈ ns → klt (e_key a) (e_key b) = true → lo a = true → lo b = true) →
  (∀ a b, a ∈ ns → b ∈ ns → klt (e_key a) (e_key b) = true → hi b = true → hi a = true) →
  delete_all d (e_ele <$> List.filter (λ n, lo n && hi n) ns) = Some d' →
  ∃ h' zsl', delete_range dictDelete h zsl d before test =
      Some (h', zsl', d', zlen (List.filter (λ n, lo n && hi n) ns)) ∧
    repr h' zsl' (List.filter (λ n, negb (lo n && hi n)) ns) ∧ zsl_header zsl' = zsl_header zsl ∧ others_kept zsl ns h h'.
Proof.
  intros Hr Hbefore Htest Hlo Hhi Hd. pose proof (r_sorted _ _ _ Hr) as Ho.
  destruct (split_by (λ n, negb (lo n)) ns Ho) as (A & C & -> & HA & HC).
  { intros a b Ha Hb Hab. rewrite !negb_true_iff. intros Eb. apply not_true_is_false. intros Ea.
    by rewrite (Hlo a b Ha Hb Hab Ea) in Eb. }
  pose proof Ho as (_ & HoC & _)%ordered_app.
  destruct (split_by hi C HoC) as (Y & B & -> & HY & HB).
  { intros a b Ha Hb Hab. apply (Hhi a b); [apply elem_of_app; by right..|done]. }
  apply Forall_app in HC as [HCY HCB].
  destruct (filter_split (λ n, lo n && hi n) A Y B) as [E1 E2].
  { eapply list.Forall_impl; [apply HA|]. intros n Hn%negb_true_iff. simpl. by rewrite Hn. }
  { apply list.Forall_forall. intros n Hn. rewrite list.Forall_forall in HCY, HY.
    rewrite (HY n Hn), andb_true_r. by apply negb_false_iff, HCY. }
  { eapply list.Forall_impl; [apply HB|]. intros n Hn. simpl. by rewrite Hn, andb_false_r. }
  rewrite E1 in *. rewrite E2.
  destruct (delete_range_spec h zsl A Y B before test d d') as (h' & zsl' & E & Hr' & Hhd & Hk & _); try done.
  - intros k n Hk. pose proof (Forall_lookup_1 _ _ _ _ HA Hk) as Hn. simpl in Hn. rewrite <-Hn. apply Hbefore.
  - intros k n Hk. assert (negb (lo n) = false) as <-; [|apply Hbefore].
    apply lookup_app_Some in Hk as [Hk|[_ Hk]]; [by apply (Forall_lookup_1 _ _ _ _ HCY Hk)|by apply (Forall_lookup_1 _ _ _ _ HCB Hk)].
  - intros k n Hk. rewrite <-(Forall_lookup_1 _ _ _ _ HY Hk). apply Htest.
  - intros b B' ->. apply Forall_inv in HB. rewrite <-HB. apply Htest.
  - by exists h', zsl'.
Qed.

Lemma zslDeleteRangeByScore_spec h zsl ns range d d' : repr h zsl ns →
  delete_all d (e_ele <$> List.filter (in_range range) ns) = Some d' →
  ∃ h' zsl', zslDeleteRangeByScore dictDelete h zsl range d = Some (h', zsl', d', zlen (List.filter (in_range range) ns)) ∧
    repr h' zsl' (List.filter (λ n, negb (in_range range n)) ns) ∧ zsl_header zsl' = zsl_header zsl ∧ others_kept zsl ns h h'.
Proof.
  intros Hr. apply (delete_by (above_min range) (upto_max range)); [done|..].
  - intros n r nd _ Hs. by rewrite Hs.
  - intros n r nd _ Hs. by rewrite Hs.
  - intros a b _ _ Hab. apply gte_min_mono. by apply klt_sle.
  - intros a b _ _ Hab. apply lte_max_mono. by apply klt_sle.
Qed.

(** ** By member, when all scores are equal *)

Definition in_lex_range (range : zlexrangespec) (n : entry T) : bool :=
  zslLexValueGteMin (e_ele n) range && zslLexValueLteMax (e_ele n) range.

Lemma sdscmplex_mono (a b : list Z) (c : lexbound) : sdscmp a b < 0 →
  (0 <= sdscmplex (Str a) c → 0 < sdscmplex (Str b) c) ∧ (sdscmplex (Str b) c <= 0 → sdscmplex (Str a) c < 0).
Proof.
  intros Hab. destruct c as [| |c]; simpl; [lia..|]. split; intros Hc.
  - rewrite sdscmp_antisym. assert (sdscmp c b < 0); [|lia].
    destruct (decide (sdscmp a c = 0)) as [E|E]; [apply sdscmp_eq in E; by subst|].
    apply (sdscmp_trans c a b); [rewrite sdscmp_antisym; lia|done].
  - destruct (decide (sdscmp b c = 0)) as [E|E]; [apply sdscmp_eq in E; by subst|]. apply (sdscmp_trans a b c); [done|lia].
Qed.

Definition same_scores ns : Prop := ∀ a b, a ∈ ns → b ∈ ns → slt (e_score a) (e_score b) = false.

Lemma zslDeleteRangeByLex_spec h zsl ns (range : zlexrangespec) d d' : repr h zsl ns → same_scores ns →
  delete_all d (e_ele <$> List.filter (in_lex_range range) ns) = Some d' →
  ∃ h' zsl', zslDeleteRangeByLex dictDelete h zsl range d = Some (h', zsl', d', zlen (List.filter (in_lex_range range) ns)) ∧
    repr h' zsl' (List.filter (λ n, negb (in_lex_range range n)) ns) ∧ zsl_header zsl' = zsl_header zsl ∧ others_kept zsl ns h h'.
Proof.
  intros Hr Hsame. assert (∀ a b, a ∈ ns → b ∈ ns → klt (e_key a) (e_key b) = true → sdscmp (e_ele a) (e_ele b) < 0) as Hlt.
  { intros a b Ha Hb [Hs|[_ Hs]]%klt_spec; [|done]. simpl in Hs. by rewrite (Hsame a b Ha Hb) in Hs. }
  apply (delete_by (λ n, zslLexValueGteMin (e_ele n) range) (λ n, zslLexValueLteMax (e_ele n) range)); [done|..].
  - intros n r nd He _. by rewrite He.
  - intros n r nd He _. by rewrite He.
  - intros a b Ha Hb Hab. destruct (sdscmplex_mono _ _ (lexmin range) (Hlt a b Ha Hb Hab)) as [Hm _].
    unfold zslLexValueGteMin. case_if; zb; intros; lia.
  - intros a b Ha Hb Hab. destruct (sdscmplex_mono _ _ (lexmax range) (Hlt a b Ha Hb Hab)) as [_ Hm].
    unfold zslLexValueLteMax. case_if; zb; intros; lia.
Qed.

(** ** By rank *)

(** The entries of ranks [start] to [end_], both 1-based and inclusive. *)
Definition ranked (start end_ : Z) ns : list (entry T) := take (Z.to_nat (end_ - start + 1)) (drop (Z.to_nat (start - 1)) ns).
Definition unranked (start end_ : Z) ns : list (entry T) :=
  take (Z.to_nat (start - 1)) ns ++ drop (Z.to_nat (end_ - start + 1)) (drop (Z.to_nat (start - 1)) ns).

Lemma zslDeleteRangeByRank_spec h zsl ns start end_ d d' : repr h zsl ns → 1 <= start →
  delete_all d (e_ele <$> ranked start end_ ns) = Some d' →
  ∃ h' zsl', zslDeleteRangeByRank dictDelete h zsl start end_ d = Some (h', zsl', d', zlen (ranked start end_ ns)) ∧
    repr h' zsl' (unranked start end_ ns) ∧ zsl_header zsl' = zsl_header zsl ∧ others_kept zsl ns h h'.
Proof.
  intros Hr Hs Hd. unfold unranked. set (A := take (Z.to_nat (start - 1)) ns).
  set (B := drop (Z.to_nat (end_ - start + 1)) (drop (Z.to_nat (start - 1)) ns)).
  assert (ns = A ++ ranked start end_ ns ++ B) as Ens by (unfold A, B, ranked; by rewrite !take_drop).
  assert (zlen A <= start - 1) as HlA by (unfold A, zlen; rewrite length_take; lia).
  destruct (decide (zlen A = start - 1)) as [HA|HA].
  - destruct (delete_range_spec h zsl A (ranked start end_ ns) B (λ _ t, t <? start) (λ _ t, t <=? end_) d d')
      as (h' & zsl' & E & Hr' & Hhd & Hk & _); [by rewrite <-Ens|..|done|].
    + intros k n Hk nd _ _. apply Z.ltb_lt. apply lookup_lt_Some in Hk. unfold zlen in HA. lia.
    + intros k n _ nd _ _. apply Z.ltb_ge. lia.
    + intros k n Hk nd _ _. apply Z.leb_le. apply lookup_lt_Some in Hk. unfold ranked in Hk. rewrite length_take in Hk. lia.
    + intros b B' EB nd _ _. apply Z.leb_gt. assert (zlen (ranked start end_ ns) = Z.max 0 (end_ - start + 1)); [|lia].
      apply (f_equal length) in EB. unfold B in EB. rewrite length_drop in EB. simpl in EB.
      unfold ranked, zlen. rewrite length_take. lia.
    + exists h', zsl'. split_and!; try done. by rewrite Ens.
  - assert (drop (Z.to_nat (start - 1)) ns = []) as Edrop.
    { apply drop_ge. unfold A, zlen in HA, HlA. rewrite length_take in HA, HlA. lia. }
    assert (ranked start end_ ns = [] ∧ B = []) as [ER EB] by (unfold ranked, B; rewrite Edrop; by rewrite take_nil, drop_nil).
    rewrite ER in *. rewrite EB in *. clear EB. rewrite app_nil_r in Ens |- *. simpl in Ens. rewrite ?app_nil_r in Ens.
    destruct (delete_range_spec h zsl A [] [] (λ _ t, t <? start) (λ _ t, t <=? end_) d d')
      as (h' & zsl' & E & Hr' & Hhd & Hk & _); try done.
    + simpl. rewrite app_nil_r, <-Ens. done.
    + intros k n Hk nd _ _. apply Z.ltb_lt. apply lookup_lt_Some in Hk. unfold zlen in HlA. lia.
    + simpl in Hk. rewrite app_nil_r in *. exists h', zsl'. split_and!; try done. by rewrite Ens.
Qed.

End DeleteRange.

End SkiplistDeleteRange.
