(* ===== verification/Zset.v ===== *)
(** * Sorted sets ([src/redis-stable/src/t_zset.c])

    A sorted set in the skip list encoding: a dict from members to the score
    field of their node, and the skip list of the nodes.  The dict is known by its
    interface; its values are addresses of nodes of the same heap, which is how
    the code shares the score between the two structures.

    The branches for the listpack encoding are not modelled.  The address of a
    new node, its level and floating point addition are arguments. *)

From Stdlib Require Import SpecFloat.
From stdpp Require Import gmap.
From S2P Require Import Prelude Dict DictMap Skiplist.

Module Zset.
Import Dict DictMap Skiplist.

(** Addition of scores. *)
Class ScoreAdd (T : Type) := sadd : T → T → T.
#[export] Instance double_add : ScoreAdd spec_float := SFadd 53 1024.

Definition ZADD_IN_INCR : Z := Z.shiftl 1 0.
Definition ZADD_IN_NX : Z := Z.shiftl 1 1.
Definition ZADD_IN_XX : Z := Z.shiftl 1 2.
Definition ZADD_IN_GT : Z := Z.shiftl 1 3.
Definition ZADD_IN_LT : Z := Z.shiftl 1 4.
Definition ZADD_OUT_NOP : Z := Z.shiftl 1 0.
Definition ZADD_OUT_NAN : Z := Z.shiftl 1 1.
Definition ZADD_OUT_ADDED : Z := Z.shiftl 1 2.
Definition ZADD_OUT_UPDATED : Z := Z.shiftl 1 3.

Definition flag (flags bit : Z) : bool := negb (Z.land flags bit =? 0).

(** What [zsetAdd] gives back: its value, [*out_flags], and [*newscore] if it is written. *)
Record add_result (T : Type) := mkAdd { add_ret : Z; add_flags : Z; add_newscore : option T }.
Arguments mkAdd {T}.
Arguments add_ret {T}.
Arguments add_flags {T}.
Arguments add_newscore {T}.

Section Zset.
Context {T : Type} `{Score T} `{!ScoreAdd T} {D P : Type} {api : DictApi D (list Z) address P}.

Abbreviation heap := (gmap address (zskiplistNode (T := T))).

Record zset := mkZset { zs_dict : D; zs_zsl : zskiplist }.

(** [dictCreate(&zsetDictType)] and [zslCreate()]. *)
Definition createZsetObject (h : heap) (a : address) : heap * zset :=
  let '(h, zsl) := zslCreate h a in (h, mkZset api_create zsl).

Definition zsetLength (zs : zset) : Z := zsl_length (zs_zsl zs).

(** The double a value of the dict points to. *)
Definition score_at (h : heap) (v : option address) : option T := a ← v; n ← h !! a; Some (score n).

(** [C_ERR] is [None]. *)
Definition zsetScore (h : heap) (zs : zset) (member : list Z) : option (zset * option T) :=
  '(d, de) ← api_find (zs_dict zs) member;
  let zs := mkZset d (zs_zsl zs) in
  match de with
  | None => Some (zs, None)
  | Some de => v ← api_getVal d de; v ← v; s ← score_at h (Some v); Some (zs, Some s)
  end.

(** dictAdd, through the interface: the assertion of [zsetAdd] that it succeeds. *)
Definition dict_add (d : D) (e : list Z) (a : address) : option D :=
  '(d, r) ← api_addRaw d e;
  match r with inl p => api_setVal d p a | inr _ => None end.

Definition zsetAdd (h : heap) (zs : zset) (scor : T) (el : list Z) (in_flags : Z) (lvl : nat) (a : address)
    : option (heap * zset * add_result T) :=
  let incr := flag in_flags ZADD_IN_INCR in
  let nx := flag in_flags ZADD_IN_NX in
  let xx := flag in_flags ZADD_IN_XX in
  let gt := flag in_flags ZADD_IN_GT in
  let lt := flag in_flags ZADD_IN_LT in
  if isnan scor then Some (h, zs, mkAdd 0 ZADD_OUT_NAN None)
  else
    '(d, de) ← api_find (zs_dict zs) el;
    let zs := mkZset d (zs_zsl zs) in
    match de with
    | Some de =>
        if nx then Some (h, zs, mkAdd 1 ZADD_OUT_NOP None)
        else
          v ← api_getVal d de; v ← v;
          curscore ← score_at h (Some v);
          let scor := if incr then sadd scor curscore else scor in
          if incr && isnan scor then Some (h, zs, mkAdd 0 ZADD_OUT_NAN None)
          else if (lt && sle curscore scor) || (gt && sle scor curscore) then Some (h, zs, mkAdd 1 ZADD_OUT_NOP None)
          else if negb (seq_ scor curscore) then
            '(h, zsl, znode) ← zslUpdateScore h (zs_zsl zs) curscore el scor lvl a;
            d ← api_setVal d de znode;
            Some (h, mkZset d zsl, mkAdd 1 ZADD_OUT_UPDATED (Some scor))
          else Some (h, zs, mkAdd 1 0 (Some scor))
    | None =>
        if negb xx then
          '(h, zsl, znode) ← zslInsert h (zs_zsl zs) scor el lvl a;
          d ← dict_add d el znode;
          Some (h, mkZset d zsl, mkAdd 1 ZADD_OUT_ADDED (Some scor))
        else Some (h, zs, mkAdd 1 ZADD_OUT_NOP None)
    end.

(** The entry is freed by dictFreeUnlinkedEntry, which the interface leaves to [api_unlink]. *)
Definition zsetRemoveFromSkiplist (h : heap) (zs : zset) (el : list Z) : option (heap * zset * Z) :=
  '(d, de) ← api_unlink (zs_dict zs) el;
  match de with
  | Some v =>
      s ← score_at h v;
      '(h, zsl, retval) ← zslDelete h (zs_zsl zs) s el false;
      match retval with
      | Some _ => Some (h, mkZset d zsl, 1)
      | None => None
      end
  | None => Some (h, mkZset d (zs_zsl zs), 0)
  end.

Definition zsetDel (h : heap) (zs : zset) (el : list Z) : option (heap * zset * Z) :=
  '(h, zs, removed) ← zsetRemoveFromSkiplist h zs el;
  if removed =? 0 then Some (h, zs, 0) else Some (h, zs, 1).

(** The result is [long]; [*output_score] is the second component. *)
Definition zsetRank (h : heap) (zs : zset) (el : list Z) (rev : bool) : option (zset * Z * option T) :=
  let llen := zsetLength zs in
  '(d, de) ← api_find (zs_dict zs) el;
  let zs := mkZset d (zs_zsl zs) in
  match de with
  | Some de =>
      v ← api_getVal d de; v ← v;
      s ← score_at h (Some v);
      rank ← zslGetRank h (zs_zsl zs) s el;
      if rank =? 0 then None
      else Some (zs, if rev then llen - rank else rank - 1, Some s)
  | None => Some (zs, -1, None)
  end.

(** The removals of ranges, step 3 of zremrangeGenericCommand without the pause of
    automatic resizing: the dict is the one of the set. *)
Definition dict_delete (d : D) (e : list Z) : option D := '(d, _) ← api_delete d e; Some d.

Definition removed (r : option (heap * zskiplist * D * Z)) : option (heap * zset * Z) :=
  '(h, zsl, d, n) ← r; Some (h, mkZset d zsl, n).

Definition zremrangebyscore (h : heap) (zs : zset) (range : zrangespec) : option (heap * zset * Z) :=
  removed (zslDeleteRangeByScore dict_delete h (zs_zsl zs) range (zs_dict zs)).
Definition zremrangebylex (h : heap) (zs : zset) (range : zlexrangespec) : option (heap * zset * Z) :=
  removed (zslDeleteRangeByLex dict_delete h (zs_zsl zs) range (zs_dict zs)).

(** With the indexes of the command, from 0 or negative from the end. *)
Definition zremrangebyrank (h : heap) (zs : zset) (start end_ : Z) : option (heap * zset * Z) :=
  let llen := zsetLength zs in
  let start := if start <? 0 then llen + start else start in
  let end_ := if end_ <? 0 then llen + end_ else end_ in
  let start := if start <? 0 then 0 else start in
  if (end_ <? start) || (llen <=? start) then Some (h, zs, 0)
  else
    let end_ := if llen <=? end_ then llen - 1 else end_ in
    removed (zslDeleteRangeByRank dict_delete h (zs_zsl zs) (start + 1) (end_ + 1) (zs_dict zs)).

End Zset.

Arguments zset : clear implicits.

End Zset.
