(* ===== verification/ZsetProofs.v ===== *)
(** * Sorted sets: dict and skip list in step

    [zset_repr h zs ns]: the skip list of [zs] stands for the entries [ns], and its
    dict maps each member to its node.  [scores ns] is the finite map from members
    to scores that a client sees; every operation acts on it. *)

From stdpp Require Import sorting gmap.
From S2P Require Import Prelude SdsText Dict DictMap Skiplist SkiplistOrder SkiplistRepr SkiplistLinks SkiplistProofs SkiplistInsert SkiplistDelete SkiplistUpdate SkiplistRank SkiplistRange SkiplistDeleteRange Zset.

Module ZsetProofs.
Import SdsText Dict DictMap Skiplist SkiplistOrder SkiplistRepr SkiplistLinks SkiplistProofs
  SkiplistInsert SkiplistDelete SkiplistUpdate SkiplistRank SkiplistRange SkiplistDeleteRange Zset.

(** ** Maps of the entries *)

Section Maps.
Context {T : Type} `{ScoreLaws T} {V : Type} (f : entry T → V).
Implicit Types (A B ns : list (entry T)) (n : entry T).

Definition by_member ns : gmap (list Z) V := list_to_map ((λ n, (e_ele n, f n)) <$> ns).

Lemma by_member_keys ns : ((λ n, (e_ele n, f n)) <$> ns).*1 = e_ele <$> ns.
Proof. rewrite <-list_fmap_compose. by apply list_fmap_ext. Qed.

Lemma by_member_perm ns ns' : NoDup (e_ele <$> ns) → ns ≡ₚ ns' → by_member ns = by_member ns'.
Proof. intros Hn Hp. apply list_to_map_proper; [by rewrite by_member_keys|by rewrite Hp]. Qed.

Lemma by_member_middle A n B : NoDup (e_ele <$> A ++ n :: B) →
  by_member (A ++ n :: B) = <[e_ele n := f n]> (by_member (A ++ B)) ∧ by_member (A ++ B) !! e_ele n = None.
Proof.
  intros Hn. split.
  - rewrite (by_member_perm _ (n :: A ++ B) Hn); [done|by rewrite Permutation_middle].
  - apply not_elem_of_list_to_map_1. rewrite by_member_keys.
    rewrite <-Permutation_middle, fmap_cons in Hn. by apply list.NoDup_cons in Hn as [? _].
Qed.

Lemma by_member_delete A n B : NoDup (e_ele <$> A ++ n :: B) →
  by_member (A ++ B) = delete (e_ele n) (by_member (A ++ n :: B)).
Proof. intros Hn. destruct (by_member_middle A n B Hn) as [-> HN]. by rewrite delete_insert_id. Qed.

Lemma by_member_Some ns e v : by_member ns !! e = Some v → ∃ A n B, ns = A ++ n :: B ∧ e_ele n = e ∧ v = f n.
Proof.
  intros Hl%elem_of_list_to_map_2. apply list_elem_of_fmap in Hl as (n & [= -> ->] & Hn).
  apply list_elem_of_split in Hn as (A & B & ->). by exists A, n, B.
Qed.
Lemma by_member_None ns e : by_member ns !! e = None → ∀ n, n ∈ ns → e_ele n ≠ e.
Proof.
  intros Hl%not_elem_of_list_to_map_2 n Hn <-. rewrite by_member_keys in Hl. apply Hl. by apply list_elem_of_fmap_2.
Qed.
Lemma by_member_elem ns n : NoDup (e_ele <$> ns) → n ∈ ns → by_member ns !! e_ele n = Some (f n).
Proof.
  intros Hn (A & B & ->)%list_elem_of_split. destruct (by_member_middle A n B Hn) as [-> _]. by rewrite lookup_insert_eq.
Qed.

Lemma by_member_size ns : NoDup (e_ele <$> ns) → size (by_member ns) = length ns.
Proof.
  induction ns as [|n ns IH]; intros Hn; [done|].
  destruct (by_member_middle [] n ns Hn) as [E HN]. simpl app in *. rewrite E, map_size_insert_None by done.
  rewrite fmap_cons in Hn. apply list.NoDup_cons in Hn as [_ Hn]. simpl. by rewrite IH.
Qed.

(** A selection of entries by member and value. *)
Lemma by_member_filter (p : list Z → V → bool) ns : NoDup (e_ele <$> ns) →
  by_member (List.filter (λ n, p (e_ele n) (f n)) ns) = filter (λ x, p x.1 x.2 = true) (by_member ns).
Proof.
  induction ns as [|n ns IH]; intros Hn; [unfold by_member; simpl; by rewrite map_filter_empty|].
  destruct (by_member_middle [] n ns Hn) as [E HN]. simpl app in *. rewrite E.
  assert (NoDup (e_ele <$> ns)) as Hn' by (rewrite fmap_cons in Hn; by apply list.NoDup_cons in Hn as [_ ?]).
  simpl. destruct (p (e_ele n) (f n)) eqn:Ep.
  - rewrite map_filter_insert_True by done. rewrite <-IH by done. done.
  - rewrite map_filter_insert_False by (simpl; congruence). rewrite delete_id by done. by apply IH.
Qed.

End Maps.

Section Zset.
Context {T : Type} {Sc : Score T} {SL : ScoreLaws T} `{!ScoreAdd T}.
Context {D P : Type} {api : DictApi D (list Z) address P} {laws : DictLaws api (λ k : list Z, k) (λ v : address, v)}.
Implicit Types (h : gmap address (zskiplistNode (T := T))) (A B ns : list (entry T)) (n : entry T) (zs : zset D).

Definition members ns : gmap (list Z) (option address) := by_member (λ n, Some (e_ptr n)) ns.
Definition scores ns : gmap (list Z) T := by_member e_score ns.

Record zset_repr h (zs : zset D) ns : Prop := {
  zr_list : repr h (zs_zsl zs) ns;
  zr_valid : valid (zs_dict zs);
  zr_map : as_map (zs_dict zs) = members ns;
  zr_nodup : NoDup (e_ele <$> ns)
}.

(** Addresses outside the set. *)
Definition others zs ns h h' : Prop := ∀ p, foreign (zs_zsl zs) ns p → h' !! p = h !! p.

Lemma create_repr h a h' zs : createZsetObject h a = (h', zs) →
  zset_repr h' zs [] ∧ ∀ p, p ≠ a → h' !! p = h !! p.
Proof using laws SL.
  unfold createZsetObject. destruct (zslCreate h a) as [h1 zsl] eqn:E. intros [= <- <-].
  destruct (zslCreate_repr _ _ _ _ E) as [Hr Ho]. split; [|done]. destruct law_create as [Hv Hm].
  split; simpl; [done|done|by rewrite Hm|constructor].
Qed.

(** ** Looking a member up in the dict *)

Lemma middle_unique A n B : NoDup (e_ele <$> A ++ n :: B) → ∀ m, m ∈ A ++ B → e_ele m ≠ e_ele n.
Proof.
  intros Hn m Hm E. rewrite <-Permutation_middle, fmap_cons in Hn. apply list.NoDup_cons in Hn as [Hn _].
  apply Hn. rewrite <-E. by apply list_elem_of_fmap_2.
Qed.

(** What the dict says of a member, and the score its value leads to. *)
Lemma members_spec h zs ns e : zset_repr h zs ns →
  match members ns !! e with
  | Some v => ∃ A n B, ns = A ++ n :: B ∧ e_ele n = e ∧ v = Some (e_ptr n) ∧ scores ns !! e = Some (e_score n) ∧
                       score_at h v = Some (e_score n)
  | None => scores ns !! e = None ∧ ∀ n, n ∈ ns → e_ele n ≠ e
  end.
Proof.
  intros [Hr _ _ Hn]. destruct (members ns !! e) as [v|] eqn:E.
  - destruct (by_member_Some _ _ _ _ E) as (A & n & B & -> & <- & ->). exists A, n, B. split_and!; [done..| |].
    + apply by_member_elem; [done|]. apply elem_of_app. right. by left.
    + destruct (node_here _ _ _ _ _ Hr) as (nd & Hnd & _ & Hs & _). unfold score_at. simpl. rewrite Hnd. simpl. by rewrite Hs.
  - pose proof (by_member_None _ _ _ E) as HN. split; [|done].
    destruct (scores ns !! e) as [s|] eqn:Es; [|done]. destruct (by_member_Some _ _ _ _ Es) as (A & n & B & -> & He & _).
    exfalso. apply (HN n); [apply elem_of_app; right; by left|done].
Qed.

(** dictFind and dictGetVal. *)
Lemma zset_find_spec h zs ns e : zset_repr h zs ns →
  ∃ d r, api_find (zs_dict zs) e = Some (d, r) ∧ zset_repr h (mkZset d (zs_zsl zs)) ns ∧
    match r with
    | Some p => points d p e ∧ ∃ A n B, ns = A ++ n :: B ∧ e_ele n = e ∧ api_getVal d p = Some (Some (e_ptr n)) ∧
        scores ns !! e = Some (e_score n) ∧ score_at h (Some (e_ptr n)) = Some (e_score n)
    | None => scores ns !! e = None ∧ ∀ n, n ∈ ns → e_ele n ≠ e
    end.
Proof using laws SL.
  intros Hz. pose proof (members_spec h zs ns e Hz) as Hm. destruct Hz as [Hr Hv Hmap Hn].
  destruct (law_find (zs_dict zs) e Hv) as (d & r & E & Hv' & Hmap' & Hp). exists d, r. split; [done|]. split.
  { split; simpl; [done|done|congruence|done]. }
  rewrite Hmap in Hmap', Hp. destruct r as [p|].
  - split; [done|]. pose proof (law_points d p _ Hv' Hp) as [v Hv0]. pose proof (law_getVal d p _ Hv' Hp) as Hg.
    rewrite Hmap' in Hv0, Hg. rewrite Hv0 in Hg, Hm. destruct Hm as (A & n & B & ? & ? & -> & ? & ?).
    exists A, n, B. by rewrite Hg.
  - by rewrite Hp in Hm.
Qed.

(** ** The scores of a list of entries after each operation *)

Lemma scores_insert A n B : NoDup (e_ele <$> A ++ n :: B) → scores (A ++ n :: B) = <[e_ele n := e_score n]> (scores (A ++ B)).
Proof. intros Hn. by destruct (by_member_middle e_score A n B Hn). Qed.

Lemma nodup_insert A n B : NoDup (e_ele <$> A ++ B) → (∀ m, m ∈ A ++ B → e_ele m ≠ e_ele n) → NoDup (e_ele <$> A ++ n :: B).
Proof.
  intros Hn Hne. rewrite <-Permutation_middle, fmap_cons. apply list.NoDup_cons. split; [|done].
  intros (m & E & Hm)%list_elem_of_fmap. by apply (Hne m Hm).
Qed.
Lemma nodup_delete A n B : NoDup (e_ele <$> A ++ n :: B) → NoDup (e_ele <$> A ++ B).
Proof. rewrite <-Permutation_middle, fmap_cons. by intros [_ ?]%list.NoDup_cons. Qed.

(** ** [zsetScore] and [zsetLength] *)

Lemma zsetScore_spec h zs ns e : zset_repr h zs ns →
  ∃ zs', zsetScore h zs e = Some (zs', scores ns !! e) ∧ zset_repr h zs' ns.
Proof using laws SL.
  intros Hz. destruct (zset_find_spec h zs ns e Hz) as (d & r & E & Hz' & Hp).
  exists (mkZset d (zs_zsl zs)). split; [|done]. unfold zsetScore. rewrite E. cbn [mbind option_bind].
  destruct r as [p|]; [|by rewrite (proj1 Hp)].
  destruct Hp as (_ & A & n & B & _ & _ & -> & -> & Hs). cbn [mbind option_bind]. by rewrite Hs.
Qed.

Lemma zsetLength_spec h zs ns : zset_repr h zs ns → zsetLength zs = Z.of_nat (size (scores ns)).
Proof.
  intros Hz. unfold zsetLength. rewrite (r_length _ _ _ (zr_list _ _ _ Hz)).
  unfold scores. rewrite by_member_size by apply Hz. done.
Qed.

(** ** [zsetAdd] *)

(** The effect on the map from members to scores. *)
Definition zadd_spec (m : gmap (list Z) T) (scor : T) (el : list Z) (in_flags : Z) : gmap (list Z) T * add_result T :=
  if isnan scor then (m, mkAdd 0 ZADD_OUT_NAN None)
  else
    match m !! el with
    | Some cur =>
        let scor := if flag in_flags ZADD_IN_INCR then sadd scor cur else scor in
        if flag in_flags ZADD_IN_NX then (m, mkAdd 1 ZADD_OUT_NOP None)
        else if flag in_flags ZADD_IN_INCR && isnan scor then (m, mkAdd 0 ZADD_OUT_NAN None)
        else if (flag in_flags ZADD_IN_LT && sle cur scor) || (flag in_flags ZADD_IN_GT && sle scor cur)
        then (m, mkAdd 1 ZADD_OUT_NOP None)
        else if seq_ scor cur then (m, mkAdd 1 0 (Some scor))
        else (<[el := scor]> m, mkAdd 1 ZADD_OUT_UPDATED (Some scor))
    | None =>
        if flag in_flags ZADD_IN_XX then (m, mkAdd 1 ZADD_OUT_NOP None)
        else (<[el := scor]> m, mkAdd 1 ZADD_OUT_ADDED (Some scor))
    end.

(** The dict and the list move together when an entry is replaced or added. *)
Lemma repr_with h h' zs zsl' d' A n B : zset_repr h zs (A ++ B) → repr h' zsl' (A ++ n :: B) →
  (∀ m, m ∈ A ++ B → e_ele m ≠ e_ele n) → valid d' → as_map d' = <[e_ele n := Some (e_ptr n)]> (members (A ++ B)) →
  zset_repr h' (mkZset d' zsl') (A ++ n :: B).
Proof.
  intros Hz Hr Hne Hv Hm. assert (NoDup (e_ele <$> A ++ n :: B)) as Hn by (apply nodup_insert; [apply Hz|done]).
  split; simpl; [done|done| |done]. rewrite Hm. unfold members. by destruct (by_member_middle (λ n, Some (e_ptr n)) A n B Hn) as [-> _].
Qed.

Lemma add_new h zs ns scor el lvl a : zset_repr h zs ns → (∀ n, n ∈ ns → e_ele n ≠ el) → isnan scor = false →
  (1 ≤ lvl ≤ ZSKIPLIST_MAXLEVEL)%nat → h !! a = None →
  ∃ h' zsl' d' ns', zslInsert h (zs_zsl zs) scor el lvl a = Some (h', zsl', a) ∧ dict_add (zs_dict zs) el a = Some d' ∧
    zset_repr h' (mkZset d' zsl') ns' ∧ scores ns' = <[el := scor]> (scores ns) ∧
    (∀ p, foreign (zs_zsl zs) ns p → p ≠ a → h' !! p = h !! p).
Proof using laws SL.
  intros Hz Hne Hs Hlvl Ha.
  destruct (zslInsert_spec h (zs_zsl zs) ns scor el lvl a (zr_list _ _ _ Hz) Hs) as (A & B & h' & zsl' & -> & E & Hr' & _ & _ & _ & Ho);
    [|done|done|].
  { intros n Hn. apply not_true_is_false. intros [_ Ee]%keq_spec. by apply (Hne n). }
  destruct (law_addRaw (zs_dict zs) el (zr_valid _ _ _ Hz)) as (d1 & r & E1 & Hv1 & Hp1).
  assert (as_map (zs_dict zs) !! el = None) as HN.
  { rewrite (zr_map _ _ _ Hz). destruct (members (A ++ B) !! el) as [v|] eqn:Ev; [|done].
    destruct (by_member_Some _ _ _ _ Ev) as (A' & n & B' & Eq & He & _). exfalso. apply (Hne n); [|done].
    rewrite Eq. apply elem_of_app. right. by left. }
  destruct r as [p|p].
  - destruct Hp1 as (Hpt & _ & Hm1). destruct (law_setVal d1 p el a Hv1 Hpt) as (d2 & E2 & Hv2 & Hm2).
    exists h', zsl', d2, (A ++ mkEntry a lvl scor el :: B). split_and!; [done| | | |done].
    + unfold dict_add. by rewrite E1.
    + apply (repr_with h h' zs); [done|done|done|done|]. rewrite Hm2, Hm1, insert_insert_eq, (zr_map _ _ _ Hz). done.
    + apply (scores_insert A (mkEntry a lvl scor el) B). apply nodup_insert; [apply Hz|done].
  - destruct Hp1 as (Hpt & Hm1). destruct (law_points d1 p el Hv1 Hpt) as [v Hv]. congruence.
Qed.

Lemma update_old h zs A n B p scor lvl a : zset_repr h zs (A ++ n :: B) → points (zs_dict zs) p (e_ele n) → isnan scor = false →
  (1 ≤ lvl ≤ ZSKIPLIST_MAXLEVEL)%nat → h !! a = None →
  ∃ h' zsl' y d' ns', zslUpdateScore h (zs_zsl zs) (e_score n) (e_ele n) scor lvl a = Some (h', zsl', y) ∧
    api_setVal (zs_dict zs) p y = Some d' ∧
    zset_repr h' (mkZset d' zsl') ns' ∧ scores ns' = <[e_ele n := scor]> (scores (A ++ n :: B)) ∧
    (∀ p, foreign (zs_zsl zs) (A ++ n :: B) p → p ≠ a → h' !! p = h !! p).
Proof using laws SL.
  intros Hz Hp Hs Hlvl Ha. pose proof (zr_list _ _ _ Hz) as Hr. pose proof (zr_nodup _ _ _ Hz) as Hn.
  assert (isnan (e_score n) = false) as Hns.
  { pose proof (r_real _ _ _ Hr) as [_ Hx%Forall_inv]%Forall_app. done. }
  destruct (zslUpdateScore_spec h (zs_zsl zs) A n B (e_score n) (e_ele n) scor lvl a Hr Hns Hs) as
    (h' & zsl' & A' & n' & B' & E & EAB & Ek & Hr' & _ & _ & Ho); [by apply keq_refl|by apply middle_unique|done|done|].
  injection Ek as Ek1 Ek2.
  destruct (law_setVal (zs_dict zs) p _ (e_ptr n') (zr_valid _ _ _ Hz) Hp) as (d' & E' & Hv' & Hm').
  assert (NoDup (e_ele <$> A' ++ n' :: B')) as Hn'.
  { apply nodup_insert; rewrite <-EAB; [by eapply nodup_delete|]. rewrite Ek2. by apply middle_unique. }
  exists h', zsl', (e_ptr n'), d', (A' ++ n' :: B'). split_and!; [done|done| | |done].
  - split; simpl; [done|done| |done]. rewrite Hm', (zr_map _ _ _ Hz). unfold members.
    rewrite (proj1 (by_member_middle _ A n B Hn)), (proj1 (by_member_middle _ A' n' B' Hn')), insert_insert_eq, Ek2, EAB. done.
  - rewrite (scores_insert A' n' B' Hn'), (scores_insert A n B Hn), insert_insert_eq, Ek1, Ek2, EAB. done.
Qed.

Lemma zsetAdd_spec h zs ns scor el in_flags lvl a : zset_repr h zs ns →
  (1 ≤ lvl ≤ ZSKIPLIST_MAXLEVEL)%nat → h !! a = None →
  ∃ h' zs' ns', zsetAdd h zs scor el in_flags lvl a = Some (h', zs', snd (zadd_spec (scores ns) scor el in_flags)) ∧
    zset_repr h' zs' ns' ∧ scores ns' = fst (zadd_spec (scores ns) scor el in_flags) ∧
    (∀ p, foreign (zs_zsl zs) ns p → p ≠ a → h' !! p = h !! p).
Proof using laws SL.
  intros Hz Hlvl Ha. unfold zsetAdd, zadd_spec. destruct (isnan scor) eqn:Es; [by exists h, zs, ns|].
  destruct (zset_find_spec h zs ns el Hz) as (d & r & E & Hz' & Hp). rewrite E. cbn [mbind option_bind].
  destruct r as [p|].
  - destruct Hp as (Hpt & A & n & B & -> & <- & Hg & Hsc & Hat). rewrite Hsc.
    destruct (flag in_flags ZADD_IN_NX) eqn:Enx; [by eexists h, _, _|].
    rewrite Hg. cbn [mbind option_bind]. rewrite Hat. cbn [mbind option_bind].
    set (sc := if flag in_flags ZADD_IN_INCR then sadd scor (e_score n) else scor).
    destruct (flag in_flags ZADD_IN_INCR && isnan sc) eqn:En; [by eexists h, _, _|].
    case_match; [by eexists h, _, _|].
    assert (isnan sc = false) as Esc.
    { unfold sc in *. destruct (flag in_flags ZADD_IN_INCR); [done|done]. }
    destruct (seq_ sc (e_score n)) eqn:Eq; simpl negb; cbv iota; [by eexists h, _, _|].
    destruct (update_old h _ A n B p sc lvl a Hz' Hpt Esc Hlvl Ha) as (h' & zsl' & y & d' & ns' & E1 & E2 & Hz2 & Hs2 & Ho2).
    simpl zs_zsl in E1. simpl zs_dict in E2. simpl zs_zsl. rewrite E1. cbn [mbind option_bind]. rewrite E2.
    by exists h', (mkZset d' zsl'), ns'.
  - destruct Hp as [HN Hne]. rewrite HN. destruct (flag in_flags ZADD_IN_XX); simpl negb; cbv iota; [by eexists h, _, _|].
    destruct (add_new h _ ns scor el lvl a Hz' Hne Es Hlvl Ha) as (h' & zsl' & d' & ns' & E1 & E2 & Hz2 & Hs2 & Ho2).
    simpl zs_zsl in E1. simpl zs_dict in E2. simpl zs_zsl. rewrite E1. cbn [mbind option_bind]. rewrite E2.
    by exists h', (mkZset d' zsl'), ns'.
Qed.

(** ** [zsetDel] *)

Lemma zsetDel_spec h zs ns el : zset_repr h zs ns →
  ∃ h' zs' ns', zsetDel h zs el = Some (h', zs', if scores ns !! el is Some _ then 1 else 0) ∧
    zset_repr h' zs' ns' ∧ scores ns' = delete el (scores ns) ∧ others zs ns h h'.
Proof using laws SL.
  intros Hz. pose proof (members_spec h zs ns el Hz) as Hm. pose proof Hz as [Hr Hv Hmap Hn].
  destruct (law_unlink (zs_dict zs) el Hv) as (d & E & Hv' & Hmap'). rewrite Hmap in E, Hmap'.
  unfold zsetDel, zsetRemoveFromSkiplist. rewrite E. cbn [mbind option_bind].
  destruct (members ns !! el) as [v|] eqn:Ev.
  - destruct Hm as (A & n & B & -> & <- & -> & -> & Hat). rewrite Hat. cbn [mbind option_bind].
    pose proof (r_real _ _ _ Hr) as Hreal. assert (isnan (e_score n) = false) as Hns.
    { by apply Forall_app in Hreal as [_ Hx%Forall_inv]. }
    destruct (zslDelete_spec h (zs_zsl zs) _ (e_score n) (e_ele n) false Hr Hns) as
      [(A' & n' & B' & h' & zsl' & EAB & Hk & Hu & -> & Hr' & _ & Ho & _)|[Hno _]].
    2: { exfalso. assert (keq (e_key n) (e_key n) = false) as Hf by (apply Hno, elem_of_app; right; by left).
         by rewrite keq_refl in Hf. }
    cbn [mbind option_bind]. exists h', (mkZset d zsl'), (A' ++ B'). split_and!; [done| | |done].
    + rewrite EAB in Hn. assert (e_ele n' = e_ele n) as Ee by by apply keq_spec in Hk as [_ ?].
      split; simpl; [done|done| |by eapply nodup_delete].
      rewrite Hmap', EAB, <-Ee. unfold members. by rewrite <-by_member_delete.
    + rewrite EAB in Hn |- *. assert (e_ele n' = e_ele n) as <- by by apply keq_spec in Hk as [_ ?].
      unfold scores. by rewrite <-by_member_delete.
  - destruct Hm as [HN Hne]. rewrite HN. exists h, (mkZset d (zs_zsl zs)), ns. split_and!; [done| |by rewrite delete_id|done].
    split; simpl; [done|done| |done]. by rewrite Hmap', delete_id.
Qed.

(** ** [zsetRank] *)

(** How many entries of a map come before a key. *)
Definition before (m : gmap (list Z) T) (k : T * list Z) : gmap (list Z) T := filter (λ x, klt (x.2, x.1) k = true) m.

Lemma before_size A n B : NoDup (e_ele <$> A ++ n :: B) → ordered (A ++ n :: B) →
  size (before (scores (A ++ n :: B)) (e_key n)) = length A.
Proof.
  intros Hn (HA & HB & HAB)%ordered_app.
  unfold before, scores. rewrite <-(by_member_filter e_score (λ e s, klt (s, e) (e_key n))) by done.
  change (λ n0, klt (e_score n0, e_ele n0) (e_key n)) with (λ n0, klt (e_key n0) (e_key n)).
  rewrite List.filter_app, filter_all_true, filter_all_false.
  - rewrite app_nil_r, by_member_size; [done|]. rewrite fmap_app in Hn. by apply list.NoDup_app in Hn as [? _].
  - constructor; [by apply klt_irrefl|]. apply StronglySorted_inv in HB as [_ HB].
    eapply list.Forall_impl; [apply HB|]. intros m Hm. by apply klt_asym.
  - apply list.Forall_forall. intros m Hm. apply HAB; [done|by left].
Qed.

Lemma zrank_middle A n B : ordered (A ++ n :: B) → isnan (e_score n) = false → zrank (e_key n) (zkeys (A ++ n :: B)) = zlen A + 1.
Proof.
  intros (HA & HB & HAB)%ordered_app Hn. unfold zrank, zkeys. rewrite fmap_app. simpl.
  rewrite (proj2 (list_find_Some _ _ (length A) (e_key n))); [done|]. split_and!.
  - rewrite lookup_app_r; rewrite length_fmap; [by rewrite Nat.sub_diag|lia].
  - by apply keq_refl.
  - intros j y Hj Hlt. rewrite lookup_app_l in Hj by by rewrite length_fmap.
    rewrite list_lookup_fmap in Hj. apply fmap_Some in Hj as (m & Hm & ->).
    rewrite (klt_keq _ _ (HAB m n (list_elem_of_lookup_2 _ _ _ Hm) ltac:(by left))). done.
Qed.

Definition zrank_spec (m : gmap (list Z) T) (el : list Z) (rev : bool) : Z * option T :=
  match m !! el with
  | None => (-1, None)
  | Some s =>
      let rank := Z.of_nat (size (before m (s, el))) in
      (if rev then Z.of_nat (size m) - 1 - rank else rank, Some s)
  end.

Lemma zsetRank_spec h zs ns el rev : zset_repr h zs ns →
  ∃ zs', zsetRank h zs el rev = Some (zs', (zrank_spec (scores ns) el rev).1, (zrank_spec (scores ns) el rev).2) ∧
    zset_repr h zs' ns.
Proof using laws SL.
  intros Hz. destruct (zset_find_spec h zs ns el Hz) as (d & r & E & Hz' & Hp).
  exists (mkZset d (zs_zsl zs)). split; [|done]. unfold zsetRank, zrank_spec. rewrite E. cbn [mbind option_bind].
  destruct r as [p|]; [|by rewrite (proj1 Hp)].
  destruct Hp as (_ & A & n & B & -> & <- & -> & -> & Hat). cbn [mbind option_bind]. rewrite Hat. cbn [mbind option_bind].
  pose proof (zr_list _ _ _ Hz) as Hr. assert (isnan (e_score n) = false) as Hns.
  { by pose proof (r_real _ _ _ Hr) as [_ Hx%Forall_inv]%Forall_app. }
  simpl zs_zsl. rewrite (zslGetRank_spec _ _ _ _ _ Hr Hns). cbn [mbind option_bind].
  change (e_score n, e_ele n) with (e_key n). rewrite zrank_middle by (done || apply Hr).
  rewrite before_size by (apply Hz || apply Hr). rewrite (zsetLength_spec _ _ _ Hz).
  pose proof (zlen_nonneg A). case_if; zb; [lia|]. fold (zlen A).
  destruct rev; simpl; [by rewrite <-Z.sub_add_distr, (Z.add_comm 1)|by rewrite Z.add_simpl_r].
Qed.

(** ** The removals of ranges *)

Lemma dict_delete_all d ns ns' : valid d → as_map d = members (ns ++ ns') → NoDup (e_ele <$> ns ++ ns') →
  ∃ d', delete_all dict_delete d (e_ele <$> ns) = Some d' ∧ valid d' ∧ as_map d' = members ns'.
Proof using laws SL.
  revert d. induction ns as [|n ns IH]; intros d Hv Hm Hn; simpl; [by exists d|].
  destruct (law_delete d (e_ele n) Hv) as (d1 & E & Hv1 & Hm1). 
  assert (dict_delete d (e_ele n) = Some d1) as -> by (unfold dict_delete; by rewrite E). cbn [mbind option_bind].
  apply IH; [done| |simpl in Hn; by apply list.NoDup_cons in Hn as [_ ?]].
  rewrite Hm1, Hm. unfold members. by rewrite <-(by_member_delete _ [] n (ns ++ ns')).
Qed.

Lemma filter_partition (p : entry T → bool) ns : ns ≡ₚ List.filter p ns ++ List.filter (λ n, negb (p n)) ns.
Proof.
  induction ns as [|n ns IH]; simpl; [done|]. destruct (p n); simpl; [by rewrite <-IH|].
  rewrite <-Permutation_middle. by rewrite <-IH.
Qed.

(** The set after the entries of [gone] have left, [kept] being the others. *)
Lemma removed_spec h zs ns gone kept : zset_repr h zs ns → ns ≡ₚ gone ++ kept →
  ∃ d', delete_all dict_delete (zs_dict zs) (e_ele <$> gone) = Some d' ∧
    ∀ h' zsl', repr h' zsl' kept → zset_repr h' (mkZset d' zsl') kept.
Proof using laws SL.
  intros [Hr Hv Hmap Hn] Hp.
  assert (NoDup (e_ele <$> gone ++ kept)) as Hn' by by rewrite <-Hp.
  destruct (dict_delete_all (zs_dict zs) gone kept Hv) as (d' & E & Hv' & Hm'); [|done|].
  { rewrite Hmap. by apply by_member_perm. }
  exists d'. split; [done|]. intros h' zsl' Hr'. split; simpl; [done..|].
  rewrite fmap_app in Hn'. by apply list.NoDup_app in Hn' as (_ & _ & ?).
Qed.

(** By score: the scores in the range leave. *)
Definition score_in (range : zrangespec (T := T)) (s : T) : bool := zslValueGteMin s range && zslValueLteMax s range.

Lemma zremrangebyscore_spec h zs ns range : zset_repr h zs ns →
  ∃ h' zs' ns', zremrangebyscore h zs range =
      Some (h', zs', Z.of_nat (size (filter (λ x, score_in range x.2 = true) (scores ns)))) ∧
    zset_repr h' zs' ns' ∧ scores ns' = filter (λ x, negb (score_in range x.2) = true) (scores ns) ∧ others zs ns h h'.
Proof using laws SL.
  intros Hz. pose proof (zr_nodup _ _ _ Hz) as Hn.
  destruct (removed_spec h zs ns _ _ Hz (filter_partition (in_range range) ns)) as (d' & Hd & Hafter).
  destruct (zslDeleteRangeByScore_spec dict_delete h (zs_zsl zs) ns range (zs_dict zs) d' (zr_list _ _ _ Hz) Hd)
    as (h' & zsl' & E & Hr' & _ & Ho).
  exists h', (mkZset d' zsl'), (List.filter (λ n, negb (in_range range n)) ns). split_and!; [|by apply Hafter| |done].
  - unfold zremrangebyscore. rewrite E. simpl. do 3 f_equal.
    unfold scores. rewrite <-(by_member_filter e_score (λ _ s, score_in range s)) by done.
    rewrite by_member_size; [done|].
    assert (NoDup (e_ele <$> List.filter (in_range range) ns ++ List.filter (λ n, negb (in_range range n)) ns)) as Hn'
      by by rewrite <-filter_partition.
    rewrite fmap_app in Hn'. by apply list.NoDup_app in Hn' as [? _].
  - unfold scores. by rewrite <-(by_member_filter e_score (λ _ s, negb (score_in range s))).
Qed.

End Zset.

End ZsetProofs.
