(* ===== verification/ZsetHistory.v ===== *)
(** * Sorted sets: histories, and the theorems of the skip list

    Any sequence of commands on a new sorted set is answered as a finite map from
    members to scores would answer it.  The second part states what the skip list
    promises on its own: every list it can represent, at any level structure. *)

From Stdlib Require Import SpecFloat.
From stdpp Require Import sorting gmap.
From S2P Require Import Prelude SdsText Dict DictProofs DictMap Skiplist SkiplistOrder SkiplistRepr SkiplistLinks SkiplistProofs SkiplistInsert SkiplistDelete SkiplistUpdate SkiplistRank SkiplistRange SkiplistNth SkiplistDeleteRange Zset ZsetProofs.

Module ZsetHistory.
Import SdsText Dict DictProofs DictMap Skiplist SkiplistOrder SkiplistRepr SkiplistLinks SkiplistProofs
  SkiplistInsert SkiplistDelete SkiplistUpdate SkiplistRank SkiplistRange SkiplistNth SkiplistDeleteRange Zset ZsetProofs.

Section History.
Context {T : Type} {Sc : Score T} {SL : ScoreLaws T} `{!ScoreAdd T}.
Context {D P : Type} {api : DictApi D (list Z) address P} {laws : DictLaws api (λ k : list Z, k) (λ v : address, v)}.

Abbreviation heap := (gmap address (zskiplistNode (T := T))).

(** The allocator returns addresses that are free. *)
Context (malloc : heap → address) (Hmalloc : ∀ h, h !! malloc h = None).

(** Commands; an addition comes with what [random] is going to return. *)
Inductive zop :=
  | ZAdd (scor : T) (el : list Z) (in_flags : Z) (randoms : list Z)
  | ZDel (el : list Z)
  | ZScore (el : list Z)
  | ZRank (el : list Z) (rev : bool)
  | ZCard
  | ZRemRangeByScore (range : zrangespec (T := T)).

Inductive zanswer :=
  | AnsAdd (r : add_result T)
  | AnsScore (s : option T)
  | AnsRank (r : Z) (s : option T)
  | AnsInt (n : Z).

Definition zexec (h : heap) (zs : zset D) (op : zop) : option (heap * zset D * zanswer) :=
  match op with
  | ZAdd scor el fl rs =>
      '(lvl, _) ← zslRandomLevel rs 1;
      '(h, zs, r) ← zsetAdd h zs scor el fl lvl (malloc h);
      Some (h, zs, AnsAdd r)
  | ZDel el => '(h, zs, r) ← zsetDel h zs el; Some (h, zs, AnsInt r)
  | ZScore el => '(zs, s) ← zsetScore h zs el; Some (h, zs, AnsScore s)
  | ZRank el rev => '(zs, r, s) ← zsetRank h zs el rev; Some (h, zs, AnsRank r s)
  | ZCard => Some (h, zs, AnsInt (zsetLength zs))
  | ZRemRangeByScore range => '(h, zs, n) ← zremrangebyscore h zs range; Some (h, zs, AnsInt n)
  end.

Fixpoint zrun (h : heap) (zs : zset D) (ops : list zop) : option (heap * zset D * list zanswer) :=
  match ops with
  | [] => Some (h, zs, [])
  | op :: ops =>
      '(h, zs, a) ← zexec h zs op;
      '(h, zs, l) ← zrun h zs ops;
      Some (h, zs, a :: l)
  end.

(** The same on a map from members to scores. *)
Definition zspec (m : gmap (list Z) T) (op : zop) : gmap (list Z) T * zanswer :=
  match op with
  | ZAdd scor el fl _ => let '(m', r) := zadd_spec m scor el fl in (m', AnsAdd r)
  | ZDel el => (delete el m, AnsInt (if m !! el is Some _ then 1 else 0))
  | ZScore el => (m, AnsScore (m !! el))
  | ZRank el rev => (m, AnsRank (zrank_spec m el rev).1 (zrank_spec m el rev).2)
  | ZCard => (m, AnsInt (Z.of_nat (size m)))
  | ZRemRangeByScore range =>
      (filter (λ x, negb (score_in range x.2) = true) m, AnsInt (Z.of_nat (size (filter (λ x, score_in range x.2 = true) m))))
  end.

Fixpoint zspec_run (m : gmap (list Z) T) (ops : list zop) : gmap (list Z) T * list zanswer :=
  match ops with
  | [] => (m, [])
  | op :: ops => let '(m, a) := zspec m op in let '(m, l) := zspec_run m ops in (m, a :: l)
  end.

(** [random] returns a number above the threshold after finitely many calls. *)
Definition zop_ok (op : zop) : Prop :=
  match op with ZAdd _ _ _ rs => Exists (λ r, random_threshold <= r) rs | _ => True end.

Lemma random_level_spec rs lvl : (1 ≤ lvl)%nat → Exists (λ r, random_threshold <= r) rs →
  ∃ l rest, zslRandomLevel rs lvl = Some (l, rest) ∧ (1 ≤ l ≤ ZSKIPLIST_MAXLEVEL)%nat.
Proof.
  intros Hl He. revert lvl Hl. induction rs as [|r rs IH]; intros lvl Hl; [by apply Exists_nil in He|].
  simpl. destruct (r <? random_threshold) eqn:Er; zb.
  - apply Exists_cons in He as [He|He]; [lia|]. apply IH; [done|lia].
  - eexists _, _. split; [done|]. destruct (lvl <? ZSKIPLIST_MAXLEVEL)%nat eqn:E.
    + apply Nat.ltb_lt in E. lia.
    + unfold ZSKIPLIST_MAXLEVEL. lia.
Qed.

Lemma zexec_refines h zs ns op : zset_repr h zs ns → zop_ok op →
  ∃ h' zs' ns', zexec h zs op = Some (h', zs', (zspec (scores ns) op).2) ∧ zset_repr h' zs' ns' ∧
    scores ns' = (zspec (scores ns) op).1.
Proof using laws SL Hmalloc.
  intros Hz Hop. destruct op as [scor el fl rs|el|el|el rev| |range]; simpl.
  - destruct (random_level_spec rs 1) as (l & rest & -> & Hl); [done|done|]. cbn [mbind option_bind].
    destruct (zsetAdd_spec h zs ns scor el fl l (malloc h) Hz Hl (Hmalloc h)) as (h' & zs' & ns' & -> & Hz' & Hs & _).
    cbn [mbind option_bind]. exists h', zs', ns'. by destruct (zadd_spec (scores ns) scor el fl).
  - destruct (zsetDel_spec h zs ns el Hz) as (h' & zs' & ns' & -> & Hz' & Hs & _). by exists h', zs', ns'.
  - destruct (zsetScore_spec h zs ns el Hz) as (zs' & -> & Hz'). by exists h, zs', ns.
  - destruct (zsetRank_spec h zs ns el rev Hz) as (zs' & -> & Hz'). by exists h, zs', ns.
  - exists h, zs, ns. by rewrite (zsetLength_spec _ _ _ Hz).
  - destruct (zremrangebyscore_spec h zs ns range Hz) as (h' & zs' & ns' & -> & Hz' & Hs & _). by exists h', zs', ns'.
Qed.

Lemma zrun_refines ops h zs ns : zset_repr h zs ns → Forall zop_ok ops →
  ∃ h' zs' ns', zrun h zs ops = Some (h', zs', (zspec_run (scores ns) ops).2) ∧ zset_repr h' zs' ns' ∧
    scores ns' = (zspec_run (scores ns) ops).1.
Proof using laws SL Hmalloc.
  revert h zs ns. induction ops as [|op ops IH]; intros h zs ns Hz Hf; [by exists h, zs, ns|].
  apply list.Forall_cons in Hf as [Ho Hf]. simpl.
  destruct (zexec_refines h zs ns op Hz Ho) as (h1 & zs1 & ns1 & -> & Hz1 & Hs1).
  destruct (zspec (scores ns) op) as [m a]. simpl in *. cbn [mbind option_bind].
  destruct (IH h1 zs1 ns1 Hz1 Hf) as (h2 & zs2 & ns2 & -> & Hz2 & Hs2). rewrite Hs1 in *.
  destruct (zspec_run m ops) as [m' l]. by exists h2, zs2, ns2.
Qed.

(** (C3) Whole histories of a sorted set, in the skip list encoding: from
    createZsetObject, any sequence of ZADDs with any flags, ZREMs, ZSCOREs, ZRANKs,
    ZCARDs and ZREMRANGEBYSCOREs runs without an invalid access or a failed
    assertion, whatever levels the random numbers give, and is answered as by a
    finite map from members to scores; at the end the dict and the skip list stand
    for the same entries, sorted by score and member. *)
Theorem zset_refines_map h ops : Forall zop_ok ops →
  let '(h0, zs0) := createZsetObject h (malloc h) in
  ∃ h' zs' ns, zrun h0 zs0 ops = Some (h', zs', (zspec_run ∅ ops).2) ∧ zset_repr h' zs' ns ∧
    scores ns = (zspec_run ∅ ops).1.
Proof using laws SL Hmalloc.
  intros Hf. destruct (createZsetObject h (malloc h)) as [h0 zs0] eqn:E.
  destruct (create_repr _ _ _ _ E) as [Hz _]. exact (zrun_refines ops h0 zs0 [] Hz Hf).
Qed.

End History.

Arguments zop T : clear implicits.

(** ** The skip list on its own *)

Section Skiplist.
Context {T : Type} {Sc : Score T} {SL : ScoreLaws T}.
Implicit Types (h : gmap address (zskiplistNode (T := T))) (ns : list (entry T)).

(** The skip list of [h] and [zsl] as a list of keys, whatever its levels. *)
Definition holds h (zsl : zskiplist) (l : list (T * list Z)) : Prop := ∃ ns, repr h zsl ns ∧ zkeys ns = l.

(** (C14) zslInsert puts the entry at its place in the order of scores and
    members, keeps the skip list well formed, with every span exact, and writes to
    no node of another list. *)
Theorem zslInsert_correct h zsl l s e lvl a :
  holds h zsl l → isnan s = false → (∀ k, k ∈ l → keq k (s, e) = false) →
  (1 ≤ lvl ≤ ZSKIPLIST_MAXLEVEL)%nat → h !! a = None →
  ∃ h' zsl', zslInsert h zsl s e lvl a = Some (h', zsl', a) ∧ holds h' zsl' (zinsert (s, e) l) ∧
    ∃ n, h' !! a = Some n ∧ score n = s ∧ ele n = Some e.
Proof using SL.
  intros (ns & Hr & <-) Hs Hk Hlvl Ha.
  destruct (zslInsert_spec h zsl ns s e lvl a Hr Hs) as (A & B & h' & zsl' & -> & -> & Hr' & _ & HA & HB & _); [|done|done|].
  { intros n Hn. apply Hk. unfold zkeys. by apply list_elem_of_fmap_2. }
  exists h', zsl'. split_and!; [done| |].
  - exists (A ++ mkEntry a lvl s e :: B). split; [done|]. rewrite zinsert_split; [|done|by destruct HB].
    unfold zkeys. by rewrite fmap_app.
  - destruct (node_here _ _ _ _ _ Hr') as (nd & Hnd & He & Hsc & _). by exists nd.
Qed.

(** (C16) zslDelete removes the entry with the score and the member and frees its
    node, or changes nothing and says that there is none. *)
Theorem zslDelete_correct h zsl l s e :
  holds h zsl l → isnan s = false →
  ∃ h' zsl' x, zslDelete h zsl s e false = Some (h', zsl', x) ∧ holds h' zsl' (zdelete (s, e) l) ∧
    match x with
    | Some p => Exists (λ k, keq k (s, e) = true) l ∧ is_Some (h !! p) ∧ h' !! p = None
    | None => Forall (λ k, keq k (s, e) = false) l ∧ h' = h ∧ zsl' = zsl
    end.
Proof using SL.
  intros (ns & Hr & <-) Hs.
  destruct (zslDelete_spec h zsl ns s e false Hr Hs) as
    [(A & n & B & h' & zsl' & -> & Hk & Hu & E & Hr' & _ & _ & HN)|[Hno E]].
  - exists h', zsl', (Some (e_ptr n)). split_and!; [done| | | |done].
    + exists (A ++ B). by rewrite zdelete_split.
    + apply list.Exists_exists. exists (e_key n). split; [|done]. unfold zkeys. apply list_elem_of_fmap_2, elem_of_app. right. by left.
    + destruct (node_here _ _ _ _ _ Hr) as (nd & -> & _). by eexists.
  - exists h, zsl, None. split_and!; [done| | |done|done].
    + exists ns. by rewrite zdelete_none.
    + unfold zkeys. apply Forall_fmap, list.Forall_forall. apply Hno.
Qed.

(** (C18) zslUpdateScore moves the entry to the place of its new score, in place
    when its neighbours allow it and by removal and insertion otherwise. *)
Theorem zslUpdateScore_correct h zsl l curscore e newscore lvl a :
  holds h zsl l → isnan curscore = false → isnan newscore = false →
  Exists (λ k, keq k (curscore, e) = true) l → NoDup l.*2 →
  (1 ≤ lvl ≤ ZSKIPLIST_MAXLEVEL)%nat → h !! a = None →
  ∃ h' zsl' y, zslUpdateScore h zsl curscore e newscore lvl a = Some (h', zsl', y) ∧
    holds h' zsl' (zinsert (newscore, e) (zdelete (curscore, e) l)) ∧
    ∃ n, h' !! y = Some n ∧ score n = newscore ∧ ele n = Some e.
Proof using SL.
  intros (ns & Hr & <-) Hc Hn Hex Hnd Hlvl Ha.
  apply list.Exists_exists in Hex as (k & (n & -> & Hin)%list_elem_of_fmap & Hk).
  apply list_elem_of_split in Hin as (A & B & ->).
  assert (∀ m, m ∈ A ++ B → e_ele m ≠ e) as Hele.
  { intros m Hm E. apply keq_spec in Hk as [_ Ek]. simpl in Ek. subst e.
    unfold zkeys in Hnd. rewrite <-list_fmap_compose in Hnd. change (snd ∘ e_key) with (@e_ele T) in Hnd.
    by apply (middle_unique A n B Hnd m). }
  destruct (zslUpdateScore_spec h zsl A n B curscore e newscore lvl a Hr Hc Hn Hk Hele Hlvl Ha)
    as (h' & zsl' & A' & n' & B' & E & EAB & Ek & Hr' & Hz & _). injection Ek as Ek1 Ek2.
  exists h', zsl', (e_ptr n'). split_and!; [done| |].
  - exists (A' ++ n' :: B'). split; [done|]. rewrite Hz, zdelete_split; [done|done|].
    intros m Hm. apply not_true_is_false. intros [_ Em]%keq_spec. by apply (Hele m).
  - destruct (node_here _ _ _ _ _ Hr') as (nd & Hnd' & He & Hsc & _). exists nd. by rewrite He, Hsc, Ek1, Ek2.
Qed.

(** (C17) Ranks and positions: zslGetRank is the 1-based position of an entry in
    the sorted list, 0 when it is not there, and zslGetElementByRank finds the node
    at a position, or NULL beyond the end. *)
Theorem zslGetRank_correct h zsl l s e rank :
  holds h zsl l → isnan s = false → 1 <= rank →
  zslGetRank h zsl s e = Some (zrank (s, e) l) ∧
  ∃ x, zslGetElementByRank h zsl rank = Some x ∧
    match l !! Z.to_nat (rank - 1), x with
    | Some k, Some p => ∃ n, h !! p = Some n ∧ score n = k.1 ∧ ele n = Some k.2
    | None, None => True
    | _, _ => False
    end.
Proof using SL.
  intros (ns & Hr & <-) Hs Hrank. split; [by apply zslGetRank_spec|].
  rewrite (zslGetElementByRank_spec h zsl ns rank Hr) by lia.
  replace (Z.to_nat rank) with (S (Z.to_nat (rank - 1))) by lia. simpl. eexists. split; [done|].
  unfold zkeys. rewrite list_lookup_fmap. destruct (ns !! Z.to_nat (rank - 1)) as [n|] eqn:E; simpl; [|done].
  destruct (node_at _ _ _ _ _ Hr E) as (nd & Hnd & He & Hsc). by exists nd.
Qed.

(** Keys in a range of scores. *)
Definition keys_in (range : zrangespec (T := T)) (l : list (T * list Z)) : list (T * list Z) :=
  List.filter (λ k, zslValueGteMin k.1 range && zslValueLteMax k.1 range) l.

Lemma keys_in_spec range ns : keys_in range (zkeys ns) = zkeys (List.filter (in_range range) ns).
Proof.
  unfold keys_in, zkeys, in_range, above_min, upto_max. induction ns as [|n ns IH]; [done|]. simpl.
  destruct (zslValueGteMin (e_score n) range && zslValueLteMax (e_score n) range); [simpl; f_equal; apply IH|apply IH].
Qed.

(** (C15) zslNthInRange finds the n-th entry whose score is in the range, counted
    from the first one, or from the last one when n is negative, and NULL when the
    range has no such entry; the short way (node by node) and the long way (by rank
    from the highest level) agree. *)
Theorem zslNthInRange_correct h zsl l range n :
  holds h zsl l → range_ok range → zlen l < 2 ^ 63 → - INT64_MAX <= n <= INT64_MAX →
  ∃ x, zslNthInRange h zsl range n = Some x ∧
    match (if 0 <=? n then keys_in range l !! Z.to_nat n else reverse (keys_in range l) !! Z.to_nat (- n - 1)), x with
    | Some k, Some p => ∃ nd, h !! p = Some nd ∧ score nd = k.1 ∧ ele nd = Some k.2
    | None, None => True
    | _, _ => False
    end.
Proof using SL.
  intros (ns & Hr & <-) Hok Hlen Hn. unfold zkeys in Hlen. rewrite zlen_fmap in Hlen.
  rewrite (zslNthInRange_spec h zsl ns range n Hr Hok Hlen Hn). eexists. split; [done|].
  rewrite keys_in_spec. unfold zkeys. rewrite <-fmap_reverse, !list_lookup_fmap.
  assert ((if 0 <=? n then e_key <$> List.filter (in_range range) ns !! Z.to_nat n
    else e_key <$> reverse (List.filter (in_range range) ns) !! Z.to_nat (- n - 1)) =
    e_key <$> nth_entry n (List.filter (in_range range) ns)) as -> by (unfold nth_entry; by case_if).
  destruct (nth_entry n (List.filter (in_range range) ns)) as [m|] eqn:E; simpl; [|done].
  assert (m ∈ ns) as [k Hk]%list_elem_of_lookup.
  { assert (m ∈ List.filter (in_range range) ns) as Hm.
    { unfold nth_entry in E. destruct (0 <=? n); [by apply list_elem_of_lookup_2 in E|].
      apply list_elem_of_lookup_2 in E. by rewrite elem_of_reverse in E. }
    apply list_elem_of_In, List.filter_In in Hm as [Hm _]. by apply list_elem_of_In. }
  destruct (node_at _ _ _ _ _ Hr Hk) as (nd & Hnd & He & Hsc). by exists nd.
Qed.

End Skiplist.

End ZsetHistory.
