(* ===== verification/ZsetExamples.v ===== *)
(** * Sorted sets: concrete lists and sets

    A skip list of five doubles with members, built by insertions at several
    levels, and a sorted set over the dict of dict.c; the theorems on both applied
    to them. *)

From Stdlib Require Import SpecFloat.
From stdpp Require Import sorting gmap.
From S2P Require Import Prelude SdsText Dict DictProofs DictMap Skiplist SkiplistOrder SkiplistRepr SkiplistLinks SkiplistProofs SkiplistInsert SkiplistDelete SkiplistUpdate SkiplistRank SkiplistRange SkiplistNth SkiplistDeleteRange Zset ZsetProofs ZsetHistory.

Module ZsetExamples.
Import SdsText Dict DictProofs DictMap Skiplist SkiplistOrder SkiplistRepr SkiplistLinks SkiplistProofs
  SkiplistInsert SkiplistDelete SkiplistUpdate SkiplistRank SkiplistRange SkiplistNth SkiplistDeleteRange Zset ZsetProofs
  ZsetHistory.

Abbreviation double_heap := (gmap address (zskiplistNode (T := spec_float))).

(** Doubles. *)
Definition one : spec_float := S754_finite false 4503599627370496 (-52).
Definition two : spec_float := S754_finite false 4503599627370496 (-51).
Definition three : spec_float := S754_finite false 6755399441055744 (-51).
Definition minus_one : spec_float := S754_finite true 4503599627370496 (-52).
Definition infinity : spec_float := S754_infinity false.

(** Insertions at given addresses and levels, with what they need. *)
Definition item : Type := spec_float * list Z * nat * address.

Fixpoint build (h : double_heap) (zsl : zskiplist) (es : list item) : option (double_heap * zskiplist) :=
  match es with
  | [] => Some (h, zsl)
  | (s, e, lvl, a) :: es =>
      if bool_decide (h !! a = None) then '(h, zsl, _) ← zslInsert h zsl s e lvl a; build h zsl es else None
  end.

Fixpoint buildable (l : list (spec_float * list Z)) (es : list item) : bool :=
  match es with
  | [] => true
  | (s, e, lvl, a) :: es =>
      negb (isnan s) && forallb (λ k, negb (keq k (s, e))) l && (1 <=? lvl)%nat && (lvl <=? ZSKIPLIST_MAXLEVEL)%nat &&
      buildable (zinsert (s, e) l) es
  end.

Definition keys_after (l : list (spec_float * list Z)) (es : list item) : list (spec_float * list Z) :=
  foldl (λ l '(s, e, _, _), zinsert (s, e) l) l es.

Lemma build_holds es h zsl l h' zsl' : holds h zsl l → buildable l es = true → build h zsl es = Some (h', zsl') →
  holds h' zsl' (keys_after l es).
Proof.
  revert h zsl l. induction es as [|[[[s e] lvl] a] es IH]; intros h zsl l Hh Hb E; [by injection E as -> ->|].
  cbn [build] in E. cbn [buildable] in Hb. cbn [keys_after foldl].
  case_bool_decide as Ha; [|done]. apply andb_true_iff in Hb as [[[[Hs Hk]%andb_true_iff Hl1]%andb_true_iff Hl2]%andb_true_iff Hb].
  apply negb_true_iff in Hs. apply Nat.leb_le in Hl1, Hl2. destruct Hh as (ns & Hr & <-).
  destruct (zslInsert_spec h zsl ns s e lvl a Hr Hs) as (A & B & h1 & zsl1 & -> & E1 & Hr1 & _ & HA & HB & _); [|done|done|].
  { intros n Hn. apply negb_true_iff. apply forallb_forall with (x := e_key n) in Hk; [done|].
    apply list_elem_of_In. by apply list_elem_of_fmap_2. }
  rewrite E1 in E. simpl in E. apply (IH h1 zsl1); [|done|done].
  exists (A ++ mkEntry a lvl s e :: B). split; [done|]. rewrite zinsert_split; [|done|by destruct HB].
  unfold zkeys. by rewrite fmap_app.
Qed.

Definition items : list item :=
  [(two, [98], 2%nat, 10%positive); (one, [97], 1%nat, 11%positive); (three, [99], 4%nat, 12%positive);
   (two, [97; 97], 1%nat, 13%positive); (minus_one, [], 3%nat, 14%positive)].

Definition five_nodes : double_heap * zskiplist :=
  default (∅, mkZsl 1 None 0 1) (let '(h, zsl) := zslCreate ∅ 9%positive in build h zsl items).

Definition five_keys : list (spec_float * list Z) :=
  [(minus_one, []); (one, [97]); (two, [97; 97]); (two, [98]); (three, [99])].

Lemma five_holds : holds five_nodes.1 five_nodes.2 five_keys.
Proof.
  assert (∃ h zsl, (let '(h0, zsl0) := zslCreate (∅ : double_heap) 9%positive in build h0 zsl0 items) = Some (h, zsl))
    as (h & zsl & E).
  { destruct (let '(h0, zsl0) := zslCreate (∅ : double_heap) 9%positive in build h0 zsl0 items) as [[h zsl]|] eqn:E; [eauto|].
    vm_compute in E. done. }
  unfold five_nodes. rewrite E. simpl. destruct (zslCreate (∅ : double_heap) 9%positive) as [h0 zsl0] eqn:E0.
  destruct (zslCreate_repr _ _ _ _ E0) as [Hr _].
  apply (build_holds items h0 zsl0 []); [by exists []|by vm_compute|done].
Qed.

Example five_shape : zsl_length five_nodes.2 = 5 ∧ zsl_level five_nodes.2 = 4%nat ∧ zsl_tail five_nodes.2 = Some 12%positive.
Proof. by vm_compute. Qed.

Lemma zslInsert_correct_witness :
  ∃ h' zsl', zslInsert five_nodes.1 five_nodes.2 two [97; 98] 5 20%positive = Some (h', zsl', 20%positive) ∧
    holds h' zsl' [(minus_one, []); (one, [97]); (two, [97; 97]); (two, [97; 98]); (two, [98]); (three, [99])] ∧
    ∃ n, h' !! 20%positive = Some n ∧ score n = two ∧ ele n = Some [97; 98].
Proof.
  pose proof (zslInsert_correct five_nodes.1 five_nodes.2 five_keys two [97; 98] 5 20%positive five_holds) as Hx.
  apply Hx; [done| |vm_compute; lia|by vm_compute].
  intros k Hk. repeat (apply elem_of_cons in Hk as [->|Hk]; [by vm_compute|]). by apply not_elem_of_nil in Hk.
Defined.

Lemma zslDelete_correct_witness :
  ∃ h' zsl' x, zslDelete five_nodes.1 five_nodes.2 two [98] false = Some (h', zsl', x) ∧
    holds h' zsl' (zdelete (two, [98]) five_keys) ∧
    match x with
    | Some p => Exists (λ k, keq k (two, [98]) = true) five_keys ∧ is_Some (five_nodes.1 !! p) ∧ h' !! p = None
    | None => Forall (λ k, keq k (two, [98]) = false) five_keys ∧ h' = five_nodes.1 ∧ zsl' = five_nodes.2
    end.
Proof. exact (zslDelete_correct five_nodes.1 five_nodes.2 five_keys two [98] five_holds eq_refl). Defined.

Lemma zslUpdateScore_correct_witness :
  ∃ h' zsl' y, zslUpdateScore five_nodes.1 five_nodes.2 one [97] infinity 2 20%positive = Some (h', zsl', y) ∧
    holds h' zsl' [(minus_one, []); (two, [97; 97]); (two, [98]); (three, [99]); (infinity, [97])] ∧
    ∃ n, h' !! y = Some n ∧ score n = infinity ∧ ele n = Some [97].
Proof.
  pose proof (zslUpdateScore_correct five_nodes.1 five_nodes.2 five_keys one [97] infinity 2 20%positive five_holds) as Hx.
  apply Hx; [done|done| | |vm_compute; lia|by vm_compute].
  - apply Exists_cons_tl. apply Exists_cons_hd. by vm_compute.
  - apply (bool_decide_eq_true (NoDup five_keys.*2)). by vm_compute.
Defined.

Lemma zslGetRank_correct_witness :
  zslGetRank five_nodes.1 five_nodes.2 two [98] = Some 4 ∧
  ∃ x, zslGetElementByRank five_nodes.1 five_nodes.2 3 = Some x ∧
    match five_keys !! 2%nat, x with
    | Some k, Some p => ∃ n, five_nodes.1 !! p = Some n ∧ score n = k.1 ∧ ele n = Some k.2
    | None, None => True
    | _, _ => False
    end.
Proof.
  pose proof (zslGetRank_correct five_nodes.1 five_nodes.2 five_keys two [98] 3 five_holds eq_refl) as Hx.
  apply Hx. lia.
Defined.

(** The scores in (1, 3], from the end. *)
Definition one_to_three : zrangespec := mkRange one three true false.

Lemma zslNthInRange_correct_witness :
  ∃ x, zslNthInRange five_nodes.1 five_nodes.2 one_to_three (-2) = Some x ∧
    match reverse (keys_in one_to_three five_keys) !! 1%nat, x with
    | Some k, Some p => ∃ nd, five_nodes.1 !! p = Some nd ∧ score nd = k.1 ∧ ele nd = Some k.2
    | None, None => True
    | _, _ => False
    end.
Proof.
  pose proof (zslNthInRange_correct five_nodes.1 five_nodes.2 five_keys one_to_three (-2) five_holds) as Hx.
  apply Hx; [by split|by vm_compute|by vm_compute; split].
Defined.

Example nth_answer : zslNthInRange five_nodes.1 five_nodes.2 one_to_three (-2) = Some (Some 10%positive).
Proof. by vm_compute. Qed.

(** ** A sorted set over the dict of dict.c *)

Definition member_type : dictType (list Z) address := {|
  hashFunction := λ k, uwrap 64 (foldr (λ c n, c + 31 * n) 7 k);
  keyDup := None;
  valDup := None;
  storedHashFunction := None;
  keyCompare := None;
  storedKeyCompare := None;
  keyLen := None;
  keyCompareWithLen := None;
  resizeAllowed := None;
  no_value := false;
  force_full_rehash := false
|}.

Lemma member_ok : type_ok member_type (λ k : list Z, k) (λ k, uwrap 64 (foldr (λ c n, c + 31 * n) 7 k)).
Proof.
  constructor; [by intros k []| |done|done|done]. intros d k1 k2. unfold dictGetKeyCmpFunc.
  by destruct (useStoredKeyApi d).
Qed.

#[local] Instance member_api : DictApi (dict (list Z) address) (list Z) address eptr :=
  dict_api member_type DICT_RESIZE_ENABLE.
#[local] Instance member_laws : DictLaws member_api (λ k : list Z, k) (λ v : address, v) :=
  dict_laws member_type DICT_RESIZE_ENABLE (λ k : list Z, k) _ member_ok.

Definition malloc (h : double_heap) : address := fresh (map_to_list h).*1.

Lemma malloc_free h : h !! malloc h = None.
Proof.
  destruct (h !! malloc h) as [n|] eqn:E; [|done]. exfalso. apply (infinite_is_fresh (map_to_list h).*1).
  apply elem_of_map_to_list in E. change (malloc h) with (malloc h, n).1 in E. by apply (list_elem_of_fmap_2 fst) in E.
Qed.

(** Additions of all kinds, a removal, ranks and a range. *)
Definition low_draw : Z := 5.
Definition high_draw : Z := 2147483646.
Definition commands : list (zop spec_float) :=
  [ZAdd one [97] 0 [low_draw; high_draw]; ZAdd two [98] 0 [high_draw]; ZAdd three [99] ZADD_IN_XX [high_draw];
   ZAdd one [97] ZADD_IN_INCR [low_draw; low_draw; high_draw]; ZAdd minus_one [100] ZADD_IN_NX [high_draw];
   ZAdd one [98] ZADD_IN_GT [high_draw]; ZRank [98] false; ZScore [97]; ZDel [100]; ZCard;
   ZRemRangeByScore one_to_three; ZCard].

Lemma commands_ok : Forall zop_ok commands.
Proof.
  unfold commands. repeat (apply list.Forall_cons_2); try apply list.Forall_nil_2; simpl; try done;
    repeat ((apply Exists_cons_hd; vm_compute; congruence) || apply Exists_cons_tl).
Qed.

Lemma zset_refines_map_witness :
  let '(h0, zs0) := createZsetObject (D := dict (list Z) address) (∅ : double_heap) (malloc ∅) in
  ∃ h' zs' ns, zrun malloc h0 zs0 commands = Some (h', zs', (zspec_run ∅ commands).2) ∧ zset_repr h' zs' ns ∧
    scores ns = (zspec_run ∅ commands).1.
Proof. exact (zset_refines_map malloc malloc_free ∅ commands commands_ok). Defined.

(** The answers: three members at most, 1 + 1 = 2, and in the end an empty set. *)
Example commands_answers :
  (zspec_run ∅ commands).2 =
    [AnsAdd (mkAdd 1 ZADD_OUT_ADDED (Some one)); AnsAdd (mkAdd 1 ZADD_OUT_ADDED (Some two)); AnsAdd (mkAdd 1 ZADD_OUT_NOP None);
     AnsAdd (mkAdd 1 ZADD_OUT_UPDATED (Some two)); AnsAdd (mkAdd 1 ZADD_OUT_ADDED (Some minus_one)); AnsAdd (mkAdd 1 ZADD_OUT_NOP None);
     AnsRank 2 (Some two); AnsScore (Some two); AnsInt 1; AnsInt 2; AnsInt 2; AnsInt 0].
Proof. by vm_compute. Qed.

End ZsetExamples.
