(* ===== verification/DictSet.v ===== *)
(** * The dict as a set of strings, for its clients

    A dict whose type has no values keeps bare keys.  This file has the dict type
    of sets ([setDictType] of server.c), the interface [SetApi] of the operations
    that the set type calls, with the laws [SetLaws] that say how they act on a
    finite set of byte strings, and the instance for the dict of dict.c. *)

From stdpp Require Import gmap.
From S2P Require Import Prelude Dict DictProofs DictMap DictIter.

Module DictSet.
Import Dict DictProofs DictMap DictIter.

(** ** The interface *)

Class SetApi (D P I : Type) := {
  sd_create : D;
  sd_size : D → Z;
  sd_findPosition : D → list Z → option (D * option P);
  sd_insertAt : D → list Z → P → option D;
  sd_add : D → list Z → option (D * Z);
  sd_find : D → list Z → option (D * bool);
  sd_delete : D → list Z → option (D * Z);
  sd_expand : D → Z → option (D * Z);
  sd_tryExpand : D → Z → bool → option (D * Z);
  sd_getIterator : D → I;
  sd_next : D → I → option (D * I * option (list Z));
  sd_releaseIterator : D → I → option D
}.

(** [sd_keys] is the set a dict stands for; [sd_slot d p k] says that [p] is where
    the new key [k] goes, and [sd_left d i l] that the iterator has the keys [l] to
    give, while the dict is not modified. *)
Class SetLaws {D P I} (api : SetApi D P I) := {
  sd_valid : D → Prop;
  sd_keys : D → gset (list Z);
  sd_slot : D → P → list Z → Prop;
  sd_left : D → I → list (list Z) → Prop;
  slaw_create : sd_valid sd_create ∧ sd_keys sd_create = ∅;
  slaw_size d : sd_valid d → sd_size d = Z.of_nat (size (sd_keys d));
  slaw_findPosition d k : sd_valid d →
    ∃ d' r, sd_findPosition d k = Some (d', r) ∧ sd_valid d' ∧ sd_keys d' = sd_keys d ∧
      match r with Some p => sd_slot d' p k ∧ (k ∉ sd_keys d) | None => k ∈ sd_keys d end;
  slaw_insertAt d k p : sd_valid d → sd_slot d p k →
    ∃ d', sd_insertAt d k p = Some d' ∧ sd_valid d' ∧ sd_keys d' = {[k]} ∪ sd_keys d;
  slaw_add d k : sd_valid d →
    ∃ d', sd_add d k = Some (d', if decide (k ∈ sd_keys d) then DICT_ERR else DICT_OK) ∧
      sd_valid d' ∧ sd_keys d' = {[k]} ∪ sd_keys d;
  slaw_find d k : sd_valid d →
    ∃ d', sd_find d k = Some (d', bool_decide (k ∈ sd_keys d)) ∧ sd_valid d' ∧ sd_keys d' = sd_keys d;
  slaw_delete d k : sd_valid d →
    ∃ d', sd_delete d k = Some (d', if decide (k ∈ sd_keys d) then DICT_OK else DICT_ERR) ∧
      sd_valid d' ∧ sd_keys d' = sd_keys d ∖ {[k]};
  slaw_expand d n : sd_valid d → 0 <= n →
    ∃ d' r, sd_expand d n = Some (d', r) ∧ sd_valid d' ∧ sd_keys d' = sd_keys d;
  slaw_tryExpand d n ok : sd_valid d → 0 <= n →
    ∃ d' r, sd_tryExpand d n ok = Some (d', r) ∧ sd_valid d' ∧ sd_keys d' = sd_keys d;
  slaw_getIterator d : sd_valid d →
    ∃ l, sd_left d (sd_getIterator d) l ∧ NoDup l ∧ sd_keys d = list_to_set l;
  slaw_next d i l : sd_valid d → sd_left d i l →
    ∃ i', sd_next d i = Some (d, i', head l) ∧ sd_left d i' (tail l);
  slaw_release d i l : sd_valid d → sd_left d i l → sd_releaseIterator d i = Some d
}.

(** ** The dict type of sets *)

(** The lengths go through an [int], exact below 2^31 bytes, to which the clients'
    theorems are limited. *)
Definition dictSdsKeyCompare (key1 key2 : list Z) : bool :=
  if negb (zlen key1 =? zlen key2) then false else bool_decide (key1 = key2).

(** The hash function (SipHash with a random seed) is a parameter. *)
Definition setDictType (dictSdsHash : list Z → Z) : dictType (list Z) () := {|
  hashFunction := dictSdsHash; keyDup := None; valDup := None; storedHashFunction := None;
  keyCompare := Some dictSdsKeyCompare; storedKeyCompare := None; keyLen := None;
  keyCompareWithLen := None; resizeAllowed := None; no_value := true; force_full_rehash := false
|}.

Lemma sds_compare k1 k2 : dictSdsKeyCompare k1 k2 = bool_decide (k1 = k2).
Proof.
  unfold dictSdsKeyCompare. case_if; [|done]. zb. rewrite bool_decide_false; [done|]. by intros ->.
Qed.

(** ** The instance *)

Definition found {K V} (r : option (dict K V * option eptr)) : option (dict K V * bool) :=
  '(d, p) ← r; Some (d, bool_decide (is_Some p)).

#[global] Instance set_api (hash : list Z → Z) (rs : dictResizeEnable) (table_addr : ht (list Z) () → Z)
  : SetApi (dict (list Z) ()) (bool * Z) (dictIterator (list Z) ()) := {
  sd_create := dictCreate;
  sd_size := dictSize;
  sd_findPosition d k :=
    '(d, r) ← dictFindPositionForInsert (setDictType hash) rs d k;
    Some (d, match r with inl p => Some p | inr _ => None end);
  sd_insertAt d k p := '(d, _) ← dictInsertAtPosition (setDictType hash) d k p; Some d;
  sd_add d k := dictAdd (setDictType hash) rs d k ();
  sd_find d k := found (dictFind (setDictType hash) rs d k);
  sd_delete := dictDelete (setDictType hash) rs;
  sd_expand := dictExpand (setDictType hash) rs;
  sd_tryExpand := dictTryExpand (setDictType hash) rs;
  sd_getIterator _ := dictGetIterator;
  sd_next d it := '(d, it, e) ← dictNext table_addr d it; Some (d, it, fmap (M := option) de_key e);
  sd_releaseIterator := dictReleaseIterator table_addr
}.

Section Instance.
Context (hash : list Z → Z) (rs : dictResizeEnable) (table_addr : ht (list Z) () → Z).
Abbreviation type := (setDictType hash).
Abbreviation id_content := (λ k : list Z, k).
Abbreviation vset := (dict_valid type id_content hash).
Implicit Types (d : dict (list Z) ()) (it : dictIterator (list Z) ()).

Definition set_keys d : gset (list Z) := dom (to_map id_content d).

Definition set_slot d (p : bool * Z) (k : list Z) : Prop :=
  p = (dictIsRehashing d, hash_idx hash k (ht_at d (dictIsRehashing d))) ∧ (k ∉ keys id_content d) ∧
  0 <= ht_size_exp (ht_at d (dictIsRehashing d)).

Definition set_left d it (l : list (list Z)) : Prop :=
  it_ok table_addr d it ∧ safe it = false ∧ de_key <$> remaining d it = l.

Lemma type_hash k b : dictHashKey type k b = hash k.
Proof. by destruct b. Qed.
Lemma type_cmp d k1 k2 : dictGetKeyCmpFunc type d k1 k2 = bool_decide (k1 = k2).
Proof. unfold dictGetKeyCmpFunc. destruct (useStoredKeyApi d); apply sds_compare. Qed.
Lemma type_len len cmp : keyLen type = Some len → keyCompareWithLen type = Some cmp →
  ∀ k1 k2, cmp k1 (len k1) k2 (len k2) = bool_decide (k1 = k2).
Proof. done. Qed.
Lemma type_dup k : dup_key type k = k.
Proof. done. Qed.

Lemma keys_dom d k : k ∈ set_keys d ↔ is_Some (to_map id_content d !! k).
Proof. apply elem_of_dom. Qed.

Lemma keys_of_map d d' : to_map id_content d' = to_map id_content d → set_keys d' = set_keys d.
Proof. unfold set_keys. by intros ->. Qed.

Lemma find_position_law d k : vset d →
  ∃ d' r, sd_findPosition (SetApi := set_api hash rs table_addr) d k = Some (d', r) ∧ vset d' ∧ set_keys d' = set_keys d ∧
    match r with Some p => set_slot d' p k ∧ (k ∉ set_keys d) | None => k ∈ set_keys d end.
Proof.
  intros Hv. destruct (find_position_spec type rs id_content hash type_hash type_cmp d k) as (d' & r & E & Hs & Hr);
    [apply Hv|left; apply Hv|].
  destruct (valid_same _ _ _ _ _ Hv Hs) as [Hv' Hm]. simpl. rewrite E. cbn [mbind option_bind].
  eexists d', _. split_and!; [done|done|by apply keys_of_map|]. rewrite <-(keys_of_map _ _ Hm).
  destruct r as [p|p].
  - split; [done|]. rewrite keys_dom. destruct Hr as (_ & Hk & _). rewrite (to_map_absent _ _ _ Hk). by intros [? ?].
  - rewrite keys_dom. destruct Hr as (e & He & <-). rewrite (to_map_deref type id_content hash d' p e (proj1 Hv') He). done.
Qed.

Lemma insert_at_law d k p : vset d → set_slot d p k →
  ∃ d', sd_insertAt (SetApi := set_api hash rs table_addr) d k p = Some d' ∧ vset d' ∧ set_keys d' = {[k]} ∪ set_keys d.
Proof.
  intros Hv (-> & Hk & He). destruct (insert_spec type id_content hash d k (proj1 Hv) Hk He)
    as (d' & p & e & E & Hd' & Hp & _ & _ & _ & Hkept).
  simpl. simpl in E. rewrite E. cbn [mbind option_bind]. exists d'. split_and!; [done|by eapply valid_kept|].
  unfold set_keys. rewrite (to_map_cons type id_content hash d d' _ _ Hd' Hp). apply dom_insert_L.
Qed.

Lemma set_add_law d k : vset d →
  ∃ d', dictAdd type rs d k () = Some (d', if decide (k ∈ set_keys d) then DICT_ERR else DICT_OK) ∧
    vset d' ∧ set_keys d' = {[k]} ∪ set_keys d.
Proof.
  intros Hv. destruct (dict_add_spec type rs id_content hash type_hash type_cmp type_dup d k ())
    as (d' & r & E & Hd' & Hk & Hm); [apply Hv|left; apply Hv|].
  exists d'. rewrite E. destruct (to_map id_content d !! k) as [x|] eqn:Hx.
  - destruct Hm as [-> Hm]. rewrite decide_True by (apply keys_dom; by rewrite Hx).
    split_and!; [done|by eapply valid_kept|]. rewrite (keys_of_map _ _ Hm).
    assert (k ∈ set_keys d) by (apply keys_dom; by rewrite Hx). set_solver.
  - destruct Hm as [-> Hm]. rewrite decide_False by (rewrite keys_dom, Hx; by intros [? ?]).
    split_and!; [done|by eapply valid_kept|]. unfold set_keys. rewrite Hm. apply dom_insert_L.
Qed.

Lemma set_find_law d k : vset d →
  ∃ d', found (dictFind type rs d k) = Some (d', bool_decide (k ∈ set_keys d)) ∧ vset d' ∧ set_keys d' = set_keys d.
Proof.
  intros Hv. destruct (find_spec type rs id_content hash type_hash type_cmp type_len d k (proj1 Hv))
    as (d' & r & E & Hd' & Hm & Hk & Hr).
  exists d'. unfold found. rewrite E. cbn [mbind option_bind].
  split_and!; [|by eapply valid_kept|by apply keys_of_map]. do 2 f_equal. apply bool_decide_ext. rewrite keys_dom.
  destruct r as [p|].
  - destruct Hr as (e & He & Hc & Hx). by rewrite Hx.
  - rewrite Hr. split; by intros [? ?].
Qed.

Lemma set_delete_law d k : vset d →
  ∃ d', dictDelete type rs d k = Some (d', if decide (k ∈ set_keys d) then DICT_OK else DICT_ERR) ∧
    vset d' ∧ set_keys d' = set_keys d ∖ {[k]}.
Proof.
  intros Hv. destruct (delete_spec type rs id_content hash type_hash type_cmp d k (proj1 Hv))
    as (d' & r & E & Hd' & Hk & -> & Hm).
  exists d'. rewrite E. split_and!; [|by eapply valid_kept|unfold set_keys; rewrite Hm; apply dom_delete_L].
  destruct (to_map id_content d !! k) as [x|] eqn:Hx.
  - by rewrite decide_True by (apply keys_dom; by rewrite Hx).
  - by rewrite decide_False by (rewrite keys_dom, Hx; by intros [? ?]).
Qed.

Lemma set_iterator_law d : vset d →
  ∃ l, set_left d dictGetIterator l ∧ NoDup l ∧ set_keys d = list_to_set l.
Proof.
  intros Hv. pose proof (get_iterator_remaining type id_content hash d false (proj1 Hv)) as E. unfold get_iterator in E.
  exists (de_key <$> remaining d dictGetIterator). split_and!.
  - split_and!; [apply (get_iterator_ok _ d false)|done|done].
  - rewrite E.
    pose proof (wf_nodup _ _ _ _ (proj1 Hv)) as Hn. unfold contents in Hn. by rewrite <-list_fmap_compose in Hn.
  - rewrite E.
    unfold set_keys, to_map. rewrite dom_list_to_map_L. unfold contents. by rewrite <-list_fmap_compose.
Qed.

Lemma set_next_law d it l : vset d → set_left d it l →
  ∃ it', sd_next (SetApi := set_api hash rs table_addr) d it = Some (d, it', head l) ∧ set_left d it' (tail l).
Proof.
  intros Hv (Hok & Hs & <-). destruct (dictNext_spec type id_content hash table_addr d it (proj1 Hv) Hok)
    as (it' & E & Hok' & _ & Hs' & Hr).
  assert (iterated d it = d) as Ei by (unfold iterated; by rewrite Hs, andb_false_r). rewrite Ei in *.
  simpl. rewrite E. cbn [mbind option_bind]. exists it'. split; [by destruct (remaining d it)|].
  split_and!; [done|by rewrite Hs'|]. rewrite Hr. by destruct (remaining d it).
Qed.

Lemma set_release_law d it l : set_left d it l → dictReleaseIterator table_addr d it = Some d.
Proof.
  intros (Hok & Hs & _). unfold dictReleaseIterator, dictResetIterator.
  destruct (at_start it) eqn:Hst; [done|]. simpl. rewrite Hs, (ok_print _ _ _ Hok Hst Hs). by rewrite Z.eqb_refl.
Qed.

#[global] Instance set_laws : SetLaws (set_api hash rs table_addr).
Proof.
  refine {| sd_valid := vset : dict (list Z) () → Prop; sd_keys := set_keys; sd_slot := set_slot; sd_left := set_left |}; simpl.
  - destruct (valid_create type id_content hash) as [? Hm]. split; [done|]. unfold set_keys. by rewrite Hm.
  - intros d Hd. rewrite (to_map_size type id_content hash d (proj1 Hd)). unfold set_keys. by rewrite size_dom.
  - apply find_position_law.
  - apply insert_at_law.
  - apply set_add_law.
  - apply set_find_law.
  - apply set_delete_law.
  - intros d n Hd Hn. destruct (dict_expand_spec type rs id_content hash type_hash d n) as (d' & r & ? & Hs);
      [apply Hd|done|]. exists d', r. destruct (valid_same _ _ _ _ _ Hd Hs). split_and!; [done|done|by apply keys_of_map].
  - intros d n ok Hd Hn. destruct (try_expand_spec type rs id_content hash type_hash d n ok) as (d' & r & ? & Hs & _);
      [apply Hd|done|]. exists d', r. destruct (valid_same _ _ _ _ _ Hd Hs). split_and!; [done|done|by apply keys_of_map].
  - apply set_iterator_law.
  - apply set_next_law.
  - intros d i l _. apply set_release_law.
Defined.
End Instance.
End DictSet.
