(* ===== verification/ListpackValues.v ===== *)
(** * Values in listpacks

    The elements of a listpack as the types built on it see them: a string, or an
    integer when [lpGetValue] gives no string.  Two elements are the same when they
    stand for the same string. *)

From stdpp Require Import base list.
From S2P Require Import Prelude Util Listpack ListpackRepr ListpackElem ListpackEdit.

Module ListpackValues.
Import Listpack ListpackRepr ListpackElem ListpackEdit.

(** An element: [str] and [len], or [llval] when [str] is NULL. *)
Inductive value := VStr (str : list Z) | VInt (llval : Z).

(** [lpGetValue] and the string or integer it gives. *)
Definition get_value (lp : list Z) (p : Z) : option value :=
  r ← lpGetValue lp p;
  match r with
  | inl (off, len) => str ← rd off len lp; Some (VStr str)
  | inr llele => Some (VInt llele)
  end.

(** ** Elements *)

(** The string an element stands for. *)
Definition vbytes (v : value) : list Z := match v with VStr s => s | VInt n => Util.sdec n end.

(** Lengths fit an [int], which [dictSdsKeyCompare] keeps them in. *)
Definition str_ok (s : list Z) : Prop := wf_bytes s ∧ zlen s <= INT32_MAX.

Lemma str_ok_len s : str_ok s → wf_bytes s ∧ zlen s <= UINT32_MAX.
Proof. unfold str_ok, INT32_MAX, UINT32_MAX. intros [? ?]. split; [done|lia]. Qed.

(** What the C types guarantee. *)
Definition value_ok (v : value) : Prop := match v with VStr s => str_ok s | VInt n => is_int64 n end.

Lemma sdec_inj n m : is_int64 n → is_int64 m → Util.sdec n = Util.sdec m → n = m.
Proof.
  intros Hn Hm E. assert (Util.string2ll (Util.sdec n) = Some n) as E1 by by apply Util.string2ll_spec.
  assert (Util.string2ll (Util.sdec n) = Some m) as E2 by (rewrite E; by apply Util.string2ll_spec). congruence.
Qed.

Lemma sdec_int n : is_int64 n → Util.string2ll (Util.sdec n) = Some n.
Proof. intros Hn. by apply Util.string2ll_spec. Qed.

Lemma dec_wf v : 0 <= v <= UINT64_MAX → wf_bytes (Util.dec v).
Proof.
  unfold UINT64_MAX. intros Hv. destruct (Z.eq_dec v 0) as [->|Hne].
  { rewrite Util.dec_small by lia. repeat constructor; unfold Util.ch0; lia. }
  destruct (Util.dec_head v) as (c & p & -> & Hc & Hp & _); [lia|]. unfold Util.ch0 in Hc.
  constructor; [unfold is_byte; lia|]. apply (list.Forall_impl _ _ _ Hp). intros x Hx. unfold is_byte.
  unfold Util.isdigit, Util.ch0 in Hx. apply andb_true_iff in Hx. zb. lia.
Qed.

Lemma sdec_ok n : is_int64 n → str_ok (Util.sdec n).
Proof.
  intros Hn. pose proof (Util.sdec_len n Hn) as Hl. unfold Util.LONG_STR_SIZE in Hl. split; [|unfold INT32_MAX; lia].
  unfold is_int64, INT64_MIN, INT64_MAX in Hn. destruct (Z.lt_ge_cases n 0).
  - rewrite Util.sdec_neg by done. constructor; [unfold is_byte, Util.chminus; lia|].
    apply dec_wf. unfold UINT64_MAX. lia.
  - rewrite Util.sdec_pos by done. apply dec_wf. unfold UINT64_MAX. lia.
Qed.

(** The digits printed into a buffer that is large enough. *)
Lemma print_int junk size n : is_int64 n → Util.LONG_STR_SIZE <= size →
  ('(buf, len) ← Util.ll2string (replicate (Z.to_nat size) junk) 0 size n; rd 0 len buf) = Some (Util.sdec n).
Proof.
  intros Hn Hs. pose proof (Util.sdec_len n Hn) as Hl. set (k := Z.to_nat (zlen (Util.sdec n) + 1)).
  assert (Z.to_nat size = k + (Z.to_nat size - k))%nat as -> by (unfold k, Util.LONG_STR_SIZE in *; lia).
  rewrite replicate_add.
  pose proof (Util.ll2string_spec [] (replicate k junk) (replicate (Z.to_nat size - k) junk) n size Hn) as E.
  simpl app in E. change (zlen []) with 0 in E. rewrite E; [|unfold k, zlen in *; rewrite length_replicate; lia|lia].
  cbn [mbind option_bind]. set (post := 0 :: _). pose proof (zlen_nonneg post). pose proof (zlen_nonneg (Util.sdec n)).
  rewrite rd_in by (rewrite ?zlen_app; lia). f_equal. unfold sub. rewrite drop_0. unfold zlen. rewrite Nat2Z.id.
  by rewrite take_app_length.
Qed.

Lemma vbytes_ok v : value_ok v → str_ok (vbytes v).
Proof. destruct v; [done|apply sdec_ok]. Qed.

(** The value of a stored entry. *)
Definition entry_value (e : list Z) : value :=
  match decode e with Some (EInt n) => VInt n | Some (EStr s) => VStr s | None => VStr [] end.

Definition strs (es : list (list Z)) : list (list Z) := (λ e, vbytes (entry_value e)) <$> es.

Lemma elem_is_value s e : valid_enc e → elem_is s e = bool_decide (vbytes (entry_value e) = s).
Proof.
  intros He. destruct (decode_valid e He) as (x & Hx). unfold elem_is, entry_value. rewrite Hx.
  change (elem_bytes <$> Some x) with (Some (elem_bytes x)).
  apply bool_decide_ext. destruct x; simpl; split; congruence.
Qed.

Lemma entry_int_ok e n : valid_enc e → entry_value e = VInt n → is_int64 n.
Proof.
  intros He. unfold entry_value, decode, lpGet. destruct (lpGetWithBuf e 0 None) as [[q c|v|]|] eqn:E; simpl; try done.
  - by destruct (rd q c e).
  - intros [= ->]. by apply get_int_range in E.
Qed.

Lemma entry_of_value v : value_ok v → zlen (encode_entry (match v with VStr s => inl s | VInt n => inr n end)) <= UINT32_MAX →
  vbytes (entry_value (encode_entry (match v with VStr s => inl s | VInt n => inr n end))) = vbytes v.
Proof.
  intros Hv Hl. destruct v as [s|n]; unfold entry_value, encode_entry in *.
  - destruct (str_ok_len s Hv) as [Hwf Hs]. unfold encode_string in *. destruct (lpStringToInt64 s) as [n|] eqn:Hn.
    + rewrite lpStringToInt64_eq in Hn. apply Util.string2ll_spec in Hn as [Hn ->]. by rewrite decode_encode_int.
    + rewrite str_enc_len in Hl. rewrite decode_encode_str; [done|done|]. unfold UINT32_MAX in *. repeat case_if; lia.
  - by rewrite decode_encode_int.
Qed.

Lemma find_elem_spec s es : Forall valid_enc es →
  match find_elem s 0 0 es with
  | Some i => strs es !! i = Some s
  | None => s ∉ strs es
  end.
Proof.
  induction 1 as [|e es He _ IH]; [apply not_elem_of_nil|]. cbn [find_elem]. rewrite elem_is_value by done.
  case_bool_decide as E; [simpl; by rewrite E|]. destruct (find_elem s 0 0 es) as [i|]; simpl; [done|].
  rewrite elem_of_cons. intros [?|?]; [congruence|done].
Qed.

Lemma get_value_spec lp es i e : repr lp es → es !! i = Some e → str_ok (vbytes (entry_value e)) →
  get_value lp (pos (take i es)) = Some (entry_value e).
Proof.
  intros Hr Hi [_ Hl]%str_ok_len. destruct (lpGet_correct lp es i e Hr Hi) as (x & Hx & Hg & _).
  unfold get_value, lpGetValue, entry_value in *. rewrite Hx in *. destruct x as [n|s].
  - destruct Hg as [-> _]. done.
  - destruct (Hg None) as (p & -> & Hrd). cbn [mbind option_bind]. simpl in Hl.
    rewrite uwrap_id by (split; [apply zlen_nonneg|unfold UINT32_MAX in Hl; lia]). by rewrite Hrd.
Qed.

Lemma strs_app es es' : strs (es ++ es') = strs es ++ strs es'.
Proof. apply fmap_app. Qed.

Lemma total_snoc es e : total (es ++ [e]) = total es + zlen (entry e).
Proof. unfold total. rewrite body_app, zlen_app, body_single. lia. Qed.

Lemma new_listpack junk capacity : is_byte junk → ∃ lp, lpNew junk capacity = Some lp ∧ repr lp [].
Proof. intros Hj. apply (lp_push_correct junk). by apply Forall_singleton. Qed.

End ListpackValues.
