(* ===== verification/SetType.v ===== *)
(** * Sets: the three encodings ([src/redis-stable/src/t_set.c])

    A set object is an intset, a listpack or a hash table; the operations convert
    it when an element or the number of elements no longer fits the encoding.  The
    hash table is known by the interface of DictSet.  An element goes in and out as
    a string, or as an integer when the string pointer is NULL; the flag
    [str_is_sds], which says whether the string must be copied, has no counterpart.

    [None] is an access outside an object, a failed assertion, or the use of the
    NULL that a listpack operation returns when the listpack would be too long. *)

From stdpp Require Import gmap.
From S2P Require Import Prelude Intset Util Listpack ListpackRepr ListpackElem ListpackEdit ListpackValues Dict DictSet.

Module SetType.
Import Listpack ListpackElem ListpackEdit Dict DictSet.
Export ListpackValues.

Inductive obj_encoding := OBJ_ENCODING_HT | OBJ_ENCODING_INTSET | OBJ_ENCODING_LISTPACK.

#[export] Instance obj_encoding_eq_dec : EqDecision obj_encoding.
Proof. solve_decision. Defined.

(** The configuration, fields of [struct redisServer]. *)
Record redisServer := {
  set_max_intset_entries : Z;
  set_max_listpack_entries : Z;
  set_max_listpack_value : Z
}.

Section SetType.
Context (server : redisServer).
(** What the allocator leaves in fresh memory. *)
Context (junk : Z).
Context {D P I : Type} {api : SetApi D P I}.

(** The encoding and the pointer of an object. *)
Inductive robj := SetHT (d : D) | SetIntset (iset : Intset.intset) | SetListpack (lp : list Z).

Definition encoding (o : robj) : obj_encoding :=
  match o with
  | SetHT _ => OBJ_ENCODING_HT
  | SetIntset _ => OBJ_ENCODING_INTSET
  | SetListpack _ => OBJ_ENCODING_LISTPACK
  end.

Definition createSetObject : robj := SetHT sd_create.
Definition createIntsetObject : robj := SetIntset Intset.intsetNew.
Definition createSetListpackObject : option robj := lp ← lpNew junk 0; Some (SetListpack lp).

(** [ll2string] into [tmpbuf], also [sdsfromlonglong]. *)
Definition int_to_str (llval : Z) : option (list Z) :=
  let tmpbuf := replicate (Z.to_nat Util.LONG_STR_SIZE) junk in
  '(tmpbuf, len) ← Util.ll2string tmpbuf 0 Util.LONG_STR_SIZE llval;
  rd 0 len tmpbuf.

Definition value_str (v : value) : option (list Z) :=
  match v with VStr str => Some str | VInt llval => int_to_str llval end.

Definition is_int (v : value) : bool := match v with VInt _ => true | VStr _ => false end.

(** lpLength may store the number of elements in the header. *)
Definition setTypeSize (subject : robj) : option (robj * Z) :=
  match subject with
  | SetHT d => Some (SetHT d, sd_size d)
  | SetIntset iset => Some (SetIntset iset, Intset.intsetLen iset)
  | SetListpack lp => '(n, lp) ← lpLength lp; Some (SetListpack lp, n)
  end.

(** ** Iteration *)

Record setTypeIterator := mkSetIter { si_encoding : obj_encoding; si_ii : Z; si_lpi : option Z; si_di : option I }.

Definition setTypeInitIterator (subject : robj) : setTypeIterator :=
  match subject with
  | SetHT d => mkSetIter OBJ_ENCODING_HT 0 None (Some (sd_getIterator d))
  | SetIntset _ => mkSetIter OBJ_ENCODING_INTSET 0 None None
  | SetListpack _ => mkSetIter OBJ_ENCODING_LISTPACK 0 None None
  end.

Definition setTypeReleaseIterator (subject : robj) (si : setTypeIterator) : option robj :=
  match si_encoding si, subject with
  | OBJ_ENCODING_HT, SetHT d => di ← si_di si; d ← sd_releaseIterator d di; Some (SetHT d)
  | OBJ_ENCODING_HT, _ => None
  | _, _ => Some subject
  end.

(** The result is [None] inside for -1. *)
Definition setTypeNext (subject : robj) (si : setTypeIterator) : option (robj * setTypeIterator * option value) :=
  match si_encoding si, subject with
  | OBJ_ENCODING_HT, SetHT d =>
      di ← si_di si;
      '(d, di, de) ← sd_next d di;
      Some (SetHT d, mkSetIter OBJ_ENCODING_HT (si_ii si) (si_lpi si) (Some di), fmap (M := option) VStr de)
  | OBJ_ENCODING_INTSET, SetIntset iset =>
      r ← Intset.intsetGet iset (uwrap 32 (si_ii si));
      Some (subject, mkSetIter OBJ_ENCODING_INTSET (si_ii si + 1) (si_lpi si) (si_di si), fmap (M := option) VInt r)
  | OBJ_ENCODING_LISTPACK, SetListpack lp =>
      lpi ← match si_lpi si with None => lpFirst lp | Some lpi => lpNext lp lpi end;
      match lpi with
      | None => Some (subject, si, None)
      | Some lpi =>
          v ← get_value lp lpi;
          Some (subject, mkSetIter OBJ_ENCODING_LISTPACK (si_ii si) (Some lpi) (si_di si), Some v)
      end
  | _, _ => None
  end.

Definition setTypeNextObject (subject : robj) (si : setTypeIterator)
    : option (robj * setTypeIterator * option (list Z)) :=
  '(subject, si, v) ← setTypeNext subject si;
  match v with
  | None => Some (subject, si, None)
  | Some v => s ← value_str v; Some (subject, si, Some s)
  end.

(** [while (setTypeNext(si, ...) != -1) { body }] in a state that holds the object
    ([get], [put]); the body says whether to go on, false being a [break]. *)
Section Each.
Context {A : Type} (get : A → option robj) (put : robj → A → A) (body : value → A → option (A * bool)).

Fixpoint each_loop (fuel : nat) (si : setTypeIterator) (st : A) : option (setTypeIterator * A) :=
  match fuel with
  | O => None
  | S fuel =>
      subject ← get st;
      '(subject, si, v) ← setTypeNext subject si;
      let st := put subject st in
      match v with
      | None => Some (si, st)
      | Some v => '(st, go) ← body v st; if (go : bool) then each_loop fuel si st else Some (si, st)
      end
  end.

(** Enough rounds for every element and the end. *)
Definition each_fuel (subject : robj) : nat :=
  S match subject with
    | SetHT d => Z.to_nat (sd_size d)
    | SetIntset iset => Z.to_nat (Intset.intsetLen iset)
    | SetListpack lp => length lp
    end.

(** From the creation of the iterator to its release. *)
Definition for_each (st : A) : option A :=
  subject ← get st;
  '(si, st) ← each_loop (each_fuel subject) (setTypeInitIterator subject) st;
  subject ← get st;
  subject ← setTypeReleaseIterator subject si;
  Some (put subject st).
End Each.

(** The loop over an object next to another state. *)
Definition for_each_in {A} (o : robj) (body : value → A → option A) (st : A) : option A :=
  '(_, st) ← for_each (λ st, Some st.1) (λ o st, (o, st.2))
    (λ v st, r ← body v st.2; Some ((st.1, r), true)) (o, st);
  Some st.

(** ** Conversion *)

Definition lp_append (lp : list Z) (v : value) : option (list Z) :=
  r ← match v with VStr str => lpAppend junk lp str | VInt llval => lpAppendInteger junk lp llval end;
  '(lp, _) ← r; Some lp.

(** [None] inside for [C_ERR]; [panic] is the answer of the allocator when it may fail. *)
Definition setTypeConvertAndExpand (setobj : robj) (enc : obj_encoding) (cap : Z) (panic : option bool)
    : option (option robj) :=
  if decide (encoding setobj = enc) then None
  else
    match enc with
    | OBJ_ENCODING_HT =>
        let d := sd_create in
        d ← match panic with
            | None => '(d, _) ← sd_expand d cap; Some (Some d)
            | Some malloc_ok =>
                '(d, r) ← sd_tryExpand d cap malloc_ok;
                Some (if r =? DICT_OK then Some d else None)
            end;
        match d with
        | None => Some None
        | Some d =>
            d ← for_each_in setobj
              (λ v d, element ← value_str v;
                      '(d, r) ← sd_add d element;
                      if r =? DICT_OK then Some d else None) d;
            Some (Some (SetHT d))
        end
    | OBJ_ENCODING_LISTPACK =>
        let estcap := uwrap 64 (cap * 2) in
        estcap ← match setobj with
                 | SetIntset iset =>
                     if 0 <? Intset.intsetLen iset then
                       lo ← Intset.intsetMin iset;
                       hi ← Intset.intsetMax iset;
                       let s1 := lpEstimateBytesRepeatedInteger lo cap in
                       let s2 := lpEstimateBytesRepeatedInteger hi cap in
                       Some (Z.max s1 s2)
                     else Some estcap
                 | _ => Some estcap
                 end;
        lp ← lpNew junk estcap;
        lp ← for_each_in setobj (λ v lp, lp_append lp v) lp;
        Some (Some (SetListpack lp))
    | OBJ_ENCODING_INTSET => None
    end.

(** With [panic], which always returns [C_OK]. *)
Definition convert_panic (setobj : robj) (enc : obj_encoding) (cap : Z) : option robj :=
  r ← setTypeConvertAndExpand setobj enc cap None; r.

Definition setTypeConvert (setobj : robj) (enc : obj_encoding) : option robj :=
  '(setobj, n) ← setTypeSize setobj; convert_panic setobj enc n.

Definition setTypeMaybeConvert (set : robj) (size_hint : Z) : option robj :=
  let convert :=
    match set with
    | SetListpack _ => set_max_listpack_entries server <? size_hint
    | SetIntset _ => set_max_intset_entries server <? size_hint
    | SetHT _ => false
    end in
  if convert then convert_panic set OBJ_ENCODING_HT size_hint else Some set.

Definition intsetMaxEntries : Z :=
  let max_entries := set_max_intset_entries server in
  if Z.shiftl 1 30 <=? max_entries then Z.shiftl 1 30 else max_entries.

Definition maybeConvertIntset (iset : Intset.intset) : option robj :=
  if intsetMaxEntries <? Intset.intsetLen iset then setTypeConvert (SetIntset iset) OBJ_ENCODING_HT
  else Some (SetIntset iset).

Definition maybeConvertToIntset (set : robj) : option robj :=
  match set with
  | SetIntset _ => Some set
  | _ =>
      '(set, n) ← setTypeSize set;
      if intsetMaxEntries <? n then Some set
      else
        iset ← for_each_in set
          (λ v iset, llval ← match v with VStr str => Util.string2ll str | VInt llval => Some llval end;
                   '(iset, success) ← Intset.intsetAdd junk iset llval;
                   if (success : bool) then Some iset else None) Intset.intsetNew;
        Some (SetIntset iset)
  end.

Definition setTypeCreate (value : list Z) (size_hint : Z) : option robj :=
  if bool_decide (is_Some (Util.string2ll value)) && (size_hint <=? set_max_intset_entries server) then
    Some createIntsetObject
  else if size_hint <=? set_max_listpack_entries server then createSetListpackObject
  else '(d, _) ← sd_expand sd_create size_hint; Some (SetHT d).

(** ** Addition, removal, membership *)

(** [lpFirst] and, when the listpack is not empty, [lpFind]. *)
Definition lp_find (lp str : list Z) : option (option Z) :=
  p ← lpFirst lp;
  match p with None => Some None | Some p => lpFind lp (Some p) str 0 end.

(** The intset branch for a string that is not an integer: which thresholds allow a listpack. *)
Definition intset_fits_listpack (iset : Intset.intset) (len : Z) : option bool :=
  let n := Intset.intsetLen iset in
  '(maxelelen, totsize) ←
    (if negb (n =? 0) then
       hi ← Intset.intsetMax iset;
       lo ← Intset.intsetMin iset;
       let elelen1 := Util.sdigits10 hi in
       let elelen2 := Util.sdigits10 lo in
       let s1 := lpEstimateBytesRepeatedInteger hi n in
       let s2 := lpEstimateBytesRepeatedInteger lo n in
       Some (Z.max elelen1 elelen2, Z.max s1 s2)
     else Some (0, 0));
  if (n <? set_max_listpack_entries server) && (len <=? set_max_listpack_value server) &&
     (maxelelen <=? set_max_listpack_value server) then
    lpSafeToAdd None (uwrap 64 (totsize + len))
  else Some false.

Definition lp_fits (lp : list Z) (n len : Z) : option bool :=
  if (n <? set_max_listpack_entries server) && (len <=? set_max_listpack_value server) then
    lpSafeToAdd (Some lp) len
  else Some false.

(** [setTypeConvertAndExpand] to a hash table, and [dictAdd], which must succeed. *)
Definition convert_and_add (set : robj) (cap : Z) (str : list Z) : option robj :=
  set ← convert_panic set OBJ_ENCODING_HT cap;
  match set with
  | SetHT d => '(d, r) ← sd_add d str; if r =? DICT_OK then Some (SetHT d) else None
  | _ => None
  end.

Definition add_to_intset (iset : Intset.intset) (llval : Z) : option (robj * Z) :=
  '(iset, success) ← Intset.intsetAdd junk iset llval;
  if (success : bool) then set ← maybeConvertIntset iset; Some (set, 1) else Some (SetIntset iset, 0).

Definition setTypeAddAux (set : robj) (v : value) : option (robj * Z) :=
  match v, set with
  | VInt llval, SetIntset iset => add_to_intset iset llval
  | _, _ =>
      str ← value_str v;
      let len := zlen str in
      match set with
      | SetHT d =>
          '(d, position) ← sd_findPosition d str;
          match position with
          | Some position => d ← sd_insertAt d str position; Some (SetHT d, 1)
          | None => Some (SetHT d, 0)
          end
      | SetListpack lp =>
          p ← lp_find lp str;
          match p with
          | Some _ => Some (SetListpack lp, 0)
          | None =>
              '(n, lp) ← lpLength lp;
              fits ← lp_fits lp n len;
              if (fits : bool) then lp ← lp_append lp v; Some (SetListpack lp, 1)
              else
                '(n, lp) ← lpLength lp;
                set ← convert_and_add (SetListpack lp) (n + 1) str;
                Some (set, 1)
          end
      | SetIntset iset =>
          match Util.string2ll str with
          | Some value => add_to_intset iset value
          | None =>
              fits ← intset_fits_listpack iset len;
              if (fits : bool) then
                set ← convert_panic set OBJ_ENCODING_LISTPACK (Intset.intsetLen iset + 1);
                match set with
                | SetListpack lp =>
                    lp ← lp_append lp (VStr str);
                    lp ← lpShrinkToFit junk lp;
                    Some (SetListpack lp, 1)
                | _ => None
                end
              else
                set ← convert_and_add set (Intset.intsetLen iset + 1) str;
                Some (set, 1)
          end
      end
  end.

Definition setTypeAdd (subject : robj) (value : list Z) : option (robj * Z) := setTypeAddAux subject (VStr value).

Definition remove_from_intset (iset : Intset.intset) (llval : Z) : option (robj * Z) :=
  '(iset, success) ← Intset.intsetRemove junk iset llval; Some (SetIntset iset, Z.b2z success).

Definition setTypeRemoveAux (setobj : robj) (v : value) : option (robj * Z) :=
  match v, setobj with
  | VInt llval, SetIntset iset => remove_from_intset iset llval
  | _, _ =>
      str ← value_str v;
      match setobj with
      | SetHT d => '(d, r) ← sd_delete d str; Some (SetHT d, Z.b2z (r =? DICT_OK))
      | SetListpack lp =>
          p ← lp_find lp str;
          match p with
          | Some p => r ← lpDelete junk lp p; '(lp, _) ← r; Some (SetListpack lp, 1)
          | None => Some (SetListpack lp, 0)
          end
      | SetIntset iset =>
          match Util.string2ll str with
          | Some llval => remove_from_intset iset llval
          | None => Some (SetIntset iset, 0)
          end
      end
  end.

Definition setTypeRemove (setobj : robj) (value : list Z) : option (robj * Z) := setTypeRemoveAux setobj (VStr value).

Definition find_in_intset (iset : Intset.intset) (llval : Z) : option (robj * bool) :=
  b ← Intset.intsetFind iset llval; Some (SetIntset iset, b).

Definition setTypeIsMemberAux (set : robj) (v : value) : option (robj * bool) :=
  match v, set with
  | VInt llval, SetIntset iset => find_in_intset iset llval
  | _, _ =>
      str ← value_str v;
      match set with
      | SetListpack lp => p ← lp_find lp str; Some (SetListpack lp, bool_decide (is_Some p))
      | SetIntset iset =>
          match Util.string2ll str with
          | Some llval => find_in_intset iset llval
          | None => Some (SetIntset iset, false)
          end
      | SetHT d => '(d, b) ← sd_find d str; Some (SetHT d, b)
      end
  end.

Definition setTypeIsMember (subject : robj) (value : list Z) : option (robj * bool) :=
  setTypeIsMemberAux subject (VStr value).

(** A copy with the same encoding; the intset and the listpack are copied as bytes. *)
Definition setTypeDup (o : robj) : option robj :=
  match o with
  | SetIntset iset => iset ← Intset.intset_of_blob (Intset.blob_of_intset iset); Some (SetIntset iset)
  | SetListpack lp => lp ← lpDup junk lp; Some (SetListpack lp)
  | SetHT d =>
      '(d', _) ← sd_expand sd_create (sd_size d);
      for_each_in o (λ v set, str ← value_str v; '(set, _) ← setTypeAdd set str; Some set) (SetHT d')
  end.
End SetType.

Arguments robj : clear implicits.
Arguments setTypeIterator : clear implicits.
End SetType.
