(* ===== verification/SetTypeRepr.v ===== *)
(** * Sets: representation and iteration

    The finite set of byte strings that an object stands for, in each encoding, and
    the order in which [setTypeNext] gives its elements. *)

From stdpp Require Import sorting gmap.
From S2P Require Import Prelude Intset Util Listpack ListpackRepr ListpackElem ListpackEdit ListpackValues Dict DictSet SetType.

Module SetTypeRepr.
Import Listpack ListpackRepr ListpackElem ListpackEdit Dict DictSet SetType.

(** ** Finding a string in a listpack *)

Lemma lp_find_spec lp es s : repr lp es →
  ∃ r, lp_find lp s = Some r ∧
    match r with
    | Some p => ∃ i, p = pos (take i es) ∧ strs es !! i = Some s
    | None => s ∉ strs es
    end.
Proof.
  intros Hr. unfold lp_find. destruct (lp_traversal_correct lp es Hr) as (-> & _ & _). cbn [mbind option_bind].
  pose proof Hr as (num & slack & _ & _ & Hes & _). destruct es as [|e es].
  { exists None. split; [done|]. apply not_elem_of_nil. }
  pose proof (lpFind_correct lp (e :: es) 0 s 0 Hr) as [E _]; [by right|]. simpl drop in E.
  change (Z.of_nat 0) with 0 in E. unfold ptr in *. rewrite decide_True in * by (simpl; lia). rewrite E.
  eexists. split; [done|]. pose proof (find_elem_spec s (e :: es) Hes) as Hf.
  destruct (find_elem s 0 0 (e :: es)) as [i|]; simpl; [|done]. by exists i.
Qed.

(** ** The set an object stands for *)

Section Repr.
Context (server : redisServer).
Context {D P I : Type} {api : SetApi D P I} {laws : SetLaws api}.
Abbreviation robj := (robj D).

(** The members of the sets of this program are strings whose length fits the C types. *)
Definition set_repr (o : robj) (X : gset (list Z)) : Prop :=
  set_Forall str_ok X ∧
  match o with
  | SetHT d => sd_valid d ∧ sd_keys d = X
  | SetIntset iset => ∃ l, Intset.repr iset l ∧ X = list_to_set (Util.sdec <$> l)
  | SetListpack lp => ∃ es, repr lp es ∧ NoDup (strs es) ∧ X = list_to_set (strs es)
  end.

(** The thresholds of the configuration on the compact encodings hold for every set,
    except within an operation. *)
Definition in_limits (o : robj) (X : gset (list Z)) : Prop :=
  match o with
  | SetIntset iset => Intset.intsetLen iset <= intsetMaxEntries server
  | SetListpack _ => Z.of_nat (size X) <= set_max_listpack_entries server ∧
      set_Forall (λ s, zlen s <= set_max_listpack_value server) X
  | SetHT _ => True
  end.

Definition set_ok (o : robj) (X : gset (list Z)) : Prop := set_repr o X ∧ in_limits o X.

(** The configuration keeps the intset below the size at which its 32-bit byte
    counts wrap; the thresholds are unsigned. *)
Record config_ok : Prop := {
  cfg_entries : 0 <= set_max_listpack_entries server;
  cfg_intset : 0 <= set_max_intset_entries server;
  cfg_safe : set_max_intset_entries server + 1 < Intset.safe_entries
}.

Lemma max_entries_eq : config_ok → intsetMaxEntries server = set_max_intset_entries server.
Proof.
  intros [_ _ Hs]. unfold intsetMaxEntries, Intset.safe_entries in *. change (Z.shiftl 1 30) with 1073741824.
  case_if; lia.
Qed.

Lemma array_int64 iset l : Intset.repr iset l → Forall is_int64 l.
Proof.
  intros [[He _ _ _ Hf] _]. apply (list.Forall_impl _ _ _ Hf). intros x Hx.
  unfold Intset.fits, is_int64, INT64_MIN, INT64_MAX in *. destruct He as [E|[E|E]]; rewrite E in Hx; simpl in Hx; lia.
Qed.

Lemma sdec_NoDup l : Forall is_int64 l → NoDup l → NoDup (Util.sdec <$> l).
Proof.
  intros Hf Hn. induction Hn as [|x l Hx Hn IH]; [constructor|]. apply list.Forall_cons in Hf as [Hx64 Hf].
  rewrite fmap_cons. constructor; [|by apply IH]. intros (y & E & Hy)%list_elem_of_fmap.
  rewrite list.Forall_forall in Hf. apply sdec_inj in E; [by subst y|done|by apply Hf].
Qed.

Lemma sdec_elem n l : Forall is_int64 l → is_int64 n → (Util.sdec n ∈ Util.sdec <$> l) ↔ n ∈ l.
Proof.
  intros Hf Hn. rewrite list_elem_of_fmap. rewrite list.Forall_forall in Hf. split.
  - intros (m & E & Hm). apply sdec_inj in E; [by subst m|done|by apply Hf].
  - intros H. by exists n.
Qed.

(** ** Iteration *)

(** The elements that the iterator has yet to give. *)
Definition si_left (o : robj) (si : setTypeIterator I) (l : list value) : Prop :=
  match o with
  | SetHT d => si_encoding si = OBJ_ENCODING_HT ∧ sd_valid d ∧
      ∃ di ks, si_di si = Some di ∧ sd_left d di ks ∧ l = VStr <$> ks
  | SetIntset iset => si_encoding si = OBJ_ENCODING_INTSET ∧
      ∃ ns i, Intset.repr iset ns ∧ si_ii si = Z.of_nat i ∧ (i ≤ length ns)%nat ∧ l = VInt <$> drop i ns
  | SetListpack lp => si_encoding si = OBJ_ENCODING_LISTPACK ∧
      ∃ es i, repr lp es ∧ l = entry_value <$> drop i es ∧
        match i with
        | O => si_lpi si = None
        | S j => si_lpi si = Some (pos (take j es)) ∧ (j < length es)%nat
        end
  end.

Lemma intset_get iset ns i : Intset.repr iset ns → (i ≤ length ns)%nat →
  Intset.intsetGet iset (uwrap 32 (Z.of_nat i)) = Some (ns !! i).
Proof.
  intros Hr Hi. pose proof Hr as [[_ Hl Hm _ _] _]. unfold Intset.safe_entries, zlen in *.
  rewrite uwrap_id by (simpl; lia). unfold Intset.intsetGet. rewrite Hl. unfold zlen. case_if.
  - rewrite swrap_id by (simpl; lia). destruct (ns !! i) as [v|] eqn:E.
    + by rewrite (Intset.get_repr iset ns _ v Hr) by (rewrite ?Nat2Z.id; done || lia).
    + apply lookup_ge_None_1 in E. lia.
  - by rewrite lookup_ge_None_2 by lia.
Qed.

Lemma set_next_spec o si l : si_left o si l → Forall value_ok l →
  ∃ si', setTypeNext o si = Some (o, si', head l) ∧
    match l with [] => setTypeReleaseIterator o si' = Some o | _ :: l' => si_left o si' l' end.
Proof.
  intros Hl Hok. destruct o as [d|iset|lp]; unfold setTypeNext; simpl in Hl.
  - destruct Hl as (-> & Hd & di & ks & -> & Hk & ->). cbn [mbind option_bind].
    destruct (slaw_next d di ks Hd Hk) as (di' & -> & Hk'). cbn [mbind option_bind].
    eexists. split; [by destruct ks|]. destruct ks as [|k ks]; simpl in *.
    + unfold setTypeReleaseIterator. simpl. by rewrite (slaw_release d di' _ Hd Hk').
    + split_and!; [done|done|]. by exists di', ks.
  - destruct Hl as (-> & ns & i & Hr & -> & Hi & ->). rewrite (intset_get iset ns i Hr Hi). cbn [mbind option_bind].
    eexists. destruct (ns !! i) as [n|] eqn:E.
    + rewrite (drop_S ns n i E). split; [done|]. simpl. split; [done|]. exists ns, (S i).
      apply lookup_lt_Some in E. split_and!; [done|simpl; lia|lia|done].
    + apply lookup_ge_None_1 in E. by rewrite drop_ge by done.
  - destruct Hl as (He & es & i & Hr & -> & Hi). destruct (lp_traversal_correct lp es Hr) as (Hfirst & _ & Hnext).
    assert (match si_lpi si with None => lpFirst lp | Some lpi => lpNext lp lpi end = Some (ptr es i)) as ->.
    { destruct i as [|j]; [by rewrite Hi|]. destruct Hi as [-> Hj]. by apply Hnext. }
    rewrite He. cbn [mbind option_bind]. unfold ptr. destruct (es !! i) as [e|] eqn:E.
    + pose proof (lookup_lt_Some _ _ _ E). rewrite decide_True by done. rewrite (drop_S es e i E) in Hok |- *.
      apply list.Forall_cons in Hok as [Hv _]. rewrite (get_value_spec lp es i e Hr E) by by apply vbytes_ok.
      cbn [mbind option_bind]. eexists. split; [done|]. split; [done|]. exists es, (S i). by split_and!.
    + apply lookup_ge_None_1 in E. rewrite decide_False by lia. rewrite drop_ge by done. exists si. split; [done|].
      unfold setTypeReleaseIterator. by rewrite He.
Qed.

Lemma set_release_spec o si l : si_left o si l → setTypeReleaseIterator o si = Some o.
Proof.
  destruct o as [d|iset|lp]; unfold setTypeReleaseIterator; simpl.
  - intros (-> & Hd & di & ks & -> & Hk & ->). cbn [mbind option_bind]. by rewrite (slaw_release d di _ Hd Hk).
  - by intros [-> _].
  - by intros [-> _].
Qed.

(** An intset gives integers, a hash table strings. *)
Definition gives (o : robj) (v : value) : Prop :=
  match o with SetHT _ => is_int v = false | SetIntset _ => is_int v = true | SetListpack _ => True end.

(** A new iterator has every member to give, each once. *)
Lemma set_init_spec o X : set_repr o X →
  ∃ l, si_left o (setTypeInitIterator o) l ∧ (length l < each_fuel o)%nat ∧ Forall value_ok l ∧
    Forall (gives o) l ∧ NoDup (vbytes <$> l) ∧ X = list_to_set (vbytes <$> l).
Proof.
  intros [Hok Ho]. destruct o as [d|iset|lp].
  - destruct Ho as [Hd <-]. destruct (slaw_getIterator d Hd) as (ks & Hl & Hn & E). exists (VStr <$> ks).
    assert (vbytes <$> (VStr <$> ks) = ks) as Ev by (rewrite <-list_fmap_compose; apply list_fmap_id).
    rewrite Ev. split_and!; [|..|done|done].
    + simpl. split_and!; [done|done|]. by exists (sd_getIterator d), ks.
    + rewrite length_fmap. unfold each_fuel. rewrite (slaw_size d Hd), E, size_list_to_set by done. lia.
    + apply Forall_fmap, list.Forall_forall. intros k Hk. apply (Hok k). rewrite E. by apply elem_of_list_to_set.
    + by apply Forall_fmap, list.Forall_forall.
  - destruct Ho as (ns & Hr & ->). exists (VInt <$> ns). pose proof (array_int64 _ _ Hr) as H64.
    assert (vbytes <$> (VInt <$> ns) = Util.sdec <$> ns) as Ev by by rewrite <-list_fmap_compose.
    rewrite Ev. split_and!; [|..|done].
    + simpl. split; [done|]. exists ns, 0%nat. split_and!; [done|done|lia|done].
    + rewrite length_fmap. unfold each_fuel, Intset.intsetLen. rewrite (Intset.array_len _ _ (Intset.repr_array _ _ Hr)).
      unfold zlen. lia.
    + by apply Forall_fmap.
    + by apply Forall_fmap, list.Forall_forall.
    + apply sdec_NoDup; [done|]. apply Intset.sorted_NoDup, Hr.
  - destruct Ho as (es & Hr & Hn & ->). exists (entry_value <$> es).
    assert (vbytes <$> (entry_value <$> es) = strs es) as Ev by (unfold strs; by rewrite <-list_fmap_compose).
    rewrite Ev. pose proof Hr as (num & slack & E & _ & Hes & Ht & _). split_and!; [|..|done|done].
    + simpl. split; [done|]. exists es, 0%nat. by split_and!.
    + rewrite length_fmap. unfold each_fuel. pose proof (zlen_body_ge es Hes). pose proof (image_len num es slack).
      pose proof (zlen_nonneg slack). rewrite E. unfold total, LP_HDR_SIZE, zlen in *. lia.
    + apply Forall_fmap, list.Forall_forall. intros e He. simpl. destruct (entry_value e) as [s|n] eqn:Ev'.
      * apply (Hok s). apply elem_of_list_to_set. unfold strs. apply list_elem_of_fmap. exists e. by rewrite Ev'.
      * rewrite list.Forall_forall in Hes. by apply (entry_int_ok e); [apply Hes|].
    + by apply list.Forall_forall.
Qed.

(** ** The loop *)

(** [Inv done st] holds when the elements [done] have been treated; [Q] after a [break]. *)
Section Loop.
Context {A : Type} (get : A → option robj) (put : robj → A → A) (body : value → A → option (A * bool)).
Context (o : robj) (Inv : list value → A → Prop) (Q : A → Prop).
Context (Hget : ∀ st, (∃ done, Inv done st) ∨ Q st → get st = Some o ∧ put o st = st).

Lemma each_loop_spec fuel si done todo st :
  si_left o si todo → Forall value_ok todo → Forall (gives o) todo → (length todo < fuel)%nat → Inv done st →
  (∀ dn v td st, done ++ todo = dn ++ v :: td → value_ok v → gives o v → Inv dn st →
     ∃ st' go, body v st = Some (st', go) ∧ if go : bool then Inv (dn ++ [v]) st' else Q st') →
  ∃ si' st', each_loop get put body fuel si st = Some (si', st') ∧ setTypeReleaseIterator o si' = Some o ∧
    (Inv (done ++ todo) st' ∨ Q st').
Proof using Hget laws.
  revert si done todo st. induction fuel as [|fuel IH]; intros si done todo st Hl Hok Hgi Hf Hi Hb; [lia|].
  cbn [each_loop]. destruct (Hget st) as [-> Hput]; [left; by exists done|]. cbn [mbind option_bind].
  destruct (set_next_spec o si todo Hl Hok) as (si' & -> & Hn). cbn [mbind option_bind]. rewrite Hput.
  destruct todo as [|v todo]; simpl.
  { exists si', st. rewrite app_nil_r. split_and!; [done|done|by left]. }
  apply list.Forall_cons in Hok as [Hv Hok]. apply list.Forall_cons in Hgi as [Hg Hgi]. simpl in Hf.
  destruct (Hb done v todo st eq_refl Hv Hg Hi) as (st' & go & -> & Hgo). cbn [mbind option_bind]. destruct go.
  - destruct (IH si' (done ++ [v]) todo st') as (si2 & st2 & E & Hr & Hq); [done|done|done|lia|done| |].
    { intros dn w td st0 E. apply (Hb dn w td st0). by rewrite <-E, <-app_assoc. }
    exists si2, st2. rewrite <-app_assoc in Hq. by split_and!.
  - exists si', st'. split_and!; [done|by eapply set_release_spec|by right].
Qed.

Lemma for_each_spec X st :
  set_repr o X → Inv [] st →
  (∀ l, NoDup (vbytes <$> l) → X = list_to_set (vbytes <$> l) →
    ∀ dn v td st, l = dn ++ v :: td → value_ok v → gives o v → Inv dn st →
     ∃ st' go, body v st = Some (st', go) ∧ if go : bool then Inv (dn ++ [v]) st' else Q st') →
  ∃ st' l, for_each get put body st = Some st' ∧ NoDup (vbytes <$> l) ∧ X = list_to_set (vbytes <$> l) ∧
    Forall value_ok l ∧ Forall (gives o) l ∧ (Inv l st' ∨ Q st').
Proof using Hget laws.
  intros Hr Hi Hb. destruct (set_init_spec o X Hr) as (l & Hl & Hf & Hok & Hgi & Hn & E).
  destruct (each_loop_spec (each_fuel o) (setTypeInitIterator o) [] l st) as (si' & st' & El & Hrel & Hq);
    [done|done|done|done|done|by apply Hb|].
  exists st', l. unfold for_each. destruct (Hget st) as [-> _]; [left; by exists []|]. cbn [mbind option_bind].
  rewrite El. cbn [mbind option_bind]. destruct (Hget st') as [-> Hput]; [destruct Hq; [left; by exists l|by right]|].
  cbn [mbind option_bind]. rewrite Hrel. cbn [mbind option_bind]. rewrite Hput. by split_and!.
Qed.
End Loop.

(** The elements that remain are new. *)
Lemma fresh_value (X : gset (list Z)) l dn v td : NoDup (vbytes <$> l) → X = list_to_set (vbytes <$> l) → l = dn ++ v :: td →
  (vbytes v ∉ vbytes <$> dn) ∧ vbytes v ∈ X.
Proof.
  intros Hn -> ->. rewrite fmap_app, fmap_cons in Hn. split.
  - apply list.NoDup_app in Hn as (_ & Hd & _). intros Hin. apply (Hd _ Hin). by left.
  - rewrite elem_of_list_to_set, fmap_app, fmap_cons. apply elem_of_app. right. by left.
Qed.

Lemma for_each_in_spec {A} (o : robj) X (body : value → A → option A) (Inv : list value → A → Prop) st :
  set_repr o X → Inv [] st →
  (∀ dn v st, value_ok v → gives o v → (vbytes v ∉ vbytes <$> dn) → vbytes v ∈ X → Inv dn st →
     ∃ st', body v st = Some st' ∧ Inv (dn ++ [v]) st') →
  ∃ st' l, for_each_in o body st = Some st' ∧ NoDup (vbytes <$> l) ∧ X = list_to_set (vbytes <$> l) ∧
    Forall value_ok l ∧ Forall (gives o) l ∧ Inv l st'.
Proof using laws.
  intros Hr Hi Hb. unfold for_each_in.
  edestruct (for_each_spec (λ st : robj * A, Some st.1) (λ o st, (o, st.2)) (λ v st, r ← body v st.2; Some ((st.1, r), true)) o
    (λ dn st, st.1 = o ∧ Inv dn st.2) (λ _, False)) with (X := X) (st := (o, st)) as ([o' st'] & l & E & Hn & Ex & Hok & Hgi & [[Ho Hinv]|[]]).
  - intros [o1 st1] [[dn [Ho _]]|[]]. simpl in *. by subst o1.
  - exact Hr.
  - split; [done|exact Hi].
  - intros l Hn Ex dn v td [o1 st1] El Hv Hg [Ho Hinv]. simpl in *. destruct (fresh_value X l dn v td Hn Ex El) as [H1 H2].
    destruct (Hb dn v st1 Hv Hg H1 H2 Hinv) as (st2 & -> & Hinv2). cbn [mbind option_bind]. by exists (o1, st2), true.
  - exists st', l. rewrite E. cbn [mbind option_bind]. by split_and!.
Qed.
End Repr.
End SetTypeRepr.
