(* ===== verification/SetTypeProofs.v ===== *)
(** * Sets: correctness of the operations

    Each operation acts on the finite set of byte strings that the object stands
    for, whatever the encodings before and after; conversions keep the set. *)

From stdpp Require Import sorting gmap.
From S2P Require Import Prelude Intset Util Listpack ListpackRepr ListpackElem ListpackEdit ListpackValues Dict DictSet SetType SetTypeRepr.

Module SetTypeProofs.
Import Listpack ListpackRepr ListpackElem ListpackEdit Dict DictSet SetType SetTypeRepr.

(** ** Integers as strings and as listpack entries *)

Lemma int_to_str_spec junk n : is_int64 n → int_to_str junk n = Some (Util.sdec n).
Proof. intros Hn. by apply print_int. Qed.

Lemma value_str_spec junk v : value_ok v → value_str junk v = Some (vbytes v).
Proof. destruct v as [s|n]; [done|apply int_to_str_spec]. Qed.

(** Digits. *)
Lemma dec_len_mono v w : 0 <= v <= w → w <= UINT64_MAX → zlen (Util.dec v) <= zlen (Util.dec w).
Proof.
  intros Hv Hw. rewrite <-!Util.digits10_dec by lia.
  destruct (Util.digits10_spec v) as [(Hv1 & Hv2 & _) _]; [lia|]. destruct (Util.digits10_spec w) as [(Hw1 & _ & Hw3) _]; [lia|].
  destruct (Z.le_gt_cases (Util.digits10 v) (Util.digits10 w)) as [|Hgt]; [done|]. destruct Hv2 as [|Hv2]; [lia|].
  pose proof (Z.pow_le_mono_r 10 (Util.digits10 w) (Util.digits10 v - 1) ltac:(lia) ltac:(lia)). lia.
Qed.

Lemma sdigits10_sdec v : is_int64 v → Util.sdigits10 v = zlen (Util.sdec v).
Proof.
  intros Hv. unfold Util.sdigits10. unfold is_int64, INT64_MIN, INT64_MAX in Hv. case_if.
  - assert ((if negb (v =? INT64_MIN) then uwrap 64 (- v) else uwrap 64 (INT64_MAX + 1)) = - v) as ->.
    { destruct (v =? INT64_MIN) eqn:E; cbn [negb]; [|apply uwrap_id; simpl; lia]. apply Z.eqb_eq in E. by rewrite E. }
    rewrite Util.sdec_neg, zlen_cons by done. rewrite Util.digits10_dec by (unfold UINT64_MAX; lia). lia.
  - rewrite Util.sdec_pos by done. apply Util.digits10_dec. unfold UINT64_MAX. lia.
Qed.

Lemma sdec_len_between lo x hi : is_int64 lo → is_int64 hi → lo <= x <= hi →
  zlen (Util.sdec x) <= Z.max (Util.sdigits10 hi) (Util.sdigits10 lo).
Proof.
  intros Hlo Hhi Hx. rewrite !sdigits10_sdec by done. unfold is_int64, INT64_MIN, INT64_MAX in *.
  destruct (Z.lt_ge_cases x 0) as [H|H].
  - rewrite (Util.sdec_neg x), (Util.sdec_neg lo), !zlen_cons by lia.
    pose proof (dec_len_mono (- x) (- lo) ltac:(lia)). unfold UINT64_MAX in *. lia.
  - rewrite (Util.sdec_pos x), (Util.sdec_pos hi) by lia.
    pose proof (dec_len_mono x hi ltac:(lia)). unfold UINT64_MAX in *. lia.
Qed.

(** Bytes an integer takes in a listpack. *)
Definition int_size (v : Z) : Z :=
  if (0 <=? v) && (v <=? 127) then 2
  else if (-4096 <=? v) && (v <=? 4095) then 3
  else if (-32768 <=? v) && (v <=? 32767) then 4
  else if (-8388608 <=? v) && (v <=? 8388607) then 5
  else if (-2147483648 <=? v) && (v <=? 2147483647) then 6 else 10.

Lemma entry_size_int v : lpEntrySizeInteger v = int_size v.
Proof. unfold lpEntrySizeInteger, int_size, lpEncodeIntegerGetType. repeat case_if; done. Qed.

Lemma int_entry_len v : zlen (entry (lpEncodeIntegerGetType v)) = int_size v.
Proof. rewrite zlen_entry. apply entry_size_int. Qed.

Lemma int_size_range v : 2 <= int_size v <= 10.
Proof. unfold int_size. repeat case_if; lia. Qed.

Lemma int_size_between lo x hi : lo <= x <= hi → int_size x <= Z.max (int_size lo) (int_size hi).
Proof.
  intros Hx. destruct (Z.lt_ge_cases x 0) as [H|H].
  - transitivity (int_size lo); [|lia]. unfold int_size. repeat (case_if; try lia).
  - transitivity (int_size hi); [|lia]. unfold int_size. repeat (case_if; try lia).
Qed.

Lemma estimate_eq v n : 0 <= n < 2 ^ 32 → lpEstimateBytesRepeatedInteger v n = 7 + int_size v * n.
Proof.
  intros Hn. pose proof (int_size_range v). unfold lpEstimateBytesRepeatedInteger, LP_HDR_SIZE. rewrite entry_size_int.
  rewrite (uwrap_id 64 (int_size v * n)) by nia. rewrite uwrap_id by nia. lia.
Qed.

(** ** The listpack operations that a set uses *)

Lemma list_to_set_snoc (l : list (list Z)) (x : list Z) : list_to_set (l ++ [x]) =@{gset (list Z)} {[x]} ∪ list_to_set l.
Proof. rewrite list_to_set_app_L. simpl. set_solver. Qed.

Section Proofs.
Context (server : redisServer) (junk : Z) (Hjunk : is_byte junk).
Context {D P I : Type} {api : SetApi D P I} {laws : SetLaws api}.
Abbreviation robj := (robj D).
Abbreviation set_ok := (set_ok server).
Abbreviation in_limits := (in_limits server).
Implicit Types (o : robj) (X : gset (list Z)).

(** Appending an element when there is room. *)
Lemma lp_append_spec lp es v : repr lp es → value_ok v → total es + 10 + zlen (vbytes v) <= UINT32_MAX →
  ∃ lp' e, lp_append junk lp v = Some lp' ∧ repr lp' (es ++ [e]) ∧ vbytes (entry_value e) = vbytes v ∧
    total (es ++ [e]) <= total es + match v with VStr s => 10 + zlen s | VInt n => int_size n end.
Proof.
  intros Hr Hv Ht. set (x := match v with VStr s => inl s | VInt n => inr n end : listpackEntry).
  assert (entry_ok x) as Hx by (destruct v; [by apply str_ok_len|done]).
  assert (zlen (entry (encode_entry x)) <= match v with VStr s => 10 + zlen s | VInt n => int_size n end) as Hl.
  { destruct v as [s|n]; unfold x; [|by rewrite <-int_entry_len]. rewrite zlen_entry.
    simpl. unfold encode_string. pose proof (zlen_nonneg s). destruct (lpStringToInt64 s) as [n|] eqn:Hn.
    - pose proof (int_entry_len n) as E. rewrite zlen_entry in E. rewrite E. pose proof (int_size_range n). lia.
    - rewrite str_enc_len. pose proof (backlen_bytes_range ((if zlen s <? 64 then 1 else if zlen s <? 4096 then 2 else 5) + zlen s)).
      repeat case_if; lia. }
  assert (total (es ++ [encode_entry x]) <= UINT32_MAX) as Hfit.
  { rewrite total_snoc. destruct v as [s|n]; simpl in Ht; [lia|]. pose proof (int_size_range n). pose proof (zlen_nonneg (Util.sdec n)). lia. }
  destruct (proj2 (lp_push_correct junk) lp es x Hr Hx) as [[[_ Hbad]|(_ & lp' & E & Hr')] _]; [lia|].
  exists lp', (encode_entry x). split_and!; [|done| |].
  - unfold lp_append. destruct v; unfold x in E; by rewrite E.
  - apply entry_of_value; [done|]. fold x. by apply (total_entry_fits es _ []).
  - rewrite total_snoc. lia.
Qed.

(** ** Conversion *)

Lemma convert_to_ht o X cap : set_repr o X → encoding o ≠ OBJ_ENCODING_HT → 0 <= cap →
  ∃ d, convert_panic junk o OBJ_ENCODING_HT cap = Some (SetHT d) ∧ sd_valid d ∧ sd_keys d = X.
Proof using laws Hjunk.
  intros Hr He Hcap. unfold convert_panic, setTypeConvertAndExpand. rewrite decide_False by done.
  destruct slaw_create as [Hv Hk]. destruct (slaw_expand sd_create cap Hv Hcap) as (d1 & r1 & -> & Hv1 & Hk1).
  cbn [mbind option_bind].
  match goal with |- context [for_each_in o ?b d1] => set (body := b) end.
  destruct (for_each_in_spec o X body (λ dn d, sd_valid d ∧ sd_keys d = list_to_set (vbytes <$> dn)) d1 Hr)
    as (d' & l & -> & Hn & -> & _ & _ & Hv' & Hk').
  - split; [done|]. by rewrite Hk1, Hk.
  - intros dn v d Hvo _ Hfresh _ [Hd Hkd]. unfold body. rewrite value_str_spec by done. cbn [mbind option_bind].
    destruct (slaw_add d (vbytes v) Hd) as (d2 & -> & Hd2 & Hk2). cbn [mbind option_bind].
    rewrite decide_False by (rewrite Hkd, elem_of_list_to_set; done). exists d2.
    split_and!; [done|done|]. rewrite Hk2, Hkd, fmap_app. symmetry. apply list_to_set_snoc.
  - exists d'. by split_and!.
Qed.

(** From an intset, when the listpack cannot become too long. *)
Lemma convert_to_listpack iset ns cap m : Intset.repr iset ns → 0 <= cap → (∀ n, n ∈ ns → int_size n <= m) →
  0 <= m → 7 + m * zlen ns + 32 <= UINT32_MAX →
  ∃ lp es, convert_panic junk (SetIntset iset) OBJ_ENCODING_LISTPACK cap = Some (SetListpack (D := D) lp) ∧ repr lp es ∧
    NoDup (strs es) ∧ list_to_set (strs es) =@{gset (list Z)} list_to_set (Util.sdec <$> ns) ∧ total es <= 7 + m * zlen ns.
Proof using laws Hjunk.
  intros Hr Hcap Hm Hm0 Hfit. unfold convert_panic, setTypeConvertAndExpand. rewrite decide_False by done.
  pose proof (array_int64 _ _ Hr) as H64.
  assert (∃ estcap, (if 0 <? Intset.intsetLen iset then
            lo ← Intset.intsetMin iset; hi ← Intset.intsetMax iset;
            Some (Z.max (lpEstimateBytesRepeatedInteger lo cap) (lpEstimateBytesRepeatedInteger hi cap))
          else Some (uwrap 64 (cap * 2))) = Some estcap) as [estcap ->].
  { case_if; [|by eexists]. pose proof (Intset.array_len _ _ (Intset.repr_array _ _ Hr)) as Hlen. unfold Intset.intsetLen in *.
    destruct (Intset.intset_ordered_access iset (list_to_set ns) 0) as (l & lo & hi & _ & _ & _ & _ & -> & -> & _);
      [by exists ns| |done|by eexists].
    destruct ns; [unfold zlen in Hlen; simpl in Hlen; lia|]. set_solver. }
  cbn [mbind option_bind]. destruct (new_listpack junk estcap Hjunk) as (lp0 & -> & Hr0). cbn [mbind option_bind].
  set (o := SetIntset (D := D) iset). set (X := list_to_set (Util.sdec <$> ns) : gset (list Z)).
  assert (set_repr o X) as Ho.
  { split; [|by exists ns]. intros s Hs. unfold X in Hs. apply elem_of_list_to_set, list_elem_of_fmap in Hs as (n & -> & Hn).
    apply sdec_ok. rewrite list.Forall_forall in H64. by apply H64. }
  assert (∀ n, Util.sdec n ∈ X → is_int64 n → n ∈ ns) as HX.
  { intros n Hn Hn64. unfold X in Hn. rewrite elem_of_list_to_set in Hn. by apply sdec_elem in Hn. }
  assert (∀ dn : list value, NoDup (vbytes <$> dn) → (∀ v, v ∈ dn → vbytes v ∈ X) → zlen dn <= zlen ns) as Hcount.
  { intros dn Hn Hin. unfold zlen. rewrite <-(length_fmap vbytes dn), <-(length_fmap Util.sdec ns).
    apply inj_le, submseteq_length, NoDup_submseteq; [done|]. intros s (v & -> & Hv)%list_elem_of_fmap.
    apply Hin in Hv. unfold X in Hv. by rewrite elem_of_list_to_set in Hv. }
  destruct (for_each_in_spec o X (λ v lp, lp_append junk lp v)
    (λ dn lp, ∃ es, repr lp es ∧ strs es = vbytes <$> dn ∧ total es <= 7 + m * zlen dn ∧ NoDup (vbytes <$> dn) ∧
       ∀ v, v ∈ dn → vbytes v ∈ X) lp0 Ho)
    as (lp & l & -> & Hn & Ex & _ & _ & es & Hre & Hes & Ht & _ & Hin).
  - exists []. split_and!; [done|done|by rewrite zlen_nil, Z.mul_0_r|constructor|]. intros v Hv. by apply elem_of_nil in Hv.
  - intros dn v lp Hv Hg Hfresh Hvx (es & Hre & Hes & Ht & Hnd & Hin).
    assert (NoDup (vbytes <$> dn ++ [v])) as Hnd'.
    { rewrite fmap_app. apply list.NoDup_app. split_and!; [done| |apply NoDup_singleton].
      intros s Hs E. apply list_elem_of_singleton in E. by subst s. }
    assert (∀ w, w ∈ dn ++ [v] → vbytes w ∈ X) as Hin'.
    { intros w [?|E]%elem_of_app; [by apply Hin|]. apply list_elem_of_singleton in E. by subst w. }
    pose proof (Hcount _ Hnd Hin) as Hle. pose proof (Hcount _ Hnd' Hin') as Hle'. rewrite zlen_app in Hle'. change (zlen [v]) with 1 in Hle'.
    destruct v as [s|n]; [by simpl in Hg|]. simpl in Hvx, Hv. pose proof (Hm n (HX n Hvx Hv)) as Hsz.
    pose proof (Util.sdec_len n Hv) as Hsl. unfold Util.LONG_STR_SIZE in Hsl.
    destruct (lp_append_spec lp es (VInt n) Hre Hv) as (lp' & e & -> & Hre' & Ee & Ht'); [simpl; nia|].
    exists lp'. split; [done|]. exists (es ++ [e]). split_and!; [done| |rewrite zlen_app; change (zlen [VInt n]) with 1; nia|done|done].
    rewrite strs_app, Hes, fmap_app. unfold strs. simpl. by rewrite Ee.
  - cbn [mbind option_bind]. exists lp, es. split_and!; [done|done|by rewrite Hes|by rewrite Hes|].
    pose proof (Hcount l Hn Hin). nia.
Qed.

Lemma convert_whole o X : set_repr o X → encoding o ≠ OBJ_ENCODING_HT →
  ∃ d, setTypeConvert junk o OBJ_ENCODING_HT = Some (SetHT d) ∧ sd_valid d ∧ sd_keys d = X.
Proof using laws Hjunk.
  intros [Hok Hr] He. unfold setTypeConvert. destruct o as [d|iset|lp]; [done| |]; simpl.
  - apply convert_to_ht; [by split|done|]. destruct Hr as (ns & Hr & _). unfold Intset.intsetLen.
    rewrite (Intset.array_len _ _ (Intset.repr_array _ _ Hr)). apply zlen_nonneg.
  - destruct Hr as (es & Hr & Hn & ->). destruct (lpLength_correct lp es Hr) as (lp' & -> & Hr'). cbn [mbind option_bind].
    apply convert_to_ht; [|done|apply zlen_nonneg]. split; [done|]. by exists es.
Qed.

(** ** Adding *)

Lemma ht_ok d X : sd_valid d → sd_keys d = X → set_Forall str_ok X → set_ok (SetHT d) X.
Proof. intros Hd Hk Hok. by split. Qed.

Lemma add_str_ok X s : set_Forall str_ok X → str_ok s → set_Forall str_ok ({[s]} ∪ X).
Proof. intros HX Hs. apply set_Forall_union; [by apply set_Forall_singleton|done]. Qed.

Lemma strs_size es : NoDup (strs es) → Z.of_nat (size (list_to_set (strs es) : gset (list Z))) = zlen es.
Proof. intros Hn. rewrite size_list_to_set by done. unfold strs. by rewrite length_fmap. Qed.

(** A listpack within the limits stays so when it gets one more element that fits, or fewer. *)
Lemma listpack_limits_add lp X s : (s ∉ X) → Z.of_nat (size X) < set_max_listpack_entries server →
  zlen s <= set_max_listpack_value server → set_Forall (λ s, zlen s <= set_max_listpack_value server) X →
  in_limits (SetListpack (D := D) lp) ({[s]} ∪ X).
Proof.
  intros Hni Hn Hl HX. split; [rewrite size_union by set_solver; rewrite size_singleton; lia|].
  apply set_Forall_union; [by apply set_Forall_singleton|done].
Qed.

Lemma listpack_limits_sub lp lp' X Y : in_limits (SetListpack (D := D) lp) X → Y ⊆ X → in_limits (SetListpack (D := D) lp') Y.
Proof. intros [Hn HX] Hs. split; [apply subseteq_size in Hs; lia|]. intros s Hin. by apply HX, Hs. Qed.

Lemma intset_len_eq iset ns : Intset.repr iset ns → Intset.intsetLen iset = zlen ns.
Proof. intros Hr. apply (Intset.array_len _ _ (Intset.repr_array _ _ Hr)). Qed.

Lemma sdec_set_size iset ns : Intset.repr iset ns → Z.of_nat (size (list_to_set (Util.sdec <$> ns) : gset (list Z))) = zlen ns.
Proof.
  intros Hr. rewrite size_list_to_set; [by rewrite length_fmap|].
  apply sdec_NoDup; [by eapply array_int64|apply Intset.sorted_NoDup, Hr].
Qed.

(** Two intsets with the same members have the same length. *)
Lemma intset_subset_len iset iset' ns ns' : Intset.repr iset ns → Intset.repr iset' ns' →
  (∀ x, x ∈ ns' → x ∈ ns) → Intset.intsetLen iset' <= Intset.intsetLen iset.
Proof.
  intros Hr Hr' Hsub. rewrite (intset_len_eq _ _ Hr), (intset_len_eq _ _ Hr'). unfold zlen. apply inj_le, submseteq_length.
  apply NoDup_submseteq; [apply Intset.sorted_NoDup, Hr'|done].
Qed.

Lemma sdec_union (ns ns' : list Z) n : (∀ x, x ∈ ns' ↔ x = n ∨ x ∈ ns) →
  list_to_set (Util.sdec <$> ns') =@{gset (list Z)} {[Util.sdec n]} ∪ list_to_set (Util.sdec <$> ns).
Proof.
  intros H. apply set_eq. intros s. rewrite elem_of_union, elem_of_singleton, !elem_of_list_to_set, !list_elem_of_fmap.
  split; [intros (x & -> & [->|Hx]%H); eauto|]. intros [->|(x & -> & Hx)]; eexists; (split; [done|]); apply H; auto.
Qed.

Lemma sdec_in (ns : list Z) n : Forall is_int64 ns → is_int64 n →
  (Util.sdec n ∈ (list_to_set (Util.sdec <$> ns) : gset (list Z))) ↔ n ∈ ns.
Proof. intros Hf Hn. rewrite elem_of_list_to_set. by apply sdec_elem. Qed.

Lemma add_to_intset_spec iset X n : config_ok server → set_ok (SetIntset (D := D) iset) X → is_int64 n →
  ∃ o', add_to_intset server junk iset n = Some (o', Z.b2z (bool_decide (Util.sdec n ∉ X))) ∧ set_ok o' ({[Util.sdec n]} ∪ X).
Proof using laws Hjunk.
  intros Hcfg [[Hok (ns & Hr & ->)] Hlim] Hn. simpl in Hlim. pose proof Hcfg as [_ _ Hsafe]. rewrite max_entries_eq in Hlim by done.
  pose proof (intset_len_eq _ _ Hr) as Hlen. pose proof (array_int64 _ _ Hr) as H64.
  destruct (Intset.add_spec junk iset ns n Hr Hn) as (st' & ns' & E & Hr' & _ & Hx); [lia|].
  pose proof (sdec_union ns ns' n Hx) as Eu. assert (set_repr (SetIntset (D := D) st') ({[Util.sdec n]} ∪ list_to_set (Util.sdec <$> ns))) as Hrep.
  { split; [by apply add_str_ok, sdec_ok|]. by exists ns'. }
  unfold add_to_intset. rewrite E. cbn [mbind option_bind].
  assert (bool_decide (Util.sdec n ∉ (list_to_set (Util.sdec <$> ns) : gset (list Z))) = bool_decide (n ∉ ns)) as ->.
  { apply bool_decide_ext. by rewrite sdec_in. }
  case_bool_decide as Hin.
  - unfold maybeConvertIntset. case_if.
    + destruct (convert_whole (SetIntset st') _ Hrep) as (d & -> & Hd & Hk); [done|]. cbn [mbind option_bind].
      exists (SetHT d). split; [done|]. apply ht_ok; [done|done|apply Hrep].
    + exists (SetIntset st'). by split_and!.
  - exists (SetIntset st'). split; [done|]. split; [done|]. simpl. rewrite max_entries_eq by done.
    assert (Intset.intsetLen st' <= Intset.intsetLen iset); [|lia].
    apply (intset_subset_len iset st' ns ns'); [done|done|]. by intros x [->|?]%Hx.
Qed.

(** The thresholds keep the listpack below the 1 GB limit. *)
Lemma lp_fits_spec lp es n len : repr lp es → 0 <= len <= UINT32_MAX → lp_fits server lp n len = Some true →
  total es + len <= 1073741824 ∧ n < set_max_listpack_entries server ∧ len <= set_max_listpack_value server.
Proof.
  intros (num & slack & -> & _ & _ & Ht & _) Hlen. unfold lp_fits. destruct (_ && _) eqn:Hb0; [|done]. zb. destruct Hb0 as [? ?]. zb.
  unfold lpSafeToAdd. rewrite total_bytes_image by done. cbn [mbind option_bind].
  pose proof (total_nonneg es). unfold UINT32_MAX in *. rewrite uwrap_id by lia. change LISTPACK_MAX_SAFETY_SIZE with 1073741824.
  intros [= Hb]. apply negb_true_iff in Hb. zb. split_and!; lia.
Qed.

Lemma lp_fits_total lp es n len : repr lp es → ∃ b, lp_fits server lp n len = Some b.
Proof.
  intros (num & slack & -> & _ & _ & Ht & _). unfold lp_fits. case_if; [|by eexists].
  unfold lpSafeToAdd. rewrite total_bytes_image by done. by eexists.
Qed.

Lemma convert_and_add_spec o X cap s : set_repr o X → encoding o ≠ OBJ_ENCODING_HT → 0 <= cap → str_ok s → (s ∉ X) →
  ∃ o', convert_and_add junk o cap s = Some o' ∧ set_ok o' ({[s]} ∪ X).
Proof using laws Hjunk.
  intros Hr He Hcap Hs Hx. unfold convert_and_add. destruct (convert_to_ht o X cap Hr He Hcap) as (d & -> & Hd & Hk).
  cbn [mbind option_bind]. destruct (slaw_add d s Hd) as (d' & -> & Hd' & Hk'). cbn [mbind option_bind].
  rewrite decide_False by by rewrite Hk. exists (SetHT d'). split; [done|]. rewrite Hk in Hk'. apply ht_ok; [done|done|].
  apply add_str_ok; [apply Hr|done].
Qed.

Lemma lp_add_spec lp X v : set_ok (SetListpack (D := D) lp) X → value_ok v →
  ∃ o', setTypeAddAux server junk (SetListpack lp) v = Some (o', Z.b2z (bool_decide (vbytes v ∉ X))) ∧ set_ok o' ({[vbytes v]} ∪ X).
Proof using laws Hjunk.
  intros [[Hok (es & Hr & Hn & ->)] Hlim] Hv. pose proof (vbytes_ok v Hv) as Hs.
  assert (setTypeAddAux server junk (SetListpack (D := D) lp) v =
    (p ← lp_find lp (vbytes v);
     match p with
     | Some _ => Some (SetListpack lp, 0)
     | None =>
         '(n, lp) ← lpLength lp;
         fits ← lp_fits server lp n (zlen (vbytes v));
         if (fits : bool) then lp ← lp_append junk lp v; Some (SetListpack lp, 1)
         else '(n, lp) ← lpLength lp; set ← convert_and_add junk (SetListpack lp) (n + 1) (vbytes v); Some (set, 1)
     end)) as ->.
  { unfold setTypeAddAux. rewrite (value_str_spec junk v Hv). by destruct v. }
  destruct (lp_find_spec lp es (vbytes v) Hr) as (r & -> & Hf). cbn [mbind option_bind]. destruct r as [p|].
  - destruct Hf as (i & -> & Hi). apply list_elem_of_lookup_2 in Hi. exists (SetListpack lp).
    assert (vbytes v ∈ (list_to_set (strs es) : gset (list Z))) as Hin by by rewrite elem_of_list_to_set.
    rewrite bool_decide_false by (intros Hni; by apply Hni). split; [done|].
    replace ({[vbytes v]} ∪ list_to_set (strs es) : gset (list Z)) with (list_to_set (strs es) : gset (list Z)) by set_solver.
    split; [|exact Hlim]. split; [done|]. by exists es.
  - assert (vbytes v ∉ (list_to_set (strs es) : gset (list Z))) as Hni by by rewrite elem_of_list_to_set.
    rewrite bool_decide_true by done. destruct (lpLength_correct lp es Hr) as (lp1 & -> & Hr1). cbn [mbind option_bind].
    destruct (lp_fits_total lp1 es (zlen es) (zlen (vbytes v)) Hr1) as ([] & Hfits); rewrite Hfits; cbn [mbind option_bind].
    + pose proof (zlen_nonneg (vbytes v)). destruct (str_ok_len _ Hs) as [Hwf Hl].
      destruct (lp_fits_spec lp1 es (zlen es) (zlen (vbytes v)) Hr1 ltac:(lia) Hfits) as (Ht & Hne & Hnv).
      destruct (lp_append_spec lp1 es v Hr1 Hv) as (lp' & e & -> & Hr' & Ee & _); [unfold UINT32_MAX; lia|].
      cbn [mbind option_bind]. exists (SetListpack lp'). split; [done|].
      split; [|apply listpack_limits_add; [done|by rewrite strs_size|done|apply Hlim]]. split; [by apply add_str_ok|].
      exists (es ++ [e]). rewrite strs_app. change (strs [e]) with [vbytes (entry_value e)]. rewrite Ee. split_and!; [done| |].
      * apply list.NoDup_app. split_and!; [done| |apply NoDup_singleton].
        intros x Hx E. apply list_elem_of_singleton in E. subst x. done.
      * symmetry. apply list_to_set_snoc.
    + destruct (lpLength_correct lp1 es Hr1) as (lp2 & -> & Hr2). cbn [mbind option_bind].
      destruct (convert_and_add_spec (SetListpack lp2) (list_to_set (strs es)) (zlen es + 1) (vbytes v))
        as (o' & -> & Ho'); [|done|pose proof (zlen_nonneg es); lia|done|done|].
      { split; [done|]. by exists es. }
      by exists o'.
Qed.

(** When the estimates allow a listpack, every member of the intset fits. *)
Lemma fits_listpack_spec iset ns len : Intset.repr iset ns → 0 <= len <= UINT32_MAX →
  ∃ b, intset_fits_listpack server iset len = Some b ∧
    (b = true → (∃ m, 0 <= m ∧ (∀ n, n ∈ ns → int_size n <= m) ∧ 7 + m * zlen ns + len <= 1073741824 + 7) ∧
       zlen ns < set_max_listpack_entries server ∧ len <= set_max_listpack_value server ∧
       ∀ n, n ∈ ns → zlen (Util.sdec n) <= set_max_listpack_value server).
Proof.
  intros Hr Hlen. unfold intset_fits_listpack. pose proof (intset_len_eq _ _ Hr) as Hl. rewrite Hl.
  pose proof (array_int64 _ _ Hr) as H64. rewrite list.Forall_forall in H64.
  pose proof (Intset.array_max _ _ (Intset.repr_array _ _ Hr)) as Hmax. unfold Intset.safe_entries in Hmax. pose proof (zlen_nonneg ns).
  destruct (zlen ns =? 0) eqn:E0; zb; cbn [negb].
  - cbn [mbind option_bind]. apply zlen_0_nil in E0. subst ns. destruct (_ && _) eqn:Hc; [|by exists false].
    zb. destruct Hc as [[? ?] ?]. zb. eexists. split; [done|]. intros Hb.
    split; [|split_and!; [done|done|intros n Hn; by apply elem_of_nil in Hn]].
    exists 0. split; [done|]. split; [intros n Hn; by apply elem_of_nil in Hn|].
    apply negb_true_iff in Hb. zb. unfold UINT32_MAX in *. rewrite !uwrap_id in Hb by (rewrite ?uwrap_id; simpl; lia).
    change LISTPACK_MAX_SAFETY_SIZE with 1073741824 in Hb. rewrite (@zlen_nil Z). lia.
  - destruct (Intset.intset_ordered_access iset (list_to_set ns) 0)
      as (l & lo & hi & _ & _ & _ & _ & -> & -> & Hlo & Hhi & Hb & _); [by exists ns| |done|].
    { destruct ns; [by rewrite (@zlen_nil Z) in E0|]. set_solver. }
    rewrite elem_of_list_to_set in Hlo, Hhi. apply H64 in Hlo, Hhi.
    cbn [mbind option_bind]. destruct (_ && _) eqn:Hc; [|by exists false]. zb. destruct Hc as [[? ?] Hdig]. zb.
    eexists. split; [done|]. intros Hs. apply negb_true_iff in Hs. zb.
    change LISTPACK_MAX_SAFETY_SIZE with 1073741824 in Hs. rewrite !estimate_eq in Hs by (simpl; lia). split.
    + pose proof (int_size_range lo). pose proof (int_size_range hi). exists (Z.max (int_size lo) (int_size hi)). split; [lia|].
      split; [intros n Hn; rewrite Z.max_comm; rewrite Z.max_comm; apply int_size_between, Hb; by apply elem_of_list_to_set|].
      unfold UINT32_MAX in *. rewrite !uwrap_id in Hs by (rewrite ?uwrap_id; simpl; nia). nia.
    + split_and!; [done|done|]. intros n Hn. pose proof (sdec_len_between lo n hi Hlo Hhi) as Hn'.
      assert (lo <= n <= hi) by by apply Hb, elem_of_list_to_set. lia.
Qed.

Lemma intset_add_str_spec iset X s : config_ok server → set_ok (SetIntset (D := D) iset) X → str_ok s → Util.string2ll s = None →
  ∃ o', setTypeAddAux server junk (SetIntset (D := D) iset) (VStr s) = Some (o', 1) ∧ set_ok o' ({[s]} ∪ X) ∧ (s ∉ X).
Proof using laws Hjunk.
  intros Hcfg [[Hok (ns & Hr & ->)] Hlim] Hs Hint. cbn [setTypeAddAux value_str mbind option_bind]. rewrite Hint.
  pose proof (array_int64 _ _ Hr) as H64. destruct (str_ok_len _ Hs) as [Hwf Hl]. pose proof (zlen_nonneg s). pose proof (zlen_nonneg ns).
  pose proof (intset_len_eq _ _ Hr) as Hlen.
  assert (s ∉ (list_to_set (Util.sdec <$> ns) : gset (list Z))) as Hni.
  { rewrite elem_of_list_to_set. intros (n & -> & Hn)%list_elem_of_fmap. rewrite list.Forall_forall in H64.
    rewrite sdec_int in Hint; [done|by apply H64]. }
  destruct (fits_listpack_spec iset ns (zlen s) Hr ltac:(lia)) as (b & -> & Hb). cbn [mbind option_bind]. destruct b.
  - destruct (Hb eq_refl) as ((m & Hm0 & Hm & Htot) & Hcnt & Hval & Hdig).
    destruct (convert_to_listpack iset ns (Intset.intsetLen iset + 1) m Hr) as (lp & es & -> & Hre & Hnd & Hes & Ht);
      [lia|done|done|unfold UINT32_MAX; lia|]. cbn [mbind option_bind].
    destruct (lp_append_spec lp es (VStr s) Hre Hs) as (lp1 & e & -> & Hr1 & Ee & _); [simpl; unfold UINT32_MAX; lia|].
    cbn [mbind option_bind]. destruct Hr1 as (num & slack & -> & Hnum & Hv & Ht1 & _). rewrite shrink_image by done.
    cbn [mbind option_bind]. eexists. split; [done|]. split; [|done]. split; [|apply listpack_limits_add; [done|by rewrite (sdec_set_size iset)|done|]].
    2:{ intros x Hx. apply elem_of_list_to_set, list_elem_of_fmap in Hx as (n & -> & Hn). by apply Hdig. }
    split; [by apply add_str_ok|].
    exists (es ++ [e]). split; [exists num, []; split_and!; [done..|constructor]|].
    rewrite strs_app. change (strs [e]) with [vbytes (entry_value e)]. rewrite Ee. split.
    + apply list.NoDup_app. split_and!; [done| |apply NoDup_singleton].
      intros x Hx E. apply list_elem_of_singleton in E. subst x. apply Hni. rewrite <-Hes. by apply elem_of_list_to_set.
    + rewrite <-Hes. symmetry. apply list_to_set_snoc.
  - destruct (convert_and_add_spec (SetIntset iset) (list_to_set (Util.sdec <$> ns)) (Intset.intsetLen iset + 1) s)
      as (o' & -> & Ho'); [|done|lia|done|done|].
    { split; [done|]. by exists ns. }
    by exists o'.
Qed.

Lemma ht_add_spec d X v : set_ok (SetHT d) X → value_ok v →
  ∃ o', setTypeAddAux server junk (SetHT d) v = Some (o', Z.b2z (bool_decide (vbytes v ∉ X))) ∧ set_ok o' ({[vbytes v]} ∪ X).
Proof using laws Hjunk.
  intros [[Hok [Hd Hk]] _] Hv. pose proof (vbytes_ok v Hv) as Hs.
  assert (setTypeAddAux server junk (SetHT d) v =
    ('(d, position) ← sd_findPosition d (vbytes v);
     match position with
     | Some position => d ← sd_insertAt d (vbytes v) position; Some (SetHT d, 1)
     | None => Some (SetHT d, 0)
     end)) as ->.
  { unfold setTypeAddAux. rewrite (value_str_spec junk v Hv). by destruct v. }
  destruct (slaw_findPosition d (vbytes v) Hd) as (d1 & r & -> & Hd1 & Hk1 & Hr). cbn [mbind option_bind].
  rewrite Hk in Hr. destruct r as [p|].
  - destruct Hr as [Hslot Hni]. destruct (slaw_insertAt d1 (vbytes v) p Hd1 Hslot) as (d2 & -> & Hd2 & Hk2).
    cbn [mbind option_bind]. exists (SetHT d2). rewrite bool_decide_true by done. split; [done|]. rewrite Hk1, Hk in Hk2.
    apply ht_ok; [done|done|by apply add_str_ok].
  - exists (SetHT d1). rewrite bool_decide_false by (intros Hni; by apply Hni). split; [done|].
    replace ({[vbytes v]} ∪ X) with X by set_solver. apply ht_ok; [done|congruence|done].
Qed.

(** setTypeAddAux, in every encoding and across its conversions. *)
Lemma setTypeAddAux_spec o X v : config_ok server → set_ok o X → value_ok v →
  ∃ o', setTypeAddAux server junk o v = Some (o', Z.b2z (bool_decide (vbytes v ∉ X))) ∧ set_ok o' ({[vbytes v]} ∪ X).
Proof using laws Hjunk.
  intros Hcfg Ho Hv. destruct o as [d|iset|lp]; [by apply ht_add_spec| |by apply lp_add_spec].
  destruct v as [s|n]; [|by apply add_to_intset_spec]. destruct (Util.string2ll s) as [n|] eqn:Hn.
  - cbn [setTypeAddAux value_str mbind option_bind]. rewrite Hn. apply Util.string2ll_spec in Hn as [Hn ->].
    by apply add_to_intset_spec.
  - destruct (intset_add_str_spec iset X s Hcfg Ho Hv Hn) as (o' & E & Ho' & Hni). exists o'.
    by rewrite bool_decide_true.
Qed.

(** ** Removing *)

Lemma sub_str_ok X s : set_Forall str_ok X → set_Forall str_ok (X ∖ {[s]}).
Proof. intros HX x Hx. apply HX. set_solver. Qed.

Lemma remove_from_intset_spec iset X n : set_ok (SetIntset (D := D) iset) X → is_int64 n →
  ∃ o', remove_from_intset junk iset n = Some (o', Z.b2z (bool_decide (Util.sdec n ∈ X))) ∧ set_ok o' (X ∖ {[Util.sdec n]}).
Proof using laws Hjunk.
  intros [[Hok (ns & Hr & ->)] Hlim] Hn. simpl in Hlim. pose proof (array_int64 _ _ Hr) as H64.
  destruct (Intset.remove_spec junk iset ns n Hr Hn) as (st' & ns' & E & Hr' & Hx).
  unfold remove_from_intset. rewrite E. cbn [mbind option_bind].
  rewrite (bool_decide_ext (Util.sdec n ∈ (list_to_set (Util.sdec <$> ns) : gset (list Z))) (n ∈ ns)) by by apply sdec_in.
  exists (SetIntset st'). split; [done|]. split; [split; [by apply sub_str_ok|]|].
  - exists ns'. split; [done|]. apply set_eq. intros s.
    rewrite elem_of_difference, elem_of_singleton, !elem_of_list_to_set, !list_elem_of_fmap. split.
    + intros [(x & -> & Hin) Hne]. exists x. split; [done|]. apply Hx. split; [done|]. by intros ->.
    + intros (x & -> & [Hin Hne]%Hx). split; [by exists x|]. intros E'. rewrite list.Forall_forall in H64.
      apply sdec_inj in E'; [done|by apply H64|done].
  - simpl. pose proof (intset_subset_len iset st' ns ns' Hr Hr'). assert (Intset.intsetLen st' <= Intset.intsetLen iset); [|lia].
    apply H. by intros x [? _]%Hx.
Qed.

Lemma delete_to_set (l : list (list Z)) i s : NoDup l → l !! i = Some s →
  NoDup (delete i l) ∧ list_to_set (delete i l) =@{gset (list Z)} list_to_set l ∖ {[s]}.
Proof.
  intros Hn Hi. rewrite delete_take_drop. rewrite <-(take_drop_middle l i s Hi) in Hn.
  apply list.NoDup_app in Hn as (H1 & H2 & H3). apply list.NoDup_cons in H3 as [H3 H4]. split.
  - apply list.NoDup_app. split_and!; [done| |done]. intros x Hx Hx'. apply (H2 x Hx). by right.
  - rewrite <-(take_drop_middle l i s Hi) at 3. apply set_eq. intros x.
    rewrite elem_of_difference, elem_of_singleton, !elem_of_list_to_set, !elem_of_app, elem_of_cons. split.
    + intros Hx. split; [tauto|]. intros ->. destruct Hx as [Hx|Hx]; [|done]. apply (H2 s Hx). by left.
    + intros [[?|[?|?]] ?]; [by left|done|by right].
Qed.

Lemma lp_remove_spec lp X v : set_ok (SetListpack (D := D) lp) X → value_ok v →
  ∃ o', setTypeRemoveAux junk (SetListpack lp) v = Some (o', Z.b2z (bool_decide (vbytes v ∈ X))) ∧ set_ok o' (X ∖ {[vbytes v]}).
Proof using laws Hjunk.
  intros [[Hok (es & Hr & Hn & ->)] Hlim] Hv.
  assert (setTypeRemoveAux junk (SetListpack (D := D) lp) v =
    (p ← lp_find lp (vbytes v);
     match p with
     | Some p => r ← lpDelete junk lp p; '(lp, _) ← r; Some (SetListpack lp, 1)
     | None => Some (SetListpack lp, 0)
     end)) as ->.
  { unfold setTypeRemoveAux. rewrite (value_str_spec junk v Hv). by destruct v. }
  destruct (lp_find_spec lp es (vbytes v) Hr) as (r & -> & Hf). cbn [mbind option_bind]. destruct r as [p|].
  - destruct Hf as (i & -> & Hi). assert (i < length es)%nat as Hlt.
    { apply lookup_lt_Some in Hi. unfold strs in Hi. by rewrite length_fmap in Hi. }
    destruct (lpDelete_correct junk lp es i Hr Hlt) as (lp' & -> & Hr'). cbn [mbind option_bind]. exists (SetListpack lp').
    rewrite bool_decide_true by (rewrite elem_of_list_to_set; by apply list_elem_of_lookup_2 in Hi). split; [done|].
    split; [|apply (listpack_limits_sub lp lp' _ _ Hlim); set_solver]. split; [by apply sub_str_ok|]. exists (delete i es).
    assert (strs (delete i es) = delete i (strs es)) as -> by (unfold strs; apply list_fmap_delete).
    destruct (delete_to_set (strs es) i (vbytes v) Hn Hi) as [Hn' ->]. by split_and!.
  - exists (SetListpack lp). rewrite bool_decide_false by (rewrite elem_of_list_to_set; done). split; [done|].
    split; [|apply (listpack_limits_sub lp lp _ _ Hlim); set_solver].
    replace (list_to_set (strs es) ∖ {[vbytes v]} : gset (list Z)) with (list_to_set (strs es) : gset (list Z)).
    + split; [done|]. by exists es.
    + assert (vbytes v ∉ (list_to_set (strs es) : gset (list Z))) by by rewrite elem_of_list_to_set. set_solver.
Qed.

Lemma ht_remove_spec d X v : set_ok (SetHT d) X → value_ok v →
  ∃ o', setTypeRemoveAux junk (SetHT d) v = Some (o', Z.b2z (bool_decide (vbytes v ∈ X))) ∧ set_ok o' (X ∖ {[vbytes v]}).
Proof using laws Hjunk.
  intros [[Hok [Hd Hk]] _] Hv.
  assert (setTypeRemoveAux junk (SetHT d) v =
    ('(d, r) ← sd_delete d (vbytes v); Some (SetHT d, Z.b2z (r =? DICT_OK)))) as ->.
  { unfold setTypeRemoveAux. rewrite (value_str_spec junk v Hv). by destruct v. }
  destruct (slaw_delete d (vbytes v) Hd) as (d1 & -> & Hd1 & Hk1). cbn [mbind option_bind]. rewrite Hk in *.
  exists (SetHT d1). split; [|apply ht_ok; [done|done|by apply sub_str_ok]].
  do 2 f_equal. destruct (decide (vbytes v ∈ X)); [by rewrite bool_decide_true|by rewrite bool_decide_false].
Qed.

(** setTypeRemoveAux in every encoding. *)
Lemma setTypeRemoveAux_spec o X v : set_ok o X → value_ok v →
  ∃ o', setTypeRemoveAux junk o v = Some (o', Z.b2z (bool_decide (vbytes v ∈ X))) ∧ set_ok o' (X ∖ {[vbytes v]}).
Proof using laws Hjunk.
  intros Ho Hv. destruct o as [d|iset|lp]; [by apply ht_remove_spec| |by apply lp_remove_spec].
  destruct v as [s|n]; [|by apply remove_from_intset_spec]. cbn [setTypeRemoveAux value_str mbind option_bind vbytes].
  destruct (Util.string2ll s) as [n|] eqn:Hn.
  - apply Util.string2ll_spec in Hn as [Hn ->]. by apply remove_from_intset_spec.
  - exists (SetIntset iset). assert (s ∉ X) as Hni.
    { destruct Ho as [[_ (ns & Hr & ->)] _]. rewrite elem_of_list_to_set. intros (n & -> & Hin)%list_elem_of_fmap.
      pose proof (array_int64 _ _ Hr) as H64. rewrite list.Forall_forall in H64. rewrite sdec_int in Hn; [done|by apply H64]. }
    rewrite bool_decide_false by done. split; [done|]. by replace (X ∖ {[s]}) with X by set_solver.
Qed.

(** ** Membership and size *)

Lemma find_in_intset_spec iset X n : set_ok (SetIntset (D := D) iset) X → is_int64 n →
  find_in_intset iset n = Some (SetIntset (D := D) iset, bool_decide (Util.sdec n ∈ X)).
Proof.
  intros [[_ (ns & Hr & ->)] _] Hn. unfold find_in_intset. pose proof (array_int64 _ _ Hr) as H64.
  rewrite (Intset.intsetFind_correct iset (list_to_set ns) n) by (done || by exists ns). cbn [mbind option_bind].
  do 2 f_equal. apply bool_decide_ext. rewrite sdec_in by done. by rewrite elem_of_list_to_set.
Qed.

Lemma setTypeIsMemberAux_spec o X v : set_ok o X → value_ok v →
  ∃ o', setTypeIsMemberAux junk o v = Some (o', bool_decide (vbytes v ∈ X)) ∧ set_ok o' X ∧ encoding o' = encoding o.
Proof.
  intros Ho Hv. pose proof (value_str_spec junk v Hv) as Ev. destruct o as [d|iset|lp].
  - assert (setTypeIsMemberAux junk (SetHT d) v = ('(d, b) ← sd_find d (vbytes v); Some (SetHT d, b))) as ->.
    { unfold setTypeIsMemberAux. rewrite Ev. by destruct v. }
    destruct Ho as [[Hok [Hd Hk]] _]. destruct (slaw_find d (vbytes v) Hd) as (d1 & -> & Hd1 & Hk1). cbn [mbind option_bind].
    exists (SetHT d1). rewrite Hk in *. split_and!; [done|by apply ht_ok|done].
  - exists (SetIntset iset). split; [|done]. destruct v as [s|n]; [|by apply find_in_intset_spec].
    cbn [setTypeIsMemberAux value_str mbind option_bind vbytes]. destruct (Util.string2ll s) as [n|] eqn:Hn.
    + apply Util.string2ll_spec in Hn as [Hn ->]. by apply find_in_intset_spec.
    + rewrite bool_decide_false; [done|]. destruct Ho as [[_ (ns & Hr & ->)] _]. rewrite elem_of_list_to_set.
      intros (n & -> & Hin)%list_elem_of_fmap. pose proof (array_int64 _ _ Hr) as H64. rewrite list.Forall_forall in H64.
      rewrite sdec_int in Hn; [done|by apply H64].
  - exists (SetListpack lp). split; [|done].
    assert (setTypeIsMemberAux junk (SetListpack (D := D) lp) v =
      (p ← lp_find lp (vbytes v); Some (SetListpack lp, bool_decide (is_Some p)))) as ->.
    { unfold setTypeIsMemberAux. rewrite Ev. by destruct v. }
    destruct Ho as [[_ (es & Hr & Hn & ->)] _]. destruct (lp_find_spec lp es (vbytes v) Hr) as (r & -> & Hf). cbn [mbind option_bind].
    do 2 f_equal. apply bool_decide_ext. rewrite elem_of_list_to_set. destruct r as [p|].
    + destruct Hf as (i & _ & Hi). apply list_elem_of_lookup_2 in Hi. done.
    + split; [by intros [? ?]|done].
Qed.

Lemma setTypeSize_spec o X : set_ok o X →
  ∃ o', setTypeSize o = Some (o', Z.of_nat (size X)) ∧ set_ok o' X ∧ encoding o' = encoding o.
Proof.
  intros [[Hok Ho] Hlim]. destruct o as [d|iset|lp]; simpl.
  - destruct Ho as [Hd Hk]. rewrite (slaw_size d Hd), Hk. exists (SetHT d). split_and!; [done|by apply ht_ok|done].
  - destruct Ho as (ns & Hr & ->). exists (SetIntset iset). split_and!; [|split; [split; [done|by exists ns]|done]|done].
    rewrite (intset_len_eq _ _ Hr). do 2 f_equal. rewrite size_list_to_set; [by rewrite length_fmap|].
    apply sdec_NoDup; [by eapply array_int64|apply Intset.sorted_NoDup, Hr].
  - destruct Ho as (es & Hr & Hn & ->). destruct (lpLength_correct lp es Hr) as (lp' & -> & Hr'). cbn [mbind option_bind].
    exists (SetListpack lp'). split_and!; [|split; [split; [done|by exists es]|done]|done].
    do 2 f_equal. rewrite size_list_to_set by done. unfold strs. by rewrite length_fmap.
Qed.

Lemma setTypeMaybeConvert_spec o X n : config_ok server → set_ok o X → 0 <= n →
  ∃ o', setTypeMaybeConvert server junk o n = Some o' ∧ set_ok o' X.
Proof using laws Hjunk.
  intros Hcfg Ho Hn. pose proof Ho as [Hr _]. unfold setTypeMaybeConvert. destruct o as [d|iset|lp]; [by exists (SetHT d)| |].
  all: case_if; [|by eexists].
  - destruct (convert_to_ht (SetIntset iset) X n Hr) as (d & -> & Hd & Hk); [done|done|].
    exists (SetHT d). split; [done|]. apply ht_ok; [done|done|apply Hr].
  - destruct (convert_to_ht (SetListpack lp) X n Hr) as (d & -> & Hd & Hk); [done|done|].
    exists (SetHT d). split; [done|]. apply ht_ok; [done|done|apply Hr].
Qed.

Lemma empty_intset_ok : config_ok server → set_ok createIntsetObject ∅.
Proof using laws Hjunk.
  intros Hcfg. split; [split; [apply set_Forall_empty|]|].
  - exists []. split; [|done]. destruct Intset.intsetNew_models as (l & Hr & E). destruct l as [|x l]; [done|set_solver].
  - simpl. rewrite max_entries_eq by done. apply Hcfg.
Qed.

Lemma empty_listpack_limits lp : config_ok server → in_limits (SetListpack (D := D) lp) ∅.
Proof. intros [? _ _]. split; [by rewrite size_empty|apply set_Forall_empty]. Qed.

Lemma empty_listpack_ok : config_ok server → ∃ o, createSetListpackObject junk = Some o ∧ set_ok o ∅ ∧ encoding o = OBJ_ENCODING_LISTPACK.
Proof using laws Hjunk.
  intros Hcfg. unfold createSetListpackObject. destruct (new_listpack junk 0 Hjunk) as (lp & -> & Hr). cbn [mbind option_bind].
  exists (SetListpack lp). split_and!; [done| |done]. split; [|by apply empty_listpack_limits]. split; [apply set_Forall_empty|]. exists []. by split_and!; [|constructor|].
Qed.

Lemma empty_ht_ok : set_ok createSetObject ∅.
Proof. destruct slaw_create as [? ?]. apply ht_ok; [done|done|apply set_Forall_empty]. Qed.

Lemma setTypeCreate_spec s n : config_ok server → 0 <= n →
  ∃ o, setTypeCreate server junk s n = Some o ∧ set_ok o ∅.
Proof using laws Hjunk.
  intros Hcfg Hn. unfold setTypeCreate. case_if; [exists createIntsetObject; split; [done|by apply empty_intset_ok]|].
  case_if.
  - destruct (empty_listpack_ok Hcfg) as (o & -> & ? & _). by exists o.
  - destruct slaw_create as [Hv Hk]. destruct (slaw_expand sd_create n Hv Hn) as (d & r & -> & Hv' & Hk'). cbn [mbind option_bind].
    exists (SetHT d). split; [done|]. apply ht_ok; [done|congruence|apply set_Forall_empty].
Qed.

(** ** Back to an intset, and copies *)

Lemma maybeConvertToIntset_spec o X : config_ok server → set_ok o X → (∀ s, s ∈ X → is_Some (Util.string2ll s)) →
  ∃ o', maybeConvertToIntset server junk o = Some o' ∧ set_ok o' X.
Proof using laws Hjunk.
  intros Hcfg Ho Hint. destruct (decide (encoding o = OBJ_ENCODING_INTSET)) as [He|He]; [destruct o; try done; by eexists|].
  destruct (setTypeSize_spec o X Ho) as (o1 & Es & Ho1 & He1).
  assert (maybeConvertToIntset server junk o =
    ('(set, n) ← setTypeSize o;
     if intsetMaxEntries server <? n then Some set
     else
       iset ← for_each_in set
         (λ v iset, llval ← match v with VStr str => Util.string2ll str | VInt llval => Some llval end;
                    '(iset, success) ← Intset.intsetAdd junk iset llval;
                    if (success : bool) then Some iset else None) Intset.intsetNew;
       Some (SetIntset iset))) as -> by (by destruct o).
  rewrite Es. cbn [mbind option_bind]. case_if; [by exists o1|].
  rewrite max_entries_eq in Heqb by done. pose proof Hcfg as [_ _ Hsafe].
  match goal with |- context [for_each_in o1 ?b _] => set (body := b) end.
  destruct (for_each_in_spec o1 X body (λ dn iset, ∃ ns, Intset.repr iset ns ∧
      list_to_set (Util.sdec <$> ns) =@{gset (list Z)} list_to_set (vbytes <$> dn) ∧ (list_to_set (vbytes <$> dn) : gset (list Z)) ⊆ X)
      Intset.intsetNew) as (iset & l & -> & Hn & -> & _ & _ & ns & Hr & Eq & _).
  - apply Ho1.
  - exists []. split_and!; [|done|set_solver]. destruct Intset.intsetNew_models as (l & Hr & E). destruct l; [done|set_solver].
  - intros dn v iset Hv _ Hfresh Hvx (ns & Hr & Eq & Hsub). unfold body.
    assert (∃ n, match v with VStr str => Util.string2ll str | VInt llval => Some llval end = Some n ∧ is_int64 n ∧ vbytes v = Util.sdec n)
      as (n & -> & Hn & En).
    { destruct v as [s|n]; [|by exists n]. destruct (Hint s Hvx) as [n Hn]. exists n. split; [done|]. by apply Util.string2ll_spec. }
    cbn [mbind option_bind]. rewrite En in *. pose proof (array_int64 _ _ Hr) as H64.
    assert (n ∉ ns) as Hni.
    { intros Hin. apply Hfresh. rewrite <-(elem_of_list_to_set (C := gset (list Z))), <-Eq, elem_of_list_to_set. by apply sdec_elem. }
    assert (zlen ns < Z.of_nat (size X)) as Hlt.
    { rewrite <-(sdec_set_size iset ns Hr), Eq. apply inj_lt, subset_size. split; [done|]. intros Hsup. apply Hfresh.
      by apply Hsup, elem_of_list_to_set in Hvx. }
    destruct (Intset.add_spec junk iset ns n Hr Hn) as (st' & ns' & -> & Hr' & _ & Hx); [lia|]. cbn [mbind option_bind].
    rewrite bool_decide_true by done. exists st'. split; [done|]. exists ns'. split; [done|]. rewrite (sdec_union ns ns' n Hx), Eq.
    rewrite fmap_app. change (vbytes <$> [v]) with [vbytes v]. rewrite En, list_to_set_snoc. split; [done|]. set_solver.
  - cbn [mbind option_bind]. exists (SetIntset iset). split; [done|]. split; [split; [apply Ho1|by exists ns]|].
    simpl. rewrite max_entries_eq by done. rewrite (intset_len_eq _ _ Hr), <-(sdec_set_size iset ns Hr), Eq. lia.
Qed.

Lemma add_ht_encoding d v o' r : setTypeAddAux server junk (SetHT d) v = Some (o', r) → encoding o' = OBJ_ENCODING_HT.
Proof.
  intros E. assert ((str ← value_str junk v; '(d, position) ← sd_findPosition d str;
     match position with
     | Some position => d ← sd_insertAt d str position; Some (SetHT d, 1)
     | None => Some (SetHT d, 0)
     end) = Some (o', r)) as E' by (by destruct v).
  destruct (value_str junk v) as [str|]; [|done]. cbn [mbind option_bind] in E'.
  destruct (sd_findPosition d str) as [[d1 [p|]]|]; [| |done]; cbn [mbind option_bind] in E'; [|by injection E' as <- <-].
  destruct (sd_insertAt d1 str p); [|done]. by injection E' as <- <-.
Qed.

(** A copy has the members and the encoding of the original. *)
Lemma setTypeDup_spec o X : config_ok server → set_ok o X →
  ∃ o', setTypeDup server junk o = Some o' ∧ set_ok o' X ∧ encoding o' = encoding o.
Proof using laws Hjunk.
  intros Hcfg Ho. pose proof Ho as [[Hok Hrep] Hlim]. destruct o as [d|iset|lp]; simpl.
  - destruct Hrep as [Hd Hk]. destruct slaw_create as [Hv Hk0].
    destruct (slaw_expand sd_create (sd_size d) Hv) as (d1 & r & -> & Hd1 & Hk1); [rewrite (slaw_size d Hd); lia|].
    cbn [mbind option_bind].
    match goal with |- context [for_each_in (SetHT d) ?b _] => set (body := b) end.
    destruct (for_each_in_spec (SetHT d) X body (λ dn o, set_ok o (list_to_set (vbytes <$> dn)) ∧ encoding o = OBJ_ENCODING_HT) (SetHT d1))
      as (o' & l & -> & Hn & -> & _ & _ & Ho' & He).
    + apply Ho.
    + split; [|done]. apply ht_ok; [done|by rewrite Hk1, Hk0|apply set_Forall_empty].
    + intros dn v o Hvo _ _ _ [Hso He]. unfold body. rewrite value_str_spec by done. cbn [mbind option_bind]. unfold setTypeAdd.
      destruct (setTypeAddAux_spec o _ (VStr (vbytes v)) Hcfg Hso (vbytes_ok v Hvo)) as (o' & E & Ho'). rewrite E. cbn [mbind option_bind].
      exists o'. split; [done|]. rewrite fmap_app. change (vbytes <$> [v]) with [vbytes v]. rewrite list_to_set_snoc. split; [done|].
      destruct o as [d2| |]; try done. by apply add_ht_encoding in E.
    + by exists o'.
  - destruct Hrep as (ns & Hr & ->). rewrite (Intset.blob_roundtrip iset ns (Intset.repr_array _ _ Hr)). by exists (SetIntset iset).
  - destruct Hrep as (es & Hr & Hn & ->). destruct (lpDup_correct junk lp es Hr) as (lp' & -> & Hr'). exists (SetListpack lp').
    split_and!; [done| |done]. split; [|done]. split; [done|]. by exists es.
Qed.
End Proofs.
End SetTypeProofs.
