(* ===== verification/SetCommands.v ===== *)
(** * Sets: the commands ([src/redis-stable/src/t_set.c])

    The commands on a data base whose values are sets: a finite map from keys to
    objects, with lookup, insertion and deletion for [lookupKeyRead]/[Write],
    [dbAdd]/[setKey] and [dbDelete].  A pointer to a value is its key, so two
    pointers are equal when the keys are.  Notifications, propagation and the dirty
    counter are left out, and so is WRONGTYPE, which no command here can cause.

    [qsort] of libc is a parameter; the sizes its comparison functions read are
    computed before. *)

From stdpp Require Import gmap.
From S2P Require Import Prelude Intset Util Listpack ListpackRepr ListpackElem ListpackEdit ListpackValues Dict DictSet SetType.

Module SetCommands.
Import Listpack ListpackElem ListpackEdit Dict DictSet SetType.

Abbreviation key := (list Z).

Inductive reply :=
  | ReplyInt (n : Z)
  | ReplySet (length : Z) (elements : list (list Z))
  | ReplyInts (l : list Z).

Section Commands.
Context (server : redisServer) (junk : Z).
Context {D P I : Type} {api : SetApi D P I}.
Context (qsort : ∀ A, (A → A → Z) → list A → list A).
Abbreviation robj := (robj D).
Abbreviation db := (gmap key robj).

(** ** One key *)

(** [for (j = 2; j < c->argc; j++) if (setTypeAdd(...)) added++;] *)
Fixpoint add_all (set : robj) (argv : list (list Z)) (added : Z) : option (robj * Z) :=
  match argv with
  | [] => Some (set, added)
  | ele :: argv =>
      '(set, r) ← setTypeAdd server junk set ele;
      add_all set argv (if r =? 0 then added else added + 1)
  end.

(** [setTypeSize] for the statistics, under a condition; it may touch the header of a listpack. *)
Definition size_if (b : bool) (set : robj) : option (robj * Z) := if b then setTypeSize set else Some (set, 0).

(** [argv] from [argv[2]] on. *)
Definition saddCommand (c_db : db) (k : key) (argv : list (list Z)) : option (db * reply) :=
  first ← head argv;
  set ← match c_db !! k with
        | None => setTypeCreate server junk first (zlen argv)
        | Some set => setTypeMaybeConvert server junk set (zlen argv)
        end;
  '(set, added) ← add_all set argv 0;
  '(set, _) ← size_if (negb (added =? 0)) set;
  Some (<[k := set]> c_db, ReplyInt added).

(** The boolean is [keyremoved]. *)
Fixpoint remove_all (set : robj) (argv : list (list Z)) (deleted : Z) : option (robj * Z * bool) :=
  match argv with
  | [] => Some (set, deleted, false)
  | ele :: argv =>
      '(set, r) ← setTypeRemove junk set ele;
      if r =? 0 then remove_all set argv deleted
      else
        '(set, n) ← setTypeSize set;
        if n =? 0 then Some (set, deleted + 1, true) else remove_all set argv (deleted + 1)
  end.

Definition sremCommand (c_db : db) (k : key) (argv : list (list Z)) : option (db * reply) :=
  match c_db !! k with
  | None => Some (c_db, ReplyInt 0)
  | Some set =>
      '(set, _) ← setTypeSize set;
      '(set, deleted, keyremoved) ← remove_all set argv 0;
      Some (if (keyremoved : bool) then delete k c_db else <[k := set]> c_db, ReplyInt deleted)
  end.

Definition smoveCommand (c_db : db) (src dst : key) (ele : list Z) : option (db * reply) :=
  match c_db !! src with
  | None => Some (c_db, ReplyInt 0)
  | Some srcset =>
      if decide (src = dst) then
        '(srcset, b) ← setTypeIsMember junk srcset ele;
        Some (<[src := srcset]> c_db, ReplyInt (Z.b2z b))
      else
        '(srcset, r) ← setTypeRemove junk srcset ele;
        let c_db := <[src := srcset]> c_db in
        if r =? 0 then Some (c_db, ReplyInt 0)
        else
          '(srcset, srcLen) ← setTypeSize srcset;
          let c_db := if srcLen =? 0 then delete src c_db else <[src := srcset]> c_db in
          dstset ← match c_db !! dst with
                   | Some dstset => Some dstset
                   | None => setTypeCreate server junk ele 1
                   end;
          '(dstset, r) ← setTypeAdd server junk dstset ele;
          '(dstset, _) ← size_if (negb (r =? 0)) dstset;
          Some (<[dst := dstset]> c_db, ReplyInt 1)
  end.

Definition sismemberCommand (c_db : db) (k : key) (ele : list Z) : option (db * reply) :=
  match c_db !! k with
  | None => Some (c_db, ReplyInt 0)
  | Some set => '(set, b) ← setTypeIsMember junk set ele; Some (<[k := set]> c_db, ReplyInt (Z.b2z b))
  end.

Fixpoint members (set : robj) (argv : list (list Z)) : option (robj * list Z) :=
  match argv with
  | [] => Some (set, [])
  | ele :: argv =>
      '(set, b) ← setTypeIsMember junk set ele;
      '(set, l) ← members set argv;
      Some (set, Z.b2z b :: l)
  end.

Definition smismemberCommand (c_db : db) (k : key) (argv : list (list Z)) : option (db * reply) :=
  match c_db !! k with
  | None => Some (c_db, ReplyInts ((λ _, 0) <$> argv))
  | Some set => '(set, l) ← members set argv; Some (<[k := set]> c_db, ReplyInts l)
  end.

Definition scardCommand (c_db : db) (k : key) : option (db * reply) :=
  match c_db !! k with
  | None => Some (c_db, ReplyInt 0)
  | Some set => '(set, n) ← setTypeSize set; Some (<[k := set]> c_db, ReplyInt n)
  end.

(** The loops that send every element of an object, as a string or as an integer. *)
Definition send_elements (o : robj) : option (list (list Z)) :=
  for_each_in o (λ v out, s ← value_str junk v; Some (out ++ [s])) [].

Definition smembersCommand (c_db : db) (k : key) : option (db * reply) :=
  match c_db !! k with
  | None => Some (c_db, ReplySet 0 [])
  | Some set =>
      '(set, length) ← setTypeSize set;
      elements ← send_elements set;
      if length - zlen elements =? 0 then Some (<[k := set]> c_db, ReplySet length elements) else None
  end.

(** ** Several keys *)

(** [setTypeSize] of the value of a key, 0 for [NULL]. *)
Definition size_at (c_db : db) (k : option key) : option (db * Z) :=
  match k with
  | None => Some (c_db, 0)
  | Some k => set ← c_db !! k; '(set, n) ← setTypeSize set; Some (<[k := set]> c_db, n)
  end.

Fixpoint sizes_at {K} (at_ : K → option key) (c_db : db) (ks : list K) : option (db * list (K * Z)) :=
  match ks with
  | [] => Some (c_db, [])
  | k :: ks =>
      '(c_db, n) ← size_at c_db (at_ k);
      '(c_db, l) ← sizes_at at_ c_db ks;
      Some (c_db, (k, n) :: l)
  end.

Definition qsortCompareSetsByCardinality {K} (s1 s2 : K * Z) : Z :=
  if s2.2 <? s1.2 then 1 else if s1.2 <? s2.2 then -1 else 0.

Definition qsortCompareSetsByRevCardinality {K} (s1 s2 : K * Z) : Z :=
  if s1.2 <? s2.2 then 1 else if s2.2 <? s1.2 then -1 else 0.

(** [for_each] over the value of [k], in the data base and another state. *)
Definition at_key {A} (k : key) (st : db * A) : option robj := st.1 !! k.
Definition set_key {A} (k : key) (o : robj) (st : db * A) : db * A := (<[k := o]> st.1, st.2).

(** *** Intersection *)

(** [for (j = 1; j < setnum; j++)]: whether all the other sets have the element. *)
Fixpoint in_all (c_db : db) (first : key) (sets : list key) (v : value) : option (db * bool) :=
  match sets with
  | [] => Some (c_db, true)
  | k :: sets =>
      if decide (k = first) then in_all c_db first sets v
      else
        set ← c_db !! k;
        '(set, b) ← setTypeIsMemberAux junk set v;
        let c_db := <[k := set]> c_db in
        if (b : bool) then in_all c_db first sets v else Some (c_db, false)
  end.

(** Reply with the elements, with their number up to a limit (0: none), or store them. *)
Inductive sinter_mode := SinterReply | SinterCard (limit : Z) | SinterStore (dstkey : key).

(** What the loop accumulates: [cardinality], the elements sent, [dstset] and [only_integers]. *)
Record sinter_acc := mkAcc { acc_card : Z; acc_out : list (list Z); acc_dst : option robj; acc_ints : bool }.

(** The element as it is stored in [dstset], and [only_integers]. *)
Definition sinter_element (enc dst_enc : obj_encoding) (v : value) (only_integers : bool) : value * bool :=
  match v with
  | VStr str =>
      if only_integers then
        match (if decide (enc = OBJ_ENCODING_HT) then Util.string2ll str else None) with
        | Some intobj =>
            if bool_decide (dst_enc = OBJ_ENCODING_LISTPACK) || bool_decide (dst_enc = OBJ_ENCODING_INTSET)
            then (VInt intobj, true) else (v, true)
        | None => (v, false)
        end
      else (v, only_integers)
  | VInt _ => (v, only_integers)
  end.

Definition sinter_body (mode : sinter_mode) (enc : obj_encoding) (first : key) (sets : list key)
    (v : value) (st : db * sinter_acc) : option (db * sinter_acc * bool) :=
  '(c_db, all) ← in_all st.1 first sets v;
  let acc := st.2 in
  if negb all then Some (c_db, acc, true)
  else
    match mode with
    | SinterCard limit =>
        let cardinality := uwrap 64 (acc_card acc + 1) in
        Some (c_db, mkAcc cardinality (acc_out acc) (acc_dst acc) (acc_ints acc),
              negb (negb (limit =? 0) && (limit <=? cardinality)))
    | SinterReply =>
        s ← value_str junk v;
        Some (c_db, mkAcc (uwrap 64 (acc_card acc + 1)) (acc_out acc ++ [s]) (acc_dst acc) (acc_ints acc), true)
    | SinterStore _ =>
        dstset ← acc_dst acc;
        let '(v, only_integers) := sinter_element enc (encoding dstset) v (acc_ints acc) in
        '(dstset, _) ← setTypeAddAux server junk dstset v;
        Some (c_db, mkAcc (acc_card acc) (acc_out acc) (Some dstset) only_integers, true)
    end.

(** The empty set the result is collected in. *)
Definition sinter_dstset (set0 : robj) : option robj :=
  match set0 with
  | SetIntset _ => Some createIntsetObject
  | SetListpack lp => n ← lpBytes lp; lp ← lpNew junk n; Some (SetListpack lp)
  | SetHT _ => createSetListpackObject junk
  end.

(** Storing the result, or deleting the key when it is empty. *)
Definition sinter_store (c_db : db) (dstkey : key) (dstset : robj) (only_integers : bool) : option (db * reply) :=
  '(dstset, n) ← setTypeSize dstset;
  if 0 <? n then
    dstset ← (if only_integers then maybeConvertToIntset server junk dstset else Some dstset);
    dstset ← match dstset with
             | SetListpack lp => lp ← lpShrinkToFit junk lp; Some (SetListpack lp)
             | _ => Some dstset
             end;
    '(dstset, n) ← setTypeSize dstset;
    Some (<[dstkey := dstset]> c_db, ReplyInt n)
  else Some (delete dstkey c_db, ReplyInt 0).

Definition sinterGenericCommand (c_db : db) (setkeys : list key) (mode : sinter_mode) : option (db * reply) :=
  if existsb (λ k, bool_decide (c_db !! k = None)) setkeys then
    match mode with
    | SinterStore dstkey => Some (delete dstkey c_db, ReplyInt 0)
    | SinterCard _ => Some (c_db, ReplyInt 0)
    | SinterReply => Some (c_db, ReplySet 0 [])
    end
  else
    '(c_db, sized) ← sizes_at Some c_db setkeys;
    let sets := (qsort _ qsortCompareSetsByCardinality sized).*1 in
    match sets with
    | [] => None
    | first :: others =>
        set0 ← c_db !! first;
        dst ← match mode with SinterStore _ => dstset ← sinter_dstset set0; Some (Some dstset) | _ => Some None end;
        '(c_db, acc) ← for_each (at_key first) (set_key first)
           (sinter_body mode (encoding set0) first others) (c_db, mkAcc 0 [] dst true);
        match mode with
        | SinterCard _ => Some (c_db, ReplyInt (acc_card acc))
        | SinterStore dstkey => dstset ← acc_dst acc; sinter_store c_db dstkey dstset (acc_ints acc)
        | SinterReply => Some (c_db, ReplySet (acc_card acc) (acc_out acc))
        end
    end.

(** *** Union and difference *)

Inductive set_op := SET_OP_UNION | SET_OP_DIFF.

(** The body of the loops: the element is added to [dstset], or removed from it. *)
Definition add_to (v : value) (st : db * (robj * Z)) : option (db * (robj * Z) * bool) :=
  '(dstset, r) ← setTypeAddAux server junk st.2.1 v;
  Some (st.1, (dstset, swrap 32 (st.2.2 + r)), true).

Definition remove_from (v : value) (st : db * (robj * Z)) : option (db * (robj * Z) * bool) :=
  '(dstset, r) ← setTypeRemoveAux junk st.2.1 v;
  Some (st.1, (dstset, swrap 32 (st.2.2 - r)), true).

(** Every element of every set. *)
Fixpoint union_loop (sets : list (option key)) (st : db * (robj * Z)) : option (db * (robj * Z)) :=
  match sets with
  | [] => Some st
  | None :: sets => union_loop sets st
  | Some k :: sets => st ← for_each (at_key k) (set_key k) add_to st; union_loop sets st
  end.

(** Whether no other set has the element. *)
Fixpoint in_none (c_db : db) (first : key) (sets : list (option key)) (v : value) : option (db * bool) :=
  match sets with
  | [] => Some (c_db, true)
  | None :: sets => in_none c_db first sets v
  | Some k :: sets =>
      if decide (k = first) then Some (c_db, false)
      else
        set ← c_db !! k;
        '(set, b) ← setTypeIsMemberAux junk set v;
        let c_db := <[k := set]> c_db in
        if (b : bool) then Some (c_db, false) else in_none c_db first sets v
  end.

Definition diff_body (first : key) (sets : list (option key)) (v : value) (st : db * (robj * Z))
    : option (db * (robj * Z) * bool) :=
  '(c_db, none) ← in_none st.1 first sets v;
  if (none : bool) then add_to v (c_db, st.2) else Some (c_db, st.2, true).

(** Algorithm 2, from the second set on. *)
Fixpoint diff_loop (sets : list (option key)) (st : db * (robj * Z)) : option (db * (robj * Z)) :=
  match sets with
  | [] => Some st
  | None :: sets => diff_loop sets st
  | Some k :: sets =>
      st ← for_each (at_key k) (set_key k) remove_from st;
      if st.2.2 =? 0 then Some st else diff_loop sets st
  end.

(** The work of the two algorithms. *)
Fixpoint diff_work (c_db : db) (first : key) (sets : list (option key)) (one two : Z) : option (db * Z * Z) :=
  match sets with
  | [] => Some (c_db, one, two)
  | None :: sets => diff_work c_db first sets one two
  | Some k :: sets =>
      '(c_db, n0) ← size_at c_db (Some first);
      '(c_db, n) ← size_at c_db (Some k);
      diff_work c_db first sets (swrap 64 (one + n0)) (swrap 64 (two + n))
  end.

Definition sdiff (c_db : db) (first : key) (others : list (option key)) (st : robj * Z) : option (db * (robj * Z)) :=
  '(c_db, one, two) ← diff_work c_db first (Some first :: others) 0 0;
  if Z.quot one 2 <=? two then
    '(c_db, others) ← (match others with
                       | [] => Some (c_db, others)
                       | _ => '(c_db, sized) ← sizes_at (λ k, k) c_db others;
                              Some (c_db, (qsort _ qsortCompareSetsByRevCardinality sized).*1)
                       end);
    for_each (at_key first) (set_key first) (diff_body first others) (c_db, st)
  else
    st ← for_each (at_key first) (set_key first) add_to (c_db, st);
    if st.2.2 =? 0 then Some st else diff_loop others st.

Definition not_intset (c_db : db) (k : key) : bool :=
  match c_db !! k with
  | Some set => negb (bool_decide (encoding set = OBJ_ENCODING_INTSET))
  | None => false
  end.

Definition sunionDiffGenericCommand (c_db : db) (setkeys : list key) (dstkey : option key) (op : set_op)
    : option (db * reply) :=
  let sets := (λ k, if decide (is_Some (c_db !! k)) then Some k else None) <$> setkeys in
  let dstset :=
    if bool_decide (dstkey = None) && existsb (not_intset c_db) setkeys then createSetObject else createIntsetObject in
  '(c_db, (dstset, cardinality)) ←
    match op, sets with
    | SET_OP_UNION, _ => union_loop sets (c_db, (dstset, 0))
    | SET_OP_DIFF, Some first :: others =>
        if decide (Some first ∈ others) then Some (c_db, (dstset, 0))
        else sdiff c_db first others (dstset, 0)
    | SET_OP_DIFF, _ => Some (c_db, (dstset, 0))
    end;
  match dstkey with
  | None => elements ← send_elements dstset; Some (c_db, ReplySet cardinality elements)
  | Some dstkey =>
      '(dstset, n) ← setTypeSize dstset;
      if 0 <? n then
        '(dstset, n) ← setTypeSize dstset;
        Some (<[dstkey := dstset]> c_db, ReplyInt n)
      else Some (delete dstkey c_db, ReplyInt 0)
  end.
End Commands.
End SetCommands.
