(* ===== verification/SetCommandsProofs.v ===== *)
(** * Sets: correctness of the commands

    A data base of set objects stands for a finite map from keys to non-empty finite
    sets; each command acts on the map and answers as the map says. *)

From stdpp Require Import gmap.
From S2P Require Import Prelude Intset Util Listpack ListpackRepr ListpackElem ListpackEdit ListpackValues Dict DictSet SetType SetTypeRepr SetTypeProofs SetCommands.

Module SetCommandsProofs.
Import Listpack ListpackElem ListpackEdit Dict DictSet SetType SetTypeRepr SetTypeProofs SetCommands.

Abbreviation sets := (gmap key (gset (list Z))).

(** A missing key is an empty set, and an empty set a missing key. *)
Definition get (m : sets) (k : key) : gset (list Z) := default ∅ (m !! k).
Definition put (k : key) (X : gset (list Z)) (m : sets) : sets := if decide (X = ∅) then delete k m else <[k := X]> m.
Definition get_opt (m : sets) (ko : option key) : gset (list Z) := match ko with Some k => get m k | None => ∅ end.

Lemma get_put k X m k' : get (put k X m) k' = if decide (k' = k) then X else get m k'.
Proof.
  unfold get, put. destruct (decide (X = ∅)) as [->|]; destruct (decide (k' = k)) as [->|].
  - by rewrite lookup_delete_eq.
  - by rewrite lookup_delete_ne.
  - by rewrite lookup_insert_eq.
  - by rewrite lookup_insert_ne.
Qed.

Section Proofs.
Context (server : redisServer) (junk : Z) (Hjunk : is_byte junk) (Hcfg : config_ok server).
Context {D P I : Type} {api : SetApi D P I} {laws : SetLaws api}.
Abbreviation robj := (robj D).
Abbreviation db := (gmap key robj).
Abbreviation set_ok := (set_ok server).
Implicit Types (c : db) (m : sets) (o : robj) (X : gset (list Z)).

Definition db_repr (c : db) (m : sets) : Prop :=
  ∀ k, option_Forall2 (λ o X, set_ok o X ∧ X ≠ ∅) (c !! k) (m !! k).

Lemma repr_lookup c m k o : db_repr c m → c !! k = Some o → ∃ X, m !! k = Some X ∧ set_ok o X ∧ X ≠ ∅ ∧ get m k = X.
Proof.
  intros Hr Hk. specialize (Hr k). rewrite Hk in Hr. inversion Hr as [? X [Ho Hne] E1 E2|]; subst. exists X.
  unfold get. by rewrite <-E2.
Qed.

Lemma repr_none c m k : db_repr c m → c !! k = None → m !! k = None ∧ get m k = ∅.
Proof.
  intros Hr Hk. specialize (Hr k). rewrite Hk in Hr. inversion Hr as [|E1 E2]; subst. unfold get. by rewrite <-E2.
Qed.

Lemma repr_some c m k X : db_repr c m → m !! k = Some X → ∃ o, c !! k = Some o ∧ set_ok o X.
Proof.
  intros Hr Hk. specialize (Hr k). rewrite Hk in Hr. inversion Hr as [o ? [Ho _] E1 E2|]; subst. by exists o.
Qed.

Lemma repr_insert c m k o X : db_repr c m → set_ok o X → X ≠ ∅ → db_repr (<[k := o]> c) (<[k := X]> m).
Proof.
  intros Hr Ho Hne k'. destruct (decide (k' = k)) as [->|].
  - rewrite !lookup_insert_eq. by constructor.
  - rewrite !lookup_insert_ne by done. apply Hr.
Qed.

Lemma repr_delete c m k : db_repr c m → db_repr (delete k c) (delete k m).
Proof.
  intros Hr k'. destruct (decide (k' = k)) as [->|].
  - rewrite !lookup_delete_eq. constructor.
  - rewrite !lookup_delete_ne by done. apply Hr.
Qed.

(** Writing back an object that stands for the same set. *)
Lemma repr_update c m k o X : db_repr c m → m !! k = Some X → set_ok o X → db_repr (<[k := o]> c) m.
Proof.
  intros Hr Hk Ho. rewrite <-(insert_id m k X Hk). apply repr_insert; [done|done|].
  destruct (repr_some c m k X Hr Hk) as (o' & Hc & _). by destruct (repr_lookup c m k o' Hr Hc) as (X' & ? & _ & ? & _); simplify_eq.
Qed.

Lemma repr_put c m k o X : db_repr c m → set_ok o X → X ≠ ∅ → db_repr (<[k := o]> c) (put k X m).
Proof. intros. unfold put. rewrite decide_False by done. by apply repr_insert. Qed.

Lemma repr_put_empty c m k : db_repr c m → db_repr (delete k c) (put k ∅ m).
Proof. intros. unfold put. rewrite decide_True by done. by apply repr_delete. Qed.

(** ** One key *)

Lemma size_new (x : list Z) (X Y : gset (list Z)) :
  Z.of_nat (size (({[x]} ∪ Y) ∖ X)) = Z.b2z (bool_decide (x ∉ X)) + Z.of_nat (size (Y ∖ ({[x]} ∪ X))).
Proof.
  case_bool_decide as Hx.
  - replace (({[x]} ∪ Y) ∖ X) with ({[x]} ∪ Y ∖ ({[x]} ∪ X)).
    + rewrite size_union by set_solver. rewrite size_singleton. simpl. lia.
    + apply set_eq. intros y. destruct (decide (y = x)); set_solver.
  - rewrite Z.add_0_l. do 2 f_equal. set_solver.
Qed.

Lemma add_all_spec argv o X added : set_ok o X → Forall str_ok argv →
  ∃ o', add_all server junk o argv added = Some (o', added + Z.of_nat (size (list_to_set argv ∖ X : gset (list Z)))) ∧
    set_ok o' (list_to_set argv ∪ X).
Proof using laws Hcfg Hjunk.
  revert o X added. induction argv as [|s argv IH]; intros o X added Ho Hf; cbn [add_all].
  { exists o. simpl. replace (∅ ∖ X) with (∅ : gset (list Z)) by set_solver. rewrite size_empty, Z.add_0_r.
    split; [done|]. by rewrite (left_id_L ∅ (∪)). }
  apply list.Forall_cons in Hf as [Hs Hf]. unfold setTypeAdd.
  destruct (setTypeAddAux_spec server junk Hjunk o X (VStr s) Hcfg Ho Hs) as (o1 & -> & Ho1). cbn [mbind option_bind vbytes] in *.
  destruct (IH o1 _ (if Z.b2z (bool_decide (s ∉ X)) =? 0 then added else added + 1) Ho1 Hf) as (o2 & -> & Ho2).
  exists o2. split.
  - do 2 f_equal. simpl. rewrite size_new. case_bool_decide; simpl; lia.
  - simpl. by replace ({[s]} ∪ list_to_set argv ∪ X) with (list_to_set argv ∪ ({[s]} ∪ X)) by set_solver.
Qed.

Lemma size_if_spec b o X : set_ok o X → ∃ o' n, size_if b o = Some (o', n) ∧ set_ok o' X.
Proof using laws.
  intros Ho. unfold size_if. destruct b; [|by eexists _, _]. destruct (setTypeSize_spec server o X Ho) as (o' & -> & Ho' & _).
  by eexists _, _.
Qed.

Lemma sadd_spec c m k argv : db_repr c m → argv ≠ [] → Forall str_ok argv →
  ∃ c', saddCommand server junk c k argv = Some (c', ReplyInt (Z.of_nat (size (list_to_set argv ∖ get m k : gset (list Z))))) ∧
    db_repr c' (put k (list_to_set argv ∪ get m k) m).
Proof using laws Hcfg Hjunk.
  intros Hr Hne Hf. destruct argv as [|first argv]; [done|]. unfold saddCommand. cbn [head mbind option_bind].
  pose proof (zlen_nonneg (first :: argv)).
  assert (∃ o, match c !! k with None => setTypeCreate server junk first (zlen (first :: argv))
     | Some set => setTypeMaybeConvert server junk set (zlen (first :: argv)) end = Some o ∧ set_ok o (get m k)) as (o & -> & Ho).
  { destruct (c !! k) as [o|] eqn:Hk.
    - destruct (repr_lookup c m k o Hr Hk) as (X & _ & Ho & _ & ->). by apply setTypeMaybeConvert_spec.
    - destruct (repr_none c m k Hr Hk) as [_ ->]. by apply setTypeCreate_spec. }
  cbn [mbind option_bind].
  destruct (add_all_spec (first :: argv) o (get m k) 0 Ho Hf) as (o' & -> & Ho'). cbn [mbind option_bind].
  destruct (size_if_spec (negb (0 + Z.of_nat (size (list_to_set (first :: argv) ∖ get m k : gset (list Z))) =? 0)) o' _ Ho')
    as (o2 & n & -> & Ho2).
  eexists. split; [done|]. apply repr_put; [done|done|]. set_solver.
Qed.

Lemma size_gone (x : list Z) (X Y : gset (list Z)) :
  Z.of_nat (size (X ∩ ({[x]} ∪ Y))) = Z.b2z (bool_decide (x ∈ X)) + Z.of_nat (size ((X ∖ {[x]}) ∩ Y)).
Proof.
  case_bool_decide as Hx.
  - replace (X ∩ ({[x]} ∪ Y)) with ({[x]} ∪ (X ∖ {[x]}) ∩ Y).
    + rewrite size_union by set_solver. rewrite size_singleton. simpl. lia.
    + apply set_eq. intros y. destruct (decide (y = x)); set_solver.
  - rewrite Z.add_0_l. do 2 f_equal. apply set_eq. intros y. destruct (decide (y = x)); set_solver.
Qed.

Lemma remove_all_spec argv o X deleted : set_ok o X → X ≠ ∅ → Forall str_ok argv →
  ∃ o' e, remove_all junk o argv deleted = Some (o', deleted + Z.of_nat (size (X ∩ list_to_set argv : gset (list Z))), e) ∧
    e = bool_decide (X ∖ list_to_set argv = ∅) ∧ (e = false → set_ok o' (X ∖ list_to_set argv)).
Proof using laws Hcfg Hjunk.
  revert o X deleted. induction argv as [|s argv IH]; intros o X deleted Ho Hne Hf; cbn [remove_all].
  { exists o, false. simpl. replace (X ∩ ∅) with (∅ : gset (list Z)) by set_solver. rewrite size_empty, Z.add_0_r.
    replace (X ∖ ∅) with X by set_solver. by rewrite bool_decide_false. }
  apply list.Forall_cons in Hf as [Hs Hf]. unfold setTypeRemove.
  destruct (setTypeRemoveAux_spec server junk Hjunk o X (VStr s) Ho Hs) as (o1 & -> & Ho1). cbn [mbind option_bind vbytes] in *.
  assert (X ∖ list_to_set (s :: argv) = X ∖ {[s]} ∖ list_to_set argv) as Ed by (simpl; set_solver).
  rewrite Ed. simpl list_to_set. rewrite size_gone. destruct (decide (s ∈ X)) as [Hin|Hin].
  - rewrite bool_decide_true by done. simpl Z.b2z. change (1 =? 0) with false. cbn [mbind option_bind].
    destruct (setTypeSize_spec server o1 _ Ho1) as (o2 & -> & Ho2 & _). cbn [mbind option_bind].
    destruct (Z.of_nat (size (X ∖ {[s]})) =? 0) eqn:E; zb.
    + assert (X ∖ {[s]} = ∅) as Ee by (apply leibniz_equiv, size_empty_inv; lia). exists o2, true. rewrite Ee.
      replace (∅ ∩ list_to_set argv) with (∅ : gset (list Z)) by set_solver. rewrite size_empty.
      replace (∅ ∖ list_to_set argv) with (∅ : gset (list Z)) by set_solver. rewrite bool_decide_true by done.
      by split_and!.
    + destruct (IH o2 (X ∖ {[s]}) (deleted + 1) Ho2) as (o3 & e & -> & He & Ho3); [|done|].
      { intros Ee. rewrite Ee, size_empty in E. done. }
      exists o3, e. split_and!; [|done|done]. do 3 f_equal. lia.
  - rewrite bool_decide_false by done. simpl Z.b2z. change (0 =? 0) with true. cbn iota.
    replace (X ∖ {[s]}) with X in * by set_solver. destruct (IH o1 X deleted Ho1 Hne Hf) as (o3 & e & -> & He & Ho3).
    exists o3, e. by split_and!.
Qed.

Lemma srem_spec c m k argv : db_repr c m → Forall str_ok argv →
  ∃ c', sremCommand junk c k argv = Some (c', ReplyInt (Z.of_nat (size (get m k ∩ list_to_set argv : gset (list Z))))) ∧
    db_repr c' (put k (get m k ∖ list_to_set argv) m).
Proof using laws Hcfg Hjunk.
  intros Hr Hf. unfold sremCommand. destruct (c !! k) as [o|] eqn:Hk.
  - destruct (repr_lookup c m k o Hr Hk) as (X & Hm & Ho & Hne & ->).
    destruct (setTypeSize_spec server o X Ho) as (o1 & -> & Ho1 & _). cbn [mbind option_bind].
    destruct (remove_all_spec argv o1 X 0 Ho1 Hne Hf) as (o2 & e & -> & -> & Ho2). cbn [mbind option_bind].
    eexists. split; [done|]. case_bool_decide as Hb; [rewrite Hb; by apply repr_put_empty|]. apply repr_put; [done|by apply Ho2|done].
  - destruct (repr_none c m k Hr Hk) as [Hm ->]. exists c. replace (∅ ∩ list_to_set argv) with (∅ : gset (list Z)) by set_solver.
    rewrite size_empty. split; [done|]. replace (∅ ∖ list_to_set argv) with (∅ : gset (list Z)) by set_solver.
    unfold put. rewrite decide_True, delete_id by done. done.
Qed.

Lemma is_member_spec o X s : set_ok o X → str_ok s →
  ∃ o', setTypeIsMember junk o s = Some (o', bool_decide (s ∈ X)) ∧ set_ok o' X.
Proof using laws Hcfg Hjunk.
  intros Ho Hs. destruct (setTypeIsMemberAux_spec server junk o X (VStr s) Ho Hs) as (o' & E & Ho' & _). by exists o'.
Qed.

(** SMOVE on the map. *)
Definition smove_spec m (src dst : key) (s : list Z) : sets * Z :=
  if decide (s ∈ get m src) then
    if decide (src = dst) then (m, 1)
    else let m1 := put src (get m src ∖ {[s]}) m in (put dst ({[s]} ∪ get m1 dst) m1, 1)
  else (m, 0).

Lemma smove_correct c m src dst s : db_repr c m → str_ok s →
  ∃ c', smoveCommand server junk c src dst s = Some (c', ReplyInt (smove_spec m src dst s).2) ∧
    db_repr c' (smove_spec m src dst s).1.
Proof using laws Hcfg Hjunk.
  intros Hr Hs. unfold smoveCommand, smove_spec. destruct (c !! src) as [o|] eqn:Hk.
  2:{ destruct (repr_none c m src Hr Hk) as [_ ->]. rewrite decide_False by set_solver. by exists c. }
  destruct (repr_lookup c m src o Hr Hk) as (X & Hm & Ho & Hne & ->). destruct (decide (src = dst)) as [<-|Hsd].
  { destruct (is_member_spec o X s Ho Hs) as (o' & -> & Ho'). cbn [mbind option_bind]. eexists. split.
    - do 3 f_equal. destruct (decide (s ∈ X)); [by rewrite bool_decide_true|by rewrite bool_decide_false].
    - destruct (decide (s ∈ X)); simpl; by eapply repr_update. }
  destruct (setTypeRemoveAux_spec server junk Hjunk o X (VStr s) Ho Hs) as (o1 & E1 & Ho1). unfold setTypeRemove. rewrite E1.
  cbn [mbind option_bind vbytes] in *. clear E1. destruct (decide (s ∈ X)) as [Hin|Hin].
  2:{ rewrite bool_decide_false by done. simpl. eexists. split; [done|]. replace (X ∖ {[s]}) with X in Ho1 by set_solver.
      by eapply repr_update. }
  rewrite bool_decide_true by done. simpl Z.b2z. change (1 =? 0) with false. cbn iota.
  destruct (setTypeSize_spec server o1 _ Ho1) as (o2 & -> & Ho2 & _). cbn [mbind option_bind].
  set (m1 := put src (X ∖ {[s]}) m).
  set (c1 := if Z.of_nat (size (X ∖ {[s]})) =? 0 then delete src (<[src := o1]> c) else <[src := o2]> (<[src := o1]> c)).
  assert (db_repr c1 m1) as Hr1.
  { unfold c1, m1. destruct (Z.of_nat (size (X ∖ {[s]})) =? 0) eqn:E; zb.
    - assert (X ∖ {[s]} = ∅) as -> by (apply leibniz_equiv, size_empty_inv; lia). rewrite delete_insert_eq. by apply repr_put_empty.
    - rewrite insert_insert_eq. apply repr_put; [done|done|]. intros Ee. rewrite Ee, size_empty in E. done. }
  assert (∃ o3, match c1 !! dst with Some dstset => Some dstset | None => setTypeCreate server junk s 1 end = Some o3 ∧
    set_ok o3 (get m1 dst)) as (o3 & -> & Ho3).
  { destruct (c1 !! dst) as [o3|] eqn:Hd.
    - destruct (repr_lookup c1 m1 dst o3 Hr1 Hd) as (Y & _ & Ho3 & _ & ->). by exists o3.
    - destruct (repr_none c1 m1 dst Hr1 Hd) as [_ ->]. by apply setTypeCreate_spec. }
  cbn [mbind option_bind]. unfold setTypeAdd.
  destruct (setTypeAddAux_spec server junk Hjunk o3 (get m1 dst) (VStr s) Hcfg Ho3 Hs) as (o4 & -> & Ho4). cbn [mbind option_bind].
  match goal with |- context [size_if ?b o4] => destruct (size_if_spec b o4 _ Ho4) as (o5 & n & -> & Ho5) end. cbn [mbind option_bind].
  eexists. split; [done|]. apply repr_put; [done|done|]. simpl. set_solver.
Qed.

Lemma sismember_spec c m k s : db_repr c m → str_ok s →
  ∃ c', sismemberCommand junk c k s = Some (c', ReplyInt (Z.b2z (bool_decide (s ∈ get m k)))) ∧ db_repr c' m.
Proof using laws Hcfg Hjunk.
  intros Hr Hs. unfold sismemberCommand. destruct (c !! k) as [o|] eqn:Hk.
  - destruct (repr_lookup c m k o Hr Hk) as (X & Hm & Ho & _ & ->).
    destruct (is_member_spec o X s Ho Hs) as (o' & -> & Ho'). eexists. split; [done|]. by eapply repr_update.
  - destruct (repr_none c m k Hr Hk) as [_ ->]. exists c. by rewrite bool_decide_false by set_solver.
Qed.

Lemma members_list_spec argv o X : set_ok o X → Forall str_ok argv →
  ∃ o', members junk o argv = Some (o', (λ s, Z.b2z (bool_decide (s ∈ X))) <$> argv) ∧ set_ok o' X.
Proof using laws Hcfg Hjunk.
  revert o. induction argv as [|s argv IH]; intros o Ho Hf; cbn [members]; [by exists o|].
  apply list.Forall_cons in Hf as [Hs Hf]. destruct (is_member_spec o X s Ho Hs) as (o1 & -> & Ho1). cbn [mbind option_bind].
  destruct (IH o1 Ho1 Hf) as (o2 & -> & Ho2). by exists o2.
Qed.

Lemma smismember_spec c m k argv : db_repr c m → Forall str_ok argv →
  ∃ c', smismemberCommand junk c k argv = Some (c', ReplyInts ((λ s, Z.b2z (bool_decide (s ∈ get m k))) <$> argv)) ∧ db_repr c' m.
Proof using laws Hcfg Hjunk.
  intros Hr Hf. unfold smismemberCommand. destruct (c !! k) as [o|] eqn:Hk.
  - destruct (repr_lookup c m k o Hr Hk) as (X & Hm & Ho & _ & ->).
    destruct (members_list_spec argv o X Ho Hf) as (o' & -> & Ho'). eexists. split; [done|]. by eapply repr_update.
  - destruct (repr_none c m k Hr Hk) as [_ ->]. exists c. split; [|done].
    reflexivity.
Qed.

Lemma scard_spec c m k : db_repr c m →
  ∃ c', scardCommand c k = Some (c', ReplyInt (Z.of_nat (size (get m k)))) ∧ db_repr c' m.
Proof using laws Hcfg Hjunk.
  intros Hr. unfold scardCommand. destruct (c !! k) as [o|] eqn:Hk.
  - destruct (repr_lookup c m k o Hr Hk) as (X & Hm & Ho & _ & ->).
    destruct (setTypeSize_spec server o X Ho) as (o' & -> & Ho' & _). eexists. split; [done|]. by eapply repr_update.
  - destruct (repr_none c m k Hr Hk) as [_ ->]. exists c. by rewrite size_empty.
Qed.

(** All the elements, each once. *)
Lemma send_elements_spec o X : set_repr o X →
  ∃ l, send_elements junk o = Some l ∧ NoDup l ∧ X = list_to_set l.
Proof using laws Hcfg Hjunk.
  intros Hr. unfold send_elements.
  match goal with |- context [for_each_in o ?b _] => set (body := b) end.
  destruct (for_each_in_spec o X body (λ dn out, out = vbytes <$> dn) [] Hr) as (out & l & E & Hn & Ex & _ & _ & ->).
  - done.
  - intros dn v out Hv _ _ _ ->. unfold body. rewrite value_str_spec by done. eexists. split; [done|]. by rewrite fmap_app.
  - rewrite E. by eexists.
Qed.

Lemma zlen_set_size (l : list (list Z)) : NoDup l → zlen l = Z.of_nat (size (list_to_set l : gset (list Z))).
Proof. intros Hn. by rewrite size_list_to_set. Qed.

Lemma smembers_spec c m k : db_repr c m →
  ∃ c' l, smembersCommand junk c k = Some (c', ReplySet (Z.of_nat (size (get m k))) l) ∧ db_repr c' m ∧
    NoDup l ∧ get m k = list_to_set l.
Proof using laws Hcfg Hjunk.
  intros Hr. unfold smembersCommand. destruct (c !! k) as [o|] eqn:Hk.
  - destruct (repr_lookup c m k o Hr Hk) as (X & Hm & Ho & _ & ->).
    destruct (setTypeSize_spec server o X Ho) as (o' & -> & Ho' & _). cbn [mbind option_bind].
    destruct (send_elements_spec o' X (proj1 Ho')) as (l & -> & Hn & ->). cbn [mbind option_bind].
    rewrite (zlen_set_size l Hn), Z.sub_diag. eexists _, l. split; [done|]. split; [by eapply repr_update|done].
  - destruct (repr_none c m k Hr Hk) as [_ ->]. exists c, []. rewrite size_empty. split_and!; [done|done|constructor|done].
Qed.
End Proofs.
End SetCommandsProofs.
