(* ===== verification/SetAlgebra.v ===== *)
(** * Sets: intersection, union and difference

    The loops of SINTER, SUNION and SDIFF over the objects of several keys, some of
    which may be the same, compute the operations of finite sets, whatever order
    [qsort] puts the sets in and whichever algorithm is chosen. *)

From stdpp Require Import gmap.
From S2P Require Import Prelude Intset Util Listpack ListpackRepr ListpackElem ListpackEdit ListpackValues Dict DictSet SetType SetTypeRepr SetTypeProofs SetCommands SetCommandsProofs.

Module SetAlgebra.
Import Listpack ListpackRepr ListpackElem ListpackEdit Dict DictSet SetType SetTypeRepr SetTypeProofs SetCommands SetCommandsProofs.

(** ** The operations on the map *)

(** The intersection of the sets at some keys, their union, and what the first one
    has beyond the others. *)
Definition inter (m : sets) (ks : list key) : gset (list Z) :=
  match ks with [] => ∅ | k :: ks => foldr (λ k X, get m k ∩ X) (get m k) ks end.

Definition union_keys (m : sets) (ks : list (option key)) : gset (list Z) := ⋃ (get_opt m <$> ks).

Definition diff_keys (m : sets) (ks : list (option key)) : gset (list Z) :=
  match ks with [] => ∅ | ko :: ks => get_opt m ko ∖ union_keys m ks end.

Lemma elem_inter m ks s : ks ≠ [] → s ∈ inter m ks ↔ Forall (λ k, s ∈ get m k) ks.
Proof.
  destruct ks as [|k ks]; [done|]. intros _. simpl. rewrite list.Forall_cons.
  induction ks as [|k' ks IH]; simpl; [rewrite list.Forall_nil; tauto|]. rewrite elem_of_intersection, list.Forall_cons. tauto.
Qed.

(** The order of the keys does not matter. *)
Lemma inter_perm m ks ks' : ks ≡ₚ ks' → inter m ks = inter m ks'.
Proof.
  intros Hp. destruct ks as [|k ks]; [by apply Permutation_nil in Hp as ->|].
  assert (ks' ≠ []) by (intros ->; by apply Permutation_nil_r in Hp). apply set_eq. intros s.
  rewrite !elem_inter by done. by rewrite Hp.
Qed.

Lemma swrap_add w a b : 0 < w → swrap w (swrap w a + b) = swrap w (a + b).
Proof.
  intros Hw. unfold swrap. f_equal.
  replace ((a + 2 ^ (w - 1)) mod 2 ^ w - 2 ^ (w - 1) + b + 2 ^ (w - 1)) with ((a + 2 ^ (w - 1)) mod 2 ^ w + b) by lia.
  rewrite Zplus_mod_idemp_l. f_equal. lia.
Qed.

Section Proofs.
Context (server : redisServer) (junk : Z) (Hjunk : is_byte junk) (Hcfg : config_ok server).
Context {D P I : Type} {api : SetApi D P I} {laws : SetLaws api}.
Abbreviation robj := (robj D).
Abbreviation db := (gmap key robj).
Abbreviation set_ok := (set_ok server).
Abbreviation db_repr := (db_repr server).
Implicit Types (c : db) (m : sets) (o : robj) (X : gset (list Z)).

(** ** The loop over one of the sets *)

Lemma for_each_db {A} (k : key) o X c m (body : value → db * A → option (db * A * bool)) (J : list value → A → Prop) (Q : A → Prop) a :
  db_repr c m → c !! k = Some o → m !! k = Some X → J [] a →
  (∀ dn v c a, value_ok v → gives o v → (vbytes v ∉ vbytes <$> dn) → vbytes v ∈ X → db_repr c m → c !! k = Some o → J dn a →
     ∃ c' a' go, body v (c, a) = Some ((c', a'), go) ∧ db_repr c' m ∧ c' !! k = Some o ∧ if go : bool then J (dn ++ [v]) a' else Q a') →
  ∃ c' a' l, for_each (at_key k) (set_key k) body (c, a) = Some (c', a') ∧ db_repr c' m ∧
    NoDup (vbytes <$> l) ∧ X = list_to_set (vbytes <$> l) ∧ (J l a' ∨ Q a').
Proof using laws Hjunk Hcfg.
  intros Hr Hk Hm HJ Hb. destruct (repr_lookup server c m k o Hr Hk) as (X' & HX & [Ho _] & _). simplify_eq.
  edestruct (for_each_spec (at_key k) (set_key k) body o
    (λ dn st, (db_repr st.1 m ∧ st.1 !! k = Some o) ∧ J dn st.2) (λ st, (db_repr st.1 m ∧ st.1 !! k = Some o) ∧ Q st.2))
    with (X := X) (st := (c, a)) as ([c' a'] & l & E & Hn & Ex & _ & _ & Hq).
  - intros [c1 a1] [[dn [[_ Hk1] _]]|[[_ Hk1] _]]; unfold at_key, set_key; simpl in *; by rewrite insert_id.
  - exact Ho.
  - by split_and!.
  - intros l Hn Ex dn v td [c1 a1] El Hv Hg [[Hr1 Hk1] HJ1]. simpl in *.
    destruct (fresh_value X l dn v td Hn Ex El) as [Hf Hin].
    destruct (Hb dn v c1 a1 Hv Hg Hf Hin Hr1 Hk1 HJ1) as (c2 & a2 & go & E & Hr2 & Hk2 & Hgo).
    exists (c2, a2), go. split; [done|]. by destruct go.
  - exists c', a', l. simpl in Hq. split; [done|]. destruct Hq as [[[? ?] ?]|[[? ?] ?]]; (split_and!; [done..|]); [by left|by right].
Qed.

(** ** Sizes and sorting *)

Lemma size_at_spec c m ko : db_repr c m → match ko with Some k => is_Some (m !! k) | None => True end →
  ∃ c', size_at c ko = Some (c', Z.of_nat (size (get_opt m ko))) ∧ db_repr c' m.
Proof using laws Hjunk Hcfg.
  intros Hr Hk. destruct ko as [k|]; simpl; [|by exists c]. destruct Hk as [X Hk].
  destruct (repr_some server c m k X Hr Hk) as (o & -> & Ho). cbn [mbind option_bind].
  destruct (setTypeSize_spec server o X Ho) as (o' & -> & Ho' & _). cbn [mbind option_bind].
  exists (<[k := o']> c). unfold get. rewrite Hk. split; [done|]. by eapply repr_update.
Qed.

Lemma sizes_at_spec {K} (at_ : K → option key) ks c m : db_repr c m →
  Forall (λ k, match at_ k with Some k => is_Some (m !! k) | None => True end) ks →
  ∃ c' l, sizes_at at_ c ks = Some (c', l) ∧ l.*1 = ks ∧ db_repr c' m.
Proof using laws Hjunk Hcfg.
  intros Hr Hf. revert c Hr. induction Hf as [|k ks Hk _ IH]; intros c Hr; cbn [sizes_at]; [by exists c, []|].
  destruct (size_at_spec c m (at_ k) Hr Hk) as (c1 & -> & Hr1). cbn [mbind option_bind].
  destruct (IH c1 Hr1) as (c2 & l & -> & El & Hr2). cbn [mbind option_bind]. eexists c2, _. split_and!; [done| |done].
  by rewrite fmap_cons, El.
Qed.

(** ** Membership in several sets *)

Lemma in_all_spec ks first v c m o : db_repr c m → c !! first = Some o → Forall (λ k, is_Some (m !! k)) ks → value_ok v →
  vbytes v ∈ get m first →
  ∃ c', in_all junk c first ks v = Some (c', bool_decide (Forall (λ k, vbytes v ∈ get m k) ks)) ∧ db_repr c' m ∧ c' !! first = Some o.
Proof using laws Hjunk Hcfg.
  intros Hr Hk Hf Hv Hin. revert c Hr Hk. induction Hf as [|k ks [X Hm] _ IH]; intros c Hr Hk; cbn [in_all].
  { exists c. by rewrite bool_decide_true. }
  destruct (decide (k = first)) as [->|Hne].
  - destruct (IH c Hr Hk) as (c' & -> & Hr' & Hk'). exists c'. split; [|done]. do 2 f_equal. apply bool_decide_ext.
    rewrite list.Forall_cons. tauto.
  - destruct (repr_some server c m k X Hr Hm) as (o1 & -> & Ho1). cbn [mbind option_bind].
    destruct (setTypeIsMemberAux_spec server junk o1 X v Ho1 Hv) as (o2 & -> & Ho2 & _). cbn [mbind option_bind].
    assert (get m k = X) as Eg by (unfold get; by rewrite Hm).
    assert (db_repr (<[k := o2]> c) m) as Hr2 by by eapply repr_update.
    assert (<[k := o2]> c !! first = Some o) as Hk2 by by rewrite lookup_insert_ne.
    destruct (bool_decide (vbytes v ∈ X)) eqn:Hb; [apply bool_decide_eq_true in Hb|apply bool_decide_eq_false in Hb].
    + destruct (IH _ Hr2 Hk2) as (c' & -> & Hr' & Hk'). exists c'. split; [|done]. do 2 f_equal. apply bool_decide_ext.
      rewrite list.Forall_cons, Eg. tauto.
    + exists (<[k := o2]> c). rewrite bool_decide_false; [done|]. rewrite list.Forall_cons, Eg. tauto.
Qed.

Lemma in_none_spec ks first v c m o : db_repr c m → c !! first = Some o →
  Forall (λ ko, match ko with Some k => is_Some (m !! k) | None => True end) ks → value_ok v → vbytes v ∈ get m first →
  ∃ c', in_none junk c first ks v = Some (c', bool_decide (Forall (λ ko, vbytes v ∉ get_opt m ko) ks)) ∧ db_repr c' m ∧ c' !! first = Some o.
Proof using laws Hjunk Hcfg.
  intros Hr Hk Hf Hv Hin. revert c Hr Hk. induction Hf as [|ko ks Hko _ IH]; intros c Hr Hk; cbn [in_none].
  { exists c. by rewrite bool_decide_true. }
  destruct ko as [k|].
  2:{ destruct (IH c Hr Hk) as (c' & -> & Hr' & Hk'). exists c'. split; [|done]. do 2 f_equal. apply bool_decide_ext.
      rewrite list.Forall_cons. simpl. set_solver. }
  destruct (decide (k = first)) as [->|Hne].
  - exists c. rewrite bool_decide_false; [done|]. rewrite list.Forall_cons. simpl. tauto.
  - destruct Hko as [X Hm]. destruct (repr_some server c m k X Hr Hm) as (o1 & -> & Ho1). cbn [mbind option_bind].
    destruct (setTypeIsMemberAux_spec server junk o1 X v Ho1 Hv) as (o2 & -> & Ho2 & _). cbn [mbind option_bind].
    assert (get m k = X) as Eg by (unfold get; by rewrite Hm).
    assert (db_repr (<[k := o2]> c) m) as Hr2 by by eapply repr_update.
    assert (<[k := o2]> c !! first = Some o) as Hk2 by by rewrite lookup_insert_ne.
    destruct (bool_decide (vbytes v ∈ X)) eqn:Hb; [apply bool_decide_eq_true in Hb|apply bool_decide_eq_false in Hb].
    + exists (<[k := o2]> c). rewrite bool_decide_false; [done|]. rewrite list.Forall_cons. simpl. rewrite Eg. tauto.
    + destruct (IH _ Hr2 Hk2) as (c' & -> & Hr' & Hk'). exists c'. split; [|done]. do 2 f_equal. apply bool_decide_ext.
      rewrite list.Forall_cons. simpl. rewrite Eg. tauto.
Qed.

(** ** SINTER *)

Section Inter.
Context (m : sets) (first : key) (others : list key).

(** Whether the result has the element. *)
Definition wanted (s : list Z) : Prop := Forall (λ k, s ∈ get m k) others.
#[local] Instance wanted_dec s : Decision (wanted s).
Proof. unfold wanted. apply _. Defined.

Lemma inter_wanted : inter m (first :: others) = filter wanted (get m first).
Proof. apply set_eq. intros s. rewrite elem_inter by done. rewrite elem_of_filter, list.Forall_cons. unfold wanted. tauto. Qed.

Definition hits (dn : list value) : list (list Z) := filter wanted (vbytes <$> dn).

Lemma hits_snoc dn v : hits (dn ++ [v]) = if decide (wanted (vbytes v)) then hits dn ++ [vbytes v] else hits dn.
Proof.
  unfold hits. rewrite fmap_app, list.filter_app. change (vbytes <$> [v]) with [vbytes v]. rewrite filter_cons, filter_nil.
  destruct (decide _); [done|]. by rewrite app_nil_r.
Qed.

Lemma hits_all l X : X = list_to_set (vbytes <$> l) → filter wanted X = list_to_set (hits l).
Proof. intros ->. apply set_eq. intros s. rewrite elem_of_filter, !elem_of_list_to_set. unfold hits. by rewrite list_elem_of_filter. Qed.

Lemma hits_NoDup l : NoDup (vbytes <$> l) → NoDup (hits l).
Proof. intros Hn. unfold hits. by apply list.NoDup_filter. Qed.

(** The elements treated so far are members, each once. *)
Definition seen (dn : list value) : Prop := NoDup (vbytes <$> dn) ∧ ∀ s, s ∈ vbytes <$> dn → s ∈ get m first.

Lemma seen_snoc dn v : seen dn → (vbytes v ∉ vbytes <$> dn) → vbytes v ∈ get m first → seen (dn ++ [v]).
Proof.
  intros [Hn Hs] Hf Hin. unfold seen. rewrite fmap_app. change (vbytes <$> [v]) with [vbytes v]. split.
  - apply list.NoDup_app. split_and!; [done| |apply NoDup_singleton].
    intros x Hx E. apply list_elem_of_singleton in E. by subst x.
  - intros s [?|E]%elem_of_app; [by apply Hs|]. apply list_elem_of_singleton in E. by subst s.
Qed.

Lemma hits_count dn : seen dn → zlen (hits dn) <= Z.of_nat (size (inter m (first :: others))).
Proof.
  intros [Hn Hs]. rewrite zlen_set_size by by apply hits_NoDup. apply inj_le, subseteq_size.
  intros s. rewrite elem_of_list_to_set. unfold hits. rewrite list_elem_of_filter. intros [Hw Hin].
  rewrite inter_wanted. apply elem_of_filter. split; [done|by apply Hs].
Qed.

Lemma sinter_test v c o : db_repr c m → c !! first = Some o → Forall (λ k, is_Some (m !! k)) others → value_ok v →
  vbytes v ∈ get m first →
  ∃ c', in_all junk c first others v = Some (c', bool_decide (wanted (vbytes v))) ∧ db_repr c' m ∧ c' !! first = Some o.
Proof using laws Hjunk Hcfg. intros. by apply in_all_spec. Qed.

Lemma card_step n size : 0 <= n → n + 1 <= size → size < 2 ^ 31 → uwrap 64 (n + 1) = n + 1.
Proof. intros. apply uwrap_id. change (2 ^ 31) with 2147483648 in *. change (2 ^ 64) with 18446744073709551616. lia. Qed.

(** SINTER: the elements sent and their number. *)
Lemma sinter_reply_loop c o a : db_repr c m → c !! first = Some o → is_Some (m !! first) → Forall (λ k, is_Some (m !! k)) others →
  Z.of_nat (size (inter m (first :: others))) < 2 ^ 31 →
  a = mkAcc 0 [] None true →
  ∃ c' a', for_each (at_key first) (set_key first) (sinter_body server junk SinterReply (encoding o) first others) (c, a) = Some (c', a') ∧
    db_repr c' m ∧ acc_card a' = Z.of_nat (size (inter m (first :: others))) ∧ NoDup (acc_out a') ∧
    inter m (first :: others) = list_to_set (acc_out a').
Proof using laws Hjunk Hcfg.
  intros Hr Hk [X Hm] Hf Hsz ->. assert (get m first = X) as EX by (unfold get; by rewrite Hm).
  destruct (for_each_db first o X c m (sinter_body server junk SinterReply (encoding o) first others)
    (λ dn a, seen dn ∧ acc_out a = hits dn ∧ acc_card a = zlen (hits dn)) (λ _, False) (mkAcc 0 [] None true))
    as (c' & a' & l & E & Hr' & Hn & Ex & [(Hs & Ho & Hc)|[]]).
  - done.
  - done.
  - done.
  - split_and!; [|done|done]. split; [constructor|]. intros s Hs. by apply elem_of_nil in Hs.
  - intros dn v c1 a Hv _ Hfr Hin Hr1 Hk1 (Hs & Ho & Hc). rewrite <-EX in Hin. unfold sinter_body. cbn [fst snd].
    destruct (sinter_test v c1 o Hr1 Hk1 Hf Hv Hin) as (c2 & -> & Hr2 & Hk2). cbn [mbind option_bind].
    pose proof (seen_snoc dn v Hs Hfr Hin) as Hs'. pose proof (hits_count _ Hs') as Hcnt. rewrite hits_snoc in *.
    destruct (decide (wanted (vbytes v))) as [Hw|Hw].
    + rewrite bool_decide_true by done. cbn [negb]. rewrite value_str_spec by done. cbn [mbind option_bind].
      rewrite zlen_app in Hcnt. change (zlen [vbytes v]) with 1 in Hcnt. pose proof (zlen_nonneg (hits dn)).
      eexists c2, _, true. split; [done|]. split_and!; [done|done|done|by rewrite Ho|]. simpl.
      rewrite Hc, zlen_app. by eapply card_step.
    + rewrite bool_decide_false by done. cbn [negb]. exists c2, a, true. by split_and!.
  - exists c', a'. split_and!; [done|done| | |].
    + rewrite Hc, zlen_set_size by by apply hits_NoDup. by rewrite <-(hits_all l _ Ex), <-EX, inter_wanted.
    + rewrite Ho. by apply hits_NoDup.
    + by rewrite Ho, <-(hits_all l _ Ex), <-EX, inter_wanted.
Qed.

(** SINTERCARD: the number of elements, up to the limit. *)
Lemma sinter_card_loop c o limit : db_repr c m → c !! first = Some o → is_Some (m !! first) → Forall (λ k, is_Some (m !! k)) others →
  Z.of_nat (size (inter m (first :: others))) < 2 ^ 31 → 0 <= limit →
  ∃ c' a', for_each (at_key first) (set_key first) (sinter_body server junk (SinterCard limit) (encoding o) first others)
      (c, mkAcc 0 [] None true) = Some (c', a') ∧
    db_repr c' m ∧ acc_card a' = (let n := Z.of_nat (size (inter m (first :: others))) in if limit =? 0 then n else Z.min limit n).
Proof using laws Hjunk Hcfg.
  intros Hr Hk [X Hm] Hf Hsz Hlim. assert (get m first = X) as EX by (unfold get; by rewrite Hm).
  set (n := Z.of_nat (size (inter m (first :: others)))) in *.
  destruct (for_each_db first o X c m (sinter_body server junk (SinterCard limit) (encoding o) first others)
    (λ dn a, seen dn ∧ acc_card a = zlen (hits dn) ∧ (limit = 0 ∨ acc_card a < limit))
    (λ a, acc_card a = limit ∧ limit ≠ 0 ∧ limit <= n) (mkAcc 0 [] None true))
    as (c' & a' & l & E & Hr' & Hn & Ex & Hq).
  - done.
  - done.
  - done.
  - split_and!; [|done|simpl; lia]. split; [constructor|]. intros s Hs. by apply elem_of_nil in Hs.
  - intros dn v c1 a Hv _ Hfr Hin Hr1 Hk1 (Hs & Hc & Hl). rewrite <-EX in Hin. unfold sinter_body. cbn [fst snd].
    destruct (sinter_test v c1 o Hr1 Hk1 Hf Hv Hin) as (c2 & -> & Hr2 & Hk2). cbn [mbind option_bind].
    pose proof (seen_snoc dn v Hs Hfr Hin) as Hs'. pose proof (hits_count _ Hs') as Hcnt. rewrite hits_snoc in *.
    destruct (decide (wanted (vbytes v))) as [Hw|Hw].
    + rewrite bool_decide_true by done. cbn [negb].
      rewrite zlen_app in *. change (zlen [vbytes v]) with 1 in *. pose proof (zlen_nonneg (hits dn)).
      rewrite (card_step (acc_card a) n) by (done || lia). eexists c2, _, _. split; [done|]. split_and!; [done|done|].
      destruct (negb (limit =? 0) && (limit <=? acc_card a + 1)) eqn:Eb; simpl.
      * apply andb_true_iff in Eb as [Eb1 Eb2]. apply negb_true_iff in Eb1. zb. fold n in Hcnt. lia.
      * split_and!; [done|lia|]. apply andb_false_iff in Eb as [Eb|Eb]; [apply negb_false_iff in Eb|]; zb; lia.
    + rewrite bool_decide_false by done. cbn [negb]. exists c2, a, true. by split_and!.
  - exists c', a'. split_and!; [done|done|]. cbv zeta. destruct Hq as [(Hs & Hc & Hl)|(Hc & Hl0 & Hle)].
    + assert (zlen (hits l) = n) as En.
      { rewrite zlen_set_size by by apply hits_NoDup. unfold n. by rewrite <-(hits_all l _ Ex), <-EX, inter_wanted. }
      case_if; lia.
    + case_if; lia.
Qed.
Lemma sinter_element_spec enc dst_enc v ints v' b : value_ok v → sinter_element enc dst_enc v ints = (v', b) →
  value_ok v' ∧ vbytes v' = vbytes v ∧ (b = true → ints = true ∧ is_Some (Util.string2ll (vbytes v))).
Proof.
  intros Hv. unfold sinter_element. destruct v as [s|n].
  2:{ intros [= <- <-]. split_and!; [done|done|]. intros ->. split; [done|]. simpl. by rewrite (sdec_int n Hv). }
  destruct ints; [|by intros [= <- <-]]. destruct (decide (enc = OBJ_ENCODING_HT)); [|by intros [= <- <-]].
  destruct (Util.string2ll s) as [n|] eqn:Hn; [|by intros [= <- <-]].
  pose proof (proj1 (Util.string2ll_spec s n) Hn) as [Hn64 Es].
  case_if; intros [= <- <-]; simpl; by rewrite ?Hn.
Qed.

(** SINTERSTORE: the set that is stored. *)
Lemma sinter_store_loop c o dst dstkey : db_repr c m → c !! first = Some o → is_Some (m !! first) → Forall (λ k, is_Some (m !! k)) others →
  set_ok dst ∅ →
  ∃ c' a' dstset, for_each (at_key first) (set_key first) (sinter_body server junk (SinterStore dstkey) (encoding o) first others)
      (c, mkAcc 0 [] (Some dst) true) = Some (c', a') ∧
    db_repr c' m ∧ acc_dst a' = Some dstset ∧ set_ok dstset (inter m (first :: others)) ∧
    (acc_ints a' = true → ∀ s, s ∈ inter m (first :: others) → is_Some (Util.string2ll s)).
Proof using laws Hjunk Hcfg.
  intros Hr Hk [X Hm] Hf Hdst. assert (get m first = X) as EX by (unfold get; by rewrite Hm).
  destruct (for_each_db first o X c m (sinter_body server junk (SinterStore dstkey) (encoding o) first others)
    (λ dn a, ∃ dstset, acc_dst a = Some dstset ∧ set_ok dstset (list_to_set (hits dn)) ∧
       (acc_ints a = true → ∀ s, s ∈ hits dn → is_Some (Util.string2ll s)))
    (λ _, False) (mkAcc 0 [] (Some dst) true))
    as (c' & a' & l & E & Hr' & Hn & Ex & [(dstset & Ho & Hs & Hi)|[]]).
  - done.
  - done.
  - done.
  - exists dst. split_and!; [done|done|]. intros _ s Hs. by apply elem_of_nil in Hs.
  - intros dn v c1 a Hv _ Hfr Hin Hr1 Hk1 (dstset & Ho & Hs & Hi). rewrite <-EX in Hin. unfold sinter_body. cbn [fst snd].
    destruct (sinter_test v c1 o Hr1 Hk1 Hf Hv Hin) as (c2 & -> & Hr2 & Hk2). cbn [mbind option_bind]. rewrite hits_snoc.
    destruct (decide (wanted (vbytes v))) as [Hw|Hw].
    + rewrite bool_decide_true by done. cbn [negb]. rewrite Ho. cbn [mbind option_bind].
      destruct (sinter_element (encoding o) (encoding dstset) v (acc_ints a)) as [v' b] eqn:Ee.
      destruct (sinter_element_spec _ _ _ _ _ _ Hv Ee) as (Hv' & Evb & Hb).
      destruct (setTypeAddAux_spec server junk Hjunk dstset _ v' Hcfg Hs Hv') as (o' & -> & Ho'). cbn [mbind option_bind].
      eexists c2, _, true. split; [done|]. split_and!; [done|done|]. exists o'. rewrite list_to_set_snoc, <-Evb. split_and!; [done|done|].
      simpl. intros Hbt. destruct (Hb Hbt) as [Hit Hs2]. intros s [?|E]%elem_of_app; [by apply Hi|].
      apply list_elem_of_singleton in E. subst s. by rewrite Evb.
    + rewrite bool_decide_false by done. cbn [negb]. exists c2, a, true. split_and!; [done|done|done|]. by exists dstset.
  - assert (inter m (first :: others) = list_to_set (hits l)) as Ei by (by rewrite <-(hits_all l _ Ex), <-EX, inter_wanted).
    exists c', a', dstset. rewrite Ei. split_and!; [done|done|done|done|]. intros Hit s Hin. apply elem_of_list_to_set in Hin. by apply Hi.
Qed.
End Inter.

Lemma dstset_ok o X : set_ok o X → ∃ o', sinter_dstset junk o = Some o' ∧ set_ok o' ∅.
Proof using laws Hjunk Hcfg.
  intros [[_ Ho] _]. destruct o as [d|iset|lp]; simpl.
  - destruct (empty_listpack_ok server junk Hjunk Hcfg) as (o' & ? & ? & _). by exists o'.
  - exists createIntsetObject. split; [done|by apply (empty_intset_ok server junk Hjunk)].
  - destruct Ho as (es & (num & slack & -> & _ & _ & Ht & _) & _). unfold lpBytes. rewrite total_bytes_image by done. cbn [mbind option_bind].
    destruct (new_listpack junk (total es) Hjunk) as (lp' & -> & Hr). cbn [mbind option_bind]. exists (SetListpack lp'). split; [done|].
    split; [|by apply empty_listpack_limits]. split; [apply set_Forall_empty|]. exists []. by split_and!; [|constructor|].
Qed.

Lemma shrink_ok o X : set_ok o X →
  ∃ o', match o with SetListpack lp => lp ← lpShrinkToFit junk lp; Some (SetListpack lp) | _ => Some o end = Some o' ∧ set_ok o' X.
Proof using laws Hjunk Hcfg.
  intros Ho. destruct o as [d|iset|lp]; [by eexists|by eexists|].
  destruct Ho as [[Hok (es & (num & slack & -> & Hnum & Hv & Ht & _) & Hn & ->)] Hlim]. rewrite shrink_image by done. cbn [mbind option_bind].
  eexists. split; [done|]. split; [|exact Hlim]. split; [done|]. exists es. split_and!; [|done|done]. exists num, []. split_and!; [done..|constructor].
Qed.

Lemma sinter_store_spec c m dstkey dstset ints R : db_repr c m → set_ok dstset R →
  (ints = true → ∀ s, s ∈ R → is_Some (Util.string2ll s)) →
  ∃ c', sinter_store server junk c dstkey dstset ints = Some (c', ReplyInt (Z.of_nat (size R))) ∧ db_repr c' (put dstkey R m).
Proof using laws Hjunk Hcfg.
  intros Hr Ho Hi. unfold sinter_store. destruct (setTypeSize_spec server dstset R Ho) as (o1 & -> & Ho1 & _). cbn [mbind option_bind].
  case_if.
  - assert (R ≠ ∅) as Hne by (intros ->; rewrite size_empty in *; lia).
    assert (∃ o2, (if ints then maybeConvertToIntset server junk o1 else Some o1) = Some o2 ∧ set_ok o2 R) as (o2 & -> & Ho2).
    { destruct ints; [|by exists o1]. apply maybeConvertToIntset_spec; [done|done|done|by apply Hi]. }
    cbn [mbind option_bind]. destruct (shrink_ok o2 R Ho2) as (o3 & -> & Ho3). cbn [mbind option_bind].
    destruct (setTypeSize_spec server o3 R Ho3) as (o4 & -> & Ho4 & _). cbn [mbind option_bind].
    eexists. split; [done|]. by apply repr_put.
  - assert (R = ∅) as -> by (apply leibniz_equiv, size_empty_inv; lia). rewrite size_empty. eexists. split; [done|]. by apply repr_put_empty.
Qed.

(** What each mode replies and leaves in the data base. *)
Definition sinter_reply (mode : sinter_mode) X (r : reply) : Prop :=
  match mode with
  | SinterReply => ∃ l, r = ReplySet (Z.of_nat (size X)) l ∧ NoDup l ∧ X = list_to_set l
  | SinterCard limit => r = ReplyInt (if limit =? 0 then Z.of_nat (size X) else Z.min limit (Z.of_nat (size X)))
  | SinterStore _ => r = ReplyInt (Z.of_nat (size X))
  end.

Definition sinter_map (mode : sinter_mode) X m : sets :=
  match mode with SinterStore dstkey => put dstkey X m | _ => m end.

(** ** SUNION and SDIFF *)

(** [dstset] and [cardinality], an [int], while they grow and shrink. *)
Definition collected (a : robj * Z) (X : gset (list Z)) : Prop :=
  set_ok a.1 X ∧ a.2 = swrap 32 (Z.of_nat (size X)).

Lemma add_to_spec v c a X : value_ok v → collected a X →
  ∃ a', add_to server junk v (c, a) = Some ((c, a'), true) ∧ collected a' ({[vbytes v]} ∪ X).
Proof using laws Hjunk Hcfg.
  intros Hv [Ho Hc]. destruct a as [o card]. simpl in *. unfold add_to. cbn [fst snd].
  destruct (setTypeAddAux_spec server junk Hjunk o X v Hcfg Ho Hv) as (o' & -> & Ho'). cbn [mbind option_bind].
  eexists. split; [done|]. split; [done|]. simpl. rewrite Hc, swrap_add by done. f_equal.
  case_bool_decide as Hx; simpl.
  - rewrite size_union by set_solver. rewrite size_singleton. lia.
  - replace ({[vbytes v]} ∪ X) with X by set_solver. lia.
Qed.

Lemma remove_from_spec v c a X : value_ok v → collected a X →
  ∃ a', remove_from junk v (c, a) = Some ((c, a'), true) ∧ collected a' (X ∖ {[vbytes v]}).
Proof using laws Hjunk Hcfg.
  intros Hv [Ho Hc]. destruct a as [o card]. simpl in *. unfold remove_from. cbn [fst snd].
  destruct (setTypeRemoveAux_spec server junk Hjunk o X v Ho Hv) as (o' & -> & Ho'). cbn [mbind option_bind].
  eexists. split; [done|]. split; [done|]. simpl. rewrite Hc. unfold Z.sub at 1. rewrite swrap_add by done. f_equal.
  case_bool_decide as Hx; simpl.
  - assert (size X = size (X ∖ {[vbytes v]}) + 1)%nat as ->; [|lia].
    rewrite <-(size_singleton (C := gset (list Z)) (vbytes v)), <-size_union by set_solver. f_equal.
    apply set_eq. intros s. destruct (decide (s = vbytes v)); set_solver.
  - replace (X ∖ {[vbytes v]}) with X by set_solver. lia.
Qed.

Lemma add_all_of k X c m a Y : db_repr c m → m !! k = Some X → collected a Y →
  ∃ c' a', for_each (at_key k) (set_key k) (add_to server junk) (c, a) = Some (c', a') ∧ db_repr c' m ∧ collected a' (X ∪ Y).
Proof using laws Hjunk Hcfg.
  intros Hr Hm Ha. destruct (repr_some server c m k X Hr Hm) as (o & Hk & _).
  destruct (for_each_db k o X c m (add_to server junk) (λ dn a, collected a (list_to_set (vbytes <$> dn) ∪ Y)) (λ _, False) a)
    as (c' & a' & l & E & Hr' & Hn & -> & [Ha'|[]]); [done|done|done| | |by exists c', a'].
  - simpl. by rewrite (left_id_L ∅ (∪)).
  - intros dn v c1 a1 Hv _ _ _ Hr1 Hk1 Ha1. destruct (add_to_spec v c1 a1 _ Hv Ha1) as (a2 & E & Ha2).
    exists c1, a2, true. split_and!; [done|done|done|]. rewrite fmap_app. change (vbytes <$> [v]) with [vbytes v].
    by rewrite list_to_set_snoc, <-(assoc_L (∪)).
Qed.

Lemma remove_all_of k X c m a Y : db_repr c m → m !! k = Some X → collected a Y →
  ∃ c' a', for_each (at_key k) (set_key k) (remove_from junk) (c, a) = Some (c', a') ∧ db_repr c' m ∧ collected a' (Y ∖ X).
Proof using laws Hjunk Hcfg.
  intros Hr Hm Ha. destruct (repr_some server c m k X Hr Hm) as (o & Hk & _).
  destruct (for_each_db k o X c m (remove_from junk) (λ dn a, collected a (Y ∖ list_to_set (vbytes <$> dn))) (λ _, False) a)
    as (c' & a' & l & E & Hr' & Hn & -> & [Ha'|[]]); [done|done|done| | |by exists c', a'].
  - simpl. by replace (Y ∖ ∅) with Y by set_solver.
  - intros dn v c1 a1 Hv _ _ _ Hr1 Hk1 Ha1. destruct (remove_from_spec v c1 a1 _ Hv Ha1) as (a2 & E & Ha2).
    exists c1, a2, true. split_and!; [done|done|done|]. rewrite fmap_app. change (vbytes <$> [v]) with [vbytes v].
    rewrite list_to_set_snoc. by replace (Y ∖ ({[vbytes v]} ∪ list_to_set (vbytes <$> dn))) with (Y ∖ list_to_set (vbytes <$> dn) ∖ {[vbytes v]}) by set_solver.
Qed.

Definition exists_in (m : sets) (ko : option key) : Prop := match ko with Some k => is_Some (m !! k) | None => True end.

Lemma get_opt_some m k X : m !! k = Some X → get_opt m (Some k) = X.
Proof. simpl. unfold get. by intros ->. Qed.

Lemma union_loop_spec ks c m a Y : db_repr c m → Forall (exists_in m) ks → collected a Y →
  ∃ c' a', union_loop server junk ks (c, a) = Some (c', a') ∧ db_repr c' m ∧ collected a' (union_keys m ks ∪ Y).
Proof using laws Hjunk Hcfg.
  intros Hr Hf. revert c a Y Hr. induction Hf as [|ko ks Hko _ IH]; intros c a Y Hr Ha; cbn [union_loop].
  { exists c, a. split_and!; [done|done|]. unfold union_keys. simpl. by rewrite (left_id_L ∅ (∪)). }
  unfold union_keys. rewrite fmap_cons, union_list_cons. fold (union_keys m ks). destruct ko as [k|].
  - destruct Hko as [X Hm]. destruct (add_all_of k X c m a Y Hr Hm Ha) as (c1 & a1 & -> & Hr1 & Ha1). cbn [mbind option_bind].
    destruct (IH c1 a1 _ Hr1 Ha1) as (c2 & a2 & -> & Hr2 & Ha2). exists c2, a2. split_and!; [done|done|].
    rewrite (get_opt_some m k X Hm). by replace (X ∪ union_keys m ks ∪ Y) with (union_keys m ks ∪ (X ∪ Y)) by set_solver.
  - simpl get_opt. rewrite (left_id_L ∅ (∪)). by apply IH.
Qed.

Lemma collected_zero a X : collected a X → Z.of_nat (size X) < 2 ^ 31 → a.2 = 0 → X = ∅.
Proof.
  intros [_ Hc] Hs H0. rewrite Hc, swrap_id in H0 by (simpl; lia). apply leibniz_equiv, size_empty_inv. lia.
Qed.

Lemma diff_loop_spec ks c m a Y : db_repr c m → Forall (exists_in m) ks → collected a Y → Z.of_nat (size Y) < 2 ^ 31 →
  ∃ c' a', diff_loop junk ks (c, a) = Some (c', a') ∧ db_repr c' m ∧ collected a' (Y ∖ union_keys m ks).
Proof using laws Hjunk Hcfg.
  intros Hr Hf. revert c a Y Hr. induction Hf as [|ko ks Hko _ IH]; intros c a Y Hr Ha Hs; cbn [diff_loop].
  { exists c, a. split_and!; [done|done|]. unfold union_keys. simpl. by replace (Y ∖ ∅) with Y by set_solver. }
  unfold union_keys. rewrite fmap_cons, union_list_cons. fold (union_keys m ks). destruct ko as [k|].
  - destruct Hko as [X Hm]. destruct (remove_all_of k X c m a Y Hr Hm Ha) as (c1 & a1 & -> & Hr1 & Ha1). cbn [mbind option_bind].
    assert (Z.of_nat (size (Y ∖ X)) < 2 ^ 31) as Hs1.
    { assert (size (Y ∖ X) ≤ size Y)%nat; [apply subseteq_size; set_solver|lia]. }
    rewrite (get_opt_some m k X Hm). cbn [fst snd]. destruct (a1.2 =? 0) eqn:E0; zb.
    + exists c1, a1. split_and!; [done|done|]. pose proof (collected_zero _ _ Ha1 Hs1 E0) as Ee. rewrite Ee in Ha1.
      by replace (Y ∖ (X ∪ union_keys m ks)) with (∅ : gset (list Z)) by set_solver.
    + destruct (IH c1 a1 _ Hr1 Ha1 Hs1) as (c2 & a2 & -> & Hr2 & Ha2). exists c2, a2. split_and!; [done|done|].
      by replace (Y ∖ (X ∪ union_keys m ks)) with (Y ∖ X ∖ union_keys m ks) by set_solver.
  - simpl get_opt. rewrite (left_id_L ∅ (∪)). by apply IH.
Qed.

Definition spared (m : sets) (ks : list (option key)) (s : list Z) : Prop := Forall (λ ko, s ∉ get_opt m ko) ks.
#[local] Instance spared_dec m ks s : Decision (spared m ks s).
Proof. unfold spared. apply _. Defined.

Lemma elem_union_keys m ks s : s ∈ union_keys m ks ↔ ∃ ko, ko ∈ ks ∧ s ∈ get_opt m ko.
Proof.
  unfold union_keys. rewrite elem_of_union_list. split.
  - intros (X & (ko & -> & Hin)%list_elem_of_fmap & Hs). by exists ko.
  - intros (ko & Hin & Hs). exists (get_opt m ko). split; [|done]. apply list_elem_of_fmap. by exists ko.
Qed.

Lemma diff_spared m ko ks : diff_keys m (ko :: ks) = filter (spared m ks) (get_opt m ko).
Proof.
  apply set_eq. intros s. simpl. unfold spared. rewrite elem_of_filter, elem_of_difference, elem_union_keys, list.Forall_forall. split.
  - intros [Hin Hf]. split; [|done]. intros k' Hk Hs. apply Hf. by exists k'.
  - intros [Hf Hin]. split; [done|]. intros (k' & Hk & Hs). by apply (Hf k' Hk).
Qed.

Lemma diff_keys_union m ko ks : diff_keys m (ko :: ks) = get_opt m ko ∖ union_keys m ks.
Proof. done. Qed.

(** Algorithm 1: the elements of the first set that are in none of the others. *)
Lemma diff_one_spec first ks X c m a : db_repr c m → m !! first = Some X → Forall (exists_in m) ks → collected a ∅ →
  ∃ c' a', for_each (at_key first) (set_key first) (diff_body server junk first ks) (c, a) = Some (c', a') ∧ db_repr c' m ∧
    collected a' (diff_keys m (Some first :: ks)).
Proof using laws Hjunk Hcfg.
  intros Hr Hm Hf Ha. destruct (repr_some server c m first X Hr Hm) as (o & Hk & _).
  assert (get m first = X) as EX by (unfold get; by rewrite Hm).
  set (out := spared m ks).
  destruct (for_each_db first o X c m (diff_body server junk first ks)
    (λ dn a, collected a (filter out (list_to_set (vbytes <$> dn)))) (λ _, False) a)
    as (c' & a' & l & E & Hr' & Hn & El & [Ha'|[]]); [done|done|done| | |].
  - simpl. replace (filter out (∅ : gset (list Z))) with (∅ : gset (list Z)) by set_solver. done.
  - intros dn v c1 a1 Hv _ _ Hin Hr1 Hk1 Ha1. rewrite <-EX in Hin. unfold diff_body. cbn [fst snd].
    destruct (in_none_spec ks first v c1 m o Hr1 Hk1 Hf Hv Hin) as (c2 & -> & Hr2 & Hk2). cbn [mbind option_bind].
    rewrite (bool_decide_ext _ (out (vbytes v))) by done. rewrite fmap_app. change (vbytes <$> [v]) with [vbytes v]. rewrite list_to_set_snoc.
    destruct (decide (out (vbytes v))) as [Hw|Hw].
    + rewrite bool_decide_true by done. destruct (add_to_spec v c2 a1 _ Hv Ha1) as (a2 & -> & Ha2).
      exists c2, a2, true. split_and!; [done|done|done|]. 
      replace (filter out ({[vbytes v]} ∪ list_to_set (vbytes <$> dn))) with ({[vbytes v]} ∪ filter out (list_to_set (vbytes <$> dn) : gset (list Z))); [done|].
      apply set_eq. intros s. rewrite elem_of_filter, !elem_of_union, elem_of_filter, elem_of_singleton. naive_solver.
    + rewrite bool_decide_false by done. exists c2, a1, true. split_and!; [done|done|done|].
      
      replace (filter out ({[vbytes v]} ∪ list_to_set (vbytes <$> dn))) with (filter out (list_to_set (vbytes <$> dn) : gset (list Z))); [done|].
      apply set_eq. intros s. rewrite !elem_of_filter, elem_of_union, elem_of_singleton. naive_solver.
  - exists c', a'. split_and!; [done|done|]. rewrite <-El in Ha'.
    rewrite diff_spared. simpl. by rewrite EX.
Qed.

Lemma diff_work_spec first ks c m one two : db_repr c m → is_Some (m !! first) → Forall (exists_in m) ks →
  ∃ c' one' two', diff_work c first ks one two = Some (c', one', two') ∧ db_repr c' m.
Proof using laws Hjunk Hcfg.
  intros Hr Hfirst Hf. revert c one two Hr. induction Hf as [|ko ks Hko _ IH]; intros c one two Hr; cbn [diff_work].
  { by exists c, one, two. }
  destruct ko as [k|]; [|by apply IH].
  destruct (size_at_spec c m (Some first) Hr Hfirst) as (c1 & -> & Hr1). cbn [mbind option_bind].
  destruct (size_at_spec c1 m (Some k) Hr1 Hko) as (c2 & -> & Hr2). cbn [mbind option_bind]. by apply IH.
Qed.

(** [qsort] permutes. *)
Context (qsort : ∀ A, (A → A → Z) → list A → list A) (Hqsort : ∀ A cmp l, qsort A cmp l ≡ₚ l).

Lemma repr_iff c m k : db_repr c m → c !! k = None ↔ m !! k = None.
Proof. intros Hr. specialize (Hr k). inversion Hr; by rewrite <-?H0, <-?H1 || done. Qed.

Lemma sinter_spec c m setkeys mode : db_repr c m → setkeys ≠ [] → Z.of_nat (size (inter m setkeys)) < 2 ^ 31 →
  (if mode is SinterCard limit then 0 <= limit else True) →
  ∃ c' r, sinterGenericCommand server junk qsort c setkeys mode = Some (c', r) ∧
    sinter_reply mode (inter m setkeys) r ∧ db_repr c' (sinter_map mode (inter m setkeys) m).
Proof using laws Hjunk Hcfg Hqsort.
  intros Hr Hne Hsz Hlim. unfold sinterGenericCommand.
  destruct (existsb (λ k, bool_decide (c !! k = None)) setkeys) eqn:Eb.
  - apply existsb_exists in Eb as (k & Hk%list_elem_of_In & Hkn%bool_decide_eq_true).
    destruct (repr_none server c m k Hr Hkn) as [_ Hget].
    assert (inter m setkeys = ∅) as ->.
    { apply set_eq. intros s. rewrite elem_inter by done. split; [|set_solver]. intros Hs. rewrite list.Forall_forall in Hs.
      specialize (Hs k Hk). by rewrite Hget in Hs. }
    destruct mode as [|limit|dstkey]; eexists _, _; (split; [done|]); cbn [sinter_reply sinter_map]; rewrite ?size_empty.
    + split; [|done]. exists []. split_and!; [done|constructor|done].
    + split; [|done]. f_equal. case_if; lia.
    + split; [done|]. by apply repr_put_empty.
  - assert (Forall (λ k, is_Some (m !! k)) setkeys) as Hall.
    { apply list.Forall_forall. intros k Hk. apply not_eq_None_Some. rewrite <-(repr_iff c m k Hr). intros E.
      apply not_true_iff_false in Eb. apply Eb, existsb_exists. exists k. split; [by apply list_elem_of_In|by apply bool_decide_eq_true]. }
    destruct (sizes_at_spec Some setkeys c m Hr) as (c1 & sized & -> & Es & Hr1); [done|]. cbn [mbind option_bind].
    assert ((qsort _ qsortCompareSetsByCardinality sized).*1 ≡ₚ setkeys) as Hp by (rewrite Hqsort; by rewrite Es).
    rewrite <-(inter_perm m _ _ Hp) in *. destruct ((qsort _ qsortCompareSetsByCardinality sized).*1) as [|first others].
    { by apply Permutation_nil in Hp. }
    rewrite <-Hp in Hall. apply list.Forall_cons in Hall as [Hfirst Hothers].
    destruct Hfirst as [X Hm]. destruct (repr_some server c1 m first X Hr1 Hm) as (o & Hk & Ho). rewrite Hk. cbn [mbind option_bind].
    assert (is_Some (m !! first)) as Hfirst by by eexists. destruct mode as [|limit|dstkey]; cbn [mbind option_bind].
    + destruct (sinter_reply_loop m first others c1 o _ Hr1 Hk Hfirst Hothers Hsz eq_refl) as (c2 & a & -> & Hr2 & Hc & Hn & Ei).
      cbn [mbind option_bind]. eexists _, _. split; [done|]. split; [|done]. exists (acc_out a). by rewrite Hc.
    + destruct (sinter_card_loop m first others c1 o limit Hr1 Hk Hfirst Hothers Hsz Hlim) as (c2 & a & -> & Hr2 & Hc).
      cbn [mbind option_bind]. eexists _, _. split; [done|]. split; [|done]. simpl. by rewrite Hc.
    + destruct (dstset_ok o X Ho) as (dst & -> & Hdst). cbn [mbind option_bind].
      destruct (sinter_store_loop m first others c1 o dst dstkey Hr1 Hk Hfirst Hothers Hdst) as (c2 & a & dstset & -> & Hr2 & Hd & Hs & Hi).
      cbn [mbind option_bind]. rewrite Hd. cbn [mbind option_bind].
      destruct (sinter_store_spec c2 m dstkey dstset (acc_ints a) _ Hr2 Hs Hi) as (c3 & -> & Hr3). by eexists _, _.
Qed.

(** Both algorithms of SDIFF. *)
Lemma sdiff_spec first others X c m a : db_repr c m → m !! first = Some X → Forall (exists_in m) others → collected a ∅ →
  Z.of_nat (size X) < 2 ^ 31 →
  ∃ c' a', sdiff server junk qsort c first others a = Some (c', a') ∧ db_repr c' m ∧ collected a' (diff_keys m (Some first :: others)).
Proof using laws Hjunk Hcfg Hqsort.
  intros Hr Hm Hf Ha Hs. unfold sdiff. assert (is_Some (m !! first)) as Hfirst by by eexists.
  destruct (diff_work_spec first (Some first :: others) c m 0 0 Hr Hfirst) as (c1 & one & two & -> & Hr1); [by constructor|].
  cbn [mbind option_bind]. case_if.
  - assert (∃ c2 ks, match others with [] => Some (c1, others)
       | _ => '(c_db, sized) ← sizes_at (λ k, k) c1 others; Some (c_db, (qsort _ qsortCompareSetsByRevCardinality sized).*1) end = Some (c2, ks) ∧
       db_repr c2 m ∧ ks ≡ₚ others) as (c2 & ks & -> & Hr2 & Hp).
    { destruct others as [|ko others]; [by exists c1, []|].
      destruct (sizes_at_spec (λ k, k) (ko :: others) c1 m Hr1) as (c2 & sized & -> & Es & Hr2); [done|]. cbn [mbind option_bind].
      eexists c2, _. split_and!; [done|done|]. rewrite Hqsort. by rewrite Es. }
    cbn [mbind option_bind]. destruct (diff_one_spec first ks X c2 m a Hr2 Hm) as (c3 & a3 & -> & Hr3 & Ha3); [by rewrite Hp|done|].
    exists c3, a3. split_and!; [done|done|]. rewrite diff_keys_union in *. replace (union_keys m others) with (union_keys m ks); [done|].
    unfold union_keys. apply leibniz_equiv. by rewrite Hp.
  - destruct (add_all_of first X c1 m a ∅ Hr1 Hm Ha) as (c2 & a2 & -> & Hr2 & Ha2). cbn [mbind option_bind fst snd].
    rewrite (right_id_L ∅ (∪)) in Ha2. rewrite diff_keys_union, (get_opt_some m first X Hm). destruct (a2.2 =? 0) eqn:E0; zb.
    + exists c2, a2. split_and!; [done|done|]. pose proof (collected_zero _ _ Ha2 Hs E0) as ->.
      by replace (∅ ∖ union_keys m others) with (∅ : gset (list Z)) by set_solver.
    + by apply diff_loop_spec.
Qed.

Definition op_keys (op : set_op) (m : sets) (ks : list key) : gset (list Z) :=
  match op with SET_OP_UNION => union_keys m (Some <$> ks) | SET_OP_DIFF => diff_keys m (Some <$> ks) end.

(** The keys of the command and the values found for them. *)
Lemma resolved c m ks : db_repr c m →
  let found := (λ k, if decide (is_Some (c !! k)) then Some k else None) <$> ks in
  Forall (exists_in m) found ∧ get_opt m <$> found = get_opt m <$> (Some <$> ks).
Proof.
  intros Hr found. assert (∀ k, is_Some (c !! k) ↔ is_Some (m !! k)) as Hk.
  { intros k. rewrite <-!not_eq_None_Some. by rewrite (repr_iff c m k Hr). }
  unfold found. split.
  - apply Forall_fmap, list.Forall_forall. intros k _. simpl. destruct (decide (is_Some (c !! k))); [by apply Hk|done].
  - rewrite <-!list_fmap_compose. apply list_fmap_ext. intros i k _. simpl.
    destruct (decide (is_Some (c !! k))) as [?|Hn]; [done|]. simpl. rewrite Hk, <-eq_None_not_Some in Hn. unfold get. by rewrite Hn.
Qed.

Lemma union_keys_ext m ks ks' : get_opt m <$> ks = get_opt m <$> ks' → union_keys m ks = union_keys m ks'.
Proof. unfold union_keys. by intros ->. Qed.

(** SUNION, SDIFF and the variants that store. *)
Lemma sunion_diff_spec c m setkeys dstkey op : db_repr c m → setkeys ≠ [] →
  (∀ k, k ∈ setkeys → Z.of_nat (size (get m k)) < 2 ^ 31) → Z.of_nat (size (op_keys op m setkeys)) < 2 ^ 31 →
  ∃ c' r, sunionDiffGenericCommand server junk qsort c setkeys dstkey op = Some (c', r) ∧
    sinter_reply (match dstkey with Some k => SinterStore k | None => SinterReply end) (op_keys op m setkeys) r ∧
    db_repr c' (match dstkey with Some k => put k (op_keys op m setkeys) m | None => m end).
Proof using laws Hjunk Hcfg Hqsort.
  intros Hr Hne Hsizes Hsize. unfold sunionDiffGenericCommand. destruct (resolved c m setkeys Hr) as [Hex Hget].
  set (found := (λ k, if decide (is_Some (c !! k)) then Some k else None) <$> setkeys) in *.
  set (dst := if bool_decide (dstkey = None) && _ then _ else _). cbv zeta.
  assert (collected (dst, 0) ∅) as Hdst.
  { split; [|done]. simpl. unfold dst. case_if; [by apply empty_ht_ok|by apply (empty_intset_ok server junk Hjunk)]. }
  assert (∃ c1 a1, match op, found with
      | SET_OP_UNION, _ => union_loop server junk found (c, (dst, 0))
      | SET_OP_DIFF, Some first :: others =>
          if decide (Some first ∈ others) then Some (c, (dst, 0)) else sdiff server junk qsort c first others (dst, 0)
      | SET_OP_DIFF, _ => Some (c, (dst, 0))
      end = Some (c1, a1) ∧ db_repr c1 m ∧ collected a1 (op_keys op m setkeys)) as (c1 & [dstset card] & -> & Hr1 & Ho & Hcard).
  { destruct op; simpl op_keys.
    - destruct (union_loop_spec found c m (dst, 0) ∅ Hr Hex Hdst) as (c1 & a1 & E & Hr1 & Ha1). exists c1, a1.
      rewrite (right_id_L ∅ (∪)) in Ha1. by rewrite <-(union_keys_ext m _ _ Hget).
    - destruct setkeys as [|k ks]; [done|]. destruct found as [|ko others] eqn:Ef; [done|]. rewrite !fmap_cons in Hget. injection Hget as E1 E2.
      change (get m k) with (get_opt m (Some k)) in E1.
      rewrite fmap_cons, diff_keys_union, <-(union_keys_ext m _ _ E2), <-E1. destruct ko as [first|].
      2:{ exists c, (dst, 0). split_and!; [done|done|]. by replace (get_opt m None ∖ union_keys m others) with (∅ : gset (list Z)) by (simpl; set_solver). }
      case_decide as Hin.
      + exists c, (dst, 0). split_and!; [done|done|].
        replace (get_opt m (Some first) ∖ union_keys m others) with (∅ : gset (list Z)); [done|]. apply set_eq. intros s.
        rewrite elem_of_difference, elem_union_keys. split; [set_solver|]. intros [Hs Hn]. exfalso. apply Hn. by exists (Some first).
      + apply list.Forall_cons in Hex as [[X Hm] Hex]. rewrite <-diff_keys_union. eapply sdiff_spec; [done|done|done|done|].
        rewrite <-(get_opt_some m first X Hm), E1. apply Hsizes. by left. }
  cbn [mbind option_bind]. simpl in Ho, Hcard. rewrite swrap_id in Hcard by (simpl; lia). destruct dstkey as [dstkey|].
  - destruct (setTypeSize_spec server dstset _ Ho) as (o1 & -> & Ho1 & _). cbn [mbind option_bind]. case_if.
    + destruct (setTypeSize_spec server o1 _ Ho1) as (o2 & -> & Ho2 & _). cbn [mbind option_bind]. eexists _, _. split; [done|]. split; [done|].
      apply repr_put; [done|done|]. intros E. rewrite E, size_empty in *. lia.
    + assert (op_keys op m setkeys = ∅) as -> by (apply leibniz_equiv, size_empty_inv; lia). eexists _, _. split; [done|].
      split; [cbn [sinter_reply]; by rewrite size_empty|]. by apply repr_put_empty.
  - destruct (send_elements_spec server junk Hjunk Hcfg dstset _ (proj1 Ho)) as (l & -> & Hn & El). cbn [mbind option_bind].
    eexists _, _. split; [done|]. split; [|done]. exists l. by rewrite Hcard.
Qed.
End Proofs.
End SetAlgebra.
