(* ===== verification/SetHistory.v ===== *)
(** * Sets: histories of commands

    Any sequence of set commands on an empty data base is answered as a finite map
    from keys to finite sets would answer it, and leaves objects that are well
    formed and encoded within the configured thresholds. *)

From stdpp Require Import sorting gmap strings.
From S2P Require Import Prelude Intset Util Listpack ListpackRepr ListpackElem ListpackEdit Dict DictProofs DictMap DictIter DictSet ListpackValues SetType SetTypeRepr SetTypeProofs SetCommands SetCommandsProofs SetAlgebra.

Module SetHistory.
Import Listpack ListpackRepr ListpackElem ListpackEdit Dict DictSet SetType SetTypeRepr SetTypeProofs SetCommands SetCommandsProofs SetAlgebra.

(** SINTER, SINTERCARD and SINTERSTORE differ by their mode; SUNION, SDIFF and
    their storing variants by the operation and the destination. *)
Inductive set_cmd :=
  | SADD (k : key) (argv : list (list Z))
  | SREM (k : key) (argv : list (list Z))
  | SMOVE (src dst : key) (ele : list Z)
  | SISMEMBER (k : key) (ele : list Z)
  | SMISMEMBER (k : key) (argv : list (list Z))
  | SCARD (k : key)
  | SMEMBERS (k : key)
  | SINTER (keys : list key) (mode : sinter_mode)
  | SUNIONDIFF (keys : list key) (dstkey : option key) (op : set_op).

(** Strings have at most 2^31 - 1 bytes; commands have the arguments their arity
    asks for; SINTERCARD rejects a negative limit. *)
Definition cmd_ok (cmd : set_cmd) : Prop :=
  match cmd with
  | SADD _ argv => argv ≠ [] ∧ Forall str_ok argv
  | SREM _ argv | SMISMEMBER _ argv => Forall str_ok argv
  | SMOVE _ _ ele | SISMEMBER _ ele => str_ok ele
  | SCARD _ | SMEMBERS _ => True
  | SINTER keys mode => keys ≠ [] ∧ (if mode is SinterCard limit then 0 <= limit else True)
  | SUNIONDIFF keys _ _ => keys ≠ []
  end.

#[global] Instance cmd_ok_dec cmd : Decision (cmd_ok cmd).
Proof. destruct cmd as [| | | | | | |keys []|]; unfold cmd_ok, str_ok, wf_bytes, is_byte; apply _. Defined.

(** ** The specification *)

Definition store_at (dstkey : option key) : sinter_mode :=
  match dstkey with Some k => SinterStore k | None => SinterReply end.

Definition set_step (m : sets) (cmd : set_cmd) : sets :=
  match cmd with
  | SADD k argv => put k (list_to_set argv ∪ get m k) m
  | SREM k argv => put k (get m k ∖ list_to_set argv) m
  | SMOVE src dst ele => (smove_spec m src dst ele).1
  | SINTER keys mode => sinter_map mode (inter m keys) m
  | SUNIONDIFF keys dstkey op => sinter_map (store_at dstkey) (op_keys op m keys) m
  | _ => m
  end.

(** Elements come in any order, each once. *)
Definition set_answer (m : sets) (cmd : set_cmd) (r : reply) : Prop :=
  match cmd with
  | SADD k argv => r = ReplyInt (Z.of_nat (size (list_to_set argv ∖ get m k : gset (list Z))))
  | SREM k argv => r = ReplyInt (Z.of_nat (size (get m k ∩ list_to_set argv : gset (list Z))))
  | SMOVE src dst ele => r = ReplyInt (smove_spec m src dst ele).2
  | SISMEMBER k ele => r = ReplyInt (Z.b2z (bool_decide (ele ∈ get m k)))
  | SMISMEMBER k argv => r = ReplyInts ((λ s, Z.b2z (bool_decide (s ∈ get m k))) <$> argv)
  | SCARD k => r = ReplyInt (Z.of_nat (size (get m k)))
  | SMEMBERS k => sinter_reply SinterReply (get m k) r
  | SINTER keys mode => sinter_reply mode (inter m keys) r
  | SUNIONDIFF keys dstkey op => sinter_reply (store_at dstkey) (op_keys op m keys) r
  end.

Fixpoint set_answers (m : sets) (cmds : list set_cmd) (rs : list reply) : Prop :=
  match cmds, rs with
  | [], [] => True
  | cmd :: cmds, r :: rs => set_answer m cmd r ∧ set_answers (set_step m cmd) cmds rs
  | _, _ => False
  end.

(** What a history can bring into the data base. *)
Definition added (cmd : set_cmd) : list (list Z) := match cmd with SADD _ argv => argv | _ => [] end.

(** ** Sets within a universe *)

Definition within (U : gset (list Z)) (m : sets) : Prop := ∀ k : key, get m k ⊆ U.

Lemma within_weaken (U V : gset (list Z)) (m : sets) : within U m → U ⊆ V → within V m.
Proof. intros Hm HU k. specialize (Hm k). set_solver. Qed.

Lemma within_put (U : gset (list Z)) (m : sets) (k : key) (X : gset (list Z)) : within U m → X ⊆ U → within U (put k X m).
Proof. intros Hm HX k'. rewrite get_put. by case_decide. Qed.

Lemma inter_within (U : gset (list Z)) (m : sets) (ks : list key) : within U m → inter m ks ⊆ U.
Proof.
  intros Hm. destruct ks as [|k ks]; simpl; [set_solver|].
  induction ks as [|k' ks IH]; simpl; [apply Hm|]. set_solver.
Qed.

Lemma op_within (U : gset (list Z)) (op : set_op) (m : sets) (ks : list key) : within U m → op_keys op m ks ⊆ U.
Proof.
  intros Hm. assert (∀ ks, union_keys m (Some <$> ks) ⊆ U) as Hu.
  { intros ks' s (ko & (k & -> & _)%list_elem_of_fmap & Hs)%elem_union_keys. by apply (Hm k). }
  destruct op; [apply Hu|]. destruct ks as [|k ks]; simpl; [set_solver|]. specialize (Hm k). set_solver.
Qed.

Lemma step_within (U : gset (list Z)) (m : sets) (cmd : set_cmd) : within U m → within (list_to_set (added cmd) ∪ U) (set_step m cmd).
Proof.
  intros Hm. assert (within (list_to_set (added cmd) ∪ U) m) as Hm' by (eapply within_weaken; [done|set_solver]).
  destruct cmd as [k argv|k argv|src dst ele| | | | |keys mode|keys dstkey op]; cbn [set_step added]; [..|done|done|done|done| |].
  - apply within_put; [done|]. specialize (Hm k). set_solver.
  - apply within_put; [done|]. specialize (Hm k). set_solver.
  - unfold smove_spec. destruct (decide (ele ∈ get m src)) as [Hin|]; [|done]. destruct (decide (src = dst)); [done|]. cbv zeta. cbn [fst].
    pose proof (Hm src) as Hs. assert (within (list_to_set [] ∪ U) (put src (get m src ∖ {[ele]}) m)) as H1.
    { apply within_put; [done|]. set_solver. }
    apply within_put; [done|]. specialize (H1 dst). set_solver.
  - destruct mode as [| |dst]; [done|done|]. apply within_put; [done|]. pose proof (inter_within U m keys Hm). set_solver.
  - destruct dstkey as [dst|]; [|done]. apply within_put; [done|]. pose proof (op_within U op m keys Hm). set_solver.
Qed.

Lemma size_le (X U : gset (list Z)) : X ⊆ U → Z.of_nat (size U) < 2 ^ 31 → Z.of_nat (size X) < 2 ^ 31.
Proof. intros Hs. apply subseteq_size in Hs. lia. Qed.

Lemma size_list_le (l : list (list Z)) : (size (list_to_set l : gset (list Z)) ≤ length l)%nat.
Proof.
  induction l as [|x l IH]; [done|]. cbn [list_to_set length].
  pose proof (size_union_alt (C := gset (list Z)) {[x]} (list_to_set l)) as E. rewrite size_singleton in E. rewrite E.
  assert (size ((list_to_set l : gset (list Z)) ∖ {[x]}) ≤ size (list_to_set l : gset (list Z)))%nat; [|lia].
  apply subseteq_size. set_solver.
Qed.

(** ** Histories *)

Section History.
Context (server : redisServer) (junk : Z) (Hjunk : is_byte junk) (Hcfg : config_ok server).
Context {D P I : Type} {api : SetApi D P I} {laws : SetLaws api}.
Context (qsort : ∀ A, (A → A → Z) → list A → list A).
Abbreviation robj := (robj D).
Abbreviation db := (gmap key robj).
Abbreviation db_repr := (db_repr server).

Definition set_exec (c : db) (cmd : set_cmd) : option (db * reply) :=
  match cmd with
  | SADD k argv => saddCommand server junk c k argv
  | SREM k argv => sremCommand junk c k argv
  | SMOVE src dst ele => smoveCommand server junk c src dst ele
  | SISMEMBER k ele => sismemberCommand junk c k ele
  | SMISMEMBER k argv => smismemberCommand junk c k argv
  | SCARD k => scardCommand c k
  | SMEMBERS k => smembersCommand junk c k
  | SINTER keys mode => sinterGenericCommand server junk qsort c keys mode
  | SUNIONDIFF keys dstkey op => sunionDiffGenericCommand server junk qsort c keys dstkey op
  end.

Fixpoint set_run (c : db) (cmds : list set_cmd) : option (db * list reply) :=
  match cmds with
  | [] => Some (c, [])
  | cmd :: cmds =>
      '(c, r) ← set_exec c cmd;
      '(c, rs) ← set_run c cmds;
      Some (c, r :: rs)
  end.

Context (Hqsort : ∀ A cmp l, qsort A cmp l ≡ₚ l).

Lemma set_exec_refines (U : gset (list Z)) (c : db) (m : sets) (cmd : set_cmd) : db_repr c m → within U m → Z.of_nat (size U) < 2 ^ 31 → cmd_ok cmd →
  ∃ c' r, set_exec c cmd = Some (c', r) ∧ set_answer m cmd r ∧ db_repr c' (set_step m cmd).
Proof using laws Hjunk Hcfg Hqsort.
  intros Hr Hm HU Hok.
  destruct cmd as [k argv|k argv|src dst ele|k ele|k argv|k|k|keys mode|keys dstkey op]; cbn [set_exec set_answer set_step cmd_ok] in *.
  - destruct Hok. destruct (sadd_spec server junk Hjunk Hcfg c m k argv) as (c' & -> & ?); [done..|]. by eexists _, _.
  - destruct (srem_spec server junk Hjunk Hcfg c m k argv) as (c' & -> & ?); [done..|]. by eexists _, _.
  - destruct (smove_correct server junk Hjunk Hcfg c m src dst ele) as (c' & -> & ?); [done..|]. by eexists _, _.
  - destruct (sismember_spec server junk Hjunk Hcfg c m k ele) as (c' & -> & ?); [done..|]. by eexists _, _.
  - destruct (smismember_spec server junk Hjunk Hcfg c m k argv) as (c' & -> & ?); [done..|]. by eexists _, _.
  - destruct (scard_spec server junk Hjunk Hcfg c m k) as (c' & -> & ?); [done..|]. by eexists _, _.
  - destruct (smembers_spec server junk Hjunk Hcfg c m k) as (c' & l & -> & ? & ? & ?); [done..|]. eexists _, _.
    split; [done|]. split; [by exists l|done].
  - destruct Hok. apply (sinter_spec server junk Hjunk Hcfg qsort Hqsort c m keys mode); [done..|by eapply size_le, HU; apply inter_within|done].
  - destruct (sunion_diff_spec server junk Hjunk Hcfg qsort Hqsort c m keys dstkey op) as (c' & r & E & Hrep & Hr'); [done..| | |].
    + intros k _. by eapply size_le, HU.
    + by eapply size_le, HU; apply op_within.
    + exists c', r. split_and!; [done|by destruct dstkey|by destruct dstkey].
Qed.

Lemma set_run_refines (cmds : list set_cmd) (U : gset (list Z)) (c : db) (m : sets) : db_repr c m → within U m → Forall cmd_ok cmds →
  Z.of_nat (size (list_to_set (concat (added <$> cmds)) ∪ U)) < 2 ^ 31 →
  ∃ c' rs, set_run c cmds = Some (c', rs) ∧ set_answers m cmds rs ∧ db_repr c' (foldl set_step m cmds).
Proof using laws Hjunk Hcfg Hqsort.
  intros Hr Hm Hf. revert U c m Hr Hm. induction Hf as [|cmd cmds Hok _ IH]; intros U c m Hr Hm HU; [by exists c, []|].
  cbn [set_run foldl]. rewrite fmap_cons in HU. cbn [concat] in HU. rewrite list_to_set_app_L in HU.
  destruct (set_exec_refines U c m cmd Hr Hm) as (c1 & r & -> & Ha & Hr1); [by eapply size_le, HU; set_solver|done|].
  cbn [mbind option_bind]. destruct (IH (list_to_set (added cmd) ∪ U) c1 (set_step m cmd)) as (c2 & rs & -> & Has & Hr2).
  - done.
  - by apply step_within.
  - eapply size_le, HU. set_solver.
  - exists c2, (r :: rs). by split_and!.
Qed.

Lemma run_from_empty cmds : Forall cmd_ok cmds → zlen (concat (added <$> cmds)) < 2 ^ 31 →
  ∃ c' rs, set_run ∅ cmds = Some (c', rs) ∧ set_answers ∅ cmds rs ∧ db_repr c' (foldl set_step ∅ cmds).
Proof using laws Hjunk Hcfg Hqsort.
  intros Hf Hl. apply (set_run_refines cmds ∅); [intros k; rewrite !lookup_empty; constructor|intros k; unfold get; by rewrite lookup_empty|done|].
  rewrite (right_id_L ∅ (∪)). pose proof (size_list_le (concat (added <$> cmds))). unfold zlen in Hl. lia.
Qed.

(** (C4) Whole histories of set commands: from an empty data base, any sequence of
    SADD, SREM, SMOVE, SISMEMBER, SMISMEMBER, SCARD, SMEMBERS, SINTER, SINTERCARD,
    SINTERSTORE, SUNION, SUNIONSTORE, SDIFF and SDIFFSTORE, with repeated or missing
    keys, runs without an invalid access or a failed assertion through every change
    of encoding, whatever order [qsort] gives to sets of the same size, and is
    answered as by a finite map from keys to finite sets of byte strings.  Members are
    shorter than 2^31 bytes, fewer than 2^31 are added in all, and the configuration
    keeps intsets below 2^29 entries. *)
Theorem sets_refine_map cmds : Forall cmd_ok cmds → zlen (concat (added <$> cmds)) < 2 ^ 31 →
  ∃ c' rs, set_run ∅ cmds = Some (c', rs) ∧ set_answers ∅ cmds rs ∧ db_repr c' (foldl set_step ∅ cmds).
Proof using laws Hjunk Hcfg Hqsort. apply run_from_empty. Qed.

(** A value that may stand in the data base: well formed, not empty, and within the
    thresholds of its encoding. *)
Definition well_encoded (o : robj) : Prop :=
  match o with
  | SetHT d => sd_valid d ∧ sd_keys d ≠ ∅
  | SetIntset iset => ∃ ns, Intset.repr iset ns ∧ 0 < zlen ns <= set_max_intset_entries server
  | SetListpack lp => ∃ es, repr lp es ∧ NoDup (strs es) ∧ 0 < zlen es <= set_max_listpack_entries server ∧
      Forall (λ s, zlen s <= set_max_listpack_value server) (strs es)
  end.

Lemma nonempty_zlen {A} (l : list A) : l ≠ [] → 0 < zlen l.
Proof. destruct l; [done|]. intros _. rewrite zlen_cons. pose proof (zlen_nonneg l). lia. Qed.

Lemma set_ok_well_encoded (o : robj) (X : gset (list Z)) : set_ok server o X → X ≠ ∅ → well_encoded o.
Proof using Hcfg.
  intros [[Hok Ho] Hlim] Hne. destruct o as [d|iset|lp]; simpl in *.
  - destruct Ho as [? ->]. done.
  - destruct Ho as (ns & Hr & ->). exists ns. split; [done|]. rewrite (intset_len_eq _ _ Hr), max_entries_eq in Hlim by done.
    split; [|done]. apply nonempty_zlen. by intros ->.
  - destruct Ho as (es & Hr & Hn & ->). destruct Hlim as [Hc Hv]. exists es. rewrite strs_size in Hc by done. split_and!; [done|done| |done|].
    + apply nonempty_zlen. by intros ->.
    + apply list.Forall_forall. intros s Hs. by apply Hv, elem_of_list_to_set.
Qed.

(** (C25) After any such history every value is a non-empty well-formed object of one
    of the three encodings: an intset of at most set-max-intset-entries integers, a
    listpack without repetitions of at most set-max-listpack-entries elements of at
    most set-max-listpack-value bytes, or a valid dict. *)
Theorem sets_well_encoded cmds c' rs : Forall cmd_ok cmds → zlen (concat (added <$> cmds)) < 2 ^ 31 →
  set_run ∅ cmds = Some (c', rs) → map_Forall (λ _, well_encoded) c'.
Proof using laws Hjunk Hcfg Hqsort.
  intros Hf Hl E k o Hk. destruct (run_from_empty cmds Hf Hl) as (c2 & rs2 & E2 & _ & Hr). simplify_eq.
  destruct (repr_lookup server c' _ k o Hr Hk) as (X & _ & Ho & Hne & _). by eapply set_ok_well_encoded.
Qed.
End History.
End SetHistory.

(** * Sets: a concrete data base

    The set type over the dict of dict.c with small thresholds, so that a short
    history goes through the three encodings, and the theorems on histories applied
    to it. *)

Module SetExamples.
Import Dict DictSet SetType SetTypeRepr SetTypeProofs SetCommands SetCommandsProofs SetAlgebra SetHistory.

(** Three integers, or three elements of up to eight bytes. *)
Definition small : redisServer := {|
  set_max_intset_entries := 3; set_max_listpack_entries := 3; set_max_listpack_value := 8
|}.

Lemma small_ok : config_ok small.
Proof. constructor; vm_compute; discriminate || reflexivity. Qed.

(** The sum of the bytes for a hash function. *)
Definition byte_sum (s : list Z) : Z := uwrap 64 (foldr Z.add 0 s).

Definition api : SetApi (dict (list Z) ()) (bool * Z) (DictIter.dictIterator (list Z) ()) :=
  set_api byte_sum DICT_RESIZE_ENABLE (λ _, 0).

Definition laws : SetLaws api := set_laws byte_sum DICT_RESIZE_ENABLE (λ _, 0).

(** Insertion sort. *)
Fixpoint insert_by {A} (cmp : A → A → Z) (x : A) (l : list A) : list A :=
  match l with
  | [] => [x]
  | y :: l => if cmp x y <=? 0 then x :: y :: l else y :: insert_by cmp x l
  end.

Definition sort_by (A : Type) (cmp : A → A → Z) (l : list A) : list A := foldr (insert_by cmp) [] l.

Lemma sort_by_perm A cmp l : sort_by A cmp l ≡ₚ l.
Proof.
  assert (∀ x l, insert_by cmp x l ≡ₚ x :: l) as Hi.
  { intros x l'. induction l' as [|y l' IH]; simpl; [done|]. destruct (cmp x y <=? 0); [done|]. rewrite IH. apply perm_swap. }
  unfold sort_by. induction l as [|x l IH]; simpl; [done|]. by rewrite Hi, IH.
Qed.

#[local] Open Scope string_scope.
Definition str (s : string) : list Z := bytes_of_string s.

Definition history : list set_cmd :=
  [ SADD (str "n") [str "3"; str "1"; str "2"];
    SADD (str "m") [str "2"; str "x"];
    SADD (str "h") [str "2"; str "a-long-element"; str "x"; str "3"];
    SADD (str "n") [str "-7"; str "1"];
    SINTER [str "h"; str "m"; str "n"] SinterReply;
    SINTER [str "h"; str "m"] (SinterStore (str "i"));
    SUNIONDIFF [str "h"; str "none"; str "m"] (Some (str "d")) SET_OP_DIFF;
    SUNIONDIFF [str "i"; str "n"] None SET_OP_UNION;
    SUNIONDIFF [str "n"; str "h"; str "n"] None SET_OP_DIFF;
    SMOVE (str "m") (str "n") (str "x");
    SREM (str "m") [str "2"; str "2"];
    SINTER [str "n"; str "h"] (SinterCard 2);
    SMISMEMBER (str "d") [str "3"; str "4"];
    SISMEMBER (str "m") (str "2");
    SCARD (str "n");
    SMEMBERS (str "i") ].

Abbreviation run_small := (set_run (api := api) small 0 sort_by ∅).

(** The encodings on the way: an intset, a listpack and a dict. *)
Example encodings : 
  (λ c, (λ k, encoding <$> c.1 !! str k) <$> ["n"; "m"; "h"]) <$> run_small (take 3 history) =
  Some [Some OBJ_ENCODING_INTSET; Some OBJ_ENCODING_LISTPACK; Some OBJ_ENCODING_HT].
Proof. vm_compute. reflexivity. Qed.

(** After a fourth integer the intset has become a dict; the long element needs one, and
    the emptied set is gone. *)
Example encodings_after :
  (λ c, (λ k, encoding <$> c.1 !! str k) <$> ["n"; "i"; "d"; "m"]) <$> run_small history =
  Some [Some OBJ_ENCODING_HT; Some OBJ_ENCODING_LISTPACK; Some OBJ_ENCODING_HT; None].
Proof. vm_compute. reflexivity. Qed.

Lemma history_ok : Forall cmd_ok history.
Proof. apply (bool_decide_unpack _). vm_compute. exact I. Qed.

Lemma sets_refine_map_witness :
  ∃ c' rs, run_small history = Some (c', rs) ∧ set_answers ∅ history rs ∧ db_repr (laws := laws) small c' (foldl set_step ∅ history).
Proof.
  apply (sets_refine_map (laws := laws) small 0 ltac:(split; [discriminate|reflexivity]) small_ok sort_by sort_by_perm history history_ok).
  vm_compute. reflexivity.
Defined.

Lemma sets_well_encoded_witness :
  ∃ c' rs, run_small history = Some (c', rs) ∧ map_Forall (λ _, well_encoded (laws := laws) small) c'.
Proof.
  destruct (run_small history) as [[c' rs]|] eqn:E; [|vm_compute in E; discriminate].
  exists c', rs. split; [reflexivity|].
  refine (sets_well_encoded (laws := laws) small 0 ltac:(split; [discriminate|reflexivity]) small_ok sort_by sort_by_perm history c' rs history_ok _ E).
  vm_compute. reflexivity.
Defined.
End SetExamples.
