(* ===== verification/Linked.v ===== *)
(** * Doubly linked nodes in a heap

    The nodes that adlist.c and quicklist.c link: a cell with two pointers and a
    value.  [seg h p ns q] says that the heap holds the nodes [ns], linked in this
    order, the first with [p] before it and the last with [q] after it.  The lemmas
    say how the assignments to pointers change segments. *)

From stdpp Require Import gmap.
From S2P Require Import Prelude.

Module Linked.

Abbreviation address := positive.

Record linked (V : Type) := mkLinked { prev : option address; next : option address; value : V }.
Arguments mkLinked {V} _ _ _.
Arguments prev {V} _.
Arguments next {V} _.
Arguments value {V} _.

Section Linked.
Context {V : Type}.
Abbreviation heap := (gmap address (linked V)).
Implicit Types (h : heap) (A B ns : list (address * V)) (p q : option address).

(** [a->prev = p], [a->next = q] and an assignment to the value. *)
Definition set_prev h (a : address) p : option heap :=
  n ← h !! a; Some (<[a := mkLinked p (next n) (value n)]> h).

Definition set_next h (a : address) q : option heap :=
  n ← h !! a; Some (<[a := mkLinked (prev n) q (value n)]> h).

Definition set_value h (a : address) (v : V) : option heap :=
  n ← h !! a; Some (<[a := mkLinked (prev n) (next n) v]> h).

(** [if (x) x->next = q;] and [if (x) x->prev = p;] *)
Definition set_next_of h (x : option address) q : option heap :=
  match x with Some a => set_next h a q | None => Some h end.

Definition set_prev_of h (x : option address) p : option heap :=
  match x with Some a => set_prev h a p | None => Some h end.

(** ** Segments *)

(** The first address, or [q]; the last one, or [p]. *)
Definition first_of ns q : option address := match ns with [] => q | (a, _) :: _ => Some a end.

Fixpoint last_of p ns : option address := match ns with [] => p | (a, _) :: ns => last_of (Some a) ns end.

Fixpoint seg h p ns q : Prop :=
  match ns with
  | [] => True
  | (a, v) :: ns => h !! a = Some (mkLinked p (first_of ns q) v) ∧ seg h (Some a) ns q
  end.

Lemma first_of_app A B q : first_of (A ++ B) q = first_of A (first_of B q).
Proof. by destruct A as [|[a v] A]. Qed.

Lemma last_of_app p A B : last_of p (A ++ B) = last_of (last_of p A) B.
Proof. revert p. induction A as [|[a v] A IH]; intros p; [done|]. apply IH. Qed.

Lemma last_of_snoc p A a v : last_of p (A ++ [(a, v)]) = Some a.
Proof. by rewrite last_of_app. Qed.

Lemma last_of_cases p A : (A = [] ∧ last_of p A = p) ∨ ∃ A' a v, A = A' ++ [(a, v)] ∧ last_of p A = Some a.
Proof.
  destruct A as [|[a v] A' _] using rev_ind; [by left|]. right. exists A', a, v. by rewrite last_of_snoc.
Qed.

Lemma seg_app h p A B q : seg h p (A ++ B) q ↔ seg h p A (first_of B q) ∧ seg h (last_of p A) B q.
Proof.
  revert p. induction A as [|[a v] A IH]; intros p; simpl; [tauto|]. rewrite IH, first_of_app. tauto.
Qed.

Lemma seg_agree h h' p ns q : (∀ a, a ∈ ns.*1 → h' !! a = h !! a) → seg h p ns q → seg h' p ns q.
Proof.
  revert p. induction ns as [|[a v] ns IH]; intros p Ha; simpl; [done|]. intros [Hl Hs]. split.
  - rewrite Ha; [done|]. by left.
  - apply IH; [|done]. intros b Hb. apply Ha. by right.
Qed.

Lemma seg_lookup h p A a v B q : seg h p (A ++ (a, v) :: B) q →
  h !! a = Some (mkLinked (last_of p A) (first_of B q) v).
Proof. intros [_ [H _]]%seg_app. exact H. Qed.

Lemma seg_elem h p ns q a : seg h p ns q → a ∈ ns.*1 → is_Some (h !! a).
Proof.
  intros Hs ([a' v] & -> & (A & B & ->)%list_elem_of_split)%list_elem_of_fmap. simpl. by rewrite (seg_lookup _ _ _ _ _ _ _ Hs).
Qed.

Lemma seg_insert h p ns q a n : (a ∉ ns.*1) → seg h p ns q → seg (<[a := n]> h) p ns q.
Proof. intros Ha. apply seg_agree. intros b Hb. rewrite lookup_insert_ne; [done|]. by intros ->. Qed.

Lemma seg_delete h p ns q a : (a ∉ ns.*1) → seg h p ns q → seg (delete a h) p ns q.
Proof. intros Ha. apply seg_agree. intros b Hb. rewrite lookup_delete_ne; [done|]. by intros ->. Qed.

(** Heaps that agree outside some addresses. *)
Definition same_but (l : list address) h h' : Prop := ∀ a, (a ∉ l) → h' !! a = h !! a.

Lemma same_but_trans l h1 h2 h3 : same_but l h1 h2 → same_but l h2 h3 → same_but l h1 h3.
Proof. intros H12 H23 a Ha. by rewrite H23, H12. Qed.

Lemma same_but_weaken l l' h h' : same_but l h h' → l ⊆ l' → same_but l' h h'.
Proof. intros H Hl a Ha. apply H. set_solver. Qed.

Lemma same_but_insert h a n : same_but [a] h (<[a := n]> h).
Proof. intros b Hb. rewrite lookup_insert_ne; [done|]. intros ->. apply Hb. by left. Qed.

Lemma seg_same_but l h h' p ns q : same_but l h h' → (∀ a, a ∈ ns.*1 → a ∉ l) → seg h p ns q → seg h' p ns q.
Proof. intros H Hl. apply seg_agree. intros a Ha. by apply H, Hl. Qed.

(** ** Assignments *)

(** The pointer after the last node of a segment. *)
Lemma set_next_last h p A q q' : seg h p A q → NoDup A.*1 →
  ∃ h', set_next_of h (if A is [] then None else last_of p A) q' = Some h' ∧ seg h' p A q' ∧ same_but A.*1 h h' ∧ dom h' = dom h.
Proof.
  intros Hs Hn. destruct A as [|[a v] A' _] using rev_ind; [by exists h|].
  rewrite last_of_snoc. replace (match A' ++ [(a, v)] with [] => None | _ => Some a end) with (Some a) by by destruct A'.
  rewrite fmap_app in Hn. apply list.NoDup_app in Hn as (_ & Hd & _).
  pose proof (seg_lookup _ _ _ _ _ _ _ Hs) as Ha. simpl. unfold set_next. rewrite Ha. cbn [mbind option_bind]. eexists.
  split; [done|]. apply seg_app in Hs as [HA _]. simpl in HA. split_and!.
  - apply seg_app. simpl. split; [|by rewrite lookup_insert_eq]. apply seg_insert; [|done].
    intros Hin. apply (Hd a Hin). by left.
  - eapply same_but_weaken; [apply same_but_insert|]. rewrite fmap_app. set_solver.
  - apply dom_insert_lookup_L. by rewrite Ha.
Qed.

(** The pointer before the first node. *)
Lemma set_prev_first h p p' B q : seg h p B q → NoDup B.*1 →
  ∃ h', set_prev_of h (first_of B None) p' = Some h' ∧ seg h' p' B q ∧ same_but B.*1 h h' ∧ dom h' = dom h.
Proof.
  intros Hs Hn. destruct B as [|[a v] B]; [by exists h|]. simpl in *. destruct Hs as [Ha Hs].
  apply list.NoDup_cons in Hn as [Hn _]. unfold set_prev. rewrite Ha. cbn [mbind option_bind]. eexists. split; [done|]. split_and!.
  - by rewrite lookup_insert_eq.
  - by apply seg_insert.
  - eapply same_but_weaken; [apply same_but_insert|]. set_solver.
  - apply dom_insert_lookup_L. by rewrite Ha.
Qed.

(** The value of a node. *)
Lemma set_value_seg h p A a v B q v' : seg h p (A ++ (a, v) :: B) q → NoDup (A ++ (a, v) :: B).*1 →
  ∃ h', set_value h a v' = Some h' ∧ seg h' p (A ++ (a, v') :: B) q ∧ same_but [a] h h' ∧ dom h' = dom h.
Proof.
  intros Hs Hn. pose proof (seg_lookup _ _ _ _ _ _ _ Hs) as Ha. unfold set_value. rewrite Ha. cbn [mbind option_bind].
  eexists. split; [done|]. rewrite fmap_app, fmap_cons in Hn. apply list.NoDup_app in Hn as (_ & Hd & Hn). simpl in Hn.
  apply list.NoDup_cons in Hn as [Hn _]. split_and!; [|apply same_but_insert|apply dom_insert_lookup_L; by rewrite Ha].
  apply seg_app in Hs as [HA [_ HB]]. apply seg_app. simpl. split_and!; [|by rewrite lookup_insert_eq|by apply seg_insert].
  apply seg_insert; [|done]. intros Hin. apply (Hd a Hin). by left.
Qed.

(** The two assignments can be made in either order. *)
Lemma set_commute h x y p q h1 h2 : set_next_of h x q = Some h1 → set_prev_of h1 y p = Some h2 →
  ∃ h1', set_prev_of h y p = Some h1' ∧ set_next_of h1' x q = Some h2.
Proof.
  destruct x as [a|], y as [b|]; simpl; [|intros E [= ->]; eauto|intros [= ->] E; eauto|intros [= ->] [= ->]; eauto].
  unfold set_next, set_prev. intros E1 E2. destruct (h !! a) as [n|] eqn:Ea; [|done]. cbn [mbind option_bind] in E1. injection E1 as <-.
  destruct (decide (b = a)) as [->|Hne].
  - rewrite lookup_insert_eq in E2. cbn [mbind option_bind prev next value] in E2. injection E2 as <-. rewrite Ea. cbn [mbind option_bind].
    eexists. split; [done|]. rewrite lookup_insert_eq. cbn [mbind option_bind prev next value]. by rewrite !insert_insert_eq.
  - rewrite lookup_insert_ne in E2 by done. destruct (h !! b) as [m|]; [|done]. cbn [mbind option_bind] in *. injection E2 as <-.
    eexists. split; [done|]. rewrite lookup_insert_ne, Ea by done. cbn [mbind option_bind]. by rewrite insert_insert_ne.
Qed.

(** ** Whole lists *)

Lemma nodup_middle A a v B : NoDup (A ++ (a, v) :: B).*1 ↔ (a ∉ (A ++ B).*1) ∧ NoDup (A ++ B).*1.
Proof.
  rewrite !fmap_app, fmap_cons, <-Permutation_middle. simpl. rewrite list.NoDup_cons. done.
Qed.

Lemma whole_last A : (if A is [] then None else last_of None A) = last_of None A.
Proof. by destruct A. Qed.

(** A node [a] whose own pointers are already right is linked between [A] and [B]. *)
Lemma link_between h A a v B : seg h None (A ++ B) None → NoDup (A ++ B).*1 → (a ∉ (A ++ B).*1) →
  h !! a = Some (mkLinked (last_of None A) (first_of B None) v) →
  ∃ h1 h2, set_next_of h (last_of None A) (Some a) = Some h1 ∧ set_prev_of h1 (first_of B None) (Some a) = Some h2 ∧
    seg h2 None (A ++ (a, v) :: B) None ∧ same_but (A ++ B).*1 h h2 ∧ dom h2 = dom h.
Proof.
  intros Hs Hn Ha Hl. apply seg_app in Hs as [HA HB]. rewrite fmap_app in *.
  apply list.NoDup_app in Hn as (HnA & Hd & HnB). rewrite not_elem_of_app in Ha. destruct Ha as [HaA HaB].
  destruct (set_next_last h None A _ (Some a) HA HnA) as (h1 & E1 & HA1 & S1 & D1). rewrite whole_last in E1.
  destruct (set_prev_first h1 (last_of None A) (Some a) B None) as (h2 & E2 & HB2 & S2 & D2); [|done|].
  { eapply seg_same_but; [done| |done]. intros b Hb HbA. by apply (Hd b). }
  exists h1, h2. split_and!; [done|done| | |congruence].
  - apply seg_app. simpl. split_and!.
    + eapply seg_same_but; [done| |done]. intros b HbA HbB. by apply (Hd b).
    + rewrite (S2 a HaB), (S1 a HaA). done.
    + done.
  - intros b Hb. rewrite not_elem_of_app in Hb. destruct Hb. by rewrite S2, S1.
Qed.

(** The neighbours of [a] are linked to each other. *)
Lemma unlink_between h A a v B : seg h None (A ++ (a, v) :: B) None → NoDup (A ++ (a, v) :: B).*1 →
  ∃ h1 h2, set_next_of h (last_of None A) (first_of B None) = Some h1 ∧
    set_prev_of h1 (first_of B None) (last_of None A) = Some h2 ∧
    seg h2 None (A ++ B) None ∧ h2 !! a = h !! a ∧ same_but (A ++ B).*1 h h2 ∧ dom h2 = dom h.
Proof.
  intros Hs Hn. apply seg_app in Hs as [HA [Ha HB]]. rewrite fmap_app, fmap_cons in Hn. simpl in Hn.
  apply list.NoDup_app in Hn as (HnA & Hd & Hn). apply list.NoDup_cons in Hn as [HaB HnB].
  assert (a ∉ A.*1) as HaA by (intros Hin; apply (Hd a Hin); by left).
  destruct (set_next_last h None A _ (first_of B None) HA HnA) as (h1 & E1 & HA1 & S1 & D1). rewrite whole_last in E1.
  destruct (set_prev_first h1 (Some a) (last_of None A) B None) as (h2 & E2 & HB2 & S2 & D2); [|done|].
  { eapply seg_same_but; [done| |done]. intros b Hb HbA. apply (Hd b HbA). by right. }
  exists h1, h2. split_and!; [done|done| |by rewrite S2, S1| |congruence].
  - apply seg_app. split; [|done]. eapply seg_same_but; [done| |done]. intros b HbA HbB. apply (Hd b HbA). by right.
  - rewrite fmap_app. intros b Hb. rewrite not_elem_of_app in Hb. destruct Hb. by rewrite S2, S1.
Qed.
End Linked.
End Linked.
