(* ===== verification/Adlist.v ===== *)
(** * Doubly linked lists ([src/redis-stable/src/adlist.c])

    The generic list of the server: nodes in the heap, a header with both ends and
    the length, iterators in both directions.  The allocator is a function of the
    heap that may answer [NULL]; values freed through the [free] method are
    returned as a list, in the order of the calls.  A result is [None] when the
    code would follow a dangling pointer.

    The length is an unsigned long bounded by memory, kept in [Z]. *)

From stdpp Require Import gmap.
From S2P Require Import Prelude Linked.

Module Adlist.
Import Linked.

Inductive direction := AL_START_HEAD | AL_START_TAIL.

Record listIter := mkIter { it_next : option address; it_direction : direction }.

Section Adlist.
Context {V : Type} `{EqDecision V}.
Abbreviation heap := (gmap address (linked V)).

(** [free] says whether a free method is set. *)
Record adlist := mkList {
  head : option address;
  tail : option address;
  dup : option (V → option V);
  free : bool;
  match_ : option (V → V → bool);
  len : Z
}.

Definition set_ends (l : adlist) (hd tl : option address) (n : Z) : adlist :=
  mkList hd tl (dup l) (free l) (match_ l) n.

Context (zmalloc : heap → option address).

(** A list header and an iterator come from the allocator too: [mem] says whether
    it had memory for them. *)
Definition listCreate (mem : bool) : option adlist := if mem then Some (mkList None None None false None 0) else None.

(** [if (list->free) list->free(value);] *)
Definition free_value (l : adlist) (v : V) : list V := if free l then [v] else [].

(** ** Emptying *)

Fixpoint free_nodes (n : nat) (l : adlist) (h : heap) (current : option address) : option (heap * list V) :=
  match n with
  | O => Some (h, [])
  | S n =>
      a ← current;
      nd ← h !! a;
      '(h, freed) ← free_nodes n l (delete a h) (next nd);
      Some (h, free_value l (value nd) ++ freed)
  end.

Definition listEmpty (h : heap) (l : adlist) : option (heap * adlist * list V) :=
  '(h, freed) ← free_nodes (Z.to_nat (len l)) l h (head l);
  Some (h, set_ends l None None 0, freed).

Definition listRelease (h : heap) (l : option adlist) : option (heap * list V) :=
  match l with None => Some (h, []) | Some l => '(h, _, freed) ← listEmpty h l; Some (h, freed) end.

(** ** Adding *)

(** Allocation of a node with a value; its pointers are set by what follows. *)
Definition new_node (h : heap) (v : V) : option (heap * address) :=
  a ← zmalloc h; Some (<[a := mkLinked None None v]> h, a).

Definition listLinkNodeHead (h : heap) (l : adlist) (node : address) : option (heap * adlist) :=
  if len l =? 0 then
    h ← set_prev h node None;
    h ← set_next h node None;
    Some (h, set_ends l (Some node) (Some node) (len l + 1))
  else
    h ← set_prev h node None;
    h ← set_next h node (head l);
    hd ← head l;
    h ← set_prev h hd (Some node);
    Some (h, set_ends l (Some node) (tail l) (len l + 1)).

Definition listLinkNodeTail (h : heap) (l : adlist) (node : address) : option (heap * adlist) :=
  if len l =? 0 then
    h ← set_prev h node None;
    h ← set_next h node None;
    Some (h, set_ends l (Some node) (Some node) (len l + 1))
  else
    h ← set_prev h node (tail l);
    h ← set_next h node None;
    tl ← tail l;
    h ← set_next h tl (Some node);
    Some (h, set_ends l (head l) (Some node) (len l + 1)).

(** [NULL] is an inner [None]: the list is as it was. *)
Definition listAddNodeHead (h : heap) (l : adlist) (v : V) : option (option (heap * adlist)) :=
  match new_node h v with
  | None => Some None
  | Some (h, node) => r ← listLinkNodeHead h l node; Some (Some r)
  end.

Definition listAddNodeTail (h : heap) (l : adlist) (v : V) : option (option (heap * adlist)) :=
  match new_node h v with
  | None => Some None
  | Some (h, node) => r ← listLinkNodeTail h l node; Some (Some r)
  end.

Definition listInsertNode (h : heap) (l : adlist) (old_node : address) (v : V) (after : bool) : option (option (heap * adlist)) :=
  match new_node h v with
  | None => Some None
  | Some (h, node) =>
      old ← h !! old_node;
      '(h, l) ←
        (if after then
           h ← set_prev h node (Some old_node);
           h ← set_next h node (next old);
           Some (h, if bool_decide (tail l = Some old_node) then set_ends l (head l) (Some node) (len l) else l)
         else
           h ← set_next h node (Some old_node);
           h ← set_prev h node (prev old);
           Some (h, if bool_decide (head l = Some old_node) then set_ends l (Some node) (tail l) (len l) else l));
      n ← h !! node;
      h ← set_next_of h (prev n) (Some node);
      n ← h !! node;
      h ← set_prev_of h (next n) (Some node);
      Some (Some (h, set_ends l (head l) (tail l) (len l + 1)))
  end.

(** ** Removing *)

Definition listUnlinkNode (h : heap) (l : adlist) (node : address) : option (heap * adlist) :=
  n ← h !! node;
  '(h, l) ← match prev n with
            | Some p => h ← set_next h p (next n); Some (h, l)
            | None => Some (h, set_ends l (next n) (tail l) (len l))
            end;
  n ← h !! node;
  '(h, l) ← match next n with
            | Some q => h ← set_prev h q (prev n); Some (h, l)
            | None => Some (h, set_ends l (head l) (prev n) (len l))
            end;
  h ← set_next h node None;
  h ← set_prev h node None;
  Some (h, set_ends l (head l) (tail l) (len l - 1)).

Definition listDelNode (h : heap) (l : adlist) (node : address) : option (heap * adlist * list V) :=
  '(h, l) ← listUnlinkNode h l node;
  n ← h !! node;
  Some (delete node h, l, free_value l (value n)).

(** ** Iterating *)

Definition listGetIterator (mem : bool) (l : adlist) (d : direction) : option listIter :=
  if mem then Some (mkIter (match d with AL_START_HEAD => head l | AL_START_TAIL => tail l end) d) else None.

Definition listRewind (l : adlist) : listIter := mkIter (head l) AL_START_HEAD.
Definition listRewindTail (l : adlist) : listIter := mkIter (tail l) AL_START_TAIL.

Definition listNext (h : heap) (iter : listIter) : option (listIter * option address) :=
  match it_next iter with
  | None => Some (iter, None)
  | Some current =>
      n ← h !! current;
      Some (mkIter (match it_direction iter with AL_START_HEAD => next n | AL_START_TAIL => prev n end) (it_direction iter),
            Some current)
  end.

(** ** Copying, searching, indexing *)

(** The body of the loop of listDup; [None] inside when an allocation fails. *)
Definition dup_node (h : heap) (copy : adlist) (v : V) : option (heap * option adlist * list V) :=
  match (match dup copy with Some f => f v | None => Some v end) with
  | None => '(h, freed) ← listRelease h (Some copy); Some (h, None, freed)
  | Some value =>
      r ← listAddNodeTail h copy value;
      match r with
      | Some (h, copy) => Some (h, Some copy, [])
      | None =>
          '(h, freed) ← listRelease h (Some copy);
          Some (h, None, free_value copy value ++ freed)
      end
  end.

Fixpoint dup_loop (fuel : nat) (h : heap) (iter : listIter) (copy : adlist) : option (heap * option adlist * list V) :=
  match fuel with
  | O => None
  | S fuel =>
      '(iter, node) ← listNext h iter;
      match node with
      | None => Some (h, Some copy, [])
      | Some a =>
          n ← h !! a;
          '(h, r, freed) ← dup_node h copy (value n);
          match r with
          | Some copy => dup_loop fuel h iter copy
          | None => Some (h, None, freed)
          end
      end
  end.

Definition listDup (mem : bool) (h : heap) (orig : adlist) : option (heap * option adlist * list V) :=
  match listCreate mem with
  | None => Some (h, None, [])
  | Some copy =>
      let copy := mkList (head copy) (tail copy) (dup orig) (free orig) (match_ orig) (len copy) in
      dup_loop (S (Z.to_nat (len orig))) h (listRewind orig) copy
  end.

Definition matches (l : adlist) (v key : V) : bool :=
  match match_ l with Some f => f v key | None => bool_decide (key = v) end.

Fixpoint search_from (fuel : nat) (h : heap) (l : adlist) (iter : listIter) (key : V) : option (option address) :=
  match fuel with
  | O => None
  | S fuel =>
      '(iter, node) ← listNext h iter;
      match node with
      | None => Some None
      | Some a => n ← h !! a; if matches l (value n) key then Some (Some a) else search_from fuel h l iter key
      end
  end.

Definition listSearchKey (h : heap) (l : adlist) (key : V) : option (option address) :=
  search_from (S (Z.to_nat (len l))) h l (listRewind l) key.

(** [while(index-- && n) n = n->prev;] and the same with [n->next]. *)
Fixpoint index_loop (fuel : nat) (h : heap) (d : direction) (index : Z) (n : option address) : option (option address) :=
  match fuel with
  | O => None
  | S fuel =>
      if index =? 0 then Some n
      else
        match n with
        | None => Some None
        | Some a =>
            nd ← h !! a;
            index_loop fuel h d (index - 1) (match d with AL_START_HEAD => next nd | AL_START_TAIL => prev nd end)
        end
  end.

(** The negation of the least [long] is undefined. *)
Definition listIndex (h : heap) (l : adlist) (index : Z) : option (option address) :=
  let fuel := S (S (Z.to_nat (len l))) in
  if index <? 0 then
    if index =? INT64_MIN then None else index_loop fuel h AL_START_TAIL (- index - 1) (tail l)
  else index_loop fuel h AL_START_HEAD index (head l).

(** ** Rotating and joining *)

Definition listRotateTailToHead (h : heap) (l : adlist) : option (heap * adlist) :=
  if len l <=? 1 then Some (h, l)
  else
    tl ← tail l;
    n ← h !! tl;
    new_tail ← prev n;
    h ← set_next h new_tail None;
    hd ← head l;
    h ← set_prev h hd (Some tl);
    h ← set_prev h tl None;
    h ← set_next h tl (Some hd);
    Some (h, set_ends l (Some tl) (Some new_tail) (len l)).

Definition listRotateHeadToTail (h : heap) (l : adlist) : option (heap * adlist) :=
  if len l <=? 1 then Some (h, l)
  else
    hd ← head l;
    n ← h !! hd;
    new_head ← next n;
    h ← set_prev h new_head None;
    tl ← tail l;
    h ← set_next h tl (Some hd);
    h ← set_next h hd None;
    h ← set_prev h hd (Some tl);
    Some (h, set_ends l (Some new_head) (Some hd) (len l)).

Definition listJoin (h : heap) (l o : adlist) : option (heap * adlist * adlist) :=
  if len o =? 0 then Some (h, l, o)
  else
    ohead ← head o;
    h ← set_prev h ohead (tail l);
    '(h, l) ← match tail l with
              | Some tl => h ← set_next h tl (Some ohead); Some (h, l)
              | None => Some (h, set_ends l (Some ohead) (tail l) (len l))
              end;
    Some (h, set_ends l (head l) (tail o) (len l + len o), set_ends o None None 0).

Definition listInitNode (h : heap) (node : address) (v : V) : option heap :=
  h ← set_prev h node None;
  h ← set_next h node None;
  set_value h node v.
End Adlist.

Arguments adlist : clear implicits.
End Adlist.
