(* ===== verification/AdlistProofs.v ===== *)
(** * Doubly linked lists: correctness of the operations

    [repr h l ns] says that the header [l] and the heap hold the nodes [ns], each an
    address and a value; every operation edits this list and leaves the rest of the
    heap alone. *)

From stdpp Require Import gmap.
From S2P Require Import Prelude Linked Adlist.

Module AdlistProofs.
Import Linked Adlist.

Section Proofs.
Context {V : Type} `{EqDecision V}.
Abbreviation heap := (gmap address (linked V)).
Abbreviation adlist := (adlist V).
Context (zmalloc : heap → option address) (Hmalloc : ∀ h a, zmalloc h = Some a → h !! a = None).
Implicit Types (h : heap) (l : adlist) (A B ns : list (address * V)).

Record repr h l ns : Prop := {
  repr_head : head l = first_of ns None;
  repr_tail : tail l = last_of None ns;
  repr_len : len l = zlen ns;
  repr_seg : seg h None ns None;
  repr_nodup : NoDup ns.*1
}.

Definition same_methods l l' : Prop := dup l' = dup l ∧ free l' = free l ∧ match_ l' = match_ l.

Lemma set_ends_methods l p q n : same_methods l (set_ends l p q n).
Proof. done. Qed.

Lemma repr_empty h l ns : repr h l ns → len l = 0 → ns = [] ∧ head l = None ∧ tail l = None.
Proof.
  intros Hr E. rewrite (repr_len _ _ _ Hr) in E. apply zlen_0_nil in E as ->. split; [done|]. split; apply Hr.
Qed.

Lemma repr_create h mem l : listCreate mem = Some l → repr h l [].
Proof. destruct mem; [|done]. intros [= <-]. by constructor; [..|constructor]. Qed.

(** The same list in a heap that agrees on its nodes. *)
Lemma repr_agree h h' l ns : (∀ a, a ∈ ns.*1 → h' !! a = h !! a) → repr h l ns → repr h' l ns.
Proof. intros Ha [? ? ? ? ?]. constructor; [done|done|done|by eapply seg_agree|done]. Qed.

Lemma ad_repr_lookup h l A a v B : repr h l (A ++ (a, v) :: B) →
  h !! a = Some (mkLinked (last_of None A) (first_of B None) v).
Proof. intros Hr. apply (seg_lookup _ _ _ _ _ _ _ (repr_seg _ _ _ Hr)). Qed.

(** Only the head is first, only the tail is last. *)
Lemma head_is h l A a v B : repr h l (A ++ (a, v) :: B) → head l = Some a ↔ A = [].
Proof.
  intros Hr. rewrite (repr_head _ _ _ Hr). destruct A as [|[b w] A]; [done|]. simpl. split; [|done]. intros [= ->].
  pose proof (repr_nodup _ _ _ Hr) as Hn. rewrite fmap_app, fmap_cons in Hn. simpl in Hn.
  apply list.NoDup_cons in Hn as [Hn _]. set_solver.
Qed.

Lemma tail_is h l A a v B : repr h l (A ++ (a, v) :: B) → tail l = Some a ↔ B = [].
Proof.
  intros Hr. rewrite (repr_tail _ _ _ Hr), last_of_app. simpl. destruct (last_of_cases (Some a) B) as [[-> ->]|(B' & b & w & -> & ->)]; [done|].
  split; [|intros E; by destruct B']. intros [= ->].
  pose proof (repr_nodup _ _ _ Hr) as Hn. rewrite fmap_app, fmap_cons in Hn. simpl in Hn.
  apply list.NoDup_app in Hn as (_ & _ & Hn). apply list.NoDup_cons in Hn as [Hn _]. rewrite fmap_app in Hn. set_solver.
Qed.

(** ** Emptying *)

Lemma ad_empty_loop_spec l h p ns : seg h p ns None → NoDup ns.*1 →
  ∃ h', free_nodes (length ns) l h (first_of ns None) = Some (h', if free l then ns.*2 else []) ∧
    same_but ns.*1 h h' ∧ ∀ a, a ∈ ns.*1 → h' !! a = None.
Proof.
  revert h p. induction ns as [|[a v] ns IH]; intros h p Hs Hn; simpl.
  { exists h. split; [by destruct (free l)|]. split; [done|]. intros a Ha. by apply elem_of_nil in Ha. }
  destruct Hs as [Ha Hs]. apply list.NoDup_cons in Hn as [Hna Hn]. rewrite Ha. cbn [mbind option_bind next value].
  destruct (IH (delete a h) (Some a)) as (h' & -> & S & Hd); [by apply seg_delete|done|]. cbn [mbind option_bind].
  exists h'. split_and!.
  - do 2 f_equal. unfold free_value. by destruct (free l).
  - intros b Hb. apply not_elem_of_cons in Hb as [Hb1 Hb2]. rewrite S by done. by rewrite lookup_delete_ne.
  - intros b [->|Hb]%elem_of_cons; [|by apply Hd]. rewrite S by done. by rewrite lookup_delete_eq.
Qed.

Lemma listEmpty_spec h l ns : repr h l ns →
  ∃ h' l', listEmpty h l = Some (h', l', if free l then ns.*2 else []) ∧ repr h' l' [] ∧ same_methods l l' ∧
    same_but ns.*1 h h' ∧ ∀ a, a ∈ ns.*1 → h' !! a = None.
Proof.
  intros [Hh Ht Hl Hs Hn]. unfold listEmpty. rewrite Hh, Hl. unfold zlen. rewrite Nat2Z.id.
  destruct (ad_empty_loop_spec l h None ns Hs Hn) as (h' & -> & S & Hd). cbn [mbind option_bind].
  eexists h', _. split; [done|]. split; [by constructor; [..|constructor]|]. by split.
Qed.

(** ** Linking *)

Lemma new_node_spec h v : match new_node zmalloc h v with
  | Some (h', a) => h !! a = None ∧ h' = <[a := mkLinked None None v]> h
  | None => zmalloc h = None
  end.
Proof using Hmalloc. unfold new_node. destruct (zmalloc h) as [a|] eqn:E; simpl; [|done]. split; [by apply Hmalloc|done]. Qed.

Lemma set_prev_at h a n p : h !! a = Some n → set_prev h a p = Some (<[a := mkLinked p (next n) (value n)]> h).
Proof. intros E. unfold set_prev. by rewrite E. Qed.

Lemma set_next_at h a n q : h !! a = Some n → set_next h a q = Some (<[a := mkLinked (prev n) q (value n)]> h).
Proof. intros E. unfold set_next. by rewrite E. Qed.

(** Both pointers of a node outside the list. *)
Lemma set_both h ns a n p q : seg h None ns None → (a ∉ ns.*1) → h !! a = Some n →
  ∃ h1 h2, set_prev h a p = Some h1 ∧ set_next h1 a q = Some h2 ∧ h2 = <[a := mkLinked p q (value n)]> h ∧ seg h2 None ns None.
Proof.
  intros Hs Ha E. exists (<[a := mkLinked p (next n) (value n)]> h). eexists. split; [by apply set_prev_at|].
  split; [apply set_next_at, lookup_insert_eq|]. simpl. rewrite insert_insert_eq. split; [done|]. by apply seg_insert.
Qed.

Lemma set_both' h ns a n p q : seg h None ns None → (a ∉ ns.*1) → h !! a = Some n →
  ∃ h1 h2, set_next h a q = Some h1 ∧ set_prev h1 a p = Some h2 ∧ h2 = <[a := mkLinked p q (value n)]> h ∧ seg h2 None ns None.
Proof.
  intros Hs Ha E. exists (<[a := mkLinked (prev n) q (value n)]> h). eexists. split; [by apply set_next_at|].
  split; [apply set_prev_at, lookup_insert_eq|]. simpl. rewrite insert_insert_eq. split; [done|]. by apply seg_insert.
Qed.

(** The footprint of a list that may have lost or got the node [a]. *)
Lemma footprint_insert h h' a n (l : list address) : same_but l (<[a := n]> h) h' → same_but (a :: l) h h'.
Proof.
  intros S b Hb. apply not_elem_of_cons in Hb as [Hb1 Hb2]. rewrite S by done. by rewrite lookup_insert_ne.
Qed.

Lemma first_none ns : first_of ns None = None → ns = [].
Proof. by destruct ns as [|[a v] ns]. Qed.

Lemma listLinkNodeHead_spec h l ns a n : repr h l ns → h !! a = Some n → (a ∉ ns.*1) →
  ∃ h' l', listLinkNodeHead h l a = Some (h', l') ∧ repr h' l' ((a, value n) :: ns) ∧ same_methods l l' ∧ same_but (a :: ns.*1) h h'.
Proof.
  intros Hr Ea Ha. pose proof Hr as [Hh Ht Hl Hs Hn]. unfold listLinkNodeHead. destruct (len l =? 0) eqn:E; zb.
  - destruct (repr_empty _ _ _ Hr E) as (-> & _ & _).
    destruct (set_both h [] a n None None Hs Ha Ea) as (h1 & h2 & -> & E2 & -> & Hs2). cbn [mbind option_bind]. rewrite E2.
    cbn [mbind option_bind]. eexists _, _. split; [done|]. split; [|split; [done|apply same_but_insert]].
    constructor; [done|done|simpl; by rewrite E|simpl; by rewrite lookup_insert_eq|apply NoDup_singleton].
  - destruct (set_both h ns a n None (head l) Hs Ha Ea) as (h1 & h2 & -> & E2 & Eh & Hs2). cbn [mbind option_bind]. rewrite E2.
    cbn [mbind option_bind]. destruct ns as [|[b w] ns]; [by rewrite Hl in E|]. rewrite Hh. cbn [first_of mbind option_bind].
    destruct (link_between h2 [] a (value n) ((b, w) :: ns)) as (h3 & h4 & E3 & E4 & Hs4 & S4 & _); [done|done|done| |].
    { rewrite Eh, lookup_insert_eq, Hh. done. }
    cbn [set_next_of last_of] in E3. injection E3 as <-. cbn [set_prev_of first_of] in E4. rewrite E4. cbn [mbind option_bind].
    eexists _, _. split; [done|]. split; [constructor|split; [done|]].
    + done.
    + simpl. by rewrite Ht.
    + simpl. rewrite Hl, !zlen_cons. lia.
    + exact Hs4.
    + rewrite fmap_cons. by constructor.
    + rewrite Eh in S4. by apply footprint_insert in S4.
Qed.

Lemma listLinkNodeTail_spec h l ns a n : repr h l ns → h !! a = Some n → (a ∉ ns.*1) →
  ∃ h' l', listLinkNodeTail h l a = Some (h', l') ∧ repr h' l' (ns ++ [(a, value n)]) ∧ same_methods l l' ∧ same_but (a :: ns.*1) h h'.
Proof.
  intros Hr Ea Ha. pose proof Hr as [Hh Ht Hl Hs Hn]. unfold listLinkNodeTail. destruct (len l =? 0) eqn:E; zb.
  - destruct (repr_empty _ _ _ Hr E) as (-> & _ & _).
    destruct (set_both h [] a n None None Hs Ha Ea) as (h1 & h2 & -> & E2 & -> & Hs2). cbn [mbind option_bind]. rewrite E2.
    cbn [mbind option_bind]. eexists _, _. split; [done|]. split; [|split; [done|apply same_but_insert]].
    constructor; [done|done|simpl; by rewrite E|simpl; by rewrite lookup_insert_eq|apply NoDup_singleton].
  - destruct (set_both h ns a n (tail l) None Hs Ha Ea) as (h1 & h2 & -> & E2 & Eh & Hs2). cbn [mbind option_bind]. rewrite E2.
    cbn [mbind option_bind].
    destruct (last_of_cases None ns) as [[-> _]|(ns' & b & w & Ens & Elast)]; [by rewrite Hl in E|].
    rewrite Ht, Elast. cbn [mbind option_bind].
    destruct (link_between h2 ns a (value n) []) as (h3 & h4 & E3 & E4 & Hs4 & S4 & _).
    { by rewrite app_nil_r. } { by rewrite app_nil_r. } { by rewrite app_nil_r. }
    { rewrite Eh, lookup_insert_eq, Ht. done. }
    rewrite Elast in E3. cbn [set_next_of] in E3. rewrite E3. cbn [mbind option_bind].
    cbn [set_prev_of first_of] in E4. injection E4 as ->.
    eexists _, _. split; [done|]. split; [constructor|split; [done|]].
    + simpl. rewrite first_of_app, Hh. subst ns. by destruct ns' as [|[? ?] ?].
    + by rewrite last_of_snoc.
    + simpl. rewrite Hl, zlen_app. done.
    + exact Hs4.
    + rewrite fmap_app. apply list.NoDup_app. split_and!; [done| |apply NoDup_singleton].
      intros x Hx E'. apply list_elem_of_singleton in E'. simpl in E'. by subst x.
    + rewrite app_nil_r, Eh in S4. by apply footprint_insert in S4.
Qed.

Lemma ad_add_new h l ns v (f : heap → adlist → address → option (heap * adlist)) (g : address → list (address * V)) :
  repr h l ns → (∀ h a n, repr h l ns → h !! a = Some n → (a ∉ ns.*1) → value n = v →
    ∃ h' l', f h l a = Some (h', l') ∧ repr h' l' (g a) ∧ same_methods l l' ∧ same_but (a :: ns.*1) h h') →
  match new_node zmalloc h v with
  | None => zmalloc h = None
  | Some (h1, a) => h !! a = None ∧
      ∃ h' l', f h1 l a = Some (h', l') ∧ repr h' l' (g a) ∧ same_methods l l' ∧ same_but (a :: ns.*1) h h'
  end.
Proof using Hmalloc.
  intros Hr Hf. pose proof (new_node_spec h v) as Hnew. destruct (new_node zmalloc h v) as [[h1 a]|]; [|done].
  destruct Hnew as [Ha ->]. split; [done|]. assert (a ∉ ns.*1) as Hna.
  { intros Hin. destruct (seg_elem _ _ _ _ _ (repr_seg _ _ _ Hr) Hin) as [? E]. by rewrite Ha in E. }
  destruct (Hf (<[a := mkLinked None None v]> h) a (mkLinked None None v)) as (h' & l' & E & Hr' & Hm & S).
  - apply (repr_agree h); [|done]. intros b Hb. rewrite lookup_insert_ne; [done|]. by intros ->.
  - apply lookup_insert_eq.
  - done.
  - done.
  - exists h', l'. split_and!; [done|done|done|]. intros b Hb. rewrite S by done. apply not_elem_of_cons in Hb as [Hb _].
    by rewrite lookup_insert_ne.
Qed.

Definition added h l ns (ns' : address → list (address * V)) (r : option (option (heap * adlist))) : Prop :=
  match r with
  | None => False
  | Some None => zmalloc h = None
  | Some (Some (h', l')) => ∃ a, h !! a = None ∧ repr h' l' (ns' a) ∧ same_methods l l' ∧ same_but (a :: ns.*1) h h'
  end.

Lemma listAddNodeHead_spec h l ns v : repr h l ns →
  added h l ns (λ a, (a, v) :: ns) (listAddNodeHead zmalloc h l v).
Proof using Hmalloc.
  intros Hr. pose proof (ad_add_new h l ns v listLinkNodeHead (λ a, (a, v) :: ns) Hr) as H. unfold listAddNodeHead.
  destruct (new_node zmalloc h v) as [[h1 a]|]; [|apply H].
  - destruct H as (Ha & h' & l' & -> & ? & ? & ?); [|by exists a].
    intros h0 a0 n Hr0 Ea Hna <-. by apply listLinkNodeHead_spec.
  - intros h0 a0 n Hr0 Ea Hna <-. by apply listLinkNodeHead_spec.
Qed.

Lemma listAddNodeTail_spec h l ns v : repr h l ns →
  added h l ns (λ a, ns ++ [(a, v)]) (listAddNodeTail zmalloc h l v).
Proof using Hmalloc.
  intros Hr. pose proof (ad_add_new h l ns v listLinkNodeTail (λ a, ns ++ [(a, v)]) Hr) as H. unfold listAddNodeTail.
  destruct (new_node zmalloc h v) as [[h1 a]|]; [|apply H].
  - destruct H as (Ha & h' & l' & -> & ? & ? & ?); [|by exists a].
    intros h0 a0 n Hr0 Ea Hna <-. by apply listLinkNodeTail_spec.
  - intros h0 a0 n Hr0 Ea Hna <-. by apply listLinkNodeTail_spec.
Qed.

(** ** Inserting next to a node and removing *)

Lemma zlen_middle A a v B : zlen (A ++ (a, v) :: B) = zlen (A ++ B) + 1.
Proof. rewrite !zlen_app, zlen_cons. lia. Qed.

Lemma not_in_middle A B a b (v : V) : (a ∉ (A ++ (b, v) :: B).*1) → a ≠ b ∧ (a ∉ (A ++ B).*1).
Proof. clear zmalloc Hmalloc. rewrite !fmap_app, fmap_cons. set_solver. Qed.

(** The list after a node [a] is linked between [A] and [B]. *)
Lemma repr_linked h l A B a v l' : repr h l (A ++ B) → seg h None (A ++ (a, v) :: B) None → (a ∉ (A ++ B).*1) →
  head l' = (if A is [] then Some a else head l) → tail l' = (if B is [] then Some a else tail l) → len l' = len l + 1 →
  repr h l' (A ++ (a, v) :: B).
Proof.
  intros [Hh Ht Hl _ Hn] Hs Ha Eh Et El. constructor.
  - rewrite Eh, Hh. by destruct A.
  - rewrite Et, Ht, !last_of_app. destruct B as [|[b w] B]; [done|]. done.
  - rewrite El, Hl, zlen_middle. done.
  - done.
  - by apply nodup_middle.
Qed.

(** Linking [a], whose own pointers are set, between [A] and [B]. *)
Lemma insert_pointers h l A B a v : repr h l (A ++ B) → (a ∉ (A ++ B).*1) →
  h !! a = Some (mkLinked (last_of None A) (first_of B None) v) →
  ∃ h4 h5, set_next_of h (last_of None A) (Some a) = Some h4 ∧
    h4 !! a = Some (mkLinked (last_of None A) (first_of B None) v) ∧ set_prev_of h4 (first_of B None) (Some a) = Some h5 ∧
    (∀ l', head l' = (if A is [] then Some a else head l) → tail l' = (if B is [] then Some a else tail l) →
       len l' = len l + 1 → repr h5 l' (A ++ (a, v) :: B)) ∧ same_but (A ++ B).*1 h h5.
Proof.
  intros Hr Ha Ea. pose proof Hr as [Hh Ht Hl Hs Hn].
  destruct (link_between h A a v B Hs Hn Ha Ea) as (h4 & h5 & E4 & E5 & Hs5 & S5 & _).
  exists h4, h5. split_and!; [done| |done| |done].
  - destruct (last_of_cases None A) as [[-> E]|(A' & c & u & -> & E)]; rewrite E in E4; [by injection E4 as <-|].
    cbn [set_next_of] in E4. unfold set_next in E4. destruct (h !! c); [|done]. injection E4 as <-.
    rewrite lookup_insert_ne; [done|]. intros ->. apply Ha. rewrite !fmap_app. set_solver.
  - intros l' Eh Et El. constructor.
    + rewrite Eh, Hh. by destruct A as [|[? ?] ?].
    + rewrite Et, Ht, !last_of_app. by destruct B as [|[? ?] ?].
    + rewrite El, Hl, zlen_middle. done.
    + done.
    + by apply nodup_middle.
Qed.

Lemma listInsertNode_spec h l A b w B v (after : bool) : repr h l (A ++ (b, w) :: B) →
  added h l (A ++ (b, w) :: B) (λ a, if after then A ++ (b, w) :: (a, v) :: B else A ++ (a, v) :: (b, w) :: B)
    (listInsertNode zmalloc h l b v after).
Proof using Hmalloc.
  intros Hr. unfold listInsertNode. pose proof (new_node_spec h v) as Hnew.
  destruct (new_node zmalloc h v) as [[h1 a]|]; [|done]. destruct Hnew as [Ha ->].
  assert (a ∉ (A ++ (b, w) :: B).*1) as Hna.
  { intros Hin. destruct (seg_elem _ _ _ _ _ (repr_seg _ _ _ Hr) Hin) as [? E]. by rewrite Ha in E. }
  set (h1 := <[a := mkLinked None None v]> h).
  assert (repr h1 l (A ++ (b, w) :: B)) as Hr1.
  { apply (repr_agree h); [|done]. intros c Hc. unfold h1. rewrite lookup_insert_ne; [done|]. by intros ->. }
  assert (h1 !! a = Some (mkLinked None None v)) as Ea1 by apply lookup_insert_eq.
  rewrite (ad_repr_lookup _ _ _ _ _ _ Hr1). cbn [mbind option_bind prev next]. destruct after.
  - destruct (set_both h1 _ a _ (Some b) (first_of B None) (repr_seg _ _ _ Hr1) Hna Ea1) as (h2 & h3 & -> & E3 & Eh3 & Hs3).
    cbn [mbind option_bind]. rewrite E3. cbn [mbind option_bind]. cbn [value] in Eh3.
    assert (repr h3 l (A ++ (b, w) :: B)) as Hr3 by (destruct Hr1; by constructor).
    pose proof (tail_is _ _ _ _ _ _ Hr3) as Htl.
    assert (A ++ (b, w) :: B = (A ++ [(b, w)]) ++ B) as Ens by by rewrite <-app_assoc. rewrite Ens in Hr3, Hna.
    destruct (insert_pointers h3 l (A ++ [(b, w)]) B a v Hr3 Hna) as (h4 & h5 & E4 & Ea4 & E5 & Hr5 & S5).
    { by rewrite Eh3, lookup_insert_eq, last_of_snoc. }
    rewrite Eh3, lookup_insert_eq, <-Eh3. rewrite last_of_snoc in *. cbn [mbind option_bind prev]. rewrite E4. cbn [mbind option_bind].
    rewrite Ea4. cbn [mbind option_bind next]. rewrite E5. cbn [mbind option_bind].
    exists a. split; [done|]. rewrite Ens. split_and!; [|by case_bool_decide|].
    + replace (A ++ (b, w) :: (a, v) :: B) with ((A ++ [(b, w)]) ++ (a, v) :: B) by by rewrite <-app_assoc.
      apply Hr5; case_bool_decide as Hc; simpl; try done; try (by destruct A).
      * rewrite Htl in Hc. by subst B.
      * destruct B; [|done]. by rewrite Htl in Hc.
    + rewrite Eh3 in S5. apply footprint_insert in S5. intros c Hc. rewrite S5 by done. unfold h1.
      apply not_elem_of_cons in Hc as [Hc _]. by rewrite lookup_insert_ne.
  - destruct (set_both' h1 _ a _ (last_of None A) (Some b) (repr_seg _ _ _ Hr1) Hna Ea1) as (h2 & h3 & -> & E3 & Eh3 & Hs3).
    cbn [mbind option_bind]. rewrite E3. cbn [mbind option_bind]. cbn [value] in Eh3.
    assert (repr h3 l (A ++ (b, w) :: B)) as Hr3 by (destruct Hr1; by constructor).
    pose proof (head_is _ _ _ _ _ _ Hr3) as Hhd.
    destruct (insert_pointers h3 l A ((b, w) :: B) a v Hr3 Hna) as (h4 & h5 & E4 & Ea4 & E5 & Hr5 & S5).
    { by rewrite Eh3, lookup_insert_eq. }
    rewrite Eh3, lookup_insert_eq, <-Eh3. cbn [mbind option_bind prev]. rewrite E4. cbn [mbind option_bind].
    rewrite Ea4. cbn [mbind option_bind next]. rewrite E5. cbn [mbind option_bind].
    exists a. split; [done|]. split_and!; [|by case_bool_decide|].
    + apply Hr5; case_bool_decide as Hc; simpl; try done.
      * rewrite Hhd in Hc. by subst A.
      * destruct A; [|done]. by rewrite Hhd in Hc.
    + rewrite Eh3 in S5. apply footprint_insert in S5. intros c Hc. rewrite S5 by done. unfold h1.
      apply not_elem_of_cons in Hc as [Hc _]. by rewrite lookup_insert_ne.
Qed.

Lemma listUnlinkNode_spec h l A a v B : repr h l (A ++ (a, v) :: B) →
  ∃ h' l', listUnlinkNode h l a = Some (h', l') ∧ repr h' l' (A ++ B) ∧ same_methods l l' ∧
    h' !! a = Some (mkLinked None None v) ∧ same_but (A ++ (a, v) :: B).*1 h h'.
Proof.
  intros Hr. pose proof Hr as [Hh Ht Hl Hs Hn]. pose proof (ad_repr_lookup _ _ _ _ _ _ Hr) as Ea.
  destruct (unlink_between h A a v B Hs Hn) as (h1 & h2 & E1 & E2 & Hs2 & Ea2 & S2 & _).
  apply nodup_middle in Hn as [Hna Hn]. unfold listUnlinkNode. rewrite Ea. cbn [mbind option_bind prev next].
  assert (h1 !! a = h !! a) as Ea1.
  { destruct (last_of_cases None A) as [[-> E]|(A' & c & u & -> & E)]; rewrite E in E1; [by injection E1 as <-|].
    cbn [set_next_of] in E1. unfold set_next in E1. destruct (h !! c); [|done]. injection E1 as <-.
    rewrite lookup_insert_ne; [done|]. intros ->. apply Hna. rewrite !fmap_app. clear zmalloc Hmalloc; set_solver. }
  set (l1 := match last_of None A with Some _ => l | None => set_ends l (first_of B None) (tail l) (len l) end).
  assert (match last_of None A with
    | Some p => h ← set_next h p (first_of B None); Some (h, l)
    | None => Some (h, set_ends l (first_of B None) (tail l) (len l))
    end = Some (h1, l1)) as ->.
  { unfold l1. destruct (last_of None A) as [p|]; simpl in E1; [rewrite E1; done|]. by injection E1 as <-. }
  cbn [mbind option_bind]. rewrite Ea1, Ea. cbn [mbind option_bind prev next].
  set (l2 := match first_of B None with Some _ => l1 | None => set_ends l1 (head l1) (last_of None A) (len l1) end).
  assert (match first_of B None with
    | Some q => h ← set_prev h1 q (last_of None A); Some (h, l1)
    | None => Some (h1, set_ends l1 (head l1) (last_of None A) (len l1))
    end = Some (h2, l2)) as ->.
  { unfold l2. destruct (first_of B None) as [q|]; simpl in E2; [rewrite E2; done|]. by injection E2 as <-. }
  cbn [mbind option_bind]. rewrite Ea in Ea2.
  destruct (set_both' h2 (A ++ B) a _ None None Hs2 Hna Ea2) as (h3 & h4 & -> & E4 & Eh4 & Hs4).
  cbn [mbind option_bind]. rewrite E4. cbn [mbind option_bind value] in *.
  eexists _, _. split; [done|]. split_and!.
  - constructor; simpl; [| | |done|done].
    + unfold l2, l1. destruct (last_of_cases None A) as [[-> ->]|(A' & c & u & -> & ->)].
      * by destruct B as [|[? ?] ?].
      * rewrite !first_of_app in *. simpl. destruct B as [|[? ?] ?]; simpl; rewrite Hh; by destruct A' as [|[? ?] ?].
    + unfold l2, l1. rewrite last_of_app in *. simpl in Ht. destruct B as [|[c u] B]; simpl in *; [done|].
      destruct (last_of None A); simpl; done.
    + assert (len l2 = len l) as ->; [|rewrite Hl, zlen_middle; lia]. unfold l2, l1.
      destruct (first_of B None), (last_of None A); done.
  - unfold l2, l1. destruct (first_of B None), (last_of None A); done.
  - rewrite Eh4. apply lookup_insert_eq.
  - intros c [Hc1 Hc2]%not_in_middle. rewrite Eh4, lookup_insert_ne by done. by apply S2.
Qed.

Lemma listDelNode_spec h l A a v B : repr h l (A ++ (a, v) :: B) →
  ∃ h' l', listDelNode h l a = Some (h', l', if free l then [v] else []) ∧ repr h' l' (A ++ B) ∧ same_methods l l' ∧
    h' !! a = None ∧ same_but (A ++ (a, v) :: B).*1 h h'.
Proof.
  intros Hr. destruct (listUnlinkNode_spec h l A a v B Hr) as (h1 & l1 & E & Hr1 & Hm & Ea & S).
  unfold listDelNode. rewrite E. cbn [mbind option_bind]. rewrite Ea. cbn [mbind option_bind value].
  pose proof (proj1 (nodup_middle _ _ _ _) (repr_nodup _ _ _ Hr)) as [Hna _].
  exists (delete a h1), l1. split_and!.
  - unfold free_value. by destruct Hm as (_ & -> & _).
  - apply (repr_agree h1); [|done]. intros c Hc. rewrite lookup_delete_ne; [done|]. by intros ->.
  - done.
  - apply lookup_delete_eq.
  - intros c Hc. pose proof (not_in_middle _ _ _ _ _ Hc) as [? _]. rewrite lookup_delete_ne by done. by apply S.
Qed.

(** ** Iterators *)

Lemma listNext_forward h l A B : repr h l (A ++ B) →
  listNext h (mkIter (first_of B None) AL_START_HEAD) =
    Some (mkIter (first_of (tl B) None) AL_START_HEAD, fst <$> list.head B).
Proof.
  intros Hr. destruct B as [|[b w] B]; [done|]. unfold listNext. simpl. by rewrite (ad_repr_lookup _ _ _ _ _ _ Hr).
Qed.

Lemma listNext_backward h l A B : repr h l (A ++ B) →
  listNext h (mkIter (last_of None A) AL_START_TAIL) =
    Some (mkIter (last_of None (removelast A)) AL_START_TAIL, last_of None A).
Proof.
  intros Hr. destruct A as [|[a v] A _] using rev_ind; [done|]. rewrite last_of_snoc. unfold listNext. simpl.
  rewrite <-app_assoc in Hr. rewrite (ad_repr_lookup _ _ _ _ _ _ Hr). simpl. by rewrite removelast_last.
Qed.

Lemma ad_search_loop_spec h l A B key : repr h l (A ++ B) →
  search_from (S (length B)) h l (mkIter (first_of B None) AL_START_HEAD) key =
    Some (fst <$> List.find (λ x, matches l x.2 key) B).
Proof.
  revert A. induction B as [|[b w] B IH]; intros A Hr; cbn [search_from length]; rewrite (listNext_forward _ _ _ _ Hr);
    cbn [mbind option_bind list.head fmap option_fmap option_map fst]; [done|].
  rewrite (ad_repr_lookup _ _ _ _ _ _ Hr). cbn [mbind option_bind value tl List.find snd]. destruct (matches l w key); [done|].
  apply (IH (A ++ [(b, w)])). by rewrite <-app_assoc.
Qed.

Lemma listSearchKey_spec h l ns key : repr h l ns →
  listSearchKey h l key = Some (fst <$> List.find (λ x, matches l x.2 key) ns).
Proof.
  intros Hr. unfold listSearchKey, listRewind. rewrite (repr_len _ _ _ Hr), (repr_head _ _ _ Hr). unfold zlen. rewrite Nat2Z.id.
  by apply (ad_search_loop_spec h l [] ns).
Qed.

Lemma index_forward h l A B i fuel : repr h l (A ++ B) → 0 <= i → (length B < fuel)%nat →
  index_loop fuel h AL_START_HEAD i (first_of B None) = Some (fst <$> B !! Z.to_nat i).
Proof.
  revert A B i. induction fuel as [|fuel IH]; intros A B i Hr Hi Hf; [lia|]. cbn [index_loop].
  destruct (i =? 0) eqn:E; zb; [subst i; by destruct B as [|[b w] B]|].
  destruct B as [|[b w] B]; [done|]. cbn [first_of]. rewrite (ad_repr_lookup _ _ _ _ _ _ Hr). cbn [mbind option_bind next].
  rewrite (IH (A ++ [(b, w)])); [|by rewrite <-app_assoc|lia|simpl in Hf; lia].
  by replace (Z.to_nat i) with (S (Z.to_nat (i - 1))) by lia.
Qed.

Lemma index_backward h l A B i fuel : repr h l (A ++ B) → 0 <= i → (length A < fuel)%nat →
  index_loop fuel h AL_START_TAIL i (last_of None A) = Some (fst <$> reverse A !! Z.to_nat i).
Proof.
  revert A B i. induction fuel as [|fuel IH]; intros A B i Hr Hi Hf; [lia|]. cbn [index_loop].
  destruct A as [|[a v] A _] using rev_ind.
  { rewrite reverse_nil, lookup_nil. by destruct (i =? 0). }
  rewrite last_of_snoc, reverse_snoc. destruct (i =? 0) eqn:E; zb; [by subst i|]. rewrite <-app_assoc in Hr.
  rewrite (ad_repr_lookup _ _ _ _ _ _ Hr). cbn [mbind option_bind prev]. rewrite length_app in Hf. simpl in Hf.
  rewrite (IH A ([(a, v)] ++ B)); [|done|lia|lia]. by replace (Z.to_nat i) with (S (Z.to_nat (i - 1))) by lia.
Qed.

(** The node at an index from either end. *)
Definition node_at ns (i : Z) : option (address * V) :=
  if i <? 0 then reverse ns !! Z.to_nat (- i - 1) else ns !! Z.to_nat i.

Lemma listIndex_spec h l ns i : repr h l ns → INT64_MIN < i →
  listIndex h l i = Some (fst <$> node_at ns i).
Proof.
  intros Hr Hi. unfold listIndex, node_at. rewrite (repr_len _ _ _ Hr). unfold zlen. rewrite Nat2Z.id.
  destruct (i <? 0) eqn:E; zb.
  - destruct (i =? INT64_MIN) eqn:E'; zb; [lia|]. rewrite (repr_tail _ _ _ Hr). apply (index_backward h l ns []); [by rewrite app_nil_r|lia|lia].
  - rewrite (repr_head _ _ _ Hr). apply (index_forward h l [] ns); [done|lia|lia].
Qed.

(** ** Rotations *)

Lemma same_but_both (L M : list address) h1 h2 h3 : same_but L h1 h2 → same_but M h2 h3 → same_but (L ++ M) h1 h3.
Proof. intros H1 H2 a Ha. apply not_elem_of_app in Ha as [? ?]. by rewrite H2, H1. Qed.

Lemma listRotateTailToHead_spec h l ns : repr h l ns →
  ∃ h' l', listRotateTailToHead h l = Some (h', l') ∧ same_methods l l' ∧ same_but ns.*1 h h' ∧
    repr h' l' (match list.last ns with Some x => x :: removelast ns | None => [] end).
Proof.
  intros Hr. pose proof Hr as [Hh Ht Hl Hs Hn]. unfold listRotateTailToHead. destruct (len l <=? 1) eqn:E; zb.
  { exists h, l. split_and!; [done|done|done|]. destruct ns as [|x [|y ns]]; [done|done|].
    rewrite Hl, !zlen_cons in E. pose proof (zlen_nonneg ns). lia. }
  destruct ns as [|[t v] A _] using rev_ind; [by rewrite Hl in E|]. rewrite last_snoc, removelast_last.
  rewrite Ht, last_of_snoc. cbn [mbind option_bind]. rewrite (ad_repr_lookup _ _ _ _ _ _ Hr). cbn [mbind option_bind prev].
  destruct (last_of_cases None A) as [[-> _]|(A' & n & u & EA & EL)]; [by rewrite Hl in E|]. rewrite EL. cbn [mbind option_bind].
  apply nodup_middle in Hn as [Hna Hn]. rewrite app_nil_r in *. apply seg_app in Hs as [HA [Et _]].
  destruct (set_next_last h None A _ None HA Hn) as (h1 & E1 & HA1 & S1 & _). rewrite whole_last, EL in E1. cbn [set_next_of] in E1.
  rewrite E1. cbn [mbind option_bind]. assert (head l = first_of A None) as EH.
  { rewrite Hh. by destruct A as [|[? ?] ?]; [destruct A'|]. }
  destruct (set_prev_first h1 None (Some t) A None HA1 Hn) as (h2 & E2 & HA2 & S2 & _). rewrite <-EH in E2.
  assert (∃ hd, head l = Some hd) as [hd Ehd] by (rewrite EH; destruct A as [|[? ?] ?]; [by destruct A'|by eexists]).
  rewrite Ehd in *. cbn [mbind option_bind set_prev_of] in *. rewrite E2. cbn [mbind option_bind].
  assert (h2 !! t = Some (mkLinked (last_of None A) None v)) as Et2 by by rewrite S2, S1.
  rewrite (set_prev_at _ _ _ _ Et2). cbn [mbind option_bind next value].
  rewrite (set_next_at _ t (mkLinked None None v)) by apply lookup_insert_eq. cbn [mbind option_bind prev value]. rewrite insert_insert_eq.
  eexists _, _. split; [done|]. split_and!; [done| |constructor; simpl].
  - eapply same_but_weaken; [eapply same_but_both; [eapply same_but_both; [exact S1|exact S2]|apply same_but_insert]|].
    rewrite fmap_app. simpl. clear. set_solver.
  - done.
  - rewrite <-EL. by destruct A as [|[? ?] ?]; [destruct A'|].
  - rewrite Hl, zlen_app, !zlen_cons, (@zlen_nil (address * V)). lia.
  - rewrite lookup_insert_eq, <-EH. split; [done|]. by apply seg_insert.
  - by constructor.
Qed.

Lemma listRotateHeadToTail_spec h l ns : repr h l ns →
  ∃ h' l', listRotateHeadToTail h l = Some (h', l') ∧ same_methods l l' ∧ same_but ns.*1 h h' ∧
    repr h' l' (match ns with x :: ns' => ns' ++ [x] | [] => [] end).
Proof.
  intros Hr. pose proof Hr as [Hh Ht Hl Hs Hn]. unfold listRotateHeadToTail. destruct (len l <=? 1) eqn:E; zb.
  { exists h, l. split_and!; [done|done|done|]. destruct ns as [|x [|y ns]]; [done|done|].
    rewrite Hl, !zlen_cons in E. pose proof (zlen_nonneg ns). lia. }
  destruct ns as [|[t v] B]; [by rewrite Hl in E|]. rewrite Hh. cbn [mbind option_bind first_of].
  destruct Hs as [Et HB]. apply list.NoDup_cons in Hn as [Hna Hn]. simpl in Hna. rewrite Et. cbn [mbind option_bind next].
  destruct B as [|[n u] B']; [by rewrite Hl in E|]. set (B := (n, u) :: B') in *. change (first_of B None) with (Some n). cbn [mbind option_bind].
  destruct (set_prev_first h (Some t) None B None HB Hn) as (h1 & E1 & HB1 & S1 & _). cbn [first_of set_prev_of B] in E1. fold B in E1.
  rewrite E1. cbn [mbind option_bind]. assert (tail l = last_of None B) as ET by by rewrite Ht.
  destruct (set_next_last h1 None B _ (Some t) HB1 Hn) as (h2 & E2 & HB2 & S2 & _). rewrite whole_last, <-ET in E2.
  destruct (last_of_cases None B) as [[? _]|(B2 & m & w & EB & EL)]; [done|]. rewrite ET, EL in *. cbn [mbind option_bind set_next_of] in *.
  rewrite E2. cbn [mbind option_bind].
  change (first_of B None) with (Some n) in Et. assert (h2 !! t = Some (mkLinked None (Some n) v)) as Et2 by by rewrite S2, S1.
  rewrite (set_next_at _ _ _ _ Et2). cbn [mbind option_bind prev value].
  rewrite (set_prev_at _ t (mkLinked None None v)) by apply lookup_insert_eq. cbn [mbind option_bind next value]. rewrite insert_insert_eq.
  eexists _, _. split; [done|]. split_and!; [done| |constructor; cbn [head tail len set_ends]].
  - eapply same_but_weaken; [eapply same_but_both; [eapply same_but_both; [exact S1|exact S2]|apply same_but_insert]|].
    rewrite fmap_cons. simpl. clear. set_solver.
  - done.
  - by rewrite last_of_snoc.
  - rewrite Hl, zlen_app, !zlen_cons, (@zlen_nil (address * V)). lia.
  - apply (seg_app _ _ B [(t, v)] None). rewrite EL. cbn [seg first_of]. rewrite lookup_insert_eq. split; [|done]. by apply seg_insert.
  - rewrite fmap_app. apply list.NoDup_app. split_and!; [done| |apply NoDup_singleton].
    intros x Hx E'. apply list_elem_of_singleton in E'. simpl in E'. by subst x.
Qed.

(** ** Joining *)

Lemma listJoin_spec h l o ns ms : repr h l ns → repr h o ms → (∀ a, a ∈ ns.*1 → a ∉ ms.*1) →
  ∃ h' l' o', listJoin h l o = Some (h', l', o') ∧ repr h' l' (ns ++ ms) ∧ repr h' o' [] ∧
    same_methods l l' ∧ same_methods o o' ∧ same_but (ns ++ ms).*1 h h'.
Proof.
  intros Hr Ho Hd. pose proof Hr as [Hh Ht Hl Hs Hn]. pose proof Ho as [Hoh Hot Hol Hos Hon].
  unfold listJoin. destruct (len o =? 0) eqn:E; zb.
  { destruct (repr_empty _ _ _ Ho E) as (-> & _ & _). exists h, l, o. rewrite app_nil_r. by split_and!. }
  destruct (set_prev_first h None (last_of None ns) ms None Hos Hon) as (h1 & E1 & HB1 & S1 & _).
  assert (∃ m u ms', ms = (m, u) :: ms') as (m & u & ms' & Ems).
  { destruct ms as [|[m u] ms']; [by rewrite Hol in E|by eexists _, _, _]. }
  assert (first_of ms None = Some m) as EF by by rewrite Ems. rewrite Hoh, EF in *. cbn [mbind option_bind set_prev_of] in *.
  rewrite Ht, E1. cbn [mbind option_bind].
  destruct (set_next_last h1 None ns None (Some m)) as (h2 & E2 & HA2 & S2 & _); [by eapply (seg_same_but _ h h1); [exact S1|exact Hd|exact Hs]|done|].
  rewrite whole_last in E2.
  set (l1 := match last_of None ns with Some _ => l | None => set_ends l (Some m) (tail l) (len l) end).
  assert (match last_of None ns with
    | Some tl => h ← set_next h1 tl (Some m); Some (h, l)
    | None => Some (h1, set_ends l (Some m) (last_of None ns) (len l))
    end = Some (h2, l1)) as ->.
  { unfold l1. destruct (last_of None ns) as [tl|]; simpl in E2; [by rewrite E2|]. injection E2 as <-. by rewrite Ht. }
  cbn [mbind option_bind]. eexists _, _, _. split; [done|]. split_and!.
  - constructor; cbn [head tail len set_ends].
    + rewrite first_of_app, EF. unfold l1. destruct (last_of_cases None ns) as [[-> ->]|(A & c & w & -> & ->)]; [done|].
      cbn [set_ends head]. rewrite Hh. by destruct A as [|[? ?] ?].
    + rewrite Hot, last_of_app, Ems. done.
    + rewrite zlen_app, <-Hl, <-Hol. f_equal. unfold l1. by destruct (last_of None ns).
    + apply seg_app. rewrite EF. split; [done|]. eapply seg_same_but; [exact S2| |exact HB1]. intros a Ha Hin. by apply (Hd a).
    + rewrite fmap_app. by apply list.NoDup_app.
  - by constructor; [..|constructor].
  - unfold l1. by destruct (last_of None ns).
  - done.
  - rewrite fmap_app. eapply same_but_weaken; [eapply same_but_both; [exact S1|exact S2]|]. clear. set_solver.
Qed.

(** ** Copies *)

Definition dup_value l (v : V) : option V := match dup l with Some f => f v | None => Some v end.

(** What listDup is doing: [cs] is the copy so far, in cells that are not of [h0]. *)
Record copying (h0 h : heap) copy cs : Prop := {
  cp_repr : repr h copy cs;
  cp_same : same_but cs.*1 h0 h;
  cp_fresh : ∀ a, a ∈ cs.*1 → h0 !! a = None
}.

(** Releasing the copy gives the heap back. *)
Lemma release_copy h0 h copy cs : copying h0 h copy cs →
  listRelease h (Some copy) = Some (h0, if free copy then cs.*2 else []).
Proof.
  intros [Hr Hs Hf]. destruct (listEmpty_spec h copy cs Hr) as (h' & l' & E & _ & _ & S & Hd).
  unfold listRelease. rewrite E. cbn [mbind option_bind]. do 2 f_equal. apply map_eq. intros a.
  destruct (decide (a ∈ cs.*1)) as [Ha|Ha]; [by rewrite Hd, Hf|]. by rewrite S, Hs.
Qed.

Lemma dup_node_spec h0 h copy cs v : copying h0 h copy cs →
  ∃ h' r freed, dup_node zmalloc h copy v = Some (h', r, freed) ∧
    match r with
    | Some copy' => ∃ a w, copying h0 h' copy' (cs ++ [(a, w)]) ∧ dup_value copy v = Some w ∧ freed = [] ∧ same_methods copy copy'
    | None => h' = h0 ∧ ∃ ws, freed ≡ₚ (if free copy then cs.*2 ++ ws else []) ∧
        match dup_value copy v with Some w => ws = [w] | None => ws = [] end
    end.
Proof using Hmalloc.
  intros Hc. unfold dup_node. fold (dup_value copy v). destruct (dup_value copy v) as [w|] eqn:Ew.
  2:{ rewrite (release_copy _ _ _ _ Hc). eexists _, None, _. split; [done|]. split; [done|]. exists [].
      split; [|done]. rewrite app_nil_r. done. }
  pose proof (listAddNodeTail_spec h copy cs w (cp_repr _ _ _ _ Hc)) as Ha. unfold added in Ha.
  destruct (listAddNodeTail zmalloc h copy w) as [[[h' copy']|]|]; [| |done]; cbn [mbind option_bind].
  - destruct Ha as (a & Ha & Hr & Hm & S). destruct Hc as [Hr0 Hs Hf]. assert (a ∉ cs.*1) as Hna.
    { intros Hin. destruct (seg_elem _ _ _ _ _ (repr_seg _ _ _ Hr0) Hin) as [? E]. by rewrite Ha in E. }
    eexists _, (Some copy'), []. split; [done|]. exists a, w. split; [|done]. constructor; [done| |].
    + intros b Hb. rewrite fmap_app in Hb. apply not_elem_of_app in Hb as [Hb1 Hb2]. simpl in Hb2.
      rewrite S; [by apply Hs|]. apply not_elem_of_cons. split; [|done]. intros ->. apply Hb2. by left.
    + intros b. rewrite fmap_app. intros [Hb|Hb]%elem_of_app; [by apply Hf|]. apply list_elem_of_singleton in Hb. simpl in Hb. subst b.
      by rewrite <-Ha, Hs.
  - rewrite (release_copy _ _ _ _ Hc). eexists _, None, _. split; [done|]. split; [done|]. exists [w]. split; [|done].
    unfold free_value. destruct (free copy); [|done]. apply Permutation_app_comm.
Qed.

Lemma dup_loop_spec h0 orig A B h copy cs : repr h0 orig (A ++ B) → copying h0 h copy cs →
  ∃ h' r freed, dup_loop zmalloc (S (length B)) h (mkIter (first_of B None) AL_START_HEAD) copy = Some (h', r, freed) ∧
    match r with
    | Some copy' => ∃ cs', copying h0 h' copy' (cs ++ cs') ∧ Forall2 (λ x y, dup_value copy x = Some y) B.*2 cs'.*2 ∧ freed = [] ∧
        same_methods copy copy'
    | None => h' = h0 ∧ ∃ ws vs, vs `prefix_of` B.*2 ∧ Forall2 (λ x y, dup_value copy x = Some y) vs ws ∧
        freed ≡ₚ (if free copy then cs.*2 ++ ws else [])
    end.
Proof using Hmalloc.
  revert A h copy cs. induction B as [|[b v] B IH]; intros A h copy cs Ho Hc.
  { simpl. eexists h, (Some copy), []. split; [done|]. exists []. rewrite app_nil_r. by split_and!; [|constructor|..]. }
  assert (repr h orig (A ++ (b, v) :: B)) as Ho'.
  { eapply repr_agree; [|done]. intros a Ha. apply Hc. intros Hin. pose proof (cp_fresh _ _ _ _ Hc a Hin) as E.
    destruct (seg_elem _ _ _ _ _ (repr_seg _ _ _ Ho) Ha) as [? E']. congruence. }
  cbn [length]. remember (S (length B)) as fuel eqn:Ef. cbn [dup_loop].
  rewrite (listNext_forward _ _ _ _ Ho'). cbn [mbind option_bind list.head fmap option_fmap option_map fst tl].
  rewrite (ad_repr_lookup _ _ _ _ _ _ Ho'). cbn [mbind option_bind value]. subst fuel.
  destruct (dup_node_spec h0 h copy cs v Hc) as (h1 & r1 & freed1 & -> & H1). cbn [mbind option_bind]. destruct r1 as [copy1|].
  - destruct H1 as (a & w & Hc1 & Ew & -> & Hm).
    destruct (IH (A ++ [(b, v)]) h1 copy1 _ ltac:(by rewrite <-app_assoc) Hc1) as (h2 & r2 & freed2 & -> & H2).
    eexists _, _, _. split; [done|]. assert (∀ x, dup_value copy1 x = dup_value copy x) as Hdv.
    { intros x. unfold dup_value. by destruct Hm as (-> & _). }
    destruct r2 as [copy2|].
    + destruct H2 as (cs' & Hc2 & HF & -> & Hm2). exists ((a, w) :: cs'). rewrite <-app_assoc in Hc2. split_and!; [done| |done|].
      * simpl. constructor; [done|]. eapply list.Forall2_impl; [exact HF|]. intros x y. simpl. by rewrite Hdv.
      * destruct Hm as (? & ? & ?), Hm2 as (? & ? & ?). split_and!; congruence.
    + destruct H2 as (-> & ws & vs & Hp & HF & Hfr). split; [done|]. exists (w :: ws), (v :: vs). split_and!.
      * simpl. by apply prefix_cons.
      * constructor; [done|]. eapply list.Forall2_impl; [exact HF|]. intros x y. simpl. by rewrite Hdv.
      * destruct Hm as (_ & Hfree & _). rewrite Hfree in Hfr. destruct (free copy); [|done]. rewrite Hfr, fmap_app, <-app_assoc. done.
  - destruct H1 as (-> & ws & Hfr & Hws). eexists _, None, _. split; [done|]. split; [done|].
    destruct (dup_value copy v) as [w|] eqn:Ew; subst ws.
    + exists [w], [v]. split_and!; [simpl; apply prefix_cons, prefix_nil|by constructor|done].
    + exists [], []. split_and!; [apply prefix_nil|done|done].
Qed.

Lemma listDup_spec mem h orig ns : repr h orig ns →
  ∃ h' r freed, listDup zmalloc mem h orig = Some (h', r, freed) ∧
    match r with
    | Some copy => ∃ cs, repr h' copy cs ∧ Forall2 (λ x y, dup_value orig x = Some y) ns.*2 cs.*2 ∧ freed = [] ∧
        same_methods orig copy ∧ same_but cs.*1 h h' ∧ ∀ a, a ∈ cs.*1 → h !! a = None
    | None => h' = h ∧ ∃ ws vs, vs `prefix_of` ns.*2 ∧ Forall2 (λ x y, dup_value orig x = Some y) vs ws ∧
        freed ≡ₚ (if free orig then ws else [])
    end.
Proof using Hmalloc.
  intros Hr. unfold listDup, listRewind. destruct mem; cbn [listCreate].
  2:{ eexists _, None, _. split; [done|]. split; [done|]. exists [], []. split_and!; [apply prefix_nil|done|by destruct (free orig)]. }
  cbn [head tail len]. set (copy := mkList None None (dup orig) (free orig) (match_ orig) 0).
  rewrite (repr_len _ _ _ Hr), (repr_head _ _ _ Hr). unfold zlen. rewrite Nat2Z.id.
  destruct (dup_loop_spec h orig [] ns h copy [] Hr) as (h' & r & freed & -> & H).
  { constructor; [by constructor; [..|constructor]|done|]. intros a Ha. by apply elem_of_nil in Ha. }
  eexists _, _, _. split; [done|]. destruct r as [copy'|].
  - destruct H as (cs & [? ? ?] & HF & -> & Hm). simpl in *. by exists cs.
  - destruct H as (-> & ws & vs & ? & ? & ?). split; [done|]. by exists ws, vs.
Qed.
End Proofs.
End AdlistProofs.
