(* ===== verification/AdlistHistory.v ===== *)
(** * Doubly linked lists: histories

    Any sequence of operations on a new list acts on a list of values, returns what
    the list says, frees exactly the values removed, and neither touches the rest of
    the heap nor leaks a node. *)

From stdpp Require Import gmap.
From S2P Require Import Prelude Linked Adlist AdlistProofs.

Module AdlistHistory.
Import Linked Adlist AdlistProofs.

Section History.
Context {V : Type} `{EqDecision V}.
Abbreviation heap := (gmap address (linked V)).
Abbreviation adlist := (adlist V).
Context (zmalloc : heap → option address) (Hmalloc : ∀ h a, zmalloc h = Some a → h !! a = None).

(** Positions are found with listIndex, keys with listSearchKey, as the callers do. *)
Inductive list_op :=
  | AddHead (v : V) | AddTail (v : V)
  | InsertAt (i : Z) (v : V) (after : bool)
  | DelAt (i : Z) | DelKey (key : V)
  | IndexOf (i : Z)
  | RotateTailToHead | RotateHeadToTail
  | EmptyList.

(** Whether there was memory, or the value of the node found. *)
Inductive list_reply := Done (ok : bool) | Found (v : option V).

Definition added_reply (h : heap) (l : adlist) (r : option (option (heap * adlist))) : option (heap * adlist * list_reply * list V) :=
  r ← r; Some (match r with Some (h, l) => (h, l, Done true, []) | None => (h, l, Done false, []) end).

Definition value_of (h : heap) (a : option address) : option (option V) :=
  match a with Some a => n ← h !! a; Some (Some (value n)) | None => Some None end.

Definition del_found (h : heap) (l : adlist) (a : option address) : option (heap * adlist * list_reply * list V) :=
  v ← value_of h a;
  match a with
  | Some a => '(h, l, freed) ← listDelNode h l a; Some (h, l, Found v, freed)
  | None => Some (h, l, Found v, [])
  end.

Definition list_exec (h : heap) (l : adlist) (op : list_op) : option (heap * adlist * list_reply * list V) :=
  match op with
  | AddHead v => added_reply h l (listAddNodeHead zmalloc h l v)
  | AddTail v => added_reply h l (listAddNodeTail zmalloc h l v)
  | InsertAt i v after =>
      a ← listIndex h l i;
      match a with
      | Some a => added_reply h l (listInsertNode zmalloc h l a v after)
      | None => Some (h, l, Done false, [])
      end
  | DelAt i => a ← listIndex h l i; del_found h l a
  | DelKey key => a ← listSearchKey h l key; del_found h l a
  | IndexOf i => a ← listIndex h l i; v ← value_of h a; Some (h, l, Found v, [])
  | RotateTailToHead => '(h, l) ← listRotateTailToHead h l; Some (h, l, Done true, [])
  | RotateHeadToTail => '(h, l) ← listRotateHeadToTail h l; Some (h, l, Done true, [])
  | EmptyList => '(h, l, freed) ← listEmpty h l; Some (h, l, Done true, freed)
  end.

Fixpoint list_run (h : heap) (l : adlist) (ops : list list_op) : option (heap * adlist * list list_reply * list V) :=
  match ops with
  | [] => Some (h, l, [], [])
  | op :: ops =>
      '(h, l, r, freed) ← list_exec h l op;
      '(h, l, rs, freed') ← list_run h l ops;
      Some (h, l, r :: rs, freed ++ freed')
  end.

(** ** On a list of values *)

(** The place of an index from either end, of a key. *)
Definition place (vs : list V) (i : Z) : option nat :=
  let j := if i <? 0 then zlen vs + i else i in
  if (0 <=? j) && (j <? zlen vs) then Some (Z.to_nat j) else None.

Definition place_key (l : adlist) (vs : list V) (key : V) : option nat := fst <$> list_find (λ v, matches l v key = true) vs.

Definition removed_at (vs : list V) (j : option nat) : list V := match j with Some j => delete j vs | None => vs end.
Definition value_at (vs : list V) (j : option nat) : option V := j ← j; vs !! j.

(** The reply may be that there is no memory; then nothing happened. *)
Definition op_step (l : adlist) (vs : list V) (op : list_op) (r : list_reply) (vs' : list V) (freed : list V) : Prop :=
  let gone j := r = Found (value_at vs j) ∧ vs' = removed_at vs j ∧
    freed = if free l then option_list (value_at vs j) else [] in
  match op with
  | AddHead v => freed = [] ∧ (r = Done true ∧ vs' = v :: vs ∨ r = Done false ∧ vs' = vs)
  | AddTail v => freed = [] ∧ (r = Done true ∧ vs' = vs ++ [v] ∨ r = Done false ∧ vs' = vs)
  | InsertAt i v after => freed = [] ∧
      ((∃ j, place vs i = Some j ∧ r = Done true ∧
          vs' = let k := if after then S j else j in take k vs ++ v :: drop k vs) ∨ r = Done false ∧ vs' = vs)
  | DelAt i => gone (place vs i)
  | DelKey key => gone (place_key l vs key)
  | IndexOf i => r = Found (value_at vs (place vs i)) ∧ vs' = vs ∧ freed = []
  | RotateTailToHead => r = Done true ∧ freed = [] ∧ vs' = match list.last vs with Some x => x :: removelast vs | None => [] end
  | RotateHeadToTail => r = Done true ∧ freed = [] ∧ vs' = match vs with x :: vs => vs ++ [x] | [] => [] end
  | EmptyList => r = Done true ∧ vs' = [] ∧ freed = if free l then vs else []
  end.

Fixpoint list_steps (l : adlist) (vs : list V) (ops : list list_op) (rs : list list_reply) (vs' : list V) (freed : list V) : Prop :=
  match ops, rs with
  | [], [] => vs' = vs ∧ freed = []
  | op :: ops, r :: rs => ∃ vs1 f1 f2, op_step l vs op r vs1 f1 ∧ list_steps l vs1 ops rs vs' f2 ∧ freed = f1 ++ f2
  | _, _ => False
  end.

(** The negation of the least [long] is undefined. *)
Definition op_ok (op : list_op) : Prop :=
  match op with InsertAt i _ _ | DelAt i | IndexOf i => INT64_MIN < i | _ => True end.

(** ** Proofs *)

(** The heap is [h0] with the nodes of the list in cells that were free. *)
Definition owns (h0 h : heap) (l : adlist) (vs : list V) : Prop := ∃ ns, copying h0 h l ns ∧ ns.*2 = vs.

Lemma node_at_place (ns : list (address * V)) i : node_at ns i = (place ns.*2 i ≫= λ j, ns !! j).
Proof.
  unfold node_at, place. rewrite zlen_fmap. pose proof (zlen_nonneg ns). destruct (i <? 0) eqn:E; zb.
  - destruct (0 <=? zlen ns + i) eqn:E2; zb; cbn [andb].
    + rewrite (proj2 (Z.ltb_lt _ _)) by lia. cbn [mbind option_bind]. unfold zlen in *.
      rewrite reverse_lookup by lia. f_equal. lia.
    + apply lookup_ge_None_2. rewrite length_reverse. unfold zlen in *. lia.
  - rewrite (proj2 (Z.leb_le 0 i)) by done. cbn [andb]. destruct (i <? zlen ns) eqn:E2; zb; [done|].
    apply lookup_ge_None_2. unfold zlen in *. lia.
Qed.

Lemma find_place (l : adlist) (ns : list (address * V)) key :
  List.find (λ x, matches l x.2 key) ns = (place_key l ns.*2 key ≫= λ j, ns !! j).
Proof.
  unfold place_key. induction ns as [|[a v] ns IH]; [done|]. simpl. destruct (matches l v key) eqn:E.
  - by rewrite decide_True.
  - rewrite decide_False by done. rewrite IH. change (list_fmap _ _ snd ns) with (ns.*2).
    by destruct (list_find (λ v, matches l v key = true) ns.*2) as [[j w]|].
Qed.

Lemma owned_value (h0 h : heap) l ns j : copying h0 h l ns →
  value_of h (fst <$> (j ≫= λ j, ns !! j)) = Some (value_at ns.*2 j).
Proof.
  intros Hc. destruct j as [j|]; [|done]. simpl. rewrite list_lookup_fmap. destruct (ns !! j) as [[a v]|] eqn:E; [|done].
  apply list_elem_of_split_length in E as (A & B & -> & _). simpl. by rewrite (ad_repr_lookup _ _ _ _ _ _ (cp_repr _ _ _ _ Hc)).
Qed.

Lemma ad_split_at (ns : list (address * V)) j a v : ns !! j = Some (a, v) →
  ns = take j ns ++ (a, v) :: drop (S j) ns.
Proof. intros E. symmetry. by apply take_drop_middle. Qed.

Lemma del_found_spec (h0 h : heap) l ns j : copying h0 h l ns → (∀ i, j = Some i → (i < length ns)%nat) →
  ∃ h' l' freed, del_found h l (fst <$> (j ≫= λ j, ns !! j)) = Some (h', l', Found (value_at ns.*2 j), freed) ∧
    owns h0 h' l' (removed_at ns.*2 j) ∧ same_methods l l' ∧
    freed = if free l then option_list (value_at ns.*2 j) else [].
Proof.
  intros Hc Hj. unfold del_found. rewrite (owned_value _ _ _ _ _ Hc). cbn [mbind option_bind]. destruct j as [j|]; simpl.
  2:{ exists h, l, []. split; [done|]. split; [by exists ns|]. split; [done|]. by destruct (free l). }
  destruct (lookup_lt_is_Some_2 ns j (Hj j eq_refl)) as [[a v] E]. rewrite list_lookup_fmap, E. simpl.
  pose proof (ad_split_at _ _ _ _ E) as Es.
  assert (delete j ns = take j ns ++ drop (S j) ns) as Edel by apply delete_take_drop.
  set (A := take j ns) in *. set (B := drop (S j) ns) in *. destruct Hc as [Hr Hs Hf]. rewrite Es in Hr, Hs, Hf.
  destruct (listDelNode_spec h l A a v B Hr) as (h' & l' & -> & Hr' & Hm & Ha & S). cbn [mbind option_bind].
  exists h', l', (if free l then [v] else []). split; [done|]. split; [|by split].
  exists (A ++ B). split; [|rewrite <-Edel; apply list_fmap_delete]. constructor; [done| |].
  - intros b Hb. destruct (decide (b = a)) as [->|Hne].
    + rewrite Ha. symmetry. apply Hf. rewrite !fmap_app, fmap_cons. set_solver.
    + assert (b ∉ (A ++ (a, v) :: B).*1) as Hb' by (rewrite fmap_app, fmap_cons in *; set_solver). by rewrite S, Hs.
  - intros b Hb. apply Hf. rewrite !fmap_app, fmap_cons in *. set_solver.
Qed.

Lemma place_in_range (ns : list (address * V)) i j : place ns.*2 i = Some j → (j < length ns)%nat.
Proof.
  unfold place. rewrite zlen_fmap. destruct ((0 <=? _) && _) eqn:E; [|done]. intros [= <-]. zb. destruct E. zb. unfold zlen in *. lia.
Qed.

Lemma place_key_in_range (l : adlist) (ns : list (address * V)) key j : place_key l ns.*2 key = Some j → (j < length ns)%nat.
Proof.
  unfold place_key. destruct (list_find _ ns.*2) as [[i w]|] eqn:E; [|done]. intros [= <-].
  apply list_find_Some in E as [E _]. apply lookup_lt_Some in E. by rewrite length_fmap in E.
Qed.

Lemma added_owned (h0 h : heap) l ns (g : address → list (address * V)) (vs' : list V) r :
  copying h0 h l ns → added zmalloc h l ns g r → (∀ a, (g a).*2 = vs' ∧ (g a).*1 ≡ₚ a :: ns.*1) →
  ∃ h' l' ok, added_reply h l r = Some (h', l', Done ok, []) ∧ same_methods l l' ∧
    owns h0 h' l' (if ok : bool then vs' else ns.*2).
Proof.
  intros [Hr Hs Hf] Ha Hg. unfold added_reply. destruct r as [[[h' l']|]|]; [| |done]; cbn [mbind option_bind].
  2:{ exists h, l, false. split; [done|]. split; [done|]. by exists ns. }
  destruct Ha as (a & Ha & Hr' & Hm & S). destruct (Hg a) as [Hv Hp]. exists h', l', true. split; [done|]. split; [done|].
  exists (g a). split; [|done]. assert (a ∉ ns.*1) as Hna.
  { intros Hin. destruct (seg_elem _ _ _ _ _ (repr_seg _ _ _ Hr) Hin) as [? E]. by rewrite Ha in E. }
  constructor; [done| |].
  - intros b Hb. rewrite Hp in Hb. rewrite S by done. apply not_elem_of_cons in Hb as [_ Hb]. by apply Hs.
  - intros b. rewrite Hp. intros [->|Hb]%elem_of_cons; [|by apply Hf]. by rewrite <-Ha, Hs.
Qed.

Lemma same_owner (h0 h h' : heap) l l' ns ns' : copying h0 h l ns → repr h' l' ns' → same_but ns.*1 h h' → ns'.*1 ≡ₚ ns.*1 →
  copying h0 h' l' ns'.
Proof.
  intros [Hr Hs Hf] Hr' S Hp. constructor; [done| |].
  - intros b Hb. rewrite Hp in Hb. by rewrite S, Hs.
  - intros b Hb. rewrite Hp in Hb. by apply Hf.
Qed.

Lemma last_removelast (ns : list (address * V)) :
  (match list.last ns with Some x => x :: removelast ns | None => [] end).*2 =
    (match list.last ns.*2 with Some x => x :: removelast ns.*2 | None => [] end) ∧
  (match list.last ns with Some x => x :: removelast ns | None => [] end).*1 ≡ₚ ns.*1.
Proof.
  destruct ns as [|x ns _] using rev_ind; [done|]. rewrite last_snoc, removelast_last, !fmap_app.
  change ([x].*2) with [x.2]. change ([x].*1) with [x.1]. rewrite last_snoc, removelast_last. split; [done|]. apply Permutation_cons_append.
Qed.

Lemma list_exec_spec (h0 h : heap) l vs op : owns h0 h l vs → op_ok op →
  ∃ h' l' r vs' freed, list_exec h l op = Some (h', l', r, freed) ∧ op_step l vs op r vs' freed ∧ owns h0 h' l' vs' ∧ same_methods l l'.
Proof using Hmalloc.
  intros (ns & Hc & <-) Hok. pose proof Hc as [Hr _ _]. destruct op as [v|v|i v after|i|key|i| | |]; cbn [list_exec op_step op_ok] in *.
  - destruct (added_owned h0 h l ns _ (v :: ns.*2) _ Hc (listAddNodeHead_spec zmalloc Hmalloc h l ns v Hr)) as (h' & l' & ok & -> & Hm & Ho);
      [done|]. exists h', l', (Done ok). eexists _, _. split; [done|]. split; [|by split]. split; [done|]. destruct ok; [by left|by right].
  - destruct (added_owned h0 h l ns _ (ns.*2 ++ [v]) _ Hc (listAddNodeTail_spec zmalloc Hmalloc h l ns v Hr)) as (h' & l' & ok & -> & Hm & Ho).
    { intros a. rewrite !fmap_app. split; [done|]. symmetry. apply Permutation_cons_append. }
    exists h', l', (Done ok). eexists _, _. split; [done|]. split; [|by split]. split; [done|]. destruct ok; [by left|by right].
  - rewrite (listIndex_spec h l ns i Hr Hok), node_at_place. cbn [mbind option_bind].
    destruct (place ns.*2 i) as [j|] eqn:Ep; simpl.
    2:{ eexists h, l, _, _, _. split; [done|]. split; [split; [done|by right]|]. split; [by exists ns|done]. }
    destruct (lookup_lt_is_Some_2 ns j (place_in_range _ _ _ Ep)) as [[b w] E]. rewrite E. simpl.
    pose proof (ad_split_at _ _ _ _ E) as Es. set (A := take j ns) in *. set (B := drop (S j) ns) in *.
    assert (length A = j) as HA by (apply length_take_le; apply lookup_lt_Some in E; lia). rewrite Es in Hr, Hc.
    destruct (added_owned h0 h l (A ++ (b, w) :: B) _ (let k := if after then S j else j in take k ns.*2 ++ v :: drop k ns.*2) _ Hc
      (listInsertNode_spec zmalloc Hmalloc h l A b w B v after Hr)) as (h' & l' & ok & -> & Hm & Ho).
    { intros a. rewrite Es, !fmap_app, fmap_cons. cbv zeta. assert (length A.*2 = j) as HA2 by by rewrite length_fmap. simpl snd. simpl fst. destruct after.
      - replace (A.*2 ++ w :: B.*2) with ((A.*2 ++ [w]) ++ B.*2) by by rewrite <-app_assoc.
        rewrite take_app_length', drop_app_length' by (rewrite length_app; simpl; lia). rewrite !fmap_app, !fmap_cons, <-app_assoc. simpl.
        split; [done|]. solve_Permutation.
      - rewrite take_app_length', drop_app_length' by lia. rewrite !fmap_app, !fmap_cons. simpl. split; [done|]. solve_Permutation. }
    exists h', l', (Done ok). eexists _, _. split; [done|]. split; [|by split]. split; [done|].
    rewrite <-Es. destruct ok; [left; by exists j|by right].
  - rewrite (listIndex_spec h l ns i Hr Hok), node_at_place. cbn [mbind option_bind].
    destruct (del_found_spec h0 h l ns (place ns.*2 i) Hc) as (h' & l' & freed & -> & Ho & Hm & ->); [by intros j; apply place_in_range|].
    eexists _, _, _, _, _. by split_and!.
  - rewrite (listSearchKey_spec h l ns key Hr), find_place. cbn [mbind option_bind].
    destruct (del_found_spec h0 h l ns (place_key l ns.*2 key) Hc) as (h' & l' & freed & -> & Ho & Hm & ->);
      [by intros j; apply place_key_in_range|]. eexists _, _, _, _, _. by split_and!.
  - rewrite (listIndex_spec h l ns i Hr Hok), node_at_place. cbn [mbind option_bind]. rewrite (owned_value _ _ _ _ _ Hc). cbn [mbind option_bind].
    eexists h, l, _, _, _. split; [done|]. split; [done|]. split; [by exists ns|done].
  - destruct (listRotateTailToHead_spec h l ns Hr) as (h' & l' & -> & Hm & S & Hr'). cbn [mbind option_bind].
    destruct (last_removelast ns) as [E Hp]. eexists _, _, _, _, _. split; [done|]. split; [done|]. split; [|done].
    eexists. split; [by eapply same_owner|done].
  - destruct (listRotateHeadToTail_spec h l ns Hr) as (h' & l' & -> & Hm & S & Hr'). cbn [mbind option_bind].
    eexists _, _, _, _, _. split; [done|]. split; [done|]. split; [|done].
    eexists. split; [eapply same_owner; [done|done|done|]|]; destruct ns as [|x ns]; [done| |done|]; rewrite fmap_app; [|done].
    symmetry. apply Permutation_cons_append.
  - destruct (listEmpty_spec h l ns Hr) as (h' & l' & -> & Hr' & Hm & S & Hd). cbn [mbind option_bind].
    eexists _, _, _, _, _. split; [done|]. split; [done|]. split; [|done]. exists []. split; [|done]. constructor; [done| |].
    + intros b _. destruct (decide (b ∈ ns.*1)) as [Hb|Hb]; [rewrite Hd by done; symmetry; by apply Hc|]. rewrite S by done. by apply Hc.
    + intros b Hb. by apply elem_of_nil in Hb.
Qed.

Lemma op_step_methods (l l' : adlist) vs op r vs' freed : same_methods l l' → op_step l' vs op r vs' freed → op_step l vs op r vs' freed.
Proof. intros (_ & E1 & E2). destruct op; unfold op_step, place_key, matches; rewrite ?E1, ?E2; done. Qed.

Lemma steps_methods (l l' : adlist) ops : same_methods l l' → ∀ vs rs vs' freed, list_steps l' vs ops rs vs' freed → list_steps l vs ops rs vs' freed.
Proof.
  intros Hm. induction ops as [|op ops IH]; intros vs [|r rs] vs' freed; simpl; try done.
  intros (vs1 & f1 & f2 & H1 & H2 & ->). exists vs1, f1, f2. split_and!; [by eapply op_step_methods|by apply IH|done].
Qed.

Lemma list_run_spec (h0 : heap) ops : Forall op_ok ops → ∀ h l vs, owns h0 h l vs →
  ∃ h' l' rs vs' freed, list_run h l ops = Some (h', l', rs, freed) ∧ list_steps l vs ops rs vs' freed ∧ owns h0 h' l' vs' ∧ same_methods l l'.
Proof using Hmalloc.
  induction 1 as [|op ops Hok _ IH]; intros h l vs Ho; cbn [list_run].
  { exists h, l, [], vs, []. by split_and!. }
  destruct (list_exec_spec h0 h l vs op Ho Hok) as (h1 & l1 & r & vs1 & f1 & -> & Hs1 & Ho1 & Hm1). cbn [mbind option_bind].
  destruct (IH h1 l1 vs1 Ho1) as (h2 & l2 & rs & vs2 & f2 & -> & Hs2 & Ho2 & Hm2). cbn [mbind option_bind].
  eexists _, _, _, vs2, _. split; [done|]. split; [|split; [done|]].
  - exists vs1, f1, f2. split_and!; [done|by eapply steps_methods|done].
  - destruct Hm1 as (? & ? & ?), Hm2 as (? & ? & ?). split_and!; congruence.
Qed.

(** (C21) From a new list with any methods, any sequence of additions at both ends or
    next to an index, deletions by index or key, lookups, rotations and emptyings
    runs without following a dangling pointer, whether or not the allocator answers
    NULL, and acts on a list of values; the values removed are freed, each once and
    in order, and at the end the heap is the initial one with just the nodes of the
    list, in cells that were free. *)
Theorem adlist_refines_list (h0 : heap) (l0 : adlist) ops : Forall op_ok ops →
  head l0 = None → tail l0 = None → len l0 = 0 →
  ∃ h' l' rs vs freed, list_run h0 l0 ops = Some (h', l', rs, freed) ∧ list_steps l0 [] ops rs vs freed ∧ owns h0 h' l' vs.
Proof using Hmalloc.
  intros Hf Hh Ht Hl. destruct (list_run_spec h0 ops Hf h0 l0 []) as (h' & l' & rs & vs & freed & ? & ? & ? & _).
  - exists []. split; [|done]. constructor; [by constructor; [..|constructor]|done|]. intros a Ha. by apply elem_of_nil in Ha.
  - by exists h', l', rs, vs, freed.
Qed.

(** listDup copies the values with the dup method into new nodes and leaves the
    original alone; when the method or the allocator fails, NULL is returned, the
    heap is exactly as before, and what was freed is what had been copied. *)
Theorem listDup_correct mem (h h0 : heap) (orig : adlist) (vs : list V) : owns h0 h orig vs →
  ∃ h' r freed, listDup zmalloc mem h orig = Some (h', r, freed) ∧
    match r with
    | Some copy => ∃ ws, owns h h' copy ws ∧ Forall2 (λ x y, dup_value orig x = Some y) vs ws ∧ freed = []
    | None => h' = h ∧ ∃ us ws, us `prefix_of` vs ∧ Forall2 (λ x y, dup_value orig x = Some y) us ws ∧
        freed ≡ₚ (if free orig then ws else [])
    end.
Proof using Hmalloc.
  intros (ns & [Hr _ _] & <-). destruct (listDup_spec zmalloc Hmalloc mem h orig ns Hr) as (h' & r & freed & -> & H).
  eexists _, _, _. split; [done|]. destruct r as [copy|].
  - destruct H as (cs & Hrc & HF & -> & _ & S & Hfresh). exists cs.*2. split; [by exists cs|done].
  - destruct H as (-> & ws & us & ? & ? & ?). split; [done|]. by exists us, ws.
Qed.
End History.
End AdlistHistory.

(** * Doubly linked lists: a concrete history

    A list of integers with a free method and an allocator that runs out of cells;
    the theorems on histories and copies applied to it. *)

Module AdlistExamples.
Import Linked Adlist AdlistProofs AdlistHistory.

Abbreviation int_heap := (gmap address (linked Z)).

(** The first free cell among [limit]. *)
Definition alloc (limit : nat) (h : int_heap) : option address :=
  List.find (λ a, bool_decide (h !! a = None)) (Pos.of_succ_nat <$> seq 0 limit).

Lemma alloc_free limit h a : alloc limit h = Some a → h !! a = None.
Proof. intros E. apply List.find_some in E as [_ E]. by apply bool_decide_eq_true in E. Qed.

(** Doubling fails on 7; keys match up to sign. *)
Definition double (v : Z) : option Z := if v =? 7 then None else Some (2 * v).

Definition integers : adlist Z := mkList None None (Some double) true (Some (λ v key, Z.abs v =? Z.abs key)) 0.

Definition ops : list (list_op (V := Z)) :=
  [AddHead 1; AddTail 2; InsertAt (-1) 3 true; InsertAt 1 4 false; AddTail 5; AddHead 6; RotateTailToHead; DelKey (-2); RotateHeadToTail;
   DelAt (-3); IndexOf 1; IndexOf 9; AddHead 8; DelKey 44].

Example ops_run :
  (λ x, (x.1.2, x.2)) <$> list_run (alloc 5) ∅ integers ops =
  Some ([Done true; Done true; Done true; Done true; Done true; Done false; Done true; Found (Some 2); Done true;
         Found (Some 4); Found (Some 3); Found None; Done true; Found None], [2; 4]).
Proof. vm_compute. reflexivity. Qed.

Lemma adlist_refines_list_witness :
  ∃ h' l' rs vs freed, list_run (alloc 5) ∅ integers ops = Some (h', l', rs, freed) ∧
    list_steps integers [] ops rs vs freed ∧ owns ∅ h' l' vs.
Proof.
  apply (adlist_refines_list (alloc 5) (alloc_free 5) ∅ integers ops); [|reflexivity..].
  repeat constructor; vm_compute; reflexivity.
Defined.

(** Two nodes, the second of which cannot be copied: the copy of the first is freed. *)
Definition two_nodes : int_heap :=
  <[1%positive := mkLinked None (Some 2%positive) 3]> (<[2%positive := mkLinked (Some 1%positive) None 7]> ∅).

Definition two : adlist Z := mkList (Some 1%positive) (Some 2%positive) (Some double) true None 2.

Lemma two_owned : owns ∅ two_nodes two [3; 7].
Proof.
  exists [(1%positive, 3); (2%positive, 7)]. split; [|reflexivity]. constructor.
  - constructor; [reflexivity..|by vm_compute|]. apply (bool_decide_unpack _). vm_compute. exact I.
  - intros a Ha. unfold two_nodes. rewrite !lookup_insert_ne; [done| |]; intros <-; apply Ha; set_solver.
  - intros a _. apply lookup_empty.
Qed.

Example two_dup : listDup (alloc 5) true two_nodes two = Some (two_nodes, None, [6]).
Proof. vm_compute. reflexivity. Qed.

Lemma listDup_correct_witness :
  ∃ h' r freed, listDup (alloc 5) true two_nodes two = Some (h', r, freed) ∧
    match r with
    | Some copy => ∃ ws, owns two_nodes h' copy ws ∧ Forall2 (λ x y, dup_value two x = Some y) [3; 7] ws ∧ freed = []
    | None => h' = two_nodes ∧ ∃ us ws, us `prefix_of` [3; 7] ∧ Forall2 (λ x y, dup_value two x = Some y) us ws ∧
        freed ≡ₚ (if free two then ws else [])
    end.
Proof. apply (listDup_correct (alloc 5) (alloc_free 5) true two_nodes ∅ two [3; 7] two_owned). Defined.
End AdlistExamples.
