(* ===== verification/Post.v ===== *)
(** * Postconditions of fallible computations

    [post m Q]: the computation [m] returns and its result satisfies [Q].  The rule for
    sequences lets a proof about a long chain of operations follow the code, one
    specification per call; [call H] applies the specification [H] to the first one. *)

From stdpp Require Import base option.

Module Post.

Definition post {A} (m : option A) (Q : A → Prop) : Prop := match m with Some x => Q x | None => False end.

Lemma post_ex {A} (m : option A) Q : post m Q ↔ ∃ x, m = Some x ∧ Q x.
Proof. destruct m as [x|]; simpl; split; [eauto|by intros (? & [= ->] & ?)|done|by intros (? & ? & _)]. Qed.

Lemma post_some {A} (m : option A) Q x : m = Some x → Q x → post m Q.
Proof. by intros ->. Qed.

Lemma post_mono {A} (m : option A) (Q Q' : A → Prop) : post m Q → (∀ x, Q x → Q' x) → post m Q'.
Proof. destruct m; simpl; auto. Qed.

Lemma post_bind {A B} (m : option A) (f : A → option B) Q : post m (λ x, post (f x) Q) → post (m ≫= f) Q.
Proof. by destruct m. Qed.

Lemma post_call {A B} (m : option A) (f : A → option B) P Q :
  post m P → (∀ x, P x → post (f x) Q) → post (m ≫= f) Q.
Proof. intros H Hf. apply post_bind. by eapply post_mono. Qed.

Lemma post_eq {A B} (m : option A) (f : A → option B) x Q : m = Some x → post (f x) Q → post (m ≫= f) Q.
Proof. by intros ->. Qed.

Lemma post_call2 {A B C} (m : option A) (f : A → option B) (g : B → option C) P Q :
  post (m ≫= f) P → (∀ x, P x → post (g x) Q) → post (m ≫= λ x, f x ≫= g) Q.
Proof. destruct m; simpl; [apply post_call|done]. Qed.
End Post.

(** The next operation is known: its result, or its specification. *)
Ltac next_is E := eapply Post.post_eq; [exact E || (rewrite E; reflexivity) || apply E|cbv beta].
Ltac call H := eapply Post.post_call; [apply H|cbv beta].
(** The next two. *)
Ltac call2 H := eapply Post.post_call2; [apply H|cbv beta].
