(* ===== verification/Quicklist.v ===== *)
(** * Quicklists ([src/redis-stable/src/quicklist.c], [quicklist.h])

    A doubly linked list of nodes, each holding one large element (a plain node) or a
    listpack (a packed node); the nodes further than [compress] from both ends may be
    compressed.  The nodes live in a heap of linked cells; the header is a record
    passed along, so that the pointers [iter->quicklist] and [entry->quicklist] have no
    counterpart.  The allocator never fails here ([zmalloc] aborts the server) and
    returns a fresh cell.  The pointer [zi] of an iterator is an offset into the entry
    of its node; the pointer [value] of an entry is the bytes it points to.

    [None] is an access outside a buffer, the use of a dangling or NULL pointer, of the
    NULL a listpack operation returns, or a failed assertion.  The counts of a whole
    list are an [unsigned long], bounded by memory and kept in [Z]. *)

From stdpp Require Import gmap.
From S2P Require Import Prelude Util Linked Adlist Lzf Listpack ListpackElem ListpackEdit ListpackValues.

Module Quicklist.
Import Listpack ListpackElem ListpackEdit ListpackValues Linked.

(** ** Nodes *)

Inductive node_encoding := RAW | LZF.
Inductive node_container := PLAIN | PACKED.

#[export] Instance node_encoding_eq_dec : EqDecision node_encoding.
Proof. solve_decision. Defined.
#[export] Instance node_container_eq_dec : EqDecision node_container.
Proof. solve_decision. Defined.

(** What [node->entry] points to: nothing, bytes, or a [quicklistLZF]. *)
Inductive node_entry := NULL | Bytes (b : list Z) | Compressed (sz : Z) (compressed : list Z).

Record quicklistNode := mkNode {
  entry : node_entry;
  sz : Z;
  count : Z;
  encoding : node_encoding;
  container : node_container;
  recompress : bool;
  dont_compress : bool
}.

Definition set_entry (e : node_entry) (n : quicklistNode) : quicklistNode :=
  mkNode e (sz n) (count n) (encoding n) (container n) (recompress n) (dont_compress n).
Definition set_sz (s : Z) (n : quicklistNode) : quicklistNode :=
  mkNode (entry n) s (count n) (encoding n) (container n) (recompress n) (dont_compress n).
(** A bit field of 16 bits. *)
Definition set_count (c : Z) (n : quicklistNode) : quicklistNode :=
  mkNode (entry n) (sz n) (uwrap 16 c) (encoding n) (container n) (recompress n) (dont_compress n).
Definition set_encoding (e : node_encoding) (n : quicklistNode) : quicklistNode :=
  mkNode (entry n) (sz n) (count n) e (container n) (recompress n) (dont_compress n).
Definition set_container (c : node_container) (n : quicklistNode) : quicklistNode :=
  mkNode (entry n) (sz n) (count n) (encoding n) c (recompress n) (dont_compress n).
Definition set_recompress (r : bool) (n : quicklistNode) : quicklistNode :=
  mkNode (entry n) (sz n) (count n) (encoding n) (container n) r (dont_compress n).
Definition set_dont_compress (d : bool) (n : quicklistNode) : quicklistNode :=
  mkNode (entry n) (sz n) (count n) (encoding n) (container n) (recompress n) d.

Definition QL_NODE_IS_PLAIN (n : quicklistNode) : bool := bool_decide (container n = PLAIN).

(** The bytes of a node that is not compressed. *)
Definition raw (n : quicklistNode) : option (list Z) := match entry n with Bytes b => Some b | _ => None end.

Abbreviation heap := (gmap address (linked quicklistNode)).

Definition node_at (h : heap) (a : address) : option quicklistNode := n ← h !! a; Some (value n).
Definition update (h : heap) (a : address) (f : quicklistNode → quicklistNode) : option heap :=
  n ← h !! a; set_value h a (f (value n)).
(** [a->next] and [a->prev] *)
Definition next_of (h : heap) (a : address) : option (option address) := n ← h !! a; Some (next n).
Definition prev_of (h : heap) (a : address) : option (option address) := n ← h !! a; Some (prev n).

(** ** The list *)

Record quicklistBookmark := mkBookmark { bm_node : option address; bm_name : list Z }.

Record quicklist := mkQl {
  head : option address;
  tail : option address;
  ql_count : Z;
  len : Z;
  fill : Z;
  compress : Z;
  bookmarks : list quicklistBookmark
}.

Definition set_ends (q : quicklist) (hd tl : option address) (n : Z) : quicklist :=
  mkQl hd tl (ql_count q) n (fill q) (compress q) (bookmarks q).
Definition set_ql_count (q : quicklist) (c : Z) : quicklist :=
  mkQl (head q) (tail q) c (len q) (fill q) (compress q) (bookmarks q).
Definition set_bookmarks (q : quicklist) (bms : list quicklistBookmark) : quicklist :=
  mkQl (head q) (tail q) (ql_count q) (len q) (fill q) (compress q) bms.

Definition SIZE_SAFETY_LIMIT : Z := 8192.
Definition SIZE_ESTIMATE_OVERHEAD : Z := 8.
Definition MIN_COMPRESS_BYTES : Z := 48.
Definition MIN_COMPRESS_IMPROVE : Z := 8.
Definition COMPRESS_MAX : Z := 65535.
Definition FILL_MAX : Z := 32767.
Definition QL_MAX_BM : Z := 15.
Definition optimization_level : list Z := [4096; 8192; 16384; 32768; 65536].

Definition quicklistCreate : quicklist := mkQl None None 0 0 (-2) 0 [].

Definition quicklistSetCompressDepth (q : quicklist) (c : Z) : quicklist :=
  let c := if COMPRESS_MAX <? c then COMPRESS_MAX else if c <? 0 then 0 else c in
  mkQl (head q) (tail q) (ql_count q) (len q) (fill q) c (bookmarks q).

Definition quicklistSetFill (q : quicklist) (f : Z) : quicklist :=
  let f := if FILL_MAX <? f then FILL_MAX else if f <? -5 then -5 else f in
  mkQl (head q) (tail q) (ql_count q) (len q) f (compress q) (bookmarks q).

Definition quicklistSetOptions (q : quicklist) (f c : Z) : quicklist := quicklistSetCompressDepth (quicklistSetFill q f) c.
Definition quicklistNew (f c : Z) : quicklist := quicklistSetOptions quicklistCreate f c.
Definition quicklistCount (q : quicklist) : Z := ql_count q.

(** ** Limits *)

Definition SIZE_MAX : Z := UINT64_MAX.
Definition UINT_MAX : Z := UINT32_MAX.

Definition sizeMeetsSafetyLimit (size : Z) : bool := size <=? SIZE_SAFETY_LIMIT.

Definition quicklistNodeNegFillLimit (f : Z) : option Z :=
  if negb (f <? 0) then None
  else
    let offset := - f - 1 in
    let max_level := zlen optimization_level in
    let offset := if max_level <=? offset then max_level - 1 else offset in
    optimization_level !! Z.to_nat offset.

(** The limits on the size and on the number of elements. *)
Definition quicklistNodeLimit (f : Z) : option (Z * Z) :=
  if 0 <=? f then Some (SIZE_MAX, if f =? 0 then 1 else f)
  else size ← quicklistNodeNegFillLimit f; Some (size, UINT_MAX).

Definition quicklistNodeExceedsLimit (f new_sz new_count : Z) : option bool :=
  '(sz_limit, count_limit) ← quicklistNodeLimit f;
  if negb (sz_limit =? SIZE_MAX) then Some (sz_limit <? new_sz)
  else if negb (count_limit =? UINT_MAX) then
    Some (if negb (sizeMeetsSafetyLimit new_sz) then true else count_limit <? new_count)
  else None.

Section Quicklist.
(** The threshold of the test suite, 0 in production. *)
Context (packed_threshold : Z).
(** Fresh memory, the address of the bytes to compress and what the hash table of the
    compressor holds. *)
Context (junk : Z) (in_data : heap → Z) (htab0 : heap → Z → Z).
Context (zmalloc : heap → address).

Definition isLargeElement (size f : Z) : option bool :=
  if negb (packed_threshold =? 0) then Some (packed_threshold <=? size)
  else if 0 <=? f then Some (negb (sizeMeetsSafetyLimit size))
  else limit ← quicklistNodeNegFillLimit f; Some (limit <? size).

Definition _quicklistNodeAllowInsert (n : option quicklistNode) (f size : Z) : option bool :=
  match n with
  | None => Some false
  | Some n =>
      large ← isLargeElement size f;
      if QL_NODE_IS_PLAIN n || large then Some false
      else
        let new_sz := uwrap 64 (sz n + size + SIZE_ESTIMATE_OVERHEAD) in
        exceeds ← quicklistNodeExceedsLimit f new_sz (count n + 1);
        Some (negb exceeds)
  end.

Definition _quicklistNodeAllowMerge (a b : option quicklistNode) (f : Z) : option bool :=
  match a, b with
  | Some a, Some b =>
      if QL_NODE_IS_PLAIN a || QL_NODE_IS_PLAIN b then Some false
      else
        let merge_sz := uwrap 32 (sz a + sz b - 7) in
        exceeds ← quicklistNodeExceedsLimit f merge_sz (count a + count b);
        Some (negb exceeds)
  | _, _ => Some false
  end.

(** A pointer to a node or NULL, for the two functions above. *)
Definition deref (h : heap) (a : option address) : option (option quicklistNode) :=
  match a with Some a => n ← node_at h a; Some (Some n) | None => Some None end.

(** ** Compression *)

Definition __quicklistCompressNode (h : heap) (a : address) : option (heap * bool) :=
  n ← node_at h a;
  if dont_compress n then Some (h, false)
  else
    p ← prev_of h a; q ← next_of h a;
    if negb (bool_decide (is_Some p) && bool_decide (is_Some q)) then None
    else
      h ← update h a (set_recompress false);
      if sz n <? MIN_COMPRESS_BYTES then Some (h, false)
      else
        b ← raw n; inp ← rd 0 (sz n) b;
        '(lzf_sz, out) ← Lzf.lzf_compress (in_data h) inp (htab0 h) (replicate (Z.to_nat (sz n)) junk);
        if (lzf_sz =? 0) || (sz n <=? uwrap 64 (lzf_sz + MIN_COMPRESS_IMPROVE)) then Some (h, false)
        else
          compressed ← rd 0 lzf_sz out;
          h ← update h a (set_entry (Compressed lzf_sz compressed));
          h ← update h a (set_encoding LZF);
          Some (h, true).

Definition quicklistCompressNode (h : heap) (a : option address) : option heap :=
  match a with
  | None => Some h
  | Some a =>
      n ← node_at h a;
      if bool_decide (encoding n = RAW) then '(h, _) ← __quicklistCompressNode h a; Some h else Some h
  end.

Definition __quicklistDecompressNode (h : heap) (a : address) : option (heap * bool) :=
  n ← node_at h a;
  h ← update h a (set_recompress false);
  match entry n with
  | Compressed lzf_sz compressed =>
      inp ← rd 0 lzf_sz compressed;
      '(r, _, decompressed) ← Lzf.lzf_decompress inp (replicate (Z.to_nat (sz n)) junk);
      if r =? 0 then Some (h, false)
      else
        h ← update h a (set_entry (Bytes decompressed));
        h ← update h a (set_encoding RAW);
        Some (h, true)
  | _ => None
  end.

Definition quicklistDecompressNode (h : heap) (a : option address) : option heap :=
  match a with
  | None => Some h
  | Some a =>
      n ← node_at h a;
      if bool_decide (encoding n = LZF) then '(h, _) ← __quicklistDecompressNode h a; Some h else Some h
  end.

Definition quicklistDecompressNodeForUse (h : heap) (a : option address) : option heap :=
  match a with
  | None => Some h
  | Some a =>
      n ← node_at h a;
      if bool_decide (encoding n = LZF) then
        '(h, _) ← __quicklistDecompressNode h a; update h a (set_recompress true)
      else Some h
  end.

Definition quicklistGetLzf (n : quicklistNode) : option (list Z * Z) :=
  match entry n with Compressed size data => Some (data, size) | _ => None end.

Definition quicklistAllowsCompression (q : quicklist) : bool := negb (compress q =? 0).

(** [while (depth++ < quicklist->compress)]; [None] inside is the return. *)
Fixpoint depth_loop (n : nat) (h : heap) (node : option address) (forward reverse : option address) (in_depth : bool)
    : option (heap * option (option address * option address * bool)) :=
  match n with
  | O => Some (h, Some (forward, reverse, in_depth))
  | S n =>
      h ← quicklistDecompressNode h forward;
      h ← quicklistDecompressNode h reverse;
      let in_depth := bool_decide (forward = node) || bool_decide (reverse = node) || in_depth in
      f ← forward; r ← reverse;
      fnext ← next_of h f;
      if bool_decide (f = r) || bool_decide (fnext = Some r) then Some (h, None)
      else rprev ← prev_of h r; depth_loop n h node fnext rprev in_depth
  end.

Definition __quicklistCompress (h : heap) (q : quicklist) (node : option address) : option heap :=
  if len q =? 0 then Some h
  else
    hd ← head q; hd ← node_at h hd; tl ← tail q; tl ← node_at h tl;
    if recompress hd || recompress tl then None
    else if negb (quicklistAllowsCompression q) || (len q <? compress q * 2) then Some h
    else
      '(h, r) ← depth_loop (Z.to_nat (compress q)) h node (head q) (tail q) false;
      match r with
      | None => Some h
      | Some (forward, reverse, in_depth) =>
          h ← (if (in_depth : bool) then Some h else quicklistCompressNode h node);
          h ← quicklistCompressNode h forward;
          quicklistCompressNode h reverse
      end.

Definition quicklistCompress (h : heap) (q : quicklist) (a : address) : option heap :=
  n ← node_at h a;
  if recompress n then quicklistCompressNode h (Some a) else __quicklistCompress h q (Some a).

Definition quicklistRecompressOnly (h : heap) (a : address) : option heap :=
  n ← node_at h a;
  if recompress n then quicklistCompressNode h (Some a) else Some h.

(** ** Inserting and deleting nodes *)

Definition quicklistCreateNode (h : heap) : heap * address :=
  let a := zmalloc h in (<[a := mkLinked None None (mkNode NULL 0 0 RAW PACKED false false)]> h, a).

(** The pointers and the length; the rest of __quicklistInsertNode follows. *)
Definition link_node (h : heap) (q : quicklist) (old_node : option address) (new_node : address) (after : bool)
    : option (heap * quicklist) :=
  '(h, q) ←
    (if after then
       h ← set_prev h new_node old_node;
       h ← match old_node with
           | Some o =>
               onext ← next_of h o;
               h ← set_next h new_node onext;
               h ← set_prev_of h onext (Some new_node);
               set_next h o (Some new_node)
           | None => Some h
           end;
       Some (h, if bool_decide (tail q = old_node) then set_ends q (head q) (Some new_node) (len q) else q)
     else
       h ← set_next h new_node old_node;
       h ← match old_node with
           | Some o =>
               oprev ← prev_of h o;
               h ← set_prev h new_node oprev;
               h ← set_next_of h oprev (Some new_node);
               set_prev h o (Some new_node)
           | None => Some h
           end;
       Some (h, if bool_decide (head q = old_node) then set_ends q (Some new_node) (tail q) (len q) else q));
  let q := if len q =? 0 then set_ends q (Some new_node) (Some new_node) (len q) else q in
  Some (h, set_ends q (head q) (tail q) (len q + 1)).

Definition __quicklistInsertNode (h : heap) (q : quicklist) (old_node : option address) (new_node : address) (after : bool)
    : option (heap * quicklist) :=
  '(h, q) ← link_node h q old_node new_node after;
  h ← match old_node with Some o => quicklistCompress h q o | None => Some h end;
  h ← quicklistCompress h q new_node;
  Some (h, q).

Definition _quicklistInsertNodeBefore (h : heap) (q : quicklist) (old_node : option address) (new_node : address) :=
  __quicklistInsertNode h q old_node new_node false.
Definition _quicklistInsertNodeAfter (h : heap) (q : quicklist) (old_node : option address) (new_node : address) :=
  __quicklistInsertNode h q old_node new_node true.

(** Bookmarks: the index of the one found. *)
Definition _quicklistBookmarkFindByName (q : quicklist) (name : list Z) : option nat :=
  fst <$> list_find (λ bm, bm_name bm = name) (bookmarks q).
Definition _quicklistBookmarkFindByNode (q : quicklist) (node : option address) : option nat :=
  fst <$> list_find (λ bm, bm_node bm = node) (bookmarks q).

Definition _quicklistBookmarkDelete (q : quicklist) (bm : nat) : quicklist :=
  set_bookmarks q (delete bm (bookmarks q)).

Definition set_bm_node (q : quicklist) (i : nat) (node : option address) : quicklist :=
  set_bookmarks q (alter (λ bm, mkBookmark node (bm_name bm)) i (bookmarks q)).

Definition quicklistBookmarkCreate (q : quicklist) (name : list Z) (node : option address) : quicklist * bool :=
  if QL_MAX_BM <=? zlen (bookmarks q) then (q, false)
  else
    match _quicklistBookmarkFindByName q name with
    | Some i => (set_bm_node q i node, true)
    | None => (set_bookmarks q (bookmarks q ++ [mkBookmark node name]), true)
    end.

Definition quicklistBookmarkFind (q : quicklist) (name : list Z) : option address :=
  match _quicklistBookmarkFindByName q name with
  | Some i => bookmarks q !! i ≫= bm_node
  | None => None
  end.

Definition quicklistBookmarkDelete (q : quicklist) (name : list Z) : quicklist * bool :=
  match _quicklistBookmarkFindByName q name with
  | Some i => (_quicklistBookmarkDelete q i, true)
  | None => (q, false)
  end.

Definition quicklistBookmarksClear (q : quicklist) : quicklist := set_bookmarks q [].

Definition update_bookmark (q : quicklist) (node : address) (nnext : option address) : quicklist :=
  match _quicklistBookmarkFindByNode q (Some node) with
  | Some i =>
      let q := set_bm_node q i nnext in
      match nnext with None => _quicklistBookmarkDelete q i | Some _ => q end
  | None => q
  end.

(** The pointers, the header and the bookmarks. *)
Definition unlink_node (h : heap) (q : quicklist) (node : address) : option (heap * quicklist) :=
  nnext ← next_of h node;
  let q := update_bookmark q node nnext in
  nprev ← prev_of h node;
  h ← set_prev_of h nnext nprev;
  h ← set_next_of h nprev nnext;
  let q := if bool_decide (Some node = tail q) then set_ends q (head q) nprev (len q) else q in
  let q := if bool_decide (Some node = head q) then set_ends q nnext (tail q) (len q) else q in
  n ← node_at h node;
  Some (h, set_ql_count (set_ends q (head q) (tail q) (len q - 1)) (ql_count q - count n)).

Definition __quicklistDelNode (h : heap) (q : quicklist) (node : address) : option (heap * quicklist) :=
  '(h, q) ← unlink_node h q node;
  h ← __quicklistCompress h q None;
  Some (delete node h, q).

(** [zfree(entry); zfree(node)], [len] times, and the list at the end. *)
Fixpoint release_loop (n : nat) (h : heap) (q : quicklist) (current : option address) : option (heap * quicklist) :=
  match n with
  | O => Some (h, q)
  | S n =>
      a ← current;
      nnext ← next_of h a;
      nd ← node_at h a;
      let q := set_ql_count (set_ends q (head q) (tail q) (len q - 1)) (ql_count q - count nd) in
      release_loop n (delete a h) q nnext
  end.

Definition quicklistRelease (h : heap) (q : quicklist) : option heap :=
  '(h, _) ← release_loop (Z.to_nat (len q)) h q (head q); Some h.

(** ** Pushing *)

(** The listpack an operation returns, which the code does not compare to NULL. *)
Definition not_null (r : option (option (list Z * option Z))) : option (list Z) :=
  match r with Some (Some (lp, _)) => Some lp | _ => None end.

(** [node->entry = f(node->entry)], where [f] may be given bytes that are not compressed only. *)
Definition update_entry (h : heap) (a : address) (f : list Z → option (list Z)) : option heap :=
  n ← node_at h a; b ← raw n; b ← f b; update h a (set_entry (Bytes b)).

Definition quicklistNodeUpdateSz (h : heap) (a : address) : option heap :=
  n ← node_at h a; b ← raw n; s ← lpBytes b; update h a (set_sz s).

(** [node->count++], [node->count--] *)
Definition count_add (h : heap) (a : address) (d : Z) : option heap := update h a (λ n, set_count (count n + d) n).

Definition lp_prepend (s b : list Z) : option (list Z) := not_null (lpPrepend junk b s).
Definition lp_append (s b : list Z) : option (list Z) := not_null (lpAppend junk b s).
Definition lp_single (s : list Z) : option (list Z) := lp ← lpNew junk 0; lp_prepend s lp.

Definition __quicklistCreateNode (h : heap) (c : node_container) (v : list Z) : option (heap * address) :=
  let '(h, new_node) := quicklistCreateNode h in
  h ← update h new_node (set_container c);
  h ← (match c with
       | PLAIN => update h new_node (set_entry (Bytes v))
       | PACKED => lp ← lp_single v; update h new_node (set_entry (Bytes lp))
       end);
  h ← update h new_node (set_sz (zlen v));
  h ← count_add h new_node 1;
  Some (h, new_node).

Definition __quicklistInsertPlainNode (h : heap) (q : quicklist) (old_node : option address) (v : list Z) (after : bool)
    : option (heap * quicklist) :=
  '(h, new_node) ← __quicklistCreateNode h PLAIN v;
  '(h, q) ← __quicklistInsertNode h q old_node new_node after;
  Some (h, set_ql_count q (ql_count q + 1)).

Definition quicklistPushHead (h : heap) (q : quicklist) (v : list Z) : option (heap * quicklist * bool) :=
  let orig_head := head q in
  large ← isLargeElement (zlen v) (fill q);
  if (large : bool) then '(h, q) ← __quicklistInsertPlainNode h q (head q) v false; Some (h, q, true)
  else
    hd ← deref h (head q);
    allow ← _quicklistNodeAllowInsert hd (fill q) (zlen v);
    '(h, q) ←
      (if (allow : bool) then
         a ← head q;
         h ← update_entry h a (lp_prepend v);
         h ← quicklistNodeUpdateSz h a;
         Some (h, q)
       else
         let '(h, node) := quicklistCreateNode h in
         lp ← lp_single v;
         h ← update h node (set_entry (Bytes lp));
         h ← quicklistNodeUpdateSz h node;
         _quicklistInsertNodeBefore h q (head q) node);
    let q := set_ql_count q (ql_count q + 1) in
    a ← head q;
    h ← count_add h a 1;
    Some (h, q, negb (bool_decide (orig_head = head q))).

Definition quicklistPushTail (h : heap) (q : quicklist) (v : list Z) : option (heap * quicklist * bool) :=
  let orig_tail := tail q in
  large ← isLargeElement (zlen v) (fill q);
  if (large : bool) then '(h, q) ← __quicklistInsertPlainNode h q (tail q) v true; Some (h, q, true)
  else
    tl ← deref h (tail q);
    allow ← _quicklistNodeAllowInsert tl (fill q) (zlen v);
    '(h, q) ←
      (if (allow : bool) then
         a ← tail q;
         h ← update_entry h a (lp_append v);
         h ← quicklistNodeUpdateSz h a;
         Some (h, q)
       else
         let '(h, node) := quicklistCreateNode h in
         lp ← (lp ← lpNew junk 0; lp_append v lp);
         h ← update h node (set_entry (Bytes lp));
         h ← quicklistNodeUpdateSz h node;
         _quicklistInsertNodeAfter h q (tail q) node);
    let q := set_ql_count q (ql_count q + 1) in
    a ← tail q;
    h ← count_add h a 1;
    Some (h, q, negb (bool_decide (orig_tail = tail q))).

(** [where]: QUICKLIST_HEAD or QUICKLIST_TAIL. *)
Inductive end_of := QUICKLIST_HEAD | QUICKLIST_TAIL.

(** The assertions that an end is not compressed. *)
Definition assert_raw (h : heap) (a : option address) : option unit :=
  n ← deref h a;
  match n with
  | Some n => if bool_decide (encoding n = LZF) then None else Some tt
  | None => Some tt
  end.

Definition quicklistPush (h : heap) (q : quicklist) (v : list Z) (where_ : end_of) : option (heap * quicklist) :=
  _ ← assert_raw h (head q);
  _ ← assert_raw h (tail q);
  '(h, q, _) ← match where_ with
               | QUICKLIST_HEAD => quicklistPushHead h q v
               | QUICKLIST_TAIL => quicklistPushTail h q v
               end;
  Some (h, q).

(** Nodes made elsewhere, when a data base is loaded. *)
Definition quicklistAppendListpack (h : heap) (q : quicklist) (zl : list Z) : option (heap * quicklist) :=
  let '(h, node) := quicklistCreateNode h in
  '(n, zl) ← lpLength zl;
  h ← update h node (set_entry (Bytes zl));
  h ← update h node (set_count n);
  s ← lpBytes zl;
  h ← update h node (set_sz s);
  '(h, q) ← _quicklistInsertNodeAfter h q (tail q) node;
  nd ← node_at h node;
  Some (h, set_ql_count q (ql_count q + count nd)).

Definition quicklistAppendPlainNode (h : heap) (q : quicklist) (data : list Z) : option (heap * quicklist) :=
  let '(h, node) := quicklistCreateNode h in
  h ← update h node (set_entry (Bytes data));
  h ← update h node (set_count 1);
  h ← update h node (set_sz (zlen data));
  h ← update h node (set_container PLAIN);
  '(h, q) ← _quicklistInsertNodeAfter h q (tail q) node;
  nd ← node_at h node;
  Some (h, set_ql_count q (ql_count q + count nd)).

(** ** Iterators and entries *)

Record quicklistIter := mkIter {
  current : option address;
  zi : option Z;
  offset : Z;
  direction : Adlist.direction
}.

Record quicklistEntry := mkEntry {
  e_node : option address;
  e_zi : option Z;
  e_value : option (list Z);
  e_longval : Z;
  e_sz : Z;
  e_offset : Z
}.

Definition initEntry : quicklistEntry := mkEntry None None None (-123456789) 0 123456789.

Definition resetIterator (it : quicklistIter) : quicklistIter := mkIter None None (offset it) (direction it).

Definition quicklistGetIterator (q : quicklist) (d : Adlist.direction) : quicklistIter :=
  match d with
  | Adlist.AL_START_HEAD => mkIter (head q) None 0 d
  | Adlist.AL_START_TAIL => mkIter (tail q) None (-1) d
  end.

Definition quicklistSetDirection (it : quicklistIter) (d : Adlist.direction) : quicklistIter :=
  mkIter (current it) (zi it) (offset it) d.

(** [while (n)]: the node that holds the element, and [accum]. *)
Fixpoint seek_node (fuel : nat) (h : heap) (forward : bool) (seek_index : Z) (n : option address) (accum : Z)
    : option (option address * Z) :=
  match n with
  | None => Some (None, accum)
  | Some a =>
      match fuel with
      | O => None
      | S fuel =>
          nd ← node_at h a;
          if seek_index <? uwrap 64 (accum + count nd) then Some (Some a, accum)
          else
            n ← (if forward then next_of h a else prev_of h a);
            seek_node fuel h forward seek_index n (uwrap 64 (accum + count nd))
      end
  end.

Definition quicklistGetIteratorAtIdx (h : heap) (q : quicklist) (d : Adlist.direction) (idx : Z)
    : option (option quicklistIter) :=
  let forward := negb (idx <? 0) in
  if idx =? INT64_MIN then None
  else
    let index := uwrap 64 (if forward then idx else - idx - 1) in
    if ql_count q <=? index then Some None
    else
      let '(seek_forward, seek_index) :=
        if (ql_count q - 1) / 2 <? index then (negb forward, ql_count q - 1 - index) else (forward, index) in
      '(n, accum) ← seek_node (Z.to_nat (len q)) h seek_forward seek_index (if seek_forward then head q else tail q) 0;
      match n with
      | None => Some None
      | Some a =>
          nd ← node_at h a;
          let accum := if bool_decide (seek_forward = forward) then accum
                       else uwrap 64 (ql_count q - count nd - accum) in
          let off := if forward then swrap 64 (index - accum) else swrap 64 (- index - 1 + accum) in
          Some (Some (mkIter (Some a) None off d))
      end.

Definition quicklistReleaseIterator (h : heap) (q : quicklist) (it : option quicklistIter) : option heap :=
  match it with
  | None => Some h
  | Some it => match current it with Some a => quicklistCompress h q a | None => Some h end
  end.

(** The move of [zi] in the current node; [None] inside when there is no more element in it. *)
Definition next_in_node (h : heap) (it : quicklistIter) (a : address) : option (heap * quicklistIter) :=
  n ← node_at h a;
  let plain := QL_NODE_IS_PLAIN n in
  match zi it with
  | None =>
      h ← quicklistDecompressNodeForUse h (Some a);
      n ← node_at h a; b ← raw n;
      z ← (if plain then Some (Some 0) else lpSeek b (offset it));
      Some (h, mkIter (current it) z (offset it) (direction it))
  | Some p =>
      if plain then Some (h, mkIter (current it) None (offset it) (direction it))
      else
        b ← raw n;
        match direction it with
        | Adlist.AL_START_HEAD =>
            z ← lpNext b p; Some (h, mkIter (current it) z (swrap 64 (offset it + 1)) (direction it))
        | Adlist.AL_START_TAIL =>
            z ← lpPrev b p; Some (h, mkIter (current it) z (swrap 64 (offset it - 1)) (direction it))
        end
  end.

(** The entry at [zi]. *)
Definition entry_at (h : heap) (it : quicklistIter) (a : address) (p : Z) : option quicklistEntry :=
  n ← node_at h a; b ← raw n;
  let off := swrap 32 (offset it) in
  if QL_NODE_IS_PLAIN n then
    v ← rd 0 (sz n) b;
    Some (mkEntry (Some a) (Some p) (Some v) (e_longval initEntry) (sz n) off)
  else
    v ← get_value b p;
    Some (match v with
          | VStr s => mkEntry (Some a) (Some p) (Some s) (e_longval initEntry) (zlen s) off
          | VInt i => mkEntry (Some a) (Some p) None i 0 off
          end).

(** Each call of quicklistNext in tail position moves to another node. *)
Fixpoint next_loop (fuel : nat) (h : heap) (q : quicklist) (it : quicklistIter)
    : option (heap * quicklistIter * option quicklistEntry) :=
  match current it with
  | None => Some (h, it, None)
  | Some a =>
      match fuel with
      | O => None
      | S fuel =>
          '(h, it) ← next_in_node h it a;
          match zi it with
          | Some p => e ← entry_at h it a p; Some (h, it, Some e)
          | None =>
              h ← quicklistCompress h q a;
              match direction it with
              | Adlist.AL_START_HEAD =>
                  c ← next_of h a; next_loop fuel h q (mkIter c None 0 (direction it))
              | Adlist.AL_START_TAIL =>
                  c ← prev_of h a; next_loop fuel h q (mkIter c None (-1) (direction it))
              end
          end
      end
  end.

(** [None] inside when the iteration is over. *)
Definition quicklistNext (h : heap) (q : quicklist) (it : quicklistIter)
    : option (heap * quicklistIter * option quicklistEntry) :=
  next_loop (S (Z.to_nat (len q))) h q it.

(** The iterator and the entry it is on. *)
Definition quicklistGetIteratorEntryAtIdx (h : heap) (q : quicklist) (idx : Z)
    : option (heap * option (quicklistIter * quicklistEntry)) :=
  it ← quicklistGetIteratorAtIdx h q Adlist.AL_START_TAIL idx;
  match it with
  | None => Some (h, None)
  | Some it =>
      '(h, it, e) ← quicklistNext h q it;
      e ← e;
      Some (h, Some (it, e))
  end.

Definition quicklistCompare (e : quicklistEntry) (p2 : list Z) : bool :=
  match e_value e with
  | Some v => (e_sz e =? zlen p2) && bool_decide (v = p2)
  | None => match Util.string2ll p2 with Some sval => e_longval e =? sval | None => false end
  end.

(** ** Deleting an element *)

(** Whether the node is gone; [p] becomes the element that followed. *)
Definition quicklistDelIndex (h : heap) (q : quicklist) (a : address) (p : option Z)
    : option (heap * quicklist * bool * option Z) :=
  n ← node_at h a;
  if QL_NODE_IS_PLAIN n then '(h, q) ← __quicklistDelNode h q a; Some (h, q, true, p)
  else
    p ← p; b ← raw n;
    '(b, p) ← mjoin (lpDelete junk b p);
    h ← update h a (set_entry (Bytes b));
    h ← count_add h a (-1);
    n ← node_at h a;
    if count n =? 0 then
      '(h, q) ← __quicklistDelNode h q a;
      Some (h, set_ql_count q (ql_count q - 1), true, p)
    else
      h ← quicklistNodeUpdateSz h a;
      Some (h, set_ql_count q (ql_count q - 1), false, p).

Definition quicklistDelEntry (h : heap) (q : quicklist) (it : quicklistIter) (e : quicklistEntry)
    : option (heap * quicklist * quicklistIter * quicklistEntry) :=
  a ← e_node e;
  nprev ← prev_of h a;
  nnext ← next_of h a;
  '(h, q, deleted_node, z) ← quicklistDelIndex h q a (e_zi e);
  let e := mkEntry (e_node e) z (e_value e) (e_longval e) (e_sz e) (e_offset e) in
  let it := mkIter (current it) None (offset it) (direction it) in
  let it :=
    if (deleted_node : bool) then
      match direction it with
      | Adlist.AL_START_HEAD => mkIter nnext None 0 (direction it)
      | Adlist.AL_START_TAIL => mkIter nprev None (-1) (direction it)
      end
    else it in
  Some (h, q, it, e).

(** ** Splitting and merging nodes *)

(** The node kept, or [None] inside when nothing is merged. *)
Definition _quicklistListpackMerge (h : heap) (q : quicklist) (a b : address) : option (heap * quicklist * option address) :=
  h ← quicklistDecompressNode h (Some a);
  h ← quicklistDecompressNode h (Some b);
  na ← node_at h a; nb ← node_at h b;
  match entry na, entry nb with
  | NULL, _ | _, NULL => Some (h, q, None)
  | _, _ =>
      if bool_decide (a = b) then Some (h, q, None)
      else
        first ← raw na; second ← raw nb;
        '(lp, append) ← lpMerge junk first second;
        h ← update h a (set_entry (if append then Bytes lp else NULL));
        h ← update h b (set_entry (if append then NULL else Bytes lp));
        let '(keep, nokeep) := if (append : bool) then (a, b) else (b, a) in
        '(n, lp) ← lpLength lp;
        h ← update h keep (set_entry (Bytes lp));
        h ← update h keep (set_count n);
        h ← quicklistNodeUpdateSz h keep;
        h ← update h keep (set_recompress false);
        h ← update h nokeep (set_count 0);
        '(h, q) ← __quicklistDelNode h q nokeep;
        h ← quicklistCompress h q keep;
        Some (h, q, Some keep)
  end.

(** [x ? x->prev : NULL] and the same with [next]. *)
Definition prev_or_null (h : heap) (x : option address) : option (option address) :=
  match x with Some a => prev_of h a | None => Some None end.
Definition next_or_null (h : heap) (x : option address) : option (option address) :=
  match x with Some a => next_of h a | None => Some None end.

Definition allow_merge (h : heap) (a b : option address) (f : Z) : option bool :=
  na ← deref h a; nb ← deref h b; _quicklistNodeAllowMerge na nb f.

Definition _quicklistMergeNodes (h : heap) (q : quicklist) (center : address) : option (heap * quicklist * address) :=
  let f := fill q in
  nprev ← prev_of h center;
  prev_prev ← prev_or_null h nprev;
  nnext ← next_of h center;
  next_next ← next_or_null h nnext;
  allow ← allow_merge h nprev prev_prev f;
  '(h, q) ← (if (allow : bool) then
               a ← prev_prev; b ← nprev; '(h, q, _) ← _quicklistListpackMerge h q a b; Some (h, q)
             else Some (h, q));
  allow ← allow_merge h nnext next_next f;
  '(h, q) ← (if (allow : bool) then
               a ← nnext; b ← next_next; '(h, q, _) ← _quicklistListpackMerge h q a b; Some (h, q)
             else Some (h, q));
  cprev ← prev_of h center;
  allow ← allow_merge h (Some center) cprev f;
  '(h, q, target) ← (if (allow : bool) then a ← cprev; _quicklistListpackMerge h q a center
                     else Some (h, q, Some center));
  target ← target;
  tnext ← next_of h target;
  allow ← allow_merge h (Some target) tnext f;
  '(h, q, target) ← (if (allow : bool) then b ← tnext; _quicklistListpackMerge h q target b
                     else Some (h, q, Some target));
  target ← target;
  Some (h, q, target).

(** [lpDeleteRange], the count and the size of a node that is split. *)
Definition cut_node (h : heap) (a : address) (start extent : Z) : option heap :=
  h ← update_entry h a (λ b, lpDeleteRange junk b start (uwrap 64 extent));
  n ← node_at h a; b ← raw n;
  '(c, b) ← lpLength b;
  h ← update h a (set_entry (Bytes b));
  h ← update h a (set_count c);
  quicklistNodeUpdateSz h a.

Definition _quicklistSplitNode (h : heap) (node : address) (off : Z) (after : bool) : option (heap * address) :=
  n ← node_at h node;
  let '(h, new_node) := quicklistCreateNode h in
  b ← raw n;
  copy ← rd 0 (sz n) b;
  h ← update h new_node (set_entry (Bytes copy));
  let off := if off <? 0 then count n + off else off in
  let orig_start := if after then off + 1 else 0 in
  let orig_extent := if after then -1 else off in
  let new_start := if after then 0 else off in
  let new_extent := if after then off + 1 else -1 in
  h ← cut_node h node orig_start orig_extent;
  h ← cut_node h new_node new_start new_extent;
  Some (h, new_node).

(** ** Inserting at an element *)

(** The update of a node that takes one more element: its entry, count and size. *)
Definition grow_node (h : heap) (a : address) (f : list Z → option (list Z)) : option heap :=
  h ← update_entry h a f;
  h ← count_add h a 1;
  quicklistNodeUpdateSz h a.

Definition insert_no_node (h : heap) (q : quicklist) (v : list Z) (after : bool) : option (heap * quicklist) :=
  large ← isLargeElement (zlen v) (fill q);
  if (large : bool) then __quicklistInsertPlainNode h q (tail q) v after
  else
    let '(h, new_node) := quicklistCreateNode h in
    lp ← lp_single v;
    h ← update h new_node (set_entry (Bytes lp));
    '(h, q) ← __quicklistInsertNode h q None new_node after;
    h ← count_add h new_node 1;
    Some (h, set_ql_count q (ql_count q + 1)).

(** A large element next to an element of [node]. *)
Definition insert_large (h : heap) (q : quicklist) (node : address) (e : quicklistEntry) (v : list Z) (after at_end : bool)
    : option (heap * quicklist) :=
  n ← node_at h node;
  if QL_NODE_IS_PLAIN n || at_end then __quicklistInsertPlainNode h q (Some node) v after
  else
    h ← quicklistDecompressNodeForUse h (Some node);
    '(h, new_node) ← _quicklistSplitNode h node (e_offset e) after;
    '(h, entry_node) ← __quicklistCreateNode h PLAIN v;
    '(h, q) ← __quicklistInsertNode h q (Some node) entry_node after;
    '(h, q) ← __quicklistInsertNode h q (Some entry_node) new_node after;
    Some (h, set_ql_count q (ql_count q + 1)).

(** The element goes into the node next to [node]. *)
Definition insert_neighbour (h : heap) (node new_node : address) (f : list Z → option (list Z)) : option heap :=
  h ← quicklistDecompressNodeForUse h (Some new_node);
  h ← grow_node h new_node f;
  h ← quicklistRecompressOnly h new_node;
  quicklistRecompressOnly h node.

(** The result of the cases that do not return early. *)
Definition insert_small (h : heap) (q : quicklist) (node : address) (e : quicklistEntry) (v : list Z)
    (after full at_end avail : bool) (neighbour : option address) : option (heap * quicklist) :=
  if negb full then
    h ← quicklistDecompressNodeForUse h (Some node);
    z ← e_zi e;
    h ← grow_node h node (λ b, not_null (lpInsertString junk b v z (if after then LP_AFTER else LP_BEFORE)));
    h ← quicklistRecompressOnly h node;
    Some (h, q)
  else if at_end && avail then
    new_node ← neighbour;
    h ← insert_neighbour h node new_node (if after then lp_prepend v else lp_append v);
    Some (h, q)
  else if at_end then
    let '(h, new_node) := quicklistCreateNode h in
    lp ← lp_single v;
    h ← update h new_node (set_entry (Bytes lp));
    h ← count_add h new_node 1;
    h ← quicklistNodeUpdateSz h new_node;
    __quicklistInsertNode h q (Some node) new_node after
  else
    h ← quicklistDecompressNodeForUse h (Some node);
    '(h, new_node) ← _quicklistSplitNode h node (e_offset e) after;
    h ← grow_node h new_node (if after then lp_prepend v else lp_append v);
    '(h, q) ← __quicklistInsertNode h q (Some node) new_node after;
    '(h, q, _) ← _quicklistMergeNodes h q node;
    Some (h, q).

Definition _quicklistInsert (h : heap) (q : quicklist) (it : quicklistIter) (e : quicklistEntry) (v : list Z) (after : bool)
    : option (heap * quicklist * quicklistIter) :=
  match e_node e with
  | None => '(h, q) ← insert_no_node h q v after; Some (h, q, it)
  | Some node =>
      n ← node_at h node;
      allow ← _quicklistNodeAllowInsert (Some n) (fill q) (zlen v);
      let full := negb allow in
      neighbour ← (if after then next_of h node else prev_of h node);
      let at_end := if after then (e_offset e =? count n - 1) || (e_offset e =? -1)
                    else (e_offset e =? 0) || (e_offset e =? - count n) in
      nn ← deref h neighbour;
      avail ← (if at_end then _quicklistNodeAllowInsert nn (fill q) (zlen v) else Some false);
      large ← isLargeElement (zlen v) (fill q);
      if (large : bool) then '(h, q) ← insert_large h q node e v after at_end; Some (h, q, it)
      else
        '(h, q) ← insert_small h q node e v after full at_end avail neighbour;
        Some (h, set_ql_count q (ql_count q + 1), resetIterator it)
  end.

Definition quicklistInsertBefore h q it e v := _quicklistInsert h q it e v false.
Definition quicklistInsertAfter h q it e v := _quicklistInsert h q it e v true.

(** ** Replacing an element *)

(** The first condition: [newentry] and the new place of the element, when the element
    can be replaced where it is. *)
Definition replace_in_place (n : quicklistNode) (e : quicklistEntry) (data : list Z) (large : bool) : option (option (list Z)) :=
  if negb (QL_NODE_IS_PLAIN n) && negb large then
    b ← raw n; z ← e_zi e;
    r ← lpReplace junk b z data;
    Some (match r with Some (newentry, _) => Some newentry | None => None end)
  else Some None.

(** The last case: the node is split and a new one put in between. *)
Definition replace_split (h : heap) (q : quicklist) (node : address) (e : quicklistEntry) (data : list Z) (large : bool)
    : option (heap * quicklist) :=
  h ← update h node (set_dont_compress true);
  n ← node_at h node;
  '(h, split_node) ← (if negb (e_offset e =? count n - 1) && negb (e_offset e =? -1)
                      then '(h, s) ← _quicklistSplitNode h node (e_offset e) true; Some (h, Some s)
                      else Some (h, None));
  '(h, new_node) ← __quicklistCreateNode h (if large then PLAIN else PACKED) data;
  '(h, q) ← __quicklistInsertNode h q (Some node) new_node true;
  '(h, q) ← match split_node with
            | Some s => __quicklistInsertNode h q (Some new_node) s true
            | None => Some (h, q)
            end;
  let q := set_ql_count q (ql_count q + 1) in
  n ← node_at h node;
  if count n =? 1 then __quicklistDelNode h q node
  else
    b ← raw n;
    p ← lpSeek b (-1);
    '(h, q, _, _) ← quicklistDelIndex h q node p;
    h ← update h node (set_dont_compress false);
    '(h, q, new_node) ← _quicklistMergeNodes h q new_node;
    h ← quicklistCompress h q new_node;
    nprev ← prev_of h new_node;
    nprev ← nprev;
    h ← quicklistCompress h q nprev;
    nnext ← next_of h new_node;
    h ← match nnext with Some a => quicklistCompress h q a | None => Some h end;
    Some (h, q).

Definition quicklistReplaceEntry (h : heap) (q : quicklist) (it : quicklistIter) (e : quicklistEntry) (data : list Z)
    : option (heap * quicklist * quicklistIter) :=
  node ← e_node e;
  n ← node_at h node;
  large ← isLargeElement (zlen data) (fill q);
  newentry ← replace_in_place n e data large;
  '(h, q) ←
    match newentry with
    | Some newentry =>
        h ← update h node (set_entry (Bytes newentry));
        h ← quicklistNodeUpdateSz h node;
        h ← quicklistCompress h q node;
        Some (h, q)
    | None =>
        if QL_NODE_IS_PLAIN n then
          if (large : bool) then
            h ← update h node (set_entry (Bytes data));
            h ← update h node (set_sz (zlen data));
            h ← quicklistCompress h q node;
            Some (h, q)
          else
            '(h, q, _) ← quicklistInsertAfter h q it e data;
            __quicklistDelNode h q node
        else replace_split h q node e data large
    end;
  Some (h, q, resetIterator it).

Definition quicklistReplaceAtIndex (h : heap) (q : quicklist) (index : Z) (data : list Z) : option (heap * quicklist * bool) :=
  '(h, r) ← quicklistGetIteratorEntryAtIdx h q index;
  match r with
  | None => Some (h, q, false)
  | Some (it, e) =>
      '(h, q, it) ← quicklistReplaceEntry h q it e data;
      h ← quicklistReleaseIterator h q (Some it);
      Some (h, q, true)
  end.

(** ** Deleting a range *)

(** [while (extent)]; each iteration moves to the next node. *)
Fixpoint del_range_loop (fuel : nat) (h : heap) (q : quicklist) (node : option address) (extent off : Z)
    : option (heap * quicklist) :=
  if extent =? 0 then Some (h, q)
  else
    match fuel with
    | O => None
    | S fuel =>
        a ← node;
        nnext ← next_of h a;
        n ← node_at h a;
        let '(delete_entire_node, del) :=
          if (off =? 0) && (count n <=? extent) then (true, count n)
          else if (0 <=? off) && (count n <=? uwrap 64 (extent + off)) then (false, count n - off)
          else if off <? 0 then (false, if extent <? - off then extent else - off)
          else (false, extent) in
        '(h, q) ←
          (if delete_entire_node || QL_NODE_IS_PLAIN n then __quicklistDelNode h q a
           else
             h ← quicklistDecompressNodeForUse h (Some a);
             h ← update_entry h a (λ b, lpDeleteRange junk b off del);
             h ← quicklistNodeUpdateSz h a;
             h ← count_add h a (- del);
             let q := set_ql_count q (ql_count q - del) in
             n ← node_at h a;
             if count n =? 0 then __quicklistDelNode h q a
             else h ← quicklistRecompressOnly h a; Some (h, q));
        del_range_loop fuel h q nnext (uwrap 64 (extent - del)) 0
    end.

Definition quicklistDelRange (h : heap) (q : quicklist) (start num : Z) : option (heap * quicklist * bool) :=
  if num <=? 0 then Some (h, q, false)
  else if start =? INT64_MIN then None
  else
    let extent := num in
    let extent :=
      if (0 <=? start) && (uwrap 64 (ql_count q - start) <? extent) then uwrap 64 (ql_count q - start)
      else if (start <? 0) && (- start <? extent) then - start
      else extent in
    it ← quicklistGetIteratorAtIdx h q Adlist.AL_START_TAIL start;
    match it with
    | None => Some (h, q, false)
    | Some it =>
        h ← quicklistReleaseIterator h q (Some it);
        '(h, q) ← del_range_loop (Z.to_nat (len q)) h q (current it) extent (offset it);
        Some (h, q, true)
    end.

(** ** Copies, rotation, popping *)

(** The fields of a node that is copied. *)
Definition copy_node (h : heap) (node : address) (n : quicklistNode) : option heap :=
  h ← (match encoding n, entry n with
       | LZF, Compressed lzf_sz data =>
           data ← rd 0 lzf_sz data; update h node (set_entry (Compressed lzf_sz data))
       | RAW, Bytes b => b ← rd 0 (sz n) b; update h node (set_entry (Bytes b))
       | _, _ => None
       end);
  h ← update h node (set_count (count n));
  h ← update h node (set_sz (sz n));
  h ← update h node (set_encoding (encoding n));
  update h node (set_container (container n)).

Fixpoint ql_dup_loop (fuel : nat) (h : heap) (cur : option address) (copy : quicklist) : option (heap * quicklist) :=
  match cur with
  | None => Some (h, copy)
  | Some a =>
      match fuel with
      | O => None
      | S fuel =>
          n ← node_at h a;
          let '(h, node) := quicklistCreateNode h in
          h ← copy_node h node n;
          let copy := set_ql_count copy (ql_count copy + uwrap 16 (count n)) in
          '(h, copy) ← _quicklistInsertNodeAfter h copy (tail copy) node;
          nnext ← next_of h a;
          ql_dup_loop fuel h nnext copy
      end
  end.

Definition quicklistDup (h : heap) (orig : quicklist) : option (heap * quicklist) :=
  ql_dup_loop (Z.to_nat (len orig)) h (head orig) (quicklistNew (fill orig) (compress orig)).

Definition quicklistRotatePlain (h : heap) (q : quicklist) : option (heap * quicklist) :=
  new_head ← tail q;
  new_tail ← prev_of h new_head;
  hd ← head q;
  h ← set_prev h hd (Some new_head);
  t ← new_tail;
  h ← set_next h t None;
  h ← set_next h new_head (head q);
  h ← set_prev h new_head None;
  Some (h, set_ends q (Some new_head) new_tail (len q)).

(** The string of a value, an integer through [longstr]. *)
Definition value_string (v : ListpackValues.value) : option (list Z) :=
  match v with
  | VStr s => Some s
  | VInt longval =>
      let longstr := replicate 32 0 in
      '(longstr, size) ← Util.ll2string longstr 0 32 longval;
      rd 0 size longstr
  end.

Definition quicklistRotate (h : heap) (q : quicklist) : option (heap * quicklist) :=
  if ql_count q <=? 1 then Some (h, q)
  else
    a ← tail q;
    n ← node_at h a;
    if QL_NODE_IS_PLAIN n then quicklistRotatePlain h q
    else
      b ← raw n;
      p ← lpSeek b (-1);
      p ← p;
      v ← get_value b p;
      v ← value_string v;
      '(h, q, _) ← quicklistPushHead h q v;
      a ← tail q;
      p ← (if len q =? 1 then n ← node_at h a; b ← raw n; lpSeek b (-1) else Some (Some p));
      '(h, q, _, _) ← quicklistDelIndex h q a p;
      Some (h, q).

Section Pop.
(** [saver] makes the object returned for a string. *)
Context {A : Type} (saver : list Z → A).

(** [data], [sz] and [sval]; [None] inside when there is no element. *)
Definition quicklistPopCustom (h : heap) (q : quicklist) (where_ : end_of)
    : option (heap * quicklist * option (option A * Z * Z)) :=
  let pos := match where_ with QUICKLIST_HEAD => 0 | QUICKLIST_TAIL => -1 end in
  if ql_count q =? 0 then Some (h, q, None)
  else
    match (match where_ with QUICKLIST_HEAD => head q | QUICKLIST_TAIL => tail q end) with
    | None => Some (h, q, None)
    | Some a =>
        _ ← assert_raw h (Some a);
        n ← node_at h a;
        b ← raw n;
        if QL_NODE_IS_PLAIN n then
          data ← rd 0 (sz n) b;
          '(h, q, _, _) ← quicklistDelIndex h q a None;
          Some (h, q, Some (Some (saver data), sz n, -123456789))
        else
          p ← lpSeek b pos;
          z ← p;
          v ← get_value b z;
          '(h, q, _, _) ← quicklistDelIndex h q a p;
          Some (h, q, Some (match v with
                            | VStr s => (Some (saver s), zlen s, -123456789)
                            | VInt vlong => (None, 0, vlong)
                            end))
    end.
End Pop.

(** The saver copies the string. *)
Definition _quicklistSaver (data : list Z) : list Z := data.

Definition quicklistPop (h : heap) (q : quicklist) (where_ : end_of)
    : option (heap * quicklist * option (option (list Z) * Z * Z)) :=
  if ql_count q =? 0 then Some (h, q, None) else quicklistPopCustom _quicklistSaver h q where_.

End Quicklist.
End Quicklist.
