(* ===== verification/QuicklistRepr.v ===== *)
(** * Quicklists: the nodes in the heap

    [holds h0 h q ns]: the heap is [h0] with the nodes [ns] of the list in cells that
    were free, linked in this order.  What assignments to a node, allocation,
    linking and unlinking do to the sequence of nodes. *)

From stdpp Require Import gmap.
From S2P Require Import Prelude Post Linked Quicklist.

Module QuicklistRepr.
Import Post Quicklist Linked.

Implicit Types (h : heap) (q : quicklist) (A B ns : list (address * quicklistNode)) (a : address).

Record holds h0 h q ns : Prop := {
  hold_seg : seg h None ns None;
  hold_nodup : NoDup ns.*1;
  hold_head : head q = first_of ns None;
  hold_tail : tail q = last_of None ns;
  hold_len : len q = zlen ns;
  hold_same : ∀ a, (a ∉ ns.*1) → h !! a = h0 !! a;
  hold_fresh : ∀ a, a ∈ ns.*1 → h0 !! a = None
}.

(** Fields of the header that do not matter. *)
Lemma holds_header h0 h q q' ns : head q' = head q → tail q' = tail q → len q' = len q → holds h0 h q ns → holds h0 h q' ns.
Proof. intros E1 E2 E3 []. constructor; done || congruence. Qed.

Lemma holds_lookup h0 h q A a nd B : holds h0 h q (A ++ (a, nd) :: B) →
  h !! a = Some (mkLinked (last_of None A) (first_of B None) nd).
Proof. intros []. by eapply seg_lookup. Qed.

Lemma holds_node h0 h q A a nd B : holds h0 h q (A ++ (a, nd) :: B) → node_at h a = Some nd.
Proof. intros H. unfold node_at. by rewrite (holds_lookup _ _ _ _ _ _ _ H). Qed.
Lemma holds_next h0 h q A a nd B : holds h0 h q (A ++ (a, nd) :: B) → next_of h a = Some (first_of B None).
Proof. intros H. unfold next_of. by rewrite (holds_lookup _ _ _ _ _ _ _ H). Qed.
Lemma holds_prev h0 h q A a nd B : holds h0 h q (A ++ (a, nd) :: B) → prev_of h a = Some (last_of None A).
Proof. intros H. unfold prev_of. by rewrite (holds_lookup _ _ _ _ _ _ _ H). Qed.

(** A cell that is not of the list, such as a node being made, belongs to [h0]. *)
Lemma holds_base h0 h q ns a c : holds h0 h q ns → h0 !! a = Some c → (a ∉ ns.*1) ∧ h !! a = Some c.
Proof.
  intros [_ _ _ _ _ Hs Hf] E. assert (a ∉ ns.*1) as Ha by (intros Hin; by rewrite (Hf a Hin) in E).
  split; [done|]. by rewrite Hs.
Qed.

Lemma holds_insert_base h0 h q ns a c : holds h0 h q ns → (a ∉ ns.*1) → holds (<[a := c]> h0) (<[a := c]> h) q ns.
Proof.
  intros [Hseg Hn Hh Ht Hl Hs Hf] Ha. constructor; try done.
  - by apply seg_insert.
  - intros b Hb. destruct (decide (b = a)) as [->|]; [by rewrite !lookup_insert_eq|]. rewrite !lookup_insert_ne by done. by apply Hs.
  - intros b Hb. rewrite lookup_insert_ne; [by apply Hf|]. by intros ->.
Qed.

(** ** Assignments *)

Lemma update_holds h0 h q A a nd B f : holds h0 h q (A ++ (a, nd) :: B) →
  post (update h a f) (λ h', holds h0 h' q (A ++ (a, f nd) :: B)).
Proof.
  intros H. unfold update. rewrite (holds_lookup _ _ _ _ _ _ _ H). cbn [mbind option_bind value].
  destruct H as [Hseg Hn Hh Ht Hl Hs Hf]. destruct (set_value_seg h None A a nd B None (f nd) Hseg Hn) as (h' & -> & Hseg' & Hb & _).
  assert (∀ v, (A ++ (a, v) :: B).*1 = A.*1 ++ a :: B.*1) as Ek by (intros; by rewrite fmap_app).
  simpl. constructor; try (rewrite ?Ek in *; done).
  - rewrite Hh. by destruct A as [|[? ?] ?].
  - rewrite Ht, !last_of_app. done.
  - rewrite Hl. unfold zlen. by rewrite !length_app.
  - intros b Hnb. rewrite Ek in *. rewrite Hb; [by apply Hs|]. rewrite list_elem_of_singleton. intros ->. apply Hnb. set_solver.
Qed.

Lemma update_loose h0 h q ns a p n nd f : holds (<[a := mkLinked p n nd]> h0) h q ns →
  post (update h a f) (λ h', holds (<[a := mkLinked p n (f nd)]> h0) h' q ns).
Proof.
  intros H. destruct (holds_base _ _ _ _ a _ H (lookup_insert_eq _ _ _)) as [Ha E].
  unfold update, set_value. rewrite !E. cbn [mbind option_bind value prev next post].
  rewrite ?E. cbn [mbind option_bind value prev next post].
  rewrite <-(insert_insert_eq h0 a (mkLinked p n (f nd)) (mkLinked p n nd)). by apply holds_insert_base.
Qed.

Lemma loose_node h0 h q ns a p n nd : holds (<[a := mkLinked p n nd]> h0) h q ns → node_at h a = Some nd.
Proof.
  intros H. destruct (holds_base _ _ _ _ a _ H (lookup_insert_eq _ _ _)) as [Ha E]. unfold node_at. by rewrite E.
Qed.

Lemma set_prev_eq h a p p' n nd : h !! a = Some (mkLinked p n nd) → set_prev h a p' = Some (<[a := mkLinked p' n nd]> h).
Proof. unfold set_prev. by intros ->. Qed.
Lemma set_next_eq h a p n n' nd : h !! a = Some (mkLinked p n nd) → set_next h a n' = Some (<[a := mkLinked p n' nd]> h).
Proof. unfold set_next. by intros ->. Qed.

(** ** Linking and unlinking *)

Definition same_options q q' : Prop := fill q' = fill q ∧ compress q' = compress q.

Lemma holds_linked h0 h q A B a c nd h2 q' : holds (<[a := c]> h0) h q (A ++ B) → h0 !! a = None →
  seg h2 None (A ++ (a, nd) :: B) None → (∀ b, (b ∉ (A ++ B).*1) → b ≠ a → h2 !! b = h !! b) →
  head q' = first_of A (Some a) → tail q' = last_of (Some a) B → len q' = len q + 1 →
  holds h0 h2 q' (A ++ (a, nd) :: B).
Proof.
  intros H E0 Hseg Hb Hh Ht Hl. destruct (holds_base _ _ _ _ a _ H (lookup_insert_eq _ _ _)) as [Ha E].
  destruct H as [_ Hn _ _ Hlen Hs Hf]. assert (∀ b, (b ∉ (A ++ (a, nd) :: B).*1) → (b ∉ (A ++ B).*1) ∧ b ≠ a) as Hin.
  { intros b. rewrite !fmap_app, fmap_cons. simpl. rewrite !not_elem_of_app, not_elem_of_cons. naive_solver. }
  constructor; [done| | | | | |].
  - by apply nodup_middle.
  - rewrite Hh. destruct A as [|[? ?] ?]; done.
  - rewrite Ht, last_of_app. done.
  - rewrite Hl, Hlen, !zlen_app, zlen_cons. lia.
  - intros b Hnb. destruct (Hin b Hnb). rewrite Hb, Hs by done. by rewrite lookup_insert_ne.
  - intros b. rewrite fmap_app, fmap_cons. simpl. intros Hb'. destruct (decide (b = a)) as [->|]; [done|].
    rewrite <-(lookup_insert_ne h0 a b c) by done. apply Hf. rewrite fmap_app. set_solver.
Qed.

Lemma ends_tail h0 h q A a nd B : holds h0 h q (A ++ (a, nd) :: B) → bool_decide (tail q = Some a) = bool_decide (B = []).
Proof.
  intros [_ Hn _ Ht _ _ _]. apply bool_decide_ext. rewrite Ht, last_of_app. simpl.
  destruct (last_of_cases (Some a) B) as [[-> ->]|(B' & b & w & -> & ->)]; [done|]. split; [|by destruct B'].
  intros [= ->]. apply nodup_middle in Hn as [Hn _]. destruct Hn. rewrite !fmap_app. set_solver.
Qed.

Lemma ends_head h0 h q A a nd B : holds h0 h q (A ++ (a, nd) :: B) → bool_decide (head q = Some a) = bool_decide (A = []).
Proof.
  intros [_ Hn Hh _ _ _ _]. apply bool_decide_ext. rewrite Hh. destruct A as [|[b w] A]; [done|]. simpl. split; [|done].
  intros [= ->]. apply (nodup_middle [] a w (A ++ (a, nd) :: B)) in Hn as [Hn _]. destruct Hn. simpl. rewrite fmap_app. set_solver.
Qed.

(** ** Linking *)

Lemma link_after h0 h q A B a p n nd : holds (<[a := mkLinked p n nd]> h0) h q (A ++ B) → h0 !! a = None →
  (A = [] → B = [] ∧ n = None) →
  post (link_node h q (last_of None A) a true) (λ '(h', q'), holds h0 h' q' (A ++ (a, nd) :: B) ∧ same_options q q' ∧
    ql_count q' = ql_count q ∧ bookmarks q' = bookmarks q).
Proof.
  intros H E0 HA. destruct (holds_base _ _ _ _ a _ H (lookup_insert_eq _ _ _)) as [Ha E]. pose proof H as [Hseg Hn Hh Ht Hl _ _].
  unfold link_node. eapply post_bind, post_eq; [by apply (set_prev_eq h a p (last_of None A) n nd)|].
  assert (∀ o on, (∃ A0, A = A0 ++ [(o, on)]) → next_of (<[a := mkLinked (last_of None A) n nd]> h) o = Some (first_of B None)) as Hnext.
  { intros o on [A0 ->]. rewrite <-app_assoc in H, Ha. unfold next_of. rewrite lookup_insert_ne.
    - by rewrite (holds_lookup _ _ _ _ _ _ _ H).
    - intros ->. apply Ha. rewrite fmap_app. set_solver. }
  set (h1 := <[a := mkLinked (last_of None A) n nd]> h) in *.
  assert (h1 !! a = Some (mkLinked (last_of None A) n nd)) as E1 by apply lookup_insert_eq.
  set (h2 := <[a := mkLinked (last_of None A) (first_of B None) nd]> h1) in *.
  assert (seg h2 None (A ++ B) None) as Hs2 by (unfold h2, h1; do 2 (apply seg_insert; [done|]); done).
  destruct (link_between h2 A a nd B Hs2 Hn Ha) as (h3' & h4 & E3' & E4' & Hs4 & S4 & _); [apply lookup_insert_eq|].
  destruct (set_commute _ _ _ _ _ _ _ E3' E4') as (h3 & E3 & E4). clear h3' E3' E4'.
  assert (∀ b, (b ∉ (A ++ B).*1) → b ≠ a → h4 !! b = h !! b) as Sb.
  { intros b Hb Hba. rewrite S4 by done. unfold h2, h1. by rewrite !lookup_insert_ne. }
  destruct A as [|[o on] A' _] using rev_ind.
  - destruct (HA eq_refl) as [-> ->]. simpl in *. rewrite Ht, bool_decide_true by done. simpl. rewrite Hl. simpl.
    split; [|done]. apply (holds_linked h0 h q [] [] a (mkLinked p None nd) nd h1); [done|done| | |done|done|simpl; by rewrite Hl].
    + simpl. split; [|done]. exact E1.
    + intros b _ Hba. unfold h1. by rewrite lookup_insert_ne.
  - rewrite last_of_snoc. apply post_bind. next_is (Hnext o on (ex_intro _ A' eq_refl)).
    unfold h2 in E3. rewrite last_of_snoc in E1, E3, E4. next_is (set_next_eq h1 a (Some o) n (first_of B None) nd E1).
    next_is E3. cbn [set_next_of] in E4. rewrite E4. simpl. pose proof H as H'. rewrite <-app_assoc in H'. rewrite (ends_tail _ _ _ _ _ _ _ H').
    assert (len q <> 0) as Hl0. { rewrite Hl, !zlen_app. pose proof (zlen_nonneg A'). pose proof (zlen_nonneg B). unfold zlen at 2. simpl. lia. }
    assert (tail q = last_of None ((A' ++ [(o, on)]) ++ B)) as Ht' by done. rewrite last_of_app, last_of_snoc in Ht'.
    assert (head q = first_of (A' ++ [(o, on)]) (Some a)) as Hh' by (rewrite Hh; by destruct A' as [|[? ?] ?]).
    case_bool_decide as HB; cbn [len set_ends]; rewrite (proj2 (Z.eqb_neq _ _)) by done; (split; [|done]);
      (eapply (holds_linked h0 h q (A' ++ [(o, on)]) B); [exact H|done|exact Hs4|exact Sb|exact Hh'| |done]); simpl.
    + by subst B.
    + rewrite Ht'. by destruct B as [|[? ?] ?].
Qed.

Lemma link_before h0 h q A B a p n nd : holds (<[a := mkLinked p n nd]> h0) h q (A ++ B) → h0 !! a = None →
  (B = [] → A = [] ∧ p = None) →
  post (link_node h q (first_of B None) a false) (λ '(h', q'), holds h0 h' q' (A ++ (a, nd) :: B) ∧ same_options q q' ∧
    ql_count q' = ql_count q ∧ bookmarks q' = bookmarks q).
Proof.
  intros H E0 HB. destruct (holds_base _ _ _ _ a _ H (lookup_insert_eq _ _ _)) as [Ha E]. pose proof H as [Hseg Hn Hh Ht Hl _ _].
  unfold link_node. eapply post_bind, post_eq; [by apply (set_next_eq h a p n (first_of B None) nd)|].
  destruct B as [|[o on] B].
  - destruct (HB eq_refl) as [-> ->]. simpl in *. rewrite Hh, bool_decide_true by done. simpl. rewrite Hl. simpl.
    split; [|done]. apply (holds_linked h0 h q [] [] a (mkLinked None n nd) nd); [done|done| | |done|done|simpl; by rewrite Hl].
    + simpl. split; [|done]. by rewrite lookup_insert_eq.
    + intros b _ Hba. by rewrite lookup_insert_ne.
  - simpl first_of in *. set (h1 := <[a := mkLinked p (Some o) nd]> h) in *.
    assert (o ≠ a) as Hoa by (intros ->; apply Ha; rewrite fmap_app; set_solver).
    assert (prev_of h1 o = Some (last_of None A)) as Hprev.
    { unfold prev_of, h1. rewrite lookup_insert_ne by done. by rewrite (holds_lookup _ _ _ _ _ _ _ H). }
    set (h2 := <[a := mkLinked (last_of None A) (Some o) nd]> h1).
    assert (seg h2 None (A ++ (o, on) :: B) None) as Hs2 by (unfold h2, h1; do 2 (apply seg_insert; [done|]); done).
    destruct (link_between h2 A a nd ((o, on) :: B) Hs2 Hn Ha) as (h3 & h4 & E3 & E4 & Hs4 & S4 & _); [apply lookup_insert_eq|].
    apply post_bind. next_is Hprev. next_is (set_prev_eq h1 a p (last_of None A) (Some o) nd (lookup_insert_eq h _ _)).
    next_is E3. cbn [set_prev_of first_of] in E4. rewrite E4. simpl. rewrite (ends_head _ _ _ _ _ _ _ H).
    assert (len q <> 0) as Hl0. { rewrite Hl, zlen_app, zlen_cons. pose proof (zlen_nonneg A). pose proof (zlen_nonneg B). lia. }
    assert (∀ b, (b ∉ (A ++ (o, on) :: B).*1) → b ≠ a → h4 !! b = h !! b) as Sb.
    { intros b Hb Hba. rewrite S4 by done. unfold h2, h1. by rewrite !lookup_insert_ne. }
    rewrite last_of_app in Ht. cbn [last_of] in Ht.
    case_bool_decide as HA; cbn [len set_ends]; rewrite (proj2 (Z.eqb_neq _ _)) by done; (split; [|done]);
      (eapply (holds_linked h0 h q A ((o, on) :: B)); [exact H|done|exact Hs4|exact Sb| |exact Ht|done]); simpl.
    + by subst A.
    + rewrite Hh. by destruct A as [|[? ?] ?].
Qed.

(** ** Unlinking *)

Lemma update_bookmark_fields q a x : head (update_bookmark q a x) = head q ∧ tail (update_bookmark q a x) = tail q ∧
  len (update_bookmark q a x) = len q ∧ ql_count (update_bookmark q a x) = ql_count q ∧ same_options q (update_bookmark q a x).
Proof. unfold update_bookmark. destruct (_quicklistBookmarkFindByNode q (Some a)); [|done]. by destruct x. Qed.

Lemma unlink_node_spec h0 h q A a nd B : holds h0 h q (A ++ (a, nd) :: B) →
  post (unlink_node h q a) (λ '(h', q'),
    holds (<[a := mkLinked (last_of None A) (first_of B None) nd]> h0) h' q' (A ++ B) ∧ h0 !! a = None ∧
    same_options q q' ∧ ql_count q' = ql_count q - count nd).
Proof.
  intros H. unfold unlink_node. next_is (holds_next _ _ _ _ _ _ _ H). next_is (holds_prev _ _ _ _ _ _ _ H).
  destruct (update_bookmark_fields q a (first_of B None)) as (Eh & Et & El & Ec & Eo). set (q1 := update_bookmark q a (first_of B None)) in *.
  apply (holds_header _ _ _ q1) in H; [|done..]. pose proof (holds_lookup _ _ _ _ _ _ _ H) as Ea.
  pose proof (ends_head _ _ _ _ _ _ _ H) as Hhead. pose proof (ends_tail _ _ _ _ _ _ _ H) as Htail.
  pose proof H as [Hseg Hn Hh Ht Hl Hs Hf].
  destruct (unlink_between h A a nd B Hseg Hn) as (h1' & h2 & E1' & E2' & Hs2 & Ea2 & S2 & _).
  destruct (set_commute _ _ _ _ _ _ _ E1' E2') as (h1 & E1 & E2). next_is E1. next_is E2.
  unfold node_at. rewrite Ea2, Ea. cbn [mbind option_bind value post].
  assert (a ∈ (A ++ (a, nd) :: B).*1) as Hin by (rewrite fmap_app; set_solver). apply nodup_middle in Hn as [Hna Hn'].
  rewrite (bool_decide_ext (Some a = tail q1) (tail q1 = Some a)) by done. rewrite Htail. clear Htail.
  set (q2 := if bool_decide (B = []) then _ else _).
  assert (head q2 = head q1 ∧ len q2 = len q1 ∧ ql_count q2 = ql_count q1 ∧ same_options q1 q2 ∧
    tail q2 = last_of (last_of None A) B) as (Eh2 & El2 & Ec2 & Eo2 & Et2).
  { clear Hhead. rewrite last_of_app in Ht. unfold q2. case_bool_decide as HB; simpl; [rewrite HB; done|]. split_and!; try done. rewrite Ht. by destruct B as [|[? ?] ?]. }
  rewrite (bool_decide_ext (Some a = head q2) (head q1 = Some a)) by (rewrite Eh2; done). rewrite Hhead. clear Hhead.
  assert (∀ b, (b ∉ (A ++ B).*1) → h2 !! b = <[a := mkLinked (last_of None A) (first_of B None) nd]> h0 !! b) as Hb.
  { intros b Hb. rewrite S2 by done. destruct (decide (b = a)) as [->|Hne]; [by rewrite Ea, lookup_insert_eq|]. rewrite lookup_insert_ne by done.
    apply Hs. rewrite fmap_app, fmap_cons. rewrite fmap_app, not_elem_of_app in Hb. rewrite not_elem_of_app, not_elem_of_cons. naive_solver. }
  split; [|split; [by apply Hf|]].
  - constructor; [done|done| | | |exact Hb|].
    + simpl. case_bool_decide as HA; simpl; [by rewrite HA|]. rewrite Eh2, Hh. by destruct A as [|[? ?] ?].
    + simpl. rewrite last_of_app. by case_bool_decide.
    + simpl. rewrite !zlen_app, zlen_cons in Hl. rewrite zlen_app. case_bool_decide; simpl; lia.
    + intros b Hin'. rewrite lookup_insert_ne by (intros ->; done). apply Hf. rewrite fmap_app, fmap_cons. rewrite fmap_app in Hin'. set_solver.
  - unfold same_options in *. case_bool_decide; simpl; (split; [split|]); destruct Eo, Eo2; congruence.
Qed.

Lemma holds_free h0 h q ns a c : holds (<[a := c]> h0) h q ns → h0 !! a = None → holds h0 (delete a h) q ns.
Proof.
  intros H E0. destruct (holds_base _ _ _ _ a _ H (lookup_insert_eq _ _ _)) as [Ha _]. destruct H as [Hseg Hn Hh Ht Hl Hs Hf].
  constructor; try done.
  - by apply seg_delete.
  - intros b Hb. destruct (decide (b = a)) as [->|]; [by rewrite lookup_delete_eq|]. rewrite lookup_delete_ne, Hs by done. by rewrite lookup_insert_ne.
  - intros b Hb. rewrite <-(lookup_insert_ne h0 a b c); [by apply Hf|]. by intros ->.
Qed.

(** Two lists in the same heap, in either order. *)
Lemma holds_swap h0 h1 q ns h q' ns' : holds h0 h1 q ns → holds h1 h q' ns' → ∃ h', holds h0 h' q' ns' ∧ holds h' h q ns.
Proof.
  intros H H'. pose proof (hold_seg _ _ _ _ H) as Hseg. set (h' := filter (λ p, p.1 ∉ ns.*1) h : heap).
  assert (∀ a, a ∈ ns.*1 → h' !! a = None) as Hin by (intros a Ha; apply map_lookup_filter_None; right; naive_solver).
  assert (∀ a, (a ∉ ns.*1) → h' !! a = h !! a) as Hout.
  { intros a Ha. unfold h'. rewrite map_lookup_filter. destruct (h !! a) as [c|]; [|done]. cbn [mbind option_bind]. by rewrite option_guard_True. }
  assert (∀ a, a ∈ ns'.*1 → a ∉ ns.*1) as Hdis.
  { intros a Ha' Ha. destruct (seg_elem _ _ _ _ _ Hseg Ha) as [? E]. rewrite (hold_fresh _ _ _ _ H' a Ha') in E. done. }
  exists h'. split.
  - pose proof H' as [Hseg' Hn Hh Ht Hl Hs Hf]. constructor; try done.
    + apply (seg_agree h); [|done]. intros a Ha. apply Hout. by apply Hdis.
    + intros a Ha. destruct (decide (a ∈ ns.*1)) as [Hi|Hi]; [by rewrite Hin, (hold_fresh _ _ _ _ H)|]. rewrite Hout, Hs by done. by apply (hold_same _ _ _ _ H).
    + intros a Ha. rewrite <-(hold_same _ _ _ _ H a (Hdis a Ha)). by apply Hf.
  - destruct H as [_ Hn Hh Ht Hl _ _]. constructor; try done; [|by intros; rewrite Hout].
    apply (seg_agree h1); [|done]. intros a Ha. apply (hold_same _ _ _ _ H'). intros Ha'. by eapply Hdis.
Qed.

(** ** Allocation *)

Definition fresh_node : quicklistNode := mkNode NULL 0 0 RAW PACKED false false.

Lemma create_holds zmalloc h0 h q ns : (∀ h, h !! zmalloc h = None) → holds h0 h q ns →
  ∃ h' a, quicklistCreateNode zmalloc h = (h', a) ∧ holds (<[a := mkLinked None None fresh_node]> h0) h' q ns ∧ h0 !! a = None.
Proof.
  intros Hm H. eexists _, _. split; [done|]. pose proof (Hm h) as Ha. set (a := zmalloc h) in *.
  assert (a ∉ ns.*1) as Hna.
  { intros Hin. destruct (seg_elem _ _ _ _ _ (hold_seg _ _ _ _ H) Hin) as [? E]. congruence. }
  split; [by apply holds_insert_base|]. by rewrite <-(hold_same _ _ _ _ H a Hna).
Qed.

End QuicklistRepr.
