(* ===== verification/QuicklistNodes.v ===== *)
(** * Quicklists: what a node holds

    [content f nd vs]: the node stands for the elements [vs], whatever its container
    and encoding; [f] is the fill factor, which bounds the size of the elements and
    their number in a packed node. *)

From stdpp Require Import gmap.
From S2P Require Import Prelude Util Lzf LzfProofs Listpack ListpackRepr ListpackElem ListpackEdit ListpackValues Post Linked Quicklist QuicklistRepr.

Module QuicklistNodes.
Import Listpack ListpackElem ListpackEdit ListpackValues ListpackRepr Post Quicklist Linked QuicklistRepr.

(** ** Limits *)

Definition fill_ok (f : Z) : Prop := -5 <= f <= FILL_MAX.

(** The size of the largest element of a packed node, the number of elements and the
    size of an entry. *)
Definition limit (f : Z) : Z :=
  if 0 <=? f then SIZE_SAFETY_LIMIT
  else match quicklistNodeNegFillLimit f with Some size => size | None => 0 end.
Definition cap (f : Z) : Z := if 0 <=? f then 32767 else 32764.
Definition width (f : Z) : Z := if 0 <=? f then 8200 else 65544.

Lemma neg_limit f : -5 <= f < 0 → ∃ l, quicklistNodeNegFillLimit f = Some l ∧ 4096 <= l <= 65536.
Proof.
  intros Hf. assert (f = -1 ∨ f = -2 ∨ f = -3 ∨ f = -4 ∨ f = -5) as H by lia.
  destruct H as [->|[->|[->|[->| ->]]]]; eexists; (split; [vm_compute; reflexivity|lia]).
Qed.

Lemma limit_cases f : fill_ok f →
  (0 <= f ∧ limit f = 8192 ∧ cap f = 32767 ∧ width f = 8200) ∨
  (f < 0 ∧ quicklistNodeNegFillLimit f = Some (limit f) ∧ 4096 <= limit f <= 65536 ∧ cap f = 32764 ∧ width f = 65544).
Proof.
  unfold fill_ok, limit, cap, width. intros Hf. destruct (0 <=? f) eqn:E; zb; [by left|right].
  destruct (neg_limit f) as (l & -> & ?); [lia|]. done.
Qed.


Lemma large_spec f size : fill_ok f → isLargeElement 0 size f = Some (limit f <? size).
Proof.
  intros Hf. unfold isLargeElement, sizeMeetsSafetyLimit, SIZE_SAFETY_LIMIT. simpl.
  destruct (limit_cases f Hf) as [(? & -> & _)|(? & E & _)].
  - rewrite (proj2 (Z.leb_le _ _)) by done. f_equal. destruct (size <=? 8192) eqn:E1, (8192 <? size) eqn:E2; zb; done || lia.
  - rewrite (proj2 (Z.leb_gt _ _)) by done. by rewrite E.
Qed.

Lemma cap_range f : 0 < cap f <= 32767.
Proof. unfold cap. case_if; lia. Qed.

(** ** Packed elements *)

Record packed (f : Z) (b : list Z) (es : list (list Z)) : Prop := {
  pk_repr : repr b es;
  pk_count : zlen es <= cap f;
  pk_width : Forall (λ e, zlen (ListpackRepr.entry e) <= width f) es;
  pk_strs : Forall str_ok (strs es)
}.

(** Even at its largest a node stays below 2^31 bytes, and two together below 2^32. *)
Definition max_total : Z := 2147483623.

Lemma body_width f es : Forall (λ e, zlen (ListpackRepr.entry e) <= width f) es → zlen (body es) <= zlen es * width f.
Proof.
  induction 1 as [|e es He _ IH]; [done|]. rewrite body_cons, zlen_app, zlen_cons. lia.
Qed.

Lemma packed_total f b es : packed f b es → 7 <= total es <= max_total.
Proof.
  intros [_ Hc Hw _]. split; [apply total_nonneg|]. pose proof (body_width f es Hw) as Hb. pose proof (zlen_nonneg es).
  unfold total, LP_HDR_SIZE, max_total, cap, width in *. destruct (0 <=? f); nia.
Qed.

Lemma elem_fits f v : fill_ok f → str_ok v → zlen v <= limit f →
  valid_enc (encode_string v) ∧ vbytes (entry_value (encode_string v)) = v ∧ zlen (ListpackRepr.entry (encode_string v)) <= width f.
Proof.
  intros Hf Hv Hl. destruct (str_ok_len v Hv) as [Hwf Hu].
  assert (0 <= limit f <= 65536 ∧ limit f + 8 <= width f ∧ (width f = 65544 ∨ limit f = 8192 ∧ width f = 8200)) as (Hlim & Hw & Hcase).
  { destruct (limit_cases f Hf) as [(? & -> & _ & ->)|(? & _ & ? & _ & ->)]; lia. }
  pose proof (zlen_nonneg v) as Hv0.
  assert (zlen (ListpackRepr.entry (encode_string v)) <= width f) as Hsize.
  { rewrite zlen_entry. unfold encode_string. destruct (lpStringToInt64 v) as [n|] eqn:Hn.
    - rewrite lpStringToInt64_eq in Hn. apply Util.string2ll_spec in Hn as [Hn _]. pose proof (int_enc_len n Hn).
      pose proof (backlen_bytes_range (zlen (lpEncodeIntegerGetType n))). lia.
    - rewrite str_enc_len. unfold lpEncodeBacklenBytes. repeat case_if; lia. }
  split; [|split; [|done]].
  - apply (encode_entry_valid (inl v)); [done|]. simpl. rewrite zlen_entry in Hsize. pose proof (backlen_bytes_range (zlen (encode_string v))). unfold UINT32_MAX. lia.
  - apply (entry_of_value (VStr v)); [done|]. simpl. rewrite zlen_entry in Hsize. pose proof (backlen_bytes_range (zlen (encode_string v))). unfold UINT32_MAX. lia.
Qed.

Lemma strs_take i es : strs (take i es) = take i (strs es).
Proof. unfold strs. by rewrite fmap_take. Qed.
Lemma strs_drop i es : strs (drop i es) = drop i (strs es).
Proof. unfold strs. by rewrite fmap_drop. Qed.
Lemma strs_zlen es : zlen (strs es) = zlen es.
Proof. unfold strs, zlen. by rewrite length_fmap. Qed.

(** The same entries and one more. *)
Lemma packed_new f b es b' es' v : fill_ok f → packed f b es → repr b' es' → str_ok v → zlen v <= limit f →
  es' ≡ₚ encode_string v :: es → zlen es + 1 <= cap f → packed f b' es'.
Proof.
  intros Hf [_ Hc Hw Hs] Hr Hv Hl Hp Hn. destruct (elem_fits f v Hf Hv Hl) as (_ & E & Hsz).
  assert (strs es' ≡ₚ v :: strs es) as Hps by (rewrite <-E at 1; by apply (fmap_Permutation (λ e, vbytes (entry_value e)) _ (_ :: _))).
  constructor; [done| |rewrite Hp; by constructor|rewrite Hps; by constructor].
  unfold zlen in *. apply Permutation_length in Hp. rewrite Hp. simpl. lia.
Qed.

(** Fewer entries. *)
Lemma packed_sub f b es b' es' : packed f b es → repr b' es' → es' ⊆+ es → packed f b' es'.
Proof.
  intros [_ Hc Hw Hs] Hr Hsub. apply submseteq_Permutation in Hsub as [k Hk].
  assert (strs es ≡ₚ strs es' ++ strs k) as Hps by (rewrite <-strs_app; by apply fmap_Permutation).
  rewrite Hk in Hw. rewrite Hps in Hs. apply Forall_app in Hw as [Hw _]. apply Forall_app in Hs as [Hs _].
  constructor; try done. apply Permutation_length in Hk. rewrite length_app in Hk. unfold zlen in *. lia.
Qed.

(** A store that fits succeeds. *)
Lemma stores_fits res es p : stores res es p → total es <= UINT32_MAX → ∃ lp, res = Some (Some (lp, p)) ∧ repr lp es.
Proof. intros [[_ Hbad]|(_ & lp & -> & Hr)] Ht; [lia|]. by exists lp. Qed.

Section Ops.
Context (junk : Z) (Hjunk : is_byte junk) (f : Z) (Hf : fill_ok f).

(** The total after one more element. *)
Lemma total_new es es' v : es' ≡ₚ encode_string v :: es → zlen es + 1 <= cap f → str_ok v → zlen v <= limit f →
  Forall (λ e, zlen (ListpackRepr.entry e) <= width f) es → total es' <= max_total.
Proof using Hf.
  intros Hp Hn Hv Hl Hw. destruct (elem_fits f v Hf Hv Hl) as (_ & _ & Hsz).
  assert (Forall (λ e, zlen (ListpackRepr.entry e) <= width f) es') as Hw' by (rewrite Hp; by constructor).
  pose proof (body_width f es' Hw') as Hb. assert (zlen es' = zlen es + 1) as El.
  { unfold zlen. rewrite Hp. simpl. lia. }
  pose proof (zlen_nonneg es). unfold total, LP_HDR_SIZE, max_total, cap, width in *. destruct (0 <=? f); nia.
Qed.

Lemma packed_prepend b es v : packed f b es → zlen es + 1 <= cap f → str_ok v → zlen v <= limit f →
  ∃ b', lp_prepend junk v b = Some b' ∧ packed f b' (encode_string v :: es).
Proof using Hf.
  intros Hp Hn Hv Hl. pose proof Hp as [Hr _ Hw _]. destruct (proj2 (lp_push_correct junk) b es (inl v) Hr (str_ok_len v Hv)) as [_ H].
  simpl in H. destruct (stores_fits _ _ _ H) as (b' & E & Hr').
  { pose proof (total_new es _ v (Permutation_refl _) Hn Hv Hl Hw). unfold max_total, UINT32_MAX in *. lia. }
  exists b'. unfold lp_prepend. rewrite E. split; [done|]. by eapply packed_new.
Qed.

Lemma packed_append b es v : packed f b es → zlen es + 1 <= cap f → str_ok v → zlen v <= limit f →
  ∃ b', lp_append junk v b = Some b' ∧ packed f b' (es ++ [encode_string v]).
Proof using Hf.
  intros Hp Hn Hv Hl. pose proof Hp as [Hr _ Hw _]. destruct (proj2 (lp_push_correct junk) b es (inl v) Hr (str_ok_len v Hv)) as [H _].
  simpl in H. assert (es ++ [encode_string v] ≡ₚ encode_string v :: es) as Hperm by (symmetry; apply Permutation_cons_append).
  destruct (stores_fits _ _ _ H) as (b' & E & Hr').
  { pose proof (total_new es _ v Hperm Hn Hv Hl Hw). unfold max_total, UINT32_MAX in *. lia. }
  exists b'. unfold lp_append. rewrite E. split; [done|]. by eapply packed_new.
Qed.

Lemma packed_nil : ∃ b, lpNew junk 0 = Some b ∧ packed f b [].
Proof using Hf Hjunk.
  destruct (new_listpack junk 0 Hjunk) as (b & -> & Hr). exists b. split; [done|]. pose proof (cap_range f). constructor; [done|unfold zlen; simpl; lia|constructor..].
Qed.

Lemma packed_single v : str_ok v → zlen v <= limit f → ∃ b, lp_single junk v = Some b ∧ packed f b [encode_string v].
Proof using Hf Hjunk.
  intros Hv Hl. destruct packed_nil as (b0 & E & Hp). unfold lp_single. rewrite E. cbn [mbind option_bind]. pose proof (cap_range f).
  apply packed_prepend; [done|unfold zlen; simpl; lia|done|done].
Qed.

Lemma perm_insert k (es : list (list Z)) e : take k es ++ e :: drop k es ≡ₚ e :: es.
Proof. rewrite <-Permutation_middle. by rewrite take_drop. Qed.

Lemma packed_insert b es j v (after : bool) : packed f b es → (j < length es)%nat → zlen es + 1 <= cap f → str_ok v → zlen v <= limit f →
  let k := if after then S j else j in
  ∃ b', not_null (lpInsertString junk b v (pos (take j es)) (if after then LP_AFTER else LP_BEFORE)) = Some b' ∧
    packed f b' (take k es ++ encode_string v :: drop k es).
Proof using Hf.
  intros Hp Hj Hn Hv Hl k. pose proof Hp as [Hr _ Hw _]. pose proof (perm_insert k es (encode_string v)) as Hperm.
  pose proof (total_new es _ v Hperm Hn Hv Hl Hw) as Ht. destruct (lpInsert_correct junk b es j (inl v) Hr) as [H1 H2]; [lia|by apply str_ok_len|].
  destruct (H2 Hj) as [H3 _]. simpl in H1, H3.
  assert (stores (lpInsertString junk b v (pos (take j es)) (if after then LP_AFTER else LP_BEFORE))
    (take k es ++ encode_string v :: drop k es) (Some (pos (take k es)))) as H by (by destruct after).
  destruct (stores_fits _ _ _ H) as (b' & -> & Hr'); [unfold max_total, UINT32_MAX in *; lia|].
  exists b'. split; [done|]. by eapply packed_new.
Qed.

Lemma packed_replace b es j v : packed f b es → (j < length es)%nat → str_ok v → zlen v <= limit f →
  ∃ b' p, lpReplace junk b (pos (take j es)) v = Some (Some (b', p)) ∧ packed f b' (<[j := encode_string v]> es).
Proof using Hf.
  intros Hp Hj Hv Hl. pose proof Hp as [Hr Hc Hw Hs]. destruct (elem_fits f v Hf Hv Hl) as (Hval & E & Hsz).
  destruct (proj2 (lpInsert_correct junk b es j (inl v) Hr ltac:(lia) (str_ok_len v Hv)) Hj) as [_ H]. simpl in H.
  assert (Forall (λ e, zlen (ListpackRepr.entry e) <= width f) (<[j:=encode_string v]> es)) as Hw' by (by apply Forall_insert).
  destruct (stores_fits _ _ _ H) as (b' & E' & Hr').
  { pose proof (body_width f _ Hw') as Hb. assert (zlen (<[j:=encode_string v]> es) = zlen es) as El by (unfold zlen; by rewrite length_insert).
    rewrite El in Hb. pose proof (zlen_nonneg es). unfold total, LP_HDR_SIZE, UINT32_MAX, cap, width in *. destruct (0 <=? f); nia. }
  exists b', (Some (pos (take j es))). split; [exact E'|]. constructor; [done|unfold zlen in *; by rewrite length_insert|done|].
  unfold strs. rewrite list_fmap_insert, E. by apply Forall_insert.
Qed.

Lemma packed_delete b es j : packed f b es → (j < length es)%nat →
  ∃ b', lpDelete junk b (pos (take j es)) = Some (Some (b', ptr (delete j es) j)) ∧ packed f b' (delete j es).
Proof.
  intros Hp Hj. destruct (lpDelete_correct junk b es j (pk_repr _ _ _ Hp) Hj) as (b' & E & Hr'). exists b'. split; [done|].
  eapply packed_sub; [done|done|]. apply sublist_submseteq, sublist_delete.
Qed.

Lemma packed_delete_range b es index num : packed f b es → INT64_MIN <= index <= INT64_MAX → 0 <= num <= UINT64_MAX →
  let i := if index <? 0 then zlen es + index else index in 0 <= i → i < zlen es →
  ∃ b', lpDeleteRange junk b index num = Some b' ∧ packed f b' (take (Z.to_nat i) es ++ drop (Z.to_nat (i + num)) es).
Proof.
  intros Hp Hi Hn i H0 H1. destruct (lpDeleteRange_correct junk b es index num (pk_repr _ _ _ Hp) Hi Hn) as (b' & E & Hr'). exists b'. split; [done|].
  cbv zeta in Hr'. fold i in Hr'. rewrite (proj2 (Z.leb_le 0 i)), (proj2 (Z.ltb_lt i _)) in Hr' by done. simpl in Hr'.
  eapply packed_sub; [done|done|]. transitivity (take (Z.to_nat i) es ++ drop (Z.to_nat i) es); [|by rewrite take_drop]. apply submseteq_app; [done|].
  replace (Z.to_nat (i + num)) with (Z.to_nat i + Z.to_nat num)%nat by lia. rewrite <-drop_drop. apply sublist_submseteq, sublist_drop.
Qed.

Lemma packed_merge b1 es1 b2 es2 : packed f b1 es1 → packed f b2 es2 → zlen es1 + zlen es2 <= cap f →
  ∃ b, lpMerge junk b1 b2 = Some (b, total es2 <=? total es1) ∧ packed f b (es1 ++ es2).
Proof.
  intros Hp1 Hp2 Hn. pose proof (packed_total _ _ _ Hp1). pose proof (packed_total _ _ _ Hp2).
  pose proof (lpMerge_correct junk b1 b2 es1 es2 (pk_repr _ _ _ Hp1) (pk_repr _ _ _ Hp2)) as H'.
  rewrite total_merge in H'. rewrite (proj2 (Z.ltb_lt _ _)) in H' by (unfold LP_HDR_SIZE, max_total, UINT32_MAX in *; lia).
  destruct H' as (b & E & Hr). exists b. split; [done|]. destruct Hp1 as [_ _ Hw1 Hs1], Hp2 as [_ _ Hw2 Hs2].
  constructor; [done|rewrite zlen_app; lia|by apply Forall_app|rewrite strs_app; by apply Forall_app].
Qed.
End Ops.

Lemma packed_bytes f b es : packed f b es → lpBytes b = Some (total es).
Proof. intros [(num & slack & -> & _ & _ & Ht & _) _ _ _]. by apply total_bytes_image. Qed.

Lemma packed_length f b es : packed f b es → ∃ b', lpLength b = Some (zlen es, b') ∧ packed f b' es.
Proof.
  intros Hp. pose proof Hp as [Hr ? ? ?]. destruct (lpLength_correct b es Hr) as (b' & E & Hr'). exists b'. split; [done|]. by constructor.
Qed.

(** The bytes counted by [lpBytes] are a listpack of their own. *)
Lemma packed_take f b es : packed f b es → total es <= zlen b ∧ packed f (take (Z.to_nat (total es)) b) es.
Proof.
  intros [(num & slack & -> & Hn & Hv & Ht & Hs) ? ? ?]. pose proof (image_len num es slack) as Hl. pose proof (zlen_nonneg slack).
  split; [lia|]. assert (image num es slack = image num es [] ++ slack) as E by (unfold image; by rewrite <-!app_assoc).
  pose proof (image_len num es []) as Hl0. change (zlen []) with 0 in Hl0. rewrite E, take_app_length' by (unfold zlen in *; lia).
  constructor; [|done..]. exists num, []. by split_and!; [..|constructor].
Qed.

Lemma packed_wf f b es : packed f b es → wf_bytes b.
Proof. intros []. by eapply repr_wf. Qed.

Lemma packed_seek f b es i : packed f b es → lpSeek b i = Some (ptr_z es i).
Proof. intros []. by apply lpSeek_correct. Qed.

Lemma packed_get f b es j v : packed f b es → strs es !! j = Some v → ∃ x, get_value b (pos (take j es)) = Some x ∧ vbytes x = v ∧ value_ok x.
Proof.
  intros [Hr _ _ Hs] Hj. unfold strs in Hj. rewrite list_lookup_fmap in Hj. destruct (es !! j) as [e|] eqn:E; [|done]. injection Hj as <-.
  assert (str_ok (vbytes (entry_value e))) as Hok.
  { apply (Forall_lookup_1 _ _ j _ Hs). unfold strs. by rewrite list_lookup_fmap, E. }
  exists (entry_value e). split; [apply get_value_spec; auto|]. split; [done|].
  destruct Hr as (? & ? & _ & _ & Hv & _). destruct (entry_value e) as [s|n] eqn:Ev; [exact Hok|]. simpl.
  eapply entry_int_ok; [|exact Ev]. by eapply Forall_lookup_1.
Qed.

Lemma packed_next f b es j : packed f b es → (j < length es)%nat →
  lpNext b (pos (take j es)) = Some (ptr es (S j)) ∧ lpPrev b (pos (take j es)) = Some (match j with O => None | S i => ptr es i end).
Proof. intros [Hr _ _ _] Hj. by apply lp_traversal_correct. Qed.
End QuicklistNodes.
