(* ===== verification/QuicklistCompress.v ===== *)
(** * Quicklists: compression

    Compressing and decompressing nodes keeps what they hold; [__quicklistCompress]
    leaves the nodes near both ends uncompressed. *)

From stdpp Require Import gmap.
From S2P Require Import Prelude Util Lzf LzfProofs Listpack ListpackRepr ListpackElem ListpackEdit ListpackValues Post Linked Quicklist QuicklistRepr QuicklistNodes.

Module QuicklistCompress.
Import ListpackValues ListpackRepr Post Quicklist Linked QuicklistRepr QuicklistNodes.

(** ** Contents *)

(** The bytes of a node, once it is decompressed. *)
Inductive bytes_of (nd : quicklistNode) (b : list Z) : Prop :=
  | bytes_raw : encoding nd = RAW → entry nd = Bytes b → bytes_of nd b
  | bytes_lzf c : encoding nd = LZF → entry nd = Compressed (zlen c) c → recompress nd = false →
      zlen b = sz nd → 0 < sz nd → LzfProofs.restores c b → bytes_of nd b.

Definition payload (f : Z) (c : node_container) (s : Z) (b : list Z) (vs : list (list Z)) : Prop :=
  match c with
  | PLAIN => vs = [b] ∧ s = zlen b ∧ str_ok b
  | PACKED => ∃ es, packed f b es ∧ es ≠ [] ∧ s = total es ∧ vs = strs es
  end.

Definition content (f : Z) (nd : quicklistNode) (vs : list (list Z)) : Prop :=
  ∃ b, bytes_of nd b ∧ payload f (container nd) (sz nd) b vs.

(** Another representation of the same node. *)
Definition recoded (f : Z) (nd nd' : quicklistNode) : Prop :=
  (sz nd' = sz nd ∧ count nd' = count nd ∧ container nd' = container nd ∧ dont_compress nd' = dont_compress nd) ∧
  (recompress nd' = true → recompress nd = true) ∧ (∀ vs, content f nd vs → content f nd' vs) ∧
  (dont_compress nd = true → encoding nd = RAW → nd' = nd).

#[export] Instance recoded_preorder f : PreOrder (recoded f).
Proof.
  split; [by intros nd|]. intros a b c ((? & ? & ? & Ed) & Hr & Hc & Hd) ((? & ? & ? & ?) & Hr' & Hc' & Hd').
  split_and!; try congruence; [auto..|]. intros E1 E2. pose proof (Hd E1 E2) as ->. by apply Hd'.
Qed.

(** What is compressed is at most the bytes that [sz] counts. *)
Lemma payload_take f c s b vs : payload f c s b vs →
  0 <= s <= INT32_MAX ∧ s <= zlen b ∧ payload f c s (take (Z.to_nat s) b) vs ∧ wf_bytes (take (Z.to_nat s) b).
Proof.
  destruct c; simpl.
  - intros (-> & -> & Hwf & Hl). pose proof (zlen_nonneg b). rewrite (take_ge b) by (unfold zlen; lia). by split_and!.
  - intros (es & Hp & Hne & -> & ->). destruct (packed_take f b es Hp) as [Hl Hp']. pose proof (packed_total f b es Hp).
    unfold max_total, INT32_MAX in *. split_and!; [lia|lia|done|by exists es|by eapply packed_wf].
Qed.

Lemma content_count f nd vs : content f nd vs → vs ≠ [].
Proof.
  intros (b & _ & H). destruct (container nd); simpl in H; [by destruct H as (-> & _)|].
  destruct H as (es & _ & Hne & _ & ->). by destruct es.
Qed.

Lemma content_strs f nd vs : content f nd vs → Forall str_ok vs.
Proof.
  intros (b & _ & H). destruct (container nd); simpl in H.
  - destruct H as (-> & _ & ?). by constructor.
  - by destruct H as (es & [] & _ & _ & ->).
Qed.

Lemma content_raw f nd vs : content f nd vs → encoding nd = RAW → ∃ b, raw nd = Some b ∧ payload f (container nd) (sz nd) b vs.
Proof. intros (b & [E1 E2|c E1 _ _ _ _ _] & H) E; [|congruence]. exists b. unfold raw. by rewrite E2. Qed.

(** ** Sequences of nodes *)

Abbreviation nodes := (list (address * quicklistNode)).

Definition recodes (f : Z) (ns ns' : nodes) : Prop := Forall2 (λ p p', p.1 = p'.1 ∧ recoded f p.2 p'.2) ns ns'.
Definition reads (f : Z) (ns : nodes) (vss : list (list (list Z))) : Prop := Forall2 (λ p vs, content f p.2 vs) ns vss.

#[export] Instance recodes_preorder f : PreOrder (recodes f).
Proof.
  split.
  - intros ns. induction ns; by constructor.
  - intros ns1 ns2 ns3 H1. revert ns3. induction H1 as [|x y l1 l2 [E1 Hr1] _ IH]; intros ns3 H2; [done|].
    inversion H2 as [|y' z l2' l3 [E2 Hr2] H3]; subst. constructor; [|by apply IH]. split; [congruence|by etransitivity].
Qed.

Lemma recodes_app f A B A' B' : recodes f A A' → recodes f B B' → recodes f (A ++ B) (A' ++ B').
Proof. apply Forall2_app. Qed.

Lemma recodes_one f A a nd nd' B : recoded f nd nd' → recodes f (A ++ (a, nd) :: B) (A ++ (a, nd') :: B).
Proof. intros H. apply recodes_app; [done|]. by constructor. Qed.

Lemma recodes_keys f ns ns' : recodes f ns ns' → ns'.*1 = ns.*1.
Proof. induction 1 as [|x y ? ? [E _] _ IH]; [done|]. by rewrite !fmap_cons, E, IH. Qed.

Lemma recodes_length f ns ns' : recodes f ns ns' → length ns' = length ns.
Proof. intros H. symmetry. by eapply Forall2_length. Qed.

Lemma recodes_counts f ns ns' : recodes f ns ns' → (λ p, count p.2) <$> ns' = (λ p, count p.2) <$> ns.
Proof. induction 1 as [|x y ? ? [_ ((_ & E & _) & _)] _ IH]; [done|]. by rewrite !fmap_cons, E, IH. Qed.

Lemma recodes_reads f ns ns' vss : recodes f ns ns' → reads f ns vss → reads f ns' vss.
Proof.
  intros H. revert vss. induction H as [|x y ? ? [_ (_ & _ & Hr & _)] _ IH]; intros vss H; inversion_clear H; constructor; auto. by apply IH.
Qed.

(** Pieces of a recoded sequence. *)
Lemma recodes_split f A a nd B ns' : recodes f (A ++ (a, nd) :: B) ns' →
  ∃ A' nd' B', ns' = A' ++ (a, nd') :: B' ∧ recodes f A A' ∧ recoded f nd nd' ∧ recodes f B B'.
Proof.
  intros H. apply Forall2_app_inv_l in H as (A' & ns1 & HA & H1 & ->). inversion H1 as [|x [b nd'] l l' [E Hr] HB E1 E2]; subst.
  simpl in E. subst. by exists A', nd', l'.
Qed.

(** The nodes that must not be compressed. *)
Definition settled (nd : quicklistNode) : Prop := encoding nd = RAW ∧ recompress nd = false.
Definition in_depth (d n i : nat) : Prop := d = 0%nat ∨ (i < d)%nat ∨ (n <= i + d)%nat.
Definition depth_ok (d : nat) (ns : nodes) : Prop := ∀ i p, ns !! i = Some p → in_depth d (length ns) i → settled p.2.

(** A list that a deletion has made shorter. *)
Definition ready (d : nat) (ns : nodes) : Prop :=
  (∀ i p, ns !! i = Some p → in_depth d (length ns) i → recompress p.2 = false) ∧
  (d = 0%nat ∨ (length ns < 2 * d)%nat → Forall (λ p, encoding p.2 = RAW) ns).

Lemma depth_ready d ns : depth_ok d ns → ready d ns.
Proof.
  intros H. split; [intros i p Hi Hd; by apply (H i p)|]. intros Hs. apply Forall_lookup. intros i p Hi. apply (H i p Hi).
  apply lookup_lt_Some in Hi. unfold in_depth. lia.
Qed.

Section Compress.
Context (junk : Z) (in_data : heap → Z) (htab0 : heap → Z → Z) (f : Z).
Context (Hin : ∀ h, Lzf.MAX_OFF <= in_data h ∧ in_data h + INT32_MAX < 2 ^ 64) (Htab : ∀ h i, 0 <= htab0 h i < 2 ^ 64).

(** A compressed copy of the bytes can be decompressed. *)
Lemma lzf_copy h inp out0 : wf_bytes inp → 1 < zlen inp <= INT32_MAX →
  ∃ n out, Lzf.lzf_compress (in_data h) inp (htab0 h) out0 = Some (n, out) ∧ 0 <= n <= zlen out0 ∧
    (n ≠ 0 → ∃ c, rd 0 n out = Some c ∧ zlen c = n ∧ LzfProofs.restores c inp).
Proof using Hin Htab.
  intros Hw Hl. destruct (Hin h) as [H1 H2].
  destruct (LzfProofs.lzf_compress_spec (in_data h) inp Hw H1 ltac:(lia) (htab0 h) out0 (proj1 Hl) (Htab h)) as (n & out & E & Hz & Hn & _ & Hts).
  exists n, out. split; [done|]. split; [done|]. intros Hn0. destruct (Hts Hn0) as (ts & Ec & Hok & Hexp).
  assert (zlen (take (Z.to_nat n) out) = n) as Hcl by (rewrite zlen_take; lia).
  exists (take (Z.to_nat n) out). split; [|split; [done|]].
  - rewrite <-(take_drop (Z.to_nat n) out) at 1. apply rd_head. by rewrite Hcl.
  - rewrite Ec, <-Hexp. apply LzfProofs.lzf_decompress_tokens; [done|by rewrite Hexp].
Qed.

Lemma recoded_recompress nd : encoding nd = RAW → dont_compress nd = false → recoded f nd (set_recompress false nd).
Proof.
  intros E Hd. split_and!; try done; [|by rewrite Hd]. intros vs (b & Hb & Hp). exists b. split; [|done].
  destruct Hb as [E1 E2|c E1 _ _ _ _ _]; [by left|congruence].
Qed.

Lemma compress_node_spec h0 h q A a nd B vs : holds h0 h q (A ++ (a, nd) :: B) → A ≠ [] → B ≠ [] → content f nd vs → encoding nd = RAW →
  post (__quicklistCompressNode junk in_data htab0 h a) (λ '(h', _),
    ∃ nd', holds h0 h' q (A ++ (a, nd') :: B) ∧ recoded f nd nd' ∧ (recompress nd' = true → dont_compress nd = true)).
Proof using Hin Htab.
  intros H HA HB Hc Hraw. unfold __quicklistCompressNode. next_is (holds_node _ _ _ _ _ _ _ H).
  destruct (dont_compress nd) eqn:Hd; [by exists nd|].
  next_is (holds_prev _ _ _ _ _ _ _ H). next_is (holds_next _ _ _ _ _ _ _ H).
  rewrite !bool_decide_true; [|destruct B as [|[]]; [done|by eexists]|].
  2:{ destruct (last_of_cases None A) as [[? _]|(? & ? & ? & _ & ->)]; [done|by eexists]. }
  simpl. call (update_holds _ _ _ _ _ _ _ (set_recompress false) H). intros h1 H1.
  pose proof (recoded_recompress nd Hraw Hd) as Hrec1.
  destruct (sz nd <? MIN_COMPRESS_BYTES) eqn:Hsz; zb; [by exists (set_recompress false nd)|].
  destruct (content_raw f nd vs Hc Hraw) as (b & Eb & Hp). next_is Eb.
  destruct (payload_take _ _ _ _ _ Hp) as (Hs & Hsb & Hp' & Hwf). set (inp := take (Z.to_nat (sz nd)) b) in *.
  assert (zlen inp = sz nd) as Hinp by (unfold inp; rewrite zlen_take; lia).
  assert (rd 0 (sz nd) b = Some inp) as Erd by (unfold inp; rewrite <-(take_drop (Z.to_nat (sz nd)) b) at 1; by apply rd_head).
  next_is Erd. unfold MIN_COMPRESS_BYTES in Hsz.
  destruct (lzf_copy h1 inp (replicate (Z.to_nat (sz nd)) junk) Hwf ltac:(lia)) as (n & out & E & Hn & Hcopy).
  rewrite zlen_replicate in Hn. next_is E. cbv beta iota. unfold MIN_COMPRESS_IMPROVE.
  destruct ((n =? 0) || (sz nd <=? uwrap 64 (n + 8))) eqn:Hsmall; [by exists (set_recompress false nd)|].
  apply orb_false_iff in Hsmall as [Hn0 _]. zb. destruct (Hcopy Hn0) as (c & Ec & Hcl & Hres). next_is Ec. clear E Ec.
  call (update_holds _ _ _ _ _ _ _ (set_entry (Compressed n c)) H1). intros h2 H2.
  call (update_holds _ _ _ _ _ _ _ (set_encoding LZF) H2). intros h3 H3. eexists. split; [exact H3|]. split; [|done].
  split_and!; try done; [|by rewrite Hd]. intros vs' (b' & Hb' & Hp''). exists inp. split; [|].
  - apply (bytes_lzf _ _ c); simpl; try done; [by rewrite Hcl|lia].
  - simpl. unfold raw in Eb. destruct Hb' as [_ E'|? E' _ _ _ _ _]; [|congruence]. rewrite E' in Eb. injection Eb as ->.
    by apply payload_take in Hp'' as (_ & _ & ? & _).
Qed.

(** With a node that may be compressed already. *)
Lemma compress_spec h0 h q A a nd B vs : holds h0 h q (A ++ (a, nd) :: B) → A ≠ [] → B ≠ [] → content f nd vs →
  post (quicklistCompressNode junk in_data htab0 h (Some a)) (λ h',
    ∃ nd', holds h0 h' q (A ++ (a, nd') :: B) ∧ recoded f nd nd' ∧ (recompress nd' = true → dont_compress nd = true)).
Proof using Hin Htab.
  intros H HA HB Hc. unfold quicklistCompressNode. next_is (holds_node _ _ _ _ _ _ _ H). case_bool_decide as E.
  - call (compress_node_spec _ _ _ _ _ _ _ _ H HA HB Hc E). by intros [h' ?].
  - exists nd. split; [done|]. split; [done|]. intros Hr. destruct Hc as (b & [? _|? _ _ Hn _ _ _] & _); congruence.
Qed.

Lemma decompress_node_spec h0 h q A a nd B vs : holds h0 h q (A ++ (a, nd) :: B) → content f nd vs → encoding nd = LZF →
  post (__quicklistDecompressNode junk h a) (λ '(h', _),
    ∃ nd', holds h0 h' q (A ++ (a, nd') :: B) ∧ recoded f nd nd' ∧ encoding nd' = RAW ∧ recompress nd' = false).
Proof.
  intros H Hc Hlzf. unfold __quicklistDecompressNode. next_is (holds_node _ _ _ _ _ _ _ H).
  call (update_holds _ _ _ _ _ _ _ (set_recompress false) H). intros h1 H1.
  destruct Hc as (b & [?|c _ Ee Hrc Hl Hpos Hres] & Hp); [congruence|]. rewrite Ee.
  next_is (rd_all c). assert (zlen b <= zlen (replicate (Z.to_nat (sz nd)) junk)) as Hbuf by (rewrite zlen_replicate; lia).
  next_is (Hres _ Hbuf). cbv beta iota. rewrite (proj2 (Z.eqb_neq _ _)) by lia.
  rewrite drop_ge, app_nil_r by (rewrite length_replicate; unfold zlen in *; lia).
  call (update_holds _ _ _ _ _ _ _ (set_entry (Bytes b)) H1). intros h2 H2.
  call (update_holds _ _ _ _ _ _ _ (set_encoding RAW) H2). intros h3 H3. eexists. split; [exact H3|]. split; [|done].
  split_and!; try done; [|by rewrite Hlzf]. intros vs' (b' & Hb' & Hp'). exists b. split; [by left|]. simpl.
  destruct Hb' as [?|c' _ Ee' _ Hl' _ Hres']; [congruence|]. rewrite Ee in Ee'. injection Ee' as _ <-.
  assert (b' = b) as ->; [|done]. specialize (Hres (replicate (Z.to_nat (sz nd)) junk) Hbuf).
  specialize (Hres' (replicate (Z.to_nat (sz nd)) junk) ltac:(rewrite zlen_replicate; lia)). rewrite Hres in Hres'. injection Hres' as _ E.
  rewrite !drop_ge, !app_nil_r in E by (rewrite length_replicate; unfold zlen in *; lia). done.
Qed.

Lemma decompress_spec h0 h q A a nd B vs : holds h0 h q (A ++ (a, nd) :: B) → content f nd vs →
  post (quicklistDecompressNode junk h (Some a)) (λ h',
    ∃ nd', holds h0 h' q (A ++ (a, nd') :: B) ∧ recoded f nd nd' ∧ encoding nd' = RAW ∧
      recompress nd' = (if bool_decide (encoding nd = RAW) then recompress nd else false)).
Proof.
  intros H Hc. unfold quicklistDecompressNode. next_is (holds_node _ _ _ _ _ _ _ H). case_bool_decide as E.
  - call (decompress_node_spec _ _ _ _ _ _ _ _ H Hc E). intros [h' ?] (nd' & H' & Hr & ? & ?). exists nd'. split_and!; try done.
    by rewrite bool_decide_false by (rewrite E; done).
  - exists nd. assert (encoding nd = RAW) as E' by (by destruct (encoding nd)). split_and!; try done. by rewrite bool_decide_true.
Qed.

(** For a node in use: it is marked so that it is compressed again. *)
Lemma decompress_for_use_spec h0 h q A a nd B vs : holds h0 h q (A ++ (a, nd) :: B) → content f nd vs →
  post (quicklistDecompressNodeForUse junk h (Some a)) (λ h',
    ∃ nd', holds h0 h' q (A ++ (a, nd') :: B) ∧ content f nd' vs ∧ encoding nd' = RAW ∧
      count nd' = count nd ∧ container nd' = container nd ∧ sz nd' = sz nd ∧ dont_compress nd' = dont_compress nd ∧
      (encoding nd = RAW → nd' = nd)).
Proof.
  intros H Hc. unfold quicklistDecompressNodeForUse. next_is (holds_node _ _ _ _ _ _ _ H). case_bool_decide as E.
  - call (decompress_node_spec _ _ _ _ _ _ _ _ H Hc E). intros [h1 b1] (nd' & H' & ((? & ? & ? & ?) & _ & Hr & _) & ? & ?).
    eapply post_mono; [by apply update_holds|]. intros h2 Hh2. exists (set_recompress true nd'). split_and!; try done; [|congruence].
    destruct (Hr _ Hc) as (b2 & [? ?|? ? _ _ _ _ _] & Hp); [|congruence]. exists b2. split; [by left|done].
  - assert (encoding nd = RAW) as E' by (by destruct (encoding nd)). by exists nd.
Qed.

(** A node between others that stay. *)
Lemma compress_mid h0 h q L M R vss a nd : holds h0 h q (L ++ M ++ R) → L ≠ [] → R ≠ [] → (a, nd) ∈ M → reads f M vss →
  post (quicklistCompressNode junk in_data htab0 h (Some a)) (λ h', ∃ M', holds h0 h' q (L ++ M' ++ R) ∧ recodes f M M').
Proof using Hin Htab.
  intros H HL HR Hin' Hr. apply list_elem_of_split in Hin' as (A & B & ->). apply Forall2_app_inv_l in Hr as (VA & V1 & _ & H1 & ->).
  inversion H1 as [|x vs l VB Hc _]; subst. rewrite <-app_assoc, app_assoc in H.
  eapply post_mono; [apply (compress_spec _ _ _ (L ++ A) a nd (B ++ R) vs H)|]; [by destruct L|by destruct B|done|].
  intros h' (nd' & H' & Hrec & _). exists (A ++ (a, nd') :: B). rewrite <-!app_assoc in *. split; [done|by apply recodes_one].
Qed.

(** ** The depth at both ends *)

Lemma both_ends {A} (M : list A) : (2 <= length M)%nat → ∃ x M1 y, M = x :: M1 ++ [y].
Proof.
  intros H. destruct M as [|x M]; [simpl in H; lia|]. destruct M as [|y M _] using rev_ind; [simpl in H; lia|]. by exists x, M, y.
Qed.

Lemma first_of_ne (M : nodes) p p' : M ≠ [] → first_of M p = first_of M p'.
Proof. by destruct M as [|[]]. Qed.
Lemma last_of_ne (M : nodes) p p' : M ≠ [] → last_of p M = last_of p' M.
Proof. destruct (last_of_cases p M) as [[? _]|(A & b & v & -> & ->)]; [done|]. intros _. by rewrite last_of_snoc. Qed.

(** The two ends are decompressed. *)
Lemma ends_decompressed h0 h q L x nx M1 y ny R vss :
  holds h0 h q (L ++ ((x, nx) :: M1 ++ [(y, ny)]) ++ R) → reads f (L ++ ((x, nx) :: M1 ++ [(y, ny)]) ++ R) vss →
  recompress nx = false → recompress ny = false →
  post (h ← quicklistDecompressNode junk h (Some x); quicklistDecompressNode junk h (Some y)) (λ h', ∃ nx' ny',
    holds h0 h' q (L ++ (x, nx') :: M1 ++ (y, ny') :: R) ∧
    recodes f (L ++ ((x, nx) :: M1 ++ [(y, ny)]) ++ R) (L ++ (x, nx') :: M1 ++ (y, ny') :: R) ∧ settled nx' ∧ settled ny').
Proof using Hin Htab.
  simpl. rewrite <-app_assoc. simpl. intros H Hr Ex Ey.
  assert (∃ vx, content f nx vx) as [vx Hcx].
  { apply Forall2_app_inv_l in Hr as (? & ? & _ & Hr & _). inversion Hr; subst. eauto. }
  call (decompress_spec _ _ _ L x nx _ _ H Hcx). intros h1 (nx' & H1 & Hrx & Erx & Eqx).
  assert (∃ vy, content f ny vy) as [vy Hcy].
  { rewrite app_comm_cons, app_assoc in Hr. apply Forall2_app_inv_l in Hr as (? & ? & _ & Hr & _). inversion Hr; subst. eauto. }
  rewrite app_comm_cons, app_assoc in H1.
  eapply post_mono; [apply (decompress_spec _ _ _ _ y ny _ _ H1 Hcy)|]. intros h2 (ny' & H2 & Hry & Ery & Eqy).
  rewrite <-app_assoc in H2. simpl in H2. exists nx', ny'. split; [done|]. split.
  - apply recodes_app; [done|]. constructor; [done|]. by apply recodes_one.
  - case_bool_decide; case_bool_decide; split; split; congruence.
Qed.

Lemma depth_loop_spec h0 q node n : ∀ h L M R vss (ind : bool),
  holds h0 h q (L ++ M ++ R) → reads f (L ++ M ++ R) vss → length L = length R → M ≠ [] → (2 * n <= length M)%nat →
  (∀ i p, M !! i = Some p → (i < n)%nat ∨ (length M <= i + n)%nat → recompress p.2 = false) →
  Forall (λ p, settled p.2) (L ++ R) → (ind = false → ∀ a, node = Some a → a ∉ (L ++ R).*1) →
  post (depth_loop junk n h node (first_of M None) (last_of None M) ind) (λ '(h', r), ∃ L' M' R',
    holds h0 h' q (L' ++ M' ++ R') ∧ recodes f (L ++ M ++ R) (L' ++ M' ++ R') ∧ Forall (λ p, settled p.2) (L' ++ R') ∧
    length L' = length R' ∧ length L' = (length L + n)%nat ∧
    match r with
    | None => M' = []
    | Some (forward, reverse, ind') => M' ≠ [] ∧ forward = first_of M' None ∧ reverse = last_of None M' ∧
        (ind' = false → ∀ a, node = Some a → a ∉ (L' ++ R').*1)
    end).
Proof using Hin Htab.
  induction n as [|n IH]; intros h L M R vss ind H Hr HLR HM Hn Hq Hset Hind.
  { exists L, M, R. split_and!; try done; lia. }
  destruct (both_ends M) as ([x nx] & M1 & [y ny] & ->); [lia|]. cbn [depth_loop].
  rewrite (app_comm_cons M1 _ (x, nx)), last_of_snoc. cbn [first_of app].
  assert (recompress nx = false) as Ex by (apply (Hq 0%nat (x, nx)); [done|lia]).
  assert (recompress ny = false) as Ey.
  { apply (Hq (S (length M1)) (y, ny)); [|simpl; rewrite length_app; simpl; lia]. simpl. by rewrite lookup_app_r, Nat.sub_diag. }
  pose proof (ends_decompressed h0 h q L x nx M1 y ny R vss H Hr Ex Ey) as Hends.
  destruct (quicklistDecompressNode junk h (Some x)) as [h1|]; [|done]. cbn [mbind option_bind] in Hends |- *.
  apply post_bind. eapply post_mono; [exact Hends|]. cbv beta. intros h2 (nx' & ny' & H2 & Hrec & Hsx & Hsy).
  cbn [mbind option_bind]. next_is (holds_next _ _ _ _ _ _ _ H2).
  assert (x ∉ (L ++ M1 ++ (y, ny') :: R).*1) as Hxn by (apply (proj1 (nodup_middle _ _ _ _) (hold_nodup _ _ _ _ H2))).
  assert (x ≠ y) as Hxy by (intros ->; apply Hxn; rewrite !fmap_app; set_solver).
  pose proof H2 as H2'. rewrite app_comm_cons, app_assoc in H2'.
  assert (y ∉ ((L ++ (x, nx') :: M1) ++ R).*1) as Hyn by (apply (proj1 (nodup_middle _ _ _ _) (hold_nodup _ _ _ _ H2'))).
  rewrite (bool_decide_false (x = y)) by done. cbn [orb].
  assert (Forall (λ p, settled p.2) ((L ++ [(x, nx')]) ++ (y, ny') :: R)) as Hset'.
  { apply Forall_app in Hset as [HsL HsR]. repeat (apply Forall_app; split); [done|by constructor|by constructor]. }
  assert (length (L ++ [(x, nx')]) = length ((y, ny') :: R)) as HLR' by (rewrite length_app; simpl; lia).
  simpl in Hn. rewrite length_app in Hn. simpl in Hn.
  destruct (decide (M1 = [])) as [->|HM1].
  - rewrite bool_decide_true by done. exists (L ++ [(x, nx')]), [], ((y, ny') :: R). rewrite length_app. simpl in *.
    rewrite <-app_assoc. split_and!; [done|done|by rewrite app_assoc|lia|lia|done].
  - assert (first_of (M1 ++ (y, ny') :: R) None = first_of M1 None) as -> by (by destruct M1 as [|[]]).
    rewrite bool_decide_false.
    2:{ destruct M1 as [|[z nz] M2]; [done|]. intros [= ->]. apply Hyn. rewrite !fmap_app. simpl. set_solver. }
    next_is (holds_prev _ _ _ _ _ _ _ H2'). rewrite last_of_app. cbn [last_of]. rewrite (last_of_ne M1 (Some x) None HM1).
    rewrite <-app_assoc in H2'. change (((x, nx') :: M1) ++ (y, ny') :: R) with ([(x, nx')] ++ M1 ++ (y, ny') :: R) in H2'. rewrite app_assoc in H2'.
    eapply post_mono; [apply (IH h2 (L ++ [(x, nx')]) M1 ((y, ny') :: R) vss _ H2')|].
    + rewrite <-app_assoc. eapply recodes_reads; [|exact Hr]. exact Hrec.
    + done.
    + done.
    + lia.
    + intros i p Hi Hd. apply (Hq (S i) p); [|simpl; rewrite length_app; simpl; lia]. simpl.
      rewrite lookup_app_l; [done|]. by eapply lookup_lt_Some.
    + done.
    + intros Hf a ->. apply orb_false_iff in Hf as [Hf1 Hf]. apply orb_false_iff in Hf1 as [Hf1 Hf2]. apply bool_decide_eq_false in Hf1, Hf2.
      specialize (Hind Hf a eq_refl). rewrite !fmap_app in *. simpl. intros Ha. set_unfold. naive_solver.
    + intros [h3 r] (L' & M' & R' & H3 & Hrec3 & Hs3 & HLR3 & HL3 & Hres). exists L', M', R'. split_and!; try done.
      * etransitivity; [exact Hrec|]. by rewrite <-app_assoc in Hrec3.
      * rewrite length_app in HL3. simpl in HL3. lia.
Qed.

Lemma depth_of_parts d L M R : Forall (λ p, settled p.2) (L ++ R) → length L = d → length R = d → M = [] ∨ 0%nat ≠ d → depth_ok d (L ++ M ++ R).
Proof.
  intros H HL HR Hd i p Hi Hin'. apply Forall_app in H as [H1 H2]. rewrite !length_app in Hin'.
  destruct (decide (i < d)%nat) as [Hid|Hid].
  - rewrite lookup_app_l in Hi by lia. by apply (Forall_lookup_1 _ _ _ _ H1 Hi).
  - rewrite lookup_app_r in Hi by lia. destruct (decide (i - length L < length M)%nat).
    + destruct Hd as [->|Hd]; [simpl in *; lia|]. unfold in_depth in Hin'. lia.
    + rewrite lookup_app_r in Hi by lia. by apply (Forall_lookup_1 _ _ _ _ H2 Hi).
Qed.

Lemma reads_mid L M R vss : reads f (L ++ M ++ R) vss → ∃ vm, reads f M vm.
Proof. intros (V1 & V2 & _ & H & _)%Forall2_app_inv_l. apply Forall2_app_inv_l in H as (V & ? & ? & _ & _). by exists V. Qed.

(** The last three attempts, on nodes beyond the depth. *)
Lemma compress_interior h0 h q L M R vm node (ind : bool) : holds h0 h q (L ++ M ++ R) → reads f M vm → M ≠ [] → L ≠ [] → R ≠ [] →
  (ind = false → ∀ a, node = Some a → a ∈ M.*1) →
  post (h ← (if ind then Some h else quicklistCompressNode junk in_data htab0 h node);
        h ← quicklistCompressNode junk in_data htab0 h (first_of M None);
        quicklistCompressNode junk in_data htab0 h (last_of None M)) (λ h', ∃ M', holds h0 h' q (L ++ M' ++ R) ∧ recodes f M M').
Proof using Hin Htab.
  intros H1 Hm HM HL HR Hind.
  assert (∀ h1 M1 a, holds h0 h1 q (L ++ M1 ++ R) → recodes f M M1 → a ∈ M.*1 →
    post (quicklistCompressNode junk in_data htab0 h1 (Some a)) (λ h', ∃ M', holds h0 h' q (L ++ M' ++ R) ∧ recodes f M M')) as Hone.
  { intros h1 M1 a Hh1 Hrec Ha. rewrite <-(recodes_keys _ _ _ Hrec) in Ha. apply list_elem_of_fmap in Ha as ([a' nd] & -> & Ha).
    eapply post_mono; [by eapply compress_mid, recodes_reads|]. intros h2 (M2 & H2 & Hrec2). exists M2. split; [done|]. by etransitivity. }
  assert (post (if ind then Some h else quicklistCompressNode junk in_data htab0 h node)
    (λ h', ∃ M', holds h0 h' q (L ++ M' ++ R) ∧ recodes f M M')) as Hstep1.
  { destruct ind; [by exists M|]. destruct node as [a|]; [|by exists M]. eapply Hone; [done|done|by apply Hind]. }
  call Hstep1. intros h2 (M2 & H2 & Hrec2).
  assert (∃ a, first_of M None = Some a ∧ a ∈ M.*1) as (a & -> & Ha) by (destruct M as [|[a na] M0]; [done|]; exists a; split; [done|by left]).
  call (Hone _ _ _ H2 Hrec2 Ha). intros h3 (M3 & H3 & Hrec3).
  destruct (last_of_cases None M) as [[? _]|(M1 & b & nb & EM1 & ->)]; [congruence|].
  eapply Hone; [done|done|]. rewrite EM1, fmap_app. set_solver.
Qed.

Lemma compress_list_spec h0 h q ns vss node d : holds h0 h q ns → reads f ns vss → ready d ns → compress q = Z.of_nat d →
  (∀ a, node = Some a → a ∈ ns.*1) →
  post (__quicklistCompress junk in_data htab0 h q node) (λ h', ∃ ns', holds h0 h' q ns' ∧ recodes f ns ns' ∧ depth_ok d ns').
Proof using Hin Htab.
  intros H Hr [Hq Hraw] Hd Hnode. unfold __quicklistCompress. pose proof H as [_ _ Hh Ht Hl _ _].
  destruct ns as [|[x nx] ns0] eqn:Ens; [by rewrite Hl; exists []|]. rewrite <-Ens in *.
  assert (1 <= length ns)%nat as Hlen by (rewrite Ens; simpl; lia).
  rewrite (proj2 (Z.eqb_neq _ _)) by (rewrite Hl; unfold zlen; lia).
  assert (∃ A y ny, ns = A ++ [(y, ny)]) as (A & y & ny & Ey).
  { destruct ns as [|[y ny] A _] using rev_ind; [done|]. by exists A, y, ny. }
  rewrite Hh. rewrite Ens at 1. apply post_bind. cbn [first_of post]. pose proof H as Hx. rewrite Ens in Hx.
  next_is (holds_node _ _ _ [] _ _ _ Hx). rewrite Ht. rewrite Ey at 1. rewrite last_of_snoc. apply post_bind. cbn [post].
  pose proof H as Hy. rewrite Ey in Hy. next_is (holds_node _ _ _ _ _ _ _ Hy).
  assert (recompress nx = false) as ->.
  { apply (Hq 0%nat (x, nx)); [by rewrite Ens|]. unfold in_depth. lia. }
  assert (recompress ny = false) as ->.
  { apply (Hq (length A) (y, ny)); [by rewrite Ey, lookup_app_r, Nat.sub_diag|]. rewrite Ey, length_app. simpl. unfold in_depth. lia. }
  cbn [orb]. unfold quicklistAllowsCompression.
  destruct (negb (negb (compress q =? 0)) || (len q <? compress q * 2)) eqn:Hearly.
  - exists ns. split; [done|]. split; [done|]. assert (d = 0 ∨ length ns < 2 * d)%nat as Hs.
    { apply orb_true_iff in Hearly as [E%negb_true_iff%negb_false_iff|E]; zb; [left; lia|right]. rewrite Hl in E. unfold zlen in E. lia. }
    intros i p Hi _. split; [by apply (Forall_lookup_1 _ _ _ _ (Hraw Hs) Hi)|]. apply (Hq i p Hi). apply lookup_lt_Some in Hi. unfold in_depth. lia.
  - apply orb_false_iff in Hearly as [E1%negb_false_iff%negb_true_iff E2]. zb. rewrite Hl in E2. unfold zlen in E2.
    rewrite Hd, Nat2Z.id. assert (holds h0 h q ([] ++ ns ++ [])) as H' by (by rewrite app_nil_r).
    assert (reads f ([] ++ ns ++ []) vss) as Hr' by (by rewrite app_nil_r).
    call (depth_loop_spec h0 q node d h [] ns [] vss false H' Hr'); [done|by rewrite Ens|lia|..].
    + intros i p Hi Hid. apply (Hq i p Hi). unfold in_depth. lia.
    + constructor.
    + intros _ a _. apply not_elem_of_nil.
    + intros [h1 r] (L & M & R & H1 & Hrec & Hset & HLR & HL & Hres). simpl in HL, Hrec. rewrite app_nil_r in Hrec.
      pose proof (recodes_reads _ _ _ _ Hrec Hr) as Hr1.
      destruct r as [[[forward reverse] ind]|]; [|exists (L ++ M ++ R); split_and!; [done|done|apply depth_of_parts; auto; lia]].
      destruct Hres as (HM & -> & -> & Hind). assert (L ≠ [] ∧ R ≠ []) as [HLn HRn] by (destruct L, R; simpl in *; try done; lia).
      apply reads_mid in Hr1 as [vm Hm].
      eapply post_mono; [apply (compress_interior _ _ _ L M R vm node ind H1 Hm HM HLn HRn)|].
      * intros Hf a ->. specialize (Hind Hf a eq_refl). specialize (Hnode a eq_refl).
        rewrite <-(recodes_keys _ _ _ Hrec), !fmap_app in Hnode. rewrite fmap_app in Hind. set_unfold. naive_solver.
      * intros h' (M' & H'' & Hrec'). exists (L ++ M' ++ R). split_and!; [done| |apply depth_of_parts; auto; lia].
        etransitivity; [exact Hrec|]. apply recodes_app; [done|]. by apply recodes_app.
Qed.

(** ** Around one node *)

Lemma depth_ok_replace d A a nd nd' B : depth_ok d (A ++ (a, nd) :: B) →
  (in_depth d (length (A ++ (a, nd) :: B)) (length A) → settled nd → settled nd') → depth_ok d (A ++ (a, nd') :: B).
Proof.
  intros H Hnd i p Hi Hd. assert (length (A ++ (a, nd') :: B) = length (A ++ (a, nd) :: B)) as El by (by rewrite !length_app).
  rewrite El in Hd. destruct (decide (i = length A)) as [->|Hne].
  - rewrite list_lookup_middle in Hi by done. injection Hi as <-. apply Hnd; [done|]. apply (H (length A) (a, nd)); [by apply list_lookup_middle|done].
  - apply (H i p); [|done]. destruct (decide (i < length A)%nat).
    + rewrite lookup_app_l in Hi by lia. by rewrite lookup_app_l by lia.
    + rewrite lookup_app_r in Hi by lia. rewrite lookup_app_r by lia. destruct (i - length A)%nat eqn:E; [lia|done].
Qed.

(** A node that is marked lies between others. *)
Lemma marked_interior d A a nd B : depth_ok d (A ++ (a, nd) :: B) → recompress nd = true →
  A ≠ [] ∧ B ≠ [] ∧ ¬ in_depth d (length (A ++ (a, nd) :: B)) (length A).
Proof.
  intros H Hr. assert (¬ in_depth d (length (A ++ (a, nd) :: B)) (length A)) as Hn.
  { intros Hd. destruct (H _ _ (list_lookup_middle _ _ _ _ eq_refl) Hd) as [_ E]. simpl in E. congruence. }
  rewrite length_app in Hn. simpl in Hn. unfold in_depth in Hn. split_and!; [destruct A; simpl in *; [lia|done]|destruct B; simpl in *; [lia|done]|].
  by rewrite length_app.
Qed.

Lemma reads_node A a nd B vss : reads f (A ++ (a, nd) :: B) vss → ∃ vs, content f nd vs.
Proof. intros (V1 & V2 & _ & H & _)%Forall2_app_inv_l. inversion H; subst. eauto. Qed.

(** What is left of the marks: only a node that must not be compressed keeps its own. *)
Definition unmarked (a : address) (nd : quicklistNode) (ns' : nodes) : Prop :=
  ∀ nd', (a, nd') ∈ ns' → recompress nd' = true → dont_compress nd = true.

Lemma nodup_unique (A B : nodes) a nd nd' : NoDup (A ++ (a, nd) :: B).*1 → (a, nd') ∈ A ++ (a, nd) :: B → nd' = nd.
Proof.
  intros Hn Hin'. apply nodup_middle in Hn as [Hn _]. apply elem_of_app in Hin' as [Hin'|[Hin'|Hin']%elem_of_cons]; [| congruence|];
    destruct Hn; rewrite fmap_app; apply elem_of_app; [left|right]; by apply (list_elem_of_fmap_2 fst) in Hin'.
Qed.

Lemma recompress_marked h0 h q A a nd B vss d : holds h0 h q (A ++ (a, nd) :: B) → reads f (A ++ (a, nd) :: B) vss →
  depth_ok d (A ++ (a, nd) :: B) → recompress nd = true →
  post (quicklistCompressNode junk in_data htab0 h (Some a)) (λ h', ∃ nd', holds h0 h' q (A ++ (a, nd') :: B) ∧ recoded f nd nd' ∧
    depth_ok d (A ++ (a, nd') :: B) ∧ (recompress nd' = true → dont_compress nd = true)).
Proof using Hin Htab.
  intros H Hr Hd Hm. destruct (marked_interior _ _ _ _ _ Hd Hm) as (HA & HB & Hn). destruct (reads_node _ _ _ _ _ Hr) as [vs Hc].
  eapply post_mono; [by apply (compress_spec _ _ _ A a nd B vs H HA HB Hc)|]. intros h' (nd' & H' & Hrec & Hu).
  exists nd'. split_and!; try done. eapply depth_ok_replace; [done|]. by intros Hin'.
Qed.

Lemma compress_at_spec h0 h q A a nd B vss d : holds h0 h q (A ++ (a, nd) :: B) → reads f (A ++ (a, nd) :: B) vss →
  depth_ok d (A ++ (a, nd) :: B) → compress q = Z.of_nat d →
  post (quicklistCompress junk in_data htab0 h q a) (λ h', ∃ ns', holds h0 h' q ns' ∧ recodes f (A ++ (a, nd) :: B) ns' ∧ depth_ok d ns' ∧
    unmarked a nd ns').
Proof using Hin Htab.
  intros H Hr Hd Hcd. unfold quicklistCompress. next_is (holds_node _ _ _ _ _ _ _ H). destruct (recompress nd) eqn:Em.
  - eapply post_mono; [by eapply recompress_marked|]. intros h' (nd' & H' & Hrec & Hd' & Hu). exists (A ++ (a, nd') :: B).
    split_and!; [done|by apply recodes_one|done|]. intros nd2 Hin2. by rewrite (nodup_unique _ _ _ _ _ (hold_nodup _ _ _ _ H') Hin2).
  - eapply post_mono; [apply (compress_list_spec _ _ _ _ _ (Some a) d H Hr (depth_ready _ _ Hd) Hcd)|].
    { intros b [= <-]. rewrite fmap_app. set_solver. }
    intros h' (ns' & H' & Hrec & Hd'). exists ns'. split_and!; try done. intros nd2 Hin2 E2.
    destruct (recodes_split _ _ _ _ _ _ Hrec) as (A' & nd' & B' & -> & _ & (_ & Hm & _) & _).
    rewrite (nodup_unique _ _ _ _ _ (hold_nodup _ _ _ _ H') Hin2) in E2. apply Hm in E2. congruence.
Qed.

Lemma recompress_only_spec h0 h q A a nd B vss d : holds h0 h q (A ++ (a, nd) :: B) → reads f (A ++ (a, nd) :: B) vss →
  depth_ok d (A ++ (a, nd) :: B) →
  post (quicklistRecompressOnly junk in_data htab0 h a) (λ h', ∃ nd', holds h0 h' q (A ++ (a, nd') :: B) ∧ recoded f nd nd' ∧
    depth_ok d (A ++ (a, nd') :: B) ∧ (recompress nd' = true → dont_compress nd = true)).
Proof using Hin Htab.
  intros H Hr Hd. unfold quicklistRecompressOnly. next_is (holds_node _ _ _ _ _ _ _ H). destruct (recompress nd) eqn:Em; [by eapply recompress_marked|].
  exists nd. split_and!; try done. congruence.
Qed.
End Compress.
End QuicklistCompress.
