(* ===== verification/QuicklistEdit.v ===== *)
(** * Quicklists: adding and removing nodes, pushing

    [qinv] is the invariant of a quicklist between two operations; [use] is a node that
    an iterator has decompressed, which is marked to be compressed again. *)

From stdpp Require Import gmap.
From S2P Require Import Prelude Util Lzf LzfProofs Listpack ListpackRepr ListpackElem ListpackEdit ListpackValues Post Linked Quicklist QuicklistRepr QuicklistNodes QuicklistCompress.

Module QuicklistEdit.
Import Listpack ListpackElem ListpackEdit ListpackValues ListpackRepr Post Quicklist Linked QuicklistRepr QuicklistNodes QuicklistCompress.

Lemma depth_ok_insert d A B a nd : depth_ok d (A ++ B) → settled nd → depth_ok d (A ++ (a, nd) :: B).
Proof.
  intros H Hs i p Hi Hd. rewrite length_app in Hd. simpl in Hd. unfold depth_ok in H. rewrite length_app in H.
  destruct (decide (i < length A)%nat).
  - rewrite lookup_app_l in Hi by lia. apply (H i p); [by rewrite lookup_app_l by lia|]. unfold in_depth in *. lia.
  - rewrite lookup_app_r in Hi by lia. destruct (i - length A)%nat as [|k] eqn:E; simpl in Hi; [by injection Hi as <-|].
    apply (H (length A + k)%nat p); [rewrite lookup_app_r by lia; by replace (length A + k - length A)%nat with k by lia|]. unfold in_depth in *. lia.
Qed.

Lemma ready_delete d A B a nd : depth_ok d (A ++ (a, nd) :: B) →
  (∀ i p, (A ++ B) !! i = Some p → in_depth d (length (A ++ B)) i → recompress p.2 = false) → ready d (A ++ B).
Proof.
  intros H Hq. split; [done|]. intros Hs. rewrite length_app in Hs. apply Forall_lookup. intros i p Hi.
  pose proof (lookup_lt_Some _ _ _ Hi) as Hlt. rewrite length_app in Hlt.
  assert (∃ j, (A ++ (a, nd) :: B) !! j = Some p) as [j Hj].
  { destruct (decide (i < length A)%nat).
    - exists i. rewrite lookup_app_l in Hi by lia. by rewrite lookup_app_l by lia.
    - exists (S i). rewrite lookup_app_r in Hi by lia. rewrite lookup_app_r by lia. by replace (S i - length A)%nat with (S (i - length A)) by lia. }
  apply (H j p Hj). pose proof (lookup_lt_Some _ _ _ Hj) as Hlt'. rewrite length_app in *. simpl in *. unfold in_depth. lia.
Qed.

(** ** The invariant *)

Definition depth (q : quicklist) : nat := Z.to_nat (compress q).
Definition options_ok (q : quicklist) : Prop := fill_ok (fill q) ∧ 0 <= compress q <= COMPRESS_MAX.

Definition counts_ok (ns : nodes) (vss : list (list (list Z))) : Prop := Forall2 (λ p vs, count p.2 = zlen vs) ns vss.

(** No node other than [use] is marked. *)
Definition marks_ok (use : option address) (ns : nodes) : Prop :=
  ∀ p, p ∈ ns → dont_compress p.2 = false ∧ (use ≠ Some p.1 → recompress p.2 = false).

Record qinv (h0 h : heap) (q : quicklist) (ns : nodes) (vss : list (list (list Z))) (use : option address) : Prop := {
  qi_options : options_ok q;
  qi_holds : holds h0 h q ns;
  qi_reads : reads (fill q) ns vss;
  qi_counts : counts_ok ns vss;
  qi_depth : depth_ok (depth q) ns;
  qi_marks : marks_ok use ns
}.

(** With the number of elements. *)
Definition qlist h0 h q ns vss use : Prop := qinv h0 h q ns vss use ∧ ql_count q = zlen (mjoin vss).

Lemma qinv_set_count h0 h q ns vss use c : qinv h0 h q ns vss use → qinv h0 h (set_ql_count q c) ns vss use.
Proof. intros [Ho H Hr Hc Hd Hm]. constructor; try done. by apply (holds_header _ _ q). Qed.

Lemma depth_eq q : options_ok q → compress q = Z.of_nat (depth q).
Proof. intros [_ ?]. unfold depth. lia. Qed.

Lemma same_options_ok q q' : same_options q q' → options_ok q → options_ok q' ∧ depth q' = depth q ∧ fill q' = fill q.
Proof. unfold same_options, options_ok, depth. intros [-> ->]. done. Qed.

Lemma recodes_counts_ok f ns ns' vss : recodes f ns ns' → counts_ok ns vss → counts_ok ns' vss.
Proof.
  intros H. revert vss. induction H as [|x y ? ? [_ ((_ & E & _) & _)] _ IH]; intros vss H; inversion_clear H; constructor; [congruence|]. by apply IH.
Qed.

Lemma recodes_marks f use ns ns' : recodes f ns ns' → marks_ok use ns → marks_ok use ns'.
Proof.
  intros H Hm p Hp. apply list_elem_of_lookup in Hp as [i Hi].
  destruct (Forall2_lookup_r _ _ _ _ _ H Hi) as (p0 & Hi0 & E1 & (_ & _ & _ & Ed) & Hr & _).
  apply list_elem_of_lookup_2 in Hi0. destruct (Hm _ Hi0) as [H1 H2]. split; [congruence|]. intros Hu. rewrite <-E1 in Hu.
  specialize (H2 Hu). destruct (recompress p.2); [|done]. rewrite Hr in H2; done.
Qed.

Lemma marks_weaken use ns : marks_ok None ns → marks_ok use ns.
Proof. intros H p Hp. destruct (H p Hp). auto. Qed.

Lemma zlen_join_app (V1 V2 : list (list (list Z))) : zlen (mjoin (V1 ++ V2)) = zlen (mjoin V1) + zlen (mjoin V2).
Proof. by rewrite join_app, zlen_app. Qed.

Lemma zlen_join_cons (vs : list (list Z)) V : zlen (mjoin (vs :: V)) = zlen vs + zlen (mjoin V).
Proof. simpl. by rewrite zlen_app. Qed.

Lemma join_middle (VA : list (list (list Z))) vs VB : mjoin (VA ++ vs :: VB) = mjoin VA ++ vs ++ mjoin VB.
Proof. by rewrite join_app. Qed.

(** Taking the invariant apart around a node. *)
Lemma reads_split f A a nd B vss : reads f (A ++ (a, nd) :: B) vss → ∃ VA vs VB, vss = VA ++ vs :: VB ∧ reads f A VA ∧ content f nd vs ∧ reads f B VB.
Proof.
  intros H. apply Forall2_app_inv_l in H as (VA & V & HA & H & ->). inversion H as [|? vs ? VB ? ?]; subst. by exists VA, vs, VB.
Qed.

Lemma counts_split A a nd B VA vs VB : length VA = length A → counts_ok (A ++ (a, nd) :: B) (VA ++ vs :: VB) →
  counts_ok A VA ∧ count nd = zlen vs ∧ counts_ok B VB.
Proof.
  intros El H. apply Forall2_app_inv in H as [HA H]; [|done]. inversion H; subst. done.
Qed.

(** ** Assignments to a node that is not compressed *)

Lemma update_entry_linked h0 h q A a nd B g b b' : holds h0 h q (A ++ (a, nd) :: B) → raw nd = Some b → g b = Some b' →
  post (update_entry h a g) (λ h', holds h0 h' q (A ++ (a, set_entry (Bytes b') nd) :: B)).
Proof.
  intros H Eb Eg. unfold update_entry. next_is (holds_node _ _ _ _ _ _ _ H). next_is Eb. next_is Eg. by apply update_holds.
Qed.

Lemma update_entry_loose h0 h q ns a p n nd g b b' : holds (<[a := mkLinked p n nd]> h0) h q ns → raw nd = Some b → g b = Some b' →
  post (update_entry h a g) (λ h', holds (<[a := mkLinked p n (set_entry (Bytes b') nd)]> h0) h' q ns).
Proof.
  intros H Eb Eg. unfold update_entry. next_is (loose_node _ _ _ _ _ _ _ _ H). next_is Eb. next_is Eg. by apply update_loose.
Qed.

Lemma update_sz_linked f h0 h q A a nd B b es : holds h0 h q (A ++ (a, nd) :: B) → raw nd = Some b → packed f b es →
  post (quicklistNodeUpdateSz h a) (λ h', holds h0 h' q (A ++ (a, set_sz (total es) nd) :: B)).
Proof.
  intros H Eb Hp. unfold quicklistNodeUpdateSz. next_is (holds_node _ _ _ _ _ _ _ H). next_is Eb. next_is (packed_bytes _ _ _ Hp). by apply update_holds.
Qed.

Lemma update_sz_loose f h0 h q ns a p n nd b es : holds (<[a := mkLinked p n nd]> h0) h q ns → raw nd = Some b → packed f b es →
  post (quicklistNodeUpdateSz h a) (λ h', holds (<[a := mkLinked p n (set_sz (total es) nd)]> h0) h' q ns).
Proof.
  intros H Eb Hp. unfold quicklistNodeUpdateSz. next_is (loose_node _ _ _ _ _ _ _ _ H). next_is Eb. next_is (packed_bytes _ _ _ Hp). by apply update_loose.
Qed.

Lemma packed_content f nd b es : encoding nd = RAW → container nd = PACKED → entry nd = Bytes b → sz nd = total es → packed f b es → es ≠ [] →
  content f nd (strs es).
Proof. intros E1 E2 E3 E4 Hp Hne. exists b. split; [by left|]. rewrite E2. by exists es. Qed.

Lemma plain_content f nd b : encoding nd = RAW → container nd = PLAIN → entry nd = Bytes b → sz nd = zlen b → str_ok b → content f nd [b].
Proof. intros E1 E2 E3 E4 Hb. exists b. split; [by left|]. rewrite E2. by split_and!. Qed.

(** An uncompressed packed node. *)
Lemma content_packed f nd vs : content f nd vs → encoding nd = RAW → container nd = PACKED →
  ∃ b es, entry nd = Bytes b ∧ packed f b es ∧ es ≠ [] ∧ sz nd = total es ∧ vs = strs es.
Proof.
  intros (b & [E1 E2|? E1 _ _ _ _ _] & Hp) E Ec; [|congruence]. rewrite Ec in Hp. destruct Hp as (es & ? & ? & ? & ?). by exists b, es.
Qed.

Lemma reads_length f ns vss : reads f ns vss → length vss = length ns.
Proof. intros H. symmetry. by eapply Forall2_length. Qed.

Lemma qinv_replace h0 h h0' h' q A a nd nd' B VA vs vs' VB use : qinv h0 h q (A ++ (a, nd) :: B) (VA ++ vs :: VB) use → length VA = length A →
  holds h0' h' q (A ++ (a, nd') :: B) → content (fill q) nd' vs' → count nd' = zlen vs' → (settled nd → settled nd') →
  dont_compress nd' = false → (use ≠ Some a → recompress nd' = false) → qinv h0' h' q (A ++ (a, nd') :: B) (VA ++ vs' :: VB) use.
Proof.
  intros [Ho H Hr Hc Hd Hm] El H' Hct Hcn Hs Hdc Hrc. constructor; try done.
  - apply Forall2_app_inv in Hr as [HA HB]; [|done]. inversion HB; subst. apply Forall2_app; [done|]. by constructor.
  - apply Forall2_app_inv in Hc as [HA HB]; [|done]. inversion HB; subst. apply Forall2_app; [done|]. by constructor.
  - by eapply depth_ok_replace.
  - intros p. rewrite elem_of_app, elem_of_cons. intros [Hp|[->|Hp]]; [|by split|]; apply Hm; rewrite elem_of_app, elem_of_cons; auto.
Qed.

(** ** The limits *)

Lemma exceeds_spec f new_sz new_count : fill_ok f → ∃ b, quicklistNodeExceedsLimit f new_sz new_count = Some b ∧
  (b = false → 0 <= f ∧ new_sz <= 8192 ∧ new_count <= Z.max 1 f ∨ f < 0 ∧ new_sz <= 65536).
Proof.
  intros Hf. unfold quicklistNodeExceedsLimit, quicklistNodeLimit. destruct (limit_cases f Hf) as [(H & _)|(H & E & Hl & _)].
  - rewrite (proj2 (Z.leb_le _ _)) by done. cbn [mbind option_bind]. rewrite Z.eqb_refl. cbn [negb].
    rewrite (proj2 (Z.eqb_neq _ _)) by (unfold UINT_MAX, UINT32_MAX, fill_ok, FILL_MAX in *; case_if; lia). cbn [negb].
    eexists. split; [done|]. unfold sizeMeetsSafetyLimit, SIZE_SAFETY_LIMIT. intros Hb. left.
    destruct (new_sz <=? 8192) eqn:E; [|done]. cbn [negb] in Hb. zb. destruct (f =? 0) eqn:E0; zb; lia.
  - rewrite (proj2 (Z.leb_gt _ _)) by done. rewrite E. cbn [mbind option_bind].
    rewrite (proj2 (Z.eqb_neq _ _)) by (unfold SIZE_MAX, UINT64_MAX; lia). cbn [negb]. eexists. split; [done|]. intros Hb. zb. right. lia.
Qed.

Lemma total_count f b es : packed f b es → 7 + 2 * zlen es <= total es.
Proof. intros [(_ & _ & _ & _ & Hv & _) _ _ _]. pose proof (zlen_body_ge es Hv). unfold total, LP_HDR_SIZE. lia. Qed.

Lemma payload_packed f nd vs : content f nd vs → container nd = PACKED → ∃ b es, packed f b es ∧ sz nd = total es ∧ vs = strs es.
Proof. intros (b & _ & Hp) E. rewrite E in Hp. destruct Hp as (es & ? & _ & ? & ?). by exists b, es. Qed.

Lemma plain_cases nd : (container nd = PLAIN ∧ QL_NODE_IS_PLAIN nd = true) ∨ (container nd = PACKED ∧ QL_NODE_IS_PLAIN nd = false).
Proof. unfold QL_NODE_IS_PLAIN. destruct (container nd); [by left|by right]. Qed.

Lemma allow_insert_spec f nd vs size : fill_ok f → content f nd vs → count nd = zlen vs → 0 <= size →
  ∃ b, _quicklistNodeAllowInsert 0 (Some nd) f size = Some b ∧
    (b = true → container nd = PACKED ∧ size <= limit f ∧ zlen vs + 1 <= cap f).
Proof.
  intros Hf Hc Hn Hs. unfold _quicklistNodeAllowInsert. rewrite (large_spec f size Hf). cbn [mbind option_bind].
  destruct (plain_cases nd) as [[_ ->]|[Ec ->]]; [by exists false|]. cbn [orb].
  destruct (limit f <? size) eqn:El; zb; [by exists false|].
  destruct (payload_packed _ _ _ Hc Ec) as (b & es & Hp & Esz & ->). rewrite Hn, Esz. unfold SIZE_ESTIMATE_OVERHEAD.
  pose proof (packed_total _ _ _ Hp). pose proof (total_count _ _ _ Hp).
  assert (limit f <= 65536) as Hlim by (destruct (limit_cases f Hf) as [(_ & -> & _)|(_ & _ & ? & _)]; lia).
  rewrite uwrap_id by (unfold max_total in *; lia). rewrite strs_zlen.
  destruct (exceeds_spec f (total es + size + 8) (zlen es + 1) Hf) as (r & -> & Hr). cbn [mbind option_bind].
  exists (negb r). split; [done|]. intros Hb%negb_true_iff. split; [done|]. split; [done|]. unfold cap, fill_ok, FILL_MAX in *.
  destruct (Hr Hb) as [(? & ? & ?)|(? & ?)]; case_if; lia.
Qed.

Lemma allow_merge_spec f na nb va vb : fill_ok f → content f na va → content f nb vb → count na = zlen va → count nb = zlen vb →
  ∃ b, _quicklistNodeAllowMerge (Some na) (Some nb) f = Some b ∧
    (b = true → container na = PACKED ∧ container nb = PACKED ∧ zlen va + zlen vb <= cap f).
Proof.
  intros Hf Hca Hcb Hna Hnb. unfold _quicklistNodeAllowMerge.
  destruct (plain_cases na) as [[_ ->]|[Ea ->]]; [by exists false|]. cbn [orb].
  destruct (plain_cases nb) as [[_ ->]|[Eb ->]]; [by exists false|].
  destruct (payload_packed _ _ _ Hca Ea) as (ba & ea & Hpa & Esa & ->). destruct (payload_packed _ _ _ Hcb Eb) as (bb & eb & Hpb & Esb & ->).
  pose proof (packed_total _ _ _ Hpa). pose proof (total_count _ _ _ Hpa). pose proof (packed_total _ _ _ Hpb). pose proof (total_count _ _ _ Hpb).
  pose proof (zlen_nonneg ea). pose proof (zlen_nonneg eb).
  rewrite Hna, Hnb, Esa, Esb, !strs_zlen. rewrite uwrap_id by (unfold max_total in *; lia).
  destruct (exceeds_spec f (total ea + total eb - 7) (zlen ea + zlen eb) Hf) as (r & -> & Hr). cbn [mbind option_bind].
  exists (negb r). split; [done|]. intros Hb%negb_true_iff. split; [done|]. split; [done|]. unfold cap, fill_ok, FILL_MAX in *.
  destruct (Hr Hb) as [(? & ? & ?)|(? & ?)]; case_if; lia.
Qed.

Section Edit.
Context (junk : Z) (in_data : heap → Z) (htab0 : heap → Z → Z).
Context (Hin : ∀ h, Lzf.MAX_OFF <= in_data h ∧ in_data h + INT32_MAX < 2 ^ 64) (Htab : ∀ h i, 0 <= htab0 h i < 2 ^ 64).
Abbreviation insertNode := (__quicklistInsertNode junk in_data htab0).
Abbreviation delNode := (__quicklistDelNode junk in_data htab0).

(** ** Nodes *)

(** The place of a new node is given by one of its neighbours, NULL if there is none. *)
Definition place_ok (A B : nodes) (old : option address) (after : bool) : Prop :=
  if after then old = last_of None A ∧ (A = [] → B = []) else old = first_of B None ∧ (B = [] → A = []).

Lemma place_elem A B old after o : place_ok A B old after → old = Some o → o ∈ (A ++ B).*1.
Proof.
  unfold place_ok. rewrite fmap_app. destruct after; intros [-> _] E.
  - destruct (last_of_cases None A) as [[-> E']|(A' & b & v & -> & E')]; rewrite E' in E; [done|]. injection E as ->. rewrite fmap_app. set_solver.
  - destruct B as [|[b v] B]; [done|]. injection E as ->. set_solver.
Qed.

Lemma insert_node_spec h0 h q A B a nd vss old after : options_ok q → holds (<[a := mkLinked None None nd]> h0) h q (A ++ B) → h0 !! a = None →
  reads (fill q) (A ++ (a, nd) :: B) vss → settled nd → depth_ok (depth q) (A ++ B) → place_ok A B old after →
  post (insertNode h q old a after) (λ '(h', q'), ∃ ns', holds h0 h' q' ns' ∧ recodes (fill q) (A ++ (a, nd) :: B) ns' ∧
    depth_ok (depth q) ns' ∧ same_options q q' ∧ ql_count q' = ql_count q ∧
    (∀ o on, old = Some o → (o, on) ∈ A ++ B → unmarked o on ns')).
Proof using Hin Htab.
  intros Ho H E0 Hr Hs Hd Hp. unfold __quicklistInsertNode.
  assert (post (link_node h q old a after) (λ '(h', q'), holds h0 h' q' (A ++ (a, nd) :: B) ∧ same_options q q' ∧
    ql_count q' = ql_count q ∧ bookmarks q' = bookmarks q)) as Hlink.
  { destruct after; destruct Hp as [-> Hp]; [apply (link_after _ _ _ _ _ _ None None)|apply (link_before _ _ _ _ _ _ None None)]; auto. }
  call Hlink. intros [h1 q1] (H1 & Hso & Hqc & _). pose proof (depth_ok_insert _ _ _ a nd Hd Hs) as Hd1.
  destruct (same_options_ok _ _ Hso Ho) as (Ho1 & Ed1 & Ef1). set (ns1 := A ++ (a, nd) :: B) in *.
  assert (post (match old with Some o => quicklistCompress junk in_data htab0 h1 q1 o | None => Some h1 end) (λ h', ∃ ns', holds h0 h' q1 ns' ∧
    recodes (fill q) ns1 ns' ∧ depth_ok (depth q) ns' ∧ ∀ o on, old = Some o → (o, on) ∈ A ++ B → unmarked o on ns')) as Hold.
  { destruct old as [o|]; [|by exists ns1]. pose proof (place_elem _ _ _ _ o Hp eq_refl) as Hel.
    assert (∃ on A2 B2, ns1 = A2 ++ (o, on) :: B2) as (on & A2 & B2 & E2).
    { unfold ns1. apply list_elem_of_fmap in Hel as ([o' on] & -> & Hel). simpl. exists on.
      apply list_elem_of_split. rewrite elem_of_app, elem_of_cons. apply elem_of_app in Hel. naive_solver. }
    eapply post_mono; [apply (compress_at_spec junk in_data htab0 (fill q) Hin Htab h0 h1 q1 A2 o on B2 vss (depth q)); rewrite <-?E2; try done|].
    - rewrite <-Ed1. by apply depth_eq.
    - rewrite <-E2. intros h2 (ns2 & H2 & Hrec & Hd2 & Hu). exists ns2. split_and!; try done. intros o' on' [= <-] Hin'.
      assert (on' = on) as ->; [|done]. apply (nodup_unique A2 B2 o on on'); rewrite <-E2; [apply H1|]. unfold ns1.
      rewrite elem_of_app, elem_of_cons. apply elem_of_app in Hin'. naive_solver. }
  call Hold. intros h2 (ns2 & H2 & Hrec2 & Hd2 & Hu2). pose proof (recodes_reads _ _ _ _ Hrec2 Hr) as Hr2.
  destruct (recodes_split _ _ _ _ _ _ Hrec2) as (A2 & nd2 & B2 & -> & _ & Hrnd & _).
  call (compress_at_spec junk in_data htab0 (fill q) Hin Htab h0 h2 q1 A2 a nd2 B2 vss (depth q) H2 Hr2 Hd2).
  { rewrite <-Ed1. by apply depth_eq. }
  intros h3 (ns3 & H3 & Hrec3 & Hd3 & _). exists ns3. split_and!; try done; [by etransitivity|by apply Hso..|].
  intros o on Eo Hin' nd' Hin3 Erc.
  apply list_elem_of_lookup in Hin3 as [i Hi]. destruct (Forall2_lookup_r _ _ _ _ _ Hrec3 Hi) as ([o' nd0] & Hi0 & E1 & _ & Hr0 & _).
  simpl in E1. subst o'. apply list_elem_of_lookup_2 in Hi0. by apply (Hu2 o on Eo Hin' nd0 Hi0), Hr0.
Qed.
Lemma del_node_spec h0 h q A B a nd vss : options_ok q → holds h0 h q (A ++ (a, nd) :: B) → reads (fill q) (A ++ B) vss →
  ready (depth q) (A ++ B) →
  post (delNode h q a) (λ '(h', q'), ∃ ns', holds h0 h' q' ns' ∧ recodes (fill q) (A ++ B) ns' ∧ depth_ok (depth q) ns' ∧
    same_options q q' ∧ ql_count q' = ql_count q - count nd).
Proof using Hin Htab.
  intros Ho H Hr Hd. unfold __quicklistDelNode. call (unlink_node_spec h0 h q A a nd B H). intros [h1 q1] (H1 & E0 & Hso & Hc).
  destruct (same_options_ok _ _ Hso Ho) as (Ho1 & Ed1 & Ef1).
  call (compress_list_spec junk in_data htab0 (fill q) Hin Htab _ h1 q1 (A ++ B) vss None (depth q) H1 Hr Hd); [rewrite <-Ed1; by apply depth_eq|done|].
  intros h2 (ns2 & H2 & Hrec & Hd2). exists ns2. split_and!; try done; [by eapply holds_free|apply Hso..].
Qed.

(** Removing a node from a list in its invariant. *)
Lemma del_inv h0 h q A B a nd vss use : options_ok q → holds h0 h q (A ++ (a, nd) :: B) → reads (fill q) (A ++ B) vss → counts_ok (A ++ B) vss →
  depth_ok (depth q) (A ++ (a, nd) :: B) → marks_ok use (A ++ B) →
  (∀ i p, (A ++ B) !! i = Some p → in_depth (depth q) (length (A ++ B)) i → recompress p.2 = false) →
  post (delNode h q a) (λ '(h', q'), ∃ ns', qinv h0 h' q' ns' vss use ∧ recodes (fill q) (A ++ B) ns' ∧ same_options q q' ∧
    ql_count q' = ql_count q - count nd).
Proof using Hin Htab.
  intros Ho H Hr Hc Hd Hm Hq. pose proof (ready_delete _ _ _ _ _ Hd Hq) as Hrd.
  eapply post_mono; [by eapply del_node_spec|]. intros [h' q'] (ns' & H' & Hrec & Hd' & Hso & Hc'). exists ns'.
  destruct (same_options_ok _ _ Hso Ho) as (Ho' & Ed' & Ef'). split; [|done]. constructor; rewrite ?Ed', ?Ef'; try done.
  - by eapply recodes_reads.
  - by eapply recodes_counts_ok.
  - by eapply recodes_marks.
Qed.

(** Adding one; the node it is put next to is compressed again if it was in use. *)
Lemma insert_inv h0 h q A B VA VB a nd vs use old after : qinv (<[a := mkLinked None None nd]> h0) h q (A ++ B) (VA ++ VB) use → h0 !! a = None →
  length VA = length A → content (fill q) nd vs → count nd = zlen vs → settled nd → dont_compress nd = false → place_ok A B old after →
  post (insertNode h q old a after) (λ '(h', q'), ∃ ns', qinv h0 h' q' ns' (VA ++ vs :: VB) use ∧ recodes (fill q) (A ++ (a, nd) :: B) ns' ∧
    same_options q q' ∧ ql_count q' = ql_count q ∧ (use = old → marks_ok None ns')).
Proof using Hin Htab.
  intros [Ho H Hr Hc Hd Hm] E0 El Hct Hcn Hs Hdc Hp.
  assert (reads (fill q) (A ++ (a, nd) :: B) (VA ++ vs :: VB)) as Hr1.
  { apply Forall2_app_inv in Hr as [HA HB]; [|done]. apply Forall2_app; [done|]. by constructor. }
  assert (counts_ok (A ++ (a, nd) :: B) (VA ++ vs :: VB)) as Hc1.
  { apply Forall2_app_inv in Hc as [HA HB]; [|done]. apply Forall2_app; [done|]. by constructor. }
  assert (marks_ok use (A ++ (a, nd) :: B)) as Hm1.
  { intros p. rewrite elem_of_app, elem_of_cons. intros [Hp'|[->|Hp']]; [|split; [done|]; intros _; apply Hs|];
    apply Hm; rewrite elem_of_app; auto. }
  eapply post_mono; [by eapply insert_node_spec|]. intros [h' q'] (ns' & H' & Hrec & Hd' & Hso & Hcount & Hu). exists ns'.
  destruct (same_options_ok _ _ Hso Ho) as (Ho' & Ed' & Ef'). pose proof (recodes_marks _ _ _ _ Hrec Hm1) as Hm'.
  split; [|split; [done|split; [done|split; [done|]]]].
  - constructor; rewrite ?Ed', ?Ef'; try done; [by eapply recodes_reads|by eapply recodes_counts_ok].
  - intros -> p Hp'. destruct (Hm' p Hp') as [H1 H2]. split; [done|]. intros _. destruct (decide (old = Some p.1)) as [Eo|]; [|by apply H2].
    pose proof (place_elem _ _ _ _ _ Hp Eo) as Hin'. apply list_elem_of_fmap in Hin' as ([o on] & Eo' & Hin'). simpl in Eo'. subst o.
    destruct (recompress p.2) eqn:Er; [|done]. assert (dont_compress on = true) as Hdn.
    { apply (Hu p.1 on Eo Hin' p.2); [by destruct p|done]. }
    destruct (Hm _ Hin') as [Hdf _]. simpl in Hdf. congruence.
Qed.
End Edit.
End QuicklistEdit.
