(* ===== verification/QuicklistPush.v ===== *)
(** * Quicklists: pushing elements *)

From stdpp Require Import gmap.
From S2P Require Import Prelude Util Lzf LzfProofs Listpack ListpackRepr ListpackElem ListpackEdit ListpackValues Post Linked Quicklist QuicklistRepr QuicklistNodes QuicklistCompress QuicklistEdit.

Module QuicklistPush.
Import Listpack ListpackElem ListpackEdit ListpackValues ListpackRepr Post Quicklist Linked QuicklistRepr QuicklistNodes QuicklistCompress QuicklistEdit.

Lemma strs_one f v : fill_ok f → str_ok v → zlen v <= limit f → strs [encode_string v] = [v].
Proof. intros Hf Hv Hl. destruct (elem_fits f v Hf Hv Hl) as (_ & E & _). unfold strs. simpl. by rewrite E. Qed.

Lemma join_snoc (V : list (list (list Z))) v : mjoin (V ++ [[v]]) = mjoin V ++ [v].
Proof. by rewrite join_app. Qed.
Lemma zlen_join_app_one (V : list (list (list Z))) v : zlen (mjoin (V ++ [[v]])) = zlen (mjoin V) + 1.
Proof. by rewrite join_snoc, zlen_app. Qed.

Section Push.
Context (junk : Z) (Hjunk : is_byte junk) (in_data : heap → Z) (htab0 : heap → Z → Z) (zmalloc : heap → address).
Context (Hin : ∀ h, Lzf.MAX_OFF <= in_data h ∧ in_data h + INT32_MAX < 2 ^ 64) (Htab : ∀ h i, 0 <= htab0 h i < 2 ^ 64).
Context (Hmalloc : ∀ h, h !! zmalloc h = None).
Abbreviation insertNode := (__quicklistInsertNode junk in_data htab0).

(** A plain node for a large element. *)
Lemma create_plain_spec f h0 h q ns v : str_ok v → holds h0 h q ns →
  post (__quicklistCreateNode junk zmalloc h PLAIN v) (λ '(h', a), ∃ nd, holds (<[a := mkLinked None None nd]> h0) h' q ns ∧ h0 !! a = None ∧
    content f nd [v] ∧ count nd = 1 ∧ settled nd ∧ dont_compress nd = false ∧ container nd = PLAIN).
Proof using Hmalloc.
  intros Hv H. unfold __quicklistCreateNode. destruct (create_holds zmalloc h0 h q ns Hmalloc H) as (h1 & a & -> & H1 & E0).
  call (update_loose _ _ _ _ _ _ _ _ (set_container PLAIN) H1). intros h2 H2.
  call (update_loose _ _ _ _ _ _ _ _ (set_entry (Bytes v)) H2). intros h3 H3.
  call (update_loose _ _ _ _ _ _ _ _ (set_sz (zlen v)) H3). intros h4 H4. unfold count_add. apply post_bind.
  eapply post_mono; [apply (update_loose _ _ _ _ _ _ _ _ (λ n, set_count (count n + 1) n) H4)|]. intros h5 H5.
  eexists. split; [exact H5|]. split_and!; try done. by apply plain_content.
Qed.

Lemma insert_plain_spec h0 h q A B VA VB use v old after : qinv h0 h q (A ++ B) (VA ++ VB) use → length VA = length A → str_ok v →
  place_ok A B old after →
  post (__quicklistInsertPlainNode junk in_data htab0 zmalloc h q old v after) (λ '(h', q'), ∃ ns', qinv h0 h' q' ns' (VA ++ [v] :: VB) use ∧
    same_options q q' ∧ ql_count q' = ql_count q + 1 ∧ (use = old → marks_ok None ns') ∧ (∀ b, b ∈ (A ++ B).*1 → b ∈ ns'.*1)).
Proof using Hin Htab Hmalloc.
  intros Hq El Hv Hp. unfold __quicklistInsertPlainNode.
  call (create_plain_spec (fill q) _ _ _ _ v Hv (qi_holds _ _ _ _ _ _ Hq)). intros [h1 a] (nd & H1 & E0 & Hc & Hn & Hs & Hdc & _).
  assert (qinv (<[a := mkLinked None None nd]> h0) h1 q (A ++ B) (VA ++ VB) use) as Hq1 by (by destruct Hq).
  call (insert_inv junk in_data htab0 Hin Htab h0 h1 q A B VA VB a nd [v] use old after Hq1 E0 El Hc); try done.
  intros [h2 q2] (ns' & Hq2 & Hrec & Hso & Hcount & Hu). exists ns'. split; [by apply qinv_set_count|]. split; [done|]. split; [simpl; lia|]. split; [done|].
  intros b Hb. rewrite (recodes_keys _ _ _ Hrec). rewrite fmap_app, elem_of_app in Hb |- *.
  destruct Hb as [?|?]; [by left|right]. apply elem_of_cons. by right.
Qed.

(** A new packed node, before its count is set. *)
Lemma packed_node_spec h0 h q A B VA VB v b old after : qinv h0 h q (A ++ B) (VA ++ VB) None → length VA = length A → str_ok v →
  zlen v <= limit (fill q) → place_ok A B old after → packed (fill q) b [encode_string v] →
  post (let '(h, node) := quicklistCreateNode zmalloc h in
        h ← update h node (set_entry (Bytes b));
        h ← quicklistNodeUpdateSz h node;
        insertNode h q old node after)
    (λ '(h', q'), ∃ A' a nd' B', holds h0 h' q' (A' ++ (a, nd') :: B') ∧ length A' = length A ∧ length B' = length B ∧ count nd' = 0 ∧
      same_options q q' ∧ ql_count q' = ql_count q ∧
      ∀ h'', holds h0 h'' q' (A' ++ (a, set_count 1 nd') :: B') → qinv h0 h'' q' (A' ++ (a, set_count 1 nd') :: B') (VA ++ [v] :: VB) None).
Proof using Hin Htab Hmalloc.
  intros [Ho H Hr Hc Hd Hm] El Hv Hlv Hp Hb. destruct (create_holds zmalloc h0 h q _ Hmalloc H) as (h1 & a & -> & H1 & E0).
  call (update_loose _ _ _ _ _ _ _ _ (set_entry (Bytes b)) H1). intros h2 H2.
  call (update_sz_loose (fill q) _ _ _ _ _ _ _ _ b [encode_string v] H2 eq_refl Hb). intros h3 H3.
  set (nd := set_sz (total [encode_string v]) (set_entry (Bytes b) fresh_node)) in *.
  assert (content (fill q) nd [v]) as Hct.
  { rewrite <-(strs_one (fill q) v) by (done || apply Ho). by eapply packed_content. }
  assert (reads (fill q) (A ++ (a, nd) :: B) (VA ++ [v] :: VB)) as Hr1.
  { apply Forall2_app_inv in Hr as [HA HB]; [|done]. apply Forall2_app; [done|]. by constructor. }
  eapply post_mono; [by apply (insert_node_spec junk in_data htab0 Hin Htab h0 h3 q A B a nd _ old after Ho H3 E0 Hr1)|].
  intros [h4 q4] (ns' & H4 & Hrec & Hd4 & Hso & Hcount & _). destruct (recodes_split _ _ _ _ _ _ Hrec) as (A' & nd' & B' & -> & HA & Hnd & HB).
  exists A', a, nd', B'. pose proof Hnd as ((_ & Ecnt & _) & _). destruct (same_options_ok _ _ Hso Ho) as (Ho' & Ed' & Ef').
  split; [done|]. split; [by eapply recodes_length|]. split; [by eapply recodes_length|]. split; [done|]. split; [done|]. split; [done|].
  intros h'' H''. assert (marks_ok None (A ++ (a, nd) :: B)) as Hm1.
  { intros p. rewrite elem_of_app, elem_of_cons. intros [Hp'|[->|Hp']]; [|done|]; apply Hm; rewrite elem_of_app; auto. }
  pose proof (recodes_marks _ _ _ _ Hrec Hm1) as Hm'. pose proof (recodes_reads _ _ _ _ Hrec Hr1) as Hr'.
  apply Forall2_app_inv in Hc as [HcA HcB]; [|done]. constructor; rewrite ?Ed', ?Ef'; try done.
  - assert (length VA = length A') as El' by (rewrite El; symmetry; by eapply recodes_length).
    apply Forall2_app_inv in Hr' as [HrA HrB]; [|done]. inversion HrB as [|? ? ? ? (b' & Hb' & Hpl) ?]; subst. apply Forall2_app; [done|].
    constructor; [|done]. exists b'. split; [|done]. destruct Hb' as [? ?|c ? ? ? ? ? ?]; [by left|by apply (bytes_lzf _ _ c)].
  - apply Forall2_app; [by eapply recodes_counts_ok|]. constructor; [done|]. by eapply recodes_counts_ok.
  - by eapply depth_ok_replace.
  - intros p. rewrite elem_of_app, elem_of_cons. intros [Hp'|[->|Hp']].
    + apply Hm'. rewrite elem_of_app. auto.
    + apply (Hm' (a, nd')). rewrite elem_of_app, elem_of_cons. auto.
    + apply Hm'. rewrite elem_of_app, elem_of_cons. auto.
Qed.

(** A node at either end is never compressed. *)
Lemma end_settled h0 h q ns vss use i p : qinv h0 h q ns vss use → ns !! i = Some p → i = 0%nat ∨ S i = length ns → settled p.2.
Proof. intros Hq Hi He. apply (qi_depth _ _ _ _ _ _ Hq i p Hi). unfold in_depth. lia. Qed.

Lemma qlist_set_count h0 h q ns vss use c : qinv h0 h q ns vss use → c = zlen (mjoin vss) → qlist h0 h (set_ql_count q c) ns vss use.
Proof. intros Hq ->. split; [by apply qinv_set_count|done]. Qed.

(** An element added to the listpack of a settled node. *)
Lemma grow_inv h0 h q A a nd B VA vs VB use h' b' es' vs' : qinv h0 h q (A ++ (a, nd) :: B) (VA ++ vs :: VB) use → length VA = length A →
  settled nd → container nd = PACKED → packed (fill q) b' es' → es' ≠ [] → vs' = strs es' → zlen vs' = zlen vs + 1 →
  (use = Some a → dont_compress nd = false) →
  holds h0 h' q (A ++ (a, set_count (count nd + 1) (set_sz (total es') (set_entry (Bytes b') nd))) :: B) →
  qinv h0 h' q (A ++ (a, set_count (count nd + 1) (set_sz (total es') (set_entry (Bytes b') nd))) :: B) (VA ++ vs' :: VB) use.
Proof.
  intros Hq El [Hs1 Hs2] Ec Hp Hne -> Hz Hdc H'. pose proof (qi_counts _ _ _ _ _ _ Hq) as Hc.
  assert ((a, nd) ∈ A ++ (a, nd) :: B) as Hina by (rewrite elem_of_app, elem_of_cons; auto).
  destruct (counts_split _ _ _ _ _ _ _ El Hc) as (_ & Hn & _). destruct (qi_marks _ _ _ _ _ _ Hq _ Hina) as [Hd Hm].
  assert (count nd + 1 = zlen es') as Hn' by (rewrite Hn, <-Hz; apply strs_zlen).
  eapply (qinv_replace _ h); try done.
  - by eapply packed_content.
  - simpl. rewrite Hn', strs_zlen. apply uwrap_id. destruct Hp as [_ Hcap _ _]. pose proof (cap_range (fill q)). pose proof (zlen_nonneg es'). lia.
Qed.

Definition pushed h0 q vss (where_ : end_of) v (r : heap * quicklist * bool) : Prop :=
  let '(h', q', _) := r in ∃ ns' vss', qlist h0 h' q' ns' vss' None ∧ same_options q q' ∧
    mjoin vss' = match where_ with QUICKLIST_HEAD => v :: mjoin vss | QUICKLIST_TAIL => mjoin vss ++ [v] end.

Lemma push_head_spec h0 h q ns vss v : qlist h0 h q ns vss None → str_ok v →
  post (quicklistPushHead 0 junk in_data htab0 zmalloc h q v) (pushed h0 q vss QUICKLIST_HEAD v).
Proof using Hjunk Hin Htab Hmalloc.
  intros [Hq Hn] Hv. pose proof (qi_options _ _ _ _ _ _ Hq) as [Hf _]. pose proof (qi_holds _ _ _ _ _ _ Hq) as H.
  assert (place_ok [] ns (head q) false) as Hp by (split; [apply H|done]).
  unfold quicklistPushHead. next_is (large_spec (fill q) (zlen v) Hf). destruct (limit (fill q) <? zlen v) eqn:Hl; zb.
  { call (insert_plain_spec h0 h q [] ns [] vss None v (head q) false Hq eq_refl Hv Hp). intros [h' q'] (ns' & Hq' & Hso & Hc & _ & _).
    exists ns', ([v] :: vss). split; [split; [done|]|done]. simpl. rewrite zlen_cons. lia. }
  destruct (packed_single junk Hjunk (fill q) Hf v Hv Hl) as (b & Eb & Hpb).
  assert (∃ nh allow, deref h (head q) = Some nh ∧ _quicklistNodeAllowInsert 0 nh (fill q) (zlen v) = Some allow ∧
    (allow = true → ∃ a nd B vs VB, ns = (a, nd) :: B ∧ vss = vs :: VB ∧ container nd = PACKED ∧ zlen vs + 1 <= cap (fill q))) as (nh & allow & -> & E & Ha).
  { rewrite (hold_head _ _ _ _ H). destruct ns as [|[a nd] B]; [by exists None, false|]. destruct vss as [|vs VB]; [by pose proof (reads_length _ _ _ (qi_reads _ _ _ _ _ _ Hq))|].
    pose proof (qi_reads _ _ _ _ _ _ Hq) as Hr. pose proof (qi_counts _ _ _ _ _ _ Hq) as Hc. inversion Hr; inversion Hc; subst.
    destruct (allow_insert_spec (fill q) nd vs (zlen v)) as (r & E & Hr'); [done|done|done|apply zlen_nonneg|].
    exists (Some nd), r. simpl. rewrite (holds_node _ _ _ [] _ _ _ H). split; [done|]. split; [done|]. intros Hb. destruct (Hr' Hb) as (? & _ & ?). by exists a, nd, B, vs, VB. }
  cbn [mbind option_bind]. next_is E. destruct allow.
  - destruct (Ha eq_refl) as (a & nd & B & vs & VB & -> & -> & Ec & Hcap). pose proof (end_settled _ _ _ _ _ _ 0 (a, nd) Hq eq_refl (or_introl eq_refl)) as Hs.
    pose proof (qi_reads _ _ _ _ _ _ Hq) as Hr. inversion Hr as [|? ? ? ? Hct _]; subst.
    destruct (content_packed _ _ _ Hct (proj1 Hs) Ec) as (b0 & es & Ee & Hpk & Hne & _ & ->). rewrite strs_zlen in Hcap.
    destruct (packed_prepend junk (fill q) Hf b0 es v Hpk Hcap Hv Hl) as (b' & Eb' & Hpk'). destruct (elem_fits _ v Hf Hv Hl) as (_ & Ev & _).
    rewrite (hold_head _ _ _ _ H). cbn [first_of mbind option_bind]. apply post_bind. simpl in Hct.
    assert (raw nd = Some b0) as Eraw by (unfold raw; simpl in Ee; by rewrite Ee).
    call (update_entry_linked _ _ _ [] a nd B (lp_prepend junk v) b0 b' H Eraw Eb'). intros h1 H1.
    call (update_sz_linked (fill q) _ _ _ [] _ _ B b' _ H1 eq_refl Hpk'). intros h2 H2. cbn [post mbind option_bind].
    change (head (set_ql_count q (ql_count q + 1))) with (head q). rewrite (hold_head _ _ _ _ H). cbn [first_of mbind option_bind]. unfold count_add.
    call (update_holds _ _ _ [] _ _ B (λ n, set_count (count n + 1) n) H2). intros h3 H3. eexists _, (strs (encode_string v :: es) :: VB).
    split; [|split; [done|]].
    + apply qlist_set_count; [eapply (grow_inv _ _ _ [] a nd B [] _ VB None); try done; rewrite !strs_zlen, zlen_cons; lia|].
      rewrite Hn, !zlen_join_cons, !strs_zlen, zlen_cons. lia.
    + simpl. by rewrite Ev.
  - rewrite Eb. cbn [mbind option_bind]. call (packed_node_spec h0 h q [] ns [] vss v b (head q) false Hq eq_refl Hv Hl Hp Hpb).
    intros [h1 q1] (A' & a & nd' & B' & H1 & EA & _ & Hcnt & Hso & Hcount & Hfin). destruct A'; [|done].
    change (head (set_ql_count q1 (ql_count q1 + 1))) with (head q1). rewrite (hold_head _ _ _ _ H1). cbn [first_of mbind option_bind app]. unfold count_add.
    call (update_holds _ _ _ [] _ _ B' (λ n, set_count (count n + 1) n) H1). intros h2 H2. rewrite Hcnt in H2.
    eexists _, ([v] :: vss). split; [apply qlist_set_count; [by apply Hfin|]|split; [done|done]]. rewrite Hcount, Hn. simpl. rewrite zlen_cons. lia.
Qed.

Lemma push_tail_spec h0 h q ns vss v : qlist h0 h q ns vss None → str_ok v →
  post (quicklistPushTail 0 junk in_data htab0 zmalloc h q v) (pushed h0 q vss QUICKLIST_TAIL v).
Proof using Hjunk Hin Htab Hmalloc.
  intros [Hq Hn] Hv. pose proof (qi_options _ _ _ _ _ _ Hq) as [Hf _]. pose proof (qi_holds _ _ _ _ _ _ Hq) as H.
  assert (ns = ns ++ []) as En by (by rewrite app_nil_r). assert (vss = vss ++ []) as Ev0 by (by rewrite app_nil_r).
  assert (length vss = length ns) as Elen by (by eapply reads_length, qi_reads).
  assert (place_ok ns [] (tail q) true) as Hp by (split; [apply H|done]). unfold quicklistPushTail.
  next_is (large_spec (fill q) (zlen v) Hf). destruct (limit (fill q) <? zlen v) eqn:Hl; zb.
  { rewrite En, Ev0 in Hq. call (insert_plain_spec h0 h q ns [] vss [] None v (tail q) true Hq Elen Hv Hp). intros [h' q'] (ns' & Hq' & Hso & Hc & _ & _).
    exists ns', (vss ++ [[v]]). split; [split; [done|]|split; [done|apply join_snoc]]. rewrite zlen_join_app_one. lia. }
  destruct (packed_nil junk Hjunk (fill q) Hf) as (bn & Ebn & Hpn). pose proof (cap_range (fill q)) as Hcr.
  destruct (packed_append junk (fill q) Hf bn [] v Hpn) as (b & Eb & Hpb); [unfold zlen; simpl; lia|done|done|]. simpl in Hpb.
  assert (∃ nh allow, deref h (tail q) = Some nh ∧ _quicklistNodeAllowInsert 0 nh (fill q) (zlen v) = Some allow ∧
    (allow = true → ∃ a nd A vs VA, ns = A ++ [(a, nd)] ∧ vss = VA ++ [vs] ∧ length VA = length A ∧ container nd = PACKED ∧ zlen vs + 1 <= cap (fill q)))
    as (nh & allow & E0 & E & Ha).
  { rewrite (hold_tail _ _ _ _ H). destruct ns as [|[a nd] A _] using rev_ind; [by exists None, false|]. rewrite last_of_snoc.
    destruct (reads_split _ _ _ _ _ _ (qi_reads _ _ _ _ _ _ Hq)) as (VA & vs & VB & Ev & HA & Hct & HB). inversion HB; subst.
    pose proof (reads_length _ _ _ HA) as El. destruct (counts_split _ _ _ _ _ _ _ El (qi_counts _ _ _ _ _ _ Hq)) as (_ & Hcn & _).
    destruct (allow_insert_spec (fill q) nd vs (zlen v)) as (r & E & Hr'); [done|done|done|apply zlen_nonneg|].
    exists (Some nd), r. simpl. rewrite (holds_node _ _ _ _ _ _ _ H). split; [done|]. split; [done|]. intros Hb. destruct (Hr' Hb) as (? & _ & ?). by exists a, nd, A, vs, VA. }
  next_is E0. next_is E. destruct allow.
  - destruct (Ha eq_refl) as (a & nd & A & vs & VA & -> & -> & El & Ec & Hcap).
    assert (settled nd) as Hs.
    { apply (end_settled _ _ _ _ _ _ (length A) (a, nd) Hq); [by apply list_lookup_middle|right]. rewrite length_app. simpl. lia. }
    destruct (reads_split _ _ _ _ _ _ (qi_reads _ _ _ _ _ _ Hq)) as (VA' & vs' & VB & Ev & HA & Hct & HB). inversion HB; subst.
    apply app_inj_tail in Ev as [<- <-].
    destruct (content_packed _ _ _ Hct (proj1 Hs) Ec) as (b0 & es & Ee & Hpk & Hne & _ & ->). rewrite strs_zlen in Hcap.
    destruct (packed_append junk (fill q) Hf b0 es v Hpk Hcap Hv Hl) as (b' & Eb' & Hpk'). destruct (elem_fits _ v Hf Hv Hl) as (_ & Ev & _).
    apply post_bind. rewrite (hold_tail _ _ _ _ H), last_of_snoc. cbn [mbind option_bind].
    assert (raw nd = Some b0) as Eraw by (unfold raw; simpl in Ee; by rewrite Ee).
    call (update_entry_linked _ _ _ A a nd [] (lp_append junk v) b0 b' H Eraw Eb'). intros h1 H1.
    call (update_sz_linked (fill q) _ _ _ A _ _ [] b' _ H1 eq_refl Hpk'). intros h2 H2. cbn [post mbind option_bind].
    change (tail (set_ql_count q (ql_count q + 1))) with (tail q). rewrite (hold_tail _ _ _ _ H), last_of_snoc. cbn [mbind option_bind]. unfold count_add.
    call (update_holds _ _ _ A _ _ [] (λ n, set_count (count n + 1) n) H2). intros h3 H3.
    assert (strs (es ++ [encode_string v]) = strs es ++ [v]) as Estr by (rewrite strs_app; unfold strs; simpl; by rewrite Ev).
    eexists _, (VA ++ [strs (es ++ [encode_string v])]). split; [|split; [done|]].
    + apply qlist_set_count; [eapply (grow_inv _ _ _ A a nd [] VA _ [] None); try done; [by destruct es|rewrite Estr, zlen_app; unfold zlen; simpl; lia]|].
      rewrite Hn, !zlen_join_app, Estr. simpl. rewrite !app_nil_r, zlen_app, (zlen_cons v). unfold zlen. simpl. lia.
    + rewrite !join_app, Estr. simpl. by rewrite !app_nil_r, app_assoc.
  - assert ((lp ← lpNew junk 0; lp_append junk v lp) = Some b) as Eb2 by (rewrite Ebn; exact Eb). rewrite Eb2. cbn [mbind option_bind].
    rewrite En, Ev0 in Hq. call (packed_node_spec h0 h q ns [] vss [] v b (tail q) true Hq Elen Hv Hl Hp Hpb).
    intros [h1 q1] (A' & a & nd' & B' & H1 & _ & EB & Hcnt & Hso & Hcount & Hfin). destruct B'; [|done].
    change (tail (set_ql_count q1 (ql_count q1 + 1))) with (tail q1). rewrite (hold_tail _ _ _ _ H1), last_of_snoc. cbn [mbind option_bind]. unfold count_add.
    call (update_holds _ _ _ A' _ _ [] (λ n, set_count (count n + 1) n) H1). intros h2 H2. rewrite Hcnt in H2.
    eexists _, (vss ++ [[v]]). split; [apply qlist_set_count; [by apply Hfin|]|split; [done|apply join_snoc]]. rewrite Hcount, Hn. symmetry. apply zlen_join_app_one.
Qed.

(** The ends of a list are never compressed. *)
Lemma ends_raw h0 h q ns vss : qinv h0 h q ns vss None → assert_raw h (head q) = Some tt ∧ assert_raw h (tail q) = Some tt.
Proof.
  intros Hq. pose proof (qi_holds _ _ _ _ _ _ Hq) as H. unfold assert_raw. rewrite (hold_head _ _ _ _ H), (hold_tail _ _ _ _ H). split.
  - destruct ns as [|[a nd] B]; [done|]. simpl. rewrite (holds_node _ _ _ [] _ _ _ H). cbn [mbind option_bind].
    destruct (end_settled _ _ _ _ _ _ 0 (a, nd) Hq eq_refl (or_introl eq_refl)) as [E _]. simpl in E. by rewrite E.
  - destruct ns as [|[a nd] A _] using rev_ind; [done|]. rewrite last_of_snoc. simpl. rewrite (holds_node _ _ _ _ _ _ _ H). cbn [mbind option_bind].
    destruct (end_settled _ _ _ _ _ _ (length A) (a, nd) Hq) as [E _]; [by apply list_lookup_middle|right; rewrite length_app; simpl; lia|].
    simpl in E. by rewrite E.
Qed.

Lemma push_spec h0 h q ns vss v where_ : qlist h0 h q ns vss None → str_ok v →
  post (quicklistPush 0 junk in_data htab0 zmalloc h q v where_) (λ '(h', q'), pushed h0 q vss where_ v (h', q', true)).
Proof using Hjunk Hin Htab Hmalloc.
  intros Hl Hv. unfold quicklistPush. destruct (ends_raw _ _ _ _ _ (proj1 Hl)) as [-> ->]. cbn [mbind option_bind]. destruct where_.
  - call (push_head_spec _ _ _ _ _ _ Hl Hv). by intros [[h' q'] r].
  - call (push_tail_spec _ _ _ _ _ _ Hl Hv). by intros [[h' q'] r].
Qed.
End Push.
End QuicklistPush.
