(* ===== verification/QuicklistPop.v ===== *)
(** * Quicklists: deleting and popping elements *)

From stdpp Require Import gmap.
From S2P Require Import Prelude Util Lzf LzfProofs Listpack ListpackRepr ListpackElem ListpackEdit ListpackValues Post Linked Quicklist QuicklistRepr QuicklistNodes QuicklistCompress QuicklistEdit QuicklistPush.

Module QuicklistPop.
Import Listpack ListpackElem ListpackEdit ListpackValues ListpackRepr Post Quicklist Linked QuicklistRepr QuicklistNodes QuicklistCompress QuicklistEdit QuicklistPush.

(** The pointer [p] is to element [j] of a node, NULL when there is none; what it is for
    a plain node does not matter. *)
Definition points (f : Z) (nd : quicklistNode) (j : nat) (p : option Z) : Prop :=
  container nd = PACKED → ∀ b es, entry nd = Bytes b → packed f b es → p = ptr es j.

Lemma packed_node f nd vs : content f nd vs → encoding nd = RAW → container nd = PACKED →
  ∃ b es, entry nd = Bytes b ∧ raw nd = Some b ∧ packed f b es ∧ es ≠ [] ∧ sz nd = total es ∧ vs = strs es ∧ length vs = length es.
Proof.
  intros Hc E Ec. destruct (content_packed _ _ _ Hc E Ec) as (b & es & Eb & Hp & Hne & Es & Ev). exists b, es.
  unfold raw. rewrite Eb. split_and!; try done. rewrite Ev. unfold strs. by rewrite length_fmap.
Qed.

Lemma plain_node f nd vs : content f nd vs → encoding nd = RAW → container nd = PLAIN →
  ∃ b, entry nd = Bytes b ∧ raw nd = Some b ∧ vs = [b] ∧ sz nd = zlen b ∧ str_ok b.
Proof.
  intros (b & [E1 E2|? E1 _ _ _ _ _] & Hp) E Ec; [|congruence]. rewrite Ec in Hp. destruct Hp as (-> & Es & Hb). exists b.
  unfold raw. by rewrite E2.
Qed.

Lemma ptr_lt es j : (j < length es)%nat → ptr es j = Some (pos (take j es)).
Proof. intros. unfold ptr. by rewrite decide_True. Qed.

Lemma seek_ptr_z es i : ptr_z es i = if i <? 0 then if zlen es + i <? 0 then None else ptr es (Z.to_nat (zlen es + i)) else ptr es (Z.to_nat i).
Proof. unfold ptr_z. destruct (i <? 0) eqn:E; [done|]. by rewrite E. Qed.

(** The node deleted was the only one in use. *)
Lemma marks_gone a nd A B : NoDup (A ++ (a, nd) :: B).*1 → marks_ok (Some a) (A ++ (a, nd) :: B) → marks_ok None (A ++ B).
Proof.
  intros [Hn _]%nodup_middle Hm p Hp. assert (p ∈ A ++ (a, nd) :: B) as Hp' by (rewrite elem_of_app, elem_of_cons; apply elem_of_app in Hp; naive_solver).
  destruct (Hm p Hp') as [H1 H2]. split; [done|]. intros _. apply H2. intros [= ->]. apply Hn. by apply list_elem_of_fmap_2.
Qed.

Lemma reads_delete f A a nd B VA vs VB : length VA = length A → reads f (A ++ (a, nd) :: B) (VA ++ vs :: VB) → reads f (A ++ B) (VA ++ VB).
Proof. intros El H. apply Forall2_app_inv in H as [HA H]; [|done]. inversion H; subst. by apply Forall2_app. Qed.
Lemma counts_delete A a nd B VA vs VB : length VA = length A → counts_ok (A ++ (a, nd) :: B) (VA ++ vs :: VB) → counts_ok (A ++ B) (VA ++ VB).
Proof. intros El H. destruct (counts_split _ _ _ _ _ _ _ El H) as (? & _ & ?). by apply Forall2_app. Qed.

Section Pop.
Context (junk : Z) (in_data : heap → Z) (htab0 : heap → Z → Z).
Context (Hin : ∀ h, Lzf.MAX_OFF <= in_data h ∧ in_data h + INT32_MAX < 2 ^ 64) (Htab : ∀ h i, 0 <= htab0 h i < 2 ^ 64).
Abbreviation delNode := (__quicklistDelNode junk in_data htab0).
Abbreviation delIndex := (quicklistDelIndex junk in_data htab0).

(** Removing the node in use, whose entry and count may be out of date. *)
Lemma del_used h0 h q A B a nd nd0 VA vs VB : qinv h0 h q (A ++ (a, nd0) :: B) (VA ++ vs :: VB) (Some a) → length VA = length A →
  ∀ h1 q1, holds h0 h1 q1 (A ++ (a, nd) :: B) → same_options q q1 → (settled nd0 → settled nd) →
  post (delNode h1 q1 a) (λ '(h', q'), ∃ ns', qinv h0 h' q' ns' (VA ++ VB) None ∧ recodes (fill q) (A ++ B) ns' ∧ same_options q q' ∧
    ql_count q' = ql_count q1 - count nd).
Proof using Hin Htab.
  intros Hq El h1 q1 H Hso Hs. destruct Hq as [Ho H0 Hr Hc Hd Hm]. destruct (same_options_ok _ _ Hso Ho) as (Ho1 & Ed1 & Ef1).
  pose proof (marks_gone a nd0 A B (hold_nodup _ _ _ _ H0) Hm) as Hm'.
  eapply post_mono; [apply (del_inv junk in_data htab0 Hin Htab h0 h1 q1 A B a nd (VA ++ VB) None Ho1 H)|].
  - rewrite Ef1. by eapply reads_delete.
  - by eapply counts_delete.
  - rewrite Ed1. by eapply depth_ok_replace.
  - done.
  - intros i p Hi _. apply list_elem_of_lookup_2 in Hi. by apply (Hm' p Hi).
  - rewrite Ef1. intros [h' q'] (ns' & ? & ? & Hso' & ?). exists ns'. split_and!; try done. unfold same_options in *. destruct Hso, Hso'. split; congruence.
Qed.

Lemma del_index_spec h0 h q A a nd B VA vs VB use p j : qinv h0 h q (A ++ (a, nd) :: B) (VA ++ vs :: VB) use → use = None ∨ use = Some a →
  length VA = length A → encoding nd = RAW → points (fill q) nd j p → (j < length vs)%nat → ql_count q = zlen (mjoin (VA ++ vs :: VB)) →
  post (delIndex h q a p) (λ '(h', q', deleted, _), same_options q q' ∧
    if (deleted : bool) then length vs = 1%nat ∧ ∃ ns', qlist h0 h' q' ns' (VA ++ VB) None ∧ recodes (fill q) (A ++ B) ns'
    else length vs ≠ 1%nat ∧ ∃ nd', qlist h0 h' q' (A ++ (a, nd') :: B) (VA ++ delete j vs :: VB) use ∧ encoding nd' = RAW ∧
      container nd' = PACKED ∧ (settled nd → settled nd')).
Proof using Hin Htab.
  intros Hq Huse El Eraw Hpt Hj Hcnt. pose proof (qi_holds _ _ _ _ _ _ Hq) as H. unfold quicklistDelIndex.
  next_is (holds_node _ _ _ _ _ _ _ H).
  destruct (reads_split _ _ _ _ _ _ (qi_reads _ _ _ _ _ _ Hq)) as (VA' & vs' & VB' & Ev & HA & Hct & HB).
  apply app_inj_1 in Ev as [<- [= <- <-]]; [|by rewrite (reads_length _ _ _ HA)].
  destruct (counts_split _ _ _ _ _ _ _ El (qi_counts _ _ _ _ _ _ Hq)) as (_ & Hn & _).
  assert (qinv h0 h q (A ++ (a, nd) :: B) (VA ++ vs :: VB) (Some a)) as Hqa.
  { destruct Huse as [->| ->]; [|done]. destruct Hq as [? ? ? ? ? Hm]. constructor; try done. by apply marks_weaken. }
  rewrite join_middle, !zlen_app in Hcnt.
  destruct (plain_cases nd) as [[Ec ->]|[Ec ->]].
  - destruct (plain_node _ _ _ Hct Eraw Ec) as (b & _ & _ & -> & _).
    call (del_used h0 h q A B a nd nd VA _ VB Hqa El h q H (conj eq_refl eq_refl)); [done|]. intros [h' q'] (ns' & Hq' & Hrec & Hso & Hc').
    split; [done|]. split; [done|]. exists ns'. split; [split; [done|]|done]. rewrite Hc', Hcnt, Hn, join_app, zlen_app. unfold zlen at 2 4. simpl. lia.
  - destruct (packed_node _ _ _ Hct Eraw Ec) as (b & es & Ee & Eb & Hpk & Hne & Es & -> & Elen). rewrite Elen in Hj |- *.
    rewrite (Hpt Ec b es Ee Hpk), (ptr_lt es j Hj). apply post_bind. simpl. next_is Eb.
    destruct (packed_delete junk (fill q) b es j Hpk Hj) as (b' & Eb' & Hpk'). rewrite Eb'. cbn [mjoin option_join mbind option_bind].
    call (update_holds _ _ _ _ _ _ _ (set_entry (Bytes b')) H). intros h1 H1.
    unfold count_add. call (update_holds _ _ _ _ _ _ _ (λ n, set_count (count n + (-1)) n) H1). intros h2 H2.
    next_is (holds_node _ _ _ _ _ _ _ H2). simpl count. rewrite strs_zlen in Hn. pose proof (cap_range (fill q)). pose proof (pk_count _ _ _ Hpk).
    assert (zlen es = Z.of_nat (length es)) as Ezl by done.
    assert (uwrap 16 (count nd + -1) = zlen es - 1) as Eu by (rewrite Hn; apply uwrap_id; lia). rewrite Eu.
    set (nd2 := set_count (count (set_entry (Bytes b') nd) + -1) (set_entry (Bytes b') nd)) in *.
    destruct (zlen es - 1 =? 0) eqn:E0; zb.
    + assert (length es = 1%nat) as E1 by lia.
      call (del_used h0 h q A B a nd2 nd VA _ VB Hqa El h2 q H2 (conj eq_refl eq_refl)); [done|]. intros [h' q'] (ns' & Hq' & Hrec & Hso & Hc').
      split; [done|]. split; [done|]. exists ns'. split; [split; [by apply qinv_set_count|]|done]. simpl.
      assert (count nd2 = 0) as Ez by (change (uwrap 16 (count nd + -1) = 0); lia).
      rewrite Hc', Hcnt, Ez, join_app, zlen_app, strs_zlen. lia.
    + call (update_sz_linked (fill q) _ _ _ _ _ _ _ b' _ H2 eq_refl Hpk'). intros h3 Hh3. split; [done|]. split; [lia|].
      eexists. split; [|split; [|split; [|]]]; [split|..].
      * apply qinv_set_count. eapply (qinv_replace _ h _ _ _ _ a nd); [exact Hq|done|exact Hh3|..]; try done.
        -- assert (delete j (strs es) = strs (delete j es)) as -> by (unfold strs; symmetry; apply list_fmap_delete).
           eapply packed_content; try done. intros E. apply (f_equal length) in E. rewrite length_delete in E by (by apply lookup_lt_is_Some_2). simpl in E. lia.
        -- cbn [count set_sz nd2 set_count set_entry]. rewrite Eu. unfold zlen. rewrite length_delete by (by apply lookup_lt_is_Some_2; rewrite Elen). lia.
        -- simpl. assert ((a, nd) ∈ A ++ (a, nd) :: B) as Hina by (rewrite elem_of_app, elem_of_cons; auto). by apply (qi_marks _ _ _ _ _ _ Hq _ Hina).
        -- simpl. assert ((a, nd) ∈ A ++ (a, nd) :: B) as Hina by (rewrite elem_of_app, elem_of_cons; auto). by apply (qi_marks _ _ _ _ _ _ Hq _ Hina).
      * simpl. rewrite join_middle, !zlen_app, Hcnt, strs_zlen. unfold zlen at 5. rewrite length_delete by (by apply lookup_lt_is_Some_2; rewrite Elen). lia.
      * done.
      * done.
      * done.
Qed.

(** ** Popping *)

(** What is returned for an element. *)
Definition answer {A} (saver : list Z → A) (x : ListpackValues.value) : option A * Z * Z :=
  match x with VStr s => (Some (saver s), zlen s, -123456789) | VInt n => (None, 0, n) end.

(** An element at one of the ends. *)
Definition at_end (where_ : end_of) (v : list Z) (l : list (list Z)) : list (list Z) :=
  match where_ with QUICKLIST_HEAD => v :: l | QUICKLIST_TAIL => l ++ [v] end.

Definition popped {T} (saver : list Z → T) h0 q vss (where_ : end_of) (res : heap * quicklist * option (option T * Z * Z)) : Prop :=
  let '(h', q', r) := res in ∃ ns' vss', qlist h0 h' q' ns' vss' None ∧ same_options q q' ∧
    match r with
    | None => mjoin vss = [] ∧ vss' = vss
    | Some r => ∃ x, r = answer saver x ∧ value_ok x ∧ mjoin vss = at_end where_ (vbytes x) (mjoin vss')
    end.

(** The element read, then removed from the node. *)
Lemma pop_node_spec {T} (saver : list Z → T) h0 h q A a nd B VA vs VB where_ : qlist h0 h q (A ++ (a, nd) :: B) (VA ++ vs :: VB) None →
  length VA = length A → settled nd → match where_ with QUICKLIST_HEAD => A = [] | QUICKLIST_TAIL => B = [] end →
  (match where_ with QUICKLIST_HEAD => head q | QUICKLIST_TAIL => tail q end) = Some a →
  post (quicklistPopCustom junk in_data htab0 saver h q where_) (popped saver h0 q (VA ++ vs :: VB) where_).
Proof using Hin Htab.
  intros [Hq Hcnt] El Hs Hend Ea. pose proof (qi_holds _ _ _ _ _ _ Hq) as H. unfold quicklistPopCustom.
  destruct (reads_split _ _ _ _ _ _ (qi_reads _ _ _ _ _ _ Hq)) as (VA' & vs' & VB' & Ev & HA & Hct & HB).
  apply app_inj_1 in Ev as [<- [= <- <-]]; [|by rewrite (reads_length _ _ _ HA)].
  pose proof (content_count _ _ _ Hct) as Hne. assert (0 < length vs)%nat as Hlv by (destruct vs; [done|simpl; lia]).
  rewrite (proj2 (Z.eqb_neq _ _)) by (rewrite Hcnt, join_middle, !zlen_app; pose proof (zlen_nonneg (mjoin VA)); pose proof (zlen_nonneg (mjoin VB)); unfold zlen at 2; lia).
  rewrite Ea. unfold assert_raw, deref. rewrite (holds_node _ _ _ _ _ _ _ H). cbn [mbind option_bind].
  rewrite (bool_decide_false (encoding nd = LZF)) by (rewrite (proj1 Hs); done). cbn [mbind option_bind].
  set (j := match where_ with QUICKLIST_HEAD => 0%nat | QUICKLIST_TAIL => pred (length vs) end). assert (j < length vs)%nat as Hj by (unfold j; destruct where_; lia).
  assert (∃ v, vs !! j = Some v) as [v Hv] by (by apply lookup_lt_is_Some).
  assert (mjoin (VA ++ vs :: VB) = at_end where_ v (mjoin (VA ++ delete j vs :: VB)) ∧ (length vs = 1%nat → mjoin (VA ++ vs :: VB) = at_end where_ v (mjoin (VA ++ VB)))) as [Ejoin Ejoin1].
  { destruct where_; simpl; subst j.
    - subst A. destruct VA; [|done]. destruct vs as [|v' vs]; [done|]. injection Hv as ->. simpl. split; [done|]. intros [= ->%length_zero_iff_nil]. done.
    - subst B. inversion HB; subst. destruct vs as [|v' vs _] using rev_ind; [done|]. rewrite length_app in Hv |- *. simpl in Hv |- *.
      replace (pred (length vs + 1)) with (length vs) in * by lia. rewrite list_lookup_middle in Hv by done. injection Hv as ->.
      rewrite delete_middle, !join_app. simpl. rewrite !app_nil_r, app_assoc. split; [done|].
      intros E. assert (vs = []) as -> by (apply length_zero_iff_nil; lia). by rewrite app_nil_r. }
  assert (∀ p, points (fill q) nd j p → post (delIndex h q a p) (λ '(h', q', _, _), ∃ ns' vss',
    qlist h0 h' q' ns' vss' None ∧ same_options q q' ∧ mjoin (VA ++ vs :: VB) = at_end where_ v (mjoin vss'))) as Hdel.
  { intros p Hp. eapply post_mono; [by apply (del_index_spec h0 h q A a nd B VA vs VB None p j Hq (or_introl eq_refl) El (proj1 Hs) Hp Hj)|].
    intros [[[h' q'] []] p'] [Hso Hd]; [destruct Hd as (E1 & ns' & Hl' & _)|destruct Hd as (_ & nd' & Hl' & _)]; eexists _, _; (split; [exact Hl'|split; [done|auto]]). }
  destruct (plain_cases nd) as [[Ec ->]|[Ec ->]].
  - destruct (plain_node _ _ _ Hct (proj1 Hs) Ec) as (b & _ & Eb & -> & Esz & Hb). next_is Eb. rewrite Esz. next_is (rd_all b).
    assert (v = b) as -> by (destruct j; simpl in Hj, Hv; [congruence|lia]).
    call (Hdel None). { unfold points. congruence. }
    intros [[[h' q'] d'] p'] (ns' & vss' & Hl' & Hso & E). exists ns', vss'. split; [done|]. split; [done|]. exists (VStr b). done.
  - destruct (packed_node _ _ _ Hct (proj1 Hs) Ec) as (b & es & Ee & Eb & Hpk & Hnes & Es & Ev & Elen). next_is Eb.
    assert (lpSeek b (match where_ with QUICKLIST_HEAD => 0 | QUICKLIST_TAIL => -1 end) = Some (ptr es j)) as Eseek.
    { rewrite (packed_seek _ _ _ _ Hpk), seek_ptr_z. unfold j. unfold zlen in *. destruct where_; [done|]. simpl.
      rewrite (proj2 (Z.ltb_ge _ _)) by lia. do 2 f_equal. lia. }
    next_is Eseek. rewrite (ptr_lt es j) by lia. apply post_bind. cbn [post].
    assert (strs es !! j = Some v) as Hv' by (by rewrite <-Ev). destruct (packed_get _ _ _ j v Hpk Hv') as (x & Ex & Exv & Hx). next_is Ex.
    call (Hdel (Some (pos (take j es)))).
    { intros _ b2 es2 Eb2 Hpk2. rewrite <-(ptr_lt es j) by lia. assert (b2 = b) as -> by congruence.
      assert (length es2 = length es) as El2.
      { destruct (packed_length _ _ _ Hpk) as (? & E1 & _), (packed_length _ _ _ Hpk2) as (? & E2 & _). unfold zlen in *. rewrite E1 in E2. injection E2. lia. }
      pose proof (packed_seek _ _ _ (Z.of_nat j) Hpk) as E1. rewrite (packed_seek _ _ _ _ Hpk2), !seek_ptr_z in E1.
      rewrite (proj2 (Z.ltb_ge _ _)), Nat2Z.id in E1 by lia. congruence. }
    intros [[[h' q'] d'] p'] (ns' & vss' & Hl' & Hso & E). exists ns', vss'. split; [done|]. split; [done|]. exists x.
    split; [by destruct x|]. split; [done|]. by rewrite Exv.
Qed.

Lemma pop_custom_spec {T} (saver : list Z → T) h0 h q ns vss where_ : qlist h0 h q ns vss None →
  post (quicklistPopCustom junk in_data htab0 saver h q where_) (popped saver h0 q vss where_).
Proof using Hin Htab.
  intros Hl. pose proof Hl as [Hq Hcnt]. pose proof (qi_holds _ _ _ _ _ _ Hq) as H. pose proof (reads_length _ _ _ (qi_reads _ _ _ _ _ _ Hq)) as El.
  destruct ns as [|p ns'] eqn:Ens.
  { destruct vss; [|done]. simpl in Hcnt. unfold quicklistPopCustom. rewrite Hcnt. simpl. by exists [], []. }
  rewrite <-Ens in *. destruct where_.
  - destruct p as [a nd]. subst ns. destruct vss as [|vs VB]; [done|].
    apply (pop_node_spec saver h0 h q [] a nd ns' [] vs VB QUICKLIST_HEAD Hl); [done| |done|by rewrite (hold_head _ _ _ _ H)].
    apply (end_settled _ _ _ _ _ _ 0 (a, nd) Hq); auto.
  - destruct ns as [|[a nd] A _] using rev_ind; [done|]. destruct vss as [|vs VA _] using rev_ind; [rewrite length_app in El; simpl in El; lia|].
    rewrite !length_app in El. simpl in El.
    apply (pop_node_spec saver h0 h q A a nd [] VA vs [] QUICKLIST_TAIL Hl); [lia| |done|by rewrite (hold_tail _ _ _ _ H), last_of_snoc].
    apply (end_settled _ _ _ _ _ _ (length A) (a, nd) Hq); [by apply list_lookup_middle|right; rewrite length_app; simpl; lia].
Qed.

Lemma pop_spec h0 h q ns vss where_ : qlist h0 h q ns vss None →
  post (quicklistPop junk in_data htab0 h q where_) (popped (λ s, s) h0 q vss where_).
Proof using Hin Htab.
  intros Hl. pose proof (pop_custom_spec _quicklistSaver _ _ _ _ _ where_ Hl) as H. unfold quicklistPop, quicklistPopCustom in *.
  destruct (ql_count q =? 0); [exact H|]. exact H.
Qed.
End Pop.
End QuicklistPop.
