(* ===== verification/QuicklistIter.v ===== *)
(** * Quicklists: iterators

    An iterator stands between two elements of the list ([iter_at]) or on one that
    [quicklistNext] has just returned ([reading]); the node it is on is decompressed
    and marked until the iterator leaves it or is released. *)

From stdpp Require Import gmap.
From S2P Require Import Prelude Util Adlist Lzf LzfProofs Listpack ListpackRepr ListpackElem ListpackEdit ListpackValues Post Linked Quicklist QuicklistRepr QuicklistNodes QuicklistCompress QuicklistEdit QuicklistPush QuicklistPop.

Module QuicklistIter.
Import Adlist Listpack ListpackElem ListpackEdit ListpackValues ListpackRepr Post Quicklist Linked QuicklistRepr QuicklistNodes QuicklistCompress QuicklistEdit QuicklistPush QuicklistPop.

(** An offset from either end of [n] elements. *)
Definition norm (n o : Z) : Z := if o <? 0 then n + o else o.

(** The number of elements of the node before the iterator, when element [j] is the next
    one and when it was the last one. *)
Definition gap_before (d : Adlist.direction) (j : Z) : Z := match d with AL_START_HEAD => j | AL_START_TAIL => j + 1 end.
Definition gap_after (d : Adlist.direction) (j : Z) : Z := match d with AL_START_HEAD => j + 1 | AL_START_TAIL => j end.

(** What the sign of an offset is when the iterator began at an end. *)
Definition aligned (d : Adlist.direction) (o : Z) : Prop := match d with AL_START_HEAD => 0 <= o | AL_START_TAIL => o < 0 end.

(** The iterator in a node with elements [vs], [g] of them before it. *)
Record in_node (f : Z) (nd : quicklistNode) (vs : list (list Z)) (it : quicklistIter) (g : nat) : Prop := {
  in_gap : (g <= length vs)%nat;
  in_place : match zi it with
             | None => Z.of_nat g = gap_before (direction it) (norm (zlen vs) (offset it)) ∧
                 (container nd = PLAIN → norm (zlen vs) (offset it) = 0)
             | Some p => encoding nd = RAW ∧ ∃ j, (j < length vs)%nat ∧ points f nd j (Some p) ∧
                 norm (zlen vs) (offset it) = Z.of_nat j ∧ Z.of_nat g = gap_after (direction it) (Z.of_nat j)
             end
}.

(** Between [pre] and [post]. *)
Definition iter_at (f : Z) (ns : nodes) (vss : list (list (list Z))) (use : option address) (it : quicklistIter) (pre post : list (list Z)) : Prop :=
  match current it with
  | None => use = None ∧ pre ++ post = mjoin vss ∧ match direction it with AL_START_HEAD => post = [] | AL_START_TAIL => pre = [] end
  | Some a => ∃ A nd B VA vs VB g, ns = A ++ (a, nd) :: B ∧ vss = VA ++ vs :: VB ∧ length VA = length A ∧
      (use = None ∨ use = Some a) ∧ in_node f nd vs it g ∧ pre = mjoin VA ++ take g vs ∧ post = drop g vs ++ mjoin VB
  end.

(** The value in an entry. *)
Definition entry_reads (e : quicklistEntry) (v : list Z) : Prop :=
  match e_value e with Some s => s = v ∧ e_sz e = zlen s | None => v = Util.sdec (e_longval e) ∧ is_int64 (e_longval e) end.

Lemma quicklistCompare_reads e v p : entry_reads e v → quicklistCompare e p = bool_decide (v = p).
Proof.
  unfold entry_reads, quicklistCompare. destruct (e_value e) as [s|].
  - intros [-> ->]. case_bool_decide as E; [subst; by rewrite Z.eqb_refl|by rewrite andb_false_r].
  - intros [-> Hi]. destruct (Util.string2ll p) as [n|] eqn:E.
    + apply Util.string2ll_spec in E as [Hn ->]. destruct (e_longval e =? n) eqn:E; zb; [subst; by rewrite bool_decide_true|].
      rewrite bool_decide_false; [done|]. intros E'. assert (Util.string2ll (Util.sdec n) = Some n) as E1 by (by apply Util.string2ll_spec).
      assert (Util.string2ll (Util.sdec (e_longval e)) = Some (e_longval e)) as E2 by (by apply Util.string2ll_spec). congruence.
    + rewrite bool_decide_false; [done|]. intros <-. rewrite (proj2 (Util.string2ll_spec _ (e_longval e))) in E; done.
Qed.

(** On element [v], with [l1] before it and [l2] after it. *)
Record reading (f : Z) (ns : nodes) (vss : list (list (list Z))) (it : quicklistIter) (e : quicklistEntry)
    (A : nodes) (a : address) (nd : quicklistNode) (B : nodes) (VA : list (list (list Z))) (vs : list (list Z)) (VB : list (list (list Z)))
    (j : nat) (v : list Z) : Prop := {
  rd_nodes : ns = A ++ (a, nd) :: B;
  rd_values : vss = VA ++ vs :: VB;
  rd_len : length VA = length A;
  rd_raw : encoding nd = RAW;
  rd_elem : vs !! j = Some v;
  rd_current : current it = Some a;
  rd_zi : is_Some (zi it);
  rd_points : points f nd j (zi it);
  rd_norm : norm (zlen vs) (offset it) = Z.of_nat j;
  rd_e_node : e_node e = Some a;
  rd_e_zi : e_zi e = zi it;
  rd_e_offset : e_offset e = offset it;
  rd_e_value : entry_reads e v
}.

Lemma take_drop_elem {X} (l : list X) j x : l !! j = Some x → take j l ++ x :: drop (S j) l = l.
Proof. intros H. by rewrite take_drop_middle. Qed.

Lemma reading_join f ns vss it e A a nd B VA vs VB j v : reading f ns vss it e A a nd B VA vs VB j v →
  mjoin vss = (mjoin VA ++ take j vs) ++ v :: (drop (S j) vs ++ mjoin VB).
Proof.
  intros []. subst vss. rewrite join_middle. rewrite <-(take_drop_elem _ _ _ rd_elem0) at 1. by rewrite <-!app_assoc.
Qed.

(** Reading on. *)
Lemma reading_at f ns vss it e A a nd B VA vs VB j v : reading f ns vss it e A a nd B VA vs VB j v →
  match direction it with
  | AL_START_HEAD => iter_at f ns vss (Some a) it ((mjoin VA ++ take j vs) ++ [v]) (drop (S j) vs ++ mjoin VB)
  | AL_START_TAIL => iter_at f ns vss (Some a) it (mjoin VA ++ take j vs) (v :: drop (S j) vs ++ mjoin VB)
  end.
Proof.
  intros []. pose proof (lookup_lt_Some _ _ _ rd_elem0) as Hj. destruct rd_zi0 as [p Ep].
  destruct (direction it) eqn:Ed; unfold iter_at; rewrite rd_current0; exists A, nd, B, VA, vs, VB.
  - exists (S j). split_and!; [done|done|done|by right| |rewrite (take_S_r _ _ v rd_elem0); by rewrite <-app_assoc|done].
    constructor; [lia|]. rewrite Ep, Ed in *. split; [done|]. exists j. split_and!; try done. simpl. lia.
  - exists j. split_and!; [done|done|done|by right| |done|by rewrite (drop_S _ v _ rd_elem0)].
    constructor; [lia|]. rewrite Ep, Ed in *. split; [done|]. by exists j.
Qed.

Lemma reading_post f ns vss it e A a nd B VA vs VB j v : reading f ns vss it e A a nd B VA vs VB j v → points f nd j (e_zi e).
Proof. intros []. by rewrite rd_e_zi0. Qed.

Lemma ptr_none es j : (length es <= j)%nat → ptr es j = None.
Proof. intros. unfold ptr. by rewrite decide_False by lia. Qed.

(** ** The move in a node *)

Lemma norm_ptr es o : ptr_z es o = if norm (zlen es) o <? 0 then None else ptr es (Z.to_nat (norm (zlen es) o)).
Proof. unfold ptr_z, norm. done. Qed.

(** The next element of the node, if there is one. *)
Definition next_index (d : Adlist.direction) (g n : nat) : option nat :=
  match d with
  | AL_START_HEAD => if decide (g < n)%nat then Some g else None
  | AL_START_TAIL => match g with O => None | S i => Some i end
  end.

(** The iterator once it has moved. *)
Definition moved (f : Z) (nd : quicklistNode) (vs : list (list Z)) (g : nat) (it it' : quicklistIter) : Prop :=
  current it' = current it ∧ direction it' = direction it ∧ (aligned (direction it) (offset it) → aligned (direction it) (offset it')) ∧
  match next_index (direction it) g (length vs) with
  | Some j => is_Some (zi it') ∧ points f nd j (zi it') ∧ norm (zlen vs) (offset it') = Z.of_nat j ∧ - 32768 <= offset it' <= 32768
  | None => zi it' = None
  end.

Lemma seek_moved f nd b es it g : encoding nd = RAW → entry nd = Bytes b → packed f b es → container nd = PACKED → in_node f nd (strs es) it g → zi it = None →
  post (lpSeek b (offset it)) (λ z, moved f nd (strs es) g it (mkIter (current it) z (offset it) (direction it))).
Proof.
  intros Eraw Ee Hp Ec [Hg Hpl] Ez. rewrite Ez in Hpl. destruct Hpl as [Hpl _]. unfold strs in Hg. rewrite length_fmap in Hg.
  apply (post_some _ _ _ (packed_seek _ _ _ _ Hp)). unfold moved. simpl. rewrite strs_zlen in *. split; [done|]. split; [done|]. split; [done|].
  assert (length (strs es) = length es) as -> by (unfold strs; by rewrite length_fmap). rewrite norm_ptr. pose proof (pk_count _ _ _ Hp). pose proof (cap_range f).
  assert (zlen es = Z.of_nat (length es)) as Ezl by done.
  assert (∀ j, norm (zlen es) (offset it) = Z.of_nat j → points f nd j (ptr es j)) as Hpt.
  { intros j Hj _ b2 es2 E2 Hp2. assert (b2 = b) as -> by congruence.
    pose proof (packed_seek _ _ _ (Z.of_nat j) Hp2) as E1. rewrite (packed_seek _ _ _ _ Hp), !seek_ptr_z in E1.
    rewrite (proj2 (Z.ltb_ge _ _)), Nat2Z.id in E1 by lia. congruence. }
  assert (∀ j, norm (zlen es) (offset it) = Z.of_nat j → (j < length es)%nat →
    (if norm (zlen es) (offset it) <? 0 then None else ptr es (Z.to_nat (norm (zlen es) (offset it)))) = ptr es j ∧ is_Some (ptr es j) ∧ - 32768 <= offset it <= 32768) as Hone.
  { intros j Hj Hlt. rewrite Hj, (proj2 (Z.ltb_ge _ _)), Nat2Z.id by lia. split; [done|]. rewrite ptr_lt by done. split; [done|]. unfold norm in Hj. case_if; lia. }
  unfold next_index, gap_before in *. destruct (direction it).
  - case_decide.
    + destruct (Hone g) as (-> & ? & ?); [lia|done|]. split_and!; try done; [by apply Hpt|lia|lia].
    + rewrite (proj2 (Z.ltb_ge _ _)) by lia. apply ptr_none. lia.
  - destruct g as [|i]; [by rewrite (proj2 (Z.ltb_lt _ _)) by lia|]. destruct (Hone i) as (-> & ? & ?); [lia|lia|]. split_and!; try done; [by apply Hpt; lia|lia|lia|lia].
Qed.

Lemma step_moved f nd b es it g p : encoding nd = RAW → entry nd = Bytes b → packed f b es → container nd = PACKED → in_node f nd (strs es) it g → zi it = Some p →
  post (match direction it with
        | AL_START_HEAD => z ← lpNext b p; Some (mkIter (current it) z (swrap 64 (offset it + 1)) (direction it))
        | AL_START_TAIL => z ← lpPrev b p; Some (mkIter (current it) z (swrap 64 (offset it - 1)) (direction it))
        end) (moved f nd (strs es) g it).
Proof.
  intros Eraw Ee Hp Ec [Hg Hpl] Ez. rewrite Ez in Hpl. destruct Hpl as (_ & j & Hj & Hpt & Hn & Hgj).
  assert (length (strs es) = length es) as El by (unfold strs; by rewrite length_fmap). rewrite El in *. rewrite strs_zlen in Hn.
  pose proof (pk_count _ _ _ Hp). pose proof (cap_range f). assert (zlen es = Z.of_nat (length es)) as Ezl by done.
  pose proof (Hpt Ec b es Ee Hp) as Ep. rewrite ptr_lt in Ep by done. injection Ep as ->.
  destruct (packed_next _ _ _ j Hp Hj) as [En Epv].
  assert (∀ i es2, packed f b es2 → ∀ k, (k < length es)%nat → i = ptr es k → i = ptr es2 k) as Heq.
  { intros i es2 Hp2 k Hk ->. pose proof (packed_seek _ _ _ (Z.of_nat k) Hp2) as E1. rewrite (packed_seek _ _ _ _ Hp), !seek_ptr_z in E1.
    rewrite (proj2 (Z.ltb_ge _ _)), Nat2Z.id in E1 by lia. congruence. }
  assert (- 32768 <= offset it - 1 ∧ offset it + 1 <= 32768) as Hoff by (unfold norm in Hn; case_if; lia).
  unfold moved, gap_after, next_index in *. rewrite El, strs_zlen. destruct (direction it).
  - next_is En. cbn [post zi current direction offset]. rewrite swrap64_id by (unfold INT64_MIN, INT64_MAX; lia). split; [done|]. split; [done|]. split; [simpl; lia|].
    assert (g = S j) as -> by lia. case_decide.
    + rewrite ptr_lt by done. split; [done|]. split; [|split; [|lia]].
      * intros _ b2 es2 E2 Hp2. assert (b2 = b) as -> by congruence. apply Heq; [done|lia|]. by rewrite ptr_lt.
      * unfold norm in *. destruct (offset it <? 0) eqn:Eo, (offset it + 1 <? 0) eqn:Eo1; zb; lia.
    + apply ptr_none. lia.
  - next_is Epv. cbn [post zi current direction offset]. rewrite swrap64_id by (unfold INT64_MIN, INT64_MAX; lia). split; [done|]. split; [done|]. split; [simpl; lia|].
    assert (g = j) as -> by lia. destruct j as [|i]; [done|]. rewrite ptr_lt by lia. split; [done|]. split; [|split; [|lia]].
    + intros _ b2 es2 E2 Hp2. assert (b2 = b) as -> by congruence. apply Heq; [done|lia|]. by rewrite ptr_lt by lia.
    + unfold norm in *. destruct (offset it <? 0) eqn:Eo, (offset it - 1 <? 0) eqn:Eo1; zb; lia.
Qed.
Section Iter.
Context (junk : Z) (in_data : heap → Z) (htab0 : heap → Z → Z).
Context (Hin : ∀ h, Lzf.MAX_OFF <= in_data h ∧ in_data h + INT32_MAX < 2 ^ 64) (Htab : ∀ h i, 0 <= htab0 h i < 2 ^ 64).
Abbreviation compressAt := (quicklistCompress junk in_data htab0).

(** ** Leaving a node *)

Lemma release_spec h0 h q A a nd B vss use : qinv h0 h q (A ++ (a, nd) :: B) vss use → use = None ∨ use = Some a →
  post (compressAt h q a) (λ h', ∃ ns', qinv h0 h' q ns' vss None ∧ recodes (fill q) (A ++ (a, nd) :: B) ns').
Proof using Hin Htab.
  intros [Ho H Hr Hc Hd Hm] Huse.
  eapply post_mono; [apply (compress_at_spec junk in_data htab0 (fill q) Hin Htab h0 h q A a nd B vss (depth q) H Hr Hd); by apply depth_eq|].
  intros h' (ns' & H' & Hrec & Hd' & Hu). exists ns'. split; [|done]. constructor; try done; [by eapply recodes_reads|by eapply recodes_counts_ok|].
  intros p Hp. destruct (recodes_marks _ _ _ _ Hrec Hm p Hp) as [H1 H2]. split; [done|]. intros _.
  destruct (decide (use = Some p.1)) as [E|]; [|by apply H2]. destruct Huse as [->|E']; [done|]. rewrite E' in E. injection E as Ea.
  destruct (recompress p.2) eqn:Er; [|done]. assert (dont_compress nd = true) as Ht by (apply (Hu p.2); [destruct p; simpl in *; by subst|done]).
  assert ((a, nd) ∈ A ++ (a, nd) :: B) as Hina by (rewrite elem_of_app, elem_of_cons; auto). destruct (Hm _ Hina) as [Hf _]. simpl in Hf. congruence.
Qed.

(** ** The next element *)

Lemma use_node h0 h q A a nd B vss use : qinv h0 h q (A ++ (a, nd) :: B) vss use → use = None ∨ use = Some a →
  qinv h0 h q (A ++ (a, nd) :: B) vss (Some a).
Proof. intros [? ? ? ? ? Hm] [->| ->]; constructor; try done. by apply marks_weaken. Qed.

Lemma node_facts h0 h q A a nd B VA vs VB use : qinv h0 h q (A ++ (a, nd) :: B) (VA ++ vs :: VB) use → length VA = length A →
  content (fill q) nd vs ∧ count nd = zlen vs ∧ dont_compress nd = false.
Proof.
  intros Hq El. pose proof (qi_reads _ _ _ _ _ _ Hq) as Hr. apply Forall2_app_inv in Hr as [_ Hr]; [|done]. inversion Hr; subst.
  destruct (counts_split _ _ _ _ _ _ _ El (qi_counts _ _ _ _ _ _ Hq)) as (_ & Hn & _). split; [done|]. split; [done|].
  apply (qi_marks _ _ _ _ _ _ Hq (a, nd)). rewrite elem_of_app, elem_of_cons. auto.
Qed.

(** The node in use, decompressed. *)
Lemma use_spec h0 h q A a nd B VA vs VB use : qinv h0 h q (A ++ (a, nd) :: B) (VA ++ vs :: VB) use → use = None ∨ use = Some a → length VA = length A →
  post (quicklistDecompressNodeForUse junk h (Some a)) (λ h', ∃ nd', qinv h0 h' q (A ++ (a, nd') :: B) (VA ++ vs :: VB) (Some a) ∧
    encoding nd' = RAW ∧ count nd' = count nd ∧ container nd' = container nd ∧ content (fill q) nd' vs ∧ (encoding nd = RAW → nd' = nd)).
Proof.
  intros Hq Huse El. pose proof (qi_holds _ _ _ _ _ _ Hq) as H. destruct (node_facts _ _ _ _ _ _ _ _ _ _ _ Hq El) as (Hct & Hn & Hdc).
  eapply post_mono; [by eapply decompress_for_use_spec|]. intros h' (nd' & H' & Hct' & Er & Hcn & Hco & Hsz & Hd & Hsame). exists nd'. split; [|done].
  eapply qinv_replace; [by eapply use_node|done|done|done|congruence| |congruence|done]. intros [E ?]. by rewrite (Hsame E).
Qed.

Lemma plain_index d g o : Z.of_nat g = gap_before d (norm 1 o) → norm 1 o = 0 → next_index d g 1 = Some 0%nat ∧ - 32768 <= o <= 32768.
Proof.
  intros Hg Ho. split; [|unfold norm in Ho; case_if; lia]. unfold next_index, gap_before in *. destruct d.
  - assert (g = 0%nat) as -> by lia. done.
  - by assert (g = 1%nat) as -> by lia.
Qed.

Lemma next_in_node_spec h0 h q A a nd B VA vs VB use it g : qinv h0 h q (A ++ (a, nd) :: B) (VA ++ vs :: VB) use → use = None ∨ use = Some a →
  length VA = length A → current it = Some a → in_node (fill q) nd vs it g →
  post (next_in_node junk h it a) (λ '(h', it'), ∃ nd', qinv h0 h' q (A ++ (a, nd') :: B) (VA ++ vs :: VB) (Some a) ∧
    encoding nd' = RAW ∧ content (fill q) nd' vs ∧ moved (fill q) nd' vs g it it').
Proof.
  intros Hq Huse El Ecur Hit. pose proof (use_node _ _ _ _ _ _ _ _ _ Hq Huse) as Hqa. destruct (node_facts _ _ _ _ _ _ _ _ _ _ _ Hq El) as (Hct & Hn & Hdc).
  pose proof Hit as [Hg Hpl]. unfold next_in_node. next_is (holds_node _ _ _ _ _ _ _ (qi_holds _ _ _ _ _ _ Hq)). destruct (zi it) as [p|] eqn:Ez.
  - destruct Hpl as (Eraw & j & Hj & Hpt & Hnj & Hgj). destruct (plain_cases nd) as [[Ec ->]|[Ec ->]].
    + exists nd. split; [done|]. split; [done|]. split; [done|]. destruct (plain_node _ _ _ Hct Eraw Ec) as (b & _ & _ & -> & _). simpl in Hj, Hg.
      unfold moved. simpl. split; [done|]. split; [done|]. split; [done|]. unfold gap_after, next_index in *. destruct (direction it).
      * by rewrite decide_False by lia.
      * by assert (g = 0%nat) as -> by lia.
    + destruct (packed_node _ _ _ Hct Eraw Ec) as (b & es & Ee & Eb & Hpk & _ & _ & -> & _). next_is Eb.
      pose proof (step_moved _ _ _ _ _ _ _ Eraw Ee Hpk Ec Hit Ez) as Hm. destruct (direction it);
        (apply post_bind; destruct (_ b p) as [z|]; [|done]; cbn [mbind option_bind post] in *; by exists nd).
  - destruct Hpl as [Hpl Hpl0]. call (use_spec _ _ _ _ _ _ _ _ _ _ _ Hq Huse El). intros h1 (nd1 & Hq1 & Er1 & Hcn & Hco & Hct1 & _).
    next_is (holds_node _ _ _ _ _ _ _ (qi_holds _ _ _ _ _ _ Hq1)). destruct (plain_cases nd) as [[Ec ->]|[Ec ->]].
    + assert (container nd1 = PLAIN) as Ec1 by congruence. destruct (plain_node _ _ _ Hct1 Er1 Ec1) as (b & _ & Eb & -> & _). next_is Eb.
      exists nd1. split; [done|]. split; [done|]. split; [done|]. specialize (Hpl0 Ec). change (zlen [b]) with 1 in *. destruct (plain_index _ _ _ Hpl Hpl0) as [Ei Ho].
      unfold moved. simpl. rewrite Ei. split_and!; try done; [intros ?; congruence|lia|lia].
    + assert (container nd1 = PACKED) as Ec1 by congruence. destruct (packed_node _ _ _ Hct1 Er1 Ec1) as (b & es & Ee & Eb & Hpk & _ & _ & -> & _). next_is Eb.
      assert (in_node (fill q) nd1 (strs es) it g) as Hit1 by (constructor; [done|rewrite Ez; split; [done|congruence]]).
      pose proof (seek_moved _ _ _ _ _ _ Er1 Ee Hpk Ec1 Hit1 Ez) as Hm. apply post_bind. destruct (lpSeek b (offset it)) as [z|]; [|done]. by exists nd1.
Qed.

(** The entry of the element found. *)
Lemma entry_at_spec h0 h q A a nd B VA vs VB it p j v : qinv h0 h q (A ++ (a, nd) :: B) (VA ++ vs :: VB) (Some a) → length VA = length A →
  encoding nd = RAW → current it = Some a → zi it = Some p → points (fill q) nd j (zi it) → norm (zlen vs) (offset it) = Z.of_nat j →
  - 32768 <= offset it <= 32768 → vs !! j = Some v →
  post (entry_at h it a p) (λ e, reading (fill q) (A ++ (a, nd) :: B) (VA ++ vs :: VB) it e A a nd B VA vs VB j v).
Proof.
  intros Hq El Eraw Ecur Ez Hpt Hn Ho Hv. destruct (node_facts _ _ _ _ _ _ _ _ _ _ _ Hq El) as (Hct & _ & _).
  unfold entry_at. next_is (holds_node _ _ _ _ _ _ _ (qi_holds _ _ _ _ _ _ Hq)). pose proof (lookup_lt_Some _ _ _ Hv) as Hj.
  rewrite swrap_id by lia. destruct (plain_cases nd) as [[Ec ->]|[Ec ->]].
  - destruct (plain_node _ _ _ Hct Eraw Ec) as (b & _ & Eb & -> & Es & _). next_is Eb. rewrite Es. next_is (rd_all b).
    assert (j = 0%nat) as -> by (simpl in Hj; lia). injection Hv as ->. by constructor.
  - destruct (packed_node _ _ _ Hct Eraw Ec) as (b & es & Ee & Eb & Hpk & _ & _ & -> & Elen). next_is Eb.
    pose proof (Hpt Ec b es Ee Hpk) as Ep. rewrite Ez, ptr_lt in Ep by lia. injection Ep as ->.
    destruct (packed_get _ _ _ j v Hpk Hv) as (x & Ex & Exv & Hx). next_is Ex. by destruct x as [s|n]; constructor.
Qed.

(** The outcome of quicklistNext. *)
Definition next_ok (h0 : heap) q vss (it : quicklistIter) (pre post : list (list Z)) (r : heap * quicklistIter * option quicklistEntry) : Prop :=
  let '(h', it', e) := r in
  direction it' = direction it ∧ (aligned (direction it) (offset it) → aligned (direction it) (offset it')) ∧
  match e with
  | None => current it' = None ∧ (∃ ns', qinv h0 h' q ns' vss None) ∧ match direction it with AL_START_HEAD => post = [] | AL_START_TAIL => pre = [] end
  | Some e => ∃ ns' A a nd B VA vs VB j v, qinv h0 h' q ns' vss (Some a) ∧ reading (fill q) ns' vss it' e A a nd B VA vs VB j v ∧
      match direction it with
      | AL_START_HEAD => pre = mjoin VA ++ take j vs ∧ post = v :: drop (S j) vs ++ mjoin VB
      | AL_START_TAIL => pre = (mjoin VA ++ take j vs) ++ [v] ∧ post = drop (S j) vs ++ mjoin VB
      end
  end.

(** An iterator put at an end of a node. *)
Lemma in_node_start f nd vs it : content f nd vs → zi it = None →
  offset it = match direction it with AL_START_HEAD => 0 | AL_START_TAIL => -1 end →
  in_node f nd vs it (match direction it with AL_START_HEAD => 0%nat | AL_START_TAIL => length vs end).
Proof.
  intros Hct Ez Eo. pose proof (content_count _ _ _ Hct) as Hne. assert (0 < length vs)%nat as Hl by (destruct vs; [done|simpl; lia]).
  constructor; [destruct (direction it); lia|]. rewrite Ez, Eo. split.
  - destruct (direction it); simpl; unfold norm; simpl; [done|unfold zlen; lia].
  - intros Ec. destruct Hct as (b & _ & Hp). rewrite Ec in Hp. destruct Hp as (-> & _). by destruct (direction it).
Qed.

Lemma next_from h0 q vss fuel : ∀ h it A a nd B VA vs VB g use, vss = VA ++ vs :: VB → qinv h0 h q (A ++ (a, nd) :: B) vss use →
  use = None ∨ use = Some a → length VA = length A → current it = Some a → in_node (fill q) nd vs it g →
  (match direction it with AL_START_HEAD => length B | AL_START_TAIL => length A end < fuel)%nat →
  post (next_loop junk in_data htab0 fuel h q it) (next_ok h0 q vss it (mjoin VA ++ take g vs) (drop g vs ++ mjoin VB)).
Proof using Hin Htab.
  induction fuel as [|fuel IH]; [lia|]. intros h it A a nd B VA vs VB g use -> Hq Huse El Ecur Hit Hf.
  pose proof (in_gap _ _ _ _ _ Hit) as Hg. cbn [next_loop]. rewrite Ecur.
  call (next_in_node_spec h0 h q A a nd B VA vs VB use it g Hq Huse El Ecur Hit). intros [h1 it1] (nd1 & Hq1 & Er1 & Hct1 & Ecur1 & Ed1 & Hal1 & Hm).
  destruct (next_index (direction it) g (length vs)) as [j|] eqn:Ei.
  - destruct Hm as ([p Ep] & Hpt & Hn & Ho). rewrite Ep.
    assert (j < length vs)%nat as Hj. { unfold next_index in Ei. destruct (direction it); [case_decide; by simplify_eq|]. destruct g; simplify_eq. lia. }
    destruct (lookup_lt_is_Some_2 vs j Hj) as [v Hv]. call (entry_at_spec h0 h1 q A a nd1 B VA vs VB it1 p j v Hq1 El Er1); [congruence|done|done|done|done|done|].
    intros e Hrd. split; [done|]. split; [by auto|]. exists (A ++ (a, nd1) :: B), A, a, nd1, B, VA, vs, VB, j, v. split; [done|]. split; [done|].
    unfold next_index in Ei. destruct (direction it).
    + case_decide; [|done]. injection Ei as ->. split; [done|]. by rewrite (drop_S _ v _ Hv).
    + destruct g as [|i]; [done|]. injection Ei as ->. split; [|done]. by rewrite (take_S_r _ _ v Hv), app_assoc.
  - rewrite Hm. call (release_spec h0 h1 q A a nd1 B _ _ Hq1 (or_intror eq_refl)). intros h2 (ns2 & Hq2 & Hrec).
    destruct (recodes_split _ _ _ _ _ _ Hrec) as (A2 & nd2 & B2 & -> & HA2 & _ & HB2). pose proof (recodes_length _ _ _ HA2) as ElA. pose proof (recodes_length _ _ _ HB2) as ElB.
    destruct (reads_split _ _ _ _ _ _ (qi_reads _ _ _ _ _ _ Hq2)) as (VA' & vs' & VB' & Ev & HrA & Hct2 & HrB).
    apply app_inj_1 in Ev as [<- [= <- <-]]; [|rewrite (reads_length _ _ _ HrA); lia]. pose proof (qi_holds _ _ _ _ _ _ Hq2) as H2.
    rewrite Ed1. unfold next_index in Ei. destruct (direction it) eqn:Ed.
    + case_decide; [done|]. rewrite take_ge, drop_ge by lia. next_is (holds_next _ _ _ _ _ _ _ H2).
      destruct B2 as [|[b nb] B2].
      * inversion HrB; subst. destruct fuel; simpl; rewrite Ed; (split; [done|]; split; [done|]; split; [done|]; split; [by eexists|done]).
      * destruct VB as [|wb VB]; [by inversion HrB|]. inversion HrB as [|? ? ? ? Hctb _]; subst. simpl in ElB.
        rewrite (app_assoc A2 [(a, nd2)] ((b, nb) :: B2) : A2 ++ (a, nd2) :: (b, nb) :: B2 = (A2 ++ [(a, nd2)]) ++ (b, nb) :: B2) in Hq2.
        eapply post_mono; [apply (IH h2 (mkIter (Some b) None 0 AL_START_HEAD) (A2 ++ [(a, nd2)]) b nb B2 (VA ++ [vs]) wb VB 0%nat None)|].
        -- by rewrite <-app_assoc.
        -- done.
        -- by left.
        -- rewrite !length_app. simpl. lia.
        -- done.
        -- by apply (in_node_start _ _ _ (mkIter (Some b) None 0 AL_START_HEAD)).
        -- simpl. lia.
        -- intros [[h' it'] e]. unfold next_ok. rewrite Ed. cbn [direction offset]. intros (Ed' & Hal' & He). split; [done|]. split; [intros ?; by apply Hal'|].
           rewrite join_app in He. simpl in He. by rewrite !app_nil_r in He.
    + destruct g as [|g]; [|done]. simpl. rewrite app_nil_r. next_is (holds_prev _ _ _ _ _ _ _ H2).
      destruct A2 as [|[b nb] A2 _] using rev_ind.
      * destruct VA; [|simpl in *; lia]. destruct fuel; simpl; rewrite Ed; (split; [done|]; split; [done|]; split; [done|]; split; [by eexists|done]).
      * rewrite last_of_snoc. destruct VA as [|wb VA _] using rev_ind; [rewrite length_app in ElA; simpl in *; lia|].
        apply Forall2_app_inv in HrA as [_ HrA]; [|rewrite !length_app in *; simpl in *; lia]. inversion HrA as [|? ? ? ? Hctb _]; subst.
        rewrite !length_app in *. simpl in ElA, El. rewrite <-!app_assoc in Hq2. simpl in Hq2.
        eapply post_mono; [apply (IH h2 (mkIter (Some b) None (-1) AL_START_TAIL) A2 b nb ((a, nd2) :: B2) VA wb (vs :: VB) (length wb) None)|].
        -- by rewrite <-app_assoc.
        -- by rewrite <-app_assoc.
        -- by left.
        -- lia.
        -- done.
        -- by apply (in_node_start _ _ _ (mkIter (Some b) None (-1) AL_START_TAIL)).
        -- simpl. lia.
        -- intros [[h' it'] e]. unfold next_ok. rewrite Ed. cbn [direction offset]. intros (Ed' & Hal' & He). split; [done|]. split; [intros ?; by apply Hal'|].
           rewrite firstn_all, drop_all in He. rewrite <-app_assoc in He |- *. rewrite join_app. simpl in *. by rewrite !app_nil_r.
Qed.

Lemma ql_next_spec h0 h q ns vss use it pre post' : qinv h0 h q ns vss use → iter_at (fill q) ns vss use it pre post' →
  post (quicklistNext junk in_data htab0 h q it) (next_ok h0 q vss it pre post').
Proof using Hin Htab.
  unfold iter_at, quicklistNext. destruct (current it) as [a|] eqn:Ecur.
  - intros Hq (A & nd & B & VA & vs & VB & g & -> & -> & El & Huse & Hit & -> & ->). eapply next_from; try done.
    pose proof (hold_len _ _ _ _ (qi_holds _ _ _ _ _ _ Hq)) as ->. unfold zlen. rewrite length_app. simpl. destruct (direction it); lia.
  - intros Hq (-> & E & Hend). simpl. rewrite Ecur. simpl. split; [done|]. split; [done|]. split; [done|]. split; [by exists ns|done].
Qed.
End Iter.
End QuicklistIter.
