(* ===== verification/QuicklistSeek.v ===== *)
(** * Quicklists: finding an element by its index *)

From stdpp Require Import gmap.
From S2P Require Import Prelude Util Adlist Lzf LzfProofs Listpack ListpackRepr ListpackElem ListpackEdit ListpackValues Post Linked Quicklist QuicklistRepr QuicklistNodes QuicklistCompress QuicklistEdit QuicklistPush QuicklistPop QuicklistIter.

Module QuicklistSeek.
Import Adlist Listpack ListpackElem ListpackEdit ListpackValues ListpackRepr Post Quicklist Linked QuicklistRepr QuicklistNodes QuicklistCompress QuicklistEdit QuicklistPush QuicklistPop QuicklistIter.

(** Node [a] holds the element with [i] elements before it; [k] of them in the nodes before. *)
Record located (ns : nodes) (vss : list (list (list Z))) (i : Z) (A : nodes) (a : address) (nd : quicklistNode) (B : nodes)
    (VA : list (list (list Z))) (vs : list (list Z)) (VB : list (list (list Z))) : Prop := {
  loc_nodes : ns = A ++ (a, nd) :: B;
  loc_values : vss = VA ++ vs :: VB;
  loc_len : length VA = length A;
  loc_index : zlen (mjoin VA) <= i < zlen (mjoin VA) + zlen vs
}.

Lemma count_of A a nd B VA vs VB : length VA = length A → counts_ok (A ++ (a, nd) :: B) (VA ++ vs :: VB) → count nd = zlen vs.
Proof. intros El H. by destruct (counts_split _ _ _ _ _ _ _ El H) as (_ & ? & _). Qed.

Lemma seek_forward h0 h q ns vss i fuel : holds h0 h q ns → counts_ok ns vss → zlen (mjoin vss) <= INT64_MAX → i < zlen (mjoin vss) →
  ∀ A R VA VR, ns = A ++ R → vss = VA ++ VR → length VA = length A → zlen (mjoin VA) <= i → (length R <= fuel)%nat →
  post (seek_node fuel h true i (first_of R None) (zlen (mjoin VA))) (λ '(n, accum), ∃ A' a nd B VA' vs VB,
    n = Some a ∧ located ns vss i A' a nd B VA' vs VB ∧ accum = zlen (mjoin VA')).
Proof.
  intros H Hc Hmax Hi. induction fuel as [|fuel IH]; intros A R VA VR -> -> El Hlo Hf; destruct R as [|[a nd] R].
  1, 3: apply Forall2_app_inv in Hc as [_ Hc]; [|done]; inversion Hc; subst; rewrite app_nil_r in Hi; lia.
  { simpl in Hf. lia. }
  destruct VR as [|vs VR]; [apply Forall2_app_inv in Hc as [_ Hc]; [inversion Hc|done]|]. cbn [first_of seek_node].
  next_is (holds_node _ _ _ _ _ _ _ H). rewrite (count_of _ _ _ _ _ _ _ El Hc).
  pose proof (zlen_nonneg (mjoin VA)). pose proof (zlen_nonneg vs). pose proof (zlen_nonneg (mjoin VR)).
  assert (zlen (mjoin VA) + zlen vs <= zlen (mjoin (VA ++ vs :: VR))) as Hle by (rewrite join_middle, !zlen_app; lia).
  rewrite uwrap_id by (unfold INT64_MAX in *; lia). destruct (i <? _) eqn:E; zb.
  - exists A, a, nd, R, VA, vs, VR. split; [done|]. by split.
  - next_is (holds_next _ _ _ _ _ _ _ H). simpl in Hf.
    assert (zlen (mjoin VA) + zlen vs = zlen (mjoin (VA ++ [vs]))) as Ez by (rewrite join_app, zlen_app; simpl; by rewrite app_nil_r).
    rewrite Ez in *. apply (IH (A ++ [(a, nd)]) R (VA ++ [vs]) VR); [by rewrite <-app_assoc..|rewrite !length_app; simpl; lia|lia|lia].
Qed.

Lemma seek_backward h0 h q ns vss i fuel : holds h0 h q ns → counts_ok ns vss → zlen (mjoin vss) <= INT64_MAX → i < zlen (mjoin vss) →
  ∀ L B VL VB, ns = L ++ B → vss = VL ++ VB → length VL = length L → zlen (mjoin VB) <= i → (length L <= fuel)%nat →
  post (seek_node fuel h false i (last_of None L) (zlen (mjoin VB))) (λ '(n, accum), ∃ A a nd B' VA vs VB',
    n = Some a ∧ located ns vss (zlen (mjoin vss) - 1 - i) A a nd B' VA vs VB' ∧ accum = zlen (mjoin VB')).
Proof.
  intros H Hc Hmax Hi. induction fuel as [|fuel IH]; intros L B VL VB -> -> El Hlo Hf; destruct L as [|[a nd] L _] using rev_ind.
  1, 3: destruct VL; [simpl in *; lia|done].
  { rewrite length_app in Hf. simpl in Hf. lia. }
  destruct VL as [|vs VL _] using rev_ind; [rewrite length_app in El; simpl in El; lia|]. 
  assert (length VL = length L ∧ length L <= fuel)%nat as [El' Hf'] by (rewrite (length_app VL), (length_app L) in *; simpl in *; lia). clear Hf. rewrite last_of_snoc. cbn [seek_node]. rewrite <-!app_assoc in *. cbn [app] in *.
  next_is (holds_node _ _ _ _ _ _ _ H). rewrite (count_of _ _ _ _ _ _ _ El' Hc).
  pose proof (zlen_nonneg (mjoin VL)). pose proof (zlen_nonneg vs). pose proof (zlen_nonneg (mjoin VB)).
  assert (zlen (mjoin VL) + (zlen vs + zlen (mjoin VB)) = zlen (mjoin (VL ++ vs :: VB))) as Hle by (rewrite join_middle, !zlen_app; lia).
  rewrite uwrap_id by (unfold INT64_MAX in *; lia). destruct (i <? _) eqn:E; zb.
  - exists L, a, nd, B, VL, vs, VB. split; [done|]. split; [|done]. split; [done|done|done|]. lia.
  - next_is (holds_prev _ _ _ _ _ _ _ H).
    assert (zlen (mjoin VB) + zlen vs = zlen (mjoin (vs :: VB))) as Ez by (rewrite zlen_join_cons; lia).
    rewrite Ez in *. apply (IH L ((a, nd) :: B) VL (vs :: VB)); done || lia.
Qed.

(** The iterator on element [norm N idx]. *)
Definition index_ok (q : quicklist) (ns : nodes) (vss : list (list (list Z))) (d : Adlist.direction) (idx : Z) (r : option quicklistIter) : Prop :=
  let i := norm (zlen (mjoin vss)) idx in
  match r with
  | None => ¬ 0 <= i < zlen (mjoin vss)
  | Some it => 0 <= i < zlen (mjoin vss) ∧ zi it = None ∧ direction it = d ∧ (offset it < 0 ↔ idx < 0) ∧
      ∃ A a nd B VA vs VB, located ns vss i A a nd B VA vs VB ∧ current it = Some a ∧ norm (zlen vs) (offset it) = i - zlen (mjoin VA)
  end.

Lemma iterator_at_spec h0 h q ns vss use d idx : qlist h0 h q ns vss use → zlen (mjoin vss) <= INT64_MAX → is_int64 idx → idx ≠ INT64_MIN →
  post (quicklistGetIteratorAtIdx h q d idx) (index_ok q ns vss d idx).
Proof.
  intros [Hq Hcnt] Hmax Hidx Hmin. pose proof (qi_holds _ _ _ _ _ _ Hq) as H. pose proof (qi_counts _ _ _ _ _ _ Hq) as Hc.
  pose proof (reads_length _ _ _ (qi_reads _ _ _ _ _ _ Hq)) as El.
  unfold quicklistGetIteratorAtIdx. rewrite (proj2 (Z.eqb_neq _ _)) by done. unfold is_int64, INT64_MIN, INT64_MAX in *.
  set (N := zlen (mjoin vss)) in *. set (forward := negb (idx <? 0)). set (index := uwrap 64 (if forward then idx else - idx - 1)).
  assert (index = if forward then idx else - idx - 1) as Eindex by (unfold index; apply uwrap_id; unfold forward; case_if; zb; lia).
  assert ((forward = true ∧ 0 <= idx) ∨ (forward = false ∧ idx < 0)) as Hfw by (unfold forward; destruct (idx <? 0) eqn:E; zb; auto).
  rewrite Hcnt. destruct (N <=? index) eqn:EN; zb.
  { simpl. unfold norm. fold N. destruct Hfw as [[E ?]|[E ?]]; rewrite E in *; case_if; zb; lia. }
  set (back := (N - 1) / 2 <? index). assert (0 <= index) as Hi0 by (destruct Hfw as [[E ?]|[E ?]]; rewrite E in *; lia).
  assert (Hseek : ∀ (sf : bool) si, si = (if eqb sf forward then index else N - 1 - index) →
    post (seek_node (Z.to_nat (len q)) h sf si (if sf then head q else tail q) 0) (λ '(n, accum), ∃ A a nd B VA vs VB, n = Some a ∧
      located ns vss (norm N idx) A a nd B VA vs VB ∧ accum = if sf then zlen (mjoin VA) else zlen (mjoin VB))).
  { intros sf si Esi. rewrite (hold_len _ _ _ _ H), (hold_head _ _ _ _ H), (hold_tail _ _ _ _ H). unfold zlen at 1. rewrite Nat2Z.id. destruct sf.
    - eapply post_mono; [apply (seek_forward h0 h q ns vss si (length ns) H Hc ltac:(done)) with (A := []) (VA := []) (VR := vss); try done|].
      + rewrite Esi. case_if; lia.
      + simpl. rewrite Esi. fold N. unfold zlen. simpl. case_if; lia.
      + intros [n accum] (A & a & nd & B & VA & vs & VB & -> & Hloc & ->). exists A, a, nd, B, VA, vs, VB. split; [done|]. split; [|done].
        replace (norm N idx) with si; [done|]. rewrite Esi. unfold norm. destruct Hfw as [[E ?]|[E ?]]; rewrite E in *; simpl; repeat case_if; zb; lia.
    - eapply post_mono; [apply (seek_backward h0 h q ns vss si (length ns) H Hc ltac:(done)) with (L := ns) (B := []) (VL := vss) (VB := []); try done; rewrite ?app_nil_r; try done|].
      + rewrite Esi. case_if; lia.
      + simpl. rewrite Esi. fold N. unfold zlen. simpl. case_if; lia.
      + intros [n accum] (A & a & nd & B & VA & vs & VB & -> & Hloc & ->). exists A, a, nd, B, VA, vs, VB. split; [done|]. split; [|done]. fold N in Hloc.
        replace (norm N idx) with (N - 1 - si); [done|]. rewrite Esi. unfold norm. destruct Hfw as [[E ?]|[E ?]]; rewrite E in *; simpl; repeat case_if; zb; lia. }
  destruct (if back then (negb forward, N - 1 - index) else (forward, index)) as [sf si] eqn:Es.
  assert (si = if eqb sf forward then index else N - 1 - index) as Esi by (destruct back; injection Es as <- <-; by destruct forward).
  call (Hseek sf si Esi). intros [n accum] (A & a & nd & B & VA & vs & VB & -> & Hloc & ->). cbv beta iota.
  destruct Hloc as [-> -> Ell Hl]. next_is (holds_node _ _ _ _ _ _ _ H). rewrite (count_of _ _ _ _ _ _ _ Ell Hc).
  assert (N = zlen (mjoin VA) + (zlen vs + zlen (mjoin VB))) as EN' by (unfold N; rewrite join_middle, !zlen_app; lia).
  pose proof (zlen_nonneg (mjoin VA)). pose proof (zlen_nonneg vs). pose proof (zlen_nonneg (mjoin VB)).
  set (acc := if bool_decide (sf = forward) then _ else _).
  assert (acc = if forward then zlen (mjoin VA) else zlen (mjoin VB)) as Eacc.
  { unfold acc. destruct sf, forward; simpl; try done; apply uwrap_id || (rewrite uwrap_id); lia. }
  rewrite Eacc. simpl. fold N.
  assert (0 <= norm N idx < N) as Hn by lia. split; [done|]. split; [done|]. split; [done|].
  assert ((if forward then swrap 64 (index - (if forward then zlen (mjoin VA) else zlen (mjoin VB)))
    else swrap 64 (- index - 1 + (if forward then zlen (mjoin VA) else zlen (mjoin VB)))) =
    if forward then norm N idx - zlen (mjoin VA) else norm N idx - zlen (mjoin VA) - zlen vs) as Eoff.
  { unfold norm in *. destruct Hfw as [[E ?]|[E ?]]; rewrite E in *; rewrite swrap64_id; unfold INT64_MIN, INT64_MAX; repeat case_if; zb; lia. }
  rewrite Eoff. split.
  - destruct Hfw as [[E ?]|[E ?]]; rewrite E in *; lia.
  - exists A, a, nd, B, VA, vs, VB. split; [by split|]. split; [done|]. unfold norm at 1.
    destruct Hfw as [[E ?]|[E ?]]; rewrite E in *; case_if; zb; lia.
Qed.

(** The iterators of the two ends. *)
Lemma iterator_spec f h0 h q ns vss d : holds h0 h q ns → reads f ns vss →
  iter_at f ns vss None (quicklistGetIterator q d) (match d with AL_START_HEAD => [] | AL_START_TAIL => mjoin vss end)
    (match d with AL_START_HEAD => mjoin vss | AL_START_TAIL => [] end) ∧ aligned d (offset (quicklistGetIterator q d)).
Proof.
  intros H Hr. split; [|by destruct d]. unfold iter_at, quicklistGetIterator. destruct d; simpl.
  - rewrite (hold_head _ _ _ _ H). destruct ns as [|[a nd] B]; simpl; [by inversion Hr|].
    destruct vss as [|vs VB]; [by inversion Hr|]. inversion Hr; subst. exists [], nd, B, [], vs, VB, 0%nat.
    split_and!; try done; [by left|]. by apply (in_node_start _ _ _ (mkIter (Some a) None 0 AL_START_HEAD)).
  - rewrite (hold_tail _ _ _ _ H). destruct ns as [|[a nd] A _] using rev_ind; simpl; [by inversion Hr|]. rewrite last_of_snoc.
    apply reads_split in Hr as (VA & vs & VB & -> & HA & Hct & HB). inversion HB; subst. exists A, nd, [], VA, vs, [], (length vs).
    rewrite firstn_all, drop_all, join_app. simpl. rewrite app_nil_r. split_and!; try done; [by eapply reads_length|by left|].
    by apply (in_node_start _ _ _ (mkIter (Some a) None (-1) AL_START_TAIL)).
Qed.

(** The element an iterator at an index returns first. *)
Lemma index_next f (q : quicklist) ns vss d idx it : reads f ns vss → index_ok q ns vss d idx (Some it) →
  ∃ l1 v l2, mjoin vss = l1 ++ v :: l2 ∧ zlen l1 = norm (zlen (mjoin vss)) idx ∧
    match d with AL_START_HEAD => iter_at f ns vss None it l1 (v :: l2) | AL_START_TAIL => iter_at f ns vss None it (l1 ++ [v]) l2 end.
Proof.
  intros Hr (Hi & Ez & Ed & _ & A & a & nd & B & VA & vs & VB & [-> -> El Hl] & Ecur & Hn). set (i := norm _ _) in *.
  set (j := Z.to_nat (i - zlen (mjoin VA))). assert (j < length vs)%nat as Hj by (unfold j, zlen in *; lia).
  destruct (lookup_lt_is_Some_2 vs j Hj) as [v Hv]. exists (mjoin VA ++ take j vs), v, (drop (S j) vs ++ mjoin VB).
  assert (content f nd vs) as Hct by (apply Forall2_app_inv in Hr as [_ Hr]; [by inversion Hr|done]).
  split; [|split].
  - rewrite join_middle. rewrite <-(take_drop_elem _ _ _ Hv) at 1. by rewrite <-!app_assoc.
  - rewrite zlen_app, zlen_take. unfold zlen in *. lia.
  - assert (in_node f nd vs it (match d with AL_START_HEAD => j | AL_START_TAIL => S j end)) as Hit.
    { constructor; [destruct d; lia|]. rewrite Ez, Ed, Hn. split; [unfold j; destruct d; simpl; lia|]. intros Ec.
      destruct Hct as (b & _ & Hp). rewrite Ec in Hp. destruct Hp as (-> & _). simpl in Hj. unfold j in Hj. lia. }
    unfold iter_at. rewrite Ecur. destruct d; exists A, nd, B, VA, vs, VB.
    + exists j. split_and!; try done; [by left|]. by rewrite (drop_S _ v _ Hv).
    + exists (S j). split_and!; try done; [by left|]. by rewrite (take_S_r _ _ v Hv), app_assoc.
Qed.

Section Seek.
Context (junk : Z) (in_data : heap → Z) (htab0 : heap → Z → Z).
Context (Hin : ∀ h, Lzf.MAX_OFF <= in_data h ∧ in_data h + INT32_MAX < 2 ^ 64) (Htab : ∀ h i, 0 <= htab0 h i < 2 ^ 64).

(** An iterator and its entry on an element, which an iterator from the tail reads. *)
Lemma entry_at_index_spec h0 h q ns vss idx : qlist h0 h q ns vss None → zlen (mjoin vss) <= INT64_MAX → is_int64 idx → idx ≠ INT64_MIN →
  post (quicklistGetIteratorEntryAtIdx junk in_data htab0 h q idx) (λ '(h', r),
    let i := norm (zlen (mjoin vss)) idx in
    match r with
    | None => h' = h ∧ ¬ 0 <= i < zlen (mjoin vss)
    | Some (it, e) => 0 <= i < zlen (mjoin vss) ∧ ∃ ns' A a nd B VA vs VB j v, qlist h0 h' q ns' vss (Some a) ∧
        reading (fill q) ns' vss it e A a nd B VA vs VB j v ∧ zlen (mjoin VA ++ take j vs) = i
    end).
Proof using Hin Htab.
  intros Hl Hmax Hidx Hmin. pose proof Hl as [Hq Hcnt]. unfold quicklistGetIteratorEntryAtIdx.
  call (iterator_at_spec h0 h q ns vss None AL_START_TAIL idx Hl Hmax Hidx Hmin). intros [it|] Hit; [|done].
  destruct (index_next (fill q) q ns vss AL_START_TAIL idx it (qi_reads _ _ _ _ _ _ Hq) Hit) as (l1 & v & l2 & Ej & Ei & Hat).
  destruct Hit as (Hi & _ & Ed & _). call (ql_next_spec junk in_data htab0 Hin Htab h0 h q ns vss None it (l1 ++ [v]) l2 Hq Hat).
  intros [[h' it'] [e|]] (Ed' & _ & He); rewrite Ed in He.
  - destruct He as (ns' & A & a & nd & B & VA & vs & VB & j & v' & Hq' & Hrd & E1 & _). apply app_inj_tail in E1 as [-> ->].
    split; [done|]. exists ns', A, a, nd, B, VA, vs, VB, j, v'. split; [by split|]. by split.
  - destruct He as (_ & _ & He). by destruct l1.
Qed.
(** ** Deleting the element an iterator is on *)

Lemma first_of_keys (ns ns' : nodes) p : ns'.*1 = ns.*1 → first_of ns' p = first_of ns p.
Proof. destruct ns as [|[]], ns' as [|[]]; try done. by intros [= -> _]. Qed.
Lemma last_of_keys (ns ns' : nodes) p : ns'.*1 = ns.*1 → last_of p ns' = last_of p ns.
Proof.
  intros E. destruct (last_of_cases p ns) as [[-> ->]|(A & a & w & -> & ->)].
  - by destruct ns'.
  - rewrite fmap_app in E. simpl in E. destruct ns' as [|[b w'] ns' _] using rev_ind; [by destruct A|].
    rewrite fmap_app in E. simpl in E. apply app_inj_tail in E as [_ ->]. by rewrite last_of_snoc.
Qed.

(** At the start of the nodes [B], and at the end of [A]. *)
Lemma iter_at_first f A B VA VB off : reads f B VB → length VA = length A → off = 0 →
  iter_at f (A ++ B) (VA ++ VB) None (mkIter (first_of B None) None off AL_START_HEAD) (mjoin VA) (mjoin VB).
Proof.
  intros Hr El ->. unfold iter_at. destruct B as [|[a nd] B]; simpl.
  - inversion Hr; subst. by rewrite app_nil_r, app_nil_r.
  - inversion Hr as [|? vs ? VB' Hct ?]; subst. exists A, nd, B, VA, vs, VB', 0%nat. split_and!; try done; [by left| |by rewrite app_nil_r].
    by apply (in_node_start _ _ _ (mkIter (Some a) None 0 AL_START_HEAD)).
Qed.

Lemma iter_at_last f A B VA VB off : reads f A VA → length VB = length B → off = -1 →
  iter_at f (A ++ B) (VA ++ VB) None (mkIter (last_of None A) None off AL_START_TAIL) (mjoin VA) (mjoin VB).
Proof.
  intros Hr El ->. unfold iter_at. destruct A as [|[a nd] A _] using rev_ind; simpl.
  - inversion Hr; subst. done.
  - rewrite last_of_snoc. apply reads_split in Hr as (VA' & vs & VB' & -> & HA & Hct & HB). inversion HB; subst.
    exists A, nd, B, VA', vs, VB, (length vs). rewrite firstn_all, drop_all, <-!app_assoc. split_and!; try done; [by eapply reads_length|by left| |by rewrite join_app; simpl; rewrite app_nil_r].
    by apply (in_node_start _ _ _ (mkIter (Some a) None (-1) AL_START_TAIL)).
Qed.

Lemma iter_at_join f ns vss use it pre post' : iter_at f ns vss use it pre post' → mjoin vss = pre ++ post'.
Proof.
  unfold iter_at. destruct (current it).
  - intros (A & nd & B & VA & vs & VB & g & -> & -> & _ & _ & _ & -> & ->). rewrite join_middle, <-!app_assoc. f_equal. by rewrite app_assoc, take_drop.
  - by intros (_ & <- & _).
Qed.

Lemma del_entry_spec h0 h q ns vss it e A a nd B VA vs VB j v : qlist h0 h q ns vss (Some a) → reading (fill q) ns vss it e A a nd B VA vs VB j v →
  aligned (direction it) (offset it) →
  post (quicklistDelEntry junk in_data htab0 h q it e) (λ '(h', q', it', _), ∃ ns' vss' use', qlist h0 h' q' ns' vss' use' ∧ same_options q q' ∧
    direction it' = direction it ∧ aligned (direction it) (offset it') ∧
    iter_at (fill q') ns' vss' use' it' (mjoin VA ++ take j vs) (drop (S j) vs ++ mjoin VB)).
Proof using Hin Htab.
  intros [Hq Hcnt] Hrd Hal. pose proof (reading_post _ _ _ _ _ _ _ _ _ _ _ _ _ _ Hrd) as Hpt. destruct Hrd. subst ns vss. pose proof (qi_holds _ _ _ _ _ _ Hq) as H.
  pose proof (lookup_lt_Some _ _ _ rd_elem0) as Hj. unfold quicklistDelEntry. next_is rd_e_node0.
  next_is (holds_prev _ _ _ _ _ _ _ H). next_is (holds_next _ _ _ _ _ _ _ H).
  call (del_index_spec junk in_data htab0 Hin Htab h0 h q A a nd B VA vs VB (Some a) (e_zi e) j Hq (or_intror eq_refl) rd_len0 rd_raw0 Hpt Hj Hcnt).
  intros [[[h' q'] deleted] z] [Hso Hd]. assert (fill q' = fill q) as Ef by apply Hso. destruct deleted.
  - destruct Hd as (E1 & ns' & Hl' & Hrec). assert (j = 0%nat) as -> by lia. rewrite (take_0 vs), (drop_ge vs), app_nil_r by lia. cbn [app].
    exists ns', (VA ++ VB), None. split; [done|]. split; [done|]. rewrite Ef. pose proof (qi_reads _ _ _ _ _ _ (proj1 Hl')) as Hr'. rewrite Ef in Hr'.
    apply Forall2_app_inv_l in Hrec as (A' & B' & HA & HB & ->). apply Forall2_app_inv in Hr' as [HrA HrB]; [|rewrite rd_len0; by eapply (recodes_length (fill q))].
    destruct (direction it) eqn:Ed; simpl; (split; [done|split; [lia|]]).
    + rewrite <-(first_of_keys B B') by (by eapply recodes_keys). apply iter_at_first; [done|rewrite rd_len0; by eapply Forall2_length|done].
    + rewrite <-(last_of_keys A A') by (by eapply recodes_keys). apply iter_at_last; [done|by eapply reads_length|done].
  - destruct Hd as (E1 & nd' & Hl' & Er' & Ec' & _). exists (A ++ (a, nd') :: B), (VA ++ delete j vs :: VB), (Some a).
    split; [done|]. split; [done|]. cbn [direction]. split; [done|]. split; [done|]. unfold iter_at. cbn [current]. rewrite rd_current0.
    assert (length (delete j vs) = length vs - 1)%nat as Eld by (rewrite length_delete by (by apply lookup_lt_is_Some_2); lia).
    exists A, nd', B, VA, (delete j vs), VB, j. split_and!; try done; [by right| |rewrite delete_take_drop, take_app_le by (rewrite length_take; lia); by rewrite take_take, Nat.min_id|].
    + constructor; [lia|]. cbn [zi direction offset]. split; [|congruence]. unfold norm, aligned, zlen in *. rewrite Eld.
      destruct (direction it); simpl; destruct (offset it <? 0) eqn:Eo; zb; lia.
    + rewrite delete_take_drop, drop_app_ge by (rewrite length_take; lia). rewrite length_take. by replace (j - min j (length vs))%nat with 0%nat by lia.
Qed.
End Seek.
End QuicklistSeek.
