(* ===== verification/QuicklistSplit.v ===== *)
(** * Quicklists: splitting and merging nodes *)

From stdpp Require Import gmap.
From S2P Require Import Prelude Util Lzf LzfProofs Listpack ListpackRepr ListpackElem ListpackEdit ListpackValues Post Linked Quicklist QuicklistRepr QuicklistNodes QuicklistCompress QuicklistEdit QuicklistPush QuicklistPop QuicklistIter.

Module QuicklistSplit.
Import Listpack ListpackElem ListpackEdit ListpackValues ListpackRepr Post Quicklist Linked QuicklistRepr QuicklistNodes QuicklistCompress QuicklistEdit QuicklistPush QuicklistPop QuicklistIter.

(** ** A node whose listpack has changed *)

(** [nd'] is [nd] with the entries [es]. *)
Record refilled (f : Z) (nd nd' : quicklistNode) (es : list (list Z)) : Prop := {
  rf_encoding : encoding nd' = encoding nd;
  rf_container : container nd' = container nd;
  rf_recompress : recompress nd' = recompress nd;
  rf_dont : dont_compress nd' = dont_compress nd;
  rf_packed : ∃ b, entry nd' = Bytes b ∧ packed f b es;
  rf_sz : sz nd' = total es;
  rf_count : count nd' = zlen es
}.

Lemma refilled_content f nd nd' es : refilled f nd nd' es → encoding nd = RAW → container nd = PACKED → es ≠ [] → content f nd' (strs es).
Proof. intros [E1 E2 _ _ (b & Eb & Hp) Es _] ? ? ?. eapply packed_content; try done; congruence. Qed.

Lemma packed_uwrap f b es : packed f b es → uwrap 16 (zlen es) = zlen es.
Proof. intros Hp. apply uwrap_id. pose proof (pk_count _ _ _ Hp). pose proof (cap_range f). pose proof (zlen_nonneg es). lia. Qed.

(** Assignments to a node, in the list or not. *)
Section Cell.
Context (f : Z) (a : address) (P : heap → quicklistNode → Prop).
Context (Hnode : ∀ h nd, P h nd → node_at h a = Some nd).
Context (Hupd : ∀ h nd g, P h nd → post (update h a g) (λ h', P h' (g nd))).

Lemma cell_entry h nd b b' g : P h nd → entry nd = Bytes b → g b = Some b' → post (update_entry h a g) (λ h', P h' (set_entry (Bytes b') nd)).
Proof using Hnode Hupd.
  intros H Eb Eg. unfold update_entry. next_is (Hnode _ _ H). assert (raw nd = Some b) as Er by (unfold raw; by rewrite Eb). next_is Er. next_is Eg. by apply Hupd.
Qed.

Lemma cell_sz h nd b es : P h nd → entry nd = Bytes b → packed f b es → post (quicklistNodeUpdateSz h a) (λ h', P h' (set_sz (total es) nd)).
Proof using Hnode Hupd.
  intros H Eb Hp. unfold quicklistNodeUpdateSz. next_is (Hnode _ _ H). assert (raw nd = Some b) as Er by (unfold raw; by rewrite Eb). next_is Er.
  next_is (packed_bytes _ _ _ Hp). by apply Hupd.
Qed.

(** Entries, count and size after a deletion. *)
Lemma cell_cut junk h nd b es es' start extent : P h nd → entry nd = Bytes b → packed f b es →
  (∃ b', lpDeleteRange junk b start (uwrap 64 extent) = Some b' ∧ packed f b' es') →
  post (cut_node junk h a start extent) (λ h', ∃ nd', P h' nd' ∧ refilled f nd nd' es').
Proof using Hnode Hupd.
  intros H Eb Hp (b' & Ed & Hp'). unfold cut_node. call (cell_entry h nd b b' (λ b, lpDeleteRange junk b start (uwrap 64 extent)) H Eb Ed). intros h1 H1.
  next_is (Hnode _ _ H1). next_is (eq_refl : raw (set_entry (Bytes b') nd) = Some b').
  destruct (packed_length _ _ _ Hp') as (b2 & El & Hp2). next_is El.
  call (Hupd _ _ (set_entry (Bytes b2)) H1). intros h2 H2. call (Hupd _ _ (set_count (zlen es')) H2). intros h3 H3.
  eapply post_mono; [by eapply (cell_sz _ _ b2)|]. intros h4 H4. eexists. split; [exact H4|]. constructor; try done; [by exists b2|].
  by eapply packed_uwrap.
Qed.

(** One more entry. *)
Lemma cell_grow h nd b b' es' g : P h nd → entry nd = Bytes b → g b = Some b' → packed f b' es' → count nd + 1 = zlen es' →
  post (grow_node h a g) (λ h', ∃ nd', P h' nd' ∧ refilled f nd nd' es').
Proof using Hnode Hupd.
  intros H Eb Eg Hp Hn. unfold grow_node. call (cell_entry h nd b b' _ H Eb Eg). intros h1 H1. unfold count_add.
  call (Hupd _ _ (λ n, set_count (count n + 1) n) H1). intros h2 H2. eapply post_mono; [by eapply (cell_sz _ _ b')|].
  intros h3 H3. eexists. split; [exact H3|]. constructor; try done; [by exists b'|]. simpl. rewrite Hn. by eapply packed_uwrap.
Qed.
End Cell.

Definition linked_cell h0 q A a B (h : heap) nd := holds h0 h q (A ++ (a, nd) :: B).
Definition loose_cell h0 q ns a (h : heap) nd := holds (<[a := mkLinked None None nd]> h0) h q ns.

Lemma linked_node h0 q A a B h nd : linked_cell h0 q A a B h nd → node_at h a = Some nd.
Proof. apply holds_node. Qed.
Lemma linked_update h0 q A a B h nd g : linked_cell h0 q A a B h nd → post (update h a g) (λ h', linked_cell h0 q A a B h' (g nd)).
Proof. apply update_holds. Qed.
Lemma loose_cell_node h0 q ns a h nd : loose_cell h0 q ns a h nd → node_at h a = Some nd.
Proof. apply loose_node. Qed.
Lemma loose_cell_update h0 q ns a h nd g : loose_cell h0 q ns a h nd → post (update h a g) (λ h', loose_cell h0 q ns a h' (g nd)).
Proof. apply update_loose. Qed.

(** ** Splitting *)

Section Split.
Context (junk : Z) (zmalloc : heap → address) (Hmalloc : ∀ h, h !! zmalloc h = None).

Lemma split_spec h0 h q A a nd B vs j off (after : bool) : holds h0 h q (A ++ (a, nd) :: B) → content (fill q) nd vs → count nd = zlen vs →
  encoding nd = RAW → container nd = PACKED → norm (zlen vs) off = Z.of_nat j → let c := if after then S j else j in (0 < c < length vs)%nat →
  post (_quicklistSplitNode junk zmalloc h a off after) (λ '(h', x), ∃ nd' nx,
    holds (<[x := mkLinked None None nx]> h0) h' q (A ++ (a, nd') :: B) ∧ h0 !! x = None ∧
    content (fill q) nd' (if after then take c vs else drop c vs) ∧ count nd' = zlen (if after then take c vs else drop c vs) ∧
    encoding nd' = RAW ∧ container nd' = PACKED ∧ recompress nd' = recompress nd ∧ dont_compress nd' = dont_compress nd ∧
    content (fill q) nx (if after then drop c vs else take c vs) ∧ count nx = zlen (if after then drop c vs else take c vs) ∧
    settled nx ∧ container nx = PACKED ∧ dont_compress nx = false).
Proof using Hmalloc.
  intros H Hct Hn Er Ec Hoff c Hc. destruct (packed_node _ _ _ Hct Er Ec) as (b & es & Ee & Eb & Hpk & Hne & Es & Ev & El). set (f := fill q) in *.
  unfold _quicklistSplitNode. next_is (holds_node _ _ _ _ _ _ _ H). destruct (create_holds zmalloc h0 h q _ Hmalloc H) as (h1 & x & -> & H1 & E0).
  next_is Eb. destruct (packed_take _ _ _ Hpk) as [Htl Hpx]. rewrite Es.
  assert (rd 0 (total es) b = Some (take (Z.to_nat (total es)) b)) as Erd.
  { rewrite <-(take_drop (Z.to_nat (total es)) b) at 1. apply rd_head. rewrite zlen_take. pose proof (total_nonneg es). lia. }
  next_is Erd. set (copy := take (Z.to_nat (total es)) b) in *.
  call (loose_cell_update _ _ _ _ _ _ (set_entry (Bytes copy)) H1). intros h2 H2.
  assert ((if off <? 0 then count nd + off else off) = Z.of_nat j) as Eoff by (rewrite Hn; exact Hoff). rewrite Eoff. clear Eoff Erd.
  set (nx0 := set_entry (Bytes copy) fresh_node) in *. assert (zlen es = Z.of_nat (length es)) as Ezl by done. rewrite El in Hc.
  pose proof (pk_count _ _ _ Hpk) as Hcap. pose proof (cap_range f).
  assert (∀ b k, packed f b es → (k = 0%nat ∨ (0 < k < length es)%nat) → k = c →
    (∃ b', lpDeleteRange junk b (Z.of_nat k) (uwrap 64 (-1)) = Some b' ∧ packed f b' (take c es)) ∧
    (∃ b', lpDeleteRange junk b 0 (uwrap 64 (Z.of_nat k)) = Some b' ∧ packed f b' (drop c es))) as Hcut.
  { intros b0 k Hp0 Hk ->. assert (uwrap 64 (-1) = UINT64_MAX) as -> by done. rewrite (uwrap_id 64 (Z.of_nat c)) by lia. split.
    - destruct (packed_delete_range junk f b0 es (Z.of_nat c) UINT64_MAX Hp0) as (b' & E & Hp'); [unfold INT64_MIN, INT64_MAX; lia|unfold UINT64_MAX; lia|..].
      1, 2: rewrite (proj2 (Z.ltb_ge _ _)) by lia; lia.
      exists b'. split; [done|]. cbv zeta in Hp'. rewrite (proj2 (Z.ltb_ge _ _)) in Hp' by lia. rewrite Nat2Z.id in Hp'.
      rewrite (drop_ge es), app_nil_r in Hp' by (unfold UINT64_MAX; lia). done.
    - destruct (packed_delete_range junk f b0 es 0 (Z.of_nat c) Hp0) as (b' & E & Hp'); [unfold INT64_MIN, INT64_MAX; lia|unfold UINT64_MAX; lia|simpl; lia|simpl; lia|].
      exists b'. split; [done|]. cbv zeta in Hp'. rewrite Z.ltb_irrefl, Z.add_0_l, Nat2Z.id in Hp'. exact Hp'. }
  set (left_ := take c es) in *. set (right_ := drop c es) in *.
  assert (strs left_ = take c (strs es) ∧ strs right_ = drop c (strs es)) as [EsL EsR] by (split; [apply strs_take|apply strs_drop]).
  assert (left_ ≠ [] ∧ right_ ≠ []) as [HneL HneR].
  { split; intros E; apply (f_equal length) in E; unfold left_, right_ in E; rewrite ?length_take, ?length_drop in E; simpl in E; lia. }
  assert (∀ start1 extent1 start2 extent2 es1 es2,
    (∀ b, packed f b es → ∃ b', lpDeleteRange junk b start1 (uwrap 64 extent1) = Some b' ∧ packed f b' es1) →
    (∀ b, packed f b es → ∃ b', lpDeleteRange junk b start2 (uwrap 64 extent2) = Some b' ∧ packed f b' es2) → es1 ≠ [] → es2 ≠ [] →
    post (h ← cut_node junk h2 a start1 extent1; h ← cut_node junk h x start2 extent2; Some (h, x)) (λ '(h', x), ∃ nd' nx,
      holds (<[x := mkLinked None None nx]> h0) h' q (A ++ (a, nd') :: B) ∧ h0 !! x = None ∧ refilled f nd nd' es1 ∧ refilled f nx0 nx es2)) as Hgo.
  { intros s1 x1 s2 x2 es1 es2 Hc1 Hc2 _ _.
    call (cell_cut f a _ (linked_node _ q A a B) (linked_update _ q A a B) junk h2 nd b es es1 s1 x1 H2 Ee Hpk (Hc1 b Hpk)). intros h3 (nd' & H3 & Hrf).
    call (cell_cut f x _ (loose_cell_node h0 q _ x) (loose_cell_update h0 q _ x) junk h3 nx0 copy es es2 s2 x2 H3 eq_refl Hpx (Hc2 copy Hpx)). intros h4 (nx & H4 & Hrx).
    by exists nd', nx. }
  assert (∀ es1 es2, refilled f nd es1 es2 → es2 ≠ [] → content f es1 (strs es2) ∧ count es1 = zlen (strs es2) ∧ encoding es1 = RAW ∧ container es1 = PACKED ∧
    recompress es1 = recompress nd ∧ dont_compress es1 = dont_compress nd) as Hold.
  { intros n es1 Hrf Hn1. split; [by eapply refilled_content|]. destruct Hrf. rewrite strs_zlen. split_and!; congruence. }
  assert (∀ es1 es2, refilled f nx0 es1 es2 → es2 ≠ [] → content f es1 (strs es2) ∧ count es1 = zlen (strs es2) ∧ settled es1 ∧ container es1 = PACKED ∧
    dont_compress es1 = false) as Hnew.
  { intros n es1 Hrf Hn1. split; [by eapply refilled_content|]. destruct Hrf. rewrite strs_zlen. split_and!; done || (split; congruence) || congruence. }
  rewrite Ev, <-EsL, <-EsR. destruct after; subst c.
  - replace (Z.of_nat j + 1) with (Z.of_nat (S j)) by lia.
    eapply post_mono; [apply (Hgo _ _ _ _ left_ right_); try done; intros b0 Hb0; destruct (Hcut b0 (S j) Hb0); auto; lia|].
    intros [h' y] (nd' & nx & H' & E & Hr1 & Hr2). exists nd', nx. destruct (Hold _ _ Hr1 HneL) as (? & ? & ? & ? & ? & ?), (Hnew _ _ Hr2 HneR) as (? & ? & ? & ? & ?). by split_and!.
  - eapply post_mono; [apply (Hgo _ _ _ _ right_ left_); try done; intros b0 Hb0; destruct (Hcut b0 j Hb0); auto; lia|].
    intros [h' y] (nd' & nx & H' & E & Hr1 & Hr2). exists nd', nx. destruct (Hold _ _ Hr1 HneR) as (? & ? & ? & ? & ? & ?), (Hnew _ _ Hr2 HneL) as (? & ? & ? & ? & ?). by split_and!.
Qed.
End Split.
End QuicklistSplit.
