(* ===== verification/QuicklistMerge.v ===== *)
(** * Quicklists: merging nodes *)

From stdpp Require Import gmap.
From S2P Require Import Prelude Util Lzf LzfProofs Listpack ListpackRepr ListpackElem ListpackEdit ListpackValues Post Linked Quicklist QuicklistRepr QuicklistNodes QuicklistCompress QuicklistEdit QuicklistPush QuicklistPop QuicklistIter QuicklistSeek QuicklistSplit.

Module QuicklistMerge.
Import Listpack ListpackElem ListpackEdit ListpackValues ListpackRepr Post Quicklist Linked QuicklistRepr QuicklistNodes QuicklistCompress QuicklistEdit QuicklistPush QuicklistPop QuicklistIter QuicklistSeek QuicklistSplit.

(** The second of two nodes, as one in the middle. *)
Lemma snoc_cons {X} (A : list X) x y B : A ++ x :: y :: B = (A ++ [x]) ++ y :: B.
Proof. by rewrite <-app_assoc. Qed.

Lemma update_second h0 h q A x b nb B g : holds h0 h q (A ++ x :: (b, nb) :: B) →
  post (update h b g) (λ h', holds h0 h' q (A ++ x :: (b, g nb) :: B)).
Proof. rewrite !snoc_cons. apply update_holds. Qed.

(** The node in use, if it is marked, stays out of the depth when a node after it goes:
    [slack] nodes may go. *)
Definition slack_ok (d slack : nat) (use : option address) (ns : nodes) : Prop :=
  ∀ A u nu B, use = Some u → ns = A ++ (u, nu) :: B → recompress nu = true → (0 < d)%nat ∧ (d <= length A)%nat ∧ (d + slack <= length B)%nat.

Lemma marks_in_app use A B : marks_ok use (A ++ B) → marks_ok use A ∧ marks_ok use B.
Proof. intros H. split; intros p Hp; apply H; rewrite elem_of_app; auto. Qed.

Lemma marks_app use A B : marks_ok use A → marks_ok use B → marks_ok use (A ++ B).
Proof. intros HA HB p. rewrite elem_of_app. intros [?|?]; auto. Qed.

Lemma marks_cons use a nd B : dont_compress nd = false → (use ≠ Some a → recompress nd = false) → marks_ok use B → marks_ok use ((a, nd) :: B).
Proof. intros H1 H2 H p. rewrite elem_of_cons. intros [->|?]; [by split|auto]. Qed.

Lemma marks_other use (ns : nodes) : marks_ok use ns → (∀ u, use = Some u → u ∉ ns.*1) → marks_ok None ns.
Proof.
  intros H Hu p Hp. destruct (H p Hp) as [H1 H2]. split; [done|]. intros _. apply H2. intros E. apply (Hu _ E). by apply list_elem_of_fmap_2.
Qed.

Section Merge.
Context (junk : Z) (in_data : heap → Z) (htab0 : heap → Z → Z).
Context (Hin : ∀ h, Lzf.MAX_OFF <= in_data h ∧ in_data h + INT32_MAX < 2 ^ 64) (Htab : ∀ h i, 0 <= htab0 h i < 2 ^ 64).
Abbreviation compressAt := (quicklistCompress junk in_data htab0).
Abbreviation delNode := (__quicklistDelNode junk in_data htab0).
Abbreviation listpackMerge := (_quicklistListpackMerge junk in_data htab0).

(** Both nodes decompressed. *)
Lemma both_raw h0 h q A a na b nb B va vb f : holds h0 h q (A ++ (a, na) :: (b, nb) :: B) → content f na va → content f nb vb →
  post (h ← quicklistDecompressNode junk h (Some a); quicklistDecompressNode junk h (Some b)) (λ h', ∃ na' nb',
    holds h0 h' q (A ++ (a, na') :: (b, nb') :: B) ∧ recoded f na na' ∧ encoding na' = RAW ∧ recoded f nb nb' ∧ encoding nb' = RAW).
Proof.
  intros H Ha Hb. call (decompress_spec junk f h0 h q A a na _ va H Ha). intros h1 (na' & H1 & Hra & Ea & _).
  rewrite snoc_cons in H1. eapply post_mono; [apply (decompress_spec junk f h0 h1 q _ b nb B vb H1 Hb)|].
  intros h2 (nb' & H2 & Hrb & Eb & _). rewrite <-snoc_cons in H2. by exists na', nb'.
Qed.

(** The node that is kept, and the one that is not. *)
Definition kept (f : Z) (nd : quicklistNode) (es : list (list Z)) : Prop :=
  settled nd ∧ container nd = PACKED ∧ dont_compress nd = false ∧ count nd = zlen es ∧ sz nd = total es ∧ ∃ b, entry nd = Bytes b ∧ packed f b es.

Lemma kept_content f nd es : kept f nd es → es ≠ [] → content f nd (strs es) ∧ count nd = zlen (strs es).
Proof. intros ([? _] & ? & _ & ? & ? & b & ? & ?) ?. rewrite strs_zlen. split; [by eapply packed_content|done]. Qed.

(** What is done to the node that is kept, then the count of the other. *)
Lemma keep_spec f P a k nk (lp : list Z) es Q :
  (∀ h nd, P h nd → node_at h a = Some nd) → (∀ h nd g, P h nd → post (update h a g) (λ h', P h' (g nd))) →
  ∀ h, P h nk → encoding nk = RAW → container nk = PACKED → dont_compress nk = false → packed f lp es →
  (∀ h nk', P h nk' → kept f nk' es → post (k h) Q) →
  post ('(n, lp) ← lpLength lp;
        h ← update h a (set_entry (Bytes lp));
        h ← update h a (set_count n);
        h ← quicklistNodeUpdateSz h a;
        h ← update h a (set_recompress false); k h) (Q : heap * quicklist * option address → Prop).
Proof.
  intros Hn Hu h H Er Ec Ed Hp Hk. destruct (packed_length _ _ _ Hp) as (b & El & Hpb). next_is El.
  call (Hu _ _ (set_entry (Bytes b)) H). intros h1 H1. call (Hu _ _ (set_count (zlen es)) H1). intros h2 H2.
  call (cell_sz f a P Hn Hu h2 _ b es H2 eq_refl Hpb). intros h3 H3. call (Hu _ _ (set_recompress false) H3). intros h4 H4.
  apply (Hk _ _ H4). split; [done|]. split; [done|]. split; [done|]. split; [by eapply packed_uwrap|]. split; [done|]. by exists b.
Qed.

Definition first_cell h0 q A a b nb B (h : heap) nd := holds h0 h q (A ++ (a, nd) :: (b, nb) :: B).
Definition second_cell h0 q A x b B (h : heap) nd := holds h0 h q (A ++ x :: (b, nd) :: B).

Lemma first_cell_ops h0 q A a b nb B : (∀ h nd, first_cell h0 q A a b nb B h nd → node_at h a = Some nd) ∧
  (∀ h nd g, first_cell h0 q A a b nb B h nd → post (update h a g) (λ h', first_cell h0 q A a b nb B h' (g nd))).
Proof. split; intros; [by eapply holds_node|by apply update_holds]. Qed.
Lemma second_cell_ops h0 q A x b B : (∀ h nd, second_cell h0 q A x b B h nd → node_at h b = Some nd) ∧
  (∀ h nd g, second_cell h0 q A x b B h nd → post (update h b g) (λ h', second_cell h0 q A x b B h' (g nd))).
Proof.
  split; unfold second_cell; intros h nd; [|intros g]; intros H; [rewrite snoc_cons in H; by eapply holds_node|by apply update_second].
Qed.

(** Which use is left. *)
Definition use_after (use : option address) (a b : address) : option address :=
  if bool_decide (use = Some a ∨ use = Some b) then None else use.

(** The rest: the other node goes, and the one that is kept may be compressed. *)
Lemma merged_spec h0 h q A k nk B VA vs VB use X n nn Y : options_ok q → holds h0 h q (X ++ (n, nn) :: Y) → X ++ Y = A ++ (k, nk) :: B →
  reads (fill q) (A ++ (k, nk) :: B) (VA ++ vs :: VB) → counts_ok (A ++ (k, nk) :: B) (VA ++ vs :: VB) → depth_ok (depth q) (X ++ (n, nn) :: Y) →
  marks_ok use (A ++ (k, nk) :: B) →
  (∀ i p, (A ++ (k, nk) :: B) !! i = Some p → in_depth (depth q) (length (A ++ (k, nk) :: B)) i → recompress p.2 = false) →
  count nn = 0 → recompress nk = false →
  post ('(h, q) ← delNode h q n; h ← compressAt h q k; Some (h, q, Some k)) (λ '(h', q', r), ∃ A' nk' B', r = Some k ∧
    qinv h0 h' q' (A' ++ (k, nk') :: B') (VA ++ vs :: VB) use ∧ recodes (fill q) A A' ∧ recodes (fill q) B B' ∧ container nk' = container nk ∧
    recompress nk' = false ∧ same_options q q' ∧ ql_count q' = ql_count q).
Proof using Hin Htab.
  intros Ho H Exy Hr Hc Hd Hm Hq Hn Hk. rewrite <-Exy in Hr, Hc, Hm, Hq.
  call (del_inv junk in_data htab0 Hin Htab h0 h q X Y n nn _ use Ho H Hr Hc Hd Hm Hq). intros [h1 q1] (ns1 & Hq1 & Hrec & Hso & Hcnt).
  rewrite Exy in Hrec. assert (fill q1 = fill q) as Ef by apply Hso. destruct (recodes_split _ _ _ _ _ _ Hrec) as (A1 & nk1 & B1 & -> & HA1 & Hk1 & HB1).
  destruct Hq1 as [Ho1 H1 Hr1 Hc1 Hd1 Hm1].
  call (compress_at_spec junk in_data htab0 (fill q1) Hin Htab h0 h1 q1 A1 k nk1 B1 _ (depth q1) H1 Hr1 Hd1 (depth_eq _ Ho1)).
  intros h2 (ns2 & H2 & Hrec2 & Hd2 & _). destruct (recodes_split _ _ _ _ _ _ Hrec2) as (A2 & nk2 & B2 & -> & HA2 & Hk2 & HB2).
  rewrite Ef in *. exists A2, nk2, B2. split; [done|]. split; [|split; [by etransitivity|split; [by etransitivity|split; [|split; [|split; [done|lia]]]]]].
  - constructor; rewrite ?Ef; try done; [by eapply recodes_reads|by eapply recodes_counts_ok|by eapply recodes_marks].
  - destruct Hk1 as ((_ & _ & E1 & _) & _), Hk2 as ((_ & _ & E2 & _) & _). congruence.
  - destruct Hk1 as (_ & E1 & _), Hk2 as (_ & E2 & _). destruct (recompress nk2); [|done]. specialize (E1 (E2 eq_refl)). congruence.
Qed.

(** A node in use before the two. *)
Lemma slack_unmarked d use A k nk B p1 p2 : slack_ok d 1 use (A ++ p1 :: p2 :: B) → marks_ok use (A ++ (k, nk) :: B) → NoDup (A ++ (k, nk) :: B).*1 →
  (∃ u, use = Some u ∧ u ∈ A.*1) →
  ∀ i p, (A ++ (k, nk) :: B) !! i = Some p → in_depth d (length (A ++ (k, nk) :: B)) i → recompress p.2 = false.
Proof.
  intros Hs Hm Hn (u & -> & Hu) i p Hi Hd. destruct (recompress p.2) eqn:Er; [|done]. exfalso.
  assert (u = p.1) as ->. { destruct (Hm p) as [_ Hmp]; [by eapply list_elem_of_lookup_2|]. destruct (decide (Some u = Some p.1)) as [[= ->]|Hne]; [done|]. rewrite Hmp in Er; done. }
  destruct (decide (i < length A)%nat) as [Hlt|Hge].
  - rewrite lookup_app_l in Hi by done. destruct p as [u nu]. simpl in *.
    destruct (Hs (take i A) u nu (drop (S i) A ++ p1 :: p2 :: B) eq_refl) as (H0 & H1 & H2); [by rewrite app_comm_cons, app_assoc, take_drop_middle|done|].
    rewrite length_take in H1. rewrite length_app, length_drop in H2. rewrite length_app in Hd. simpl in *. unfold in_depth in Hd. lia.
  - rewrite lookup_app_r in Hi by lia. apply list_elem_of_lookup_2 in Hi. rewrite fmap_app in Hn. apply list.NoDup_app in Hn as (_ & Hn & _).
    apply (Hn _ Hu). by apply list_elem_of_fmap_2.
Qed.

Lemma merge_spec h0 h q A a na b nb B VA va vb VB use : qinv h0 h q (A ++ (a, na) :: (b, nb) :: B) (VA ++ va :: vb :: VB) use → length VA = length A →
  container na = PACKED → container nb = PACKED → zlen va + zlen vb <= cap (fill q) →
  (use = None ∨ use = Some a ∨ use = Some b ∨ (∃ u, use = Some u ∧ u ∈ A.*1) ∧ slack_ok (depth q) 1 use (A ++ (a, na) :: (b, nb) :: B)) →
  post (listpackMerge h q a b) (λ '(h', q', r), ∃ A' keep nk B', r = Some keep ∧ (keep = a ∨ keep = b) ∧
    qinv h0 h' q' (A' ++ (keep, nk) :: B') (VA ++ (va ++ vb) :: VB) (use_after use a b) ∧ recodes (fill q) A A' ∧ recodes (fill q) B B' ∧
    container nk = PACKED ∧ recompress nk = false ∧ same_options q q' ∧ ql_count q' = ql_count q).
Proof using Hin Htab.
  intros Hq El Ea Eb Hcap Huse. pose proof (qi_holds _ _ _ _ _ _ Hq) as H. pose proof (qi_options _ _ _ _ _ _ Hq) as Ho. destruct Ho as [Hf _]. set (f := fill q) in *.
  assert (reads f A VA ∧ content f na va ∧ content f nb vb ∧ reads f B VB) as (HrA & Hca & Hcb & HrB).
  { pose proof (qi_reads _ _ _ _ _ _ Hq) as Hr. apply Forall2_app_inv in Hr as [? Hr]; [|done]. inversion Hr as [|? ? ? ? ? Hr']; subst. by inversion Hr'; subst. }
  assert (counts_ok A VA ∧ count na = zlen va ∧ count nb = zlen vb ∧ counts_ok B VB) as (HcA & Hna & Hnb & HcB).
  { pose proof (qi_counts _ _ _ _ _ _ Hq) as Hr. apply Forall2_app_inv in Hr as [? Hr]; [|done]. inversion Hr as [|? ? ? ? ? Hr']; subst. by inversion Hr'; subst. }
  pose proof (qi_marks _ _ _ _ _ _ Hq) as Hm. apply marks_in_app in Hm as [HmA Hm]. assert (dont_compress na = false ∧ dont_compress nb = false) as [Hda Hdb].
  { split; [apply (Hm (a, na))|apply (Hm (b, nb))]; rewrite !elem_of_cons; auto. }
  assert (marks_ok use B) as HmB by (intros p Hp; apply Hm; rewrite !elem_of_cons; auto).
  pose proof (hold_nodup _ _ _ _ H) as Hnd. pose proof Hnd as Hnd0. assert (a ≠ b ∧ (a ∉ (A ++ B).*1) ∧ (b ∉ (A ++ B).*1)) as (Hab & Ha & Hb).
  { pose proof Hnd as Hnd2. apply nodup_middle in Hnd as [H1 _]. rewrite snoc_cons in Hnd2. apply nodup_middle in Hnd2 as [H2 _].
    rewrite !fmap_app, fmap_cons in *. simpl in *. rewrite ?not_elem_of_app, ?not_elem_of_cons in *. set_solver. }
  unfold _quicklistListpackMerge. pose proof (both_raw h0 h q A a na b nb B va vb f H Hca Hcb) as Hboth.
  destruct (quicklistDecompressNode junk h (Some a)) as [h1|]; [|done]. cbn [mbind option_bind] in Hboth |- *.
  eapply post_call; [exact Hboth|]. cbv beta. intros h2 (na' & nb' & H2 & Hra & Era & Hrb & Erb).
  pose proof Hra as ((_ & _ & Eca & Eda) & _ & Hca' & _). pose proof Hrb as ((_ & _ & Ecb & Edb) & _ & Hcb' & _). specialize (Hca' _ Hca). specialize (Hcb' _ Hcb).
  destruct (packed_node _ _ _ Hca' Era) as (ba & ea & Eea & Ewa & Hpa & Hnea & _ & -> & _); [congruence|].
  destruct (packed_node _ _ _ Hcb' Erb) as (bb & eb & Eeb & Ewb & Hpb & Hneb & _ & -> & _); [congruence|].
  next_is (proj1 (first_cell_ops h0 q A a b nb' B) h2 na' H2). next_is (proj1 (second_cell_ops h0 q A (a, na') b B) h2 nb' H2).
  rewrite Eea, Eeb. rewrite bool_decide_false by done. next_is Ewa. next_is Ewb. rewrite !strs_zlen in Hcap.
  destruct (packed_merge junk f ba ea bb eb Hpa Hpb Hcap) as (lp & Elp & Hplp). next_is Elp. set (append := total eb <=? total ea).
  assert (ea ++ eb ≠ []) as Hne by (by destruct ea). rewrite <-strs_app.
  set (use' := use_after use a b).
  assert (Hfin : ∀ h3 k nk X n nn Y, kept f nk (ea ++ eb) → k = a ∨ k = b → holds h0 h3 q (X ++ (n, nn) :: Y) → X ++ Y = A ++ (k, nk) :: B →
    depth_ok (depth q) (X ++ (n, nn) :: Y) → count nn = 0 →
    post ('(h, q) ← delNode h3 q n; h ← compressAt h q k; Some (h, q, Some k)) (λ '(h', q', r), ∃ A' keep nk B', r = Some keep ∧ (keep = a ∨ keep = b) ∧
      qinv h0 h' q' (A' ++ (keep, nk) :: B') (VA ++ strs (ea ++ eb) :: VB) use' ∧ recodes f A A' ∧ recodes f B B' ∧
      container nk = PACKED ∧ recompress nk = false ∧ same_options q q' ∧ ql_count q' = ql_count q)).
  { intros h3 k nk X n nn Y Hk Ek H3 Exy Hd Hn. destruct (kept_content _ _ _ Hk Hne) as [Hck Hnk]. destruct Hk as ([_ Erk] & Eck & Edk & _).
    assert (marks_ok use' (A ++ (k, nk) :: B)) as Hmk.
    { unfold use', use_after. case_bool_decide as Eu.
      - apply marks_app; [|apply marks_cons; [done|done|]]; eapply marks_other; try done; intros u ->; rewrite fmap_app, not_elem_of_app in Ha, Hb; destruct Eu as [[= ->]|[= ->]]; tauto.
      - apply marks_app; [done|by apply marks_cons]. }
    assert (k ∉ (A ++ B).*1) as Hkn by (by destruct Ek as [->| ->]).
    eapply post_mono; [eapply (merged_spec h0 h3 q A k nk B VA _ VB use' X n nn Y)|].
    - apply (qi_options _ _ _ _ _ _ Hq).
    - done.
    - done.
    - apply Forall2_app; [done|]. by constructor.
    - apply Forall2_app; [done|]. by constructor.
    - done.
    - done.
    - assert (use' = None ∨ (∃ u, use = Some u ∧ u ∈ A.*1) ∧ slack_ok (depth q) 1 use (A ++ (a, na) :: (b, nb) :: B) ∧ use' = use) as [E|(Hu & Hs & E)].
      { unfold use', use_after. destruct Huse as [->|[->|[->|[Hu Hs]]]]; [left; by case_bool_decide|left; rewrite bool_decide_true; auto..|].
        case_bool_decide; [by left|by right]. }
      + rewrite E in Hmk. intros i p Hi _. apply (Hmk p); [by eapply list_elem_of_lookup_2|done].
      + rewrite E in Hmk. eapply slack_unmarked; try done. apply nodup_middle. split; [done|].
        apply (nodup_middle A a na ((b, nb) :: B)) in Hnd0 as [_ Hn2]. by apply nodup_middle in Hn2 as [_ Hn2].
    - done.
    - done.
    - intros [[h' q'] r] (A' & nk' & B' & -> & Hq' & ? & ? & ? & ? & ? & ?). exists A', k, nk', B'. split_and!; try done. congruence. }
  assert (∀ k1, settled k1 → depth_ok (depth q) (A ++ (a, k1) :: (b, nb) :: B)) as Hd1.
  { intros k1 Hk1. eapply depth_ok_replace; [apply (qi_depth _ _ _ _ _ _ Hq)|]. by intros _ _. }
  assert (∀ nd' nd0 : quicklistNode, recoded f nd0 nd' → encoding nd' = RAW → settled nd0 → settled (set_count 0 (set_entry NULL nd'))) as Hgone.
  { intros nd' nd0 (_ & E1 & _) E2 [_ E3]. split; [done|]. simpl. destruct (recompress nd'); [|done]. rewrite E1 in E3; done. }
  destruct append; cbv iota.
  - call (proj2 (first_cell_ops h0 q A a b nb' B) h2 na' (set_entry (Bytes lp)) H2). intros h3 H3.
    call (proj2 (second_cell_ops h0 q A _ b B) h3 nb' (set_entry NULL) H3). intros h4 H4. destruct (first_cell_ops h0 q A a b (set_entry NULL nb') B) as [O1 O2].
    eapply (keep_spec f _ a (λ h, h ← update h b (set_count 0); _) _ lp (ea ++ eb) _ O1 O2 h4 H4); [done|simpl; congruence|simpl; congruence|done|].
    intros h5 nk H5 Hk. cbv beta. call (proj2 (second_cell_ops h0 q A (a, nk) b B) h5 _ (set_count 0) H5). intros h6 H6. unfold second_cell in H6. rewrite snoc_cons in H6.
    apply (Hfin _ a nk _ _ _ _ Hk (or_introl eq_refl) H6); [by rewrite <-app_assoc| |done]. eapply depth_ok_replace; [rewrite <-snoc_cons; apply Hd1, Hk|]. intros _. by apply Hgone.
  - call (proj2 (first_cell_ops h0 q A a b nb' B) h2 na' (set_entry NULL) H2). intros h3 H3.
    call (proj2 (second_cell_ops h0 q A _ b B) h3 nb' (set_entry (Bytes lp)) H3). intros h4 H4. destruct (second_cell_ops h0 q A (a, set_entry NULL na') b B) as [O1 O2].
    eapply (keep_spec f _ b (λ h, h ← update h a (set_count 0); _) _ lp (ea ++ eb) _ O1 O2 h4 H4); [done|simpl; congruence|simpl; congruence|done|].
    intros h5 nk H5 Hk. cbv beta. call (proj2 (first_cell_ops h0 q A a b nk B) h5 _ (set_count 0) H5). intros h6 H6. unfold first_cell in H6.
    apply (Hfin _ b nk _ _ _ _ Hk (or_intror eq_refl) H6); [done| |done]. rewrite snoc_cons. eapply depth_ok_replace; [|intros _ _; apply Hk].
    rewrite <-snoc_cons. eapply depth_ok_replace; [apply (qi_depth _ _ _ _ _ _ Hq)|]. intros _. by apply Hgone.
Qed.
(** ** Merging around a node *)

(** Whether two nodes may be merged. *)
Lemma allow_of f h x nx y ny vx vy : fill_ok f → node_at h x = Some nx → node_at h y = Some ny → content f nx vx → content f ny vy →
  count nx = zlen vx → count ny = zlen vy →
  ∃ b, allow_merge h (Some x) (Some y) f = Some b ∧ (b = true → container nx = PACKED ∧ container ny = PACKED ∧ zlen vx + zlen vy <= cap f).
Proof.
  intros Hf Ex Ey Hx Hy Hcx Hcy. unfold allow_merge, deref. rewrite Ex, Ey. cbn [mbind option_bind]. by apply allow_merge_spec.
Qed.

Lemma allow_none h x f nx : (∀ a, x = Some a → node_at h a = Some nx) → allow_merge h x None f = Some false ∧ allow_merge h None x f = Some false.
Proof. intros H. destruct x as [a|]; [|done]. unfold allow_merge, deref. by rewrite (H a eq_refl). Qed.

(** What is known of a node in the list. *)
Lemma mid_facts h0 h q A a nd B VA vs VB use : qinv h0 h q (A ++ (a, nd) :: B) (VA ++ vs :: VB) use → length VA = length A →
  node_at h a = Some nd ∧ content (fill q) nd vs ∧ count nd = zlen vs.
Proof. intros Hq El. destruct (node_facts _ _ _ _ _ _ _ _ _ _ _ Hq El) as (? & ? & _). split; [|done]. eapply holds_node, qi_holds, Hq. Qed.

Lemma qinv_snoc h0 h q A x B VA v VB use : qinv h0 h q (A ++ x :: B) (VA ++ v :: VB) use → qinv h0 h q ((A ++ [x]) ++ B) ((VA ++ [v]) ++ VB) use.
Proof. by rewrite <-!app_assoc. Qed.

(** The two nodes before. *)
Lemma merge_before_spec h0 h q A c nc B VA vc VB use p pp : qinv h0 h q (A ++ (c, nc) :: B) (VA ++ vc :: VB) use → length VA = length A →
  use = None ∨ use = last_of None A → p = last_of None A → prev_or_null h p = Some pp →
  post (allow ← allow_merge h p pp (fill q);
        if (allow : bool) then a ← pp; b ← p; '(h, q, _) ← listpackMerge h q a b; Some (h, q) else Some (h, q)) (λ '(h', q'), (h' = h ∧ q' = q) ∨
    ∃ A' nc' B' VA', qinv h0 h' q' (A' ++ (c, nc') :: B') (VA' ++ vc :: VB) None ∧ length VA' = length A' ∧ mjoin VA' = mjoin VA ∧
      container nc' = container nc ∧ recodes (fill q) B B' ∧ same_options q q' ∧ ql_count q' = ql_count q).
Proof using Hin Htab.
  intros Hq El Hu -> Epp. destruct A as [|[b nb] A _] using rev_ind.
  { simpl in *. injection Epp as <-. simpl. by left. }
  destruct VA as [|vb VA _] using rev_ind; [rewrite length_app in El; simpl in El; lia|]. rewrite !length_app in El. simpl in El.
  assert (length VA = length A) as El' by lia. rewrite last_of_snoc in *. rewrite <-!app_assoc in Hq. simpl in Hq, Epp.
  destruct (mid_facts _ _ _ _ _ _ _ _ _ _ _ Hq El') as (Enb & Hcb & Hnb). rewrite (holds_prev _ _ _ _ _ _ _ (qi_holds _ _ _ _ _ _ Hq)) in Epp. injection Epp as <-.
  destruct A as [|[a na] A _] using rev_ind.
  { simpl last_of. destruct (allow_none h (Some b) (fill q) nb) as [-> _]; [by intros ? [= <-]|]. by left. }
  destruct VA as [|va VA _] using rev_ind; [rewrite length_app in El'; simpl in El'; lia|]. rewrite !length_app in El'. simpl in El'.
  assert (length VA = length A) as El2 by lia. rewrite last_of_snoc. rewrite <-!app_assoc in Hq. simpl in Hq.
  destruct (mid_facts _ _ _ _ _ _ _ _ _ _ _ Hq El2) as (Ena & Hca & Hna). destruct (qi_options _ _ _ _ _ _ Hq) as [Hf _].
  destruct (allow_of (fill q) h b nb a na vb va Hf Enb Ena Hcb Hca Hnb Hna) as (r & -> & Hr). cbn [mbind option_bind]. destruct r; [|by left].
  destruct (Hr eq_refl) as (Eb & Ea & Hcap). call (merge_spec h0 h q A a na b nb ((c, nc) :: B) VA va vb (vc :: VB) use Hq El2 Ea Eb ltac:(lia)); [by destruct Hu as [->| ->]; auto|].
  intros [[h' q'] r] (A' & k & nk & B' & _ & _ & Hq' & HA & HB & _ & _ & Hso & Hcnt). right.
  inversion HB as [|x [c' nc'] ? B'' [Ec Hrc] HB']; subst. simpl in Ec. subst c'. exists (A' ++ [(k, nk)]), nc', B'', (VA ++ [va ++ vb]).
  split; [|split; [|split; [|split; [|split; [done|split; done]]]]].
  - rewrite <-!app_assoc. replace (use_after use a b) with (@None address) in Hq'; [done|]. unfold use_after. by destruct Hu as [->| ->]; case_bool_decide as E; auto; destruct E; auto.
  - rewrite !length_app. simpl. rewrite El2. f_equal. symmetry. by eapply recodes_length.
  - rewrite !join_app. simpl. by rewrite !app_nil_r, <-!app_assoc.
  - by destruct Hrc as ((_ & _ & ? & _) & _).
Qed.

(** The two nodes after. *)
Lemma merge_after_spec h0 h q A c nc B VA vc VB use n nn : qinv h0 h q (A ++ (c, nc) :: B) (VA ++ vc :: VB) use → length VA = length A →
  use = None ∨ (use = last_of None A ∧ slack_ok (depth q) 1 use (A ++ (c, nc) :: B)) → n = first_of B None → nn = first_of (drop 1 B) None →
  post (allow ← allow_merge h n nn (fill q);
        if (allow : bool) then a ← n; b ← nn; '(h, q, _) ← listpackMerge h q a b; Some (h, q) else Some (h, q)) (λ '(h', q'),
    ∃ A' nc' B' VB', qinv h0 h' q' (A' ++ (c, nc') :: B') (VA ++ vc :: VB') use ∧ mjoin VB' = mjoin VB ∧
      container nc' = container nc ∧ recodes (fill q) A A' ∧ same_options q q' ∧ ql_count q' = ql_count q).
Proof using Hin Htab.
  intros Hq El Hu -> ->. assert (∃ A' nc' B' VB', qinv h0 h q (A' ++ (c, nc') :: B') (VA ++ vc :: VB') use ∧ mjoin VB' = mjoin VB ∧
    container nc' = container nc ∧ recodes (fill q) A A' ∧ same_options q q ∧ ql_count q = ql_count q) as Hsame by (by exists A, nc, B, VB).
  pose proof (qinv_snoc _ _ _ _ _ _ _ _ _ _ Hq) as Hq1. assert (length (VA ++ [vc]) = length (A ++ [(c, nc)])) as El1 by (rewrite !length_app; simpl; lia).
  pose proof (reads_length _ _ _ (qi_reads _ _ _ _ _ _ Hq)) as Elen. rewrite !length_app in Elen. simpl in Elen.
  destruct B as [|[a na] B]; [exact Hsame|]. destruct VB as [|va VB]; [simpl in Elen; lia|]. destruct (mid_facts _ _ _ _ _ _ _ _ _ _ _ Hq1 El1) as (Ena & Hca & Hna).
  destruct B as [|[b nb] B].
  { simpl first_of. destruct (allow_none h (Some a) (fill q) na) as [-> _]; [by intros ? [= <-]|]. exact Hsame. }
  destruct VB as [|vb VB]; [simpl in Elen; lia|]. pose proof (qinv_snoc _ _ _ _ _ _ _ _ _ _ Hq1) as Hq2.
  destruct (mid_facts _ _ _ _ _ _ _ _ _ _ _ Hq2) as (Enb & Hcb & Hnb); [rewrite !length_app in *; simpl in *; lia|]. destruct (qi_options _ _ _ _ _ _ Hq) as [Hf _].
  simpl first_of. destruct (allow_of (fill q) h a na b nb va vb Hf Ena Enb Hca Hcb Hna Hnb) as (r & -> & Hr). cbn [mbind option_bind]. destruct r; [|exact Hsame].
  destruct (Hr eq_refl) as (Ea & Eb & Hcap).
  assert (use = None ∨ (∃ u, use = Some u ∧ u ∈ (A ++ [(c, nc)]).*1) ∧ slack_ok (depth q) 1 use ((A ++ [(c, nc)]) ++ (a, na) :: (b, nb) :: B)) as Hu'.
  { destruct Hu as [->|[-> Hs]]; [by left|]. destruct (last_of_cases None A) as [[_ ->]|(A0 & u & nu & E & El0)]; [by left|right]. rewrite <-app_assoc. split; [|done].
    exists u. split; [done|]. rewrite E, !fmap_app. set_solver. }
  call (merge_spec h0 h q (A ++ [(c, nc)]) a na b nb B (VA ++ [vc]) va vb VB use Hq1 El1 Ea Eb Hcap); [by destruct Hu' as [->|?]; auto|].
  intros [[h' q'] r] (A' & k & nk & B' & _ & _ & Hq' & HA & HB & _ & _ & Hso & Hcnt).
  apply Forall2_app_inv_l in HA as (A1 & C1 & HA & HC & ->). inversion HC as [|x [c' nc'] ? C' [Ec Hrc] HC']; subst. inversion HC'; subst. simpl in Ec. subst c'.
  exists A1, nc', ((k, nk) :: B'), ((va ++ vb) :: VB). rewrite <-!app_assoc in Hq'. split; [|split; [|split; [|done]]].
  - replace (use_after use a b) with use in Hq'; [done|]. unfold use_after. case_bool_decide as E; [|done]. destruct Hu' as [->|[(u & -> & Hin') _]]; [done|exfalso].
    pose proof (hold_nodup _ _ _ _ (qi_holds _ _ _ _ _ _ Hq1)) as Hn. rewrite fmap_app in Hn. apply list.NoDup_app in Hn as (_ & Hn & _).
    apply (Hn u Hin'). simpl. destruct E as [[= ->]|[= ->]]; set_solver.
  - simpl. by rewrite app_assoc.
  - by destruct Hrc as ((_ & _ & ? & _) & _).
Qed.
(** A merge that gives the node kept, or the node [c] if it is not allowed. *)
Definition centered h0 h q c (nc : quicklistNode) (VA : list (list (list Z))) vc use (whole : list (list Z)) (r : heap * quicklist * option address) : Prop :=
  let '(h', q', t) := r in ∃ A' t' nt B' VA' vt VB', t = Some t' ∧ qinv h0 h' q' (A' ++ (t', nt) :: B') (VA' ++ vt :: VB') use ∧ length VA' = length A' ∧
    mjoin (VA' ++ vt :: VB') = whole ∧ same_options q q' ∧ ql_count q' = ql_count q ∧ (container nc = PLAIN → h' = h ∧ q' = q ∧ t' = c ∧ VA' = VA ∧ vt = vc).

Lemma use_after_none a b : use_after None a b = None.
Proof. unfold use_after. by case_bool_decide. Qed.

Lemma merge_center_before h0 h q A c nc B VA vc VB use : qinv h0 h q (A ++ (c, nc) :: B) (VA ++ vc :: VB) use → length VA = length A →
  use = None ∨ container nc = PLAIN →
  post (allow ← allow_merge h (Some c) (last_of None A) (fill q);
        if (allow : bool) then a ← last_of None A; listpackMerge h q a c else Some (h, q, Some c))
    (centered h0 h q c nc VA vc use (mjoin (VA ++ vc :: VB))).
Proof using Hin Htab.
  intros Hq El Hu. destruct (mid_facts _ _ _ _ _ _ _ _ _ _ _ Hq El) as (Enc & Hcc & Hnc).
  assert (centered h0 h q c nc VA vc use (mjoin (VA ++ vc :: VB)) (h, q, Some c)) as Hsame by (by exists A, c, nc, B, VA, vc, VB).
  destruct A as [|[a na] A _] using rev_ind.
  { simpl last_of. destruct (allow_none h (Some c) (fill q) nc) as [-> _]; [by intros ? [= <-]|]. exact Hsame. }
  destruct VA as [|va VA _] using rev_ind; [rewrite length_app in El; simpl in El; lia|]. rewrite !length_app in El. simpl in El. rewrite last_of_snoc.
  assert (length VA = length A) as El' by lia. assert (qinv h0 h q (A ++ (a, na) :: (c, nc) :: B) (VA ++ va :: vc :: VB) use) as Hq' by (by rewrite <-!app_assoc in Hq).
  destruct (mid_facts _ _ _ _ _ _ _ _ _ _ _ Hq' El') as (Ena & Hca & Hna). destruct (qi_options _ _ _ _ _ _ Hq) as [Hf _].
  destruct (allow_of (fill q) h c nc a na vc va Hf Enc Ena Hcc Hca Hnc Hna) as (r & -> & Hr). cbn [mbind option_bind]. destruct r; [|exact Hsame].
  destruct (Hr eq_refl) as (Ec & Ea & Hcap). destruct Hu as [->|Hu]; [|congruence].
  eapply post_mono; [apply (merge_spec h0 h q A a na c nc B VA va vc VB None Hq' El' Ea Ec ltac:(lia)); auto|].
  intros [[h' q'] r] (A' & k & nk & B' & -> & _ & Hq2 & HA & _ & Ek & _ & Hso & Hcnt). exists A', k, nk, B', VA, (va ++ vc), VB.
  split; [done|]. split; [by rewrite use_after_none in Hq2|]. split; [rewrite El'; symmetry; by eapply recodes_length|]. split; [|split; [done|split; [done|congruence]]].
  rewrite <-app_assoc, !join_app. simpl. by rewrite <-!app_assoc.
Qed.

Lemma merge_center_after h0 h q A c nc B VA vc VB use : qinv h0 h q (A ++ (c, nc) :: B) (VA ++ vc :: VB) use → length VA = length A →
  use = None ∨ container nc = PLAIN →
  post (allow ← allow_merge h (Some c) (first_of B None) (fill q);
        if (allow : bool) then b ← first_of B None; listpackMerge h q c b else Some (h, q, Some c))
    (centered h0 h q c nc VA vc use (mjoin (VA ++ vc :: VB))).
Proof using Hin Htab.
  intros Hq El Hu. destruct (mid_facts _ _ _ _ _ _ _ _ _ _ _ Hq El) as (Enc & Hcc & Hnc).
  assert (centered h0 h q c nc VA vc use (mjoin (VA ++ vc :: VB)) (h, q, Some c)) as Hsame by (by exists A, c, nc, B, VA, vc, VB).
  pose proof (reads_length _ _ _ (qi_reads _ _ _ _ _ _ Hq)) as Elen. rewrite !length_app in Elen. simpl in Elen.
  destruct B as [|[b nb] B].
  { simpl first_of. destruct (allow_none h (Some c) (fill q) nc) as [-> _]; [by intros ? [= <-]|]. exact Hsame. }
  destruct VB as [|vb VB]; [simpl in Elen; lia|]. pose proof (qinv_snoc _ _ _ _ _ _ _ _ _ _ Hq) as Hq'. simpl first_of.
  destruct (mid_facts _ _ _ _ _ _ _ _ _ _ _ Hq') as (Enb & Hcb & Hnb); [rewrite !length_app; simpl; lia|]. destruct (qi_options _ _ _ _ _ _ Hq) as [Hf _].
  destruct (allow_of (fill q) h c nc b nb vc vb Hf Enc Enb Hcc Hcb Hnc Hnb) as (r & -> & Hr). cbn [mbind option_bind]. destruct r; [|exact Hsame].
  destruct (Hr eq_refl) as (Ec & Eb & Hcap). destruct Hu as [->|Hu]; [|congruence].
  eapply post_mono; [apply (merge_spec h0 h q A c nc b nb B VA vc vb VB None Hq El Ec Eb Hcap); auto|].
  intros [[h' q'] r] (A' & k & nk & B' & -> & _ & Hq2 & HA & _ & Ek & _ & Hso & Hcnt). exists A', k, nk, B', VA, (vc ++ vb), VB.
  split; [done|]. split; [by rewrite use_after_none in Hq2|]. split; [rewrite El; symmetry; by eapply recodes_length|]. split; [|split; [done|split; [done|congruence]]].
  rewrite !join_app. simpl. by rewrite <-!app_assoc.
Qed.

Lemma drop_keys (B B' : nodes) : B'.*1 = B.*1 → (drop 1 B').*1 = (drop 1 B).*1.
Proof. rewrite !fmap_drop. by intros ->. Qed.

Lemma same_options_trans q1 q2 q3 : same_options q1 q2 → same_options q2 q3 → same_options q1 q3.
Proof. unfold same_options. intros [] []. split; congruence. Qed.

Lemma slack_recodes f d k use A c nc nc' B A' B' : slack_ok d k use (A ++ (c, nc) :: B) → recodes f (A ++ (c, nc) :: B) (A' ++ (c, nc') :: B') →
  slack_ok d k use (A' ++ (c, nc') :: B').
Proof.
  intros Hs Hrec A1 u nu B1 Eu E Er. rewrite E in Hrec. symmetry in E. apply Forall2_app_inv_r in Hrec as (A0 & R0 & HA & HR & E0).
  inversion HR as [|[u0 n0] ? B0 ? [E1 Hr] HB]; subst. simpl in E1. subst u0. destruct Hr as (_ & Hm & _).
  destruct (Hs A0 u n0 B0 eq_refl E0 (Hm Er)) as (? & ? & ?). apply Forall2_length in HA, HB. lia.
Qed.

(** [_quicklistMergeNodes] keeps the elements of the list; if [center] is a plain node, it
    stays between the same elements, and the node before it may still be in use. *)
Lemma merge_nodes_spec h0 h q A c nc B VA vc VB use : qinv h0 h q (A ++ (c, nc) :: B) (VA ++ vc :: VB) use → length VA = length A →
  use = None ∨ (use = last_of None A ∧ container nc = PLAIN ∧ slack_ok (depth q) 1 use (A ++ (c, nc) :: B)) →
  post (_quicklistMergeNodes junk in_data htab0 h q c) (λ '(h', q', t), same_options q q' ∧ ql_count q' = ql_count q ∧
    ∃ A' nt B' VA' vt VB' use', qinv h0 h' q' (A' ++ (t, nt) :: B') (VA' ++ vt :: VB') use' ∧ length VA' = length A' ∧
      mjoin (VA' ++ vt :: VB') = mjoin (VA ++ vc :: VB) ∧ (use = None → use' = None) ∧ (use' = None ∨ use' = last_of None A') ∧
      (container nc = PLAIN → t = c ∧ vt = vc ∧ mjoin VA' = mjoin VA)).
Proof using Hin Htab.
  intros Hq El Hu. pose proof (qi_holds _ _ _ _ _ _ Hq) as H. unfold _quicklistMergeNodes. next_is (holds_prev _ _ _ _ _ _ _ H).
  assert (∃ pp, prev_or_null h (last_of None A) = Some pp) as [pp Epp].
  { destruct A as [|[a na] A _] using rev_ind; [by exists None|]. rewrite last_of_snoc. simpl. rewrite <-app_assoc in H. simpl in H. rewrite (holds_prev _ _ _ _ _ _ _ H). eauto. }
  next_is Epp. next_is (holds_next _ _ _ _ _ _ _ H).
  assert (next_or_null h (first_of B None) = Some (first_of (drop 1 B) None)) as Enn.
  { destruct B as [|[b nb] B]; [done|]. simpl. rewrite snoc_cons in H. by rewrite (holds_next _ _ _ _ _ _ _ H). }
  next_is Enn. call2 (merge_before_spec h0 h q A c nc B VA vc VB use (last_of None A) pp Hq El); [naive_solver|done|done|]. intros [h1 q1] Hstep1.
  assert (∃ A1 nc1 B1 VA1 use1, qinv h0 h1 q1 (A1 ++ (c, nc1) :: B1) (VA1 ++ vc :: VB) use1 ∧ length VA1 = length A1 ∧ mjoin VA1 = mjoin VA ∧
    container nc1 = container nc ∧ recodes (fill q) B B1 ∧ same_options q q1 ∧ ql_count q1 = ql_count q ∧ (use = None → use1 = None) ∧
    (use1 = None ∨ use1 = last_of None A1 ∧ container nc = PLAIN ∧ slack_ok (depth q1) 1 use1 (A1 ++ (c, nc1) :: B1)))
    as (A1 & nc1 & B1 & VA1 & use1 & Hq1 & El1 & Ej1 & Ec1 & HB1 & Hso1 & Hcnt1 & Hn1 & Hu1).
  { destruct Hstep1 as [[-> ->]|(A1 & nc1 & B1 & VA1 & Hq1 & ? & ? & ? & ? & ? & ?)]; [exists A, nc, B, VA, use|exists A1, nc1, B1, VA1, None]; split_and!; done || by left. }
  assert (fill q1 = fill q) as Ef1 by apply Hso1. rewrite <-Ef1. clear Hstep1 Hq Hu H Epp Enn.
  pose proof (recodes_keys _ _ _ HB1) as EB. call2 (merge_after_spec h0 h1 q1 A1 c nc1 B1 VA1 vc VB use1 (first_of B None) (first_of (drop 1 B) None) Hq1 El1).
  { clear -Hu1. destruct Hu1 as [->|(E & _ & ?)]; [by left|by right]. } { by rewrite <-(first_of_keys B B1). } { rewrite <-(first_of_keys (drop 1 B) (drop 1 B1)); [done|]. by apply drop_keys. }
  intros [h2 q2] (A2 & nc2 & B2 & VB2 & Hq2 & Ej2 & Ec2 & HA2 & Hso2 & Hcnt2). assert (fill q2 = fill q1) as Ef2 by apply Hso2.
  assert (length VA1 = length A2) as El2 by (rewrite El1; symmetry; by eapply recodes_length).
  assert (use1 = None ∨ container nc2 = PLAIN) as Hu2. { destruct Hu1 as [->|(_ & E & _)]; [by left|right; congruence]. }
  assert (use1 = None ∨ use1 = last_of None A2) as Hu2'. { destruct Hu1 as [->|(E & _)]; [by left|right]. rewrite E. symmetry. by eapply last_of_keys, recodes_keys. }
  next_is (holds_prev _ _ _ _ _ _ _ (qi_holds _ _ _ _ _ _ Hq2)). rewrite <-Ef2. pose proof (merge_center_before h0 h2 q2 A2 c nc2 B2 VA1 vc VB2 use1 Hq2 El2 Hu2) as Hc3.
  call2 Hc3. clear Hc3.
  intros [[h3 q3] t3] (A3 & t & nt & B3 & VA3 & vt & VB3 & -> & Hq3 & El3 & Ej3 & Hso3 & Hcnt3 & Hcase3). apply post_bind. cbn [post].
  next_is (holds_next _ _ _ _ _ _ _ (qi_holds _ _ _ _ _ _ Hq3)). assert (fill q3 = fill q2) as Ef3 by apply Hso3. rewrite <-Ef3.
  assert (use1 = None ∨ container nt = PLAIN ∧ use1 = last_of None A3) as Hu3.
  { destruct Hu2 as [->|Ep]; [by left|]. destruct (Hcase3 Ep) as (-> & -> & -> & _). destruct Hu2' as [->| ->]; [by left|right].
    pose proof (holds_node _ _ _ _ _ _ _ (qi_holds _ _ _ _ _ _ Hq3)) as E1. rewrite (holds_node _ _ _ _ _ _ _ (qi_holds _ _ _ _ _ _ Hq2)) in E1. injection E1 as <-.
    pose proof (holds_prev _ _ _ _ _ _ _ (qi_holds _ _ _ _ _ _ Hq3)) as E2. rewrite (holds_prev _ _ _ _ _ _ _ (qi_holds _ _ _ _ _ _ Hq2)) in E2. by injection E2. }
  pose proof (merge_center_after h0 h3 q3 A3 t nt B3 VA3 vt VB3 use1 Hq3 El3 ltac:(naive_solver)) as Hc4. call2 Hc4. clear Hc4.
  intros [[h4 q4] t4] (A4 & t' & nt4 & B4 & VA4 & vt4 & VB4 & -> & Hq4 & El4 & Ej4 & Hso4 & Hcnt4 & Hcase4). apply post_bind. cbn [post].
  split; [by do 3 (eapply same_options_trans; [eassumption|])|]. split; [congruence|]. exists A4, nt4, B4, VA4, vt4, VB4, use1. split; [done|]. split; [done|].
  split; [|split; [done|split]].
  - rewrite Ej4, Ej3, !join_middle. congruence.
  - destruct Hu3 as [->|[Ep E3]]; [by left|right]. destruct (Hcase4 Ep) as (-> & -> & -> & _). rewrite E3.
    pose proof (holds_prev _ _ _ _ _ _ _ (qi_holds _ _ _ _ _ _ Hq3)) as E2. rewrite (holds_prev _ _ _ _ _ _ _ (qi_holds _ _ _ _ _ _ Hq4)) in E2. by injection E2.
  - intros Ep. rewrite <-Ec1, <-Ec2 in Ep. destruct (Hcase3 Ep) as (-> & -> & -> & -> & ->).
    pose proof (holds_node _ _ _ _ _ _ _ (qi_holds _ _ _ _ _ _ Hq3)) as E1. rewrite (holds_node _ _ _ _ _ _ _ (qi_holds _ _ _ _ _ _ Hq2)) in E1. injection E1 as <-.
    by destruct (Hcase4 Ep) as (-> & -> & -> & -> & ->).
Qed.
End Merge.
End QuicklistMerge.
