(* ===== verification/QuicklistInsert.v ===== *)
(** * Quicklists: inserting next to an element *)

From stdpp Require Import gmap.
From S2P Require Import Prelude Util Lzf LzfProofs Listpack ListpackRepr ListpackElem ListpackEdit ListpackValues Post Linked Quicklist QuicklistRepr QuicklistNodes QuicklistCompress QuicklistEdit QuicklistPush QuicklistPop QuicklistIter QuicklistSeek QuicklistSplit QuicklistMerge.

Module QuicklistInsert.
Import Listpack ListpackElem ListpackEdit ListpackValues ListpackRepr Post Quicklist Linked QuicklistRepr QuicklistNodes QuicklistCompress QuicklistEdit QuicklistPush QuicklistPop QuicklistIter QuicklistSeek QuicklistSplit QuicklistMerge.

(** The number of elements before the new one, among those of the node. *)
Definition cut (after : bool) (j : nat) : nat := if after then S j else j.

Lemma strs_insert f k es v : fill_ok f → str_ok v → zlen v <= limit f →
  strs (take k es ++ encode_string v :: drop k es) = take k (strs es) ++ v :: drop k (strs es).
Proof.
  intros Hf Hv Hl. destruct (elem_fits f v Hf Hv Hl) as (_ & E & _). rewrite strs_app, strs_take. f_equal.
  change (strs (encode_string v :: drop k es)) with (vbytes (entry_value (encode_string v)) :: strs (drop k es)). by rewrite E, strs_drop.
Qed.

(** Where an offset is at the end of a node. *)
Lemma at_end_spec n o (j : nat) : norm n o = Z.of_nat j → Z.of_nat j < n →
  ((o =? n - 1) || (o =? -1)) = bool_decide (Z.of_nat j = n - 1) ∧ ((o =? 0) || (o =? - n)) = bool_decide (j = 0%nat).
Proof.
  unfold norm. intros Hn Hj. split; apply eq_true_iff_eq; rewrite orb_true_iff, !Z.eqb_eq, bool_decide_eq_true; destruct (o <? 0) eqn:E; zb; lia.
Qed.

(** The mark of a node that is no longer in use. *)
Definition use_without (use : option address) (x : address) : option address := if bool_decide (use = Some x) then None else use.

Lemma marks_without use X x nx nx' Y : NoDup (X ++ (x, nx) :: Y).*1 → marks_ok use (X ++ (x, nx) :: Y) → dont_compress nx' = false → recompress nx' = false →
  marks_ok (use_without use x) (X ++ (x, nx') :: Y).
Proof.
  intros Hn Hm Hd Hr. unfold use_without. case_bool_decide as E.
  - subst use. pose proof (marks_gone _ _ _ _ Hn Hm) as H. apply marks_in_app in H as [HX HY]. apply marks_app; [done|]. by apply marks_cons.
  - apply marks_in_app in Hm as [HX HY]. apply marks_app; [done|]. apply marks_cons; [done|done|]. intros p Hp. apply HY. by right.
Qed.

Lemma key_in (A : nodes) a nd B : a ∈ (A ++ (a, nd) :: B).*1.
Proof. rewrite fmap_app, elem_of_app. right. by left. Qed.

Lemma key_keep (A : nodes) a x p B : a ∈ (A ++ x :: B).*1 → a ∈ (A ++ x :: p :: B).*1 ∧ a ∈ (A ++ p :: x :: B).*1.
Proof. rewrite !fmap_app, !elem_of_app, !fmap_cons, !elem_of_cons. naive_solver. Qed.

Section Insert.
Context (junk : Z) (Hjunk : is_byte junk) (in_data : heap → Z) (htab0 : heap → Z → Z) (zmalloc : heap → address).
Context (Hin : ∀ h, Lzf.MAX_OFF <= in_data h ∧ in_data h + INT32_MAX < 2 ^ 64) (Htab : ∀ h i, 0 <= htab0 h i < 2 ^ 64).
Context (Hmalloc : ∀ h, h !! zmalloc h = None).
Abbreviation insertNode := (__quicklistInsertNode junk in_data htab0).
Abbreviation recompressOnly := (quicklistRecompressOnly junk in_data htab0).

(** A node is decompressed, takes one more element and is compressed again. *)
Lemma grow_spec h0 h q X x nx Y VX vx VY use k g v : qinv h0 h q (X ++ (x, nx) :: Y) (VX ++ vx :: VY) use → length VX = length X →
  container nx = PACKED → str_ok v → zlen v <= limit (fill q) →
  (∀ b es, packed (fill q) b es → length es = length vx → (encoding nx = RAW → entry nx = Bytes b) →
    ∃ b', g b = Some b' ∧ packed (fill q) b' (take k es ++ encode_string v :: drop k es)) →
  post (h ← quicklistDecompressNodeForUse junk h (Some x); h ← grow_node h x g; recompressOnly h x) (λ h', ∃ nx',
    qinv h0 h' q (X ++ (x, nx') :: Y) (VX ++ (take k vx ++ v :: drop k vx) :: VY) (use_without use x)).
Proof using Hin Htab.
  intros Hq El Ec Hv Hl Hg. pose proof (qi_holds _ _ _ _ _ _ Hq) as H. destruct (qi_options _ _ _ _ _ _ Hq) as [Hf _]. set (f := fill q) in *.
  destruct (node_facts _ _ _ _ _ _ _ _ _ _ _ Hq El) as (Hct & Hn & Hdc).
  call (decompress_for_use_spec junk f h0 h q X x nx Y vx H Hct). intros h1 (n1 & H1 & Hct1 & Er1 & Hn1 & Ec1 & _ & Hd1 & Hsame).
  destruct (packed_node _ _ _ Hct1 Er1) as (b & es & Ee & Eb & Hpk & Hne & _ & -> & Elen); [congruence|].
  destruct (Hg b es Hpk (eq_sym Elen)) as (b' & Eg & Hpk').
  { intros Er0. by rewrite (Hsame Er0) in Ee. }
  assert (zlen (take k es ++ encode_string v :: drop k es) = zlen es + 1) as Hlen by (unfold zlen; rewrite (Permutation_length (perm_insert k es _)); simpl; lia).
  call (cell_grow f x _ (linked_node h0 q X x Y) (linked_update h0 q X x Y) h1 n1 b b' _ g H1 Ee Eg Hpk').
  { rewrite Hlen, Hn1, Hn. by rewrite strs_zlen. }
  intros h2 (n2 & H2 & Hrf). pose proof (refilled_content _ _ _ _ Hrf Er1 ltac:(congruence)) as Hct2.
  rewrite (strs_insert f) in Hct2 by done. specialize (Hct2 ltac:(by destruct (take k es))). destruct Hrf as [E1 E2 E3 E4 _ _ E5].
  set (vx' := take k (strs es) ++ v :: drop k (strs es)) in *. assert (count n2 = zlen vx') as Hn2.
  { rewrite E5. unfold vx'. rewrite <-(strs_insert f) by done. by rewrite strs_zlen. }
  assert (reads f (X ++ (x, n2) :: Y) (VX ++ vx' :: VY)) as Hr2.
  { pose proof (qi_reads _ _ _ _ _ _ Hq) as Hr. apply Forall2_app_inv in Hr as [? Hr]; [|done]. inversion Hr; subst. apply Forall2_app; [done|]. by constructor. }
  assert (depth_ok (depth q) (X ++ (x, n2) :: Y)) as Hd2.
  { eapply depth_ok_replace; [apply (qi_depth _ _ _ _ _ _ Hq)|]. intros _ [Es1 Es2]. rewrite (Hsame Es1) in *. split; congruence. }
  eapply post_mono; [by apply (recompress_only_spec junk in_data htab0 f Hin Htab h0 h2 q X x n2 Y _ _ H2 Hr2 Hd2)|].
  intros h3 (n3 & H3 & Hrec & Hd3 & Hu3). exists n3. pose proof Hrec as ((_ & Hn3 & _ & Edc) & _ & Hct3 & _).
  constructor; try done; [apply (qi_options _ _ _ _ _ _ Hq)| | |].
  - eapply recodes_reads; [by apply recodes_one|done].
  - pose proof (qi_counts _ _ _ _ _ _ Hq) as Hc. apply Forall2_app_inv in Hc as [? Hc]; [|done]. inversion Hc; subst. apply Forall2_app; [done|]. constructor; [simpl; congruence|done].
  - eapply marks_without; [apply H|apply (qi_marks _ _ _ _ _ _ Hq)|congruence|]. destruct (recompress n3); [|done]. specialize (Hu3 eq_refl). congruence.
Qed.
(** [quicklistRecompressOnly] on the node in use. *)
Lemma release_only_spec h0 h q A a nd B vss : qinv h0 h q (A ++ (a, nd) :: B) vss (Some a) →
  post (recompressOnly h a) (λ h', ∃ nd', qinv h0 h' q (A ++ (a, nd') :: B) vss None ∧ recoded (fill q) nd nd').
Proof using Hin Htab.
  intros Hq. pose proof Hq as [Ho H Hr Hc Hd Hm]. eapply post_mono; [by apply (recompress_only_spec junk in_data htab0 (fill q) Hin Htab h0 h q A a nd B vss _ H Hr Hd)|].
  intros h' (nd' & H' & Hrec & Hd' & Hu). exists nd'. split; [|done]. assert (recodes (fill q) (A ++ (a, nd) :: B) (A ++ (a, nd') :: B)) as Hrec' by (by apply recodes_one).
  constructor; try done; [by eapply recodes_reads|by eapply recodes_counts_ok|].
  assert (dont_compress nd = false) as Hdc by (apply (Hm (a, nd)); rewrite elem_of_app, elem_of_cons; auto). destruct Hrec as ((_ & _ & _ & Ed) & _).
  pose proof (marks_without (Some a) A a nd nd' B (hold_nodup _ _ _ _ H) Hm) as Hm'. unfold use_without in Hm'. rewrite bool_decide_true in Hm' by done.
  apply Hm'; [congruence|]. destruct (recompress nd'); [|done]. specialize (Hu eq_refl). congruence.
Qed.

(** The elements after an insertion; [d] is what was added to the count of the list.  Node
    [a] is still there when the iterator is not reset. *)
Definition inserted h0 q (a : address) (l : list (list Z)) (d : Z) (r : heap * quicklist) : Prop :=
  let '(h', q') := r in ∃ ns' vss', qinv h0 h' q' ns' vss' None ∧ same_options q q' ∧ ql_count q' = ql_count q + d ∧ mjoin vss' = l ∧ (d = 1 → a ∈ ns'.*1).

(** A new element in another node: node [a] keeps its elements. *)
Definition added_beside h0 q (a : address) (vs : list (list Z)) (lA lB : list (list Z)) (r : heap * quicklist) : Prop :=
  let '(h', q') := r in ∃ A' nd' B' VA' VB', qinv h0 h' q' (A' ++ (a, nd') :: B') (VA' ++ vs :: VB') None ∧ length VA' = length A' ∧
    same_options q q' ∧ ql_count q' = ql_count q ∧ mjoin VA' = lA ∧ mjoin VB' = lB.

Section Node.
Context (h0 h : heap) (q : quicklist) (A : nodes) (a : address) (nd : quicklistNode) (B : nodes).
Context (VA : list (list (list Z))) (vs : list (list Z)) (VB : list (list (list Z))) (j : nat) (v : list Z) (after : bool).
Context (Hq : qinv h0 h q (A ++ (a, nd) :: B) (VA ++ vs :: VB) (Some a)) (El : length VA = length A) (Er : encoding nd = RAW).
Context (Hj : (j < length vs)%nat) (Hv : str_ok v).
Let k := cut after j.
Let l := mjoin VA ++ (take k vs ++ v :: drop k vs) ++ mjoin VB.
Let lA := if after then mjoin VA else mjoin VA ++ [v].
Let lB := if after then v :: mjoin VB else mjoin VB.

Lemma beside_inserted r : k = (if after then length vs else 0%nat) → added_beside h0 q a vs lA lB r → inserted h0 q a l 0 r.
Proof using All.
  intros Ek. destruct r as [h' q']. intros (A' & nd' & B' & VA' & VB' & Hq' & _ & Hso & Hc & E1 & E2). eexists _, _. split; [exact Hq'|]. split; [done|]. split; [lia|].
  split; [|done]. rewrite join_middle, E1, E2. unfold l, lA, lB. rewrite Ek. destruct after; [by rewrite firstn_all, drop_all, <-!app_assoc|by rewrite <-!app_assoc].
Qed.

(** In the node itself. *)
Lemma insert_here_spec p : container nd = PACKED → zlen v <= limit (fill q) → zlen vs + 1 <= cap (fill q) → points (fill q) nd j (Some p) →
  post (h ← quicklistDecompressNodeForUse junk h (Some a);
        h ← grow_node h a (λ b, not_null (lpInsertString junk b v p (if after then LP_AFTER else LP_BEFORE)));
        h ← recompressOnly h a; Some (h, q)) (inserted h0 q a l 0).
Proof using All.
  intros Ec Hl Hcap Hpt. pose proof (qi_options _ _ _ _ _ _ Hq) as [Hf _].
  pose proof (grow_spec h0 h q A a nd B VA vs VB (Some a) k (λ b, not_null (lpInsertString junk b v p (if after then LP_AFTER else LP_BEFORE))) v Hq El Ec Hv Hl) as Hg.
  assert (post (h ← quicklistDecompressNodeForUse junk h (Some a);
        h ← grow_node h a (λ b, not_null (lpInsertString junk b v p (if after then LP_AFTER else LP_BEFORE))); recompressOnly h a)
    (λ h', ∃ nx', qinv h0 h' q (A ++ (a, nx') :: B) (VA ++ (take k vs ++ v :: drop k vs) :: VB) (use_without (Some a) a))) as Hg'.
  { apply Hg. intros b es Hpk Elen Ee.
    pose proof (Hpt Ec b es (Ee Er) Hpk) as Ep. rewrite ptr_lt in Ep by lia. injection Ep as ->.
    destruct (packed_insert junk (fill q) Hf b es j v after Hpk) as (b' & Eb & Hp'); [lia|unfold zlen in *; lia|done|done|]. exists b'. split; [exact Eb|]. exact Hp'. }
  clear Hg. destruct (quicklistDecompressNodeForUse junk h (Some a)) as [h1|]; [|done]. cbn [mbind option_bind] in *.
  destruct (grow_node h1 a _) as [h2|]; [|done]. cbn [mbind option_bind] in *. destruct (recompressOnly h2 a) as [h3|]; [|done].
  destruct Hg' as (nx' & Hq'). eexists _, _. split; [|split; [done|split; [lia|split; [apply join_middle|done]]]].
  unfold use_without in Hq'. rewrite bool_decide_true in Hq' by done. exact Hq'.
Qed.
(** In the node next to it. *)
Lemma insert_neighbour_spec x : (if after then x = first_of B None else x = last_of None A) → k = (if after then length vs else 0%nat) →
  ∀ b nx, x = Some b → node_at h b = Some nx → _quicklistNodeAllowInsert 0 (Some nx) (fill q) (zlen v) = Some true →
  post (h ← insert_neighbour junk in_data htab0 h a b (if after then lp_prepend junk v else lp_append junk v); Some (h, q)) (added_beside h0 q a vs lA lB).
Proof using All.
  intros Ex Ek b nx Eb Enx Hallow. pose proof (qi_options _ _ _ _ _ _ Hq) as [Hf _]. set (f := fill q) in *.
  assert (∃ X Y VX vx VY k', qinv h0 h q (X ++ (b, nx) :: Y) (VX ++ vx :: VY) (Some a) ∧ length VX = length X ∧ b ≠ a ∧
    k' = (if after then 0%nat else length vx) ∧ (∀ nx', ∃ X' Y' VX' VY', X ++ (b, nx') :: Y = X' ++ (a, nd) :: Y' ∧ length VX' = length X' ∧
      VX ++ (take k' vx ++ v :: drop k' vx) :: VY = VX' ++ vs :: VY' ∧ mjoin VX' = lA ∧ mjoin VY' = lB)) as (X & Y & VX & vx & VY & k' & Hqx & Elx & Hba & Ek' & Hshape).
  { pose proof (reads_length _ _ _ (qi_reads _ _ _ _ _ _ Hq)) as Elen. rewrite !length_app in Elen. simpl in Elen.
    pose proof (hold_nodup _ _ _ _ (qi_holds _ _ _ _ _ _ Hq)) as [Hn _]%nodup_middle. unfold lA, lB. destruct after; rewrite Ex in Eb; clear Ex.
    - destruct B as [|[b' nb] B2]; [done|]. injection Eb as ->. destruct VB as [|vb VB2]; [simpl in Elen; lia|].
      pose proof (qinv_snoc _ _ _ _ _ _ _ _ _ _ Hq) as Hq2. pose proof (holds_node _ _ _ _ _ _ _ (qi_holds _ _ _ _ _ _ Hq2)) as E. rewrite Enx in E. injection E as <-.
      exists (A ++ [(a, nd)]), B2, (VA ++ [vs]), vb, VB2, 0%nat. split; [done|]. split; [rewrite !length_app; simpl; lia|].
      split; [intros ->; apply Hn; rewrite fmap_app; set_solver|]. split; [done|]. intros. exists A, ((b, nx') :: B2), VA, ((v :: vb) :: VB2).
      rewrite <-!app_assoc. done.
    - destruct A as [|[b' nb] A2 _] using rev_ind; [done|]. rewrite last_of_snoc in Eb. injection Eb as ->.
      destruct VA as [|vb VA2 _] using rev_ind; [rewrite length_app in El; simpl in El; lia|]. rewrite !length_app in El. simpl in El.
      assert (qinv h0 h q (A2 ++ (b, nb) :: (a, nd) :: B) (VA2 ++ vb :: vs :: VB) (Some a)) as Hq2 by (by rewrite <-!app_assoc in Hq).
      pose proof (holds_node _ _ _ _ _ _ _ (qi_holds _ _ _ _ _ _ Hq2)) as E. rewrite Enx in E. injection E as <-.
      exists A2, ((a, nd) :: B), VA2, vb, (vs :: VB), (length vb). split; [done|]. split; [lia|].
      split; [intros ->; apply Hn; rewrite !fmap_app; set_solver|]. split; [done|]. intros. exists (A2 ++ [(b, nx')]), B, (VA2 ++ [vb ++ [v]]), VB.
      rewrite firstn_all, drop_all, <-!app_assoc, !length_app, !join_app. simpl. rewrite !app_nil_r. split_and!; try done; by rewrite app_assoc. }
  destruct (node_facts _ _ _ _ _ _ _ _ _ _ _ Hqx Elx) as (Hctx & Hnx & _). destruct (allow_insert_spec f nx vx (zlen v) Hf Hctx Hnx (zlen_nonneg v)) as (r & E & Hr).
  rewrite Hallow in E. injection E as <-. destruct (Hr eq_refl) as (Ecx & Hlv & Hcap). clear Hr.
  pose proof (grow_spec h0 h q X b nx Y VX vx VY (Some a) k' (if after then lp_prepend junk v else lp_append junk v) v Hqx Elx Ecx Hv Hlv) as Hg.
  unfold insert_neighbour. unfold use_without in Hg. rewrite bool_decide_false in Hg by (intros [= ->]; done).
  assert (post (h ← quicklistDecompressNodeForUse junk h (Some b); h ← grow_node h b (if after then lp_prepend junk v else lp_append junk v); recompressOnly h b)
    (λ h', ∃ nx', qinv h0 h' q (X ++ (b, nx') :: Y) (VX ++ (take k' vx ++ v :: drop k' vx) :: VY) (Some a))) as Hg'.
  { apply Hg. intros bs es Hpk Elen _. rewrite Ek'. unfold zlen in Hcap. destruct after.
    - change (drop 0 es) with es. apply (packed_prepend junk f Hf); done || (unfold zlen; lia).
    - rewrite <-Elen, firstn_all, drop_all. apply (packed_append junk f Hf); done || (unfold zlen; lia). }
  clear Hg. destruct (quicklistDecompressNodeForUse junk h (Some b)) as [h1|]; [|done]. cbn [mbind option_bind] in *.
  destruct (grow_node h1 b _) as [h2|]; [|done]. cbn [mbind option_bind] in *. destruct (recompressOnly h2 b) as [h3|]; [|done].
  destruct Hg' as (nx' & Hq'). cbn [mbind option_bind]. destruct (Hshape nx') as (X' & Y' & VX' & VY' & Es & El' & Ev' & Ej1 & Ej2). rewrite Es, Ev' in Hq'.
  call (release_only_spec h0 h3 q X' a nd Y' _ Hq'). intros h4 (nd' & Hq4 & _). by exists X', nd', Y', VX', VY'.
Qed.

(** In a new node next to it. *)
Lemma place_next X : place_ok (if after then A ++ [(a, X)] else A) (if after then B else (a, X) :: B) (Some a) after.
Proof using All. unfold place_ok. destruct after; [rewrite last_of_snoc; split; [done|by destruct A]|done]. Qed.

Lemma beside (X : quicklistNode) VX : qinv h0 h q (A ++ (a, X) :: B) (VA ++ VX :: VB) (Some a) →
  qinv h0 h q ((if after then A ++ [(a, X)] else A) ++ (if after then B else (a, X) :: B))
    ((if after then VA ++ [VX] else VA) ++ (if after then VB else VX :: VB)) (Some a).
Proof using All. destruct after; [|done]. by rewrite <-!app_assoc. Qed.

Lemma insert_new_spec : zlen v <= limit (fill q) → k = (if after then length vs else 0%nat) →
  post (let '(h, new_node) := quicklistCreateNode zmalloc h in
        lp ← lp_single junk v;
        h ← update h new_node (set_entry (Bytes lp));
        h ← count_add h new_node 1;
        h ← quicklistNodeUpdateSz h new_node;
        insertNode h q (Some a) new_node after) (added_beside h0 q a vs lA lB).
Proof using All.
  intros Hl Ek. pose proof (qi_options _ _ _ _ _ _ Hq) as [Hf _]. set (f := fill q) in *. pose proof (qi_holds _ _ _ _ _ _ Hq) as H.
  destruct (create_holds zmalloc h0 h q _ Hmalloc H) as (h1 & x & -> & H1 & E0). destruct (packed_single junk Hjunk f Hf v Hv Hl) as (b & Eb & Hpb). next_is Eb.
  call (loose_cell_update h0 q _ x _ _ (set_entry (Bytes b)) H1). intros h2 H2. unfold count_add.
  call (loose_cell_update h0 q _ x _ _ (λ n, set_count (count n + 1) n) H2). intros h3 H3.
  call (cell_sz f x _ (loose_cell_node h0 q _ x) (loose_cell_update h0 q _ x) h3 _ b _ H3 eq_refl Hpb). intros h4 H4.
  set (nx := set_sz _ _) in H4. assert (qinv (<[x := mkLinked None None nx]> h0) h4 q (A ++ (a, nd) :: B) (VA ++ vs :: VB) (Some a)) as Hq4 by (by destruct Hq).
  assert (content f nx [v]) as Hct by (rewrite <-(strs_one f v) by done; by eapply packed_content).
  eapply post_mono; [apply (insert_inv junk in_data htab0 Hin Htab h0 h4 q (if after then A ++ [(a, nd)] else A) (if after then B else (a, nd) :: B)
    (if after then VA ++ [vs] else VA) (if after then VB else vs :: VB) x nx [v] (Some a) (Some a) after)|]; try done.
  - by destruct after; [rewrite <-!app_assoc|].
  - destruct after; [|done]. rewrite !length_app. simpl. lia.
  - apply place_next.
  - intros [h5 q5] (ns' & Hq5 & Hrec & Hso & Hc & Hu). specialize (Hu eq_refl).
    assert (qinv h0 h5 q5 ns' ((if after then VA ++ [vs] else VA) ++ [v] :: (if after then VB else vs :: VB)) None) as Hq5' by (by destruct Hq5). clear Hq5.
    unfold lA, lB. destruct after.
    + rewrite <-!app_assoc in *. simpl in Hrec, Hq5'. destruct (recodes_split _ _ _ _ _ _ Hrec) as (A5 & n5 & B5 & -> & HA & _ & _).
      exists A5, n5, B5, VA, ([v] :: VB). split; [done|]. split; [rewrite El; symmetry; by eapply recodes_length|done].
    + rewrite snoc_cons in Hrec. destruct (recodes_split _ _ _ _ _ _ Hrec) as (A5 & n5 & B5 & -> & HA & _ & _).
      exists A5, n5, B5, (VA ++ [[v]]), VB. split; [by rewrite <-app_assoc|]. apply recodes_length in HA. rewrite HA, !length_app, join_app. simpl.
      split; [lia|]. split; [done|]. split; [lia|]. done.
Qed.
Lemma use_raw : quicklistDecompressNodeForUse junk h (Some a) = Some h.
Proof using All.
  unfold quicklistDecompressNodeForUse. rewrite (holds_node _ _ _ _ _ _ _ (qi_holds _ _ _ _ _ _ Hq)). cbn [mbind option_bind].
  by rewrite bool_decide_false by (rewrite Er; done).
Qed.

(** The node is split: the new node is not in the list yet. *)
Lemma split_inv off : container nd = PACKED → norm (zlen vs) off = Z.of_nat j → (0 < k < length vs)%nat →
  post (_quicklistSplitNode junk zmalloc h a off after) (λ '(h', x), ∃ nd' nx, h0 !! x = None ∧
    qinv (<[x := mkLinked None None nx]> h0) h' q (A ++ (a, nd') :: B) (VA ++ (if after then take k vs else drop k vs) :: VB) (Some a) ∧
    encoding nd' = RAW ∧ container nd' = PACKED ∧ recompress nd' = recompress nd ∧
    content (fill q) nx (if after then drop k vs else take k vs) ∧ count nx = zlen (if after then drop k vs else take k vs) ∧
    settled nx ∧ container nx = PACKED ∧ dont_compress nx = false).
Proof using All.
  intros Ec Hoff Hk. destruct (node_facts _ _ _ _ _ _ _ _ _ _ _ Hq El) as (Hct & Hn & Hdc).
  eapply post_mono; [apply (split_spec junk zmalloc Hmalloc h0 h q A a nd B vs j off after (qi_holds _ _ _ _ _ _ Hq) Hct Hn Er Ec Hoff Hk)|].
  intros [h1 x] (nd' & nx & H1 & E0 & Hct' & Hn' & Er' & Ec' & Erc & Edc & Hx). exists nd', nx. split; [done|]. split; [|done].
  eapply qinv_replace; [exact Hq|done|exact H1|exact Hct'|exact Hn'| |congruence|done]. intros [? ?]. split; congruence.
Qed.

Lemma insert_split_spec off : container nd = PACKED → zlen v <= limit (fill q) → norm (zlen vs) off = Z.of_nat j → (0 < k < length vs)%nat →
  post (h ← quicklistDecompressNodeForUse junk h (Some a);
        '(h, new_node) ← _quicklistSplitNode junk zmalloc h a off after;
        h ← grow_node h new_node (if after then lp_prepend junk v else lp_append junk v);
        '(h, q) ← insertNode h q (Some a) new_node after;
        '(h, q, _) ← _quicklistMergeNodes junk in_data htab0 h q a;
        Some (h, q)) (inserted h0 q a l 0).
Proof using All.
  intros Ec Hl Hoff Hk. pose proof (qi_options _ _ _ _ _ _ Hq) as [Hf _]. next_is use_raw.
  call (split_inv off Ec Hoff Hk). intros [h1 x] (nd' & nx & E0 & Hq1 & Er' & Ec' & _ & Hctx & Hnx & Hsx & Ecx & Hdx). set (f := fill q) in *.
  set (vx := if after then drop k vs else take k vs) in *. destruct (packed_node _ _ _ Hctx (proj1 Hsx) Ecx) as (b & es & Ee & _ & Hpk & Hne & _ & Ev & Elen).
  pose proof (node_facts _ _ _ _ _ _ _ _ _ _ _ Hq El) as (Hct & _ & _). destruct (packed_node _ _ _ Hct Er Ec) as (b0 & es0 & _ & _ & Hpk0 & _ & _ & _ & Elen0).
  assert (zlen es + 1 <= cap f) as Hcap.
  { pose proof (pk_count _ _ _ Hpk0) as Hpc. fold f in Hpc. unfold zlen in *. rewrite <-Elen. unfold vx. destruct after; rewrite ?length_drop, ?length_take; lia. }
  set (vx' := if after then v :: vx else vx ++ [v]).
  assert (∃ b' es', (if after then lp_prepend junk v else lp_append junk v) b = Some b' ∧ packed f b' es' ∧ strs es' = vx' ∧ zlen es' = zlen es + 1 ∧ es' ≠ []) as (b' & es' & Eg & Hpk' & Es' & El' & Hne').
  { destruct (elem_fits f v Hf Hv Hl) as (_ & Evv & _). unfold vx'. rewrite Ev. destruct after.
    - destruct (packed_prepend junk f Hf b es v Hpk Hcap Hv Hl) as (b' & E & Hp). exists b', (encode_string v :: es). split_and!; try done; [unfold strs; simpl; by rewrite Evv|rewrite zlen_cons; lia].
    - destruct (packed_append junk f Hf b es v Hpk Hcap Hv Hl) as (b' & E & Hp). exists b', (es ++ [encode_string v]). split_and!; try done; [rewrite strs_app; unfold strs; simpl; by rewrite Evv|by rewrite zlen_app|by destruct es]. }
  call (cell_grow f x _ (loose_cell_node h0 q _ x) (loose_cell_update h0 q _ x) h1 nx b b' es' _ (qi_holds _ _ _ _ _ _ Hq1) Ee Eg Hpk').
  { rewrite El', Hnx, <-(strs_zlen es). by rewrite <-Ev. }
  intros h2 (nx' & H2 & Hrf). pose proof (refilled_content _ _ _ _ Hrf (proj1 Hsx) Ecx Hne') as Hctx'. rewrite Es' in Hctx'. destruct Hrf as [F1 F2 F3 F4 _ _ F5].
  assert (qinv (<[x := mkLinked None None nx']> h0) h2 q (A ++ (a, nd') :: B) (VA ++ (if after then take k vs else drop k vs) :: VB) (Some a)) as Hq2 by (by destruct Hq1).
  assert (mjoin ((if after then VA ++ [take k vs] else VA) ++ vx' :: (if after then VB else drop k vs :: VB)) = l) as Ejoin.
  { unfold l, vx', vx. destruct after; rewrite !join_app; simpl; by rewrite ?app_nil_r, <-!app_assoc. }
  pose proof (insert_inv junk in_data htab0 Hin Htab h0 h2 q (if after then A ++ [(a, nd')] else A) (if after then B else (a, nd') :: B)
    (if after then VA ++ [take k vs] else VA) (if after then VB else drop k vs :: VB) x nx' vx' (Some a) (Some a) after) as Hins.
  eapply post_call; [apply Hins|cbv beta].
  - by destruct after; [rewrite <-!app_assoc|].
  - done.
  - destruct after; [|done]. rewrite !length_app. simpl. lia.
  - done.
  - rewrite F5, El', <-(strs_zlen es), <-Ev. unfold vx'. destruct after; [rewrite zlen_cons; lia|by rewrite zlen_app].
  - split; [rewrite F1|rewrite F3]; apply Hsx.
  - congruence.
  - apply place_next.
  - clear Hins. intros [h3 q3] (ns3 & Hq3 & Hrec & Hso & Hcnt & Hu). specialize (Hu eq_refl).
    assert (qinv h0 h3 q3 ns3 ((if after then VA ++ [take k vs] else VA) ++ vx' :: (if after then VB else drop k vs :: VB)) None) as Hq3' by (by destruct Hq3).
    assert (∃ A3 n3 B3 VA3 vc VB3, ns3 = A3 ++ (a, n3) :: B3 ∧ (if after then VA ++ [take k vs] else VA) ++ vx' :: (if after then VB else drop k vs :: VB) = VA3 ++ vc :: VB3 ∧
      length VA3 = length A3) as (A3 & n3 & B3 & VA3 & vc & VB3 & -> & Ev3 & El3).
    { destruct after.
      - rewrite <-app_assoc in Hrec. simpl in Hrec. destruct (recodes_split _ _ _ _ _ _ Hrec) as (A3 & n3 & B3 & -> & HA & _ & _).
        exists A3, n3, B3, VA, (take k vs), (vx' :: VB). rewrite <-app_assoc. split; [done|]. split; [done|]. rewrite El. symmetry. by eapply recodes_length.
      - rewrite snoc_cons in Hrec. destruct (recodes_split _ _ _ _ _ _ Hrec) as (A3 & n3 & B3 & -> & HA & _ & _).
        exists A3, n3, B3, (VA ++ [vx']), (drop k vs), VB. rewrite <-app_assoc. split; [done|]. split; [done|]. rewrite length_app. simpl. apply recodes_length in HA. rewrite HA, length_app. simpl. lia. }
    rewrite Ev3 in *. call (merge_nodes_spec junk in_data htab0 Hin Htab h0 h3 q3 A3 a n3 B3 VA3 vc VB3 None Hq3' El3 (or_introl eq_refl)).
    intros [[h4 q4] t] (Hso4 & Hc4 & A4 & nt & B4 & VA4 & vt & VB4 & use4 & Hq4 & _ & Ej4 & Hu4 & _). rewrite (Hu4 eq_refl) in Hq4.
    eexists _, _. split; [exact Hq4|]. split; [by eapply same_options_trans|]. split; [lia|]. split; [rewrite Ej4; exact Ejoin|done].
Qed.
(** A large element. *)
Lemma insert_plain_beside : k = (if after then length vs else 0%nat) →
  post (__quicklistInsertPlainNode junk in_data htab0 zmalloc h q (Some a) v after) (inserted h0 q a l 1).
Proof using All.
  intros Ek. eapply post_mono; [apply (insert_plain_spec junk in_data htab0 zmalloc Hin Htab Hmalloc h0 h q (if after then A ++ [(a, nd)] else A) (if after then B else (a, nd) :: B)
    (if after then VA ++ [vs] else VA) (if after then VB else vs :: VB) (Some a) v (Some a) after)|].
  - by destruct after; [rewrite <-!app_assoc|].
  - destruct after; [|done]. rewrite !length_app. simpl. lia.
  - done.
  - apply place_next.
  - intros [h5 q5] (ns' & Hq5 & Hso & Hc & Hu & Hkeys). specialize (Hu eq_refl). eexists ns', _. split; [destruct Hq5; constructor; done|]. split; [done|]. split; [lia|].
    split; [|intros _; apply Hkeys; destruct after; [rewrite <-app_assoc|]; apply key_in].
    unfold l. rewrite Ek. destruct after.
    + rewrite firstn_all, drop_all, !join_app. simpl. by rewrite app_nil_r, <-!app_assoc.
    + by rewrite join_app.
Qed.

Lemma insert_plain_split off : container nd = PACKED → norm (zlen vs) off = Z.of_nat j → (0 < k < length vs)%nat →
  post (h ← quicklistDecompressNodeForUse junk h (Some a);
        '(h, new_node) ← _quicklistSplitNode junk zmalloc h a off after;
        '(h, entry_node) ← __quicklistCreateNode junk zmalloc h PLAIN v;
        '(h, q) ← insertNode h q (Some a) entry_node after;
        '(h, q) ← insertNode h q (Some entry_node) new_node after;
        Some (h, set_ql_count q (ql_count q + 1))) (inserted h0 q a l 1).
Proof using All.
  intros Ec Hoff Hk. next_is use_raw.
  call (split_inv off Ec Hoff Hk). intros [h1 x] (nd' & nx & E0 & Hq1 & _ & _ & _ & Hctx & Hnx & Hsx & _ & Hdx).
  call (create_plain_spec junk zmalloc Hmalloc (fill q) _ _ _ _ v Hv (qi_holds _ _ _ _ _ _ Hq1)). intros [h2 y] (ny & H2 & E1 & Hcty & Hny & Hsy & Hdy & _).
  pose proof (insert_inv junk in_data htab0 Hin Htab (<[x := mkLinked None None nx]> h0) h2 q (if after then A ++ [(a, nd')] else A) (if after then B else (a, nd') :: B)
    (if after then VA ++ [take k vs] else VA) (if after then VB else drop k vs :: VB) y ny [v] (Some a) (Some a) after) as Hins.
  eapply post_call; [apply Hins|cbv beta]; try done.
  - assert (qinv (<[y := mkLinked None None ny]> (<[x := mkLinked None None nx]> h0)) h2 q (A ++ (a, nd') :: B) (VA ++ (if after then take k vs else drop k vs) :: VB) (Some a)) as Hq2 by (by destruct Hq1).
    by destruct after; [rewrite <-!app_assoc|].
  - destruct after; [|done]. rewrite !length_app. simpl. lia.
  - apply place_next.
  - clear Hins. intros [h3 q3] (ns3 & Hq3 & Hrec & Hso & Hcnt & Hu). specialize (Hu eq_refl). assert (fill q3 = fill q) as Ef by apply Hso.
    assert (∃ A3 n3 B3 VA3 VB3, ns3 = A3 ++ (y, n3) :: B3 ∧ (if after then VA ++ [take k vs] else VA) ++ [v] :: (if after then VB else drop k vs :: VB) = VA3 ++ [v] :: VB3 ∧
      length VA3 = length A3 ∧ a ∈ (A3 ++ (y, n3) :: B3).*1 ∧ mjoin ((if after then VA3 ++ [[v]] else VA3) ++ (if after then drop k vs else take k vs) :: (if after then VB3 else [v] :: VB3)) = l)
      as (A3 & n3 & B3 & VA3 & VB3 & -> & Ev3 & El3 & Ha3 & Ej3).
    { pose proof (recodes_keys _ _ _ Hrec) as Hkeys. destruct (recodes_split _ _ _ _ _ _ Hrec) as (A3 & n3 & B3 & -> & HA & _ & _). apply recodes_length in HA.
      eexists A3, n3, B3, _, _. split; [done|]. split; [done|]. split; [|split; [|unfold l]].
      - rewrite HA. destruct after; [rewrite !length_app; simpl; lia|done].
      - rewrite Hkeys. destruct after; [rewrite <-app_assoc; apply key_in|]. by apply key_keep, key_in.
      - destruct after; rewrite !join_app; simpl; by rewrite ?app_nil_r, <-!app_assoc. }
    rewrite Ev3 in Hq3. clear Hrec. assert (qinv (<[x := mkLinked None None nx]> h0) h3 q3 (A3 ++ (y, n3) :: B3) (VA3 ++ [v] :: VB3) None) as Hq3' by (by destruct Hq3).
    pose proof (insert_inv junk in_data htab0 Hin Htab h0 h3 q3 (if after then A3 ++ [(y, n3)] else A3) (if after then B3 else (y, n3) :: B3)
      (if after then VA3 ++ [[v]] else VA3) (if after then VB3 else [v] :: VB3) x nx (if after then drop k vs else take k vs) None (Some y) after) as Hins.
    eapply post_call; [apply Hins|cbv beta]; try done.
    + by destruct after; [rewrite <-!app_assoc|].
    + destruct after; [|done]. rewrite !length_app. simpl. lia.
    + by rewrite Ef.
    + destruct after; [split; [by rewrite last_of_snoc|by destruct A3]|done].
    + intros [h4 q4] (ns4 & Hq4 & Hrec4 & Hso4 & Hc4 & _). eexists ns4, _. split; [apply qinv_set_count, Hq4|]. split; [by eapply same_options_trans|].
      split; [simpl; lia|]. split; [exact Ej3|]. intros _. rewrite (recodes_keys _ _ _ Hrec4). destruct after; [rewrite <-app_assoc|]; by apply (key_keep A3 a (y, n3)).
Qed.
(** [_quicklistInsert] when the element is large. *)
Lemma insert_large_spec e : norm (zlen vs) (e_offset e) = Z.of_nat j → (container nd = PLAIN → k = (if after then length vs else 0%nat)) →
  post (insert_large junk in_data htab0 zmalloc h q a e v after (bool_decide (k = (if after then length vs else 0%nat)))) (inserted h0 q a l 1).
Proof using All.
  intros Hoff Hplain. unfold insert_large. next_is (holds_node _ _ _ _ _ _ _ (qi_holds _ _ _ _ _ _ Hq)).
  destruct (plain_cases nd) as [[Ec ->]|[Ec ->]]; [apply insert_plain_beside; auto|]. cbn [orb]. case_bool_decide as Ek; [by apply insert_plain_beside|].
  apply insert_plain_split; [done|done|]. unfold k, cut in *. destruct after; lia.
Qed.

(** The other elements. *)
Lemma insert_small_spec e p (full : bool) nb (avail : bool) : norm (zlen vs) (e_offset e) = Z.of_nat j → e_zi e = Some p → points (fill q) nd j (Some p) →
  zlen v <= limit (fill q) → (container nd = PLAIN → k = (if after then length vs else 0%nat)) →
  (full = false → container nd = PACKED ∧ zlen vs + 1 <= cap (fill q)) →
  nb = (if after then first_of B None else last_of None A) →
  (avail = true → ∃ b nx, nb = Some b ∧ node_at h b = Some nx ∧ _quicklistNodeAllowInsert 0 (Some nx) (fill q) (zlen v) = Some true) →
  post (insert_small junk in_data htab0 zmalloc h q a e v after full (bool_decide (k = (if after then length vs else 0%nat))) avail nb) (inserted h0 q a l 0).
Proof using All.
  intros Hoff Ez Hpt Hl Hplain Hfull Enb Havail. unfold insert_small. rewrite Ez. destruct full.
  - cbn [negb]. case_bool_decide as Ek; [destruct avail; cbn [andb]|cbn [andb]].
    + destruct (Havail eq_refl) as (b & nx & -> & Enx & Hal). apply post_bind. cbn [post]. eapply post_mono; [|intros r; by apply beside_inserted].
      by apply (insert_neighbour_spec (Some b)) with (b := b) (nx := nx); [destruct after|..].
    + eapply post_mono; [|intros r; by apply beside_inserted]. by apply insert_new_spec.
    + apply insert_split_spec; [|done|done|unfold k, cut in *; destruct after; lia]. destruct (plain_cases nd) as [[Ec _]|[Ec _]]; [|done]. by specialize (Hplain Ec).
  - destruct (Hfull eq_refl) as [Ec Hcap]. cbn [negb mbind option_bind]. pose proof (insert_here_spec p Ec Hl Hcap Hpt) as Hh. exact Hh.
Qed.
End Node.
(** The number of elements before the new one when it is put at that end of the node. *)
Definition end_cut (after : bool) (vs : list (list Z)) : nat := if after then length vs else 0.

(** A node that can take one more element. *)
Definition takes_one h q nb (v : list Z) : Prop :=
  ∃ b nx, nb = Some b ∧ node_at h b = Some nx ∧ _quicklistNodeAllowInsert 0 (Some nx) (fill q) (zlen v) = Some true.

Lemma allow_at h0 h q ns vss use (nb : option address) v : qinv h0 h q ns vss use → (∀ b, nb = Some b → b ∈ ns.*1) →
  ∃ nn av, deref h nb = Some nn ∧ _quicklistNodeAllowInsert 0 nn (fill q) (zlen v) = Some av ∧ (av = true → takes_one h q nb v).
Proof.
  intros Hq Hb. destruct (qi_options _ _ _ _ _ _ Hq) as [Hf _]. destruct nb as [b|]; [|by exists None, false].
  specialize (Hb b eq_refl). apply list_elem_of_fmap in Hb as ([b' nx] & -> & Hb). apply list_elem_of_split in Hb as (X & Y & ->). pose proof (qi_reads _ _ _ _ _ _ Hq) as Hr.
  apply reads_split in Hr as (VX & vx & VY & -> & HX & _). destruct (mid_facts _ _ _ _ _ _ _ _ _ _ _ Hq (reads_length _ _ _ HX)) as (Enx & Hcx & Hnx).
  destruct (allow_insert_spec (fill q) nx vx (zlen v) Hf Hcx Hnx (zlen_nonneg v)) as (av & E & _). exists (Some nx), av. simpl. rewrite Enx.
  split; [done|]. split; [done|]. intros ->. by exists b', nx.
Qed.

Lemma neighbour_in (A : nodes) a nd B (after : bool) b : (if after then first_of B None else last_of None A) = Some b → b ∈ (A ++ (a, nd) :: B).*1.
Proof.
  rewrite fmap_app, elem_of_app. destruct after.
  - destruct B as [|[c w] B]; [done|]. intros [= ->]. right. right. by left.
  - destruct (last_of_cases None A) as [[_ ->]|(A' & c & w & -> & ->)]; [done|]. intros [= ->]. left. rewrite fmap_app, elem_of_app. right. by left.
Qed.

(** The case [_quicklistInsert] is in. *)
Lemma insert_cases h0 h q ns vss it e A a nd B VA vs VB j v0 v (after : bool) : qinv h0 h q ns vss (Some a) →
  reading (fill q) ns vss it e A a nd B VA vs VB j v0 →
  let nb := if after then first_of B None else last_of None A in let k := cut after j in
  (container nd = PLAIN → k = end_cut after vs) ∧ ∃ allow avail, (allow = true → container nd = PACKED ∧ zlen vs + 1 <= cap (fill q)) ∧ (avail = true → takes_one h q nb v) ∧
    _quicklistInsert 0 junk in_data htab0 zmalloc h q it e v after =
      if limit (fill q) <? zlen v then
        '(h, q) ← insert_large junk in_data htab0 zmalloc h q a e v after (bool_decide (k = end_cut after vs)); Some (h, q, it)
      else
        '(h, q) ← insert_small junk in_data htab0 zmalloc h q a e v after (negb allow) (bool_decide (k = end_cut after vs)) avail nb;
        Some (h, set_ql_count q (ql_count q + 1), resetIterator it).
Proof.
  intros Hq Hrd nb k. destruct Hrd. subst ns vss. pose proof (qi_holds _ _ _ _ _ _ Hq) as H. pose proof (lookup_lt_Some _ _ _ rd_elem0) as Hj.
  destruct (node_facts _ _ _ _ _ _ _ _ _ _ _ Hq rd_len0) as (Hct & Hn & _). destruct (qi_options _ _ _ _ _ _ Hq) as [Hf _]. rewrite <-rd_e_offset0 in rd_norm0.
  assert (zlen vs = Z.of_nat (length vs)) as Ezl by done. split.
  { intros Ec. destruct (plain_node _ _ _ Hct rd_raw0 Ec) as (b & _ & _ & -> & _). simpl in Hj. unfold k, cut, end_cut. destruct after; simpl; lia. }
  destruct (allow_insert_spec (fill q) nd vs (zlen v) Hf Hct Hn (zlen_nonneg v)) as (allow & Eal & Hal).
  destruct (allow_at h0 h q _ _ _ nb v Hq (neighbour_in A a nd B after)) as (nn & av & Enn & Eav & Hav).
  assert ((if after then next_of h a else prev_of h a) = Some nb) as Enb by (unfold nb; destruct after; [apply (holds_next _ _ _ _ _ _ _ H)|apply (holds_prev _ _ _ _ _ _ _ H)]).
  destruct (at_end_spec (zlen vs) (e_offset e) j rd_norm0 ltac:(lia)) as [Ea1 Ea2].
  assert ((if after then (e_offset e =? count nd - 1) || (e_offset e =? -1) else (e_offset e =? 0) || (e_offset e =? - count nd)) =
    bool_decide (k = end_cut after vs)) as Eend.
  { rewrite Hn. unfold k, cut, end_cut. destruct after; [rewrite Ea1|rewrite Ea2]; apply bool_decide_ext; lia. }
  exists allow, (if bool_decide (k = end_cut after vs) then av else false). split; [intros E; destruct (Hal E) as (? & _ & ?); by split|].
  split; [by case_bool_decide|]. unfold _quicklistInsert. rewrite rd_e_node0, (holds_node _ _ _ _ _ _ _ H). cbn [mbind option_bind].
  rewrite Eal. cbn [mbind option_bind]. rewrite Enb. cbn [mbind option_bind]. rewrite Eend, Enn. cbn [mbind option_bind].
  assert ((if bool_decide (k = end_cut after vs) then _quicklistNodeAllowInsert 0 nn (fill q) (zlen v) else Some false) =
    Some (if bool_decide (k = end_cut after vs) then av else false)) as -> by (by case_bool_decide).
  cbn [mbind option_bind]. by rewrite (large_spec (fill q) (zlen v) Hf).
Qed.

(** [_quicklistInsert] next to the element an iterator is on. *)
Lemma insert_entry_spec h0 h q ns vss it e A a nd B VA vs VB j v0 v after : qlist h0 h q ns vss (Some a) →
  reading (fill q) ns vss it e A a nd B VA vs VB j v0 → str_ok v →
  post (_quicklistInsert 0 junk in_data htab0 zmalloc h q it e v after) (λ '(h', q', it'), ∃ ns' vss', qlist h0 h' q' ns' vss' None ∧ same_options q q' ∧
    mjoin vss' = mjoin VA ++ (take (cut after j) vs ++ v :: drop (cut after j) vs) ++ mjoin VB ∧
    (current it' = None ∨ current it' = Some a ∧ a ∈ ns'.*1)).
Proof using Hjunk Hin Htab Hmalloc.
  intros [Hq Hcnt] Hrd Hv. destruct (insert_cases h0 h q ns vss it e A a nd B VA vs VB j v0 v after Hq Hrd) as (Hplain & allow & av & Hal & Hav & ->).
  pose proof (reading_post _ _ _ _ _ _ _ _ _ _ _ _ _ _ Hrd) as Hpt. destruct Hrd. subst ns vss. pose proof (lookup_lt_Some _ _ _ rd_elem0) as Hj.
  destruct rd_zi0 as [p Ep]. rewrite rd_e_zi0, Ep in Hpt. rewrite <-rd_e_offset0 in rd_norm0. set (l := mjoin VA ++ _).
  assert (zlen l = ql_count q + 1) as Hlen.
  { rewrite Hcnt. unfold l. rewrite join_middle, !zlen_app, zlen_cons, zlen_take, zlen_drop. assert (zlen vs = Z.of_nat (length vs)) by done. unfold cut. destruct after; lia. }
  destruct (limit (fill q) <? zlen v) eqn:Hl; zb.
  - call (insert_large_spec h0 h q A a nd B VA vs VB j v after Hq rd_len0 rd_raw0 Hj Hv e rd_norm0 Hplain).
    intros [h' q'] (ns' & vss' & Hq' & Hso & Hc & Ej & Hin'). exists ns', vss'. split; [split; [done|rewrite Ej; fold l; lia]|].
    split; [done|]. split; [done|]. right. split; [done|]. by apply Hin'.
  - call (insert_small_spec h0 h q A a nd B VA vs VB j v after Hq rd_len0 rd_raw0 Hj Hv e p (negb allow) (if after then first_of B None else last_of None A) av rd_norm0); try done.
    { congruence. } { intros E. apply negb_false_iff in E. by apply Hal. }
    intros [h' q'] (ns' & vss' & Hq' & Hso & Hc & Ej & _). exists ns', vss'. split; [split; [by apply qinv_set_count|simpl; rewrite Ej; fold l; lia]|].
    split; [done|]. split; [done|]. by left.
Qed.

(** A small element after a plain node, which stays as it is. *)
Lemma insert_after_plain h0 h q ns vss it e A a nd B VA vs VB j v0 v : qinv h0 h q ns vss (Some a) →
  reading (fill q) ns vss it e A a nd B VA vs VB j v0 → str_ok v → container nd = PLAIN → zlen v <= limit (fill q) →
  post (_quicklistInsert 0 junk in_data htab0 zmalloc h q it e v true) (λ '(h', q', _), ∃ A' nd' B' VA' VB', qinv h0 h' q' (A' ++ (a, nd') :: B') (VA' ++ vs :: VB') None ∧
    length VA' = length A' ∧ same_options q q' ∧ ql_count q' = ql_count q + 1 ∧ mjoin VA' = mjoin VA ∧ mjoin VB' = v :: mjoin VB).
Proof using Hjunk Hin Htab Hmalloc.
  intros Hq Hrd Hv Ec Hl. destruct (insert_cases h0 h q ns vss it e A a nd B VA vs VB j v0 v true Hq Hrd) as (Hplain & allow & av & Hal & Hav & ->).
  rewrite (proj2 (Z.ltb_ge _ _)) by done. assert (allow = false) as -> by (destruct allow; [destruct (Hal eq_refl); congruence|done]).
  rewrite bool_decide_true by auto. destruct Hrd. subst ns vss. pose proof (lookup_lt_Some _ _ _ rd_elem0) as Hj.
  assert (post (insert_small junk in_data htab0 zmalloc h q a e v true (negb false) true av (first_of B None)) (added_beside h0 q a vs (mjoin VA) (v :: mjoin VB))) as Hs.
  { unfold insert_small. cbn [negb andb]. destruct av; cbn [andb].
    - destruct (Hav eq_refl) as (b & nx & Eb & Enx & Hal'). rewrite Eb. cbn [mbind option_bind].
      apply (insert_neighbour_spec h0 h q A a nd B VA vs VB j v true Hq rd_len0 rd_raw0 Hj Hv (first_of B None) eq_refl (Hplain Ec) b nx Eb Enx Hal').
    - apply (insert_new_spec h0 h q A a nd B VA vs VB j v true Hq rd_len0 rd_raw0 Hj Hv Hl). by apply Hplain. }
  call Hs. intros [h' q'] (A' & nd' & B' & VA' & VB' & Hq' & El' & Hso & Hc & E1 & E2). exists A', nd', B', VA', VB'.
  split; [by apply qinv_set_count|]. split; [done|]. split; [done|]. split; [simpl; lia|done].
Qed.
End Insert.
End QuicklistInsert.
