(* ===== verification/QuicklistReplace.v ===== *)
(** * Quicklists: replacing an element *)

From stdpp Require Import gmap.
From S2P Require Import Prelude Util Lzf LzfProofs Listpack ListpackRepr ListpackElem ListpackEdit ListpackValues Post Linked Quicklist QuicklistRepr QuicklistNodes QuicklistCompress QuicklistEdit QuicklistPush QuicklistPop QuicklistIter QuicklistSeek QuicklistSplit QuicklistMerge QuicklistInsert.

Module QuicklistReplace.
Import Listpack ListpackElem ListpackEdit ListpackValues ListpackRepr Post Quicklist Linked QuicklistRepr QuicklistNodes QuicklistCompress QuicklistEdit QuicklistPush QuicklistPop QuicklistIter QuicklistSeek QuicklistSplit QuicklistMerge QuicklistInsert.

(** No node is marked or must not be compressed, [a] apart. *)
Definition marks_but (a : address) (ns : nodes) : Prop := ∀ p, p ∈ ns → p.1 ≠ a → dont_compress p.2 = false ∧ recompress p.2 = false.

Lemma recodes_marks_but f a ns ns' : recodes f ns ns' → marks_but a ns → marks_but a ns'.
Proof.
  intros H Hm p Hp Hne. apply list_elem_of_lookup in Hp as [i Hi].
  destruct (Forall2_lookup_r _ _ _ _ _ H Hi) as (p0 & Hi0 & E1 & (_ & _ & _ & Ed) & Hr & _).
  apply list_elem_of_lookup_2 in Hi0. destruct (Hm _ Hi0) as [H1 H2]; [congruence|]. split; [congruence|].
  destruct (recompress p.2); [|done]. rewrite Hr in H2; done.
Qed.

(** A node that must not be compressed and is not stays as it is. *)
Lemma recodes_held f A a nd B ns' : recodes f (A ++ (a, nd) :: B) ns' → dont_compress nd = true → encoding nd = RAW →
  ∃ A' B', ns' = A' ++ (a, nd) :: B' ∧ recodes f A A' ∧ recodes f B B'.
Proof.
  intros H Hd Hr. destruct (recodes_split _ _ _ _ _ _ H) as (A' & nd' & B' & -> & HA & (_ & _ & _ & Hs) & HB). rewrite (Hs Hd Hr). by exists A', B'.
Qed.

Lemma marks_of_but a nd A B : marks_but a (A ++ (a, nd) :: B) → NoDup (A ++ (a, nd) :: B).*1 → dont_compress nd = false →
  marks_ok (Some a) (A ++ (a, nd) :: B) ∧ marks_ok None (A ++ B).
Proof.
  intros Hm Hn Hd. assert (∀ p, p ∈ A ++ B → p.1 ≠ a) as Hne.
  { intros p Hp E. apply nodup_middle in Hn as [Hn _]. apply Hn. rewrite <-E. by apply list_elem_of_fmap_2. }
  split.
  - intros p Hp. destruct (decide (p.1 = a)) as [E|E]; [|destruct (Hm p Hp E); auto]. split; [|by intros []; rewrite E].
    apply elem_of_app in Hp as [Hp|[->|Hp]%elem_of_cons]; [|done|]; destruct (Hne p) as []; rewrite ?elem_of_app; auto.
  - intros p Hp. assert (p ∈ A ++ (a, nd) :: B) as Hp' by (apply elem_of_app in Hp; rewrite elem_of_app, elem_of_cons; naive_solver).
    destruct (Hm p Hp' (Hne p Hp)). by split.
Qed.

Lemma strs_replace f j es v : fill_ok f → str_ok v → zlen v <= limit f → strs (<[j := encode_string v]> es) = <[j := v]> (strs es).
Proof. intros Hf Hv Hl. destruct (elem_fits f v Hf Hv Hl) as (_ & E & _). unfold strs. by rewrite list_fmap_insert, E. Qed.

Lemma nodup_split (A1 A2 : nodes) a n1 n2 B1 B2 : NoDup (A1 ++ (a, n1) :: B1).*1 → A1 ++ (a, n1) :: B1 = A2 ++ (a, n2) :: B2 → A1 = A2 ∧ n1 = n2 ∧ B1 = B2.
Proof.
  intros Hn E. pose proof Hn as [N1 _]%nodup_middle. rewrite E in Hn. apply nodup_middle in Hn as [N2 _]. rewrite fmap_app, not_elem_of_app in N1, N2.
  apply app_eq_inv in E as [(k & -> & E)|(k & -> & E)]; destruct k as [|[z nz] k]; simpl in E; rewrite ?app_nil_r; try (by injection E as -> ->); exfalso;
    injection E as <- _ E; [apply (proj1 N1)|apply (proj1 N2)]; rewrite fmap_app, elem_of_app; right; by left.
Qed.

Lemma slack_node d k A a nd B : NoDup (A ++ (a, nd) :: B).*1 → (recompress nd = true → (0 < d)%nat ∧ (d <= length A)%nat ∧ (d + k <= length B)%nat) →
  slack_ok d k (Some a) (A ++ (a, nd) :: B).
Proof. intros Hn H A' u n' B' [= <-] E Er. destruct (nodup_split _ _ _ _ _ _ _ Hn E) as (<- & <- & <-). auto. Qed.

Section Replace.
Context (junk : Z) (Hjunk : is_byte junk) (in_data : heap → Z) (htab0 : heap → Z → Z) (zmalloc : heap → address).
Context (Hin : ∀ h, Lzf.MAX_OFF <= in_data h ∧ in_data h + INT32_MAX < 2 ^ 64) (Htab : ∀ h i, 0 <= htab0 h i < 2 ^ 64).
Context (Hmalloc : ∀ h, h !! zmalloc h = None).
Abbreviation compressAt := (quicklistCompress junk in_data htab0).
Abbreviation insertNode := (__quicklistInsertNode junk in_data htab0).
Abbreviation delNode := (__quicklistDelNode junk in_data htab0).

(** Compressing keeps the node in use, if it is another one. *)
Lemma compress_keep h0 h q A a nd B vss use : qinv h0 h q (A ++ (a, nd) :: B) vss use →
  post (compressAt h q a) (λ h', ∃ ns', qinv h0 h' q ns' vss use ∧ recodes (fill q) (A ++ (a, nd) :: B) ns').
Proof using Hin Htab.
  intros [Ho H Hr Hc Hd Hm]. eapply post_mono; [apply (compress_at_spec junk in_data htab0 (fill q) Hin Htab h0 h q A a nd B vss (depth q) H Hr Hd); by apply depth_eq|].
  intros h' (ns' & H' & Hrec & Hd' & _). exists ns'. split; [|done]. constructor; try done; [by eapply recodes_reads|by eapply recodes_counts_ok|by eapply recodes_marks].
Qed.

(** The elements after a replacement. *)
Definition replaced h0 q (l : list (list Z)) (d : Z) (r : heap * quicklist) : Prop :=
  let '(h', q') := r in ∃ ns' vss', qinv h0 h' q' ns' vss' None ∧ same_options q q' ∧ ql_count q' = ql_count q + d ∧ mjoin vss' = l.

(** The entry and the size of the node change, then it may be compressed. *)
Lemma rewrite_spec h0 h q A a nd B VA vs VB b s vs' : qinv h0 h q (A ++ (a, nd) :: B) (VA ++ vs :: VB) (Some a) → length VA = length A →
  content (fill q) (set_sz s (set_entry (Bytes b) nd)) vs' → length vs' = length vs →
  ∀ h1, holds h0 h1 q (A ++ (a, set_sz s (set_entry (Bytes b) nd)) :: B) →
  post (h ← compressAt h1 q a; Some (h, q)) (replaced h0 q (mjoin VA ++ vs' ++ mjoin VB) 0).
Proof using Hin Htab.
  intros Hq El Hct Hlen h1 H1. destruct (node_facts _ _ _ _ _ _ _ _ _ _ _ Hq El) as (_ & Hn & Hdc).
  assert (qinv h0 h1 q (A ++ (a, set_sz s (set_entry (Bytes b) nd)) :: B) (VA ++ vs' :: VB) (Some a)) as Hq1.
  { eapply qinv_replace; [exact Hq|done|done|done|simpl; rewrite Hn; unfold zlen; by rewrite Hlen|done|done|done]. }
  call (release_spec junk in_data htab0 Hin Htab h0 h1 q A a _ B _ _ Hq1 (or_intror eq_refl)). intros h2 (ns2 & Hq2 & _).
  eexists _, _. split; [exact Hq2|]. split; [done|]. split; [lia|apply join_middle].
Qed.

(** The last element of a packed node, which is not the only one. *)
Lemma del_last_spec h0 h q A a nd B b es : holds h0 h q (A ++ (a, nd) :: B) → entry nd = Bytes b → container nd = PACKED → packed (fill q) b es →
  count nd = zlen es → (1 < length es)%nat →
  post (p ← lpSeek b (-1); quicklistDelIndex junk in_data htab0 h q a p) (λ '(h', q', _, _), ∃ nd',
    holds h0 h' q (A ++ (a, nd') :: B) ∧ refilled (fill q) nd nd' (take (length es - 1) es) ∧ q' = set_ql_count q (ql_count q - 1)).
Proof.
  intros H Ee Ec Hpk Hn Hlen. assert (zlen es = Z.of_nat (length es)) as Ezl by done. next_is (packed_seek _ _ _ (-1) Hpk). rewrite seek_ptr_z. simpl.
  rewrite (proj2 (Z.ltb_ge _ _)) by lia. replace (Z.to_nat (zlen es + -1)) with (length es - 1)%nat by lia. rewrite ptr_lt by lia. set (j := (length es - 1)%nat).
  unfold quicklistDelIndex. next_is (holds_node _ _ _ _ _ _ _ H). destruct (plain_cases nd) as [[? _]|[_ ->]]; [congruence|]. cbn [mbind option_bind].
  assert (raw nd = Some b) as Eb by (unfold raw; by rewrite Ee). rewrite Eb. cbn [mbind option_bind].
  destruct (packed_delete junk (fill q) b es j Hpk) as (b' & Eb' & Hpk'); [lia|]. rewrite Eb'. cbn [mjoin option_join mbind option_bind].
  call (update_holds _ _ _ _ _ _ _ (set_entry (Bytes b')) H). intros h1 H1.
  unfold count_add. call (update_holds _ _ _ _ _ _ _ (λ n, set_count (count n + (-1)) n) H1). intros h2 H2.
  next_is (holds_node _ _ _ _ _ _ _ H2). simpl count. pose proof (cap_range (fill q)). pose proof (pk_count _ _ _ Hpk).
  assert (uwrap 16 (count nd + -1) = zlen es - 1) as Eu by (rewrite Hn; apply uwrap_id; lia). rewrite Eu, (proj2 (Z.eqb_neq _ _)) by lia.
  call (update_sz_linked (fill q) _ _ _ _ _ _ _ b' _ H2 eq_refl Hpk'). intros h3 Hh3. eexists. split; [exact Hh3|]. split; [|done].
  assert (delete j es = take j es) as Edel by (rewrite delete_take_drop, (drop_ge es) by lia; apply app_nil_r). rewrite Edel in *.
  constructor; try done; [by exists b'|]. simpl. rewrite Eu. unfold zlen. rewrite length_take. lia.
Qed.
(** ** Replacing by splitting *)

(** The invariant while node [a] must not be compressed. *)
Record hinv (h0 h : heap) (q : quicklist) (ns : nodes) (vss : list (list (list Z))) (a : address) : Prop := {
  hi_options : options_ok q;
  hi_holds : holds h0 h q ns;
  hi_reads : reads (fill q) ns vss;
  hi_counts : counts_ok ns vss;
  hi_depth : depth_ok (depth q) ns;
  hi_marks : marks_but a ns
}.

Lemma insert_held h0 h q A B VA VB x nx vx a old after : hinv (<[x := mkLinked None None nx]> h0) h q (A ++ B) (VA ++ VB) a → h0 !! x = None →
  length VA = length A → content (fill q) nx vx → count nx = zlen vx → settled nx → dont_compress nx = false → place_ok A B old after →
  post (insertNode h q old x after) (λ '(h', q'), ∃ ns', hinv h0 h' q' ns' (VA ++ vx :: VB) a ∧ recodes (fill q) (A ++ (x, nx) :: B) ns' ∧
    same_options q q' ∧ ql_count q' = ql_count q).
Proof using Hin Htab.
  intros [Ho H Hr Hc Hd Hm] E0 El Hct Hn Hs Hdc Hp.
  assert (reads (fill q) (A ++ (x, nx) :: B) (VA ++ vx :: VB)) as Hr1 by (apply Forall2_app_inv in Hr as [? ?]; [|done]; apply Forall2_app; [done|]; by constructor).
  assert (counts_ok (A ++ (x, nx) :: B) (VA ++ vx :: VB)) as Hc1 by (apply Forall2_app_inv in Hc as [? ?]; [|done]; apply Forall2_app; [done|]; by constructor).
  assert (marks_but a (A ++ (x, nx) :: B)) as Hm1.
  { intros p Hp' Hne. apply elem_of_app in Hp' as [Hp'|[->|Hp']%elem_of_cons]; [|split; [done|apply Hs]|]; apply Hm; rewrite ?elem_of_app; auto. }
  eapply post_mono; [by apply (insert_node_spec junk in_data htab0 Hin Htab h0 h q A B x nx _ old after Ho H E0 Hr1 Hs Hd Hp)|].
  intros [h' q'] (ns' & H' & Hrec & Hd' & Hso & Hcnt & _). exists ns'. split; [|done]. destruct (same_options_ok _ _ Hso Ho) as (Ho' & Ed' & Ef').
  constructor; rewrite ?Ed', ?Ef'; try done; [by eapply recodes_reads|by eapply recodes_counts_ok|by eapply recodes_marks_but].
Qed.

(** The node to shorten, then the new one. *)
Definition split_ok h0 q (A : nodes) a (nd : quicklistNode) (B : nodes) VA (vs : list (list Z)) VB j v h' q' y : Prop :=
  ∃ A' nd' ny R VR, hinv h0 h' q' (A' ++ (a, nd') :: (y, ny) :: R) (VA ++ take (S j) vs :: [v] :: VR) a ∧ length A' = length A ∧ (length B <= length R)%nat ∧
    mjoin VR = drop (S j) vs ++ mjoin VB ∧ recompress nd' = recompress nd ∧ dont_compress nd' = true ∧ encoding nd' = RAW ∧ container nd' = PACKED ∧
    container ny = PLAIN ∧ same_options q q' ∧ ql_count q' = ql_count q.

Lemma hold_spec h0 h q A a nd B VA vs VB : qinv h0 h q (A ++ (a, nd) :: B) (VA ++ vs :: VB) (Some a) → length VA = length A → encoding nd = RAW →
  post (update h a (set_dont_compress true)) (λ h', hinv h0 h' q (A ++ (a, set_dont_compress true nd) :: B) (VA ++ vs :: VB) a).
Proof.
  intros [Ho H Hr Hc Hd Hm] El Er. eapply post_mono; [by apply update_holds|]. intros h1 H1. constructor; try done.
  - apply Forall2_app_inv in Hr as [? Hr]; [|done]. inversion Hr as [|? ? ? ? (b & [E1 E2|? E1 _ _ _ _ _] & Hp) ?]; subst; [|simpl in *; congruence].
    apply Forall2_app; [done|]. constructor; [|done]. exists b. split; [by left|done].
  - apply Forall2_app_inv in Hc as [? Hc]; [|done]. inversion Hc; subst. apply Forall2_app; [done|]. by constructor.
  - by eapply depth_ok_replace.
  - intros p Hp Hne. assert (p ∈ A ++ (a, nd) :: B) as Hp'.
    { apply elem_of_app in Hp as [Hp|[->|Hp]%elem_of_cons]; [|done|]; rewrite elem_of_app, elem_of_cons; auto. }
    destruct (Hm p Hp') as [H2 H3]. split; [done|]. apply H3. congruence.
Qed.

Lemma hinv_replace h0 h h0' h' q A a nd nd' B VA vs vs' VB : hinv h0 h q (A ++ (a, nd) :: B) (VA ++ vs :: VB) a → length VA = length A →
  holds h0' h' q (A ++ (a, nd') :: B) → content (fill q) nd' vs' → count nd' = zlen vs' → (settled nd → settled nd') →
  hinv h0' h' q (A ++ (a, nd') :: B) (VA ++ vs' :: VB) a.
Proof.
  intros [Ho H Hr Hc Hd Hm] El H' Hct Hn Hs. constructor; try done.
  - apply Forall2_app_inv in Hr as [? Hr]; [|done]. inversion Hr; subst. apply Forall2_app; [done|]. by constructor.
  - apply Forall2_app_inv in Hc as [? Hc]; [|done]. inversion Hc; subst. apply Forall2_app; [done|]. by constructor.
  - by eapply depth_ok_replace.
  - intros p Hp Hne. apply Hm; [|done]. apply elem_of_app in Hp as [Hp|[->|Hp]%elem_of_cons]; [|done|]; rewrite elem_of_app, elem_of_cons; auto.
Qed.
(** A plain node after [a]. *)
Lemma put_plain h0 h q A a nd B VA w VB v : hinv h0 h q (A ++ (a, nd) :: B) (VA ++ w :: VB) a → length VA = length A → dont_compress nd = true → encoding nd = RAW → str_ok v →
  post ('(h, y) ← __quicklistCreateNode junk zmalloc h PLAIN v; '(h, q) ← insertNode h q (Some a) y true; Some (h, q, y)) (λ '(h', q', y), ∃ A' ny B',
    hinv h0 h' q' (A' ++ (a, nd) :: (y, ny) :: B') (VA ++ w :: [v] :: VB) a ∧ length A' = length A ∧ length B' = length B ∧ container ny = PLAIN ∧
    same_options q q' ∧ ql_count q' = ql_count q).
Proof using Hin Htab Hmalloc.
  intros Hi El Hd Er Hv. call (create_plain_spec junk zmalloc Hmalloc (fill q) _ _ _ _ v Hv (hi_holds _ _ _ _ _ _ Hi)).
  intros [h1 y] (ny & H1 & E0 & Hct & Hn & Hs & Hdy & Ec).
  assert (hinv (<[y := mkLinked None None ny]> h0) h1 q ((A ++ [(a, nd)]) ++ B) ((VA ++ [w]) ++ VB) a) as Hi1 by (rewrite <-!app_assoc; by destruct Hi).
  call (insert_held h0 h1 q (A ++ [(a, nd)]) B (VA ++ [w]) VB y ny [v] a (Some a) true Hi1 E0); try done.
  - rewrite !length_app. simpl. lia.
  - split; [by rewrite last_of_snoc|by destruct A].
  - intros [h2 q2] (ns' & Hi2 & Hrec & Hso & Hcnt). rewrite <-!app_assoc in *. simpl in Hrec, Hi2.
    destruct (recodes_held _ _ _ _ _ _ Hrec Hd Er) as (A' & R & -> & HA & HR). inversion HR as [|? [y' ny'] ? B' [Ey Hry] HB]; subst. simpl in Ey. subst y'.
    exists A', ny', B'. split; [done|]. split; [by eapply recodes_length|]. split; [by eapply recodes_length|]. split; [|done]. destruct Hry as ((_ & _ & E & _) & _). simpl in E. congruence.
Qed.

Lemma split_off_spec h0 h q A a nd B VA vs VB j v0 v off : hinv h0 h q (A ++ (a, nd) :: B) (VA ++ vs :: VB) a → length VA = length A → dont_compress nd = true →
  encoding nd = RAW → container nd = PACKED → content (fill q) nd vs → count nd = zlen vs → vs !! j = Some v0 → norm (zlen vs) off = Z.of_nat j → str_ok v →
  post ('(h, split_node) ← (if negb (off =? count nd - 1) && negb (off =? -1)
                            then '(h, s) ← _quicklistSplitNode junk zmalloc h a off true; Some (h, Some s)
                            else Some (h, None));
        '(h, new_node) ← __quicklistCreateNode junk zmalloc h PLAIN v;
        '(h, q) ← insertNode h q (Some a) new_node true;
        '(h, q) ← match split_node with
                  | Some s => insertNode h q (Some new_node) s true
                  | None => Some (h, q)
                  end;
        Some (h, q, new_node)) (λ '(h', q', y), split_ok h0 q A a nd B VA vs VB j v h' q' y).
Proof using Hin Htab Hmalloc.
  intros Hi El Hd Er Ec Hct Hn Hv0 Hoff Hv. pose proof (lookup_lt_Some _ _ _ Hv0) as Hj. destruct (at_end_spec (zlen vs) off j Hoff ltac:(unfold zlen; lia)) as [Eend _].
  rewrite <-negb_orb, Hn, Eend. case_bool_decide as Ej; cbn [negb].
  - assert (S j = length vs) as Ej' by (unfold zlen in *; lia). apply post_bind. cbn [post].
    pose proof (put_plain h0 h q A a nd B VA vs VB v Hi El Hd Er Hv) as Hp. destruct (__quicklistCreateNode _ _ h PLAIN v) as [[h1 y]|]; [|done]. cbn [mbind option_bind] in Hp |- *.
    destruct (insertNode h1 q (Some a) y true) as [[h2 q2]|]; [|done]. cbn [mbind option_bind post] in *.
    destruct Hp as (A' & ny & B' & Hi2 & EA & EB & Ecy & Hso & Hcnt). exists A', nd, ny, B', VB. rewrite Ej', firstn_all, drop_all. split_and!; try done. lia.
  - assert (S j < length vs)%nat as Hlt by (unfold zlen in *; lia).
    apply post_bind. call (split_spec junk zmalloc Hmalloc h0 h q A a nd B vs j off true (hi_holds _ _ _ _ _ _ Hi) Hct Hn Er Ec Hoff ltac:(simpl; lia)).
    intros [h1 x] (nd1 & nx & H1 & E0 & Hct1 & Hn1 & Er1 & Ec1 & Erc1 & Ed1 & Hctx & Hnx & Hsx & Ecx & Hdx). cbn [post].
    assert (hinv (<[x := mkLinked None None nx]> h0) h1 q (A ++ (a, nd1) :: B) (VA ++ take (S j) vs :: VB) a) as Hi1.
    { eapply hinv_replace; [exact Hi|done|exact H1|done|done|]. intros [? ?]. split; congruence. }
    assert (dont_compress nd1 = true) as Hd1 by congruence.
    pose proof (put_plain _ h1 q A a nd1 B VA _ VB v Hi1 El Hd1 Er1 Hv) as Hp. destruct (__quicklistCreateNode _ _ h1 PLAIN v) as [[h2 y]|]; [|done]. cbn [mbind option_bind] in Hp |- *.
    destruct (insertNode h2 q (Some a) y true) as [[h3 q3]|]; [|done]. cbn [mbind option_bind post] in Hp |- *.
    destruct Hp as (A' & ny & B' & Hi3 & EA & EB & Ecy & Hso & Hcnt). assert (fill q3 = fill q) as Ef by apply Hso.
    assert (hinv (<[x := mkLinked None None nx]> h0) h3 q3 ((A' ++ [(a, nd1); (y, ny)]) ++ B') ((VA ++ [take (S j) vs; [v]]) ++ VB) a) as Hi3' by (by rewrite <-!app_assoc).
    call (insert_held h0 h3 q3 (A' ++ [(a, nd1); (y, ny)]) B' (VA ++ [take (S j) vs; [v]]) VB x nx (drop (S j) vs) a (Some y) true Hi3' E0); try done.
    + rewrite !length_app. simpl. lia.
    + by rewrite Ef.
    + split; [by rewrite (app_assoc A' [(a, nd1)] [(y, ny)] : A' ++ [(a, nd1); (y, ny)] = _), last_of_snoc|by destruct A'].
    + intros [h4 q4] (ns' & Hi4 & Hrec & Hso4 & Hc4). rewrite <-!app_assoc in *. simpl in Hrec, Hi4.
      destruct (recodes_held _ _ _ _ _ _ Hrec Hd1 Er1) as (A4 & R & -> & HA & HR). inversion HR as [|? [y' ny'] ? B4 [Ey Hry] HB]; subst. simpl in Ey. subst y'.
      exists A4, nd1, ny', B4, (drop (S j) vs :: VB). apply recodes_length in HA. apply recodes_length in HB. simpl in HB. split_and!; try done; try congruence; [lia| |by eapply same_options_trans..].
      destruct Hry as ((_ & _ & E & _) & _). simpl in E. congruence.
Qed.
Lemma marked_slack h0 h q A a nd B vss use : qinv h0 h q (A ++ (a, nd) :: B) vss use → recompress nd = true →
  (0 < depth q)%nat ∧ (depth q <= length A)%nat ∧ (depth q <= length B)%nat.
Proof.
  intros Hq Hr. destruct (marked_interior _ _ _ _ _ (qi_depth _ _ _ _ _ _ Hq) Hr) as (_ & _ & Hd). rewrite length_app in Hd. simpl in Hd. unfold in_depth in Hd. lia.
Qed.

(** After the nodes are merged, those around the new one are compressed. *)
Lemma compress_around h0 h q A y ny B VA v VB use l : qinv h0 h q (A ++ (y, ny) :: B) (VA ++ [v] :: VB) use → length VA = length A → A ≠ [] →
  use = None ∨ use = last_of None A → mjoin (VA ++ [v] :: VB) = l →
  post (h ← compressAt h q y;
        nprev ← prev_of h y;
        nprev ← nprev;
        h ← compressAt h q nprev;
        nnext ← next_of h y;
        h ← match nnext with Some a => compressAt h q a | None => Some h end;
        Some (h, q)) (replaced h0 q l 0).
Proof using Hin Htab.
  intros Hq El HA Hu Ej. call (compress_keep h0 h q A y ny B _ use Hq). intros h1 (ns1 & Hq1 & Hrec). destruct (recodes_split _ _ _ _ _ _ Hrec) as (A1 & ny1 & B1 & -> & HA1 & _ & _).
  next_is (holds_prev _ _ _ _ _ _ _ (qi_holds _ _ _ _ _ _ Hq1)). rewrite (last_of_keys A A1) by (by eapply recodes_keys).
  apply recodes_keys in HA1. destruct A1 as [|[p np] A1 _] using rev_ind; [by destruct A|]. destruct A as [|[p' np'] A _] using rev_ind; [by destruct A1|].
  rewrite last_of_snoc in *. rewrite !fmap_app in HA1. apply app_inj_tail in HA1 as [_ Ep]. simpl in Ep. subst p'. apply post_bind. cbn [post].
  rewrite <-app_assoc in Hq1. simpl in Hq1. assert (use = None ∨ use = Some p) as Hu' by naive_solver.
  call (release_spec junk in_data htab0 Hin Htab h0 h1 q A1 p np _ _ use Hq1 Hu'). intros h2 (ns2 & Hq2 & Hrec2).
  rewrite snoc_cons in Hrec2. destruct (recodes_split _ _ _ _ _ _ Hrec2) as (A2 & ny2 & B2 & -> & _ & _ & _).
  next_is (holds_next _ _ _ _ _ _ _ (qi_holds _ _ _ _ _ _ Hq2)). destruct B2 as [|[b nb] B2]; simpl.
  - eexists _, _. split; [exact Hq2|]. split; [done|]. split; [lia|done].
  - rewrite snoc_cons in Hq2. call (compress_keep h0 h2 q _ b nb B2 _ None Hq2). intros h3 (ns3 & Hq3 & _). eexists _, _. split; [exact Hq3|]. split; [done|]. split; [lia|done].
Qed.

Lemma del_held h0 h q A a nd B VA vs VB : hinv h0 h q (A ++ (a, nd) :: B) (VA ++ vs :: VB) a → length VA = length A →
  post (delNode h q a) (λ '(h', q'), ∃ ns', qinv h0 h' q' ns' (VA ++ VB) None ∧ same_options q q' ∧ ql_count q' = ql_count q - zlen vs).
Proof using Hin Htab.
  intros [Ho H Hr Hc Hd Hm] El. rewrite <-(count_of _ _ _ _ _ _ _ El Hc).
  assert (marks_ok None (A ++ B)) as Hm'.
  { pose proof (hold_nodup _ _ _ _ H) as [Hn _]%nodup_middle. intros p Hp. destruct (Hm p) as [? ?]; [| |by split].
    - apply elem_of_app in Hp. rewrite elem_of_app, elem_of_cons. tauto.
    - intros <-. apply Hn. by apply list_elem_of_fmap_2. }
  eapply post_mono; [apply (del_inv junk in_data htab0 Hin Htab h0 h q A B a nd (VA ++ VB) None Ho H)|]; try done.
  - by eapply reads_delete.
  - by eapply counts_delete.
  - intros i p Hi _. apply list_elem_of_lookup_2 in Hi. by apply (Hm' p Hi).
  - intros [h3 q3] (ns3 & ? & _ & ? & ?). by exists ns3.
Qed.

Lemma split_rest_spec h0 h q A a nd B VA vs VB j v v0 h1 q1 y : qinv h0 h q (A ++ (a, nd) :: B) (VA ++ vs :: VB) (Some a) → length VA = length A → vs !! j = Some v0 →
  split_ok h0 q A a nd B VA vs VB j v h1 q1 y →
  post (let q := set_ql_count q1 (ql_count q1 + 1) in
        n ← node_at h1 a;
        if count n =? 1 then delNode h1 q a
        else
          b ← raw n; p ← lpSeek b (-1);
          '(h, q, _, _) ← quicklistDelIndex junk in_data htab0 h1 q a p;
          h ← update h a (set_dont_compress false);
          '(h, q, new_node) ← _quicklistMergeNodes junk in_data htab0 h q y;
          h ← compressAt h q new_node;
          nprev ← prev_of h new_node;
          nprev ← nprev;
          h ← compressAt h q nprev;
          nnext ← next_of h new_node;
          h ← match nnext with Some a => compressAt h q a | None => Some h end;
          Some (h, q)) (replaced h0 q (mjoin VA ++ (take j vs ++ v :: drop (S j) vs) ++ mjoin VB) 0).
Proof using Hin Htab.
  intros Hq El Hv0 (A1 & n1 & ny & R & VR & Hi & EA & EB & EVR & Erc & Ed & Er & Ec & Ecy & Hso & Hcnt). cbv zeta. pose proof (lookup_lt_Some _ _ _ Hv0) as Hj.
  set (q2 := set_ql_count q1 (ql_count q1 + 1)). assert (hinv h0 h1 q2 (A1 ++ (a, n1) :: (y, ny) :: R) (VA ++ take (S j) vs :: [v] :: VR) a) as Hi2.
  { destruct Hi. constructor; try done. by apply (holds_header _ _ q1). }
  assert (same_options q q2) as Hso2 by done. assert (ql_count q2 = ql_count q + 1) as Hc2 by (simpl; lia). clearbody q2. clear Hi Hso Hcnt q1.
  pose proof Hi2 as [Ho H Hr Hc Hd Hm]. assert (length VA = length A1) as El1 by congruence. destruct (same_options_ok _ _ Hso2 (qi_options _ _ _ _ _ _ Hq)) as (_ & Edep & Ef).
  next_is (holds_node _ _ _ _ _ _ _ H). rewrite (count_of _ _ _ _ _ _ _ El1 Hc), zlen_take.
  set (l := mjoin VA ++ _). assert (mjoin VA ++ take j vs ++ v :: mjoin VR = l) as Ejoin by (unfold l; rewrite EVR; by rewrite <-!app_assoc).
  destruct (_ =? 1) eqn:E1; zb.
  - assert (j = 0%nat) as -> by (unfold zlen in *; lia). eapply post_mono; [by apply (del_held h0 h1 q2 A1 a n1 _ VA _ _ Hi2 El1)|].
    intros [h3 q3] (ns3 & Hq3 & Hso3 & Hc3). eexists _, _. split; [exact Hq3|]. split; [by eapply same_options_trans|].
    rewrite zlen_take in Hc3. split; [unfold zlen in *; lia|]. rewrite join_app. exact Ejoin.
  - assert (0 < j)%nat as Hj0 by (unfold zlen in *; lia). assert (content (fill q2) n1 (take (S j) vs)) as Hct by (apply Forall2_app_inv in Hr as [_ Hr]; [by inversion Hr|done]).
    destruct (packed_node _ _ _ Hct Er Ec) as (b & es & Ee & Eb & Hpk & _ & _ & Ev & Elen). rewrite length_take in Elen. next_is Eb.
    call2 (del_last_spec h0 h1 q2 A1 a n1 _ b es H Ee Ec Hpk); [by rewrite (count_of _ _ _ _ _ _ _ El1 Hc), Ev, strs_zlen|lia|].
    intros [[[h3 q3] d3] p3] (n3 & H3 & Hrf & ->). call (update_holds _ _ _ _ _ _ _ (set_dont_compress false) H3). intros h4 H4.
    assert (strs (take (length es - 1) es) = take j vs) as Es by (rewrite strs_take, <-Ev, take_take; f_equal; lia).
    pose proof (refilled_content _ _ _ _ Hrf Er Ec) as Hct3. rewrite Es in Hct3.
    specialize (Hct3 ltac:(intros E; apply (f_equal length) in E; rewrite length_take in E; simpl in E; lia)).
    destruct Hrf as [F1 F2 F3 F4 _ _ F5]. set (n4 := set_dont_compress false n3) in *. assert (content (fill q2) n4 (take j vs)) as Hct4.
    { destruct Hct3 as (b4 & [? ?|? E _ _ _ _ _] & Hp4); [|congruence]. exists b4. split; [by left|done]. }
    set (q4 := set_ql_count q2 (ql_count q2 - 1)) in *. pose proof H4 as H4'.
    pose proof (hinv_replace h0 h1 h0 h4 q2 A1 a n1 n4 _ VA _ (take j vs) _ Hi2 El1 H4' Hct4) as Hi4.
    assert (hinv h0 h4 q2 (A1 ++ (a, n4) :: (y, ny) :: R) (VA ++ take j vs :: [v] :: VR) a) as [_ _ Hr4 Hc4 Hd4 Hm4].
    { apply Hi4; [simpl; rewrite F5, <-strs_zlen; by rewrite Es|]. intros [? ?]. split; simpl; congruence. }
    destruct (marks_of_but a n4 A1 _ Hm4 (hold_nodup _ _ _ _ H4') eq_refl) as [Hm5 _].
    assert (qinv h0 h4 q4 ((A1 ++ [(a, n4)]) ++ (y, ny) :: R) ((VA ++ [take j vs]) ++ [v] :: VR) (Some a)) as Hq4 by (apply qinv_set_count; rewrite <-!app_assoc; by constructor).
    call (merge_nodes_spec junk in_data htab0 Hin Htab h0 h4 q4 (A1 ++ [(a, n4)]) y ny R (VA ++ [take j vs]) [v] VR (Some a) Hq4); [rewrite !length_app; simpl; lia| |].
    { right. split; [by rewrite last_of_snoc|]. split; [done|]. rewrite <-app_assoc. apply slack_node; [apply (hold_nodup _ _ _ _ H4)|]. intros Emk.
      destruct (marked_slack _ _ _ _ _ _ _ _ _ Hq) as (S1 & S2 & S3); [simpl in Emk; congruence|]. change (depth q4) with (depth q2). rewrite Edep. simpl. lia. }
    intros [[h5 q5] t] (Hso5 & Hc5 & A5 & nt & B5 & VA5 & vt & VB5 & use5 & Hq5 & El5 & Ej5 & _ & Hu5 & Hplain). destruct (Hplain Ecy) as (-> & -> & EVA).
    assert (A5 ≠ []) as HA5.
    { intros ->. destruct VA5; [|done]. rewrite join_app in EVA. simpl in EVA. rewrite app_nil_r in EVA. apply (f_equal length) in EVA. rewrite length_app, length_take in EVA. simpl in EVA. lia. }
    eapply post_mono; [apply (compress_around h0 h5 q5 A5 y nt B5 VA5 v VB5 use5 l Hq5 El5 HA5 Hu5)|].
    + rewrite Ej5, <-app_assoc, join_app. simpl. by rewrite <-Ejoin.
    + intros [h6 q6] (ns6 & vss6 & ? & ? & ? & ?). eexists _, _. split; [done|]. split; [do 2 (eapply same_options_trans; [eassumption|]); done|]. split; [simpl in Hc5; lia|done].
Qed.
Lemma replace_split_spec h0 h q A a nd B VA vs VB j v0 v e : qinv h0 h q (A ++ (a, nd) :: B) (VA ++ vs :: VB) (Some a) → length VA = length A →
  encoding nd = RAW → container nd = PACKED → vs !! j = Some v0 → norm (zlen vs) (e_offset e) = Z.of_nat j → str_ok v →
  post (replace_split junk in_data htab0 zmalloc h q a e v true) (replaced h0 q (mjoin VA ++ (take j vs ++ v :: drop (S j) vs) ++ mjoin VB) 0).
Proof using Hin Htab Hmalloc Hjunk.
  intros Hq El Er Ec Hv0 Hoff Hv. destruct (node_facts _ _ _ _ _ _ _ _ _ _ _ Hq El) as (Hct & Hn & _). unfold replace_split.
  call (hold_spec h0 h q A a nd B VA vs VB Hq El Er). intros h1 Hi. next_is (holds_node _ _ _ _ _ _ _ (hi_holds _ _ _ _ _ _ Hi)).
  assert (content (fill q) (set_dont_compress true nd) vs) as Hct' by (pose proof (hi_reads _ _ _ _ _ _ Hi) as Hr; apply Forall2_app_inv in Hr as [_ Hr]; [by inversion Hr|done]).
  pose proof (split_off_spec h0 h1 q A a _ B VA vs VB j v0 v (e_offset e) Hi El eq_refl Er Ec Hct' Hn Hv0 Hoff Hv) as Hs.
  destruct (if negb (e_offset e =? count (set_dont_compress true nd) - 1) && negb (e_offset e =? -1) then _ else _) as [[h2 s]|]; [|done]. cbn [mbind option_bind] in Hs |- *.
  destruct (__quicklistCreateNode _ _ h2 PLAIN v) as [[h3 y]|]; [|done]. cbn [mbind option_bind] in Hs |- *.
  destruct (insertNode h3 q (Some a) y true) as [[h4 q4]|]; [|done]. cbn [mbind option_bind] in Hs |- *.
  destruct (match s with Some s => insertNode h4 q4 (Some y) s true | None => Some (h4, q4) end) as [[h5 q5]|]; [|done]. cbn [mbind option_bind post] in Hs |- *.
  exact (split_rest_spec h0 h q A a nd B VA vs VB j v v0 h5 q5 y Hq El Hv0 Hs).
Qed.

Lemma replace_in_place_spec f nd vs j v0 v e (large : bool) : fill_ok f → content f nd vs → encoding nd = RAW → vs !! j = Some v0 → points f nd j (e_zi e) →
  str_ok v → large = (limit f <? zlen v) →
  ∃ r, replace_in_place junk nd e v large = Some r ∧
    match r with
    | Some b => container nd = PACKED ∧ ∃ es, packed f b es ∧ es ≠ [] ∧ strs es = <[j := v]> vs
    | None => container nd = PLAIN ∨ limit f < zlen v
    end.
Proof.
  intros Hf Hct Er Hv0 Hpt Hv ->. unfold replace_in_place. destruct (plain_cases nd) as [[Ec ->]|[Ec ->]]; [exists None; auto|]. cbn [negb andb].
  destruct (limit f <? zlen v) eqn:Hl; zb; cbn [negb]; [exists None; auto|].
  destruct (packed_node _ _ _ Hct Er Ec) as (b & es & Ee & Eb & Hpk & Hne & _ & -> & Elen). rewrite Eb. cbn [mbind option_bind].
  pose proof (lookup_lt_Some _ _ _ Hv0) as Hj. rewrite (Hpt Ec b es Ee Hpk), ptr_lt by lia. cbn [mbind option_bind].
  destruct (packed_replace junk f Hf b es j v Hpk ltac:(lia) Hv Hl) as (b' & p & -> & Hpk'). cbn [mbind option_bind]. exists (Some b'). split; [done|]. split; [done|].
  exists (<[j := encode_string v]> es). split; [done|]. split; [intros E; apply (f_equal length) in E; rewrite length_insert in E; by destruct es|by apply (strs_replace f)].
Qed.

(** [quicklistReplaceEntry] on the element an iterator is on. *)
Lemma replace_entry_spec h0 h q ns vss it e A a nd B VA vs VB j v0 v : qlist h0 h q ns vss (Some a) → reading (fill q) ns vss it e A a nd B VA vs VB j v0 → str_ok v →
  post (quicklistReplaceEntry 0 junk in_data htab0 zmalloc h q it e v) (λ '(h', q', it'), ∃ ns' vss', qlist h0 h' q' ns' vss' None ∧ same_options q q' ∧
    mjoin vss' = (mjoin VA ++ take j vs) ++ v :: (drop (S j) vs ++ mjoin VB) ∧ current it' = None).
Proof using Hjunk Hin Htab Hmalloc.
  intros [Hq Hcnt] Hrd Hv. pose proof (reading_post _ _ _ _ _ _ _ _ _ _ _ _ _ _ Hrd) as Hpt. pose proof (reading_join _ _ _ _ _ _ _ _ _ _ _ _ _ _ Hrd) as Ejoin.
  pose proof Hrd as []. pose proof (qi_holds _ _ _ _ _ _ Hq) as H. rewrite rd_nodes0 in Hq, H. rewrite rd_values0 in Hq. destruct (qi_options _ _ _ _ _ _ Hq) as [Hf _].
  destruct (node_facts _ _ _ _ _ _ _ _ _ _ _ Hq rd_len0) as (Hct & Hn & _). pose proof (lookup_lt_Some _ _ _ rd_elem0) as Hj.
  set (l := mjoin VA ++ (take j vs ++ v :: drop (S j) vs) ++ mjoin VB).
  assert (l = (mjoin VA ++ take j vs) ++ v :: (drop (S j) vs ++ mjoin VB)) as El by (unfold l; by rewrite <-!app_assoc).
  assert (zlen l = ql_count q) as Elen by (rewrite Hcnt, Ejoin, El, !zlen_app, !zlen_cons; lia).
  assert (<[j := v]> vs = take j vs ++ v :: drop (S j) vs) as Eins by (by apply insert_take_drop).
  unfold quicklistReplaceEntry. next_is rd_e_node0. next_is (holds_node _ _ _ _ _ _ _ H). next_is (large_spec (fill q) (zlen v) Hf).
  destruct (replace_in_place_spec (fill q) nd vs j v0 v e _ Hf Hct rd_raw0 rd_elem0 Hpt Hv eq_refl) as (r & Er & Hr). next_is Er.
  assert (∀ m, post m (replaced h0 q l 0) → post ('(h, q) ← m; Some (h, q, resetIterator it)) (λ '(h', q', it'), ∃ ns' vss', qlist h0 h' q' ns' vss' None ∧ same_options q q' ∧
    mjoin vss' = (mjoin VA ++ take j vs) ++ v :: (drop (S j) vs ++ mjoin VB) ∧ current it' = None)) as Hdone.
  { intros m Hm. call Hm. intros [h' q'] (ns' & vss' & Hq' & Hso & Hc & Ej). exists ns', vss'. split; [split; [done|]|]; [rewrite Ej; lia|]. split; [done|]. by rewrite Ej. }
  apply Hdone. clear Hdone. destruct r as [b|].
  - destruct Hr as [Ec (es & Hpk & Hne & Es)]. call (update_holds _ _ _ _ _ _ _ (set_entry (Bytes b)) H). intros h1 H1.
    call (update_sz_linked (fill q) _ _ _ _ _ _ _ b _ H1 eq_refl Hpk). intros h2 H2.
    unfold l. rewrite <-Eins. eapply rewrite_spec; [exact Hq|done|rewrite <-Es; by eapply packed_content|by rewrite length_insert|done].
  - destruct (plain_cases nd) as [[Ec ->]|[Ec ->]].
    + destruct (plain_node _ _ _ Hct rd_raw0 Ec) as (b0 & _ & _ & Evs & _). assert (j = 0%nat) as Ej by (rewrite Evs in Hj; simpl in Hj; lia).
      destruct (limit (fill q) <? zlen v) eqn:Hl; zb.
      * call (update_holds _ _ _ _ _ _ _ (set_entry (Bytes v)) H). intros h1 H1. call (update_holds _ _ _ _ _ _ _ (set_sz (zlen v)) H1). intros h2 H2.
        unfold l. rewrite <-Eins. eapply rewrite_spec; [exact Hq|done|rewrite Evs, Ej; by apply plain_content|by rewrite length_insert|done].
      * rewrite <-rd_nodes0, <-rd_values0 in Hq. unfold quicklistInsertAfter.
        call (insert_after_plain junk Hjunk in_data htab0 zmalloc Hin Htab Hmalloc h0 h q ns vss it e A a nd B VA vs VB j v0 v Hq Hrd Hv Ec Hl).
        intros [[h1 q1] it1] (A1 & n1 & B1 & VA1 & VB1 & Hq1 & El1 & Hso1 & Hc1 & E1 & E2).
        eapply post_mono; [apply (del_inv junk in_data htab0 Hin Htab h0 h1 q1 A1 B1 a n1 (VA1 ++ VB1) None (qi_options _ _ _ _ _ _ Hq1) (qi_holds _ _ _ _ _ _ Hq1))|].
        -- eapply reads_delete; [done|apply (qi_reads _ _ _ _ _ _ Hq1)].
        -- eapply counts_delete; [done|apply (qi_counts _ _ _ _ _ _ Hq1)].
        -- apply (qi_depth _ _ _ _ _ _ Hq1).
        -- eapply marks_gone; [apply (hold_nodup _ _ _ _ (qi_holds _ _ _ _ _ _ Hq1))|]. apply marks_weaken, (qi_marks _ _ _ _ _ _ Hq1).
        -- intros i p Hi _. apply list_elem_of_lookup_2 in Hi. apply (qi_marks _ _ _ _ _ _ Hq1 p); [|done]. apply elem_of_app in Hi. rewrite elem_of_app, elem_of_cons. tauto.
        -- intros [h2 q2] (ns2 & Hq2 & _ & Hso2 & Hc2). eexists _, _. split; [exact Hq2|]. split; [by eapply same_options_trans|].
           rewrite (count_of _ _ _ _ _ _ _ El1 (qi_counts _ _ _ _ _ _ Hq1)), Evs in Hc2. split; [unfold zlen in Hc2; simpl in Hc2; lia|].
           rewrite join_app, E1, E2. unfold l. by rewrite Evs, Ej.
    + destruct Hr as [?|Hl]; [congruence|]. rewrite (proj2 (Z.ltb_lt _ _)) by done.
      apply (replace_split_spec h0 h q A a nd B VA vs VB j v0 v e Hq rd_len0 rd_raw0 Ec rd_elem0); [by rewrite rd_e_offset0|done].
Qed.
End Replace.
End QuicklistReplace.
