(* ===== verification/QuicklistRange.v ===== *)
(** * Quicklists: deleting a range of elements *)

From stdpp Require Import gmap.
From S2P Require Import Prelude Util Adlist Lzf LzfProofs Listpack ListpackRepr ListpackElem ListpackEdit ListpackValues Post Linked Quicklist QuicklistRepr QuicklistNodes QuicklistCompress QuicklistEdit QuicklistPush QuicklistPop QuicklistIter QuicklistSeek QuicklistSplit QuicklistMerge QuicklistInsert.

Module QuicklistRange.
Import Adlist Listpack ListpackElem ListpackEdit ListpackValues ListpackRepr Post Quicklist Linked QuicklistRepr QuicklistNodes QuicklistCompress QuicklistEdit QuicklistPush QuicklistPop QuicklistIter QuicklistSeek QuicklistSplit QuicklistMerge QuicklistInsert.

Section Range.
Context (junk : Z) (in_data : heap → Z) (htab0 : heap → Z → Z).
Context (Hin : ∀ h, Lzf.MAX_OFF <= in_data h ∧ in_data h + INT32_MAX < 2 ^ 64) (Htab : ∀ h i, 0 <= htab0 h i < 2 ^ 64).
Abbreviation delNode := (__quicklistDelNode junk in_data htab0).

(** What one node loses: [del] elements from [j] on. *)
Definition shortened h0 q (VA : list (list (list Z))) (vs : list (list Z)) VB (B : nodes) j del (r : heap * quicklist) : Prop :=
  let '(h', q') := r in ∃ A' B' VA', qinv h0 h' q' (A' ++ B') (VA' ++ VB) None ∧ length VA' = length A' ∧ B'.*1 = B.*1 ∧
    mjoin VA' = mjoin VA ++ take j vs ++ drop (j + Z.to_nat del) vs ∧ same_options q q' ∧ ql_count q' = ql_count q - del.

(** The whole node. *)
Lemma shorten_all h0 h q A a nd B VA vs VB : qinv h0 h q (A ++ (a, nd) :: B) (VA ++ vs :: VB) None → length VA = length A →
  post (delNode h q a) (shortened h0 q VA vs VB B 0 (zlen vs)).
Proof using Hin Htab.
  intros Hq El. destruct (node_facts _ _ _ _ _ _ _ _ _ _ _ Hq El) as (_ & Hn & _). pose proof (use_node _ _ _ _ _ _ _ _ _ Hq (or_introl eq_refl)) as Hqa.
  eapply post_mono; [by apply (del_used junk in_data htab0 Hin Htab h0 h q A B a nd nd VA vs VB Hqa El h q (qi_holds _ _ _ _ _ _ Hq))|].
  intros [h' q'] (ns' & Hq' & Hrec & Hso & Hc). apply Forall2_app_inv_l in Hrec as (A' & B' & HA & HB & ->). exists A', B', VA. split; [done|].
  split; [rewrite El; by eapply Forall2_length|]. split; [by eapply (recodes_keys (fill q))|]. split; [|split; [done|lia]].
  rewrite drop_ge by (unfold zlen; lia). simpl. by rewrite app_nil_r.
Qed.

(** Some elements of a packed node. *)
Lemma shorten_some h0 h q A a nd B VA vs VB j off del : qinv h0 h q (A ++ (a, nd) :: B) (VA ++ vs :: VB) None → length VA = length A → container nd = PACKED →
  norm (zlen vs) off = Z.of_nat j → - 32768 <= off <= 32768 → (j < length vs)%nat → 0 < del → Z.of_nat j + del <= zlen vs →
  post (h ← quicklistDecompressNodeForUse junk h (Some a);
        h ← update_entry h a (λ b, lpDeleteRange junk b off del);
        h ← quicklistNodeUpdateSz h a;
        h ← count_add h a (- del);
        let q := set_ql_count q (ql_count q - del) in
        n ← node_at h a;
        if count n =? 0 then delNode h q a
        else h ← quicklistRecompressOnly junk in_data htab0 h a; Some (h, q)) (shortened h0 q VA vs VB B j del).
Proof using Hin Htab.
  intros Hq El Ec Hoff Hob Hj Hd0 Hd. pose proof (use_spec junk h0 h q A a nd B VA vs VB None Hq (or_introl eq_refl) El) as Hu.
  call Hu. intros h1 (nd1 & Hq1 & Er & Hcn & Hco & Hct & _). clear Hu. pose proof (qi_holds _ _ _ _ _ _ Hq1) as H1. destruct (node_facts _ _ _ _ _ _ _ _ _ _ _ Hq1 El) as (_ & Hn & Hdc).
  destruct (packed_node _ _ _ Hct Er) as (b & es & Ee & Eb & Hpk & Hne & _ & -> & Elen); [congruence|]. set (f := fill q) in *. rewrite strs_zlen in *. rewrite Elen in Hj.
  assert (zlen es = Z.of_nat (length es)) as Ezl by done. pose proof (pk_count _ _ _ Hpk). pose proof (cap_range f).
  destruct (packed_delete_range junk f b es off del Hpk) as (b' & Ed & Hpk'); [unfold INT64_MIN, INT64_MAX; lia|unfold UINT64_MAX; lia|unfold norm in Hoff; lia|unfold norm in Hoff; lia|].
  cbv zeta in Hpk'. fold (norm (zlen es) off) in Hpk'. rewrite Hoff, Nat2Z.id in Hpk'. replace (Z.to_nat (Z.of_nat j + del)) with (j + Z.to_nat del)%nat in Hpk' by lia.
  set (es' := take j es ++ drop (j + Z.to_nat del) es) in *. assert (zlen es' = zlen es - del) as El' by (unfold es'; rewrite zlen_app, zlen_take, zlen_drop; lia).
  assert (strs es' = take j (strs es) ++ drop (j + Z.to_nat del) (strs es)) as Es' by (unfold es'; by rewrite strs_app, strs_take, strs_drop).
  call (update_entry_linked h0 h1 q A a nd1 B (λ b, lpDeleteRange junk b off del) b b' H1 Eb Ed). intros h2 H2.
  call (update_sz_linked f h0 h2 q A a _ B b' es' H2 eq_refl Hpk'). intros h3 H3. unfold count_add.
  call (update_holds _ _ _ _ _ _ _ (λ n, set_count (count n + - del) n) H3). intros h4 H4. cbv zeta. next_is (holds_node _ _ _ _ _ _ _ H4).
  set (nd4 := set_count _ _) in *. assert (count nd4 = zlen es') as Hn4 by (simpl; rewrite Hn, El'; apply uwrap_id; lia). rewrite Hn4. destruct (zlen es' =? 0) eqn:E0; zb.
  - eapply post_mono; [apply (del_used junk in_data htab0 Hin Htab h0 h1 q A B a nd4 nd1 VA _ VB Hq1 El h4 (set_ql_count q (ql_count q - del)))|].
    + by apply (holds_header _ _ q).
    + done.
    + done.
    + intros [h5 q5] (ns' & Hq5 & Hrec & Hso & Hc). apply Forall2_app_inv_l in Hrec as (A' & B' & HA & HB & ->). exists A', B', VA. split; [done|].
      split; [rewrite El; by eapply Forall2_length|]. split; [by eapply (recodes_keys (fill q))|]. split; [|split; [done|rewrite Hn4 in Hc; simpl in Hc; lia]].
      rewrite <-Es'. assert (es' = []) as -> by (destruct es'; [done|rewrite zlen_cons in E0; pose proof (zlen_nonneg es'); lia]). by rewrite app_nil_r.
  - assert (es' ≠ []) as Hne' by (intros E; by rewrite E in E0).
    assert (content f nd4 (strs es')) as Hct4 by (eapply packed_content; try done; simpl; congruence).
    assert (qinv h0 h4 q (A ++ (a, nd4) :: B) (VA ++ strs es' :: VB) (Some a)) as Hq4.
    { eapply qinv_replace; [exact Hq1|done|exact H4|exact Hct4|by rewrite strs_zlen|done|done|done]. }
    call (release_only_spec junk in_data htab0 Hin Htab h0 h4 q A a nd4 B _ Hq4). intros h5 (nd5 & Hq5 & _). exists (A ++ [(a, nd5)]), B, (VA ++ [strs es']).
    rewrite <-!app_assoc. split; [by apply qinv_set_count|]. split; [rewrite !length_app; simpl; lia|]. split; [done|]. split; [|done]. by rewrite join_app, Es'; simpl; rewrite app_nil_r.
Qed.

(** The body of the loop. *)
Definition range_del (off extent n : Z) : Z := Z.min extent (n - norm n off).

Lemma range_step h0 h q A a nd B VA vs VB j off extent : qinv h0 h q (A ++ (a, nd) :: B) (VA ++ vs :: VB) None → length VA = length A →
  norm (zlen vs) off = Z.of_nat j → (j < length vs)%nat → 0 < extent <= INT64_MAX →
  let del := range_del off extent (zlen vs) in
  post (n ← node_at h a;
        let '(delete_entire_node, del) :=
          if (off =? 0) && (count n <=? extent) then (true, count n)
          else if (0 <=? off) && (count n <=? uwrap 64 (extent + off)) then (false, count n - off)
          else if off <? 0 then (false, if extent <? - off then extent else - off)
          else (false, extent) in
        '(h, q) ←
          (if delete_entire_node || QL_NODE_IS_PLAIN n then delNode h q a
           else
             h ← quicklistDecompressNodeForUse junk h (Some a);
             h ← update_entry h a (λ b, lpDeleteRange junk b off del);
             h ← quicklistNodeUpdateSz h a;
             h ← count_add h a (- del);
             let q := set_ql_count q (ql_count q - del) in
             n ← node_at h a;
             if count n =? 0 then delNode h q a
             else h ← quicklistRecompressOnly junk in_data htab0 h a; Some (h, q));
        Some (h, q, del)) (λ '(h', q', d), d = del ∧ shortened h0 q VA vs VB B j del (h', q')).
Proof using Hin Htab.
  intros Hq El Hoff Hj Hex del. destruct (node_facts _ _ _ _ _ _ _ _ _ _ _ Hq El) as (Hct & Hn & _). next_is (holds_node _ _ _ _ _ _ _ (qi_holds _ _ _ _ _ _ Hq)).
  rewrite Hn. assert (zlen vs = Z.of_nat (length vs)) as Ezl by done.
  assert (zlen vs <= 32767 ∧ (container nd = PLAIN → zlen vs = 1)) as [Hcap Hplain].
  { destruct Hct as (b & _ & Hp). destruct (container nd); simpl in Hp.
    - destruct Hp as (-> & _). by split.
    - destruct Hp as (es & Hpk & _ & _ & ->). pose proof (pk_count _ _ _ Hpk). pose proof (cap_range (fill q)). rewrite strs_zlen. split; [lia|done]. }
  assert (- 32768 <= off <= 32768) as Hob by (unfold norm in Hoff; case_if; lia).
  assert (∃ all, (if (off =? 0) && (zlen vs <=? extent) then (true, zlen vs)
          else if (0 <=? off) && (zlen vs <=? uwrap 64 (extent + off)) then (false, zlen vs - off)
          else if off <? 0 then (false, if extent <? - off then extent else - off)
          else (false, extent)) = (all, del) ∧ (all = true → j = 0%nat ∧ del = zlen vs)) as (all & -> & Hall).
  { unfold del, range_del. rewrite Hoff. unfold norm in Hoff. unfold INT64_MAX in *. destruct (off =? 0) eqn:E0; zb; cbn [andb].
    - subst off. simpl in Hoff. destruct (zlen vs <=? extent) eqn:E1; zb; [exists true; split; [f_equal; lia|lia]|]. rewrite uwrap_id by lia. cbn [Z.leb Z.compare andb].
      rewrite (proj2 (Z.leb_gt _ _)) by lia. exists false. split; [f_equal; lia|done].
    - exists false. split; [|done]. f_equal. destruct (off <? 0) eqn:E2; zb.
      + rewrite (proj2 (Z.leb_gt _ _)) by done. cbn [andb]. f_equal. case_if; zb; lia.
      + rewrite (proj2 (Z.leb_le _ _)) by done. cbn [andb]. rewrite uwrap_id by lia. destruct (zlen vs <=? extent + off) eqn:E3; zb; f_equal; lia. }
  assert (0 < del ∧ Z.of_nat j + del <= zlen vs) as [Hd0 Hd] by (unfold del, range_del; rewrite Hoff; lia).
  destruct (all || QL_NODE_IS_PLAIN nd) eqn:Ewhole.
  - assert (j = 0%nat ∧ del = zlen vs) as [-> Edel].
    { destruct all; [auto|]. destruct (plain_cases nd) as [[Ec _]|[_ E]]; [|rewrite E in Ewhole; done]. specialize (Hplain Ec). lia. }
    rewrite Edel. call (shorten_all h0 h q A a nd B VA vs VB Hq El). intros [h' q'] Hs. by split.
  - apply orb_false_iff in Ewhole as [_ Epk]. destruct (plain_cases nd) as [[_ E]|[Ec _]]; [congruence|].
    call (shorten_some h0 h q A a nd B VA vs VB j off del Hq El Ec Hoff Hob Hj Hd0 Hd). intros [h' q'] Hs. by split.
Qed.
(** The loop, from element [j] of node [a] on. *)
Lemma range_from h0 fuel : ∀ h q A a nd B VA vs VB j off extent, qinv h0 h q (A ++ (a, nd) :: B) (VA ++ vs :: VB) None → length VA = length A →
  norm (zlen vs) off = Z.of_nat j → (j < length vs)%nat → 0 < extent <= INT64_MAX → extent <= zlen vs - Z.of_nat j + zlen (mjoin VB) → (length B < fuel)%nat →
  post (del_range_loop junk in_data htab0 fuel h q (Some a) extent off) (λ '(h', q'), ∃ ns' vss', qinv h0 h' q' ns' vss' None ∧ same_options q q' ∧
    ql_count q' = ql_count q - extent ∧ mjoin vss' = mjoin VA ++ take j vs ++ drop (Z.to_nat extent) (drop j vs ++ mjoin VB)).
Proof using Hin Htab.
  induction fuel as [|fuel IH]; [lia|]. intros h q A a nd B VA vs VB j off extent Hq El Hoff Hj Hex Hle Hf. cbn [del_range_loop].
  rewrite (proj2 (Z.eqb_neq _ _)) by lia. cbn [mbind option_bind]. next_is (holds_next _ _ _ _ _ _ _ (qi_holds _ _ _ _ _ _ Hq)).
  pose proof (range_step h0 h q A a nd B VA vs VB j off extent Hq El Hoff Hj Hex) as Hs. cbv zeta in Hs.
  destruct (node_at h a) as [n|]; [|done]. cbn [mbind option_bind] in Hs |- *. destruct (if (off =? 0) && (count n <=? extent) then _ else _) as [all d].
  destruct (if all || QL_NODE_IS_PLAIN n then _ else _) as [[h1 q1]|]; [|done]. cbn [mbind option_bind post] in Hs |- *.
  destruct Hs as (-> & A1 & B1 & VA1 & Hq1 & El1 & EB & Ej1 & Hso1 & Hc1). unfold range_del in *. rewrite Hoff in *. assert (zlen vs = Z.of_nat (length vs)) as Ezl by done.
  unfold INT64_MAX in *. rewrite uwrap_id by lia. set (del := Z.min extent (zlen vs - Z.of_nat j)) in *.
  destruct (decide (extent <= zlen vs - Z.of_nat j)) as [Hend|Hmore].
  - assert (del = extent) as -> by (unfold del; lia). rewrite Z.sub_diag.
    assert (mjoin (VA1 ++ VB) = mjoin VA ++ take j vs ++ drop (Z.to_nat extent) (drop j vs ++ mjoin VB)) as Ej.
    { rewrite join_app, Ej1, drop_app_le by (rewrite length_drop; lia). rewrite drop_drop, <-!app_assoc. done. }
    destruct fuel; cbn [del_range_loop Z.eqb post]; exists (A1 ++ B1), (VA1 ++ VB); done.
  - assert (del = zlen vs - Z.of_nat j) as Edel by (unfold del; lia).
    assert (length B1 = length B) as ElB by (rewrite <-(length_fmap fst B1), <-(length_fmap fst B); by rewrite EB).
    pose proof (reads_length _ _ _ (qi_reads _ _ _ _ _ _ Hq)) as Elen. rewrite !length_app in Elen. simpl in Elen.
    destruct VB as [|vb VB]; [unfold zlen in *; simpl in *; lia|]. destruct B as [|[b nb0] B]; [simpl in Elen; lia|]. destruct B1 as [|[b1 nb] B1]; [done|].
    injection EB as -> EB. simpl first_of. simpl in ElB, Hf. rewrite zlen_join_cons in Hle.
    assert (qinv h0 h1 q1 (A1 ++ (b, nb) :: B1) (VA1 ++ vb :: VB) None) as Hq1' by done. destruct (mid_facts _ _ _ _ _ _ _ _ _ _ _ Hq1' El1) as (_ & Hctb & _).
    pose proof (content_count _ _ _ Hctb) as Hne. assert (0 < length vb)%nat as Hlb by (destruct vb; [done|simpl; lia]).
    eapply post_mono; [apply (IH h1 q1 A1 b nb B1 VA1 vb VB 0%nat 0 (extent - del) Hq1' El1 eq_refl Hlb); lia|].
    intros [h2 q2] (ns2 & vss2 & Hq2 & Hso2 & Hc2 & Ej2). exists ns2, vss2. split; [done|]. split; [by eapply same_options_trans|]. split; [lia|].
    rewrite Ej2, Ej1. rewrite (drop_ge vs) by lia. rewrite app_nil_r, (take_0 vb). simpl. rewrite <-app_assoc, (drop_app_ge (drop j vs)) by (rewrite length_drop; lia).
    rewrite length_drop. do 3 f_equal. lia.
Qed.

Lemma del_range_spec h0 h q ns vss start num : qlist h0 h q ns vss None → zlen (mjoin vss) <= INT64_MAX → is_int64 start → start ≠ INT64_MIN → is_int64 num →
  post (quicklistDelRange junk in_data htab0 h q start num) (λ '(h', q', r),
    let l := mjoin vss in let i := norm (zlen l) start in
    ∃ ns' vss', qlist h0 h' q' ns' vss' None ∧ same_options q q' ∧ r = bool_decide (0 < num ∧ 0 <= i < zlen l) ∧
      mjoin vss' = if (r : bool) then take (Z.to_nat i) l ++ drop (Z.to_nat (i + num)) l else l).
Proof using Hin Htab.
  intros Hl Hmax Hs Hmin Hnum. pose proof Hl as [Hq Hcnt]. unfold quicklistDelRange. set (l := mjoin vss) in *. unfold is_int64, INT64_MIN, INT64_MAX in *.
  destruct (num <=? 0) eqn:E0; zb.
  { simpl. exists ns, vss. split; [done|]. split; [done|]. by rewrite bool_decide_false by lia. }
  rewrite (proj2 (Z.eqb_neq _ _)) by done. set (extent := if _ && _ then _ else _).
  assert (0 <= norm (zlen l) start < zlen l → extent = Z.min num (zlen l - norm (zlen l) start)) as Hext.
  { intros Hi. unfold extent, norm in *. rewrite Hcnt. fold l. destruct (start <? 0) eqn:E1; zb.
    - rewrite (proj2 (Z.leb_gt _ _)) by done. cbn [andb]. case_if; zb; lia.
    - rewrite (proj2 (Z.leb_le _ _)) by done. cbn [andb]. rewrite uwrap_id by lia. cbn [andb]. destruct (zlen l - start <? num) eqn:E2; zb; lia. }
  call (iterator_at_spec h0 h q ns vss None AL_START_TAIL start Hl Hmax); [done|done|]. intros [it|] Hit; fold l in Hit.
  - destruct Hit as (Hi & _ & _ & _ & A & a & nd & B & VA & vs & VB & [-> -> El Hloc] & Ecur & Hn). fold l in Hn, Hi, Hloc. set (i := norm (zlen l) start) in *.
    unfold quicklistReleaseIterator. rewrite Ecur. call (release_spec junk in_data htab0 Hin Htab h0 h q A a nd B _ None Hq (or_introl eq_refl)). intros h1 (ns1 & Hq1 & Hrec).
    destruct (recodes_split _ _ _ _ _ _ Hrec) as (A1 & nd1 & B1 & -> & HA1 & _ & HB1). apply recodes_length in HA1, HB1.
    assert (zlen vs = Z.of_nat (length vs)) as Ezl by done. set (j := Z.to_nat (i - zlen (mjoin VA))).
    assert (zlen l = zlen (mjoin VA) + (zlen vs + zlen (mjoin VB))) as Ell by (unfold l; by rewrite join_middle, !zlen_app).
    specialize (Hext Hi).
    call (range_from h0 (Z.to_nat (len q)) h1 q A1 a nd1 B1 VA vs VB j (offset it) extent Hq1); [lia|unfold j; lia|unfold j; lia|unfold INT64_MAX; lia|unfold j; lia| |].
    { rewrite (hold_len _ _ _ _ (qi_holds _ _ _ _ _ _ Hq1)). unfold zlen. rewrite length_app. simpl. lia. }
    intros [h2 q2] (ns2 & vss2 & Hq2 & Hso2 & Hc2 & Ej2). assert (l = (mjoin VA ++ take j vs) ++ (drop j vs ++ mjoin VB)) as El2.
    { unfold l. rewrite join_middle, <-app_assoc. f_equal. by rewrite app_assoc, take_drop. }
    assert (length (mjoin VA ++ take j vs) = Z.to_nat i) as Epre by (rewrite length_app, length_take; unfold j, zlen in *; lia).
    assert (length (drop j vs ++ mjoin VB) = Z.to_nat (zlen l - i)) as Epost.
    { pose proof (f_equal length El2) as E. rewrite length_app, Epre in E. unfold zlen in *. lia. }
    assert (mjoin vss2 = take (Z.to_nat i) l ++ drop (Z.to_nat (i + num)) l) as Ejoin.
    { rewrite Ej2, El2, (take_app_length' _ _ (Z.to_nat i)), app_assoc by done. f_equal. rewrite (drop_app_ge (mjoin VA ++ take j vs)), Epre by lia.
      replace (Z.to_nat (i + num) - Z.to_nat i)%nat with (Z.to_nat num) by lia. rewrite Hext. destruct (decide (num <= zlen l - i)) as [?|?]; [f_equal; lia|].
      rewrite !drop_ge; [done|rewrite Epost; lia..]. }
    exists ns2, vss2. split; [split; [done|]|].
    { rewrite Ejoin, zlen_app, zlen_take, zlen_drop, Hc2, Hcnt. fold l. lia. }
    split; [done|]. rewrite bool_decide_true by (unfold i in *; lia). done.
  - exists ns, vss. split; [done|]. split; [done|]. rewrite bool_decide_false; [done|]. unfold index_ok in Hit. fold l in Hit. lia.
Qed.
End Range.
End QuicklistRange.
