(* ===== verification/QuicklistDup.v ===== *)
(** * Quicklists: making, copying and releasing a list *)

From stdpp Require Import gmap.
From S2P Require Import Prelude Util Adlist Lzf LzfProofs Listpack ListpackRepr ListpackElem ListpackEdit ListpackValues Post Linked Quicklist QuicklistRepr QuicklistNodes QuicklistCompress QuicklistEdit QuicklistPush QuicklistPop QuicklistIter QuicklistSeek QuicklistSplit QuicklistMerge.

Module QuicklistDup.
Import Listpack ListpackElem ListpackEdit ListpackValues ListpackRepr Post Quicklist Linked QuicklistRepr QuicklistNodes QuicklistCompress QuicklistEdit QuicklistPush QuicklistPop QuicklistIter QuicklistSeek QuicklistSplit QuicklistMerge.

(** ** A new list *)

Lemma new_options f c : options_ok (quicklistNew f c) ∧ (fill_ok f → fill (quicklistNew f c) = f) ∧ (0 <= c <= COMPRESS_MAX → compress (quicklistNew f c) = c).
Proof.
  unfold quicklistNew, quicklistSetOptions, quicklistSetCompressDepth, quicklistSetFill, options_ok, fill_ok, FILL_MAX, COMPRESS_MAX. simpl.
  repeat split; repeat case_if; zb; lia.
Qed.

Lemma new_inv h f c : qlist h h (quicklistNew f c) [] [] None.
Proof.
  split; [|done]. constructor; [apply new_options| |constructor|constructor|by intros|by intros p ?%elem_of_nil].
  constructor; try done; [constructor|by intros ? ?%elem_of_nil].
Qed.

(** ** Releasing *)

Lemma release_loop_spec h0 ns : ∀ h q, NoDup ns.*1 → (∀ a, (a ∉ ns.*1) → h !! a = h0 !! a) → (∀ a, a ∈ ns.*1 → h0 !! a = None) →
  (∀ a nd A B, ns = A ++ (a, nd) :: B → ∃ p, h !! a = Some (mkLinked p (first_of B None) nd)) →
  post (release_loop (length ns) h q (first_of ns None)) (λ '(h', _), h' = h0).
Proof.
  induction ns as [|[a nd] ns IH]; intros h q Hn Hs Hf Hl; simpl.
  - apply map_eq. intros a. apply Hs. apply not_elem_of_nil.
  - destruct (Hl a nd [] ns eq_refl) as [p E]. unfold next_of, node_at. rewrite E. cbn [mbind option_bind next value].
    inversion Hn as [|? ? Hna Hn']; subst. apply IH; [done| | |].
    + intros b Hb. destruct (decide (b = a)) as [->|Hne]; [rewrite lookup_delete_eq; symmetry; apply Hf; by left|].
      rewrite lookup_delete_ne by done. apply Hs. simpl. rewrite elem_of_cons. naive_solver.
    + intros b Hb. apply Hf. by right.
    + intros b nb A B ->. destruct (Hl b nb ((a, nd) :: A) B eq_refl) as [p' E']. exists p'. rewrite lookup_delete_ne; [done|].
      intros ->. apply Hna. rewrite fmap_app. set_solver.
Qed.

Lemma release_list_spec h0 h q ns : holds h0 h q ns → quicklistRelease h q = Some h0.
Proof.
  intros H. pose proof H as [_ Hn Hh _ Hl Hs Hf]. unfold quicklistRelease. rewrite Hl, Hh. unfold zlen. rewrite Nat2Z.id.
  pose proof (release_loop_spec h0 ns h q Hn Hs Hf) as Hr. destruct (release_loop _ h q _) as [[h' q']|]; simpl in *.
  - f_equal. apply Hr. intros a nd A B ->. eexists. by apply (holds_lookup _ _ _ _ _ _ _ H).
  - exfalso. apply Hr. intros a nd A B ->. eexists. by apply (holds_lookup _ _ _ _ _ _ _ H).
Qed.

Section Dup.
Context (junk : Z) (in_data : heap → Z) (htab0 : heap → Z → Z) (zmalloc : heap → address).
Context (Hin : ∀ h, Lzf.MAX_OFF <= in_data h ∧ in_data h + INT32_MAX < 2 ^ 64) (Htab : ∀ h i, 0 <= htab0 h i < 2 ^ 64).
Context (Hmalloc : ∀ h, h !! zmalloc h = None).
Abbreviation compressAt := (quicklistCompress junk in_data htab0).

(** ** Copying

    The nodes are copied as they are, so those of a copy in the making may be compressed
    near its end; once the copy is long enough they are decompressed. *)
Definition copied (d : nat) (ns : nodes) : Prop :=
  (∀ p, p ∈ ns → dont_compress p.2 = false ∧ recompress p.2 = false) ∧ (d = 0%nat ∨ (2 * d <= length ns)%nat → depth_ok d ns).

Lemma compress_short h0 h q A a nd B d : holds h0 h q (A ++ (a, nd) :: B) → compress q = Z.of_nat d → (length (A ++ (a, nd) :: B) < 2 * d)%nat →
  (∀ p, p ∈ A ++ (a, nd) :: B → dont_compress p.2 = false ∧ recompress p.2 = false) →
  compressAt h q a = Some h.
Proof.
  intros H Hd Hlen Hm. unfold quicklistCompress. rewrite (holds_node _ _ _ _ _ _ _ H). cbn [mbind option_bind].
  assert ((a, nd) ∈ A ++ (a, nd) :: B) as Hina by (rewrite elem_of_app, elem_of_cons; auto). pose proof (proj2 (Hm _ Hina)) as Erc. simpl in Erc. rewrite Erc.
  unfold __quicklistCompress. rewrite (hold_len _ _ _ _ H). set (ns := A ++ (a, nd) :: B) in *.
  assert (ns ≠ []) as Hne by (unfold ns; by destruct A). destruct (zlen ns =? 0) eqn:E0; [done|]. rewrite (hold_head _ _ _ _ H), (hold_tail _ _ _ _ H).
  assert (∃ x nx R, ns = (x, nx) :: R) as (x & nx & R & E1) by (destruct ns as [|[x nx] R]; [done|eauto]).
  assert (∃ y ny L, ns = L ++ [(y, ny)]) as (y & ny & L & E2) by (destruct ns as [|[y ny] L _] using rev_ind; [done|eauto]).
  pose proof H as H1. rewrite E1 in H1. pose proof (holds_node _ _ _ [] _ _ _ H1) as Ex. pose proof H as H2. rewrite E2 in H2. pose proof (holds_node _ _ _ _ _ _ _ H2) as Ey.
  assert (first_of ns None = Some x ∧ last_of None ns = Some y) as [-> ->] by (split; [by rewrite E1|by rewrite E2, last_of_snoc]).
  cbn [mbind option_bind]. rewrite Ex. cbn [mbind option_bind]. rewrite Ey. cbn [mbind option_bind].
  assert ((x, nx) ∈ ns ∧ (y, ny) ∈ ns) as [Hx Hy] by (split; [rewrite E1; by left|rewrite E2, elem_of_app; right; by left]).
  destruct (Hm _ Hx) as [_ Erx], (Hm _ Hy) as [_ Ery]. simpl in Erx, Ery. rewrite Erx, Ery. cbn [orb].
  rewrite (proj2 (Z.ltb_lt (zlen ns) _)) by (rewrite Hd; unfold zlen; lia). by rewrite orb_true_r.
Qed.

Lemma compress_copied h0 h q A a nd B vss f d : holds h0 h q (A ++ (a, nd) :: B) → fill q = f → reads f (A ++ (a, nd) :: B) vss → compress q = Z.of_nat d →
  (∀ p, p ∈ A ++ (a, nd) :: B → dont_compress p.2 = false ∧ recompress p.2 = false) → (d = 0%nat → depth_ok d (A ++ (a, nd) :: B)) →
  post (compressAt h q a) (λ h', ∃ ns', holds h0 h' q ns' ∧ recodes f (A ++ (a, nd) :: B) ns' ∧ copied d ns' ∧
    ((length (A ++ (a, nd) :: B) < 2 * d)%nat → ns' = A ++ (a, nd) :: B)).
Proof using Hin Htab.
  intros H Hf Hr Hd Hm H0. destruct (decide (length (A ++ (a, nd) :: B) < 2 * d)%nat) as [Hlt|Hge].
  - rewrite (compress_short h0 h q A a nd B d H Hd Hlt Hm). exists (A ++ (a, nd) :: B). split; [done|]. split; [done|]. split; [|done]. split; [done|]. lia.
  - unfold quicklistCompress. next_is (holds_node _ _ _ _ _ _ _ H).
    assert ((a, nd) ∈ A ++ (a, nd) :: B) as Hina by (rewrite elem_of_app, elem_of_cons; auto). pose proof (proj2 (Hm _ Hina)) as Erc. simpl in Erc. rewrite Erc.
    eapply post_mono; [apply (compress_list_spec junk in_data htab0 f Hin Htab h0 h q _ vss (Some a) d H Hr)|].
    + split; [intros i p Hi _; apply list_elem_of_lookup_2 in Hi; by apply Hm|]. intros Hs. destruct (decide (d = 0%nat)) as [->|]; [|lia].
      apply list.Forall_forall. intros p Hp. apply list_elem_of_lookup in Hp as [i Hi]. eapply (H0 eq_refl i p Hi). by left.
    + done.
    + intros b [= <-]. rewrite fmap_app, elem_of_app. right. by left.
    + intros h' (ns' & H' & Hrec & Hd'). exists ns'. split; [done|]. split; [done|]. split; [|lia]. split; [|done]. intros p Hp.
      assert (marks_ok None (A ++ (a, nd) :: B)) as Hm0 by (intros p0 Hp0; by destruct (Hm p0 Hp0)). destruct (recodes_marks _ _ _ _ Hrec Hm0 p Hp). auto.
Qed.
(** What is copied of a node. *)
Definition copies (f : Z) (nd nd' : quicklistNode) : Prop :=
  encoding nd' = encoding nd ∧ container nd' = container nd ∧ count nd' = count nd ∧ dont_compress nd' = false ∧ recompress nd' = false ∧
  ∀ vs, content f nd vs → content f nd' vs.

Lemma copy_node_spec f h0 h q ns x nd vs : holds (<[x := mkLinked None None fresh_node]> h0) h q ns → content f nd vs → count nd = zlen vs →
  post (copy_node h x nd) (λ h', ∃ nd', holds (<[x := mkLinked None None nd']> h0) h' q ns ∧ copies f nd nd').
Proof.
  intros H (b & Hb & Hp) Hn. pose proof (payload_take _ _ _ _ _ Hp) as (Hs & Hsb & Hp' & _).
  assert (uwrap 16 (count nd) = count nd) as Eu.
  { apply uwrap_id. rewrite Hn. pose proof (zlen_nonneg vs). destruct (container nd); simpl in Hp; [destruct Hp as (-> & _); unfold zlen; simpl; lia|].
    destruct Hp as (es & Hpk & _ & _ & ->). pose proof (pk_count _ _ _ Hpk). pose proof (cap_range f). rewrite strs_zlen in *. lia. }
  assert (∀ e, (∀ vs, content f nd vs → content f (mkNode e (sz nd) (uwrap 16 (count nd)) (encoding nd) (container nd) false false) vs) →
    post (update h x (set_entry e)) (λ h1, post (h ← update h1 x (set_count (count nd)); h ← update h x (set_sz (sz nd));
      h ← update h x (set_encoding (encoding nd)); update h x (set_container (container nd))) (λ h', ∃ nd', holds (<[x := mkLinked None None nd']> h0) h' q ns ∧ copies f nd nd'))) as Hgo.
  { intros e He. eapply post_mono; [by apply (loose_cell_update h0 q ns x)|]. intros h1 H1. call (loose_cell_update h0 q ns x h1 _ (set_count (count nd)) H1). intros h2 H2.
    call (loose_cell_update h0 q ns x h2 _ (set_sz (sz nd)) H2). intros h3 H3. call (loose_cell_update h0 q ns x h3 _ (set_encoding (encoding nd)) H3). intros h4 H4.
    eapply post_mono; [by apply (loose_cell_update h0 q ns x h4)|]. intros h5 H5. eexists. split; [exact H5|]. split_and!; try done. }
  unfold copy_node. destruct Hb as [Er Ee|c Er Ee Hrc Hl Hpos Hres]; rewrite Er, Ee in *.
  - assert (rd 0 (sz nd) b = Some (take (Z.to_nat (sz nd)) b)) as Erd.
    { rewrite <-(take_drop (Z.to_nat (sz nd)) b) at 1. apply rd_head. rewrite zlen_take. lia. }
    rewrite Erd. apply post_bind. apply (Hgo (Bytes (take (Z.to_nat (sz nd)) b))). intros vs' (b' & [E1 E2|? E1 _ _ _ _ _] & Hp2); [|congruence].
    rewrite Ee in E2. injection E2 as ->. exists (take (Z.to_nat (sz nd)) b'). split; [by left|]. simpl. by apply payload_take in Hp2 as (_ & _ & ? & _).
  - rewrite (rd_all c). apply post_bind. apply (Hgo (Compressed (zlen c) c)). intros vs' (b' & [?|c' E1 E2 _ Hl' _ Hres'] & Hp2); [congruence|].
    exists b'. split; [|done]. rewrite Ee in E2. injection E2 as _ ->. by apply (bytes_lzf _ _ c').
Qed.
(** Adding a copy at the end. *)
Lemma append_copy h0 h q ns vss x nd vs d : holds (<[x := mkLinked None None nd]> h0) h q ns → h0 !! x = None → reads (fill q) ns vss → content (fill q) nd vs →
  compress q = Z.of_nat d → copied d ns → dont_compress nd = false → recompress nd = false → (d = 0%nat → encoding nd = RAW) →
  post (_quicklistInsertNodeAfter junk in_data htab0 h q (tail q) x) (λ '(h', q'), ∃ ns', holds h0 h' q' ns' ∧ recodes (fill q) (ns ++ [(x, nd)]) ns' ∧ copied d ns' ∧
    same_options q q' ∧ ql_count q' = ql_count q ∧ ((S (length ns) < 2 * d)%nat → ns' = ns ++ [(x, nd)])).
Proof using Hin Htab.
  intros H E0 Hr Hct Hd [Hm Hdep] Hdc Hrc Hraw. unfold _quicklistInsertNodeAfter, __quicklistInsertNode.
  rewrite <-(app_nil_r ns) in H. rewrite (hold_tail _ _ _ _ H), app_nil_r.
  call (link_after h0 h q ns [] x None None nd H E0); [by intros ->|]. intros [h1 q1] (H1 & Hso & Hc & _).
  assert (fill q1 = fill q ∧ compress q1 = Z.of_nat d) as [Ef1 Ed1] by (destruct Hso; split; congruence).
  assert (∀ p, p ∈ ns ++ [(x, nd)] → dont_compress p.2 = false ∧ recompress p.2 = false) as Hm1.
  { intros p [Hp|Hp%list_elem_of_singleton]%elem_of_app; [by apply Hm|by subst p]. }
  assert (reads (fill q) (ns ++ [(x, nd)]) (vss ++ [vs])) as Hr1 by (apply Forall2_app; [done|by constructor]).
  assert (d = 0%nat → depth_ok d (ns ++ [(x, nd)])) as Hd1.
  { intros Ez i p Hi _. apply list_elem_of_lookup_2 in Hi. destruct (Hm1 p Hi) as [_ ?]. split; [|done]. apply elem_of_app in Hi as [Hi|Hi%list_elem_of_singleton]; [|subst p; by apply Hraw].
    apply list_elem_of_lookup in Hi as [i' Hi]. apply (Hdep (or_introl Ez) i' p Hi). by left. }
  assert (post (match last_of None ns with Some o => compressAt h1 q1 o | None => Some h1 end) (λ h', ∃ ns', holds h0 h' q1 ns' ∧ recodes (fill q) (ns ++ [(x, nd)]) ns' ∧
    (∀ p, p ∈ ns' → dont_compress p.2 = false ∧ recompress p.2 = false) ∧ (d = 0%nat → depth_ok d ns') ∧ ((S (length ns) < 2 * d)%nat → ns' = ns ++ [(x, nd)]))) as Hold.
  { destruct ns as [|[o on] ns _] using rev_ind; [by exists [(x, nd)]|]. rewrite last_of_snoc. rewrite <-app_assoc in *. simpl in *.
    eapply post_mono; [by apply (compress_copied h0 h1 q1 ns o on [(x, nd)] _ (fill q) d H1 Ef1 Hr1 Ed1 Hm1 Hd1)|].
    intros h2 (ns2 & H2 & Hrec & [Hm2 Hd2] & Hsame). exists ns2. split; [done|]. split; [done|]. split; [done|]. split; [auto|]. intros Hlt. apply Hsame. rewrite !length_app in *. simpl in *. lia. }
  call Hold. intros h2 (ns2 & H2 & Hrec2 & Hm2 & Hd2 & Hsame2). destruct (recodes_split _ _ _ _ _ _ Hrec2) as (A2 & nd2 & B2 & -> & HA & _ & HB). inversion HB; subst B2.
  pose proof (recodes_reads _ _ _ _ Hrec2 Hr1) as Hr2. call (compress_copied h0 h2 q1 A2 x nd2 [] _ (fill q) d H2 Ef1 Hr2 Ed1 Hm2 Hd2).
  intros h3 (ns3 & H3 & Hrec3 & Hcp & Hsame3). exists ns3. split; [done|]. split; [by etransitivity|]. split; [done|]. split; [done|]. split; [done|].
  intros Hlt. rewrite <-Hsame2 by done. apply Hsame3. apply recodes_length in HA. rewrite length_app. simpl. lia.
Qed.

(** The loop: [L] is copied, [R] is left. *)
Lemma ql_dup_loop_spec h orig ns vss d fuel : compress orig = Z.of_nat d → (∀ A a nd B, ns = A ++ (a, nd) :: B → ∃ p, h !! a = Some (mkLinked p (first_of B None) nd)) →
  reads (fill orig) ns vss → counts_ok ns vss → ((length ns < 2 * d)%nat ∨ d = 0%nat → Forall (λ p, encoding p.2 = RAW) ns) →
  ∀ L R VL VR h1 copy ns1, ns = L ++ R → vss = VL ++ VR → length VL = length L → (length R <= fuel)%nat → holds h h1 copy ns1 → same_options orig copy →
  reads (fill orig) ns1 VL → counts_ok ns1 VL → copied d ns1 → ql_count copy = zlen (mjoin VL) → ((length ns < 2 * d)%nat → Forall (λ p, encoding p.2 = RAW) ns1) →
  post (ql_dup_loop junk in_data htab0 zmalloc fuel h1 (first_of R None) copy) (λ '(h', q'), ∃ ns', holds h h' q' ns' ∧ same_options orig q' ∧
    reads (fill orig) ns' vss ∧ counts_ok ns' vss ∧ copied d ns' ∧ ql_count q' = zlen (mjoin vss) ∧ ((length ns < 2 * d)%nat → Forall (λ p, encoding p.2 = RAW) ns')).
Proof using Hin Htab Hmalloc.
  intros Hd Hnodes Hr Hc Hraw. induction fuel as [|fuel IH]; intros L R VL VR h1 copy ns1 -> -> El Hf H1 Hso Hr1 Hc1 Hcp Hcnt Hraw1; destruct R as [|[a nd] R].
  1, 3: apply Forall2_app_inv in Hr as [_ Hr]; [|done]; inversion Hr; subst; rewrite !app_nil_r in *; exists ns1; done.
  { simpl in Hf. lia. }
  apply Forall2_app_inv in Hr as [_ Hr']; [|done]. inversion Hr' as [|? vs ? VR' Hct _]; subst. simpl in Hct.
  pose proof Hc as Hc0. apply Forall2_app_inv in Hc0 as [_ Hc']; [|done]. inversion Hc' as [|? ? ? ? Hn _]; subst. simpl in Hn.
  destruct (Hnodes L a nd R eq_refl) as [p Ea]. destruct (holds_base _ _ _ _ _ _ H1 Ea) as [_ Ea1]. cbn [first_of ql_dup_loop].
  unfold node_at. rewrite Ea1. cbn [mbind option_bind value]. destruct (create_holds zmalloc h h1 copy ns1 Hmalloc H1) as (h2 & x & -> & H2 & E0).
  call (copy_node_spec (fill orig) h h2 copy ns1 x nd vs H2 Hct Hn). intros h3 (nd' & H3 & (Er & Ec & En & Edc & Erc & Hct')).
  set (copy1 := set_ql_count copy _). assert (holds (<[x := mkLinked None None nd']> h) h3 copy1 ns1) as H3' by (by apply (holds_header _ _ copy)).
  assert (fill copy1 = fill orig ∧ compress copy1 = Z.of_nat d) as [Ef Ed] by (destruct Hso; split; simpl; congruence).
  assert (uwrap 16 (count nd) = zlen vs) as Eu.
  { rewrite Hn. apply uwrap_id. pose proof (zlen_nonneg vs). destruct Hct as (b & _ & Hp). destruct (container nd); simpl in Hp; [destruct Hp as (-> & _); unfold zlen; simpl; lia|].
    destruct Hp as (es & Hpk & _ & _ & ->). pose proof (pk_count _ _ _ Hpk). pose proof (cap_range (fill orig)). rewrite strs_zlen in *. lia. }
  assert (((length (L ++ (a, nd) :: R) < 2 * d)%nat ∨ d = 0%nat) → encoding nd' = RAW) as Hraw'.
  { intros Hs. rewrite Er. specialize (Hraw Hs). apply list.Forall_app in Hraw as [_ Hraw]. by inversion Hraw. }
  call (append_copy h h3 copy1 ns1 VL x nd' vs d H3' E0); [by rewrite Ef|rewrite Ef; by apply Hct'|done|done|done|done|auto|].
  intros [h4 q4] (ns4 & H4 & Hrec4 & Hcp4 & Hso4 & Hc4 & Hsame4). destruct (holds_base _ _ _ _ _ _ H4 Ea) as [_ Ea4]. unfold next_of. rewrite Ea4. cbn [mbind option_bind next].
  rewrite Ef in Hrec4. assert (reads (fill orig) (ns1 ++ [(x, nd')]) (VL ++ [vs])) as Hr2 by (apply Forall2_app; [done|by constructor; [apply Hct'|]]).
  assert (counts_ok (ns1 ++ [(x, nd')]) (VL ++ [vs])) as Hc2 by (apply Forall2_app; [done|constructor; [simpl; congruence|done]]).
  assert (length ns1 = length L) as Eln by (rewrite <-El; symmetry; by eapply reads_length).
  apply (IH (L ++ [(a, nd)]) R (VL ++ [vs]) VR' h4 q4 ns4); try done.
  - by rewrite <-app_assoc.
  - by rewrite <-app_assoc.
  - rewrite !length_app. simpl. lia.
  - simpl in Hf. lia.
  - by eapply same_options_trans.
  - by eapply recodes_reads.
  - by eapply recodes_counts_ok.
  - rewrite Hc4. simpl. rewrite Hcnt, Eu, join_app, zlen_app. simpl. by rewrite app_nil_r.
  - intros Hs. rewrite Hsame4 by (rewrite length_app in Hs; simpl in Hs; lia). apply list.Forall_app. split; [by apply Hraw1|]. constructor; [simpl; auto|done].
Qed.

Lemma dup_spec h0 h q ns vss : qlist h0 h q ns vss None →
  post (quicklistDup junk in_data htab0 zmalloc h q) (λ '(h', q'), ∃ ns', qlist h h' q' ns' vss None ∧ same_options q q').
Proof using Hin Htab Hmalloc.
  intros [[Ho H Hr Hc Hd Hm] Hcnt]. pose proof Ho as [Hf Hcr]. unfold quicklistDup. rewrite (hold_head _ _ _ _ H), (hold_len _ _ _ _ H). unfold zlen. rewrite Nat2Z.id.
  destruct (new_options (fill q) (compress q)) as (Ho1 & Ef & Ec). specialize (Ef Hf). specialize (Ec Hcr). destruct (new_inv h (fill q) (compress q)) as [[_ H1 _ _ _ _] Hc1].
  assert ((length ns < 2 * depth q)%nat ∨ depth q = 0%nat → Forall (λ p, encoding p.2 = RAW) ns) as Hraw.
  { intros Hs. apply (proj2 (depth_ready _ _ Hd)). tauto. }
  eapply post_mono; [apply (ql_dup_loop_spec h q ns vss (depth q) (length ns)) with (L := []) (R := ns) (VL := []) (VR := vss) (ns1 := []); try done|].
  - by apply depth_eq.
  - intros A a nd B ->. eexists. by apply (holds_lookup _ _ _ _ _ _ _ H).
  - constructor.
  - constructor.
  - split; [by intros ? ?%elem_of_nil|]. by intros ? i p Hi.
  - intros [h' q'] (ns' & H' & Hso & Hr' & Hc' & [Hm' Hd'] & Hcnt' & Hraw'). exists ns'. split; [split; [|done]|done]. destruct (same_options_ok _ _ Hso Ho) as (Ho' & Ed & Ef').
    assert (length ns' = length ns) as Eln by (rewrite <-(reads_length _ _ _ Hr'); by eapply reads_length).
    constructor; rewrite ?Ed, ?Ef'; try done; [|intros p Hp; destruct (Hm' p Hp); by split].
    destruct (decide (length ns < 2 * depth q)%nat) as [Hlt|Hge]; [|apply Hd'; lia].
    intros i p Hi _. apply list_elem_of_lookup_2 in Hi. split; [|by apply Hm']. specialize (Hraw' Hlt). by apply (proj1 (list.Forall_forall _ _) Hraw').
Qed.
(** ** Nodes made elsewhere *)

Lemma append_node h0 h q ns vss x nd vs : qlist h0 h q ns vss None → ∀ h1, holds (<[x := mkLinked None None nd]> h0) h1 q ns → h0 !! x = None →
  content (fill q) nd vs → count nd = zlen vs → settled nd → dont_compress nd = false →
  post ('(h, q) ← _quicklistInsertNodeAfter junk in_data htab0 h1 q (tail q) x; nd ← node_at h x; Some (h, set_ql_count q (ql_count q + count nd)))
    (λ '(h', q'), ∃ ns', qlist h0 h' q' ns' (vss ++ [vs]) None ∧ same_options q q').
Proof using Hin Htab.
  intros [Hq Hcnt] h1 H1 E0 Hct Hn Hs Hd. assert (length vss = length ns) as El by (by eapply reads_length, qi_reads).
  assert (qinv (<[x := mkLinked None None nd]> h0) h1 q (ns ++ []) (vss ++ []) None) as Hq1 by (rewrite !app_nil_r; by destruct Hq).
  unfold _quicklistInsertNodeAfter. call (insert_inv junk in_data htab0 Hin Htab h0 h1 q ns [] vss [] x nd vs None (tail q) true Hq1 E0 El Hct Hn Hs Hd).
  { split; [apply (hold_tail _ _ _ _ H1)|done]. }
  intros [h2 q2] (ns' & Hq2 & Hrec & Hso & Hc & _). destruct (recodes_split _ _ _ _ _ _ Hrec) as (A & nd' & B & -> & _ & ((_ & En & _) & _) & _).
  next_is (holds_node _ _ _ _ _ _ _ (qi_holds _ _ _ _ _ _ Hq2)). eexists. split; [split; [apply qinv_set_count, Hq2|]|done].
  simpl. rewrite En, Hn, Hc, Hcnt, join_app, zlen_app. simpl. by rewrite app_nil_r.
Qed.

Lemma append_plain_spec h0 h q ns vss v : qlist h0 h q ns vss None → str_ok v →
  post (quicklistAppendPlainNode junk in_data htab0 zmalloc h q v) (λ '(h', q'), ∃ ns', qlist h0 h' q' ns' (vss ++ [[v]]) None ∧ same_options q q').
Proof using Hin Htab Hmalloc.
  intros Hl Hv. unfold quicklistAppendPlainNode. destruct (create_holds zmalloc h0 h q ns Hmalloc (qi_holds _ _ _ _ _ _ (proj1 Hl))) as (h1 & x & -> & H1 & E0).
  call (loose_cell_update h0 q ns x _ _ (set_entry (Bytes v)) H1). intros h2 H2. call (loose_cell_update h0 q ns x _ _ (set_count 1) H2). intros h3 H3.
  call (loose_cell_update h0 q ns x _ _ (set_sz (zlen v)) H3). intros h4 H4. call (loose_cell_update h0 q ns x _ _ (set_container PLAIN) H4). intros h5 H5.
  apply (append_node h0 h q ns vss x _ [v] Hl h5 H5 E0); try done. by apply plain_content.
Qed.

Lemma append_listpack_spec h0 h q ns vss zl es : qlist h0 h q ns vss None → packed (fill q) zl es → es ≠ [] →
  post (quicklistAppendListpack junk in_data htab0 zmalloc h q zl) (λ '(h', q'), ∃ ns', qlist h0 h' q' ns' (vss ++ [strs es]) None ∧ same_options q q').
Proof using Hin Htab Hmalloc.
  intros Hl Hpk Hne. unfold quicklistAppendListpack. destruct (create_holds zmalloc h0 h q ns Hmalloc (qi_holds _ _ _ _ _ _ (proj1 Hl))) as (h1 & x & -> & H1 & E0).
  destruct (packed_length _ _ _ Hpk) as (b & E & Hpb). next_is E.
  call (loose_cell_update h0 q ns x _ _ (set_entry (Bytes b)) H1). intros h2 H2. call (loose_cell_update h0 q ns x _ _ (set_count (zlen es)) H2). intros h3 H3.
  next_is (packed_bytes _ _ _ Hpb). call (loose_cell_update h0 q ns x _ _ (set_sz (total es)) H3). intros h4 H4.
  apply (append_node h0 h q ns vss x _ (strs es) Hl h4 H4 E0); try done; [by eapply packed_content|]. rewrite strs_zlen. by eapply packed_uwrap.
Qed.
End Dup.
End QuicklistDup.
