(* ===== verification/QuicklistHistory.v ===== *)
(** * Quicklists: histories

    Any sequence of operations on a new quicklist, whatever its fill factor and its
    compression depth, acts on a list of byte strings and answers what the list says;
    the nodes stay within the bounds of their fields, and those near the ends are never
    left compressed. *)

From stdpp Require Import gmap.
From S2P Require Import Prelude Util Adlist Lzf LzfProofs Listpack ListpackRepr ListpackElem ListpackEdit ListpackValues Post Linked Quicklist QuicklistRepr QuicklistNodes QuicklistCompress QuicklistEdit QuicklistPush QuicklistPop QuicklistIter QuicklistSeek QuicklistSplit QuicklistMerge QuicklistInsert QuicklistReplace QuicklistRange QuicklistDup.

Module QuicklistHistory.
Import Adlist Listpack ListpackElem ListpackEdit ListpackValues ListpackRepr Post Quicklist Linked QuicklistRepr QuicklistNodes QuicklistCompress QuicklistEdit QuicklistPush QuicklistPop QuicklistIter QuicklistSeek QuicklistSplit QuicklistMerge QuicklistInsert QuicklistReplace QuicklistRange QuicklistDup.

(** ** Operations

    Elements are found by their index, as the callers do, with
    [quicklistGetIteratorEntryAtIdx]; [Walk] reads the list with an iterator from one
    end and deletes the elements that are not kept; [Copy] goes on with a copy after
    the original is released. *)
Inductive ql_op :=
  | PushAt (where_ : end_of) (v : list Z)
  | PopAt (where_ : end_of)
  | At (i : Z)
  | ReplaceAt (i : Z) (v : list Z)
  | InsertAt (i : Z) (v : list Z) (after : bool)
  | DeleteRange (start num : Z)
  | Walk (d : Adlist.direction) (keep : list Z → bool)
  | AppendPlain (v : list Z)
  | AppendPacked (zl : list Z) (vs : list (list Z))
  | Copy.

Inductive ql_reply := Done (ok : bool) | Found (v : option (list Z)) | Seen (l : list (list Z)).

Definition entry_string (e : quicklistEntry) : list Z := match e_value e with Some s => s | None => Util.sdec (e_longval e) end.
Definition pop_string (r : option (list Z) * Z * Z) : list Z := match r with (Some s, _, _) => s | (None, _, n) => Util.sdec n end.

Section History.
Context (junk : Z) (in_data : heap → Z) (htab0 : heap → Z → Z) (zmalloc : heap → address).

(** An iteration to the end of the list. *)
Fixpoint walk (fuel : nat) (keep : list Z → bool) (h : heap) (q : quicklist) (it : quicklistIter) : option (heap * quicklist * list (list Z)) :=
  match fuel with
  | O => None
  | S fuel =>
      '(h, it, e) ← quicklistNext junk in_data htab0 h q it;
      match e with
      | None => h ← quicklistReleaseIterator junk in_data htab0 h q (Some it); Some (h, q, [])
      | Some e =>
          '(h, q, it) ← (if keep (entry_string e) then Some (h, q, it)
                         else '(h, q, it, _) ← quicklistDelEntry junk in_data htab0 h q it e; Some (h, q, it));
          '(h, q, l) ← walk fuel keep h q it;
          Some (h, q, entry_string e :: l)
      end
  end.

Definition ql_exec (h : heap) (q : quicklist) (op : ql_op) : option (heap * quicklist * ql_reply) :=
  match op with
  | PushAt where_ v => '(h, q) ← quicklistPush 0 junk in_data htab0 zmalloc h q v where_; Some (h, q, Done true)
  | PopAt where_ => '(h, q, r) ← quicklistPop junk in_data htab0 h q where_; Some (h, q, Found (pop_string <$> r))
  | At i =>
      '(h, r) ← quicklistGetIteratorEntryAtIdx junk in_data htab0 h q i;
      match r with
      | None => Some (h, q, Found None)
      | Some (it, e) => h ← quicklistReleaseIterator junk in_data htab0 h q (Some it); Some (h, q, Found (Some (entry_string e)))
      end
  | ReplaceAt i v => '(h, q, r) ← quicklistReplaceAtIndex 0 junk in_data htab0 zmalloc h q i v; Some (h, q, Done r)
  | InsertAt i v after =>
      '(h, r) ← quicklistGetIteratorEntryAtIdx junk in_data htab0 h q i;
      match r with
      | None => Some (h, q, Done false)
      | Some (it, e) =>
          '(h, q, it) ← (if after then quicklistInsertAfter 0 junk in_data htab0 zmalloc h q it e v
                         else quicklistInsertBefore 0 junk in_data htab0 zmalloc h q it e v);
          h ← quicklistReleaseIterator junk in_data htab0 h q (Some it);
          Some (h, q, Done true)
      end
  | DeleteRange start num => '(h, q, r) ← quicklistDelRange junk in_data htab0 h q start num; Some (h, q, Done r)
  | Walk d keep => '(h, q, l) ← walk (S (Z.to_nat (quicklistCount q))) keep h q (quicklistGetIterator q d); Some (h, q, Seen l)
  | AppendPlain v => '(h, q) ← quicklistAppendPlainNode junk in_data htab0 zmalloc h q v; Some (h, q, Done true)
  | AppendPacked zl _ => '(h, q) ← quicklistAppendListpack junk in_data htab0 zmalloc h q zl; Some (h, q, Done true)
  | Copy =>
      '(h, q') ← quicklistDup junk in_data htab0 zmalloc h q;
      h ← quicklistRelease h q;
      Some (h, q', Done true)
  end.

Fixpoint ql_run (h : heap) (q : quicklist) (ops : list ql_op) : option (heap * quicklist * list ql_reply) :=
  match ops with
  | [] => Some (h, q, [])
  | op :: ops => '(h, q, r) ← ql_exec h q op; '(h, q, rs) ← ql_run h q ops; Some (h, q, r :: rs)
  end.
End History.

(** ** On a list of strings *)

(** The place of an index from either end. *)
Definition place (l : list (list Z)) (i : Z) : option nat :=
  let j := norm (zlen l) i in if (0 <=? j) && (j <? zlen l) then Some (Z.to_nat j) else None.

Definition ql_step (l : list (list Z)) (op : ql_op) : list (list Z) * ql_reply :=
  match op with
  | PushAt QUICKLIST_HEAD v => (v :: l, Done true)
  | PushAt QUICKLIST_TAIL v | AppendPlain v => (l ++ [v], Done true)
  | PopAt QUICKLIST_HEAD => (drop 1 l, Found (l !! 0%nat))
  | PopAt QUICKLIST_TAIL => (removelast l, Found (list.last l))
  | At i => (l, Found (j ← place l i; l !! j))
  | ReplaceAt i v => match place l i with Some j => (<[j := v]> l, Done true) | None => (l, Done false) end
  | InsertAt i v after =>
      match place l i with
      | Some j => let k := if after then S j else j in (take k l ++ v :: drop k l, Done true)
      | None => (l, Done false)
      end
  | DeleteRange start num =>
      match place l start with
      | Some j => if 0 <? num then (take j l ++ drop (j + Z.to_nat num) l, Done true) else (l, Done false)
      | None => (l, Done false)
      end
  | Walk d keep => (filter (λ v, keep v = true) l, Seen (match d with AL_START_HEAD => l | AL_START_TAIL => rev l end))
  | AppendPacked _ vs => (l ++ vs, Done true)
  | Copy => (l, Done true)
  end.

Fixpoint ql_steps (l : list (list Z)) (ops : list ql_op) : list (list Z) * list ql_reply :=
  match ops with
  | [] => (l, [])
  | op :: ops => let '(l, r) := ql_step l op in let '(l, rs) := ql_steps l ops in (l, r :: rs)
  end.

(** Strings have at most 2^31 - 1 bytes, an index is a [long long], the least of which
    cannot be negated; a listpack that is added holds the elements said, not more than
    a node may hold. *)
Definition index_arg (i : Z) : Prop := is_int64 i ∧ i ≠ INT64_MIN.
Definition op_ok (f : Z) (op : ql_op) : Prop :=
  match op with
  | PushAt _ v | AppendPlain v => str_ok v
  | PopAt _ | Walk _ _ | Copy => True
  | At i => index_arg i
  | ReplaceAt i v | InsertAt i v _ => index_arg i ∧ str_ok v
  | DeleteRange start num => index_arg start ∧ is_int64 num
  | AppendPacked zl vs => ∃ es, packed f zl es ∧ vs = strs es ∧ vs ≠ []
  end.

Fixpoint ops_ok (f : Z) (l : list (list Z)) (ops : list ql_op) : Prop :=
  match ops with
  | [] => zlen l <= INT64_MAX
  | op :: ops => zlen l <= INT64_MAX ∧ op_ok f op ∧ ops_ok f (ql_step l op).1 ops
  end.

(** The heap is [h0] with the nodes of a list that stands for [l]. *)
Definition stands (h0 h : heap) (q : quicklist) (l : list (list Z)) : Prop := ∃ ns vss, qlist h0 h q ns vss None ∧ mjoin vss = l.

(** ** One operation *)

Lemma entry_string_reads e v : entry_reads e v → entry_string e = v.
Proof. unfold entry_reads, entry_string. destruct (e_value e); [by intros [-> _]|by intros [-> _]]. Qed.

Lemma pop_string_answer x : pop_string (answer (λ s, s) x) = vbytes x.
Proof. by destruct x. Qed.

Lemma place_spec l i : (∃ j, place l i = Some j ∧ 0 <= norm (zlen l) i < zlen l ∧ norm (zlen l) i = Z.of_nat j) ∨
  (place l i = None ∧ ¬ 0 <= norm (zlen l) i < zlen l).
Proof.
  unfold place. destruct (_ && _) eqn:E; [left|right].
  - apply andb_true_iff in E as [E1 E2]. zb. eexists. split; [done|lia].
  - split; [done|]. apply andb_false_iff in E as [E|E]; zb; lia.
Qed.

(** The element at a place of the list. *)
Lemma place_at {X} (l A B : list X) x i j : l = A ++ x :: B → zlen A = i → i = Z.of_nat j →
  l !! j = Some x ∧ take j l = A ∧ drop j l = x :: B ∧ drop (S j) l = B ∧ take (S j) l = A ++ [x].
Proof.
  intros -> <- E. assert (j = length A) as -> by (unfold zlen in E; lia). split_and!.
  - by rewrite list_lookup_middle.
  - by rewrite take_app_length.
  - by rewrite drop_app_length.
  - rewrite (cons_middle x A B), app_assoc, drop_app_length'; [done|]. rewrite length_app. simpl. lia.
  - rewrite (cons_middle x A B), app_assoc, take_app_length'; [done|]. rewrite length_app. simpl. lia.
Qed.

Lemma seg_split a (ns : nodes) : a ∈ ns.*1 → ∃ A nd B, ns = A ++ (a, nd) :: B.
Proof.
  intros Ha. apply list_elem_of_fmap in Ha as ([a' nd] & -> & Ha). apply list_elem_of_split in Ha as (A & B & ->). by exists A, nd, B.
Qed.

(** Releasing a list whose copy stays. *)
Lemma release_original h0 h1 q ns h q' ns' : holds h0 h1 q ns → holds h1 h q' ns' →
  ∃ h', quicklistRelease h q = Some h' ∧ holds h0 h' q' ns'.
Proof. intros H H'. destruct (holds_swap _ _ _ _ _ _ _ H H') as (h' & ? & ?). exists h'. split; [by eapply release_list_spec|done]. Qed.

Section Exec.
Context (junk : Z) (Hjunk : is_byte junk) (in_data : heap → Z) (htab0 : heap → Z → Z) (zmalloc : heap → address).
Context (Hin : ∀ h, Lzf.MAX_OFF <= in_data h ∧ in_data h + INT32_MAX < 2 ^ 64) (Htab : ∀ h i, 0 <= htab0 h i < 2 ^ 64).
Context (Hmalloc : ∀ h, h !! zmalloc h = None).
Abbreviation exec := (ql_exec junk in_data htab0 zmalloc).

(** An iterator that is at a node of the list, or at none. *)
Lemma done_spec h0 h q ns vss use it : qlist h0 h q ns vss use → use = None ∨ use = current it → (∀ a, current it = Some a → a ∈ ns.*1) →
  post (quicklistReleaseIterator junk in_data htab0 h q (Some it)) (λ h', stands h0 h' q (mjoin vss)).
Proof using Hin Htab.
  intros [Hq Hn] Huse Hit. unfold quicklistReleaseIterator. destruct (current it) as [a|].
  - destruct (seg_split _ _ (Hit a eq_refl)) as (A & nd & B & ->).
    eapply post_mono; [by apply (release_spec junk in_data htab0 Hin Htab h0 h q A a nd B vss use)|].
    intros h' (ns' & Hq' & _). by exists ns', vss.
  - simpl. exists ns, vss. split; [|done]. split; [|done]. by destruct Huse as [->| ->].
Qed.

Lemma ql_walk_spec h0 keep fuel : ∀ h q ns vss use it pre post', qlist h0 h q ns vss use → iter_at (fill q) ns vss use it pre post' →
  aligned (direction it) (offset it) → (match direction it with AL_START_HEAD => length post' | AL_START_TAIL => length pre end < fuel)%nat →
  post (walk junk in_data htab0 fuel keep h q it) (λ '(h', q', l), same_options q q' ∧
    match direction it with
    | AL_START_HEAD => l = post' ∧ stands h0 h' q' (pre ++ filter (λ v, keep v = true) post')
    | AL_START_TAIL => l = rev pre ∧ stands h0 h' q' (filter (λ v, keep v = true) pre ++ post')
    end).
Proof using Hjunk Hin Htab Hmalloc.
  induction fuel as [|fuel IH]; [lia|]. intros h q ns vss use it pre post' [Hq Hn] Hit Hal Hf. cbn [walk].
  call (ql_next_spec junk in_data htab0 Hin Htab _ _ _ _ _ _ _ _ _ Hq Hit). intros [[h1 it1] [e|]] (Ed & Hal1 & He).
  - destruct He as (ns1 & A & a & nd & B & VA & vs & VB & j & v & Hq1 & Hrd & Epp). specialize (Hal1 Hal). rewrite <-Ed in Hal1.
    rewrite (entry_string_reads e v (rd_e_value _ _ _ _ _ _ _ _ _ _ _ _ _ _ Hrd)).
    set (l1 := mjoin VA ++ take j vs) in *. set (l2 := drop (S j) vs ++ mjoin VB) in *.
    assert (post (if keep v then Some (h1, q, it1) else '(h, q, it, _) ← quicklistDelEntry junk in_data htab0 h1 q it1 e; Some (h, q, it))
      (λ '(h2, q2, it2), ∃ ns2 vss2 use2, qlist h0 h2 q2 ns2 vss2 use2 ∧ same_options q q2 ∧ direction it2 = direction it ∧ aligned (direction it2) (offset it2) ∧
        match direction it with
        | AL_START_HEAD => iter_at (fill q2) ns2 vss2 use2 it2 (l1 ++ if keep v then [v] else []) l2
        | AL_START_TAIL => iter_at (fill q2) ns2 vss2 use2 it2 l1 ((if keep v then [v] else []) ++ l2)
        end)) as Hstep.
    { destruct (keep v).
      - exists ns1, vss, (Some a). split; [done|]. split; [done|]. split; [done|]. split; [done|].
        pose proof (reading_at _ _ _ _ _ _ _ _ _ _ _ _ _ _ Hrd) as Hat. rewrite Ed in Hat. by destruct (direction it).
      - call (del_entry_spec junk in_data htab0 Hin Htab _ _ _ _ _ _ _ _ _ _ _ _ _ _ _ _ (conj Hq1 Hn) Hrd Hal1).
        intros [[[h2 q2] it2] b] (ns2 & vss2 & use2 & Hq2 & Hso & Ed2 & Hal2 & Hat). exists ns2, vss2, use2. rewrite Ed in *.
        split; [done|]. split; [done|]. split; [done|]. split; [by rewrite Ed2|]. by destruct (direction it); rewrite ?app_nil_r. }
    call Hstep. intros [[h2 q2] it2] (ns2 & vss2 & use2 & Hq2 & Hso & Ed2 & Hal2 & Hat). apply post_bind. 
    destruct (direction it) eqn:Edi; destruct Epp as [-> ->].
    + eapply post_mono; [apply (IH h2 q2 ns2 vss2 use2 it2 _ _ Hq2 Hat Hal2); rewrite Ed2; simpl in Hf; lia|].
      intros [[h3 q3] l3] (Hso3 & H3). rewrite Ed2 in H3. destruct H3 as [-> Hst]. simpl. split; [by eapply same_options_trans|]. split; [done|].
      rewrite filter_cons. case_decide as Ek; [rewrite Ek in Hst|destruct (keep v); [done|]]; by rewrite <-?app_assoc in *.
    + eapply post_mono; [apply (IH h2 q2 ns2 vss2 use2 it2 _ _ Hq2 Hat Hal2); rewrite Ed2; rewrite length_app in Hf; simpl in Hf; lia|].
      intros [[h3 q3] l3] (Hso3 & H3). rewrite Ed2 in H3. destruct H3 as [-> Hst]. simpl. split; [by eapply same_options_trans|]. split; [by rewrite rev_app_distr|].
      rewrite list.filter_app, filter_cons, filter_nil. case_decide as Ek; [rewrite Ek in Hst|destruct (keep v); [done|]]; by rewrite <-?app_assoc in *.
  - destruct He as (Ec & (ns1 & Hq1) & Hend). unfold quicklistReleaseIterator. rewrite Ec. simpl. split; [done|].
    pose proof (iter_at_join _ _ _ _ _ _ _ Hit) as Ej. destruct (direction it); subst; (split; [done|]); exists ns1, vss; by rewrite Ej, ?app_nil_r.
Qed.

Section Step.
Context (h0 h : heap) (q : quicklist) (ns : nodes) (vss : list (list (list Z))).
Context (Hl : qlist h0 h q ns vss None) (Hmax : zlen (mjoin vss) <= INT64_MAX).
Let l := mjoin vss.

(** What an operation does, and what it answers. *)
Definition acts (op : ql_op) : Prop :=
  post (exec h q op) (λ '(h', q', r), stands h0 h' q' (ql_step l op).1 ∧ r = (ql_step l op).2 ∧ same_options q q').

Lemma push_acts where_ v : str_ok v → acts (PushAt where_ v).
Proof using Hjunk Hin Htab Hmalloc Hl.
  intros Hv. unfold acts. simpl. call (push_spec junk Hjunk in_data htab0 zmalloc Hin Htab Hmalloc _ _ _ _ _ v where_ Hl Hv).
  intros [h' q'] (ns' & vss' & Hq' & Hso & E). simpl. destruct where_; (split; [by exists ns', vss'|done]).
Qed.

Lemma pop_acts where_ : acts (PopAt where_).
Proof using Hin Htab Hl.
  unfold acts. simpl. call (pop_spec junk in_data htab0 Hin Htab _ _ _ _ _ where_ Hl). intros [[h' q'] r] (ns' & vss' & Hq' & Hso & E). simpl. unfold l.
  destruct r as [r|].
  - destruct E as (x & -> & _ & ->). simpl. rewrite pop_string_answer. destruct where_; simpl.
    + split; [by exists ns', vss'|done].
    + rewrite removelast_last, last_snoc. split; [by exists ns', vss'|done].
  - destruct E as [E ->]. rewrite E. destruct where_; (split; [|done]); by exists ns', vss.
Qed.

(** The element at an index, on which an iterator stands. *)
Lemma at_spec i : index_arg i →
  post (quicklistGetIteratorEntryAtIdx junk in_data htab0 h q i) (λ '(h', r),
    match r with
    | None => h' = h ∧ place l i = None
    | Some (it, e) => ∃ ns' A a nd B VA vs VB j v k, qlist h0 h' q ns' vss (Some a) ∧ reading (fill q) ns' vss it e A a nd B VA vs VB j v ∧
        place l i = Some k ∧ l = (mjoin VA ++ take j vs) ++ v :: (drop (S j) vs ++ mjoin VB) ∧ zlen (mjoin VA ++ take j vs) = Z.of_nat k
    end).
Proof using Hin Htab Hl Hmax.
  intros [Hi Hi']. eapply post_mono; [by apply (entry_at_index_spec junk in_data htab0 Hin Htab h0 h q ns vss i Hl Hmax)|].
  intros [h' [[it e]|]]; simpl; fold l; destruct (place_spec l i) as [(k & Ep & Hr & Ek)|[Ep Hr]].
  - intros (_ & ns' & A & a & nd & B & VA & vs & VB & j & v & Hq' & Hrd & Ez). exists ns', A, a, nd, B, VA, vs, VB, j, v, k.
    split; [done|]. split; [done|]. split; [done|]. split; [by eapply reading_join|lia].
  - intros [? _]. done.
  - intros [_ ?]. done.
  - by intros [-> _].
Qed.

Lemma at_acts i : index_arg i → acts (At i).
Proof using Hin Htab Hl Hmax.
  intros Hi. unfold acts. simpl. call (at_spec i Hi). intros [h' [[it e]|]].
  - intros (ns' & A & a & nd & B & VA & vs & VB & j & v & k & Hq' & Hrd & -> & El & Ek). pose proof (rd_current _ _ _ _ _ _ _ _ _ _ _ _ _ _ Hrd) as Ec.
    call (done_spec h0 h' q ns' vss (Some a) it Hq'); [by right|intros b; rewrite Ec, (rd_nodes _ _ _ _ _ _ _ _ _ _ _ _ _ _ Hrd); intros [= <-]; apply key_in|].
    intros h2 Hst. simpl. split; [done|]. split; [|done]. rewrite (entry_string_reads e v (rd_e_value _ _ _ _ _ _ _ _ _ _ _ _ _ _ Hrd)).
    by destruct (place_at _ _ _ _ _ _ El Ek eq_refl) as (-> & _).
  - intros [-> ->]. simpl. split; [by exists ns, vss|done].
Qed.

Lemma replace_acts i v : index_arg i → str_ok v → acts (ReplaceAt i v).
Proof using Hjunk Hin Htab Hmalloc Hl Hmax.
  intros Hi Hv. unfold acts. simpl. unfold quicklistReplaceAtIndex. apply post_bind. call (at_spec i Hi). intros [h' [[it e]|]].
  - intros (ns' & A & a & nd & B & VA & vs & VB & j & w & k & Hq' & Hrd & -> & El & Ek).
    call (replace_entry_spec junk Hjunk in_data htab0 zmalloc Hin Htab Hmalloc _ _ _ _ _ _ _ _ _ _ _ _ _ _ _ _ v Hq' Hrd Hv).
    intros [[h2 q2] it2] (ns2 & vss2 & Hq2 & Hso & E2 & Ec2). unfold quicklistReleaseIterator. rewrite Ec2. simpl.
    split; [|done]. exists ns2, vss2. split; [done|]. rewrite E2. destruct (place_at _ _ _ _ _ _ El Ek eq_refl) as (Elk & Et & _ & Ed & _).
    by rewrite (insert_take_drop _ _ _ (lookup_lt_Some _ _ _ Elk)), Et, Ed.
  - intros [-> ->]. simpl. split; [by exists ns, vss|done].
Qed.

Lemma insert_acts i v after : index_arg i → str_ok v → acts (InsertAt i v after).
Proof using Hjunk Hin Htab Hmalloc Hl Hmax.
  intros Hi Hv. unfold acts. simpl. call (at_spec i Hi). intros [h' [[it e]|]].
  - intros (ns' & A & a & nd & B & VA & vs & VB & j & w & k & Hq' & Hrd & -> & El & Ek).
    unfold quicklistInsertAfter, quicklistInsertBefore.
    assert (∀ (X : option (heap * quicklist * quicklistIter)) Y, X = Y → (if after then X else Y) = X) as Hif by (intros ? ? ->; by destruct after).
    replace (if after then _ else _) with (_quicklistInsert 0 junk in_data htab0 zmalloc h' q it e v after) by (by destruct after).
    call (insert_entry_spec junk Hjunk in_data htab0 zmalloc Hin Htab Hmalloc _ _ _ _ _ _ _ _ _ _ _ _ _ _ _ _ v after Hq' Hrd Hv).
    intros [[h2 q2] it2] (ns2 & vss2 & Hq2 & Hso & E2 & Ec2).
    call (done_spec h0 h2 q2 ns2 vss2 None it2 Hq2); [by left|by intros b Eb; destruct Ec2 as [E|[E ?]]; rewrite E in Eb; simplify_eq|].
    intros h3 Hst. simpl. split; [|done]. rewrite E2 in Hst. destruct (place_at _ _ _ _ _ _ El Ek eq_refl) as (_ & Et & Ed & Ed' & Et').
    pose proof (rd_elem _ _ _ _ _ _ _ _ _ _ _ _ _ _ Hrd) as Hj. replace (take _ l ++ v :: drop _ l) with
      (mjoin VA ++ (take (cut after j) vs ++ v :: drop (cut after j) vs) ++ mjoin VB); [done|]. unfold cut. destruct after.
    + rewrite Et', Ed', (take_S_r _ _ _ Hj). by rewrite <-!app_assoc.
    + rewrite Et, Ed, (drop_S _ _ _ Hj). by rewrite <-!app_assoc.
  - intros [-> ->]. simpl. split; [by exists ns, vss|done].
Qed.

Lemma delete_acts start num : index_arg start → is_int64 num → acts (DeleteRange start num).
Proof using Hin Htab Hl Hmax.
  intros [Hs Hs'] Hn. unfold acts. simpl. call (del_range_spec junk in_data htab0 Hin Htab _ _ _ _ _ start num Hl Hmax Hs Hs' Hn).
  intros [[h' q'] r] (ns' & vss' & Hq' & Hso & -> & E). fold l in E |- *.
  destruct (place_spec l start) as [(k & -> & Hr & Ek)|[-> Hr]].
  - destruct (0 <? num) eqn:E0; zb.
    + rewrite bool_decide_true in * by done. simpl. split; [|done]. exists ns', vss'. split; [done|]. rewrite E, Ek.
      by rewrite Nat2Z.id, Z2Nat.inj_add, Nat2Z.id by lia.
    + rewrite bool_decide_false in * by lia. simpl. split; [by exists ns', vss'|done].
  - rewrite bool_decide_false in * by tauto. simpl. split; [by exists ns', vss'|done].
Qed.

Lemma walk_acts d keep : acts (Walk d keep).
Proof using Hjunk Hin Htab Hmalloc Hl.
  unfold acts. simpl. pose proof Hl as [Hq Hn]. destruct (iterator_spec (fill q) h0 h q ns vss d (qi_holds _ _ _ _ _ _ Hq) (qi_reads _ _ _ _ _ _ Hq)) as [Hit Hal].
  assert (direction (quicklistGetIterator q d) = d) as Ed by (by destruct d).
  call (ql_walk_spec h0 keep (S (Z.to_nat (quicklistCount q))) _ _ _ _ _ _ _ _ Hl Hit); [by rewrite Ed|unfold quicklistCount; rewrite Ed, Hn; unfold zlen; destruct d; lia|].
  rewrite Ed. fold l. intros [[h' q'] r] [Hso H]. simpl. destruct d; destruct H as [-> Hst]; rewrite ?app_nil_r in Hst; done.
Qed.

Lemma append_plain_acts v : str_ok v → acts (AppendPlain v).
Proof using Hin Htab Hmalloc Hl.
  intros Hv. unfold acts. simpl. call (append_plain_spec junk in_data htab0 zmalloc Hin Htab Hmalloc _ _ _ _ _ v Hl Hv).
  intros [h' q'] (ns' & Hq' & Hso). simpl. split; [|done]. exists ns', (vss ++ [[v]]). split; [done|]. apply join_snoc.
Qed.

Lemma append_packed_acts zl vs : (∃ es, packed (fill q) zl es ∧ vs = strs es ∧ vs ≠ []) → acts (AppendPacked zl vs).
Proof using Hin Htab Hmalloc Hl.
  intros (es & Hp & -> & Hne). assert (es ≠ []) as Hes by (by intros ->). unfold acts. simpl.
  call (append_listpack_spec junk in_data htab0 zmalloc Hin Htab Hmalloc _ _ _ _ _ zl es Hl Hp Hes).
  intros [h' q'] (ns' & Hq' & Hso). simpl. split; [|done]. exists ns', (vss ++ [strs es]). split; [done|]. rewrite join_app. simpl. by rewrite app_nil_r.
Qed.

Lemma copy_acts : acts Copy.
Proof using Hin Htab Hmalloc Hl.
  unfold acts. simpl. call (dup_spec junk in_data htab0 zmalloc Hin Htab Hmalloc _ _ _ _ _ Hl). intros [h1 q1] (ns1 & [Hq1 Hn1] & Hso).
  destruct (release_original h0 h q ns h1 q1 ns1 (qi_holds _ _ _ _ _ _ (proj1 Hl)) (qi_holds _ _ _ _ _ _ Hq1)) as (h2 & E & H2). next_is E.
  simpl. split; [|done]. exists ns1, vss. split; [|done]. split; [|done]. by destruct Hq1.
Qed.

Lemma op_acts op : op_ok (fill q) op → acts op.
Proof using Hjunk Hin Htab Hmalloc Hl Hmax.
  destruct op; simpl; intros Hop.
  - by apply push_acts.
  - apply pop_acts.
  - by apply at_acts.
  - destruct Hop. by apply replace_acts.
  - destruct Hop. by apply insert_acts.
  - destruct Hop. by apply delete_acts.
  - apply walk_acts.
  - by apply append_plain_acts.
  - by apply append_packed_acts.
  - apply copy_acts.
Qed.
End Step.

(** ** Histories *)

Lemma run_stands h0 ops : ∀ h q l, stands h0 h q l → ops_ok (fill q) l ops →
  post (ql_run junk in_data htab0 zmalloc h q ops) (λ '(h', q', rs), stands h0 h' q' (ql_steps l ops).1 ∧ rs = (ql_steps l ops).2 ∧ same_options q q').
Proof using Hjunk Hin Htab Hmalloc.
  induction ops as [|op ops IH]; intros h q l (ns & vss & Hl & <-); [intros _; simpl; split; [by exists ns, vss|done]|].
  intros (Hmax & Hop & Hops). simpl. call (op_acts _ _ _ _ _ Hl Hmax op Hop). intros [[h1 q1] r] (Hst & -> & Hso).
  destruct (ql_step (mjoin vss) op) as [l1 r1]. simpl in *.
  assert (fill q1 = fill q) as Ef by apply Hso. call (IH h1 q1 l1 Hst); [by rewrite Ef|].
  intros [[h2 q2] rs] (Hst2 & -> & Hso2). destruct (ql_steps l1 ops) as [l2 rs2]. simpl in *. split; [done|]. split; [done|]. by eapply same_options_trans.
Qed.

(** A state that operations on a new list lead to. *)
Definition reached (f c : Z) (h h' : heap) (q' : quicklist) (l' : list (list Z)) : Prop :=
  ∃ ops rs, ops_ok (fill (quicklistNew f c)) [] ops ∧ ql_run junk in_data htab0 zmalloc h (quicklistNew f c) ops = Some (h', q', rs) ∧ l' = (ql_steps [] ops).1.

Lemma reached_stands f c h h' q' l' : reached f c h h' q' l' → stands h h' q' l' ∧ same_options (quicklistNew f c) q'.
Proof using Hjunk Hin Htab Hmalloc.
  intros (ops & rs & Hops & E & ->). assert (stands h h (quicklistNew f c) []) as Hst by (exists [], []; split; [apply new_inv|done]).
  pose proof (run_stands h ops _ _ _ Hst Hops) as H. rewrite E in H. by destruct H as (? & _ & ?).
Qed.


(** (C24) A copy is a list of its own: whatever is done to it, the cells of the original
    and of everything else stay as they are, and releasing it leaves the heap there
    was before the copy. *)
Theorem quicklistDup_independent (f c : Z) (h h1 : heap) (q : quicklist) l ops : reached f c h h1 q l → ops_ok (fill q) l ops →
  ∃ h2 copy h3 q3, quicklistDup junk in_data htab0 zmalloc h1 q = Some (h2, copy) ∧
    ql_run junk in_data htab0 zmalloc h2 copy ops = Some (h3, q3, (ql_steps l ops).2) ∧
    (∀ a n, h1 !! a = Some n → h3 !! a = Some n) ∧ quicklistRelease h3 q3 = Some h1.
Proof using Hjunk Hin Htab Hmalloc.
  intros (Hst & _)%reached_stands Hops. destruct Hst as (ns & vss & Hl & <-).
  pose proof (dup_spec junk in_data htab0 zmalloc Hin Htab Hmalloc _ _ _ _ _ Hl) as H. apply post_ex in H as ([h2 copy] & -> & ns1 & Hl1 & Hso).
  assert (stands h1 h2 copy (mjoin vss)) as Hst by (by exists ns1, vss). assert (fill copy = fill q) as Ef by apply Hso. rewrite <-Ef in Hops.
  pose proof (run_stands h1 ops _ _ _ Hst Hops) as H. apply post_ex in H as ([[h3 q3] rs] & E & (ns3 & vss3 & [Hq3 _] & _) & -> & _).
  exists h2, copy, h3, q3. split; [done|]. split; [done|]. pose proof (qi_holds _ _ _ _ _ _ Hq3) as H3. split; [|by eapply release_list_spec].
  intros a n Ha. assert (a ∉ ns3.*1) as Hna by (intros Hi; rewrite (hold_fresh _ _ _ _ H3 a Hi) in Ha; done). by rewrite (hold_same _ _ _ _ H3).
Qed.

(** ** The nodes of a list *)




(** (C23) In every state a history leads to, the nodes within the compression depth of either
    end are not compressed, all nodes are raw when the depth is 0, and no node is left
    marked as decompressed for use or as exempt from compression. *)
Theorem quicklist_ends_raw (f c : Z) (h h' : heap) (q : quicklist) l : reached f c h h' q l →
  ∃ ns, holds h h' q ns ∧ 0 <= compress q <= COMPRESS_MAX ∧
    ∀ i a nd, ns !! i = Some (a, nd) → recompress nd = false ∧ dont_compress nd = false ∧
      (compress q = 0 ∨ Z.of_nat i < compress q ∨ len q - compress q <= Z.of_nat i → encoding nd = RAW).
Proof using Hjunk Hin Htab Hmalloc.
  intros ((ns & vss & [Hq Hn] & <-) & _)%reached_stands. exists ns. pose proof (qi_holds _ _ _ _ _ _ Hq) as H. pose proof (qi_options _ _ _ _ _ _ Hq) as [_ Ho].
  split; [done|]. split; [done|]. intros i a nd Hi. destruct (qi_marks _ _ _ _ _ _ Hq (a, nd)) as [Hd Hr]; [by eapply list_elem_of_lookup_2|].
  split; [by apply Hr|]. split; [done|]. intros Hdep. apply (qi_depth _ _ _ _ _ _ Hq i _ Hi). unfold in_depth, depth.
  rewrite (hold_len _ _ _ _ H) in Hdep. unfold zlen in Hdep. lia.
Qed.
End Exec.

End QuicklistHistory.
