(* ===== verification/QuicklistExamples.v ===== *)
(** * Quicklists: concrete histories

    A list with at most two elements in a packed node and compression beyond the first
    and last node; the theorems on histories applied to it. *)

From stdpp Require Import gmap.
From S2P Require Import Prelude Util Adlist Lzf LzfProofs Listpack ListpackRepr ListpackElem ListpackEdit ListpackValues Post Linked Quicklist QuicklistRepr QuicklistNodes QuicklistCompress QuicklistEdit QuicklistHistory.

Module QuicklistExamples.
Import Adlist Listpack ListpackElem ListpackEdit ListpackValues ListpackRepr Post Quicklist Linked QuicklistRepr QuicklistNodes QuicklistCompress QuicklistEdit QuicklistHistory.

(** An allocator that returns the cell after the last one. *)
Definition next_cell (h : heap) : address := Pos.succ (map_fold (λ a _ m, Pos.max a m) 1%positive h).

Lemma next_cell_free h : h !! next_cell h = None.
Proof.
  unfold next_cell. set (m := map_fold _ _ h). assert (∀ a n, h !! a = Some n → (a <= m)%positive) as Hm.
  { unfold m. apply (map_fold_weak_ind (λ m h, ∀ a n, h !! a = Some n → (a <= m)%positive)); [done|].
    intros b c h' m' _ IH a n. rewrite lookup_insert_Some. intros [[<- _]|[_ H]]; [lia|]. specialize (IH a n H). lia. }
  destruct (h !! Pos.succ m) as [n|] eqn:E; [|done]. specialize (Hm _ _ E). lia.
Qed.

Definition in_data (h : heap) : Z := 65536.
Definition htab0 (h : heap) (i : Z) : Z := 77.

Lemma in_data_ok h : Lzf.MAX_OFF <= in_data h ∧ in_data h + INT32_MAX < 2 ^ 64.
Proof. unfold in_data. vm_compute. split; [discriminate|reflexivity]. Qed.

Lemma htab0_ok h i : 0 <= htab0 h i < 2 ^ 64.
Proof. unfold htab0. lia. Qed.

Lemma byte_ok : is_byte 170.
Proof. unfold is_byte. lia. Qed.

(** Elements: texts that can be compressed, short strings, a number. *)
Definition text (c : Z) : list Z := replicate 60 c.

Lemma str_ok_eval s : wf_bytesb s = true → (zlen s <=? INT32_MAX) = true → str_ok s.
Proof. intros H1 H2. zb. split; [by apply wf_bytesb_spec|done]. Qed.

(** A listpack with one element. *)
Definition one_packed : list Z := [11; 0; 0; 0; 1; 0; 130; 113; 113; 3; 255].

Lemma one_packed_ok : packed 2 one_packed [encode_string [113; 113]].
Proof.
  destruct (packed_single 170 byte_ok 2) with (v := [113; 113]) as (b & E & Hp); [by vm_compute|by apply str_ok_eval|by vm_compute|].
  vm_compute in E. injection E as <-. exact Hp.
Qed.

Definition ops : list ql_op :=
  [PushAt QUICKLIST_TAIL (text 97); PushAt QUICKLIST_TAIL (text 98); PushAt QUICKLIST_TAIL (text 99); PushAt QUICKLIST_TAIL [49; 50; 51];
   PushAt QUICKLIST_HEAD (text 100); PushAt QUICKLIST_HEAD [120]; At 2; At (-1); InsertAt 3 [121] false; InsertAt 2 (text 101) true; ReplaceAt (-2) [122];
   Walk AL_START_TAIL (λ v, negb (bool_decide (v = [121]))); Copy; AppendPlain [119]; AppendPacked one_packed [[113; 113]]; DeleteRange 1 2;
   PopAt QUICKLIST_HEAD; At 9; PopAt QUICKLIST_TAIL].

Ltac ops_ok_eval :=
  repeat match goal with
  | |- ops_ok _ _ (_ :: _) => split; [vm_compute; discriminate|split; [|]]
  | |- ops_ok _ _ [] => vm_compute; discriminate
  | |- op_ok _ _ => cbv [op_ok]
  | |- True => exact I
  | |- str_ok _ => apply str_ok_eval; vm_compute; reflexivity
  | |- index_arg _ ∧ _ => split
  | |- index_arg _ => split; [vm_compute; split; discriminate|discriminate]
  | |- is_int64 _ => vm_compute; split; discriminate
  end.

Lemma ops_fine : ops_ok (fill (quicklistNew 2 1)) [] ops.
Proof. unfold ops. ops_ok_eval. exists [encode_string [113; 113]]. split; [exact one_packed_ok|]. split; [by vm_compute|done]. Qed.

(** The list at the end, and its nodes: the one in the middle is compressed. *)
Example ops_steps : (ql_steps [] ops).1 = [text 101; text 98; [122]; [49; 50; 51]; [119]].
Proof. vm_compute. reflexivity. Qed.

Definition shape (h : heap) (q : quicklist) : list (node_encoding * node_container * Z) :=
  (fix go fuel n := match fuel, n with
                    | S fuel, Some a => match h !! a with Some c => (encoding (value c), container (value c), count (value c)) :: go fuel (next c) | None => [] end
                    | _, _ => []
                    end) (Z.to_nat (len q)) (head q).

Example history_run : (λ '(h, q, rs), (shape h q, quicklistCount q, rs)) <$> ql_run 170 in_data htab0 next_cell ∅ (quicklistNew 2 1) ops =
  Some ([(RAW, PACKED, 1); (LZF, PACKED, 1); (RAW, PACKED, 2); (RAW, PLAIN, 1)], 5, (ql_steps [] ops).2).
Proof. vm_compute. reflexivity. Qed.


(** A state that is reached, and operations on a copy. *)
Lemma ops_reached : ∃ h q, reached 170 in_data htab0 next_cell 2 1 ∅ h q [text 101; text 98; [122]; [49; 50; 51]; [119]] ∧ fill q = 2 ∧ compress q = 1.
Proof.
  destruct (ql_run 170 in_data htab0 next_cell ∅ (quicklistNew 2 1) ops) as [[[h q] rs]|] eqn:E; [|by vm_compute in E].
  exists h, q. split; [|].
  - exists ops, rs. split; [exact ops_fine|]. split; [exact E|]. by rewrite ops_steps.
  - vm_compute in E. injection E as _ <- _. done.
Qed.

Definition more : list ql_op := [PushAt QUICKLIST_HEAD (text 102); DeleteRange 2 2; At 1].

Lemma quicklistDup_independent_witness :
  ∃ h1 q h2 copy h3 q3, quicklistDup 170 in_data htab0 next_cell h1 q = Some (h2, copy) ∧
    ql_run 170 in_data htab0 next_cell h2 copy more = Some (h3, q3, [Done true; Done true; Found (Some (text 101))]) ∧
    (∀ a n, h1 !! a = Some n → h3 !! a = Some n) ∧ quicklistRelease h3 q3 = Some h1.
Proof.
  destruct ops_reached as (h & q & Hr & Ef & _). exists h, q.
  assert (ops_ok (fill q) [text 101; text 98; [122]; [49; 50; 51]; [119]] more) as Hm by (rewrite Ef; unfold more; ops_ok_eval).
  exact (quicklistDup_independent 170 byte_ok in_data htab0 next_cell in_data_ok htab0_ok next_cell_free 2 1 ∅ h q _ more Hr Hm).
Defined.


Lemma quicklist_ends_raw_witness :
  ∃ h q, compress q = 1 ∧ ∃ ns, holds ∅ h q ns ∧ 0 <= compress q <= COMPRESS_MAX ∧
    ∀ i a nd, ns !! i = Some (a, nd) → recompress nd = false ∧ dont_compress nd = false ∧
      (compress q = 0 ∨ Z.of_nat i < compress q ∨ len q - compress q <= Z.of_nat i → encoding nd = RAW).
Proof.
  destruct ops_reached as (h & q & Hr & _ & Ec). exists h, q. split; [exact Ec|].
  exact (quicklist_ends_raw 170 byte_ok in_data htab0 next_cell in_data_ok htab0_ok next_cell_free 2 1 ∅ h q _ Hr).
Defined.

(** A rotation of plain nodes can make a compressed node the last one, on which the
    next push fails an assertion. *)
Definition large : list Z := replicate 4097 97.

Example rotate_compressed_tail :
  match ql_run 170 in_data htab0 next_cell ∅ (quicklistNew (-1) 1) [PushAt QUICKLIST_TAIL large; PushAt QUICKLIST_TAIL large; PushAt QUICKLIST_TAIL large] with
  | Some (h, q, _) =>
      shape h q = [(RAW, PLAIN, 1); (LZF, PLAIN, 1); (RAW, PLAIN, 1)] ∧
      match quicklistRotate 0 170 in_data htab0 next_cell h q with
      | Some (h, q) => shape h q = [(RAW, PLAIN, 1); (RAW, PLAIN, 1); (LZF, PLAIN, 1)] ∧
          quicklistPush 0 170 in_data htab0 next_cell h q [120] QUICKLIST_TAIL = None
      | None => False
      end
  | None => False
  end.
Proof. vm_compute. split_and!; reflexivity. Qed.

(** Elements replaced where they are make a node larger than any node may be when an
    element is added to it. *)
Example replace_over_limit :
  match ql_run 170 in_data htab0 next_cell ∅ (quicklistNew (-1) 0) (replicate 20 (PushAt QUICKLIST_TAIL [120]) ++ ((λ i, ReplaceAt (Z.of_nat i) (replicate 4000 97)) <$> seq 0 20)) with
  | Some (h, q, _) => fill q = -1 ∧ limit (fill q) = 4096 ∧ shape h q = [(RAW, PACKED, 20)] ∧ (head q ≫= λ a, sz <$> node_at h a) = Some 80087
  | None => False
  end.
Proof. vm_compute. split_and!; reflexivity. Qed.
End QuicklistExamples.
