(* ===== verification/ListType.v ===== *)
(** * Lists: the type ([src/redis-stable/src/t_list.c])

    A list is a listpack or a quicklist; the nodes of all quicklists live in one heap.
    An object string is raw bytes or an integer ([value]), as [robj] encodes it.  The
    callbacks run before a conversion, which the commands on lists do not use, have no
    counterpart; the panics on unknown encodings are unreachable. *)

From stdpp Require Import gmap.
From Stdlib Require Import String.
From S2P Require Import Prelude Util Glob Listpack ListpackElem ListpackEdit ListpackValues Linked Adlist Quicklist.

Module ListType.
Import Linked Quicklist Listpack ListpackElem ListpackEdit ListpackValues.

Inductive list_position := LIST_HEAD | LIST_TAIL.
Inductive list_conv_type := LIST_CONV_AUTO | LIST_CONV_GROWING | LIST_CONV_SHRINKING.

#[export] Instance list_position_eq_dec : EqDecision list_position.
Proof. solve_decision. Defined.
#[export] Instance list_conv_type_eq_dec : EqDecision list_conv_type.
Proof. solve_decision. Defined.

(** The configuration. *)
Record redisServer := mkServer { list_max_listpack_size : Z; list_compress_depth : Z }.

(** [o->encoding] and [o->ptr] of a list. *)
Inductive robj := OListpack (lp : list Z) | OQuicklist (ql : quicklist).

(** An iterator; the one over a quicklist is NULL when the index is out of range. *)
Inductive list_cursor := CListpack (lpi : option Z) | CQuicklist (iter : option quicklistIter).
Record listTypeIterator := mkListIter { li_direction : list_position; li_cursor : list_cursor }.

Inductive listTypeEntry := EListpack (lpe : Z) | EQuicklist (entry : quicklistEntry).

Section ListType.
Context (server : redisServer) (junk : Z) (in_data : heap → Z) (htab0 : heap → Z → Z) (zmalloc : heap → address).

Definition createListListpackObject : option robj := lp ← lpNew junk 0; Some (OListpack lp).

(** ** Conversions *)

(** The bytes and the number of the objects to be added; integers count for no bytes. *)
Definition added_size (argv : option (list value)) : Z * Z :=
  match argv with
  | Some argv => (foldl (λ n v, match v with VStr s => uwrap 64 (n + zlen s) | VInt _ => n end) 0 argv, zlen argv)
  | None => (0, 0)
  end.

Definition listTypeTryConvertListpack (h : heap) (lp : list Z) (argv : option (list value)) : option (heap * robj) :=
  let '(add_bytes, add_length) := added_size argv in
  bytes ← lpBytes lp;
  '(length, lp) ← lpLength lp;
  exceeds ← quicklistNodeExceedsLimit (list_max_listpack_size server) (uwrap 64 (bytes + add_bytes)) (uwrap 32 (length + add_length));
  if (exceeds : bool) then
    let ql := quicklistNew (list_max_listpack_size server) (list_compress_depth server) in
    '(length, lp) ← lpLength lp;
    '(h, ql) ← (if negb (length =? 0) then quicklistAppendListpack junk in_data htab0 zmalloc h ql lp else Some (h, ql));
    Some (h, OQuicklist ql)
  else Some (h, OListpack lp).

Definition listTypeTryConvertQuicklist (h : heap) (ql : quicklist) (shrinking : bool) : option (heap * robj) :=
  if negb (len ql =? 1) then Some (h, OQuicklist ql)
  else
    hd ← head ql;
    n ← node_at h hd;
    if QL_NODE_IS_PLAIN n then Some (h, OQuicklist ql)
    else
      '(sz_limit, count_limit) ← quicklistNodeLimit (list_max_listpack_size server);
      let sz_limit := if shrinking then sz_limit / 2 else sz_limit in
      let count_limit := if shrinking then count_limit / 2 else count_limit in
      if (sz_limit <? sz n) || (count_limit <? ql_count ql) then Some (h, OQuicklist ql)
      else
        lp ← raw n;
        h ← update h hd (set_entry NULL);
        h ← quicklistRelease h ql;
        Some (h, OListpack lp).

Definition listTypeTryConversionRaw (h : heap) (o : robj) (lct : list_conv_type) (argv : option (list value)) : option (heap * robj) :=
  match o with
  | OQuicklist ql =>
      if bool_decide (lct = LIST_CONV_GROWING) then Some (h, o)
      else listTypeTryConvertQuicklist h ql (bool_decide (lct = LIST_CONV_SHRINKING))
  | OListpack lp =>
      if bool_decide (lct = LIST_CONV_SHRINKING) then Some (h, o) else listTypeTryConvertListpack h lp argv
  end.

Definition listTypeTryConversion (h : heap) (o : robj) (lct : list_conv_type) : option (heap * robj) :=
  listTypeTryConversionRaw h o lct None.

Definition listTypeTryConversionAppend (h : heap) (o : robj) (argv : list value) : option (heap * robj) :=
  listTypeTryConversionRaw h o LIST_CONV_GROWING (Some argv).

(** ** Ends of the list *)

Definition ql_end (where_ : list_position) : end_of := match where_ with LIST_HEAD => QUICKLIST_HEAD | LIST_TAIL => QUICKLIST_TAIL end.

Definition listTypePush (h : heap) (subject : robj) (v : value) (where_ : list_position) : option (heap * robj) :=
  match subject with
  | OQuicklist ql =>
      s ← value_string v;
      '(h, ql) ← quicklistPush 0 junk in_data htab0 zmalloc h ql s (ql_end where_);
      Some (h, OQuicklist ql)
  | OListpack lp =>
      lp ← not_null (match v, where_ with
                     | VInt n, LIST_HEAD => lpPrependInteger junk lp n
                     | VInt n, LIST_TAIL => lpAppendInteger junk lp n
                     | VStr s, LIST_HEAD => lpPrepend junk lp s
                     | VStr s, LIST_TAIL => lpAppend junk lp s
                     end);
      Some (h, OListpack lp)
  end.

(** [createStringObject(vstr, vlen)] for what [lpGet] returns with a buffer. *)
Definition lp_string (lp : list Z) (p : Z) : option (list Z) :=
  r ← lpGet lp p (Some (replicate (Z.to_nat LP_INTBUF_SIZE) junk));
  match r with
  | RStr vstr vlen => rd vstr vlen lp
  | RBuf intbuf vlen => rd 0 vlen intbuf
  | RInt _ => None
  end.

Definition listPopSaver (data : list Z) : value := VStr data.

Definition listTypePop (h : heap) (subject : robj) (where_ : list_position) : option (heap * robj * option value) :=
  match subject with
  | OQuicklist ql =>
      '(h, ql, r) ← quicklistPopCustom junk in_data htab0 listPopSaver h ql (ql_end where_);
      Some (h, OQuicklist ql, match r with
                              | Some (Some v, _, _) => Some v
                              | Some (None, _, vlong) => Some (VInt vlong)
                              | None => None
                              end)
  | OListpack lp =>
      p ← (match where_ with LIST_HEAD => lpFirst lp | LIST_TAIL => lpLast lp end : option (option Z));
      match p with
      | None => Some (h, subject, None)
      | Some p =>
          s ← lp_string lp p;
          lp ← not_null (lpDelete junk lp p);
          Some (h, OListpack lp, Some (VStr s))
      end
  end.

(** [lpLength] may store the number in the header. *)
Definition listTypeLength (subject : robj) : option (robj * Z) :=
  match subject with
  | OQuicklist ql => Some (subject, quicklistCount ql)
  | OListpack lp => '(n, lp) ← lpLength lp; Some (OListpack lp, n)
  end.

(** ** Iterators *)

Definition iter_direction (d : list_position) : Adlist.direction :=
  match d with LIST_HEAD => Adlist.AL_START_TAIL | LIST_TAIL => Adlist.AL_START_HEAD end.

Definition listTypeInitIterator (h : heap) (subject : robj) (index : Z) (d : list_position) : option listTypeIterator :=
  match subject with
  | OQuicklist ql => it ← quicklistGetIteratorAtIdx h ql (iter_direction d) index; Some (mkListIter d (CQuicklist it))
  | OListpack lp => p ← lpSeek lp index; Some (mkListIter d (CListpack p))
  end.

Definition listTypeSetIteratorDirection (subject : robj) (li : listTypeIterator) (entry : listTypeEntry) (d : list_position) : option listTypeIterator :=
  if bool_decide (li_direction li = d) then Some li
  else
    match li_cursor li, subject, entry with
    | CQuicklist (Some it), _, _ => Some (mkListIter d (CQuicklist (Some (quicklistSetDirection it (iter_direction d)))))
    | CListpack _, OListpack lp, EListpack lpe =>
        p ← (match d with LIST_TAIL => lpNext lp lpe | LIST_HEAD => lpPrev lp lpe end : option (option Z));
        Some (mkListIter d (CListpack p))
    | _, _, _ => None
    end.

Definition listTypeReleaseIterator (h : heap) (subject : robj) (li : listTypeIterator) : option heap :=
  match li_cursor li, subject with
  | CQuicklist it, OQuicklist ql => quicklistReleaseIterator junk in_data htab0 h ql it
  | CListpack _, OListpack _ => Some h
  | _, _ => None
  end.

Definition listTypeNext (h : heap) (subject : robj) (li : listTypeIterator) : option (heap * listTypeIterator * option listTypeEntry) :=
  match li_cursor li, subject with
  | CQuicklist None, OQuicklist _ => Some (h, li, None)
  | CQuicklist (Some it), OQuicklist ql =>
      '(h, it, e) ← quicklistNext junk in_data htab0 h ql it;
      Some (h, mkListIter (li_direction li) (CQuicklist (Some it)), match e with Some e => Some (EQuicklist e) | None => None end)
  | CListpack None, OListpack _ => Some (h, li, None)
  | CListpack (Some p), OListpack lp =>
      q ← (match li_direction li with LIST_TAIL => lpNext lp p | LIST_HEAD => lpPrev lp p end : option (option Z));
      Some (h, mkListIter (li_direction li) (CListpack q), Some (EListpack p))
  | _, _ => None
  end.

(** The string and its length, or the integer. *)
Definition listTypeGetValue (subject : robj) (entry : listTypeEntry) : option value :=
  match entry, subject with
  | EQuicklist e, OQuicklist _ => Some (match e_value e with Some s => VStr s | None => VInt (e_longval e) end)
  | EListpack lpe, OListpack lp => get_value lp lpe
  | _, _ => None
  end.

(** A new object of the same value. *)
Definition listTypeGet (subject : robj) (entry : listTypeEntry) : option value := listTypeGetValue subject entry.

Definition listTypeInsert (h : heap) (subject : robj) (li : listTypeIterator) (entry : listTypeEntry) (v : value) (where_ : list_position)
    : option (heap * robj * listTypeIterator) :=
  str ← value_string v;
  match li_cursor li, subject, entry with
  | CQuicklist (Some it), OQuicklist ql, EQuicklist e =>
      '(h, ql, it) ← match where_ with
                     | LIST_TAIL => quicklistInsertAfter 0 junk in_data htab0 zmalloc h ql it e str
                     | LIST_HEAD => quicklistInsertBefore 0 junk in_data htab0 zmalloc h ql it e str
                     end;
      Some (h, OQuicklist ql, mkListIter (li_direction li) (CQuicklist (Some it)))
  | CListpack _, OListpack lp, EListpack lpe =>
      lp ← not_null (lpInsertString junk lp str lpe (match where_ with LIST_TAIL => LP_AFTER | LIST_HEAD => LP_BEFORE end));
      Some (h, OListpack lp, li)
  | _, _, _ => None
  end.

Definition listTypeReplace (h : heap) (subject : robj) (li : listTypeIterator) (entry : listTypeEntry) (v : value)
    : option (heap * robj * listTypeIterator) :=
  str ← value_string v;
  match li_cursor li, subject, entry with
  | CQuicklist (Some it), OQuicklist ql, EQuicklist e =>
      '(h, ql, it) ← quicklistReplaceEntry 0 junk in_data htab0 zmalloc h ql it e str;
      Some (h, OQuicklist ql, mkListIter (li_direction li) (CQuicklist (Some it)))
  | CListpack _, OListpack lp, EListpack lpe =>
      lp ← not_null (lpReplace junk lp lpe str);
      Some (h, OListpack lp, li)
  | _, _, _ => None
  end.

(** The parameter [index] is an [int]. *)
Definition listTypeReplaceAtIndex (h : heap) (o : robj) (index : Z) (v : value) : option (heap * robj * bool) :=
  let index := swrap 32 index in
  vstr ← value_string v;
  match o with
  | OQuicklist ql =>
      '(h, ql, replaced) ← quicklistReplaceAtIndex 0 junk in_data htab0 zmalloc h ql index vstr;
      Some (h, OQuicklist ql, replaced)
  | OListpack lp =>
      p ← lpSeek lp index;
      match p with
      | Some p => lp ← not_null (lpReplace junk lp p vstr); Some (h, OListpack lp, true)
      | None => Some (h, o, false)
      end
  end.

Definition listTypeEqual (subject : robj) (entry : listTypeEntry) (s : list Z) : option bool :=
  match entry, subject with
  | EQuicklist e, OQuicklist _ => Some (quicklistCompare e s)
  | EListpack lpe, OListpack lp => lpCompare lp lpe s
  | _, _ => None
  end.

Definition listTypeDelete (h : heap) (subject : robj) (li : listTypeIterator) (entry : listTypeEntry) : option (heap * robj * listTypeIterator) :=
  match li_cursor li, subject, entry with
  | CQuicklist (Some it), OQuicklist ql, EQuicklist e =>
      '(h, ql, it, _) ← quicklistDelEntry junk in_data htab0 h ql it e;
      Some (h, OQuicklist ql, mkListIter (li_direction li) (CQuicklist (Some it)))
  | CListpack _, OListpack lp, EListpack lpe =>
      r ← lpDelete junk lp lpe;
      '(lp, p) ← r;
      lpi ← (match li_direction li, p with
             | LIST_TAIL, _ => Some p
             | LIST_HEAD, Some p => lpPrev lp p
             | LIST_HEAD, None => lpLast lp
             end : option (option Z));
      Some (h, OListpack lp, mkListIter (li_direction li) (CListpack lpi))
  | _, _, _ => None
  end.

Definition listTypeDup (h : heap) (o : robj) : option (heap * robj) :=
  match o with
  | OListpack lp => lp ← lpDup junk lp; Some (h, OListpack lp)
  | OQuicklist ql => '(h, ql) ← quicklistDup junk in_data htab0 zmalloc h ql; Some (h, OQuicklist ql)
  end.

(** [count] is converted to an [unsigned long] for the listpack. *)
Definition listTypeDelRange (h : heap) (subject : robj) (start count : Z) : option (heap * robj) :=
  match subject with
  | OQuicklist ql => '(h, ql, _) ← quicklistDelRange junk in_data htab0 h ql start count; Some (h, OQuicklist ql)
  | OListpack lp => lp ← lpDeleteRange junk lp start (uwrap 64 count); Some (h, OListpack lp)
  end.
End ListType.
End ListType.

(** * Lists: the commands ([src/redis-stable/src/t_list.c])

    The commands on a data base whose values are lists: a finite map from keys to
    objects and the heap of the nodes of all quicklists; deleting a key frees its
    value.  A pointer to a value is its key.  Notifications, propagation, statistics
    and the dirty counter are left out, and so are WRONGTYPE, which no command here can
    cause, and blocking.  Too few arguments are refused before a command is called. *)

Module ListCommands.
Import Linked Quicklist Listpack ListpackElem ListpackEdit ListpackValues ListType.

Abbreviation key := (list Z).
Abbreviation db := (gmap key robj).

Inductive error := ErrSyntax | ErrNotInteger | ErrRange | ErrNotPositive | ErrNoKey | ErrIndex | ErrRankZero | ErrCount | ErrMaxlen | ErrNumkeys | ErrArity.

Inductive reply :=
  | ReplyInt (n : Z)
  | ReplyBulk (s : option (list Z))
  | ReplyArray (l : option (list (list Z)))
  | ReplyInts (l : list Z)
  | ReplyKeyed (k : key) (l : list (list Z))
  | ReplyOK
  | ReplyError (e : error).

(** ** Arguments *)

Definition getLongFromObjectOrReply (s : list Z) (msg : error) : error + Z :=
  match Util.string2ll s with Some v => inr v | None => inl msg end.

(** [msg], if it is not NULL, is the answer to both errors. *)
Definition getRangeLongFromObjectOrReply (s : list Z) (min max : Z) (msg : option error) : error + Z :=
  match getLongFromObjectOrReply s (default ErrNotInteger msg) with
  | inl e => inl e
  | inr v => if (v <? min) || (max <? v) then inl (default ErrRange msg) else inr v
  end.

Definition getPositiveLongFromObjectOrReply (s : list Z) (msg : option error) : error + Z :=
  getRangeLongFromObjectOrReply s 0 INT64_MAX (Some (default ErrNotPositive msg)).

(** [strcasecmp(a, b) == 0] *)
Fixpoint c_str (s : list Z) : list Z :=
  match s with
  | [] => []
  | c :: s => if c =? 0 then [] else c :: c_str s
  end.
Definition strcasecmp_eq (a b : list Z) : bool := bool_decide (Glob.tolower <$> c_str a = Glob.tolower <$> c_str b).

Definition getListPositionFromObjectOrReply (arg : list Z) : error + list_position :=
  if strcasecmp_eq arg (bytes_of_string "right"%string) then inr LIST_TAIL
  else if strcasecmp_eq arg (bytes_of_string "left"%string) then inr LIST_HEAD
  else inl ErrSyntax.

Section Commands.
Context (server : redisServer) (junk : Z) (in_data : heap → Z) (htab0 : heap → Z → Z) (zmalloc : heap → address).

Abbreviation convertAppend := (listTypeTryConversionAppend server junk in_data htab0 zmalloc).
Abbreviation push := (listTypePush junk in_data htab0 zmalloc).
Abbreviation pop := (listTypePop junk in_data htab0).
Abbreviation next_entry := (listTypeNext junk in_data htab0).
Abbreviation release := (listTypeReleaseIterator junk in_data htab0).

(** Steps that are enough for any iteration. *)
Definition iter_fuel (o : robj) : nat :=
  match o with OListpack lp => S (length lp) | OQuicklist ql => S (Z.to_nat (quicklistCount ql)) end.

(** [dbDelete]: the key is removed and its value freed, as [freeListObject] does; expiry,
    modules and blocked clients have no part here. *)
Definition dbDelete (h : heap) (c_db : db) (k : key) : option (heap * db) :=
  match c_db !! k with
  | Some (OQuicklist ql) => h ← quicklistRelease h ql; Some (h, delete k c_db)
  | _ => Some (h, delete k c_db)
  end.

(** ** Adding *)

(** [for (j = 2; j < c->argc; j++) listTypePush(lobj,c->argv[j],where);] *)
Fixpoint push_all (h : heap) (lobj : robj) (argv : list (list Z)) (where_ : list_position) : option (heap * robj) :=
  match argv with
  | [] => Some (h, lobj)
  | v :: argv => '(h, lobj) ← push h lobj (VStr v) where_; push_all h lobj argv where_
  end.

(** [argv] from [argv[2]] on. *)
Definition pushGenericCommand (h : heap) (c_db : db) (k : key) (argv : list (list Z)) (where_ : list_position) (xx : bool)
    : option (heap * db * reply) :=
  match c_db !! k, xx with
  | None, true => Some (h, c_db, ReplyInt 0)
  | found, _ =>
      lobj ← match found with Some lobj => Some lobj | None => createListListpackObject junk end;
      '(h, lobj) ← convertAppend h lobj (VStr <$> argv);
      '(h, lobj) ← push_all h lobj argv where_;
      '(lobj, llen) ← listTypeLength lobj;
      Some (h, <[k := lobj]> c_db, ReplyInt llen)
  end.

Definition lpushCommand h c_db k argv := pushGenericCommand h c_db k argv LIST_HEAD false.
Definition rpushCommand h c_db k argv := pushGenericCommand h c_db k argv LIST_TAIL false.
Definition lpushxCommand h c_db k argv := pushGenericCommand h c_db k argv LIST_HEAD true.
Definition rpushxCommand h c_db k argv := pushGenericCommand h c_db k argv LIST_TAIL true.

(** The search of the pivot and the insertion; the boolean is [inserted]. *)
Fixpoint pivot_loop (fuel : nat) (h : heap) (subject : robj) (iter : listTypeIterator) (pivot ele : list Z) (where_ : list_position)
    : option (heap * robj * listTypeIterator * bool) :=
  match fuel with
  | O => None
  | S fuel =>
      '(h, iter, entry) ← next_entry h subject iter;
      match entry with
      | None => Some (h, subject, iter, false)
      | Some entry =>
          b ← listTypeEqual subject entry pivot;
          if (b : bool) then
            '(h, subject, iter) ← listTypeInsert junk in_data htab0 zmalloc h subject iter entry (VStr ele) where_;
            Some (h, subject, iter, true)
          else pivot_loop fuel h subject iter pivot ele where_
      end
  end.

Definition linsertCommand (h : heap) (c_db : db) (k : key) (where_arg pivot ele : list Z) : option (heap * db * reply) :=
  match (if strcasecmp_eq where_arg (bytes_of_string "after"%string) then Some LIST_TAIL
         else if strcasecmp_eq where_arg (bytes_of_string "before"%string) then Some LIST_HEAD
         else None) with
  | None => Some (h, c_db, ReplyError ErrSyntax)
  | Some where_ =>
      match c_db !! k with
      | None => Some (h, c_db, ReplyInt 0)
      | Some subject =>
          '(h, subject) ← convertAppend h subject [VStr ele];
          iter ← listTypeInitIterator h subject 0 LIST_TAIL;
          '(h, subject, iter, inserted) ← pivot_loop (iter_fuel subject) h subject iter pivot ele where_;
          h ← release h subject iter;
          if (inserted : bool) then
            '(subject, ll) ← listTypeLength subject;
            Some (h, <[k := subject]> c_db, ReplyInt ll)
          else Some (h, <[k := subject]> c_db, ReplyInt (-1))
      end
  end.

(** ** One element *)

Definition llenCommand (h : heap) (c_db : db) (k : key) : option (heap * db * reply) :=
  match c_db !! k with
  | None => Some (h, c_db, ReplyInt 0)
  | Some o => '(o, n) ← listTypeLength o; Some (h, <[k := o]> c_db, ReplyInt n)
  end.

Definition lindexCommand (h : heap) (c_db : db) (k : key) (arg : list Z) : option (heap * db * reply) :=
  match c_db !! k with
  | None => Some (h, c_db, ReplyBulk None)
  | Some o =>
      match getLongFromObjectOrReply arg ErrNotInteger with
      | inl e => Some (h, c_db, ReplyError e)
      | inr index =>
          iter ← listTypeInitIterator h o index LIST_TAIL;
          '(h, iter, entry) ← next_entry h o iter;
          r ← match entry with
              | Some entry => v ← listTypeGetValue o entry; s ← value_string v; Some (Some s)
              | None => Some None
              end;
          h ← release h o iter;
          Some (h, c_db, ReplyBulk r)
      end
  end.

Definition lsetCommand (h : heap) (c_db : db) (k : key) (arg ele : list Z) : option (heap * db * reply) :=
  match c_db !! k with
  | None => Some (h, c_db, ReplyError ErrNoKey)
  | Some o =>
      match getLongFromObjectOrReply arg ErrNotInteger with
      | inl e => Some (h, c_db, ReplyError e)
      | inr index =>
          '(h, o) ← convertAppend h o [VStr ele];
          '(h, o, replaced) ← listTypeReplaceAtIndex junk in_data htab0 zmalloc h o index (VStr ele);
          if (replaced : bool) then
            '(h, o) ← listTypeTryConversion server junk in_data htab0 zmalloc h o LIST_CONV_SHRINKING;
            Some (h, <[k := o]> c_db, ReplyOK)
          else Some (h, <[k := o]> c_db, ReplyError ErrIndex)
      end
  end.

(** ** Ranges *)

Fixpoint quicklist_range_loop (n : nat) (h : heap) (ql : quicklist) (iter : quicklistIter) : option (heap * quicklistIter * list (list Z)) :=
  match n with
  | O => Some (h, iter, [])
  | S n =>
      '(h, iter, qe) ← quicklistNext junk in_data htab0 h ql iter;
      qe ← qe;
      s ← value_string (match e_value qe with Some s => VStr s | None => VInt (e_longval qe) end);
      '(h, iter, l) ← quicklist_range_loop n h ql iter;
      Some (h, iter, s :: l)
  end.

(** The parameters are of type [int]; a negative length would not end the loop. *)
Definition addListQuicklistRangeReply (h : heap) (ql : quicklist) (from rangelen : Z) (reverse : bool) : option (heap * list (list Z)) :=
  let from := swrap 32 from in
  let rangelen := swrap 32 rangelen in
  if rangelen <? 0 then None
  else
    iter ← quicklistGetIteratorAtIdx h ql (if reverse then Adlist.AL_START_TAIL else Adlist.AL_START_HEAD) from;
    match iter with
    | None => if rangelen =? 0 then Some (h, []) else None
    | Some iter =>
        '(h, iter, l) ← quicklist_range_loop (Z.to_nat rangelen) h ql iter;
        h ← quicklistReleaseIterator junk in_data htab0 h ql (Some iter);
        Some (h, l)
    end.

Fixpoint listpack_range_loop (n : nat) (lp : list Z) (lpbytes : Z) (p : option Z) (reverse : bool) : option (list (list Z)) :=
  match n with
  | O => Some []
  | S n =>
      p ← p;
      s ← lp_string junk lp p;
      q ← (if reverse then lpPrev lp p else lpNextWithBytes lp p lpbytes);
      l ← listpack_range_loop n lp lpbytes q reverse;
      Some (s :: l)
  end.

Definition addListListpackRangeReply (lp : list Z) (from rangelen : Z) (reverse : bool) : option (list (list Z)) :=
  let from := swrap 32 from in
  let rangelen := swrap 32 rangelen in
  if rangelen <? 0 then None
  else
    p ← lpSeek lp from;
    lpbytes ← lpBytes lp;
    listpack_range_loop (Z.to_nat rangelen) lp lpbytes p reverse.

Definition addListRangeReply (h : heap) (o : robj) (start end_ : Z) (reverse : bool) : option (heap * robj * list (list Z)) :=
  '(o, llen) ← listTypeLength o;
  let start := if start <? 0 then llen + start else start in
  let end_ := if end_ <? 0 then llen + end_ else end_ in
  let start := if start <? 0 then 0 else start in
  if (end_ <? start) || (llen <=? start) then Some (h, o, [])
  else
    let end_ := if llen <=? end_ then llen - 1 else end_ in
    let rangelen := end_ - start + 1 in
    let from := if reverse then end_ else start in
    match o with
    | OQuicklist ql => '(h, l) ← addListQuicklistRangeReply h ql from rangelen reverse; Some (h, o, l)
    | OListpack lp => l ← addListListpackRangeReply lp from rangelen reverse; Some (h, o, l)
    end.

Definition lrangeCommand (h : heap) (c_db : db) (k : key) (arg1 arg2 : list Z) : option (heap * db * reply) :=
  match getLongFromObjectOrReply arg1 ErrNotInteger with
  | inl e => Some (h, c_db, ReplyError e)
  | inr start =>
      match getLongFromObjectOrReply arg2 ErrNotInteger with
      | inl e => Some (h, c_db, ReplyError e)
      | inr end_ =>
          match c_db !! k with
          | None => Some (h, c_db, ReplyArray (Some []))
          | Some o => '(h, o, l) ← addListRangeReply h o start end_ false; Some (h, <[k := o]> c_db, ReplyArray (Some l))
          end
      end
  end.

(** ** Removing *)

Definition listElementsRemoved (h : heap) (c_db : db) (k : key) (o : robj) : option (heap * db) :=
  '(o, llen) ← listTypeLength o;
  if llen =? 0 then dbDelete h (<[k := o]> c_db) k
  else
    '(h, o) ← listTypeTryConversion server junk in_data htab0 zmalloc h o LIST_CONV_SHRINKING;
    Some (h, <[k := o]> c_db).

(** The elements at an end, in the order they are popped, are sent and deleted. *)
Definition pop_range (h : heap) (c_db : db) (k : key) (o : robj) (where_ : list_position) (count : Z) : option (heap * db * list (list Z)) :=
  '(o, llen) ← listTypeLength o;
  let rangelen := if llen <? count then llen else count in
  let rangestart := match where_ with LIST_HEAD => 0 | LIST_TAIL => - rangelen end in
  let rangeend := match where_ with LIST_HEAD => rangelen - 1 | LIST_TAIL => -1 end in
  '(h, o, l) ← addListRangeReply h o rangestart rangeend (bool_decide (where_ = LIST_TAIL));
  '(h, o) ← listTypeDelRange junk in_data htab0 h o rangestart rangelen;
  '(h, c_db) ← listElementsRemoved h c_db k o;
  Some (h, c_db, l).

Definition listPopRangeAndReplyWithKey (h : heap) (c_db : db) (o : robj) (k : key) (where_ : list_position) (count : Z)
    : option (heap * db * reply) :=
  '(h, c_db, l) ← pop_range h c_db k o where_ count;
  Some (h, c_db, ReplyKeyed k l).

(** [argv] from [argv[2]] on. *)
Definition popGenericCommand (h : heap) (c_db : db) (k : key) (argv : list (list Z)) (where_ : list_position)
    : option (heap * db * reply) :=
  let count_arg := argv !! 0%nat in
  if 1 <? zlen argv then Some (h, c_db, ReplyError ErrArity)
  else match (match count_arg with Some arg => getPositiveLongFromObjectOrReply arg None | None => inr 0 end) with
  | inl e => Some (h, c_db, ReplyError e)
  | inr count =>
      let hascount := bool_decide (is_Some count_arg) in
      match c_db !! k with
      | None => Some (h, c_db, if hascount then ReplyArray None else ReplyBulk None)
      | Some o =>
          if hascount && (count =? 0) then Some (h, c_db, ReplyArray (Some []))
          else if count =? 0 then
            '(h, o, v) ← pop h o where_;
            v ← v;
            s ← value_string v;
            '(h, c_db) ← listElementsRemoved h c_db k o;
            Some (h, c_db, ReplyBulk (Some s))
          else
            '(h, c_db, l) ← pop_range h c_db k o where_ count;
            Some (h, c_db, ReplyArray (Some l))
      end
  end.

Definition lpopCommand h c_db k argv := popGenericCommand h c_db k argv LIST_HEAD.
Definition rpopCommand h c_db k argv := popGenericCommand h c_db k argv LIST_TAIL.

Fixpoint mpopGenericCommand (h : heap) (c_db : db) (keys : list key) (where_ : list_position) (count : Z) : option (heap * db * reply) :=
  match keys with
  | [] => Some (h, c_db, ReplyArray None)
  | k :: keys =>
      match c_db !! k with
      | None => mpopGenericCommand h c_db keys where_ count
      | Some o =>
          '(o, llen) ← listTypeLength o;
          let c_db := <[k := o]> c_db in
          if llen =? 0 then mpopGenericCommand h c_db keys where_ count
          else listPopRangeAndReplyWithKey h c_db o k where_ count
      end
  end.

(** The options after the position: [COUNT count]. *)
Fixpoint lmpop_options (fuel : nat) (argv : list (list Z)) (count : Z) : error + Z :=
  match fuel, argv with
  | _, [] => inr count
  | O, _ => inl ErrSyntax
  | S fuel, opt :: argv =>
      match argv with
      | arg :: argv =>
          if (count =? -1) && strcasecmp_eq opt (bytes_of_string "COUNT"%string) then
            match getRangeLongFromObjectOrReply arg 1 INT64_MAX (Some ErrCount) with
            | inl e => inl e
            | inr count => lmpop_options fuel argv count
            end
          else inl ErrSyntax
      | [] => inl ErrSyntax
      end
  end.

(** LMPOP: [argv] from [argv[1]] on; the keys, the position and [count].  The sum that gives
    [where_idx] is a [long]; its overflow is undefined. *)
Definition lmpop_args (argv : list (list Z)) : option (error + list key * list_position * Z) :=
  arg ← argv !! 0%nat;
  match getRangeLongFromObjectOrReply arg 1 INT64_MAX (Some ErrNumkeys) with
  | inl e => Some (inl e)
  | inr numkeys =>
      let where_idx := 1 + numkeys + 1 in
      if INT64_MAX <? where_idx then None
      else if zlen argv + 1 <=? where_idx then Some (inl ErrSyntax)
      else
        warg ← argv !! Z.to_nat (where_idx - 1);
        match getListPositionFromObjectOrReply warg with
        | inl e => Some (inl e)
        | inr where_ =>
            let options := drop (Z.to_nat where_idx) argv in
            match lmpop_options (length options) options (-1) with
            | inl e => Some (inl e)
            | inr count => Some (inr (take (Z.to_nat numkeys) (drop 1 argv), where_, if count =? -1 then 1 else count))
            end
        end
  end.

Definition lmpopCommand (h : heap) (c_db : db) (argv : list (list Z)) : option (heap * db * reply) :=
  args ← lmpop_args argv;
  match args with
  | inl e => Some (h, c_db, ReplyError e)
  | inr (keys, where_, count) => mpopGenericCommand h c_db keys where_ count
  end.

(** What to keep: the number of elements to remove at each end. *)
Definition trim_ends (llen start end_ : Z) : Z * Z :=
  let start := if start <? 0 then llen + start else start in
  let end_ := if end_ <? 0 then llen + end_ else end_ in
  let start := if start <? 0 then 0 else start in
  if (end_ <? start) || (llen <=? start) then (llen, 0)
  else
    let end_ := if llen <=? end_ then llen - 1 else end_ in
    (start, llen - end_ - 1).

Definition ltrimCommand (h : heap) (c_db : db) (k : key) (arg1 arg2 : list Z) : option (heap * db * reply) :=
  match getLongFromObjectOrReply arg1 ErrNotInteger with
  | inl e => Some (h, c_db, ReplyError e)
  | inr start =>
      match getLongFromObjectOrReply arg2 ErrNotInteger with
      | inl e => Some (h, c_db, ReplyError e)
      | inr end_ =>
          match c_db !! k with
          | None => Some (h, c_db, ReplyOK)
          | Some o =>
              '(o, llen) ← listTypeLength o;
              let '(ltrim, rtrim) := trim_ends llen start end_ in
              '(h, o) ← listTypeDelRange junk in_data htab0 h o 0 ltrim;
              '(h, o) ← listTypeDelRange junk in_data htab0 h o (- rtrim) rtrim;
              '(h, c_db) ← listElementsRemoved h c_db k o;
              Some (h, c_db, ReplyOK)
          end
      end
  end.

(** The loop of LREM; the number is [removed]. *)
Fixpoint rem_loop (fuel : nat) (h : heap) (subject : robj) (li : listTypeIterator) (obj : list Z) (toremove removed : Z)
    : option (heap * robj * listTypeIterator * Z) :=
  match fuel with
  | O => None
  | S fuel =>
      '(h, li, entry) ← next_entry h subject li;
      match entry with
      | None => Some (h, subject, li, removed)
      | Some entry =>
          b ← listTypeEqual subject entry obj;
          if (b : bool) then
            '(h, subject, li) ← listTypeDelete junk in_data htab0 h subject li entry;
            let removed := removed + 1 in
            if negb (toremove =? 0) && (removed =? toremove) then Some (h, subject, li, removed)
            else rem_loop fuel h subject li obj toremove removed
          else rem_loop fuel h subject li obj toremove removed
      end
  end.

Definition lremCommand (h : heap) (c_db : db) (k : key) (arg obj : list Z) : option (heap * db * reply) :=
  match getRangeLongFromObjectOrReply arg (- INT64_MAX) INT64_MAX None with
  | inl e => Some (h, c_db, ReplyError e)
  | inr toremove =>
      match c_db !! k with
      | None => Some (h, c_db, ReplyInt 0)
      | Some subject =>
          li ← (if toremove <? 0 then listTypeInitIterator h subject (-1) LIST_HEAD
                else listTypeInitIterator h subject 0 LIST_TAIL);
          '(h, subject, li, removed) ← rem_loop (iter_fuel subject) h subject li obj (Z.abs toremove) 0;
          h ← release h subject li;
          '(h, c_db) ← (if negb (removed =? 0) then listElementsRemoved h c_db k subject
                        else Some (h, <[k := subject]> c_db));
          Some (h, c_db, ReplyInt removed)
      end
  end.

(** ** Positions *)

Record lpos_args := mkLpos { lpos_rank : Z; lpos_count : Z; lpos_maxlen : Z }.

Fixpoint lpos_options (fuel : nat) (argv : list (list Z)) (a : lpos_args) : error + lpos_args :=
  match fuel, argv with
  | _, [] => inr a
  | O, _ => inl ErrSyntax
  | S fuel, opt :: argv =>
      match argv with
      | [] => inl ErrSyntax
      | arg :: argv =>
          if strcasecmp_eq opt (bytes_of_string "RANK"%string) then
            match getRangeLongFromObjectOrReply arg (- INT64_MAX) INT64_MAX None with
            | inl e => inl e
            | inr rank => if rank =? 0 then inl ErrRankZero else lpos_options fuel argv (mkLpos rank (lpos_count a) (lpos_maxlen a))
            end
          else if strcasecmp_eq opt (bytes_of_string "COUNT"%string) then
            match getPositiveLongFromObjectOrReply arg (Some ErrCount) with
            | inl e => inl e
            | inr count => lpos_options fuel argv (mkLpos (lpos_rank a) count (lpos_maxlen a))
            end
          else if strcasecmp_eq opt (bytes_of_string "MAXLEN"%string) then
            match getPositiveLongFromObjectOrReply arg (Some ErrMaxlen) with
            | inl e => inl e
            | inr maxlen => lpos_options fuel argv (mkLpos (lpos_rank a) (lpos_count a) maxlen)
            end
          else inl ErrSyntax
      end
  end.

(** The loop; the results are [matchindex] and the indexes sent. *)
Fixpoint pos_loop (fuel : nat) (h : heap) (o : robj) (li : listTypeIterator) (ele : list Z) (llen : Z) (a : lpos_args)
    (index matches : Z) : option (heap * listTypeIterator * Z * list Z) :=
  match fuel with
  | O => None
  | S fuel =>
      '(h, li, entry) ← next_entry h o li;
      match entry with
      | None => Some (h, li, -1, [])
      | Some entry =>
          if negb ((lpos_maxlen a =? 0) || (index <? lpos_maxlen a)) then Some (h, li, -1, [])
          else
            b ← listTypeEqual o entry ele;
            if (b : bool) then
              let matches := matches + 1 in
              let matchindex := match li_direction li with LIST_TAIL => index | LIST_HEAD => llen - index - 1 end in
              if lpos_rank a <=? matches then
                if negb (lpos_count a =? -1) then
                  if negb (lpos_count a =? 0) && (lpos_count a <=? matches - lpos_rank a + 1) then Some (h, li, matchindex, [matchindex])
                  else
                    '(h, li, r, l) ← pos_loop fuel h o li ele llen a (index + 1) matches;
                    Some (h, li, r, matchindex :: l)
                else Some (h, li, matchindex, [])
              else pos_loop fuel h o li ele llen a (index + 1) matches
            else pos_loop fuel h o li ele llen a (index + 1) matches
      end
  end.

(** [argv] from [argv[3]] on. *)
Definition lposCommand (h : heap) (c_db : db) (k : key) (ele : list Z) (argv : list (list Z)) : option (heap * db * reply) :=
  match lpos_options (length argv) argv (mkLpos 1 (-1) 0) with
  | inl e => Some (h, c_db, ReplyError e)
  | inr a =>
      let direction := if lpos_rank a <? 0 then LIST_HEAD else LIST_TAIL in
      let a := mkLpos (Z.abs (lpos_rank a)) (lpos_count a) (lpos_maxlen a) in
      match c_db !! k with
      | None => Some (h, c_db, if negb (lpos_count a =? -1) then ReplyInts [] else ReplyBulk None)
      | Some o =>
          li ← listTypeInitIterator h o (match direction with LIST_HEAD => -1 | LIST_TAIL => 0 end) direction;
          '(o, llen) ← listTypeLength o;
          '(h, li, matchindex, l) ← pos_loop (iter_fuel o) h o li ele llen a 0 0;
          h ← release h o li;
          Some (h, <[k := o]> c_db,
                if negb (lpos_count a =? -1) then ReplyInts l
                else if negb (matchindex =? -1) then ReplyInt matchindex
                else ReplyBulk None)
      end
  end.

(** ** Moving *)

Definition lmoveHandlePush (h : heap) (c_db : db) (dstkey : key) (v : value) (where_ : list_position) : option (heap * db * reply) :=
  dstobj ← match c_db !! dstkey with Some dstobj => Some dstobj | None => createListListpackObject junk end;
  '(h, dstobj) ← convertAppend h dstobj [v];
  '(h, dstobj) ← push h dstobj v where_;
  '(dstobj, _) ← listTypeLength dstobj;
  s ← value_string v;
  Some (h, <[dstkey := dstobj]> c_db, ReplyBulk (Some s)).

Definition lmoveGenericCommand (h : heap) (c_db : db) (src dst : key) (wherefrom whereto : list_position) : option (heap * db * reply) :=
  match c_db !! src with
  | None => Some (h, c_db, ReplyBulk None)
  | Some sobj =>
      '(sobj, llen) ← listTypeLength sobj;
      if llen =? 0 then Some (h, <[src := sobj]> c_db, ReplyBulk None)
      else
        '(h, sobj, v) ← pop h sobj wherefrom;
        v ← v;
        '(h, c_db, r) ← lmoveHandlePush h (<[src := sobj]> c_db) dst v whereto;
        sobj ← c_db !! src;
        '(h, c_db) ← listElementsRemoved h c_db src sobj;
        Some (h, c_db, r)
  end.

Definition lmoveCommand (h : heap) (c_db : db) (src dst : key) (arg1 arg2 : list Z) : option (heap * db * reply) :=
  match getListPositionFromObjectOrReply arg1 with
  | inl e => Some (h, c_db, ReplyError e)
  | inr wherefrom =>
      match getListPositionFromObjectOrReply arg2 with
      | inl e => Some (h, c_db, ReplyError e)
      | inr whereto => lmoveGenericCommand h c_db src dst wherefrom whereto
      end
  end.

Definition rpoplpushCommand (h : heap) (c_db : db) (src dst : key) : option (heap * db * reply) :=
  lmoveGenericCommand h c_db src dst LIST_TAIL LIST_HEAD.
End Commands.
End ListCommands.
