(* ===== verification/ListRepr.v ===== *)
(** * Lists: representation

    [lobj h0 h o l]: the heap is [h0] with the cells of the list [o], which stands for
    the byte strings [l].  Conversions between the encodings, the ends of the list. *)

From stdpp Require Import gmap.
From S2P Require Import Prelude Util Lzf LzfProofs Listpack ListpackRepr ListpackElem ListpackEdit ListpackValues Linked Adlist Post Quicklist QuicklistRepr QuicklistNodes QuicklistCompress QuicklistEdit QuicklistPush QuicklistPop QuicklistIter QuicklistSeek QuicklistInsert QuicklistReplace QuicklistRange QuicklistDup QuicklistHistory ListType.

Module ListRepr.
Import Adlist Post Linked Quicklist QuicklistRepr QuicklistNodes QuicklistCompress QuicklistEdit QuicklistPush QuicklistPop QuicklistIter QuicklistSeek QuicklistInsert QuicklistReplace QuicklistRange QuicklistDup QuicklistHistory Listpack ListpackElem ListpackEdit ListpackRepr ListpackValues ListType.

Implicit Types (h : heap) (l : list (list Z)) (o : robj).

(** The sizes of the listpacks and the compression depth; with a fill factor of -5 a
    listpack could get more elements than a node of a quicklist can be shown to take. *)
Record config_ok (server : redisServer) : Prop := {
  cfg_fill : -4 <= list_max_listpack_size server <= FILL_MAX;
  cfg_depth : 0 <= list_compress_depth server <= COMPRESS_MAX
}.

(** ** Elements *)

Lemma value_string_spec v : value_ok v → value_string v = Some (vbytes v).
Proof. destruct v as [s|n]; [done|]. intros Hn. apply (print_int 0 32 n Hn). unfold Util.LONG_STR_SIZE. lia. Qed.

(** An integer is stored as the string of its digits would be. *)
Lemma enc_int n : is_int64 n → enc_str (Util.sdec n) = (zlen (lpEncodeIntegerGetType n), lpEncodeIntegerGetType n).
Proof. intros Hn. unfold enc_str, lpEncodeGetType. by rewrite lpStringToInt64_eq, sdec_int. Qed.

Lemma append_int junk lp n : is_int64 n → lpAppendInteger junk lp n = lpAppend junk lp (Util.sdec n).
Proof. intros Hn. unfold lpAppendInteger, lpAppend, lpInsertInteger, lpInsert. by rewrite enc_int. Qed.

Lemma prepend_int junk lp n : is_int64 n → lpPrependInteger junk lp n = lpPrepend junk lp (Util.sdec n).
Proof. intros Hn. unfold lpPrependInteger, lpPrepend, lpInsertInteger, lpInsert. by rewrite enc_int, append_int. Qed.

(** ** Sizes *)

(** The bytes of the arguments that are counted. *)
Definition args_bytes (argv : list value) : Z := foldr (λ v n, match v with VStr s => zlen s | VInt _ => 0 end + n) 0 argv.

Lemma args_bytes_range argv : Forall value_ok argv → 0 <= args_bytes argv <= zlen argv * INT32_MAX.
Proof.
  unfold INT32_MAX. induction 1 as [|v argv Hv _ IH]; [done|]. simpl. rewrite zlen_cons. destruct v as [s|n]; [|lia].
  destruct Hv as [_ Hv]. unfold INT32_MAX in Hv. pose proof (zlen_nonneg s). lia.
Qed.

Lemma args_bytes_each argv s : Forall value_ok argv → VStr s ∈ argv → zlen s <= args_bytes argv.
Proof.
  induction 1 as [|v argv Hv Hf IH]; [by intros ?%elem_of_nil|]. pose proof (args_bytes_range argv Hf) as Hr. simpl.
  intros [<-|Hs]%elem_of_cons; [lia|]. specialize (IH Hs). destruct v as [t|n]; [pose proof (zlen_nonneg t)|]; lia.
Qed.

Lemma added_size_spec argv : Forall value_ok argv → zlen argv <= INT32_MAX → added_size (Some argv) = (args_bytes argv, zlen argv).
Proof.
  intros Hf Hl. unfold added_size. f_equal. pose proof (args_bytes_range argv Hf) as Hr. unfold INT32_MAX in *.
  assert (∀ n, 0 <= n → n + args_bytes argv < 2 ^ 64 →
    foldl (λ n v, match v with VStr s => uwrap 64 (n + zlen s) | VInt _ => n end) n argv = n + args_bytes argv) as H; [|by rewrite H by nia].
  clear Hl Hr. induction Hf as [|v argv Hv Hf IH]; intros n Hn Hb; simpl in *; [lia|]. pose proof (args_bytes_range argv Hf).
  destruct v as [t|m]; cbv beta iota in *; [|rewrite IH by (clear IH; lia); lia]. pose proof (zlen_nonneg t). rewrite uwrap_id by lia. rewrite IH by lia. lia.
Qed.

Lemma exceeds_fits f new_sz new_count : fill_ok f → ∃ b, quicklistNodeExceedsLimit f new_sz new_count = Some b ∧
  (b = false → new_sz <= limit f ∧ (0 <= f → new_count <= 32767)).
Proof.
  intros Hf. unfold quicklistNodeExceedsLimit, quicklistNodeLimit. pose proof Hf as [_ Hmax]. unfold FILL_MAX, SIZE_MAX, UINT_MAX, UINT64_MAX, UINT32_MAX in *.
  destruct (limit_cases f Hf) as [(Hf0 & -> & _)|(Hf0 & E & Hl & _)].
  - rewrite (proj2 (Z.leb_le _ _)) by done. cbn [mbind option_bind]. rewrite Z.eqb_refl. simpl.
    assert ((if f =? 0 then 1 else f) <= 32767) as Hc by (case_if; lia). rewrite (proj2 (Z.eqb_neq _ _)) by (case_if; lia). simpl.
    eexists. split; [done|]. unfold sizeMeetsSafetyLimit, SIZE_SAFETY_LIMIT. destruct (new_sz <=? 8192) eqn:E; simpl; [|done]. intros ?. zb. lia.
  - rewrite (proj2 (Z.leb_gt _ _)) by lia. rewrite E. cbn [mbind option_bind]. rewrite (proj2 (Z.eqb_neq _ _)) by lia. simpl.
    eexists. split; [done|]. intros ?. zb. lia.
Qed.

Section Repr.
Context (server : redisServer) (junk : Z) (Hjunk : is_byte junk) (in_data : heap → Z) (htab0 : heap → Z → Z) (zmalloc : heap → address).
Context (Hcfg : config_ok server).
Context (Hin : ∀ h, Lzf.MAX_OFF <= in_data h ∧ in_data h + INT32_MAX < 2 ^ 64) (Htab : ∀ h i, 0 <= htab0 h i < 2 ^ 64).
Context (Hmalloc : ∀ h, h !! zmalloc h = None).
Let f := list_max_listpack_size server.
Let c := list_compress_depth server.

Lemma fill_fine : fill_ok f.
Proof using Hcfg. destruct Hcfg as [? _]. unfold fill_ok, f. lia. Qed.

Definition lobj h0 h o l : Prop :=
  match o with
  | OListpack lp => h = h0 ∧ ∃ es, packed f lp es ∧ strs es = l
  | OQuicklist ql => stands h0 h ql l ∧ fill ql = f ∧ compress ql = c
  end.

Lemma stands_strs h0 h q l : stands h0 h q l → Forall str_ok l.
Proof.
  intros (ns & vss & [Hq _] & <-). pose proof (qi_reads _ _ _ _ _ _ Hq) as Hr. clear Hq. induction Hr as [|p vs ns vss Hc _ IH]; [constructor|].
  simpl. apply list.Forall_app. split; [by eapply content_strs|done].
Qed.

Lemma lobj_strs h0 h o l : lobj h0 h o l → Forall str_ok l.
Proof. destruct o as [lp|ql]; simpl; [by intros (_ & es & [] & <-)|]. intros [H _]. by eapply stands_strs. Qed.

Lemma stands_swap h0 h1 h q l q' l' : stands h0 h1 q l → stands h1 h q' l' → ∃ h', stands h0 h' q' l' ∧ stands h' h q l.
Proof.
  intros (ns & vss & [Hq Hn] & El) (ns' & vss' & [Hq' Hn'] & El').
  destruct (holds_swap _ _ _ _ _ _ _ (qi_holds _ _ _ _ _ _ Hq) (qi_holds _ _ _ _ _ _ Hq')) as (h' & H1 & H2). exists h'. split.
  - exists ns', vss'. split; [|done]. split; [|done]. by destruct Hq'.
  - exists ns, vss. split; [|done]. split; [|done]. by destruct Hq.
Qed.

Lemma lobj_swap h0 h1 h o l o' l' : lobj h0 h1 o l → lobj h1 h o' l' → ∃ h', lobj h0 h' o' l' ∧ lobj h' h o l.
Proof.
  destruct o as [lp|ql], o' as [lp'|ql']; simpl.
  - intros [-> ?] [-> ?]. by exists h0.
  - intros [-> ?] [? ?]. by exists h.
  - intros [? ?] [-> ?]. by exists h0.
  - intros [H ?] [H' ?]. destruct (stands_swap _ _ _ _ _ _ _ H H') as (h' & ? & ?). by exists h'.
Qed.

Lemma release_stands h0 h q l : stands h0 h q l → quicklistRelease h q = Some h0.
Proof. intros (ns & vss & [Hq _] & _). by eapply release_list_spec, qi_holds. Qed.

(** The same, with other options of the header left alone. *)
Lemma lobj_quick h0 h ql ql' l : same_options ql ql' → fill ql = f → compress ql = c → stands h0 h ql' l → lobj h0 h (OQuicklist ql') l.
Proof. intros [E1 E2] ? ? H. split; [done|]. split; congruence. Qed.

(** ** Length *)

Definition same_encoding o o' : Prop := match o, o' with OListpack _, OListpack _ | OQuicklist _, OQuicklist _ => True | _, _ => False end.

Lemma length_spec h0 h o l : lobj h0 h o l → post (listTypeLength o) (λ '(o', n), lobj h0 h o' l ∧ n = zlen l ∧
  match o with OListpack _ => ∃ lp, o' = OListpack lp | OQuicklist _ => o' = o end).
Proof.
  destruct o as [lp|ql]; simpl.
  - intros (-> & es & Hp & <-). destruct (packed_length _ _ _ Hp) as (lp' & -> & Hp'). simpl.
    split; [split; [done|by exists es]|]. split; [by rewrite strs_zlen|by eexists].
  - intros [(ns & vss & [Hq Hn] & <-) ?]. split; [split; [by exists ns, vss|done]|]. done.
Qed.

(** ** Conversions *)

Lemma new_listobj h : ∃ o, createListListpackObject junk = Some o ∧ lobj h h o [].
Proof using Hjunk Hcfg.
  destruct (packed_nil junk Hjunk f fill_fine) as (b & E & Hp). unfold createListListpackObject. rewrite E.
  exists (OListpack b). split; [done|]. split; [done|]. by exists [].
Qed.

(** The number of elements that one command may add: the listpack of a list that is not
    converted has at most half as many elements as it has bytes. *)
Definition arg_room : Z := if 0 <=? f then INT32_MAX else cap f - (limit f - 7) / 2.

Lemma room_one : 1 <= arg_room.
Proof using Hcfg.
  destruct Hcfg as [[Hf _] _]. fold f in Hf. unfold arg_room. destruct (0 <=? f) eqn:E; zb; [done|].
  assert (f = -1 ∨ f = -2 ∨ f = -3 ∨ f = -4) as [->|[->|[->| ->]]] by lia; vm_compute; discriminate.
Qed.

(** Whether a listpack can take the arguments. *)
Definition has_room o l (argv : list value) : Prop :=
  match o with
  | OListpack _ => zlen l + zlen argv <= cap f ∧ Forall (λ v, zlen (vbytes v) <= limit f) argv
  | OQuicklist _ => True
  end.

Lemma convert_listpack_spec h lp l argv : lobj h h (OListpack lp) l → Forall value_ok argv → zlen argv <= arg_room → zlen argv <= INT32_MAX →
  post (listTypeTryConvertListpack server junk in_data htab0 zmalloc h lp (Some argv)) (λ '(h', o'), lobj h h' o' l ∧ has_room o' l argv).
Proof using Hcfg Hin Htab Hmalloc.
  intros [_ (es & Hp & <-)] Hv Hroom Hlen. unfold listTypeTryConvertListpack. rewrite added_size_spec by done. cbv beta iota.
  pose proof (args_bytes_range argv Hv) as Hb. pose proof (packed_total _ _ _ Hp) as Ht. pose proof (total_count _ _ _ Hp) as Hc.
  pose proof (pk_count _ _ _ Hp) as Hcap. pose proof (cap_range f) as Hcr. pose proof (zlen_nonneg argv) as Ha. pose proof (zlen_nonneg es) as He. unfold max_total, INT32_MAX in *.
  next_is (packed_bytes _ _ _ Hp). destruct (packed_length _ _ _ Hp) as (lp1 & E1 & Hp1). next_is E1. cbv beta iota.
  rewrite !uwrap_id by nia. destruct (exceeds_fits f (total es + args_bytes argv) (zlen es + zlen argv) fill_fine) as (b & E & Hfit). next_is E. destruct b.
  - destruct (packed_length _ _ _ Hp1) as (lp2 & E2 & Hp2). next_is E2. cbv beta iota zeta. fold f c.
    destruct (new_options f c) as (_ & Ef & Ec). specialize (Ef fill_fine). specialize (Ec (cfg_depth _ Hcfg)).
    destruct (zlen es =? 0) eqn:E0; zb; simpl negb; cbv iota.
    + assert (es = []) as -> by (destruct es; [done|rewrite zlen_cons in E0; pose proof (zlen_nonneg es); lia]).
      simpl. split; [|done]. split; [|done]. exists [], []. split; [apply new_inv|done].
    + assert (es ≠ []) as Hne by (by intros ->). rewrite <-Ef in Hp2 at 1.
      call (append_listpack_spec junk in_data htab0 zmalloc Hin Htab Hmalloc h h _ [] [] lp2 es (new_inv h f c) Hp2 Hne).
      intros [h' q'] (ns' & Hq' & E1' & E2'). simpl. split; [|done]. split; [|split; congruence]. exists ns', [strs es]. split; [done|]. simpl. by rewrite app_nil_r.
  - simpl. split; [split; [done|by exists es]|]. destruct (Hfit eq_refl) as [Hsz Hcnt]. rewrite strs_zlen. split.
    + unfold arg_room, cap in *. destruct (0 <=? f) eqn:Ef; zb; [by apply Hcnt|]. pose proof (Z.div_le_mono (2 * zlen es) (limit f - 7) 2). 
      rewrite Z.mul_comm, Z.div_mul in H by done. lia.
    + apply list.Forall_forall. intros v Hin'. rewrite list.Forall_forall in Hv. destruct v as [s|n].
      * pose proof (args_bytes_each argv s ltac:(by apply list.Forall_forall) Hin'). simpl. lia.
      * simpl. pose proof (Util.sdec_len n (Hv _ Hin')) as Hd. unfold Util.LONG_STR_SIZE in Hd. destruct (limit_cases f fill_fine) as [(_ & -> & _)|(_ & _ & ? & _)]; lia.
Qed.

Lemma convert_quicklist_spec h0 h ql l shrinking : lobj h0 h (OQuicklist ql) l →
  post (listTypeTryConvertQuicklist server h ql shrinking) (λ '(h', o'), lobj h0 h' o' l).
Proof using Hcfg.
  intros Ho. pose proof Ho as [(ns & vss & [Hq Hn] & <-) [Ef Ec]]. unfold listTypeTryConvertQuicklist. pose proof (qi_holds _ _ _ _ _ _ Hq) as H.
  destruct (len ql =? 1) eqn:El; zb; simpl negb; cbv iota; [|done]. rewrite (hold_len _ _ _ _ H) in El.
  destruct ns as [|[a nd] [|? ns]]; [done| |rewrite !zlen_cons in El; pose proof (zlen_nonneg ns); lia].
  rewrite (hold_head _ _ _ _ H). cbn [first_of mbind option_bind]. next_is (holds_node _ _ _ [] _ _ _ H).
  destruct (plain_cases nd) as [[Eco ->]|[Eco ->]]; [done|].
  assert (∃ szl cl, quicklistNodeLimit f = Some (szl, cl)) as (szl & cl & E).
  { unfold quicklistNodeLimit. destruct (limit_cases f fill_fine) as [(Hf0 & _)|(Hf0 & E & _)].
    - rewrite (proj2 (Z.leb_le _ _)) by done. by eexists _, _.
    - rewrite (proj2 (Z.leb_gt _ _)), E by lia. by eexists _, _. }
  fold f. next_is E. cbv beta iota zeta. case_if; [done|].
  pose proof (qi_reads _ _ _ _ _ _ Hq) as Hr. inversion Hr as [|? vs ? ? Hct Hr']; subst. inversion Hr'; subst. simpl in Hct.
  assert (encoding nd = RAW) as Eraw by (apply (qi_depth _ _ _ _ _ _ Hq 0%nat (a, nd) eq_refl); unfold in_depth; simpl; lia).
  rewrite Ef in Hct. destruct (packed_node _ _ _ Hct Eraw Eco) as (b & es & _ & Eb & Hp & _ & _ & -> & _). next_is Eb.
  call (update_holds _ _ _ [] _ _ _ (set_entry NULL) H). intros h1 H1. rewrite (release_list_spec _ _ _ _ H1). simpl.
  split; [done|]. exists es. split; [done|]. by rewrite app_nil_r.
Qed.

Lemma convert_append_spec h0 h o l argv : lobj h0 h o l → Forall value_ok argv → zlen argv <= arg_room → zlen argv <= INT32_MAX →
  post (listTypeTryConversionAppend server junk in_data htab0 zmalloc h o argv) (λ '(h', o'), lobj h0 h' o' l ∧ has_room o' l argv).
Proof using Hcfg Hin Htab Hmalloc.
  intros Ho Hv Hr Hl. unfold listTypeTryConversionAppend, listTypeTryConversionRaw. destruct o as [lp|ql].
  - rewrite bool_decide_false by done. pose proof Ho as [-> _]. by apply convert_listpack_spec.
  - rewrite bool_decide_true by done. done.
Qed.

Lemma list_shrink_spec h0 h o l : lobj h0 h o l →
  post (listTypeTryConversion server junk in_data htab0 zmalloc h o LIST_CONV_SHRINKING) (λ '(h', o'), lobj h0 h' o' l).
Proof using Hcfg.
  intros Ho. unfold listTypeTryConversion, listTypeTryConversionRaw. destruct o as [lp|ql].
  - by rewrite bool_decide_true.
  - rewrite bool_decide_false by done. by apply convert_quicklist_spec.
Qed.

End Repr.
End ListRepr.

(** * Lists: the ends, ranges and copies

    What [listTypePush], [listTypePop], [listTypeReplaceAtIndex], [listTypeDelRange] and
    [listTypeDup] do to the byte strings of a list, whatever its encoding. *)

Module ListEnds.
Import Adlist Post Linked Quicklist QuicklistRepr QuicklistNodes QuicklistCompress QuicklistEdit QuicklistPush QuicklistPop QuicklistIter QuicklistSeek QuicklistInsert QuicklistReplace QuicklistRange QuicklistDup QuicklistHistory Listpack ListpackElem ListpackEdit ListpackRepr ListpackValues ListType ListRepr.

Implicit Types (h : heap) (l : list (list Z)) (o : robj).

(** ** A list with one more or one less element *)

Definition push_to (where_ : list_position) (v : list Z) l : list (list Z) := match where_ with LIST_HEAD => v :: l | LIST_TAIL => l ++ [v] end.

Lemma push_to_len where_ v l : zlen (push_to where_ v l) = zlen l + 1.
Proof. destruct where_; simpl; [rewrite zlen_cons; lia|by rewrite zlen_app]. Qed.

(** The elements from an index on, from the end if it is negative. *)
Definition cut_range l (start count : Z) : list (list Z) :=
  let i := norm (zlen l) start in if (0 <=? i) && (i <? zlen l) then take (Z.to_nat i) l ++ drop (Z.to_nat (i + count)) l else l.

(** An element of a listpack, printed. *)
Lemma lp_string_spec junk f lp es j v : packed f lp es → strs es !! j = Some v → lp_string junk lp (pos (take j es)) = Some v.
Proof.
  intros Hp Hj. unfold strs in Hj. rewrite list_lookup_fmap in Hj. destruct (es !! j) as [e|] eqn:E; [|done]. injection Hj as <-.
  destruct (lpGet_correct lp es j e (pk_repr _ _ _ Hp) E) as (x & Hx & Hg & _). unfold lp_string, entry_value. rewrite Hx. destruct x as [n|s].
  - destruct Hg as [_ Hg]. destruct (Hg (replicate (Z.to_nat LP_INTBUF_SIZE) junk)) as (buf' & ->); [rewrite zlen_replicate; vm_compute; discriminate|].
    cbn [mbind option_bind]. by apply rd_head.
  - destruct (Hg (Some (replicate (Z.to_nat LP_INTBUF_SIZE) junk))) as (p & -> & Hrd). done.
Qed.

Section Ends.
Context (server : redisServer) (junk : Z) (Hjunk : is_byte junk) (in_data : heap → Z) (htab0 : heap → Z → Z) (zmalloc : heap → address).
Context (Hcfg : config_ok server).
Context (Hin : ∀ h, Lzf.MAX_OFF <= in_data h ∧ in_data h + INT32_MAX < 2 ^ 64) (Htab : ∀ h i, 0 <= htab0 h i < 2 ^ 64).
Context (Hmalloc : ∀ h, h !! zmalloc h = None).
Let f := list_max_listpack_size server.
Let Hf : fill_ok f := fill_fine server Hcfg.
Abbreviation lobj := (lobj server).
Abbreviation has_room := (has_room server).

Lemma lobj_pack h lp es : packed f lp es → lobj h h (OListpack lp) (strs es).
Proof using. intros Hp. split; [done|]. by exists es. Qed.

Lemma room_less o l l' argv : zlen l' <= zlen l → has_room o l argv → has_room o l' argv.
Proof using. destruct o; [|done]. intros ? [? ?]. split; [lia|done]. Qed.

(** ** Pushing *)

Lemma list_push_spec h0 h o l v argv where_ : lobj h0 h o l → value_ok v → has_room o l (v :: argv) →
  post (listTypePush junk in_data htab0 zmalloc h o v where_) (λ '(h', o'), lobj h0 h' o' (push_to where_ (vbytes v) l) ∧ has_room o' (push_to where_ (vbytes v) l) argv).
Proof using Hjunk Hcfg Hin Htab Hmalloc.
  intros Ho Hv Hr. unfold listTypePush. destruct o as [lp|ql].
  - destruct Ho as (-> & es & Hp & <-). destruct Hr as [Hn Hs]. inversion Hs as [|? ? Hv1 Hs']; subst. rewrite zlen_cons, strs_zlen in Hn.
    pose proof (zlen_nonneg argv) as Hna. pose proof (vbytes_ok v Hv) as Hvb. assert (zlen es + 1 <= cap f) as Hn1 by (unfold f; lia).
    assert (match v, where_ with
            | VInt n, LIST_HEAD => lpPrependInteger junk lp n
            | VInt n, LIST_TAIL => lpAppendInteger junk lp n
            | VStr s, LIST_HEAD => lpPrepend junk lp s
            | VStr s, LIST_TAIL => lpAppend junk lp s
            end = match where_ with LIST_HEAD => lpPrepend junk lp (vbytes v) | LIST_TAIL => lpAppend junk lp (vbytes v) end) as ->
      by (destruct v; [done|]; by rewrite append_int, prepend_int).
    destruct (packed_prepend junk f Hf lp es (vbytes v) Hp Hn1 Hvb Hv1) as (b1 & E1 & Hp1).
    destruct (packed_append junk f Hf lp es (vbytes v) Hp Hn1 Hvb Hv1) as (b2 & E2 & Hp2).
    assert (has_room (OListpack lp) (push_to where_ (vbytes v) (strs es)) argv) as Hroom by (split; [rewrite push_to_len, strs_zlen; unfold f in *; lia|done]).
    destruct where_; [next_is E1|next_is E2]; (split; [split; [done|]|exact Hroom]); eexists; (split; [done|]); rewrite ?strs_app; simpl.
    + pose proof (strs_one f (vbytes v) Hf Hvb Hv1) as E. simpl in E. by injection E as ->.
    + f_equal. by apply (strs_one f).
  - simpl in Ho. destruct Ho as [(ns & vss & Hl & <-) [Ef Ec]]. rewrite value_string_spec by done. cbn [mbind option_bind].
    pose proof (push_acts junk Hjunk in_data htab0 zmalloc Hin Htab Hmalloc h0 h ql ns vss Hl (ql_end where_) (vbytes v) (vbytes_ok v Hv)) as Ha.
    unfold acts in Ha. simpl in Ha. destruct (quicklistPush _ _ _ _ _ _ _ _ _) as [[h' q']|]; [|done]. simpl in *. destruct Ha as (Hst & _ & Hso).
    split; [|done]. destruct where_; by eapply lobj_quick.
Qed.

(** ** Popping *)

Lemma list_pop_spec h0 h o l where_ : lobj h0 h o l → l ≠ [] →
  post (listTypePop junk in_data htab0 h o where_) (λ '(h', o', r), ∃ v l', r = Some v ∧ value_string v = Some (vbytes v) ∧ value_ok v ∧
    l = push_to where_ (vbytes v) l' ∧ lobj h0 h' o' l').
Proof using Hcfg Hin Htab.
  intros Ho Hne. destruct o as [lp|ql].
  - destruct Ho as (-> & es & Hp & <-). unfold listTypePop. destruct (lp_traversal_correct lp es (pk_repr _ _ _ Hp)) as (Hfi & Hla & _).
    assert (es ≠ []) as Hes by (by intros ->). set (j := match where_ with LIST_HEAD => 0%nat | LIST_TAIL => pred (length es) end).
    assert (j < length es)%nat as Hj by (unfold j; destruct where_, es; simpl; done || lia).
    next_is (ltac:(destruct where_; [exact Hfi|exact Hla]) : match where_ with LIST_HEAD => lpFirst lp | LIST_TAIL => lpLast lp end = Some (ptr es j)).
    rewrite (ptr_lt es j Hj). assert (is_Some (strs es !! j)) as [v Hv] by (apply lookup_lt_is_Some; unfold strs; by rewrite length_fmap).
    next_is (lp_string_spec junk f lp es j v Hp Hv). destruct (packed_delete junk f lp es j Hp Hj) as (b & E & Hp'). next_is (f_equal not_null E).
    simpl. exists (VStr v), (delete j (strs es)). split; [done|]. split; [done|]. split; [apply (Forall_lookup_1 _ _ _ _ (pk_strs _ _ _ Hp) Hv)|]. split.
    + simpl. pose proof (take_drop_elem _ _ _ Hv) as Et. rewrite delete_take_drop. unfold push_to, j in *. destruct where_; [by rewrite <-Et at 1|].
      assert (drop (S (pred (length es))) (strs es) = []) as E0 by (apply drop_ge; unfold strs; rewrite length_fmap; lia). rewrite E0 in *. by rewrite app_nil_r.
    + split; [done|]. exists (delete j es). split; [done|]. unfold strs. by rewrite !delete_take_drop, fmap_app, fmap_take, fmap_drop.
  - destruct Ho as [(ns & vss & Hl & <-) [Ef Ec]]. unfold listTypePop.
    call (pop_custom_spec junk in_data htab0 Hin Htab listPopSaver _ _ _ _ _ (ql_end where_) Hl).
    intros [[h' q'] r] (ns' & vss' & Hl' & Hso & E). destruct r as [r|]; [|by destruct E]. destruct E as (x & -> & Hx & E). simpl.
    exists x, (mjoin vss'). split; [by destruct x|]. split; [by apply value_string_spec|]. split; [done|]. split; [by destruct where_|].
    eapply lobj_quick; [exact Hso|done|done|]. by exists ns', vss'.
Qed.

(** ** Replacing *)

Lemma list_replace_spec h0 h o l i v : lobj h0 h o l → zlen l <= INT64_MAX → INT32_MIN <= i <= INT32_MAX → value_ok v → has_room o l [v] →
  post (listTypeReplaceAtIndex junk in_data htab0 zmalloc h o i v) (λ '(h', o', r),
    match place l i with Some j => lobj h0 h' o' (<[j := vbytes v]> l) ∧ r = true | None => lobj h0 h' o' l ∧ r = false end).
Proof using Hjunk Hcfg Hin Htab Hmalloc.
  intros Ho Hmax Hi Hv Hr. unfold listTypeReplaceAtIndex. unfold INT32_MIN, INT32_MAX in Hi. rewrite swrap_id by lia.
  rewrite value_string_spec by done. cbn [mbind option_bind]. pose proof (vbytes_ok v Hv) as Hvb. destruct o as [lp|ql].
  - destruct Ho as (-> & es & Hp & <-). destruct Hr as [_ Hs]. inversion Hs as [|? ? Hv1 _]; subst. next_is (packed_seek _ _ _ i Hp).
    assert (ptr_z es i = match place (strs es) i with Some j => Some (pos (take j es)) | None => None end) as ->.
    { unfold ptr_z, place, norm, ptr. rewrite strs_zlen. set (j := if i <? 0 then _ else _). unfold zlen. destruct (0 <=? j) eqn:E1; zb; simpl.
      - rewrite (proj2 (Z.ltb_ge _ _)) by lia. destruct (j <? Z.of_nat (length es)) eqn:E2; zb; [by rewrite decide_True by lia|by rewrite decide_False by lia].
      - by rewrite (proj2 (Z.ltb_lt _ _)) by lia. }
    destruct (place_spec (strs es) i) as [(j & -> & Hj1 & Hj2)|[-> _]]; [|split; [split; [done|by exists es]|done]].
    assert (j < length es)%nat as Hj by (rewrite Hj2, strs_zlen in Hj1; unfold zlen in Hj1; lia).
    destruct (packed_replace junk f Hf lp es j (vbytes v) Hp Hj Hvb Hv1) as (b & p & E & Hp'). next_is (f_equal not_null E). simpl.
    split; [|done]. split; [done|]. exists (<[j := encode_string (vbytes v)]> es). split; [done|]. by apply (strs_replace f).
  - destruct Ho as [(ns & vss & Hl & <-) [Ef Ec]].
    assert (index_arg i) as Hia by (split; [unfold is_int64, INT64_MIN, INT64_MAX|unfold INT64_MIN]; lia).
    pose proof (replace_acts junk Hjunk in_data htab0 zmalloc Hin Htab Hmalloc h0 h ql ns vss Hl Hmax i (vbytes v) Hia Hvb) as Ha.
    unfold acts in Ha. simpl in Ha. destruct (quicklistReplaceAtIndex _ _ _ _ _ _ _ _ _) as [[[h' q'] r]|]; [|done]. simpl in *. destruct Ha as (Hst & Er & Hso).
    destruct (place (mjoin vss) i); simpl in *; injection Er as ->; (split; [|done]); by eapply lobj_quick.
Qed.

(** ** Deleting a range *)

Lemma list_del_range_spec h0 h o l start count : lobj h0 h o l → zlen l <= INT32_MAX → - INT32_MAX <= start <= INT32_MAX → 0 <= count <= INT32_MAX →
  post (listTypeDelRange junk in_data htab0 h o start count) (λ '(h', o'), lobj h0 h' o' (cut_range l start count)).
Proof using Hcfg Hin Htab.
  intros Ho Hmax Hs Hc. unfold INT32_MAX in *. destruct o as [lp|ql].
  - destruct Ho as (-> & es & Hp & <-). unfold listTypeDelRange. rewrite uwrap_id by lia.
    destruct (lpDeleteRange_correct junk lp es start count (pk_repr _ _ _ Hp)) as (b & E & Hr); [unfold INT64_MIN, INT64_MAX; lia|unfold UINT64_MAX; lia|].
    next_is E. split; [done|]. cbv zeta in Hr. unfold cut_range, norm. rewrite strs_zlen. set (i := if start <? 0 then _ else _) in *.
    destruct (_ && _) eqn:Ei; [|exists es; split; [|done]; eapply packed_sub; done].
    exists (take (Z.to_nat i) es ++ drop (Z.to_nat (i + count)) es). split; [|by rewrite strs_app, strs_take, strs_drop].
    eapply packed_sub; [done|done|]. transitivity (take (Z.to_nat i) es ++ drop (Z.to_nat i) es); [|by rewrite take_drop]. apply submseteq_app; [done|].
    replace (Z.to_nat (i + count)) with (Z.to_nat i + Z.to_nat count)%nat by (apply andb_true_iff in Ei as [? _]; zb; lia). rewrite <-drop_drop. apply sublist_submseteq, sublist_drop.
  - destruct Ho as [(ns & vss & Hl & <-) [Ef Ec]]. unfold listTypeDelRange.
    call (del_range_spec junk in_data htab0 Hin Htab _ _ _ _ _ start count Hl); [unfold is_int64, INT64_MIN, INT64_MAX; lia..|].
    intros [[h' q'] r] (ns' & vss' & Hl' & Hso & -> & E). simpl. eapply lobj_quick; [exact Hso|done|done|]. exists ns', vss'. split; [done|]. rewrite E.
    unfold cut_range. set (i := norm _ _) in *. case_bool_decide as Eb.
    + rewrite (proj2 (Z.leb_le 0 i)), (proj2 (Z.ltb_lt i _)) by lia. done.
    + destruct (_ && _) eqn:Ei; [|done]. apply andb_true_iff in Ei as [E1 E2]. zb. assert (count = 0) as -> by lia. by rewrite Z.add_0_r, take_drop.
Qed.

(** ** Copies *)

Lemma list_dup_spec h0 h o l : lobj h0 h o l →
  post (listTypeDup junk in_data htab0 zmalloc h o) (λ '(h', o'), lobj h h' o' l ∧ same_encoding o o').
Proof using Hcfg Hin Htab Hmalloc.
  intros Ho. destruct o as [lp|ql].
  - destruct Ho as (-> & es & Hp & <-). unfold listTypeDup. destruct (lpDup_correct junk lp es (pk_repr _ _ _ Hp)) as (b & E & Hr). next_is E.
    split; [|done]. split; [done|]. exists es. split; [|done]. by eapply packed_sub.
  - destruct Ho as [(ns & vss & Hl & <-) [Ef Ec]]. unfold listTypeDup. call (dup_spec junk in_data htab0 zmalloc Hin Htab Hmalloc _ _ _ _ _ Hl).
    intros [h' q'] (ns' & Hl' & Hso). simpl. split; [|done]. eapply lobj_quick; [exact Hso|done|done|]. by exists ns', vss.
Qed.
End Ends.
End ListEnds.

(** * Lists: iterators

    [iterating h0 h o li pre next]: the iterator [li] stands in the list between the
    elements [pre] and [next]; [current_at h0 h o li e l1 v l2]: it has just returned the
    entry [e] of the element [v], which is between [l1] and [l2].  The two encodings
    differ only in the proofs here: what follows uses these two states. *)

Module ListIter.
Import Adlist Post Linked Quicklist QuicklistRepr QuicklistNodes QuicklistCompress QuicklistEdit QuicklistPush QuicklistPop QuicklistIter QuicklistSeek QuicklistInsert QuicklistReplace QuicklistRange QuicklistDup QuicklistHistory Listpack ListpackElem ListpackEdit ListpackRepr ListpackValues ListType ListRepr ListEnds.

Implicit Types (h : heap) (l : list (list Z)) (o : robj) (li : listTypeIterator).

(** The pointer of an iterator over a listpack that has [g] entries before it. *)
Definition cursor_ptr (d : list_position) (es : list (list Z)) (g : nat) : option Z :=
  match d with LIST_TAIL => ptr es g | LIST_HEAD => match g with O => None | S i => ptr es i end end.

(** No element is left in the direction of the iteration. *)
Definition at_limit (d : list_position) (pre next : list (list Z)) : Prop := match d with LIST_TAIL => next = [] | LIST_HEAD => pre = [] end.

(** The iteration began at an end of the list. *)
Definition straight li : Prop := match li_cursor li with CQuicklist (Some it) => aligned (direction it) (offset it) | _ => True end.

Section Iter.
Context (server : redisServer) (junk : Z) (Hjunk : is_byte junk) (in_data : heap → Z) (htab0 : heap → Z → Z) (zmalloc : heap → address).
Context (Hcfg : config_ok server).
Context (Hin : ∀ h, Lzf.MAX_OFF <= in_data h ∧ in_data h + INT32_MAX < 2 ^ 64) (Htab : ∀ h i, 0 <= htab0 h i < 2 ^ 64).
Context (Hmalloc : ∀ h, h !! zmalloc h = None).
Let f := list_max_listpack_size server.
Let c := list_compress_depth server.
Let Hf : fill_ok f := fill_fine server Hcfg.
Abbreviation lobj := (lobj server).
Abbreviation has_room := (has_room server).

Definition iterating h0 h o li (pre next : list (list Z)) : Prop :=
  match o, li_cursor li with
  | OListpack lp, CListpack p => h = h0 ∧ ∃ es g, packed f lp es ∧ (g <= length es)%nat ∧ pre = take g (strs es) ∧ next = drop g (strs es) ∧ p = cursor_ptr (li_direction li) es g
  | OQuicklist ql, CQuicklist None => lobj h0 h o (pre ++ next) ∧ at_limit (li_direction li) pre next
  | OQuicklist ql, CQuicklist (Some it) => ∃ ns vss use, qlist h0 h ql ns vss use ∧ iter_at f ns vss use it pre next ∧
      direction it = iter_direction (li_direction li) ∧ fill ql = f ∧ compress ql = c
  | _, _ => False
  end.

Definition current_at h0 h o li (e : listTypeEntry) (l1 : list (list Z)) (v : list Z) (l2 : list (list Z)) : Prop :=
  match o, li_cursor li, e with
  | OListpack lp, CListpack p, EListpack lpe => h = h0 ∧ ∃ es j, packed f lp es ∧ strs es !! j = Some v ∧ l1 = take j (strs es) ∧ l2 = drop (S j) (strs es) ∧
      lpe = pos (take j es) ∧ p = cursor_ptr (li_direction li) es (match li_direction li with LIST_TAIL => S j | LIST_HEAD => j end)
  | OQuicklist ql, CQuicklist (Some it), EQuicklist e => ∃ ns vss A a nd B VA vs VB j, qlist h0 h ql ns vss (Some a) ∧ reading f ns vss it e A a nd B VA vs VB j v ∧
      l1 = mjoin VA ++ take j vs ∧ l2 = drop (S j) vs ++ mjoin VB ∧ direction it = iter_direction (li_direction li) ∧ fill ql = f ∧ compress ql = c
  | _, _, _ => False
  end.

(** What releasing the iterator needs. *)
Definition releasable h0 h o li l : Prop :=
  match o, li_cursor li with
  | OListpack _, CListpack _ | OQuicklist _, CQuicklist None => lobj h0 h o l
  | OQuicklist ql, CQuicklist (Some it) => ∃ ns vss use, qlist h0 h ql ns vss use ∧ (use = None ∨ use = current it) ∧ (∀ a, current it = Some a → a ∈ ns.*1) ∧
      mjoin vss = l ∧ fill ql = f ∧ compress ql = c
  | _, _ => False
  end.

Lemma iterating_releasable h0 h o li pre next : iterating h0 h o li pre next → releasable h0 h o li (pre ++ next).
Proof using.
  unfold iterating, releasable. destruct o as [lp|ql], (li_cursor li) as [p|[it|]]; try done.
  - intros (-> & es & g & Hp & _ & -> & -> & _). rewrite take_drop. split; [done|]. by exists es.
  - intros (ns & vss & use & Hl & Hit & _ & Ef & Ec). exists ns, vss, use. split; [done|]. rewrite <-(iter_at_join _ _ _ _ _ _ _ Hit).
    unfold iter_at in Hit. destruct (current it) as [a|].
    + destruct Hit as (A & nd & B & VA & vs & VB & g & -> & _ & _ & Huse & _). split; [done|]. split; [|done]. intros ? [= <-]. apply key_in.
    + destruct Hit as (-> & _). by split; [left|].
  - by intros [? _].
Qed.

Lemma current_releasable h0 h o li e l1 v l2 : current_at h0 h o li e l1 v l2 → releasable h0 h o li (l1 ++ v :: l2).
Proof using.
  unfold current_at, releasable. destruct o as [lp|ql], (li_cursor li) as [p|[it|]], e as [lpe|e]; try done.
  - intros (-> & es & j & Hp & Hj & -> & -> & _). rewrite (take_drop_elem _ _ _ Hj). split; [done|]. by exists es.
  - intros (ns & vss & A & a & nd & B & VA & vs & VB & j & Hl & Hrd & -> & -> & _ & Ef & Ec). exists ns, vss, (Some a). split; [done|].
    rewrite (rd_current _ _ _ _ _ _ _ _ _ _ _ _ _ _ Hrd). split; [by right|]. split; [|split; [by eapply reading_join|done]].
    intros ? [= <-]. rewrite (rd_nodes _ _ _ _ _ _ _ _ _ _ _ _ _ _ Hrd). apply key_in.
Qed.

Lemma list_release_spec h0 h o li l : releasable h0 h o li l → post (listTypeReleaseIterator junk in_data htab0 h o li) (λ h', lobj h0 h' o l).
Proof using Hin Htab.
  unfold releasable, listTypeReleaseIterator. destruct o as [lp|ql], (li_cursor li) as [p|[it|]]; try done.
  intros (ns & vss & use & Hl & Huse & Hit & <- & Ef & Ec).
  eapply post_mono; [apply (done_spec junk in_data htab0 Hin Htab h0 h ql ns vss use it Hl Huse Hit)|]. intros h' Hst. by split.
Qed.

(** ** Starting *)

Lemma list_init_spec h0 h o l i d : lobj h0 h o l → zlen l <= INT64_MAX → is_int64 i → i ≠ INT64_MIN →
  post (listTypeInitIterator h o i d) (λ li, li_direction li = d ∧ ((match d with LIST_TAIL => 0 <= i | LIST_HEAD => i < 0 end) → straight li) ∧
    ∃ pre next, l = pre ++ next ∧ iterating h0 h o li pre next ∧
      match place l i with
      | Some j => length pre = match d with LIST_TAIL => j | LIST_HEAD => S j end
      | None => at_limit d pre next
      end).
Proof using Hcfg.
  intros Ho Hmax Hi Hi'. destruct o as [lp|ql].
  - destruct Ho as (-> & es & Hp & <-). simpl. next_is (packed_seek _ _ _ i Hp). simpl. split; [done|]. split; [done|].
    assert (∀ g, (g <= length es)%nat → ptr_z es i = cursor_ptr d es g → iterating h0 h0 (OListpack lp) (mkListIter d (CListpack (ptr_z es i))) (take g (strs es)) (drop g (strs es))) as Hit.
    { intros g Hg E. split; [done|]. by exists es, g. }
    destruct (place_spec (strs es) i) as [(j & -> & Hj1 & Hj2)|[-> Hj]].
    + assert (j < length es)%nat as Hj by (rewrite Hj2, strs_zlen in Hj1; unfold zlen in Hj1; lia). set (g := match d with LIST_TAIL => j | LIST_HEAD => S j end).
      exists (take g (strs es)), (drop g (strs es)). split; [by rewrite take_drop|]. split; [|rewrite length_take; unfold strs; rewrite length_fmap; unfold g; destruct d; lia].
      apply Hit; [unfold g; destruct d; lia|]. unfold ptr_z. unfold norm in Hj2. rewrite strs_zlen in Hj2. rewrite Hj2, (proj2 (Z.ltb_ge _ _)), Nat2Z.id by lia. by destruct d.
    + set (g := match d with LIST_TAIL => length es | LIST_HEAD => 0%nat end). exists (take g (strs es)), (drop g (strs es)). split; [by rewrite take_drop|].
      split; [|destruct d; [done|]; apply drop_ge; unfold strs; by rewrite length_fmap]. apply Hit; [unfold g; destruct d; lia|].
      unfold ptr_z. unfold norm in Hj. rewrite strs_zlen in Hj. set (k := if i <? 0 then _ else _) in *. unfold zlen in Hj. case_match eqn:E; zb.
      * destruct d; [done|]. unfold cursor_ptr, g, ptr. by rewrite decide_False by lia.
      * unfold cursor_ptr, g, ptr. rewrite decide_False by lia. destruct d; [done|]. by rewrite decide_False by lia.
  - destruct Ho as [(ns & vss & Hl & <-) [Ef Ec]]. simpl. call (iterator_at_spec h0 h ql ns vss None (iter_direction d) i Hl Hmax Hi Hi').
    intros [it|] Hit; simpl; (split; [done|]).
    + pose proof Hit as (Hr & _ & Ed & Ho & _). split; [unfold straight; simpl; rewrite Ed; destruct d; simpl; lia|].
      destruct (index_next f ql ns vss (iter_direction d) i it) as (l1 & v & l2 & E & Ez & Hat); [pose proof (qi_reads _ _ _ _ _ _ (proj1 Hl)) as Hrd; by rewrite Ef in Hrd|done|].
      destruct (place_spec (mjoin vss) i) as [(j & -> & Hj1 & Hj2)|[_ Hj]]; [|done]. rewrite Hj2 in Ez. unfold zlen in Ez. destruct d; simpl in *.
      * exists (l1 ++ [v]), l2. rewrite <-app_assoc. split; [done|]. split; [by exists ns, vss, None|]. rewrite length_app. simpl. lia.
      * exists l1, (v :: l2). split; [done|]. split; [by exists ns, vss, None|]. lia.
    + split; [done|]. destruct (place_spec (mjoin vss) i) as [(j & _ & Hj1 & _)|[-> _]]; [by destruct Hit|].
      assert (stands h0 h ql (mjoin vss)) as Hst by (by exists ns, vss).
      destruct d; [exists [], (mjoin vss)|exists (mjoin vss), []]; rewrite ?app_nil_r; (split; [done|]); (split; [|done]); simpl; rewrite ?app_nil_r; done.
Qed.

(** ** Moving *)

Lemma list_next_spec h0 h o li pre next : iterating h0 h o li pre next →
  post (listTypeNext junk in_data htab0 h o li) (λ '(h', li', e), li_direction li' = li_direction li ∧ (straight li → straight li') ∧
    match e with
    | None => iterating h0 h' o li' pre next ∧ at_limit (li_direction li) pre next
    | Some e => ∃ l1 v l2, current_at h0 h' o li' e l1 v l2 ∧
        match li_direction li with LIST_TAIL => pre = l1 ∧ next = v :: l2 | LIST_HEAD => pre = l1 ++ [v] ∧ next = l2 end
    end).
Proof using Hcfg Hin Htab.
  unfold iterating, listTypeNext. destruct o as [lp|ql], (li_cursor li) as [p|[it|]] eqn:Ecur; try done.
  - intros (-> & es & g & Hp & Hg & -> & -> & Epp).
    assert (match match li_direction li with LIST_TAIL => if decide (g < length es)%nat then Some g else None | LIST_HEAD => match g with O => None | S i => Some i end end with
            | None => cursor_ptr (li_direction li) es g = None ∧ at_limit (li_direction li) (take g (strs es)) (drop g (strs es))
            | Some j => (j < length es)%nat ∧ cursor_ptr (li_direction li) es g = Some (pos (take j es)) ∧ g = match li_direction li with LIST_TAIL => j | LIST_HEAD => S j end
            end) as Hcase.
    { destruct (li_direction li); simpl.
      - destruct g as [|i]; [done|]. split; [lia|]. by rewrite ptr_lt by lia.
      - unfold ptr. destruct (decide _); [done|]. split; [done|]. apply drop_ge. unfold strs. rewrite length_fmap. lia. }
    destruct (match li_direction li with LIST_TAIL => _ | LIST_HEAD => _ end) as [j|].
    + destruct Hcase as (Hj & Ecp & Eg). rewrite Ecp in Epp. subst p. destruct (packed_next _ _ _ j Hp Hj) as [En Ep].
      assert (match li_direction li with LIST_HEAD => lpPrev lp (pos (take j es)) | LIST_TAIL => lpNext lp (pos (take j es)) end =
        Some (cursor_ptr (li_direction li) es (match li_direction li with LIST_TAIL => S j | LIST_HEAD => j end))) as E by (by destruct (li_direction li)).
      next_is E. split; [done|]. split; [done|]. assert (is_Some (strs es !! j)) as [v Hv] by (apply lookup_lt_is_Some; unfold strs; by rewrite length_fmap).
      exists (take j (strs es)), v, (drop (S j) (strs es)). split; [split; [done|]; by exists es, j|]. subst g. destruct (li_direction li).
      * by rewrite (take_S_r _ _ _ Hv).
      * by rewrite (drop_S _ _ _ Hv).
    + destruct Hcase as [Ecp Hlim]. rewrite Ecp in Epp. subst p. split; [done|]. split; [done|]. rewrite Ecur. split; [|done]. split; [done|]. by exists es, g.
  - intros (ns & vss & use & [Hq Hn] & Hit & Ed & Ef & Ec). rewrite <-Ef in Hit. call (ql_next_spec junk in_data htab0 Hin Htab _ _ _ _ _ _ _ _ _ Hq Hit).
    intros [[h1 it1] [e|]] (Ed1 & Hal1 & He); simpl.
    + split; [done|]. split; [unfold straight; rewrite Ecur; simpl; by rewrite Ed1|].
      destruct He as (ns1 & A & a & nd & B & VA & vs & VB & j & v & Hq1 & Hrd & Epp). exists (mjoin VA ++ take j vs), v, (drop (S j) vs ++ mjoin VB).
      split; [|rewrite Ed in Epp; by destruct (li_direction li)]. rewrite Ef in Hrd. exists ns1, vss, A, a, nd, B, VA, vs, VB, j. rewrite <-Ed, Ed1. by split.
    + destruct He as (Ecn & (ns1 & Hq1) & Hend). split; [done|]. split; [unfold straight; rewrite Ecur; simpl; by rewrite Ed1|]. rewrite Ed in Hend.
      split; [|by destruct (li_direction li)]. exists ns1, vss, None. split; [done|]. split; [|rewrite Ed1; done].
      unfold iter_at. rewrite Ecn. split; [done|]. rewrite (iter_at_join _ _ _ _ _ _ _ Hit). split; [done|]. rewrite Ed1, Ed. by destruct (li_direction li).
  - intros [Ho Hlim]. simpl. split; [done|]. split; [done|]. by rewrite Ecur.
Qed.

(** Iterating on from the current element. *)
Lemma current_moves h0 h o li e l1 v l2 : current_at h0 h o li e l1 v l2 →
  match li_direction li with LIST_TAIL => iterating h0 h o li (l1 ++ [v]) l2 | LIST_HEAD => iterating h0 h o li l1 (v :: l2) end.
Proof using.
  unfold current_at, iterating. destruct o as [lp|ql], (li_cursor li) as [p|[it|]], e as [lpe|e]; try done.
  - intros (-> & es & j & Hp & Hj & -> & -> & _ & ->). pose proof (lookup_lt_Some _ _ _ Hj) as Hlt. unfold strs in Hlt. rewrite length_fmap in Hlt. destruct (li_direction li).
    + split; [done|]. exists es, j. rewrite (drop_S _ _ _ Hj). split; [done|]. split; [lia|done].
    + split; [done|]. exists es, (S j). rewrite (take_S_r _ _ _ Hj). split; [done|]. split; [lia|done].
  - intros (ns & vss & A & a & nd & B & VA & vs & VB & j & Hl & Hrd & -> & -> & Ed & Ef & Ec).
    pose proof (reading_at _ _ _ _ _ _ _ _ _ _ _ _ _ _ Hrd) as Hat. rewrite Ed in Hat. destruct (li_direction li); exists ns, vss, (Some a); done.
Qed.

(** The length may be stored in the listpack; the iterator stays where it is. *)
Lemma iter_length h0 h o li pre next : iterating h0 h o li pre next →
  post (listTypeLength o) (λ '(o', n), iterating h0 h o' li pre next ∧ n = zlen (pre ++ next)).
Proof using.
  unfold iterating. destruct o as [lp|ql], (li_cursor li) as [p|[it|]] eqn:Ecur; try done.
  - intros (-> & es & g & Hp & Hg & -> & -> & ->). simpl. destruct (packed_length _ _ _ Hp) as (lp' & -> & Hp'). simpl. rewrite ?Ecur.
    split; [split; [done|]; by exists es, g|]. by rewrite take_drop, strs_zlen.
  - intros (ns & vss & use & [Hq Hn] & Hit & Ed & Ef & Ec). simpl. rewrite ?Ecur. split; [by exists ns, vss, use|]. unfold quicklistCount. by rewrite Hn, (iter_at_join _ _ _ _ _ _ _ Hit).
  - intros [Ho Hlim]. simpl. rewrite ?Ecur. split; [done|]. destruct Ho as [(ns & vss & [_ Hn] & E) _]. unfold quicklistCount. by rewrite Hn, E.
Qed.

(** ** The current element *)

Lemma list_equal_spec h0 h o li e l1 v l2 s : current_at h0 h o li e l1 v l2 → listTypeEqual o e s = Some (bool_decide (v = s)).
Proof using.
  unfold current_at, listTypeEqual. destruct o as [lp|ql], (li_cursor li) as [p|[it|]], e as [lpe|e]; try done.
  - intros (-> & es & j & Hp & Hj & -> & -> & -> & _). unfold strs in Hj. rewrite list_lookup_fmap in Hj. destruct (es !! j) as [x|] eqn:E; [|done]. injection Hj as <-.
    destruct (lpGet_correct lp es j x (pk_repr _ _ _ Hp) E) as (y & Hy & _ & Hc). rewrite Hc. unfold entry_value. rewrite Hy. by destruct y.
  - intros (ns & vss & A & a & nd & B & VA & vs & VB & j & Hl & Hrd & _). f_equal. by eapply quicklistCompare_reads, rd_e_value.
Qed.

Lemma list_value_spec h0 h o li e l1 v l2 : current_at h0 h o li e l1 v l2 → ∃ x, listTypeGetValue o e = Some x ∧ value_string x = Some v.
Proof using.
  unfold current_at, listTypeGetValue. destruct o as [lp|ql], (li_cursor li) as [p|[it|]], e as [lpe|e]; try done.
  - intros (-> & es & j & Hp & Hj & -> & -> & -> & _). destruct (packed_get _ _ _ j v Hp Hj) as (x & -> & <- & Hx). exists x. split; [done|]. by apply value_string_spec.
  - intros (ns & vss & A & a & nd & B & VA & vs & VB & j & Hl & Hrd & _). eexists. split; [done|].
    pose proof (rd_e_value _ _ _ _ _ _ _ _ _ _ _ _ _ _ Hrd) as Hv. unfold entry_reads in Hv. destruct (e_value e) as [s|]; [by destruct Hv as [-> _]|].
    destruct Hv as [-> Hi]. by apply (value_string_spec (VInt (e_longval e))).
Qed.

Lemma list_delete_spec h0 h o li e l1 v l2 : current_at h0 h o li e l1 v l2 → straight li →
  post (listTypeDelete junk in_data htab0 h o li e) (λ '(h', o', li'), iterating h0 h' o' li' l1 l2 ∧ li_direction li' = li_direction li ∧ straight li').
Proof using Hcfg Hin Htab.
  unfold current_at, listTypeDelete, straight. destruct o as [lp|ql], (li_cursor li) as [p|[it|]], e as [lpe|e]; try done.
  - intros (-> & es & j & Hp & Hj & -> & -> & -> & _) _. pose proof (lookup_lt_Some _ _ _ Hj) as Hlt. unfold strs in Hlt. rewrite length_fmap in Hlt.
    destruct (packed_delete junk f lp es j Hp Hlt) as (b & E & Hp'). next_is E. cbn [mbind option_bind].
    assert (length (delete j es) = pred (length es)) as El by (rewrite length_delete; [lia|by apply lookup_lt_is_Some]).
    assert (match li_direction li, ptr (delete j es) j with
            | LIST_TAIL, _ => Some (ptr (delete j es) j)
            | LIST_HEAD, Some p => lpPrev b p
            | LIST_HEAD, None => lpLast b
            end = Some (cursor_ptr (li_direction li) (delete j es) j)) as Ecp.
    { destruct (li_direction li); [|done]. unfold ptr at 1. destruct (decide (j < length (delete j es))%nat) as [Hj'|Hj'].
      - by destruct (packed_next _ _ _ j Hp' Hj').
      - destruct (lp_traversal_correct b _ (pk_repr _ _ _ Hp')) as (_ & -> & _). f_equal. assert (j = length (delete j es)) as Ej by lia.
        revert Ej. generalize (delete j es). intros r ->. by destruct r. }
    assert (strs (delete j es) = take j (strs es) ++ drop (S j) (strs es)) as Es by (by rewrite delete_take_drop, strs_app, strs_take, strs_drop).
    rewrite Ecp. simpl. split; [|done]. split; [done|]. exists (delete j es), j. split; [done|]. split; [lia|]. rewrite Es.
    assert (length (take j (strs es)) = j) as Et by (rewrite length_take; unfold strs; rewrite length_fmap; lia).
    split; [by rewrite take_app_length'|]. split; [by rewrite drop_app_length'|done].
  - intros (ns & vss & A & a & nd & B & VA & vs & VB & j & Hl & Hrd & -> & -> & Ed & Ef & Ec) Hal. rewrite <-Ef in Hrd.
    call (del_entry_spec junk in_data htab0 Hin Htab _ _ _ _ _ _ _ _ _ _ _ _ _ _ _ _ Hl Hrd Hal).
    intros [[[h1 q1] it1] b] (ns1 & vss1 & use1 & Hl1 & [Ef1 Ec1] & Ed1 & Hal1 & Hat). simpl. rewrite Ef1, Ef in Hat.
    split; [exists ns1, vss1, use1; repeat (split; [done || congruence|]); congruence|]. split; [done|]. by rewrite Ed1.
Qed.

Lemma list_insert_spec h0 h o li e l1 v l2 s where_ : current_at h0 h o li e l1 v l2 → str_ok s → has_room o (l1 ++ v :: l2) [VStr s] →
  post (listTypeInsert junk in_data htab0 zmalloc h o li e (VStr s) where_) (λ '(h', o', li'),
    releasable h0 h' o' li' (match where_ with LIST_TAIL => l1 ++ v :: s :: l2 | LIST_HEAD => l1 ++ s :: v :: l2 end)).
Proof using Hjunk Hcfg Hin Htab Hmalloc.
  unfold current_at, listTypeInsert, releasable. set (after := match where_ with LIST_TAIL => true | LIST_HEAD => false end).
  assert (∀ (vs : list (list Z)) j, vs !! j = Some v → take (cut after j) vs ++ s :: drop (cut after j) vs =
    match where_ with LIST_TAIL => take j vs ++ v :: s :: drop (S j) vs | LIST_HEAD => take j vs ++ s :: v :: drop (S j) vs end) as Hcut.
  { intros vs j Hj. unfold after, cut. destruct where_; [by rewrite (drop_S _ _ _ Hj)|]. by rewrite (take_S_r _ _ _ Hj), <-app_assoc. }
  destruct o as [lp|ql], (li_cursor li) as [p|[it|]] eqn:Ecur, e as [lpe|e]; try done.
  - intros (-> & es & j & Hp & Hj & -> & -> & -> & _) Hs [Hn Hsz]. pose proof (lookup_lt_Some _ _ _ Hj) as Hlt. unfold strs in Hlt. rewrite length_fmap in Hlt.
    inversion Hsz as [|? ? Hs1 _]; subst. rewrite (take_drop_elem _ _ _ Hj), strs_zlen in Hn. change (zlen [VStr s]) with 1 in Hn. unfold value_string. cbn [mbind option_bind].
    destruct (packed_insert junk f Hf lp es j s after Hp Hlt Hn Hs Hs1) as (b & E & Hp').
    assert (not_null (lpInsertString junk lp s (pos (take j es)) match where_ with LIST_TAIL => LP_AFTER | LIST_HEAD => LP_BEFORE end) = Some b) as E' by (unfold after in E; by destruct where_).
    next_is E'. simpl. rewrite Ecur. split; [done|]. eexists. split; [exact Hp'|]. rewrite <-(Hcut _ _ Hj). by apply (strs_insert f).
  - intros (ns & vss & A & a & nd & B & VA & vs & VB & j & Hl & Hrd & -> & -> & Ed & Ef & Ec) Hs _. rewrite <-Ef in Hrd. unfold value_string. cbn [mbind option_bind].
    assert (match where_ with LIST_TAIL => quicklistInsertAfter 0 junk in_data htab0 zmalloc h ql it e s | LIST_HEAD => quicklistInsertBefore 0 junk in_data htab0 zmalloc h ql it e s end =
      _quicklistInsert 0 junk in_data htab0 zmalloc h ql it e s after) as -> by (by destruct where_).
    call (insert_entry_spec junk Hjunk in_data htab0 zmalloc Hin Htab Hmalloc _ _ _ _ _ _ _ _ _ _ _ _ _ _ _ _ s after Hl Hrd Hs).
    intros [[h2 q2] it2] (ns2 & vss2 & Hq2 & [Ef2 Ec2] & E2 & Eit). simpl. exists ns2, vss2, None. split; [done|]. split; [by left|].
    split; [intros b Eb; destruct Eit as [E|[E ?]]; rewrite E in Eb; simplify_eq; done|]. split; [|split; congruence].
    rewrite E2, (Hcut vs j (rd_elem _ _ _ _ _ _ _ _ _ _ _ _ _ _ Hrd)). destruct where_; by rewrite <-!app_assoc.
Qed.
End Iter.
End ListIter.
