(* ===== verification/ListSpec.v ===== *)
(** * Lists: what the commands mean

    The commands on a finite map from keys to non-empty lists of byte strings, where a
    listpack, a quicklist, an iterator or a heap does not occur. *)

From stdpp Require Import gmap.
From Stdlib Require Import String.
From S2P Require Import Prelude Util Lzf LzfProofs Listpack ListpackRepr ListpackElem ListpackEdit ListpackValues Linked Adlist Post Quicklist QuicklistRepr QuicklistNodes QuicklistCompress QuicklistEdit QuicklistPush QuicklistPop QuicklistIter QuicklistSeek QuicklistHistory ListType ListRepr.

Module ListSpec.
Import Linked Quicklist ListpackValues QuicklistHistory ListType ListRepr ListEnds ListCommands.

Implicit Types (l : list (list Z)).
Abbreviation lists := (gmap key (list (list Z))).

(** ** On one list *)

Definition push_many (where_ : list_position) (argv : list (list Z)) l : list (list Z) :=
  match where_ with LIST_HEAD => rev argv ++ l | LIST_TAIL => l ++ argv end.

(** The elements from one index to another, from the end if they are negative. *)
Definition range_of l (start end_ : Z) : list (list Z) :=
  let start := if start <? 0 then Z.max 0 (zlen l + start) else start in
  let end_ := if end_ <? 0 then zlen l + end_ else Z.min end_ (zlen l - 1) in
  take (Z.to_nat (end_ + 1 - start)) (drop (Z.to_nat start) l).

(** Beside the first element that is equal to the pivot. *)
Fixpoint insert_pivot (where_ : list_position) (pivot ele : list Z) l : option (list (list Z)) :=
  match l with
  | [] => None
  | v :: l =>
      if decide (v = pivot) then Some (match where_ with LIST_TAIL => v :: ele :: l | LIST_HEAD => ele :: v :: l end)
      else cons v <$> insert_pivot where_ pivot ele l
  end.

(** Without the first [n] elements that are equal to [s]. *)
Fixpoint remove_up_to (n : nat) (s : list Z) l : list (list Z) :=
  match n, l with
  | O, _ => l
  | _, [] => []
  | S m, v :: l => if decide (v = s) then remove_up_to m s l else v :: remove_up_to n s l
  end.

(** LREM: from the head, or from the tail if the number is negative; all if it is 0. *)
Definition remove_equal (toremove : Z) (s : list Z) l : list (list Z) :=
  if toremove <? 0 then rev (remove_up_to (Z.to_nat (- toremove)) s (rev l))
  else if toremove =? 0 then filter (λ v, v ≠ s) l
  else remove_up_to (Z.to_nat toremove) s l.

(** The popped elements and the others. *)
Definition pop_many (where_ : list_position) (n : nat) l : list (list Z) * list (list Z) :=
  match where_ with
  | LIST_HEAD => (take n l, drop n l)
  | LIST_TAIL => (take n (rev l), rev (drop n (rev l)))
  end.

(** The indexes of the elements that are equal to [s]. *)
Fixpoint hits (s : list Z) (index : Z) l : list Z :=
  match l with
  | [] => []
  | v :: l => if decide (v = s) then index :: hits s (index + 1) l else hits s (index + 1) l
  end.

(** LPOS: the hits among the first [maxlen] elements in the direction of the rank, from
    that rank on, [count] of them. *)
Definition positions (s : list Z) (a : lpos_args) l : list Z :=
  let rank := lpos_rank a in
  let facing := if rank <? 0 then rev l else l in
  let seen := if lpos_maxlen a =? 0 then facing else take (Z.to_nat (lpos_maxlen a)) facing in
  let found := drop (Z.to_nat (Z.abs rank - 1)) (hits s 0 seen) in
  let found := if lpos_count a =? -1 then take 1 found else if lpos_count a =? 0 then found else take (Z.to_nat (lpos_count a)) found in
  (λ i, if rank <? 0 then zlen l - i - 1 else i) <$> found.

(** ** On the map *)

Inductive list_cmd :=
  | CPush (k : key) (argv : list (list Z)) (where_ : list_position) (xx : bool)
  | CInsert (k : key) (where_arg pivot ele : list Z)
  | CLen (k : key)
  | CIndex (k : key) (arg : list Z)
  | CSet (k : key) (arg ele : list Z)
  | CRange (k : key) (arg1 arg2 : list Z)
  | CPop (k : key) (argv : list (list Z)) (where_ : list_position)
  | CMpop (argv : list (list Z))
  | CTrim (k : key) (arg1 arg2 : list Z)
  | CRem (k : key) (arg ele : list Z)
  | CPos (k : key) (ele : list Z) (argv : list (list Z))
  | CMove (src dst : key) (arg1 arg2 : list Z)
  | CRpoplpush (src dst : key).

(** An empty list is not stored. *)
Definition store (M : lists) (k : key) l : lists := match l with [] => delete k M | _ => <[k := l]> M end.

Definition at_key (M : lists) (k : key) : list (list Z) := default [] (M !! k).

Definition where_of (arg : list Z) : option list_position :=
  if strcasecmp_eq arg (bytes_of_string "after"%string) then Some LIST_TAIL
  else if strcasecmp_eq arg (bytes_of_string "before"%string) then Some LIST_HEAD
  else None.

Definition pop_keyed (M : lists) (k : key) (where_ : list_position) (count : Z) : lists * list (list Z) :=
  let '(popped, l) := pop_many where_ (Z.to_nat count) (at_key M k) in (store M k l, popped).

Fixpoint pop_first (M : lists) (keys : list key) (where_ : list_position) (count : Z) : lists * reply :=
  match keys with
  | [] => (M, ReplyArray None)
  | k :: keys =>
      match M !! k with
      | None => pop_first M keys where_ count
      | Some _ => let '(M, popped) := pop_keyed M k where_ count in (M, ReplyKeyed k popped)
      end
  end.

(** The element at an end of [src] goes to an end of [dst]. *)
Definition move (M : lists) (src dst : key) (wherefrom whereto : list_position) : lists * reply :=
  match pop_keyed M src wherefrom 1 with
  | (M, [v]) => (<[dst := push_many whereto [v] (at_key M dst)]> M, ReplyBulk (Some v))
  | _ => (M, ReplyBulk None)
  end.

Definition list_step (M : lists) (c : list_cmd) : lists * reply :=
  match c with
  | CPush k argv where_ xx =>
      match M !! k, xx with
      | None, true => (M, ReplyInt 0)
      | _, _ => let l := push_many where_ argv (at_key M k) in (<[k := l]> M, ReplyInt (zlen l))
      end
  | CInsert k where_arg pivot ele =>
      match where_of where_arg, M !! k with
      | None, _ => (M, ReplyError ErrSyntax)
      | _, None => (M, ReplyInt 0)
      | Some where_, Some l =>
          match insert_pivot where_ pivot ele l with
          | Some l => (<[k := l]> M, ReplyInt (zlen l))
          | None => (M, ReplyInt (-1))
          end
      end
  | CLen k => (M, ReplyInt (zlen (at_key M k)))
  | CIndex k arg =>
      match M !! k, getLongFromObjectOrReply arg ErrNotInteger with
      | None, _ => (M, ReplyBulk None)
      | _, inl e => (M, ReplyError e)
      | Some l, inr i => (M, ReplyBulk (j ← place l i; l !! j))
      end
  | CSet k arg ele =>
      match M !! k, getLongFromObjectOrReply arg ErrNotInteger with
      | None, _ => (M, ReplyError ErrNoKey)
      | _, inl e => (M, ReplyError e)
      | Some l, inr i => match place l i with Some j => (<[k := <[j := ele]> l]> M, ReplyOK) | None => (M, ReplyError ErrIndex) end
      end
  | CRange k arg1 arg2 =>
      match getLongFromObjectOrReply arg1 ErrNotInteger, getLongFromObjectOrReply arg2 ErrNotInteger with
      | inl e, _ | _, inl e => (M, ReplyError e)
      | inr start, inr end_ => (M, ReplyArray (Some (range_of (at_key M k) start end_)))
      end
  | CPop k argv where_ =>
      if 1 <? zlen argv then (M, ReplyError ErrArity)
      else match argv !! 0%nat with
      | None => let '(M, popped) := pop_keyed M k where_ 1 in (M, ReplyBulk (popped !! 0%nat))
      | Some arg =>
          match getPositiveLongFromObjectOrReply arg None, M !! k with
          | inl e, _ => (M, ReplyError e)
          | _, None => (M, ReplyArray None)
          | inr count, _ => let '(M, popped) := pop_keyed M k where_ count in (M, ReplyArray (Some popped))
          end
      end
  | CMpop argv =>
      match lmpop_args argv with
      | Some (inr (keys, where_, count)) => pop_first M keys where_ count
      | Some (inl e) => (M, ReplyError e)
      | None => (M, ReplyError ErrSyntax)
      end
  | CTrim k arg1 arg2 =>
      match getLongFromObjectOrReply arg1 ErrNotInteger, getLongFromObjectOrReply arg2 ErrNotInteger with
      | inl e, _ | _, inl e => (M, ReplyError e)
      | inr start, inr end_ => (store M k (range_of (at_key M k) start end_), ReplyOK)
      end
  | CRem k arg ele =>
      match getRangeLongFromObjectOrReply arg (- INT64_MAX) INT64_MAX None with
      | inl e => (M, ReplyError e)
      | inr toremove =>
          let l := at_key M k in
          let l' := remove_equal toremove ele l in
          (store M k l', ReplyInt (zlen l - zlen l'))
      end
  | CPos k ele argv =>
      match lpos_options (length argv) argv (mkLpos 1 (-1) 0) with
      | inl e => (M, ReplyError e)
      | inr a =>
          let found := positions ele a (at_key M k) in
          (M, if lpos_count a =? -1 then match found with i :: _ => ReplyInt i | [] => ReplyBulk None end else ReplyInts found)
      end
  | CMove src dst arg1 arg2 =>
      match getListPositionFromObjectOrReply arg1, getListPositionFromObjectOrReply arg2 with
      | inl e, _ | _, inl e => (M, ReplyError e)
      | inr wherefrom, inr whereto => move M src dst wherefrom whereto
      end
  | CRpoplpush src dst => move M src dst LIST_TAIL LIST_HEAD
  end.

Fixpoint list_steps (M : lists) (cs : list list_cmd) : lists * list reply :=
  match cs with
  | [] => (M, [])
  | c :: cs => let '(M, r) := list_step M c in let '(M, rs) := list_steps M cs in (M, r :: rs)
  end.

(** ** The commands of the program *)

Section Exec.
Context (server : redisServer) (junk : Z) (in_data : heap → Z) (htab0 : heap → Z → Z) (zmalloc : heap → address).

Definition list_exec (h : heap) (c_db : db) (c : list_cmd) : option (heap * db * reply) :=
  match c with
  | CPush k argv where_ xx => pushGenericCommand server junk in_data htab0 zmalloc h c_db k argv where_ xx
  | CInsert k where_arg pivot ele => linsertCommand server junk in_data htab0 zmalloc h c_db k where_arg pivot ele
  | CLen k => llenCommand h c_db k
  | CIndex k arg => lindexCommand junk in_data htab0 h c_db k arg
  | CSet k arg ele => lsetCommand server junk in_data htab0 zmalloc h c_db k arg ele
  | CRange k arg1 arg2 => lrangeCommand junk in_data htab0 h c_db k arg1 arg2
  | CPop k argv where_ => popGenericCommand server junk in_data htab0 zmalloc h c_db k argv where_
  | CMpop argv => lmpopCommand server junk in_data htab0 zmalloc h c_db argv
  | CTrim k arg1 arg2 => ltrimCommand server junk in_data htab0 zmalloc h c_db k arg1 arg2
  | CRem k arg ele => lremCommand server junk in_data htab0 zmalloc h c_db k arg ele
  | CPos k ele argv => lposCommand junk in_data htab0 h c_db k ele argv
  | CMove src dst arg1 arg2 => lmoveCommand server junk in_data htab0 zmalloc h c_db src dst arg1 arg2
  | CRpoplpush src dst => rpoplpushCommand server junk in_data htab0 zmalloc h c_db src dst
  end.

Fixpoint list_run (h : heap) (c_db : db) (cs : list list_cmd) : option (heap * db * list reply) :=
  match cs with
  | [] => Some (h, c_db, [])
  | c :: cs => '(h, c_db, r) ← list_exec h c_db c; '(h, c_db, rs) ← list_run h c_db cs; Some (h, c_db, r :: rs)
  end.
End Exec.
End ListSpec.

(** * Lists: the loops of the commands

    An iteration, whatever its direction, has elements behind it and elements ahead,
    the next one first; the loops of LINSERT, LREM, LPOS and LRANGE are recursions on
    the elements ahead. *)

Module ListLoops.
Import Adlist Post Linked Quicklist QuicklistRepr QuicklistNodes QuicklistCompress QuicklistEdit QuicklistIter QuicklistSeek QuicklistHistory Listpack ListpackElem ListpackEdit ListpackRepr ListpackValues ListType ListRepr ListEnds ListIter ListCommands ListSpec.

Implicit Types (h : heap) (l b t : list (list Z)) (o : robj) (li : listTypeIterator).

(** The list of an iteration; the elements behind once one more is passed. *)
Definition whole (d : list_position) b t : list (list Z) := match d with LIST_TAIL => b ++ t | LIST_HEAD => rev t ++ b end.
Definition pass (d : list_position) b (v : list Z) : list (list Z) := match d with LIST_TAIL => b ++ [v] | LIST_HEAD => v :: b end.

Lemma whole_pass d b v t : whole d (pass d b v) t = whole d b (v :: t).
Proof. destruct d; simpl; by rewrite <-app_assoc. Qed.

Lemma whole_len d b t : zlen (whole d b t) = zlen b + zlen t.
Proof. destruct d; simpl; rewrite zlen_app; [|done]. unfold zlen. rewrite length_rev. lia. Qed.

(** ** Removal *)

Lemma remove_len n s l : zlen (remove_up_to n s l) <= zlen l.
Proof.
  revert n. induction l as [|v l IH]; intros [|n]; [done..|]. cbn [remove_up_to]. rewrite zlen_cons. case_decide; [specialize (IH n); lia|].
  rewrite zlen_cons. specialize (IH (S n)). lia.
Qed.

Lemma remove_all n s l : (length l <= n)%nat → remove_up_to n s l = filter (λ v, v ≠ s) l.
Proof.
  revert n. induction l as [|v l IH]; intros n; [by destruct n|]. destruct n as [|n]; simpl; [lia|]. intros Hn. rewrite filter_cons.
  case_decide as E1; case_decide as E2; [done|apply IH; lia|rewrite IH by lia; done|]. destruct E2. done.
Qed.

Lemma hits_range s index l : Forall (λ i, index <= i < index + zlen l) (hits s index l).
Proof.
  revert index. induction l as [|v l IH]; intros index; [constructor|]. cbn [hits]. rewrite zlen_cons. pose proof (zlen_nonneg l).
  specialize (IH (index + 1)). rewrite list.Forall_forall in IH. apply list.Forall_forall. intros i.
  case_decide; rewrite ?elem_of_cons; [intros [->|Hi]|intros Hi]; [lia|specialize (IH i Hi); lia..].
Qed.

(** ** Hits *)

Definition seen (a : lpos_args) (index : Z) t : list (list Z) := if lpos_maxlen a =? 0 then t else take (Z.to_nat (lpos_maxlen a - index)) t.
Definition found (a : lpos_args) s (index matches : Z) t : list Z := drop (Z.to_nat (lpos_rank a - 1 - matches)) (hits s index (seen a index t)).
Definition sent (a : lpos_args) (matches : Z) : Z := Z.max 0 (matches - lpos_rank a + 1).
Definition index_in (d : list_position) (llen i : Z) : Z := match d with LIST_TAIL => i | LIST_HEAD => llen - i - 1 end.

Record args_ok (a : lpos_args) : Prop := { rank_pos : 1 <= lpos_rank a; count_low : -1 <= lpos_count a; maxlen_low : 0 <= lpos_maxlen a }.

Lemma seen_cons a index v t : 0 <= lpos_maxlen a →
  seen a index (v :: t) = if (lpos_maxlen a =? 0) || (index <? lpos_maxlen a) then v :: seen a (index + 1) t else [].
Proof.
  intros Ha. unfold seen. destruct (lpos_maxlen a =? 0) eqn:E0; [done|]. simpl. zb. destruct (index <? _) eqn:E1; zb.
  - replace (Z.to_nat (lpos_maxlen a - index)) with (S (Z.to_nat (lpos_maxlen a - (index + 1)))) by lia. done.
  - by replace (Z.to_nat (lpos_maxlen a - index)) with 0%nat by lia.
Qed.

(** What the loop finds at one element. *)
Lemma found_cons a s index matches v t : args_ok a →
  found a s index matches (v :: t) =
    if (lpos_maxlen a =? 0) || (index <? lpos_maxlen a) then
      if decide (v = s) then
        if lpos_rank a <=? matches + 1 then index :: found a s (index + 1) (matches + 1) t else found a s (index + 1) (matches + 1) t
      else found a s (index + 1) matches t
    else [].
Proof.
  intros [Hr _ Hm]. unfold found. rewrite seen_cons by done. destruct (_ || _); [|simpl; by rewrite drop_nil]. cbn [hits]. case_decide; [|done].
  destruct (lpos_rank a <=? matches + 1) eqn:E; zb.
  - replace (Z.to_nat (lpos_rank a - 1 - matches)) with 0%nat by lia. by replace (Z.to_nat (lpos_rank a - 1 - (matches + 1))) with 0%nat by lia.
  - by replace (Z.to_nat (lpos_rank a - 1 - matches)) with (S (Z.to_nat (lpos_rank a - 1 - (matches + 1)))) by lia.
Qed.

Definition pos_result (d : list_position) (llen : Z) (a : lpos_args) (F : list Z) (matches r : Z) (l : list Z) : Prop :=
  if lpos_count a =? -1 then r = match F with [] => -1 | i :: _ => index_in d llen i end ∧ l = []
  else l = index_in d llen <$> (if lpos_count a =? 0 then F else take (Z.to_nat (lpos_count a - sent a matches)) F).

Lemma pos_result_nil d llen a matches : pos_result d llen a [] matches (-1) [].
Proof. unfold pos_result. destruct (lpos_count a =? -1); [done|]. destruct (lpos_count a =? 0); [done|]. by rewrite take_nil. Qed.

Section Loops.
Context (server : redisServer) (junk : Z) (Hjunk : is_byte junk) (in_data : heap → Z) (htab0 : heap → Z → Z) (zmalloc : heap → address).
Context (Hcfg : config_ok server).
Context (Hin : ∀ h, Lzf.MAX_OFF <= in_data h ∧ in_data h + INT32_MAX < 2 ^ 64) (Htab : ∀ h i, 0 <= htab0 h i < 2 ^ 64).
Context (Hmalloc : ∀ h, h !! zmalloc h = None).
Let f := list_max_listpack_size server.
Abbreviation lobj := (lobj server).
Abbreviation has_room := (has_room server).
Abbreviation iterating := (iterating server).
Abbreviation releasable := (releasable server).
Abbreviation current_at := (current_at server).

(** ** Iterations *)

Definition walking h0 h o li b t : Prop :=
  match li_direction li with LIST_TAIL => iterating h0 h o li b t | LIST_HEAD => iterating h0 h o li (rev t) b end.
Definition facing h0 h o li e b v t : Prop :=
  match li_direction li with LIST_TAIL => current_at h0 h o li e b v t | LIST_HEAD => current_at h0 h o li e (rev t) v b end.

Lemma walking_releasable h0 h o li b t : walking h0 h o li b t → releasable h0 h o li (whole (li_direction li) b t).
Proof using. unfold walking, whole. destruct (li_direction li); apply iterating_releasable. Qed.

Lemma facing_releasable h0 h o li e b v t : facing h0 h o li e b v t → releasable h0 h o li (whole (li_direction li) b (v :: t)).
Proof using.
  unfold facing, whole. destruct (li_direction li); intros H%current_releasable; [|done]. simpl. by rewrite <-app_assoc.
Qed.

Lemma walk_next h0 h o li b t : walking h0 h o li b t →
  post (listTypeNext junk in_data htab0 h o li) (λ '(h', li', e), li_direction li' = li_direction li ∧ (straight li → straight li') ∧
    match t with
    | [] => e = None ∧ walking h0 h' o li' b []
    | v :: t => ∃ e', e = Some e' ∧ facing h0 h' o li' e' b v t
    end).
Proof using Hcfg Hin Htab.
  intros H. assert (∃ pre next, iterating h0 h o li pre next ∧ match li_direction li with LIST_TAIL => pre = b ∧ next = t | LIST_HEAD => pre = rev t ∧ next = b end) as (pre & next & Hit & E).
  { unfold walking in H. destruct (li_direction li); by eexists _, _. }
  eapply post_mono; [by apply (list_next_spec server junk in_data htab0 Hcfg Hin Htab _ _ _ _ _ _ Hit)|].
  intros [[h' li'] [e|]] (Ed & Hs & He); (split; [done|]); (split; [done|]); unfold walking, facing; rewrite Ed.
  - destruct He as (l1 & v & l2 & Hc & Epp). destruct (li_direction li), E as [-> ->], Epp as [E1 E2].
    + apply (f_equal (@rev _)) in E1. rewrite rev_involutive, rev_app_distr in E1. simpl in E1. subst. exists e. by rewrite rev_involutive.
    + subst. by exists e.
  - destruct He as [Hit' Hlim]. destruct (li_direction li), E as [-> ->]; simpl in Hlim.
    + apply (f_equal (@rev _)) in Hlim. rewrite rev_involutive in Hlim. simpl in Hlim. by subst t.
    + by subst t.
Qed.

Lemma facing_moves h0 h o li e b v t : facing h0 h o li e b v t → walking h0 h o li (pass (li_direction li) b v) t.
Proof using.
  unfold facing, walking, pass. intros H. assert (li_direction li = LIST_HEAD ∨ li_direction li = LIST_TAIL) as [E|E] by (destruct (li_direction li); auto);
    rewrite E in *; pose proof (current_moves _ _ _ _ _ _ _ _ _ H) as H'; by rewrite E in H'.
Qed.

Lemma facing_equal h0 h o li e b v t s : facing h0 h o li e b v t → listTypeEqual o e s = Some (bool_decide (v = s)).
Proof using. unfold facing. destruct (li_direction li); apply list_equal_spec. Qed.

Lemma facing_delete h0 h o li e b v t : facing h0 h o li e b v t → straight li →
  post (listTypeDelete junk in_data htab0 h o li e) (λ '(h', o', li'), walking h0 h' o' li' b t ∧ li_direction li' = li_direction li ∧ straight li').
Proof using Hcfg Hin Htab.
  intros H Hs. assert (∃ l1 l2, current_at h0 h o li e l1 v l2 ∧ match li_direction li with LIST_TAIL => l1 = b ∧ l2 = t | LIST_HEAD => l1 = rev t ∧ l2 = b end) as (l1 & l2 & Hc & E).
  { unfold facing in H. destruct (li_direction li); by eexists _, _. }
  eapply post_mono; [by apply (list_delete_spec server junk in_data htab0 Hcfg Hin Htab _ _ _ _ _ _ _ _ Hc Hs)|].
  intros [[h' o'] li'] (Hit & Ed & Hs'). split; [|done]. unfold walking. rewrite Ed. by destruct (li_direction li), E as [-> ->].
Qed.

Lemma walk_length h0 h o li b t : walking h0 h o li b t →
  post (listTypeLength o) (λ '(o', n), walking h0 h o' li b t ∧ n = zlen (whole (li_direction li) b t)).
Proof using. unfold walking, whole. destruct (li_direction li); apply iter_length. Qed.

(** From an end of the list. *)
Lemma walk_start h0 h o l d : lobj h0 h o l → zlen l <= INT64_MAX →
  post (listTypeInitIterator h o (match d with LIST_TAIL => 0 | LIST_HEAD => -1 end) d) (λ li, li_direction li = d ∧ straight li ∧
    walking h0 h o li [] (match d with LIST_TAIL => l | LIST_HEAD => rev l end)).
Proof using Hcfg.
  intros Ho Hmax. set (i := match d with LIST_TAIL => 0 | LIST_HEAD => -1 end).
  eapply post_mono; [apply (list_init_spec server Hcfg h0 h o l i d Ho Hmax); unfold i, is_int64, INT64_MIN, INT64_MAX; by destruct d|].
  intros li (Ed & Hs & pre & next & -> & Hit & Hend). split; [done|]. split; [apply Hs; unfold i; by destruct d|]. unfold walking. rewrite Ed.
  assert (match d with LIST_TAIL => pre = [] | LIST_HEAD => next = [] end) as E.
  { destruct (place_spec (pre ++ next) i) as [(j & Ep & Hr & Ej)|[Ep Hr]]; rewrite Ep in Hend; unfold norm, i, zlen in *; rewrite length_app in *; destruct d; simpl in *.
    - apply length_zero_iff_nil. lia.
    - apply length_zero_iff_nil. lia.
    - subst pre. apply length_zero_iff_nil. simpl in Hr. lia.
    - subst next. apply length_zero_iff_nil. simpl in Hr. lia. }
  destruct d; subst; rewrite ?app_nil_r, ?rev_involutive; done.
Qed.

(** The fuel is enough. *)
Lemma iter_fuel_enough h0 h o li l : releasable h0 h o li l → (length l < iter_fuel o)%nat.
Proof using.
  assert (∀ lp es, packed f lp es → (length (strs es) < iter_fuel (OListpack lp))%nat) as Hlp.
  { intros lp es Hp. simpl. pose proof (total_count _ _ _ Hp) as H1. destruct (packed_take _ _ _ Hp) as [H2 _]. unfold strs. rewrite length_fmap. unfold zlen in *. lia. }
  assert (∀ ql ns vss use, qlist h0 h ql ns vss use → (length (mjoin vss) < iter_fuel (OQuicklist ql))%nat) as Hql.
  { intros ql ns vss use [_ Hn]. simpl. unfold quicklistCount. rewrite Hn. unfold zlen. lia. }
  unfold ListIter.releasable. destruct o as [lp|ql], (li_cursor li) as [p|[it|]]; try done.
  - intros (-> & es & Hp & <-). by apply Hlp.
  - intros (ns & vss & use & Hl & _ & _ & <- & _). by eapply Hql.
  - intros [(ns & vss & Hl & <-) _]. by eapply Hql.
Qed.

(** ** LINSERT *)

Lemma pivot_loop_spec h0 o pivot ele where_ fuel : str_ok ele → ∀ h li b t, li_direction li = LIST_TAIL → walking h0 h o li b t → has_room o (b ++ t) [VStr ele] →
  (length t < fuel)%nat → post (pivot_loop junk in_data htab0 zmalloc fuel h o li pivot ele where_) (λ '(h', o', li', inserted),
    match insert_pivot where_ pivot ele t with
    | Some t' => inserted = true ∧ releasable h0 h' o' li' (b ++ t')
    | None => inserted = false ∧ releasable h0 h' o' li' (b ++ t)
    end).
Proof using Hjunk Hcfg Hin Htab Hmalloc.
  intros He. induction fuel as [|fuel IH]; [lia|]. intros h li b t Ed Hw Hr Hfl. cbn [pivot_loop].
  call (walk_next _ _ _ _ _ _ Hw). intros [[h1 li1] e] (Ed1 & _ & Ht). rewrite Ed in Ed1. destruct t as [|v t].
  - destruct Ht as [-> Hw1]. simpl. split; [done|]. pose proof (walking_releasable _ _ _ _ _ _ Hw1) as H. by rewrite Ed1 in H.
  - destruct Ht as (e' & -> & Hf). next_is (facing_equal _ _ _ _ _ _ _ _ pivot Hf). cbn [insert_pivot]. case_bool_decide as E.
    + rewrite decide_True by done. unfold facing in Hf. rewrite Ed1 in Hf.
      call (list_insert_spec server junk Hjunk in_data htab0 zmalloc Hcfg Hin Htab Hmalloc _ _ _ _ _ _ _ _ ele where_ Hf He Hr).
      intros [[h2 o2] li2] H2. simpl. split; [done|]. by destruct where_.
    + rewrite decide_False by done. pose proof (facing_moves _ _ _ _ _ _ _ _ Hf) as Hw2. rewrite Ed1 in Hw2. simpl in Hw2, Hfl.
      eapply post_mono; [apply (IH h1 li1 (b ++ [v]) t Ed1 Hw2); [by rewrite <-app_assoc|lia]|].
      intros [[[h2 o2] li2] ins]. destruct (insert_pivot where_ pivot ele t) as [t'|]; simpl; by rewrite <-app_assoc.
Qed.

(** ** LREM *)

Lemma rem_loop_spec h0 s toremove fuel : ∀ h o li b t removed n, walking h0 h o li b t → straight li → (length t < fuel)%nat →
  (toremove = 0 ∧ (length t <= n)%nat) ∨ (toremove ≠ 0 ∧ removed + Z.of_nat n = toremove ∧ (0 < n)%nat) →
  post (rem_loop junk in_data htab0 fuel h o li s toremove removed) (λ '(h', o', li', removed'),
    let t' := remove_up_to n s t in releasable h0 h' o' li' (whole (li_direction li) b t') ∧ removed' = removed + zlen t - zlen t').
Proof using Hcfg Hin Htab.
  induction fuel as [|fuel IH]; [lia|]. intros h o li b t removed n Hw Hs Hfl Hn. cbn [rem_loop].
  call (walk_next _ _ _ _ _ _ Hw). intros [[h1 li1] e] (Ed1 & Hs1 & Ht). specialize (Hs1 Hs). destruct t as [|v t].
  - destruct Ht as [-> Hw1]. simpl. pose proof (walking_releasable _ _ _ _ _ _ Hw1) as H. rewrite Ed1 in H. destruct n; simpl; (split; [done|lia]).
  - destruct Ht as (e' & -> & Hf). next_is (facing_equal _ _ _ _ _ _ _ _ s Hf). simpl in Hfl. destruct n as [|n]; [simpl in Hn; lia|].
    cbn [remove_up_to]. case_bool_decide as E.
    + rewrite decide_True by done. call (facing_delete _ _ _ _ _ _ _ _ Hf Hs1). intros [[h2 o2] li2] (Hw2 & Ed2 & Hs2). rewrite Ed1 in Ed2.
      destruct (negb (toremove =? 0) && (removed + 1 =? toremove)) eqn:Elast.
      * apply andb_true_iff in Elast as [E1 E2]. rewrite negb_true_iff in E1. zb. assert (n = 0%nat) as -> by lia. simpl.
        assert (remove_up_to 0 s t = t) as -> by (by destruct t). pose proof (walking_releasable _ _ _ _ _ _ Hw2) as H. rewrite Ed2 in H.
        split; [done|]. rewrite zlen_cons. lia.
      * assert ((toremove = 0 ∧ (length t <= n)%nat) ∨ (toremove ≠ 0 ∧ removed + 1 + Z.of_nat n = toremove ∧ (0 < n)%nat)) as Hn'.
        { simpl in Hn. destruct Hn as [[-> ?]|(Ht0 & ? & ?)]; [left; lia|right]. rewrite (proj2 (Z.eqb_neq _ _)) in Elast by done. simpl in Elast. zb. lia. }
        eapply post_mono; [apply (IH h2 o2 li2 b t (removed + 1) n Hw2 Hs2 ltac:(lia) Hn')|]. intros [[[h3 o3] li3] r3] [H ->]. rewrite Ed2 in H.
        split; [done|]. rewrite zlen_cons. lia.
    + rewrite decide_False by done. pose proof (facing_moves _ _ _ _ _ _ _ _ Hf) as Hw2.
      eapply post_mono; [apply (IH h1 o li1 _ t removed (S n) Hw2 Hs1 ltac:(lia)); simpl in Hn; lia|]. intros [[[h3 o3] li3] r3] [H ->]. rewrite Ed1 in H.
      rewrite whole_pass in H. split; [done|]. rewrite !zlen_cons. lia.
Qed.

(** ** LPOS *)

Lemma pos_loop_spec h0 o s llen a fuel : args_ok a → ∀ h li b t index matches, walking h0 h o li b t → (length t < fuel)%nat → 0 <= matches →
  (lpos_count a = -1 → matches < lpos_rank a) → (0 < lpos_count a → sent a matches < lpos_count a) →
  post (pos_loop junk in_data htab0 fuel h o li s llen a index matches) (λ '(h', li', r, l), releasable h0 h' o li' (whole (li_direction li) b t) ∧
    pos_result (li_direction li) llen a (found a s index matches t) matches r l).
Proof using Hcfg Hin Htab.
  intros Ha. induction fuel as [|fuel IH]; [lia|]. intros h li b t index matches Hw Hfl Hm Hc1 Hc2. cbn [pos_loop].
  call (walk_next _ _ _ _ _ _ Hw). intros [[h1 li1] e] (Ed1 & _ & Ht). destruct t as [|v t].
  - destruct Ht as [-> Hw1]. simpl. pose proof (walking_releasable _ _ _ _ _ _ Hw1) as H. rewrite Ed1 in H. split; [done|].
    assert (found a s index matches [] = []) as ->; [|apply pos_result_nil]. unfold found, seen. destruct (lpos_maxlen a =? 0); rewrite ?take_nil; simpl; by rewrite drop_nil.
  - destruct Ht as (e' & -> & Hf). simpl in Hfl. rewrite found_cons by done. pose proof (facing_releasable _ _ _ _ _ _ _ _ Hf) as Hrel.
    pose proof (facing_moves _ _ _ _ _ _ _ _ Hf) as Hw2. rewrite Ed1 in Hrel.
    assert (∀ m, 0 <= m → (lpos_count a = -1 → m < lpos_rank a) → (0 < lpos_count a → sent a m < lpos_count a) →
      post (pos_loop junk in_data htab0 fuel h1 o li1 s llen a (index + 1) m) (λ '(h', li', r, l), releasable h0 h' o li' (whole (li_direction li) b (v :: t)) ∧
        pos_result (li_direction li) llen a (found a s (index + 1) m t) m r l)) as Hgo.
    { intros m Hm0 Hm1 Hm2. eapply post_mono; [apply (IH h1 li1 _ t (index + 1) m Hw2); try done; lia|]. intros [[[h2 li2] r] l]. by rewrite Ed1, whole_pass. }
    destruct (negb _) eqn:Eneg; [rewrite negb_true_iff in Eneg; rewrite Eneg; split; [done|apply pos_result_nil]|]. rewrite negb_false_iff in Eneg. rewrite Eneg.
    next_is (facing_equal _ _ _ _ _ _ _ _ s Hf). unfold pos_result, sent in *. pose proof (count_low _ Ha) as Hcl. case_bool_decide as E.
    + rewrite decide_True by done. rewrite Ed1. fold (index_in (li_direction li) llen index). destruct (lpos_rank a <=? matches + 1) eqn:Er; zb.
      * destruct (lpos_count a =? -1) eqn:E1; zb; simpl negb; cbv iota; [split; [done|]; by split|].
        destruct (lpos_count a =? 0) eqn:E0; zb; simpl negb; cbn [andb].
        -- call (Hgo (matches + 1)); [lia..|]. intros [[[h2 li2] r] l] [H1 ->]. simpl. by split.
        -- destruct (lpos_count a <=? matches + 1 - lpos_rank a + 1) eqn:E2; zb.
           ++ split; [done|]. by replace (Z.to_nat (lpos_count a - Z.max 0 (matches - lpos_rank a + 1))) with 1%nat by lia.
           ++ call (Hgo (matches + 1)); [lia..|]. intros [[[h2 li2] r] l] [H1 ->]. simpl. split; [done|].
              by replace (Z.to_nat (lpos_count a - Z.max 0 (matches - lpos_rank a + 1))) with (S (Z.to_nat (lpos_count a - Z.max 0 (matches + 1 - lpos_rank a + 1)))) by lia.
      * eapply post_mono; [apply (Hgo (matches + 1)); lia|]. intros [[[h2 li2] r] l]. by replace (Z.max 0 (matches + 1 - lpos_rank a + 1)) with (Z.max 0 (matches - lpos_rank a + 1)) by lia.
    + rewrite decide_False by done. by apply Hgo.
Qed.

(** ** LRANGE *)

Lemma quicklist_range_loop_spec h0 ql d n : ∀ h it b t, walking h0 h (OQuicklist ql) (mkListIter d (CQuicklist (Some it))) b t → (n <= length t)%nat →
  post (quicklist_range_loop junk in_data htab0 n h ql it) (λ '(h', it', l), l = take n t ∧
    releasable h0 h' (OQuicklist ql) (mkListIter d (CQuicklist (Some it'))) (whole d b t)).
Proof using Hcfg Hin Htab.
  induction n as [|n IH]; intros h it b t Hw Hn.
  { split; [done|]. exact (walking_releasable _ _ _ _ _ _ Hw). }
  destruct t as [|v t]; [simpl in Hn; lia|]. pose proof (walk_next _ _ _ _ _ _ Hw) as H. unfold listTypeNext in H. cbn [li_cursor li_direction quicklist_range_loop] in *.
  destruct (quicklistNext junk in_data htab0 h ql it) as [[[h1 it1] e]|]; [|done]. simpl in H. destruct H as (_ & _ & e' & E & Hf). destruct e as [e|]; [|done].
  injection E as <-. cbn [mbind option_bind].
  assert (value_string (match e_value e with Some s => VStr s | None => VInt (e_longval e) end) = Some v) as Ev.
  { assert (∃ l1 l2, current_at h0 h1 (OQuicklist ql) (mkListIter d (CQuicklist (Some it1))) (EQuicklist e) l1 v l2) as (l1 & l2 & Hc) by (unfold facing in Hf; cbn [li_direction] in Hf; destruct d; by eexists _, _).
    destruct (list_value_spec server _ _ _ _ _ _ _ _ Hc) as (x & E1 & E2). injection E1 as <-. exact E2. }
  next_is Ev. pose proof (facing_moves _ _ _ _ _ _ _ _ Hf) as Hw2. call (IH h1 it1 _ t Hw2); [simpl in Hn; lia|].
  intros [[h2 it2] l] [-> H2]. simpl. split; [done|]. by rewrite <-whole_pass.
Qed.

Lemma listpack_range_loop_spec h0 lp d p n lpbytes : lpBytes lp = Some lpbytes → ∀ b t, walking h0 h0 (OListpack lp) (mkListIter d (CListpack p)) b t → (n <= length t)%nat →
  listpack_range_loop junk n lp lpbytes p (bool_decide (d = LIST_HEAD)) = Some (take n t).
Proof using Hcfg Hin Htab.
  intros Hb. revert p. induction n as [|n IH]; intros p b t Hw Hn; [done|].
  destruct t as [|v t]; [simpl in Hn; lia|]. pose proof (walk_next _ _ _ _ _ _ Hw) as H. unfold listTypeNext in H. cbn [li_cursor li_direction listpack_range_loop] in *.
  destruct p as [p|]; [|simpl in H; by destruct H as (_ & _ & ? & ? & _)]. cbn [mbind option_bind].
  assert ((if bool_decide (d = LIST_HEAD) then lpPrev lp p else lpNextWithBytes lp p lpbytes) = match d with LIST_TAIL => lpNext lp p | LIST_HEAD => lpPrev lp p end) as ->.
  { destruct d; [by rewrite bool_decide_true|]. rewrite bool_decide_false by done. unfold lpNextWithBytes, lpNext. by rewrite Hb. }
  destruct (match d with LIST_TAIL => _ | LIST_HEAD => _ end) as [q|]; [|done]. simpl in H. destruct H as (_ & _ & e' & [= <-] & Hf).
  assert (lp_string junk lp p = Some v) as ->.
  { assert (∃ l1 l2, current_at h0 h0 (OListpack lp) (mkListIter d (CListpack q)) (EListpack p) l1 v l2) as (l1 & l2 & _ & es & j & Hp & Hj & _ & _ & -> & _)
      by (unfold facing in Hf; cbn [li_direction] in Hf; destruct d; by eexists _, _). by eapply lp_string_spec. }
  cbn [mbind option_bind]. pose proof (facing_moves _ _ _ _ _ _ _ _ Hf) as Hw2. rewrite (IH q _ t Hw2); [done|simpl in Hn; lia].
Qed.
End Loops.
End ListLoops.

(** * Lists: the data base

    [db_rep h db M]: the objects of the data base stand for the lists of [M] and the heap
    is a base heap with the cells of all quicklists, each apart from the others.  What
    the steps of the commands do to one object, and to the data base when it is stored. *)

Module ListDb.
Import Adlist Post Linked Quicklist QuicklistRepr QuicklistNodes QuicklistCompress QuicklistEdit QuicklistIter QuicklistSeek QuicklistHistory Listpack ListpackElem ListpackEdit ListpackRepr ListpackValues ListType ListRepr ListEnds ListIter ListCommands ListSpec ListLoops.

Implicit Types (h : heap) (l b t : list (list Z)) (o : robj) (li : listTypeIterator) (M : lists) (c_db : db).

(** ** Ranges of a list *)

Lemma take_rev_range {X} (l : list X) s e : (s <= e < length l)%nat → take (e + 1 - s) (rev (take (S e) l)) = rev (take (e + 1 - s) (drop s l)).
Proof.
  intros H. rewrite firstn_rev, length_take. replace (Nat.min (S e) (length l) - (e + 1 - s))%nat with s by lia.
  f_equal. rewrite skipn_firstn_comm. f_equal. lia.
Qed.

Lemma range_of_norm l start end_ : 0 <= start → start <= end_ → end_ < zlen l → range_of l start end_ = take (Z.to_nat end_ + 1 - Z.to_nat start) (drop (Z.to_nat start) l).
Proof.
  intros H1 H2 H3. unfold range_of. rewrite (proj2 (Z.ltb_ge start 0)), (proj2 (Z.ltb_ge end_ 0)) by lia. f_equal. lia.
Qed.

(** The bounds of a range, normalised as the commands do. *)
Lemma range_of_bounds l start end_ :
  let s := if start <? 0 then zlen l + start else start in
  let e := if end_ <? 0 then zlen l + end_ else end_ in
  let s := if s <? 0 then 0 else s in
  if (e <? s) || (zlen l <=? s) then range_of l start end_ = []
  else let e := if zlen l <=? e then zlen l - 1 else e in 0 <= s <= e ∧ e < zlen l ∧ range_of l start end_ = range_of l s e.
Proof.
  intros s0 e0 s. pose proof (zlen_nonneg l) as Hl. assert ((if start <? 0 then Z.max 0 (zlen l + start) else start) = s) as Es by (unfold s, s0; repeat case_match; zb; lia).
  assert ((if end_ <? 0 then zlen l + end_ else Z.min end_ (zlen l - 1)) = (if end_ <? 0 then e0 else Z.min e0 (zlen l - 1))) as Ee by (unfold e0; by destruct (end_ <? 0)).
  assert (0 <= s) as Hs by (unfold s; destruct (s0 <? 0) eqn:E; zb; lia). assert (end_ < 0 → e0 < zlen l) as He0 by (intros E; unfold e0; rewrite (proj2 (Z.ltb_lt _ _) E); lia).
  unfold range_of at 1 2. rewrite Es, Ee. destruct (_ || _) eqn:Eo; [|cbv zeta].
  - apply orb_true_iff in Eo as [E|E]; zb.
    + by replace (Z.to_nat _) with 0%nat by (case_match; zb; lia).
    + rewrite drop_ge by (unfold zlen in E; lia). apply take_nil.
  - apply orb_false_iff in Eo as [E1 E2]. zb. set (e := if zlen l <=? e0 then zlen l - 1 else e0).
    assert (s <= e < zlen l) as He by (unfold e; destruct (zlen l <=? e0) eqn:E; zb; lia). split; [lia|]. split; [lia|]. rewrite range_of_norm by lia. f_equal.
    unfold e. repeat case_match; zb; lia.
Qed.

Section Objects.
Context (server : redisServer) (junk : Z) (Hjunk : is_byte junk) (in_data : heap → Z) (htab0 : heap → Z → Z) (zmalloc : heap → address).
Context (Hcfg : config_ok server).
Context (Hin : ∀ h, Lzf.MAX_OFF <= in_data h ∧ in_data h + INT32_MAX < 2 ^ 64) (Htab : ∀ h i, 0 <= htab0 h i < 2 ^ 64).
Context (Hmalloc : ∀ h, h !! zmalloc h = None).
Abbreviation lobj := (lobj server).
Abbreviation has_room := (has_room server).
Abbreviation releasable := (releasable server).
Abbreviation walking := (walking server).

(** ** Steps on one object *)

Lemma push_all_spec h0 where_ argv : ∀ h o l, lobj h0 h o l → Forall str_ok argv → has_room o l (VStr <$> argv) →
  post (push_all junk in_data htab0 zmalloc h o argv where_) (λ '(h', o'), lobj h0 h' o' (push_many where_ argv l)).
Proof using Hjunk Hcfg Hin Htab Hmalloc.
  induction argv as [|v argv IH]; intros h o l Ho Hv Hr.
  { simpl. destruct where_; simpl; by rewrite ?app_nil_r. }
  inversion Hv; subst. simpl. call (list_push_spec server junk Hjunk in_data htab0 zmalloc Hcfg Hin Htab Hmalloc h0 h o l (VStr v) (VStr <$> argv) where_ Ho); [done|done|].
  intros [h1 o1] [Ho1 Hr1]. eapply post_mono; [by apply (IH h1 o1 _ Ho1)|]. intros [h2 o2]. destruct where_; simpl; by rewrite <-app_assoc.
Qed.

Lemma walk_at h0 h o l i d : lobj h0 h o l → zlen l <= INT64_MAX → is_int64 i → i ≠ INT64_MIN →
  post (listTypeInitIterator h o i d) (λ li, li_direction li = d ∧ ∃ b t, walking h0 h o li b t ∧ whole d b t = l ∧
    t = match place l i with Some j => match d with LIST_TAIL => drop j l | LIST_HEAD => rev (take (S j) l) end | None => [] end).
Proof using Hcfg.
  intros Ho Hmax Hi Hi'. eapply post_mono; [by apply (list_init_spec server Hcfg h0 h o l i d Ho Hmax)|].
  intros li (Ed & _ & pre & next & -> & Hit & Hend). split; [done|]. unfold ListLoops.walking. rewrite Ed. destruct d.
  - exists next, (rev pre). rewrite rev_involutive. split; [done|]. split; [simpl; by rewrite rev_involutive|]. destruct (place _ i) as [j|]; simpl in Hend.
    + by rewrite take_app_length'.
    + by subst pre.
  - exists pre, next. split; [done|]. split; [done|]. destruct (place _ i) as [j|]; simpl in Hend.
    + by rewrite drop_app_length'.
    + done.
Qed.

Lemma range_spec h0 h o l start end_ reverse : lobj h0 h o l → zlen l <= INT32_MAX →
  post (addListRangeReply junk in_data htab0 h o start end_ reverse) (λ '(h', o', r), lobj h0 h' o' l ∧
    r = if reverse then rev (range_of l start end_) else range_of l start end_).
Proof using Hcfg Hin Htab.
  intros Ho Hmax. unfold addListRangeReply. call (length_spec server h0 h o l Ho). intros [o1 n] (Ho1 & -> & _). cbv zeta.
  pose proof (range_of_bounds l start end_) as Hb. cbv zeta in Hb. set (s := if (if start <? 0 then _ else _) <? 0 then _ else _) in *.
  set (e0 := if end_ <? 0 then _ else _) in *. destruct (_ || _); [rewrite Hb; simpl; split; [done|by destruct reverse]|].
  set (e := if zlen l <=? e0 then _ else _) in *. destruct Hb as (Hse & He & ->). rewrite range_of_norm by lia. clearbody s e. clear Ho.
  unfold INT32_MAX in *. set (d := if reverse then LIST_HEAD else LIST_TAIL). set (from := if reverse then e else s). set (n := Z.to_nat (e - s + 1)).
  assert (0 <= from < zlen l) as Hfrom by (unfold from; destruct reverse; lia).
  assert (place l from = Some (Z.to_nat from)) as Epl.
  { unfold place, norm. rewrite (proj2 (Z.ltb_ge from 0)), (proj2 (Z.leb_le 0 from)), (proj2 (Z.ltb_lt from _)) by lia. done. }
  assert (match d with LIST_TAIL => drop (Z.to_nat from) l | LIST_HEAD => rev (take (S (Z.to_nat from)) l) end = match place l from with Some j => match d with LIST_TAIL => drop j l | LIST_HEAD => rev (take (S j) l) end | None => [] end) as Et by (by rewrite Epl).
  pose proof (walk_at h0 h o1 l from d Ho1 ltac:(unfold INT64_MAX; lia) ltac:(unfold is_int64, INT64_MIN, INT64_MAX; lia) ltac:(unfold INT64_MIN; lia)) as Hw.
  set (t0 := match d with LIST_TAIL => _ | LIST_HEAD => _ end) in Et. rewrite <-Et in Hw. clear Et Epl.
  assert (n <= length t0)%nat as Hn by (unfold t0, d, n, from, zlen in *; destruct reverse; rewrite ?length_rev, ?length_take, ?length_drop; lia).
  assert (take n t0 = if reverse then rev (take (Z.to_nat e + 1 - Z.to_nat s) (drop (Z.to_nat s) l)) else take (Z.to_nat e + 1 - Z.to_nat s) (drop (Z.to_nat s) l)) as <-.
  { unfold t0, d, n, from, zlen in *. replace (Z.to_nat (e - s + 1)) with (Z.to_nat e + 1 - Z.to_nat s)%nat by lia. destruct reverse; [|done]. apply take_rev_range. lia. }
  assert (swrap 32 from = from) as Esf by (apply swrap_id; [done|]; change (2 ^ (32 - 1)) with 2147483648; lia).
  assert (swrap 32 (e - s + 1) = e - s + 1) as Esn by (apply swrap_id; [done|]; change (2 ^ (32 - 1)) with 2147483648; lia).
  destruct o1 as [lp|ql].
  - unfold addListListpackRangeReply. rewrite Esf, Esn, (proj2 (Z.ltb_ge _ _)) by lia. pose proof Ho1 as (-> & es & Hp & _).
    unfold listTypeInitIterator in Hw. destruct (lpSeek lp from) as [p|]; [|done]. simpl in Hw. destruct Hw as (_ & b & t & Hw & _ & ->).
    cbn [mbind option_bind]. pose proof (packed_bytes _ _ _ Hp) as Eb. rewrite Eb. cbn [mbind option_bind]. fold n.
    pose proof (listpack_range_loop_spec server junk in_data htab0 Hcfg Hin Htab h0 lp d p n (total es) Eb b t0 Hw Hn) as E.
    assert (bool_decide (d = LIST_HEAD) = reverse) as Er by (unfold d; by destruct reverse). rewrite Er in E. rewrite E. simpl. by split.
  - unfold addListQuicklistRangeReply. rewrite Esf, Esn, (proj2 (Z.ltb_ge _ _)) by lia. unfold listTypeInitIterator in Hw.
    assert (iter_direction d = if reverse then AL_START_TAIL else AL_START_HEAD) as Ed by (unfold d; by destruct reverse). rewrite Ed in Hw.
    destruct (quicklistGetIteratorAtIdx h ql _ from) as [[it|]|]; [| |done]; simpl in Hw; destruct Hw as (_ & b & t & Hw & Ew & ->); cbn [mbind option_bind].
    + fold n. pose proof (quicklist_range_loop_spec server junk in_data htab0 Hcfg Hin Htab h0 ql d n h it b t0 Hw Hn) as H.
      apply post_bind. call H. intros [[h1 it1] l'] [-> Hr]. apply post_bind. rewrite Ew in Hr. pose proof (list_release_spec server junk in_data htab0 Hin Htab _ _ _ _ _ Hr) as H2.
      unfold listTypeReleaseIterator in H2. simpl in H2. eapply post_mono; [exact H2|]. intros h2 Ho2. simpl. by split.
    + exfalso. unfold ListLoops.walking, ListIter.iterating in Hw. assert (t0 = []) as E0.
      { cbn [li_direction li_cursor] in Hw. destruct d; simpl in Hw; destruct Hw as [_ E]; [|done]. apply (f_equal (@rev _)) in E. by rewrite rev_involutive in E. }
      rewrite E0 in Hn. unfold n in Hn. simpl in Hn. lia.
Qed.

(** ** The objects of a data base *)

Section Base.
Context (base : heap).

Inductive db_rep : heap → db → lists → Prop :=
  | db_none : db_rep base ∅ ∅
  | db_one h1 h c_db M k o l : db_rep h1 c_db M → c_db !! k = None → lobj h1 h o l → db_rep h (<[k := o]> c_db) (<[k := l]> M).

(** Nothing is left when there are no keys. *)
Lemma db_rep_empty h c_db : db_rep h c_db ∅ → h = base.
Proof using.
  intros H. remember (∅ : lists) as M eqn:E. destruct H as [|h1 h c_db M k o l _ _ _]; [done|]. by apply insert_non_empty in E.
Qed.

Lemma db_keys h c_db M k : db_rep h c_db M → c_db !! k = None ↔ M !! k = None.
Proof using. induction 1 as [|h1 h c_db M k' o l _ IH _ _]; [by rewrite !lookup_empty|]. rewrite !lookup_insert_None. by rewrite IH. Qed.

Lemma db_split h c_db M k o : db_rep h c_db M → c_db !! k = Some o → ∃ h1 l, M !! k = Some l ∧ lobj h1 h o l ∧ db_rep h1 (delete k c_db) (delete k M).
Proof using.
  intros H. revert o. induction H as [|h1 h c_db M k' o' l' H IH Hk' Ho']; intros o Hk; [done|]. destruct (decide (k' = k)) as [->|Hne].
  - rewrite lookup_insert_eq in Hk. injection Hk as ->. exists h1, l'. rewrite lookup_insert_eq. split; [done|]. split; [done|].
    rewrite !delete_insert_eq. rewrite !delete_id; [done| |done]. by apply (db_keys h1 c_db M k).
  - rewrite lookup_insert_ne in Hk by done. destruct (IH o Hk) as (h2 & l & El & Ho & H2). destruct (lobj_swap server h2 h1 h o l o' l' Ho Ho') as (h3 & Ho3 & Ho4).
    exists h3, l. rewrite lookup_insert_ne by done. split; [done|]. split; [done|]. rewrite !delete_insert_ne by done. econstructor; [exact H2| |exact Ho3].
    by rewrite lookup_delete_ne.
Qed.

Lemma db_cases h c_db M k : db_rep h c_db M →
  (c_db !! k = None ∧ M !! k = None) ∨ ∃ o l h1, c_db !! k = Some o ∧ M !! k = Some l ∧ lobj h1 h o l ∧ db_rep h1 (delete k c_db) (delete k M).
Proof using.
  intros H. destruct (c_db !! k) as [o|] eqn:E; [right|left; split; [done|]; by apply (db_keys _ _ _ k H)].
  destruct (db_split _ _ _ _ _ H E) as (h1 & l & ? & ? & ?). by exists o, l, h1.
Qed.

Lemma db_put h1 h c_db M k o l : db_rep h1 (delete k c_db) (delete k M) → lobj h1 h o l → db_rep h (<[k := o]> c_db) (<[k := l]> M).
Proof using.
  intros H Ho. rewrite <-(insert_delete_eq c_db), <-(insert_delete_eq M). econstructor; [exact H| |exact Ho]. apply lookup_delete_eq.
Qed.

(** Stored again, the list is the same. *)
Lemma db_again h1 h c_db M k o l : M !! k = Some l → db_rep h1 (delete k c_db) (delete k M) → lobj h1 h o l → db_rep h (<[k := o]> c_db) M.
Proof using. intros E H Ho. rewrite <-(insert_id M k l E). by eapply db_put. Qed.

Lemma db_fresh h c_db M k : db_rep h c_db M → M !! k = None → db_rep h (delete k c_db) (delete k M).
Proof using. intros H E. pose proof E as E'. apply (db_keys _ _ _ k H) in E'. by rewrite !delete_id. Qed.

Lemma list_removed_spec h1 h c_db M k o l : db_rep h1 (delete k c_db) (delete k M) → lobj h1 h o l →
  post (listElementsRemoved server junk in_data htab0 zmalloc h c_db k o) (λ '(h', db'), db_rep h' db' (store M k l)).
Proof using Hcfg.
  intros H Ho. unfold listElementsRemoved. call (length_spec server h1 h o l Ho). intros [o1 n] (Ho1 & -> & _). destruct (zlen l =? 0) eqn:E; zb.
  - assert (l = []) as -> by (destruct l as [|v l']; [done|]; rewrite zlen_cons in E; pose proof (zlen_nonneg l'); lia). unfold dbDelete. rewrite lookup_insert_eq, delete_insert_eq.
    destruct o1 as [lp|ql].
    + destruct Ho1 as [-> _]. done.
    + destruct Ho1 as [Hst _]. by rewrite (release_stands _ _ _ _ Hst).
  - call (list_shrink_spec server junk in_data htab0 zmalloc Hcfg h1 h o1 l Ho1). intros [h2 o2] Ho2. simpl. destruct l; [done|]. by eapply db_put.
Qed.

Lemma store_delete M k l : delete k (store M k l) = delete k M.
Proof using. destruct l; simpl; [by rewrite delete_delete_eq|by rewrite delete_insert_eq]. Qed.

(** Popping some elements of a list at one end. *)
Lemma pop_range_spec h1 h c_db M k o l where_ count : db_rep h1 (delete k c_db) (delete k M) → lobj h1 h o l → l ≠ [] → zlen l <= INT32_MAX → 0 < count →
  post (pop_range server junk in_data htab0 zmalloc h c_db k o where_ count) (λ '(h', db', r),
    let '(popped, l') := pop_many where_ (Z.to_nat count) l in r = popped ∧ db_rep h' db' (store M k l')).
Proof using Hcfg Hin Htab.
  intros H Ho Hne Hmax Hc. unfold pop_range. call (length_spec server h1 h o l Ho). intros [o1 n] (Ho1 & -> & _). cbv zeta. set (m := if zlen l <? count then zlen l else count).
  assert (0 < zlen l) as Hl by (destruct l as [|v l']; [done|]; rewrite zlen_cons; pose proof (zlen_nonneg l'); lia).
  assert (0 < m <= zlen l) as Hm by (unfold m; destruct (zlen l <? count) eqn:E; zb; lia). unfold INT32_MAX in Hmax.
  assert (pop_many where_ (Z.to_nat count) l = pop_many where_ (Z.to_nat m) l) as ->.
  { unfold m. destruct (zlen l <? count) eqn:E; [|done]. zb. unfold zlen in *. rewrite Nat2Z.id. unfold pop_many.
    destruct where_; by rewrite !take_ge, !drop_ge by (rewrite ?length_rev; lia). }
  clearbody m. set (i := match where_ with LIST_HEAD => 0 | LIST_TAIL => - m end). set (j := match where_ with LIST_HEAD => m - 1 | LIST_TAIL => -1 end).
  call (range_spec h1 h o1 l i j (bool_decide (where_ = LIST_TAIL)) Ho1 Hmax). intros [[h2 o2] r] [Ho2 ->].
  call (list_del_range_spec server junk in_data htab0 Hcfg Hin Htab h1 h2 o2 l i m Ho2 Hmax); [unfold i, INT32_MAX; destruct where_; lia|unfold INT32_MAX; lia|].
  intros [h3 o3] Ho3. call (list_removed_spec h1 h3 c_db M k o3 _ H Ho3). intros [h4 db4] H4. simpl.
  assert (pop_many where_ (Z.to_nat m) l = (if bool_decide (where_ = LIST_TAIL) then rev (range_of l i j) else range_of l i j, cut_range l i m)) as ->; [|done].
  unfold pop_many, cut_range, norm, i, j. unfold zlen in *. destruct where_.
  - rewrite bool_decide_false by done. rewrite range_of_norm by (unfold zlen; lia). simpl. f_equal; [f_equal; lia|]. by rewrite (proj2 (Z.ltb_lt 0 _)) by lia.
  - rewrite bool_decide_true by done. rewrite (proj2 (Z.ltb_lt (- m) 0)), (proj2 (Z.leb_le 0 _)), (proj2 (Z.ltb_lt _ (Z.of_nat (length l)))) by lia. cbn [andb]. f_equal.
    + rewrite firstn_rev. f_equal. unfold range_of, zlen. rewrite (proj2 (Z.ltb_lt (- m) 0)) by lia. simpl. rewrite take_ge by (rewrite length_drop; lia). f_equal. lia.
    + rewrite skipn_rev, rev_involutive, (drop_ge l (Z.to_nat _)) by lia. rewrite app_nil_r. f_equal. lia.
Qed.
End Base.
End Objects.
End ListDb.
