(* ===== verification/ListPerform.v ===== *)
(** * Lists: every command performs its step

    One lemma per command: on a data base that stands for [M] it returns, gives the answer
    of [list_step] and leaves a data base that stands for its result. *)

From stdpp Require Import gmap.
From Stdlib Require Import String.
From S2P Require Import Prelude Util Lzf LzfProofs Listpack ListpackRepr ListpackElem ListpackEdit ListpackValues Linked Adlist Post Quicklist QuicklistRepr QuicklistNodes QuicklistCompress QuicklistEdit QuicklistPush QuicklistPop QuicklistIter QuicklistSeek QuicklistHistory ListType ListRepr ListSpec.

Module ListPerform.
Import Adlist Post Linked Quicklist QuicklistRepr QuicklistNodes QuicklistCompress QuicklistEdit QuicklistIter QuicklistSeek QuicklistHistory Listpack ListpackElem ListpackEdit ListpackRepr ListpackValues ListType ListRepr ListEnds ListIter ListCommands ListSpec ListLoops ListDb.

Implicit Types (h : heap) (l b t : list (list Z)) (o : robj) (li : listTypeIterator) (M : lists) (c_db : db).

Definition nonempty M : Prop := map_Forall (λ _ l, l ≠ []) M.
Definition small M : Prop := map_Forall (λ _ l, zlen l <= INT32_MAX) M.

(** ** Arguments *)

Lemma long_range s msg i : getLongFromObjectOrReply s msg = inr i → Util.string2ll s = Some i ∧ is_int64 i.
Proof.
  unfold getLongFromObjectOrReply. destruct (Util.string2ll s) as [v|] eqn:E; [|done]. intros [= ->]. split; [done|]. by apply Util.string2ll_spec in E as [? _].
Qed.

Lemma range_long s lo hi msg i : getRangeLongFromObjectOrReply s lo hi msg = inr i → lo <= i <= hi.
Proof.
  unfold getRangeLongFromObjectOrReply. destruct (getLongFromObjectOrReply _ _) as [|v]; [done|]. destruct (_ || _) eqn:E; [done|]. intros [= ->].
  apply orb_false_iff in E as [? ?]. zb. lia.
Qed.

Lemma lpos_options_ok fuel : ∀ argv a a', lpos_rank a ≠ 0 → -1 <= lpos_count a → 0 <= lpos_maxlen a → lpos_options fuel argv a = inr a' →
  lpos_rank a' ≠ 0 ∧ -1 <= lpos_count a' ∧ 0 <= lpos_maxlen a'.
Proof.
  induction fuel as [|fuel IH]; intros argv a a' Hr Hc Hm E; destruct argv as [|opt argv]; cbn [lpos_options] in E; try by simplify_eq.
  destruct argv as [|arg argv]; [done|].
  assert (∀ a0 : lpos_args, lpos_rank a0 ≠ 0 → -1 <= lpos_count a0 → 0 <= lpos_maxlen a0 → lpos_options fuel argv a0 = inr a' →
    lpos_rank a' ≠ 0 ∧ -1 <= lpos_count a' ∧ 0 <= lpos_maxlen a') as Hgo by (intros; by eapply IH).
  destruct (strcasecmp_eq opt (bytes_of_string "RANK"%string)).
  - destruct (getRangeLongFromObjectOrReply arg _ _ _) as [|rank]; [done|]. destruct (rank =? 0) eqn:E0; [done|]. zb. eapply Hgo; [..|exact E]; simpl; (done || lia).
  - destruct (strcasecmp_eq opt (bytes_of_string "COUNT"%string)).
    + unfold getPositiveLongFromObjectOrReply in E. destruct (getRangeLongFromObjectOrReply arg _ _ _) as [|n] eqn:En; [done|]. apply range_long in En.
      eapply Hgo; [..|exact E]; simpl; (done || lia).
    + destruct (strcasecmp_eq opt (bytes_of_string "MAXLEN"%string)); [|done].
      unfold getPositiveLongFromObjectOrReply in E. destruct (getRangeLongFromObjectOrReply arg _ _ _) as [|n] eqn:En; [done|]. apply range_long in En.
      eapply Hgo; [..|exact E]; simpl; (done || lia).
Qed.

Lemma lmpop_options_ok fuel : ∀ argv count count', count = -1 ∨ 1 <= count → lmpop_options fuel argv count = inr count' → count' = -1 ∨ 1 <= count'.
Proof.
  induction fuel as [|fuel IH]; intros argv n n' Hn E; destruct argv as [|opt argv]; cbn [lmpop_options] in E; try by simplify_eq.
  destruct argv as [|arg argv]; [done|]. destruct (_ && _); [|done].
  destruct (getRangeLongFromObjectOrReply arg _ _ _) as [|m] eqn:Em; [done|]. apply range_long in Em. eapply IH; [|exact E]. lia.
Qed.

Lemma lmpop_args_ok argv keys where_ count : lmpop_args argv = Some (inr (keys, where_, count)) → 1 <= count.
Proof.
  unfold lmpop_args. destruct (argv !! 0%nat) as [arg|]; [|done]. simpl. destruct (getRangeLongFromObjectOrReply arg _ _ _) as [|n]; [done|].
  destruct (INT64_MAX <? _); [done|]. destruct (_ <=? _); [done|]. destruct (argv !! _) as [warg|]; [|done]. simpl.
  destruct (getListPositionFromObjectOrReply warg) as [|w]; [done|]. destruct (lmpop_options _ _ _) as [|m] eqn:Em; [done|].
  apply lmpop_options_ok in Em; [|by left]. intros [= _ _ <-]. destruct (m =? -1) eqn:E; zb; lia.
Qed.

(** ** Lists *)

Lemma pop_one where_ v l : pop_many where_ 1 (push_to where_ v l) = ([v], l).
Proof. destruct where_; simpl; [by rewrite drop_0|]. rewrite rev_app_distr. simpl. by rewrite take_0, drop_0, rev_involutive. Qed.

Lemma pop_nil where_ n : pop_many where_ n [] = ([], []).
Proof. destruct where_; simpl; by rewrite take_nil, drop_nil. Qed.

Lemma pop_none where_ l : pop_many where_ 0 l = ([], l).
Proof. destruct where_; simpl; rewrite ?take_0, ?drop_0, ?rev_involutive; done. Qed.

Lemma push_to_many where_ v l : push_to where_ v l = push_many where_ [v] l.
Proof. by destruct where_. Qed.

Lemma push_many_nonempty where_ argv l : argv ≠ [] → push_many where_ argv l ≠ [].
Proof.
  intros Ha E. apply Ha, length_zero_iff_nil. apply (f_equal length) in E. destruct where_; simpl in E; rewrite length_app, ?length_rev in E; lia.
Qed.

Lemma remove_equal_nil n s : remove_equal n s [] = [].
Proof.
  unfold remove_equal. destruct (n <? 0); [by destruct (Z.to_nat (- n))|]. destruct (n =? 0); [done|]. by destruct (Z.to_nat n).
Qed.

Lemma positions_nil s a : positions s a [] = [].
Proof.
  unfold positions. destruct (lpos_rank a <? 0), (lpos_maxlen a =? 0), (lpos_count a =? -1), (lpos_count a =? 0); simpl; rewrite ?take_nil; simpl; by rewrite drop_nil, ?take_nil.
Qed.

(** What the loop of LPOS answers. *)
Lemma positions_result s a l r found_ : lpos_rank a ≠ 0 →
  let d := if lpos_rank a <? 0 then LIST_HEAD else LIST_TAIL in
  let a' := mkLpos (Z.abs (lpos_rank a)) (lpos_count a) (lpos_maxlen a) in
  let t := match d with LIST_TAIL => l | LIST_HEAD => rev l end in
  pos_result d (zlen l) a' (found a' s 0 0 t) 0 r found_ →
  (if negb (lpos_count a =? -1) then ReplyInts found_ else if negb (r =? -1) then ReplyInt r else ReplyBulk None) =
  (if lpos_count a =? -1 then match positions s a l with i :: _ => ReplyInt i | [] => ReplyBulk None end else ReplyInts (positions s a l)).
Proof.
  intros Hr d a' t. set (F := found a' s 0 0 t).
  assert (positions s a l = index_in d (zlen l) <$> (if lpos_count a =? -1 then take 1 F else if lpos_count a =? 0 then F else take (Z.to_nat (lpos_count a)) F)) as ->.
  { unfold positions, F, found, seen, t, d, a'. cbn [lpos_rank lpos_count lpos_maxlen]. rewrite !Z.sub_0_r. by destruct (lpos_rank a <? 0). }
  assert (Forall (λ i, 0 <= i < zlen l) F) as HF.
  { unfold F, found. apply Forall_drop. eapply list.Forall_impl; [apply hits_range|]. intros i Hi. cbv beta in Hi. assert (zlen (seen a' 0 t) <= zlen l); [|lia].
    unfold seen, t, zlen. destruct (lpos_maxlen a' =? 0), d; rewrite ?length_take, ?length_rev; lia. }
  unfold pos_result. cbn [lpos_count a']. assert (sent a' 0 = 0) as -> by (unfold sent, a'; simpl; lia). rewrite Z.sub_0_r. destruct (lpos_count a =? -1) eqn:E.
  - intros [-> _]. simpl negb. cbv iota. destruct F as [|i F']; [done|]. inversion HF; subst. assert (index_in d (zlen l) i ≠ -1) as Hi by (unfold index_in; destruct d; lia).
    by rewrite (proj2 (Z.eqb_neq _ _) Hi).
  - by intros ->.
Qed.

Lemma cut_front l n : 0 <= n <= zlen l → cut_range l 0 n = drop (Z.to_nat n) l.
Proof.
  intros Hn. unfold cut_range, norm. simpl. destruct (0 <? zlen l) eqn:E; zb; [done|]. assert (l = []) as -> by (apply length_zero_iff_nil; unfold zlen in E; lia). by rewrite drop_nil.
Qed.

Lemma cut_back l n : 0 <= n <= zlen l → cut_range l (- n) n = take (Z.to_nat (zlen l - n)) l.
Proof.
  intros Hn. unfold cut_range, norm. destruct (- n <? 0) eqn:E; zb.
  - rewrite (proj2 (Z.leb_le _ _)), (proj2 (Z.ltb_lt _ _)) by lia. cbn [andb]. rewrite (drop_ge l) by (unfold zlen; lia). by rewrite app_nil_r.
  - assert (n = 0) as -> by lia. change (- 0) with 0. rewrite Z.sub_0_r, (take_ge l (Z.to_nat (zlen l))) by (unfold zlen; lia). by destruct (_ && _).
Qed.

Lemma trim_range l start end_ : let '(ltrim, rtrim) := trim_ends (zlen l) start end_ in
  0 <= ltrim <= zlen l ∧ 0 <= rtrim <= zlen l ∧ cut_range (cut_range l 0 ltrim) (- rtrim) rtrim = range_of l start end_.
Proof.
  unfold trim_ends. pose proof (range_of_bounds l start end_) as Hb. cbv zeta in Hb. pose proof (zlen_nonneg l) as Hl.
  set (s := if (if start <? 0 then _ else _) <? 0 then _ else _) in *. set (e0 := if end_ <? 0 then _ else _) in *. destruct (_ || _).
  - split; [lia|]. split; [lia|]. rewrite Hb, (cut_front l (zlen l)) by lia. rewrite drop_ge by (unfold zlen; lia). done.
  - set (e := if zlen l <=? e0 then _ else _) in *. destruct Hb as (Hse & He & ->). split; [lia|]. split; [lia|]. rewrite cut_front by lia.
    assert (zlen (drop (Z.to_nat s) l) = zlen l - s) as Ed by (unfold zlen in *; rewrite length_drop; lia). rewrite cut_back by lia. rewrite Ed, range_of_norm by lia. f_equal. lia.
Qed.

Section Perform.
Context (server : redisServer) (junk : Z) (Hjunk : is_byte junk) (in_data : heap → Z) (htab0 : heap → Z → Z) (zmalloc : heap → address).
Context (Hcfg : config_ok server).
Context (Hin : ∀ h, Lzf.MAX_OFF <= in_data h ∧ in_data h + INT32_MAX < 2 ^ 64) (Htab : ∀ h i, 0 <= htab0 h i < 2 ^ 64).
Context (Hmalloc : ∀ h, h !! zmalloc h = None) (base : heap).
Abbreviation lobj := (lobj server).
Abbreviation has_room := (has_room server).
Abbreviation rep := (db_rep server base).
Abbreviation releasable := (releasable server).

(** The arguments a client may send: strings of at most 2^31 - 1 bytes, a number of them
    that a listpack can take, an index that has a negation, for LSET one that is an [int]. *)
Definition list_cmd_ok (c : list_cmd) : Prop :=
  match c with
  | CPush _ argv _ _ => argv ≠ [] ∧ Forall str_ok argv ∧ zlen argv <= arg_room server ∧ zlen argv <= INT32_MAX
  | CInsert _ _ _ ele => str_ok ele
  | CIndex _ arg => Util.string2ll arg ≠ Some INT64_MIN
  | CSet _ arg ele => str_ok ele ∧ match Util.string2ll arg with Some i => INT32_MIN <= i <= INT32_MAX | None => True end
  | CMpop argv => is_Some (lmpop_args argv)
  | _ => True
  end.

Definition performs (c : list_cmd) : Prop := ∀ h c_db M, rep h c_db M → nonempty M → small M → list_cmd_ok c →
  post (list_exec server junk in_data htab0 zmalloc h c_db c) (λ '(h', db', r), rep h' db' (list_step M c).1 ∧ r = (list_step M c).2).

Lemma small_int64 M k l : small M → M !! k = Some l → zlen l <= INT64_MAX.
Proof using. intros Hs E. specialize (Hs k l E). unfold INT32_MAX, INT64_MAX in *. lia. Qed.

Lemma at_key_some M k l : M !! k = Some l → at_key M k = l.
Proof using. unfold at_key. by intros ->. Qed.
Lemma at_key_none M k : M !! k = None → at_key M k = [].
Proof using. unfold at_key. by intros ->. Qed.
Lemma store_none M k : M !! k = None → store M k [] = M.
Proof using. apply delete_id. Qed.
Lemma store_some M k l : l ≠ [] → store M k l = <[k := l]> M.
Proof using. by destruct l. Qed.
Lemma store_same M k l : M !! k = Some l → l ≠ [] → store M k l = M.
Proof using. intros E Hl. rewrite store_some by done. by apply insert_id. Qed.

(** ** Adding *)

Lemma push_performs k argv where_ xx : performs (CPush k argv where_ xx).
Proof using Hjunk Hcfg Hin Htab Hmalloc.
  intros h c_db M H Hne Hs (Ha & Hv & Hr & Hlen). simpl. unfold pushGenericCommand.
  assert (∀ h1 o l, rep h1 (delete k c_db) (delete k M) → lobj h1 h o l →
    post ('(h, lobj) ← listTypeTryConversionAppend server junk in_data htab0 zmalloc h o (VStr <$> argv);
          '(h, lobj) ← push_all junk in_data htab0 zmalloc h lobj argv where_;
          '(lobj, llen) ← listTypeLength lobj;
          Some (h, <[k := lobj]> c_db, ReplyInt llen))
      (λ '(h', db', r), rep h' db' (<[k := push_many where_ argv l]> M) ∧ r = ReplyInt (zlen (push_many where_ argv l)))) as Hgo.
  { intros h1 o l H1 Ho. assert (zlen (VStr <$> argv) = zlen argv) as El by (unfold zlen; by rewrite length_fmap).
    call (convert_append_spec server junk in_data htab0 zmalloc Hcfg Hin Htab Hmalloc h1 h o l (VStr <$> argv) Ho); [by apply Forall_fmap|by rewrite El|by rewrite El|].
    intros [h2 o2] [Ho2 Hroom]. call (push_all_spec server junk Hjunk in_data htab0 zmalloc Hcfg Hin Htab Hmalloc h1 where_ argv h2 o2 l Ho2 Hv Hroom).
    intros [h3 o3] Ho3. call (length_spec server h1 h3 o3 _ Ho3). intros [o4 n] (Ho4 & -> & _). simpl. split; [by eapply db_put|done]. }
  destruct (db_cases server base h c_db M k H) as [[Ek Em]|(o & l & h1 & Ek & Em & Ho & H1)]; rewrite Ek, Em.
  - rewrite (at_key_none _ _ Em). destruct xx; [done|]. destruct (new_listobj server junk Hjunk Hcfg h) as (o & E & Ho). next_is E.
    apply (Hgo h o [] (db_fresh _ _ _ _ _ _ H Em) Ho).
  - rewrite (at_key_some _ _ _ Em). destruct xx; apply (Hgo h1 o l H1 Ho).
Qed.

Lemma insert_performs k where_arg pivot ele : performs (CInsert k where_arg pivot ele).
Proof using Hjunk Hcfg Hin Htab Hmalloc.
  intros h c_db M H Hne Hs He. simpl. unfold linsertCommand. fold (where_of where_arg). destruct (where_of where_arg) as [where_|]; [|done].
  destruct (db_cases server base h c_db M k H) as [[Ek Em]|(o & l & h1 & Ek & Em & Ho & H1)]; rewrite Ek, Em; [done|].
  pose proof (room_one server Hcfg) as Hroom1.
  call (convert_append_spec server junk in_data htab0 zmalloc Hcfg Hin Htab Hmalloc h1 h o l [VStr ele] Ho); [by constructor|done|done|].
  intros [h2 o2] [Ho2 Hroom]. call (walk_start server Hcfg h1 h2 o2 l LIST_TAIL Ho2); [by eapply small_int64|]. intros li (Ed & _ & Hw).
  assert (length l < iter_fuel o2)%nat as Hfl.
  { pose proof (walking_releasable server _ _ _ _ _ _ Hw) as Hrel. rewrite Ed in Hrel. by eapply iter_fuel_enough. }
  call (pivot_loop_spec server junk Hjunk in_data htab0 zmalloc Hcfg Hin Htab Hmalloc h1 o2 pivot ele where_ (iter_fuel o2) He h2 li [] l Ed Hw Hroom Hfl).
  intros [[[h3 o3] li3] ins] Hins. destruct (insert_pivot where_ pivot ele l) as [l'|]; destruct Hins as [-> Hrel]; simpl in Hrel.
  - call (list_release_spec server junk in_data htab0 Hin Htab _ _ _ _ _ Hrel). intros h4 Ho4. call (length_spec server h1 h4 o3 _ Ho4). intros [o5 n] (Ho5 & -> & _).
    simpl. split; [by eapply db_put|done].
  - call (list_release_spec server junk in_data htab0 Hin Htab _ _ _ _ _ Hrel). intros h4 Ho4. simpl. split; [by eapply db_again|done].
Qed.

(** ** One element *)

Lemma len_performs k : performs (CLen k).
Proof using.
  intros h c_db M H Hne Hs _. simpl. unfold llenCommand. destruct (db_cases server base h c_db M k H) as [[Ek Em]|(o & l & h1 & Ek & Em & Ho & H1)]; rewrite Ek.
  - by rewrite (at_key_none _ _ Em).
  - rewrite (at_key_some _ _ _ Em). call (length_spec server h1 h o l Ho). intros [o2 n] (Ho2 & -> & _). simpl. split; [by eapply db_again|done].
Qed.

Lemma index_performs k arg : performs (CIndex k arg).
Proof using Hcfg Hin Htab.
  intros h c_db M H Hne Hs Hi. simpl in Hi |- *. unfold lindexCommand. destruct (db_cases server base h c_db M k H) as [[Ek Em]|(o & l & h1 & Ek & Em & Ho & H1)]; rewrite Ek, Em; [done|].
  destruct (getLongFromObjectOrReply arg ErrNotInteger) as [e|i] eqn:Ei; [done|]. apply long_range in Ei as [Ei Hri].
  call (walk_at server Hcfg h1 h o l i LIST_TAIL Ho); [by eapply small_int64|done|congruence|]. intros li (Ed & b & t & Hw & Ew & Et).
  call (walk_next server junk in_data htab0 Hcfg Hin Htab _ _ _ _ _ _ Hw). intros [[h2 li2] e] (Ed2 & _ & Hn). rewrite Ed in Ed2.
  assert ((j ← place l i; l !! j) = t !! 0%nat) as ->.
  { rewrite Et. destruct (place l i) as [j|]; [|done]. simpl. by rewrite lookup_drop, Nat.add_0_r. }
  assert (∀ h3 r, lobj h1 h3 o l → rep h3 c_db M ∧ ReplyBulk r = ReplyBulk r) as Hend.
  { intros h3 r Ho3. split; [|done]. rewrite <-(insert_id c_db k o Ek). by eapply db_again. }
  destruct t as [|v t].
  - destruct Hn as [-> Hw2]. apply post_bind. simpl. pose proof (walking_releasable server _ _ _ _ _ _ Hw2) as Hrel. rewrite Ed2, Ew in Hrel.
    call (list_release_spec server junk in_data htab0 Hin Htab _ _ _ _ _ Hrel). intros h3 Ho3. simpl. by apply Hend.
  - destruct Hn as (e' & -> & Hf). pose proof (facing_releasable server _ _ _ _ _ _ _ _ Hf) as Hrel. unfold facing in Hf. rewrite Ed2 in Hf, Hrel. rewrite Ew in Hrel.
    destruct (list_value_spec server _ _ _ _ _ _ _ _ Hf) as (x & E1 & E2). rewrite E1. cbn [mbind option_bind]. rewrite E2. cbn [mbind option_bind].
    call (list_release_spec server junk in_data htab0 Hin Htab _ _ _ _ _ Hrel). intros h3 Ho3. simpl. by apply Hend.
Qed.

Lemma set_performs k arg ele : performs (CSet k arg ele).
Proof using Hjunk Hcfg Hin Htab Hmalloc.
  intros h c_db M H Hne Hs [He Hi]. simpl. unfold lsetCommand. destruct (db_cases server base h c_db M k H) as [[Ek Em]|(o & l & h1 & Ek & Em & Ho & H1)]; rewrite Ek, Em; [done|].
  destruct (getLongFromObjectOrReply arg ErrNotInteger) as [e|i] eqn:Ei; [done|]. apply long_range in Ei as [Ei _]. rewrite Ei in Hi. pose proof (room_one server Hcfg) as Hroom1.
  call (convert_append_spec server junk in_data htab0 zmalloc Hcfg Hin Htab Hmalloc h1 h o l [VStr ele] Ho); [by constructor|done|done|].
  intros [h2 o2] [Ho2 Hroom]. 
  assert (has_room o2 l [VStr ele]) as Hroom2 by done. apply post_bind.
  eapply post_mono; [apply (list_replace_spec server junk Hjunk in_data htab0 zmalloc Hcfg Hin Htab Hmalloc h1 h2 o2 l i (VStr ele) Ho2); [by eapply small_int64|done|done|done]|].
  intros [[h3 o3] r] H3. destruct (place l i) as [j|]; destruct H3 as [Ho3 ->]; simpl.
  - call (list_shrink_spec server junk in_data htab0 zmalloc Hcfg h1 h3 o3 _ Ho3). intros [h4 o4] Ho4. simpl. split; [by eapply db_put|done].
  - split; [by eapply db_again|done].
Qed.

(** ** Ranges *)

Lemma range_performs k arg1 arg2 : performs (CRange k arg1 arg2).
Proof using Hcfg Hin Htab.
  intros h c_db M H Hne Hs _. simpl. unfold lrangeCommand.
  destruct (getLongFromObjectOrReply arg1 ErrNotInteger) as [e|start]; [done|]. destruct (getLongFromObjectOrReply arg2 ErrNotInteger) as [e|end_]; [done|].
  destruct (db_cases server base h c_db M k H) as [[Ek Em]|(o & l & h1 & Ek & Em & Ho & H1)]; rewrite Ek.
  - rewrite (at_key_none _ _ Em). unfold range_of. rewrite drop_nil, take_nil. done.
  - rewrite (at_key_some _ _ _ Em). call (range_spec server junk in_data htab0 Hcfg Hin Htab h1 h o l start end_ false Ho); [by eapply Hs|].
    intros [[h2 o2] r] [Ho2 ->]. simpl. split; [by eapply db_again|done].
Qed.

Lemma trim_performs k arg1 arg2 : performs (CTrim k arg1 arg2).
Proof using Hcfg Hin Htab.
  intros h c_db M H Hne Hs _. simpl. unfold ltrimCommand.
  destruct (getLongFromObjectOrReply arg1 ErrNotInteger) as [e|start]; [done|]. destruct (getLongFromObjectOrReply arg2 ErrNotInteger) as [e|end_]; [done|].
  destruct (db_cases server base h c_db M k H) as [[Ek Em]|(o & l & h1 & Ek & Em & Ho & H1)]; rewrite Ek.
  - rewrite (at_key_none _ _ Em). unfold range_of. rewrite drop_nil, take_nil, store_none; done.
  - rewrite (at_key_some _ _ _ Em). call (length_spec server h1 h o l Ho). intros [o2 n] (Ho2 & -> & _). cbv zeta.
    pose proof (trim_range l start end_) as Ht. destruct (trim_ends (zlen l) start end_) as [lt rt]. destruct Ht as (Hlt & Hrt & Et).
    pose proof (Hs k l Em) as Hmax. unfold INT32_MAX in Hmax.
    call (list_del_range_spec server junk in_data htab0 Hcfg Hin Htab h1 h o2 l 0 lt Ho2 Hmax); [unfold INT32_MAX; lia|unfold INT32_MAX; lia|]. intros [h3 o3] Ho3.
    assert (zlen (cut_range l 0 lt) <= zlen l) as Hcl by (rewrite cut_front by lia; unfold zlen; rewrite length_drop; lia).
    call (list_del_range_spec server junk in_data htab0 Hcfg Hin Htab h1 h3 o3 _ (- rt) rt Ho3); [unfold INT32_MAX; lia|unfold INT32_MAX; lia|unfold INT32_MAX; lia|].
    intros [h4 o4] Ho4. rewrite Et in Ho4. call (list_removed_spec server junk in_data htab0 zmalloc Hcfg base h1 h4 c_db M k o4 _ H1 Ho4). intros [h5 db5] H5. simpl. by split.
Qed.

(** ** Removing *)

Lemma pop_performs k argv where_ : performs (CPop k argv where_).
Proof using Hcfg Hin Htab.
  intros h c_db M H Hne Hs _. simpl. unfold popGenericCommand, pop_keyed. cbv zeta. destruct (1 <? zlen argv); [done|]. destruct (argv !! 0%nat) as [arg|].
  - destruct (getPositiveLongFromObjectOrReply arg None) as [e|n] eqn:En; [done|]. apply range_long in En. rewrite bool_decide_true by done. cbn [andb].
    destruct (db_cases server base h c_db M k H) as [[Ek Em]|(o & l & h1 & Ek & Em & Ho & H1)]; rewrite Ek, Em; [done|]. rewrite (at_key_some _ _ _ Em).
    pose proof (Hne k l Em) as Hl. destruct (n =? 0) eqn:E0; zb.
    + subst n. change (Z.to_nat 0) with 0%nat. rewrite pop_none, store_same; done.
    + call (pop_range_spec server junk in_data htab0 zmalloc Hcfg Hin Htab base h1 h c_db M k o l where_ n H1 Ho Hl (Hs k l Em)); [lia|].
      intros [[h2 db2] r]. destruct (pop_many where_ (Z.to_nat n) l) as [popped l']. intros [-> H2]. by split.
  - rewrite bool_decide_false by (by intros [? ?]). cbn [andb]. change (Z.to_nat 1) with 1%nat.
    destruct (db_cases server base h c_db M k H) as [[Ek Em]|(o & l & h1 & Ek & Em & Ho & H1)]; rewrite Ek.
    + rewrite (at_key_none _ _ Em), pop_nil, store_none; done.
    + rewrite (at_key_some _ _ _ Em). change (0 =? 0) with true. cbv iota.
      call (list_pop_spec server junk in_data htab0 Hcfg Hin Htab h1 h o l where_ Ho (Hne k l Em)). intros [[h2 o2] r] (v & l' & -> & Ev & Hv & -> & Ho2).
      cbn [mbind option_bind]. rewrite Ev. cbn [mbind option_bind]. rewrite pop_one.
      call (list_removed_spec server junk in_data htab0 zmalloc Hcfg base h1 h2 c_db M k o2 _ H1 Ho2). intros [h3 db3] H3. simpl. by split.
Qed.

Lemma mpop_performs argv : performs (CMpop argv).
Proof using Hcfg Hin Htab.
  intros h c_db M H Hne Hs Ha. simpl in Ha |- *. unfold lmpopCommand. destruct (lmpop_args argv) as [[e|[[keys where_] n]]|] eqn:Ea; [done| |by destruct Ha].
  apply lmpop_args_ok in Ea. cbn [mbind option_bind]. clear Ha. induction keys as [|k keys IH]; [done|]. cbn [mpopGenericCommand pop_first].
  destruct (db_cases server base h c_db M k H) as [[Ek Em]|(o & l & h1 & Ek & Em & Ho & H1)]; rewrite Ek, Em; [exact IH|].
  pose proof (Hne k l Em) as Hl. call (length_spec server h1 h o l Ho). intros [o2 m] (Ho2 & -> & _).
  destruct (zlen l =? 0) eqn:E0; zb; [destruct Hl; by apply zlen_0_nil|]. unfold listPopRangeAndReplyWithKey, pop_keyed. rewrite (at_key_some _ _ _ Em).
  assert (delete k (<[k := o2]> c_db) = delete k c_db) as Ed by apply delete_insert_eq. rewrite <-Ed in H1.
  call (pop_range_spec server junk in_data htab0 zmalloc Hcfg Hin Htab base h1 h (<[k := o2]> c_db) M k o2 l where_ n H1 Ho2 Hl (Hs k l Em)); [lia|].
  intros [[h2 db2] r]. destruct (pop_many where_ (Z.to_nat n) l) as [popped l']. intros [-> H2]. by split.
Qed.

Lemma rem_performs k arg ele : performs (CRem k arg ele).
Proof using Hcfg Hin Htab.
  intros h c_db M H Hne Hs _. simpl. unfold lremCommand. destruct (getRangeLongFromObjectOrReply arg _ _ _) as [e|n] eqn:En; [done|].
  destruct (db_cases server base h c_db M k H) as [[Ek Em]|(o & l & h1 & Ek & Em & Ho & H1)]; rewrite Ek.
  - rewrite (at_key_none _ _ Em). rewrite remove_equal_nil. by rewrite store_none.
  - rewrite (at_key_some _ _ _ Em). set (d := if n <? 0 then LIST_HEAD else LIST_TAIL). set (t := match d with LIST_TAIL => l | LIST_HEAD => rev l end).
    assert ((if n <? 0 then listTypeInitIterator h o (-1) LIST_HEAD else listTypeInitIterator h o 0 LIST_TAIL) =
      listTypeInitIterator h o (match d with LIST_TAIL => 0 | LIST_HEAD => -1 end) d) as -> by (unfold d; by destruct (n <? 0)).
    call (walk_start server Hcfg h1 h o l d Ho); [by eapply small_int64|]. intros li (Ed & Hst & Hw). fold t in Hw.
    assert (whole d [] t = l) as Ew by (unfold whole, t; destruct d; rewrite ?app_nil_r, ?rev_involutive; done).
    assert (zlen t = zlen l) as Ezt by (rewrite <-Ew, whole_len; by rewrite zlen_nil).
    assert (length t < iter_fuel o)%nat as Hfl.
    { pose proof (walking_releasable server _ _ _ _ _ _ Hw) as Hrel. rewrite Ed, Ew in Hrel. apply iter_fuel_enough in Hrel. unfold zlen in Ezt. lia. }
    set (m := if n =? 0 then length t else Z.to_nat (Z.abs n)).
    assert (whole d [] (remove_up_to m ele t) = remove_equal n ele l) as Er.
    { unfold remove_equal, m, t, d. destruct (n <? 0) eqn:E1; zb.
      - rewrite (proj2 (Z.eqb_neq n 0)) by lia. simpl. rewrite app_nil_r. do 3 f_equal. lia.
      - simpl. destruct (n =? 0) eqn:E0; zb; [by rewrite remove_all|]. f_equal. lia. }
    call (rem_loop_spec server junk in_data htab0 Hcfg Hin Htab h1 ele (Z.abs n) (iter_fuel o) h o li [] t 0 m Hw Hst Hfl).
    { unfold m. destruct (n =? 0) eqn:E0; zb; [left; lia|right; lia]. }
    intros [[[h2 o2] li2] r] [Hrel ->]. rewrite Ed, Er in Hrel.
    assert (zlen (remove_equal n ele l) = zlen (remove_up_to m ele t)) as Ez by (rewrite <-Er, whole_len; by rewrite zlen_nil).
    call (list_release_spec server junk in_data htab0 Hin Htab _ _ _ _ _ Hrel). intros h3 Ho3. rewrite Ezt, <-Ez, Z.add_0_l. destruct (zlen l - _ =? 0) eqn:E0; zb; simpl negb; cbv iota.
    + simpl. split; [|done]. rewrite store_some; [by eapply db_put|]. intros E. rewrite E in E0. apply (Hne k l Em), zlen_0_nil. rewrite zlen_nil in E0. lia.
    + call (list_removed_spec server junk in_data htab0 zmalloc Hcfg base h1 h3 c_db M k o2 _ H1 Ho3). intros [h4 db4] H4. simpl. by split.
Qed.

(** ** Positions *)

Lemma pos_performs k ele argv : performs (CPos k ele argv).
Proof using Hcfg Hin Htab.
  intros h c_db M H Hne Hs _. simpl. unfold lposCommand. destruct (lpos_options _ _ _) as [e|a] eqn:Ea; [done|]. apply lpos_options_ok in Ea as (Hr & Hc & Hm); [|simpl; lia..].
  cbn [lpos_rank lpos_count lpos_maxlen]. destruct (db_cases server base h c_db M k H) as [[Ek Em]|(o & l & h1 & Ek & Em & Ho & H1)]; rewrite Ek.
  - rewrite (at_key_none _ _ Em). rewrite positions_nil. by destruct (lpos_count a =? -1).
  - rewrite (at_key_some _ _ _ Em). set (d := if lpos_rank a <? 0 then LIST_HEAD else LIST_TAIL). set (a' := mkLpos (Z.abs (lpos_rank a)) (lpos_count a) (lpos_maxlen a)).
    set (t := match d with LIST_TAIL => l | LIST_HEAD => rev l end).
    replace (match d with LIST_HEAD => -1 | LIST_TAIL => 0 end) with (match d with LIST_TAIL => 0 | LIST_HEAD => -1 end) by (by destruct d).
    call (walk_start server Hcfg h1 h o l d Ho); [by eapply small_int64|]. intros li (Ed & _ & Hw). fold t in Hw.
    assert (whole d [] t = l) as Ew by (unfold whole, t; destruct d; rewrite ?app_nil_r, ?rev_involutive; done).
    call (walk_length server h1 h o li [] t Hw). intros [o2 n] [Hw2 ->]. rewrite Ed, Ew.
    assert (length t < iter_fuel o2)%nat as Hfl.
    { pose proof (walking_releasable server _ _ _ _ _ _ Hw2) as Hrel. rewrite Ed, Ew in Hrel. apply iter_fuel_enough in Hrel.
      unfold t. destruct d; by rewrite ?length_rev. }
    assert (args_ok a') as Ha' by (constructor; unfold a'; simpl; lia).
    call (pos_loop_spec server junk in_data htab0 Hcfg Hin Htab h1 o2 ele (zlen l) a' (iter_fuel o2) Ha' h li [] t 0 0 Hw2 Hfl); [lia|unfold a'; simpl; lia|unfold sent, a'; simpl; lia|].
    intros [[[h2 li2] r] found_] [Hrel Hres]. rewrite Ed in Hrel, Hres. rewrite Ew in Hrel.
    call (list_release_spec server junk in_data htab0 Hin Htab _ _ _ _ _ Hrel). intros h3 Ho3. simpl. split; [by eapply db_again|]. by apply (positions_result ele a l r found_ Hr).
Qed.

(** ** Moving *)

Lemma move_push_spec h c_db M dst v whereto : rep h c_db M → value_ok v →
  post (lmoveHandlePush server junk in_data htab0 zmalloc h c_db dst v whereto) (λ '(h', db', r),
    rep h' db' (<[dst := push_many whereto [vbytes v] (at_key M dst)]> M) ∧ r = ReplyBulk (Some (vbytes v))).
Proof using Hjunk Hcfg Hin Htab Hmalloc.
  intros H Hv. unfold lmoveHandlePush. pose proof (room_one server Hcfg) as Hroom1.
  assert (∀ h1 o l, rep h1 (delete dst c_db) (delete dst M) → lobj h1 h o l →
    post ('(h, dstobj) ← listTypeTryConversionAppend server junk in_data htab0 zmalloc h o [v];
          '(h, dstobj) ← listTypePush junk in_data htab0 zmalloc h dstobj v whereto;
          '(dstobj, _) ← listTypeLength dstobj;
          s ← value_string v;
          Some (h, <[dst := dstobj]> c_db, ReplyBulk (Some s)))
      (λ '(h', db', r), rep h' db' (<[dst := push_many whereto [vbytes v] l]> M) ∧ r = ReplyBulk (Some (vbytes v)))) as Hgo.
  { intros h1 o l H1 Ho. call (convert_append_spec server junk in_data htab0 zmalloc Hcfg Hin Htab Hmalloc h1 h o l [v] Ho); [by constructor|done|done|].
    intros [h2 o2] [Ho2 Hroom]. call (list_push_spec server junk Hjunk in_data htab0 zmalloc Hcfg Hin Htab Hmalloc h1 h2 o2 l v [] whereto Ho2 Hv Hroom).
    intros [h3 o3] [Ho3 _]. call (length_spec server h1 h3 o3 _ Ho3). intros [o4 n] (Ho4 & -> & _). rewrite value_string_spec by done. simpl.
    split; [|done]. rewrite <-push_to_many. by eapply db_put. }
  destruct (db_cases server base h c_db M dst H) as [[Ek Em]|(o & l & h1 & Ek & Em & Ho & H1)]; rewrite Ek.
  - rewrite (at_key_none _ _ Em). destruct (new_listobj server junk Hjunk Hcfg h) as (o & E & Ho). next_is E. apply (Hgo h o [] (db_fresh _ _ _ _ _ _ H Em) Ho).
  - rewrite (at_key_some _ _ _ Em). apply (Hgo h1 o l H1 Ho).
Qed.

Lemma move_spec h c_db M src dst wherefrom whereto : rep h c_db M → nonempty M →
  post (lmoveGenericCommand server junk in_data htab0 zmalloc h c_db src dst wherefrom whereto) (λ '(h', db', r),
    rep h' db' (move M src dst wherefrom whereto).1 ∧ r = (move M src dst wherefrom whereto).2).
Proof using Hjunk Hcfg Hin Htab Hmalloc.
  intros H Hne. unfold lmoveGenericCommand, move, pop_keyed. change (Z.to_nat 1) with 1%nat.
  destruct (db_cases server base h c_db M src H) as [[Ek Em]|(o & l & h1 & Ek & Em & Ho & H1)]; rewrite Ek.
  { rewrite (at_key_none _ _ Em), pop_nil. done. }
  rewrite (at_key_some _ _ _ Em). pose proof (Hne src l Em) as Hl. call (length_spec server h1 h o l Ho). intros [o2 n] (Ho2 & -> & _).
  destruct (zlen l =? 0) eqn:E0; zb; [destruct Hl; by apply zlen_0_nil|].
  call (list_pop_spec server junk in_data htab0 Hcfg Hin Htab h1 h o2 l wherefrom Ho2 Hl). intros [[h3 o3] r] (v & l' & -> & Ev & Hv & -> & Ho3).
  cbn [mbind option_bind]. rewrite pop_one.
  pose proof (db_put server base h1 h3 c_db M src o3 l' H1 Ho3) as H3. call (move_push_spec h3 (<[src := o3]> c_db) (<[src := l']> M) dst v whereto H3 Hv).
  intros [[h4 db4] r4] [H4 ->].
  assert (at_key (<[src := l']> M) dst = at_key (store M src l') dst) as Eat.
  { unfold at_key. destruct l' as [|x l']; [|done]. destruct (decide (src = dst)) as [<-|Hd]; simpl; [by rewrite lookup_insert_eq, lookup_delete_eq|by rewrite lookup_insert_ne, lookup_delete_ne]. }
  rewrite Eat in H4. set (Y := push_many whereto [vbytes v] (at_key (store M src l') dst)) in *. assert (Y ≠ []) as HY by (by apply push_many_nonempty).
  destruct (db_cases server base h4 db4 _ src H4) as [[Ek4 Em4]|(o5 & x & h5 & Ek4 & Em4 & Ho5 & H5)].
  { exfalso. destruct (decide (dst = src)) as [->|Hd]; [by rewrite lookup_insert_eq in Em4|rewrite lookup_insert_ne, lookup_insert_eq in Em4 by done; done]. }
  rewrite Ek4. cbn [mbind option_bind]. call (list_removed_spec server junk in_data htab0 zmalloc Hcfg base h5 h4 db4 _ src o5 x H5 Ho5). intros [h6 db6] H6. simpl. split; [|done].
  assert (store (<[dst := Y]> (<[src := l']> M)) src x = <[dst := Y]> (store M src l')) as <-; [|done].
  destruct (decide (dst = src)) as [->|Hd].
  - rewrite lookup_insert_eq in Em4. injection Em4 as <-. rewrite store_some, !insert_insert_eq by done. destruct l'; simpl; [by rewrite insert_delete_eq|by rewrite insert_insert_eq].
  - rewrite lookup_insert_ne, lookup_insert_eq in Em4 by done. injection Em4 as <-. destruct l' as [|w l']; simpl.
    + by rewrite delete_insert_ne, delete_insert_eq by done.
    + by rewrite (insert_insert_ne _ src dst), insert_insert_eq by done.
Qed.

Lemma lmove_performs src dst arg1 arg2 : performs (CMove src dst arg1 arg2).
Proof using Hjunk Hcfg Hin Htab Hmalloc.
  intros h c_db M H Hne Hs _. simpl. unfold lmoveCommand. destruct (getListPositionFromObjectOrReply arg1) as [e|wherefrom]; [done|].
  destruct (getListPositionFromObjectOrReply arg2) as [e|whereto]; [done|]. by apply move_spec.
Qed.

Lemma command_performs c : performs c.
Proof using Hjunk Hcfg Hin Htab Hmalloc.
  destruct c.
  - apply push_performs.
  - apply insert_performs.
  - apply len_performs.
  - apply index_performs.
  - apply set_performs.
  - apply range_performs.
  - apply pop_performs.
  - apply mpop_performs.
  - apply trim_performs.
  - apply rem_performs.
  - apply pos_performs.
  - apply lmove_performs.
  - intros h c_db M H Hne _ _. by apply (move_spec h c_db M src dst LIST_TAIL LIST_HEAD).
Qed.
End Perform.
End ListPerform.
