(* ===== verification/ListHistory.v ===== *)
(** * Lists: histories of commands

    From an empty data base any sequence of the commands of t_list.c is answered as by a
    finite map from keys to lists of byte strings; no empty list is left stored, and no
    node of a quicklist is leaked. *)

From stdpp Require Import gmap.
From Stdlib Require Import String.
From S2P Require Import Prelude Util Lzf LzfProofs Listpack ListpackRepr ListpackElem ListpackEdit ListpackValues Linked Adlist Post Quicklist QuicklistNodes QuicklistHistory QuicklistExamples ListType ListRepr ListSpec ListPerform.

Module ListHistory.
Import Post Linked Quicklist QuicklistHistory ListpackValues ListType ListRepr ListEnds ListCommands ListSpec ListDb ListPerform.

Implicit Types (h : heap) (l : list (list Z)) (M : lists) (c_db : db).

(** ** No empty lists *)

Lemma store_nonempty M k l : nonempty M → nonempty (store M k l).
Proof. intros HM. destruct l as [|v l]; simpl; [by apply map_Forall_delete|]. by apply map_Forall_insert_2. Qed.

Lemma put_nonempty M k l : nonempty M → l ≠ [] → nonempty (<[k := l]> M).
Proof. intros HM Hl. by apply map_Forall_insert_2. Qed.

Lemma pivot_nonempty where_ pivot ele l l' : insert_pivot where_ pivot ele l = Some l' → l' ≠ [].
Proof. destruct l as [|v l]; [done|]. simpl. case_decide; [intros [= <-]; by destruct where_|]. destruct (insert_pivot _ _ _ _); [|done]. by intros [= <-]. Qed.

Lemma pop_keyed_nonempty M k where_ n : nonempty M → nonempty (pop_keyed M k where_ n).1.
Proof. intros HM. unfold pop_keyed. destruct (pop_many _ _ _) as [popped l]. by apply store_nonempty. Qed.

Lemma move_nonempty M src dst wherefrom whereto : nonempty M → nonempty (move M src dst wherefrom whereto).1.
Proof.
  intros HM. unfold move. pose proof (pop_keyed_nonempty M src wherefrom 1 HM) as H. destruct (pop_keyed _ _ _ _) as [M' [|v [|w r]]]; try done.
  apply put_nonempty; [exact H|]. by apply push_many_nonempty.
Qed.

Lemma step_nonempty server M c : nonempty M → list_cmd_ok server c → nonempty (list_step M c).1.
Proof.
  intros HM Hc. destruct c; simpl.
  - destruct Hc as [Ha _]. destruct (M !! k) as [l|], xx; try done; by apply put_nonempty, push_many_nonempty.
  - destruct (where_of where_arg) as [w|]; [|done]. destruct (M !! k) as [l|]; [|done]. destruct (insert_pivot _ _ _ _) as [l'|] eqn:E; [|done].
    simpl. by eapply put_nonempty, pivot_nonempty.
  - done.
  - by destruct (M !! k), (getLongFromObjectOrReply arg ErrNotInteger).
  - destruct (M !! k) as [l|] eqn:Em; [|done]. destruct (getLongFromObjectOrReply _ _) as [|i]; [done|]. destruct (place l i) as [j|]; [|done]. apply put_nonempty; [done|].
    intros E. apply (f_equal length) in E. rewrite length_insert in E. by apply (HM k l Em), length_zero_iff_nil.
  - by destruct (getLongFromObjectOrReply arg1 ErrNotInteger), (getLongFromObjectOrReply arg2 ErrNotInteger).
  - destruct (1 <? zlen argv); [done|]. destruct (argv !! 0%nat) as [arg|].
    + destruct (getPositiveLongFromObjectOrReply _ _) as [|n]; [done|]. destruct (M !! k); [|done].
      pose proof (pop_keyed_nonempty M k where_ n HM) as H. by destruct (pop_keyed _ _ _ _).
    + pose proof (pop_keyed_nonempty M k where_ 1 HM) as H. by destruct (pop_keyed _ _ _ _).
  - destruct (lmpop_args argv) as [[|[[keys w] n]]|]; try done. induction keys as [|k keys IH]; [done|]. simpl. destruct (M !! k); [|done].
    pose proof (pop_keyed_nonempty M k w n HM) as H. by destruct (pop_keyed _ _ _ _).
  - destruct (getLongFromObjectOrReply arg1 ErrNotInteger), (getLongFromObjectOrReply arg2 ErrNotInteger); try done. by apply store_nonempty.
  - destruct (getRangeLongFromObjectOrReply _ _ _ _); [done|]. by apply store_nonempty.
  - by destruct (lpos_options _ _ _).
  - destruct (getListPositionFromObjectOrReply arg1), (getListPositionFromObjectOrReply arg2); try done. by apply move_nonempty.
  - by apply move_nonempty.
Qed.

(** ** Histories *)

(** The commands are valid and at no time does a list have 2^31 elements. *)
Fixpoint cmds_ok (server : redisServer) M (cs : list list_cmd) : Prop :=
  match cs with
  | [] => True
  | c :: cs => small M ∧ list_cmd_ok server c ∧ cmds_ok server (list_step M c).1 cs
  end.

#[export] Instance list_cmd_ok_dec server c : Decision (list_cmd_ok server c).
Proof. destruct c; unfold list_cmd_ok, str_ok, wf_bytes, is_byte; try apply _. destruct (Util.string2ll arg); apply _. Defined.
#[export] Instance small_dec M : Decision (small M).
Proof. unfold small. apply _. Defined.
#[export] Instance cmds_ok_dec server cs : ∀ M, Decision (cmds_ok server M cs).
Proof. induction cs as [|c cs IH]; intros M; simpl; [apply _|]. apply and_dec; [apply _|]. apply and_dec; [apply _|]. apply IH. Defined.

Section History.
Context (server : redisServer) (junk : Z) (Hjunk : is_byte junk) (in_data : heap → Z) (htab0 : heap → Z → Z) (zmalloc : heap → address).
Context (Hcfg : config_ok server).
Context (Hin : ∀ h, Lzf.MAX_OFF <= in_data h ∧ in_data h + INT32_MAX < 2 ^ 64) (Htab : ∀ h i, 0 <= htab0 h i < 2 ^ 64).
Context (Hmalloc : ∀ h, h !! zmalloc h = None).

Lemma list_run_refines base cs : ∀ h c_db M, db_rep server base h c_db M → nonempty M → cmds_ok server M cs →
  post (list_run server junk in_data htab0 zmalloc h c_db cs) (λ '(h', db', rs), db_rep server base h' db' (list_steps M cs).1 ∧
    rs = (list_steps M cs).2 ∧ nonempty (list_steps M cs).1).
Proof using Hjunk Hcfg Hin Htab Hmalloc.
  induction cs as [|c cs IH]; intros h c_db M H HM Hok; [done|]. destruct Hok as (Hs & Hc & Hok). simpl.
  call (command_performs server junk Hjunk in_data htab0 zmalloc Hcfg Hin Htab Hmalloc base c h c_db M H HM Hs Hc). intros [[h1 db1] r] [H1 ->].
  pose proof (step_nonempty server M c HM Hc) as HM1. destruct (list_step M c) as [M1 r1]. simpl in *.
  call (IH h1 db1 M1 H1 HM1 Hok). intros [[h2 db2] rs] (H2 & -> & HM2). destruct (list_steps M1 cs) as [M2 rs2]. simpl in *. by split.
Qed.

(** (C5) Whole histories of list commands: from an empty data base any sequence of LPUSH,
    RPUSH, LPUSHX, RPUSHX, LINSERT, LLEN, LINDEX, LSET, LRANGE, LPOP, RPOP, LMPOP, LTRIM,
    LREM, LPOS, LMOVE and RPOPLPUSH, with repeated or missing keys and bad arguments, runs
    without an invalid access or a failed assertion through every change of encoding,
    and is answered as by a finite map from keys to lists of byte strings.  A list that
    becomes empty is deleted, and once no key is left the heap is the one there was at
    the beginning.  Strings are shorter than 2^31 bytes, lists shorter than 2^31
    elements, list-max-listpack-size is between -4 and 32767 and list-compress-depth at
    most 65535 ([config_ok]); one command adds at most as many elements as a listpack may
    take then ([arg_room]), the index of LINDEX is not LONG_MIN and that of LSET is an
    [int], the number of keys of LMPOP does not overflow the sums of the code, and
    allocation succeeds. *)
Theorem lists_refine_map (base : heap) cs : cmds_ok server ∅ cs →
  ∃ h' db', list_run server junk in_data htab0 zmalloc base ∅ cs = Some (h', db', (list_steps ∅ cs).2) ∧
    db_rep server base h' db' (list_steps ∅ cs).1 ∧ nonempty (list_steps ∅ cs).1 ∧ ((list_steps ∅ cs).1 = ∅ → h' = base).
Proof using Hjunk Hcfg Hin Htab Hmalloc.
  intros Hok. assert (nonempty ∅) as HM by apply map_Forall_empty. pose proof (list_run_refines base cs base ∅ ∅ (db_none server base) HM Hok) as H.
  apply post_ex in H as ([[h' db'] rs] & E & H & -> & HM'). exists h', db'. split; [done|]. split; [done|]. split; [done|].
  intros E0. rewrite E0 in H. by apply db_rep_empty in H.
Qed.
End History.
End ListHistory.

(** * Lists: concrete histories

    A history of commands for the refinement theorem, and two findings: the index that
    LSET truncates, and the 16-bit count of a node that wraps. *)

Module ListExamples.
Import Post Linked Quicklist QuicklistNodes QuicklistHistory QuicklistExamples Listpack ListpackRepr ListpackElem ListpackEdit ListpackValues ListType ListRepr ListEnds ListCommands ListSpec ListDb ListPerform ListHistory.

(** At most two elements in a listpack, one node at each end not compressed. *)
Definition tiny : redisServer := mkServer 2 1.
(** The default configuration. *)
Definition usual : redisServer := mkServer (-2) 0.

Lemma tiny_ok : config_ok tiny.
Proof. split; vm_compute; split; discriminate. Qed.
Lemma usual_ok : config_ok usual.
Proof. split; vm_compute; split; discriminate. Qed.

Definition bs (s : string) : list Z := bytes_of_string s.

Definition commands : list list_cmd :=
  [CPush (bs "k") [bs "a"; bs "12"] LIST_TAIL false; CPush (bs "k") [bs "b"; text 99; bs "a"] LIST_HEAD false; CPush (bs "none") [bs "a"] LIST_HEAD true;
   CInsert (bs "k") (bs "BEFORE") (bs "12") (text 100); CInsert (bs "k") (bs "after") (bs "nothere") (bs "y"); CInsert (bs "k") (bs "beside") (bs "a") (bs "y");
   CLen (bs "k"); CIndex (bs "k") (bs "-2"); CIndex (bs "k") (bs "x"); CIndex (bs "k") (bs "6"); CSet (bs "k") (bs "1") (bs "-7"); CSet (bs "k") (bs "9") (bs "-7");
   CRange (bs "k") (bs "-4") (bs "100"); CPos (bs "k") (bs "a") []; CPos (bs "k") (bs "a") [bs "rank"; bs "-1"; bs "COUNT"; bs "0"]; CPos (bs "k") (bs "a") [bs "rank"; bs "0"];
   CMove (bs "k") (bs "m") (bs "left") (bs "RIGHT"); CMove (bs "m") (bs "m") (bs "left") (bs "left"); CRpoplpush (bs "k") (bs "m"); CMpop [bs "2"; bs "none"; bs "m"; bs "LEFT"; bs "COUNT"; bs "5"];
   CRem (bs "k") (bs "-1") (bs "a"); CTrim (bs "k") (bs "1") (bs "-1"); CPop (bs "k") [] LIST_TAIL; CPop (bs "k") [bs "2"] LIST_HEAD; CPop (bs "k") [bs "-1"] LIST_HEAD; CPop (bs "k") [bs "1"; bs "2"] LIST_HEAD; CLen (bs "k")].

Lemma list_commands_ok : cmds_ok tiny ∅ commands.
Proof. apply (bool_decide_unpack _). vm_compute. exact I. Qed.

(** No key is left at the end. *)
Example answers : list_steps ∅ commands =
  (∅, [ReplyInt 2; ReplyInt 5; ReplyInt 0; ReplyInt 6; ReplyInt (-1); ReplyError ErrSyntax; ReplyInt 6; ReplyBulk (Some (text 100)); ReplyError ErrNotInteger; ReplyBulk None;
       ReplyOK; ReplyError ErrIndex; ReplyArray (Some [bs "b"; bs "a"; text 100; bs "12"]); ReplyInt 0; ReplyInts [3; 0]; ReplyError ErrRankZero;
       ReplyBulk (Some (bs "a")); ReplyBulk (Some (bs "a")); ReplyBulk (Some (bs "12")); ReplyKeyed (bs "m") [bs "12"; bs "a"];
       ReplyInt 1; ReplyOK; ReplyBulk (Some (text 100)); ReplyArray (Some [bs "b"]); ReplyError ErrNotPositive; ReplyError ErrArity; ReplyInt 0]).
Proof. vm_compute. reflexivity. Qed.

Lemma lists_refine_map_witness :
  cmds_ok tiny ∅ commands ∧ ∃ h' db', list_run tiny 170 in_data htab0 next_cell ∅ ∅ commands = Some (h', db', (list_steps ∅ commands).2) ∧
    db_rep tiny ∅ h' db' (list_steps ∅ commands).1 ∧ nonempty (list_steps ∅ commands).1 ∧ ((list_steps ∅ commands).1 = ∅ → h' = ∅).
Proof.
  split; [exact list_commands_ok|].
  exact (lists_refine_map tiny 170 byte_ok in_data htab0 next_cell tiny_ok in_data_ok htab0_ok next_cell_free ∅ commands list_commands_ok).
Defined.

(** LSET passes its [long] index to an [int] parameter: 2^32 is taken for 0. *)
Example lset_truncates_index :
  (λ r, r.2) <$> list_run usual 170 in_data htab0 next_cell ∅ ∅
    [CPush (bs "k") [bs "a"] LIST_TAIL false; CSet (bs "k") (bs "4294967296") (bs "b"); CIndex (bs "k") (bs "4294967296"); CIndex (bs "k") (bs "0")] =
  Some [ReplyInt 1; ReplyOK; ReplyBulk None; ReplyBulk (Some (bs "b"))].
Proof. vm_compute. reflexivity. Qed.

(** ** A count that wraps

    With a negative list-max-listpack-size the conversion looks at the bytes to be added
    only, not at their number; empty strings have none.  A command with 65536 of them
    makes a listpack of as many elements.  The next push turns it into a node of a
    quicklist, whose 16-bit count becomes 0: all elements are lost but the new one. *)

Definition empties (n : nat) : list (list Z) := replicate n [128].

Lemma total_empties n : total (empties n) = 7 + 2 * Z.of_nat n.
Proof.
  unfold total, body, LP_HDR_SIZE. assert (zlen (mjoin (entry <$> empties n)) = 2 * Z.of_nat n) as ->; [|lia].
  induction n as [|n IH]; [done|]. unfold empties in *. rewrite replicate_S, fmap_cons. change (mjoin (entry [128] :: ?l)) with (entry [128] ++ mjoin l).
  rewrite zlen_app, IH. change (zlen (entry [128])) with 2. lia.
Qed.

Lemma append_empty lp n : repr lp (empties n) → Z.of_nat n < 2 ^ 30 → ∃ lp', lp_append 170 [] lp = Some lp' ∧ repr lp' (empties (S n)).
Proof.
  intros Hr Hn. destruct (proj2 (lp_push_correct 170) lp (empties n) (inl []) Hr) as [H _]; [by vm_compute|].
  change (encode_entry (inl [])) with [128] in H. assert (empties n ++ [[128]] = empties (S n)) as E by (unfold empties; by rewrite <-(replicate_S_end n [128])). rewrite E in H.
  destruct (stores_fits _ _ _ H) as (lp' & E' & Hr'); [rewrite total_empties; unfold UINT32_MAX; lia|]. exists lp'. split; [|done]. unfold lp_append. by rewrite E'.
Qed.

Lemma push_empties h m : ∀ n lp, repr lp (empties n) → Z.of_nat (n + m) < 2 ^ 30 →
  ∃ lp', push_all 170 in_data htab0 next_cell h (OListpack lp) (replicate m []) LIST_TAIL = Some (h, OListpack lp') ∧ repr lp' (empties (n + m)).
Proof.
  induction m as [|m IH]; intros n lp Hr Hm; [exists lp; by rewrite Nat.add_0_r|]. destruct (append_empty lp n Hr) as (lp1 & E & Hr1); [lia|].
  destruct (IH (S n) lp1 Hr1) as (lp2 & E2 & Hr2); [lia|]. exists lp2. rewrite <-Nat.add_succ_comm. split; [|done].
  rewrite replicate_S. cbn [push_all listTypePush]. unfold lp_append in E. rewrite E. cbn [mbind option_bind]. exact E2.
Qed.

Lemma no_bytes m : added_size (Some (VStr <$> replicate m [])) = (0, Z.of_nat m).
Proof.
  unfold added_size. assert (zlen (VStr <$> replicate m []) = Z.of_nat m) as -> by (unfold zlen; by rewrite length_fmap, length_replicate). f_equal.
  induction m as [|m IH]; [done|]. rewrite replicate_S. exact IH.
Qed.

(** The first command: one listpack, however many empty strings there are. *)
Lemma rpush_empties h k m : 0 < Z.of_nat m < 2 ^ 30 →
  ∃ lp, rpushCommand usual 170 in_data htab0 next_cell h ∅ k (replicate m []) = Some (h, {[k := OListpack lp]}, ReplyInt (Z.of_nat m)) ∧ repr lp (empties m).
Proof.
  intros Hm. unfold rpushCommand, pushGenericCommand. rewrite lookup_empty. destruct (new_listpack 170 0 byte_ok) as (lp0 & E0 & Hr0).
  unfold createListListpackObject. rewrite E0. cbn [mbind option_bind]. unfold listTypeTryConversionAppend, listTypeTryConversionRaw. rewrite bool_decide_false by done.
  unfold listTypeTryConvertListpack. rewrite no_bytes. vm_compute in E0. injection E0 as <-.
  replace (lpBytes _) with (Some 7) by (by vm_compute). replace (lpLength _) with (Some (0, [7; 0; 0; 0; 0; 0; 255])) by (by vm_compute). cbn [mbind option_bind].
  rewrite Z.add_0_l, !uwrap_id by lia. change (list_max_listpack_size usual) with (-2). replace (quicklistNodeExceedsLimit (-2) _ (Z.of_nat m)) with (Some false).
  2: { unfold quicklistNodeExceedsLimit, quicklistNodeLimit. simpl. done. }
  cbn [mbind option_bind]. destruct (push_empties h m 0 _ Hr0) as (lp & E & Hr); [lia|]. rewrite E. cbn [mbind option_bind listTypeLength].
  destruct (lpLength_correct _ _ Hr) as (lp' & E' & Hr'). rewrite E'. cbn [mbind option_bind]. exists lp'. split; [|done]. do 3 f_equal. unfold empties, zlen. by rewrite length_replicate.
Qed.

(** The second one. *)
Lemma rpush_wraps lp : repr lp (empties (Z.to_nat 65536)) →
  ∃ h c_db, rpushCommand usual 170 in_data htab0 next_cell ∅ {[bs "k" := OListpack lp]} (bs "k") [[120]] = Some (h, c_db, ReplyInt 1).
Proof.
  intros Hr. unfold rpushCommand, pushGenericCommand. rewrite lookup_singleton_eq. cbn [mbind option_bind]. unfold listTypeTryConversionAppend, listTypeTryConversionRaw.
  rewrite bool_decide_false by done. unfold listTypeTryConvertListpack. change (added_size (Some (VStr <$> [[120]]))) with (1, 1). cbv beta iota zeta.
  assert (∀ lp, repr lp (empties (Z.to_nat 65536)) → lpBytes lp = Some 131079) as Hb.
  { intros lp0 (num & slack & -> & _ & _ & Ht & _). unfold lpBytes. rewrite total_bytes_image by done. by rewrite total_empties. }
  assert (∀ lp, repr lp (empties (Z.to_nat 65536)) → ∃ lp', lpLength lp = Some (65536, lp') ∧ repr lp' (empties (Z.to_nat 65536))) as Hl.
  { intros lp0 Hr0. destruct (lpLength_correct _ _ Hr0) as (lp1 & E & Hr1). exists lp1. split; [|done]. rewrite E. assert (zlen (empties (Z.to_nat 65536)) = 65536) as ->; [|done].
    unfold zlen, empties. by rewrite length_replicate. }
  rewrite (Hb _ Hr). destruct (Hl _ Hr) as (lp1 & -> & Hr1). cbn [mbind option_bind]. replace (quicklistNodeExceedsLimit _ _ _) with (Some true) by (by vm_compute). cbn [mbind option_bind].
  destruct (Hl _ Hr1) as (lp2 & -> & Hr2). cbn [mbind option_bind]. change (negb (65536 =? 0)) with true. cbv iota.
  unfold quicklistAppendListpack. destruct (Hl _ Hr2) as (lp3 & E3 & Hr3). rewrite E3. destruct (quicklistCreateNode next_cell ∅) as [h1 x] eqn:E1.
  cbn [mbind option_bind]. rewrite (Hb _ Hr3). vm_compute in E1. injection E1 as <- <-. clear.
  match goal with |- ∃ h d, ?t = _ => let v := eval vm_compute in t in change (∃ h d, v = Some (h, d, ReplyInt 1)) end. by eexists _, _.
Qed.

Lemma rpush_loses_elements : ∃ h1 db1 h2 db2,
  rpushCommand usual 170 in_data htab0 next_cell ∅ ∅ (bs "k") (replicate (Z.to_nat 65536) []) = Some (h1, db1, ReplyInt 65536) ∧
  rpushCommand usual 170 in_data htab0 next_cell h1 db1 (bs "k") [[120]] = Some (h2, db2, ReplyInt 1).
Proof.
  destruct (rpush_empties ∅ (bs "k") (Z.to_nat 65536)) as (lp & E & Hr); [lia|]. destruct (rpush_wraps lp Hr) as (h2 & db2 & E2).
  exists ∅, {[bs "k" := OListpack lp]}, h2, db2. rewrite Z2Nat.id in E by done. by split.
Qed.
End ListExamples.
